(* ===== verification/_CoqProject ===== *)
-Q . S2P
Prelude.v
Words.v
Parallel.v
RbBits.v
Fit.v
RbRows.v
RbSolve.v
RbCodec.v
RbOkvs.v
RbTypes.v
PermApi.v
BitBuf.v
BitVec.v
Feistel.v
Hctr2.v
AesNi.v
Aes.v
Prng.v
Sneik.v
Small.v
Keccak.v
Shake.v
ConsPi.v
Xoodoo.v
Permutation.v
MlKem.v
KemBits.v
Kemeleon.v
EcKem.v
Net.v
BtIo.v
Rows.v
KemRows.v
Protocol.v
Session.v
Connect.v
BtConnect.v
Pqpsi.v
EndToEnd.v
PxUtil.v
PaxosHash.v
Paxos.v
PaxosTri.v
Gf128.v
PxVec.v
GfMat.v
PaxosFc.v
PaxosBack.v
PaxosGf.v
PaxosBin.v
PaxosSolve.v
PxParam.v
BinTables.v
BinSize.v
Baxos.v
BaxosMem.v
BaxosBins.v
BaxosDecode.v
BaxosRun.v
