(* ===== verification/Prelude.v ===== *)
(** Verification library for PQ-PSI, a two-party private set intersection protocol. This file is the root; it also
    holds the shared prelude (exceptions, loops with their invariant rules, sorting and list lemmas).

    * The program

    The receiver (party 0) makes a KEM key pair per item, permutes the public keys, masks each with a stream derived
    from its item, encodes the rows as an oblivious key-value store (OKVS) keyed by the items and sends the
    table. The sender (party 1) decodes the table at its own items, removes mask and permutation,
    encapsulates to every row, hides the ciphertexts the same way and sends a second table. The
    receiver decodes it and counts the rows that its secret keys accept. Sources: src/frontend, with the
    primitives, the generator and the channels it calls in src/cryptoTools and src/thirdparty.

    * Files and what they model

    - Words: machine words, 128-bit blocks as numbers below 2^128 stored as 16 little-endian bytes, byte buffers,
      sums of bits.
    - Parallel: the thread pools of okvs/rb/parallel.h (Module Rb) and pqpsi/protocols/tools/parallel.h (Tools): the ranges
      given to the workers. A parallel loop is its ranges run in order; [parallel_any_interleaving]
      shows that every interleaving gives the same array when iteration [i] writes entry [i] only.
    - RbBits, Fit, RbRows, RbSolve, RbCodec, RbOkvs, RbTypes: okvs/rb. 256-bit masks (bits.h), the parameter fit in IEEE binary64
      (fit.h, types.h), hashing of keys to rows (rows.h), banded elimination and back substitution, and
      the encode and decode overloads (codec.h). The solver is proved once against the classes
      [RhsStoreLaws] and [TableStoreLaws], which the nested and the flat layouts implement.
    - PermApi, BitBuf, Feistel, Hctr2, Sneik, Small, ConsPi, Xoodoo, Permutation: permutation/. The interface [Perm] with its
      laws [PermLaws], the SHAKE256 Feistel network, HCTR2, the inverse of SNEIK-f512, Construction-Pi over
      small permutations, the inverse of Xoodoo, and the choice between them. The forward SNEIK and
      Xoodoo permutations are modelled from thirdparty/ because the code inverts them.
    - AesNi, Aes, Prng: cryptoTools/Crypto. The AES instructions of the processor as a class with laws and an instance written from
      FIPS-197, the key schedules and batched routines of AES.cpp, and the generator of PRNG.cpp.
    - Keccak, Shake: thirdparty/. KeccakTools (Keccak-f.h, Keccak-f.cpp) with its inverse, and the compact SHA-3
      and SHAKE of XKCP, which is shown to be the sponge of FIPS 202 over the first.
    - MlKem, KemBits, Kemeleon, EcKem: kem/. The wrapper of mlkem-native, the Kemeleon codec that turns ML-KEM keys and
      ciphertexts into near-uniform strings, and the KEM on Curve25519.
    - Rows, KemRows: pqpsi/protocols/tools (base.h, mask.h, kem_rows.h): vectors of rows, masks, hit counting, and the two KEMs over
      the rows, behind the class [RowKemLaws].
    - Net: protocols/net.h. A buffer cut into pieces for several channels; channels are a class with laws.
    - BtIo: the channels of cryptoTools/Network (BtSocket.h, BtIOService.cpp, BtChannel.cpp). Each direction of a connection is a send
      half, the bytes on the wire and a receive half, with one step per handler; its instance of the class of Net is [bt_laws].
    - BtConnect: the handshake of BtEndpoint.cpp and BtAcceptor.cpp, which gives every socket to the channel of its name.
    - Protocol, Session: protocols/party.h, recv.cpp, send.cpp. The local phases of the two parties, and their interleaving over
      the channels as a step relation on the states of both parties and both directions.
    - Connect: pqpsi.cpp. The settings of the environment, ports and names of channels, and the first byte over every channel.
    - Pqpsi: pqpsi.h, pqpsi.cpp, check.cpp. The checks and choices before the parties run, and the sets of a test run.
    - BitVec: the bit vectors of cryptoTools/Common (BitVector.cpp, BitIterator.h) as lists of bits.
    - PxUtil, PaxosHash, Paxos, PaxosTri, Gf128, PxVec, GfMat, PaxosFc, PaxosBack, PaxosGf, PaxosBin, PaxosSolve: the solver of the
      VOLE-PSI library that is kept as a baseline (src/volepsi/volePSI: PxUtil.h, Paxos.h, PaxosImpl.h). The containers (a
      permutation, the buckets of columns by weight), the rows of an input, [setInput] and the triangulation, the field and its
      matrices, values behind the class [Helper], the two back substitutions, and encoding and decoding.
    - PxParam, BinTables, BinSize: the parameters of that solver (PaxosParam::init) and the size of its bins (SimpleIndex.cpp).
    - Baxos, BaxosMem, BaxosBins, BaxosDecode, BaxosRun: its binned version (class Baxos of Paxos.h, PaxosImpl.h), whose threads
      share the memory of the bins. The model; the items that the first phase leaves in a bin; the encoding of the bins; decoding by
      batches and ranges; the whole run.
    - EndToEnd: the composition. The laws that the components assume of AES, Keccak, SHAKE256 and the generator are
      discharged by Aes, Keccak, Shake and Prng, and a whole run is stated over the result.

    State and operations keep the names of the code. A mutable argument is passed in and returned; a call that
    throws returns [Throw] of the exception; a loop is [for_], [forR] (its body may throw), [forC] (it
    may break or return) or one of their downward versions. Lengths and indices are [nat], words
    are [Z] with their wrap-around, doubles are the standard library's [spec_float].

    * What the theorems show

    - Delivery ([pqpsi_runs], from [warm_channels] and [pqpsi_delivers]): every run of two equally configured parties exchanges
      its first bytes, then ends after at most nine steps with idle channels and a hit count that is at least the
      number of common items and at most the size of the set, provided the masks of each party's items
      are independent. No table of the right size makes a party throw ([peer_tables_safe]); a
      failed encoding is not reported ([encode_failure_silent]).
    - OKVS: round trips of the overloads, success exactly when the masks of the keys are linearly independent, types and sizes
      of tables, rejection of malformed input, and what the fit guarantees.
    - Permutations: each is a bijection of its rows with the inverse the code computes; Construction-Pi refines an abstract
      round function on one number; the table-driven HCTR2 multiplication equals the field product.
      [make_bijection] says so of whatever object the configuration selects, without an assumption on a primitive.
    - Primitives: the batched AES equals the one-block AES and AESDec inverts it; the bytes of a generator are one stream
      however they are asked for; Keccak and its inverse undo each other at every width in bytes;
      the hash functions are the sponges of FIPS 202.
    - KEMs: the codec round trips and is total on strings of its size; its rejection sampling ends; both KEMs accept their own
      encapsulations.
    - Threads and channels: ranges partition the work, pieces partition a buffer, and every order of the threads delivers;
      messages arrive whole and in order however TCP cuts the bytes ([channel_delivers]), a receive of the
      wrong size stops its queue ([channel_mismatch]), and every channel gets its own socket ([sockets_meet]).
    - VOLE-PSI: an encoding decodes to its values or fails for a reason that is named ([solve_decode]), with bins and threads
      in every interleaving ([baxos_solve_decode]); the triangulation ends
      in triangular form; the batched rows are the single ones; a matrix that [gf128Inv] returns is an inverse, but the
      pivot search rejects some invertible matrices ([gf128InvMtx_rejects]); the exact search for a bin size ends.
    - Bit vectors: every operation is the operation on lists of bits whatever the alignment; [==] and [nChoosek] have exceptions.
    - Setup: order and outcome of the checks, the accepted default parameters, and two entry points that always throw.

    * Bounds and fuel

    Messages and tables are below 4 GiB, the 32-bit size of an operation ([msg_ok], [send_truncates]). A run of a connection takes at
    most seven steps per message, one more per byte, and four per receive. Structural recursion on
    counters gives termination, except: the loop of the generator's [get] (the bytes asked for are enough fuel: [gets_stream];
    after a move no fuel is: [unseeded_generators]), [nextWord] of the codec (fuel: [encodeCipher_returns] shows that it
    ends when the random stream has no run of zero words as long as the fuel) and [freshBlock] of check.cpp ([pair_sets]: fuel 1 is
    enough when the generator does not repeat itself). In the solver of VOLE-PSI every turn of the triangulation fixes a row (fuel: the
    rows), every turn of [getFCInv] cancels a main column (fuel: the main rows), a walk of a bucket sees every node once (fuel:
    the nodes), and the search for a bin size has fuel 8 n + 8 for n balls; all are shown to be enough. Its buckets are limited to
    weight 199, and an input needs two more sparse columns than rows; the threads of the binned solver need room for their items in every
    bin ([Solvable]), which the code does not check. Computations over concrete sizes are kept
    small (default parameters up to 256 keys, and 2^7 to 2^11 for the table of the README).

    * Parameters

    Each component takes what it calls as section variables with named hypotheses, so that it is proved against an interface: AES-128
    ([aes_ok], [aes_inverse]), SHAKE256, Keccak-p ([keccak_laws]), the outputs of the generator and the channels
    ([ChannelLaws]). These are discharged (EndToEnd, [bt_laws]). What stays a parameter: mlkem-native
    ([native_laws]), the generators of libsodium, Monocypher ([ec_laws]), [std::log2], the number of
    hardware threads, the environment, and the AES instructions, whose class [AesNiLaws] has the
    instance of FIPS-197; for VOLE-PSI the functions of libOTe and boost: libdivide, the AES hash, the product of GF(2^128) (class [Gf128]
    with an instance), the inversion of binary matrices, [choose] and [ithCombination], binomial sums, [std::pow]. [params_agree] and [independent] are conditions on the caller's parameters
    and items.

    * Not modelled

    The calls of the operating system on sockets (resolving, listening, retrying, errors of a read or a write, stopping), the
    worker threads of the I/O service, clocks, traces and the simulated network delay, the data race on
    the error slot of the worker threads (reported as a finding), statistical claims
    (uniformity, the failure probability of the OKVS, false hits) and memory limits. mlkem-native and
    Monocypher, the rest of cryptoTools (curves, SHA-1, logs), KeccakTools' symbolic lanes,
    the other parts of XKCP, tests and benchmarks: the
    protocol does not call them, or calls them through the parameters above. Of VOLE-PSI, its protocols (coroutines over
    libOTe), the debug checks and the printed forms of a triangulation. *)
From Stdlib Require Export ZArith Lia Bool.
From stdpp Require Export base list numbers strings.

(** * Exceptions: the C++ exceptions a translated function can raise *)

Inductive exn : Type :=
  | InvalidArgument (msg : string)
  | RuntimeError (msg : string)
  | OutOfRange (msg : string).

(** Outcome of a function that can throw. *)
Inductive Res (A : Type) : Type :=
  | Ok (a : A)
  | Throw (e : exn).
Arguments Ok {A} a.
Arguments Throw {A} e.

#[export] Instance Res_ret : MRet Res := fun A => @Ok A.
#[export] Instance Res_bind : MBind Res := fun A B f m =>
  match m with Ok a => f a | Throw e => Throw e end.
#[export] Instance Res_fmap : FMap Res := fun A B f m =>
  match m with Ok a => Ok (f a) | Throw e => Throw e end.

(** [throw_if c e]: the guard [if (c) throw e;]. *)
Definition throw_if (c : bool) (e : exn) : Res unit :=
  if c then Throw e else Ok tt.

Definition is_ok {A} (m : Res A) : bool :=
  match m with Ok _ => true | Throw _ => false end.

#[export] Instance exn_eq_dec : EqDecision exn.
Proof. solve_decision. Defined.

#[export] Instance Res_eq_dec {A} `{EqDecision A} : EqDecision (Res A).
Proof. solve_decision. Defined.

Lemma bind_Ok {A B} (m : Res A) (f : A → Res B) b :
  m ≫= f = Ok b ↔ ∃ a, m = Ok a ∧ f a = Ok b.
Proof.
  destruct m as [a|e]; cbn; split.
  - by exists a.
  - by intros (? & [= <-] & ?).
  - discriminate.
  - by intros (? & ? & ?).
Qed.

Lemma throw_if_false c e : c = false → throw_if c e = Ok tt.
Proof. by intros ->. Qed.

Lemma throw_if_Ok c e u : throw_if c e = Ok u ↔ c = false.
Proof. by destruct c, u. Qed.

Lemma mret_Ok {A} (a b : A) : @mret Res _ A a = Ok b → a = b.
Proof. by intros [= ->]. Qed.

(** Splits a hypothesis [m ≫= f = Ok b] into the runs of its parts. *)
Ltac inv_ok :=
  repeat match goal with
  | H : mbind _ ?m = Ok _ |- _ => apply bind_Ok in H as (? & ? & H)
  | H : throw_if _ _ = Ok _ |- _ => apply throw_if_Ok in H
  | H : Ok _ = Ok _ |- _ => injection H; clear H; intros; subst
  | H : Throw _ = Ok _ |- _ => discriminate H
  | H : @mret Res _ _ _ = _ |- _ => apply mret_Ok in H; subst
  end.

(** * Loops *)

(** [for_ lo hi body s] is [for (i = lo; i < hi; ++i) s = body(i, s);]. *)
Fixpoint iter_ {S : Type} (k i : nat) (body : nat → S → S) (s : S) : S :=
  match k with
  | O => s
  | Datatypes.S k' => iter_ k' (Datatypes.S i) body (body i s)
  end.

Definition for_ {S : Type} (lo hi : nat) (body : nat → S → S) (s : S) : S :=
  iter_ (hi - lo) lo body s.

(** The same loop with a body that can throw. *)
Fixpoint iterR {S : Type} (k i : nat) (body : nat → S → Res S) (s : S) : Res S :=
  match k with
  | O => Ok s
  | Datatypes.S k' =>
      match body i s with
      | Ok s' => iterR k' (Datatypes.S i) body s'
      | Throw e => Throw e
      end
  end.

Definition forR {S : Type} (lo hi : nat) (body : nat → S → Res S) (s : S) : Res S :=
  iterR (hi - lo) lo body s.

(** A loop whose body may also [break] or [return]. *)
Inductive ctl (S R : Type) : Type :=
  | Continue (s : S)
  | Break (s : S)
  | Return (r : R).
Arguments Continue {S R} s.
Arguments Break {S R} s.
Arguments Return {S R} r.

Fixpoint iterC {S R : Type} (k i : nat) (body : nat → S → Res (ctl S R)) (s : S)
  : Res (S + R) :=
  match k with
  | O => Ok (inl s)
  | Datatypes.S k' =>
      match body i s with
      | Ok (Continue s') => iterC k' (Datatypes.S i) body s'
      | Ok (Break s') => Ok (inl s')
      | Ok (Return r) => Ok (inr r)
      | Throw e => Throw e
      end
  end.

Definition forC {S R : Type} (lo hi : nat) (body : nat → S → Res (ctl S R)) (s : S)
  : Res (S + R) := iterC (hi - lo) lo body s.

(** [for (i = n - 1; i >= 0; --i) s = body(i, s);]. *)
Fixpoint for_down {S : Type} (n : nat) (body : nat → S → S) (s : S) : S :=
  match n with
  | O => s
  | Datatypes.S n' => for_down n' body (body n' s)
  end.

Fixpoint for_downR {S : Type} (n : nat) (body : nat → S → Res S) (s : S) : Res S :=
  match n with
  | O => Ok s
  | Datatypes.S n' =>
      match body n' s with
      | Ok s' => for_downR n' body s'
      | Throw e => Throw e
      end
  end.

(** ** Invariant rules for the loops *)

Section loop_rules.
Context {S R : Type}.

Lemma for_inv (P : nat → S → Prop) lo hi body s :
  lo ≤ hi → P lo s →
  (∀ i s, lo ≤ i < hi → P i s → P (Datatypes.S i) (body i s)) →
  P hi (for_ lo hi body s).
Proof.
  unfold for_. intros Hle. remember (hi - lo) as k eqn:Hk.
  revert lo s Hle Hk. induction k as [|k IH]; intros lo s Hle Hk H0 Hstep; cbn.
  - by replace hi with lo by lia.
  - apply IH; [lia|lia| |]; [apply Hstep; [lia|done]|].
    intros i s' Hi; apply Hstep; lia.
Qed.

Lemma forR_inv (P : nat → S → Prop) lo hi body s :
  lo ≤ hi → P lo s →
  (∀ i s, lo ≤ i < hi → P i s → ∃ s', body i s = Ok s' ∧ P (Datatypes.S i) s') →
  ∃ s', forR lo hi body s = Ok s' ∧ P hi s'.
Proof.
  unfold forR. intros Hle. remember (hi - lo) as k eqn:Hk.
  revert lo s Hle Hk. induction k as [|k IH]; intros lo s Hle Hk H0 Hstep; cbn.
  - exists s. split; [done|]. by replace hi with lo by lia.
  - destruct (Hstep lo s ltac:(lia) H0) as (s1 & -> & H1).
    apply IH; [lia|lia|done|]. intros i s' Hi; apply Hstep; lia.
Qed.

Lemma forC_inv (P : nat → S → Prop) (Q : S → Prop) (QR : R → Prop) lo hi body s :
  lo ≤ hi → P lo s →
  (∀ i s, lo ≤ i < hi → P i s →
    ∃ c, body i s = Ok c ∧
      match c with
      | Continue s' => P (Datatypes.S i) s'
      | Break s' => Q s'
      | Return r => QR r
      end) →
  (∀ s, P hi s → Q s) →
  ∃ o, forC lo hi body s = Ok o ∧
    match o with inl s' => Q s' | inr r => QR r end.
Proof.
  unfold forC. intros Hle. remember (hi - lo) as k eqn:Hk.
  revert lo s Hle Hk. induction k as [|k IH]; intros lo s Hle Hk H0 Hstep Hend; cbn.
  - exists (inl s). split; [done|]. apply Hend. by replace hi with lo by lia.
  - destruct (Hstep lo s ltac:(lia) H0) as ([s1|s1|r] & -> & H1).
    + apply IH; [lia|lia|done| |done]. intros i s' Hi; apply Hstep; lia.
    + by exists (inl s1).
    + by exists (inr r).
Qed.

Lemma for_down_inv (P : nat → S → Prop) n body s :
  P n s → (∀ i s, i < n → P (Datatypes.S i) s → P i (body i s)) →
  P 0 (for_down n body s).
Proof.
  revert s. induction n as [|n IH]; intros s H0 Hstep; cbn; [done|].
  apply IH; [apply Hstep; [lia|done]|]. intros i s' Hi; apply Hstep; lia.
Qed.

Lemma for_downR_inv (P : nat → S → Prop) n body s :
  P n s →
  (∀ i s, i < n → P (Datatypes.S i) s → ∃ s', body i s = Ok s' ∧ P i s') →
  ∃ s', for_downR n body s = Ok s' ∧ P 0 s'.
Proof.
  revert s. induction n as [|n IH]; intros s H0 Hstep; cbn; [by eauto|].
  destruct (Hstep n s ltac:(lia) H0) as (s1 & -> & H1).
  apply IH; [done|]. intros i s' Hi; apply Hstep; lia.
Qed.

(** Partial correctness: what every successful turn preserves holds after a successful run. *)
Lemma forR_keeps (P : S → Prop) lo hi body s s' :
  (∀ i s s', P s → body i s = Ok s' → P s') → P s → forR lo hi body s = Ok s' → P s'.
Proof.
  intros Hb. unfold forR. generalize (hi - lo) as k. intros k. revert lo s.
  induction k as [|k IH]; intros lo s Hs H; cbn in H; [by injection H as <-|].
  destruct (body lo s) as [s1|] eqn:E; [|done]. by eapply IH; [eapply Hb|].
Qed.

Lemma forC_keeps (P : S → Prop) (Q : R → Prop) lo hi body s o :
  (∀ i s c, P s → body i s = Ok c →
    match c with Continue s' | Break s' => P s' | Return r => Q r end) →
  P s → forC lo hi body s = Ok o → match o with inl s' => P s' | inr r => Q r end.
Proof.
  intros Hb. unfold forC. generalize (hi - lo) as k. intros k. revert lo s.
  induction k as [|k IH]; intros lo s Hs H; cbn in H; [by injection H as <-|].
  destruct (body lo s) as [c|] eqn:E; [|done]. pose proof (Hb _ _ _ Hs E) as Hc.
  destruct c; [by eapply IH| |]; by injection H as <-.
Qed.

Lemma for_downR_keeps (P : S → Prop) n body s s' :
  (∀ i s s', P s → body i s = Ok s' → P s') → P s → for_downR n body s = Ok s' → P s'.
Proof.
  intros Hb. revert s. induction n as [|n IH]; intros s Hs H; cbn in H; [by injection H as <-|].
  destruct (body n s) as [s1|] eqn:E; [|done]. by eapply IH; [eapply Hb|].
Qed.

Lemma for_0 n body (s : S) : for_ n n body s = s.
Proof. unfold for_. by rewrite Nat.sub_diag. Qed.

Lemma for_split lo mid hi body (s : S) :
  lo ≤ mid → mid ≤ hi →
  for_ lo hi body s = for_ mid hi body (for_ lo mid body s).
Proof.
  unfold for_. intros Hle. remember (mid - lo) as k eqn:Hk.
  revert lo s Hle Hk. induction k as [|k IH]; intros lo s Hle Hk Hle2; cbn.
  - by replace mid with lo by lia.
  - replace (hi - lo) with (Datatypes.S (hi - Datatypes.S lo)) by lia. cbn.
    rewrite IH by lia. done.
Qed.

Lemma forR_0 n body (s : S) : forR n n body s = Ok s.
Proof. unfold forR. by rewrite Nat.sub_diag. Qed.

Lemma forR_split lo mid hi body (s : S) :
  lo ≤ mid → mid ≤ hi →
  forR lo hi body s = forR lo mid body s ≫= forR mid hi body.
Proof.
  unfold forR. intros Hle. remember (mid - lo) as k eqn:Hk.
  revert lo s Hle Hk. induction k as [|k IH]; intros lo s Hle Hk Hle2; cbn.
  - by replace mid with lo by lia.
  - replace (hi - lo) with (Datatypes.S (hi - Datatypes.S lo)) by lia. cbn.
    destruct (body lo s) as [s1|e]; cbn; [|done]. rewrite IH by lia. done.
Qed.

Lemma forR_snoc hi body (s : S) :
  forR 0 (Datatypes.S hi) body s = forR 0 hi body s ≫= body hi.
Proof.
  rewrite (forR_split 0 hi) by lia. destruct (forR 0 hi body s) as [s'|]; cbn [mbind Res_bind]; [|done].
  unfold forR. replace (Datatypes.S hi - hi) with 1 by lia. cbn. by destruct (body hi s').
Qed.

(** Running the rounds of a loop backwards with inverse bodies undoes it. *)
Lemma for_downR_undo (P : S → Prop) n f g s s' :
  (∀ i s s', i < n → P s → f i s = Ok s' → P s' ∧ g i s' = Ok s) →
  P s → forR 0 n f s = Ok s' → P s' ∧ for_downR n g s' = Ok s.
Proof.
  revert s'. induction n as [|n IH]; intros s' Hfg Hs H.
  - rewrite forR_0 in H. by injection H as <-.
  - rewrite forR_snoc in H. destruct (forR 0 n f s) as [s1|] eqn:E; cbn in H; [|done].
    destruct (IH s1 ltac:(auto) Hs ltac:(done)) as [Hs1 Hd].
    destruct (Hfg n s1 s' ltac:(lia) Hs1 H) as [Hs' Hg]. cbn. by rewrite Hg.
Qed.

Lemma forR_undo (P : S → Prop) n f g s s' :
  (∀ i s s', i < n → P s → g i s = Ok s' → P s' ∧ f i s' = Ok s) →
  P s → for_downR n g s = Ok s' → P s' ∧ forR 0 n f s' = Ok s.
Proof.
  revert s. induction n as [|n IH]; intros s Hfg Hs H.
  - injection H as <-. by rewrite forR_0.
  - cbn in H. destruct (g n s) as [s1|] eqn:E; [|done].
    destruct (Hfg n s s1 ltac:(lia) Hs E) as [Hs1 Hf].
    destruct (IH s1 ltac:(auto) Hs1 H) as [Hs' Hd]. split; [done|].
    rewrite forR_snoc, Hd. exact Hf.
Qed.

Lemma forR_pure lo hi (body : nat → S → S) s :
  forR lo hi (fun i s => Ok (body i s)) s = Ok (for_ lo hi body s).
Proof.
  unfold forR, for_. generalize (hi - lo) as k; intros k.
  revert lo s. induction k as [|k IH]; intros; cbn; done.
Qed.

Lemma forR_ext lo hi (body body' : nat → S → Res S) s :
  (∀ i s, lo ≤ i < hi → body i s = body' i s) →
  forR lo hi body s = forR lo hi body' s.
Proof.
  unfold forR. intros H. assert (∀ i s, lo ≤ i < lo + (hi - lo) → body i s = body' i s) as H'.
  { intros; apply H; lia. } clear H. revert H'. generalize (hi - lo) as k; intros k.
  revert lo s. induction k as [|k IH]; intros lo s H; cbn; [done|].
  rewrite H by lia. destruct (body' lo s); [|done].
  apply IH. intros; apply H; lia.
Qed.

Lemma for_ext lo hi (body body' : nat → S → S) s :
  (∀ i s, lo ≤ i < hi → body i s = body' i s) →
  for_ lo hi body s = for_ lo hi body' s.
Proof.
  intros H. assert (Ok (for_ lo hi body s) = Ok (for_ lo hi body' s)) as [=]; [|done].
  rewrite <- !forR_pure. apply forR_ext. intros; f_equal; auto.
Qed.

Lemma for_snoc lo hi body (s : S) :
  lo ≤ hi → for_ lo (Datatypes.S hi) body s = body hi (for_ lo hi body s).
Proof.
  intros. rewrite (for_split lo hi) by lia. unfold for_ at 1.
  by replace (Datatypes.S hi - hi) with 1 by lia.
Qed.
(** Pure loops undone by their mirror image. *)
Lemma for_down_undo (P : S → Prop) n f g s :
  (∀ i s, i < n → P s → P (f i s) ∧ g i (f i s) = s) →
  P s → P (for_ 0 n f s) ∧ for_down n g (for_ 0 n f s) = s.
Proof.
  intros Hfg Hs. induction n as [|n IH]; [by rewrite for_0|]. rewrite for_snoc by lia.
  destruct IH as [IH1 IH2]; [auto|]. destruct (Hfg n _ ltac:(lia) IH1) as [H1 H2].
  split; [done|]. cbn. by rewrite H2.
Qed.

Lemma for_undo (P : S → Prop) n f g s :
  (∀ i s, i < n → P s → P (g i s) ∧ f i (g i s) = s) →
  P s → P (for_down n g s) ∧ for_ 0 n f (for_down n g s) = s.
Proof.
  revert s. induction n as [|n IH]; intros s Hfg Hs; [by rewrite for_0|]. cbn [for_down].
  destruct (Hfg n s ltac:(lia) Hs) as [H1 H2]. destruct (IH (g n s)) as [H3 H4]; [auto|done|].
  split; [done|]. rewrite for_snoc by lia. by rewrite H4.
Qed.

End loop_rules.

(** [loop_inv P as H]: establishes the invariant [P] for the first [for_] loop of the
    goal; the remaining goal has [H : P hi (for_ lo hi body s)]. *)
Tactic Notation "loop_inv" constr(P) "as" ident(H) :=
  match goal with
  | |- context [for_ ?lo ?hi ?f ?s] =>
      assert (P hi (for_ lo hi f s)) as H;
      [apply (for_inv P lo hi f s); cbv beta|cbv beta in H]
  end.

(** Decides a boolean comparison of naturals from the arithmetic context. *)
Ltac nat_true c := replace c with true by (symmetry;
  first [apply Nat.ltb_lt; lia | apply Nat.leb_le; lia | apply Nat.eqb_eq; lia]).
Ltac nat_false c := replace c with false by (symmetry;
  first [apply Nat.ltb_ge; lia | apply Nat.leb_gt; lia | apply Nat.eqb_neq; lia]).
Ltac nat_cmp :=
  repeat match goal with
  | |- context [(?a <? ?b)%nat] => first [nat_true (a <? b)%nat | nat_false (a <? b)%nat]
  | |- context [(?a <=? ?b)%nat] => first [nat_true (a <=? b)%nat | nat_false (a <=? b)%nat]
  | |- context [(?a =? ?b)%nat] => first [nat_true (a =? b)%nat | nat_false (a =? b)%nat]
  end; rewrite ?andb_true_r, ?andb_false_r; cbn [andb orb negb].

(** * Library algorithms the code calls *)

(** [std::stable_sort] by the natural key [key], ascending. *)
Section stable_sort.
Context {A : Type} (key : A → nat).

Fixpoint sort_insert (x : A) (l : list A) : list A :=
  match l with
  | [] => [x]
  | y :: l' => if (key x <=? key y)%nat then x :: l else y :: sort_insert x l'
  end.

Definition stable_sort (l : list A) : list A := foldr sort_insert [] l.

Definition sorted_by (l : list A) : Prop :=
  ∀ i j x y, (i < j)%nat → l !! i = Some x → l !! j = Some y → (key x ≤ key y)%nat.

Lemma sort_insert_perm x l : sort_insert x l ≡ₚ x :: l.
Proof.
  induction l as [|y l IH]; cbn; [done|]. destruct (_ <=? _)%nat; [done|].
  rewrite IH. apply Permutation_swap.
Qed.

Lemma stable_sort_perm l : stable_sort l ≡ₚ l.
Proof. induction l as [|x l IH]; cbn; [done|]. by rewrite sort_insert_perm, IH. Qed.

Lemma stable_sort_length l : length (stable_sort l) = length l.
Proof. apply Permutation_length, stable_sort_perm. Qed.

Lemma sorted_by_cons x l :
  sorted_by (x :: l) ↔ (∀ y, y ∈ l → (key x ≤ key y)%nat) ∧ sorted_by l.
Proof.
  split.
  - intros H. split.
    + intros y [j Hj]%list_elem_of_lookup. apply (H 0%nat (S j)); [lia|done|done].
    + intros i j a b Hij Ha Hb. apply (H (S i) (S j)); [lia|done|done].
  - intros [H1 H2] [|i] [|j] a b Hij Ha Hb; try lia; cbn in *.
    + injection Ha as ->. apply H1. by apply list_elem_of_lookup_2 in Hb.
    + eapply (H2 i j); [lia|done|done].
Qed.

Lemma sort_insert_sorted x l : sorted_by l → sorted_by (sort_insert x l).
Proof.
  induction l as [|y l IH]; intros Hs; cbn.
  - apply sorted_by_cons. split; [|done]. intros ? []%not_elem_of_nil.
  - apply sorted_by_cons in Hs as [H1 H2]. destruct (Nat.leb_spec (key x) (key y)).
    + apply sorted_by_cons. split; [|by apply sorted_by_cons].
      intros z [->|Hz]%elem_of_cons; [done|]. specialize (H1 z Hz). lia.
    + apply sorted_by_cons. split; [|by apply IH].
      intros z. rewrite sort_insert_perm. intros [->|Hz]%elem_of_cons; [lia|auto].
Qed.

Lemma stable_sort_sorted l : sorted_by (stable_sort l).
Proof.
  induction l as [|x l IH]; cbn; [intros ? ? ? ? ?; discriminate|]. by apply sort_insert_sorted.
Qed.

(** Stability: elements with one key keep their order. *)
Lemma stable_sort_stable k l :
  filter (fun x => key x = k) (stable_sort l) = filter (fun x => key x = k) l.
Proof.
  induction l as [|x l IH]; [done|].
  change (stable_sort (x :: l)) with (sort_insert x (stable_sort l)).
  rewrite filter_cons, <- IH. clear IH.
  induction (stable_sort l) as [|y s IH]; cbn [sort_insert].
  - by rewrite filter_cons.
  - destruct (Nat.leb_spec (key x) (key y)); [by rewrite filter_cons|].
    rewrite !(filter_cons _ y), IH. repeat case_decide; done || lia.
Qed.

(** The rows of an array prepared slot by slot and then sorted. *)
Lemma sorted_rows (f : nat → A) n d : let rows := stable_sort (map f (seq 0 n)) in
  length rows = n ∧
  (∀ k, (k < n)%nat → ∃ i, (i < n)%nat ∧ nth k rows d = f i) ∧
  (∀ i, (i < n)%nat → ∃ k, (k < n)%nat ∧ nth k rows d = f i) ∧
  (∀ k k', (k ≤ k')%nat → (k' < n)%nat → (key (nth k rows d) ≤ key (nth k' rows d))%nat).
Proof.
  intros rows. assert (Hp : rows ≡ₚ map f (seq 0 n)) by apply stable_sort_perm.
  assert (Hl : length rows = n) by (rewrite Hp, length_map, length_seq; done).
  assert (Hn : ∀ k, (k < n)%nat → rows !! k = Some (nth k rows d)).
  { intros k Hk. by destruct (nth_lookup_or_length rows k d); [|lia]. }
  split; [done|]. split; [|split].
  - intros k Hk. assert (Hin : nth k rows d ∈ rows) by (eapply list_elem_of_lookup_2, Hn; done).
    apply (elem_of_Permutation_proper _ _ _ Hp) in Hin. apply list_elem_of_In, in_map_iff in Hin as (i & <- & Hi).
    apply in_seq in Hi. exists i. split; [lia|done].
  - intros i Hi. assert (Hin : f i ∈ rows).
    { rewrite Hp. apply list_elem_of_In, in_map, in_seq. lia. }
    apply list_elem_of_lookup in Hin as [k Hk]. exists k.
    split; [rewrite <- Hl; by eapply lookup_lt_Some|by apply nth_lookup_Some].
  - intros k k' Hk Hk'. destruct (decide (k = k')) as [->|]; [done|].
    eapply (stable_sort_sorted _ k k'); [lia|apply Hn; lia|by apply Hn].
Qed.
End stable_sort.

(** [memcpy(dst + doff, src + soff, n)] (elements, not bytes). *)
Definition memcpy {A : Type} (dst : list A) (doff : nat) (src : list A) (soff n : nat) : list A :=
  take doff dst ++ take n (drop soff src) ++ drop (doff + n) dst.

(** The slice [v[off], ..., v[off + n - 1]]. *)
Definition slice {A : Type} (v : list A) (off n : nat) : list A := take n (drop off v).

Lemma slice_length {A} (v : list A) off n :
  (off + n ≤ length v)%nat → length (slice v off n) = n.
Proof. intros. unfold slice. rewrite length_take, length_drop. lia. Qed.

Lemma memcpy_length {A} (dst src : list A) doff soff n :
  (doff + n ≤ length dst)%nat → (soff + n ≤ length src)%nat →
  length (memcpy dst doff src soff n) = length dst.
Proof.
  intros. unfold memcpy. rewrite !length_app, !length_take, !length_drop. lia.
Qed.

Lemma slice_memcpy_eq {A} (dst src : list A) doff soff n :
  (doff + n ≤ length dst)%nat → (soff + n ≤ length src)%nat →
  slice (memcpy dst doff src soff n) doff n = slice src soff n.
Proof.
  intros. unfold slice, memcpy.
  rewrite drop_app_length' by (rewrite length_take; lia).
  apply take_app_length'. rewrite length_take, length_drop. lia.
Qed.

Lemma slice_memcpy_ne {A} (dst src : list A) doff soff n off k :
  (doff + n ≤ length dst)%nat → (soff + n ≤ length src)%nat →
  (off + k ≤ doff ∨ doff + n ≤ off)%nat →
  slice (memcpy dst doff src soff n) off k = slice dst off k.
Proof.
  intros Hd Hs Hdis. apply list_eq. intros i. unfold slice.
  destruct (decide (i < k)%nat) as [Hi|Hi].
  2: { rewrite !lookup_take_ge by lia. done. }
  rewrite !lookup_take_lt, !lookup_drop by lia. unfold memcpy.
  destruct Hdis.
  - rewrite lookup_app_l by (rewrite length_take; lia). by apply lookup_take_lt; lia.
  - rewrite lookup_app_r by (rewrite length_take; lia).
    rewrite lookup_app_r by (rewrite !length_take, length_drop; lia).
    rewrite lookup_drop. f_equal. rewrite !length_take, length_drop. lia.
Qed.

(** The tables [map f (seq 0 n)]. *)
Lemma nth_map_seq {A} (f : nat → A) n k d : (k < n)%nat → nth k (map f (seq 0 n)) d = f k.
Proof.
  intros Hk. apply nth_lookup_Some. change (map f (seq 0 n)) with (f <$> seq 0 n).
  by rewrite list_lookup_fmap, lookup_seq_lt by done.
Qed.

Lemma nth_map {A B} (f : A → B) l i d d' : i < length l → nth i (map f l) d' = f (nth i l d).
Proof. intros Hi. rewrite (nth_indep _ _ (f d)) by (by rewrite length_map). apply map_nth. Qed.

(** Reading an updated list. *)
Lemma nth_upd {A} (l : list A) i j x d : i < length l → nth j (<[i := x]> l) d = if decide (i = j) then x else nth j l d.
Proof.
  intros Hi. rewrite !nth_lookup. case_decide as E; [subst; by rewrite list_lookup_insert_eq|by rewrite list_lookup_insert_ne].
Qed.

Lemma length_map_seq {A} (f : nat → A) n : length (map f (seq 0 n)) = n.
Proof. by rewrite length_map, length_seq. Qed.

Open Scope nat_scope.

Lemma concat_slice {A} (ls : list (list A)) r j : (∀ l, l ∈ ls → length l = r) → j < length ls →
  slice (List.concat ls) (j * r) r = nth j ls [].
Proof.
  revert j. induction ls as [|l ls IH]; intros j Hl Hj; cbn in *; [lia|].
  assert (Hr : length l = r) by (apply Hl; apply elem_of_cons; by left).
  destruct j as [|j]; unfold slice; cbn [Nat.mul].
  - by rewrite drop_0, take_app_length' by done.
  - rewrite <- drop_drop, drop_app_length' by done. apply IH; [|lia].
    intros l' Hl'. apply Hl. apply elem_of_cons. by right.
Qed.

(** A vector is the concatenation of its rows. *)
Lemma slices_concat {A} (out : list A) (ls : list (list A)) r :
  length out = length ls * r →
  (∀ i, i < length ls → slice out (i * r) r = nth i ls []) →
  out = List.concat ls.
Proof.
  revert out. induction ls as [|l ls IH]; intros out Hl H; cbn in *; [by destruct out|].
  rewrite <- (take_drop r out). f_equal.
  - apply (H 0). lia.
  - apply IH; [rewrite length_drop; lia|]. intros i Hi. rewrite <- (H (S i)) by lia.
    unfold slice. by rewrite drop_drop.
Qed.

(** Two copies that fill a fresh buffer. *)
Lemma memcpy_assemble {A} (z : A) (a b : list A) offa offb la lb :
  offa + la ≤ length a → offb + lb ≤ length b →
  memcpy (memcpy (replicate (la + lb) z) 0 a offa la) la b offb lb = slice a offa la ++ slice b offb lb.
Proof.
  intros Ha Hb. unfold memcpy, slice. cbn [Nat.add]. rewrite take_0, app_nil_l.
  rewrite take_app_length' by (rewrite length_take, length_drop; lia). f_equal.
  rewrite <- (app_nil_r (take lb (drop offb b))) at 2. f_equal.
  apply drop_ge. rewrite length_app, length_take, !length_drop, length_replicate. lia.
Qed.
