(* ===== verification/Words.v ===== *)
(** Machine words as [Z]: wrap-around, bit-level automation, little-endian bytes,
    128-bit blocks and vectors of blocks. *)
From S2P Require Import Prelude.
Open Scope Z_scope.

Declare Scope word_scope.
Delimit Scope word_scope with word.

(** * Fixed-width unsigned integers *)

Definition wrap (w x : Z) : Z := x mod 2 ^ w.
Abbreviation u8 := (wrap 8).
Abbreviation u16 := (wrap 16).
Abbreviation u32 := (wrap 32).
Abbreviation u64 := (wrap 64).

(** [in_word w x]: [x] is a value of an unsigned [w]-bit type. *)
Definition in_word (w x : Z) : Prop := 0 ≤ x < 2 ^ w.
Abbreviation is_byte := (in_word 8).
Abbreviation bytes_ok := (Forall (in_word 8)).

(** [lnot] of a [w]-bit value (the C [~] after conversion to the unsigned type). *)
Definition wnot (w x : Z) : Z := wrap w (Z.lnot x).

(** Array read [l[i]] (the value outside the array is never used by the code). *)
Notation "l .[ i ]" := (nth i l 0%Z) (at level 1, left associativity, format "l .[ i ]") : word_scope.
Open Scope word_scope.

#[export] Instance in_word_dec w x : Decision (in_word w x).
Proof. unfold in_word. apply _. Defined.

(** * Bit-level automation *)

Create HintDb zbits.
Create Rewrite HintDb zbits.
Create Rewrite HintDb lens.

Lemma testbit_high w x i : in_word w x → w ≤ i → Z.testbit x i = false.
Proof.
  intros [H0 H1] Hi. destruct (Z.eq_dec x 0) as [->|Hx]; [apply Z.testbit_0_l|].
  apply Z.bits_above_log2; [lia|]. apply Z.log2_lt_pow2; [lia|].
  apply Z.lt_le_trans with (2 ^ w); [lia|]. apply Z.pow_le_mono_r; lia.
Qed.

Lemma wrap_testbit w x i : 0 ≤ w → 0 ≤ i →
  Z.testbit (wrap w x) i = (i <? w) && Z.testbit x i.
Proof.
  intros Hw Hi. unfold wrap. destruct (Z.ltb_spec i w).
  - by rewrite Z.mod_pow2_bits_low.
  - by rewrite Z.mod_pow2_bits_high.
Qed.

Lemma ones_testbit w i : 0 ≤ w → 0 ≤ i →
  Z.testbit (2 ^ w - 1) i = (i <? w).
Proof.
  intros. rewrite Z.sub_1_r, <- Z.ones_equiv. apply Z.testbit_ones_nonneg; lia.
Qed.

Lemma pow2_testbit w i : 0 ≤ w → Z.testbit (2 ^ w) i = (i =? w).
Proof. intros. rewrite Z.pow2_bits_eqb by lia. apply Z.eqb_sym. Qed.

Lemma in_word_testbit w x : 0 ≤ w → 0 ≤ x →
  (∀ i, w ≤ i → Z.testbit x i = false) → in_word w x.
Proof.
  intros Hw Hx H. split; [done|].
  destruct (Z.eq_dec x 0) as [->|Hx0]; [apply Z.pow_pos_nonneg; lia|].
  apply Z.log2_lt_pow2; [lia|].
  destruct (Z.lt_ge_cases (Z.log2 x) w) as [?|Hge]; [done|].
  specialize (H _ Hge). by rewrite Z.bit_log2 in H by lia.
Qed.

Lemma in_word_wrap w x : 0 ≤ w → in_word w (wrap w x).
Proof. intros. apply Z.mod_pos_bound. apply Z.pow_pos_nonneg; lia. Qed.

Lemma wrap_small w x : in_word w x → wrap w x = x.
Proof. intros [??]. by apply Z.mod_small. Qed.

Lemma in_word_0 w : 0 ≤ w → in_word w 0.
Proof. intros. split; [done|]. apply Z.pow_pos_nonneg; lia. Qed.

Lemma in_word_bit w x : 0 ≤ w →
  (in_word w x ↔ 0 ≤ x ∧ ∀ i, w ≤ i → Z.testbit x i = false).
Proof.
  split.
  - intros H'. split; [apply H'|]. intros; by eapply testbit_high.
  - intros []. by apply in_word_testbit.
Qed.

Ltac word_closed :=
  intros; rewrite in_word_bit in * by lia; destruct_and?;
  split; [|intros i Hi].

Lemma in_word_lxor w a b : 0 ≤ w → in_word w a → in_word w b → in_word w (Z.lxor a b).
Proof.
  intros Hw Ha Hb. apply in_word_testbit; [done| |].
  - apply Z.lxor_nonneg. destruct Ha, Hb; tauto.
  - intros i Hi. rewrite Z.lxor_spec.
    by rewrite (testbit_high w a), (testbit_high w b).
Qed.

Lemma in_word_lor w a b : 0 ≤ w → in_word w a → in_word w b → in_word w (Z.lor a b).
Proof.
  intros Hw Ha Hb. apply in_word_testbit; [done| |].
  - apply Z.lor_nonneg. destruct Ha, Hb; tauto.
  - intros i Hi. rewrite Z.lor_spec.
    by rewrite (testbit_high w a), (testbit_high w b).
Qed.

Lemma in_word_land w a b : 0 ≤ w → in_word w a → 0 ≤ b → in_word w (Z.land a b).
Proof.
  intros Hw Ha Hb. apply in_word_testbit; [done| |].
  - apply Z.land_nonneg. destruct Ha; tauto.
  - intros i Hi. rewrite Z.land_spec. by rewrite (testbit_high w a).
Qed.

Lemma in_word_land_r w a b : 0 ≤ w → 0 ≤ a → in_word w b → in_word w (Z.land a b).
Proof. intros. rewrite Z.land_comm. by apply in_word_land. Qed.

Lemma in_word_shiftr w a n : 0 ≤ w → in_word w a → 0 ≤ n → in_word w (Z.shiftr a n).
Proof.
  intros Hw [H0 H1] Hn. rewrite Z.shiftr_div_pow2 by lia. split.
  - apply Z.div_pos; [lia|]. apply Z.pow_pos_nonneg; lia.
  - apply Z.le_lt_trans with a; [|done]. apply Z.div_le_upper_bound.
    + apply Z.pow_pos_nonneg; lia.
    + assert (0 < 2 ^ n) by (apply Z.pow_pos_nonneg; lia). nia.
Qed.

Lemma in_word_weaken w w' a : 0 ≤ w ≤ w' → in_word w a → in_word w' a.
Proof.
  intros Hw [H0 H1]. split; [done|]. apply Z.lt_le_trans with (2 ^ w); [done|].
  apply Z.pow_le_mono_r; lia.
Qed.

#[export] Hint Resolve in_word_lxor in_word_lor in_word_land in_word_wrap in_word_shiftr
  in_word_0 : zbits.
#[export] Hint Extern 3 (_ ≤ _)%Z => lia : zbits.

(** Rewriting of [Z.testbit] of the operations the code uses. *)
#[export] Hint Rewrite Z.lxor_spec Z.lor_spec Z.land_spec Z.testbit_0_l : zbits.
#[export] Hint Rewrite Z.shiftl_spec Z.shiftr_spec Z.lnot_spec wrap_testbit ones_testbit
  pow2_testbit using lia : zbits.

(** Splits the arithmetic comparisons that remain after rewriting. *)
Ltac case_bits :=
  repeat match goal with
  | |- context [?a <? ?b] => destruct (Z.ltb_spec a b)
  | |- context [?a =? ?b] => destruct (Z.eqb_spec a b)
  end; cbn [andb orb xorb negb].

(** Proves an equation between words bit by bit. *)
Ltac bitwise :=
  apply Z.bits_inj'; intros ?i ?Hi; autorewrite with zbits; cbn [andb orb xorb negb].

Lemma lxor_cancel a b : Z.lxor (Z.lxor a b) b = a.
Proof. by rewrite Z.lxor_assoc, Z.lxor_nilpotent, Z.lxor_0_r. Qed.

Lemma lxor_cancel_l a b : Z.lxor a (Z.lxor a b) = b.
Proof. by rewrite <- Z.lxor_assoc, Z.lxor_nilpotent, Z.lxor_0_l. Qed.

Lemma lxor_comm3 a b c : Z.lxor (Z.lxor a b) c = Z.lxor (Z.lxor a c) b.
Proof. rewrite !Z.lxor_assoc. f_equal. apply Z.lxor_comm. Qed.

Lemma lxor_swap4 x y t : Z.lxor (Z.lxor x t) (Z.lxor y t) = Z.lxor x y.
Proof.
  rewrite Z.lxor_assoc, (Z.lxor_comm y t), <- (Z.lxor_assoc t t), Z.lxor_nilpotent.
  by rewrite Z.lxor_0_l.
Qed.

(** The transposition of a two by two sum. *)
Lemma lxor4 a b c d : Z.lxor (Z.lxor a b) (Z.lxor c d) = Z.lxor (Z.lxor a c) (Z.lxor b d).
Proof. rewrite !Z.lxor_assoc. f_equal. by rewrite <- !Z.lxor_assoc, (Z.lxor_comm b c). Qed.

Lemma wrap_lxor w a b : 0 ≤ w → wrap w (Z.lxor a b) = Z.lxor (wrap w a) (wrap w b).
Proof. intros Hw. bitwise. by destruct (i <? w). Qed.

Lemma lor_disjoint_add a b n : 0 ≤ n → in_word n a → Z.lor a (Z.shiftl b n) = a + b * 2 ^ n.
Proof.
  intros Hn Ha. rewrite <- Z.shiftl_mul_pow2 by lia. rewrite <- Z.lxor_lor.
  - symmetry. apply Z.add_nocarry_lxor. bitwise. destruct (Z.lt_ge_cases i n).
    + by rewrite (Z.testbit_neg_r b), andb_false_r by lia.
    + by rewrite (testbit_high n a).
  - bitwise. destruct (Z.lt_ge_cases i n).
    + by rewrite (Z.testbit_neg_r b), andb_false_r by lia.
    + by rewrite (testbit_high n a).
Qed.

(** * Little-endian byte strings *)

(** [le_bytes n x]: the [n] bytes of [x], least significant first. *)
Fixpoint le_bytes (n : nat) (x : Z) : list Z :=
  match n with
  | O => []
  | S n' => Z.land x 255 :: le_bytes n' (Z.shiftr x 8)
  end.

(** [le_val bs]: the integer whose little-endian bytes are [bs]. *)
Fixpoint le_val (bs : list Z) : Z :=
  match bs with
  | [] => 0
  | b :: bs' => b + 256 * le_val bs'
  end.

Lemma le_bytes_length n x : length (le_bytes n x) = n.
Proof. revert x. induction n; intros; cbn; auto. Qed.

Lemma land_255 x : Z.land x 255 = x mod 256.
Proof. exact (Z.land_ones x 8 ltac:(lia)). Qed.

Lemma shiftr_8 x : Z.shiftr x 8 = x / 256.
Proof. exact (Z.shiftr_div_pow2 x 8 ltac:(lia)). Qed.

Lemma le_bytes_ok n x : bytes_ok (le_bytes n x).
Proof.
  revert x. induction n; intros; cbn [le_bytes]; constructor; [|done].
  rewrite land_255. apply (Z.mod_pos_bound x 256). lia.
Qed.

Lemma le_val_bound bs : bytes_ok bs → in_word (8 * Z.of_nat (length bs)) (le_val bs).
Proof.
  induction 1 as [|b bs [Hb0 Hb1] _ [IH0 IH1]]; cbn [le_val length]; [by split|].
  unfold in_word in *. rewrite Nat2Z.inj_succ, Z.mul_succ_r, Z.pow_add_r by lia.
  change (2 ^ 8) with 256 in *. lia.
Qed.

Lemma le_val_bytes n x : le_val (le_bytes n x) = wrap (8 * Z.of_nat n) x.
Proof.
  revert x. induction n as [|n IH]; intros x; cbn [le_bytes le_val].
  - unfold wrap. by rewrite Z.mod_1_r.
  - rewrite IH, land_255, shiftr_8. unfold wrap.
    rewrite Nat2Z.inj_succ, Z.mul_succ_r, (Z.add_comm _ 8), Z.pow_add_r by lia.
    change (2 ^ 8) with 256.
    assert (0 < 2 ^ (8 * Z.of_nat n)) by (apply Z.pow_pos_nonneg; lia).
    rewrite Z.rem_mul_r by lia. lia.
Qed.

Lemma le_bytes_val bs : bytes_ok bs → le_bytes (length bs) (le_val bs) = bs.
Proof.
  induction 1 as [|b bs [Hb0 Hb1] _ IH]; cbn [le_bytes le_val length]; [done|].
  change (2 ^ 8) with 256 in *.
  rewrite land_255, shiftr_8, (Z.mul_comm 256), Z.mod_add, Z.div_add by lia.
  rewrite Z.mod_small, Z.div_small by lia. by rewrite Z.add_0_l, IH.
Qed.

Lemma le_val_app a b : le_val (a ++ b) = le_val a + 2 ^ (8 * Z.of_nat (length a)) * le_val b.
Proof.
  induction a as [|x a IH]; cbn [app le_val length]; [lia|].
  rewrite IH, Nat2Z.inj_succ, Z.mul_succ_r, Z.pow_add_r by lia.
  change (2 ^ 8) with 256. lia.
Qed.

Lemma le_bytes_nth n x i : (i < n)%nat → (le_bytes n x).[i] = Z.shiftr x (8 * Z.of_nat i) mod 256.
Proof.
  revert x i. induction n as [|n IH]; intros x i Hi; [lia|]. destruct i as [|i]; cbn [le_bytes nth].
  - by rewrite land_255, Z.shiftr_0_r.
  - rewrite IH by lia. rewrite Z.shiftr_shiftr by lia. do 2 f_equal. lia.
Qed.

Lemma le_val_replicate_0 n : le_val (replicate n 0) = 0.
Proof. induction n; cbn [replicate le_val]; lia. Qed.

(** * Blocks ([__m128i]) and vectors of blocks *)

Abbreviation block := Z.
Abbreviation is_block := (in_word 128).
Abbreviation blocks_ok := (Forall (in_word 128)).

Definition ZeroBlock : block := 0.

(** [toBlock(x, y)]: high half [x], low half [y]. *)
Definition toBlock (x y : Z) : block := Z.lor (Z.shiftl (u64 x) 64) (u64 y).

(** The two [u64] halves of a block in memory order. *)
Definition block_lo (b : block) : Z := u64 b.
Definition block_hi (b : block) : Z := Z.shiftr b 64.

(** The bytes of a vector of blocks, as [reinterpret_cast<u8*>] reads them. *)
Fixpoint bytesOf (row : list block) : list Z :=
  match row with
  | [] => []
  | b :: row' => le_bytes 16 b ++ bytesOf row'
  end.

(** The [n] blocks stored in a byte string. *)
Fixpoint blocksOf (n : nat) (bs : list Z) : list block :=
  match n with
  | O => []
  | S n' => le_val (take 16 bs) :: blocksOf n' (drop 16 bs)
  end.

Lemma bytesOf_length row : length (bytesOf row) = (16 * length row)%nat.
Proof.
  induction row as [|b row IH]; [done|].
  cbn [bytesOf length]. rewrite length_app, le_bytes_length. lia.
Qed.

Lemma bytesOf_ok row : bytes_ok (bytesOf row).
Proof.
  induction row as [|b row IH]; [constructor|].
  cbn [bytesOf]. apply Forall_app. split; [|done]. apply le_bytes_ok.
Qed.

Lemma bytesOf_app a b : bytesOf (a ++ b) = bytesOf a ++ bytesOf b.
Proof. induction a as [|x a IH]; [done|]. cbn [app bytesOf]. by rewrite IH, app_assoc. Qed.

Lemma blocksOf_length n bs : length (blocksOf n bs) = n.
Proof. revert bs. induction n; intros; cbn; auto. Qed.

Lemma blocksOf_bytesOf row : blocks_ok row → blocksOf (length row) (bytesOf row) = row.
Proof.
  induction 1 as [|b row Hb _ IH]; [done|].
  cbn [bytesOf length blocksOf].
  rewrite take_app_length', drop_app_length' by (by rewrite le_bytes_length).
  rewrite IH, le_val_bytes. f_equal. by apply wrap_small.
Qed.

Lemma bytesOf_blocksOf n bs :
  bytes_ok bs → length bs = (16 * n)%nat → bytesOf (blocksOf n bs) = bs.
Proof.
  revert bs. induction n as [|n IH]; intros bs Hbs Hl.
  - by destruct bs.
  - cbn [blocksOf bytesOf].
    rewrite IH; [|by apply Forall_drop|rewrite length_drop; lia].
    pose proof (le_bytes_val (take 16 bs) (Forall_take _ _ _ Hbs)) as H.
    rewrite length_take, Nat.min_l in H by lia. rewrite H. apply take_drop.
Qed.

Lemma blocksOf_ok n bs : bytes_ok bs → blocks_ok (blocksOf n bs).
Proof.
  revert bs. induction n as [|n IH]; intros bs Hbs; cbn; constructor.
  - eapply in_word_weaken; [|apply le_val_bound; by apply Forall_take].
    rewrite length_take. lia.
  - apply IH. by apply Forall_drop.
Qed.

(** Element-wise exclusive or. *)
Definition xorv (a b : list Z) : list Z := zip_with Z.lxor a b.

Lemma xorv_length a b : length a = length b → length (xorv a b) = length a.
Proof. intros. unfold xorv. rewrite length_zip_with. lia. Qed.

Lemma xorv_ok w a b : 0 ≤ w → Forall (in_word w) a → Forall (in_word w) b →
  Forall (in_word w) (xorv a b).
Proof.
  intros Hw Ha. revert b. induction Ha as [|x a Hx _ IH]; intros b Hb; [constructor|].
  destruct Hb as [|y b Hy Hb]; constructor; [|by apply IH]. auto with zbits.
Qed.

Lemma xorv_comm a b : xorv a b = xorv b a.
Proof.
  revert b. induction a as [|x a IH]; intros [|y b]; cbn; try done.
  f_equal; [apply Z.lxor_comm|apply IH].
Qed.

Lemma xorv_assoc a b c : xorv (xorv a b) c = xorv a (xorv b c).
Proof.
  revert b c. induction a as [|x a IH]; intros [|y b] [|z c]; cbn; try done.
  f_equal; [apply Z.lxor_assoc|apply IH].
Qed.

Lemma xorv_nilpotent a : xorv a a = replicate (length a) 0.
Proof.
  induction a as [|x a IH]; cbn; [done|]. f_equal; [apply Z.lxor_nilpotent|apply IH].
Qed.

Lemma xorv_0_r a n : n = length a → xorv a (replicate n 0) = a.
Proof.
  intros ->. induction a as [|x a IH]; cbn; [done|]. f_equal; [apply Z.lxor_0_r|apply IH].
Qed.

Lemma xorv_cancel a b : length a = length b → xorv (xorv a b) b = a.
Proof. intros H. rewrite xorv_assoc, xorv_nilpotent. by apply xorv_0_r. Qed.

Lemma xorv_cancel_l a b : length a = length b → xorv a (xorv a b) = b.
Proof.
  intros H. rewrite (xorv_comm a b), xorv_comm. by apply xorv_cancel.
Qed.

Lemma xorv_nth a b i : length a = length b → (xorv a b).[i] = Z.lxor a.[i] b.[i].
Proof.
  revert b i. induction a as [|x a IH]; intros [|y b] [|i] H; cbn in *; try done.
  apply IH. lia.
Qed.

(** * Array updates *)

Lemma nth_insert (l : list Z) (i j : nat) x :
  (<[i:=x]> l).[j] = if decide (i = j ∧ (i < length l)%nat) then x else l.[j].
Proof.
  revert i j. induction l as [|y l IH]; intros [|i] [|j]; cbn; case_decide; try lia;
    try done; rewrite ?IH; case_decide; try lia; done.
Qed.

Lemma nth_replicate (n i : nat) (x : Z) : (replicate n x).[i] = if decide (i < n)%nat then x else 0.
Proof.
  revert i. induction n as [|n IH]; intros [|i]; cbn; case_decide; try lia; try done;
    rewrite IH; case_decide; try lia; done.
Qed.

Lemma list_eq_nth (l k : list Z) :
  length l = length k → (∀ i, (i < length l)%nat → l.[i] = k.[i]) → l = k.
Proof. intros Hl H. apply (nth_ext _ _ 0 0 Hl H). Qed.

Lemma nth_lookup_Z (l : list Z) i : (i < length l)%nat → l !! i = Some l.[i].
Proof.
  revert i. induction l as [|x l IH]; intros [|i] Hi; cbn in *; try lia; [done|].
  apply IH. lia.
Qed.

Lemma Forall_nth_Z (P : Z → Prop) l i : Forall P l → P 0 → P l.[i].
Proof.
  intros H H0. revert i. induction H as [|x l Hx _ IH]; intros [|i]; cbn; auto.
Qed.

Lemma Forall_insert_Z (P : Z → Prop) l i x : Forall P l → P x → Forall P (<[i:=x]> l).
Proof. intros. by apply Forall_insert. Qed.

#[export] Hint Rewrite @length_insert : lens.
#[export] Hint Rewrite @length_app @length_take @length_drop @length_replicate
  @length_fmap @length_seq le_bytes_length bytesOf_length blocksOf_length : lens.

Open Scope nat_scope.

(** * Loops that add one vector to another *)

Lemma xor_at_nth d n (f : nat → Z) (a : list Z) j : d + n ≤ length a →
  (for_ 0 n (fun k a => <[d + k := Z.lxor a.[d + k] (f k)]> a) a).[j]
  = (if (d <=? j) && (j <? d + n) then Z.lxor a.[j] (f (j - d)) else a.[j]) ∧
  length (for_ 0 n (fun k a => <[d + k := Z.lxor a.[d + k] (f k)]> a) a) = length a.
Proof.
  intros Hl.
  loop_inv (fun i (a' : list Z) => (∀ j, a'.[j] =
    if (d <=? j) && (j <? d + i) then Z.lxor a.[j] (f (j - d)) else a.[j]) ∧
    length a' = length a) as Hinv.
  - lia.
  - split; [|done]. intros j'. destruct (Nat.leb_spec d j'); by nat_cmp.
  - intros i a' Hi [IH Hlen]. split; [|by rewrite length_insert]. intros j'.
    rewrite nth_insert. destruct (decide _) as [[<- Hd]|Hn].
    + rewrite IH. nat_cmp. by replace (d + i - d) with i by lia.
    + assert (d + i ≠ j') by (intros <-; apply Hn; lia). rewrite IH.
      destruct (Nat.leb_spec d j'); cbn [andb]; [|done].
      destruct (Nat.ltb_spec j' (d + i)); by nat_cmp.
  - destruct Hinv as [Hj Hlen]. by rewrite Hj.
Qed.

(** The vector overload: the loop computes the element-wise sum. *)
Lemma xor_loop_xorv (a b : list Z) n : length a = n → length b = n →
  for_ 0 n (fun k a => <[k := Z.lxor a.[k] b.[k]]> a) a = xorv a b.
Proof.
  intros Ha Hb. pose proof (fun j => xor_at_nth 0 n (fun k => b.[k]) a j ltac:(lia)) as H.
  cbn [Nat.add] in H. apply list_eq_nth.
  - rewrite xorv_length by congruence. apply (H 0).
  - intros j Hj. rewrite (proj2 (H 0)) in Hj. rewrite (proj1 (H j)), xorv_nth by congruence.
    nat_cmp. by rewrite Nat.sub_0_r.
Qed.

(** * Exclusive-or sums *)

(** [f 0 xor ... xor f (n - 1)] *)

Fixpoint xs (n : nat) (f : nat → Z) : Z :=
  match n with
  | O => 0%Z
  | S n' => Z.lxor (xs n' f) (f n')
  end.

Lemma xs_ext n f g : (∀ i, i < n → f i = g i) → xs n f = xs n g.
Proof.
  induction n as [|n IH]; intros H; cbn; [done|]. rewrite IH by auto. by rewrite H by lia.
Qed.

Lemma xs_zero n : xs n (fun _ => 0%Z) = 0%Z.
Proof. induction n as [|n IH]; cbn; [done|]. by rewrite IH. Qed.

Lemma xs_xor n f g : xs n (fun i => Z.lxor (f i) (g i)) = Z.lxor (xs n f) (xs n g).
Proof.
  induction n as [|n IH]; cbn; [done|]. rewrite IH, !Z.lxor_assoc. f_equal.
  rewrite <- !Z.lxor_assoc. f_equal. apply Z.lxor_comm.
Qed.

Lemma xs_pick n p f : p < n →
  xs n f = Z.lxor (f p) (xs n (fun i => if i =? p then 0%Z else f i)).
Proof.
  intros Hp. rewrite (xs_ext n f (fun i => Z.lxor (if i =? p then f p else 0%Z)
    (if i =? p then 0%Z else f i))).
  - rewrite xs_xor. f_equal. clear -Hp. induction n as [|n IH]; [lia|]. cbn.
    destruct (Nat.eqb_spec n p) as [->|Hne].
    + rewrite (xs_ext p _ (fun _ => 0%Z)), xs_zero; [apply Z.lxor_0_l|].
      intros i Hi. by nat_cmp.
    + rewrite IH by lia. apply Z.lxor_0_r.
  - intros i _. destruct (Nat.eqb_spec i p) as [->|]; [by rewrite Z.lxor_0_r|by rewrite Z.lxor_0_l].
Qed.

Lemma xs_single n p x : p < n → xs n (fun i => if i =? p then x else 0%Z) = x.
Proof.
  intros Hp. rewrite (xs_pick n p) by done. rewrite Nat.eqb_refl, (xs_ext n _ (fun _ => 0%Z)).
  - by rewrite xs_zero, Z.lxor_0_r.
  - intros i _. by destruct (i =? p).
Qed.

(** A sum over a window of columns is a sum over all columns. *)
Lemma xs_window n s w g : s + w ≤ n →
  xs w (fun j => g (s + j)) = xs n (fun c => if (s <=? c) && (c <? s + w) then g c else 0%Z).
Proof.
  intros Hn. assert (Hpre : ∀ k, k ≤ s → xs k (fun c => if (s <=? c) && (c <? s + w) then g c else 0%Z) = 0%Z).
  { intros k Hk. rewrite (xs_ext k _ (fun _ => 0%Z)); [apply xs_zero|]. intros i Hi. by nat_cmp. }
  replace n with (s + w + (n - (s + w))) by lia. generalize (n - (s + w)). intros d.
  assert (Hmid : ∀ k, k ≤ w → xs (s + k) (fun c => if (s <=? c) && (c <? s + w) then g c else 0%Z)
    = xs k (fun j => g (s + j))).
  { induction k as [|k IH]; intros Hk; [rewrite Nat.add_0_r; by apply Hpre|].
    rewrite Nat.add_succ_r. cbn [xs]. rewrite IH by lia. by nat_cmp. }
  induction d as [|d IH]; [by rewrite Nat.add_0_r, Hmid|].
  rewrite Nat.add_succ_r. cbn [xs]. rewrite <- IH. nat_cmp. by rewrite Z.lxor_0_r.
Qed.

(** ** Linear functions over GF(2) are determined by the powers of two *)

Definition linear (n : nat) (f : Z → Z) : Prop :=
  ∀ a b, in_word (Z.of_nat n) a → in_word (Z.of_nat n) b → f (Z.lxor a b) = Z.lxor (f a) (f b).

Lemma linear_0 n f : linear n f → f 0%Z = 0%Z.
Proof.
  intros H. specialize (H 0%Z 0%Z ltac:(apply in_word_0; lia) ltac:(apply in_word_0; lia)).
  by rewrite !Z.lxor_nilpotent in H.
Qed.

Lemma in_word_pow2 n k : k < n → in_word (Z.of_nat n) (2 ^ Z.of_nat k).
Proof.
  intros Hk. split; [apply Z.pow_nonneg; lia|]. apply Z.pow_lt_mono_r; lia.
Qed.

(** The low bits of a word and its bit [n]. *)
Lemma word_split n x : in_word (Z.of_nat (S n)) x →
  in_word (Z.of_nat n) (wrap (Z.of_nat n) x) ∧
  x = Z.lxor (wrap (Z.of_nat n) x) (if Z.testbit x (Z.of_nat n) then 2 ^ Z.of_nat n else 0)%Z.
Proof.
  intros Hx. split; [apply in_word_wrap; lia|]. apply Z.bits_inj'. intros i Hi.
  rewrite Z.lxor_spec, wrap_testbit by lia.
  assert (E : Z.testbit (if Z.testbit x (Z.of_nat n) then 2 ^ Z.of_nat n else 0)%Z i
    = Z.testbit x (Z.of_nat n) && (i =? Z.of_nat n)%Z).
  { destruct (Z.testbit x _); [rewrite pow2_testbit by lia; done|apply Z.testbit_0_l]. }
  rewrite E. destruct (Z.ltb_spec i (Z.of_nat n)); cbn [andb].
  - destruct (Z.eqb_spec i (Z.of_nat n)); [lia|]. by rewrite andb_false_r, xorb_false_r.
  - destruct (Z.eqb_spec i (Z.of_nat n)) as [->|]; [by rewrite andb_true_r|].
    rewrite andb_false_r. apply (testbit_high (Z.of_nat (S n))); [done|lia].
Qed.

Lemma linear_ext n f g : linear n f → linear n g →
  (∀ k, k < n → f (2 ^ Z.of_nat k)%Z = g (2 ^ Z.of_nat k)%Z) →
  ∀ x, in_word (Z.of_nat n) x → f x = g x.
Proof.
  intros Hf Hg Hbasis. assert (H : ∀ m x, m ≤ n → in_word (Z.of_nat m) x → f x = g x).
  { induction m as [|m IH]; intros x Hm Hx.
    - assert (x = 0%Z) as -> by (destruct Hx; cbn in *; lia). by rewrite !(linear_0 n).
    - destruct (word_split m x Hx) as [Hw ->]. set (y := wrap _ x) in *. clearbody y.
      assert (Hy : in_word (Z.of_nat n) y) by (apply (in_word_weaken (Z.of_nat m)); [lia|done]).
      set (b := Z.testbit _ _). assert (Hb : in_word (Z.of_nat n) (if b then 2 ^ Z.of_nat m else 0)%Z).
      { destruct b; [apply in_word_pow2; lia|apply in_word_0; lia]. }
      rewrite Hf, Hg by done. f_equal; [apply IH; [lia|done]|].
      destruct b; [apply Hbasis; lia|]. by rewrite !(linear_0 n). }
  intros x Hx. by apply (H n).
Qed.

(** The basis check as a computation. *)
Definition agree_on_basis (n : nat) (f g : Z → Z) : bool :=
  forallb (fun k => (f (2 ^ Z.of_nat k) =? g (2 ^ Z.of_nat k))%Z) (seq 0 n).

Lemma linear_check n f g : linear n f → linear n g → agree_on_basis n f g = true →
  ∀ x, in_word (Z.of_nat n) x → f x = g x.
Proof.
  intros Hf Hg Hc. apply linear_ext; [done|done|]. intros k Hk.
  unfold agree_on_basis in Hc. rewrite forallb_forall in Hc. apply Z.eqb_eq, Hc, in_seq. lia.
Qed.

(** ** Bytes and values are linear *)

Lemma le_bytes_lxor n a b : le_bytes n (Z.lxor a b) = xorv (le_bytes n a) (le_bytes n b).
Proof.
  revert a b. induction n as [|n IH]; intros a b; [done|]. unfold xorv in *. cbn [le_bytes zip_with].
  rewrite Z.shiftr_lxor, IH. f_equal. bitwise. by destruct (Z.testbit a i), (Z.testbit b i), (Z.testbit 255 i).
Qed.

Lemma le_val_xorv a b : length a = length b → bytes_ok a → bytes_ok b →
  le_val (xorv a b) = Z.lxor (le_val a) (le_val b).
Proof.
  intros Hl Ha Hb. assert (Hx : bytes_ok (xorv a b)) by (apply xorv_ok; [lia|done|done]).
  assert (Hlx : length (xorv a b) = length a) by by apply xorv_length.
  pose proof (le_val_bound _ Ha) as Wa. pose proof (le_val_bound _ Hb) as Wb.
  rewrite <- Hl in Wb. assert (W := fun H => in_word_lxor _ _ _ H Wa Wb). specialize (W ltac:(lia)).
  rewrite <- (wrap_small _ _ W), <- le_val_bytes, le_bytes_lxor, le_bytes_val by done.
  by rewrite Hl, le_bytes_val.
Qed.

(** * Rotation of a [w]-bit word to the right *)

Definition rotw (w x n : Z) : Z := Z.lor (Z.shiftr x n) (wrap w (Z.shiftl x (w - n))).

Lemma rotw_word w x n : (0 ≤ w)%Z → (0 ≤ n)%Z → in_word w x → in_word w (rotw w x n).
Proof. intros. unfold rotw. auto with zbits. Qed.

Lemma rotw_bit w x n i : (0 ≤ n < w)%Z → in_word w x → (0 ≤ i < w)%Z →
  Z.testbit (rotw w x n) i = Z.testbit x ((i + n) mod w).
Proof.
  intros Hn Hx Hi. unfold rotw. rewrite Z.lor_spec, Z.shiftr_spec, wrap_testbit, Z.shiftl_spec by lia.
  replace (i <? w)%Z with true by (symmetry; apply Z.ltb_lt; lia). cbn [andb].
  destruct (Z.lt_ge_cases (i + n) w).
  - rewrite Z.mod_small, (Z.testbit_neg_r x (i - (w - n))) by lia. by rewrite orb_false_r.
  - rewrite (testbit_high w x (i + n)) by (done || lia). cbn [orb]. f_equal.
    apply (Z.mod_unique _ _ 1); lia.
Qed.

Lemma rotw_xor w a b n : (0 ≤ n < w)%Z → in_word w a → in_word w b →
  rotw w (Z.lxor a b) n = Z.lxor (rotw w a n) (rotw w b n).
Proof.
  intros Hn Ha Hb. assert (Hw : (0 ≤ w)%Z) by lia.
  assert (Hab : in_word w (Z.lxor a b)) by auto with zbits.
  apply Z.bits_inj'. intros i Hi. destruct (Z.lt_ge_cases i w).
  - rewrite Z.lxor_spec, !rotw_bit by (done || lia). apply Z.lxor_spec.
  - rewrite (testbit_high w (rotw _ _ _)) by (done || (apply rotw_word; done || lia)).
    symmetry. apply (testbit_high w); [|done].
    apply in_word_lxor; [lia| |]; apply rotw_word; done || lia.
Qed.

(** Words with the same bits below [w] are equal. *)
Lemma word_ext w x y : (0 ≤ w)%Z → in_word w x → in_word w y →
  (∀ i, (0 ≤ i < w)%Z → Z.testbit x i = Z.testbit y i) → x = y.
Proof.
  intros Hw Hx Hy H. apply Z.bits_inj'. intros i Hi. destruct (Z.lt_ge_cases i w); [by apply H|].
  by rewrite !(testbit_high w).
Qed.

Lemma rotw_rotw w x m n : (0 ≤ m < w)%Z → (0 ≤ n < w)%Z → in_word w x →
  rotw w (rotw w x m) n = rotw w x ((m + n) mod w).
Proof.
  intros Hm Hn Hx. pose proof (Z.mod_pos_bound (m + n) w ltac:(lia)).
  apply (word_ext w); [lia|repeat (apply rotw_word; try lia); done|apply rotw_word; done || lia|].
  intros i Hi. rewrite (rotw_bit w (rotw w x m)), !rotw_bit; try done; try lia.
  - rewrite Zplus_mod_idemp_l, Zplus_mod_idemp_r. do 2 f_equal. lia.
  - apply Z.mod_pos_bound. lia.
  - apply rotw_word; done || lia.
Qed.

Lemma rotw_0 w x : in_word w x → rotw w x 0 = x.
Proof.
  intros Hx. assert ((0 ≤ w)%Z).
  { destruct (Z.lt_ge_cases w 0); [|done]. destruct Hx. rewrite Z.pow_neg_r in *; lia. }
  unfold rotw. rewrite Z.shiftr_0_r, Z.sub_0_r. unfold wrap.
  rewrite Z.shiftl_mul_pow2, Z.mod_mul, Z.lor_0_r; [done|lia|lia].
Qed.

(** * Bits of a byte string *)

(** Bit [i] of a byte string, least significant bit of byte 0 first. *)
Definition bitb (data : list Z) (i : nat) : bool := Z.testbit data.[i / 8] (Z.of_nat (i mod 8)).

Lemma le_val_testbit bs i : bytes_ok bs → Z.testbit (le_val bs) (Z.of_nat i) = bitb bs i.
Proof.
  intros Hb. unfold bitb. revert i. induction Hb as [|b bs Hb0 Hb IH]; intros i; cbn [le_val].
  { rewrite nth_overflow by (cbn; lia). by rewrite !Z.testbit_0_l. }
  rewrite Z.mul_comm. change 256%Z with (2 ^ 8)%Z.
  rewrite <- (lor_disjoint_add b (le_val bs) 8) by (done || lia).
  rewrite Z.lor_spec, Z.shiftl_spec by lia.
  destruct (Nat.lt_ge_cases i 8).
  - rewrite Nat.div_small, Nat.mod_small by done. rewrite (Z.testbit_neg_r (le_val bs)) by lia. apply orb_false_r.
  - rewrite (testbit_high 8 b) by (done || lia). cbn [orb].
    replace (Z.of_nat i - 8)%Z with (Z.of_nat (i - 8)) by lia. rewrite IH.
    replace i with (i - 8 + 1 * 8) at 3 4 by lia. rewrite Nat.Div0.mod_add, Nat.div_add by lia.
    by rewrite Nat.add_1_r.
Qed.

Lemma nth_memcpy (dst src : list Z) doff soff n i : doff + n ≤ length dst → soff + n ≤ length src →
  (memcpy dst doff src soff n).[i] =
  if (doff <=? i) && (i <? doff + n) then src.[soff + (i - doff)] else dst.[i].
Proof.
  intros Hd Hs. unfold memcpy. rewrite !nth_lookup. destruct (Nat.leb_spec doff i); cbn [andb].
  - rewrite lookup_app_r by (rewrite length_take; lia). rewrite length_take, Nat.min_l by lia.
    destruct (Nat.ltb_spec i (doff + n)).
    + rewrite lookup_app_l by (rewrite length_take, length_drop; lia).
      by rewrite lookup_take_lt, lookup_drop by lia.
    + rewrite lookup_app_r by (rewrite length_take, length_drop; lia).
      rewrite length_take, length_drop, lookup_drop. do 2 f_equal. lia.
  - rewrite lookup_app_l by (rewrite length_take; lia). by rewrite lookup_take_lt by lia.
Qed.

Lemma memcpy_ok (dst src : list Z) doff soff n : bytes_ok dst → bytes_ok src →
  bytes_ok (memcpy dst doff src soff n).
Proof.
  intros Hd Hs. unfold memcpy. apply Forall_app. split; [by apply Forall_take|].
  apply Forall_app. split; [by apply Forall_take, Forall_drop|by apply Forall_drop].
Qed.

Lemma Forall_of_nth (P : Z → Prop) (l : list Z) : (∀ i, i < length l → P l.[i]) → Forall P l.
Proof.
  intros H. apply Forall_lookup. intros i x Hx. pose proof (lookup_lt_Some _ _ _ Hx) as Hi.
  specialize (H i Hi). by rewrite (nth_lookup_Some _ _ _ _ Hx) in H.
Qed.
