(* ===== verification/Parallel.v ===== *)
(** Worker-thread loops: frontend/okvs/rb/parallel.h ([RBFor]) and
    frontend/pqpsi/protocols/tools/parallel.h ([parallelFor]).

    [hw] is [std::thread::hardware_concurrency()], a value of the machine.  A parallel loop
    is its list of ranges, each run by one thread; the sequential composition of the ranges is
    the reference semantics, and [interleave] describes every order in which the threads'
    iterations can actually happen. *)
From S2P Require Import Prelude.
From stdpp Require Import sorting.
Open Scope nat_scope.

(** A half-open index range, the argument pair of a worker. *)
Definition range : Type := nat * nat.

Definition range_indices (r : range) : list nat := seq r.1 (r.2 - r.1).

(** Runs [fn(begin, end)] on each range in turn. *)
Fixpoint run_ranges {S : Type} (fn : nat → nat → S → Res S) (rs : list range) (s : S) : Res S :=
  match rs with
  | [] => Ok s
  | (b, e) :: rs' => s' ← fn b e s; run_ranges fn rs' s'
  end.

Module Rb.

Definition RBHwThreads (hw : nat) : nat := Nat.max 1 hw.

Definition RBWorkerThreads (hw : nat) (multiThread : bool) (requested : nat) : nat :=
  if negb multiThread then 1 else
  let hw := RBHwThreads hw in
  if requested =? 0 then hw else Nat.max 1 (Nat.min requested hw).

(** The ranges the thread-creation loop of [RBFor] starts. *)
Fixpoint RBRanges (n chunk t thrN : nat) : list range :=
  match thrN with
  | O => []
  | S thrN' =>
      let b := Nat.min n (t * chunk) in
      let e := Nat.min n (b + chunk) in
      if e <=? b then [] else (b, e) :: RBRanges n chunk (S t) thrN'
  end.

(** The ranges [RBFor] runs: one inline call, or one thread per range. *)
Definition RBPlan (hw n : nat) (multiThread : bool) (workerThreads : nat) : list range :=
  if n =? 0 then [] else
  if negb multiThread then [(0, n)] else
  let thrN := Nat.min (RBWorkerThreads hw multiThread workerThreads) n in
  if (thrN <=? 1) || (n <? 64) then [(0, n)] else
  let chunk := (n + thrN - 1) / thrN in
  RBRanges n chunk 0 thrN.

Definition RBFor {S : Type} (hw n : nat) (multiThread : bool) (workerThreads : nat)
    (fn : nat → nat → S → Res S) (s : S) : Res S :=
  run_ranges fn (RBPlan hw n multiThread workerThreads) s.

End Rb.

Module Tools.

Definition workerLimit (hw : nat) (multiThread : bool) (requested : nat) : nat :=
  if negb multiThread then 1 else
  let hw := Nat.max 1 hw in
  if requested =? 0 then hw else Nat.max 1 (Nat.min requested hw).

Definition workerCount (hw n minWork : nat) (multiThread : bool) (workerThreads : nat) : nat :=
  if (n =? 0) || negb multiThread then 1 else
  let maxThreads := Nat.max 1 (n / Nat.max 1 minWork) in
  Nat.max 1 (Nat.min (workerLimit hw multiThread workerThreads) maxThreads).

(** The ranges the thread-creation loop of [parallelFor] starts. *)
Fixpoint parRanges (n chunk t threadCount : nat) : list range :=
  match threadCount with
  | O => []
  | S threadCount' =>
      let b := t * chunk in
      if n <=? b then [] else (b, Nat.min n (b + chunk)) :: parRanges n chunk (S t) threadCount'
  end.

(** The ranges [parallelFor] runs. *)
Definition parPlan (hw n minWork : nat) (multiThread : bool) (workerThreads : nat) : list range :=
  if n =? 0 then [] else
  if negb multiThread then [(0, n)] else
  let threadCount := workerCount hw n minWork multiThread workerThreads in
  if threadCount <=? 1 then [(0, n)] else
  let chunk := (n + threadCount - 1) / threadCount in
  parRanges n chunk 0 threadCount.

Definition parallelFor {S : Type} (hw n minWork : nat) (multiThread : bool) (workerThreads : nat)
    (fn : nat → nat → S → Res S) (s : S) : Res S :=
  run_ranges fn (parPlan hw n minWork multiThread workerThreads) s.

End Tools.

(** * The ranges partition the index space *)

(** [covers b e rs]: [rs] are consecutive non-empty ranges from [b] to [e]. *)
Inductive covers : nat → nat → list range → Prop :=
  | covers_nil b : covers b b []
  | covers_cons b m e rs : b < m → covers m e rs → covers b e ((b, m) :: rs).

Lemma covers_le b e rs : covers b e rs → b ≤ e.
Proof. induction 1; lia. Qed.

Lemma covers_indices b e rs : covers b e rs → List.concat (map range_indices rs) = seq b (e - b).
Proof.
  induction 1 as [b|b m e rs Hbm Hc IH]; cbn; [by rewrite Nat.sub_diag|].
  rewrite IH. unfold range_indices. cbn [fst snd]. apply covers_le in Hc.
  replace (e - b) with ((m - b) + (e - m)) by lia. rewrite seq_app.
  by replace (b + (m - b)) with m by lia.
Qed.

Lemma run_ranges_covers {S : Type} b e rs (body : nat → S → Res S) s :
  covers b e rs → run_ranges (fun b e => forR b e body) rs s = forR b e body s.
Proof.
  intros Hc. revert s. induction Hc as [b|b m e rs Hbm Hc IH]; intros s; cbn [run_ranges].
  - by rewrite forR_0.
  - pose proof (covers_le _ _ _ Hc). rewrite (forR_split b m e) by lia.
    destruct (forR b m body s); cbn; auto.
Qed.

Lemma chunk_enough n thr : 0 < thr → n ≤ thr * ((n + thr - 1) / thr).
Proof.
  intros. pose proof (Nat.div_mod_eq (n + thr - 1) thr).
  pose proof (Nat.mod_upper_bound (n + thr - 1) thr ltac:(lia)). nia.
Qed.

Lemma RBRanges_covers n chunk t thrN :
  0 < chunk → n ≤ (t + thrN) * chunk →
  covers (Nat.min n (t * chunk)) n (Rb.RBRanges n chunk t thrN).
Proof.
  revert t. induction thrN as [|thrN IH]; intros t Hc Hn; cbn [Rb.RBRanges].
  - rewrite Nat.min_l by lia. constructor.
  - destruct (Nat.leb_spec (Nat.min n (Nat.min n (t * chunk) + chunk)) (Nat.min n (t * chunk))).
    + rewrite Nat.min_l by lia. constructor.
    + rewrite (Nat.min_r n (t * chunk)) in * by lia. constructor; [lia|].
      replace (t * chunk + chunk) with (S t * chunk) by lia. apply IH; [done|lia].
Qed.

Lemma parRanges_covers n chunk t threads :
  0 < chunk → t * chunk ≤ n → n ≤ (t + threads) * chunk →
  covers (t * chunk) n (Tools.parRanges n chunk t threads).
Proof.
  revert t. induction threads as [|threads IH]; intros t Hc Ht Hn; cbn [Tools.parRanges].
  - replace n with (t * chunk) by lia. constructor.
  - destruct (Nat.leb_spec n (t * chunk)); [replace n with (t * chunk) by lia; constructor|].
    constructor; [lia|]. replace (t * chunk + chunk) with (S t * chunk) by lia.
    destruct (Nat.le_gt_cases n (S t * chunk)) as [Hle|Hgt].
    + rewrite Nat.min_l by lia. destruct threads as [|threads']; cbn [Tools.parRanges]; [constructor|].
      nat_cmp. constructor.
    + rewrite Nat.min_r by lia. apply IH; lia.
Qed.

Lemma covers_one n : n ≠ 0 → covers 0 n [(0, n)].
Proof. intros. constructor; [lia|constructor]. Qed.

Lemma chunk_pos n thr : 0 < thr → 0 < n → 0 < (n + thr - 1) / thr.
Proof.
  intros. pose proof (chunk_enough n thr ltac:(lia)). destruct ((n + thr - 1) / thr); lia.
Qed.

Lemma RBPlan_covers hw n mt wt : covers 0 n (Rb.RBPlan hw n mt wt).
Proof.
  unfold Rb.RBPlan. destruct (Nat.eqb_spec n 0) as [->|Hn]; [constructor|].
  destruct mt; cbn [negb]; [|by apply covers_one].
  set (thr := Nat.min _ n). destruct (_ || _) eqn:E; [by apply covers_one|].
  apply orb_false_iff in E as [E1 E2]. apply Nat.leb_gt in E1.
  replace 0 with (Nat.min n (0 * ((n + thr - 1) / thr))) at 1 by lia.
  apply RBRanges_covers; [apply chunk_pos|apply chunk_enough]; lia.
Qed.

Lemma parPlan_covers hw n mw mt wt : covers 0 n (Tools.parPlan hw n mw mt wt).
Proof.
  unfold Tools.parPlan. destruct (Nat.eqb_spec n 0) as [->|Hn]; [constructor|].
  destruct mt; cbn [negb]; [|by apply covers_one].
  set (thr := Tools.workerCount _ _ _ _ _). destruct (Nat.leb_spec thr 1); [by apply covers_one|].
  change 0 with (0 * ((n + thr - 1) / thr)) at 1.
  apply parRanges_covers; [apply chunk_pos| |apply chunk_enough]; lia.
Qed.

(** The loop the parallel construct stands for. *)
Lemma RBFor_loop {S : Type} hw n mt wt (body : nat → S → Res S) s :
  Rb.RBFor hw n mt wt (fun b e => forR b e body) s = forR 0 n body s.
Proof. apply run_ranges_covers, RBPlan_covers. Qed.

Lemma parallelFor_loop {S : Type} hw n mw mt wt (body : nat → S → Res S) s :
  Tools.parallelFor hw n mw mt wt (fun b e => forR b e body) s = forR 0 n body s.
Proof. apply run_ranges_covers, parPlan_covers. Qed.

(** * Interleavings of the threads *)

(** [interleave ts l]: [l] is an order in which the iterations [ts] of the threads, each in its
    own program order, can be executed. *)
Inductive interleave {A : Type} : list (list A) → list A → Prop :=
  | interleave_done ts : Forall (eq []) ts → interleave ts []
  | interleave_step ts1 i t ts2 l :
      interleave (ts1 ++ t :: ts2) l → interleave (ts1 ++ (i :: t) :: ts2) (i :: l).

Lemma join_nils {A} (ts : list (list A)) : Forall (eq []) ts → List.concat ts = [].
Proof. induction 1 as [|t ts <- _ IH]; cbn; auto. Qed.

Lemma join_app {A} (a b : list (list A)) : List.concat (a ++ b) = List.concat a ++ List.concat b.
Proof. induction a as [|x a IH]; cbn; [done|]. by rewrite IH, app_assoc. Qed.

Lemma interleave_Permutation {A} (ts : list (list A)) l : interleave ts l → l ≡ₚ List.concat ts.
Proof.
  induction 1 as [ts H|ts1 i t ts2 l _ IH]; [by rewrite join_nils|].
  rewrite IH, !join_app. cbn. apply Permutation_middle.
Qed.

(** Writes [f i] into slot [i], for the indices of [order] in turn. *)
Definition write_slots {A : Type} (f : nat → A) (order : list nat) (out : list A) : list A :=
  fold_left (fun out i => <[i := f i]> out) order out.

Lemma write_slots_Permutation {A} (f : nat → A) l l' out :
  l ≡ₚ l' → write_slots f l out = write_slots f l' out.
Proof.
  unfold write_slots. intros H. revert out.
  induction H as [|x l l' _ IH|x y l|l l' l'' _ IH1 _ IH2]; intros out; cbn; auto.
  - destruct (decide (x = y)) as [->|Hne]; [done|]. by rewrite list_insert_insert_ne.
  - by rewrite IH1.
Qed.

Lemma write_slots_seq {A} (f : nat → A) lo k out :
  write_slots f (seq lo k) out = for_ lo (lo + k) (fun i out => <[i := f i]> out) out.
Proof.
  unfold write_slots, for_. replace (lo + k - lo) with k by lia.
  revert lo out. induction k as [|k IH]; intros; cbn; auto.
Qed.

Lemma plan_interleaving {A} (f : nat → A) n rs l out :
  covers 0 n rs → interleave (map range_indices rs) l →
  write_slots f l out = for_ 0 n (fun i out => <[i := f i]> out) out.
Proof.
  intros Hc Hl. rewrite (write_slots_Permutation f l (seq 0 n)), write_slots_seq; [done|].
  rewrite (interleave_Permutation _ _ Hl), (covers_indices _ _ _ Hc), Nat.sub_0_r. done.
Qed.

(** * Properties *)

(** C11 In whatever order the worker threads of [RBFor] and of [parallelFor] interleave their
    iterations, an array filled slot by slot ends as the sequential loop leaves it. *)
Theorem parallel_any_interleaving {A : Type} (f : nat → A) hw n mw mt wt l out :
  interleave (map range_indices (Rb.RBPlan hw n mt wt)) l
  ∨ interleave (map range_indices (Tools.parPlan hw n mw mt wt)) l →
  write_slots f l out = for_ 0 n (fun i out => <[i := f i]> out) out.
Proof.
  intros [H|H]; (eapply plan_interleaving; [|exact H]).
  - apply RBPlan_covers.
  - apply parPlan_covers.
Qed.

Lemma parallel_any_interleaving_witness :
  write_slots (fun i => i * i) [2; 0; 3; 1] (replicate 4 0) = [0; 1; 4; 9].
Proof.
  rewrite (parallel_any_interleaving (fun i => i * i) 8 4 1 true 2); [reflexivity|].
  right. change (map range_indices (Tools.parPlan 8 4 1 true 2)) with [[0; 1]; [2; 3]].
  apply (interleave_step [[0; 1]] 2 [3] []). apply (interleave_step [] 0 [1] [[3]]).
  apply (interleave_step [[1]] 3 [] []). apply (interleave_step [] 1 [] [[]]).
  constructor. repeat constructor.
Defined.

(** The ranges [RBFor] and [parallelFor] hand out partition [0, n): every index is run exactly
    once, in order, and no more threads are started than the worker limit allows. *)
Theorem parallel_ranges_partition hw n mw mt wt :
  List.concat (map range_indices (Rb.RBPlan hw n mt wt)) = seq 0 n ∧
  List.concat (map range_indices (Tools.parPlan hw n mw mt wt)) = seq 0 n ∧
  length (Rb.RBPlan hw n mt wt) ≤ Rb.RBWorkerThreads hw mt wt ∧
  length (Tools.parPlan hw n mw mt wt) ≤ Tools.workerCount hw n mw mt wt.
Proof.
  assert (H1 : ∀ n c t k, length (Rb.RBRanges n c t k) ≤ k).
  { intros n' c t k. revert t. induction k as [|k IH]; intros t; cbn; [lia|].
    destruct (_ <=? _); cbn; [lia|]. specialize (IH (S t)). lia. }
  assert (H2 : ∀ n c t k, length (Tools.parRanges n c t k) ≤ k).
  { intros n' c t k. revert t. induction k as [|k IH]; intros t; cbn; [lia|].
    destruct (_ <=? _); cbn; [lia|]. specialize (IH (S t)). lia. }
  rewrite (covers_indices _ _ _ (RBPlan_covers hw n mt wt)).
  rewrite (covers_indices _ _ _ (parPlan_covers hw n mw mt wt)), Nat.sub_0_r.
  split; [done|]. split; [done|]. split.
  - assert (1 ≤ Rb.RBWorkerThreads hw mt wt)
      by (unfold Rb.RBWorkerThreads, Rb.RBHwThreads; destruct mt; cbn [negb]; [destruct (_ =? _)|]; lia).
    unfold Rb.RBPlan. destruct (n =? 0); [cbn; lia|]. destruct mt; cbn [negb length]; [|lia].
    destruct (_ || _); cbn [length]; [lia|]. etrans; [apply H1|lia].
  - assert (1 ≤ Tools.workerCount hw n mw mt wt)
      by (unfold Tools.workerCount; destruct (_ || _); lia).
    unfold Tools.parPlan. destruct (n =? 0); [cbn; lia|]. destruct mt; cbn [negb length]; [|lia].
    destruct (_ <=? _); cbn [length]; [lia|]. apply H2.
Qed.
