(* ===== verification/RbBits.v ===== *)
(** RB-OKVS band masks ([RBBits], four 64-bit limbs) and their operations:
    frontend/okvs/rb/types.h and the mask part of frontend/okvs/rb/rows.h. *)
From S2P Require Import Prelude Words.
Open Scope nat_scope.

(** * Data *)

(** [using RBBits = std::array<u64, 4>] *)
Abbreviation RBBits := (list Z).

Definition RBBits_zero : RBBits := [0; 0; 0; 0]%Z.

(** Type invariant of a mask: four limbs, each a [u64]. *)
Definition bits_wf (b : RBBits) : Prop := length b = 4 ∧ Forall (in_word 64) b.

(** * Operations *)

Definition low_mask (r : nat) : Z := (Z.shiftl 1 (Z.of_nat r) - 1)%Z.

Definition RBTrimBits (bits : RBBits) (width : nat) : Res RBBits :=
  throw_if (256 <? width) (InvalidArgument "RBTrimBits width > 256") ;;
  if width =? 256 then mret bits else
  let full := width / 64 in
  let rem := width mod 64 in
  let bits := for_ (full + (if rem =? 0 then 0 else 1)) 4 (fun i b => <[i := 0%Z]> b) bits in
  mret (if negb (rem =? 0) && (full <? 4)
        then <[full := Z.land bits.[full] (low_mask rem)]> bits
        else bits).

Definition RBMaskBits (m : RBBits) (width : nat) : Res RBBits := RBTrimBits m width.

Definition RBHasBits (bits : RBBits) : bool :=
  negb (Z.lor (Z.lor (Z.lor bits.[0] bits.[1]) bits.[2]) bits.[3] =? 0)%Z.

Definition RBEnsureBits (bits : RBBits) : RBBits :=
  if negb (RBHasBits bits) then <[0 := 1%Z]> bits else bits.

Definition RBBit (bits : RBBits) (idx : nat) : bool :=
  negb (Z.land (Z.shiftr bits.[idx / 64] (Z.of_nat (idx mod 64))) 1 =? 0)%Z.

(** [__builtin_ctzll(x)] for [x <> 0]: index of the least significant set bit. *)
Fixpoint ctz_pos (p : positive) : nat :=
  match p with
  | xO p' => S (ctz_pos p')
  | _ => 0
  end.
Definition ctzll (x : Z) : nat :=
  match x with Zpos p => ctz_pos p | _ => 0 end.

Definition RBLead (bits : RBBits) (width : nat) : nat :=
  match iterC 4 0 (fun i (_ : unit) =>
      if negb (bits.[i] =? 0)%Z
      then Ok (Return (i * 64 + ctzll bits.[i]))
      else Ok (Continue tt)) tt with
  | Ok (inr r) => r
  | _ => width
  end.

Definition RBZeroBelow (bits : RBBits) (idx : nat) : RBBits :=
  let limb := idx / 64 in
  let off := idx mod 64 in
  let bits := for_ 0 limb (fun i b => <[i := 0%Z]> b) bits in
  if (limb <? 4) && negb (off =? 0)
  then <[limb := Z.land bits.[limb] (wnot 64 (low_mask off))]> bits
  else bits.

(** Loop body of [RBShiftLeft]: limb [i] of the input moved up. *)
Definition RBShiftLeft_limb (inp : RBBits) (limbShift bitShift i : nat) (out : RBBits) : RBBits :=
  if (inp.[i] =? 0)%Z then out else
  let dst := i + limbShift in
  let out := if dst <? 4
             then <[dst := Z.lor out.[dst] (u64 (Z.shiftl inp.[i] (Z.of_nat bitShift)))]> out
             else out in
  if negb (bitShift =? 0) && (dst + 1 <? 4)
  then <[dst + 1 := Z.lor out.[dst + 1] (Z.shiftr inp.[i] (Z.of_nat (64 - bitShift)))]> out
  else out.

Definition RBShiftLeft (inp : RBBits) (shift : nat) : RBBits :=
  if 256 <=? shift then RBBits_zero else
  for_ 0 4 (RBShiftLeft_limb inp (shift / 64) (shift mod 64)) RBBits_zero.

(** Loop body of [RBShiftRight]: limb [i] of the input moved down. *)
Definition RBShiftRight_limb (inp : RBBits) (limbShift bitShift i : nat) (out : RBBits) : RBBits :=
  let dst := i - limbShift in
  let out := <[dst := Z.lor out.[dst] (Z.shiftr inp.[i] (Z.of_nat bitShift))]> out in
  if negb (bitShift =? 0) && (i + 1 <? 4)
  then <[dst := Z.lor out.[dst] (u64 (Z.shiftl inp.[i + 1] (Z.of_nat (64 - bitShift))))]> out
  else out.

Definition RBShiftRight (inp : RBBits) (shift : nat) : RBBits :=
  if 256 <=? shift then RBBits_zero else
  for_ (shift / 64) 4 (RBShiftRight_limb inp (shift / 64) (shift mod 64)) RBBits_zero.

Definition RBXorShifted (dst : RBBits) (dstOff : nat) (src : RBBits) (srcOff width : nat)
  : Res RBBits :=
  let tmp := RBZeroBelow src srcOff in
  let shift := (Z.of_nat dstOff - Z.of_nat srcOff)%Z in
  let tmp := if (0 <=? shift)%Z then RBShiftLeft tmp (Z.to_nat shift)
             else RBShiftRight tmp (Z.to_nat (- shift)) in
  tmp ← RBTrimBits tmp width;
  mret (for_ 0 4 (fun i d => <[i := Z.lxor d.[i] tmp.[i]]> d) dst).

(** * Reading a mask bit by bit *)

Lemma low_mask_eq r : low_mask r = (2 ^ Z.of_nat r - 1)%Z.
Proof. unfold low_mask. by rewrite Z.shiftl_1_l. Qed.

Lemma low_mask_testbit r i : (0 ≤ i)%Z → Z.testbit (low_mask r) i = (i <? Z.of_nat r)%Z.
Proof. intros. rewrite low_mask_eq. apply ones_testbit; lia. Qed.

Lemma land_1_testbit x : negb (Z.land x 1 =? 0)%Z = Z.testbit x 0.
Proof.
  pose proof (Z.land_ones x 1 ltac:(lia)) as H. change (Z.ones 1) with 1%Z in H.
  change (2 ^ 1)%Z with 2%Z in H. rewrite H, Zmod_odd, <- Z.bit0_odd. by destruct (Z.testbit x 0).
Qed.

Lemma RBBit_testbit bits idx :
  RBBit bits idx = Z.testbit bits.[idx / 64] (Z.of_nat (idx mod 64)).
Proof.
  unfold RBBit. rewrite land_1_testbit, Z.shiftr_spec by lia. by rewrite Z.add_0_l.
Qed.

Lemma bits_wf_nth b i : bits_wf b → in_word 64 b.[i].
Proof. intros [_ H]. apply Forall_nth_Z; [done|]. by apply in_word_0. Qed.

(** Two well-formed masks with the same bits are equal. *)
Lemma bits_ext b b' : bits_wf b → bits_wf b' →
  (∀ j, j < 256 → RBBit b j = RBBit b' j) → b = b'.
Proof.
  intros Hb Hb' H. apply list_eq_nth; [by rewrite (proj1 Hb), (proj1 Hb')|].
  intros i Hi. rewrite (proj1 Hb) in Hi. bitwise.
  destruct (Z.lt_ge_cases i0 64) as [Hlt|Hge].
  - specialize (H (i * 64 + Z.to_nat i0) ltac:(lia)). rewrite !RBBit_testbit in H.
    rewrite Nat.div_add_l, (Nat.div_small (Z.to_nat i0)), Nat.add_0_r in H by lia.
    rewrite (Nat.add_comm (i * 64)), Nat.Div0.mod_add, Nat.mod_small, Z2Nat.id in H by lia.
    done.
  - by rewrite !(testbit_high 64) by (done || by apply bits_wf_nth).
Qed.

(** Position [j] of a mask lies in limb [j / 64]. *)
Ltac limb_of j :=
  let q := fresh "q" in let o := fresh "o" in
  pose proof (Nat.div_mod_eq j 64); pose proof (Nat.mod_upper_bound j 64 ltac:(lia));
  set (q := j / 64) in *; set (o := j mod 64) in *; clearbody q o.

Lemma zero_loop_nth lo hi (b : RBBits) k :
  length b = 4 → hi ≤ 4 →
  length (for_ lo hi (fun i b => <[i := 0%Z]> b) b) = 4 ∧
  (for_ lo hi (fun i b => <[i := 0%Z]> b) b).[k]
  = if decide (lo ≤ k < hi) then 0%Z else b.[k].
Proof.
  intros Hl Hhi. destruct (Nat.le_gt_cases lo hi) as [Hle|Hgt].
  - loop_inv (fun i (s : RBBits) => length s = 4 ∧
      s.[k] = if decide (lo ≤ k < i) then 0%Z else b.[k]) as H; [done| | |done].
    + split; [done|]. case_decide; [lia|done].
    + intros i s Hi [Hs1 Hs2]. rewrite length_insert. split; [done|].
      rewrite nth_insert, Hs1, Hs2. repeat case_decide; done || lia.
  - unfold for_. replace (hi - lo) with 0 by lia. split; [done|]. cbn. case_decide; [lia|done].
Qed.

Lemma zero_loop_wf lo hi (b : RBBits) :
  bits_wf b → bits_wf (for_ lo hi (fun i b => <[i := 0%Z]> b) b).
Proof.
  intros Hb. unfold for_. generalize (hi - lo). intros k. revert lo b Hb.
  induction k as [|k IH]; intros lo b Hb; cbn; [done|]. apply IH.
  split; [rewrite length_insert; apply Hb|]. apply Forall_insert; [apply Hb|].
  by apply in_word_0.
Qed.

Lemma bits_wf_insert b i x : bits_wf b → in_word 64 x → bits_wf (<[i := x]> b).
Proof.
  intros [Hl Hb] Hx. split; [by rewrite length_insert|]. by apply Forall_insert.
Qed.
#[export] Hint Resolve bits_wf_insert zero_loop_wf bits_wf_nth : zbits.

Lemma bits_wf_zero : bits_wf RBBits_zero.
Proof. split; [done|]. repeat constructor; done. Qed.
#[export] Hint Resolve bits_wf_zero : zbits.

Lemma RBBit_zero j : RBBit RBBits_zero j = false.
Proof.
  rewrite RBBit_testbit. unfold RBBits_zero.
  destruct (j / 64) as [|[|[|[|[|]]]]]; cbn [nth]; apply Z.testbit_0_l.
Qed.

(** * What each operation does to the bits *)

Lemma RBTrimBits_wide bits width :
  256 < width → RBTrimBits bits width = Throw (InvalidArgument "RBTrimBits width > 256").
Proof. intros. unfold RBTrimBits. by nat_cmp. Qed.

Lemma RBTrimBits_spec bits width :
  width ≤ 256 → bits_wf bits →
  ∃ b, RBTrimBits bits width = Ok b ∧ bits_wf b ∧
    ∀ j, j < 256 → RBBit b j = RBBit bits j && (j <? width).
Proof.
  intros Hw Hb. unfold RBTrimBits. nat_cmp. cbn [throw_if mbind Res_bind].
  destruct (Nat.eqb_spec width 256) as [->|Hne].
  { exists bits. split; [done|]. split; [done|]. intros j Hj. by nat_cmp. }
  eexists. split; [done|]. limb_of width.
  pose proof (zero_loop_wf (q + (if o =? 0 then 0 else 1)) 4 bits Hb) as Hz.
  set (bz := for_ _ _ _ bits) in *. nat_cmp.
  split.
  { destruct (o =? 0); cbn [negb]; [done|]. apply bits_wf_insert; [done|].
    apply in_word_land; [lia|by apply bits_wf_nth|]. rewrite low_mask_eq.
    assert (0 < 2 ^ Z.of_nat o)%Z by (apply Z.pow_pos_nonneg; lia). lia. }
  intros j Hj. rewrite !RBBit_testbit. limb_of j.
  assert (Hn : bz.[q0] = if decide (q + (if o =? 0 then 0 else 1) ≤ q0 < 4) then 0%Z else bits.[q0])
    by (apply zero_loop_nth; [apply Hb|lia]).
  clearbody bz. destruct (Nat.eqb_spec o 0) as [Ho|Ho]; cbn [negb].
  - rewrite Hn. case_decide; nat_cmp; by rewrite ?Z.testbit_0_l.
  - rewrite nth_insert, (proj1 Hz).
    destruct (decide (q = q0 ∧ q < 4)) as [[<- _]|Hq].
    + rewrite decide_False in Hn by lia.
      rewrite Z.land_spec, low_mask_testbit, Hn by lia. f_equal.
      destruct (Z.ltb_spec (Z.of_nat o0) (Z.of_nat o)); by nat_cmp.
    + rewrite Hn. case_decide; nat_cmp; by rewrite ?Z.testbit_0_l.
Qed.

Lemma RBTrimBits_Ok bits width b :
  bits_wf bits → RBTrimBits bits width = Ok b →
  bits_wf b ∧ ∀ j, j < 256 → RBBit b j = RBBit bits j && (j <? width).
Proof.
  intros Hb H. destruct (Nat.le_gt_cases width 256) as [Hw|Hw].
  - destruct (RBTrimBits_spec bits width Hw Hb) as (b' & H' & Hs).
    rewrite H' in H. injection H as <-. done.
  - by rewrite RBTrimBits_wide in H.
Qed.

Lemma RBHasBits_spec bits : bits_wf bits →
  RBHasBits bits = true ↔ ∃ j, j < 256 ∧ RBBit bits j = true.
Proof.
  intros [Hl Hb]. destruct bits as [|b0 [|b1 [|b2 [|b3 [|]]]]]; try done. clear Hl.
  unfold RBHasBits. cbn [nth]. rewrite negb_true_iff, Z.eqb_neq.
  split.
  - intros Hne. destruct (Z.eq_dec (Z.lor (Z.lor (Z.lor b0 b1) b2) b3) 0%Z) as [?|_]; [done|].
    assert (Hex : ∃ k, k < 4 ∧ [b0; b1; b2; b3].[k] ≠ 0%Z).
    { destruct (Z.eq_dec b0 0%Z) as [->|]; [|exists 0; split; [lia|assumption]].
      destruct (Z.eq_dec b1 0%Z) as [->|]; [|exists 1; split; [lia|assumption]].
      destruct (Z.eq_dec b2 0%Z) as [->|]; [|exists 2; split; [lia|assumption]].
      destruct (Z.eq_dec b3 0%Z) as [->|]; [|exists 3; split; [lia|assumption]]. by destruct Hne. }
    destruct Hex as (k & Hk & Hz).
    assert (Hw : in_word 64 [b0; b1; b2; b3].[k]) by (apply Forall_nth_Z; [done|by apply in_word_0]).
    set (x := [b0; b1; b2; b3].[k]) in *.
    assert (Hlt : (Z.log2 x < 64)%Z) by (apply Z.log2_lt_pow2; destruct Hw; lia).
    pose proof (Z.log2_nonneg x) as Hlog.
    exists (k * 64 + Z.to_nat (Z.log2 x)). split; [lia|]. rewrite RBBit_testbit.
    rewrite Nat.div_add_l, (Nat.div_small (Z.to_nat _)), Nat.add_0_r by lia.
    rewrite (Nat.add_comm (k * 64)), Nat.Div0.mod_add, Nat.mod_small, Z2Nat.id by lia.
    apply Z.bit_log2. destruct Hw; lia.
  - intros (j & Hj & Hbit) Hz. rewrite RBBit_testbit in Hbit. limb_of j.
    apply Z.lor_eq_0_iff in Hz as [Hz H3]. apply Z.lor_eq_0_iff in Hz as [Hz H2].
    apply Z.lor_eq_0_iff in Hz as [H0' H1]. subst.
    destruct q as [|[|[|[|[|]]]]]; cbn [nth] in Hbit; by rewrite Z.testbit_0_l in Hbit.
Qed.

Lemma RBEnsureBits_wf bits : bits_wf bits → bits_wf (RBEnsureBits bits).
Proof. intros. unfold RBEnsureBits. destruct (negb _); auto with zbits. by apply bits_wf_insert. Qed.

(** After [RBEnsureBits] a mask is never empty, and a non-empty mask is unchanged. *)
Lemma RBEnsureBits_nonempty bits : bits_wf bits →
  ∃ j, j < 256 ∧ RBBit (RBEnsureBits bits) j = true.
Proof.
  intros Hb. unfold RBEnsureBits. destruct (RBHasBits bits) eqn:E; cbn [negb].
  - by apply RBHasBits_spec.
  - exists 0. split; [lia|]. rewrite RBBit_testbit. cbn.
    rewrite nth_insert, decide_True; [done|]. split; [done|]. rewrite (proj1 Hb). lia.
Qed.

(** Bits at or above the mask width stay clear. *)
Lemma RBEnsureBits_below bits width : bits_wf bits → 0 < width →
  (∀ j, j < 256 → width ≤ j → RBBit bits j = false) →
  ∀ j, j < 256 → width ≤ j → RBBit (RBEnsureBits bits) j = false.
Proof.
  intros Hb Hw H j Hj Hwj. unfold RBEnsureBits. destruct (RBHasBits bits) eqn:E; cbn [negb]; [by apply H|].
  assert (Hbit : RBBit bits j = false) by by apply H.
  rewrite !RBBit_testbit in *. limb_of j. rewrite nth_insert. case_decide as Hq; [|done].
  destruct Hq as [<- _]. destruct (Z.of_nat o) eqn:Eo; [lia| |lia]. destruct p; done.
Qed.

Lemma RBEnsureBits_id bits : RBHasBits bits = true → RBEnsureBits bits = bits.
Proof. intros H. unfold RBEnsureBits. by rewrite H. Qed.

(** ** The leading bit *)

Lemma ctz_pos_spec p :
  Z.testbit (Zpos p) (Z.of_nat (ctz_pos p)) = true ∧
  ∀ i, i < ctz_pos p → Z.testbit (Zpos p) (Z.of_nat i) = false.
Proof.
  induction p as [p IH|p IH|]; cbn [ctz_pos]; try (split; [done|lia]).
  destruct IH as [IH1 IH2]. change (Zpos p~0) with (2 * Zpos p)%Z. split.
  - by rewrite Nat2Z.inj_succ, Z.double_bits_succ.
  - intros [|i] Hi; [done|]. rewrite Nat2Z.inj_succ, Z.double_bits_succ. apply IH2. lia.
Qed.

Lemma ctzll_spec x : in_word 64 x → x ≠ 0%Z →
  ctzll x < 64 ∧ Z.testbit x (Z.of_nat (ctzll x)) = true ∧
  ∀ i, i < ctzll x → Z.testbit x (Z.of_nat i) = false.
Proof.
  intros Hw Hne. destruct x as [|p|p]; [done| |destruct Hw; lia].
  destruct (ctz_pos_spec p) as [H1 H2]. cbn [ctzll]. split; [|done].
  destruct (Nat.le_gt_cases 64 (ctz_pos p)) as [Hge|]; [|done].
  by rewrite (testbit_high 64) in H1 by (done || lia).
Qed.

(** [RBLead] returns the lowest set bit, or [width] for an empty mask. *)
Lemma RBLead_spec bits width : bits_wf bits →
  (RBHasBits bits = false ∧ RBLead bits width = width) ∨
  (RBLead bits width < 256 ∧ RBBit bits (RBLead bits width) = true ∧
   ∀ j, j < RBLead bits width → RBBit bits j = false).
Proof.
  intros Hb.
  assert (Hl : ∀ k, k < 4 → bits.[k] ≠ 0%Z → (∀ k', k' < k → bits.[k'] = 0%Z) →
    let r := k * 64 + ctzll bits.[k] in
    r < 256 ∧ RBBit bits r = true ∧ ∀ j, j < r → RBBit bits j = false).
  { intros k Hk Hne Hz r. destruct (ctzll_spec bits.[k]) as (H1 & H2 & H3); [by apply bits_wf_nth|done|].
    subst r. split; [lia|]. split.
    - rewrite RBBit_testbit, Nat.div_add_l, (Nat.div_small (ctzll _)), Nat.add_0_r by lia.
      by rewrite (Nat.add_comm (k * 64)), Nat.Div0.mod_add, Nat.mod_small by lia.
    - intros j Hj. rewrite RBBit_testbit. limb_of j.
      destruct (Nat.eq_dec q k) as [->|]; [apply H3; lia|].
      rewrite Hz by lia. apply Z.testbit_0_l. }
  unfold RBLead. cbn [iterC].
  destruct (Z.eqb_spec bits.[0] 0) as [E0|E0]; cbn [negb]; [|right; apply (Hl 0); lia || done].
  destruct (Z.eqb_spec bits.[1] 0) as [E1|E1]; cbn [negb].
  2: { right; apply (Hl 1); [lia|done|]. intros [|]; done || lia. }
  destruct (Z.eqb_spec bits.[2] 0) as [E2|E2]; cbn [negb].
  2: { right; apply (Hl 2); [lia|done|]. intros [|[|]]; done || lia. }
  destruct (Z.eqb_spec bits.[3] 0) as [E3|E3]; cbn [negb].
  2: { right; apply (Hl 3); [lia|done|]. intros [|[|[|]]]; done || lia. }
  left. split; [|done]. unfold RBHasBits. by rewrite E0, E1, E2, E3.
Qed.

(** ** Clearing low bits and shifting *)

Lemma RBZeroBelow_spec bits idx : bits_wf bits → idx < 256 →
  bits_wf (RBZeroBelow bits idx) ∧
  ∀ j, j < 256 → RBBit (RBZeroBelow bits idx) j = RBBit bits j && (idx <=? j).
Proof.
  intros Hb Hidx. unfold RBZeroBelow. limb_of idx.
  pose proof (zero_loop_wf 0 q bits Hb) as Hz.
  assert (Hn : ∀ k, (for_ 0 q (fun i b => <[i := 0%Z]> b) bits).[k]
    = if decide (0 ≤ k < q) then 0%Z else bits.[k])
    by (intros; apply zero_loop_nth; [apply Hb|lia]).
  set (bz := for_ _ _ _ bits) in *. clearbody bz. nat_cmp. split.
  { destruct (o =? 0); cbn [negb]; [done|]. apply bits_wf_insert; [done|].
    apply in_word_land_r; [lia|apply (bits_wf_nth bz q Hz)|]. by apply in_word_wrap. }
  intros j Hj. rewrite !RBBit_testbit. limb_of j.
  destruct (Nat.eqb_spec o 0) as [Ho|Ho]; cbn [negb].
  - rewrite Hn. destruct (decide (0 ≤ q0 < q)); nat_cmp; by rewrite ?Z.testbit_0_l.
  - rewrite nth_insert, (proj1 Hz).
    destruct (decide (q = q0 ∧ q < 4)) as [[<- _]|Hq].
    + rewrite Hn, decide_False by lia. unfold wnot.
      rewrite Z.land_spec, wrap_testbit, Z.lnot_spec, low_mask_testbit by lia.
      replace (Z.of_nat o0 <? 64)%Z with true by (symmetry; apply Z.ltb_lt; lia).
      f_equal. destruct (Z.ltb_spec (Z.of_nat o0) (Z.of_nat o)); by nat_cmp.
    + rewrite Hn. destruct (decide (0 ≤ q0 < q)); nat_cmp; by rewrite ?Z.testbit_0_l.
Qed.

(** One or-accumulation into limb [d]. *)
Lemma or_limb_testbit (out : RBBits) d x k t : bits_wf out → k < 4 →
  Z.testbit (<[d := Z.lor out.[d] x]> out).[k] t
  = Z.testbit out.[k] t || (k =? d) && Z.testbit x t.
Proof.
  intros Ho Hk. rewrite nth_insert, (proj1 Ho). destruct (Nat.eqb_spec k d) as [->|Hne].
  - rewrite decide_True by lia. apply Z.lor_spec.
  - rewrite decide_False by lia. by rewrite orb_false_r.
Qed.

Lemma or_limb_wf (out : RBBits) d x : bits_wf out → in_word 64 x →
  bits_wf (<[d := Z.lor out.[d] x]> out).
Proof. intros. apply bits_wf_insert; [done|]. apply in_word_lor; [lia| |done]. by apply bits_wf_nth. Qed.

(** Bit [t] of a limb shifted up by [o] within 64 bits, and of its overflow. *)
Lemma shl_testbit x o t : t < 64 →
  Z.testbit (u64 (Z.shiftl x (Z.of_nat o))) (Z.of_nat t)
  = (o <=? t) && Z.testbit x (Z.of_nat (t - o)).
Proof.
  intros Ht. rewrite wrap_testbit, Z.shiftl_spec by lia.
  replace (Z.of_nat t <? 64)%Z with true by (symmetry; apply Z.ltb_lt; lia). cbn [andb].
  destruct (Nat.leb_spec o t); cbn [andb]; [f_equal; lia|]. apply Z.testbit_neg_r. lia.
Qed.

Lemma shr_testbit x o t : in_word 64 x → o ≤ 64 →
  Z.testbit (Z.shiftr x (Z.of_nat o)) (Z.of_nat t)
  = (t + o <? 64) && Z.testbit x (Z.of_nat (t + o)).
Proof.
  intros Hx Ho. rewrite Z.shiftr_spec, <- Nat2Z.inj_add by lia.
  destruct (Nat.ltb_spec (t + o) 64); [done|]. apply (testbit_high 64); [done|lia].
Qed.

Lemma RBShiftLeft_step (inp out : RBBits) (i q o k t : nat) :
  bits_wf inp → bits_wf out → i < 4 → o < 64 → k < 4 → t < 64 →
  bits_wf (RBShiftLeft_limb inp q o i out) ∧
  Z.testbit (RBShiftLeft_limb inp q o i out).[k] (Z.of_nat t) = Z.testbit out.[k] (Z.of_nat t)
    || (if o <=? t then (k =? i + q) && Z.testbit inp.[i] (Z.of_nat (t - o))
        else (k =? i + q + 1) && Z.testbit inp.[i] (Z.of_nat (64 + t - o))).
Proof.
  intros Hi Ho Hi4 Ho64 Hk Ht. unfold RBShiftLeft_limb. pose proof (bits_wf_nth inp i Hi) as Hw.
  destruct (Z.eqb_spec inp.[i] 0) as [->|Hne].
  { split; [done|]. rewrite !Z.testbit_0_l, !andb_false_r.
    by destruct (o <=? t); rewrite orb_false_r. }
  cbv zeta.
  set (o1 := if i + q <? 4 then <[i + q := Z.lor out.[i + q] (u64 (Z.shiftl inp.[i] (Z.of_nat o)))]> out
             else out) in *.
  assert (H1 : bits_wf o1) by (subst o1; destruct (_ <? _); auto using or_limb_wf, in_word_wrap with zbits).
  assert (H1t : Z.testbit o1.[k] (Z.of_nat t) = Z.testbit out.[k] (Z.of_nat t)
    || (k =? i + q) && ((o <=? t) && Z.testbit inp.[i] (Z.of_nat (t - o)))).
  { subst o1. destruct (Nat.ltb_spec (i + q) 4).
    - by rewrite or_limb_testbit, shl_testbit by done.
    - nat_cmp. by rewrite orb_false_r. }
  clearbody o1. destruct (Nat.eqb_spec o 0) as [->|Ho0]; cbn [negb andb].
  { split; [done|]. rewrite H1t. nat_cmp. done. }
  destruct (Nat.ltb_spec (i + q + 1) 4).
  - split; [apply or_limb_wf; auto with zbits|].
    rewrite or_limb_testbit, H1t, shr_testbit by (done || lia).
    destruct (Nat.leb_spec o t); nat_cmp; cbn [andb orb]; rewrite ?andb_false_r, ?orb_false_r; [done|].
    do 3 f_equal. lia.
  - split; [done|]. rewrite H1t. destruct (Nat.leb_spec o t); [done|].
    nat_cmp. cbn [andb]. by rewrite ?andb_false_r, ?orb_false_r.
Qed.

Lemma RBShiftLeft_spec bits s : bits_wf bits →
  bits_wf (RBShiftLeft bits s) ∧
  ∀ j, j < 256 → RBBit (RBShiftLeft bits s) j = (s <=? j) && RBBit bits (j - s).
Proof.
  intros Hb. unfold RBShiftLeft. destruct (Nat.leb_spec 256 s) as [Hs|Hs].
  { split; [apply bits_wf_zero|]. intros j Hj. nat_cmp. by rewrite RBBit_zero. }
  limb_of s.
  loop_inv (fun i (out : RBBits) => bits_wf out ∧ ∀ k t, k < 4 → t < 64 →
    Z.testbit out.[k] (Z.of_nat t) =
      if o <=? t then (q <=? k) && (k <? i + q) && Z.testbit bits.[k - q] (Z.of_nat (t - o))
      else (q + 1 <=? k) && (k <? i + q + 1) && Z.testbit bits.[k - (q + 1)] (Z.of_nat (64 + t - o))) as HL.
  - lia.
  - split; [apply bits_wf_zero|]. intros k t Hk Ht.
    replace (Z.testbit RBBits_zero.[k] (Z.of_nat t)) with false
      by (destruct k as [|[|[|[|]]]]; try lia; symmetry; apply Z.testbit_0_l).
    destruct (o <=? t).
    + by destruct (Nat.leb_spec q k); nat_cmp.
    + by destruct (Nat.leb_spec (q + 1) k); nat_cmp.
  - intros i out Hi [Hw Hout]. split.
    + apply (RBShiftLeft_step bits out i q o 0 0); auto; lia.
    + intros k t Hk Ht.
      rewrite (proj2 (RBShiftLeft_step bits out i q o k t Hb Hw ltac:(lia) ltac:(lia) Hk Ht)).
      rewrite Hout by done. destruct (o <=? t).
      * destruct (Nat.eqb_spec k (i + q)) as [->|]; cbn [andb].
        -- nat_cmp. cbn [orb]. do 2 f_equal. lia.
        -- rewrite orb_false_r. destruct (Nat.ltb_spec k (i + q)); nat_cmp; done.
      * destruct (Nat.eqb_spec k (i + q + 1)) as [->|]; cbn [andb].
        -- nat_cmp. cbn [orb]. do 2 f_equal. lia.
        -- rewrite orb_false_r. destruct (Nat.ltb_spec k (i + q + 1)); nat_cmp; done.
  - destruct HL as [Hw Hout]. split; [done|]. intros j Hj. rewrite !RBBit_testbit. limb_of j.
    rewrite Hout by lia. destruct (Nat.leb_spec o o0).
    + destruct (Nat.leb_spec q q0); nat_cmp; cbn [andb]; [|done].
      replace (j - s) with ((q0 - q) * 64 + (o0 - o)) by lia.
      rewrite Nat.div_add_l, (Nat.div_small (o0 - o)), Nat.add_0_r by lia.
      by rewrite (Nat.add_comm (_ * 64)), Nat.Div0.mod_add, Nat.mod_small by lia.
    + destruct (Nat.leb_spec (q + 1) q0); nat_cmp; cbn [andb]; [|done].
      replace (j - s) with ((q0 - (q + 1)) * 64 + (64 + o0 - o)) by lia.
      rewrite Nat.div_add_l, (Nat.div_small (64 + o0 - o)), Nat.add_0_r by lia.
      by rewrite (Nat.add_comm (_ * 64)), Nat.Div0.mod_add, Nat.mod_small by lia.
Qed.

Lemma RBShiftRight_step (inp out : RBBits) (i q o k t : nat) :
  bits_wf inp → bits_wf out → q ≤ i < 4 → o < 64 → k < 4 → t < 64 →
  bits_wf (RBShiftRight_limb inp q o i out) ∧
  Z.testbit (RBShiftRight_limb inp q o i out).[k] (Z.of_nat t) = Z.testbit out.[k] (Z.of_nat t)
    || (k =? i - q) &&
       (if t + o <? 64 then Z.testbit inp.[i] (Z.of_nat (t + o))
        else (i + 1 <? 4) && Z.testbit inp.[i + 1] (Z.of_nat (t + o - 64))).
Proof.
  intros Hi Ho Hiq Ho64 Hk Ht. unfold RBShiftRight_limb. cbv zeta.
  pose proof (bits_wf_nth inp i Hi) as Hw. set (d := i - q).
  set (o1 := <[d := _]> out).
  assert (H1 : bits_wf o1) by (apply or_limb_wf; auto with zbits).
  assert (H1t : Z.testbit o1.[k] (Z.of_nat t) = Z.testbit out.[k] (Z.of_nat t)
    || (k =? d) && ((t + o <? 64) && Z.testbit inp.[i] (Z.of_nat (t + o)))).
  { subst o1. by rewrite or_limb_testbit, shr_testbit by (done || lia). }
  clearbody o1. destruct (Nat.eqb_spec o 0) as [->|Ho0]; cbn [negb andb].
  { split; [done|]. rewrite H1t. nat_cmp. done. }
  destruct (Nat.ltb_spec (i + 1) 4); cbn [andb].
  - split; [apply or_limb_wf; auto with zbits|].
    rewrite or_limb_testbit, H1t, shl_testbit by done.
    destruct (Nat.ltb_spec (t + o) 64); nat_cmp; cbn [andb orb];
      rewrite ?andb_false_r, ?orb_false_r; [done|].
    do 4 f_equal. lia.
  - split; [done|]. rewrite H1t. by destruct (Nat.ltb_spec (t + o) 64).
Qed.

Lemma RBShiftRight_spec bits s : bits_wf bits →
  bits_wf (RBShiftRight bits s) ∧
  ∀ j, j < 256 → RBBit (RBShiftRight bits s) j = (j + s <? 256) && RBBit bits (j + s).
Proof.
  intros Hb. unfold RBShiftRight. destruct (Nat.leb_spec 256 s) as [Hs|Hs].
  { split; [apply bits_wf_zero|]. intros j Hj. nat_cmp. by rewrite RBBit_zero. }
  limb_of s.
  loop_inv (fun i (out : RBBits) => bits_wf out ∧ ∀ k t, k < 4 → t < 64 →
    Z.testbit out.[k] (Z.of_nat t) =
      (k + q <? i) && (if t + o <? 64 then Z.testbit bits.[k + q] (Z.of_nat (t + o))
        else (k + q + 1 <? 4) && Z.testbit bits.[k + q + 1] (Z.of_nat (t + o - 64)))) as HL.
  - lia.
  - split; [apply bits_wf_zero|]. intros k t Hk Ht. nat_cmp.
    destruct k as [|[|[|[|]]]]; try lia; apply Z.testbit_0_l.
  - intros i out Hi [Hw Hout]. split.
    + apply (RBShiftRight_step bits out i q o 0 0); auto; lia.
    + intros k t Hk Ht.
      rewrite (proj2 (RBShiftRight_step bits out i q o k t Hb Hw ltac:(lia) ltac:(lia) Hk Ht)).
      rewrite Hout by done. destruct (Nat.eqb_spec k (i - q)) as [->|]; cbn [andb].
      * nat_cmp. cbn [orb]. by replace (i - q + q) with i by lia.
      * rewrite orb_false_r. f_equal. destruct (Nat.ltb_spec (k + q) i); by nat_cmp.
  - destruct HL as [Hw Hout]. split; [done|]. intros j Hj. rewrite !RBBit_testbit. limb_of j.
    rewrite Hout by lia. destruct (Nat.ltb_spec (o0 + o) 64).
    + replace (j + s) with ((q0 + q) * 64 + (o0 + o)) by lia.
      rewrite Nat.div_add_l, (Nat.div_small (o0 + o)), Nat.add_0_r by lia.
      rewrite (Nat.add_comm (_ * 64)), Nat.Div0.mod_add, Nat.mod_small by lia. f_equal.
      destruct (Nat.ltb_spec (q0 + q) 4); by nat_cmp.
    + replace (j + s) with ((q0 + q + 1) * 64 + (o0 + o - 64)) by lia.
      rewrite Nat.div_add_l, (Nat.div_small (o0 + o - 64)), Nat.add_0_r by lia.
      rewrite (Nat.add_comm (_ * 64)), Nat.Div0.mod_add, Nat.mod_small by lia.
      destruct (Nat.ltb_spec (q0 + q + 1) 4); by nat_cmp.
Qed.

Lemma xor_loop_spec (tmp dst : RBBits) : bits_wf tmp → bits_wf dst →
  let r := for_ 0 4 (fun i (d : RBBits) => <[i := Z.lxor d.[i] tmp.[i]]> d) dst in
  bits_wf r ∧ ∀ j, j < 256 → RBBit r j = xorb (RBBit dst j) (RBBit tmp j).
Proof.
  intros Ht Hd r. assert (Hr : bits_wf r ∧ ∀ k, k < 4 → r.[k] = Z.lxor dst.[k] tmp.[k]).
  { subst r. loop_inv (fun i (d : RBBits) => bits_wf d ∧
      ∀ k, d.[k] = if k <? i then Z.lxor dst.[k] tmp.[k] else dst.[k]) as H.
    - lia.
    - split; [done|]. intros k. by nat_cmp.
    - intros i d Hi [Hw H]. split.
      { apply bits_wf_insert; [done|]. apply in_word_lxor; [lia| |]; by apply bits_wf_nth. }
      intros k. rewrite nth_insert, (proj1 Hw). destruct (decide (i = k ∧ i < 4)) as [[<- _]|Hne].
      + rewrite H. by nat_cmp.
      + rewrite H. by destruct (Nat.ltb_spec k i); nat_cmp.
    - destruct H as [Hw H]. split; [done|]. intros k Hk. rewrite H. by nat_cmp. }
  destruct Hr as [Hw H]. split; [done|]. intros j Hj. rewrite !RBBit_testbit.
  limb_of j. rewrite H by lia. apply Z.lxor_spec.
Qed.

(** [RBXorShifted] xors the bits of [src] at or above [srcOff] into [dst], moved so that
    bit [srcOff] lands on bit [dstOff], and drops what leaves the band of [width] bits. *)
Lemma RBXorShifted_spec dst dstOff src srcOff width :
  bits_wf dst → bits_wf src → srcOff < 256 → width ≤ 256 →
  ∃ b, RBXorShifted dst dstOff src srcOff width = Ok b ∧ bits_wf b ∧
    ∀ j, j < 256 → RBBit b j = xorb (RBBit dst j)
      ((j <? width) && (dstOff <=? j) && (j + srcOff - dstOff <? 256) &&
       RBBit src (j + srcOff - dstOff)).
Proof.
  intros Hd Hs Hoff Hw. unfold RBXorShifted.
  destruct (RBZeroBelow_spec src srcOff Hs Hoff) as [Hz1 Hz2].
  set (tmp0 := RBZeroBelow src srcOff) in *. clearbody tmp0.
  set (tmp1 := if (0 <=? _)%Z then _ else _).
  assert (H1 : bits_wf tmp1 ∧ ∀ j, j < 256 → RBBit tmp1 j =
    (dstOff <=? j) && (j + srcOff - dstOff <? 256) && RBBit src (j + srcOff - dstOff)).
  { subst tmp1. destruct (Z.leb_spec 0 (Z.of_nat dstOff - Z.of_nat srcOff)).
    - destruct (RBShiftLeft_spec tmp0 (Z.to_nat (Z.of_nat dstOff - Z.of_nat srcOff)) Hz1) as [Hl1 Hl2].
      split; [done|]. intros j Hj. rewrite Hl2 by done.
      destruct (Nat.leb_spec dstOff j).
      + nat_cmp. rewrite Hz2 by lia. nat_cmp. f_equal. lia.
      + cbn [andb]. destruct (Nat.leb_spec (Z.to_nat (Z.of_nat dstOff - Z.of_nat srcOff)) j); [|done].
        cbn [andb]. rewrite Hz2 by lia. by nat_cmp.
    - destruct (RBShiftRight_spec tmp0 (Z.to_nat (- (Z.of_nat dstOff - Z.of_nat srcOff))) Hz1) as [Hl1 Hl2].
      split; [done|]. intros j Hj. rewrite Hl2 by done.
      set (p := j + Z.to_nat _). assert (Hp : p + dstOff = j + srcOff) by lia.
      destruct (Nat.leb_spec dstOff j).
      + replace (j + srcOff - dstOff) with p by lia. cbn [andb].
        destruct (Nat.ltb_spec p 256); [|done]. cbn [andb]. rewrite Hz2 by lia. by nat_cmp.
      + cbn [andb]. destruct (Nat.ltb_spec p 256); [|done]. cbn [andb].
        rewrite Hz2 by lia. by nat_cmp. }
  clearbody tmp1. destruct H1 as [H1w H1].
  destruct (RBTrimBits_spec tmp1 width Hw H1w) as (t & -> & Htw & Ht).
  eexists. split; [done|].
  destruct (xor_loop_spec t dst Htw Hd) as [Hr1 Hr2]. split; [done|].
  intros j Hj. rewrite Hr2, Ht, H1 by done. f_equal.
  by destruct (j <? width), (dstOff <=? j), (j + srcOff - dstOff <? 256), (RBBit src _).
Qed.
