(* ===== verification/Fit.v ===== *)
(** RB-OKVS parameter selection: frontend/okvs/rb/fit.h, with the parameter records of
    frontend/okvs/rb/types.h.

    A C++ [double] is an IEEE binary64 value of [SpecFloat] (round to nearest, ties to even,
    no contraction of [a * b + c]); [std::log2] is a parameter, since the C library does not
    fix its rounding.  [hw] is [std::thread::hardware_concurrency()]. *)
From Stdlib Require Import SpecFloat.
From S2P Require Import Prelude Words Parallel.
Open Scope nat_scope.

(** * Doubles *)

Abbreviation double := spec_float.

Definition d_of_Z (z : Z) : double := binary_normalize 53 1024 z 0 false.
Definition d_of_nat (n : nat) : double := d_of_Z (Z.of_nat n).

(** The literal [num / den] (both exact, so the division rounds the literal itself). *)
Definition d_lit (num den : Z) : double := SFdiv 53 1024 (d_of_Z num) (d_of_Z den).

Definition dadd : double → double → double := SFadd 53 1024.
Definition dsub : double → double → double := SFsub 53 1024.
Definition dmul : double → double → double := SFmul 53 1024.
Definition ddiv : double → double → double := SFdiv 53 1024.
Definition dabs : double → double := SFabs.
Definition dopp : double → double := SFopp.
Definition dle : double → double → bool := SFleb.
Definition dlt : double → double → bool := SFltb.
Definition dge (a b : double) : bool := SFleb b a.

(** [std::max<double>(a, b)]: [a < b ? b : a]. *)
Definition dmax (a b : double) : double := if dlt a b then b else a.

(** [std::ceil]. *)
Definition d_ceil (x : double) : double :=
  match x with
  | S754_finite s m e =>
      if (0 <=? e)%Z then x else
      let p := (2 ^ (- e))%Z in
      let q := (Z.pos m / p)%Z in
      let q := if negb s && negb (Z.pos m mod p =? 0)%Z then (q + 1)%Z else q in
      binary_normalize 53 1024 (cond_Zopp s q) 0 s
  | _ => x
  end.

(** [std::round]: nearest integer, halves away from zero. *)
Definition d_round (x : double) : double :=
  match x with
  | S754_finite s m e =>
      if (0 <=? e)%Z then x else
      let p := (2 ^ (- e))%Z in
      binary_normalize 53 1024 (cond_Zopp s ((2 * Z.pos m + p) / (2 * p))%Z) 0 s
  | _ => x
  end.

(** [static_cast<size_t>(x)] for a finite non-negative [x] (truncation). *)
Definition d_to_size (x : double) : nat :=
  match x with
  | S754_finite false m e =>
      Z.to_nat (if (0 <=? e)%Z then Z.pos m * 2 ^ e else Z.pos m / 2 ^ (- e))%Z
  | _ => 0
  end.

(** * Parameter records *)

Record RBParams : Type := mkRBParams {
  p_lambda : nat;
  p_eps : double;
  p_columns : nat;
  p_bandWidth : nat;
  p_check : bool;
  p_multiThread : bool;
  p_workerThreads : nat;
  p_startSeed : block;
  p_maskSeed : block;
}.

Definition RBParams_default : RBParams := {|
  p_lambda := 40;
  p_eps := S754_zero false;
  p_columns := 0;
  p_bandWidth := 0;
  p_check := true;
  p_multiThread := true;
  p_workerThreads := 4;
  p_startSeed := toBlock 0x9b3a7f21 0x6c8e1d44;
  p_maskSeed := toBlock 0x4f12c0de 0xa55a91b7;
|}.

Record RBInfo : Type := mkRBInfo {
  i_n : nat;
  i_lambda : nat;
  i_lambdaReal : double;
  i_eps : double;
  i_columns : nat;
  i_bandWidth : nat;
  i_workerThreads : nat;
}.

Section Fit.
Context (hw : nat) (std_log2 : double → double).

(** * Closed-form defaults *)

Definition RBDefaultEps (n lambda : nat) : double :=
  let n := Nat.max n 1 in
  if n <=? 128 then d_lit 12 100 else
  if n <=? 1024 then d_lit 7 100 else d_lit 7 100.

Definition RBRoundW (w : nat) : nat :=
  let w := Nat.max w 16 in
  let step := 16 in
  let w := ((w + step - 1) / step) * step in
  if 256 <? w then 256 else w.

Definition RBLog2 (n : nat) : double := std_log2 (d_of_nat (Nat.max n 1)).

Definition RBLerp (a b t : double) : double := dadd a (dmul (dsub b a) t).

Definition RBApprox (a b : double) : bool := dle (dabs (dsub a b)) (d_lit 5 1000).

(** * Interpolation *)

Abbreviation dnth l i := (nth i l (S754_zero false)).
Abbreviation dback l := (dnth l (length l - 1)).

Definition RBInterp (xs ys : list double) (x : double) : Res double :=
  throw_if ((length xs =? 0) || (length ys =? 0) || negb (length xs =? length ys))
    (InvalidArgument "RBInterp bad table") ;;
  let seg i :=
    let t := ddiv (dsub x (dnth xs i)) (dsub (dnth xs (i + 1)) (dnth xs i)) in
    RBLerp (dnth ys i) (dnth ys (i + 1)) t in
  if dle x (dnth xs 0) then mret (dnth ys 0) else
  if dge x (dback xs) then mret (seg (length xs - 2)) else
  o ← forC 0 (length xs - 1) (fun i (_ : unit) =>
        if dle x (dnth xs (i + 1)) then Ok (Return (seg i)) else Ok (Continue tt)) tt;
  match o with
  | inr r => mret r
  | inl _ => mret (dback ys)
  end.

(** * The finite-size correction g(eps, n) *)

(** The [if (RBApprox(eps2, e)) return g;] chains, per size bound. *)
Definition RBGTable128 : list (double * double) :=
  map (fun p => (d_lit p.1 100, d_lit p.2 100))
    [(10, 2129); (11, 2063); (12, 2151); (13, 1997); (14, 2151); (15, 2680);
     (16, 2239); (17, 2129); (18, 2415); (19, 2327); (20, 2239)]%Z.
Definition RBGTable256 : list (double * double) :=
  map (fun p => (d_lit p.1 100, d_lit p.2 100))
    [(7, 2536); (8, 2768); (9, 2415); (10, 2680); (11, 2790); (12, 2680)]%Z.
Definition RBGTable512 : list (double * double) :=
  map (fun p => (d_lit p.1 100, d_lit p.2 100))
    [(7, 2459); (8, 2768); (9, 2812); (10, 2680); (11, 2790); (12, 2680)]%Z.
Definition RBGTable1024 : list (double * double) :=
  map (fun p => (d_lit p.1 100, d_lit p.2 100)) [(7, 2382)]%Z.

Fixpoint RBGLookup (eps2 : double) (table : list (double * double)) : option double :=
  match table with
  | [] => None
  | (e, g) :: table' => if RBApprox eps2 e then Some g else RBGLookup eps2 table'
  end.

Definition RBGEmpirical (n : nat) (eps2 : double) : option double :=
  let try_ (bound : nat) table (rest : option double) :=
    match (if n <=? bound then RBGLookup eps2 table else None) with
    | Some g => Some g
    | None => rest
    end in
  try_ 128 RBGTable128 (try_ 256 RBGTable256 (try_ 512 RBGTable512 (try_ 1024 RBGTable1024 None))).

Definition epsXs : list double := map (fun p => d_lit p 100) [3; 5; 7; 10]%Z.
Definition logXs : list double := map (fun p => d_of_Z p) [10; 14; 16; 18; 20]%Z.
Definition gGrid : list (list double) :=
  map (map (fun p => dopp (d_lit p 10)))
    [[34; 61; 75; 90; 107]; [43; 75; 92; 108; 129];
     [53; 83; 103; 121; 140]; [63; 94; 116; 135; 153]]%Z.

(** [gAtN.push_back(RBInterp(logXs, row, logN))] for each row of the grid. *)
Fixpoint RBGAtN (rows : list (list double)) (logN : double) : Res (list double) :=
  match rows with
  | [] => mret []
  | row :: rows' =>
      g ← RBInterp logXs row logN;
      gs ← RBGAtN rows' logN;
      mret (g :: gs)
  end.

Definition RBGOf (n : nat) (eps : double) : Res double :=
  let eps2 := ddiv (d_round (dmul eps (d_of_Z 100))) (d_of_Z 100) in
  match RBGEmpirical n eps2 with
  | Some g => mret g
  | None =>
      let logN := dmax (d_of_Z 10) (RBLog2 n) in
      gAtN ← RBGAtN gGrid logN;
      if dle eps (dnth epsXs 0) then mret (dnth gAtN 0) else
      if dge eps (dback epsXs) then
        let i := length epsXs - 2 in
        let t := ddiv (dsub eps (dnth epsXs i)) (dsub (dnth epsXs (i + 1)) (dnth epsXs i)) in
        mret (RBLerp (dnth gAtN i) (dnth gAtN (i + 1)) t)
      else RBInterp epsXs gAtN eps
  end.

(** * Table size and band width *)

Definition RBEpsOf (n columns : nat) : double :=
  let n := Nat.max n 1 in
  let columns := Nat.max columns n in
  dsub (ddiv (d_of_nat columns) (d_of_nat n)) (d_of_Z 1).

Definition RBLambdaMain (bandWidth : nat) (eps : double) : double :=
  if dle eps (S754_zero false) || (bandWidth =? 0) then S754_zero false
  else dmul (dmul (d_lit 2751 1000) eps) (d_of_nat bandWidth).

Definition RBLambdaOf (n bandWidth : nat) (eps : double) : Res double :=
  g ← RBGOf n eps;
  mret (dadd (RBLambdaMain bandWidth eps) g).

Definition RBNeedD (lambda : nat) (g eps : double) : double :=
  d_ceil (ddiv (dsub (d_of_nat lambda) g) (dmul (d_lit 2751 1000) eps)).

Definition RBNeedW (n lambda : nat) (eps : double) : Res nat :=
  throw_if (dle eps (S754_zero false)) (InvalidArgument "RBNeedW eps <= 0") ;;
  g ← RBGOf n eps;
  let needD := RBNeedD lambda g eps in
  if dle needD (d_of_Z 1) then mret 1 else mret (d_to_size needD).

Definition RBWidth (n lambda : nat) : Res nat :=
  let n := Nat.max n 1 in
  if n <=? 128 then mret 64 else
  if n <=? 256 then mret 88 else
  if n <=? 512 then mret 96 else
  if n <=? 1024 then mret 104 else
  if n <=? 2048 then mret 240 else
  let eps := RBDefaultEps n lambda in
  g ← RBGOf n eps;
  let needD := dmax (d_of_Z 1) (RBNeedD lambda g eps) in
  mret (RBRoundW (d_to_size needD)).

(** [static_cast<size_t>(std::ceil((1.0 + eps) * n))]. *)
Definition RBCeilCols (eps : double) (n : nat) : nat :=
  d_to_size (d_ceil (dmul (dadd (d_of_Z 1) eps) (d_of_nat n))).

Definition RBSize (n lambda : nat) : nat :=
  let n := Nat.max n 1 in
  let eps := RBDefaultEps n lambda in
  Nat.max n (RBCeilCols eps n).

Definition RBTableSize (n : nat) (params : RBParams) : nat :=
  let n := Nat.max n 1 in
  if negb (p_columns params =? 0) then Nat.max (p_columns params) n else
  if dlt (S754_zero false) (p_eps params) then Nat.max n (RBCeilCols (p_eps params) n)
  else RBSize n (p_lambda params).

Definition RBTableW (n columns : nat) (params : RBParams) : Res nat :=
  if negb (p_bandWidth params =? 0) then mret (p_bandWidth params) else
  if negb (p_columns params =? 0) || dlt (S754_zero false) (p_eps params)
  then RBNeedW n (p_lambda params) (RBEpsOf n columns)
  else RBWidth n (p_lambda params).

(** * Validation.  The message of the last error also prints the figures in C++. *)

Definition RBCheck (n : nat) (params : RBParams) (info : RBInfo) : Res unit :=
  throw_if (p_lambda params =? 0) (InvalidArgument "RBCheck lambda == 0") ;;
  throw_if (dlt (p_eps params) (S754_zero false)) (InvalidArgument "RBCheck eps < 0") ;;
  throw_if (256 <? i_bandWidth info) (InvalidArgument "RBCheck width > 256") ;;
  throw_if (i_columns info <? i_bandWidth info) (InvalidArgument "RBCheck width > columns") ;;
  throw_if (negb (p_columns params =? 0) && dlt (S754_zero false) (p_eps params) &&
            negb (p_columns params =?
                  Nat.max (Nat.max n 1) (RBCeilCols (p_eps params) (Nat.max n 1))))
    (InvalidArgument "RBCheck eps and columns mismatch") ;;
  if negb (p_check params) then mret tt else
  needW ← RBNeedW (i_n info) (i_lambda info) (i_eps info);
  throw_if (i_bandWidth info <? needW) (InvalidArgument "RBCheck lambda target not met").

Definition RBInfoOf (n : nat) (params : RBParams) : Res RBInfo :=
  let n1 := Nat.max n 1 in
  let columns := RBTableSize n1 params in
  let eps := RBEpsOf n1 columns in
  bandWidth ← RBTableW n1 columns params;
  lambdaReal ← RBLambdaOf n1 bandWidth eps;
  let bandWidth := if bandWidth =? 0 then 1 else bandWidth in
  let out := {|
    i_n := n1;
    i_lambda := p_lambda params;
    i_lambdaReal := lambdaReal;
    i_eps := eps;
    i_columns := columns;
    i_bandWidth := bandWidth;
    i_workerThreads := Rb.RBWorkerThreads hw (p_multiThread params) (p_workerThreads params);
  |} in
  throw_if (256 <? bandWidth) (InvalidArgument "RBInfoOf width > 256") ;;
  throw_if (columns <? bandWidth) (InvalidArgument "RBInfoOf width > columns") ;;
  RBCheck n1 params out ;;
  mret out.

End Fit.

(** * What an accepted configuration satisfies *)

Lemma RBInfoOf_inv hw std_log2 n params cfg :
  RBInfoOf hw std_log2 n params = Ok cfg →
  let n1 := Nat.max n 1 in
  i_n cfg = n1 ∧ i_columns cfg = RBTableSize n1 params ∧
  0 < i_bandWidth cfg ≤ 256 ∧ i_bandWidth cfg ≤ i_columns cfg ∧
  ∃ w, RBTableW std_log2 n1 (i_columns cfg) params = Ok w ∧ i_bandWidth cfg = if w =? 0 then 1 else w.
Proof.
  intros H. unfold RBInfoOf in H. cbv zeta in *. inv_ok.
  cbn [i_n i_columns i_bandWidth]. rewrite !Nat.ltb_ge in *.
  split; [done|]. split; [done|]. split; [|split; [done|by eauto]].
  destruct (Nat.eqb_spec x 0); lia.
Qed.

Lemma RBTableSize_ge n params : Nat.max n 1 ≤ RBTableSize n params.
Proof.
  unfold RBTableSize, RBSize. destruct (negb _); [lia|]. destruct (dlt _ _); lia.
Qed.

(** * The interpolation never fails on the tables of the code *)

Lemma RBInterp_total xs ys x : length xs ≠ 0 → length ys = length xs → ∃ r, RBInterp xs ys x = Ok r.
Proof.
  intros Hx Hy. unfold RBInterp. rewrite Hy. apply Nat.eqb_neq in Hx. rewrite Hx, Nat.eqb_refl.
  cbn [orb negb throw_if mbind Res_bind]. destruct (dle x _); [by eexists|]. destruct (dge x _); [by eexists|].
  match goal with |- context [forC ?lo ?hi ?f ?s] =>
    destruct (forC_inv (fun _ _ => True) (fun _ => True) (fun _ => True) lo hi f s) as (o & -> & _) end.
  - lia.
  - done.
  - intros i s _ _. destruct (dle _ _); by eexists.
  - done.
  - cbn [mbind Res_bind]. destruct o; by eexists.
Qed.

Lemma RBGAtN_total rows logN : Forall (fun row => length row = length logXs) rows →
  ∃ gs, RBGAtN rows logN = Ok gs ∧ length gs = length rows.
Proof.
  induction 1 as [|row rows Hr _ (gs & IH & Hl)]; cbn [RBGAtN]; [by exists []|].
  destruct (RBInterp_total logXs row logN ltac:(discriminate) Hr) as (g & ->). cbn [mbind Res_bind]. rewrite IH.
  cbn [mbind Res_bind]. eexists. split; [reflexivity|]. cbn [length]. by rewrite Hl.
Qed.

Lemma gGrid_rows : Forall (fun row => length row = length logXs) gGrid.
Proof. repeat constructor. Qed.

Lemma RBGOf_total std_log2 n eps : ∃ g, RBGOf std_log2 n eps = Ok g.
Proof.
  unfold RBGOf. destruct (RBGEmpirical _ _); [by eexists|].
  destruct (RBGAtN_total gGrid (dmax (d_of_Z 10) (RBLog2 std_log2 n)) gGrid_rows) as (gs & -> & Hl).
  cbn [mbind Res_bind]. destruct (dle eps _); [by eexists|]. destruct (dge eps _); [by eexists|].
  apply RBInterp_total; [discriminate|exact Hl].
Qed.

(** * Default configurations *)

(** What the selection does with the default parameters for [n] keys, as a computation that does not
    depend on the logarithm. *)
Definition default_accepted (hw : nat) (std_log2 : double → double) (n : nat) : bool :=
  match RBInfoOf hw std_log2 n RBParams_default with
  | Ok cfg => (n <=? i_columns cfg) && (i_n cfg =? n)
  | Throw _ => false
  end.

Lemma default_accepted_all hw std_log2 : forallb (default_accepted hw std_log2) (seq 57 200) = true.
Proof. vm_cast_no_check (eq_refl true). Qed.

Lemma default_small_columns : forallb (fun n => RBTableSize (Nat.max n 1) RBParams_default <? 64) (seq 0 57) = true.
Proof. vm_cast_no_check (eq_refl true). Qed.

Lemma default_too_small hw std_log2 n : n ≤ 56 →
  RBInfoOf hw std_log2 n RBParams_default = Throw (InvalidArgument "RBInfoOf width > columns").
Proof.
  intros Hn. pose proof default_small_columns as H. rewrite forallb_forall in H.
  specialize (H n ltac:(apply in_seq; lia)). cbv beta in H. apply Nat.ltb_lt in H.
  unfold RBInfoOf. set (n1 := Nat.max n 1) in *. assert (Hn1 : n1 ≤ 128) by lia.
  assert (HW : RBTableW std_log2 n1 (RBTableSize n1 RBParams_default) RBParams_default = Ok 64).
  { unfold RBTableW, RBWidth. cbn [p_bandWidth RBParams_default p_columns p_eps p_lambda Nat.eqb negb orb].
    change (dlt (S754_zero false) (S754_zero false)) with false. cbv iota.
    replace (Nat.max n1 1) with n1 by lia. by nat_cmp. }
  rewrite HW. cbn [mbind Res_bind]. unfold RBLambdaOf.
  destruct (RBGOf_total std_log2 n1 (RBEpsOf n1 (RBTableSize n1 RBParams_default))) as (g & ->).
  cbn [mbind Res_bind]. unfold mret, Res_ret. cbn [Nat.eqb mbind Res_bind]. nat_cmp. reflexivity.
Qed.

(** C33 The default parameters on small sets, whatever the rounding of the logarithm: from 57 to 256 keys
    a table with at least one column per key is chosen and passes the checks; with at most 56
    keys the fixed width 64 exceeds the table and [RBInfoOf] throws. *)
Theorem default_window hw std_log2 n : n ≤ 256 →
  if n <? 57 then RBInfoOf hw std_log2 n RBParams_default = Throw (InvalidArgument "RBInfoOf width > columns")
  else ∃ cfg, RBInfoOf hw std_log2 n RBParams_default = Ok cfg ∧ i_n cfg = n ∧ n ≤ i_columns cfg.
Proof.
  intros Hn. destruct (Nat.ltb_spec n 57); [apply default_too_small; lia|].
  pose proof (default_accepted_all hw std_log2) as Ha. rewrite forallb_forall in Ha.
  specialize (Ha n ltac:(apply in_seq; lia)). unfold default_accepted in Ha.
  destruct (RBInfoOf _ _ _ _) as [cfg|]; [|discriminate]. apply andb_true_iff in Ha as [H1 H2].
  exists cfg. rewrite <- Nat.leb_le, <- Nat.eqb_eq. done.
Qed.

(** The logarithm enters through [RBLog2] of the number of keys only. *)
Section SameLog.
Context (l1 l2 : double → double) (n : nat) (Hlog : RBLog2 l1 n = RBLog2 l2 n).

Lemma RBGOf_log eps : RBGOf l1 n eps = RBGOf l2 n eps.
Proof. unfold RBGOf. by rewrite Hlog. Qed.

Lemma RBNeedW_log lambda eps : RBNeedW l1 n lambda eps = RBNeedW l2 n lambda eps.
Proof. unfold RBNeedW. by rewrite RBGOf_log. Qed.

Lemma RBTableW_log columns params : 0 < n → RBTableW l1 n columns params = RBTableW l2 n columns params.
Proof.
  intros Hn. unfold RBTableW, RBWidth. cbv zeta. replace (Nat.max n 1) with n by lia. by rewrite RBNeedW_log, RBGOf_log.
Qed.
End SameLog.

Lemma RBInfoOf_log hw l1 l2 n params : RBLog2 l1 (Nat.max n 1) = RBLog2 l2 (Nat.max n 1) →
  RBInfoOf hw l1 n params = RBInfoOf hw l2 n params.
Proof.
  intros H. unfold RBInfoOf. cbv zeta. set (n1 := Nat.max n 1) in *. assert (Hn1 : 0 < n1) by lia. clearbody n1.
  rewrite (RBTableW_log l1 l2) by done. destruct (RBTableW l2 n1 _ _) as [w|]; cbn [mbind Res_bind]; [|done].
  unfold RBLambdaOf. rewrite (RBGOf_log l1 l2) by done. destruct (RBGOf l2 n1 _) as [g|]; cbn [mbind Res_bind]; [|done].
  match goal with |- mret ?a ≫= ?f = mret ?a ≫= ?g => change (f a = g a); cbv beta end.
  unfold RBCheck. cbn [i_n i_lambda i_eps]. by rewrite (RBNeedW_log l1 l2).
Qed.

(** The table of defaults in frontend/okvs/README.md: columns and band width for 2^7 to 2^11 keys. *)
Theorem default_table hw std_log2 : std_log2 (d_of_nat 2048) = d_of_Z 11 →
  map (fun n => match RBInfoOf hw std_log2 n RBParams_default with
                | Ok cfg => Some (i_columns cfg, i_bandWidth cfg)
                | Throw _ => None
                end) [128; 256; 512; 1024; 2048]
  = [Some (144, 64); Some (274, 88); Some (548, 96); Some (1096, 104); Some (2192, 240)].
Proof.
  intros Hl. assert (H : RBInfoOf hw std_log2 2048 RBParams_default = RBInfoOf hw (fun _ => d_of_Z 11) 2048 RBParams_default).
  { apply RBInfoOf_log. change (Nat.max 2048 1) with 2048. exact Hl. }
  cbn [map]. rewrite H. vm_compute. reflexivity.
Qed.

(** C32 What every accepted configuration guarantees: a column per key, a band of 1 to 256 bits that fits
    the table, a positive security level, and, unless the check is switched off, a band at least
    as wide as the fit asks for that level. *)
Theorem RBInfoOf_gate hw std_log2 n params cfg : RBInfoOf hw std_log2 n params = Ok cfg →
  Nat.max n 1 ≤ i_columns cfg ∧ 0 < i_bandWidth cfg ≤ 256 ∧ i_bandWidth cfg ≤ i_columns cfg ∧
  0 < p_lambda params ∧
  (p_check params = true → ∃ w, RBNeedW std_log2 (i_n cfg) (p_lambda params) (i_eps cfg) = Ok w ∧ w ≤ i_bandWidth cfg).
Proof.
  intros H. destruct (RBInfoOf_inv _ _ _ _ _ H) as (_ & Hcol & Hw & Hwc & _).
  pose proof (RBTableSize_ge (Nat.max n 1) params) as Hge.
  split; [lia|]. split; [done|]. split; [done|]. clear Hcol Hw Hwc Hge.
  unfold RBInfoOf in H. cbv zeta in H. apply bind_Ok in H as (w & _ & H). apply bind_Ok in H as (lr & _ & H).
  apply bind_Ok in H as (u1 & _ & H). apply bind_Ok in H as (u2 & _ & H). apply bind_Ok in H as (u3 & Hc & H).
  injection H as <-. unfold RBCheck in Hc. cbv zeta in Hc.
  apply bind_Ok in Hc as (v1 & Hl & Hc). apply throw_if_Ok, Nat.eqb_neq in Hl. split; [lia|]. intros Hchk.
  apply bind_Ok in Hc as (v2 & _ & Hc). apply bind_Ok in Hc as (v3 & _ & Hc). apply bind_Ok in Hc as (v4 & _ & Hc).
  apply bind_Ok in Hc as (v5 & _ & Hc). rewrite Hchk in Hc. cbn [negb] in Hc.
  apply bind_Ok in Hc as (w' & Hw & Hc). apply throw_if_Ok, Nat.ltb_ge in Hc. by exists w'.
Qed.

(** * Concrete instances *)

Lemma default_window_witness :
  RBInfoOf 8 (fun x => x) 4 RBParams_default = Throw (InvalidArgument "RBInfoOf width > columns") ∧
  ∃ cfg, RBInfoOf 8 (fun x => x) 100 RBParams_default = Ok cfg ∧ i_n cfg = 100 ∧ 100 ≤ i_columns cfg.
Proof.
  split; [apply (default_window 8 (fun x => x) 4); lia|apply (default_window 8 (fun x => x) 100); lia].
Defined.

Lemma default_table_witness :
  match RBInfoOf 8 (fun _ => d_of_Z 11) 2048 RBParams_default with
  | Ok cfg => Some (i_columns cfg, i_bandWidth cfg)
  | Throw _ => None
  end = Some (2192, 240).
Proof.
  pose proof (default_table 8 (fun _ => d_of_Z 11) eq_refl) as H. cbn [map] in H. congruence.
Defined.

Lemma RBInfoOf_gate_witness : ∃ cfg, RBInfoOf 8 (fun x => x) 128 RBParams_default = Ok cfg ∧
  128 ≤ i_columns cfg ∧ ∃ w, RBNeedW (fun x => x) (i_n cfg) 40 (i_eps cfg) = Ok w ∧ w ≤ i_bandWidth cfg.
Proof.
  destruct (RBInfoOf 8 (fun x => x) 128 RBParams_default) as [cfg|e] eqn:E; [|vm_compute in E; discriminate E].
  destruct (RBInfoOf_gate _ _ _ _ cfg E) as (H1 & _ & _ & _ & H2).
  exists cfg. split; [reflexivity|]. split; [exact H1|exact (H2 eq_refl)].
Defined.
