(* ===== verification/RbRows.v ===== *)
(** RB-OKVS rows: the hashing and row-preparation part of frontend/okvs/rb/rows.h.

    [aes k x] is [AES(k).ecbEncBlock(x)]; an [AES] object is represented by its key. *)
From S2P Require Import Prelude Words Parallel RbBits Fit.
Open Scope nat_scope.

(** * Data *)

Record RBRow : Type := mkRBRow {
  r_start : nat;
  r_bits : RBBits;
  r_rhs : list block;
}.

Record RBFlatRow : Type := mkRBFlatRow {
  f_start : nat;
  f_bits : RBBits;
  f_rhs : nat; (** offset of the row in the flat value vector *)
}.

Definition RBRow0 : RBRow := mkRBRow 0 RBBits_zero [].
Definition RBFlatRow0 : RBFlatRow := mkRBFlatRow 0 RBBits_zero 0.

Record RBHashCtx : Type := mkRBHashCtx {
  h_start : block;
  h_mask0 : block;
  h_mask1 : block;
}.

(** [RBXor] on two vectors. *)
Definition RBXor (a b : list block) : Res (list block) :=
  throw_if (negb (length a =? length b)) (InvalidArgument "RBXor size mismatch") ;;
  mret (xorv a b).

(** [RBXor(a, b, n)] with [b] the [n] blocks behind a pointer. *)
Definition RBXorPtr (a b : list block) : Res (list block) :=
  throw_if (negb (length a =? length b)) (InvalidArgument "RBXor ptr size mismatch") ;;
  mret (xorv a b).

Section Rows.
Context (hw : nat) (aes : block → block → block).

Definition RBMakeHashCtx (params : RBParams) : RBHashCtx := {|
  h_start := p_startSeed params;
  h_mask0 := Z.lxor (p_maskSeed params) (toBlock 0 1);
  h_mask1 := Z.lxor (p_maskSeed params) (toBlock 0 2);
|}.

Definition RBHash64 (key seed : block) : Z :=
  let x := aes seed key in
  Z.lxor (block_lo x) (block_hi x).

(** The seed overload of [RBMask256]: one AES key per half. *)
Definition RBMask256_seed (key seed : block) : RBBits :=
  for_ 0 2 (fun i (out : RBBits) =>
    let x := aes (Z.lxor seed (toBlock 0 (Z.of_nat i + 1))) key in
    let out := <[2 * i + 0 := block_lo x]> out in
    <[2 * i + 1 := block_hi x]> out) RBBits_zero.

(** The context overload. *)
Definition RBMask256 (key : block) (ctx : RBHashCtx) : RBBits :=
  let x0 := aes (h_mask0 ctx) key in
  let x1 := aes (h_mask1 ctx) key in
  [block_lo x0; block_hi x0; block_lo x1; block_hi x1].

(** Start column and mask of a key, as computed in [RBRows], [RBRowsFlat] and [RBDecode]. *)
Definition RBKeyStart (columns bandWidth : nat) (hash : RBHashCtx) (key : block) : nat :=
  let h := RBHash64 key (h_start hash) in
  let range := columns - bandWidth + 1 in
  if range =? 0 then 0 else Z.to_nat (h mod Z.of_nat range).

Definition RBKeyBits (bandWidth : nat) (hash : RBHashCtx) (key : block) : Res RBBits :=
  bits ← RBMaskBits (RBMask256 key hash) bandWidth;
  mret (RBEnsureBits bits).

Definition RBRows (setKeys : list block) (setValues : list (list block))
    (columns bandWidth : nat) (params : RBParams) : Res (list RBRow) :=
  throw_if (negb (length setKeys =? length setValues)) (InvalidArgument "RBRows key/value mismatch") ;;
  if length setKeys =? 0 then mret [] else
  let rowSize := length (nth 0 setValues []) in
  throw_if (rowSize =? 0) (InvalidArgument "RBRows empty row") ;;
  throw_if (columns <? bandWidth) (InvalidArgument "RBRows columns < bandWidth") ;;
  rows ← Rb.RBFor hw (length setKeys) (p_multiThread params) (p_workerThreads params)
    (fun b e => let hash := RBMakeHashCtx params in
      forR b e (fun i (rows : list RBRow) =>
        throw_if (negb (length (nth i setValues []) =? rowSize))
          (InvalidArgument "RBRows row width mismatch") ;;
        let start := RBKeyStart columns bandWidth hash setKeys.[i] in
        let rhs := nth i setValues [] in
        bits ← RBKeyBits bandWidth hash setKeys.[i];
        mret (<[i := mkRBRow start bits rhs]> rows)))
    (replicate (length setKeys) RBRow0);
  mret (stable_sort r_start rows).

Definition RBRowsFlat (setKeys setValues : list block) (rowSize columns bandWidth : nat)
    (params : RBParams) : Res (list RBFlatRow * list block) :=
  throw_if (rowSize =? 0) (InvalidArgument "RBRowsFlat empty row") ;;
  throw_if (negb (length setValues =? length setKeys * rowSize))
    (InvalidArgument "RBRowsFlat key/value mismatch") ;;
  if length setKeys =? 0 then mret ([], []) else
  throw_if (columns <? bandWidth) (InvalidArgument "RBRowsFlat columns < bandWidth") ;;
  '(rows, rhs) ← Rb.RBFor hw (length setKeys) (p_multiThread params) (p_workerThreads params)
    (fun b e => let hash := RBMakeHashCtx params in
      forR b e (fun i (st : list RBFlatRow * list block) =>
        let '(rows, rhs) := st in
        let start := RBKeyStart columns bandWidth hash setKeys.[i] in
        let off := i * rowSize in
        let rhs := memcpy rhs off setValues off rowSize in
        bits ← RBKeyBits bandWidth hash setKeys.[i];
        mret (<[i := mkRBFlatRow start bits off]> rows, rhs)))
    (replicate (length setKeys) RBFlatRow0, replicate (length setValues) ZeroBlock);
  mret (stable_sort f_start rows, rhs).

(** * Hashing *)

(** The AES output is a block. *)
Definition aes_ok : Prop := ∀ k x, is_block (aes k x).

Lemma block_lo_word b : in_word 64 (block_lo b).
Proof. by apply in_word_wrap. Qed.

Lemma block_hi_word b : is_block b → in_word 64 (block_hi b).
Proof.
  intros [H0 H1]. unfold block_hi. rewrite Z.shiftr_div_pow2 by lia. split.
  - by apply Z.div_pos.
  - apply Z.div_lt_upper_bound; [done|]. by rewrite <- Z.pow_add_r.
Qed.

Lemma RBMask256_wf key ctx : aes_ok → bits_wf (RBMask256 key ctx).
Proof.
  intros Ha. split; [done|]. unfold RBMask256.
  repeat constructor; apply block_lo_word || (apply block_hi_word, Ha).
Qed.

(** The two overloads of [RBMask256] agree. *)
Lemma RBMask256_overloads key params :
  RBMask256_seed key (p_maskSeed params) = RBMask256 key (RBMakeHashCtx params).
Proof. reflexivity. Qed.

Lemma RBKeyStart_bound columns bandWidth hash key : bandWidth ≤ columns →
  RBKeyStart columns bandWidth hash key + bandWidth ≤ columns.
Proof.
  intros H. unfold RBKeyStart. destruct (Nat.eqb_spec (columns - bandWidth + 1) 0); [lia|].
  set (h := RBHash64 _ _).
  pose proof (Z.mod_pos_bound h (Z.of_nat (columns - bandWidth + 1)) ltac:(lia)). lia.
Qed.

(** Masks of a key: well-formed, within the band, and never empty. *)
Definition key_bits_ok (bandWidth : nat) (bits : RBBits) : Prop :=
  bits_wf bits ∧ (∀ j, j < 256 → bandWidth ≤ j → RBBit bits j = false) ∧
  ∃ j, j < bandWidth ∧ RBBit bits j = true.

Lemma RBKeyBits_spec bandWidth hash key : aes_ok → 0 < bandWidth ≤ 256 →
  ∃ bits, RBKeyBits bandWidth hash key = Ok bits ∧ key_bits_ok bandWidth bits.
Proof.
  intros Ha Hw. unfold RBKeyBits, RBMaskBits.
  destruct (RBTrimBits_spec (RBMask256 key hash) bandWidth ltac:(lia) (RBMask256_wf key hash Ha))
    as (b & -> & Hb & Hbits).
  eexists. split; [done|].
  assert (Hhigh : ∀ j, j < 256 → bandWidth ≤ j → RBBit (RBEnsureBits b) j = false).
  { apply RBEnsureBits_below; [done|lia|]. intros j Hj Hjw. rewrite Hbits by done. by nat_cmp. }
  split; [by apply RBEnsureBits_wf|]. split; [done|].
  destruct (RBEnsureBits_nonempty b Hb) as (j & Hj & Hbit). exists j. split; [|done].
  destruct (Nat.le_gt_cases bandWidth j) as [Hge|]; [|done]. by rewrite Hhigh in Hbit.
Qed.

Lemma RBKeyBits_wide bandWidth hash key : 256 < bandWidth →
  RBKeyBits bandWidth hash key = Throw (InvalidArgument "RBTrimBits width > 256").
Proof. intros. unfold RBKeyBits, RBMaskBits. by rewrite RBTrimBits_wide. Qed.

(** The mask of a key, with the exception ruled out. *)
Definition key_bits (bandWidth : nat) (hash : RBHashCtx) (key : block) : RBBits :=
  match RBKeyBits bandWidth hash key with Ok b => b | Throw _ => RBBits_zero end.

Lemma RBKeyBits_Ok bandWidth hash key : aes_ok → 0 < bandWidth ≤ 256 →
  RBKeyBits bandWidth hash key = Ok (key_bits bandWidth hash key) ∧
  key_bits_ok bandWidth (key_bits bandWidth hash key).
Proof.
  intros Ha Hw. unfold key_bits.
  by destruct (RBKeyBits_spec bandWidth hash key Ha Hw) as (bits & -> & ?).
Qed.

(** * Row preparation *)

(** Filling an array slot by slot. *)
Lemma fill_loop {A} (f : nat → A) n (out : list A) :
  length out = n → for_ 0 n (fun i out => <[i := f i]> out) out = map f (seq 0 n).
Proof.
  intros Hl.
  loop_inv (fun i (o : list A) => length o = n ∧
    ∀ k, k < n → o !! k = if k <? i then Some (f k) else out !! k) as H.
  - lia.
  - split; [done|]. intros k Hk. by nat_cmp.
  - intros i o Hi [Ho H]. rewrite length_insert. split; [done|]. intros k Hk.
    destruct (decide (i = k)) as [<-|Hne].
    + rewrite list_lookup_insert_eq by lia. by nat_cmp.
    + rewrite list_lookup_insert_ne, H by done. by destruct (Nat.ltb_spec k i); nat_cmp.
  - destruct H as [Ho H]. apply list_eq. intros k. destruct (decide (k < n)) as [Hk|Hk].
    + rewrite H by done. nat_cmp. change (map f (seq 0 n)) with (f <$> seq 0 n). by rewrite list_lookup_fmap, lookup_seq_lt by done.
    + rewrite !lookup_ge_None_2; [done| |lia]. rewrite length_map, length_seq. lia.
Qed.

Lemma fill_loopR {A} (f : nat → A) (g : nat → Res A) n (out : list A) :
  length out = n → (∀ i, i < n → g i = Ok (f i)) →
  forR 0 n (fun i out => a ← g i; mret (<[i := a]> out)) out = Ok (map f (seq 0 n)).
Proof.
  intros Hl Hg. rewrite (forR_ext _ _ _ (fun i out => Ok (<[i := f i]> out))).
  - by rewrite forR_pure, fill_loop.
  - intros i s Hi. by rewrite Hg by lia.
Qed.

(** The row of the [i]-th key, before sorting. *)
Definition key_row (setKeys : list block) (setValues : list (list block)) (columns bandWidth : nat)
    (params : RBParams) (i : nat) : RBRow :=
  mkRBRow (RBKeyStart columns bandWidth (RBMakeHashCtx params) setKeys.[i])
          (key_bits bandWidth (RBMakeHashCtx params) setKeys.[i])
          (nth i setValues []).

Lemma RBRows_spec setKeys setValues columns bandWidth params v :
  aes_ok → 0 < bandWidth ≤ 256 → bandWidth ≤ columns → 0 < v →
  length setValues = length setKeys → Forall (fun x => length x = v) setValues →
  RBRows setKeys setValues columns bandWidth params =
  Ok (stable_sort r_start
       (map (key_row setKeys setValues columns bandWidth params) (seq 0 (length setKeys)))).
Proof.
  intros Ha Hw Hc Hv Hlen Hval. unfold RBRows. rewrite Hlen, Nat.eqb_refl.
  cbn [negb throw_if mbind Res_bind].
  destruct (Nat.eqb_spec (length setKeys) 0) as [E|E]; [by rewrite E|].
  assert (Hnth : ∀ i, i < length setKeys → length (nth i setValues []) = v).
  { intros i Hi. rewrite Forall_forall in Hval. apply Hval.
    apply list_elem_of_In, nth_In. lia. }
  rewrite Hnth by lia. nat_cmp. cbn [throw_if mbind Res_bind]. rewrite RBFor_loop.
  set (f := key_row _ _ _ _ _). rewrite (forR_ext _ _ _ (fun i out => a ← Ok (f i); mret (<[i := a]> out))).
  - rewrite (fill_loopR f) by (rewrite ?length_replicate; done). done.
  - intros i s Hi. rewrite Hnth, Nat.eqb_refl by lia. cbn [negb throw_if mbind Res_bind].
    destruct (RBKeyBits_Ok bandWidth (RBMakeHashCtx params) setKeys.[i] Ha Hw) as [-> _]. done.
Qed.

(** The flat row of the [i]-th key. *)
Definition key_flat_row (setKeys : list block) (rowSize columns bandWidth : nat)
    (params : RBParams) (i : nat) : RBFlatRow :=
  mkRBFlatRow (RBKeyStart columns bandWidth (RBMakeHashCtx params) setKeys.[i])
          (key_bits bandWidth (RBMakeHashCtx params) setKeys.[i])
          (i * rowSize).

Lemma RBRowsFlat_spec setKeys setValues rowSize columns bandWidth params :
  aes_ok → 0 < bandWidth ≤ 256 → bandWidth ≤ columns → 0 < rowSize →
  length setValues = length setKeys * rowSize →
  RBRowsFlat setKeys setValues rowSize columns bandWidth params =
  Ok (stable_sort f_start
       (map (key_flat_row setKeys rowSize columns bandWidth params) (seq 0 (length setKeys))),
      setValues).
Proof.
  intros Ha Hw Hc Hr Hlen. unfold RBRowsFlat. rewrite Hlen, Nat.eqb_refl. nat_cmp.
  cbn [negb throw_if mbind Res_bind].
  destruct (Nat.eqb_spec (length setKeys) 0) as [E|E].
  { rewrite E in *. by destruct setValues. }
  nat_cmp. cbn [throw_if mbind Res_bind]. rewrite RBFor_loop.
  set (f := key_flat_row _ _ _ _ _). set (n := length setKeys) in *.
  rewrite (forR_ext _ _ _ (fun i st =>
    Ok (<[i := f i]> st.1, memcpy st.2 (i * rowSize) setValues (i * rowSize) rowSize))).
  2: { intros i [rows rhs] Hi.
       destruct (RBKeyBits_Ok bandWidth (RBMakeHashCtx params) setKeys.[i] Ha Hw) as [-> _]. done. }
  rewrite forR_pure.
  loop_inv (fun i st =>
      st.1 = for_ 0 i (fun i out => <[i := f i]> out) (replicate n RBFlatRow0) ∧
      length st.2 = length setValues ∧
      take (i * rowSize) st.2 = take (i * rowSize) setValues) as H.
  - lia.
  - cbn [fst snd]. rewrite for_0, length_replicate. split; [done|]. split; [lia|].
    by rewrite Nat.mul_0_l.
  - intros i [rows rhs] Hi (H1 & H2 & H3). cbn [fst snd] in *. split.
    { by rewrite for_snoc, H1 by lia. }
    assert (i * rowSize + rowSize ≤ length setValues) by nia.
    split; [rewrite memcpy_length; lia|]. unfold memcpy.
    replace (S i * rowSize) with (i * rowSize + rowSize) by lia.
    rewrite app_assoc, take_app_length'.
    + rewrite H3. apply take_take_drop.
    + rewrite length_app, !length_take, length_drop. lia.
  - destruct (for_ 0 n _ _) as [rows rhs]. cbn [fst snd] in *. destruct H as (-> & H2 & H3).
    cbn [mbind Res_bind]. rewrite fill_loop by apply length_replicate.
    rewrite !firstn_all2 in H3 by lia. by rewrite H3.
Qed.

End Rows.
