(* ===== verification/RbSolve.v ===== *)
(** The banded linear solver of RB-OKVS: the forward elimination and back substitution that
    the three [RBEncode] overloads of frontend/okvs/rb/codec.h share, over interfaces for the
    right-hand sides ([RhsStore]) and for the table ([TableStore]). *)
From S2P Require Import Prelude Words RbBits RbRows.
Open Scope nat_scope.

(** * Interfaces *)

(** Right-hand sides of the rows: [rows[i].rhs] and [RBXor(rows[j].rhs, rows[i].rhs)]. *)
Class RhsStore (St : Type) : Type := {
  rs_read : St → nat → list block;
  rs_xor : St → nat → nat → Res St;
}.

(** Rows of the table: read row [col], store row [col]. *)
Class TableStore (Tb : Type) : Type := {
  ts_read : Tb → nat → list block;
  ts_write : Tb → nat → list block → Tb;
  ts_xor : list block → Tb → nat → Res (list block); (** [RBXor(sum, table row col)] *)
}.

(** What the solver needs of [n] right-hand sides of width [v]. *)
Class RhsStoreLaws (St : Type) `{RhsStore St} : Type := {
  rs_wf : nat → nat → St → Prop;
  rs_read_length n v st i : rs_wf n v st → i < n → length (rs_read st i) = v;
  rs_xor_ok n v st j i : rs_wf n v st → i < n → j < n → i ≠ j →
    ∃ st', rs_xor st j i = Ok st' ∧ rs_wf n v st' ∧
      rs_read st' j = xorv (rs_read st j) (rs_read st i) ∧
      ∀ k, k < n → k ≠ j → rs_read st' k = rs_read st k;
}.

(** What the solver needs of a table of [m] rows of width [v]. *)
Class TableStoreLaws (Tb : Type) `{TableStore Tb} : Type := {
  ts_wf : nat → nat → Tb → Prop;
  ts_read_length m v tb c : ts_wf m v tb → c < m → length (ts_read tb c) = v;
  ts_write_ok m v tb p x : ts_wf m v tb → p < m → length x = v →
    ts_wf m v (ts_write tb p x) ∧ ts_read (ts_write tb p x) p = x ∧
    ∀ c, c < m → c ≠ p → ts_read (ts_write tb p x) c = ts_read tb c;
  ts_xor_ok m v tb c x : ts_wf m v tb → c < m → length x = v →
    ts_xor x tb c = Ok (xorv x (ts_read tb c));
}.

(** * Definitions *)

(** The [start] and [bits] fields of a row. *)
Record Band : Type := mkBand { b_start : nat; b_bits : RBBits }.
Definition Band0 : Band := mkBand 0 RBBits_zero.

Section Solver.
Context {St Tb : Type} `{RhsStore St} `{TableStore Tb}.

(** Body of the inner elimination loop: row [j] against pivot row [i]. *)
Definition RBElimRow (bandWidth i lead pivot j : nat) (st : list Band * St)
  : Res (ctl (list Band * St) Empty_set) :=
  let '(bands, rhs) := st in
  let bi := nth i bands Band0 in
  let bj := nth j bands Band0 in
  if pivot <? b_start bj then Ok (Break st) else
  let off := pivot - b_start bj in
  if (bandWidth <=? off) || negb (RBBit (b_bits bj) off) then Ok (Continue st) else
  bits ← RBXorShifted (b_bits bj) off (b_bits bi) lead bandWidth;
  rhs ← rs_xor rhs j i;
  Ok (Continue (<[j := mkBand (b_start bj) bits]> bands, rhs)).

(** Body of the outer elimination loop; [Return tt] is the C++ [return false]. *)
Definition RBElimStep (bandWidth rowCnt i : nat) (st : list Band * St * list nat)
  : Res (ctl (list Band * St * list nat) unit) :=
  let '(bands, rhs, pivots) := st in
  let bi := nth i bands Band0 in
  let lead := RBLead (b_bits bi) bandWidth in
  if lead =? bandWidth then Ok (Return tt) else
  let pivot := b_start bi + lead in
  o ← forC (S i) rowCnt (RBElimRow bandWidth i lead pivot) (bands, rhs);
  match o with
  | inl (bands, rhs) => Ok (Continue (bands, rhs, <[i := pivot]> pivots))
  | inr e => match (e : Empty_set) with end
  end.

Definition RBForward (bandWidth columns : nat) (bands : list Band) (rhs : St)
  : Res (list Band * St * list nat + unit) :=
  forC 0 (length bands) (RBElimStep bandWidth (length bands))
    (bands, rhs, replicate (length bands) columns).

(** Inner loop of the back substitution: adds the other columns of row [i]. *)
Definition RBBackSum (bandWidth : nat) (b : Band) (pivot : nat) (tb : Tb) (sum : list block)
  : Res (list block) :=
  forR 0 bandWidth (fun j sum =>
    if negb (RBBit (b_bits b) j) then Ok sum else
    let col := b_start b + j in
    if col =? pivot then Ok sum else ts_xor sum tb col) sum.

Definition RBBackfill (bandWidth : nat) (bands : list Band) (rhs : St) (pivots : list nat)
    (tb : Tb) : Res Tb :=
  for_downR (length bands) (fun i tb =>
    let p := nth i pivots 0 in
    sum ← RBBackSum bandWidth (nth i bands Band0) p tb (rs_read rhs i);
    Ok (ts_write tb p sum)) tb.

End Solver.

(** Inner loop of [RBDecode]: adds the table rows a mask selects; [acc col out] is the
    statement that adds row [col] to the output row. *)
Definition RBDecodeRow {O : Type} (bandWidth columns start : nat) (bits : RBBits)
    (acc : nat → O → Res O) (out : O) : Res O :=
  o ← forC 0 bandWidth (fun j out =>
    if negb (RBBit bits j) then Ok (Continue out) else
    let col := start + j in
    if columns <=? col then Ok (Break out) else
    out ← acc col out; Ok (Continue out)) out;
  match o with inl out => Ok out | inr e => match (e : Empty_set) with end end.

(** * Rows as linear equations on the table *)

(** Coefficient of column [c] in a band row. *)
Definition coef (w : nat) (b : Band) (c : nat) : bool :=
  (b_start b <=? c) && (c <? b_start b + w) && RBBit (b_bits b) (c - b_start b).

(** Component [k] of the sum of the table rows the band row [b] selects. *)
Definition dot (w m : nat) (b : Band) (T : nat → list block) (k : nat) : Z :=
  xs m (fun c => if coef w b c then (T c).[k] else 0%Z).

(** The table [T] satisfies the equation [b · T = rhs]. *)
Definition sat (w m v : nat) (T : nat → list block) (b : Band) (rhs : list block) : Prop :=
  ∀ k, k < v → dot w m b T k = rhs.[k].

(** Well-formed band rows of a system with [m] columns. *)
Definition band_wf (w m : nat) (b : Band) : Prop :=
  bits_wf (b_bits b) ∧ (∀ j, j < 256 → w ≤ j → RBBit (b_bits b) j = false) ∧
  b_start b + w ≤ m.

Lemma dot_band w m b T k : b_start b + w ≤ m →
  dot w m b T k = xs w (fun j => if RBBit (b_bits b) j then (T (b_start b + j)).[k] else 0%Z).
Proof.
  intros Hm. set (g := fun c => if RBBit (b_bits b) (c - b_start b) then (T c).[k] else 0%Z).
  transitivity (xs w (fun j => g (b_start b + j))).
  - rewrite (xs_window m _ _ g) by done. apply xs_ext. intros c Hc. unfold coef, g.
    by destruct ((b_start b <=? c) && (c <? b_start b + w)).
  - apply xs_ext. intros j Hj. unfold g. by replace (b_start b + j - b_start b) with j by lia.
Qed.

Lemma dot_ext w m b T T' k :
  (∀ c, c < m → coef w b c = true → (T c).[k] = (T' c).[k]) → dot w m b T k = dot w m b T' k.
Proof.
  intros H. apply xs_ext. intros c Hc. destruct (coef w b c) eqn:E; [by apply H|done].
Qed.

(** Adding equations: coefficients, sums and right-hand sides add up. *)
Lemma dot_add w m b b1 b2 T k :
  (∀ c, c < m → coef w b c = xorb (coef w b1 c) (coef w b2 c)) →
  dot w m b T k = Z.lxor (dot w m b1 T k) (dot w m b2 T k).
Proof.
  intros H. unfold dot. rewrite <- xs_xor. apply xs_ext. intros c Hc. rewrite H by done.
  destruct (coef w b1 c), (coef w b2 c); cbn [xorb];
    by rewrite ?Z.lxor_0_l, ?Z.lxor_0_r, ?Z.lxor_nilpotent.
Qed.

Lemma lxor_eq_iff a b c d : a = c → (Z.lxor b a = Z.lxor d c ↔ b = d).
Proof.
  intros ->. split; [|by intros ->]. intros H. apply (f_equal (fun x => Z.lxor x c)) in H.
  by rewrite !lxor_cancel in H.
Qed.

Lemma sat_add w m v T b b1 b2 r1 r2 : length r1 = v → length r2 = v →
  (∀ c, c < m → coef w b c = xorb (coef w b1 c) (coef w b2 c)) →
  sat w m v T b2 r2 → (sat w m v T b (xorv r1 r2) ↔ sat w m v T b1 r1).
Proof.
  intros H1 H2 Hc Hs2. unfold sat. apply forall_proper. intros k.
  rewrite (dot_add w m b b1 b2 T k Hc), xorv_nth by congruence.
  split; intros Hs Hk; specialize (Hs2 k Hk); [specialize (Hs Hk)|];
    by apply (lxor_eq_iff _ _ _ _ Hs2); auto.
Qed.

(** The sum with one column of the band split off. *)
Lemma dot_pick w m b T p k : b_start b + w ≤ m → p < m → coef w b p = true →
  dot w m b T k = Z.lxor (T p).[k]
    (xs w (fun j => if RBBit (b_bits b) j && negb (b_start b + j =? p)
                    then (T (b_start b + j)).[k] else 0%Z)).
Proof.
  intros Hm Hp Hc. unfold dot. rewrite (xs_pick m p), Hc by done. f_equal.
  set (g := fun c => if RBBit (b_bits b) (c - b_start b) && negb (c =? p) then (T c).[k] else 0%Z).
  rewrite (xs_ext w _ (fun j => g (b_start b + j))), (xs_window m) by
    (done || (intros j Hj; unfold g; by replace (b_start b + j - b_start b) with j by lia)).
  apply xs_ext. intros c _. unfold coef, g. destruct (Nat.eqb_spec c p) as [->|Hcp]; cbn [negb].
  - rewrite andb_false_r. by destruct (_ && _).
  - rewrite andb_true_r. by destruct ((b_start b <=? c) && (c <? b_start b + w)).
Qed.

(** * Forward elimination *)

Lemma least_true (s : nat → bool) k : s k = true →
  ∃ i, i ≤ k ∧ s i = true ∧ ∀ i', i' < i → s i' = false.
Proof.
  induction k as [k IH] using lt_wf_ind. intros Hk.
  destruct (decide (Exists (fun i => s i = true) (seq 0 k))) as [Hex|Hno].
  - apply Exists_exists in Hex as (i' & Hin & Hs). apply elem_of_seq in Hin.
    destruct (IH i' ltac:(lia) Hs) as (i & Hi & ?). exists i. split; [lia|done].
  - exists k. split; [done|]. split; [done|]. intros i' Hi'. apply not_true_iff_false.
    intros Hs. apply Hno, Exists_exists. exists i'. split; [apply elem_of_seq; lia|done].
Qed.

Abbreviation bnd bands k := (nth k bands Band0).

(** A linear dependency between the rows. *)
Definition dep (w m : nat) (bands : list Band) : Prop :=
  ∃ s : nat → bool, (∃ k, k < length bands ∧ s k = true) ∧
  ∀ c, c < m →
    xs (length bands) (fun k => if s k && coef w (bnd bands k) c then 1 else 0)%Z = 0%Z.

Lemma nth_insert_eq {A} (l : list A) i x d : i < length l → nth i (<[i := x]> l) d = x.
Proof.
  intros H. apply nth_lookup_Some with (d := d). by apply list_lookup_insert_eq.
Qed.

Lemma nth_lookup_some {A} (l : list A) i d : i < length l → l !! i = Some (nth i l d).
Proof. intros H. by destruct (nth_lookup_or_length l i d); [|lia]. Qed.

Lemma nth_insert_ne {A} (l : list A) i j x d : i ≠ j → nth j (<[i := x]> l) d = nth j l d.
Proof. intros H. rewrite !nth_lookup. by rewrite list_lookup_insert_ne. Qed.

(** Bits at or above 256 read as unset. *)
Lemma RBBit_out bits j : bits_wf bits → 256 ≤ j → RBBit bits j = false.
Proof.
  intros [Hl _] Hj. rewrite RBBit_testbit, nth_overflow; [apply Z.testbit_0_l|].
  rewrite Hl. apply Nat.div_le_lower_bound; lia.
Qed.

Lemma band_bit_out w m b j : band_wf w m b → w ≤ j → RBBit (b_bits b) j = false.
Proof.
  intros (Hb & Hw & _) Hj. destruct (Nat.le_gt_cases 256 j); [by apply RBBit_out|by apply Hw].
Qed.

Lemma coef_bit w m b c : band_wf w m b →
  coef w b c = (b_start b <=? c) && RBBit (b_bits b) (c - b_start b).
Proof.
  intros Hb. unfold coef. destruct (Nat.leb_spec (b_start b) c); cbn [andb]; [|done].
  destruct (Nat.ltb_spec c (b_start b + w)); cbn [andb]; [done|].
  symmetry. eapply band_bit_out; [done|lia].
Qed.

(** The mask update of one elimination step adds the pivot row's coefficients. *)
Lemma elim_coef w m bi bj lead :
  band_wf w m bi → band_wf w m bj → w ≤ 256 → lead < w → b_start bi ≤ b_start bj →
  (∀ t, t < lead → RBBit (b_bits bi) t = false) →
  b_start bj ≤ b_start bi + lead →
  ∃ bits, RBXorShifted (b_bits bj) (b_start bi + lead - b_start bj) (b_bits bi) lead w = Ok bits ∧
    band_wf w m (mkBand (b_start bj) bits) ∧
    ∀ c, coef w (mkBand (b_start bj) bits) c = xorb (coef w bj c) (coef w bi c).
Proof.
  intros Hi Hj Hw Hlead Hs Hlow Hpiv.
  destruct (RBXorShifted_spec (b_bits bj) (b_start bi + lead - b_start bj) (b_bits bi) lead w)
    as (bits & -> & Hwf & Hbits); [apply Hj|apply Hi|lia|done|].
  assert (Hband : band_wf w m (mkBand (b_start bj) bits)).
  { split; [done|]. split; [|apply Hj]. cbn [b_bits]. intros t Ht Hwt. rewrite Hbits by done.
    rewrite (band_bit_out w m bj) by done. by nat_cmp. }
  exists bits. split; [done|]. split; [done|]. intros c.
  rewrite !(coef_bit w m) by done. cbn [b_start b_bits].
  destruct (Nat.leb_spec (b_start bj) c) as [Hc|Hc]; cbn [andb xorb].
  - nat_cmp. destruct (Nat.le_gt_cases 256 (c - b_start bj)) as [Hbig|Hsm].
    { rewrite !RBBit_out; try done; try lia; [apply Hi|apply Hj]. }
    rewrite Hbits by done.
    replace (c - b_start bj + lead - (b_start bi + lead - b_start bj)) with (c - b_start bi) by lia.
    f_equal. destruct (Nat.ltb_spec (c - b_start bj) w); cbn [andb].
    2: { symmetry. eapply band_bit_out; [done|lia]. }
    destruct (Nat.leb_spec (b_start bi + lead - b_start bj) (c - b_start bj)); cbn [andb].
    2: { symmetry. apply Hlow. lia. }
    destruct (Nat.ltb_spec (c - b_start bi) 256); cbn [andb]; [done|].
    symmetry. eapply band_bit_out; [done|lia].
  - destruct (Nat.leb_spec (b_start bi) c); cbn [andb]; [|done]. rewrite Hlow by lia. done.
Qed.

(** Adding a row to another one keeps a dependency. *)
Lemma dep_add w m bands i j b : i < length bands → j < length bands → i ≠ j →
  (∀ c, coef w b c = xorb (coef w (bnd bands j) c) (coef w (bnd bands i) c)) →
  dep w m bands → dep w m (<[j := b]> bands).
Proof.
  intros Hi Hj Hne Hb (s & (k & Hk & Hsk) & Hz).
  set (s' := fun x => if x =? i then xorb (s i) (s j) else s x).
  exists s'. rewrite length_insert. split.
  - destruct (decide (k = i ∧ s j = true)) as [[-> Hsj]|Hn].
    + exists j. split; [done|]. unfold s'. by nat_cmp.
    + exists k. split; [done|]. unfold s'. destruct (Nat.eqb_spec k i) as [->|]; [|done].
      rewrite Hsk. destruct (s j) eqn:E; [by destruct Hn|done].
  - intros c Hc. etransitivity; [|exact (Hz c Hc)].
    set (y := (if s j && coef w (bnd bands i) c then 1 else 0)%Z).
    rewrite (xs_ext _ _ (fun k => Z.lxor (if s k && coef w (bnd bands k) c then 1%Z else 0%Z)
      (Z.lxor (if k =? j then y else 0%Z) (if k =? i then y else 0%Z)))).
    + by rewrite !xs_xor, !xs_single, Z.lxor_nilpotent, Z.lxor_0_r by done.
    + intros x Hx. unfold s', y. destruct (Nat.eqb_spec x i) as [->|Hxi].
      * nat_cmp. rewrite nth_insert_ne by done.
        by destruct (s i), (s j), (coef w (bnd bands i) c).
      * destruct (Nat.eqb_spec x j) as [->|Hxj].
        -- rewrite nth_insert_eq, Hb by done.
           by destruct (s j), (coef w (bnd bands j) c), (coef w (bnd bands i) c).
        -- rewrite nth_insert_ne by done. by rewrite !Z.lxor_0_r.
Qed.

Lemma dep_add_iff w m bands i j b : i < length bands → j < length bands → i ≠ j →
  (∀ c, coef w b c = xorb (coef w (bnd bands j) c) (coef w (bnd bands i) c)) →
  dep w m (<[j := b]> bands) ↔ dep w m bands.
Proof.
  intros Hi Hj Hne Hb. split; [|by apply (dep_add w m bands i j)].
  intros Hd. replace bands with (<[j := bnd bands j]> (<[j := b]> bands)).
  - apply (dep_add w m _ i j); rewrite ?length_insert; try done.
    intros c. rewrite nth_insert_eq, (nth_insert_ne _ j i), Hb by done.
    by destruct (coef w (bnd bands j) c), (coef w (bnd bands i) c).
  - rewrite list_insert_insert_eq. apply list_insert_id. by apply nth_lookup_some.
Qed.

Section Elimination.
Context {St Tb : Type} `{HSt : RhsStoreLaws St} `{HTb : TableStoreLaws Tb}.
Context (w m v n : nat).

(** A system of [n] equations over [m] columns with [v] components. *)
Definition sys_wf (bands : list Band) (rhs : St) : Prop :=
  length bands = n ∧ (∀ k, k < n → band_wf w m (bnd bands k)) ∧ rs_wf n v rhs.

Definition sys_sat (T : nat → list block) (bands : list Band) (rhs : St) : Prop :=
  ∀ k, k < n → sat w m v T (bnd bands k) (rs_read rhs k).

(** Two systems with the same starts, the same solutions and the same dependencies. *)
Record sys_equiv (s s' : list Band * St) : Prop := {
  se_start k : k < n → b_start (bnd s'.1 k) = b_start (bnd s.1 k);
  se_sat T : sys_sat T s'.1 s'.2 ↔ sys_sat T s.1 s.2;
  se_dep : dep w m s'.1 ↔ dep w m s.1;
}.

#[local] Instance sys_equiv_refl : Reflexive sys_equiv.
Proof. by split. Qed.

#[local] Instance sys_equiv_trans : Transitive sys_equiv.
Proof.
  intros a b c [A1 A2 A3] [B1 B2 B3]. split.
  - intros k Hk. by rewrite B1, A1.
  - intros T. by rewrite B2, A2.
  - by rewrite B3, A3.
Qed.

Definition bands_sorted (bands : list Band) : Prop :=
  ∀ k k', k ≤ k' → k' < n → b_start (bnd bands k) ≤ b_start (bnd bands k').

(** Adding row [i] to row [j] gives an equivalent system. *)
Lemma sys_add bands rhs i j b rhs' :
  sys_wf bands rhs → i < n → j < n → i ≠ j →
  band_wf w m b → b_start b = b_start (bnd bands j) →
  (∀ c, coef w b c = xorb (coef w (bnd bands j) c) (coef w (bnd bands i) c)) →
  rs_wf n v rhs' → rs_read rhs' j = xorv (rs_read rhs j) (rs_read rhs i) →
  (∀ k, k < n → k ≠ j → rs_read rhs' k = rs_read rhs k) →
  sys_wf (<[j := b]> bands) rhs' ∧ sys_equiv (bands, rhs) (<[j := b]> bands, rhs').
Proof.
  intros (Hl & Hwf & Hr) Hi Hj Hne Hb Hst Hc Hr' Hrj Hrk.
  assert (Hb' : ∀ k, k < n → k ≠ j → bnd (<[j := b]> bands) k = bnd bands k).
  { intros. by rewrite nth_insert_ne. }
  assert (Hbj : bnd (<[j := b]> bands) j = b) by (rewrite nth_insert_eq; [done|lia]).
  split; [split; [by rewrite length_insert|]; split; [|done]|].
  - intros k Hk. destruct (decide (k = j)) as [->|]; [by rewrite Hbj|]. rewrite Hb'; auto.
  - split; cbn [fst snd].
    + intros k Hk. destruct (decide (k = j)) as [->|]; [by rewrite Hbj|]. by rewrite Hb'.
    + intros T. assert (Hadd : sat w m v T (bnd bands i) (rs_read rhs i) →
        (sat w m v T b (xorv (rs_read rhs j) (rs_read rhs i)) ↔
         sat w m v T (bnd bands j) (rs_read rhs j))).
      { intros Hs. apply (sat_add w m v T b (bnd bands j) (bnd bands i)); try done; eauto using rs_read_length. }
      split; intros Hs k Hk.
      * pose proof (Hs i Hi) as Hsi. rewrite Hb', Hrk in Hsi by done.
        destruct (decide (k = j)) as [->|Hkj].
        -- apply (Hadd Hsi). rewrite <- Hrj, <- Hbj at 1. by apply Hs.
        -- rewrite <- Hb', <- Hrk by done. by apply Hs.
      * destruct (decide (k = j)) as [->|Hkj].
        -- rewrite Hbj, Hrj. apply (Hadd (Hs i Hi)). by apply Hs.
        -- rewrite Hb', Hrk by done. by apply Hs.
    + apply (dep_add_iff w m bands i j); done || lia.
Qed.

(** What the inner loop has established for the rows before [j]. *)
Definition elim_inner (i pivot : nat) (bands : list Band) (rhs : St) (j : nat)
    (s : list Band * St) : Prop :=
  sys_wf s.1 s.2 ∧ sys_equiv (bands, rhs) s ∧
  (∀ k, k ≤ i → bnd s.1 k = bnd bands k) ∧
  (∀ p k, i < k < n → coef w (bnd bands i) p = false →
    coef w (bnd bands k) p = false → coef w (bnd s.1 k) p = false) ∧
  (∀ k, i < k < j → coef w (bnd s.1 k) pivot = false).

Lemma RBElimRow_spec bands rhs i lead j s :
  w ≤ 256 → sys_wf bands rhs → bands_sorted bands → i < j < n → lead < w →
  (∀ t, t < lead → RBBit (b_bits (bnd bands i)) t = false) →
  RBBit (b_bits (bnd bands i)) lead = true →
  let pivot := b_start (bnd bands i) + lead in
  elim_inner i pivot bands rhs j s →
  ∃ c, RBElimRow w i lead pivot j s = Ok c ∧
    match c with
    | Continue s' => elim_inner i pivot bands rhs (S j) s'
    | Break s' => elim_inner i pivot bands rhs n s'
    | Return _ => True
    end.
Proof.
  intros Hw Hsys Hsort Hij Hlead Hlow Hbit pivot (Hwf & Heq & Hsame & Hold & Hdone).
  destruct s as [b1 r1]; cbn [fst snd] in *. pose proof Hwf as (Hl1 & Hb1 & Hr1).
  unfold RBElimRow. rewrite (Hsame i) by lia.
  assert (Hst : ∀ k, k < n → b_start (bnd b1 k) = b_start (bnd bands k)) by apply Heq.
  assert (Hcov : ∀ k, coef w (bnd b1 k) pivot = false →
    (∀ x, i < x < k → coef w (bnd b1 x) pivot = false) →
    ∀ x, i < x < S k → coef w (bnd b1 x) pivot = false).
  { intros k Hk Hbelow x Hx. destruct (decide (x = k)) as [->|]; [done|]. apply Hbelow. lia. }
  destruct (Nat.ltb_spec pivot (b_start (bnd b1 j))) as [Hlt|Hge].
  { eexists. split; [done|]. refine (conj Hwf (conj Heq (conj Hsame (conj Hold _)))).
    cbn [fst]. intros k Hk. unfold coef. destruct (Nat.lt_ge_cases k j); [apply Hdone; lia|].
    rewrite Hst in Hlt |- * by lia. specialize (Hsort j k ltac:(lia) ltac:(lia)). by nat_cmp. }
  destruct ((w <=? _) || _) eqn:Econd.
  { eexists. split; [done|]. refine (conj Hwf (conj Heq (conj Hsame (conj Hold _)))).
    cbn [fst]. apply Hcov; [|done]. rewrite (coef_bit w m) by (apply Hb1; lia). nat_cmp.
    apply orb_true_iff in Econd as [Hc|Hc]; [apply Nat.leb_le in Hc|by apply negb_true_iff].
    eapply band_bit_out; [apply Hb1; lia|done]. }
  apply orb_false_iff in Econd as [_ Hjbit]. apply negb_false_iff in Hjbit.
  destruct (elim_coef w m (bnd bands i) (bnd b1 j) lead) as (bits & Hx & Hband & Hcoef); try done.
  { apply Hsys. lia. } { apply Hb1. lia. } { rewrite Hst by lia. apply Hsort; lia. }
  fold pivot in Hx. rewrite Hx. cbn [mbind Res_bind].
  destruct (rs_xor_ok n v r1 j i) as (r2 & -> & Hr2 & Hrj & Hrk); [done|lia|lia|lia|].
  cbn [mbind Res_bind]. eexists. split; [done|].
  destruct (sys_add b1 r1 i j (mkBand (b_start (bnd b1 j)) bits) r2) as [Hwf2 Heq2];
    try done; try lia; [by rewrite (Hsame i) by lia|].
  split; [done|]. split; [by transitivity (b1, r1)|]. cbn [fst snd].
  assert (Hother : ∀ k, k ≠ j → bnd (<[j:=mkBand (b_start (bnd b1 j)) bits]> b1) k = bnd b1 k).
  { intros. by rewrite nth_insert_ne. }
  assert (Hthis : bnd (<[j:=mkBand (b_start (bnd b1 j)) bits]> b1) j = mkBand (b_start (bnd b1 j)) bits).
  { rewrite nth_insert_eq; [done|lia]. }
  split; [intros k Hk; rewrite Hother by lia; by apply Hsame|]. split.
  - intros p k Hk Hpi Hpk. destruct (decide (k = j)) as [->|]; [|rewrite Hother by done; by apply Hold].
    rewrite Hthis, Hcoef, Hpi. by rewrite (Hold p j).
  - intros k Hk. destruct (decide (k = j)) as [->|]; [|rewrite Hother by done; apply Hdone; lia].
    rewrite Hthis, Hcoef, (coef_bit w m (bnd b1 j)) by (apply Hb1; lia). nat_cmp. rewrite Hjbit.
    rewrite (coef_bit w m) by (apply Hsys; lia). unfold pivot. nat_cmp.
    replace (_ + lead - _) with lead by lia. by rewrite Hbit.
Qed.

(** The pivot of row [i] is a column of its band, and no later row uses it. *)
Definition pivot_ok (bands : list Band) (pivots : list nat) (i : nat) : Prop :=
  nth i pivots 0 < m ∧ coef w (bnd bands i) (nth i pivots 0) = true ∧
  ∀ k, i < k < n → coef w (bnd bands k) (nth i pivots 0) = false.

Definition elim_outer (bands : list Band) (rhs : St) (i : nat)
    (s : list Band * St * list nat) : Prop :=
  sys_wf s.1.1 s.1.2 ∧ sys_equiv (bands, rhs) s.1 ∧ length s.2 = n ∧
  ∀ k, k < i → pivot_ok s.1.1 s.2 k.

Lemma zero_band_dep bands i : i < length bands →
  (∀ c, c < m → coef w (bnd bands i) c = false) → dep w m bands.
Proof.
  intros Hi Hz. exists (fun k => k =? i). split; [exists i; by rewrite Nat.eqb_refl|].
  intros c Hc. rewrite (xs_ext _ _ (fun _ => 0%Z)); [apply xs_zero|]. intros k Hk.
  destruct (Nat.eqb_spec k i) as [->|]; [by rewrite Hz|done].
Qed.

Lemma RBElimStep_spec bands rhs i s :
  w ≤ 256 → bands_sorted bands → i < n → elim_outer bands rhs i s →
  ∃ c, RBElimStep w n i s = Ok c ∧
    match c with
    | Continue s' => elim_outer bands rhs (S i) s'
    | Break _ => False
    | Return _ => dep w m bands
    end.
Proof.
  intros Hw Hsort Hi (Hwf & Heq & Hlen & Hpiv). destruct s as [[b1 r1] pv]; cbn [fst snd] in *.
  pose proof Hwf as (Hl1 & Hb1 & Hr1). unfold RBElimStep.
  set (bi := bnd b1 i). assert (Hbi : band_wf w m bi) by by apply Hb1.
  destruct (RBLead_spec (b_bits bi) w) as [[Hno Hlead]|(Hlt & Hbit & Hlow)]; [apply Hbi| |].
  - rewrite Hlead, Nat.eqb_refl. eexists. split; [done|].
    apply (se_dep _ _ Heq). apply (zero_band_dep _ i); [cbn; lia|]. intros c Hc. cbn [fst]. fold bi.
    rewrite (coef_bit w m) by done. apply andb_false_iff. right. apply not_true_iff_false. intros Hb.
    destruct (Nat.le_gt_cases 256 (c - b_start bi)).
    { rewrite RBBit_out in Hb; [done|apply Hbi|done]. }
    assert (RBHasBits (b_bits bi) = true); [|congruence].
    apply RBHasBits_spec; [apply Hbi|]. eauto.
  - set (lead := RBLead (b_bits bi) w) in *.
    assert (Hlw : lead < w).
    { destruct (Nat.le_gt_cases w lead) as [Hge|]; [|done].
      by rewrite (band_bit_out w m bi lead) in Hbit. }
    nat_cmp. set (pivot := b_start bi + lead).
    assert (Hpm : pivot < m) by (destruct Hbi as (_ & _ & ?); unfold pivot; lia).
    assert (Hsort1 : bands_sorted b1).
    { intros k k' Hk Hk'. rewrite !(se_start _ _ Heq) by lia. by apply Hsort. }
    destruct (forC_inv (elim_inner i pivot b1 r1) (elim_inner i pivot b1 r1 n)
      (fun _ => True) (S i) n (RBElimRow w i lead pivot) (b1, r1)) as ([[b2 r2]|[]] & -> & Hin).
    + lia.
    + split; [done|]. split; [done|]. split; [done|]. split; [done|]. intros k Hk. lia.
    + intros j s' Hj Hs'. by apply RBElimRow_spec.
    + done.
    + cbn [mbind Res_bind]. eexists. split; [done|]. destruct Hin as (Hwf2 & Heq2 & Hsame & Hold & Hdone).
      cbn [fst snd] in *. split; [done|]. split; [by transitivity (b1, r1)|].
      cbn [fst snd]. split; [by rewrite length_insert|].
      intros k Hk. unfold pivot_ok. destruct (decide (k = i)) as [->|Hki].
      * rewrite nth_insert_eq by lia. split; [done|]. split; [|done].
        rewrite Hsame by done. fold bi. rewrite (coef_bit w m) by done. unfold pivot. nat_cmp.
        by replace (_ + lead - _) with lead by lia.
      * rewrite nth_insert_ne by done. destruct (Hpiv k ltac:(lia)) as (P1 & P2 & P3).
        split; [done|]. split; [rewrite Hsame by lia; done|]. intros k' Hk'.
        destruct (Nat.le_gt_cases k' i); [rewrite Hsame by done; by apply P3|].
        apply Hold; [lia|apply P3; lia|apply P3; lia].
Qed.

(** Rows in echelon form are independent. *)
Lemma pivots_not_dep bands pivots :
  length bands = n → (∀ k, k < n → pivot_ok bands pivots k) → ¬ dep w m bands.
Proof.
  intros Hl Hp (s & (k & Hk & Hsk) & Hz).
  destruct (least_true s k Hsk) as (i & Hik & Hsi & Hlow). assert (Hi : i < n) by lia.
 destruct (Hp i Hi) as (Hpm & Hpi & Hplater).
  specialize (Hz _ Hpm). rewrite Hl in Hz. rewrite (xs_pick n i) in Hz by done.
  rewrite (xs_ext _ _ (fun _ => 0%Z)), xs_zero, Hsi, Hpi in Hz; [done|]. intros k' Hk'.
  destruct (Nat.eqb_spec k' i); [done|].
  destruct (Nat.lt_ge_cases k' i); [by rewrite Hlow|].
  rewrite Hplater by lia. by rewrite andb_false_r.
Qed.

(** Forward elimination: fails exactly on dependent rows, otherwise gives an equivalent
    system in echelon form. *)
Lemma RBForward_spec bands rhs :
  w ≤ 256 → sys_wf bands rhs → bands_sorted bands →
  ∃ o, RBForward w m bands rhs = Ok o ∧
    match o with
    | inl (bands', rhs', pivots) =>
        sys_wf bands' rhs' ∧ sys_equiv (bands, rhs) (bands', rhs') ∧ length pivots = n ∧
        (∀ k, k < n → pivot_ok bands' pivots k) ∧ ¬ dep w m bands
    | inr _ => dep w m bands
    end.
Proof.
  intros Hw Hsys Hsort. unfold RBForward. pose proof Hsys as (-> & _ & _).
  destruct (forC_inv (elim_outer bands rhs) (elim_outer bands rhs n) (fun _ => dep w m bands)
    0 n (RBElimStep w n) (bands, rhs, replicate n m)) as ([[[b1 r1] pv]|[]] & -> & Ho).
  - lia.
  - split; [done|]. split; [done|]. cbn. rewrite length_replicate. split; [done|lia].
  - intros i s Hi Hs. destruct (RBElimStep_spec bands rhs i s) as (c & -> & Hc); try done; [lia|].
    exists c. split; [done|]. by destruct c.
  - done.
  - eexists. split; [done|]. cbn. destruct Ho as (Hwf & Heq & Hl & Hp). cbn in *.
    split; [done|]. split; [done|]. split; [done|]. split; [done|]. rewrite <- (se_dep _ _ Heq).
    apply (pivots_not_dep _ pv); [apply Hwf|done].
  - eexists. by split.
Qed.

(** * Back substitution *)

Lemma RBBackSum_spec b p tb sum :
  band_wf w m b → ts_wf m v tb → length sum = v →
  ∃ s, RBBackSum w b p tb sum = Ok s ∧ length s = v ∧
    ∀ k, k < v → s.[k] = Z.lxor sum.[k]
      (xs w (fun j => if RBBit (b_bits b) j && negb (b_start b + j =? p)
                      then (ts_read tb (b_start b + j)).[k] else 0%Z)).
Proof.
  intros Hb Htb Hs. unfold RBBackSum.
  set (term := fun k j => if RBBit (b_bits b) j && negb (b_start b + j =? p)
                          then (ts_read tb (b_start b + j)).[k] else 0%Z).
  apply (forR_inv (fun i s => length s = v ∧ ∀ k, k < v → s.[k] = Z.lxor sum.[k] (xs i (term k)))).
  - lia.
  - split; [done|]. intros k Hk. cbn. by rewrite Z.lxor_0_r.
  - intros j s Hj [Hl Hsum].
    assert (Hskip : ∀ k, term k j = 0%Z → k < v → s.[k] = Z.lxor sum.[k] (xs (S j) (term k))).
    { intros k Ht Hk. cbn. by rewrite Ht, Z.lxor_0_r, Hsum. }
    destruct (RBBit (b_bits b) j) eqn:Hbit; cbn [negb].
    2: { exists s. split; [done|]. split; [done|]. intros k Hk. apply Hskip; [|done].
         unfold term. by rewrite Hbit. }
    destruct (Nat.eqb_spec (b_start b + j) p) as [Hp|Hp].
    { exists s. split; [done|]. split; [done|]. intros k Hk. apply Hskip; [|done].
      unfold term. rewrite Hbit. nat_cmp. done. }
    assert (b_start b + j < m) by (destruct Hb as (_ & _ & ?); lia).
    rewrite (ts_xor_ok m v) by done. eexists. split; [done|].
    assert (Hlr : length (ts_read tb (b_start b + j)) = v) by by apply (ts_read_length m v).
    split; [rewrite xorv_length; congruence|]. intros k Hk. rewrite xorv_nth by congruence.
    cbn [xs]. rewrite Hsum by done. unfold term at 3. rewrite Hbit. nat_cmp.
    by rewrite Z.lxor_assoc.
Qed.

Lemma RBBackfill_spec bands rhs pivots tb :
  sys_wf bands rhs → (∀ k, k < n → pivot_ok bands pivots k) → ts_wf m v tb →
  ∃ tb', RBBackfill w bands rhs pivots tb = Ok tb' ∧ ts_wf m v tb' ∧
    sys_sat (ts_read tb') bands rhs.
Proof.
  intros (Hl & Hb & Hr) Hp Htb. unfold RBBackfill. rewrite Hl.
  destruct (for_downR_inv (fun i tb => ts_wf m v tb ∧
      ∀ k, i ≤ k → k < n → sat w m v (ts_read tb) (bnd bands k) (rs_read rhs k)) n
      (fun i tb => let p := nth i pivots 0 in
        sum ← RBBackSum w (bnd bands i) p tb (rs_read rhs i); Ok (ts_write tb p sum)) tb)
    as (tb' & Hrun & Hwf' & Hsat).
  - split; [done|]. lia.
  - intros i t Hi [Ht Hs]. cbv zeta. destruct (Hp i Hi) as (Hpm & Hpc & Hpl).
    set (p := nth i pivots 0) in *.
    destruct (RBBackSum_spec (bnd bands i) p t (rs_read rhs i)) as (sum & -> & Hlen & Hsum);
      [by apply Hb|done|by eapply rs_read_length|].
    cbn [mbind Res_bind]. eexists. split; [done|].
    destruct (ts_write_ok m v t p sum) as (Hwf & Hrp & Hro); [done|done|done|].
    split; [done|]. intros k Hk Hkn j Hj. destruct (decide (k = i)) as [->|Hki].
    + assert (Hst : b_start (bnd bands i) + w ≤ m) by by apply Hb.
      rewrite (dot_pick _ _ _ _ p), Hrp, Hsum, Z.lxor_assoc by done.
      rewrite <- (Z.lxor_0_r (rs_read rhs i).[j]) at 2. f_equal.
      rewrite <- xs_xor, (xs_ext _ _ (fun _ => 0%Z)); [apply xs_zero|]. intros x Hx.
      destruct (Nat.eqb_spec (b_start (bnd bands i) + x) p) as [Hxp|Hxp]; cbn [negb].
      { by rewrite andb_false_r. }
      rewrite Hro by (done || lia). apply Z.lxor_nilpotent.
    + rewrite <- (Hs k) by (done || lia). apply dot_ext. intros c Hc Hcc. rewrite Hro; [done|done|].
      intros ->. by rewrite Hpl in Hcc by lia.
  - exists tb'. split; [exact Hrun|]. split; [done|]. intros k Hk. apply Hsat; lia.
Qed.
End Elimination.

(** * Dependencies do not depend on the order of the rows *)

Definition lxors (l : list Z) : Z := foldr Z.lxor 0%Z l.

Lemma lxors_app l l' : lxors (l ++ l') = Z.lxor (lxors l) (lxors l').
Proof.
  induction l as [|x l IH]; [done|]. unfold lxors in *. cbn [app foldr].
  by rewrite IH, Z.lxor_assoc.
Qed.

#[export] Instance lxors_perm : Proper ((≡ₚ) ==> eq) lxors.
Proof.
  intros l l' H. induction H as [|x l l' _ IH|x y l|l1 l2 l3 _ IH1 _ IH2]; cbn in *;
    [done|by f_equal| |congruence].
  rewrite <- !Z.lxor_assoc. f_equal. apply Z.lxor_comm.
Qed.

Lemma xs_lxors n f : xs n f = lxors (map f (seq 0 n)).
Proof.
  induction n as [|n IH]; [done|]. cbn [xs]. rewrite IH, seq_S.
  etransitivity; [|symmetry; apply (f_equal lxors), (List.map_app f (seq 0 n))].
  rewrite lxors_app. cbn. by rewrite Z.lxor_0_r.
Qed.

(** The same notion on pairs of a selection bit and a row. *)
Definition dep_pairs (w m : nat) (ps : list (bool * Band)) : Prop :=
  (∃ p, p ∈ ps ∧ p.1 = true) ∧
  ∀ c, c < m → lxors (map (fun p : bool * Band => if p.1 && coef w p.2 c then 1%Z else 0%Z) ps) = 0%Z.

Lemma dep_pairs_iff w m bands : dep w m bands ↔ ∃ ps, ps.*2 = bands ∧ dep_pairs w m ps.
Proof.
  split.
  - intros (s & (k & Hk & Hs) & Hz). set (ps := map (fun k => (s k, bnd bands k)) (seq 0 (length bands))).
    exists ps. split.
    + apply list_eq_same_length with (length bands); unfold ps; [done|by rewrite length_fmap, length_map, length_seq|].
      intros i x y Hi. change (map ?f ?l) with (f <$> l). rewrite !list_lookup_fmap, lookup_seq_lt by done.
      cbn. intros [= <-] Hy. by apply nth_lookup_Some.
    + split.
      * exists (s k, bnd bands k). split; [|done]. unfold ps. apply list_elem_of_In, in_map_iff.
        exists k. split; [done|]. apply in_seq. lia.
      * intros c Hc. etransitivity; [|exact (Hz c Hc)]. rewrite xs_lxors. unfold ps. by rewrite map_map.
  - intros (ps & <- & (p & Hp & Hb) & Hz).
    apply list_elem_of_lookup in Hp as [k Hk]. pose proof (lookup_lt_Some _ _ _ Hk) as Hlt.
    exists (fun k => (nth k ps (false, Band0)).1). rewrite length_fmap. split.
    + exists k. split; [done|]. by rewrite (nth_lookup_Some _ _ _ _ Hk).
    + intros c Hc. etransitivity; [|exact (Hz c Hc)]. rewrite xs_lxors. f_equal.
      apply list_eq_same_length with (length ps); [by rewrite length_map|by rewrite length_map, length_seq|].
      intros i x y Hi. change (map ?f ?l) with (f <$> l). rewrite !list_lookup_fmap, lookup_seq_lt by done.
      rewrite (nth_lookup_some ps i (false, Band0)) by done. cbn. intros [= <-] [= <-].
      change Band0 with (false, Band0).2. by rewrite map_nth.
Qed.

#[export] Instance dep_perm w m : Proper ((≡ₚ) ==> iff) (dep w m).
Proof.
  assert (Himp : ∀ l l', l ≡ₚ l' → dep w m l → dep w m l').
  { intros l l' Hl. rewrite !dep_pairs_iff. intros (ps & <- & (p & Hp & Hb) & Hz).
    symmetry in Hl. destruct (Permutation_map_inv _ _ Hl) as (ps' & -> & Hps).
    exists ps'. split; [done|]. split; [exists p; by rewrite <- Hps|].
    intros c Hc. by rewrite <- Hps, Hz. }
  intros l l' Hl. split; by apply Himp.
Qed.

(** Two equal rows are dependent. *)
Lemma dep_dup w m bands i j : i < j → j < length bands → bnd bands i = bnd bands j → dep w m bands.
Proof.
  intros Hij Hj He. exists (fun k => (k =? i) || (k =? j)). split.
  { exists i. rewrite Nat.eqb_refl. split; [lia|done]. }
  intros c Hc. set (x := if coef w (bnd bands i) c then 1%Z else 0%Z).
  rewrite (xs_ext _ _ (fun k => Z.lxor (if k =? i then x else 0%Z) (if k =? j then x else 0%Z))).
  - rewrite xs_xor, !xs_single by lia. apply Z.lxor_nilpotent.
  - intros k Hk. unfold x. destruct (Nat.eqb_spec k i) as [->|].
    + nat_cmp. by destruct (coef _ _ _).
    + destruct (Nat.eqb_spec k j) as [->|]; cbn; [|done]. rewrite He. by destruct (coef _ _ _).
Qed.

(** * Elimination and back substitution together *)

Lemma solve_spec {St Tb} `{HSt : RhsStoreLaws St} `{HTb : TableStoreLaws Tb} w m v n bands
    (rhs : St) (tb0 : Tb) :
  w ≤ 256 → sys_wf w m v n bands rhs → bands_sorted n bands → ts_wf m v tb0 →
  (RBForward w m bands rhs = Ok (inr tt) ∧ dep w m bands) ∨
  (∃ bands' rhs' pivots tb,
    RBForward w m bands rhs = Ok (inl (bands', rhs', pivots)) ∧
    RBBackfill w bands' rhs' pivots tb0 = Ok tb ∧
    ts_wf m v tb ∧ sys_sat w m v n (ts_read tb) bands rhs ∧ ¬ dep w m bands).
Proof.
  intros Hw Hsys Hsort Htb.
  destruct (RBForward_spec w m v n bands rhs Hw Hsys Hsort) as ([[[b' r'] pv]|[]] & -> & Ho);
    [right|by left].
  destruct Ho as (Hwf & Heq & _ & Hp & Hd).
  destruct (RBBackfill_spec w m v n b' r' pv tb0 Hwf Hp Htb) as (tb & Hrun & Htbwf & Hs).
  exists b', r', pv, tb. split; [done|]. split; [done|]. split; [done|]. split; [|done].
  by apply (se_sat _ _ _ _ _ _ Heq).
Qed.
