(* ===== verification/RbCodec.v ===== *)
(** The RB-OKVS codec: the [RBEncode] and [RBDecode] overloads of frontend/okvs/rb/codec.h,
    over nested vectors, over a flat table, and over flat values and a flat table. *)
From S2P Require Import Prelude Words Parallel RbBits Fit RbRows RbSolve.
Open Scope nat_scope.

(** * Stores *)

(** Nested vectors: [rows[i].rhs] and [okvsTable[col]]. *)
#[export] Instance vec_rhs : RhsStore (list (list block)) := {
  rs_read st i := nth i st [];
  rs_xor st j i := x ← RBXor (nth j st []) (nth i st []); mret (<[j := x]> st);
}.

#[export] Instance vec_table : TableStore (list (list block)) := {
  ts_read tb c := nth c tb [];
  ts_write tb p x := <[p := x]> tb;
  ts_xor s tb c := RBXor s (nth c tb []);
}.

(** The [block*] overload of [RBXor] on one vector: [a[d + k] ^= a[s + k]], in place. *)
Definition RBXorFlat (a : list block) (d s n : nat) : list block :=
  for_ 0 n (fun k a => <[d + k := Z.lxor a.[d + k] a.[s + k]]> a) a.

(** Row [row] of a flat table, [RBRowPtr]. *)
Definition RBRowPtr (table : list block) (rowSize row : nat) : list block :=
  slice table (row * rowSize) rowSize.

(** A flat table with its row size. *)
Record FlatTable : Type := mkFlatTable { ft_row : nat; ft_data : list block }.

#[export] Instance flat_table : TableStore FlatTable := {
  ts_read tb c := RBRowPtr (ft_data tb) (ft_row tb) c;
  ts_write tb p x :=
    mkFlatTable (ft_row tb) (memcpy (ft_data tb) (p * ft_row tb) x 0 (ft_row tb));
  ts_xor s tb c := RBXorPtr s (RBRowPtr (ft_data tb) (ft_row tb) c);
}.

(** Flat right-hand sides: the offsets of the rows and the shared vector. *)
Record FlatRhs : Type := mkFlatRhs { fr_row : nat; fr_off : list nat; fr_data : list block }.

#[export] Instance flat_rhs : RhsStore FlatRhs := {
  rs_read st i := slice (fr_data st) (nth i (fr_off st) 0) (fr_row st);
  rs_xor st j i := mret (mkFlatRhs (fr_row st) (fr_off st)
    (RBXorFlat (fr_data st) (nth j (fr_off st) 0) (nth i (fr_off st) 0) (fr_row st)));
}.

Definition row_band (r : RBRow) : Band := mkBand (r_start r) (r_bits r).
Definition flat_band (r : RBFlatRow) : Band := mkBand (f_start r) (f_bits r).

(** * Encoding.  The table is an in-out parameter; [false] leaves it as it was. *)

Section Codec.
Context (hw : nat) (aes : block → block → block) (std_log2 : double → double).

(** Nested values, nested table. *)
Definition RBEncode (setKeys : list block) (setValues : list (list block))
    (okvsTable : list (list block)) (params : RBParams) : Res (bool * list (list block)) :=
  if length setKeys =? 0 then mret (true, []) else
  cfg ← RBInfoOf hw std_log2 (length setKeys) params;
  let columns := i_columns cfg in
  let bandWidth := i_bandWidth cfg in
  rows ← RBRows hw aes setKeys setValues columns bandWidth params;
  let valWidth := length (nth 0 setValues []) in
  o ← RBForward bandWidth columns (map row_band rows) (map r_rhs rows);
  match o with
  | inr _ => mret (false, okvsTable)
  | inl (bands, rhs, pivot) =>
      tb ← RBBackfill bandWidth bands rhs pivot (replicate columns (replicate valWidth ZeroBlock));
      mret (true, tb)
  end.

(** Nested values, flat table. *)
Definition RBEncode_table (setKeys : list block) (setValues : list (list block))
    (okvsTable : list block) (rowSize : nat) (params : RBParams) : Res (bool * list block) :=
  if length setKeys =? 0 then mret (true, []) else
  throw_if ((length setValues =? 0) || negb (length (nth 0 setValues []) =? rowSize))
    (InvalidArgument "RBEncode flat row width mismatch") ;;
  cfg ← RBInfoOf hw std_log2 (length setKeys) params;
  let columns := i_columns cfg in
  let bandWidth := i_bandWidth cfg in
  rows ← RBRows hw aes setKeys setValues columns bandWidth params;
  o ← RBForward bandWidth columns (map row_band rows) (map r_rhs rows);
  match o with
  | inr _ => mret (false, okvsTable)
  | inl (bands, rhs, pivot) =>
      tb ← RBBackfill bandWidth bands rhs pivot
             (mkFlatTable rowSize (replicate (columns * rowSize) ZeroBlock));
      mret (true, ft_data tb)
  end.

(** Flat values, flat table. *)
Definition RBEncode_flat (setKeys setValues : list block) (rowSize : nat)
    (okvsTable : list block) (params : RBParams) : Res (bool * list block) :=
  if length setKeys =? 0 then mret (true, []) else
  throw_if ((rowSize =? 0) || negb (length setValues =? length setKeys * rowSize))
    (InvalidArgument "RBEncode flat values mismatch") ;;
  cfg ← RBInfoOf hw std_log2 (length setKeys) params;
  let columns := i_columns cfg in
  let bandWidth := i_bandWidth cfg in
  '(rows, rhs) ← RBRowsFlat hw aes setKeys setValues rowSize columns bandWidth params;
  o ← RBForward bandWidth columns (map flat_band rows) (mkFlatRhs rowSize (map f_rhs rows) rhs);
  match o with
  | inr _ => mret (false, okvsTable)
  | inl (bands, rhs, pivot) =>
      tb ← RBBackfill bandWidth bands rhs pivot
             (mkFlatTable rowSize (replicate (columns * rowSize) ZeroBlock));
      mret (true, ft_data tb)
  end.

(** * Decoding *)

(** The checks that all overloads make; returns the band width. *)
Definition RBDecodeWidth (n columns : nat) (params : RBParams) : Res nat :=
  throw_if (negb (p_columns params =? 0) && negb (p_columns params =? columns))
    (InvalidArgument "RBDecode columns mismatch") ;;
  bandWidth ← RBTableW std_log2 n columns params;
  throw_if (256 <? bandWidth) (InvalidArgument "RBDecode width > 256") ;;
  throw_if (columns <? bandWidth) (InvalidArgument "RBDecode width > columns") ;;
  mret bandWidth.

(** The loop over the keys: [acc i col] is the statement that adds row [col] to output [i]. *)
Definition RBDecodeLoop {O : Type} (setKeys : list block) (columns bandWidth : nat)
    (params : RBParams) (acc : nat → nat → O → Res O) (out : O) : Res O :=
  Rb.RBFor hw (length setKeys) (p_multiThread params) (p_workerThreads params)
    (fun b e => let hash := RBMakeHashCtx params in
      forR b e (fun i out =>
        let start := RBKeyStart aes columns bandWidth hash setKeys.[i] in
        bits ← RBKeyBits aes bandWidth hash setKeys.[i];
        RBDecodeRow bandWidth columns start bits (acc i) out)) out.

Definition RBDecode (okvsTable : list (list block)) (setKeys : list block) (params : RBParams)
  : Res (list (list block)) :=
  if length okvsTable =? 0 then mret [] else
  let columns := length okvsTable in
  let valWidth := length (nth 0 okvsTable []) in
  bandWidth ← RBDecodeWidth (length setKeys) columns params;
  RBDecodeLoop setKeys columns bandWidth params
    (fun i col (out : list (list block)) => mret (<[i :=
      for_ 0 valWidth (fun k row => <[k := Z.lxor row.[k] (nth col okvsTable []).[k]]> row)
        (nth i out [])]> out))
    (replicate (length setKeys) (replicate valWidth ZeroBlock)).

Definition RBDecode_table (okvsTable : list block) (rowSize : nat) (setKeys : list block)
    (params : RBParams) : Res (list (list block)) :=
  if length okvsTable =? 0 then mret [] else
  throw_if ((rowSize =? 0) || negb (length okvsTable mod rowSize =? 0))
    (InvalidArgument "RBDecode flat table size mismatch") ;;
  let columns := length okvsTable / rowSize in
  bandWidth ← RBDecodeWidth (length setKeys) columns params;
  RBDecodeLoop setKeys columns bandWidth params
    (fun i col (out : list (list block)) =>
      row ← RBXorPtr (nth i out []) (RBRowPtr okvsTable rowSize col);
      mret (<[i := row]> out))
    (replicate (length setKeys) (replicate rowSize ZeroBlock)).

Definition RBDecode_flat (okvsTable : list block) (rowSize : nat) (setKeys : list block)
    (params : RBParams) : Res (list block) :=
  if length okvsTable =? 0 then mret [] else
  throw_if ((rowSize =? 0) || negb (length okvsTable mod rowSize =? 0))
    (InvalidArgument "RBDecode flat table size mismatch") ;;
  let columns := length okvsTable / rowSize in
  bandWidth ← RBDecodeWidth (length setKeys) columns params;
  RBDecodeLoop setKeys columns bandWidth params
    (fun i col (out : list block) =>
      mret (for_ 0 rowSize (fun k out =>
        <[i * rowSize + k :=
          Z.lxor out.[i * rowSize + k] (RBRowPtr okvsTable rowSize col).[k]]> out) out))
    (replicate (length setKeys * rowSize) ZeroBlock).

(** * One block per key *)

Definition RBEncode_1d (setKeys setValues okvsTable : list block) (params : RBParams)
  : Res (bool * list block) :=
  throw_if (negb (length setKeys =? length setValues)) (InvalidArgument "RBEncode 1D mismatch") ;;
  '(ok, out2d) ← RBEncode setKeys (map (fun v => [v]) setValues) [] params;
  if negb ok then mret (false, okvsTable)
  else mret (true, map (fun row => row.[0]) out2d).

Definition RBDecode_1d (okvsTable setKeys : list block) (params : RBParams) : Res (list block) :=
  out2d ← RBDecode (map (fun v => [v]) okvsTable) setKeys params;
  mret (map (fun row => row.[0]) out2d).

End Codec.

(** * Flat vectors *)

Lemma slice_nth (l : list block) off n k : k < n → (slice l off n).[k] = l.[off + k].
Proof.
  intros. rewrite !nth_lookup. unfold slice. by rewrite lookup_take_lt, lookup_drop.
Qed.

(** The pointer overload on two disjoint rows of one vector. *)
Lemma RBXorFlat_spec (a : list block) d s n : d + n ≤ length a → s + n ≤ length a →
  s + n ≤ d ∨ d + n ≤ s →
  length (RBXorFlat a d s n) = length a ∧
  slice (RBXorFlat a d s n) d n = xorv (slice a d n) (slice a s n) ∧
  ∀ o, o + n ≤ length a → o + n ≤ d ∨ d + n ≤ o →
    slice (RBXorFlat a d s n) o n = slice a o n.
Proof.
  intros Hd Hs Hdis. unfold RBXorFlat.
  assert (E : for_ 0 n (fun k a => <[d + k := Z.lxor a.[d + k] a.[s + k]]> a) a
            = for_ 0 n (fun k a' => <[d + k := Z.lxor a'.[d + k] a.[s + k]]> a') a).
  { apply (for_inv (fun i st =>
      for_ 0 i (fun k a => <[d + k := Z.lxor a.[d + k] a.[s + k]]> a) a = st ∧
      ∀ x, x < d ∨ d + n ≤ x → st.[x] = a.[x]) 0 n
      (fun k a' => <[d + k := Z.lxor a'.[d + k] a.[s + k]]> a') a).
    - lia.
    - by rewrite for_0.
    - intros i st Hi [Hst Hout]. rewrite for_snoc, Hst, (Hout (s + i)) by lia. split; [done|].
      intros x Hx. rewrite nth_insert, decide_False by lia. by apply Hout. }
  rewrite E. clear E.
  pose proof (fun j => xor_at_nth d n (fun k => a.[s + k]) a j Hd) as H.
  set (r := for_ _ _ _ _) in *. assert (Hl : length r = length a) by apply (H 0).
  split; [done|]. split.
  - apply list_eq_nth; [rewrite xorv_length; rewrite !slice_length; lia|].
    rewrite slice_length by lia. intros k Hk.
    rewrite xorv_nth, !slice_nth, (proj1 (H _)) by (rewrite ?slice_length; lia). nat_cmp.
    by replace (d + k - d) with k by lia.
  - intros o Ho Hod. apply list_eq_nth; [rewrite !slice_length; lia|].
    rewrite slice_length by lia. intros k Hk. rewrite !slice_nth, (proj1 (H _)) by done.
    destruct (Nat.leb_spec d (o + k)); cbn [andb]; [|done]. by nat_cmp.
Qed.

(** * The stores satisfy the solver's interfaces *)

#[export] Instance vec_rhs_laws : RhsStoreLaws (list (list block)).
Proof.
  refine (Build_RhsStoreLaws _ _ (fun n v st => length st = n ∧ ∀ i, i < n → length (nth i st []) = v) _ _).
  - intros n v st i [_ H]. apply H.
  - intros n v st j i [Hl H] Hi Hj Hne. cbn. unfold RBXor. rewrite !H, Nat.eqb_refl by done. cbn.
    eexists. split; [done|]. rewrite length_insert.
    assert (Hk : ∀ x k, k ≠ j → nth k (<[j:=x]> st) [] = nth k st []) by (intros; by rewrite nth_insert_ne).
    rewrite nth_insert_eq by lia. repeat split; auto. intros k Hkn.
    destruct (decide (k = j)) as [->|]; [|rewrite Hk by done; by apply H].
    rewrite nth_insert_eq, xorv_length by (rewrite ?H; lia). by apply H.
Defined.

#[export] Instance vec_table_laws : TableStoreLaws (list (list block)).
Proof.
  refine (Build_TableStoreLaws _ _ (fun m v tb => length tb = m ∧ ∀ c, c < m → length (nth c tb []) = v) _ _ _).
  - intros m v tb c [_ H]. apply H.
  - intros m v tb p x [Hl H] Hp Hx. cbn. rewrite length_insert, nth_insert_eq by lia.
    assert (Hk : ∀ k, k ≠ p → nth k (<[p:=x]> tb) [] = nth k tb []) by (intros; by rewrite nth_insert_ne).
    repeat split; auto. intros c Hc. destruct (decide (c = p)) as [->|]; [by rewrite nth_insert_eq by lia|].
    rewrite Hk by done. by apply H.
  - intros m v tb c x [_ H] Hc Hx. cbn. unfold RBXor. rewrite H, Hx, Nat.eqb_refl by done. done.
Defined.

Lemma row_range c m r : c < m → c * r + r ≤ m * r.
Proof. nia. Qed.
Lemma row_disjoint c c' r : c ≠ c' → c * r + r ≤ c' * r ∨ c' * r + r ≤ c * r.
Proof. intros. destruct (Nat.lt_total c c') as [|[|]]; [left|done|right]; nia. Qed.

#[export] Instance flat_table_laws : TableStoreLaws FlatTable.
Proof.
  refine (Build_TableStoreLaws _ _ (fun m v tb => ft_row tb = v ∧ length (ft_data tb) = m * v) _ _ _).
  - intros m v tb c [<- H] Hc. cbn. unfold RBRowPtr. apply slice_length. rewrite H. by apply row_range.
  - intros m v tb p x [<- H] Hp Hx. pose proof (row_range p m (ft_row tb) Hp). cbn [ts_write ts_read flat_table ft_row ft_data]. unfold RBRowPtr.
    split; [|split].
    + split; [done|]. rewrite memcpy_length by lia. done.
    + rewrite slice_memcpy_eq by lia. unfold slice. rewrite drop_0, firstn_all2 by lia. done.
    + intros c Hc Hne. apply slice_memcpy_ne; [lia|lia|]. by apply row_disjoint.
  - intros m v tb c x [<- H] Hc Hx. cbn. unfold RBXorPtr, RBRowPtr.
    rewrite slice_length, Hx, Nat.eqb_refl; [done|]. rewrite H. by apply row_range.
Defined.

#[export] Instance flat_rhs_laws : RhsStoreLaws FlatRhs.
Proof.
  refine (Build_RhsStoreLaws _ _ (fun n v st => fr_row st = v ∧
    (∀ i, i < n → nth i (fr_off st) 0 + v ≤ length (fr_data st)) ∧
    ∀ i j, i < n → j < n → i ≠ j →
      nth i (fr_off st) 0 + v ≤ nth j (fr_off st) 0 ∨ nth j (fr_off st) 0 + v ≤ nth i (fr_off st) 0) _ _).
  - intros n v st i (<- & Hr & _) Hi. cbn. apply slice_length. by apply Hr.
  - intros n v st j i (<- & Hr & Hd) Hi Hj Hne. cbn. eexists. split; [done|]. cbn.
    destruct (RBXorFlat_spec (fr_data st) (nth j (fr_off st) 0) (nth i (fr_off st) 0) (fr_row st))
      as (Hl & Heq & Hne'); [by apply Hr|by apply Hr|by apply Hd|].
    rewrite Hl. split; [done|]. split; [done|]. intros k Hk Hkj. apply Hne'; [by apply Hr|].
    by apply Hd.
Defined.

(** * The system of equations of a key set *)

Section Spec.
Context (hw : nat) (aes : block → block → block) (std_log2 : double → double).

(** The equation of a key: start column and mask. *)
Definition key_band (columns w : nat) (params : RBParams) (key : block) : Band :=
  mkBand (RBKeyStart aes columns w (RBMakeHashCtx params) key)
         (key_bits aes w (RBMakeHashCtx params) key).

(** What a table stores for a key: the sum of the table rows the key's mask selects. *)
Definition okvs_eval (w columns v : nat) (params : RBParams) (T : nat → list block)
    (key : block) : list block :=
  map (dot w columns (key_band columns w params key) T) (seq 0 v).

(** The masks of the keys are linearly dependent over GF(2). *)
Definition keys_dependent (w columns : nat) (params : RBParams) (setKeys : list block) : Prop :=
  dep w columns (map (key_band columns w params) setKeys).

Lemma key_band_wf columns w params key : aes_ok aes → 0 < w ≤ 256 → w ≤ columns →
  band_wf w columns (key_band columns w params key).
Proof.
  intros Ha Hw Hc. destruct (RBKeyBits_Ok aes w (RBMakeHashCtx params) key Ha Hw) as (_ & Hb & Hhi & _).
  split; [done|]. split; [done|]. by apply RBKeyStart_bound.
Qed.

Lemma map_seq_nth {A B} (g : A → B) (l : list A) d :
  map (fun i => g (nth i l d)) (seq 0 (length l)) = map g l.
Proof.
  apply list_eq_same_length with (length l); [by rewrite length_map|by rewrite length_map, length_seq|].
  intros i x y Hi. change (map ?f ?l) with (f <$> l). rewrite !list_lookup_fmap, lookup_seq_lt by done.
  rewrite (nth_lookup_some l i d) by done. by intros [= <-] [= <-].
Qed.

Lemma sat_eval w columns v params T key rhs : length rhs = v →
  sat w columns v T (key_band columns w params key) rhs →
  okvs_eval w columns v params T key = rhs.
Proof.
  intros Hl Hs. unfold okvs_eval. apply list_eq_same_length with v; [done|by rewrite length_map, length_seq|].
  intros i x y Hi. change (map ?f ?l) with (f <$> l). rewrite list_lookup_fmap, lookup_seq_lt by done.
  rewrite (nth_lookup_Z rhs) by lia. cbn. intros [= <-] [= <-]. by rewrite <- Hs.
Qed.

(** The rows a band list is taken from, in the order of the sort. *)
Lemma sorted_bands {R} (key : R → nat) (band : R → Band) (f : nat → R) d w columns params setKeys :
  band d = Band0 → (∀ r, b_start (band r) = key r) →
  (∀ i, i < length setKeys → band (f i) = key_band columns w params setKeys.[i]) →
  aes_ok aes → 0 < w ≤ 256 → w ≤ columns →
  let n := length setKeys in
  let rows := stable_sort key (map f (seq 0 n)) in
  length (map band rows) = n ∧ (∀ k, k < n → band_wf w columns (bnd (map band rows) k)) ∧
  bands_sorted n (map band rows) ∧
  (dep w columns (map band rows) ↔ keys_dependent w columns params setKeys).
Proof.
  intros Hd Hkey Hf Ha Hw Hc n rows.
  destruct (sorted_rows key f n d) as (Hl & Hin & _ & Hsort). fold rows in Hl, Hin, Hsort.
  assert (Hnth : ∀ k, bnd (map band rows) k = band (nth k rows d)).
  { intros k. rewrite <- Hd. apply map_nth. }
  split; [by rewrite length_map|]. split; [|split].
  - intros k Hk. rewrite Hnth. destruct (Hin k Hk) as (i & Hi & ->). rewrite Hf by done.
    by apply key_band_wf.
  - intros k k' Hk Hk'. rewrite !Hnth, !Hkey. by apply Hsort.
  - unfold keys_dependent. rewrite <- (map_seq_nth (key_band columns w params) setKeys 0%Z).
    apply dep_perm. unfold rows. change (map band ?l) with (band <$> l).
    rewrite stable_sort_perm. change (band <$> ?l) with (map band l). rewrite map_map.
    erewrite map_ext_in; [reflexivity|]. intros i Hi. apply in_seq in Hi. apply Hf. lia.
Qed.

Lemma rows_system setKeys setValues w columns params v :
  aes_ok aes → 0 < w ≤ 256 → w ≤ columns → length setValues = length setKeys →
  Forall (fun x => length x = v) setValues →
  let n := length setKeys in
  let rows := stable_sort r_start
    (map (key_row aes setKeys setValues columns w params) (seq 0 n)) in
  sys_wf w columns v n (map row_band rows) (map r_rhs rows) ∧
  bands_sorted n (map row_band rows) ∧
  (dep w columns (map row_band rows) ↔ keys_dependent w columns params setKeys) ∧
  ∀ T, sys_sat w columns v n T (map row_band rows) (map r_rhs rows) →
    ∀ i, i < n → okvs_eval w columns v params T setKeys.[i] = nth i setValues [].
Proof.
  intros Ha Hw Hc Hlen Hval n rows.
  assert (Hv : ∀ i, i < n → length (nth i setValues []) = v).
  { intros i Hi. rewrite Forall_forall in Hval. apply Hval, list_elem_of_In, nth_In. unfold n in Hi. lia. }
  destruct (sorted_bands r_start row_band (key_row aes setKeys setValues columns w params) RBRow0
    w columns params setKeys) as (Hlb & Hwf & Hsort & Hdep); try done.
  destruct (sorted_rows r_start (key_row aes setKeys setValues columns w params) n RBRow0)
    as (Hl & Hin & Hall & _). fold n in Hlb, Hwf, Hsort, Hdep. fold rows in Hl, Hin, Hall, Hlb, Hwf, Hsort, Hdep.
  assert (Hrhs : ∀ k, nth k (map r_rhs rows) [] = r_rhs (nth k rows RBRow0)).
  { intros k. apply (map_nth r_rhs rows RBRow0). }
  assert (Hbnd : ∀ k, bnd (map row_band rows) k = row_band (nth k rows RBRow0)).
  { intros k. apply (map_nth row_band rows RBRow0). }
  split; [split; [done|]; split; [done|]|].
  - split; [by rewrite length_map|]. intros k Hk. rewrite Hrhs.
    destruct (Hin k Hk) as (i & Hi & ->). by apply Hv.
  - split; [done|]. split; [done|]. intros T Hs i Hi. destruct (Hall i Hi) as (k & Hk & Hrow).
    apply sat_eval; [by apply Hv|]. specialize (Hs k Hk).
    cbn [rs_read vec_rhs] in Hs. by rewrite Hbnd, Hrhs, Hrow in Hs.
Qed.

Lemma flat_rows_system setKeys setValues r w columns params :
  aes_ok aes → 0 < w ≤ 256 → w ≤ columns → length setValues = length setKeys * r →
  let n := length setKeys in
  let rows := stable_sort f_start (map (key_flat_row aes setKeys r columns w params) (seq 0 n)) in
  let rhs := mkFlatRhs r (map f_rhs rows) setValues in
  sys_wf w columns r n (map flat_band rows) rhs ∧
  bands_sorted n (map flat_band rows) ∧
  (dep w columns (map flat_band rows) ↔ keys_dependent w columns params setKeys) ∧
  ∀ T, sys_sat w columns r n T (map flat_band rows) rhs →
    ∀ i, i < n → okvs_eval w columns r params T setKeys.[i] = slice setValues (i * r) r.
Proof.
  intros Ha Hw Hc Hlen n rows rhs.
  destruct (sorted_bands f_start flat_band (key_flat_row aes setKeys r columns w params) RBFlatRow0
    w columns params setKeys) as (Hlb & Hwf & Hsort & Hdep); try done.
  destruct (sorted_rows f_start (key_flat_row aes setKeys r columns w params) n RBFlatRow0)
    as (Hl & Hin & Hall & _). fold n in Hlb, Hwf, Hsort, Hdep. fold rows in Hl, Hin, Hall, Hlb, Hwf, Hsort, Hdep.
  assert (Hoff : ∀ k, nth k (map f_rhs rows) 0 = f_rhs (nth k rows RBFlatRow0)).
  { intros k. apply (map_nth f_rhs rows RBFlatRow0). }
  assert (Hbnd : ∀ k, bnd (map flat_band rows) k = flat_band (nth k rows RBFlatRow0)).
  { intros k. apply (map_nth flat_band rows RBFlatRow0). }
  split; [split; [done|]; split; [done|]|].
  - cbn. split; [done|]. split.
    + intros k Hk. rewrite Hoff. destruct (Hin k Hk) as (i & Hi & ->). cbn.
      rewrite Hlen. by apply row_range.
    + intros k k' Hk Hk' Hne. rewrite !Hoff.
      destruct (Hin k Hk) as (i & Hi & Ei), (Hin k' Hk') as (i' & Hi' & Ei').
      rewrite Ei, Ei'. cbn. destruct (decide (r = 0)) as [->|Hr]; [lia|].
      apply row_disjoint. intros <-. apply Hne.
      assert (Hnd : NoDup (map f_rhs rows)).
      { change (map f_rhs rows) with (f_rhs <$> rows). unfold rows. rewrite stable_sort_perm.
        change (NoDup (map f_rhs (map (key_flat_row aes setKeys r columns w params) (seq 0 n)))).
        rewrite map_map. apply (NoDup_fmap_2_strong (fun i => i * r)); [|apply NoDup_seq].
        intros x y _ _ Hxy. nia. }
      apply (NoDup_lookup (map f_rhs rows) k k' (i * r)); [done| |];
        (rewrite (nth_lookup_some _ _ 0) by (rewrite length_map; lia); rewrite Hoff; by rewrite ?Ei, ?Ei').
  - split; [done|]. split; [done|]. intros T Hs i Hi. destruct (Hall i Hi) as (k & Hk & Hrow).
    assert (i * r + r ≤ length setValues) by (rewrite Hlen; by apply row_range).
    apply sat_eval; [by apply slice_length|]. specialize (Hs k Hk).
    cbn [rs_read flat_rhs fr_data fr_off fr_row rhs] in Hs. by rewrite Hbnd, Hoff, Hrow in Hs.
Qed.

(** * Encoding solves the system, or the keys are dependent *)

(** The rows of a rectangular table. *)
Definition table_wf (columns v : nat) (tb : list (list block)) : Prop :=
  length tb = columns ∧ ∀ c, c < columns → length (nth c tb []) = v.

Lemma RBEncode_spec setKeys setValues tb params cfg v :
  aes_ok aes → setKeys ≠ [] → length setValues = length setKeys →
  0 < v → Forall (fun x => length x = v) setValues →
  RBInfoOf hw std_log2 (length setKeys) params = Ok cfg →
  let w := i_bandWidth cfg in let columns := i_columns cfg in
  (RBEncode hw aes std_log2 setKeys setValues tb params = Ok (false, tb) ∧
   keys_dependent w columns params setKeys) ∨
  (∃ tb', RBEncode hw aes std_log2 setKeys setValues tb params = Ok (true, tb') ∧
    table_wf columns v tb' ∧ ¬ keys_dependent w columns params setKeys ∧
    ∀ i, i < length setKeys →
      okvs_eval w columns v params (fun c => nth c tb' []) setKeys.[i] = nth i setValues []).
Proof.
  intros Ha Hne Hlen Hv Hval Hcfg w columns.
  destruct (RBInfoOf_inv _ _ _ _ _ Hcfg) as (_ & _ & Hw & Hwc & _). fold w columns in Hw, Hwc.
  assert (Hn : length setKeys ≠ 0) by by destruct setKeys.
  unfold RBEncode. rewrite (proj2 (Nat.eqb_neq _ _) Hn), Hcfg. cbn [mbind Res_bind]. fold w columns.
  rewrite (RBRows_spec hw aes setKeys setValues columns w params v) by done. cbn [mbind Res_bind].
  destruct (rows_system setKeys setValues w columns params v) as (Hsys & Hsort & Hdep & Hsat); try done.
  set (rows := stable_sort _ _) in *.
  assert (Hv0 : length (nth 0 setValues []) = v).
  { rewrite Forall_forall in Hval. apply Hval, list_elem_of_In, nth_In. lia. }
  rewrite Hv0.
  destruct (solve_spec w columns v (length setKeys) _ (map r_rhs rows : list (list block)) (replicate columns (replicate v ZeroBlock))
    ltac:(lia) Hsys Hsort) as [[-> Hd]|(b' & r' & p & tb' & -> & Hback & Hwf & Hs & Hd)].
  - cbn. split; [by rewrite length_replicate|]. intros c Hc.
    rewrite nth_lookup, lookup_replicate_2 by done. apply length_replicate.
  - left. split; [done|by apply Hdep].
  - right. exists tb'. cbn [mbind Res_bind]. rewrite Hback. split; [done|]. split; [done|].
    split; [by rewrite <- Hdep|]. by apply Hsat.
Qed.

Lemma RBEncode_table_spec setKeys setValues tb r params cfg :
  aes_ok aes → setKeys ≠ [] → length setValues = length setKeys →
  0 < r → Forall (fun x => length x = r) setValues →
  RBInfoOf hw std_log2 (length setKeys) params = Ok cfg →
  let w := i_bandWidth cfg in let columns := i_columns cfg in
  (RBEncode_table hw aes std_log2 setKeys setValues tb r params = Ok (false, tb) ∧
   keys_dependent w columns params setKeys) ∨
  (∃ tb', RBEncode_table hw aes std_log2 setKeys setValues tb r params = Ok (true, tb') ∧
    length tb' = columns * r ∧ ¬ keys_dependent w columns params setKeys ∧
    ∀ i, i < length setKeys →
      okvs_eval w columns r params (RBRowPtr tb' r) setKeys.[i] = nth i setValues []).
Proof.
  intros Ha Hne Hlen Hv Hval Hcfg w columns.
  destruct (RBInfoOf_inv _ _ _ _ _ Hcfg) as (_ & _ & Hw & Hwc & _). fold w columns in Hw, Hwc.
  assert (Hn : length setKeys ≠ 0) by by destruct setKeys.
  assert (Hv0 : length (nth 0 setValues []) = r).
  { rewrite Forall_forall in Hval. apply Hval, list_elem_of_In, nth_In. lia. }
  unfold RBEncode_table. rewrite Hv0, Hlen, (proj2 (Nat.eqb_neq _ _) Hn), Nat.eqb_refl, Hcfg.
  cbn [orb negb throw_if mbind Res_bind]. fold w columns.
  rewrite (RBRows_spec hw aes setKeys setValues columns w params r) by done. cbn [mbind Res_bind].
  destruct (rows_system setKeys setValues w columns params r) as (Hsys & Hsort & Hdep & Hsat); try done.
  set (rows := stable_sort _ _) in *.
  destruct (solve_spec w columns r (length setKeys) _ (map r_rhs rows : list (list block))
    (mkFlatTable r (replicate (columns * r) ZeroBlock))
    ltac:(lia) Hsys Hsort) as [[-> Hd]|(b' & r' & p & tb' & -> & Hback & Hwf & Hs & Hd)].
  - cbn. by rewrite length_replicate.
  - left. split; [done|by apply Hdep].
  - right. exists (ft_data tb'). cbn [mbind Res_bind]. rewrite Hback. destruct Hwf as [Hr Hl].
    split; [done|]. split; [done|]. split; [by rewrite <- Hdep|].
    destruct tb' as [r1 d]. cbn in Hr |- *. subst r1. by apply Hsat.
Qed.

Lemma RBEncode_flat_spec setKeys setValues tb r params cfg :
  aes_ok aes → setKeys ≠ [] → length setValues = length setKeys * r → 0 < r →
  RBInfoOf hw std_log2 (length setKeys) params = Ok cfg →
  let w := i_bandWidth cfg in let columns := i_columns cfg in
  (RBEncode_flat hw aes std_log2 setKeys setValues r tb params = Ok (false, tb) ∧
   keys_dependent w columns params setKeys) ∨
  (∃ tb', RBEncode_flat hw aes std_log2 setKeys setValues r tb params = Ok (true, tb') ∧
    length tb' = columns * r ∧ ¬ keys_dependent w columns params setKeys ∧
    ∀ i, i < length setKeys →
      okvs_eval w columns r params (RBRowPtr tb' r) setKeys.[i] = slice setValues (i * r) r).
Proof.
  intros Ha Hne Hlen Hv Hcfg w columns.
  destruct (RBInfoOf_inv _ _ _ _ _ Hcfg) as (_ & _ & Hw & Hwc & _). fold w columns in Hw, Hwc.
  assert (Hn : length setKeys ≠ 0) by by destruct setKeys.
  unfold RBEncode_flat.
  rewrite Hlen, (proj2 (Nat.eqb_neq _ _) Hn), Nat.eqb_refl, (proj2 (Nat.eqb_neq r 0)), Hcfg by lia.
  cbn [orb negb throw_if mbind Res_bind]. fold w columns.
  rewrite (RBRowsFlat_spec hw aes setKeys setValues r columns w params) by done. cbn [mbind Res_bind].
  destruct (flat_rows_system setKeys setValues r w columns params) as (Hsys & Hsort & Hdep & Hsat); try done.
  set (rows := stable_sort _ _) in *.
  destruct (solve_spec w columns r (length setKeys) _ (mkFlatRhs r (map f_rhs rows) setValues)
    (mkFlatTable r (replicate (columns * r) ZeroBlock))
    ltac:(lia) Hsys Hsort) as [[-> Hd]|(b' & r' & p & tb' & -> & Hback & Hwf & Hs & Hd)].
  - cbn. by rewrite length_replicate.
  - left. split; [done|by apply Hdep].
  - right. exists (ft_data tb'). cbn [mbind Res_bind]. rewrite Hback. destruct Hwf as [Hr Hl].
    split; [done|]. split; [done|]. split; [by rewrite <- Hdep|].
    destruct tb' as [r1 d]. cbn in Hr |- *. subst r1. by apply Hsat.
Qed.

(** * Decoding evaluates the equations *)

(** The sum one key adds to its output row. *)
Definition band_sum (w : nat) (b : Band) (T : nat → list block) (k : nat) : Z :=
  xs w (fun j => if RBBit (b_bits b) j then (T (b_start b + j)).[k] else 0%Z).

Section Loop.
Context {O : Type} (read : O → nat → list block) (wf : O → Prop) (T : nat → list block).
Context (acc : nat → nat → O → Res O) (n v columns : nat).
Hypothesis Hread : ∀ o i, wf o → i < n → length (read o i) = v.
Hypothesis HT : ∀ c, c < columns → length (T c) = v.
Hypothesis Hacc : ∀ o i col, wf o → i < n → col < columns →
  ∃ o', acc i col o = Ok o' ∧ wf o' ∧ read o' i = xorv (read o i) (T col) ∧
    ∀ i', i' < n → i' ≠ i → read o' i' = read o i'.

Lemma RBDecodeRow_spec w b i o : wf o → i < n → b_start b + w ≤ columns →
  ∃ o', RBDecodeRow w columns (b_start b) (b_bits b) (acc i) o = Ok o' ∧ wf o' ∧
    (∀ k, k < v → (read o' i).[k] = Z.lxor (read o i).[k] (band_sum w b T k)) ∧
    ∀ i', i' < n → i' ≠ i → read o' i' = read o i'.
Proof.
  intros Ho Hi Hb. unfold RBDecodeRow, band_sum.
  set (term := fun k j => if RBBit (b_bits b) j then (T (b_start b + j)).[k] else 0%Z).
  set (P := fun j o' => wf o' ∧ (∀ k, k < v → (read o' i).[k] = Z.lxor (read o i).[k] (xs j (term k)))
    ∧ ∀ i', i' < n → i' ≠ i → read o' i' = read o i').
  lazymatch goal with |- context [forC 0 w ?f o] =>
    destruct (forC_inv P (P w) (fun _ : Empty_set => True) 0 w f o) as ([o'|[]] & -> & Ho') end.
  - lia.
  - split; [done|]. split; [|done]. intros k Hk. cbn. by rewrite Z.lxor_0_r.
  - intros j o1 Hj (Hwf & Hsum & Hoth). destruct (RBBit (b_bits b) j) eqn:Hbit; cbn [negb].
    + nat_cmp. destruct (Hacc o1 i (b_start b + j)) as (o2 & -> & Hwf2 & Hr2 & Ho2); [done|done|lia|].
      eexists. split; [done|]. split; [done|]. split.
      * intros k Hk. assert (length (T (b_start b + j)) = v) by (apply HT; lia).
        rewrite Hr2, xorv_nth, Hsum by (rewrite ?Hread; done).
        cbn [xs]. unfold term at 3. rewrite Hbit. by rewrite Z.lxor_assoc.
      * intros i' Hi' Hne. rewrite Ho2 by done. by apply Hoth.
    + eexists. split; [done|]. split; [done|]. split; [|done]. intros k Hk.
      rewrite Hsum by done. cbn [xs]. unfold term at 3. by rewrite Hbit, Z.lxor_0_r.
  - done.
  - exists o'. done.
Qed.

Lemma RBDecodeLoop_spec setKeys w params o : aes_ok aes → 0 < w ≤ 256 → w ≤ columns →
  length setKeys = n → wf o → (∀ i, i < n → read o i = replicate v 0%Z) →
  ∃ o', RBDecodeLoop hw aes setKeys columns w params acc o = Ok o' ∧ wf o' ∧
    ∀ i, i < n → read o' i = okvs_eval w columns v params T setKeys.[i].
Proof.
  intros Ha Hw Hc Hn Ho Hzero. unfold RBDecodeLoop. rewrite RBFor_loop, Hn. cbv zeta.
  set (P := fun i o' => wf o' ∧ (∀ x, x < n →
    read o' x = if x <? i then okvs_eval w columns v params T setKeys.[x] else replicate v 0%Z)).
  lazymatch goal with |- context [forR 0 n ?f o] =>
    destruct (forR_inv P 0 n f o) as (o' & Hrun & Hwf & Hr) end.
  - lia.
  - split; [done|]. intros x Hx. nat_cmp. by apply Hzero.
  - intros i o1 Hi [Hwf Hr].
    pose proof (key_band_wf columns w params setKeys.[i] Ha Hw Hc) as (_ & _ & Hb).
    destruct (RBKeyBits_Ok aes w (RBMakeHashCtx params) setKeys.[i] Ha Hw) as [-> _].
    cbn [mbind Res_bind].
    destruct (RBDecodeRow_spec w (key_band columns w params setKeys.[i]) i o1) as (o2 & Hrun & Hwf2 & Hr2 & Ho2);
      [done|lia|done|]. cbn [key_band b_start b_bits] in Hrun. rewrite Hrun.
    eexists. split; [done|]. split; [done|]. intros x Hx.
    destruct (Nat.lt_trichotomy x i) as [Hxi|[->|Hxi]].
    + rewrite Ho2, Hr by lia. by nat_cmp.
    + nat_cmp. apply list_eq_nth; [rewrite Hread by done; unfold okvs_eval; by rewrite length_map, length_seq|].
      rewrite Hread by done. intros k Hk. rewrite Hr2, Hr by done. nat_cmp.
      rewrite nth_replicate, decide_True, Z.lxor_0_l by done.
      unfold okvs_eval. rewrite (nth_lookup (map _ _)). change (map ?f ?l) with (f <$> l).
      rewrite list_lookup_fmap, lookup_seq_lt by done. cbn. symmetry. by apply dot_band.
    + rewrite Ho2, Hr by lia. by nat_cmp.
  - exists o'. split; [exact Hrun|]. split; [done|]. intros i Hi. rewrite Hr by done. by nat_cmp.
Qed.
End Loop.

Lemma RBDecodeWidth_Ok n columns params w : RBDecodeWidth std_log2 n columns params = Ok w ↔
  (p_columns params = 0 ∨ p_columns params = columns) ∧
  RBTableW std_log2 n columns params = Ok w ∧ w ≤ 256 ∧ w ≤ columns.
Proof.
  unfold RBDecodeWidth. split.
  - intros H. inv_ok. rewrite !Nat.ltb_ge in *. split; [|done].
    destruct (Nat.eqb_spec (p_columns params) 0), (Nat.eqb_spec (p_columns params) columns); auto; done.
  - intros (Hc & Hw & H1 & H2). rewrite throw_if_false.
    + cbn [mbind Res_bind]. rewrite Hw. cbn [mbind Res_bind]. by nat_cmp.
    + destruct Hc as [->| ->]; [done|]. rewrite (Nat.eqb_refl columns). apply andb_false_r.
Qed.

Lemma list_outputs {A} (out : list (list block)) (g : A → list block) keys d :
  length out = length keys → (∀ i, i < length keys → nth i out [] = g (nth i keys d)) →
  out = map g keys.
Proof.
  intros Hl H. apply (nth_ext _ _ [] (g d)); [by rewrite length_map|].
  intros i Hi. rewrite map_nth. apply H. lia.
Qed.

Lemma RBDecode_spec tb setKeys params w columns v :
  aes_ok aes → table_wf columns v tb → 0 < w →
  RBDecodeWidth std_log2 (length setKeys) columns params = Ok w →
  RBDecode hw aes std_log2 tb setKeys params =
  Ok (map (okvs_eval w columns v params (fun c => nth c tb [])) setKeys).
Proof.
  intros Ha [Hl Htb] Hw Hdw. pose proof (proj1 (RBDecodeWidth_Ok _ _ _ _) Hdw) as (_ & _ & Hw1 & Hw2).
  unfold RBDecode. rewrite Hl, (Htb 0), Hdw by lia. nat_cmp. cbn [mbind Res_bind].
  set (n := length setKeys).
  destruct (RBDecodeLoop_spec (fun o i => nth i o [])
    (fun o : list (list block) => length o = n ∧ ∀ i, i < n → length (nth i o []) = v)
    (fun c => nth c tb [])
    (fun i col (out : list (list block)) => mret (<[i :=
      for_ 0 v (fun k row => <[k := Z.lxor row.[k] (nth col tb []).[k]]> row) (nth i out [])]> out))
    n v columns) with (setKeys := setKeys) (w := w) (params := params)
    (o := replicate n (replicate v ZeroBlock)) as (o' & -> & [Hlo Ho] & Hout); try done; try lia.
  - intros o i [_ H]. by apply H.
  - intros o i col [Hlo Ho] Hi Hcol. eexists. split; [done|].
    rewrite xor_loop_xorv by (apply Ho || apply Htb; done).
    assert (Hne : ∀ x i', i' ≠ i → nth i' (<[i:=x]> o) [] = nth i' o []) by (intros; by rewrite nth_insert_ne).
    rewrite length_insert, nth_insert_eq by lia. repeat split; auto. intros i' Hi'.
    destruct (decide (i' = i)) as [->|]; [|rewrite Hne by done; by apply Ho].
    rewrite nth_insert_eq, xorv_length by (rewrite ?Ho, ?Htb; lia). by apply Ho.
  - rewrite length_replicate. split; [done|]. intros i Hi.
    rewrite nth_lookup, lookup_replicate_2 by done. apply length_replicate.
  - intros i Hi. by rewrite nth_lookup, lookup_replicate_2 by done.
  - f_equal. by apply (list_outputs o' _ setKeys 0%Z).
Qed.

Lemma RBDecode_table_spec tb r setKeys params w columns :
  aes_ok aes → 0 < r → length tb = columns * r → 0 < w →
  RBDecodeWidth std_log2 (length setKeys) columns params = Ok w →
  RBDecode_table hw aes std_log2 tb r setKeys params =
  Ok (map (okvs_eval w columns r params (RBRowPtr tb r)) setKeys).
Proof.
  intros Ha Hr Hl Hw Hdw. pose proof (proj1 (RBDecodeWidth_Ok _ _ _ _) Hdw) as (_ & _ & Hw1 & Hw2).
  unfold RBDecode_table. assert (length tb ≠ 0) by nia. nat_cmp.
  rewrite Hl, Nat.Div0.mod_mul, Nat.div_mul by lia. cbn [Nat.eqb negb throw_if mbind Res_bind].
  rewrite Hdw. cbn [mbind Res_bind]. set (n := length setKeys).
  assert (Hrow : ∀ c, c < columns → length (RBRowPtr tb r c) = r).
  { intros c Hc. apply slice_length. rewrite Hl. by apply row_range. }
  destruct (RBDecodeLoop_spec (fun o i => nth i o [])
    (fun o : list (list block) => length o = n ∧ ∀ i, i < n → length (nth i o []) = r)
    (RBRowPtr tb r)
    (fun i col (out : list (list block)) =>
      row ← RBXorPtr (nth i out []) (RBRowPtr tb r col); mret (<[i := row]> out))
    n r columns) with (setKeys := setKeys) (w := w) (params := params)
    (o := replicate n (replicate r ZeroBlock)) as (o' & -> & [Hlo Ho] & Hout); try done; try lia.
  - intros o i [_ H']. by apply H'.
  - intros o i col [Hlo Ho] Hi Hcol. unfold RBXorPtr. rewrite Ho, Hrow, Nat.eqb_refl by done.
    cbn. eexists. split; [done|].
    assert (Hne : ∀ x i', i' ≠ i → nth i' (<[i:=x]> o) [] = nth i' o []) by (intros; by rewrite nth_insert_ne).
    rewrite length_insert, nth_insert_eq by lia. repeat split; auto. intros i' Hi'.
    destruct (decide (i' = i)) as [->|]; [|rewrite Hne by done; by apply Ho].
    rewrite nth_insert_eq, xorv_length by (rewrite ?Ho, ?Hrow; lia). by apply Ho.
  - rewrite length_replicate. split; [done|]. intros i Hi.
    rewrite nth_lookup, lookup_replicate_2 by done. apply length_replicate.
  - intros i Hi. by rewrite nth_lookup, lookup_replicate_2 by done.
  - f_equal. by apply (list_outputs o' _ setKeys 0%Z).
Qed.

Lemma RBDecode_flat_spec tb r setKeys params w columns :
  aes_ok aes → 0 < r → length tb = columns * r → 0 < w →
  RBDecodeWidth std_log2 (length setKeys) columns params = Ok w →
  RBDecode_flat hw aes std_log2 tb r setKeys params =
  Ok (List.concat (map (okvs_eval w columns r params (RBRowPtr tb r)) setKeys)).
Proof.
  intros Ha Hr Hl Hw Hdw. pose proof (proj1 (RBDecodeWidth_Ok _ _ _ _) Hdw) as (_ & _ & Hw1 & Hw2).
  unfold RBDecode_flat. assert (length tb ≠ 0) by nia. nat_cmp.
  rewrite Hl, Nat.Div0.mod_mul, Nat.div_mul by lia. cbn [Nat.eqb negb throw_if mbind Res_bind].
  rewrite Hdw. cbn [mbind Res_bind]. set (n := length setKeys).
  assert (Hrow : ∀ c, c < columns → length (RBRowPtr tb r c) = r).
  { intros c Hc. apply slice_length. rewrite Hl. by apply row_range. }
  destruct (RBDecodeLoop_spec (fun o i => slice o (i * r) r)
    (fun o : list block => length o = n * r) (RBRowPtr tb r)
    (fun i col (out : list block) => mret (for_ 0 r (fun k out =>
        <[i * r + k := Z.lxor out.[i * r + k] (RBRowPtr tb r col).[k]]> out) out))
    n r columns) with (setKeys := setKeys) (w := w) (params := params)
    (o := replicate (n * r) ZeroBlock) as (o' & -> & Ho & Hout); try done; try lia.
  - intros o i Ho Hi. apply slice_length. rewrite Ho. by apply row_range.
  - intros o i col Ho Hi Hcol. pose proof (row_range i n r Hi). eexists. split; [done|].
    pose proof (fun j => xor_at_nth (i * r) r (fun k => (RBRowPtr tb r col).[k]) o j ltac:(lia)) as Hx.
    set (o2 := for_ _ _ _ _) in *. pose proof (proj2 (Hx 0)) as Hl2. split; [congruence|]. split.
    + apply list_eq_nth; [rewrite xorv_length, !slice_length; rewrite ?slice_length, ?Hrow; lia|].
      rewrite slice_length by lia. intros k Hk.
      rewrite xorv_nth, !slice_nth, (proj1 (Hx _)) by (rewrite ?slice_length, ?Hrow; lia).
      nat_cmp. by replace (i * r + k - i * r) with k by lia.
    + intros i' Hi' Hne. pose proof (row_range i' n r Hi'). pose proof (row_disjoint i' i r Hne).
      apply list_eq_nth; [rewrite !slice_length; lia|]. rewrite slice_length by lia. intros k Hk.
      rewrite !slice_nth, (proj1 (Hx _)) by done.
      destruct (Nat.leb_spec (i * r) (i' * r + k)); cbn [andb]; [|done]. by nat_cmp.
  - apply length_replicate.
  - intros i Hi. pose proof (row_range i n r Hi). apply list_eq_nth.
    + rewrite slice_length, length_replicate; [done|]. rewrite length_replicate. lia.
    + rewrite slice_length by (rewrite length_replicate; lia). intros k Hk.
      rewrite slice_nth, !nth_replicate, !decide_True by lia. done.
  - f_equal. apply (slices_concat o' _ r); rewrite length_map; [done|]. intros i Hi.
    rewrite Hout by done. symmetry. rewrite nth_lookup. change (map ?f ?l) with (f <$> l).
    rewrite list_lookup_fmap, (nth_lookup_Z setKeys) by done. done.
Qed.

(** Row [j] of the decoded rows. *)
Lemma decoded_row tb r setKeys params w columns j key : setKeys !! j = Some key →
  slice (List.concat (map (okvs_eval w columns r params (RBRowPtr tb r)) setKeys)) (j * r) r
  = okvs_eval w columns r params (RBRowPtr tb r) key.
Proof.
  intros Hj. pose proof (lookup_lt_Some _ _ _ Hj). rewrite (concat_slice _ r).
  - apply nth_lookup_Some. change (map ?f ?l) with (f <$> l). by rewrite list_lookup_fmap, Hj.
  - intros l Hl. apply list_elem_of_In, in_map_iff in Hl as (k & <- & _). unfold okvs_eval. by rewrite length_map, length_seq.
  - by rewrite length_map.
Qed.

Lemma decoded_length tb r setKeys params w columns :
  length (List.concat (map (okvs_eval w columns r params (RBRowPtr tb r)) setKeys)) = length setKeys * r.
Proof.
  induction setKeys as [|k l IH]; cbn; [done|]. rewrite length_app, IH. unfold okvs_eval. by rewrite length_map, length_seq.
Qed.
End Spec.
