(* ===== verification/RbOkvs.v ===== *)
(** The contract of the RB-OKVS: encoding and decoding are inverse on the encoded keys,
    encoding fails exactly on linearly dependent key masks, and malformed input is rejected. *)
From Stdlib Require Import SpecFloat.
From S2P Require Import Prelude Words Parallel RbBits Fit RbRows RbSolve RbCodec.
Open Scope nat_scope.

(** * Successful runs checked their input *)

Lemma forR_Ok_each {S} lo hi (body : nat → S → Res S) s s' :
  forR lo hi body s = Ok s' → ∀ i, lo ≤ i < hi → ∃ s1 s2, body i s1 = Ok s2.
Proof.
  unfold forR. remember (hi - lo) as k eqn:Hk. revert lo s Hk.
  induction k as [|k IH]; intros lo s Hk H i Hi; [lia|]. cbn in H.
  destruct (body lo s) as [s1|] eqn:E; [|done]. destruct (decide (i = lo)) as [->|]; [by eauto|].
  apply (IH (Datatypes.S lo) s1); [lia|done|lia].
Qed.

Section Contract.
Context (hw : nat) (aes : block → block → block) (std_log2 : double → double).

(** Values a caller of the nested overloads may pass. *)
Definition values_ok (setKeys : list block) (setValues : list (list block)) : Prop :=
  length setValues = length setKeys ∧ 0 < length (nth 0 setValues []) ∧
  Forall (fun x => length x = length (nth 0 setValues [])) setValues.

Lemma RBRows_Ok setKeys setValues columns w params rows :
  setKeys ≠ [] → RBRows hw aes setKeys setValues columns w params = Ok rows →
  values_ok setKeys setValues.
Proof.
  intros Hne H. unfold RBRows in H. inv_ok.
  destruct (Nat.eqb_spec (length setKeys) 0); [by destruct setKeys|]. inv_ok.
  rewrite negb_false_iff, Nat.eqb_eq in *. rewrite Nat.eqb_neq in *.
  split; [done|]. split; [lia|]. apply Forall_lookup. intros i val Hx.
  rewrite RBFor_loop in *. cbv zeta in *.
  lazymatch goal with H : forR _ _ _ _ = Ok _ |- _ =>
    destruct (forR_Ok_each _ _ _ _ _ H i) as (s1 & s2 & Hi) end.
  { apply lookup_lt_Some in Hx. lia. }
  inv_ok. rewrite negb_false_iff, Nat.eqb_eq in *.
  lazymatch goal with H : length (nth i setValues []) = _ |- _ =>
    by rewrite (nth_lookup_Some _ _ _ _ Hx) in H end.
Qed.

(** Encoder and decoder derive the same shape from these parameters for [n] keys: the table
    has the size the caller asked for, and the fit does not give a zero width. *)
Definition params_agree (n : nat) (params : RBParams) : Prop :=
  (p_columns params = 0 ∨ n ≤ p_columns params) ∧
  RBTableW std_log2 n (RBTableSize n params) params ≠ Ok 0.

Lemma params_agree_width n params cfg : n ≠ 0 → params_agree n params →
  RBInfoOf hw std_log2 n params = Ok cfg →
  0 < i_bandWidth cfg ∧ 0 < i_columns cfg ∧
  RBDecodeWidth std_log2 n (i_columns cfg) params = Ok (i_bandWidth cfg).
Proof.
  intros Hn [Hc Hw] H. destruct (RBInfoOf_inv _ _ _ _ _ H) as (_ & Hcol & Hb & Hbc & w & Htw & Hbw).
  rewrite Nat.max_l in * by lia. rewrite <- Hcol in Hw.
  destruct (Nat.eqb_spec w 0) as [->|]; [done|]. split; [lia|]. split; [lia|].
  apply RBDecodeWidth_Ok. rewrite Hbw. split; [|split; [done|lia]].
  destruct Hc as [|Hc]; [by left|]. rewrite Hcol. unfold RBTableSize.
  destruct (Nat.eqb_spec (p_columns params) 0); [by left|]. right. cbn [negb]. lia.
Qed.

(** The hypotheses under which the fitted width is positive. *)
Lemma params_agree_fixed n params :
  p_columns params = 0 ∨ n ≤ p_columns params → p_bandWidth params ≠ 0 → params_agree n params.
Proof.
  intros Hc Hb. split; [done|]. unfold RBTableW. apply Nat.eqb_neq in Hb as E. rewrite E. cbn.
  by intros [= ?].
Qed.

Lemma params_agree_default n params : n ≤ 2048 →
  p_columns params = 0 → dlt (S754_zero false) (p_eps params) = false → params_agree n params.
Proof.
  intros Hn Hc He. split; [by left|]. unfold RBTableW. rewrite Hc, He. cbn [Nat.eqb negb orb].
  destruct (Nat.eqb_spec (p_bandWidth params) 0); cbn [negb]; [|by intros [= ?]].
  unfold RBWidth. repeat case_match; try (by intros [= ?]).
  rewrite !Nat.leb_gt in *. lia.
Qed.

(** * Inversion of successful encodings *)

Lemma RBEncode_inv setKeys setValues tb0 params tb :
  aes_ok aes → setKeys ≠ [] →
  RBEncode hw aes std_log2 setKeys setValues tb0 params = Ok (true, tb) →
  ∃ cfg v, RBInfoOf hw std_log2 (length setKeys) params = Ok cfg ∧
    length setValues = length setKeys ∧ table_wf (i_columns cfg) v tb ∧
    ∀ i, i < length setKeys → okvs_eval aes (i_bandWidth cfg) (i_columns cfg) v params
      (fun c => nth c tb []) setKeys.[i] = nth i setValues [].
Proof.
  intros Ha Hne H. pose proof H as Hrun. unfold RBEncode in H.
  destruct (Nat.eqb_spec (length setKeys) 0); [by destruct setKeys|]. inv_ok.
  destruct (RBRows_Ok _ _ _ _ _ _ Hne ltac:(eassumption)) as (Hl & Hv & Hval).
  exists x, (length (nth 0 setValues [])).
  destruct (RBEncode_spec hw aes std_log2 setKeys setValues tb0 params x _ Ha Hne Hl Hv Hval)
    as [[E _]|(tb' & E & Hwf & _ & Heval)]; [done|congruence|].
  rewrite Hrun in E. injection E as <-. done.
Qed.

Lemma RBEncode_table_inv setKeys setValues tb0 r params tb :
  aes_ok aes → setKeys ≠ [] →
  RBEncode_table hw aes std_log2 setKeys setValues tb0 r params = Ok (true, tb) →
  ∃ cfg, RBInfoOf hw std_log2 (length setKeys) params = Ok cfg ∧ 0 < r ∧
    length setValues = length setKeys ∧ length tb = i_columns cfg * r ∧
    ∀ i, i < length setKeys → okvs_eval aes (i_bandWidth cfg) (i_columns cfg) r params
      (RBRowPtr tb r) setKeys.[i] = nth i setValues [].
Proof.
  intros Ha Hne H. pose proof H as Hrun. unfold RBEncode_table in H.
  destruct (Nat.eqb_spec (length setKeys) 0); [by destruct setKeys|]. inv_ok.
  lazymatch goal with E : _ || _ = false |- _ => apply orb_false_iff in E as [_ E%negb_false_iff%Nat.eqb_eq] end.
  destruct (RBRows_Ok _ _ _ _ _ _ Hne ltac:(eassumption)) as (Hl & Hv & Hval).
  subst r. lazymatch goal with E : RBInfoOf _ _ _ _ = Ok ?c |- _ => exists c;
  destruct (RBEncode_table_spec hw aes std_log2 setKeys setValues tb0 _ params c Ha Hne Hl Hv Hval E)
    as [[E' _]|(tb' & E' & Hwf & _ & Heval)] end; [congruence|].
  rewrite Hrun in E'. injection E' as <-. done.
Qed.

Lemma RBEncode_flat_inv setKeys setValues r tb0 params tb :
  aes_ok aes → setKeys ≠ [] →
  RBEncode_flat hw aes std_log2 setKeys setValues r tb0 params = Ok (true, tb) →
  ∃ cfg, RBInfoOf hw std_log2 (length setKeys) params = Ok cfg ∧ 0 < r ∧
    length setValues = length setKeys * r ∧ length tb = i_columns cfg * r ∧
    ∀ i, i < length setKeys → okvs_eval aes (i_bandWidth cfg) (i_columns cfg) r params
      (RBRowPtr tb r) setKeys.[i] = slice setValues (i * r) r.
Proof.
  intros Ha Hne H. pose proof H as Hrun. unfold RBEncode_flat in H.
  destruct (Nat.eqb_spec (length setKeys) 0); [by destruct setKeys|]. inv_ok.
  lazymatch goal with E : _ || _ = false |- _ =>
    apply orb_false_iff in E as [Hr%Nat.eqb_neq Hl%negb_false_iff%Nat.eqb_eq] end.
  assert (Hr0 : 0 < r) by lia.
  lazymatch goal with E : RBInfoOf _ _ _ _ = Ok ?c |- _ => exists c;
  destruct (RBEncode_flat_spec hw aes std_log2 setKeys setValues tb0 r params c Ha Hne Hl Hr0 E)
    as [[E' _]|(tb' & E' & Hwf & _ & Heval)] end; [congruence|].
  rewrite Hrun in E'. injection E' as <-. done.
Qed.

(** * Round trips *)


(** The same for nested values and a flat table. *)
Theorem RBEncode_table_RBDecode_table setKeys setValues tb0 r params tb queries :
  aes_ok aes → params_agree (length setKeys) params →
  RBEncode_table hw aes std_log2 setKeys setValues tb0 r params = Ok (true, tb) →
  length queries = length setKeys →
  ∃ out, RBDecode_table hw aes std_log2 tb r queries params = Ok out ∧ length out = length queries ∧
    ∀ i j key, setKeys !! i = Some key → queries !! j = Some key → out !! j = setValues !! i.
Proof.
  intros Ha Hagree Henc Hlen. destruct (decide (setKeys = [])) as [->|Hne].
  { destruct queries; [|done]. injection Henc as <-. by exists []. }
  destruct (RBEncode_table_inv _ _ _ _ _ _ Ha Hne Henc) as (cfg & Hcfg & Hr & Hvals & Hwf & Heval).
  assert (Hn : length setKeys ≠ 0) by by destruct setKeys.
  destruct (params_agree_width _ _ _ Hn Hagree Hcfg) as (Hw & Hcol & Hdw).
  rewrite (RBDecode_table_spec _ _ _ _ _ _ _ _ _ Ha Hr Hwf Hw) by by rewrite Hlen.
  eexists. split; [done|]. split; [by rewrite length_map|]. intros i j key Hi Hj.
  pose proof (lookup_lt_Some _ _ _ Hi) as Hil.
  change (map ?f ?l) with (f <$> l). rewrite list_lookup_fmap, Hj. cbn.
  rewrite (nth_lookup_some setValues i []) by lia. rewrite <- Heval by done.
  by rewrite (nth_lookup_Some _ _ _ _ Hi).
Qed.

(** C5 The same for flat values and a flat table: row [j] of the output is the value row of
    the [i]-th encoded key whenever query [j] is key [i]. *)
Theorem RBEncode_flat_RBDecode_flat setKeys setValues r tb0 params tb queries :
  aes_ok aes → params_agree (length setKeys) params →
  RBEncode_flat hw aes std_log2 setKeys setValues r tb0 params = Ok (true, tb) →
  length queries = length setKeys →
  ∃ out, RBDecode_flat hw aes std_log2 tb r queries params = Ok out ∧
    length out = length queries * r ∧
    ∀ i j key, setKeys !! i = Some key → queries !! j = Some key →
      slice out (j * r) r = slice setValues (i * r) r.
Proof.
  intros Ha Hagree Henc Hlen. destruct (decide (setKeys = [])) as [->|Hne].
  { destruct queries; [|done]. injection Henc as <-. by exists []. }
  destruct (RBEncode_flat_inv _ _ _ _ _ _ Ha Hne Henc) as (cfg & Hcfg & Hr & Hvals & Hwf & Heval).
  assert (Hn : length setKeys ≠ 0) by by destruct setKeys.
  destruct (params_agree_width _ _ _ Hn Hagree Hcfg) as (Hw & Hcol & Hdw).
  rewrite (RBDecode_flat_spec _ _ _ _ _ _ _ _ _ Ha Hr Hwf Hw) by by rewrite Hlen.
  eexists. split; [done|]. split; [apply decoded_length|]. intros i j key Hi Hj.
  rewrite (decoded_row _ _ _ _ _ _ _ _ _ Hj), <- Heval by (by eapply lookup_lt_Some).
  by rewrite (nth_lookup_Some _ _ _ _ Hi).
Qed.

End Contract.

(** * Completeness, duplicate keys and validation *)

Section Failure.
Context (hw : nat) (aes : block → block → block) (std_log2 : double → double).

(** On well-formed input the nested [RBEncode] always returns; it returns [true] exactly
    when the masks of the keys are linearly independent over GF(2), and otherwise leaves the
    caller's table untouched.  The values never decide. *)
Theorem RBEncode_complete setKeys setValues tb0 params cfg :
  aes_ok aes → setKeys ≠ [] → values_ok setKeys setValues →
  RBInfoOf hw std_log2 (length setKeys) params = Ok cfg →
  ∃ ok tb, RBEncode hw aes std_log2 setKeys setValues tb0 params = Ok (ok, tb) ∧
    (ok = true ↔ ¬ keys_dependent aes (i_bandWidth cfg) (i_columns cfg) params setKeys) ∧
    (ok = false → tb = tb0).
Proof.
  intros Ha Hne (Hl & Hv & Hval) Hcfg.
  destruct (RBEncode_spec hw aes std_log2 setKeys setValues tb0 params cfg _ Ha Hne Hl Hv Hval Hcfg)
    as [[E Hd]|(tb & E & _ & Hd & _)]; eexists _, _; (split; [exact E|]); by split; [split|].
Qed.

(** C6 The same for the flat overload, which the protocol uses. *)
Theorem RBEncode_flat_complete setKeys setValues r tb0 params cfg :
  aes_ok aes → setKeys ≠ [] → 0 < r → length setValues = length setKeys * r →
  RBInfoOf hw std_log2 (length setKeys) params = Ok cfg →
  ∃ ok tb, RBEncode_flat hw aes std_log2 setKeys setValues r tb0 params = Ok (ok, tb) ∧
    (ok = true ↔ ¬ keys_dependent aes (i_bandWidth cfg) (i_columns cfg) params setKeys) ∧
    (ok = false → tb = tb0).
Proof.
  intros Ha Hne Hr Hl Hcfg.
  destruct (RBEncode_flat_spec hw aes std_log2 setKeys setValues tb0 r params cfg Ha Hne Hl Hr Hcfg)
    as [[E Hd]|(tb & E & _ & Hd & _)]; eexists _, _; (split; [exact E|]); by split; [split|].
Qed.

Lemma duplicate_dependent w columns params setKeys i j key :
  i < j → setKeys !! i = Some key → setKeys !! j = Some key →
  keys_dependent aes w columns params setKeys.
Proof.
  intros Hij Hi Hj. apply (dep_dup _ _ _ i j); [done| |].
  - rewrite length_map. by eapply lookup_lt_Some.
  - rewrite !nth_lookup. change (map ?f ?l) with (f <$> l). by rewrite !list_lookup_fmap, Hi, Hj.
Qed.

(** A repeated key is never encoded: the flat [RBEncode] returns [false] and keeps the
    table, whatever values the two occurrences carry (even equal ones). *)
Theorem RBEncode_flat_duplicate setKeys setValues r tb0 params cfg i j key :
  aes_ok aes → 0 < r → length setValues = length setKeys * r →
  RBInfoOf hw std_log2 (length setKeys) params = Ok cfg →
  i < j → setKeys !! i = Some key → setKeys !! j = Some key →
  RBEncode_flat hw aes std_log2 setKeys setValues r tb0 params = Ok (false, tb0).
Proof.
  intros Ha Hr Hl Hcfg Hij Hi Hj. assert (Hne : setKeys ≠ []) by by intros ->.
  destruct (RBEncode_flat_spec hw aes std_log2 setKeys setValues tb0 r params cfg Ha Hne Hl Hr Hcfg)
    as [[E _]|(tb & _ & _ & Hd & _)]; [done|].
  destruct Hd. by eapply duplicate_dependent.
Qed.

(** The nested [RBEncode] accepts a non-empty key list exactly when the values form a
    rectangular, non-empty matrix with one row per key; every other input raises. *)
Theorem RBEncode_accepts setKeys setValues tb0 params cfg :
  aes_ok aes → setKeys ≠ [] → RBInfoOf hw std_log2 (length setKeys) params = Ok cfg →
  is_ok (RBEncode hw aes std_log2 setKeys setValues tb0 params) = true ↔
  values_ok setKeys setValues.
Proof.
  intros Ha Hne Hcfg. split.
  - intros H. unfold RBEncode in H. destruct (Nat.eqb_spec (length setKeys) 0); [by destruct setKeys|].
    rewrite Hcfg in H. cbn [mbind Res_bind] in H.
    destruct (RBRows hw aes setKeys setValues _ _ _) as [rows|] eqn:E; [|done].
    by apply (RBRows_Ok _ _ _ _ _ _ _ _ Hne E).
  - intros (Hl & Hv & Hval).
    destruct (RBEncode_spec hw aes std_log2 setKeys setValues tb0 params cfg _ Ha Hne Hl Hv Hval Hcfg)
      as [[-> _]|(tb & -> & _)]; done.
Qed.

(** C31 A caller who asks for fewer columns than keys gets a table he cannot decode: the
    encoder silently enlarges [params.columns] to the number of keys, and the decoder, given
    the same parameters, rejects the table it produced. *)
Theorem RBEncode_columns_clamped setKeys setValues tb0 params tb queries :
  aes_ok aes → 0 < p_columns params → p_columns params < length setKeys →
  RBEncode hw aes std_log2 setKeys setValues tb0 params = Ok (true, tb) →
  length tb = length setKeys ∧
  RBDecode hw aes std_log2 tb queries params =
    Throw (InvalidArgument "RBDecode columns mismatch").
Proof.
  intros Ha Hc0 Hc Henc. assert (Hne : setKeys ≠ []) by (intros ->; cbn in Hc; lia).
  destruct (RBEncode_inv _ _ _ _ _ _ _ _ Ha Hne Henc) as (cfg & v & Hcfg & _ & [Hl _] & _).
  destruct (RBInfoOf_inv _ _ _ _ _ Hcfg) as (_ & Hcol & _).
  assert (Hlen : length tb = length setKeys).
  { rewrite Hl, Hcol. unfold RBTableSize. nat_cmp. lia. }
  split; [done|]. unfold RBDecode. rewrite Hlen. nat_cmp.
  unfold RBDecodeWidth. nat_cmp. done.
Qed.

End Failure.

(** * Concrete runs *)

Module Examples.

(** A stand-in for AES-128 on which the claims are evaluated. *)
Definition toy_aes (k x : block) : block :=
  wrap 128 (Z.lxor (x * 0x9e3779b97f4a7c15f39cc0605cedc835 + k) (Z.shiftr (x * 0xd1b54a32d192ed03) 3)).

(** Integer part of the binary logarithm. *)
Definition toy_log2 (x : double) : double := d_of_nat (Nat.log2 (d_to_size x)).

Definition toy_params (columns bandWidth : nat) : RBParams := {|
  p_lambda := 40; p_eps := S754_zero false; p_columns := columns; p_bandWidth := bandWidth;
  p_check := false; p_multiThread := true; p_workerThreads := 4;
  p_startSeed := p_startSeed RBParams_default; p_maskSeed := p_maskSeed RBParams_default;
|}.

Definition keys3 : list block := [11; 22; 33]%Z.
Definition vals3 : list (list block) := [[1; 2]; [3; 4]; [5; 6]]%Z.

Lemma toy_aes_ok : aes_ok toy_aes.
Proof. intros k x. by apply in_word_wrap. Qed.

(** Values each encoder returns for [keys3] with 8 columns and band width 4. *)
Definition tb3 : list (list block) :=
  [[0; 0]; [1; 2]; [6; 2]; [5; 6]; [0; 0]; [0; 0]; [0; 0]; [0; 0]]%Z.

Ltac fixed_params := apply params_agree_fixed; cbn; lia.


Lemma RBEncode_table_RBDecode_table_witness :
  ∃ out, RBDecode_table 4 toy_aes toy_log2 (List.concat tb3) 2 [33; 44; 11]%Z (toy_params 8 4) = Ok out ∧
    out !! 0 = Some [5; 6]%Z.
Proof.
  destruct (RBEncode_table_RBDecode_table 4 toy_aes toy_log2 keys3 vals3 [] 2 (toy_params 8 4)
    (List.concat tb3) [33; 44; 11]%Z) as (out & H & _ & Hout);
    [apply toy_aes_ok|fixed_params|vm_compute; reflexivity|reflexivity|].
  exists out. split; [exact H|exact (Hout 2 0 33%Z eq_refl eq_refl)].
Defined.

Lemma RBEncode_flat_RBDecode_flat_witness :
  ∃ out, RBDecode_flat 4 toy_aes toy_log2 (List.concat tb3) 2 [33; 44; 11]%Z (toy_params 8 4) = Ok out ∧
    slice out 0 2 = [5; 6]%Z.
Proof.
  destruct (RBEncode_flat_RBDecode_flat 4 toy_aes toy_log2 keys3 (List.concat vals3) 2 [] (toy_params 8 4)
    (List.concat tb3) [33; 44; 11]%Z) as (out & H & _ & Hout);
    [apply toy_aes_ok|fixed_params|vm_compute; reflexivity|reflexivity|].
  exists out. split; [exact H|exact (Hout 2 0 33%Z eq_refl eq_refl)].
Defined.

Definition cfg3 : RBInfo := match RBInfoOf 4 toy_log2 3 (toy_params 8 4) with
  | Ok c => c | Throw _ => mkRBInfo 0 0 (S754_zero false) (S754_zero false) 0 0 0 end.

Lemma cfg3_ok : RBInfoOf 4 toy_log2 3 (toy_params 8 4) = Ok cfg3.
Proof. vm_compute. reflexivity. Qed.

Lemma vals3_ok : values_ok keys3 vals3.
Proof. split; [done|]. split; [cbn; lia|repeat constructor]. Qed.

Lemma RBEncode_complete_witness :
  ∃ ok tb, RBEncode 4 toy_aes toy_log2 keys3 vals3 [[7]]%Z (toy_params 8 4) = Ok (ok, tb) ∧
    (ok = true ↔ ¬ keys_dependent toy_aes (i_bandWidth cfg3) (i_columns cfg3) (toy_params 8 4) keys3) ∧
    (ok = false → tb = [[7]]%Z).
Proof.
  apply (RBEncode_complete 4 toy_aes toy_log2 keys3 vals3 [[7]]%Z (toy_params 8 4) cfg3);
    [apply toy_aes_ok|done|apply vals3_ok|apply cfg3_ok].
Defined.

Lemma RBEncode_flat_complete_witness :
  ∃ ok tb, RBEncode_flat 4 toy_aes toy_log2 keys3 [1; 2; 3]%Z 1 [7]%Z (toy_params 8 4) = Ok (ok, tb) ∧
    (ok = true ↔ ¬ keys_dependent toy_aes (i_bandWidth cfg3) (i_columns cfg3) (toy_params 8 4) keys3) ∧
    (ok = false → tb = [7]%Z).
Proof.
  apply (RBEncode_flat_complete 4 toy_aes toy_log2 keys3 [1; 2; 3]%Z 1 [7]%Z (toy_params 8 4) cfg3);
    [apply toy_aes_ok|done|lia|done|apply cfg3_ok].
Defined.

Lemma RBEncode_flat_duplicate_witness :
  RBEncode_flat 4 toy_aes toy_log2 [11; 22; 11]%Z [1; 2; 1]%Z 1 [7]%Z (toy_params 8 4) = Ok (false, [7]%Z).
Proof.
  apply (RBEncode_flat_duplicate 4 toy_aes toy_log2 [11; 22; 11]%Z [1; 2; 1]%Z 1 [7]%Z (toy_params 8 4)
    cfg3 0 2 11%Z); [apply toy_aes_ok|lia|done|apply cfg3_ok|lia|done|done].
Defined.

Lemma RBEncode_accepts_witness :
  is_ok (RBEncode 4 toy_aes toy_log2 keys3 vals3 [] (toy_params 8 4)) = true ↔ values_ok keys3 vals3.
Proof.
  apply (RBEncode_accepts 4 toy_aes toy_log2 keys3 vals3 [] (toy_params 8 4) cfg3);
    [apply toy_aes_ok|done|apply cfg3_ok].
Defined.

Lemma RBEncode_columns_clamped_witness :
  RBDecode 4 toy_aes toy_log2 [[1; 2]; [7; 0]; [3; 4]]%Z keys3 (toy_params 2 3) =
    Throw (InvalidArgument "RBDecode columns mismatch").
Proof.
  apply (RBEncode_columns_clamped 4 toy_aes toy_log2 keys3 vals3 [] (toy_params 2 3)
    [[1; 2]; [7; 0]; [3; 4]]%Z keys3); [apply toy_aes_ok|cbn; lia|cbn; lia|vm_compute; reflexivity].
Defined.
End Examples.
