(* ===== verification/RbTypes.v ===== *)
(** Block values stay 128-bit words through the flat RB-OKVS overloads, which the protocol uses:
    the table that [RBEncode] fills and the rows that [RBDecode] returns. *)
From S2P Require Import Prelude Words Parallel RbBits Fit RbRows RbSolve RbCodec RbOkvs.
Open Scope nat_scope.

Lemma slice_words {A} (P : A → Prop) l o n : Forall P l → Forall P (slice l o n).
Proof. intros H. by apply Forall_take, Forall_drop. Qed.

Lemma memcpy_words {A} (P : A → Prop) l d src s n : Forall P l → Forall P src → Forall P (memcpy l d src s n).
Proof.
  intros Hl Hs. unfold memcpy. rewrite !Forall_app. split; [by apply Forall_take|].
  split; [by apply Forall_take, Forall_drop|by apply Forall_drop].
Qed.

Lemma block_nth l i : blocks_ok l → is_block l.[i].
Proof. intros H. by apply Forall_nth_Z; [|apply in_word_0]. Qed.

Lemma xs_block n f : (∀ i, i < n → is_block (f i)) → is_block (xs n f).
Proof.
  induction n as [|n IH]; intros H; cbn [xs]; [by apply in_word_0|]. apply in_word_lxor; [lia| |]; auto.
Qed.

Lemma RBXorFlat_words a d s n : blocks_ok a → blocks_ok (RBXorFlat a d s n).
Proof.
  intros Ha. unfold RBXorFlat. loop_inv (fun (_ : nat) (a : list block) => blocks_ok a) as H; [lia|done| |exact H].
  intros i x Hi Hx. apply Forall_insert; [done|]. apply in_word_lxor; [lia| |]; by apply block_nth.
Qed.

(** The elimination only adds right-hand sides. *)
Lemma RBForward_words w m bands (rhs : FlatRhs) bands' rhs' p :
  RBForward w m bands rhs = Ok (inl (bands', rhs', p)) → blocks_ok (fr_data rhs) → blocks_ok (fr_data rhs').
Proof.
  intros H Hr. unfold RBForward in H.
  apply (forC_keeps (fun s : list Band * FlatRhs * list nat => blocks_ok (fr_data s.1.2)) (fun _ => True)) in H; [exact H| |exact Hr].
  clear. intros i [[bs rh] ps] c Hs H. cbn [fst snd] in Hs. unfold RBElimStep in H.
  destruct (_ =? w); [by injection H as <-|]. apply bind_Ok in H as ([[bands1 rhs1]|[]] & Hi & H).
  injection H as <-. cbn [fst snd].
  apply (forC_keeps (fun s : list Band * FlatRhs => blocks_ok (fr_data s.2)) (fun _ => True)) in Hi; [exact Hi| |exact Hs].
  clear. intros j [bs2 rh2] c Hs H. cbn [fst snd] in Hs. unfold RBElimRow in H.
  destruct (_ <? _); [by injection H as <-|]. destruct (_ || _); [by injection H as <-|].
  apply bind_Ok in H as (bits & _ & H). apply bind_Ok in H as (r & Hx & H). injection H as <-. cbn [fst snd].
  cbn [rs_xor flat_rhs] in Hx. injection Hx as <-. by apply RBXorFlat_words.
Qed.

(** The table receives sums of right-hand sides and of rows of the table. *)
Lemma RBBackfill_words w bands (rhs : FlatRhs) p (tb tb' : FlatTable) :
  RBBackfill w bands rhs p tb = Ok tb' → blocks_ok (fr_data rhs) → blocks_ok (ft_data tb) → blocks_ok (ft_data tb').
Proof.
  intros H Hr Htb. unfold RBBackfill in H.
  refine (for_downR_keeps (fun tb : FlatTable => blocks_ok (ft_data tb)) _ _ _ _ _ Htb H). clear -Hr.
  intros i t t' Ht H. apply bind_Ok in H as (sum & Hsum & H). injection H as <-. cbn [ts_write flat_table ft_data].
  apply memcpy_words; [exact Ht|]. unfold RBBackSum in Hsum.
  refine (forR_keeps (fun s : list block => blocks_ok s) _ _ _ _ _ _ (slice_words _ _ _ _ Hr) Hsum).
  clear -Ht.
  intros j s s' Hs H. destruct (negb _); [by injection H as <-|]. destruct (_ =? _); [by injection H as <-|].
  cbn [ts_xor flat_table] in H. unfold RBXorPtr in H. inv_ok. apply xorv_ok; [lia|done|]. by apply slice_words.
Qed.

Lemma RBEncode_flat_words hw aes std_log2 keys vals r tb0 params ok tb :
  aes_ok aes → blocks_ok vals → blocks_ok tb0 →
  RBEncode_flat hw aes std_log2 keys vals r tb0 params = Ok (ok, tb) → blocks_ok tb.
Proof.
  intros Ha Hv H0 H. unfold RBEncode_flat in H. destruct (length keys =? 0); [by injection H as _ <-|].
  apply bind_Ok in H as (u & Hu & H). apply throw_if_Ok in Hu.
  apply orb_false_iff in Hu as [Hr%Nat.eqb_neq Hl%negb_false_iff%Nat.eqb_eq].
  apply bind_Ok in H as (cfg & Hcfg & H). destruct (RBInfoOf_inv _ _ _ _ _ Hcfg) as (_ & _ & Hw & Hwc & _).
  rewrite RBRowsFlat_spec in H by (done || lia). cbn [mbind Res_bind] in H.
  apply bind_Ok in H as ([[[bands rhs] p]|[]] & Hf & H); [|by injection H as _ <-].
  apply bind_Ok in H as (t & Hb & H). injection H as _ <-.
  apply (RBBackfill_words _ _ _ _ _ _ Hb).
  - by apply (RBForward_words _ _ _ _ _ _ _ Hf).
  - apply Forall_replicate. by apply in_word_0.
Qed.

Lemma okvs_eval_words aes w m r params T key : (∀ c, blocks_ok (T c)) → blocks_ok (okvs_eval aes w m r params T key).
Proof.
  intros HT. apply Forall_forall. intros x Hx. apply list_elem_of_In, in_map_iff in Hx as (k & <- & _).
  apply xs_block. intros c _. destruct (coef _ _ _); [by apply block_nth|by apply in_word_0].
Qed.

Lemma RBDecode_flat_words hw aes std_log2 tb r keys params out :
  blocks_ok tb → RBDecode_flat hw aes std_log2 tb r keys params = Ok out →
  blocks_ok out ∧ length out = if length tb =? 0 then 0 else length keys * r.
Proof.
  intros Ht H. unfold RBDecode_flat in H. destruct (length tb =? 0); [by injection H as <-|].
  apply bind_Ok in H as (u & _ & H). apply bind_Ok in H as (bw & _ & H). unfold RBDecodeLoop in H.
  rewrite RBFor_loop in H.
  refine (forR_keeps (fun o : list block => blocks_ok o ∧ length o = length keys * r) _ _ _ _ _ _ _ H).
  2: { split; [apply Forall_replicate; by apply in_word_0|apply length_replicate]. }
  clear -Ht. intros i o o' Ho H. apply bind_Ok in H as (bits & _ & H). unfold RBDecodeRow in H.
  apply bind_Ok in H as ([o1|[]] & Hr & H). injection H as <-.
  apply (forC_keeps (fun o : list block => blocks_ok o ∧ length o = length keys * r) (fun _ : Empty_set => True)) in Hr;
    [exact Hr| |exact Ho].
  clear -Ht. intros j o c Ho H. destruct (negb _); [by injection H as <-|]. destruct (_ <=? _); [by injection H as <-|].
  apply bind_Ok in H as (o1 & H1 & H). injection H as <-. injection H1 as <-.
  loop_inv (fun (_ : nat) (a : list block) => blocks_ok a ∧ length a = length keys * r) as Hl; [lia|exact Ho| |exact Hl].
  intros k x Hk [Hx Hlen]. split; [|by rewrite length_insert]. apply Forall_insert; [done|].
  apply in_word_lxor; [lia|by apply block_nth|]. by apply block_nth, slice_words.
Qed.

(** C23 The types of the flat overloads: from 128-bit values and table, [RBEncode] leaves a table of 128-bit
    blocks with [columns] rows (the old one when it returns [false]), and [RBDecode] returns a
    row of [rowSize] 128-bit blocks per key, or nothing for an empty table. *)
Theorem flat_types hw aes std_log2 keys r tb params :
  aes_ok aes → blocks_ok tb →
  (∀ vals ok tb', blocks_ok vals → RBEncode_flat hw aes std_log2 keys vals r tb params = Ok (ok, tb') →
     blocks_ok tb' ∧ (ok = false → tb' = tb) ∧
     (ok = true → keys ≠ [] → ∃ cfg, RBInfoOf hw std_log2 (length keys) params = Ok cfg ∧ length tb' = i_columns cfg * r)) ∧
  (∀ out, RBDecode_flat hw aes std_log2 tb r keys params = Ok out →
     blocks_ok out ∧ length out = if length tb =? 0 then 0 else length keys * r).
Proof.
  intros Ha Ht. split; [|intros out; by apply RBDecode_flat_words].
  intros vals ok tb' Hv H. split; [by apply (RBEncode_flat_words _ _ _ _ _ _ _ _ _ _ Ha Hv Ht H)|]. split.
  - intros ->. unfold RBEncode_flat in H. destruct (length keys =? 0); [done|].
    apply bind_Ok in H as (u & _ & H). apply bind_Ok in H as (cfg & _ & H).
    apply bind_Ok in H as ([rows rhs] & _ & H). apply bind_Ok in H as ([[[bands rhs'] p]|[]] & _ & H); [|by injection H as <-].
    by apply bind_Ok in H as (t & _ & [= ? _]).
  - intros -> Hne. destruct (RBEncode_flat_inv hw aes std_log2 keys vals r tb params tb' Ha Hne H) as (cfg & Hc & _ & _ & Hl & _).
    by exists cfg.
Qed.

Import Examples.

Lemma flat_types_witness : blocks_ok (List.concat tb3) ∧
  ∃ out, RBDecode_flat 4 toy_aes toy_log2 (List.concat tb3) 2 [33; 44; 11]%Z (toy_params 8 4) = Ok out ∧ length out = 6.
Proof.
  destruct (flat_types 4 toy_aes toy_log2 [11; 22; 33]%Z 2 [] (toy_params 8 4) toy_aes_ok (Forall_nil_2 _)) as [Henc _].
  destruct (Henc (List.concat vals3) true (List.concat tb3)) as [Hb _];
    [repeat constructor; done|vm_compute; reflexivity|]. split; [exact Hb|].
  destruct (flat_types 4 toy_aes toy_log2 [33; 44; 11]%Z 2 (List.concat tb3) (toy_params 8 4) toy_aes_ok Hb) as [_ Hdec].
  eexists. split; [vm_compute; reflexivity|]. refine (proj2 (Hdec _ _)). vm_compute. reflexivity.
Defined.
