(* ===== verification/PermApi.v ===== *)
(** The permutation interface of frontend/permutation/api.h and types.h: the operations of a
    [Perm] object and the laws its clients rely on. *)
From S2P Require Import Prelude Words.
Open Scope nat_scope.

(** types.h *)
Definition KEM_key_block_size : nat := 50.
Definition KEM_key_size_bit : nat := KEM_key_block_size * 16 * 8.

(** The virtual methods; [data] is the byte buffer, its length the [bytes] argument. *)
Record Perm : Type := mkPerm {
  perm_name : string;
  perm_detail : string;
  perm_n : nat;
  perm_s : nat;
  perm_rounds : nat;
  encryptBytes : list Z → Res (list Z);
  decryptBytes : list Z → Res (list Z);
}.

(** A byte buffer of [len] bytes. *)
Definition buf_ok (len : nat) (data : list Z) : Prop := length data = len ∧ bytes_ok data.

(** What the protocol needs of a permutation on rows of [len] bytes. *)
Class PermLaws (p : Perm) (len : nat) : Prop := {
  enc_buf data : buf_ok len data →
    ∃ c, encryptBytes p data = Ok c ∧ buf_ok len c;
  dec_buf data : buf_ok len data →
    ∃ c, decryptBytes p data = Ok c ∧ buf_ok len c;
  dec_enc data c : buf_ok len data → encryptBytes p data = Ok c → decryptBytes p c = Ok data;
  enc_dec data c : buf_ok len data → decryptBytes p data = Ok c → encryptBytes p c = Ok data;
}.

(** A permutation is injective in both directions. *)
Lemma perm_enc_inj p len `{PermLaws p len} d d' c :
  buf_ok len d → buf_ok len d' → encryptBytes p d = Ok c → encryptBytes p d' = Ok c → d = d'.
Proof.
  intros Hd Hd' E E'. apply (dec_enc _ _ Hd) in E. apply (dec_enc _ _ Hd') in E'. congruence.
Qed.

Lemma buf_ok_split h data : buf_ok (h + h) data →
  ∃ a b, data = a ++ b ∧ buf_ok h a ∧ buf_ok h b.
Proof.
  intros [Hl Hb]. exists (take h data), (drop h data). split; [by rewrite take_drop|].
  split; split; rewrite ?length_take, ?length_drop; try lia; [by apply Forall_take|by apply Forall_drop].
Qed.
