(* ===== verification/BitBuf.v ===== *)
(** Bits of byte buffers, shared by the components that pack and rotate bit strings. *)
From Stdlib Require Import ZifyNat.
From S2P Require Import Prelude Words PermApi.
Open Scope nat_scope.

Ltac divlia := zify; Z.to_euclidean_division_equations; lia.

Lemma wbit_mask k t : k < 8 → Z.testbit (u8 (Z.shiftl 1 (Z.of_nat k))) (Z.of_nat t) = (t =? k).
Proof.
  intros Hk. rewrite Z.shiftl_1_l, wrap_testbit, pow2_testbit by lia.
  destruct (Nat.eqb_spec t k) as [->|Hne].
  - rewrite Z.eqb_refl, andb_true_r. apply Z.ltb_lt. lia.
  - replace (Z.of_nat t =? Z.of_nat k)%Z with false by (symmetry; apply Z.eqb_neq; lia). apply andb_false_r.
Qed.

Lemma bitb_insert (data : list Z) q y j : q < length data →
  bitb (<[q := y]> data) j = if j / 8 =? q then Z.testbit y (Z.of_nat (j mod 8)) else bitb data j.
Proof.
  intros Hq. unfold bitb. rewrite nth_insert. destruct (Nat.eqb_spec (j / 8) q).
  - by rewrite decide_True.
  - by rewrite decide_False by lia.
Qed.

Lemma same_bit j idx : (j / 8 =? idx / 8) && (j mod 8 =? idx mod 8) = (j =? idx).
Proof.
  pose proof (Nat.div_mod_eq j 8). pose proof (Nat.div_mod_eq idx 8).
  destruct (Nat.eqb_spec (j / 8) (idx / 8)), (Nat.eqb_spec (j mod 8) (idx mod 8)), (Nat.eqb_spec j idx);
    cbn [andb]; try done; subst; try done; lia.
Qed.

Lemma low_bit_odd x : negb (Z.land x 1 =? 0)%Z = Z.odd x.
Proof.
  pose proof (Z.land_ones x 1 ltac:(lia)) as H. change (Z.ones 1) with 1%Z in H.
  change (2 ^ 1)%Z with 2%Z in H. rewrite H, Zmod_odd. by destruct (Z.odd x).
Qed.

Lemma byte_div i b : i < 8 * b → i / 8 < b.
Proof. intros. apply Nat.Div0.div_lt_upper_bound. lia. Qed.

Lemma zeros_buf b : buf_ok b (replicate b 0%Z).
Proof. split; [apply length_replicate|apply Forall_replicate; by apply in_word_0]. Qed.

Lemma zeros_bitb b j : bitb (replicate b 0%Z) j = false.
Proof. unfold bitb. rewrite nth_replicate. destruct (decide _); apply Z.testbit_0_l. Qed.

Lemma buf_value b data : buf_ok b data →
  in_word (Z.of_nat (8 * b)) (le_val data) ∧ le_bytes b (le_val data) = data.
Proof.
  intros [<- Hb]. split; [|by apply le_bytes_val].
  replace (Z.of_nat (8 * length data)) with (8 * Z.of_nat (length data))%Z by lia. by apply le_val_bound.
Qed.

Lemma buf_val_ext b data z : buf_ok b data → in_word (Z.of_nat (8 * b)) z →
  (∀ j, j < 8 * b → bitb data j = Z.testbit z (Z.of_nat j)) → le_val data = z.
Proof.
  intros Hd Hz H. apply (word_ext (Z.of_nat (8 * b))); [lia|by apply buf_value|done|].
  intros i Hi. rewrite <- (Z2Nat.id i), le_val_testbit by (apply Hd || lia). apply H. lia.
Qed.

(** [data[idx / 8] |= 1 << (idx % 8)] *)
Definition orBit (data : list Z) (idx : nat) : list Z :=
  <[idx / 8 := Z.lor data.[idx / 8] (u8 (Z.shiftl 1 (Z.of_nat (idx mod 8))))]> data.

Lemma orBit_spec b data idx : buf_ok b data → idx < 8 * b →
  buf_ok b (orBit data idx) ∧ ∀ j, bitb (orBit data idx) j = bitb data j || (j =? idx).
Proof.
  intros [Hl Hb] Hi. pose proof (byte_div _ _ Hi) as Hq. unfold orBit.
  pose proof (Nat.mod_upper_bound idx 8 ltac:(lia)) as Hm. split.
  - split; [by rewrite length_insert|apply Forall_insert; [done|]].
    apply in_word_lor; [lia|by apply Forall_nth_Z; [|apply in_word_0]|apply in_word_wrap; lia].
  - intros j. rewrite bitb_insert by lia. rewrite <- (same_bit j idx).
    destruct (Nat.eqb_spec (j / 8) (idx / 8)) as [E|]; cbn [andb]; [|by rewrite orb_false_r].
    rewrite Z.lor_spec, wbit_mask by done. unfold bitb. by rewrite E.
Qed.

(** Equal bits make equal buffers. *)
Lemma buf_ext b data data' : buf_ok b data → buf_ok b data' →
  (∀ j, j < 8 * b → bitb data j = bitb data' j) → data = data'.
Proof.
  intros Hd Hd' H. rewrite <- (proj2 (buf_value b data Hd)), <- (proj2 (buf_value b data' Hd')). f_equal.
  apply (buf_val_ext b); [done|by apply buf_value|]. intros j Hj. rewrite H by done.
  symmetry. apply le_val_testbit, Hd'.
Qed.
