(* ===== verification/BitVec.v ===== *)
(** The bit vectors of cryptoTools: BitReference and BitIterator (Common/BitIterator.h) and BitVector (Common/BitVector.cpp).
    A vector is its allocated bytes and its number of bits; [bits] is its abstract value.  Every operation is stated
    on that value, and the operations that do not keep it (equality, the distance of an iterator, the random
    subset) by what they do instead.  [assert]s and the checks of debug builds are off. *)
From Stdlib Require Import Ascii.
From S2P Require Import Prelude Words PermApi BitBuf.
Open Scope nat_scope.

Module BitVec.

Definition rt_error : exn := RuntimeError "rt error at ".

(** * References and iterators *)

Definition bitMask (shift : nat) : Z := u8 (Z.shiftl 1 (Z.of_nat shift)).

(** [operator u8] and [operator=(u8)] of a reference into [data]. *)
Definition ref_get (data : list Z) (byte : nat) (mask : Z) (shift : nat) : Z :=
  Z.shiftr (Z.land data.[byte] mask) (Z.of_nat shift).
Definition ref_set (data : list Z) (byte : nat) (mask n : Z) : list Z :=
  if (0 <? n)%Z then <[byte := Z.lor data.[byte] mask]> data else <[byte := Z.land data.[byte] (wnot 8 mask)]> data.

Record BitIterator : Type := mkIter { mByte : nat; mMask : Z; mShift : nat }.

Definition BitIterator_of (byte shift : nat) : BitIterator := mkIter byte (bitMask shift) shift.

Definition deref (data : list Z) (it : BitIterator) : Z := ref_get data (mByte it) (mMask it) (mShift it).

(** [operator++] *)
Definition next (it : BitIterator) : BitIterator :=
  let byte := mByte it + (if mShift it =? 7 then 1 else 0) in
  let shift := (mShift it + 1) mod 8 in
  mkIter byte (bitMask shift) shift.

(** [operator+]: the mask is made from the shift of [*this]. *)
Definition plus (it : BitIterator) (v : Z) : Res BitIterator :=
  throw_if (v <? 0)%Z (RuntimeError "not impl") ;;
  let byte := mByte it + Z.to_nat v / 8 in
  let shift := mShift it + Z.to_nat v mod 8 in
  let byte := if 7 <? shift then byte + 1 else byte in
  mret (mkIter byte (bitMask (mShift it)) (shift mod 8)).

Definition iter_eq (a b : BitIterator) : bool := (mByte a =? mByte b) && (mShift a =? mShift b).

(** * Vectors *)

Record BitVector : Type := mkBV { mData : list Z; mNumBits : nat }.

Definition BitVector_new : BitVector := mkBV [] 0.

Definition size (v : BitVector) : nat := mNumBits v.
Definition mAllocBytes (v : BitVector) : nat := length (mData v).
Definition capacity (v : BitVector) : nat := mAllocBytes v * 8.
Definition sizeBytes (v : BitVector) : nat := (mNumBits v + 7) / 8.

(** The bytes of a new allocation are zero; the old ones are kept up to [sizeBytes]. *)
Definition resize (v : BitVector) (newSize : nat) : BitVector :=
  let new_nbytes := (newSize + 7) / 8 in
  if mAllocBytes v <? new_nbytes
  then mkBV (memcpy (replicate new_nbytes 0%Z) 0 (mData v) 0 (sizeBytes v)) newSize
  else mkBV (mData v) newSize.

Definition reserve (v : BitVector) (n : nat) : BitVector := mkBV (mData (resize v n)) (mNumBits v).

Definition reset (v : BitVector) (new_nbits : nat) : BitVector :=
  let newSize := (new_nbits + 7) / 8 in
  if mAllocBytes v <? newSize then mkBV (replicate newSize 0%Z) new_nbits
  else mkBV (memcpy (mData v) 0 (replicate newSize 0%Z) 0 newSize) new_nbits.

(** [operator[]]: the byte and the shift of the reference. *)
Definition index (v : BitVector) (idx : nat) : Res (nat * nat) :=
  throw_if (mNumBits v <=? idx) rt_error ;; mret (idx / 8, idx mod 8).

Definition get (v : BitVector) (idx : nat) : Res Z :=
  '(byte, shift) ← index v idx; mret (ref_get (mData v) byte (bitMask shift) shift).
Definition set (v : BitVector) (idx : nat) (n : Z) : Res BitVector :=
  '(byte, shift) ← index v idx; mret (mkBV (ref_set (mData v) byte (bitMask shift) n) (mNumBits v)).

(** [assign(block)] and [assign(BitVector)]. *)
Definition assign_block (v : BitVector) (b : block) : BitVector :=
  let v := reset v 128 in mkBV (memcpy (mData v) 0 (le_bytes 16 b) 0 (sizeBytes v)) (mNumBits v).
Definition assign (v K : BitVector) : BitVector :=
  let v := reset v (mNumBits K) in mkBV (memcpy (mData v) 0 (mData K) 0 (sizeBytes v)) (mNumBits v).

Definition append (v : BitVector) (data : list Z) (length offset : nat) : Res BitVector :=
  let bitIdx := mNumBits v in
  let destOffset := mNumBits v mod 8 in
  let destIdx := mNumBits v / 8 in
  let srcOffset := offset mod 8 in
  let srcIdx := offset / 8 in
  let byteLength := (length + 7) / 8 in
  let v := resize v (mNumBits v + length) in
  if negb (srcOffset =? 0) || negb (destOffset =? 0) then
    forR 0 length (fun i v =>
      let bit := Z.land data.[(offset + i) / 8] (bitMask ((offset + i) mod 8)) in
      set v (bitIdx + i) bit) v
  else mret (mkBV (memcpy (mData v) destIdx data srcIdx byteLength) (mNumBits v)).

Definition copy (v src : BitVector) (idx length : nat) : Res BitVector :=
  append (resize v 0) (mData src) length idx.

(** The loops of the bitwise operators over the bytes of [*this]. *)
Definition bytewise (f : Z → Z → Z) (v A : BitVector) : BitVector :=
  mkBV (for_ 0 (sizeBytes v) (fun i data => <[i := f data.[i] (mData A).[i]]> data) (mData v)) (mNumBits v).

Definition xor_assign (v A : BitVector) : Res BitVector :=
  throw_if (negb (mNumBits v =? mNumBits A)) rt_error ;; mret (bytewise Z.lxor v A).
Definition and_assign (v A : BitVector) : BitVector := bytewise Z.land v A.
Definition or_assign (v A : BitVector) : BitVector := bytewise Z.lor v A.

(** The operators copy [*this] first. *)
Definition xor_ (v B : BitVector) : Res BitVector := xor_assign (assign BitVector_new v) B.
Definition and_ (v B : BitVector) : BitVector := and_assign (assign BitVector_new v) B.
Definition or_ (v B : BitVector) : BitVector := or_assign (assign BitVector_new v) B.
Definition not_ (v : BitVector) : BitVector :=
  let ret := assign BitVector_new v in
  mkBV (for_ 0 (sizeBytes v) (fun i data => <[i := wnot 8 (mData v).[i]]> data) (mData ret)) (mNumBits ret).

(** [None]: [sizeBytes() - 1] wraps around and the loop reads past the arrays. *)
Definition equals (v rhs : BitVector) : option bool :=
  if negb (mNumBits v =? mNumBits rhs) then Some false else
  if sizeBytes v =? 0 then None else
  let lastByte := sizeBytes v - 1 in
  if existsb (fun i => negb ((mData v).[i] =? (mData rhs).[i])%Z) (seq 0 lastByte) then Some false else
  let rem := mNumBits v mod 8 in
  let mask := u8 (Z.shiftr 255 (Z.of_nat (8 - rem))) in
  Some (Z.land (mData v).[lastByte] mask =? Z.land (mData rhs).[lastByte] mask)%Z.

Definition begin_ : BitIterator := BitIterator_of 0 0.
Definition end_ (v : BitVector) : BitIterator := BitIterator_of (mNumBits v / 8) (mNumBits v mod 8).

(** [draw t] is the [t]-th output of [prng.get<u64>()].  The loop over [i] counts down to a multiple of four;
    when that is zero the unsigned counter goes on below it and the index is out of range. *)
Definition nChoosek (v : BitVector) (n k : nat) (draw : nat → Z) : Res BitVector :=
  let v := reset v n in
  let v := mkBV (memcpy (mData v) 0 (replicate (k / 8) 255%Z) 0 (k / 8)) (mNumBits v) in
  let base := k / 4 * 4 in
  v ← forR 0 (k - base) (fun t v => set v (k - 1 - t) 1) v;
  throw_if (base =? 0) rt_error ;;
  forR k n (fun i v =>
    let j := Z.to_nat (draw (i - k) mod Z.of_nat i) in
    if j <? k then
      b ← get v j;
      v ← set v j 0;
      set v i b
    else mret v) v.

(** [while (b) { ++ham; b &= b - 1; }] on a byte. *)
Fixpoint popcount (fuel : nat) (b : Z) : nat :=
  match fuel with
  | O => 0
  | S fuel => if (b =? 0)%Z then 0 else S (popcount fuel (Z.land b (b - 1)))
  end.

Definition hammingWeight (v : BitVector) : nat :=
  for_ 0 (sizeBytes v) (fun i ham => ham + popcount 8 (mData v).[i]) 0.

Definition parity (v : BitVector) : Z :=
  let lastByte := mNumBits v / 8 in
  let bit := for_ 0 lastByte (fun i bit =>
    for_ 0 8 (fun s bit => Z.lxor bit (Z.land (Z.shiftr (mData v).[i] (Z.of_nat s)) 1)) bit) 0%Z in
  for_ 0 (mNumBits v - lastByte * 8) (fun i bit =>
    Z.lxor bit (Z.land (Z.shiftr (mData v).[lastByte] (Z.of_nat i)) 1)) bit.

Definition pushBack (v : BitVector) (bit : Z) : Res BitVector :=
  let v := if size v =? capacity v then reserve v (size v * 2) else v in
  let v := resize v (size v + 1) in
  set v (size v - 1) bit.

(** [fromString] on the characters, and [operator<<]. *)
Definition fromString (v : BitVector) (data : list Ascii.ascii) : Res BitVector :=
  let v := resize v (length data) in
  forR 0 (size v) (fun i v =>
    set v i (u8 (Z.of_nat (Ascii.nat_of_ascii (nth i data Ascii.zero)) - 48))) v.

Definition print (v : BitVector) : Res (list Ascii.ascii) :=
  forR 0 (size v) (fun i out =>
    b ← get v i; mret (out ++ [Ascii.ascii_of_nat (48 + Z.to_nat b)])) [].

(** * The abstract value of a vector: a list of bits *)

Definition wf (v : BitVector) : Prop := mNumBits v ≤ 8 * length (mData v) ∧ bytes_ok (mData v).

Definition rep (v : BitVector) (l : list bool) : Prop :=
  wf v ∧ mNumBits v = length l ∧ ∀ i, i < length l → bitb (mData v) i = nth i l false.

(** The bits [off, ..., off + n - 1] of a byte array. *)
Definition bits_of (data : list Z) (off n : nat) : list bool := map (bitb data) (seq off n).

Definition weight (l : list bool) : nat := sum_list (map Nat.b2n l).

Lemma bits_of_length data off n : length (bits_of data off n) = n.
Proof. unfold bits_of. by rewrite length_map, length_seq. Qed.

Lemma bits_of_nth data off n i : i < n → nth i (bits_of data off n) false = bitb data (off + i).
Proof.
  intros. unfold bits_of. rewrite (nth_indep _ _ (bitb data 0)) by (rewrite length_map, length_seq; lia).
  rewrite map_nth. f_equal. by apply seq_nth.
Qed.

Lemma nth_upd_bool (l : list bool) i j x :
  nth j (<[i := x]> l) false = if decide (i = j ∧ i < length l) then x else nth j l false.
Proof.
  revert i j. induction l as [|y l IH]; intros [|i] [|j]; cbn; case_decide; try lia;
    try done; rewrite ?IH; case_decide; try lia; done.
Qed.

(** A vector has one value, so [rep] is the graph of a function. *)
Lemma rep_bits v l : rep v l → l = bits_of (mData v) 0 (mNumBits v).
Proof.
  intros (_ & Hn & H). apply (nth_ext _ _ false false); [by rewrite bits_of_length|].
  intros i Hi. rewrite bits_of_nth by lia. symmetry. auto.
Qed.

Lemma wf_rep v : wf v → rep v (bits_of (mData v) 0 (mNumBits v)).
Proof.
  intros H. split; [done|]. rewrite bits_of_length. split; [done|]. intros i Hi. by rewrite bits_of_nth.
Qed.

Lemma bitMask_testbit k t : k < 8 → Z.testbit (bitMask k) (Z.of_nat t) = (t =? k).
Proof. apply wbit_mask. Qed.

Lemma ref_get_bit data byte k : k < 8 → ref_get data byte (bitMask k) k = Z.b2z (Z.testbit data.[byte] (Z.of_nat k)).
Proof.
  intros Hk. apply Z.bits_inj'. intros i Hi. unfold ref_get. rewrite Z.shiftr_spec by lia.
  rewrite <- (Z2Nat.id i) by lia. rewrite <- Nat2Z.inj_add, Z.land_spec, bitMask_testbit by done.
  destruct (Nat.eqb_spec (Z.to_nat i + k) k) as [E|].
  - rewrite E. replace (Z.to_nat i) with 0 by lia. rewrite andb_true_r. by destruct (Z.testbit _ _).
  - rewrite andb_false_r. symmetry. destruct (Z.testbit data.[byte] (Z.of_nat k)); [|apply Z.testbit_0_l].
    cbn [Z.b2z]. change 1%Z with (2 ^ 0)%Z. rewrite pow2_testbit by lia. apply Z.eqb_neq. lia.
Qed.

Lemma is_byte_nth data i : bytes_ok data → is_byte data.[i].
Proof. intros. by apply Forall_nth_Z; [|apply in_word_0]. Qed.

Lemma ref_set_spec data byte k x : k < 8 → byte < length data → bytes_ok data →
  length (ref_set data byte (bitMask k) x) = length data ∧ bytes_ok (ref_set data byte (bitMask k) x) ∧
  ∀ j, bitb (ref_set data byte (bitMask k) x) j = if j =? 8 * byte + k then (0 <? x)%Z else bitb data j.
Proof.
  intros Hk Hb Hd. pose proof (is_byte_nth data byte Hd) as Hx. unfold ref_set.
  split; [by destruct (0 <? x)%Z; rewrite length_insert|]. split.
  - destruct (0 <? x)%Z; (apply Forall_insert; [done|]).
    + apply in_word_lor; [lia|done|apply in_word_wrap; lia].
    + apply in_word_land; [lia|done|apply (in_word_wrap 8 _ ltac:(lia))].
  - intros j. pose proof (same_bit j (8 * byte + k)) as Hs.
    replace ((8 * byte + k) / 8) with byte in Hs by divlia.
    replace ((8 * byte + k) mod 8) with k in Hs by divlia. rewrite <- Hs.
    destruct (0 <? x)%Z; rewrite bitb_insert by done; destruct (Nat.eqb_spec (j / 8) byte) as [E|];
      cbn [andb]; try done; unfold bitb; rewrite E.
    + rewrite Z.lor_spec, bitMask_testbit by done. destruct (j mod 8 =? k); [apply orb_true_r|apply orb_false_r].
    + pose proof (Nat.mod_upper_bound j 8 ltac:(lia)).
      rewrite Z.land_spec. unfold wnot. rewrite wrap_testbit, Z.lnot_spec, bitMask_testbit by lia.
      replace (Z.of_nat (j mod 8) <? 8)%Z with true by (symmetry; apply Z.ltb_lt; lia).
      destruct (j mod 8 =? k); [apply andb_false_r|apply andb_true_r].
Qed.

Lemma index_ok v i : i < mNumBits v → index v i = Ok (i / 8, i mod 8).
Proof. intros. unfold index. by nat_false (mNumBits v <=? i). Qed.

Lemma get_ok v l i : rep v l → i < length l → get v i = Ok (Z.b2z (nth i l false)).
Proof.
  intros (_ & Hn & H) Hi. unfold get. rewrite index_ok by lia. cbn -[Nat.div Nat.modulo].
  pose proof (Nat.mod_upper_bound i 8 ltac:(lia)). rewrite ref_get_bit by done. by rewrite <- H.
Qed.

Lemma set_ok v l i x : rep v l → i < length l → ∃ v', set v i x = Ok v' ∧ rep v' (<[i := (0 <? x)%Z]> l).
Proof.
  intros ([Hw Hb] & Hn & H) Hi. unfold set. rewrite index_ok by lia. cbn -[Nat.div Nat.modulo].
  assert (Hm : i mod 8 < 8) by (apply Nat.mod_upper_bound; lia).
  pose proof (byte_div i (length (mData v)) ltac:(lia)) as Hq.
  pose proof (ref_set_spec (mData v) (i / 8) (i mod 8) x Hm Hq Hb) as (Hl & Hb' & Hv).
  eexists. split; [done|]. unfold rep, wf. cbn [mData mNumBits]. rewrite length_insert, Hl.
  split; [done|]. split; [done|]. intros j Hj. rewrite Hv, <- Nat.div_mod_eq, nth_upd_bool.
  destruct (Nat.eqb_spec j i) as [->|]; [by rewrite decide_True|]. rewrite decide_False by lia. auto.
Qed.

Lemma set_throws v i x : mNumBits v ≤ i → set v i x = Throw rt_error.
Proof. intros. unfold set, index. by nat_true (mNumBits v <=? i). Qed.

(** * Sizes, copies and appends *)

Lemma sizeBytes_le v : wf v → sizeBytes v ≤ length (mData v) ∧ mNumBits v ≤ 8 * sizeBytes v.
Proof. intros [H _]. unfold sizeBytes. divlia. Qed.

Lemma bytes_zeros n : bytes_ok (replicate n 0%Z).
Proof. apply Forall_replicate. by apply in_word_0. Qed.
#[local] Hint Resolve bytes_zeros memcpy_ok le_bytes_ok : core.

Lemma bitb_memcpy dst src doff soff n j : doff + n ≤ length dst → soff + n ≤ length src →
  bitb (memcpy dst doff src soff n) j =
  if (8 * doff <=? j) && (j <? 8 * (doff + n)) then bitb src (8 * soff + (j - 8 * doff)) else bitb dst j.
Proof.
  intros Hd Hs. unfold bitb. rewrite nth_memcpy by done.
  destruct (Nat.leb_spec doff (j / 8)), (Nat.ltb_spec (j / 8) (doff + n)), (Nat.leb_spec (8 * doff) j),
    (Nat.ltb_spec j (8 * (doff + n))); cbn [andb]; try done; try (exfalso; divlia).
  by replace ((8 * soff + (j - 8 * doff)) / 8) with (soff + (j / 8 - doff)) by divlia;
    replace ((8 * soff + (j - 8 * doff)) mod 8) with (j mod 8) by divlia.
Qed.

(** The old bits stay; the bits above them are whatever the kept bytes hold. *)
Lemma resize_spec v n : wf v → wf (resize v n) ∧ mNumBits (resize v n) = n ∧
  length (mData v) ≤ length (mData (resize v n)) ∧
  ∀ j, j < mNumBits v → bitb (mData (resize v n)) j = bitb (mData v) j.
Proof.
  intros Hw. pose proof (sizeBytes_le v Hw) as [Hs Hs']. destruct Hw as [Hn Hb].
  unfold resize, wf, mAllocBytes. destruct (Nat.ltb_spec (length (mData v)) ((n + 7) / 8)) as [Hlt|Hge];
    cbn [mData mNumBits]; [|repeat split; auto; divlia].
  assert (Hl : length (memcpy (replicate ((n + 7) / 8) 0%Z) 0 (mData v) 0 (sizeBytes v)) = (n + 7) / 8).
  { rewrite memcpy_length; rewrite ?length_replicate; lia. }
  rewrite Hl. split; [split; [divlia|auto]|]. split; [done|]. split; [lia|]. intros j Hj.
  rewrite bitb_memcpy by (rewrite ?length_replicate; lia). nat_cmp. f_equal. lia.
Qed.

(** Growing keeps the bits and leaves the others open. *)
Lemma resize_grows v l n : rep v l → length l ≤ n → ∃ t, length t = n - length l ∧ rep (resize v n) (l ++ t).
Proof.
  intros (Hw & Hn & H) Hle. destruct (resize_spec v n Hw) as (Hw' & Hn' & _ & Hv).
  exists (bits_of (mData (resize v n)) (length l) (n - length l)). rewrite bits_of_length. split; [done|].
  split; [done|]. rewrite length_app, bits_of_length. split; [lia|]. intros i Hi.
  destruct (Nat.lt_ge_cases i (length l)).
  - rewrite app_nth1 by done. rewrite Hv by lia. auto.
  - rewrite app_nth2, bits_of_nth by lia. f_equal. lia.
Qed.

Lemma resize_shrinks v l n : rep v l → n ≤ length l → rep (resize v n) (take n l).
Proof.
  intros (Hw & Hn & H) Hle. destruct (resize_spec v n Hw) as (Hw' & Hn' & _ & Hv).
  split; [done|]. rewrite length_take. split; [lia|]. intros i Hi. rewrite Hv by lia. rewrite H by lia.
  by rewrite !nth_lookup, lookup_take_lt by lia.
Qed.

Lemma reserve_rep v l n : rep v l → rep (reserve v n) l.
Proof.
  intros (Hw & Hn & H). destruct (resize_spec v n Hw) as (Hw' & Hn' & Hl & Hv). destruct Hw, Hw'.
  unfold reserve, rep, wf. cbn [mData mNumBits]. split; [split; [lia|done]|]. split; [done|].
  intros i Hi. rewrite Hv by lia. auto.
Qed.

Lemma nth_repl_false n i : nth i (replicate n false) false = false.
Proof. revert i. induction n; intros [|i]; cbn; auto. Qed.

Lemma reset_spec v n : wf v → rep (reset v n) (replicate n false) ∧ sizeBytes (reset v n) = (n + 7) / 8.
Proof.
  intros Hw. destruct Hw as [Hn Hb]. unfold reset, rep, wf, mAllocBytes. rewrite length_replicate.
  destruct (Nat.ltb_spec (length (mData v)) ((n + 7) / 8)) as [Hlt|Hge]; cbn [mData mNumBits]; (split; [|done]).
  - rewrite length_replicate. split; [split; [divlia|auto]|]. split; [done|]. intros i Hi.
    by rewrite zeros_bitb, nth_repl_false.
  - rewrite memcpy_length by (rewrite ?length_replicate; lia).
    split; [split; [divlia|auto]|]. split; [done|]. intros i Hi.
    rewrite bitb_memcpy by (rewrite ?length_replicate; lia). rewrite zeros_bitb, nth_repl_false.
    destruct ((8 * 0 <=? i) && (i <? 8 * (0 + (n + 7) / 8))) eqn:E; [done|].
    apply andb_false_iff in E as [E%Nat.leb_gt|E%Nat.ltb_ge]; [lia|divlia].
Qed.

Lemma wf_new : wf BitVector_new.
Proof. split; [cbn; lia|constructor]. Qed.

(** A copy holds the same value, and its bytes are those of the source. *)
Lemma assign_spec v K l : wf v → rep K l → rep (assign v K) l ∧
  ∀ i, i < sizeBytes K → (mData (assign v K)).[i] = (mData K).[i].
Proof.
  intros Hw (HwK & HnK & HK). destruct (reset_spec v (mNumBits K) Hw) as [([Hr Hrb] & Hrn & _) Hrs].
  rewrite length_replicate in Hrn. pose proof (sizeBytes_le K HwK) as [Hs Hs']. unfold assign.
  assert (E : sizeBytes (reset v (mNumBits K)) = sizeBytes K) by done. rewrite E.
  assert (Hle : sizeBytes K ≤ length (mData (reset v (mNumBits K)))) by (unfold sizeBytes; divlia).
  unfold rep, wf. cbn [mData mNumBits]. rewrite memcpy_length by lia. split.
  - split; [split; [done|apply memcpy_ok; [done|apply HwK]]|]. split; [congruence|]. intros i Hi.
    rewrite bitb_memcpy by lia. nat_cmp. rewrite <- HK by done. f_equal. lia.
  - intros i Hi. rewrite nth_memcpy by lia. nat_cmp. f_equal. lia.
Qed.

Lemma masked_bit x k : is_byte x → k < 8 → (0 <? Z.land x (bitMask k))%Z = Z.testbit x (Z.of_nat k).
Proof.
  intros Hx Hk. assert (Hb : ∀ t, Z.testbit (Z.land x (bitMask k)) (Z.of_nat t) = Z.testbit x (Z.of_nat t) && (t =? k)).
  { intros t. by rewrite Z.land_spec, bitMask_testbit. }
  assert (H0 : (0 ≤ Z.land x (bitMask k))%Z) by (apply Z.land_nonneg; left; apply Hx).
  destruct (Z.testbit x (Z.of_nat k)) eqn:E.
  - apply Z.ltb_lt. enough (Z.land x (bitMask k) ≠ 0%Z) by lia. intros E0. specialize (Hb k).
    rewrite E0, Z.testbit_0_l, E, Nat.eqb_refl in Hb. done.
  - apply Z.ltb_ge, Z.eq_le_incl. apply Z.bits_inj'. intros i Hi. rewrite <- (Z2Nat.id i) by lia.
    rewrite Hb, Z.testbit_0_l. destruct (Nat.eqb_spec (Z.to_nat i) k) as [->|]; [by rewrite E|apply andb_false_r].
Qed.

Lemma bits_of_S data off i : bits_of data off (S i) = bits_of data off i ++ [bitb data (off + i)].
Proof. unfold bits_of. by rewrite seq_S, map_app. Qed.

Lemma rep_eq v l l' : rep v l → l = l' → rep v l'.
Proof. by intros ? <-. Qed.

(** The two ways [append] fills the new bits: one by one, and by bytes when both offsets are aligned. *)
Lemma append_bits v l t data len off : rep v (l ++ t) → length t = len → bytes_ok data → off + len ≤ 8 * length data →
  ∃ v', forR 0 len (fun i v => let bit := Z.land data.[(off + i) / 8] (bitMask ((off + i) mod 8)) in
    set v (length l + i) bit) v = Ok v' ∧ rep v' (l ++ bits_of data off len).
Proof.
  intros Hr Ht Hd Hle.
  destruct (forR_inv (fun i v => ∃ t, length t = len - i ∧ rep v (l ++ bits_of data off i ++ t)) 0 len
    (fun i v => let bit := Z.land data.[(off + i) / 8] (bitMask ((off + i) mod 8)) in
      set v (length l + i) bit) v) as (v' & Hv & t' & Ht' & Hr2); [lia| | |].
  - exists t. split; [lia|]. by cbn.
  - intros i w Hi (u & Hu & Hw). destruct u as [|x u]; [cbn in Hu; lia|].
    pose proof (Nat.mod_upper_bound (off + i) 8 ltac:(lia)) as Hm.
    destruct (set_ok w _ (length l + i) (Z.land data.[(off + i) / 8] (bitMask ((off + i) mod 8))) Hw) as (w' & Hs & Hw').
    { rewrite !length_app, bits_of_length. cbn [length]. lia. }
    exists w'. split; [done|]. exists u. split; [cbn in Hu; lia|]. eapply rep_eq; [exact Hw'|].
    rewrite masked_bit by (done || by apply is_byte_nth).
    rewrite insert_app_r, insert_app_r_alt by (rewrite bits_of_length; lia).
    rewrite bits_of_length, Nat.sub_diag, bits_of_S. cbn [insert list_insert]. by rewrite <- app_assoc.
  - exists v'. split; [done|]. eapply rep_eq; [exact Hr2|]. destruct t'; [|cbn in Ht'; lia]. by rewrite app_nil_r.
Qed.

Lemma append_bytes v l t data len off : rep v (l ++ t) → length t = len → bytes_ok data → off + len ≤ 8 * length data →
  off mod 8 = 0 → length l mod 8 = 0 →
  rep (mkBV (memcpy (mData v) (length l / 8) data (off / 8) ((len + 7) / 8)) (mNumBits v)) (l ++ bits_of data off len).
Proof.
  intros ([Hw Hb] & Hn & H) Ht Hd Hle Ho Hl. rewrite length_app in *. unfold rep, wf. cbn [mData mNumBits].
  assert (Hdst : length l / 8 + (len + 7) / 8 ≤ length (mData v)) by divlia.
  assert (Hsrc : off / 8 + (len + 7) / 8 ≤ length data) by divlia.
  rewrite memcpy_length by done. split; [split; [done|auto]|]. rewrite length_app, bits_of_length.
  split; [lia|]. intros i Hi. rewrite bitb_memcpy by done. destruct (Nat.lt_ge_cases i (length l)) as [Hlt|Hge].
  - replace (8 * (length l / 8) <=? i) with false by (symmetry; apply Nat.leb_gt; divlia). cbn [andb].
    rewrite H, !app_nth1 by lia. done.
  - replace (8 * (length l / 8) <=? i) with true by (symmetry; apply Nat.leb_le; divlia).
    replace (i <? 8 * (length l / 8 + (len + 7) / 8)) with true by (symmetry; apply Nat.ltb_lt; divlia).
    cbn [andb]. rewrite app_nth2, bits_of_nth by lia. f_equal. divlia.
Qed.

(** [append] adds the slice of the source, whatever the alignments. *)
Lemma append_spec v l data len off : rep v l → bytes_ok data → off + len ≤ 8 * length data →
  ∃ v', append v data len off = Ok v' ∧ rep v' (l ++ bits_of data off len).
Proof.
  intros Hr Hd Hle. pose proof Hr as (_ & Hn & _).
  destruct (resize_grows v l (mNumBits v + len) Hr ltac:(lia)) as (t & Ht & Hr').
  unfold append. rewrite Hn in *. destruct (negb _ || negb _) eqn:E.
  - apply (append_bits _ _ t); auto; lia.
  - apply orb_false_iff in E as [E1%negb_false_iff%Nat.eqb_eq E2%negb_false_iff%Nat.eqb_eq].
    eexists. split; [done|]. apply (append_bytes _ _ t); auto; lia.
Qed.

Lemma copy_spec v src data idx len : wf v → rep src data → idx + len ≤ length data →
  ∃ v', copy v src idx len = Ok v' ∧ rep v' (take len (drop idx data)).
Proof.
  intros Hw (Hs & Hn & H) Hle. pose proof (resize_shrinks v _ 0 (wf_rep v Hw) ltac:(lia)) as Hr. rewrite take_0 in Hr.
  destruct (append_spec _ _ (mData src) len idx Hr) as (v' & Hv & Hr'); [apply Hs|destruct Hs; lia|].
  exists v'. split; [done|]. eapply rep_eq; [exact Hr'|]. cbn [app].
  apply (nth_ext _ _ false false); rewrite bits_of_length; [rewrite length_take, length_drop; lia|].
  intros i Hi. rewrite bits_of_nth by done. rewrite H by lia.
  rewrite !nth_lookup, lookup_take_lt, lookup_drop by done. done.
Qed.

Lemma pushBack_spec v l bit : rep v l → ∃ v', pushBack v bit = Ok v' ∧ rep v' (l ++ [(0 <? bit)%Z]).
Proof.
  intros Hr. unfold pushBack. set (v1 := if size v =? capacity v then _ else _).
  assert (Hr1 : rep v1 l) by (subst v1; destruct (size v =? capacity v); [by apply reserve_rep|done]).
  clearbody v1. pose proof Hr1 as (_ & Hn & _). unfold size. rewrite Hn.
  destruct (resize_grows v1 l (length l + 1) Hr1 ltac:(lia)) as (t & Ht & Hr2).
  destruct t as [|x [|]]; cbn in Ht; try lia. pose proof Hr2 as (_ & Hn2 & _). rewrite length_app in Hn2. cbn in Hn2.
  rewrite Hn2. destruct (set_ok _ _ (length l + 1 - 1) bit Hr2) as (v' & Hs & Hr'); [rewrite length_app; cbn; lia|].
  exists v'. split; [done|]. eapply rep_eq; [exact Hr'|].
  replace (length l + 1 - 1) with (length l + 0) by lia. by rewrite insert_app_r.
Qed.

(** * Bitwise operators *)

Lemma map_bytes (h : nat → Z → Z) data n : n ≤ length data →
  let data' := for_ 0 n (fun i data => <[i := h i data.[i]]> data) data in
  length data' = length data ∧ ∀ i, data'.[i] = if i <? n then h i data.[i] else data.[i].
Proof.
  intros Hn. loop_inv (fun k (d : list Z) => length d = length data ∧
    ∀ i, d.[i] = if i <? k then h i data.[i] else data.[i]) as H; [lia|done| |exact H].
  intros k d Hk [Hl Hd]. rewrite length_insert. split; [done|]. intros i. rewrite nth_insert.
  destruct (decide _) as [[<- _]|Hne].
  - rewrite Hd. by nat_cmp.
  - rewrite Hd. destruct (Nat.ltb_spec i k), (Nat.ltb_spec i (S k)); try done; lia.
Qed.

(** A byte operation [f] that acts on every bit as [g]. *)
Class ByteOp (f : Z → Z → Z) (g : bool → bool → bool) : Prop :=
  { byte_op : ∀ x y, is_byte x → is_byte y → is_byte (f x y);
    byte_op_bit : ∀ x y k, Z.testbit (f x y) k = g (Z.testbit x k) (Z.testbit y k) }.

#[export] Instance xor_op : ByteOp Z.lxor xorb.
Proof. split; [intros; apply in_word_lxor; auto; lia|apply Z.lxor_spec]. Qed.
#[export] Instance and_op : ByteOp Z.land andb.
Proof. split; [intros x y ? Hy; apply in_word_land; auto; [lia|apply Hy]|apply Z.land_spec]. Qed.
#[export] Instance or_op : ByteOp Z.lor orb.
Proof. split; [intros; apply in_word_lor; auto; lia|apply Z.lor_spec]. Qed.

Lemma Forall_nth_intro (P : Z → Prop) l : (∀ i, i < length l → P l.[i]) → Forall P l.
Proof.
  intros H. apply Forall_lookup_2. intros i x Hx. pose proof (lookup_lt_Some _ _ _ Hx) as Hi.
  specialize (H i Hi). by rewrite (nth_lookup_Some _ _ _ _ Hx) in H.
Qed.

Lemma zip_nth (g : bool → bool → bool) l m i : i < length l → i < length m →
  nth i (zip_with g l m) false = g (nth i l false) (nth i m false).
Proof. revert l m. induction i; intros [|] [|]; cbn; intros; try lia; auto. apply IHi; lia. Qed.

Lemma bytewise_spec f g `{!ByteOp f g} v A l m : rep v l → rep A m → length l ≤ length m →
  rep (bytewise f v A) (zip_with g l m).
Proof.
  intros (Hw & Hn & H) (Hw' & Hn' & H') Hle. pose proof (sizeBytes_le v Hw) as [Hs Hs'].
  pose proof (map_bytes (fun i x => f x (mData A).[i]) (mData v) (sizeBytes v) Hs) as [Hl Hd].
  destruct Hw as [Hw Hb], Hw' as [Hw' Hb']. unfold bytewise, rep, wf. cbn [mData mNumBits].
  rewrite Hl, length_zip_with. split; [split; [done|]|].
  - apply Forall_nth_intro. rewrite Hl. intros i Hi. rewrite Hd. destruct (i <? sizeBytes v).
    + apply byte_op; by apply is_byte_nth.
    + by apply is_byte_nth.
  - split; [lia|]. intros i Hi. unfold bitb. rewrite Hd.
    replace (i / 8 <? sizeBytes v) with true by (symmetry; apply Nat.ltb_lt; divlia).
    rewrite byte_op_bit, zip_nth by lia. f_equal; [apply H|apply H']; lia.
Qed.

(** The copy of a vector and its complement. *)
Lemma copy_rep v l : rep v l → rep (assign BitVector_new v) l.
Proof. intros Hr. by apply assign_spec; [apply wf_new|]. Qed.

Lemma not_spec v l : rep v l → rep (not_ v) (map negb l).
Proof.
  intros Hr. pose proof (copy_rep v l Hr) as ([Hc Hcb] & Hcn & _). destruct Hr as (Hw & Hn & H).
  pose proof (sizeBytes_le v Hw) as [Hs Hs']. destruct Hw as [Hw Hb].
  set (ret := assign BitVector_new v) in *.
  assert (Hsr : sizeBytes v ≤ length (mData ret)) by (unfold sizeBytes; divlia).
  pose proof (map_bytes (fun i _ => wnot 8 (mData v).[i]) (mData ret) (sizeBytes v) Hsr) as [Hl Hd].
  unfold not_. fold ret. unfold rep, wf. cbn [mData mNumBits]. rewrite Hl, length_map.
  split; [split; [done|]|].
  - apply Forall_nth_intro. rewrite Hl. intros i Hi. rewrite Hd. destruct (i <? sizeBytes v).
    + apply in_word_wrap. lia.
    + by apply is_byte_nth.
  - split; [done|]. intros i Hi. pose proof (Nat.mod_upper_bound i 8 ltac:(lia)). unfold bitb. rewrite Hd.
    replace (i / 8 <? sizeBytes v) with true by (symmetry; apply Nat.ltb_lt; divlia).
    unfold wnot. rewrite wrap_testbit, Z.lnot_spec by lia.
    replace (Z.of_nat (i mod 8) <? 8)%Z with true by (symmetry; apply Z.ltb_lt; lia). cbn [andb].
    rewrite (nth_indep _ _ (negb false)), map_nth by (rewrite length_map; lia). f_equal. by apply H.
Qed.

Lemma xor_throws v A : mNumBits v ≠ mNumBits A → xor_assign v A = Throw rt_error.
Proof. intros H. unfold xor_assign. by nat_false (mNumBits v =? mNumBits A). Qed.

Lemma xor_assign_spec v A l m : rep v l → rep A m → length l = length m →
  ∃ v', xor_assign v A = Ok v' ∧ rep v' (zip_with xorb l m).
Proof.
  intros Hv HA Hl. eexists. unfold xor_assign. pose proof Hv as (_ & -> & _). pose proof HA as (_ & -> & _).
  nat_true (length l =? length m). split; [done|]. apply bytewise_spec; [apply _|done|done|lia].
Qed.

(** * Counting *)

Lemma weight_app l m : weight (l ++ m) = weight l + weight m.
Proof. unfold weight. induction l; cbn in *; lia. Qed.

Definition byte_bits (x : Z) : list bool := map (fun k => Z.testbit x (Z.of_nat k)) (seq 0 8).

(** The loop of [b &= b - 1] runs at most eight times and counts the set bits. *)
Lemma popcount_spec fuel x : is_byte x → 8 ≤ fuel → popcount fuel x = weight (byte_bits x).
Proof.
  intros Hx Hf. assert (Hall : forallb (fun n => let x := Z.of_nat n in
    (popcount 8 x =? weight (byte_bits x)) && (popcount 9 x =? popcount 8 x)) (seq 0 256) = true) by now vm_compute.
  rewrite forallb_forall in Hall. specialize (Hall (Z.to_nat x)).
  rewrite in_seq, Z2Nat.id, andb_true_iff, !Nat.eqb_eq in Hall by apply Hx.
  destruct Hall as [<- H9]; [destruct Hx; change (2 ^ 8)%Z with 256%Z in *; lia|].
  assert (Hmono : ∀ n b, popcount (S n) b = popcount n b → ∀ k, popcount (k + n) b = popcount n b).
  { clear. induction n as [|n IH]; intros b Hb k.
    - cbn in Hb. destruct (b =? 0)%Z eqn:E; [|done]. destruct k; cbn; [done|]. by rewrite E.
    - rewrite <- plus_n_Sm. cbn in *. destruct (b =? 0)%Z; [done|]. f_equal. apply IH. lia. }
  replace fuel with (fuel - 8 + 8) by lia. apply Hmono, H9.
Qed.

Lemma bits_of_app data off n m : bits_of data off (n + m) = bits_of data off n ++ bits_of data (off + n) m.
Proof. unfold bits_of. by rewrite seq_app, map_app. Qed.

Lemma byte_bits_of data i : byte_bits data.[i] = bits_of data (8 * i) 8.
Proof.
  apply (nth_ext _ _ false false); [done|]. intros j Hj. cbn [length byte_bits map seq] in Hj.
  rewrite bits_of_nth by done. unfold bitb. replace ((8 * i + j) / 8) with i by divlia.
  replace ((8 * i + j) mod 8) with j by divlia. do 8 (destruct j as [|j]; [done|]). lia.
Qed.

Lemma hammingWeight_spec v : wf v → hammingWeight v = weight (bits_of (mData v) 0 (8 * sizeBytes v)).
Proof.
  intros [_ Hb]. unfold hammingWeight.
  loop_inv (fun i h => h = weight (bits_of (mData v) 0 (8 * i))) as H; [lia|done| |exact H].
  intros i h _ ->. rewrite popcount_spec, byte_bits_of by (done || by apply is_byte_nth).
  replace (8 * S i) with (8 * i + 8) by lia. by rewrite bits_of_app, weight_app.
Qed.

Definition xor_all (l : list bool) : bool := foldr xorb false l.

Lemma xor_all_app l m : xor_all (l ++ m) = xorb (xor_all l) (xor_all m).
Proof.
  induction l as [|x l IH]; [by rewrite xorb_false_l|]. change (xor_all ((x :: l) ++ m)) with (xorb x (xor_all (l ++ m))).
  by rewrite IH, <- xorb_assoc.
Qed.

Lemma parity_step data i k bit : k < 8 → bit = Z.b2z (xor_all (bits_of data 0 (8 * i + k))) →
  Z.lxor bit (Z.land (Z.shiftr data.[i] (Z.of_nat k)) 1) = Z.b2z (xor_all (bits_of data 0 (8 * i + S k))).
Proof.
  intros Hk ->. replace (8 * i + S k) with (8 * i + k + 1) by lia.
  assert (E : Z.land (Z.shiftr data.[i] (Z.of_nat k)) 1 = Z.b2z (bitb data (8 * i + k))).
  { unfold bitb. replace ((8 * i + k) / 8) with i by divlia. replace ((8 * i + k) mod 8) with k by divlia.
    change 1%Z with (Z.ones 1). by rewrite Z.land_ones, Z.shiftr_div_pow2, Z.testbit_spec' by lia. }
  rewrite E, (bits_of_app data 0 (8 * i + k) 1), xor_all_app. cbn [bits_of seq map xor_all foldr].
  by destruct (xor_all _), (bitb _ _).
Qed.

Lemma parity_bits_spec v l : rep v l → parity v = Z.b2z (xor_all l).
Proof.
  intros Hr. rewrite (rep_bits v l Hr) at 1. unfold parity. set (n := mNumBits v / 8).
  match goal with |- for_ 0 _ _ ?s = _ => assert (H1 : s = Z.b2z (xor_all (bits_of (mData v) 0 (8 * n)))) end.
  - loop_inv (fun i bit => bit = Z.b2z (xor_all (bits_of (mData v) 0 (8 * i)))) as H1; [lia|done| |exact H1].
    intros i bit _ Hbit. loop_inv (fun k bit => bit = Z.b2z (xor_all (bits_of (mData v) 0 (8 * i + k)))) as H2; [lia| | |].
    + by rewrite Nat.add_0_r.
    + intros k b Hk. apply parity_step. lia.
    + rewrite H2. do 3 f_equal. lia.
  - rewrite H1. loop_inv (fun k bit => bit = Z.b2z (xor_all (bits_of (mData v) 0 (8 * n + k)))) as H3; [lia| | |].
    + by rewrite Nat.add_0_r.
    + intros k b Hk. apply parity_step. subst n. divlia.
    + rewrite H3. do 3 f_equal. subst n. divlia.
Qed.

(** * Equality *)

(** The number of leading bits that [equals] compares. *)
Definition compared (n : nat) : nat := 8 * ((n + 7) / 8 - 1) + n mod 8.

Lemma byte_eq_bits data data' i : bytes_ok data → bytes_ok data' →
  (data.[i] = data'.[i] ↔ ∀ j, j / 8 = i → bitb data j = bitb data' j).
Proof.
  intros Hd Hd'. split; [by unfold bitb; intros H j ->; rewrite H|]. intros H.
  apply (word_ext 8); [lia|by apply is_byte_nth|by apply is_byte_nth|]. intros k Hk.
  specialize (H (8 * i + Z.to_nat k) ltac:(divlia)). unfold bitb in H.
  replace ((8 * i + Z.to_nat k) / 8) with i in H by divlia.
  replace ((8 * i + Z.to_nat k) mod 8) with (Z.to_nat k) in H by divlia. by rewrite Z2Nat.id in H by lia.
Qed.

Lemma masked_eq_bits data data' i r : r < 8 →
  let mask := u8 (Z.shiftr 255 (Z.of_nat (8 - r))) in
  (Z.land data.[i] mask = Z.land data'.[i] mask ↔ ∀ t, t < r → bitb data (8 * i + t) = bitb data' (8 * i + t)).
Proof.
  intros Hr mask. assert (Hm : mask = Z.ones (Z.of_nat r)).
  { subst mask. do 8 (destruct r as [|r]; [reflexivity|]). lia. }
  assert (Hb : ∀ d t, t < r → bitb d (8 * i + t) = Z.testbit d.[i] (Z.of_nat t)).
  { intros d t Ht. unfold bitb. replace ((8 * i + t) / 8) with i by divlia. by replace ((8 * i + t) mod 8) with t by divlia. }
  rewrite Hm. clear Hm mask. split; intros H.
  - intros t Ht. rewrite !Hb by done. apply (f_equal (fun z => Z.testbit z (Z.of_nat t))) in H.
    rewrite !Z.land_spec, Z.testbit_ones_nonneg in H by lia.
    replace (Z.of_nat t <? Z.of_nat r)%Z with true in H by (symmetry; apply Z.ltb_lt; lia).
    by rewrite !andb_true_r in H.
  - apply Z.bits_inj'. intros k Hk. rewrite !Z.land_spec, Z.testbit_ones_nonneg by lia.
    destruct (Z.ltb_spec k (Z.of_nat r)); [|by rewrite !andb_false_r]. rewrite !andb_true_r.
    specialize (H (Z.to_nat k) ltac:(lia)). by rewrite !Hb, Z2Nat.id in H by lia.
Qed.

Lemma equals_bits v w : wf v → wf w → mNumBits v = mNumBits w → 0 < mNumBits v →
  ∃ b, equals v w = Some b ∧ (b = true ↔ ∀ j, j < compared (mNumBits v) → bitb (mData v) j = bitb (mData w) j).
Proof.
  intros [_ Hv] [_ Hw] Hn Hpos. unfold equals, sizeBytes, compared. rewrite <- Hn, Nat.eqb_refl. cbn [negb].
  set (n := mNumBits v) in *. replace ((n + 7) / 8 =? 0) with false by (symmetry; apply Nat.eqb_neq; divlia).
  set (q := (n + 7) / 8 - 1). pose proof (Nat.mod_upper_bound n 8 ltac:(lia)) as Hr.
  pose proof (masked_eq_bits (mData v) (mData w) q (n mod 8) Hr) as Hm. cbv zeta in Hm. destruct (existsb _ _) eqn:E.
  - exists false. split; [done|]. split; [done|]. intros H. exfalso.
    apply existsb_exists in E as (i & Hi%in_seq & Hne%negb_true_iff%Z.eqb_neq). apply Hne.
    apply byte_eq_bits; [done|done|]. intros j Hj. apply H. divlia.
  - eexists. split; [done|]. rewrite Z.eqb_eq, Hm. split; intros H.
    + intros j Hj. destruct (Nat.lt_ge_cases j (8 * q)) as [Hlt|Hge].
      * apply (proj1 (byte_eq_bits (mData v) (mData w) (j / 8) Hv Hw)); [|done].
        apply Z.eqb_eq, negb_false_iff. destruct (negb _) eqn:En; [|done].
        assert (existsb (fun i => negb ((mData v).[i] =? (mData w).[i])%Z) (seq 0 q) = true); [|congruence].
        apply existsb_exists. exists (j / 8). split; [apply in_seq; divlia|done].
      * replace j with (8 * q + (j - 8 * q)) by lia. apply H. lia.
    + intros t Ht. apply H. lia.
Qed.

(** What [==] decides: the sizes and the first bits.  The last byte of a vector of whole bytes is not compared, and two
    empty vectors read out of range. *)
Lemma equals_spec v w l m : rep v l → rep w m →
  equals v w = if negb (length l =? length m) then Some false else if length l =? 0 then None
               else Some (bool_decide (take (compared (length l)) l = take (compared (length l)) m)).
Proof.
  intros (Hv & Hnv & H) (Hw & Hnw & H'). destruct (Nat.eqb_spec (length l) (length m)) as [E|E]; cbn [negb].
  2: { unfold equals. rewrite Hnv, Hnw. by nat_false (length l =? length m). }
  destruct (Nat.eqb_spec (length l) 0) as [E0|E0].
  { unfold equals, sizeBytes. rewrite Hnv, Hnw, E, Nat.eqb_refl, <- E, E0. done. }
  destruct (equals_bits v w Hv Hw ltac:(lia) ltac:(lia)) as (b & -> & Hb). f_equal. rewrite Hnv in Hb.
  assert (Hc : compared (length l) ≤ length l) by (unfold compared; divlia).
  destruct b; symmetry; [apply bool_decide_eq_true|apply bool_decide_eq_false].
  - apply (nth_ext _ _ false false); [rewrite !length_take; lia|]. intros i Hi. rewrite length_take in Hi.
    rewrite !nth_lookup, !lookup_take_lt, <- !nth_lookup by lia. rewrite <- H, <- H' by lia. apply Hb; [done|lia].
  - intros Ht. enough (false = true) by done. apply Hb. intros j Hj. rewrite H, H' by lia.
    apply (f_equal (fun l => nth j l false)) in Ht. by rewrite !nth_lookup, !lookup_take_lt, <- !nth_lookup in Ht by lia.
Qed.

(** * Random subsets *)

Lemma weight_insert l i b : i < length l →
  weight (<[i := b]> l) + Nat.b2n (nth i l false) = weight l + Nat.b2n b.
Proof.
  revert i. unfold weight. induction l as [|x l IH]; intros [|i] Hi; cbn in *; try lia.
  rewrite <- !Nat.add_assoc. f_equal. apply IH. lia.
Qed.

Lemma weight_replicate n b : weight (replicate n b) = n * Nat.b2n b.
Proof. unfold weight. induction n; cbn in *; [done|]. lia. Qed.

(** The bytes set by the [memset], then the bits from [k - 1] down to a multiple of four. *)
Lemma memset_rep v n q : rep v (replicate n false) → 8 * q ≤ n →
  rep (mkBV (memcpy (mData v) 0 (replicate q 255%Z) 0 q) (mNumBits v)) (replicate (8 * q) true ++ replicate (n - 8 * q) false).
Proof.
  intros ([Hw Hb] & Hn & H) Hq. rewrite length_replicate in *. unfold rep, wf. cbn [mData mNumBits].
  rewrite memcpy_length by (rewrite ?length_replicate; lia). rewrite length_app, !length_replicate.
  split; [split; [done|]|].
  - apply memcpy_ok; [done|]. apply Forall_replicate. split; [lia|]. by vm_compute.
  - split; [lia|]. intros i Hi. rewrite bitb_memcpy by (rewrite ?length_replicate; lia). nat_cmp.
    destruct (Nat.ltb_spec i (8 * (0 + q))).
    + rewrite app_nth1 by (rewrite length_replicate; lia). unfold bitb. rewrite nth_replicate, decide_True by divlia.
      rewrite nth_lookup, lookup_replicate_2 by lia. cbn [default]. pose proof (Nat.mod_upper_bound (8 * 0 + (i - 8 * 0)) 8 ltac:(lia)).
      change 255%Z with (Z.ones 8). rewrite Z.testbit_ones_nonneg by lia. apply Z.ltb_lt. lia.
    + rewrite H, nth_repl_false, app_nth2, nth_repl_false by (rewrite ?length_replicate; lia). done.
Qed.

Lemma nChoosek_low v n k : rep v (replicate (8 * (k / 8)) true ++ replicate (n - 8 * (k / 8)) false) → k ≤ n →
  ∃ v' l, forR 0 (k - k / 4 * 4) (fun t v => set v (k - 1 - t) 1) v = Ok v' ∧ rep v' l ∧ length l = n ∧
    weight l = 8 * (k / 8) + k mod 4 ∧ ∀ j, k ≤ j → nth j l false = false.
Proof.
  intros Hr Hk. set (q := k / 8) in *. assert (Hq : 8 * q ≤ k / 4 * 4) by (subst q; divlia).
  destruct (forR_inv (fun t v => ∃ l, rep v l ∧ length l = n ∧ weight l = 8 * q + t ∧
    ∀ j, k ≤ j ∨ 8 * q ≤ j < k - t → nth j l false = false) 0 (k - k / 4 * 4)
    (fun t v => set v (k - 1 - t) 1) v) as (v' & Hv & l & Hl); [lia| | |].
  - exists (replicate (8 * q) true ++ replicate (n - 8 * q) false). rewrite length_app, !length_replicate.
    rewrite weight_app, !weight_replicate. split; [done|]. split; [divlia|]. split; [cbn; lia|].
    intros j Hj. rewrite app_nth2, nth_repl_false by (rewrite length_replicate; divlia). done.
  - intros t w Ht (l & Hw & Hn & Hwt & Hz).
    destruct (set_ok w l (k - 1 - t) 1 Hw ltac:(lia)) as (w' & -> & Hw'). exists w'. split; [done|].
    eexists. split; [exact Hw'|]. rewrite length_insert. split; [done|]. split.
    + pose proof (weight_insert l (k - 1 - t) true ltac:(lia)) as Hi. rewrite (Hz (k - 1 - t)) in Hi by lia.
      cbn [Nat.b2n] in Hi. change (0 <? 1)%Z with true. lia.
    + intros j Hj. rewrite nth_upd_bool, decide_False by lia. apply Hz. lia.
  - exists v', l. destruct Hl as (H1 & H2 & H3 & H4). split; [done|]. split; [done|]. split; [done|].
    split; [rewrite H3; divlia|]. intros j Hj. apply H4. by left.
Qed.

(** Each turn of the second loop moves a set bit or does nothing. *)
Lemma nChoosek_reservoir v l n k draw : rep v l → length l = n → 0 < k ≤ n → (∀ j, k ≤ j → nth j l false = false) →
  ∃ v' l', forR k n (fun i v => let j := Z.to_nat (draw (i - k) mod Z.of_nat i) in
      if j <? k then b ← get v j; v ← set v j 0; set v i b else mret v) v = Ok v' ∧
    rep v' l' ∧ length l' = n ∧ weight l' = weight l.
Proof.
  intros Hr Hn Hk Hz. destruct (forR_inv (fun i v => ∃ l', rep v l' ∧ length l' = n ∧ weight l' = weight l ∧
    ∀ j, i ≤ j → nth j l' false = false) k n (fun i v => let j := Z.to_nat (draw (i - k) mod Z.of_nat i) in
      if j <? k then b ← get v j; v ← set v j 0; set v i b else mret v) v) as (v' & Hv & l' & H1 & H2 & H3 & _); [lia| | |].
  - by exists l.
  - intros i w Hi (m & Hw & Hm & Hwt & Hzm). cbv zeta. set (j := Z.to_nat (draw (i - k) mod Z.of_nat i)). clearbody j.
    destruct (Nat.ltb_spec j k) as [Hj|].
    2: { exists w. split; [done|]. exists m. split; [done|]. split; [done|]. split; [done|]. intros. apply Hzm. lia. }
    rewrite (get_ok w m j) by (done || lia). cbn [mbind Res_bind].
    destruct (set_ok w m j 0 Hw ltac:(lia)) as (w1 & -> & Hw1). cbn [mbind Res_bind].
    destruct (set_ok w1 _ i (Z.b2z (nth j m false)) Hw1) as (w2 & -> & Hw2); [rewrite length_insert; lia|].
    exists w2. split; [done|]. eexists. split; [exact Hw2|]. rewrite !length_insert. split; [done|].
    change (0 <? 0)%Z with false. split.
    + pose proof (weight_insert (<[j := false]> m) i (nth j m false)) as Hi2. rewrite length_insert in Hi2.
      specialize (Hi2 ltac:(lia)). rewrite nth_upd_bool, decide_False in Hi2 by lia. rewrite (Hzm i) in Hi2 by lia.
      pose proof (weight_insert m j false ltac:(lia)) as Hi1. cbn [Nat.b2n] in *.
      replace (0 <? Z.b2z (nth j m false))%Z with (nth j m false) by (by destruct (nth j m false)). lia.
    + intros t Ht. rewrite !nth_upd_bool, !decide_False by lia. apply Hzm. lia.
  - exists v', l'. auto.
Qed.

Lemma nChoosek_small v n k draw : wf v → k < 4 → k ≤ n → nChoosek v n k draw = Throw rt_error.
Proof.
  intros Hw Hk Hn. unfold nChoosek. destruct (reset_spec v n Hw) as [Hr _].
  pose proof (memset_rep _ n (k / 8) Hr ltac:(divlia)) as Hm.
  destruct (nChoosek_low _ n k Hm Hn) as (v' & l & E & _). rewrite E. cbn [mbind Res_bind].
  replace (k / 4 * 4) with 0 by divlia. done.
Qed.

Lemma nChoosek_spec v n k draw : wf v → 4 ≤ k ≤ n →
  ∃ v' l, nChoosek v n k draw = Ok v' ∧ rep v' l ∧ length l = n ∧ weight l = 8 * (k / 8) + k mod 4.
Proof.
  intros Hw Hk. unfold nChoosek. destruct (reset_spec v n Hw) as [Hr _].
  pose proof (memset_rep _ n (k / 8) Hr ltac:(divlia)) as Hm.
  destruct (nChoosek_low _ n k Hm ltac:(lia)) as (v1 & l & -> & Hl & Hn & Hwt & Hz). cbn [mbind Res_bind].
  replace (k / 4 * 4 =? 0) with false by (symmetry; apply Nat.eqb_neq; divlia). cbn [throw_if mbind Res_bind].
  destruct (nChoosek_reservoir v1 l n k draw Hl Hn ltac:(lia) Hz) as (v' & l' & E & H1 & H2 & H3).
  exists v', l'. split; [exact E|]. rewrite H3. auto.
Qed.

(** * Strings *)

Definition char_of (b : bool) : Ascii.ascii := if b then "1"%char else "0"%char.
Definition bit_of (c : Ascii.ascii) : bool := negb (Ascii.eqb c "0"%char).

Lemma digit_bit c : (0 <? u8 (Z.of_nat (Ascii.nat_of_ascii c) - 48))%Z = bit_of c.
Proof. destruct c as [[] [] [] [] [] [] [] []]; reflexivity. Qed.

Lemma char_digit b : Ascii.ascii_of_nat (48 + Z.to_nat (Z.b2z b)) = char_of b.
Proof. by destruct b. Qed.

(** A loop that overwrites the bits of a vector one after the other. *)
Lemma fill_spec v l (f : nat → Z) (b : nat → bool) : rep v l → (∀ i, i < length l → (0 <? f i)%Z = b i) →
  ∃ v', forR 0 (length l) (fun i v => set v i (f i)) v = Ok v' ∧ rep v' (map b (seq 0 (length l))).
Proof.
  intros Hr Hf. destruct (forR_inv (fun i v => rep v (map b (seq 0 i) ++ drop i l)) 0 (length l)
    (fun i v => set v i (f i)) v) as (v' & Hv & Hr'); [lia|by rewrite drop_0| |].
  - intros i w Hi Hw. destruct (set_ok w _ i (f i) Hw) as (w' & -> & Hw').
    { rewrite length_app, length_map, length_seq, length_drop. lia. }
    exists w'. split; [done|]. eapply rep_eq; [exact Hw'|]. rewrite Hf by lia.
    assert (Hl : length (map b (seq 0 i)) = i) by (by rewrite length_map, length_seq).
    destruct (lookup_lt_is_Some_2 l i ltac:(lia)) as [x Hx]. rewrite (drop_S _ _ _ Hx).
    replace i with (length (map b (seq 0 i)) + 0) at 1 by lia. rewrite insert_app_r.
    rewrite seq_S, map_app, <- app_assoc. done.
  - exists v'. split; [done|]. eapply rep_eq; [exact Hr'|]. by rewrite drop_all, app_nil_r.
Qed.

Lemma map_nth_seq {A B} (g : A → B) (l : list A) d : map (fun i => g (nth i l d)) (seq 0 (length l)) = map g l.
Proof.
  apply list_eq. intros i. rewrite !list_lookup_fmap. destruct (decide (i < length l)) as [Hi|Hi].
  - rewrite lookup_seq_lt by done. cbn. destruct (lookup_lt_is_Some_2 l i Hi) as [x Hx].
    by rewrite Hx, (nth_lookup_Some _ _ _ _ Hx).
  - rewrite lookup_seq_ge, (lookup_ge_None_2 l) by lia. done.
Qed.

(** Every character but 0 sets its bit. *)
Lemma fromString_spec v data : wf v → ∃ v', fromString v data = Ok v' ∧ rep v' (map bit_of data).
Proof.
  intros Hw. unfold fromString. destruct (resize_spec v (length data) Hw) as (Hw' & Hn & _).
  set (v1 := resize v (length data)) in *. pose proof (wf_rep v1 Hw') as Hr. rewrite Hn in Hr.
  destruct (fill_spec v1 _ (fun i => u8 (Z.of_nat (Ascii.nat_of_ascii (nth i data Ascii.zero)) - 48))
    (fun i => bit_of (nth i data Ascii.zero)) Hr) as (v' & Hv & Hr'); [intros; apply digit_bit|].
  rewrite bits_of_length in *. exists v'. unfold size. rewrite Hn. split; [exact Hv|].
  eapply rep_eq; [exact Hr'|]. apply map_nth_seq.
Qed.

Lemma print_spec v l : rep v l → print v = Ok (map char_of l).
Proof.
  intros Hr. pose proof Hr as (_ & Hn & _). unfold print, size. rewrite Hn.
  destruct (forR_inv (fun i out => out = map char_of (take i l)) 0 (length l)
    (fun i out => b ← get v i; mret (out ++ [Ascii.ascii_of_nat (48 + Z.to_nat b)])) []) as (o & Ho & ->); [lia|done| |].
  - intros i out Hi ->. rewrite (get_ok v l i) by (done || lia). cbn [mbind Res_bind]. rewrite char_digit.
    eexists. split; [done|]. destruct (lookup_lt_is_Some_2 l i ltac:(lia)) as [x Hx].
    by rewrite (take_S_r _ _ _ Hx), map_app, (nth_lookup_Some _ _ _ _ Hx).
  - by rewrite Ho, firstn_all.
Qed.

(** * Iterators *)

(** [begin] moved over [i] bits. *)
Definition pos (i : nat) : BitIterator := BitIterator_of (i / 8) (i mod 8).

Lemma next_pos i : next (pos i) = pos (i + 1).
Proof.
  unfold next, pos, BitIterator_of. cbn [mByte mShift]. replace ((i mod 8 + 1) mod 8) with ((i + 1) mod 8) by divlia.
  f_equal. destruct (Nat.eqb_spec (i mod 8) 7); divlia.
Qed.

Lemma iter_pos i : Nat.iter i next begin_ = pos i.
Proof. induction i as [|i IH]; [done|]. change (Nat.iter (S i) next begin_) with (next (Nat.iter i next begin_)). rewrite IH, next_pos. f_equal. lia. Qed.

Lemma deref_pos data i : deref data (pos i) = Z.b2z (bitb data i).
Proof. apply ref_get_bit. apply (Nat.mod_upper_bound i 8). lia. Qed.

(** The sum has the byte and the shift of the position, with the mask of the position it started from. *)
Lemma plus_pos i n : plus (pos i) (Z.of_nat n) = Ok (mkIter ((i + n) / 8) (bitMask (i mod 8)) ((i + n) mod 8)).
Proof.
  unfold plus, pos, BitIterator_of. replace (Z.of_nat n <? 0)%Z with false by (symmetry; apply Z.ltb_ge; lia).
  cbn [throw_if mbind Res_bind mByte mShift]. rewrite Nat2Z.id. f_equal. f_equal; [|divlia].
  destruct (Nat.ltb_spec 7 (i mod 8 + n mod 8)); divlia.
Qed.

(** * What the vectors promise *)

(** The literal bytes of a witness. *)
Ltac bytes_lit := cbn [mData]; repeat (apply Forall_cons; split; [split; [lia|reflexivity]|]); apply Forall_nil_2.

Lemma get_throws v i : mNumBits v ≤ i → get v i = Throw rt_error.
Proof. intros. unfold get, index. by nat_true (mNumBits v <=? i). Qed.

Lemma append_vector v w l m : rep v l → rep w m →
  ∃ v', append v (mData w) (size w) 0 = Ok v' ∧ rep v' (l ++ m).
Proof.
  intros Hv Hw. pose proof Hw as ([Hb Hbo] & Hn & _). unfold size.
  destruct (append_spec v l (mData w) (mNumBits w) 0 Hv Hbo) as (v' & E & Hr); [lia|].
  exists v'. split; [done|]. eapply rep_eq; [exact Hr|]. by rewrite <- (rep_bits w m Hw).
Qed.

Lemma hammingWeight_rep v l : rep v l →
  hammingWeight v = weight l + weight (bits_of (mData v) (length l) (8 * sizeBytes v - length l)).
Proof.
  intros Hr. pose proof Hr as (Hw & Hn & _). rewrite hammingWeight_spec by done.
  pose proof (sizeBytes_le v Hw). replace (8 * sizeBytes v) with (length l + (8 * sizeBytes v - length l)) at 1 by lia.
  rewrite bits_of_app, weight_app. do 2 f_equal. rewrite <- Hn. symmetry. by apply rep_bits.
Qed.

(** C35 Every operation on vectors that hold lists of bits is the operation on the lists. *)
Theorem bitvec_refines v w l m : rep v l → rep w m →
  (∀ i x, i < length l → get v i = Ok (Z.b2z (nth i l false)) ∧
     ∃ v', set v i x = Ok v' ∧ rep v' (<[i := (0 <? x)%Z]> l)) ∧
  (∀ i x, length l ≤ i → get v i = Throw rt_error ∧ set v i x = Throw rt_error) ∧
  (∃ v', append v (mData w) (size w) 0 = Ok v' ∧ rep v' (l ++ m)) ∧
  (∀ off n, off + n ≤ length m → ∃ v', copy v w off n = Ok v' ∧ rep v' (take n (drop off m))) ∧
  (∀ bit, ∃ v', pushBack v bit = Ok v' ∧ rep v' (l ++ [(0 <? bit)%Z])) ∧
  rep (assign v w) m ∧ rep (not_ v) (map negb l) ∧
  (length l ≤ length m → rep (and_ v w) (zip_with andb l m) ∧ rep (or_ v w) (zip_with orb l m)) ∧
  (length l = length m → ∃ v', xor_ v w = Ok v' ∧ rep v' (zip_with xorb l m)) ∧
  (length l ≠ length m → xor_ v w = Throw rt_error) ∧
  parity v = Z.b2z (xor_all l) ∧
  hammingWeight v = weight l + weight (bits_of (mData v) (length l) (8 * sizeBytes v - length l)).
Proof.
  intros Hv Hw. pose proof Hv as (Hwv & Hn & _). pose proof (copy_rep v l Hv) as Hc.
  split_and!.
  - intros i x Hi. split; [by apply get_ok|by apply set_ok].
  - intros i x Hi. rewrite get_throws, set_throws by lia. done.
  - by apply append_vector.
  - intros off n Hle. by apply (copy_spec v w m).
  - intros bit. by apply pushBack_spec.
  - by apply assign_spec.
  - by apply not_spec.
  - intros Hle. split; apply bytewise_spec; try done; apply _.
  - intros Hl. by apply xor_assign_spec.
  - intros Hl. apply xor_throws. pose proof Hc as (_ & -> & _). by destruct Hw as (_ & -> & _).
  - by apply parity_bits_spec.
  - by apply hammingWeight_rep.
Qed.

(** [fromString] after [fromString]: a concrete pair of vectors. *)
Lemma bitvec_refines_witness :
  let v := mkBV [11%Z] 4 in let w := mkBV [5%Z; 0%Z] 9 in
  rep v [true; true; false; true] ∧ xor_ v w = Throw rt_error ∧ hammingWeight v = 3.
Proof.
  set (v := mkBV [11%Z] 4). set (w := mkBV [5%Z; 0%Z] 9). cbv zeta.
  assert (Hv : rep v [true; true; false; true]) by (apply (wf_rep v); split; [cbn; lia|bytes_lit]).
  assert (Hw : rep w (bits_of [5%Z; 0%Z] 0 9)) by (apply (wf_rep w); split; [cbn; lia|bytes_lit]).
  pose proof (bitvec_refines v w _ _ Hv Hw) as (_ & _ & _ & _ & _ & _ & _ & _ & _ & Hx & _ & Hh).
  split; [exact Hv|]. split; [apply Hx; discriminate|]. rewrite Hh. reflexivity.
Defined.

(** Printing what was read from a string of digits gives the string. *)
Theorem print_fromString v l : wf v → ∃ v', fromString v (map char_of l) = Ok v' ∧ print v' = Ok (map char_of l).
Proof.
  intros Hw. destruct (fromString_spec v (map char_of l) Hw) as (v' & E & Hr). exists v'. split; [done|].
  rewrite (print_spec v' _ Hr). f_equal. rewrite !map_map. apply map_ext. by intros [].
Qed.

Lemma print_fromString_witness : wf BitVector_new ∧ ∃ v', fromString BitVector_new (map char_of [true; false; true]) = Ok v' ∧
  print v' = Ok (map char_of [true; false; true]).
Proof. split; [exact wf_new|]. exact (print_fromString BitVector_new [true; false; true] wf_new). Defined.

(** C36 [==] on two vectors: different sizes are unequal, two empty vectors are read out of range, and otherwise only the
    first [compared] bits count: all of them unless the size is a multiple of eight, when the last byte is ignored. *)
Theorem equals_outcome v w l m : rep v l → rep w m →
  (length l ≠ length m → equals v w = Some false) ∧
  (length l = 0 → length m = 0 → equals v w = None) ∧
  (length l = length m → length l mod 8 ≠ 0 → equals v w = Some (bool_decide (l = m))) ∧
  (length l = length m → length l ≠ 0 → length l mod 8 = 0 →
     equals v w = Some (bool_decide (take (length l - 8) l = take (length l - 8) m))).
Proof.
  intros Hv Hw. pose proof (equals_spec v w l m Hv Hw) as E. split_and!.
  - intros Hne. by rewrite E, (proj2 (Nat.eqb_neq _ _) Hne).
  - intros H0 H0'. by rewrite E, H0, H0'.
  - intros Hl Hr. rewrite E, Hl, Nat.eqb_refl. cbn [negb]. rewrite <- Hl.
    assert (length l ≠ 0) by (intros H; by rewrite H in Hr). nat_false (length l =? 0).
    replace (compared (length l)) with (length l) by (unfold compared; divlia).
    rewrite firstn_all. by rewrite Hl, firstn_all.
  - intros Hl H0 Hr. rewrite E, Hl, Nat.eqb_refl. cbn [negb]. rewrite <- Hl. nat_false (length l =? 0).
    by replace (compared (length l)) with (length l - 8) by (unfold compared; divlia).
Qed.

Lemma equals_outcome_witness :
  let v := mkBV [1%Z] 8 in let w := mkBV [2%Z] 8 in
  rep v (bits_of [1%Z] 0 8) ∧ rep w (bits_of [2%Z] 0 8) ∧ equals v w = Some true.
Proof.
  set (v := mkBV [1%Z] 8). set (w := mkBV [2%Z] 8). cbv zeta.
  assert (Hv : rep v (bits_of [1%Z] 0 8)) by (apply (wf_rep v); split; [cbn; lia|bytes_lit]).
  assert (Hw : rep w (bits_of [2%Z] 0 8)) by (apply (wf_rep w); split; [cbn; lia|bytes_lit]).
  split; [exact Hv|]. split; [exact Hw|].
  rewrite (proj2 (proj2 (proj2 (equals_outcome v w _ _ Hv Hw))) ltac:(reflexivity) ltac:(discriminate) ltac:(reflexivity)).
  reflexivity.
Defined.

(** C37 [nChoosek] of [k < 4] throws; from four on it sets [8 * (k / 8) + k mod 4] bits: [k] of them only when
    [k mod 8 < 4]. *)
Theorem nChoosek_outcome v n k draw : wf v → k ≤ n →
  (k < 4 → nChoosek v n k draw = Throw rt_error) ∧
  (4 ≤ k → ∃ v' l, nChoosek v n k draw = Ok v' ∧ rep v' l ∧ length l = n ∧
     weight l = 8 * (k / 8) + k mod 4 ∧ (weight l = k ↔ k mod 8 < 4)).
Proof.
  intros Hw Hk. split; [intros; by apply nChoosek_small|]. intros H4.
  destruct (nChoosek_spec v n k draw Hw ltac:(lia)) as (v' & l & E & Hr & Hl & Hwt). exists v', l.
  split; [done|]. split; [done|]. split; [done|]. split; [done|]. rewrite Hwt. divlia.
Qed.

Lemma nChoosek_outcome_witness :
  wf BitVector_new ∧ (∃ v' l, nChoosek BitVector_new 10 5 (fun _ => 7%Z) = Ok v' ∧ rep v' l ∧ length l = 10 ∧ weight l = 1).
Proof.
  split; [exact wf_new|].
  destruct (proj2 (nChoosek_outcome BitVector_new 10 5 (fun _ => 7%Z) wf_new ltac:(lia)) ltac:(lia))
    as (v' & l & E & Hr & Hl & Hwt & _).
  exists v', l. split; [exact E|]. split; [exact Hr|]. split; [exact Hl|]. exact Hwt.
Defined.

End BitVec.
