(* ===== verification/Feistel.v ===== *)
(** The SHAKE256 Feistel permutation: frontend/permutation/feistel.h. *)
From S2P Require Import Prelude Words PermApi.
Open Scope nat_scope.

Module Feistel.

Definition DefaultRounds : nat := 8.
Definition Bytes : nat := KEM_key_size_bit / 8.
Definition HalfBytes : nat := Bytes / 2.

(** The two fields of the object. *)
Record State : Type := mkState { rounds_ : nat; party_ : Z }.

Section Feistel.
(** [crypto_hash_shake256(out, d, m, len)]: [None] is a non-zero return code. *)
Context (crypto_hash_shake256 : nat → list Z → option (list Z)).

Definition construct (rounds : nat) (party : Z) : Res State :=
  throw_if (rounds =? 0) (InvalidArgument "feistel needs at least one round") ;;
  mret (mkState rounds (Z.land party 1)).

Definition check (bytes : nat) : Res unit :=
  throw_if (negb (bytes =? Bytes)) (InvalidArgument "feistel expects one full PQ row").

Definition store64 (x : Z) : list Z :=
  map (fun i => u8 (Z.shiftr x (8 * Z.of_nat i))) (seq 0 8).

(** [out[i] ^= in[i]] for the half row. *)
Definition xorInto (inp out : list Z) : list Z :=
  for_ 0 HalfBytes (fun i out => <[i := Z.lxor out.[i] inp.[i]]> out) out.

(** 'P' 'Q' 'F' 'S' 'T' 'L' '1' 0 *)
Definition label : list Z := [80; 81; 70; 83; 84; 76; 49; 0]%Z.

Definition roundInput (st : State) (curr : list Z) (r : nat) : list Z :=
  let input := replicate (17 + HalfBytes) 0%Z in
  let input := memcpy input 0 label 0 (length label) in
  let input := <[8 := party_ st]> input in
  let input := memcpy input 9 (store64 (Z.of_nat r)) 0 8 in
  memcpy input 17 curr 0 HalfBytes.

Definition roundMask (st : State) (curr : list Z) (r : nat) : Res (list Z) :=
  match crypto_hash_shake256 HalfBytes (roundInput st curr r) with
  | Some out => mret out
  | None => Throw (RuntimeError "SHAKE256 failed")
  end.

(** One round of [encryptBytes]; [prev] and [curr] are the two halves of [data]. *)
Definition encRound (st : State) (r : nat) (data : list Z) : Res (list Z) :=
  next ← roundMask st (slice data HalfBytes HalfBytes) r;
  let next := xorInto (slice data 0 HalfBytes) next in
  let data := memcpy data 0 data HalfBytes HalfBytes in
  mret (memcpy data HalfBytes next 0 HalfBytes).

Definition encrypt (st : State) (data : list Z) : Res (list Z) :=
  check (length data) ;;
  forR 0 (rounds_ st) (encRound st) data.

(** One round of [decryptBytes]; [curr] and [next] are the two halves of [data]. *)
Definition decRound (st : State) (r : nat) (data : list Z) : Res (list Z) :=
  prev ← roundMask st (slice data 0 HalfBytes) r;
  let prev := xorInto (slice data HalfBytes HalfBytes) prev in
  let data := memcpy data HalfBytes data 0 HalfBytes in
  mret (memcpy data 0 prev 0 HalfBytes).

Definition decrypt (st : State) (data : list Z) : Res (list Z) :=
  check (length data) ;;
  for_downR (rounds_ st) (decRound st) data.

Definition perm (st : State) : Perm := {|
  perm_name := "feistel";
  perm_detail := "shake256-feistel";
  perm_n := KEM_key_size_bit;
  perm_s := HalfBytes * 8;
  perm_rounds := rounds_ st;
  encryptBytes := encrypt st;
  decryptBytes := decrypt st;
|}.

Lemma Bytes_halves : Bytes = HalfBytes + HalfBytes.
Proof. reflexivity. Qed.
#[local] Opaque HalfBytes Bytes.

(** * One round is undone by the opposite round *)

(** Documented behaviour of SHAKE256: [d] output bytes. *)
Definition shake_ok : Prop :=
  ∀ d m out, crypto_hash_shake256 d m = Some out → buf_ok d out.

Hypothesis Hshake : shake_ok.

Lemma xorInto_xorv a b : length a = HalfBytes → length b = HalfBytes → xorInto a b = xorv b a.
Proof. intros. by apply xor_loop_xorv. Qed.

Lemma memcpy_halves (h : nat) (a b x : list Z) : length a = h → length b = h → length x = h →
  memcpy (a ++ b) 0 x 0 h = x ++ b ∧ memcpy (a ++ b) h x 0 h = a ++ x ∧
  memcpy (a ++ b) 0 (a ++ b) h h = b ++ b ∧ memcpy (a ++ b) h (a ++ b) 0 h = a ++ a.
Proof.
  intros Ha Hb Hx. unfold memcpy. cbn [Nat.add]. rewrite !drop_0, !take_0.
  rewrite (drop_app_length' a b) by done. rewrite (take_app_length' a b) by done.
  rewrite (firstn_all2 x), (firstn_all2 b) by lia.
  rewrite (drop_ge (a ++ b)) by (rewrite length_app; lia). by rewrite !app_nil_r.
Qed.

Lemma slice_halves (h : nat) (a b : list Z) : length a = h → length b = h →
  slice (a ++ b) 0 h = a ∧ slice (a ++ b) h h = b.
Proof.
  intros Ha Hb. unfold slice. rewrite drop_0, take_app_length', drop_app_length' by done.
  by rewrite (firstn_all2 b) by lia.
Qed.

Lemma roundMask_ok st curr r m : roundMask st curr r = Ok m → buf_ok HalfBytes m.
Proof.
  unfold roundMask. destruct (crypto_hash_shake256 _ _) eqn:E; [|done]. intros [= <-].
  by apply (Hshake _ _ _ E).
Qed.

Lemma encRound_eq st r a b : length a = HalfBytes → length b = HalfBytes →
  encRound st r (a ++ b) = m ← roundMask st b r; mret (b ++ xorv m a).
Proof.
  intros Ha Hb. unfold encRound. destruct (slice_halves _ a b Ha Hb) as [-> ->].
  destruct (roundMask st b r) as [m|] eqn:E; [|done]. cbn [mbind Res_bind].
  destruct (roundMask_ok _ _ _ _ E) as [Hm _].
  assert (length (xorv m a) = HalfBytes) by (rewrite xorv_length; congruence).
  rewrite xorInto_xorv by done.
  rewrite (proj1 (proj2 (proj2 (memcpy_halves HalfBytes a b a Ha Hb Ha)))).
  by rewrite (proj1 (proj2 (memcpy_halves HalfBytes b b (xorv m a) Hb Hb ltac:(done)))).
Qed.

Lemma decRound_eq st r b x : length b = HalfBytes → length x = HalfBytes →
  decRound st r (b ++ x) = m ← roundMask st b r; mret (xorv m x ++ b).
Proof.
  intros Hb Hx. unfold decRound. destruct (slice_halves _ b x Hb Hx) as [-> ->].
  destruct (roundMask st b r) as [m|] eqn:E; [|done]. cbn [mbind Res_bind].
  destruct (roundMask_ok _ _ _ _ E) as [Hm _].
  assert (length (xorv m x) = HalfBytes) by (rewrite xorv_length; congruence).
  rewrite xorInto_xorv by done.
  rewrite (proj2 (proj2 (proj2 (memcpy_halves HalfBytes b x x Hb Hx Hx)))).
  by rewrite (proj1 (memcpy_halves HalfBytes b b (xorv m x) Hb Hb ltac:(done))).
Qed.

Lemma buf_app h a b : buf_ok h a → buf_ok h b → buf_ok (h + h) (a ++ b).
Proof. intros [Ha ?] [Hb ?]. split; [rewrite length_app; lia|by apply Forall_app]. Qed.

Lemma buf_xorv h a b : buf_ok h a → buf_ok h b → buf_ok h (xorv a b).
Proof.
  intros [Ha ?] [Hb ?]. split; [rewrite xorv_length; congruence|]. by apply xorv_ok.
Qed.

Lemma round_inverse st r data data' : buf_ok Bytes data → encRound st r data = Ok data' →
  buf_ok Bytes data' ∧ decRound st r data' = Ok data.
Proof.
  rewrite Bytes_halves. intros Hd E. destruct (buf_ok_split _ _ Hd) as (a & b & -> & Ha & Hb).
  rewrite encRound_eq in E by (exact (proj1 Ha) || exact (proj1 Hb)). inv_ok.
  pose proof (roundMask_ok _ _ _ _ ltac:(eassumption)) as Hm.
  split; [exact (buf_app _ _ _ Hb (buf_xorv _ _ _ Hm Ha))|].
  rewrite decRound_eq by (exact (proj1 Hb) || exact (proj1 (buf_xorv _ _ _ Hm Ha))).
  lazymatch goal with E : roundMask _ _ _ = _ |- _ => rewrite E end. cbn.
  rewrite xorv_cancel_l by (destruct Hm, Ha; congruence). done.
Qed.

Lemma round_inverse' st r data data' : buf_ok Bytes data → decRound st r data = Ok data' →
  buf_ok Bytes data' ∧ encRound st r data' = Ok data.
Proof.
  rewrite Bytes_halves. intros Hd E. destruct (buf_ok_split _ _ Hd) as (a & b & -> & Ha & Hb).
  rewrite decRound_eq in E by (exact (proj1 Ha) || exact (proj1 Hb)). inv_ok.
  pose proof (roundMask_ok _ _ _ _ ltac:(eassumption)) as Hm.
  split; [exact (buf_app _ _ _ (buf_xorv _ _ _ Hm Hb) Ha)|].
  rewrite encRound_eq by (exact (proj1 Ha) || exact (proj1 (buf_xorv _ _ _ Hm Hb))).
  lazymatch goal with E : roundMask _ _ _ = _ |- _ => rewrite E end. cbn.
  rewrite xorv_cancel_l by (destruct Hm, Hb; congruence). done.
Qed.

(** * The permutation *)

Lemma check_ok data : buf_ok Bytes data → check (length data) = Ok tt.
Proof. intros [Hl _]. unfold check. by rewrite Hl, Nat.eqb_refl. Qed.

Lemma decrypt_undoes st data c : buf_ok Bytes data → encrypt st data = Ok c →
  buf_ok Bytes c ∧ decrypt st c = Ok data.
Proof.
  intros Hd H. unfold encrypt, decrypt in *. rewrite check_ok in H by done.
  destruct (for_downR_undo (buf_ok Bytes) _ _ (decRound st) _ _
    (fun i s s' _ => round_inverse st i s s') Hd H) as [Hc Hrun].
  by rewrite check_ok.
Qed.

Lemma encrypt_undoes st data c : buf_ok Bytes data → decrypt st data = Ok c →
  buf_ok Bytes c ∧ encrypt st c = Ok data.
Proof.
  intros Hd H. unfold encrypt, decrypt in *. rewrite check_ok in H by done.
  destruct (forR_undo (buf_ok Bytes) _ (encRound st) _ _ _
    (fun i s s' _ => round_inverse' st i s s') Hd H) as [Hc Hrun].
  by rewrite check_ok.
Qed.

(** SHAKE256 that never reports an error. *)
Definition shake_total : Prop := ∀ d m, ∃ out, crypto_hash_shake256 d m = Some out.

Lemma roundMask_total st curr r : shake_total → ∃ m, roundMask st curr r = Ok m.
Proof.
  intros Ht. unfold roundMask. destruct (Ht HalfBytes (roundInput st curr r)) as [out ->]. by exists out.
Qed.

Lemma encRound_total st r data : shake_total → buf_ok Bytes data →
  ∃ c, encRound st r data = Ok c ∧ buf_ok Bytes c.
Proof.
  intros Ht Hd. pose proof Hd as Hd'. rewrite Bytes_halves in Hd'.
  destruct (buf_ok_split _ _ Hd') as (a & b & -> & Ha & Hb).
  destruct (roundMask_total st b r Ht) as [m Hm].
  assert (E : encRound st r (a ++ b) = Ok (b ++ xorv m a)).
  { rewrite encRound_eq by (exact (proj1 Ha) || exact (proj1 Hb)). by rewrite Hm. }
  eexists. split; [exact E|]. by apply (round_inverse st r _ _ Hd E).
Qed.

Lemma decRound_total st r data : shake_total → buf_ok Bytes data →
  ∃ c, decRound st r data = Ok c ∧ buf_ok Bytes c.
Proof.
  intros Ht Hd. pose proof Hd as Hd'. rewrite Bytes_halves in Hd'.
  destruct (buf_ok_split _ _ Hd') as (a & b & -> & Ha & Hb).
  destruct (roundMask_total st a r Ht) as [m Hm].
  assert (E : decRound st r (a ++ b) = Ok (xorv m b ++ a)).
  { rewrite decRound_eq by (exact (proj1 Ha) || exact (proj1 Hb)). by rewrite Hm. }
  eexists. split; [exact E|]. by apply (round_inverse' st r _ _ Hd E).
Qed.

Lemma feistel_laws st : shake_total → PermLaws (perm st) Bytes.
Proof.
  intros Ht. split; cbn [perm encryptBytes decryptBytes].
  - intros data Hd. unfold encrypt. rewrite check_ok by done. cbn [mbind Res_bind].
    apply (forR_inv (fun _ => buf_ok Bytes)); [lia|done|]. intros i s _. by apply encRound_total.
  - intros data Hd. unfold decrypt. rewrite check_ok by done. cbn [mbind Res_bind].
    apply (for_downR_inv (fun _ => buf_ok Bytes)); [done|]. intros i s _. by apply decRound_total.
  - intros data c Hd H. by apply (decrypt_undoes st data c Hd H).
  - intros data c Hd H. by apply (encrypt_undoes st data c Hd H).
Qed.
End Feistel.

(** Both directions of the Feistel permutation are inverse on 800-byte rows for every round
    count and party, and every other buffer size is rejected. *)
Theorem feistel_inverse shake st data c : shake_ok shake → 
  (length data ≠ Bytes → encrypt shake st data =
     Throw (InvalidArgument "feistel expects one full PQ row")) ∧
  (buf_ok Bytes data → encrypt shake st data = Ok c → decrypt shake st c = Ok data) ∧
  (buf_ok Bytes data → decrypt shake st data = Ok c → encrypt shake st c = Ok data).
Proof.
  intros Hs. split; [|split].
  - intros Hl. unfold encrypt, check. by rewrite (proj2 (Nat.eqb_neq _ _) Hl).
  - intros Hd H. by apply (decrypt_undoes shake Hs st data c Hd H).
  - intros Hd H. by apply (encrypt_undoes shake Hs st data c Hd H).
Qed.

(** A stand-in for SHAKE256. *)
Definition toy_shake (d : nat) (m : list Z) : option (list Z) :=
  let h := foldr Z.add 0%Z m in
  Some (map (fun i => u8 (h * 7 + Z.of_nat i * 13)) (seq 0 d)).

Lemma toy_shake_ok : shake_ok toy_shake.
Proof.
  intros d m out [= <-]. split; [by rewrite length_map, length_seq|].
  apply Forall_forall. intros x Hx. apply list_elem_of_In, in_map_iff in Hx as (i & <- & _).
  by apply in_word_wrap.
Qed.

Lemma feistel_inverse_witness : let st := mkState 8 1 in let data := replicate Bytes 5%Z in
  ∃ c, encrypt toy_shake st data = Ok c ∧ decrypt toy_shake st c = Ok data.
Proof.
  intros st data. eexists. split; [vm_compute; reflexivity|].
  apply (proj1 (proj2 (feistel_inverse toy_shake st data _ toy_shake_ok)));
    [split; [reflexivity|by apply Forall_replicate]|vm_compute; reflexivity].
Defined.
End Feistel.
