(* ===== verification/Hctr2.v ===== *)
(** The HCTR2 wide-block permutation: frontend/permutation/hctr2.h. *)
From S2P Require Import Prelude Words RbBits PermApi.
Open Scope nat_scope.

Module Hctr2.

(** * 128-bit words *)

Record U128 : Type := mkU128 { lo : Z; hi : Z }.

Definition load64 (inp : list Z) : Z :=
  for_ 0 8 (fun i x => Z.lor x (Z.shiftl inp.[i] (8 * Z.of_nat i))) 0%Z.

Definition store64 (x : Z) : list Z :=
  map (fun i => Z.land (Z.shiftr x (8 * Z.of_nat i)) 255) (seq 0 8).

Definition load128 (inp : list Z) : U128 := mkU128 (load64 inp) (load64 (drop 8 inp)).
Definition store128 (x : U128) : list Z := store64 (lo x) ++ store64 (hi x).

(** [getBit] and [flipBit] on the 256-bit product, [getBit] on a [U128]. *)
Definition getBit4 (x : list Z) (bit : nat) : bool :=
  negb (Z.land (Z.shiftr x.[bit / 64] (Z.of_nat (bit mod 64))) 1 =? 0)%Z.
Definition flipBit (x : list Z) (bit : nat) : list Z :=
  <[bit / 64 := Z.lxor x.[bit / 64] (Z.shiftl 1 (Z.of_nat (bit mod 64)))]> x.
Definition getBit (x : U128) (bit : nat) : bool :=
  if bit <? 64 then negb (Z.land (Z.shiftr (lo x) (Z.of_nat bit)) 1 =? 0)%Z
  else negb (Z.land (Z.shiftr (hi x) (Z.of_nat (bit - 64))) 1 =? 0)%Z.

(** One iteration of the multiplication loop of [mul]. *)
Definition mulStep (a b : U128) (i : nat) (p : list Z) : list Z :=
  if negb (getBit a i) then p else
  let word := i / 64 in
  let shift := i mod 64 in
  let p := <[word := Z.lxor p.[word] (u64 (Z.shiftl (lo b) (Z.of_nat shift)))]> p in
  let p := if negb (shift =? 0)
           then <[word + 1 := Z.lxor p.[word + 1] (Z.shiftr (lo b) (Z.of_nat (64 - shift)))]> p
           else p in
  let p := <[word + 1 := Z.lxor p.[word + 1] (u64 (Z.shiftl (hi b) (Z.of_nat shift)))]> p in
  if negb (shift =? 0) && (word + 2 <? 4)
  then <[word + 2 := Z.lxor p.[word + 2] (Z.shiftr (hi b) (Z.of_nat (64 - shift)))]> p
  else p.

(** One iteration of the reduction loop, [d = 128 + k]. *)
Definition redStep (k : nat) (p : list Z) : list Z :=
  let d := 128 + k in
  if getBit4 p d
  then flipBit (flipBit (flipBit (flipBit (flipBit p d) (d - 1)) (d - 2)) (d - 7)) (d - 128)
  else p.

Definition mul (a b : U128) : U128 :=
  let p := for_ 0 128 (mulStep a b) [0; 0; 0; 0]%Z in
  let p := for_down 128 redStep p in
  mkU128 p.[0] p.[1].

Definition xor128 (a b : U128) : U128 := mkU128 (Z.lxor (lo a) (lo b)) (Z.lxor (hi a) (hi b)).

(** * Multiplication by a fixed element *)

Definition U128_zero : U128 := mkU128 0 0.

(** The [U128] with byte [v] at byte position [pos]. *)
Definition byteAt (pos v : nat) : U128 :=
  let bit := pos * 8 in
  if bit <? 64 then mkU128 (u64 (Z.shiftl (Z.of_nat v) (Z.of_nat bit))) 0
  else mkU128 0 (u64 (Z.shiftl (Z.of_nat v) (Z.of_nat (bit - 64)))).

Definition makeMulTable (h : U128) : list (list U128) :=
  map (fun pos => map (fun v => mul (byteAt pos v) h) (seq 0 256)) (seq 0 16).

Definition tableAt (table : list (list U128)) (pos : nat) (v : Z) : U128 :=
  nth (Z.to_nat v) (nth pos table []) U128_zero.

Definition mulFixed (x : U128) (table : list (list U128)) : U128 :=
  for_ 0 8 (fun pos out =>
    let out := xor128 out (tableAt table pos (Z.land (Z.shiftr (lo x) (Z.of_nat (pos * 8))) 255)) in
    xor128 out (tableAt table (pos + 8) (Z.land (Z.shiftr (hi x) (Z.of_nat (pos * 8))) 255)))
    U128_zero.

(** * Specification: polynomials over GF(2) as integers *)

(** x^128 + x^127 + x^126 + x^121 + 1 *)
Definition POLY : Z := (2 ^ 128 + 2 ^ 127 + 2 ^ 126 + 2 ^ 121 + 1)%Z.

(** Carry-less product of the low [n] bits of [a] with [b]. *)
Fixpoint clmul (n : nat) (a b : Z) : Z :=
  match n with
  | O => 0%Z
  | S n' => Z.lxor (clmul n' a b)
              (if Z.testbit a (Z.of_nat n') then Z.shiftl b (Z.of_nat n') else 0%Z)
  end.

(** Remainder modulo [POLY] of a polynomial of degree below [128 + n]. *)
Fixpoint polymod (n : nat) (p : Z) : Z :=
  match n with
  | O => p
  | S n' => polymod n' (if Z.testbit p (Z.of_nat (128 + n'))
                        then Z.lxor p (Z.shiftl POLY (Z.of_nat n')) else p)
  end.

(** Multiplication in GF(2^128). *)
Definition gmul (a b : Z) : Z := polymod 128 (clmul 128 a b).

Definition val128 (x : U128) : Z := Z.lor (lo x) (Z.shiftl (hi x) 64).
Definition u128_ok (x : U128) : Prop := in_word 64 (lo x) ∧ in_word 64 (hi x).

(** The value of the four-limb product. *)
Definition val4 (p : list Z) : Z :=
  Z.lor (Z.lor (Z.lor p.[0] (Z.shiftl p.[1] 64)) (Z.shiftl p.[2] 128)) (Z.shiftl p.[3] 192).

Lemma val128_bit x i : u128_ok x → i < 128 → Z.testbit (val128 x) (Z.of_nat i) = getBit x i.
Proof.
  intros [Hl Hh] Hi. unfold val128, getBit. rewrite !land_1_testbit, !Z.shiftr_spec, !Z.add_0_l by lia.
  autorewrite with zbits. destruct (Nat.ltb_spec i 64).
  - by rewrite (Z.testbit_neg_r (hi x)), orb_false_r by lia.
  - rewrite (testbit_high 64 (lo x)) by (done || lia). cbn [orb]. f_equal. lia.
Qed.

Lemma val128_word x : u128_ok x → in_word 128 (val128 x).
Proof.
  intros [[Hl Hl'] [Hh Hh']]. unfold val128.
  rewrite lor_disjoint_add by (done || lia). unfold in_word. nia.
Qed.

Lemma val4_bit p j : bits_wf p → j < 256 →
  Z.testbit (val4 p) (Z.of_nat j) = RBBit p j.
Proof.
  intros Hp Hj. unfold val4. autorewrite with zbits. rewrite RBBit_testbit.
  pose proof (fun k => bits_wf_nth p k Hp) as Hw.
  assert (Hneg : ∀ k z, (z < 0)%Z → Z.testbit p.[k] z = false) by (intros; by apply Z.testbit_neg_r).
  assert (Hhi : ∀ k z, (64 ≤ z)%Z → Z.testbit p.[k] z = false) by (intros; by apply (testbit_high 64)).
  pose proof (Nat.div_mod_eq j 64). pose proof (Nat.mod_upper_bound j 64 ltac:(lia)).
  set (q := j / 64) in *. set (o := j mod 64) in *. clearbody q o. subst j.
  destruct q as [|[|[|[|]]]]; try lia.
  - rewrite (Hneg 1), (Hneg 2), (Hneg 3) by lia. rewrite !orb_false_r. f_equal.
  - rewrite (Hhi 0), (Hneg 2), (Hneg 3) by lia. rewrite !orb_false_r. cbn [orb]. f_equal. lia.
  - rewrite (Hhi 0), (Hhi 1), (Hneg 3) by lia. rewrite !orb_false_r. cbn [orb]. f_equal. lia.
  - rewrite (Hhi 0), (Hhi 1), (Hhi 2) by lia. cbn [orb]. f_equal. lia.
Qed.

Lemma val4_high p z : bits_wf p → (256 ≤ z)%Z → Z.testbit (val4 p) z = false.
Proof.
  intros Hp Hz. unfold val4. autorewrite with zbits.
  assert (Hhi : ∀ k z, (64 ≤ z)%Z → Z.testbit p.[k] z = false).
  { intros. apply (testbit_high 64); [by apply bits_wf_nth|done]. }
  by rewrite !Hhi by lia.
Qed.

(** Two values agree when the limbs have the same bits and nothing lies above. *)
Lemma val4_eq p z : bits_wf p → in_word 256 z →
  (∀ j, j < 256 → RBBit p j = Z.testbit z (Z.of_nat j)) → val4 p = z.
Proof.
  intros Hp Hz H. apply Z.bits_inj'. intros i Hi. destruct (Z.lt_ge_cases i 256).
  - rewrite <- (Z2Nat.id i) by lia. rewrite val4_bit by (done || lia). apply H. lia.
  - rewrite val4_high by done. symmetry. by apply (testbit_high 256).
Qed.

(** * [mul] is multiplication in GF(2^128) *)

Lemma xor_limb (p : list Z) w x : bits_wf p → in_word 64 x → w < 4 →
  bits_wf (<[w := Z.lxor p.[w] x]> p) ∧
  ∀ j, RBBit (<[w := Z.lxor p.[w] x]> p) j
       = xorb (RBBit p j) ((j / 64 =? w) && Z.testbit x (Z.of_nat (j mod 64))).
Proof.
  intros Hp Hx Hw. split.
  - apply bits_wf_insert; [done|]. apply in_word_lxor; [lia| |done]. by apply bits_wf_nth.
  - intros j. rewrite !RBBit_testbit, nth_insert, (proj1 Hp).
    destruct (Nat.eqb_spec (j / 64) w) as [->|Hne].
    + rewrite decide_True by done. apply Z.lxor_spec.
    + rewrite decide_False by lia. by rewrite xorb_false_r.
Qed.

Lemma getBit_high x k : u128_ok x → 128 ≤ k → getBit x k = false.
Proof.
  intros [_ Hh] Hk. unfold getBit. nat_cmp. rewrite land_1_testbit, Z.shiftr_spec by lia.
  apply (testbit_high 64); [done|lia].
Qed.

Lemma getBit_lo x k : k < 64 → getBit x k = Z.testbit (lo x) (Z.of_nat k).
Proof.
  intros Hk. unfold getBit. nat_cmp. by rewrite land_1_testbit, Z.shiftr_spec, Z.add_0_l by lia.
Qed.

Lemma getBit_hi x k : 64 ≤ k → getBit x k = Z.testbit (hi x) (Z.of_nat (k - 64)).
Proof.
  intros Hk. unfold getBit. nat_cmp. by rewrite land_1_testbit, Z.shiftr_spec, Z.add_0_l by lia.
Qed.

(** Low and high part of a limb shifted by [s]. *)
Lemma shl_bit x s o : o < 64 →
  Z.testbit (u64 (Z.shiftl x (Z.of_nat s))) (Z.of_nat o)
  = (s <=? o) && Z.testbit x (Z.of_nat (o - s)).
Proof. apply shl_testbit. Qed.

Lemma over_bit x s o : in_word 64 x → 0 < s < 64 → o < 64 →
  Z.testbit (Z.shiftr x (Z.of_nat (64 - s))) (Z.of_nat o)
  = (o <? s) && Z.testbit x (Z.of_nat (o + 64 - s)).
Proof.
  intros Hx Hs Ho. rewrite shr_testbit by (done || lia).
  replace (o + (64 - s)) with (o + 64 - s) by lia. f_equal.
  destruct (Nat.ltb_spec o s), (Nat.ltb_spec (o + 64 - s) 64); lia || done.
Qed.

Lemma xor_limb_if (c : bool) (p : list Z) w x : bits_wf p → in_word 64 x → w < 4 →
  let p' := if c then <[w := Z.lxor p.[w] x]> p else p in
  bits_wf p' ∧
  ∀ j, RBBit p' j = xorb (RBBit p j) (c && (j / 64 =? w) && Z.testbit x (Z.of_nat (j mod 64))).
Proof.
  intros Hp Hx Hw. destruct c; cbn [andb]; [by apply xor_limb|].
  split; [done|]. intros j. by rewrite xorb_false_r.
Qed.

(** The four limb updates add [b] shifted by [64 w + s]. *)
Lemma limbs_bit b w s q o : u128_ok b → w < 2 → s < 64 → o < 64 →
  xorb ((q =? w) && Z.testbit (u64 (Z.shiftl (lo b) (Z.of_nat s))) (Z.of_nat o))
  (xorb (negb (s =? 0) && (q =? w + 1) && Z.testbit (Z.shiftr (lo b) (Z.of_nat (64 - s))) (Z.of_nat o))
  (xorb ((q =? w + 1) && Z.testbit (u64 (Z.shiftl (hi b) (Z.of_nat s))) (Z.of_nat o))
  (negb (s =? 0) && (q =? w + 2) && Z.testbit (Z.shiftr (hi b) (Z.of_nat (64 - s))) (Z.of_nat o))))
  = (64 * w + s <=? 64 * q + o) && getBit b (64 * q + o - (64 * w + s)).
Proof.
  intros Hb Hw Hs Ho. pose proof Hb as [Hbl Hbh]. rewrite !shl_bit by done.
  assert (Hlo : ∀ k k', k' = k → k < 64 → Z.testbit (lo b) (Z.of_nat k) = getBit b k')
    by (intros k ? ->; intros; by rewrite getBit_lo).
  assert (Hhi : ∀ k k', k' = 64 + k → Z.testbit (hi b) (Z.of_nat k) = getBit b k').
  { intros k ? ->. rewrite getBit_hi by lia. do 2 f_equal. lia. }
  assert (Hout : q ≠ w → q ≠ w + 1 → (q = w + 2 → s ≤ o) →
    (64 * w + s <=? 64 * q + o) && getBit b (64 * q + o - (64 * w + s)) = false).
  { intros. destruct (Nat.leb_spec (64 * w + s) (64 * q + o)); cbn [andb]; [|done].
    apply getBit_high; [done|lia]. }
  destruct (Nat.eqb_spec s 0) as [->|Hs0]; cbn [negb andb];
    rewrite ?over_bit by (done || lia);
    destruct (Nat.eqb_spec q w) as [->|Hq]; nat_cmp; cbn [andb xorb];
    rewrite ?xorb_false_r, ?xorb_false_l.
  - nat_cmp. apply Hlo; lia.
  - destruct (Nat.eqb_spec q (w + 1)) as [->|Hq1]; cbn [andb].
    + nat_cmp. apply Hhi; lia.
    + symmetry. apply Hout; lia.
  - destruct (Nat.leb_spec s o); nat_cmp; [apply Hlo; lia|done].
  - destruct (Nat.eqb_spec q (w + 1)) as [->|Hq1]; nat_cmp; cbn [andb].
    + destruct (Nat.ltb_spec o s); nat_cmp; cbn [andb];
        rewrite ?xorb_false_r, ?xorb_false_l; [apply Hlo|apply Hhi]; lia.
    + destruct (Nat.eqb_spec q (w + 2)) as [->|Hq2]; cbn [andb xorb].
      * destruct (Nat.ltb_spec o s); cbn [andb]; [nat_cmp; apply Hhi; lia|symmetry; apply Hout; lia].
      * symmetry. apply Hout; lia.
Qed.

Lemma mulStep_spec a b i p : u128_ok b → bits_wf p → i < 128 →
  bits_wf (mulStep a b i p) ∧
  ∀ j, j < 256 → RBBit (mulStep a b i p) j
    = xorb (RBBit p j) (getBit a i && ((i <=? j) && getBit b (j - i))).
Proof.
  intros Hb Hp Hi. pose proof Hb as [Hbl Hbh]. unfold mulStep. destruct (getBit a i); cbn [negb andb].
  2: { split; [done|]. intros. by rewrite xorb_false_r. }
  pose proof (Nat.div_mod_eq i 64) as Ei. pose proof (Nat.mod_upper_bound i 64 ltac:(lia)) as Hs.
  set (w := i / 64) in *. set (s := i mod 64) in *. clearbody w s.
  assert (Hw : w < 2) by lia.
  replace (w + 2 <? 4) with true by (symmetry; apply Nat.ltb_lt; lia). rewrite andb_true_r.
  destruct (xor_limb p w (u64 (Z.shiftl (lo b) (Z.of_nat s)))) as [Hp1 Hb1]; [done|auto with zbits|lia|].
  set (p1 := <[w := _]> p) in *. clearbody p1.
  destruct (xor_limb_if (negb (s =? 0)) p1 (w + 1) (Z.shiftr (lo b) (Z.of_nat (64 - s)))) as [Hp2 Hb2];
    [done|apply in_word_shiftr; done || lia|lia|].
  set (p2 := if negb (s =? 0) then _ else p1) in *. clearbody p2.
  destruct (xor_limb p2 (w + 1) (u64 (Z.shiftl (hi b) (Z.of_nat s)))) as [Hp3 Hb3]; [done|auto with zbits|lia|].
  set (p3 := <[w + 1 := _]> p2) in *. clearbody p3.
  destruct (xor_limb_if (negb (s =? 0)) p3 (w + 2) (Z.shiftr (hi b) (Z.of_nat (64 - s)))) as [Hp4 Hb4];
    [done|apply in_word_shiftr; done || lia|lia|].
  split; [exact Hp4|]. intros j Hj. rewrite Hb4, Hb3, Hb2, Hb1, !xorb_assoc. f_equal.
  pose proof (limbs_bit b w s (j / 64) (j mod 64) Hb Hw Hs ltac:(apply Nat.mod_upper_bound; lia)) as HL.
  rewrite <- Nat.div_mod_eq in HL. rewrite Ei. exact HL.
Qed.

Lemma getBit_val x k : u128_ok x → getBit x k = Z.testbit (val128 x) (Z.of_nat k).
Proof.
  intros Hx. destruct (Nat.lt_ge_cases k 128); [by rewrite val128_bit|].
  rewrite getBit_high by done. symmetry. apply (testbit_high 128); [by apply val128_word|lia].
Qed.

Lemma clmul_word n a b : in_word 128 b → n ≤ 128 → in_word 256 (clmul n a b).
Proof.
  intros Hb Hn. induction n as [|n IH]; cbn [clmul]; [by apply in_word_0|].
  apply in_word_lxor; [lia|apply IH; lia|]. destruct (Z.testbit _ _); [|by apply in_word_0].
  destruct Hb as [Hb0 Hb1]. rewrite Z.shiftl_mul_pow2 by lia. split; [nia|].
  apply Z.lt_le_trans with (2 ^ 128 * 2 ^ Z.of_nat n)%Z; [nia|].
  rewrite <- Z.pow_add_r by lia. apply Z.pow_le_mono_r; lia.
Qed.

Lemma mul_loop a b : u128_ok a → u128_ok b →
  let p := for_ 0 128 (mulStep a b) [0; 0; 0; 0]%Z in
  bits_wf p ∧ val4 p = clmul 128 (val128 a) (val128 b).
Proof.
  intros Ha Hb p. assert (H : bits_wf p ∧
    ∀ j, j < 256 → RBBit p j = Z.testbit (clmul 128 (val128 a) (val128 b)) (Z.of_nat j)).
  { subst p. loop_inv (fun i p => bits_wf p ∧ ∀ j, j < 256 →
      RBBit p j = Z.testbit (clmul i (val128 a) (val128 b)) (Z.of_nat j)) as H; [lia| | |done].
    - split; [apply bits_wf_zero|]. intros j _. cbn [clmul]. rewrite Z.testbit_0_l. exact (RBBit_zero j).
    - intros i p Hi [Hp Hv]. destruct (mulStep_spec a b i p Hb Hp ltac:(lia)) as [Hp' Hv'].
      split; [done|]. intros j Hj. rewrite Hv', Hv by done. cbn [clmul]. rewrite Z.lxor_spec. f_equal.
      rewrite !getBit_val by done. destruct (Z.testbit (val128 a) (Z.of_nat i)); cbn [andb].
      2: { by rewrite Z.testbit_0_l. }
      rewrite Z.shiftl_spec by lia. destruct (Nat.leb_spec i j); cbn [andb]; [f_equal; lia|].
      symmetry. apply Z.testbit_neg_r. lia. }
  destruct H as [Hp Hv]. split; [done|]. apply val4_eq; [done| |done].
  apply clmul_word; [by apply val128_word|lia].
Qed.

(** ** The reduction *)

Lemma POLY_bit i : (0 ≤ i)%Z → Z.testbit POLY i =
  (i =? 128)%Z || (i =? 127)%Z || (i =? 126)%Z || (i =? 121)%Z || (i =? 0)%Z.
Proof.
  intros Hi. change POLY with (Z.lor (Z.lor (Z.lor (Z.lor (2 ^ 128) (2 ^ 127)) (2 ^ 126)) (2 ^ 121)) (2 ^ 0))%Z.
  by autorewrite with zbits.
Qed.

Lemma flipBit_spec p d : bits_wf p → d < 256 →
  bits_wf (flipBit p d) ∧ ∀ j, RBBit (flipBit p d) j = xorb (RBBit p j) (j =? d).
Proof.
  intros Hp Hd. unfold flipBit.
  pose proof (Nat.mod_upper_bound d 64 ltac:(lia)) as Ho.
  destruct (xor_limb p (d / 64) (Z.shiftl 1 (Z.of_nat (d mod 64)))) as [H1 H2]; [done| | |].
  - rewrite Z.shiftl_1_l. split; [apply Z.pow_nonneg; lia|]. apply Z.pow_lt_mono_r; lia.
  - apply Nat.Div0.div_lt_upper_bound. lia.
  - split; [done|]. intros j. rewrite H2. f_equal. rewrite Z.shiftl_1_l, pow2_testbit by lia.
    destruct (Nat.eqb_spec j d) as [->|Hne]; [by rewrite Nat.eqb_refl, Z.eqb_refl|].
    destruct (Nat.eqb_spec (j / 64) (d / 64)) as [Eq|]; cbn [andb]; [|done].
    apply Z.eqb_neq. intros Em. apply Hne.
    rewrite (Nat.div_mod_eq j 64), (Nat.div_mod_eq d 64), Eq. lia.
Qed.

Lemma redStep_spec k p : bits_wf p → k < 128 →
  bits_wf (redStep k p) ∧ ∀ j, j < 256 → RBBit (redStep k p) j
    = xorb (RBBit p j) (RBBit p (128 + k) && Z.testbit (Z.shiftl POLY (Z.of_nat k)) (Z.of_nat j)).
Proof.
  intros Hp Hk. unfold redStep. change (getBit4 p (128 + k)) with (RBBit p (128 + k)).
  destruct (RBBit p (128 + k)) eqn:Eb; cbn [andb].
  2: { split; [done|]. intros. by rewrite xorb_false_r. }
  set (d := 128 + k). destruct (flipBit_spec p d Hp ltac:(lia)) as [H1 E1].
  destruct (flipBit_spec _ (d - 1) H1 ltac:(lia)) as [H2 E2].
  destruct (flipBit_spec _ (d - 2) H2 ltac:(lia)) as [H3 E3].
  destruct (flipBit_spec _ (d - 7) H3 ltac:(lia)) as [H4 E4].
  destruct (flipBit_spec _ (d - 128) H4 ltac:(lia)) as [H5 E5].
  split; [done|]. intros j Hj. rewrite E5, E4, E3, E2, E1, !xorb_assoc. f_equal.
  rewrite Z.shiftl_spec by lia. unfold d. destruct (Nat.le_gt_cases k j) as [Hkj|Hkj].
  - rewrite POLY_bit by lia.
    assert (Hn : ∀ x y, x + k = y → (j =? y) = (Z.of_nat j - Z.of_nat k =? Z.of_nat x)%Z).
    { intros x y <-. destruct (Nat.eqb_spec j (x + k)), (Z.eqb_spec (Z.of_nat j - Z.of_nat k) (Z.of_nat x)); lia || done. }
    rewrite (Hn 128), (Hn 127), (Hn 126), (Hn 121), (Hn 0) by lia.
    set (z := (Z.of_nat j - Z.of_nat k)%Z). change (Z.of_nat 128) with 128%Z.
    change (Z.of_nat 127) with 127%Z. change (Z.of_nat 126) with 126%Z.
    change (Z.of_nat 121) with 121%Z. change (Z.of_nat 0) with 0%Z. case_bits; lia || done.
  - rewrite Z.testbit_neg_r by lia. nat_cmp. done.
Qed.

Lemma shiftl_POLY_word k : k < 128 → in_word 256 (Z.shiftl POLY (Z.of_nat k)).
Proof.
  intros Hk. rewrite Z.shiftl_mul_pow2 by lia. assert (0 < 2 ^ Z.of_nat k)%Z by (apply Z.pow_pos_nonneg; lia).
  split; [unfold POLY; nia|]. apply Z.lt_le_trans with (2 ^ 129 * 2 ^ Z.of_nat k)%Z.
  - apply Z.mul_lt_mono_pos_r; [done|]. reflexivity.
  - rewrite <- Z.pow_add_r by lia. apply Z.pow_le_mono_r; lia.
Qed.

Lemma redStep_val k p : bits_wf p → k < 128 → bits_wf (redStep k p) ∧
  val4 (redStep k p) = (if Z.testbit (val4 p) (Z.of_nat (128 + k))
                        then Z.lxor (val4 p) (Z.shiftl POLY (Z.of_nat k)) else val4 p).
Proof.
  intros Hp Hk. destruct (redStep_spec k p Hp Hk) as [Hp' Hb]. split; [done|].
  rewrite (val4_bit p (128 + k)) by (done || lia).
  assert (Hw : in_word 256 (val4 p)).
  { apply in_word_testbit; [lia| |].
    - unfold val4. rewrite !Z.lor_nonneg, !Z.shiftl_nonneg.
      pose proof (fun i => proj1 (bits_wf_nth p i Hp)). auto.
    - intros i Hi. by apply val4_high. }
  apply val4_eq; [done| |].
  - destruct (RBBit p (128 + k)); [|done]. apply in_word_lxor; [lia|done|by apply shiftl_POLY_word].
  - intros j Hj. rewrite Hb by done. destruct (RBBit p (128 + k)); cbn [andb].
    + by rewrite Z.lxor_spec, val4_bit.
    + by rewrite xorb_false_r, val4_bit.
Qed.

Lemma red_loop n p : n ≤ 128 → bits_wf p →
  bits_wf (for_down n redStep p) ∧ val4 (for_down n redStep p) = polymod n (val4 p).
Proof.
  revert p. induction n as [|n IH]; intros p Hn Hp; [done|]. cbn [for_down polymod].
  destruct (redStep_val n p Hp ltac:(lia)) as [Hp' Hv].
  destruct (IH (redStep n p) ltac:(lia) Hp') as [Hp'' Hv']. split; [done|]. by rewrite Hv', Hv.
Qed.

Lemma polymod_word n p : in_word (128 + Z.of_nat n) p → in_word 128 (polymod n p).
Proof.
  revert p. induction n as [|n IH]; intros p Hp; cbn [polymod]; [by rewrite Z.add_0_r in Hp|].
  apply IH. apply in_word_testbit; [lia| |].
  - destruct (Z.testbit p (Z.of_nat (128 + n))); [|apply Hp]. apply Z.lxor_nonneg. rewrite Z.shiftl_nonneg.
    split; intros _; [unfold POLY; lia|apply Hp].
  - intros i Hi. assert (Hhi : (128 + Z.of_nat n < i)%Z → Z.testbit p i = false).
    { intros. apply (testbit_high (128 + Z.of_nat (S n))); [done|lia]. }
    destruct (Z.eq_dec i (Z.of_nat (128 + n))) as [->|Hne].
    + destruct (Z.testbit p (Z.of_nat (128 + n))) eqn:E; [|done].
      rewrite Z.lxor_spec, E, Z.shiftl_spec, POLY_bit by lia.
      by replace (Z.of_nat (128 + n) - Z.of_nat n)%Z with 128%Z by lia.
    + destruct (Z.testbit p (Z.of_nat (128 + n))); [|apply Hhi; lia].
      rewrite Z.lxor_spec, Hhi, Z.shiftl_spec, POLY_bit by lia. case_bits; lia || done.
Qed.

Lemma mul_val a b : u128_ok a → u128_ok b →
  u128_ok (mul a b) ∧ val128 (mul a b) = gmul (val128 a) (val128 b).
Proof.
  intros Ha Hb. unfold mul, gmul. destruct (mul_loop a b Ha Hb) as [Hp Hv].
  set (p := for_ 0 128 _ _) in *. destruct (red_loop 128 p ltac:(lia) Hp) as [Hr Hvr].
  set (r := for_down 128 redStep p) in *. rewrite <- Hv, <- Hvr.
  assert (Hlow : in_word 128 (val4 r)).
  { rewrite Hvr, Hv. apply polymod_word. apply clmul_word; [by apply val128_word|lia]. }
  clear Hvr Hv. clearbody r. split; [split; by apply bits_wf_nth|]. apply Z.bits_inj'. intros i Hi.
  destruct (Z.lt_ge_cases i 128) as [Hlt|Hge].
  - unfold val128, val4. cbn [lo hi]. autorewrite with zbits.
    rewrite (Z.testbit_neg_r r.[2]), (Z.testbit_neg_r r.[3]) by lia. by rewrite !orb_false_r.
  - rewrite (testbit_high 128 (val4 r)) by done. apply (testbit_high 128); [|done].
    apply val128_word. split; by apply bits_wf_nth.
Qed.

(** * The fixed-operand table computes the same product *)

Lemma clmul_xor n a a' b : clmul n (Z.lxor a a') b = Z.lxor (clmul n a b) (clmul n a' b).
Proof.
  induction n as [|n IH]; cbn [clmul]; [done|]. rewrite IH, Z.lxor_spec.
  set (x := clmul n a b). set (y := clmul n a' b). set (t := Z.shiftl b _).
  destruct (Z.testbit a _), (Z.testbit a' _); cbn [xorb]; rewrite ?Z.lxor_0_r.
  - symmetry. apply lxor_swap4.
  - apply lxor_comm3.
  - apply Z.lxor_assoc.
  - done.
Qed.

Lemma polymod_xor n p q : polymod n (Z.lxor p q) = Z.lxor (polymod n p) (polymod n q).
Proof.
  revert p q. induction n as [|n IH]; intros p q; cbn [polymod]; [done|]. rewrite <- IH. f_equal.
  rewrite Z.lxor_spec. set (t := Z.shiftl POLY _).
  destruct (Z.testbit p _), (Z.testbit q _); cbn [xorb].
  - symmetry. apply lxor_swap4.
  - apply lxor_comm3.
  - apply Z.lxor_assoc.
  - done.
Qed.

Lemma gmul_xor a a' b : gmul (Z.lxor a a') b = Z.lxor (gmul a b) (gmul a' b).
Proof. unfold gmul. by rewrite clmul_xor, polymod_xor. Qed.

Lemma gmul_0 b : gmul 0 b = 0%Z.
Proof. pose proof (gmul_xor 0 0 b) as H. by rewrite Z.lxor_nilpotent in H. Qed.

Lemma xor128_ok a b : u128_ok a → u128_ok b → u128_ok (xor128 a b).
Proof. intros [] []. split; cbn; auto with zbits. Qed.

Lemma val128_xor a b : u128_ok a → u128_ok b →
  val128 (xor128 a b) = Z.lxor (val128 a) (val128 b).
Proof.
  intros Ha Hb. apply Z.bits_inj'. intros i Hi. rewrite Z.lxor_spec, <- (Z2Nat.id i) by done.
  rewrite <- !getBit_val by (done || by apply xor128_ok).
  destruct (Nat.lt_ge_cases (Z.to_nat i) 64); rewrite ?getBit_lo, ?getBit_hi by done; apply Z.lxor_spec.
Qed.

Lemma val128_inj a b : u128_ok a → u128_ok b → val128 a = val128 b → a = b.
Proof.
  intros Ha Hb H. assert (Hbit : ∀ k, getBit a k = getBit b k) by (intros; rewrite !getBit_val by done; by rewrite H).
  destruct a as [al ah], b as [bl bh], Ha as [Hal Hah], Hb as [Hbl Hbh]. cbn in *. f_equal.
  - apply Z.bits_inj'. intros i Hi. destruct (Z.lt_ge_cases i 64); [|by rewrite !(testbit_high 64)].
    specialize (Hbit (Z.to_nat i)). rewrite !getBit_lo in Hbit by lia. cbn in Hbit.
    by rewrite Z2Nat.id in Hbit by lia.
  - apply Z.bits_inj'. intros i Hi. destruct (Z.lt_ge_cases i 64); [|by rewrite !(testbit_high 64)].
    specialize (Hbit (64 + Z.to_nat i)). rewrite !getBit_hi in Hbit by lia. cbn [hi] in Hbit.
    by replace (Z.of_nat (64 + Z.to_nat i - 64)) with i in Hbit by lia.
Qed.

Lemma byteAt_val pos v : pos < 16 → v < 256 →
  u128_ok (byteAt pos v) ∧ val128 (byteAt pos v) = Z.shiftl (Z.of_nat v) (8 * Z.of_nat pos).
Proof.
  intros Hp Hv. unfold byteAt.
  assert (Hsh : ∀ k, k < 8 → in_word 64 (Z.shiftl (Z.of_nat v) (Z.of_nat (k * 8)))).
  { intros k Hk. rewrite Z.shiftl_mul_pow2 by lia. split; [nia|].
    apply Z.lt_le_trans with (2 ^ 8 * 2 ^ Z.of_nat (k * 8))%Z; [nia|].
    rewrite <- Z.pow_add_r by lia. apply Z.pow_le_mono_r; lia. }
  destruct (Nat.ltb_spec (pos * 8) 64).
  - rewrite wrap_small by (apply Hsh; lia). split; [split; [apply Hsh; lia|by apply in_word_0]|].
    unfold val128. cbn [lo hi]. rewrite Z.lor_0_r. f_equal. lia.
  - replace (pos * 8 - 64) with ((pos - 8) * 8) by lia. rewrite wrap_small by (apply Hsh; lia).
    split; [split; [by apply in_word_0|apply Hsh; lia]|].
    unfold val128. cbn [lo hi]. rewrite Z.lor_0_l, Z.shiftl_shiftl by lia. f_equal. lia.
Qed.

Lemma tableAt_val h pos v : u128_ok h → pos < 16 → in_word 8 v →
  u128_ok (tableAt (makeMulTable h) pos v) ∧
  val128 (tableAt (makeMulTable h) pos v) = gmul (Z.shiftl v (8 * Z.of_nat pos)) (val128 h).
Proof.
  intros Hh Hp [Hv0 Hv1]. unfold tableAt, makeMulTable.
  assert (Hn : Z.to_nat v < 256) by lia.
  rewrite (nth_map_seq _ 16) by done. rewrite (nth_map_seq _ 256) by done.
  destruct (byteAt_val pos (Z.to_nat v) Hp Hn) as [Hok Hval].
  destruct (mul_val _ _ Hok Hh) as [Hok' Hval']. split; [done|].
  by rewrite Hval', Hval, Z2Nat.id.
Qed.

(** The first [i] bytes of a word. *)
Lemma wrap_byte x i : wrap (8 * Z.of_nat (S i)) x
  = Z.lxor (wrap (8 * Z.of_nat i) x) (Z.shiftl (Z.land (Z.shiftr x (Z.of_nat (i * 8))) 255) (8 * Z.of_nat i)).
Proof.
  apply Z.bits_inj'. intros k Hk. rewrite Z.lxor_spec, !wrap_testbit, Z.shiftl_spec by lia.
  destruct (Z.lt_ge_cases k (8 * Z.of_nat i)).
  - rewrite (Z.testbit_neg_r (Z.land _ _)), xorb_false_r by lia. case_bits; done || lia.
  - rewrite Z.land_spec, Z.shiftr_spec by lia. change 255%Z with (2 ^ 8 - 1)%Z.
    rewrite ones_testbit by lia. replace (k - 8 * Z.of_nat i + Z.of_nat (i * 8))%Z with k by lia.
    case_bits; rewrite ?andb_true_r, ?andb_false_r, ?xorb_false_l; done || lia.
Qed.

(** [mulFixed] with the table of [h] is [mul] by [h]. *)
Theorem mulFixed_mul x h : u128_ok x → u128_ok h → mulFixed x (makeMulTable h) = mul x h.
Proof.
  intros Hx Hh. assert (H : u128_ok (mulFixed x (makeMulTable h)) ∧
    val128 (mulFixed x (makeMulTable h)) = gmul (val128 x) (val128 h)).
  { unfold mulFixed. loop_inv (fun i out => u128_ok out ∧ val128 out =
      gmul (Z.lxor (wrap (8 * Z.of_nat i) (lo x)) (Z.shiftl (wrap (8 * Z.of_nat i) (hi x)) 64)) (val128 h)) as H.
    - lia.
    - split; [split; apply in_word_0; lia|]. unfold wrap. change (2 ^ (8 * Z.of_nat 0))%Z with 1%Z.
      rewrite !Z.mod_1_r. change (Z.lxor 0 (Z.shiftl 0 64)) with 0%Z. by rewrite gmul_0.
    - intros i out Hi [Hok Hv].
      assert (Hb : ∀ y, in_word 8 (Z.land (Z.shiftr y (Z.of_nat (i * 8))) 255)).
      { intros y. rewrite land_255. apply Z.mod_pos_bound. lia. }
      destruct (tableAt_val h i _ Hh ltac:(lia) (Hb (lo x))) as [H1 V1].
      destruct (tableAt_val h (i + 8) _ Hh ltac:(lia) (Hb (hi x))) as [H2 V2].
      set (t1 := tableAt _ i _) in *. set (t2 := tableAt _ (i + 8) _) in *. clearbody t1 t2.
      split; [exact (xor128_ok _ _ (xor128_ok _ _ Hok H1) H2)|].
      rewrite (val128_xor (xor128 out t1) t2 (xor128_ok _ _ Hok H1) H2).
      rewrite (val128_xor out t1 Hok H1), V1, V2, Hv, <- !gmul_xor. f_equal.
      rewrite !wrap_byte, Z.shiftl_lxor, Z.shiftl_shiftl by lia.
      replace (8 * Z.of_nat i + 64)%Z with (8 * Z.of_nat (i + 8))%Z by lia.
      rewrite !Z.lxor_assoc. f_equal. rewrite <- !Z.lxor_assoc. f_equal. apply Z.lxor_comm.
    - destruct H as [Hok Hv]. split; [done|]. rewrite Hv. f_equal. destruct Hx as [Hl Hhx].
      rewrite !wrap_small by done. unfold val128. rewrite <- Z.lxor_lor; [done|].
      apply Z.bits_inj'. intros k Hk. rewrite Z.land_spec, Z.shiftl_spec, Z.testbit_0_l by lia.
      destruct (Z.lt_ge_cases k 64).
      + by rewrite (Z.testbit_neg_r (hi x)), andb_false_r by lia.
      + by rewrite (testbit_high 64 (lo x)). }
  destruct H as [Hok Hv]. destruct (mul_val x h Hx Hh) as [Hok' Hv'].
  apply val128_inj; [done|done|]. by rewrite Hv, Hv'.
Qed.

(** [mul] is multiplication of polynomials over GF(2) modulo the POLYVAL polynomial. *)
Theorem mul_gmul a b : u128_ok a → u128_ok b →
  u128_ok (mul a b) ∧ val128 (mul a b) = gmul (val128 a) (val128 b).
Proof. apply mul_val. Qed.

(** * The cipher *)

(** [xorBlock(out, a, b)] *)
Definition xorBlock (a b : list Z) : list Z := map (fun i => Z.lxor a.[i] b.[i]) (seq 0 16).

Definition loadAesBlock (inp : list Z) : block := le_val (take 16 inp).
Definition storeAesBlock (inp : block) : list Z := le_bytes 16 inp.

Definition toBlock (x : U128) : list Z := store128 x.
Definition fromBlock (b : list Z) : U128 := load128 b.

(** A 16-byte array with the given text. *)
Definition text16 (t : string) : list Z :=
  map (fun c => Z.of_nat (Ascii.nat_of_ascii c)) (String.list_ascii_of_string t).

Definition fixedKey : list Z := text16 "pqpsi-hctr2-key!".
Definition fixedTweak : list Z := text16 "pqpsi-hctr2-twk!".
Definition partyKey (party : Z) : list Z :=
  <[14 := u8 (48 + Z.land party 1)]> (text16 "pqpsi-hctr2-ke0!").
Definition partyTweak (party : Z) : list Z :=
  <[14 := u8 (48 + Z.land party 1)]> (text16 "pqpsi-hctr2-tw0!").

(** The loop of [update] over [count] blocks. *)
Definition update (acc : U128) (table : list (list U128)) (blocks : list Z) (count : nat) : U128 :=
  for_ 0 count (fun i acc => mulFixed (xor128 acc (load128 (drop (i * 16) blocks))) table) acc.

Definition updatePaddedZero (acc : U128) (table : list (list U128)) (data : list Z) : U128 :=
  let bytes := length data in
  let acc := update acc table data (bytes / 16) in
  let rem := bytes mod 16 in
  if negb (rem =? 0)
  then update acc table (memcpy (replicate 16 0%Z) 0 data (bytes - rem) rem) 1
  else acc.

Definition initHash (table : list (list U128)) (tweak : list Z) (modifier : Z) : U128 :=
  let first := memcpy (replicate 16 0%Z) 0
    (store64 (u64 (Z.of_nat (length tweak) * 8 * 2 + modifier))) 0 8 in
  let acc := update U128_zero table first 1 in
  updatePaddedZero acc table tweak.

Record Key : Type := mkKey {
  aes : block; (** the key of the AES objects *)
  hashKey : list Z;
  l : list Z;
  h : U128;
  table : list (list U128);
  initDiv : U128;
  initAwk : U128;
}.

Definition hash (key : Key) (msg : list Z) : list Z :=
  let full := length msg / 16 in
  let rem := length msg mod 16 in
  let acc := if rem =? 0 then initDiv key else initAwk key in
  let acc := update acc (table key) msg full in
  if negb (rem =? 0)
  then let last := memcpy (replicate 16 0%Z) 0 msg (full * 16) rem in
       toBlock (update acc (table key) (<[rem := 1%Z]> last) 1)
  else toBlock acc.

Section Cipher.
(** AES-128: [aes_enc k x] and [aes_dec k x] are [ecbEncBlock] and [ecbDecBlock] under key [k]. *)
Context (aes_enc aes_dec : block → block → block).

Definition enc (aesKey : block) (inp : list Z) : list Z :=
  storeAesBlock (aes_enc aesKey (loadAesBlock inp)).
Definition dec (aesKey : block) (inp : list Z) : list Z :=
  storeAesBlock (aes_dec aesKey (loadAesBlock inp)).

Definition schedule (aesKey : block) (i : Z) : list Z :=
  enc aesKey (memcpy (replicate 16 0%Z) 0 (store64 i) 0 8).

Definition polyvalKey (hashKey : list Z) : U128 :=
  mul (fromBlock hashKey) (mkU128 1 (Z.lor (Z.lor (Z.lor (2 ^ 63) (2 ^ 60)) (2 ^ 57)) (2 ^ 50))).

Definition makeKeyOf (keyBytes tweakBytes : list Z) : Key :=
  let aesKey := loadAesBlock keyBytes in
  let hashKey := schedule aesKey 0 in
  let h := polyvalKey hashKey in
  let table := makeMulTable h in
  mkKey aesKey hashKey (schedule aesKey 1) h table
    (initHash table tweakBytes 2) (initHash table tweakBytes 3).

(** Counter block [i] of [xctr]. *)
Definition xctrCtr (i : nat) (nonce : list Z) : list Z :=
  xorBlock (memcpy (replicate 16 0%Z) 0 (store64 (Z.of_nat i)) 0 8) nonce.

(** [xctr] with [out = in], as [crypt] calls it.  The counter and key-stream arrays hold
    [KEM_key_block_size] blocks, which bounds the length of the data. *)
Definition xctr (aesKey : block) (data nonce : list Z) : list Z :=
  let full := length data / 16 in
  let rem := length data mod 16 in
  let counters := map (fun i => loadAesBlock (xctrCtr (i + 1) nonce)) (seq 0 full) in
  let ks := bytesOf (map (aes_enc aesKey) counters) in
  let data := for_ 0 (full * 16) (fun i data => <[i := Z.lxor data.[i] ks.[i]]> data) data in
  if negb (rem =? 0)
  then let last := enc aesKey (xctrCtr (full + 1) nonce) in
       let off := full * 16 in
       for_ 0 rem (fun i data => <[off + i := Z.lxor data.[off + i] last.[i]]> data) data
  else data.

Definition crypt (data : list Z) (key : Key) (encrypt : bool) : Res (list Z) :=
  throw_if (length data <? 16) (InvalidArgument "HCTR2 needs at least one AES block") ;;
  let src := take 16 data in
  let rest := drop 16 data in
  if encrypt then
    let d1 := hash key rest in
    let mm := xorBlock src d1 in
    let uu := enc (aes key) mm in
    let s := xorBlock (xorBlock mm uu) (l key) in
    let rest := xctr (aes key) rest s in
    let d2 := hash key rest in
    mret (xorBlock uu d2 ++ rest)
  else
    let d1 := hash key rest in
    let uu := xorBlock src d1 in
    let mm := dec (aes key) uu in
    let s := xorBlock (xorBlock mm uu) (l key) in
    let rest := xctr (aes key) rest s in
    let d2 := hash key rest in
    mret (xorBlock mm d2 ++ rest).

(** The [Hctr] object of a party. *)
Definition makeKey (party : Z) : Key := makeKeyOf (partyKey party) (partyTweak party).

Definition hctrCrypt (key : Key) (data : list Z) (encrypt : bool) : Res (list Z) :=
  throw_if (negb (length data =? KEM_key_size_bit / 8)) (InvalidArgument "HCTR state size mismatch") ;;
  crypt data key encrypt.

Definition perm (party : Z) : Perm :=
  let key_ := makeKey party in {|
  perm_name := "hctr";
  perm_detail := "aes128-hctr2";
  perm_n := KEM_key_size_bit;
  perm_s := 0;
  perm_rounds := 1;
  encryptBytes data := hctrCrypt key_ data true;
  decryptBytes data := hctrCrypt key_ data false;
|}.

(** * Decryption undoes encryption *)

Lemma xorBlock_xorv a b : length a = 16 → length b = 16 → xorBlock a b = xorv a b.
Proof.
  intros Ha Hb. apply list_eq_nth; [unfold xorBlock; rewrite length_map_seq, xorv_length; congruence|].
  unfold xorBlock. rewrite length_map_seq. intros i Hi. by rewrite nth_map_seq, xorv_nth by congruence.
Qed.

Lemma store64_buf x : buf_ok 8 (store64 x).
Proof.
  split; [done|]. apply Forall_forall. intros y Hy.
  apply list_elem_of_In, in_map_iff in Hy as (i & <- & _). rewrite land_255. apply Z.mod_pos_bound. lia.
Qed.

Lemma buf_cat n m a b : buf_ok n a → buf_ok m b → buf_ok (n + m) (a ++ b).
Proof. intros [<- ?] [<- ?]. split; [apply length_app|by apply Forall_app]. Qed.

Lemma xorBlock_buf a b : buf_ok 16 a → buf_ok 16 b → buf_ok 16 (xorBlock a b).
Proof.
  intros [Ha Ha'] [Hb Hb']. rewrite xorBlock_xorv by done. split; [by rewrite xorv_length; congruence|].
  by apply xorv_ok.
Qed.

Lemma xorBlock_cancel a b : buf_ok 16 a → buf_ok 16 b → xorBlock (xorBlock a b) b = a.
Proof.
  intros Ha Hb. pose proof (xorBlock_buf a b Ha Hb) as [Hl _].
  rewrite xorBlock_xorv by (done || apply Hb). rewrite xorBlock_xorv by (apply Ha || apply Hb).
  apply xorv_cancel. destruct Ha, Hb. congruence.
Qed.

Lemma hash_buf key msg : buf_ok 16 (hash key msg).
Proof.
  unfold hash. destruct (negb _); apply (buf_cat 8 8); apply store64_buf.
Qed.

Lemma enc_buf k x : buf_ok 16 (enc k x).
Proof. split; [apply le_bytes_length|apply le_bytes_ok]. Qed.

Lemma dec_buf k x : buf_ok 16 (dec k x).
Proof. split; [apply le_bytes_length|apply le_bytes_ok]. Qed.

Lemma loadAesBlock_ok x : buf_ok 16 x → is_block (loadAesBlock x).
Proof.
  intros [Hl Hb]. unfold loadAesBlock. rewrite firstn_all2 by lia.
  eapply in_word_weaken; [|by apply le_val_bound]. rewrite Hl. lia.
Qed.

(** Documented behaviour of AES: the two directions are inverse permutations of the blocks. *)
Definition aes_inverse : Prop := ∀ k x, is_block x →
  (is_block (aes_enc k x) ∧ aes_dec k (aes_enc k x) = x) ∧
  (is_block (aes_dec k x) ∧ aes_enc k (aes_dec k x) = x).

Lemma load_store y : is_block y → loadAesBlock (storeAesBlock y) = y.
Proof.
  intros Hy. unfold loadAesBlock, storeAesBlock.
  rewrite firstn_all2 by (rewrite le_bytes_length; lia). rewrite le_val_bytes. by apply wrap_small.
Qed.

Lemma store_load x : buf_ok 16 x → storeAesBlock (loadAesBlock x) = x.
Proof.
  intros [Hl Hb]. unfold loadAesBlock, storeAesBlock. rewrite firstn_all2 by lia.
  rewrite <- Hl at 1. by apply le_bytes_val.
Qed.

Lemma dec_enc k x : aes_inverse → buf_ok 16 x → dec k (enc k x) = x ∧ enc k (dec k x) = x.
Proof.
  intros Ha Hx. destruct (Ha k _ (loadAesBlock_ok _ Hx)) as [[H1 E1] [H2 E2]].
  unfold dec, enc. rewrite !load_store by done. rewrite E1, E2. split; by apply store_load.
Qed.

(** [xctr] adds a key stream that depends on the length and the nonce only. *)
Definition keyStream (aesKey : block) (len : nat) (nonce : list Z) (j : nat) : Z :=
  let full := len / 16 in
  if j <? full * 16
  then (bytesOf (map (aes_enc aesKey)
         (map (fun i => loadAesBlock (xctrCtr (i + 1) nonce)) (seq 0 full)))).[j]
  else (enc aesKey (xctrCtr (full + 1) nonce)).[j - full * 16].

Lemma xctr_nth k data nonce : length (xctr k data nonce) = length data ∧
  ∀ j, j < length data →
    (xctr k data nonce).[j] = Z.lxor data.[j] (keyStream k (length data) nonce j).
Proof.
  unfold xctr, keyStream. pose proof (Nat.div_mod_eq (length data) 16) as Hdm.
  set (full := length data / 16) in *. set (rem := length data mod 16) in *. clearbody full rem.
  set (ks := bytesOf _). clearbody ks. set (last := enc k _). clearbody last.
  pose proof (fun j => xor_at_nth 0 (full * 16) (fun i => ks.[i]) data j ltac:(lia)) as H1.
  cbn [Nat.add] in H1. set (d1 := for_ 0 (full * 16) _ data) in *. clearbody d1.
  assert (Hl1 : length d1 = length data) by apply (H1 0).
  assert (H1' : ∀ j, d1.[j] = if j <? full * 16 then Z.lxor data.[j] ks.[j] else data.[j]).
  { intros j. rewrite (proj1 (H1 j)). cbn [Nat.leb andb]. by rewrite Nat.sub_0_r. }
  destruct (Nat.eqb_spec rem 0) as [->|Hr]; cbn [negb].
  - split; [done|]. intros j Hj. rewrite H1'. by nat_cmp.
  - pose proof (fun j => xor_at_nth (full * 16) rem (fun i => last.[i]) d1 j ltac:(lia)) as H2.
    split; [by rewrite (proj2 (H2 0))|]. intros j Hj. rewrite (proj1 (H2 j)), H1'.
    destruct (Nat.ltb_spec j (full * 16)); by nat_cmp.
Qed.

Lemma xctr_spec k data nonce : bytes_ok data →
  length (xctr k data nonce) = length data ∧ bytes_ok (xctr k data nonce) ∧
  xctr k (xctr k data nonce) nonce = data.
Proof.
  intros Hb. destruct (xctr_nth k data nonce) as [Hl Hn]. split; [done|]. split.
  - apply Forall_of_nth. rewrite Hl. intros j Hj. rewrite Hn by done.
    apply in_word_lxor; [lia|by apply Forall_nth_Z; [|apply in_word_0]|].
    unfold keyStream. destruct (_ <? _); apply Forall_nth_Z;
      [apply bytesOf_ok|by apply in_word_0|apply enc_buf|by apply in_word_0].
  - destruct (xctr_nth k (xctr k data nonce) nonce) as [Hl' Hn']. rewrite Hl in *.
    apply list_eq_nth; [done|]. rewrite Hl'. intros j Hj. rewrite Hn', Hn by done. apply lxor_cancel.
Qed.

Lemma xorBlock_comm a b : xorBlock a b = xorBlock b a.
Proof. unfold xorBlock. apply map_ext. intros i. apply Z.lxor_comm. Qed.

(** Both directions of [crypt] are total on buffers of at least a block and undo each other. *)
Lemma crypt_undo key data (dir : bool) : aes_inverse → 16 ≤ length data → bytes_ok data →
  ∃ c, crypt data key dir = Ok c ∧ length c = length data ∧ bytes_ok c ∧
    crypt c key (negb dir) = Ok data.
Proof.
  intros Ha Hl Hb. set (F := fun x => if dir then enc (aes key) x else dec (aes key) x).
  set (G := fun x => if dir then dec (aes key) x else enc (aes key) x).
  assert (HF : ∀ x, buf_ok 16 (F x)) by (intros; unfold F; destruct dir; [apply enc_buf|apply dec_buf]).
  assert (HG : ∀ x, buf_ok 16 x → G (F x) = x).
  { intros x Hx. unfold F, G. destruct dir; by apply dec_enc. }
  set (step := fun (f : list Z → list Z) d =>
    let y := xorBlock (take 16 d) (hash key (drop 16 d)) in
    let r := xctr (aes key) (drop 16 d) (xorBlock (xorBlock y (f y)) (l key)) in
    xorBlock (f y) (hash key r) ++ r).
  assert (Estep : ∀ d (b : bool), 16 ≤ length d →
    crypt d key b = Ok (step (fun x => if b then enc (aes key) x else dec (aes key) x) d)).
  { intros d b Hd. unfold crypt, step. nat_cmp. destruct b; cbn [throw_if mbind Res_bind mret Res_ret]; [done|].
    by rewrite (xorBlock_comm (dec _ _) (xorBlock _ _)). }
  assert (Hsrc : buf_ok 16 (take 16 data)).
  { split; [rewrite length_take; lia|by apply Forall_take]. }
  set (y := xorBlock (take 16 data) (hash key (drop 16 data))).
  assert (Hy : buf_ok 16 y) by (apply xorBlock_buf; [done|apply hash_buf]).
  set (s := xorBlock (xorBlock y (F y)) (l key)).
  destruct (xctr_spec (aes key) (drop 16 data) s (Forall_drop _ _ _ Hb)) as (Hrl & Hrb & Hrx).
  set (r := xctr (aes key) (drop 16 data) s) in *.
  assert (Hhead : buf_ok 16 (xorBlock (F y) (hash key r))) by (apply xorBlock_buf; [apply HF|apply hash_buf]).
  exists (xorBlock (F y) (hash key r) ++ r). rewrite length_app, Hrl, length_drop, (proj1 Hhead).
  split; [rewrite Estep by done; done|]. split; [lia|]. split; [by apply Forall_app; split; [apply Hhead|]|].
  rewrite Estep by (rewrite length_app, (proj1 Hhead); lia). f_equal.
  replace (fun x => if negb dir then enc (aes key) x else dec (aes key) x) with G
    by (unfold G; by destruct dir).
  unfold step. rewrite take_app_length', drop_app_length' by apply Hhead.
  rewrite xorBlock_cancel by (apply HF || apply hash_buf). rewrite HG by done.
  rewrite (xorBlock_comm (F y) y). fold s. rewrite Hrx. unfold y at 1.
  rewrite xorBlock_cancel by (done || apply hash_buf). apply take_drop.
Qed.

Lemma hctrCrypt_undo key data dir : aes_inverse → buf_ok (KEM_key_size_bit / 8) data →
  ∃ c, hctrCrypt key data dir = Ok c ∧ buf_ok (KEM_key_size_bit / 8) c ∧
    hctrCrypt key c (negb dir) = Ok data.
Proof.
  intros Ha [Hl Hb]. unfold hctrCrypt. rewrite Hl, Nat.eqb_refl. cbn [negb throw_if mbind Res_bind].
  assert (Hlen : 16 ≤ length data) by (rewrite Hl; apply Nat.leb_le; reflexivity).
  destruct (crypt_undo key data dir Ha Hlen Hb) as (c & Hc & Hcl & Hcb & Hcd).
  exists c. rewrite Hcl, Hl, Nat.eqb_refl. split; [exact Hc|]. split; [|exact Hcd].
  split; [congruence|exact Hcb].
Qed.

#[local] Opaque makeKey.

Lemma hctr_laws party : aes_inverse → PermLaws (perm party) (KEM_key_size_bit / 8).
Proof.
  intros Ha. pose proof (fun data dir => hctrCrypt_undo (makeKey party) data dir Ha) as H.
  set (key := makeKey party) in *.
  split; cbn [perm encryptBytes decryptBytes]; fold key; clearbody key.
  - intros data Hd. destruct (H data true Hd) as (c & Hc & Hb & _). exists c. exact (conj Hc Hb).
  - intros data Hd. destruct (H data false Hd) as (c & Hc & Hb & _). exists c. exact (conj Hc Hb).
  - intros data c Hd Hc. destruct (H data true Hd) as (c' & Hc' & _ & Hdc).
    rewrite Hc in Hc'. injection Hc' as ->. exact Hdc.
  - intros data c Hd Hc. destruct (H data false Hd) as (c' & Hc' & _ & Hdc).
    rewrite Hc in Hc'. injection Hc' as ->. exact Hdc.
Qed.
End Cipher.

(** The HCTR2 mode is total on buffers of at least one block and its two directions are
    inverse, for every key and hash table: the polynomial hash enters only through its value. *)
Theorem crypt_inverse aes_enc aes_dec key data dir : aes_inverse aes_enc aes_dec →
  16 ≤ length data → bytes_ok data →
  ∃ c, crypt aes_enc aes_dec data key dir = Ok c ∧ length c = length data ∧ bytes_ok c ∧
    crypt aes_enc aes_dec c key (negb dir) = Ok data.
Proof. intros Ha. by apply crypt_undo. Qed.

(** A stand-in for AES: adds the key. *)
Definition toy_enc (k x : block) : block := Z.lxor x (wrap 128 k).

Lemma toy_inverse : aes_inverse toy_enc toy_enc.
Proof.
  intros k x Hx. assert (is_block (toy_enc k x)) by (unfold toy_enc; auto with zbits).
  assert (toy_enc k (toy_enc k x) = x) by (apply lxor_cancel). done.
Qed.

Lemma crypt_inverse_witness : let key := makeKey toy_enc 1 in let data := replicate 40 5%Z in
  ∃ c, crypt toy_enc toy_enc data key true = Ok c ∧ crypt toy_enc toy_enc c key false = Ok data.
Proof.
  intros key data. destruct (crypt_inverse toy_enc toy_enc key data true toy_inverse) as (c & Hc & _ & _ & Hd).
  - cbn. lia.
  - by apply Forall_replicate.
  - exists c. exact (conj Hc Hd).
Defined.

Lemma mulFixed_mul_witness : let x := mkU128 7 (2 ^ 63) in let h := mkU128 3 1 in
  mulFixed x (makeMulTable h) = mul x h.
Proof. intros x h. apply mulFixed_mul; by split. Defined.

Lemma mul_gmul_witness : let x := mkU128 7 (2 ^ 63) in let h := mkU128 3 1 in
  val128 (mul x h) = gmul (val128 x) (val128 h).
Proof. intros x h. apply mul_gmul; by split. Defined.
End Hctr2.
