(* ===== verification/AesNi.v ===== *)
(** The AES instructions of x86 (the intrinsics of [wmmintrin.h] that [src/cryptoTools/Crypto/AES.cpp]
    is written with).  [AesNi] is their interface and [AesNiLaws] what the AES classes rely on;
    Module [Fips] gives the instructions as FIPS-197 and the instruction manual define them (state of
    sixteen bytes, S-box, rows, columns over GF(2^8)) and discharges the laws. *)
From Stdlib Require Import Btauto.
From S2P Require Import Prelude Words.
Open Scope Z_scope.

(** * The instructions and their laws *)

Class AesNi : Type := {
  aesenc : block → block → block;
  aesenclast : block → block → block;
  aesdec : block → block → block;
  aesdeclast : block → block → block;
  aesimc : block → block;
  aeskeygenassist : block → Z → block;
}.

(** A round is an unkeyed transformation followed by the addition of the round key; [aesimc] is
    InvMixColumns, which is linear and which relates the middle rounds to the last ones. *)
Class AesNiLaws (N : AesNi) : Prop := {
  aesenc_key x k : aesenc x k = Z.lxor (aesenc x 0) k;
  aesenclast_key x k : aesenclast x k = Z.lxor (aesenclast x 0) k;
  aesdec_key x k : aesdec x k = Z.lxor (aesdec x 0) k;
  aesdeclast_key x k : aesdeclast x k = Z.lxor (aesdeclast x 0) k;
  aesenc_block x : is_block (aesenc x 0);
  aesenclast_block x : is_block (aesenclast x 0);
  aesdeclast_block x : is_block (aesdeclast x 0);
  aesimc_block x : is_block (aesimc x);
  aeskeygenassist_block x r : in_word 8 r → is_block (aeskeygenassist x r);
  aesimc_xor x y : aesimc (Z.lxor x y) = Z.lxor (aesimc x) (aesimc y);
  aesimc_enc x : aesimc (aesenc x 0) = aesenclast x 0;
  aesdec_imc x : aesdec x 0 = aesimc (aesdeclast x 0);
  last_dec_enc x : is_block x → aesdeclast (aesenclast x 0) 0 = x;
  last_enc_dec x : is_block x → aesenclast (aesdeclast x 0) 0 = x;
  enc_imc x : is_block x → aesenc (aesdeclast (aesimc x) 0) 0 = x;
}.

(** * Dwords of a register *)

Definition dword (x : block) (i : Z) : Z := u32 (Z.shiftr x (32 * i)).

(** The register of dwords [w0] to [w3]. *)
Definition of_dwords (w0 w1 w2 w3 : Z) : block :=
  Z.lor (Z.lor w0 (Z.shiftl w1 32)) (Z.lor (Z.shiftl w2 64) (Z.shiftl w3 96)).

Lemma of_dwords_block a b c d : in_word 32 a → in_word 32 b → in_word 32 c → in_word 32 d →
  is_block (of_dwords a b c d).
Proof.
  assert (S : ∀ x n, in_word 32 x → 0 ≤ n ≤ 96 → is_block (Z.shiftl x n)).
  { intros x n [H0 H1] Hn. rewrite Z.shiftl_mul_pow2 by lia. split; [apply Z.mul_nonneg_nonneg; lia|].
    apply Z.lt_le_trans with (2 ^ 32 * 2 ^ n); [apply Z.mul_lt_mono_pos_r; lia|].
    rewrite <- Z.pow_add_r by lia. apply Z.pow_le_mono_r; lia. }
  intros Ha Hb Hc Hd. unfold of_dwords.
  apply in_word_lor; [lia| |]; apply in_word_lor; try lia; try (apply S; [done|lia]).
  by apply (in_word_weaken 32); [lia|].
Qed.

(** * FIPS-197 *)

Module Fips.

(** ** The field GF(2^8) *)

(** Multiplication by [x] modulo x^8 + x^4 + x^3 + x + 1. *)
Definition xtime (b : Z) : Z := Z.lxor (u8 (Z.shiftl b 1)) (if Z.testbit b 7 then 0x1b else 0).

Fixpoint gf_mul (n : nat) (k b : Z) : Z :=
  match n with
  | O => 0
  | S n => Z.lxor (if Z.odd k then b else 0) (gf_mul n (Z.div2 k) (xtime b))
  end.

(** The product of [k] and [b]. *)
Definition gf (k b : Z) : Z := gf_mul 8 k b.

(** ** The S-box *)

Definition SBOX : list Z :=
  [0x63; 0x7c; 0x77; 0x7b; 0xf2; 0x6b; 0x6f; 0xc5; 0x30; 0x01; 0x67; 0x2b; 0xfe; 0xd7; 0xab; 0x76;
   0xca; 0x82; 0xc9; 0x7d; 0xfa; 0x59; 0x47; 0xf0; 0xad; 0xd4; 0xa2; 0xaf; 0x9c; 0xa4; 0x72; 0xc0;
   0xb7; 0xfd; 0x93; 0x26; 0x36; 0x3f; 0xf7; 0xcc; 0x34; 0xa5; 0xe5; 0xf1; 0x71; 0xd8; 0x31; 0x15;
   0x04; 0xc7; 0x23; 0xc3; 0x18; 0x96; 0x05; 0x9a; 0x07; 0x12; 0x80; 0xe2; 0xeb; 0x27; 0xb2; 0x75;
   0x09; 0x83; 0x2c; 0x1a; 0x1b; 0x6e; 0x5a; 0xa0; 0x52; 0x3b; 0xd6; 0xb3; 0x29; 0xe3; 0x2f; 0x84;
   0x53; 0xd1; 0x00; 0xed; 0x20; 0xfc; 0xb1; 0x5b; 0x6a; 0xcb; 0xbe; 0x39; 0x4a; 0x4c; 0x58; 0xcf;
   0xd0; 0xef; 0xaa; 0xfb; 0x43; 0x4d; 0x33; 0x85; 0x45; 0xf9; 0x02; 0x7f; 0x50; 0x3c; 0x9f; 0xa8;
   0x51; 0xa3; 0x40; 0x8f; 0x92; 0x9d; 0x38; 0xf5; 0xbc; 0xb6; 0xda; 0x21; 0x10; 0xff; 0xf3; 0xd2;
   0xcd; 0x0c; 0x13; 0xec; 0x5f; 0x97; 0x44; 0x17; 0xc4; 0xa7; 0x7e; 0x3d; 0x64; 0x5d; 0x19; 0x73;
   0x60; 0x81; 0x4f; 0xdc; 0x22; 0x2a; 0x90; 0x88; 0x46; 0xee; 0xb8; 0x14; 0xde; 0x5e; 0x0b; 0xdb;
   0xe0; 0x32; 0x3a; 0x0a; 0x49; 0x06; 0x24; 0x5c; 0xc2; 0xd3; 0xac; 0x62; 0x91; 0x95; 0xe4; 0x79;
   0xe7; 0xc8; 0x37; 0x6d; 0x8d; 0xd5; 0x4e; 0xa9; 0x6c; 0x56; 0xf4; 0xea; 0x65; 0x7a; 0xae; 0x08;
   0xba; 0x78; 0x25; 0x2e; 0x1c; 0xa6; 0xb4; 0xc6; 0xe8; 0xdd; 0x74; 0x1f; 0x4b; 0xbd; 0x8b; 0x8a;
   0x70; 0x3e; 0xb5; 0x66; 0x48; 0x03; 0xf6; 0x0e; 0x61; 0x35; 0x57; 0xb9; 0x86; 0xc1; 0x1d; 0x9e;
   0xe1; 0xf8; 0x98; 0x11; 0x69; 0xd9; 0x8e; 0x94; 0x9b; 0x1e; 0x87; 0xe9; 0xce; 0x55; 0x28; 0xdf;
   0x8c; 0xa1; 0x89; 0x0d; 0xbf; 0xe6; 0x42; 0x68; 0x41; 0x99; 0x2d; 0x0f; 0xb0; 0x54; 0xbb; 0x16].

Definition INV_SBOX : list Z :=
  [0x52; 0x09; 0x6a; 0xd5; 0x30; 0x36; 0xa5; 0x38; 0xbf; 0x40; 0xa3; 0x9e; 0x81; 0xf3; 0xd7; 0xfb;
   0x7c; 0xe3; 0x39; 0x82; 0x9b; 0x2f; 0xff; 0x87; 0x34; 0x8e; 0x43; 0x44; 0xc4; 0xde; 0xe9; 0xcb;
   0x54; 0x7b; 0x94; 0x32; 0xa6; 0xc2; 0x23; 0x3d; 0xee; 0x4c; 0x95; 0x0b; 0x42; 0xfa; 0xc3; 0x4e;
   0x08; 0x2e; 0xa1; 0x66; 0x28; 0xd9; 0x24; 0xb2; 0x76; 0x5b; 0xa2; 0x49; 0x6d; 0x8b; 0xd1; 0x25;
   0x72; 0xf8; 0xf6; 0x64; 0x86; 0x68; 0x98; 0x16; 0xd4; 0xa4; 0x5c; 0xcc; 0x5d; 0x65; 0xb6; 0x92;
   0x6c; 0x70; 0x48; 0x50; 0xfd; 0xed; 0xb9; 0xda; 0x5e; 0x15; 0x46; 0x57; 0xa7; 0x8d; 0x9d; 0x84;
   0x90; 0xd8; 0xab; 0x00; 0x8c; 0xbc; 0xd3; 0x0a; 0xf7; 0xe4; 0x58; 0x05; 0xb8; 0xb3; 0x45; 0x06;
   0xd0; 0x2c; 0x1e; 0x8f; 0xca; 0x3f; 0x0f; 0x02; 0xc1; 0xaf; 0xbd; 0x03; 0x01; 0x13; 0x8a; 0x6b;
   0x3a; 0x91; 0x11; 0x41; 0x4f; 0x67; 0xdc; 0xea; 0x97; 0xf2; 0xcf; 0xce; 0xf0; 0xb4; 0xe6; 0x73;
   0x96; 0xac; 0x74; 0x22; 0xe7; 0xad; 0x35; 0x85; 0xe2; 0xf9; 0x37; 0xe8; 0x1c; 0x75; 0xdf; 0x6e;
   0x47; 0xf1; 0x1a; 0x71; 0x1d; 0x29; 0xc5; 0x89; 0x6f; 0xb7; 0x62; 0x0e; 0xaa; 0x18; 0xbe; 0x1b;
   0xfc; 0x56; 0x3e; 0x4b; 0xc6; 0xd2; 0x79; 0x20; 0x9a; 0xdb; 0xc0; 0xfe; 0x78; 0xcd; 0x5a; 0xf4;
   0x1f; 0xdd; 0xa8; 0x33; 0x88; 0x07; 0xc7; 0x31; 0xb1; 0x12; 0x10; 0x59; 0x27; 0x80; 0xec; 0x5f;
   0x60; 0x51; 0x7f; 0xa9; 0x19; 0xb5; 0x4a; 0x0d; 0x2d; 0xe5; 0x7a; 0x9f; 0x93; 0xc9; 0x9c; 0xef;
   0xa0; 0xe0; 0x3b; 0x4d; 0xae; 0x2a; 0xf5; 0xb0; 0xc8; 0xeb; 0xbb; 0x3c; 0x83; 0x53; 0x99; 0x61;
   0x17; 0x2b; 0x04; 0x7e; 0xba; 0x77; 0xd6; 0x26; 0xe1; 0x69; 0x14; 0x63; 0x55; 0x21; 0x0c; 0x7d].

Definition sbox (b : Z) : Z := nth (Z.to_nat b) SBOX 0.
Definition inv_sbox (b : Z) : Z := nth (Z.to_nat b) INV_SBOX 0.

(** ** The state: byte [r + 4 c] is row [r] of column [c] *)

Definition SubBytes (s : list Z) : list Z := map sbox s.
Definition InvSubBytes (s : list Z) : list Z := map inv_sbox s.

Definition shift_src (i : nat) : nat := i mod 4 + 4 * ((i / 4 + i mod 4) mod 4).
Definition inv_shift_src (i : nat) : nat := i mod 4 + 4 * ((i / 4 + (4 - i mod 4)) mod 4).

Definition ShiftRows (s : list Z) : list Z := map (fun i => s.[shift_src i]) (seq 0 16).
Definition InvShiftRows (s : list Z) : list Z := map (fun i => s.[inv_shift_src i]) (seq 0 16).

(** Entry [i] of the product of every column by the circulant matrix of first row [k]. *)
Definition row (k : list Z) (a b c d : Z) : Z :=
  Z.lxor (Z.lxor (gf k.[0] a) (gf k.[1] b)) (Z.lxor (gf k.[2] c) (gf k.[3] d)).
Definition col_src (i j : nat) : nat := 4 * (i / 4) + (i mod 4 + j) mod 4.
Definition mix_at (k s : list Z) (i : nat) : Z :=
  row k s.[col_src i 0] s.[col_src i 1] s.[col_src i 2] s.[col_src i 3].
Definition mix (k s : list Z) : list Z := map (mix_at k s) (seq 0 16).

Definition MixColumns : list Z → list Z := mix [2; 3; 1; 1].
Definition InvMixColumns : list Z → list Z := mix [14; 11; 13; 9].

(** ** The instructions *)

(** The state transformation [f] on a 128-bit register. *)
Definition on_state (f : list Z → list Z) (x : block) : block := le_val (f (le_bytes 16 x)).

Definition SubWord (w : Z) : Z := le_val (map sbox (le_bytes 4 w)).
Definition RotWord (w : Z) : Z := rotw 32 w 8.

#[export] Instance fips : AesNi := {|
  aesenc x k := Z.lxor (on_state (fun s => MixColumns (SubBytes (ShiftRows s))) x) k;
  aesenclast x k := Z.lxor (on_state (fun s => SubBytes (ShiftRows s)) x) k;
  aesdec x k := Z.lxor (on_state (fun s => InvMixColumns (InvSubBytes (InvShiftRows s))) x) k;
  aesdeclast x k := Z.lxor (on_state (fun s => InvSubBytes (InvShiftRows s)) x) k;
  aesimc x := on_state InvMixColumns x;
  aeskeygenassist x rcon :=
    let x1 := SubWord (dword x 1) in
    let x3 := SubWord (dword x 3) in
    of_dwords x1 (Z.lxor (RotWord x1) rcon) x3 (Z.lxor (RotWord x3) rcon);
|}.

(** ** The S-box tables *)

(** [f] holds of every byte. *)
Definition all_bytes (f : Z → bool) : bool := forallb (fun i => f (Z.of_nat i)) (seq 0 256).

Lemma all_bytes_spec f b : all_bytes f = true → is_byte b → f b = true.
Proof.
  unfold all_bytes. rewrite forallb_forall. intros H [H0 H1]. change (2 ^ 8) with 256 in H1.
  rewrite <- (Z2Nat.id b) by done. apply H, in_seq. lia.
Qed.

Lemma sbox_ok b : is_byte b → is_byte (sbox b) ∧ inv_sbox (sbox b) = b ∧
  is_byte (inv_sbox b) ∧ sbox (inv_sbox b) = b.
Proof.
  assert (H : all_bytes (fun b => bool_decide (is_byte (sbox b)) && (inv_sbox (sbox b) =? b)
    && bool_decide (is_byte (inv_sbox b)) && (sbox (inv_sbox b) =? b)) = true) by (vm_compute; reflexivity).
  intros Hb. apply (all_bytes_spec _ _ H) in Hb. rewrite !andb_true_iff, !bool_decide_eq_true, !Z.eqb_eq in Hb. tauto.
Qed.

(** The bit rotation of a byte to the left. *)
Definition rotl8 (x n : Z) : Z := rotw 8 x (8 - n).

(** The S-box of FIPS-197: the affine map after the inverse of the field ([0] for [0]). *)
Definition sbox_spec (b s : Z) : Prop := ∃ i, is_byte i ∧ (if b =? 0 then i = 0 else gf b i = 1) ∧
  s = Z.lxor (Z.lxor (Z.lxor i (rotl8 i 1)) (Z.lxor (rotl8 i 2) (rotl8 i 3))) (Z.lxor (rotl8 i 4) 0x63).

(** The inverse of the affine map. *)
Definition sbox_preimage (s : Z) : Z :=
  Z.lxor (Z.lxor (rotl8 s 1) (rotl8 s 3)) (Z.lxor (rotl8 s 6) 5).

Lemma sbox_is_fips b : is_byte b → sbox_spec b (sbox b).
Proof.
  assert (H : all_bytes (fun b => let i := sbox_preimage (sbox b) in
    bool_decide (is_byte i) && (if b =? 0 then i =? 0 else gf b i =? 1) &&
    (sbox b =? Z.lxor (Z.lxor (Z.lxor i (rotl8 i 1)) (Z.lxor (rotl8 i 2) (rotl8 i 3)))
      (Z.lxor (rotl8 i 4) 0x63))) = true) by (vm_compute; reflexivity).
  intros Hb. apply (all_bytes_spec _ _ H) in Hb. cbv zeta in Hb.
  rewrite !andb_true_iff, bool_decide_eq_true, Z.eqb_eq in Hb. destruct Hb as [[Hi Hg] Hs].
  exists (sbox_preimage (sbox b)). split; [done|]. split; [|done].
  destruct (b =? 0); by apply Z.eqb_eq.
Qed.

(** ** GF(2^8) is linear in its second argument *)

Lemma xtime_xor a b : xtime (Z.lxor a b) = Z.lxor (xtime a) (xtime b).
Proof.
  unfold xtime. rewrite Z.shiftl_lxor, wrap_lxor, Z.lxor_spec by lia.
  rewrite lxor4. f_equal. by destruct (Z.testbit a 7), (Z.testbit b 7).
Qed.

Lemma xtime_byte b : is_byte (xtime b).
Proof. unfold xtime. apply in_word_lxor; [lia|apply in_word_wrap; lia|]. by destruct (Z.testbit b 7). Qed.

Lemma gf_mul_xor n k a b : gf_mul n k (Z.lxor a b) = Z.lxor (gf_mul n k a) (gf_mul n k b).
Proof.
  revert k a b. induction n as [|n IH]; intros k a b; [done|]. cbn [gf_mul].
  rewrite xtime_xor, IH, lxor4. f_equal. by destruct (Z.odd k).
Qed.

Lemma gf_xor k a b : gf k (Z.lxor a b) = Z.lxor (gf k a) (gf k b).
Proof. apply gf_mul_xor. Qed.

Lemma gf_mul_byte n k b : is_byte b → is_byte (gf_mul n k b).
Proof.
  revert k b. induction n as [|n IH]; intros k b Hb; [done|]. cbn [gf_mul].
  apply in_word_lxor; [lia| |apply IH, xtime_byte]. by destruct (Z.odd k).
Qed.

Lemma gf_byte k b : is_byte b → is_byte (gf k b).
Proof. apply gf_mul_byte. Qed.

(** ** Columns *)

Lemma lxor8 a0 b0 a1 b1 a2 b2 a3 b3 :
  Z.lxor (Z.lxor (Z.lxor a0 b0) (Z.lxor a1 b1)) (Z.lxor (Z.lxor a2 b2) (Z.lxor a3 b3)) =
  Z.lxor (Z.lxor (Z.lxor a0 a1) (Z.lxor a2 a3)) (Z.lxor (Z.lxor b0 b1) (Z.lxor b2 b3)).
Proof. etransitivity; [|apply lxor4]. f_equal; apply lxor4. Qed.

Lemma mix_at_xor k a b i : length a = 16%nat → length b = 16%nat →
  mix_at k (xorv a b) i = Z.lxor (mix_at k a i) (mix_at k b i).
Proof.
  intros Ha Hb. unfold mix_at, row. rewrite !xorv_nth, !gf_xor by congruence.
  apply lxor8.
Qed.

Lemma mix_xor k a b : length a = 16%nat → length b = 16%nat → mix k (xorv a b) = xorv (mix k a) (mix k b).
Proof.
  intros Ha Hb. unfold mix. apply list_eq_nth; [rewrite xorv_length; by rewrite !length_map_seq|].
  rewrite length_map_seq. intros i Hi. rewrite xorv_nth by (by rewrite !length_map_seq).
  rewrite !nth_map_seq by done. by apply mix_at_xor.
Qed.

(** The circulant matrices of first rows [k] and [m] are inverse to each other. *)
Definition diagonal (k m : list Z) (j : nat) (x : Z) : Z :=
  let t i := gf k.[i] (gf m.[(j + 4 - i) mod 4] x) in
  Z.lxor (Z.lxor (t 0%nat) (t 1%nat)) (Z.lxor (t 2%nat) (t 3%nat)).

Definition circ_inverse (k m : list Z) : bool :=
  agree_on_basis 8 (diagonal k m 0) (fun x => x) && agree_on_basis 8 (diagonal k m 1) (fun _ => 0) &&
  agree_on_basis 8 (diagonal k m 2) (fun _ => 0) && agree_on_basis 8 (diagonal k m 3) (fun _ => 0).

Lemma diagonal_linear k m j : linear 8 (diagonal k m j).
Proof. intros a b _ _. unfold diagonal. rewrite !gf_xor. apply lxor8. Qed.

Lemma circ_inverse_spec k m x : circ_inverse k m = true → is_byte x →
  diagonal k m 0 x = x ∧ diagonal k m 1 x = 0 ∧ diagonal k m 2 x = 0 ∧ diagonal k m 3 x = 0.
Proof.
  unfold circ_inverse. rewrite !andb_true_iff. intros [[[E0 E1] E2] E3] Hx.
  assert (L0 : linear 8 (fun _ => 0)) by exact (fun _ _ _ _ => eq_refl).
  assert (L1 : linear 8 (fun x => x)) by exact (fun _ _ _ _ => eq_refl).
  repeat split.
  - exact (linear_check 8 _ _ (diagonal_linear k m 0) L1 E0 x Hx).
  - exact (linear_check 8 _ _ (diagonal_linear k m 1) L0 E1 x Hx).
  - exact (linear_check 8 _ _ (diagonal_linear k m 2) L0 E2 x Hx).
  - exact (linear_check 8 _ _ (diagonal_linear k m 3) L0 E3 x Hx).
Qed.

Lemma row_inverse k m a b c d : circ_inverse k m = true →
  is_byte a → is_byte b → is_byte c → is_byte d →
  row k (row m a b c d) (row m b c d a) (row m c d a b) (row m d a b c) = a.
Proof.
  intros H Ha Hb Hc Hd. assert (E := fun x => circ_inverse_spec k m x H).
  transitivity (Z.lxor (Z.lxor (diagonal k m 0 a) (diagonal k m 1 b))
    (Z.lxor (diagonal k m 2 c) (diagonal k m 3 d))).
  - unfold row, diagonal. cbn [Nat.add Nat.sub]. rewrite !gf_xor.
    repeat match goal with |- context [(?n mod 4)%nat] => let v := eval compute in (n mod 4)%nat in
      change (n mod 4)%nat with v end.
    apply Z.bits_inj'. intros i Hi. rewrite !Z.lxor_spec. btauto.
  - destruct (E a Ha) as (-> & _), (E b Hb) as (_ & -> & _), (E c Hc) as (_ & _ & -> & _),
      (E d Hd) as (_ & _ & _ & ->). by rewrite !Z.lxor_0_r.
Qed.

(** A row of a column of the same column. *)
Lemma col_src_src i j l : (i < 16)%nat → (j < 4)%nat → (l < 4)%nat →
  (col_src i j < 16)%nat ∧ col_src (col_src i j) l = col_src i ((j + l) mod 4).
Proof.
  assert (H : forallb (fun i => forallb (fun j => forallb (fun l => (col_src i j <? 16)%nat &&
    (col_src (col_src i j) l =? col_src i ((j + l) mod 4))%nat) (seq 0 4)) (seq 0 4)) (seq 0 16) = true)
    by reflexivity.
  intros Hi Hj Hl. rewrite forallb_forall in H. specialize (H i ltac:(apply in_seq; lia)).
  rewrite forallb_forall in H. specialize (H j ltac:(apply in_seq; lia)).
  rewrite forallb_forall in H. specialize (H l ltac:(apply in_seq; lia)).
  by apply andb_true_iff in H as [?%Nat.ltb_lt ?%Nat.eqb_eq].
Qed.

Lemma nth_mix k s i : (i < 16)%nat → (mix k s).[i] = mix_at k s i.
Proof. intros Hi. unfold mix. by rewrite nth_map_seq. Qed.

Lemma mix_mix_at m s i j : (i < 16)%nat → (j < 4)%nat → (mix m s).[col_src i j] =
  row m s.[col_src i ((j + 0) mod 4)] s.[col_src i ((j + 1) mod 4)]
    s.[col_src i ((j + 2) mod 4)] s.[col_src i ((j + 3) mod 4)].
Proof.
  intros Hi Hj. rewrite nth_mix by (by apply (col_src_src i j 0%nat Hi Hj); lia). unfold mix_at.
  assert (E := fun l Hl => proj2 (col_src_src i j l Hi Hj Hl)). by rewrite !E by lia.
Qed.

Lemma mix_inverse k m s : circ_inverse k m = true → length s = 16%nat → bytes_ok s →
  mix k (mix m s) = s.
Proof.
  intros H Hl Hs. assert (B : ∀ i, is_byte s.[i]) by (intros; by apply Forall_nth_Z).
  apply list_eq_nth; [unfold mix; by rewrite length_map_seq|].
  unfold mix at 1. rewrite length_map_seq. intros i Hi. rewrite nth_mix by done.
  unfold mix_at. rewrite !mix_mix_at by lia. etransitivity; [by apply row_inverse|].
  f_equal. clear - Hi. unfold col_src. do 16 (destruct i as [|i]; [done|]). lia.
Qed.

(** ** The transformations of the state and their inverses *)

Definition state_ok (s : list Z) : Prop := length s = 16%nat ∧ bytes_ok s.

Lemma mix_at_byte k s i : bytes_ok s → is_byte (mix_at k s i).
Proof.
  intros Hs. unfold mix_at, row. assert (B : ∀ c j, is_byte (gf c s.[j])).
  { intros c j. by apply gf_byte, Forall_nth_Z. }
  apply in_word_lxor; [lia| |]; (apply in_word_lxor; [lia|apply B|apply B]).
Qed.

Lemma block_state_of_map (f : nat → Z) : (∀ i, is_byte (f i)) → state_ok (map f (seq 0 16)).
Proof. intros H. split; [done|]. apply Forall_of_nth. intros i Hi. by rewrite nth_map_seq. Qed.

Lemma mix_ok k s : state_ok s → state_ok (mix k s).
Proof. intros [_ Hs]. apply block_state_of_map. intros i. by apply mix_at_byte. Qed.

Lemma ShiftRows_ok s : state_ok s → state_ok (ShiftRows s).
Proof. intros [_ Hs]. apply block_state_of_map. intros i. by apply Forall_nth_Z. Qed.

Lemma InvShiftRows_ok s : state_ok s → state_ok (InvShiftRows s).
Proof. intros [_ Hs]. apply block_state_of_map. intros i. by apply Forall_nth_Z. Qed.

Lemma map_sbox_ok f s : (∀ b, is_byte b → is_byte (f b)) → state_ok s → state_ok (map f s).
Proof.
  intros Hf [Hl Hs]. split; [by rewrite length_map|]. apply Forall_fmap.
  by eapply Forall_impl.
Qed.

Lemma SubBytes_ok s : state_ok s → state_ok (SubBytes s).
Proof. apply map_sbox_ok. intros b Hb. apply (sbox_ok b Hb). Qed.

Lemma InvSubBytes_ok s : state_ok s → state_ok (InvSubBytes s).
Proof. apply map_sbox_ok. intros b Hb. apply (sbox_ok b Hb). Qed.

Lemma map_inverse (f g : Z → Z) s : (∀ b, is_byte b → g (f b) = b) → bytes_ok s → map g (map f s) = s.
Proof.
  intros H Hs. rewrite map_map. induction Hs as [|b s Hb Hs IH]; [done|]. cbn [map]. by rewrite H, IH.
Qed.

Lemma SubBytes_inverse s : state_ok s → InvSubBytes (SubBytes s) = s ∧ SubBytes (InvSubBytes s) = s.
Proof. intros [_ Hs]. split; apply map_inverse; try done; intros b Hb; apply (sbox_ok b Hb). Qed.

Lemma permute_inverse (p q : nat → nat) s :
  forallb (fun i => (p i <? 16)%nat && (q (p i) =? i)%nat) (seq 0 16) = true → length s = 16%nat →
  map (fun i => (map (fun i => s.[q i]) (seq 0 16)).[p i]) (seq 0 16) = s.
Proof.
  rewrite forallb_forall. intros H Hl. apply list_eq_nth; [done|].
  rewrite length_map_seq. intros i Hi. rewrite nth_map_seq by done.
  specialize (H i ltac:(apply in_seq; lia)). apply andb_true_iff in H as [Hp%Nat.ltb_lt Hq%Nat.eqb_eq].
  by rewrite nth_map_seq, Hq.
Qed.

Lemma ShiftRows_inverse s : state_ok s → InvShiftRows (ShiftRows s) = s ∧ ShiftRows (InvShiftRows s) = s.
Proof. intros [Hl _]. split; by apply permute_inverse. Qed.

Lemma mix_matrices : circ_inverse [14; 11; 13; 9] [2; 3; 1; 1] = true ∧
  circ_inverse [2; 3; 1; 1] [14; 11; 13; 9] = true.
Proof. split; vm_compute; reflexivity. Qed.

Lemma MixColumns_inverse s : state_ok s → InvMixColumns (MixColumns s) = s ∧ MixColumns (InvMixColumns s) = s.
Proof.
  intros [Hl Hs]. destruct mix_matrices as [A B]. split.
  - exact (mix_inverse _ _ s A Hl Hs).
  - exact (mix_inverse _ _ s B Hl Hs).
Qed.

(** The unkeyed part of a last round and its inverse. *)
Definition sr (s : list Z) : list Z := SubBytes (ShiftRows s).
Definition inv_sr (s : list Z) : list Z := InvSubBytes (InvShiftRows s).

Lemma sr_ok s : state_ok s → state_ok (sr s).
Proof. intros H. by apply SubBytes_ok, ShiftRows_ok. Qed.

Lemma inv_sr_ok s : state_ok s → state_ok (inv_sr s).
Proof. intros H. by apply InvSubBytes_ok, InvShiftRows_ok. Qed.

(** A bytewise map and a permutation of the bytes commute. *)
Lemma InvSub_InvShift s : state_ok s → InvSubBytes (InvShiftRows s) = InvShiftRows (InvSubBytes s).
Proof.
  intros [Hl Hs]. unfold InvSubBytes, InvShiftRows. rewrite map_map. apply map_ext_in.
  intros i Hi%in_seq. rewrite (nth_indep (map inv_sbox s) 0 (inv_sbox 0)); [by rewrite map_nth|].
  rewrite length_map, Hl. revert Hi. do 16 (destruct i as [|i]; [cbn; lia|]). lia.
Qed.

Lemma sr_inverse s : state_ok s → inv_sr (sr s) = s ∧ sr (inv_sr s) = s.
Proof.
  intros H. unfold sr, inv_sr. split.
  - rewrite InvSub_InvShift by by apply sr_ok. rewrite (proj1 (SubBytes_inverse _ (ShiftRows_ok _ H))).
    apply (ShiftRows_inverse _ H).
  - rewrite InvSub_InvShift by done. rewrite (proj2 (ShiftRows_inverse _ (InvSubBytes_ok _ H))).
    apply (SubBytes_inverse _ H).
Qed.

(** ** The laws of the instructions *)

Lemma le_bytes_state x : state_ok (le_bytes 16 x).
Proof. split; [apply le_bytes_length|apply le_bytes_ok]. Qed.

Lemma on_state_block f x : state_ok (f (le_bytes 16 x)) → is_block (on_state f x).
Proof. intros [Hl Hb]. unfold on_state. pose proof (le_val_bound _ Hb) as W. by rewrite Hl in W. Qed.

Lemma on_state_comp f g x : state_ok (g (le_bytes 16 x)) →
  on_state f (on_state g x) = on_state (fun s => f (g s)) x.
Proof.
  intros [Hl Hb]. pose proof (le_bytes_val _ Hb) as E. rewrite Hl in E. unfold on_state. by rewrite E.
Qed.

Lemma on_state_ext f g x : f (le_bytes 16 x) = g (le_bytes 16 x) → on_state f x = on_state g x.
Proof. unfold on_state. by intros ->. Qed.

Lemma on_state_id x : is_block x → on_state (fun s => s) x = x.
Proof. intros Hx. unfold on_state. rewrite le_val_bytes. by apply wrap_small. Qed.

Lemma on_state_inverse f g x : state_ok (g (le_bytes 16 x)) → f (g (le_bytes 16 x)) = le_bytes 16 x →
  is_block x → on_state f (on_state g x) = x.
Proof.
  intros Hg E Hx. rewrite on_state_comp by done. rewrite (on_state_ext _ (fun s => s)) by done.
  by apply on_state_id.
Qed.

Lemma on_state_mix_xor k a b :
  on_state (mix k) (Z.lxor a b) = Z.lxor (on_state (mix k) a) (on_state (mix k) b).
Proof.
  unfold on_state. rewrite le_bytes_lxor, mix_xor by apply le_bytes_length.
  destruct (mix_ok k _ (le_bytes_state a)) as [La Ha], (mix_ok k _ (le_bytes_state b)) as [Lb Hb].
  apply le_val_xorv; congruence.
Qed.

Lemma SubWord_word w : in_word 32 (SubWord w).
Proof.
  unfold SubWord. assert (H : bytes_ok (map sbox (le_bytes 4 w))).
  { apply Forall_fmap. eapply Forall_impl; [apply le_bytes_ok|]. intros b Hb. apply (sbox_ok b Hb). }
  pose proof (le_val_bound _ H) as W. by rewrite length_map, le_bytes_length in W.
Qed.

#[export] Instance fips_laws : AesNiLaws fips.
Proof.
  assert (B := le_bytes_state).
  split; cbn [aesenc aesenclast aesdec aesdeclast aesimc aeskeygenassist fips]; intros;
    rewrite ?Z.lxor_0_r; try reflexivity.
  - by apply on_state_block, mix_ok, sr_ok.
  - by apply on_state_block, sr_ok.
  - by apply on_state_block, inv_sr_ok.
  - by apply on_state_block, mix_ok.
  - apply of_dwords_block; try apply SubWord_word; (apply in_word_lxor; [lia| |]);
      try (apply rotw_word; [lia|lia|apply SubWord_word]); by apply (in_word_weaken 8); [lia|].
  - apply on_state_mix_xor.
  - rewrite on_state_comp by by apply mix_ok, sr_ok. apply on_state_ext.
    apply (MixColumns_inverse _ (sr_ok _ (B x))).
  - by rewrite on_state_comp by by apply inv_sr_ok.
  - apply on_state_inverse; [by apply sr_ok|apply (sr_inverse _ (B x))|done].
  - apply on_state_inverse; [by apply inv_sr_ok|apply (sr_inverse _ (B x))|done].
  - rewrite (on_state_comp _ InvMixColumns) by by apply mix_ok.
    apply on_state_inverse; [by apply inv_sr_ok, mix_ok| |done].
    change (MixColumns (sr (inv_sr (InvMixColumns (le_bytes 16 x)))) = le_bytes 16 x).
    assert (I : state_ok (InvMixColumns (le_bytes 16 x))) by by apply mix_ok.
    rewrite (proj2 (sr_inverse _ I)). apply (MixColumns_inverse _ (B x)).
Qed.

End Fips.
