(* ===== verification/Aes.v ===== *)
(** [src/cryptoTools/Crypto/AES.h] and [AES.cpp]: the classes [AES] and [AESDec] over the AES
    instructions ([AesNi]).  Buffers of blocks are a shared memory ([list block]) with offsets for
    the pointers, so that a call in place is a call with equal offsets.  Decryption undoes
    encryption in both directions, the batched and counter-mode routines compute the one-block
    routine on every entry, and AES-128 with the FIPS-197 instructions satisfies what the OKVS and
    HCTR2 ask of their cipher ([RbRows.aes_ok], [Hctr2.aes_inverse]). *)
From S2P Require Import Prelude Words RbRows PermApi BitBuf Hctr2 AesNi.

Open Scope nat_scope.

Import Hctr2.Hctr2.

Module Aes.

Section aes.
Context `{N : AesNi}.

(** * The key schedule *)

(** [_mm_slli_si128]: shift to the left by [n] bytes. *)
Definition slli_si128 (x : block) (n : Z) : block := wrap 128 (Z.shiftl x (8 * n)).

(** [_mm_shuffle_epi32] with [_MM_SHUFFLE(3, 3, 3, 3)]: the top dword everywhere. *)
Definition shuffle_3333 (x : block) : block :=
  let d := dword x 3 in of_dwords d d d d.

Definition keyGenHelper (key keyRcon : block) : block :=
  let keyRcon := shuffle_3333 keyRcon in
  let key := Z.lxor key (slli_si128 key 4) in
  let key := Z.lxor key (slli_si128 key 4) in
  let key := Z.lxor key (slli_si128 key 4) in
  Z.lxor key keyRcon.

(** The constants the source passes to [_mm_aeskeygenassist_si128], in order. *)
Definition RCON : list Z := [0x01; 0x02; 0x04; 0x08; 0x10; 0x20; 0x40; 0x80; 0x1B; 0x36]%Z.

(** The chain of assignments of [setKey], unrolled in the source: every key from the one before. *)
Fixpoint expand (key : block) (rcons : list Z) : list block :=
  key :: match rcons with
  | [] => []
  | rcon :: rcons => expand (keyGenHelper key (aeskeygenassist key rcon)) rcons
  end.

Record AES : Type := mkAES { mRoundKey : list block }.

Definition setKey (userKey : block) : AES := mkAES (expand userKey RCON).

(** The constant of [mAesFixedKey], [_mm_set_epi8] giving the bytes from the top one down. *)
Definition mAesFixedKey : AES := setKey (le_val (rev (map u8
  [36; -100; 50; -22; 92; -26; 49; 9; -82; -86; -51; -96; 98; -20; 29; -13]%Z))).

(** * One block *)

Definition ecbEncBlock (a : AES) (plaintext : block) : block :=
  let k i := (mRoundKey a).[i] in
  let cyphertext := Z.lxor plaintext (k 0%nat) in
  let cyphertext := aesenc cyphertext (k 1%nat) in
  let cyphertext := aesenc cyphertext (k 2%nat) in
  let cyphertext := aesenc cyphertext (k 3%nat) in
  let cyphertext := aesenc cyphertext (k 4%nat) in
  let cyphertext := aesenc cyphertext (k 5%nat) in
  let cyphertext := aesenc cyphertext (k 6%nat) in
  let cyphertext := aesenc cyphertext (k 7%nat) in
  let cyphertext := aesenc cyphertext (k 8%nat) in
  let cyphertext := aesenc cyphertext (k 9%nat) in
  aesenclast cyphertext (k 10%nat).

(** * Several blocks: [mem] is the memory, [plaintexts] and [cyphertext] are offsets in it *)

(** The body that [ecbEncTwoBlocks], [ecbEncFourBlocks] and [ecbEnc16Blocks] unroll for [n] blocks:
    round by round, and within a round block by block, in the output buffer. *)
Definition ecbEncUnrolled (n : nat) (a : AES) (mem : list block) (plaintexts cyphertext : nat) : list block :=
  let k i := (mRoundKey a).[i] in
  let mem := for_ 0 n (fun j mem => <[cyphertext + j := Z.lxor mem.[plaintexts + j] (k 0%nat)]> mem) mem in
  let mem := for_ 1 10 (fun r mem =>
    for_ 0 n (fun j mem => <[cyphertext + j := aesenc mem.[cyphertext + j] (k r)]> mem) mem) mem in
  for_ 0 n (fun j mem => <[cyphertext + j := aesenclast mem.[cyphertext + j] (k 10%nat)]> mem) mem.

Definition ecbEncTwoBlocks : AES → list block → nat → nat → list block := ecbEncUnrolled 2.
Definition ecbEncFourBlocks : AES → list block → nat → nat → list block := ecbEncUnrolled 4.
Definition ecbEnc16Blocks : AES → list block → nat → nat → list block := ecbEncUnrolled 16.

Definition step : nat := 8.

(** The nine middle rounds on the array [temp]. *)
Definition encTemp (a : AES) (temp : list block) : list block :=
  for_ 1 10 (fun r temp => map (fun t => aesenc t (mRoundKey a).[r]) temp) temp.

(** The last round, from [temp] to the output. *)
Definition storeTemp (a : AES) (temp : list block) (cyphertext idx : nat) (mem : list block) : list block :=
  for_ 0 step (fun j mem => <[cyphertext + (idx + j) := aesenclast temp.[j] (mRoundKey a).[10]]> mem) mem.

(** The rest of a block whose first round is in the output at [at_]. *)
Definition encTail (a : AES) (at_ : nat) (mem : list block) : list block :=
  let mem := for_ 1 10 (fun r mem => <[at_ := aesenc mem.[at_] (mRoundKey a).[r]]> mem) mem in
  <[at_ := aesenclast mem.[at_] (mRoundKey a).[10]]> mem.

Definition ecbEncBlocks (a : AES) (mem : list block) (plaintexts blockLength cyphertext : nat) : list block :=
  let length := (blockLength - blockLength mod step)%nat in
  let mem := for_ 0 (length / step) (fun b mem =>
    let idx := (step * b)%nat in
    let temp := map (fun j => Z.lxor mem.[plaintexts + (idx + j)] (mRoundKey a).[0]) (seq 0 step) in
    storeTemp a (encTemp a temp) cyphertext idx mem) mem in
  for_ length blockLength (fun idx mem =>
    let mem := <[cyphertext + idx := Z.lxor mem.[plaintexts + idx] (mRoundKey a).[0]]> mem in
    encTail a (cyphertext + idx) mem) mem.

(** [_mm_set1_epi64x]: both halves of the register. *)
Definition set1_epi64x (x : Z) : block := Words.toBlock x x.

(** The state is [baseIdx] (a [u64]) and the memory. *)
Definition ecbEncCounterMode (a : AES) (baseIdx : Z) (mem : list block) (blockLength cyphertext : nat) : list block :=
  let length := (blockLength - blockLength mod step)%nat in
  let '(baseIdx, mem) := for_ 0 (length / step) (fun b '(baseIdx, mem) =>
    let idx := (step * b)%nat in
    let temp := map (fun j => Z.lxor (set1_epi64x (u64 (baseIdx + Z.of_nat j))) (mRoundKey a).[0]) (seq 0 step) in
    (u64 (baseIdx + Z.of_nat step), storeTemp a (encTemp a temp) cyphertext idx mem)) (baseIdx, mem) in
  snd (for_ length blockLength (fun idx '(baseIdx, mem) =>
    let mem := <[cyphertext + idx := Z.lxor (set1_epi64x baseIdx) (mRoundKey a).[0]]> mem in
    (u64 (baseIdx + 1), encTail a (cyphertext + idx) mem)) (baseIdx, mem)).

(** * The inverse cipher *)

Record AESDec : Type := mkAESDec { mRoundKey_dec : list block }.

(** The stores of [AESDec::setKey] from the expanded keys [v]. *)
Definition inverseKeys (v : list block) : AESDec :=
  mkAESDec [v.[10]; aesimc v.[9]; aesimc v.[8]; aesimc v.[7]; aesimc v.[6]; aesimc v.[5];
    aesimc v.[4]; aesimc v.[3]; aesimc v.[2]; aesimc v.[1]; v.[0]].

Definition setKey_dec (userKey : block) : AESDec := inverseKeys (expand userKey RCON).

Definition ecbDecBlock (a : AESDec) (cyphertext : block) : block :=
  let k i := (mRoundKey_dec a).[i] in
  let plaintext := Z.lxor cyphertext (k 0%nat) in
  let plaintext := aesdec plaintext (k 1%nat) in
  let plaintext := aesdec plaintext (k 2%nat) in
  let plaintext := aesdec plaintext (k 3%nat) in
  let plaintext := aesdec plaintext (k 4%nat) in
  let plaintext := aesdec plaintext (k 5%nat) in
  let plaintext := aesdec plaintext (k 6%nat) in
  let plaintext := aesdec plaintext (k 7%nat) in
  let plaintext := aesdec plaintext (k 8%nat) in
  let plaintext := aesdec plaintext (k 9%nat) in
  aesdeclast plaintext (k 10%nat).

(** * Decryption undoes encryption *)

Context {L : AesNiLaws N}.

Lemma slli_block x n : is_block (slli_si128 x n).
Proof. apply in_word_wrap. lia. Qed.

Lemma dword_word x i : in_word 32 (dword x i).
Proof. apply in_word_wrap. lia. Qed.

Lemma keyGenHelper_block key r : is_block key → is_block (keyGenHelper key r).
Proof.
  intros Hk. unfold keyGenHelper, shuffle_3333.
  assert (is_block (of_dwords (dword r 3) (dword r 3) (dword r 3) (dword r 3))).
  { apply of_dwords_block; apply dword_word. }
  pose proof slli_block. repeat (apply in_word_lxor; [lia| |]); auto.
Qed.

Lemma aesenc_is_block x k : is_block k → is_block (aesenc x k).
Proof. intros Hk. rewrite aesenc_key. apply in_word_lxor; [lia|apply aesenc_block|done]. Qed.

Lemma aesenclast_is_block x k : is_block k → is_block (aesenclast x k).
Proof. intros Hk. rewrite aesenclast_key. apply in_word_lxor; [lia|apply aesenclast_block|done]. Qed.

Lemma aesdec_is_block x k : is_block k → is_block (aesdec x k).
Proof. intros Hk. rewrite aesdec_key, aesdec_imc. apply in_word_lxor; [lia|apply aesimc_block|done]. Qed.

Lemma aesdeclast_is_block x k : is_block k → is_block (aesdeclast x k).
Proof. intros Hk. rewrite aesdeclast_key. apply in_word_lxor; [lia|apply aesdeclast_block|done]. Qed.

(** One round of the equivalent inverse cipher, in each direction. *)
Lemma dec_round x k : is_block k → aesdec (aesenclast (aesenc x k) 0) (aesimc k) = aesenclast x 0.
Proof.
  intros Hk. rewrite aesdec_key, aesdec_imc, last_dec_enc by by apply aesenc_is_block.
  rewrite <- aesimc_xor, aesenc_key, lxor_cancel. apply aesimc_enc.
Qed.

Lemma enc_round y k : is_block k → is_block y → aesenc (aesdeclast (aesdec y (aesimc k)) 0) k = aesdeclast y 0.
Proof.
  intros Hk Hy. rewrite aesdec_key, aesdec_imc, <- aesimc_xor, aesenc_key.
  rewrite enc_imc; [apply lxor_cancel|]. apply in_word_lxor; [lia|apply aesdeclast_block|done].
Qed.

(** The eleven round keys are blocks. *)
Lemma expand_blocks rcons k : is_block k → Forall is_block (expand k rcons).
Proof.
  revert k. induction rcons as [|r rcons IH]; intros k Hk; cbn [expand]; constructor; try done.
  by apply IH, keyGenHelper_block.
Qed.

(** The rest is about any list [r] of round keys. *)
Lemma round_key_block r i : Forall is_block r → is_block r.[i].
Proof. intros Hr. apply Forall_nth_Z; [done|apply in_word_0; lia]. Qed.

Lemma ecbEncBlock_block r x : Forall is_block r → is_block (ecbEncBlock (mkAES r) x).
Proof. intros Hr. unfold ecbEncBlock. by apply aesenclast_is_block, round_key_block. Qed.

Lemma ecbDecBlock_block r x : Forall is_block r → is_block (ecbDecBlock (inverseKeys r) x).
Proof.
  intros Hr. unfold ecbDecBlock, inverseKeys. cbn [mRoundKey_dec nth].
  by apply aesdeclast_is_block, round_key_block.
Qed.

Lemma dec_enc_keys r x : Forall is_block r → is_block x →
  ecbDecBlock (inverseKeys r) (ecbEncBlock (mkAES r) x) = x.
Proof.
  intros Hr Hx. pose proof (fun i => round_key_block r i Hr) as B.
  unfold ecbDecBlock, ecbEncBlock, inverseKeys. cbn [mRoundKey mRoundKey_dec nth].
  rewrite aesenclast_key, lxor_cancel, !dec_round by apply B.
  rewrite aesdeclast_key, last_dec_enc by (apply in_word_lxor; [lia|done|apply B]). apply lxor_cancel.
Qed.

Lemma enc_dec_keys r y : Forall is_block r → is_block y →
  ecbEncBlock (mkAES r) (ecbDecBlock (inverseKeys r) y) = y.
Proof.
  intros Hr Hy. pose proof (fun i => round_key_block r i Hr) as B.
  unfold ecbDecBlock, ecbEncBlock, inverseKeys. cbn [mRoundKey mRoundKey_dec nth].
  assert (I : ∀ y i, is_block (aesdec y (aesimc r.[i]))) by (intros; apply aesdec_is_block, aesimc_block).
  assert (is_block (Z.lxor y r.[10])) by (apply in_word_lxor; [lia|done|apply B]).
  rewrite aesdeclast_key, lxor_cancel, !enc_round by (apply B || apply I || done).
  rewrite aesenclast_key, last_enc_dec by done. apply lxor_cancel.
Qed.

(** * The batched routines *)

(** [mem'] is [mem] with [f 0], ..., [f (n - 1)] written from offset [c] on. *)
Definition written (mem mem' : list block) (c n : nat) (f : nat → block) : Prop :=
  length mem' = length mem ∧
  ∀ i, mem'.[i] = if (c <=? i) && (i <? c + n) then f (i - c) else mem.[i].

Lemma written_0 mem c f : written mem mem c 0 f.
Proof. split; [done|]. intros i. rewrite Nat.add_0_r. by destruct (Nat.leb_spec c i), (Nat.ltb_spec i c); try lia. Qed.

Lemma written_outside mem mem' c n f i : written mem mem' c n f → (i < c ∨ c + n ≤ i) → mem'.[i] = mem.[i].
Proof. intros [_ H] Hi. rewrite H. by destruct (Nat.leb_spec c i), (Nat.ltb_spec i (c + n)); try lia. Qed.

Lemma written_inside mem mem' c n f i : written mem mem' c n f → i < n → mem'.[c + i] = f i.
Proof.
  intros [_ H] Hi. rewrite H. nat_true (c <=? c + i). nat_true (c + i <? c + n). cbn [andb]. f_equal. lia.
Qed.

Lemma written_snoc mem mem' c n f x : written mem mem' c n f → c + n < length mem → x = f n →
  written mem (<[c + n := x]> mem') c (S n) f.
Proof.
  intros [Hl H] Hn ->. split; [by rewrite length_insert|]. intros i.
  rewrite nth_insert, Hl, H. destruct (decide (i = c + n)) as [->|Hne].
  - nat_true (c <=? c + n). nat_true (c + n <? c + S n). rewrite decide_True by done. cbn [andb]. f_equal. lia.
  - rewrite decide_False by lia. f_equal. f_equal.
    destruct (Nat.ltb_spec i (c + n)), (Nat.ltb_spec i (c + S n)); try done; lia.
Qed.

Lemma written_ext mem mem' c n f g : written mem mem' c n f → (∀ i, i < n → f i = g i) → written mem mem' c n g.
Proof.
  intros [Hl H] E. split; [done|]. intros i. rewrite H.
  destruct (Nat.leb_spec c i), (Nat.ltb_spec i (c + n)); try done. cbn [andb]. apply E. lia.
Qed.

(** A region written again. *)
Lemma written_trans mem mem1 mem2 c n f g : written mem mem1 c n f → written mem1 mem2 c n g →
  written mem mem2 c n g.
Proof.
  intros [L1 H1] [L2 H2]. split; [congruence|]. intros i. rewrite H2. destruct (_ && _) eqn:E; [done|].
  by rewrite H1, E.
Qed.

(** Consecutive regions. *)
Lemma written_app mem mem1 mem2 c n m f : written mem mem1 c n f →
  written mem1 mem2 (c + n) m (fun j => f (n + j)) → written mem mem2 c (n + m) f.
Proof.
  intros [L1 H1] [L2 H2]. split; [congruence|]. intros i. rewrite H2, H1.
  destruct (Nat.leb_spec (c + n) i), (Nat.ltb_spec i (c + n + m)), (Nat.leb_spec c i),
    (Nat.ltb_spec i (c + n)), (Nat.ltb_spec i (c + (n + m))); cbn [andb]; try lia; try done.
  f_equal. lia.
Qed.

(** A loop that writes entry [j] of the region at iteration [j]. *)
Lemma write_loop (f : nat → block) (body : nat → list block → list block) c n mem :
  c + n ≤ length mem →
  (∀ j m, j < n → written mem m c j f → body j m = <[c + j := f j]> m) →
  written mem (for_ 0 n body mem) c n f.
Proof.
  intros Hn Hb. loop_inv (fun j m => written mem m c j f) as H; [lia|apply written_0| |done].
  intros j m Hj Hm. rewrite Hb by (done || lia). apply written_snoc; [done|lia|done].
Qed.

(** The source of the blocks is not overwritten before it is read. *)
Definition no_clobber (plaintexts cyphertext n : nat) : Prop :=
  cyphertext ≤ plaintexts ∨ plaintexts + n ≤ cyphertext.

(** The middle rounds of one block. *)
Definition middle (a : AES) (r : nat) (x : block) : block :=
  for_ 1 r (fun i x => aesenc x (mRoundKey a).[i]) x.

Lemma ecbEncBlock_middle a x :
  ecbEncBlock a x = aesenclast (middle a 10 (Z.lxor x (mRoundKey a).[0])) (mRoundKey a).[10].
Proof. reflexivity. Qed.

Lemma middle_snoc a r x : 1 ≤ r → middle a (S r) x = aesenc (middle a r x) (mRoundKey a).[r].
Proof. intros Hr. unfold middle. by rewrite for_snoc. Qed.

Lemma no_clobber_read mem m p c n f j : no_clobber p c n → j < n → written mem m c j f →
  m.[p + j] = mem.[p + j].
Proof. intros Hc Hj Hm. apply (written_outside _ _ _ _ _ _ Hm). unfold no_clobber in Hc. lia. Qed.

(** An update in place of every entry of a region. *)
Lemma update_loop (g : block → block) c n mem : c + n ≤ length mem →
  written mem (for_ 0 n (fun j mem => <[c + j := g mem.[c + j]]> mem) mem) c n (fun j => g mem.[c + j]).
Proof.
  intros Hn. apply write_loop; [done|]. intros j m Hj Hm. f_equal.
  by rewrite (written_outside _ _ _ _ _ (c + j) Hm) by lia.
Qed.

Lemma ecbEncUnrolled_spec n a mem p c : c + n ≤ length mem → no_clobber p c n →
  written mem (ecbEncUnrolled n a mem p c) c n (fun j => ecbEncBlock a mem.[p + j]).
Proof.
  intros Hn Hc. unfold ecbEncUnrolled. set (k := fun i => (mRoundKey a).[i]).
  set (f := fun r j => middle a r (Z.lxor mem.[p + j] (k 0))).
  set (m1 := for_ 0 n _ mem). assert (H1 : written mem m1 c n (f 1)).
  { apply write_loop; [done|]. intros j m Hj Hm. f_equal. unfold f, middle. rewrite for_0.
    by rewrite (no_clobber_read _ _ _ _ _ _ _ Hc Hj Hm). }
  clearbody m1. set (m2 := for_ 1 10 _ m1). assert (H2 : written mem m2 c n (f 10)).
  { apply (for_inv (fun r m => written mem m c n (f r))); [lia|done|].
    intros r m Hr Hm. eapply written_trans; [exact Hm|].
    eapply written_ext; [apply (update_loop (fun x => aesenc x (k r))); rewrite (proj1 Hm); lia|]. cbv beta. intros j Hj.
    rewrite (written_inside _ _ _ _ _ _ Hm Hj). unfold f. rewrite middle_snoc by lia. done. }
  clearbody m2. eapply written_trans; [exact H2|].
  eapply written_ext; [apply (update_loop (fun x => aesenclast x (k 10))); rewrite (proj1 H2); lia|]. cbv beta. intros j Hj.
  by rewrite (written_inside _ _ _ _ _ _ H2 Hj), ecbEncBlock_middle.
Qed.

(** [temp] holds block [j] at index [j]. *)
Lemma encTemp_map a (h : nat → block) :
  encTemp a (map h (seq 0 step)) = map (fun j => middle a 10 (h j)) (seq 0 step).
Proof.
  unfold encTemp. loop_inv (fun r t => t = map (fun j => middle a r (h j)) (seq 0 step)) as H;
    [lia|done| |done].
  intros r t Hr ->. rewrite map_map. apply map_ext. intros j. rewrite middle_snoc by lia. done.
Qed.

Lemma storeTemp_spec a (h : nat → block) c idx mem : c + idx + step ≤ length mem →
  written mem (storeTemp a (encTemp a (map (fun j => Z.lxor (h j) (mRoundKey a).[0]) (seq 0 step))) c idx mem)
    (c + idx) step (fun j => ecbEncBlock a (h j)).
Proof.
  intros Hn. unfold storeTemp. rewrite encTemp_map. apply write_loop; [done|].
  intros j m Hj Hm. rewrite nth_map_seq by done. rewrite ecbEncBlock_middle. f_equal. lia.
Qed.

Lemma encTail_spec a c mem x : c < length mem →
  encTail a c (<[c := Z.lxor x (mRoundKey a).[0]]> mem) = <[c := ecbEncBlock a x]> mem.
Proof.
  intros Hc. unfold encTail.
  loop_inv (fun r m => m = <[c := middle a r (Z.lxor x (mRoundKey a).[0])]> mem) as H; [lia|done| |].
  { intros r m Hr ->. rewrite nth_insert, decide_True by done. rewrite list_insert_insert_eq, middle_snoc by lia.
    done. }
  rewrite H, nth_insert, decide_True by done. by rewrite list_insert_insert_eq, ecbEncBlock_middle.
Qed.

(** The batches and the tail cover the blocks. *)
Lemma batches n : let len := (n - n mod step)%nat in len = step * (len / step) ∧ len ≤ n.
Proof. intros len. subst len. unfold step. divlia. Qed.

Lemma ecbEncBlocks_spec a mem p n c : c + n ≤ length mem → no_clobber p c n →
  written mem (ecbEncBlocks a mem p n c) c n (fun i => ecbEncBlock a mem.[p + i]).
Proof.
  intros Hn Hc. unfold ecbEncBlocks. destruct (batches n) as [Hlen Hle].
  set (len := (n - n mod step)%nat) in *. set (q := len / step) in *. clearbody q len.
  set (f := fun i => ecbEncBlock a mem.[p + i]).
  set (m1 := for_ 0 q _ mem). assert (H1 : written mem m1 c (step * q) f).
  { apply (for_inv (fun b m => written mem m c (step * b) f)); [lia|rewrite Nat.mul_0_r; apply written_0|].
    intros b m Hb Hm. rewrite Nat.mul_succ_r. apply (written_app _ _ _ _ _ _ _ Hm).
    assert (step * S b ≤ len) by (rewrite Hlen; apply Nat.mul_le_mono_l; lia).
    eapply written_ext; [apply (storeTemp_spec a (fun j => m.[p + (step * b + j)])); rewrite (proj1 Hm); lia|].
    cbv beta. intros j Hj. unfold f. f_equal.
    apply (written_outside _ _ _ _ _ _ Hm). unfold no_clobber in Hc. lia. }
  rewrite <- Hlen in H1. clearbody m1.
  loop_inv (fun i m => written mem m c i f) as H2; [lia|done| |done].
  intros i m Hi Hm. rewrite encTail_spec by (rewrite (proj1 Hm); lia).
  apply written_snoc; [done|lia|]. unfold f.
  by rewrite (no_clobber_read _ _ _ _ _ _ i Hc ltac:(lia) Hm).
Qed.

Lemma ecbEncCounterMode_spec a base mem n c : in_word 64 base → c + n ≤ length mem →
  written mem (ecbEncCounterMode a base mem n c) c n
    (fun i => ecbEncBlock a (set1_epi64x (u64 (base + Z.of_nat i)))).
Proof.
  intros Hb Hn. unfold ecbEncCounterMode. destruct (batches n) as [Hlen Hle].
  set (len := (n - n mod step)%nat) in *. set (q := len / step) in *. clearbody q len.
  set (f := fun i => ecbEncBlock a (set1_epi64x (u64 (base + Z.of_nat i)))).
  assert (W : ∀ i j, u64 (u64 (base + i) + j) = u64 (base + (i + j))).
  { intros i j. unfold wrap. by rewrite Zplus_mod_idemp_l, Z.add_assoc. }
  set (P := fun b '(base', m) => base' = u64 (base + Z.of_nat (step * b)) ∧ written mem m c (step * b) f).
  set (s1 := for_ 0 q _ (base, mem)). assert (H1 : P q s1).
  { apply (for_inv P); unfold P; [lia| |].
  { split; [|rewrite Nat.mul_0_r; apply written_0]. symmetry. rewrite Nat.mul_0_r, Z.add_0_r. by apply wrap_small. }
    intros b [base' m] Hb' [-> Hm]. split; [rewrite W; f_equal; lia|].
    rewrite Nat.mul_succ_r. apply (written_app _ _ _ _ _ _ _ Hm).
    assert (step * S b ≤ len) by (rewrite Hlen; apply Nat.mul_le_mono_l; lia).
    eapply written_ext; [apply (storeTemp_spec a
      (fun j => set1_epi64x (u64 (u64 (base + Z.of_nat (step * b)) + Z.of_nat j)))); rewrite (proj1 Hm); lia|].
    cbv beta. intros j Hj. unfold f. rewrite W. do 4 f_equal. lia. }
  destruct s1 as [base1 m1]. destruct H1 as [-> H1]. rewrite <- Hlen in *.
  loop_inv (fun i '(base', m) => base' = u64 (base + Z.of_nat i) ∧ written mem m c i f) as H2; [lia|done| |].
  { intros i [base' m] Hi [-> Hm]. split; [rewrite W; f_equal; lia|].
    rewrite encTail_spec by (rewrite (proj1 Hm); lia). apply written_snoc; [done|lia|done]. }
  destruct (for_ len n _ _) as [base2 m2]. apply H2.
Qed.

End aes.

#[local] Existing Instances AesNi.Fips.fips AesNi.Fips.fips_laws.

(** ** AES-128 with the FIPS-197 instructions as the cipher of the other components *)

(** A [block] argument is a 128-bit value. *)
Definition aes_enc (key x : block) : block := ecbEncBlock (setKey (wrap 128 key)) (wrap 128 x).
Definition aes_dec (key x : block) : block := ecbDecBlock (setKey_dec (wrap 128 key)) (wrap 128 x).

Lemma wrap_block x : is_block (wrap 128 x).
Proof. apply in_word_wrap. lia. Qed.

Lemma aes_enc_ok : aes_ok aes_enc.
Proof. intros k x. apply ecbEncBlock_block, expand_blocks, wrap_block. Qed.

Lemma aes_enc_dec : aes_inverse aes_enc aes_dec.
Proof.
  intros k x Hx. pose proof (wrap_small _ _ Hx) as E. pose proof (expand_blocks RCON _ (wrap_block k)) as Hr.
  assert (He : is_block (ecbEncBlock (setKey (wrap 128 k)) x)) by by apply ecbEncBlock_block.
  assert (Hd : is_block (ecbDecBlock (setKey_dec (wrap 128 k)) x)) by by apply ecbDecBlock_block.
  unfold aes_enc, aes_dec. rewrite E, (wrap_small _ _ He), (wrap_small _ _ Hd).
  split; (split; [done|]); [by apply dec_enc_keys|by apply enc_dec_keys].
Qed.

Lemma aes_enc_inj k x y : is_block x → is_block y → aes_enc k x = aes_enc k y → x = y.
Proof.
  intros Hx Hy E. destruct (aes_enc_dec k x Hx) as [[_ Dx] _], (aes_enc_dec k y Hy) as [[_ Dy] _]. congruence.
Qed.

(** * Properties *)

(** [AESDec] undoes [AES] under the same key, and [AES] undoes [AESDec], on every block. *)
Theorem ecbDecBlock_ecbEncBlock key x : is_block key → is_block x →
  ecbDecBlock (setKey_dec key) (ecbEncBlock (setKey key) x) = x ∧
  ecbEncBlock (setKey key) (ecbDecBlock (setKey_dec key) x) = x.
Proof.
  intros Hk Hx. pose proof (expand_blocks RCON _ Hk). split; [by apply dec_enc_keys|by apply enc_dec_keys].
Qed.

(** C15 Every batched routine leaves in entry [i] of the output what the one-block routine gives for
    entry [i] of the input, and changes nothing else, when the output does not overwrite input still
    to be read; the output may be the input. *)
Theorem batched_ecbEncBlock `{N : AesNi} a mem p n c : c + n ≤ length mem → no_clobber p c n →
  let computes mem' n := length mem' = length mem ∧
    (∀ i, i < n → mem'.[c + i] = ecbEncBlock a mem.[p + i]) ∧
    (∀ i, i < c ∨ c + n ≤ i → mem'.[i] = mem.[i]) in
  computes (ecbEncBlocks a mem p n c) n ∧
  (2 ≤ n → computes (ecbEncTwoBlocks a mem p c) 2) ∧
  (4 ≤ n → computes (ecbEncFourBlocks a mem p c) 4) ∧
  (16 ≤ n → computes (ecbEnc16Blocks a mem p c) 16).
Proof.
  intros Hn Hc computes.
  assert (C : ∀ mem' m, written mem mem' c m (fun i => ecbEncBlock a mem.[p + i]) → computes mem' m).
  { intros mem' m H. split; [apply H|]. split; intros i Hi.
    - apply (written_inside _ _ _ _ _ _ H Hi).
    - apply (written_outside _ _ _ _ _ _ H Hi). }
  assert (D : ∀ m, m ≤ n → no_clobber p c m) by (unfold no_clobber in *; lia).
  split; [by apply C, ecbEncBlocks_spec|].
  split; [|split]; intros H; apply C, ecbEncUnrolled_spec; (lia || by apply D).
Qed.

(** Counter mode encrypts the counter, taken modulo 2^64 and in both halves of the block. *)
Theorem ecbEncCounterMode_blocks `{N : AesNi} a base mem n c : in_word 64 base → c + n ≤ length mem →
  let mem' := ecbEncCounterMode a base mem n c in
  length mem' = length mem ∧
  (∀ i, i < n → mem'.[c + i] = let ctr := u64 (base + Z.of_nat i) in ecbEncBlock a (Words.toBlock ctr ctr)) ∧
  (∀ i, i < c ∨ c + n ≤ i → mem'.[i] = mem.[i]).
Proof.
  intros Hb Hn mem'. pose proof (ecbEncCounterMode_spec a base mem n c Hb Hn) as H.
  split; [apply H|]. split; intros i Hi; [apply (written_inside _ _ _ _ _ _ H Hi)|apply (written_outside _ _ _ _ _ _ H Hi)].
Qed.

(** C29 The AES of the repository meets what its callers assume of a cipher: it returns blocks (OKVS
    rows), its two directions are inverse (HCTR2), and so HCTR2 over it is a permutation of
    800-byte rows whose decryption undoes encryption. *)
Theorem aes_refines_cipher : aes_ok aes_enc ∧ aes_inverse aes_enc aes_dec ∧
  ∀ party, PermLaws (perm aes_enc aes_dec party) (KEM_key_size_bit / 8).
Proof.
  split; [apply aes_enc_ok|]. split; [apply aes_enc_dec|]. intros party. apply hctr_laws, aes_enc_dec.
Qed.

(** FIPS-197, appendix B. *)
Example fips_197_b :
  let of_bytes (b : list Z) : block := le_val b in
  let key := of_bytes [0x2b; 0x7e; 0x15; 0x16; 0x28; 0xae; 0xd2; 0xa6; 0xab; 0xf7; 0x15; 0x88; 0x09; 0xcf; 0x4f; 0x3c]%Z in
  let plain := of_bytes [0x32; 0x43; 0xf6; 0xa8; 0x88; 0x5a; 0x30; 0x8d; 0x31; 0x31; 0x98; 0xa2; 0xe0; 0x37; 0x07; 0x34]%Z in
  let cipher := of_bytes [0x39; 0x25; 0x84; 0x1d; 0x02; 0xdc; 0x09; 0xfb; 0xdc; 0x11; 0x85; 0x97; 0x19; 0x6a; 0x0b; 0x32]%Z in
  ecbEncBlock (setKey key) plain = cipher ∧ ecbDecBlock (setKey_dec key) cipher = plain.
Proof. split; vm_compute; reflexivity. Qed.

Lemma ecbDecBlock_ecbEncBlock_witness : is_block 5 ∧ is_block 7 ∧
  ecbDecBlock (setKey_dec 5) (ecbEncBlock (setKey 5) 7) = 7%Z ∧
  ecbEncBlock (setKey 5) (ecbDecBlock (setKey_dec 5) 7) = 7%Z.
Proof.
  assert (is_block 5 ∧ is_block 7) as [H5 H7] by done.
  split; [exact H5|]. split; [exact H7|]. exact (ecbDecBlock_ecbEncBlock 5 7 H5 H7).
Defined.

(** In place on a memory of seventeen blocks. *)
Lemma batched_ecbEncBlock_witness : let a := setKey 5 in let mem := map Z.of_nat (seq 0 17) in
  (ecbEncBlocks a mem 0 17 0).[16] = ecbEncBlock a 16.
Proof.
  intros a mem. destruct (batched_ecbEncBlock a mem 0 17 0 ltac:(reflexivity) ltac:(left; lia)) as [[_ [H _]] _].
  exact (H 16 ltac:(lia)).
Defined.

(** The counter wraps. *)
Lemma ecbEncCounterMode_blocks_witness : let a := setKey 5 in let mem := replicate 9 0%Z in
  (ecbEncCounterMode a (2 ^ 64 - 1) mem 9 0).[1] = ecbEncBlock a 0.
Proof.
  intros a mem. destruct (ecbEncCounterMode_blocks a (2 ^ 64 - 1) mem 9 0) as (_ & H & _);
    [split; [lia|reflexivity]|reflexivity|]. exact (H 1 ltac:(lia)).
Defined.

End Aes.
