(* ===== verification/Prng.v ===== *)
(** [src/cryptoTools/Crypto/PRNG.h] and [PRNG.cpp]: the generator, a buffer of AES blocks of a
    counter.  [PRNG_of] is the constructor from a seed, [PRNG_default] the one without, [PRNG_move]
    the move constructor (it returns the new object and what is left of the old one).  The bytes
    that a seeded generator gives are one stream, however they are asked for, and its blocks are the
    encryptions of 0, 1, 2, ...; a default generator starts with 1024 zero bytes and a moved-from
    generator never returns from [get]. *)
From S2P Require Import Prelude Words BitBuf AesNi Aes.
Open Scope nat_scope.

Module Prng.
Import Aes.Aes.

Section prng.
Context `{N : AesNi}.

(** * The object *)

Record PRNG : Type := mkPRNG {
  mSeed : block;
  mBuffer : list block;
  mIndexArray : list block;
  mAes : AES;
  mBytesIdx : nat;
  mBlockIdx : Z;
  mBufferByteCapacity : nat;
}.

Definition DEFAULT_BUFF_SIZE : nat := 64.

(** The two vectors are one memory for [ecbEncBlocks]: the counters, then the buffer. *)
Definition refillBuffer (p : PRNG) : PRNG :=
  let size := length (mBuffer p) in
  let '(index, blockIdx) := for_ 0 size (fun i '(index, blockIdx) =>
    (<[i := toBlock 0 blockIdx]> index, u64 (blockIdx + 1))) (mIndexArray p, mBlockIdx p) in
  let mem := ecbEncBlocks (mAes p) (index ++ mBuffer p) 0 size (length index) in
  mkPRNG (mSeed p) (drop (length index) mem) (take (length index) mem) (mAes p) 0 blockIdx (mBufferByteCapacity p).

Definition PRNG_default : PRNG :=
  mkPRNG ZeroBlock (replicate DEFAULT_BUFF_SIZE ZeroBlock) (replicate DEFAULT_BUFF_SIZE ZeroBlock)
    (setKey ZeroBlock) 0 0 (16 * DEFAULT_BUFF_SIZE).

Definition PRNG_of (seed : block) : PRNG :=
  refillBuffer (mkPRNG seed (replicate DEFAULT_BUFF_SIZE ZeroBlock) (replicate DEFAULT_BUFF_SIZE ZeroBlock)
    (setKey seed) 0 0 (16 * DEFAULT_BUFF_SIZE)).

(** The new object and the object that was moved from. *)
Definition PRNG_move (s : PRNG) : PRNG * PRNG :=
  (mkPRNG (mSeed s) (mBuffer s) (mIndexArray s) (mAes s) (mBytesIdx s) (mBlockIdx s) (mBufferByteCapacity s),
   mkPRNG ZeroBlock [] [] (mkAES (replicate 11 ZeroBlock)) 0 0 0).

Definition SetSeed (p : PRNG) (seed : block) : PRNG :=
  let p := mkPRNG seed (mBuffer p) (mIndexArray p) (setKey seed) (mBytesIdx p) 0 (mBufferByteCapacity p) in
  let p := if length (mBuffer p) =? 0
    then mkPRNG (mSeed p) (replicate DEFAULT_BUFF_SIZE ZeroBlock) (replicate DEFAULT_BUFF_SIZE ZeroBlock)
           (mAes p) (mBytesIdx p) (mBlockIdx p) (16 * DEFAULT_BUFF_SIZE)
    else p in
  refillBuffer p.

Definition getSeed (p : PRNG) : block := mSeed p.

(** * Drawing *)

(** One turn of the loop of [get]: the number of bytes copied, the bytes, the object after it. *)
Definition get_turn (lengthu8 : nat) (p : PRNG) : nat * list Z * PRNG :=
  let step := Nat.min lengthu8 (mBufferByteCapacity p - mBytesIdx p) in
  let out := slice (bytesOf (mBuffer p)) (mBytesIdx p) step in
  let p := mkPRNG (mSeed p) (mBuffer p) (mIndexArray p) (mAes p) (mBytesIdx p + step) (mBlockIdx p)
    (mBufferByteCapacity p) in
  (step, out, if mBytesIdx p =? mBufferByteCapacity p then refillBuffer p else p).

(** The loop of [get] for [lengthu8] bytes with [dest] written so far; [None] when [fuel] runs out. *)
Fixpoint get_loop (fuel lengthu8 : nat) (dest : list Z) (p : PRNG) : option (list Z * PRNG) :=
  if lengthu8 =? 0 then Some (dest, p) else
  match fuel with
  | O => None
  | S fuel =>
      let '(step, out, p) := get_turn lengthu8 p in
      get_loop fuel (lengthu8 - step) (dest ++ out) p
  end.

(** Every turn but a stuck one copies a byte, so [length * size] turns are enough. *)
Definition get (size length : nat) (p : PRNG) : option (list Z * PRNG) :=
  get_loop (length * size) (length * size) [] p.

Definition get_uint (size : nat) (p : PRNG) : option (Z * PRNG) :=
  match get size 1 p with
  | Some (bs, p) => Some (le_val bs, p)
  | None => None
  end.

Definition get_block : PRNG → option (block * PRNG) := get_uint 16.
Definition get_u32 : PRNG → option (Z * PRNG) := get_uint 4.
Definition get_u8 : PRNG → option (Z * PRNG) := get_uint 1.

Definition getBit (p : PRNG) : option (Z * PRNG) :=
  match get_u8 p with
  | Some (x, p) => Some (Z.land x 1, p)
  | None => None
  end.

(** [operator()(int mod)]: the [int] is converted to [u32], a zero divisor is undefined. *)
Definition draw_mod (modulus : Z) (p : PRNG) : option (Z * PRNG) :=
  if (u32 modulus =? 0)%Z then None else
  match get_u32 p with
  | Some (x, p) => Some ((x mod u32 modulus)%Z, p)
  | None => None
  end.

(** A client that asks for [lengths] bytes one after the other. *)
Fixpoint gets (lengths : list nat) (p : PRNG) : option (list (list Z) * PRNG) :=
  match lengths with
  | [] => Some ([], p)
  | l :: lengths =>
      match get 1 l p with
      | None => None
      | Some (bs, p) =>
          match gets lengths p with
          | None => None
          | Some (rest, p) => Some (bs :: rest, p)
          end
      end
  end.

(** [n] blocks. *)
Fixpoint draw_blocks (n : nat) (p : PRNG) : option (list block * PRNG) :=
  match n with
  | O => Some ([], p)
  | S n =>
      match get_block p with
      | None => None
      | Some (x, p) =>
          match draw_blocks n p with
          | None => None
          | Some (xs, p) => Some (x :: xs, p)
          end
      end
  end.

(** * The buffer *)

(** Block [i] of the generator with cipher [a]. *)
Definition key_block (a : AES) (i : nat) : block := ecbEncBlock a (toBlock 0 (u64 (Z.of_nat i))).

Lemma index_loop (n : nat) (index : list block) b : length index = n → in_word 64 b →
  for_ 0 n (fun i '(index, blockIdx) => (<[i := toBlock 0 blockIdx]> index, u64 (blockIdx + 1))) (index, b) =
  (map (fun i => toBlock 0 (u64 (b + Z.of_nat i))) (seq 0 n), u64 (b + Z.of_nat n)).
Proof.
  intros Hl Hb. match goal with |- for_ 0 n ?f ?s = _ => assert (H : ∀ m, m ≤ n → for_ 0 m f s =
    (map (fun i => toBlock 0 (u64 (b + Z.of_nat i))) (seq 0 m) ++ drop m index, u64 (b + Z.of_nat m))) end.
  { induction m as [|m IH]; intros Hm; [rewrite for_0, Z.add_0_r; by rewrite wrap_small|].
    rewrite for_snoc, IH by lia. f_equal; [|unfold wrap; rewrite Zplus_mod_idemp_l; f_equal; lia].
    rewrite insert_app_r_alt by (by rewrite length_map_seq). rewrite length_map_seq, Nat.sub_diag.
    rewrite seq_S, map_app, <- app_assoc. f_equal.
    rewrite (drop_S index index.[m] m) by (apply nth_lookup_Z; lia). done. }
  rewrite H, drop_ge, app_nil_r by lia. done.
Qed.

(** [refillBuffer] puts the encryptions of the next counters in the buffer. *)
Lemma refillBuffer_eq p n : length (mBuffer p) = n → length (mIndexArray p) = n → in_word 64 (mBlockIdx p) →
  let ctr i := toBlock 0 (u64 (mBlockIdx p + Z.of_nat i)) in
  refillBuffer p = mkPRNG (mSeed p) (map (fun i => ecbEncBlock (mAes p) (ctr i)) (seq 0 n)) (map ctr (seq 0 n))
    (mAes p) 0 (u64 (mBlockIdx p + Z.of_nat n)) (mBufferByteCapacity p).
Proof.
  intros Hn Hi Hb ctr. unfold refillBuffer. rewrite Hn, index_loop by done.
  rewrite length_map_seq. set (index := map _ (seq 0 n)). assert (Hl : length index = n) by apply length_map_seq.
  assert (H := ecbEncBlocks_spec (mAes p) (index ++ mBuffer p) 0 n n). rewrite length_app, Hl, Hn in H.
  specialize (H ltac:(lia) ltac:(right; lia)). set (mem := ecbEncBlocks _ _ _ _ _) in *.
  assert (Lm : length mem = n + n) by (rewrite (proj1 H), length_app; lia). f_equal.
  - apply list_eq_nth; [rewrite length_drop, length_map_seq; lia|]. rewrite length_drop. intros i Hi'.
    rewrite nth_skipn. rewrite (written_inside _ _ _ _ _ i H), nth_map_seq by lia. cbn [Nat.add].
    rewrite app_nth1 by lia. unfold index. by rewrite nth_map_seq by lia.
  - apply list_eq_nth; [rewrite length_take; lia|]. rewrite length_take. intros i Hi'.
    rewrite nth_firstn. nat_true (i <? n). rewrite (written_outside _ _ _ _ _ i H) by lia. by rewrite app_nth1 by lia.
Qed.

(** * The stream *)

(** Byte [t] of the generator with cipher [a]. *)
Definition stream (a : AES) (t : nat) : Z := (le_bytes 16 (key_block a (t / 16))).[t mod 16].

(** [p] has cipher [a] and has given the first [pos] bytes of its stream. *)
Definition at_pos (a : AES) (pos : nat) (p : PRNG) : Prop :=
  mAes p = a ∧ length (mIndexArray p) = 64 ∧ mBufferByteCapacity p = 1024 ∧ mBytesIdx p = pos mod 1024 ∧
  mBuffer p = map (fun i => key_block a (64 * (pos / 1024) + i)) (seq 0 64) ∧
  mBlockIdx p = u64 (Z.of_nat (64 * S (pos / 1024))).

Lemma nth_bytesOf (row : list block) j : j < 16 * length row →
  (bytesOf row).[j] = (le_bytes 16 row.[j / 16]).[j mod 16].
Proof.
  revert j. induction row as [|b row IH]; intros j Hj; [cbn in Hj; lia|]. cbn [bytesOf].
  destruct (Nat.lt_ge_cases j 16) as [Hlt|Hge].
  - rewrite app_nth1 by (by rewrite le_bytes_length). by rewrite Nat.div_small, Nat.mod_small by done.
  - rewrite app_nth2, le_bytes_length by (by rewrite le_bytes_length). rewrite IH by (cbn in Hj; lia).
    replace (j / 16) with (S ((j - 16) / 16)) by divlia. replace (j mod 16) with ((j - 16) mod 16) by divlia. done.
Qed.

(** What is left of the buffer is the stream from [pos] on. *)
Lemma buffer_stream a pos p n : at_pos a pos p → pos mod 1024 + n ≤ 1024 →
  slice (bytesOf (mBuffer p)) (mBytesIdx p) n = map (fun j => stream a (pos + j)) (seq 0 n).
Proof.
  intros (_ & _ & _ & -> & -> & _) Hn. set (buf := map _ (seq 0 64)).
  assert (Lb : length (bytesOf buf) = 1024) by (rewrite bytesOf_length; unfold buf; by rewrite length_map_seq).
  apply list_eq_nth; [rewrite length_map_seq; apply slice_length; lia|].
  rewrite slice_length by lia. intros j Hj. rewrite nth_map_seq by done.
  unfold slice. rewrite nth_firstn. nat_true (j <? n). rewrite nth_skipn, nth_bytesOf by (rewrite bytesOf_length in Lb; lia).
  assert ((pos mod 1024 + j) / 16 < 64 ∧ 64 * (pos / 1024) + (pos mod 1024 + j) / 16 = (pos + j) / 16 ∧
    (pos mod 1024 + j) mod 16 = (pos + j) mod 16) as (D1 & D2 & D3) by (clear - Hj Hn; repeat split; divlia).
  unfold buf. rewrite nth_map_seq by done. unfold stream. by rewrite D2, D3.
Qed.

Lemma u64_word z : in_word 64 (u64 z).
Proof. apply in_word_wrap. lia. Qed.

(** A refill after the last byte of the buffer. *)
Lemma refill_at a pos p : mAes p = a → length (mBuffer p) = 64 → length (mIndexArray p) = 64 →
  mBufferByteCapacity p = 1024 → pos mod 1024 = 0 → mBlockIdx p = u64 (Z.of_nat (64 * (pos / 1024))) →
  at_pos a pos (refillBuffer p).
Proof.
  intros <- Hb Hi Hc Hpos Hk. rewrite (refillBuffer_eq p 64) by (done || (rewrite Hk; apply u64_word)).
  assert (W : ∀ x, u64 (u64 (Z.of_nat (64 * (pos / 1024))) + x) = u64 (Z.of_nat (64 * (pos / 1024)) + x)).
  { intros x. unfold wrap. apply Zplus_mod_idemp_l. }
  unfold at_pos. cbn [mAes mIndexArray mBufferByteCapacity mBytesIdx mBuffer mBlockIdx]. rewrite Hk.
  split; [done|]. split; [apply length_map_seq|]. split; [done|]. split; [done|]. split.
  - apply map_ext. intros i. unfold key_block. rewrite W. do 3 f_equal. lia.
  - rewrite W. f_equal. lia.
Qed.

Lemma turn_at a pos p l : at_pos a pos p → 0 < l → let '(step, out, p') := get_turn l p in
  0 < step ≤ l ∧ out = map (fun j => stream a (pos + j)) (seq 0 step) ∧ at_pos a (pos + step) p'.
Proof.
  intros H Hl. pose proof H as (Ha & Hi & Hc & Hr & Hb & Hk). unfold get_turn. rewrite Hc, Hr.
  assert (Hlt : pos mod 1024 < 1024) by (by apply Nat.mod_upper_bound).
  set (step := l `min` (1024 - pos mod 1024)). assert (Hs : 0 < step ≤ l ∧ pos mod 1024 + step ≤ 1024) by (subst step; lia).
  clearbody step. rewrite <- Hr at 1. rewrite (buffer_stream a pos) by (done || lia).
  split; [lia|]. split; [done|]. cbn [mBytesIdx mBufferByteCapacity].
  destruct (Nat.eqb_spec (pos mod 1024 + step) 1024) as [E|E].
  - apply refill_at; cbn [mAes mBuffer mIndexArray mBufferByteCapacity mBlockIdx]; try done.
    + rewrite Hb. apply length_map_seq.
    + clear - E. divlia.
    + rewrite Hk. do 3 f_equal. clear - E. divlia.
  - assert (E1 : (pos + step) / 1024 = pos / 1024) by (clear - E Hs; divlia).
    unfold at_pos. cbn [mAes mBuffer mIndexArray mBufferByteCapacity mBlockIdx mBytesIdx]. rewrite E1.
    repeat (split; [done|]). split; [clear - E Hs; divlia|done].
Qed.

(** Consecutive pieces of the stream. *)
Lemma stream_app a pos l m : map (fun j => stream a (pos + j)) (seq 0 (l + m)) =
  map (fun j => stream a (pos + j)) (seq 0 l) ++ map (fun j => stream a (pos + l + j)) (seq 0 m).
Proof.
  rewrite seq_app, map_app. f_equal. rewrite (Nat.add_comm 0 l), <- fmap_add_seq, map_map.
  apply map_ext. intros j. f_equal. lia.
Qed.

Lemma get_loop_at a fuel : ∀ l pos dest p, at_pos a pos p → l ≤ fuel → ∃ p',
  get_loop fuel l dest p = Some (dest ++ map (fun j => stream a (pos + j)) (seq 0 l), p') ∧ at_pos a (pos + l) p'.
Proof.
  induction fuel as [|fuel IH]; intros l pos dest p H Hl.
  - assert (l = 0) as -> by lia. exists p. cbn. by rewrite app_nil_r, Nat.add_0_r.
  - cbn [get_loop]. destruct (Nat.eqb_spec l 0) as [->|Hne]; [exists p; cbn; by rewrite app_nil_r, Nat.add_0_r|].
    pose proof (turn_at a pos p l H ltac:(lia)) as T. destruct (get_turn l p) as [[step out] p1].
    destruct T as (Hs & -> & H1). destruct (IH (l - step) (pos + step) (dest ++ map (fun j => stream a (pos + j)) (seq 0 step)) p1 H1)
      as (p' & -> & H'); [lia|]. exists p'. replace (pos + step + (l - step)) with (pos + l) in H' by lia. split; [|done].
    do 2 f_equal. rewrite <- app_assoc, <- stream_app. by replace (step + (l - step)) with l by lia.
Qed.

Lemma get_at a pos p size n : at_pos a pos p → ∃ p',
  get size n p = Some (map (fun j => stream a (pos + j)) (seq 0 (n * size)), p') ∧ at_pos a (pos + n * size) p'.
Proof. intros H. by apply (get_loop_at a (n * size) (n * size) pos [] p). Qed.

Lemma PRNG_of_at seed : at_pos (setKey seed) 0 (PRNG_of seed).
Proof. by apply refill_at. Qed.

Lemma gets_at a lengths : ∀ pos p, at_pos a pos p → ∃ outs p', gets lengths p = Some (outs, p') ∧
  map length outs = lengths ∧ concat outs = map (fun j => stream a (pos + j)) (seq 0 (sum_list lengths)) ∧
  at_pos a (pos + sum_list lengths) p'.
Proof.
  induction lengths as [|l lengths IH]; intros pos p H; cbn [gets sum_list].
  - exists [], p. by rewrite Nat.add_0_r.
  - destruct (get_at a pos p 1 l H) as (p1 & -> & H1). rewrite Nat.mul_1_r in *.
    destruct (IH _ _ H1) as (outs & p' & -> & Hl & Hc & H'). eexists _, p'. split; [reflexivity|].
    cbn [map concat]. rewrite length_map_seq, Hl, Hc. split; [done|]. split.
    + symmetry. apply stream_app.
    + change (sum_list (l :: lengths)) with (l + sum_list lengths). by rewrite Nat.add_assoc.
Qed.

(** A block drawn at a block boundary. *)
Lemma get_block_at a i p : at_pos a (16 * i) p → is_block (key_block a i) → ∃ p',
  get_block p = Some (key_block a i, p') ∧ at_pos a (16 * S i) p'.
Proof.
  intros H Hk. unfold get_block, get_uint. destruct (get_at a _ p 16 1 H) as (p' & -> & H').
  exists p'. split; [|by replace (16 * S i) with (16 * i + 1 * 16) by lia]. do 2 f_equal.
  rewrite <- (wrap_small _ _ Hk), <- (le_val_bytes 16). f_equal.
  apply list_eq_nth; [by rewrite length_map_seq, le_bytes_length|]. rewrite length_map_seq. intros j Hj.
  rewrite nth_map_seq by done. unfold stream.
  replace ((16 * i + j) / 16) with i by (clear - Hj; divlia).
  replace ((16 * i + j) mod 16) with j by (clear - Hj; divlia). done.
Qed.

Lemma draw_blocks_at a n : (∀ i, is_block (key_block a i)) → ∀ i p, at_pos a (16 * i) p → ∃ p',
  draw_blocks n p = Some (map (key_block a) (seq i n), p') ∧ at_pos a (16 * (i + n)) p'.
Proof.
  intros Hk. induction n as [|n IH]; intros i p H; cbn [draw_blocks seq map].
  - exists p. by rewrite Nat.add_0_r.
  - destruct (get_block_at a i p H (Hk i)) as (p1 & -> & H1). destruct (IH _ _ H1) as (p' & -> & H').
    exists p'. split; [done|]. by replace (i + S n) with (S i + n) by lia.
Qed.

(** A generator as the constructors, [SetSeed], [get] and the moves leave it: 64 blocks, or none. *)
Definition prng_wf (p : PRNG) : Prop :=
  length (mIndexArray p) = length (mBuffer p) ∧
  ((length (mBuffer p) = 64 ∧ mBufferByteCapacity p = 1024) ∨ (length (mBuffer p) = 0 ∧ mBufferByteCapacity p = 0)).

Lemma at_pos_wf a pos p : at_pos a pos p → prng_wf p.
Proof.
  intros (_ & Hi & Hc & _ & Hb & _). assert (length (mBuffer p) = 64) by (rewrite Hb; apply length_map_seq).
  split; [congruence|]. by left.
Qed.

Lemma SetSeed_PRNG_of p seed : prng_wf p → SetSeed p seed = PRNG_of seed.
Proof.
  intros [Hi H]. unfold SetSeed, PRNG_of.
  destruct p as [s0 buf index a r b cap]. cbn [mSeed mBuffer mIndexArray mAes mBytesIdx mBlockIdx mBufferByteCapacity] in *.
  assert (Z : in_word 64 0) by by apply in_word_0.
  assert (E : ∀ buf index buf' index' r r', length buf = 64 → length index = 64 → length buf' = 64 → length index' = 64 →
    refillBuffer (mkPRNG seed buf index (setKey seed) r 0 1024) = refillBuffer (mkPRNG seed buf' index' (setKey seed) r' 0 1024)).
  { intros. by rewrite !(refillBuffer_eq _ 64). }
  destruct H as [[Hb ->]|[Hb ->]]; rewrite Hb; cbn [Nat.eqb]; by apply E; try (rewrite Hi; done).
Qed.

(** * Properties *)

(** C25 Whatever lengths a client asks for, a seeded generator answers every request, and the answers one
    after the other are the stream of its seed: AES under the seed of the counters 0, 1, 2, ... *)
Theorem gets_stream seed lengths : ∃ outs p, gets lengths (PRNG_of seed) = Some (outs, p) ∧
  map length outs = lengths ∧ concat outs = map (stream (setKey seed)) (seq 0 (sum_list lengths)).
Proof.
  destruct (gets_at _ lengths 0 _ (PRNG_of_at seed)) as (outs & p & E & Hl & Hc & _). by exists outs, p.
Qed.

(** [SetSeed] makes any generator, a moved-from one included, equal to a new one with that seed. *)
Theorem SetSeed_fresh p seed : prng_wf p → SetSeed p seed = PRNG_of seed ∧
  SetSeed (snd (PRNG_move p)) seed = PRNG_of seed ∧ fst (PRNG_move p) = p.
Proof.
  intros H. split; [by apply SetSeed_PRNG_of|]. split; [|by destruct p].
  apply SetSeed_PRNG_of. split; [done|]. by right.
Qed.

Lemma moved_stuck fuel : ∀ l dest p, mBuffer p = [] → mBufferByteCapacity p = 0 → mBytesIdx p = 0 → 0 < l →
  get_loop fuel l dest p = None.
Proof.
  induction fuel as [|fuel IH]; intros l dest p Hb Hc Hr Hl; cbn [get_loop].
  - nat_false (l =? 0). done.
  - nat_false (l =? 0). unfold get_turn. rewrite Hc, Hr, Nat.min_0_r. cbn [Nat.sub mBytesIdx mBufferByteCapacity].
    replace (l `min` 0) with 0 by lia. cbn [Nat.add Nat.eqb]. rewrite Hb. unfold refillBuffer. cbn [mBuffer length].
    rewrite for_0. cbn [mBuffer mIndexArray mAes mSeed mBlockIdx mBufferByteCapacity].
    apply IH; try done; [|lia]. cbn [mBuffer]. unfold ecbEncBlocks. cbn [Nat.sub Nat.modulo Nat.divmod].
    change (0 - 0 mod step) with 0. change (0 / step) with 0. rewrite !for_0, app_nil_r. by apply drop_ge.
Qed.

(** A request for exactly the buffer. *)
Lemma get_buffer c seed buf index a k : 0 < c →
  get 1 c (mkPRNG seed buf index a 0 k c) = Some (slice (bytesOf buf) 0 c, refillBuffer (mkPRNG seed buf index a 0 k c)).
Proof.
  intros Hc. unfold get. rewrite Nat.mul_1_r. destruct c as [|c]; [lia|]. cbn [get_loop]. nat_false (S c =? 0).
  unfold get_turn. cbn [mBufferByteCapacity mBytesIdx mBuffer mSeed mIndexArray mAes mBlockIdx].
  rewrite Nat.sub_0_r, Nat.min_id, Nat.add_0_l, Nat.eqb_refl, Nat.sub_diag. by destruct c.
Qed.

(** C34 The two states from which [get] does not give a stream.  A generator built without a seed gives
    1024 zero bytes first, and only then what the zero seed gives; a moved-from generator never returns
    from a request for a byte, however long it runs. *)
Theorem unseeded_generators p : get 1 1024 PRNG_default = Some (replicate 1024 0%Z, PRNG_of ZeroBlock) ∧
  ∀ fuel l dest, 0 < l → get_loop fuel l dest (snd (PRNG_move p)) = None.
Proof.
  split; [|intros; by apply moved_stuck].
  assert (H := get_buffer (16 * DEFAULT_BUFF_SIZE) ZeroBlock (replicate DEFAULT_BUFF_SIZE ZeroBlock)
    (replicate DEFAULT_BUFF_SIZE ZeroBlock) (setKey ZeroBlock) 0 ltac:(cbn; lia)).
  replace (slice (bytesOf (replicate DEFAULT_BUFF_SIZE ZeroBlock)) 0 (16 * DEFAULT_BUFF_SIZE))
    with (replicate 1024 0%Z) in H by reflexivity. exact H.
Qed.

End prng.
#[local] Existing Instances AesNi.Fips.fips AesNi.Fips.fips_laws.

(** Block [i] of the generator with a seed. *)
Definition nth_block (seed : block) (i : nat) : block := aes_enc seed (toBlock 0 (Z.of_nat i)).

Lemma toBlock_low i : in_word 64 i → toBlock 0 i = i.
Proof. intros Hi. unfold toBlock. rewrite (wrap_small 64 i Hi). by apply Z.lor_0_l. Qed.

Lemma nth_block_inj seed i j : (Z.of_nat i < 2 ^ 64)%Z → (Z.of_nat j < 2 ^ 64)%Z →
  nth_block seed i = nth_block seed j → i = j.
Proof.
  assert (W : ∀ k, (Z.of_nat k < 2 ^ 64)%Z → in_word 64 (Z.of_nat k)) by (intros; split; lia).
  intros Hi%W Hj%W. unfold nth_block. rewrite (toBlock_low _ Hi), (toBlock_low _ Hj). intros E.
  assert (B : ∀ x, in_word 64 x → is_block x) by (intros; by apply (in_word_weaken 64)).
  exact (Nat2Z.inj _ _ (aes_enc_inj seed _ _ (B _ Hi) (B _ Hj) E)).
Qed.

(** The blocks drawn from a seeded generator. *)
Lemma draw_blocks_nth seed n : is_block seed → (Z.of_nat n ≤ 2 ^ 64)%Z → ∃ p,
  draw_blocks n (PRNG_of seed) = Some (map (nth_block seed) (seq 0 n), p).
Proof.
  intros Hs Hn. destruct (draw_blocks_at (setKey seed) n) with (i := 0) (p := PRNG_of seed) as (p & E & _).
  - intros i. by apply ecbEncBlock_block, expand_blocks.
  - apply PRNG_of_at.
  - assert (M : map (key_block (setKey seed)) (seq 0 n) = map (nth_block seed) (seq 0 n)).
    { apply map_ext_in. intros i Hi%in_seq. unfold key_block, nth_block, aes_enc.
      rewrite (wrap_small 128 seed Hs). assert (W : in_word 64 (Z.of_nat i)) by (split; lia).
      rewrite (wrap_small _ _ W), toBlock_low by done. by rewrite (wrap_small 128) by by apply (in_word_weaken 64). }
    rewrite M in E. by exists p.
Qed.

(** The blocks drawn from a seeded generator are the encryptions of their numbers, and they are
    distinct as long as no more than 2^64 of them are drawn. *)
Theorem draw_blocks_distinct seed n : is_block seed → (Z.of_nat n ≤ 2 ^ 64)%Z → ∃ p,
  draw_blocks n (PRNG_of seed) = Some (map (nth_block seed) (seq 0 n), p) ∧
  NoDup (map (nth_block seed) (seq 0 n)).
Proof.
  intros Hs Hn. destruct (draw_blocks_nth seed n Hs Hn) as [p E]. exists p. split; [exact E|].
  apply NoDup_fmap_2_strong; [|apply NoDup_seq]. intros i j Hi%elem_of_seq Hj%elem_of_seq Eij.
  by apply (nth_block_inj seed); [lia|lia|].
Qed.

Lemma draw_blocks_distinct_witness : ∃ p xs, draw_blocks 100 (PRNG_of 7) = Some (xs, p) ∧ NoDup xs.
Proof.
  destruct (draw_blocks_distinct 7 100 ltac:(split; [lia|reflexivity]) ltac:(lia)) as (p & E & H).
  exists p, (map (nth_block 7) (seq 0 100)). split; [exact E|exact H].
Defined.

Lemma SetSeed_fresh_witness : SetSeed (snd (PRNG_move (PRNG_of 3))) 4 = PRNG_of 4.
Proof.
  pose proof (at_pos_wf _ _ _ (PRNG_of_at 3)) as H.
  exact (proj1 (proj2 (SetSeed_fresh (PRNG_of 3) 4 H))).
Defined.

End Prng.
