(* ===== verification/Sneik.v ===== *)
(** SNEIK-f512 and its inverse: frontend/permutation/sneik.h, with the forward permutation of
    thirdparty/sneik/sneik_f512.c. *)
From S2P Require Import Prelude Words.
Open Scope nat_scope.

Module Sneik.

Definition WidthBits : nat := 512.
Definition WidthBytes : nat := WidthBits / 8.
Definition Domain : Z := 0.
Definition Rounds : nat := 8.

Definition rotr (x n : Z) : Z := Z.lor (Z.shiftr x n) (u32 (Z.shiftl x (32 - n))).
Definition linA (x : Z) : Z := Z.lxor (Z.lxor x (rotr x 7)) (rotr x 8).
Definition linB (x : Z) : Z := Z.lxor (Z.lxor x (rotr x 15)) (rotr x 23).

(** [((x >> i) & 1U) != 0] *)
Definition bit (x : Z) (i : nat) : bool := negb (Z.land (Z.shiftr x (Z.of_nat i)) 1 =? 0)%Z.
Definition onebit (i : nat) : Z := u32 (Z.shiftl 1 (Z.of_nat i)).

(** The matrix rows of [fn]. *)
Definition matrixRows (fn : Z → Z) : list Z :=
  for_ 0 32 (fun col rows =>
    let out := fn (onebit col) in
    for_ 0 32 (fun row (rows : list Z) =>
      if bit out row then <[row := Z.lor rows.[row] (onebit col)]> rows else rows) rows)
    (replicate 32 0%Z).

(** [while (pivot < 32 && ((a[pivot] >> col) & 1) == 0) ++pivot;] from [pivot]; [fuel] is the
    number of rows left, so the loop always ends within it. *)
Fixpoint findPivot (fuel : nat) (a : list Z) (col pivot : nat) : nat :=
  match fuel with
  | O => pivot
  | S fuel' =>
      if (pivot <? 32) && negb (bit a.[pivot] col) then findPivot fuel' a col (S pivot) else pivot
  end.

Definition swap (l : list Z) (i j : nat) : list Z := <[j := l.[i]]> (<[i := l.[j]]> l).

(** One column of the Gauss-Jordan elimination. *)
Definition eliminate (col : nat) (st : list Z * list Z) : Res (list Z * list Z) :=
  let '(a, rhs) := st in
  let pivot := findPivot (32 - col) a col col in
  throw_if (pivot =? 32) (RuntimeError "SNEIK inverse matrix is singular") ;;
  let '(a, rhs) := if negb (pivot =? col) then (swap a pivot col, swap rhs pivot col) else (a, rhs) in
  mret (for_ 0 32 (fun row '(a, rhs) =>
    if negb (row =? col) && bit a.[row] col
    then (<[row := Z.lxor a.[row] a.[col]]> a, <[row := Z.lxor rhs.[row] rhs.[col]]> rhs)
    else (a, rhs)) (a, rhs)).

Definition invMatrix (fn : Z → Z) : Res (list Z) :=
  let rows := matrixRows fn in
  forR 0 32 (fun b (inv : list Z) =>
    '(_, rhs) ← forR 0 32 eliminate (rows, <[b := 1%Z]> (replicate 32 0%Z));
    let x := for_ 0 32 (fun col x =>
      if negb (rhs.[col] =? 0)%Z then Z.lor x (onebit col) else x) 0%Z in
    mret (<[b := x]> inv)) (replicate 32 0%Z).

Definition applyInvSlow (y : Z) (inv : list Z) : Z :=
  for_ 0 32 (fun b x => if bit y b then Z.lxor x inv.[b] else x) 0%Z.

Definition invTable (inv : list Z) : list (list Z) :=
  map (fun lane => map (fun byte =>
    applyInvSlow (u32 (Z.shiftl (Z.of_nat byte) (8 * Z.of_nat lane))) inv) (seq 0 256)) (seq 0 4).

(** [table[lane][i]] *)
Definition tab (table : list (list Z)) (lane : nat) (i : Z) : Z := (nth lane table []).[Z.to_nat i].

Definition applyInv (y : Z) (table : list (list Z)) : Z :=
  Z.lxor (Z.lxor (Z.lxor (tab table 0 (Z.land y 255)) (tab table 1 (Z.land (Z.shiftr y 8) 255)))
    (tab table 2 (Z.land (Z.shiftr y 16) 255))) (tab table 3 (Z.land (Z.shiftr y 24) 255)).

(** The 16 little-endian words of a state, and back. *)
Definition load32 (p : list Z) : Z :=
  Z.lor (Z.lor (Z.lor p.[0] (u32 (Z.shiftl p.[1] 8))) (u32 (Z.shiftl p.[2] 16))) (u32 (Z.shiftl p.[3] 24)).
Definition store32 (x : Z) : list Z := [u8 x; u8 (Z.shiftr x 8); u8 (Z.shiftr x 16); u8 (Z.shiftr x 24)].

Definition loadState (state : list Z) : list Z := map (fun i => load32 (drop (4 * i) state)) (seq 0 16).
Definition storeState (v : list Z) : list Z := List.concat (map store32 v).

Definition rc : list Z :=
  [0xEF; 0xE0; 0xD9; 0xD6; 0xBA; 0xB5; 0x8C; 0x83; 0x10; 0x1F; 0x26; 0x29; 0x45; 0x4A; 0x73; 0x7C]%Z.

(** * The inverse *)

(** Undoes position [j] of a round. *)
Definition unmix (invA invB : list (list Z)) (j : nat) (v : list Z) : list Z :=
  let x := Z.lxor v.[j] v.[(j + 1) mod 16] in
  let x := applyInv x invB in
  let x := u32 (x - v.[(j + 2) mod 16]) in
  let x := Z.lxor x v.[(j + 14) mod 16] in
  let x := applyInv x invA in
  let x := u32 (x - v.[(j + 15) mod 16]) in
  <[j := x]> v.

Definition unround (invA invB : list (list Z)) (dom : Z) (round : nat) (v : list Z) : list Z :=
  let v := for_down 16 (unmix invA invB) v in
  let v := <[1 := Z.lxor v.[1] dom]> v in
  <[0 := Z.lxor v.[0] rc.[round]]> v.

(** [round]s above 15 would index [rc] out of range; the callers pass [Rounds]. *)
Definition invert (state : list Z) (dom : Z) (rounds : nat) : Res (list Z) :=
  mA ← invMatrix linA;
  mB ← invMatrix linB;
  let invA := invTable mA in
  let invB := invTable mB in
  mret (storeState (for_down rounds (unround invA invB dom) (loadState state))).

(** * The forward permutation *)

(** The registers [t0, t1, t2, t3] of a [MIX_F] call. *)
Record Regs : Type := mkRegs { t0 : Z; t1 : Z; t2 : Z; t3 : Z }.

(** [MIX_F(pos, vec, t0, t1, t2, t3)], followed by the renaming of the next call:
    its [t0, t1, t2, t3] are this call's [t1, t2, t3, t0]. *)
Definition MIX_F (pos : nat) (st : list Z * Regs) : list Z * Regs :=
  let '(vec, r) := st in
  let x := u32 (t0 r + t3 r) in
  let x := Z.lxor (Z.lxor x (rotr x 7)) (rotr x 8) in
  let x := Z.lxor x (t2 r) in
  let y := vec.[(pos + 2) mod 16] in
  let x := u32 (x + y) in
  let x := Z.lxor (Z.lxor x (rotr x 15)) (rotr x 23) in
  let x := Z.lxor x (t1 r) in
  (<[pos := x]> vec, mkRegs (t1 r) y (t3 r) x).

Definition fround (dom : Z) (i : nat) (st : list Z * Regs) : list Z * Regs :=
  let '(sv, w) := st in
  let w := mkRegs (Z.lxor (t0 w) rc.[i]) (Z.lxor (t1 w) dom) (t2 w) (t3 w) in
  for_ 0 16 MIX_F (sv, w).

Definition sneik_f512 (state : list Z) (dom : Z) (rounds : nat) : list Z :=
  let sv := loadState state in
  let st := for_ 0 rounds (fround dom) (sv, mkRegs sv.[0] sv.[1] sv.[14] sv.[15]) in
  storeState st.1.


(** * The table inverts the linear maps *)

Lemma bit_testbit x i : bit x i = Z.testbit x (Z.of_nat i).
Proof.
  unfold bit. pose proof (Z.land_ones (Z.shiftr x (Z.of_nat i)) 1 ltac:(lia)) as H.
  change (Z.ones 1) with 1%Z in H. change (2 ^ 1)%Z with 2%Z in H.
  rewrite H, Zmod_odd, <- Z.bit0_odd, Z.shiftr_spec, Z.add_0_l by lia. by destruct (Z.testbit x _).
Qed.

Lemma rotr_word x n : (0 ≤ n)%Z → in_word 32 x → in_word 32 (rotr x n).
Proof. intros. by apply rotw_word. Qed.

Lemma rotr_xor a b n : (0 < n < 32)%Z → in_word 32 a → in_word 32 b →
  rotr (Z.lxor a b) n = Z.lxor (rotr a n) (rotr b n).
Proof. intros. apply (rotw_xor 32); done || lia. Qed.

Lemma lin_word x m n : (0 ≤ m)%Z → (0 ≤ n)%Z → in_word 32 x →
  in_word 32 (Z.lxor (Z.lxor x (rotr x m)) (rotr x n)).
Proof. intros. repeat (apply in_word_lxor || apply rotr_word); done || lia. Qed.

Lemma lin_linear m n : (0 < m < 32)%Z → (0 < n < 32)%Z →
  linear 32 (fun x => Z.lxor (Z.lxor x (rotr x m)) (rotr x n)).
Proof.
  intros Hm Hn a b Ha Hb. change (Z.of_nat 32) with 32%Z in *. rewrite !rotr_xor by done.
  apply Z.bits_inj'. intros i Hi. rewrite !Z.lxor_spec.
  destruct (Z.testbit a i), (Z.testbit b i), (Z.testbit (rotr a m) i), (Z.testbit (rotr b m) i),
    (Z.testbit (rotr a n) i), (Z.testbit (rotr b n) i); done.
Qed.

Lemma applyInvSlow_xs y inv :
  applyInvSlow y inv = xs 32 (fun b => if Z.testbit y (Z.of_nat b) then inv.[b] else 0%Z).
Proof.
  unfold applyInvSlow. loop_inv (fun i x => x =
    xs i (fun b => if Z.testbit y (Z.of_nat b) then inv.[b] else 0%Z)) as H; [lia|done| |done].
  intros i x _ ->. cbn [xs]. rewrite bit_testbit.
  destruct (Z.testbit y _); [done|by rewrite Z.lxor_0_r].
Qed.

Lemma applyInvSlow_xor a b inv :
  applyInvSlow (Z.lxor a b) inv = Z.lxor (applyInvSlow a inv) (applyInvSlow b inv).
Proof.
  rewrite !applyInvSlow_xs, <- xs_xor. apply xs_ext. intros k _. rewrite Z.lxor_spec.
  destruct (Z.testbit a _), (Z.testbit b _); cbn [xorb];
    by rewrite ?Z.lxor_0_r, ?Z.lxor_0_l, ?Z.lxor_nilpotent.
Qed.

Lemma tab_value inv lane y : lane < 4 →
  tab (invTable inv) lane (Z.land y 255) =
  applyInvSlow (u32 (Z.shiftl (Z.land y 255) (8 * Z.of_nat lane))) inv.
Proof.
  intros Hl. unfold tab, invTable. rewrite (nth_map_seq _ 4) by done.
  assert (Hb : (0 ≤ Z.land y 255 < 256)%Z) by (rewrite land_255; apply Z.mod_pos_bound; lia).
  rewrite nth_map_seq by lia. by rewrite Z2Nat.id by lia.
Qed.

Lemma byte_bit y k i : (0 ≤ k)%Z → (k + 8 ≤ 32)%Z → (0 ≤ i)%Z →
  Z.testbit (u32 (Z.shiftl (Z.land (Z.shiftr y k) 255) k)) i
  = (k <=? i)%Z && (i <? k + 8)%Z && Z.testbit y i.
Proof.
  intros Hk Hk8 Hi. rewrite wrap_testbit, Z.shiftl_spec by lia.
  destruct (Z.leb_spec k i); cbn [andb].
  - rewrite Z.land_spec, Z.shiftr_spec by lia. change 255%Z with (2 ^ 8 - 1)%Z.
    rewrite ones_testbit by lia. replace (i - k + k)%Z with i by lia.
    rewrite (andb_comm (Z.testbit y i)). case_bits; done || lia.
  - rewrite Z.testbit_neg_r by lia. apply andb_false_r.
Qed.

(** Four table look-ups compute the same map as the 32 single-bit steps. *)
Lemma applyInv_slow y inv : in_word 32 y → applyInv y (invTable inv) = applyInvSlow y inv.
Proof.
  intros Hy. unfold applyInv. rewrite <- (Z.shiftr_0_r y) at 1. rewrite !tab_value by lia.
  rewrite <- !applyInvSlow_xor. f_equal. apply Z.bits_inj'. intros i Hi.
  rewrite !Z.lxor_spec. change (8 * Z.of_nat 0)%Z with 0%Z. change (8 * Z.of_nat 1)%Z with 8%Z.
  change (8 * Z.of_nat 2)%Z with 16%Z. change (8 * Z.of_nat 3)%Z with 24%Z.
  rewrite !byte_bit by lia.
  destruct (Z.lt_ge_cases i 32); [|rewrite (testbit_high 32 y) by done; by rewrite !andb_false_r].
  destruct (Z.testbit y i); rewrite ?andb_false_r, ?andb_true_r; [|done].
  destruct (Z.leb_spec 0 i), (Z.ltb_spec i (0 + 8)), (Z.leb_spec 8 i), (Z.ltb_spec i (8 + 8)),
    (Z.leb_spec 16 i), (Z.ltb_spec i (16 + 8)), (Z.leb_spec 24 i), (Z.ltb_spec i (24 + 8));
    lia || done.
Qed.

Definition okOr (m : Res (list Z)) : list Z := match m with Ok l => l | Throw _ => [] end.
Definition matA : list Z := Eval vm_compute in okOr (invMatrix linA).
Definition matB : list Z := Eval vm_compute in okOr (invMatrix linB).

Lemma invMatrix_A : invMatrix linA = Ok matA.
Proof. vm_compute. reflexivity. Qed.
Lemma invMatrix_B : invMatrix linB = Ok matB.
Proof. vm_compute. reflexivity. Qed.

Lemma slow_linear inv n : linear n (fun y => applyInvSlow y inv).
Proof. intros a b _ _. apply applyInvSlow_xor. Qed.

Lemma linear_comp n f g : linear n f → linear n g →
  (∀ x, in_word (Z.of_nat n) x → in_word (Z.of_nat n) (f x)) → linear n (fun x => g (f x)).
Proof. intros Hf Hg Hw a b Ha Hb. rewrite Hf by done. apply Hg; by apply Hw. Qed.

Lemma linear_id n : linear n (fun x => x).
Proof. by intros a b. Qed.

Lemma slow_word inv y : Forall (in_word 32) inv → in_word 32 (applyInvSlow y inv).
Proof.
  intros Hinv. rewrite applyInvSlow_xs. set (f := fun b => _).
  assert (H : ∀ n, in_word 32 (xs n f)); [|apply H]. unfold f. clear f. intros n.
  induction n as [|n IH]; cbn [xs]; [by apply in_word_0|]. apply in_word_lxor; [lia|done|].
  destruct (Z.testbit _ _); [|by apply in_word_0]. by apply Forall_nth_Z; [|apply in_word_0].
Qed.

Lemma mat_words : Forall (in_word 32) matA ∧ Forall (in_word 32) matB.
Proof. split; repeat constructor; done. Qed.

(** The inverse maps, both ways round. *)
Lemma linA_inverse x : in_word 32 x →
  in_word 32 (linA x) ∧ applyInv (linA x) (invTable matA) = x ∧
  in_word 32 (applyInv x (invTable matA)) ∧ linA (applyInv x (invTable matA)) = x.
Proof.
  intros Hx. assert (HA : in_word 32 (linA x)) by by apply lin_word.
  pose proof (lin_linear 7 8 ltac:(lia) ltac:(lia)) as HlA.
  rewrite !applyInv_slow by done. split; [done|]. split; [|split].
  - apply (linear_check 32 (fun x => applyInvSlow (linA x) matA) (fun x => x)); [|apply linear_id| |done].
    + apply (linear_comp 32 linA (fun y => applyInvSlow y matA)); [done|apply slow_linear|].
      intros y Hy. by apply lin_word.
    + vm_compute. reflexivity.
  - apply slow_word, mat_words.
  - apply (linear_check 32 (fun x => linA (applyInvSlow x matA)) (fun x => x)); [|apply linear_id| |done].
    + apply (linear_comp 32 (fun y => applyInvSlow y matA) linA); [apply slow_linear|done|].
      intros y Hy. apply slow_word, mat_words.
    + vm_compute. reflexivity.
Qed.

Lemma linB_inverse x : in_word 32 x →
  in_word 32 (linB x) ∧ applyInv (linB x) (invTable matB) = x ∧
  in_word 32 (applyInv x (invTable matB)) ∧ linB (applyInv x (invTable matB)) = x.
Proof.
  intros Hx. assert (HB : in_word 32 (linB x)) by by apply lin_word.
  pose proof (lin_linear 15 23 ltac:(lia) ltac:(lia)) as HlB.
  rewrite !applyInv_slow by done. split; [done|]. split; [|split].
  - apply (linear_check 32 (fun x => applyInvSlow (linB x) matB) (fun x => x)); [|apply linear_id| |done].
    + apply (linear_comp 32 linB (fun y => applyInvSlow y matB)); [done|apply slow_linear|].
      intros y Hy. by apply lin_word.
    + vm_compute. reflexivity.
  - apply slow_word, mat_words.
  - apply (linear_check 32 (fun x => linB (applyInvSlow x matB)) (fun x => x)); [|apply linear_id| |done].
    + apply (linear_comp 32 (fun y => applyInvSlow y matB) linB); [apply slow_linear|done|].
      intros y Hy. apply slow_word, mat_words.
    + vm_compute. reflexivity.
Qed.

(** * One position and its inverse *)

Definition words_ok (v : list Z) : Prop := length v = 16 ∧ Forall (in_word 32) v.

(** [MIX_F] on the array alone. *)
Definition mix (j : nat) (v : list Z) : list Z :=
  let x := u32 (v.[j] + v.[(j + 15) mod 16]) in
  let x := Z.lxor (linA x) v.[(j + 14) mod 16] in
  let x := u32 (x + v.[(j + 2) mod 16]) in
  <[j := Z.lxor (linB x) v.[(j + 1) mod 16]]> v.

Lemma wrap_add_sub w a b : in_word w a → wrap w (wrap w (a + b) - b) = a.
Proof.
  intros [H0 H1]. unfold wrap. rewrite Zminus_mod_idemp_l. replace (a + b - b)%Z with a by lia.
  by apply Z.mod_small.
Qed.

Lemma wrap_sub_add w a b : in_word w a → wrap w (wrap w (a - b) + b) = a.
Proof.
  intros [H0 H1]. unfold wrap. rewrite Zplus_mod_idemp_l. replace (a - b + b)%Z with a by lia.
  by apply Z.mod_small.
Qed.

Lemma neighbour j d : j < 16 → 0 < d < 16 → (j + d) mod 16 ≠ j.
Proof.
  intros Hj Hd. pose proof (Nat.div_mod_eq (j + d) 16). intros E.
  assert ((j + d) / 16 < 2) by (apply Nat.Div0.div_lt_upper_bound; lia). lia.
Qed.

Lemma words_nth v j : words_ok v → in_word 32 v.[j].
Proof. intros [_ Hv]. apply Forall_nth_Z; [done|by apply in_word_0]. Qed.

Lemma words_insert v j x : words_ok v → in_word 32 x → words_ok (<[j := x]> v).
Proof. intros [Hl Hv] Hx. split; [by rewrite length_insert|by apply Forall_insert]. Qed.

Lemma nth_other v j d x : j < 16 → 0 < d < 16 → (<[j := x]> v).[(j + d) mod 16] = v.[(j + d) mod 16].
Proof.
  intros Hj Hd. rewrite nth_insert, decide_False; [done|]. pose proof (neighbour j d Hj Hd). lia.
Qed.

Lemma restore v j x : words_ok v → j < 16 → <[j := v.[j]]> (<[j := x]> v) = v.
Proof.
  intros [Hl _] Hj. rewrite list_insert_insert_eq. apply list_insert_id, nth_lookup_Z. lia.
Qed.

Lemma nth_this v j x : words_ok v → j < 16 → (<[j := x]> v).[j] = x.
Proof. intros [Hl _] Hj. rewrite nth_insert, decide_True; [done|lia]. Qed.

Lemma unmix_mix j v : j < 16 → words_ok v →
  words_ok (mix j v) ∧ unmix (invTable matA) (invTable matB) j (mix j v) = v.
Proof.
  intros Hj Hv. unfold mix, unmix.
  set (x := u32 (v.[j] + _)). assert (Hx : in_word 32 x) by (apply in_word_wrap; lia).
  destruct (linA_inverse x Hx) as (HA & EA & _).
  set (y := u32 (Z.lxor (linA x) _ + _)). assert (Hy : in_word 32 y) by (apply in_word_wrap; lia).
  destruct (linB_inverse y Hy) as (HB & EB & _).
  split; [apply words_insert; [done|]; apply in_word_lxor; [lia|done|by apply words_nth]|].
  rewrite !nth_other, nth_this by (done || lia). rewrite lxor_cancel, EB.
  unfold y. rewrite wrap_add_sub by (apply in_word_lxor; [lia|done|by apply words_nth]).
  rewrite lxor_cancel, EA. unfold x. rewrite wrap_add_sub by by apply words_nth.
  by apply restore.
Qed.

Lemma mix_unmix j v : j < 16 → words_ok v →
  words_ok (unmix (invTable matA) (invTable matB) j v) ∧
  mix j (unmix (invTable matA) (invTable matB) j v) = v.
Proof.
  intros Hj Hv. unfold mix, unmix.
  set (y := Z.lxor v.[j] _). assert (Hy : in_word 32 y) by (apply in_word_lxor; [lia|by apply words_nth|by apply words_nth]).
  destruct (linB_inverse y Hy) as (_ & _ & HB & EB). set (y' := applyInv y (invTable matB)) in *.
  set (x := Z.lxor (u32 (y' - _)) _).
  assert (Hx : in_word 32 x) by (apply in_word_lxor; [lia|by apply in_word_wrap|by apply words_nth]).
  destruct (linA_inverse x Hx) as (_ & _ & HA & EA). set (x' := applyInv x (invTable matA)) in *.
  clearbody x' y'. split; [apply words_insert; [done|by apply in_word_wrap]|].
  rewrite !nth_other, nth_this by (done || lia). rewrite wrap_sub_add, EA by done.
  unfold x. rewrite lxor_cancel, wrap_sub_add, EB by done. unfold y. rewrite lxor_cancel.
  by apply restore.
Qed.

Lemma xor_twice v j c : words_ok v → j < 16 →
  <[j := Z.lxor (<[j := Z.lxor v.[j] c]> v).[j] c]> (<[j := Z.lxor v.[j] c]> v) = v.
Proof. intros Hv Hj. rewrite nth_this, lxor_cancel by done. by apply restore. Qed.

(** * The forward rounds on the array alone *)

Definition mround (dom : Z) (i : nat) (v : list Z) : list Z :=
  let v := <[0 := Z.lxor v.[0] rc.[i]]> v in
  let v := <[1 := Z.lxor v.[1] dom]> v in
  for_ 0 16 mix v.

(** The registers hold the words around position [pos]; the array lags behind only in the
    words 0 and 1, before they are overwritten. *)
Definition in_sync (pos : nat) (st : list Z * Regs) (v : list Z) : Prop :=
  length st.1 = 16 ∧ words_ok v ∧ (∀ k, k < 16 → 2 ≤ k ∨ k < pos → st.1.[k] = v.[k]) ∧
  t0 st.2 = v.[pos mod 16] ∧ t1 st.2 = v.[(pos + 1) mod 16] ∧
  t2 st.2 = v.[(pos + 14) mod 16] ∧ t3 st.2 = v.[(pos + 15) mod 16].

Lemma MIX_F_mix pos st v : pos < 16 → in_sync pos st v → in_sync (S pos) (MIX_F pos st) (mix pos v).
Proof.
  intros Hp (Hl & Hv & Hag & H0 & H1 & H2 & H3). destruct st as [vec [r0 r1 r2 r3]]. cbn [fst snd t0 t1 t2 t3] in Hl, Hag, H0, H1, H2, H3.
  destruct (unmix_mix pos v Hp Hv) as [Hv' _]. unfold MIX_F. cbn [t0 t1 t2 t3].
  assert (H4 : vec.[(pos + 2) mod 16] = v.[(pos + 2) mod 16]).
  { apply Hag; [apply Nat.mod_upper_bound; lia|].
    destruct (Nat.le_gt_cases 14 pos).
    - right. assert ((pos + 2) mod 16 = pos - 14) as ->; [|lia].
      symmetry. apply (Nat.mod_unique _ _ 1); lia.
    - left. rewrite Nat.mod_small; lia. }
  rewrite (Nat.mod_small pos) in H0 by done. rewrite H0, H1, H2, H3, H4.
  fold (linA (u32 (v.[pos] + v.[(pos + 15) mod 16]))).
  set (x := u32 (Z.lxor _ _ + _)). fold (linB x).
  unfold in_sync. cbn [fst snd t0 t1 t2 t3]. rewrite length_insert.
  change (mix pos v) with (<[pos := Z.lxor (linB x) v.[(pos + 1) mod 16]]> v) in *.
  set (z := Z.lxor (linB x) _) in *.
  split; [done|]. split; [done|]. split; [|split; [|split; [|split]]].
  - intros k Hk Hkp. rewrite !nth_insert, Hl, (proj1 Hv).
    destruct (decide (pos = k ∧ pos < 16)) as [|Hn]; [done|]. apply Hag; [done|]. lia.
  - rewrite <- (Nat.add_1_r pos), nth_other by (done || lia). done.
  - replace (S pos + 1) with (pos + 2) by lia. by rewrite nth_other by lia.
  - replace (S pos + 14) with (pos + 15) by lia. by rewrite nth_other by lia.
  - replace (S pos + 15) with (pos + 1 * 16) by lia. rewrite Nat.Div0.mod_add, Nat.mod_small by done.
    by rewrite nth_this.
Qed.

Lemma fround_mround dom i st v : in_word 32 dom → in_sync 16 st v →
  in_sync 16 (fround dom i st) (mround dom i v).
Proof.
  intros Hd (Hl & Hv & Hag & H0 & H1 & H2 & H3). destruct st as [sv w]. cbn [fst snd t0 t1 t2 t3] in Hl, Hag, H0, H1, H2, H3.
  assert (Hrc : in_word 32 rc.[i]) by (apply Forall_nth_Z; [repeat constructor; done|by apply in_word_0]).
  unfold fround, mround. set (v0 := <[0 := _]> v). set (v1 := <[1 := _]> v0).
  assert (Hv0 : words_ok v0) by (apply words_insert; [done|]; apply in_word_lxor; [lia|by apply words_nth|done]).
  assert (Hv1 : words_ok v1) by (apply words_insert; [done|]; apply in_word_lxor; [lia|by apply words_nth|done]).
  assert (Hn : ∀ k, v1.[k] = if decide (k = 0) then Z.lxor v.[0] rc.[i]
                    else if decide (k = 1) then Z.lxor v.[1] dom else v.[k]).
  { intros k. unfold v1, v0. rewrite !nth_insert, length_insert, (proj1 Hv).
    repeat destruct (decide _); try lia; congruence. }
  set (st1 := (sv, mkRegs _ _ _ _)).
  assert (Hs : in_sync 0 st1 v1).
  { unfold in_sync, st1. cbn [fst snd t0 t1 t2 t3]. split; [done|]. split; [done|].
    split; [|rewrite !Hn, H0, H1, H2, H3; done].
    intros k Hk Hk2. rewrite Hn, !decide_False by lia. apply Hag; [done|lia]. }
  clearbody st1 v1. clear -Hs.
  assert (H : ∀ n, n ≤ 16 → in_sync n (for_ 0 n MIX_F st1) (for_ 0 n mix v1)); [|by apply H].
  induction n as [|n IH]; intros Hn; [by rewrite !for_0|].
  rewrite !for_snoc by lia. apply MIX_F_mix; [lia|]. apply IH. lia.
Qed.

Lemma unround_mround dom i v : in_word 32 dom → words_ok v →
  words_ok (mround dom i v) ∧ unround (invTable matA) (invTable matB) dom i (mround dom i v) = v.
Proof.
  intros Hd Hv. unfold mround, unround.
  assert (Hrc : in_word 32 rc.[i]) by (apply Forall_nth_Z; [repeat constructor; done|by apply in_word_0]).
  set (v0 := <[0 := _]> v). set (v1 := <[1 := _]> v0).
  assert (Hv0 : words_ok v0) by (apply words_insert; [done|]; apply in_word_lxor; [lia|by apply words_nth|done]).
  assert (Hv1 : words_ok v1) by (apply words_insert; [done|]; apply in_word_lxor; [lia|by apply words_nth|done]).
  destruct (for_down_undo words_ok 16 mix (unmix (invTable matA) (invTable matB)) v1
    (fun j s Hj => unmix_mix j s Hj) Hv1) as [Hm ->]. split; [done|].
  unfold v1. rewrite xor_twice by (done || lia). unfold v0. by rewrite xor_twice by (done || lia).
Qed.

Lemma mround_unround dom i v : in_word 32 dom → words_ok v →
  words_ok (unround (invTable matA) (invTable matB) dom i v) ∧
  mround dom i (unround (invTable matA) (invTable matB) dom i v) = v.
Proof.
  intros Hd Hv. unfold mround, unround.
  assert (Hrc : in_word 32 rc.[i]) by (apply Forall_nth_Z; [repeat constructor; done|by apply in_word_0]).
  destruct (for_undo words_ok 16 mix (unmix (invTable matA) (invTable matB)) v
    (fun j s Hj => mix_unmix j s Hj) Hv) as [Hu Eu].
  set (u := for_down 16 _ v) in *. clearbody u.
  set (u1 := <[1 := _]> u). set (u0 := <[0 := _]> u1).
  assert (Hu1 : words_ok u1) by (apply words_insert; [done|]; apply in_word_lxor; [lia|by apply words_nth|done]).
  assert (Hu0 : words_ok u0) by (apply words_insert; [done|]; apply in_word_lxor; [lia|by apply words_nth|done]).
  split; [done|]. unfold u0. rewrite xor_twice by (done || lia).
  unfold u1. by rewrite xor_twice by (done || lia).
Qed.

(** * Bytes and words *)

Lemma store32_le x : store32 x = le_bytes 4 x.
Proof.
  unfold store32. cbn [le_bytes]. rewrite !land_255, !Z.shiftr_shiftr by lia. done.
Qed.

Lemma load32_le p : 4 ≤ length p → bytes_ok p → load32 p = le_val (take 4 p).
Proof.
  intros Hl Hb. destruct p as [|b0 [|b1 [|b2 [|b3 p]]]]; cbn in Hl; try lia.
  rewrite !Forall_cons in Hb. destruct Hb as (H0 & H1 & H2 & H3 & _).
  unfold load32. cbn [nth take]. rewrite take_0. cbn [le_val].
  assert (Hs : ∀ b k, in_word 8 b → (0 ≤ k ≤ 24)%Z → u32 (Z.shiftl b k) = (b * 2 ^ k)%Z).
  { intros b k [? Hb] Hk. rewrite Z.shiftl_mul_pow2 by lia. apply wrap_small. split; [nia|].
    apply Z.lt_le_trans with (2 ^ 8 * 2 ^ k)%Z; [nia|]. rewrite <- Z.pow_add_r by lia.
    apply Z.pow_le_mono_r; lia. }
  rewrite !Hs by (done || lia). rewrite <- !Z.shiftl_mul_pow2 by lia.
  unfold in_word in *. change (2 ^ 8)%Z with 256%Z in *.
  rewrite (lor_disjoint_add b0 b1 8) by (done || lia).
  rewrite (lor_disjoint_add _ b2 16) by (lia || (split; change (2 ^ 8)%Z with 256%Z; change (2 ^ 16)%Z with 65536%Z; lia)).
  rewrite (lor_disjoint_add _ b3 24); [|lia|].
  { change (2 ^ 8)%Z with 256%Z; change (2 ^ 16)%Z with 65536%Z; change (2 ^ 24)%Z with 16777216%Z; lia. }
  split; change (2 ^ 8)%Z with 256%Z; change (2 ^ 16)%Z with 65536%Z; change (2 ^ 24)%Z with 16777216%Z; lia.
Qed.

Definition state_ok (state : list Z) : Prop := length state = 64 ∧ bytes_ok state.

Lemma loadState_words state : state_ok state → words_ok (loadState state).
Proof.
  intros [Hl Hb]. split; [apply length_map_seq|]. apply Forall_forall. intros x Hx.
  apply list_elem_of_In, in_map_iff in Hx as (i & <- & Hi). apply in_seq in Hi.
  rewrite load32_le by (rewrite ?length_drop; lia || by apply Forall_drop).
  eapply in_word_weaken; [|apply le_val_bound; by apply Forall_take, Forall_drop].
  rewrite length_take. lia.
Qed.

Lemma store32_all v l : l ∈ map store32 v → length l = 4.
Proof. intros Hl. apply list_elem_of_In, in_map_iff in Hl as (x & <- & _). done. Qed.

Lemma concat_length (ls : list (list Z)) r : (∀ l, l ∈ ls → length l = r) →
  length (List.concat ls) = length ls * r.
Proof.
  induction ls as [|l ls IH]; intros H; cbn; [done|]. rewrite length_app, IH, (H l); [done| |].
  - apply elem_of_cons. by left.
  - intros l' Hl'. apply H, elem_of_cons. by right.
Qed.

Lemma storeState_ok v : words_ok v → state_ok (storeState v).
Proof.
  intros [Hl _]. unfold storeState. split.
  - rewrite (concat_length _ 4), length_map, Hl; [done|apply store32_all].
  - clear Hl. induction v as [|x v IH]; cbn [map List.concat]; [constructor|]. apply Forall_app.
    split; [rewrite store32_le; apply le_bytes_ok|done].
Qed.

Lemma load_storeState v : words_ok v → loadState (storeState v) = v.
Proof.
  intros Hv. pose proof (storeState_ok v Hv) as [Hsl Hsb]. pose proof Hv as [Hl Hw].
  apply list_eq_nth; [unfold loadState; by rewrite length_map_seq|].
  unfold loadState. rewrite length_map_seq. intros i Hi. rewrite nth_map_seq by done.
  rewrite load32_le by (rewrite ?length_drop; lia || by apply Forall_drop).
  change (take 4 (drop (4 * i) (storeState v))) with (slice (storeState v) (4 * i) 4).
  unfold storeState. rewrite Nat.mul_comm, concat_slice; [|apply store32_all|rewrite length_map; lia].
  rewrite (nth_indep _ [] (store32 0%Z)) by (rewrite length_map; lia).
  rewrite map_nth, store32_le, le_val_bytes. apply wrap_small. by apply words_nth.
Qed.

Lemma store_loadState state : state_ok state → storeState (loadState state) = state.
Proof.
  intros [Hl Hb]. symmetry. unfold storeState, loadState. rewrite map_map. apply (slices_concat state _ 4).
  - by rewrite length_map_seq.
  - rewrite length_map_seq. intros i Hi. rewrite nth_map_seq by done.
    rewrite store32_le, load32_le by (rewrite ?length_drop; lia || by apply Forall_drop).
    unfold slice. rewrite (Nat.mul_comm i 4).
    pose proof (le_bytes_val (take 4 (drop (4 * i) state))) as H.
    rewrite length_take, length_drop, Nat.min_l in H by lia. rewrite H; [done|].
    by apply Forall_take, Forall_drop.
Qed.

(** * The permutation and its inverse *)

Lemma forward_mround state dom rounds : in_word 8 dom → state_ok state →
  sneik_f512 state dom rounds = storeState (for_ 0 rounds (mround dom) (loadState state)).
Proof.
  intros Hd Hs. pose proof (loadState_words state Hs) as Hv. unfold sneik_f512.
  set (v := loadState state) in *. clearbody v. f_equal.
  assert (Hd' : in_word 32 dom) by (eapply in_word_weaken; [|done]; lia).
  assert (H : ∀ n, in_sync 16 (for_ 0 n (fround dom) (v, mkRegs v.[0] v.[1] v.[14] v.[15]))
                 (for_ 0 n (mround dom) v)).
  { induction n as [|n IH]; [rewrite !for_0; split; [apply Hv|by repeat split; apply Hv]|]. rewrite !for_snoc by lia.
    by apply fround_mround. }
  destruct (H rounds) as (Hl & [Hvl _] & Hag & _). apply list_eq_nth; [congruence|].
  intros k Hk. apply Hag; [lia|]. destruct (Nat.lt_ge_cases k 16); [by right|left; lia].
Qed.

Lemma undo_both state dom rounds : in_word 8 dom → state_ok state →
  state_ok (sneik_f512 state dom rounds) ∧
  invert (sneik_f512 state dom rounds) dom rounds = Ok state ∧
  ∃ s, invert state dom rounds = Ok s ∧ state_ok s ∧ sneik_f512 s dom rounds = state.
Proof.
  intros Hd Hs. assert (Hd' : in_word 32 dom) by (eapply in_word_weaken; [|done]; lia).
  pose proof (loadState_words state Hs) as Hv.
  destruct (for_down_undo words_ok rounds (mround dom) (unround (invTable matA) (invTable matB) dom)
    (loadState state) (fun i s _ => unround_mround dom i s Hd') Hv) as [Hf Ef].
  destruct (for_undo words_ok rounds (mround dom) (unround (invTable matA) (invTable matB) dom)
    (loadState state) (fun i s _ => mround_unround dom i s Hd') Hv) as [Hg Eg].
  unfold invert. rewrite invMatrix_A, invMatrix_B. cbn [mbind Res_bind]. rewrite !forward_mround by done.
  split; [by apply storeState_ok|]. split.
  - rewrite load_storeState, Ef by done. unfold mret, Res_ret. by rewrite store_loadState.
  - eexists. split; [reflexivity|]. pose proof (storeState_ok _ Hg) as Hgs. split; [done|].
    rewrite forward_mround, load_storeState, Eg by done. by apply store_loadState.
Qed.

(** The inverse never fails and undoes SNEIK-f512 on every 64-byte state, and the forward
    permutation undoes the inverse, for every domain byte and up to 16 rounds. *)
Theorem sneik_inverse state dom rounds : in_word 8 dom → rounds ≤ 16 → state_ok state →
  invert (sneik_f512 state dom rounds) dom rounds = Ok state ∧
  ∃ s, invert state dom rounds = Ok s ∧ sneik_f512 s dom rounds = state.
Proof.
  intros Hd _ Hs. destruct (undo_both state dom rounds Hd Hs) as (_ & H & s & H1 & _ & H2).
  split; [exact H|]. exists s. exact (conj H1 H2).
Qed.

Lemma sneik_inverse_witness : let s := replicate 64 7%Z in
  invert (sneik_f512 s Domain Rounds) Domain Rounds = Ok s.
Proof.
  intros s. apply (sneik_inverse s Domain Rounds); [done|unfold Rounds; lia|]. split; [done|by apply Forall_replicate].
Defined.
End Sneik.
