(* ===== verification/Small.v ===== *)
(** The small permutations behind Construction-Pi: frontend/permutation/small.h and the
    parameter choice of frontend/permutation/params.h.

    Keccak comes from KeccakTools, modelled in Keccak.v, and is a parameter here: [keccak width rounds]
    and [keccak_inv width rounds] are the two directions of Keccak-p[width, rounds] on a buffer. *)
From S2P Require Import Prelude Words PermApi Sneik.
Open Scope nat_scope.

Module Pi.

Inductive Kind : Type := Keccak800 | Keccak1600 | Keccak1600R12 | SneikF512.

#[export] Instance Kind_eq_dec : EqDecision Kind.
Proof. solve_decision. Defined.

Definition name (kind : Kind) : string :=
  match kind with
  | Keccak800 => "keccak800"
  | Keccak1600 => "keccak1600"
  | Keccak1600R12 => "keccak1600-12"
  | SneikF512 => "sneik-f512"
  end.

Definition parseKind (text : string) : Res Kind :=
  let eqs s := String.eqb text s in
  if eqs "keccak800" || eqs "k800" then mret Keccak800 else
  if eqs "keccak1600" || eqs "k1600" then mret Keccak1600 else
  if eqs "keccak1600-12" || eqs "keccak-p1600-12" || eqs "k1600-12" || eqs "k1600r12"
  then mret Keccak1600R12 else
  if eqs "sneik" || eqs "sneik512" || eqs "sneik-f512" || eqs "f512" then mret SneikF512 else
  Throw (InvalidArgument (String.append "unknown pi permutation: " text)).

(** A [pi::Perm] object. *)
Record SmallPerm : Type := mkSmallPerm {
  sp_kind : Kind;
  sp_bits : nat;
  sp_rounds : nat;
  sp_apply : list Z → Res (list Z);
  sp_invert : list Z → Res (list Z);
}.

Definition sp_bytes (p : SmallPerm) : nat := sp_bits p / 8.
Definition sp_label (p : SmallPerm) : string := name (sp_kind p).

Section Adapters.
Context (keccak keccak_inv : nat → nat → list Z → list Z).

Definition nominalRounds (width : nat) : Res nat :=
  if width =? 800 then mret 22 else
  if width =? 1600 then mret 24 else
  Throw (InvalidArgument "unknown Keccak width").

(** [inst()]: the shared permutation object of a width and round count. *)
Definition inst (width_ rounds_ : nat) : nat * nat :=
  if width_ =? 800 then (800, 22) else
  if rounds_ =? 12 then (1600, 12) else (1600, 24).

(** The constructor of [Keccak] and the object it makes. *)
Definition Keccak (widthBits rounds : nat) : Res SmallPerm :=
  rounds_ ← (if rounds =? 0 then nominalRounds widthBits else mret rounds);
  throw_if (negb (widthBits =? 800) && negb (widthBits =? 1600))
    (InvalidArgument "Keccak adapter supports 800 or 1600 bits") ;;
  nominal ← nominalRounds widthBits;
  throw_if ((rounds_ =? 0) || (nominal <? rounds_)) (InvalidArgument "Keccak round count is invalid") ;;
  let check (buf : list Z) :=
    throw_if (negb (length buf =? widthBits / 8)) (InvalidArgument "Keccak buffer size mismatch") in
  let '(w, r) := inst widthBits rounds_ in
  mret {|
    sp_kind := if (widthBits =? 1600) && (rounds_ =? 12) then Keccak1600R12
               else if widthBits =? 800 then Keccak800 else Keccak1600;
    sp_bits := widthBits;
    sp_rounds := rounds_;
    sp_apply buf := check buf ;; mret (keccak w r buf);
    sp_invert buf := check buf ;; mret (keccak_inv w r buf);
  |}.

Definition SneikPerm : SmallPerm :=
  let check (buf : list Z) :=
    throw_if (negb (length buf =? Sneik.WidthBytes)) (InvalidArgument "SNEIK-f512 buffer size mismatch") in
  {|
    sp_kind := SneikF512;
    sp_bits := Sneik.WidthBits;
    sp_rounds := Sneik.Rounds;
    sp_apply buf := check buf ;; mret (Sneik.sneik_f512 buf Sneik.Domain Sneik.Rounds);
    sp_invert buf := check buf ;; Sneik.invert buf Sneik.Domain Sneik.Rounds;
  |}.

Definition makePerm (kind : Kind) : Res SmallPerm :=
  match kind with
  | Keccak800 => Keccak 800 0
  | Keccak1600 => Keccak 1600 0
  | Keccak1600R12 => Keccak 1600 12
  | SneikF512 => mret SneikPerm
  end.

(** * Parameters (params.h) *)

Record Params : Type := mkParams {
  kind : Kind;
  n : nat;
  N : nat;
  s : nat;
  lambda : nat;
}.

Definition widthOf (kind : Kind) : nat :=
  match kind with
  | Keccak800 => 800
  | Keccak1600 | Keccak1600R12 => 1600
  | SneikF512 => 512
  end.

Definition bestStep (n N lambda : nat) : Res nat :=
  throw_if (N <=? n) (InvalidArgument "Pi needs N > n") ;;
  let gap := N - n in
  let minGap := 2 * lambda in
  let best := for_ 1 (n + 1) (fun s best =>
    if negb (gap mod s =? 0) then best else
    if (minGap <=? s) && (minGap <=? n - s) then s else best) 0 in
  throw_if (best =? 0) (InvalidArgument "no valid Pi step for this small permutation") ;;
  mret best.

Definition defaults (kind : Kind) (N lambda : nat) : Res Params :=
  step ← bestStep (widthOf kind) N lambda;
  mret (mkParams kind (widthOf kind) N step lambda).

End Adapters.

(** * Laws *)

(** What Construction-Pi needs of a small permutation. *)
Class SmallLaws (p : SmallPerm) : Prop := {
  apply_ok buf : buf_ok (sp_bytes p) buf →
    ∃ c, sp_apply p buf = Ok c ∧ buf_ok (sp_bytes p) c ∧ sp_invert p c = Ok buf;
  invert_ok buf : buf_ok (sp_bytes p) buf →
    ∃ c, sp_invert p buf = Ok c ∧ buf_ok (sp_bytes p) c ∧ sp_apply p c = Ok buf;
}.

Lemma sneik_check (buf : list Z) : length buf = 64 →
  throw_if (negb (length buf =? Sneik.WidthBytes)) (InvalidArgument "SNEIK-f512 buffer size mismatch") = Ok tt.
Proof. by intros ->. Qed.

#[export] Instance sneik_laws : SmallLaws SneikPerm.
Proof.
  split; intros buf Hbuf; change (buf_ok 64 buf) in Hbuf; change (sp_bytes SneikPerm) with 64;
    cbn [SneikPerm sp_apply sp_invert];
    destruct (Sneik.undo_both buf Sneik.Domain Sneik.Rounds ltac:(apply in_word_0; lia) Hbuf)
      as (H1 & H2 & s & H3 & H4 & H5).
  - exists (Sneik.sneik_f512 buf Sneik.Domain Sneik.Rounds).
    rewrite (sneik_check buf (proj1 Hbuf)), (sneik_check _ (proj1 H1)). cbn [mbind Res_bind].
    exact (conj eq_refl (conj H1 H2)).
  - exists s. rewrite (sneik_check buf (proj1 Hbuf)), (sneik_check _ (proj1 H4)). cbn [mbind Res_bind].
    rewrite H5. exact (conj H3 (conj H4 eq_refl)).
Qed.

(** The objects that [inst] makes. *)
Definition keccak_objects : list (nat * nat) := [(800, 22); (1600, 12); (1600, 24)].

(** What the adapters need of Keccak-p: the two directions are inverse on buffers.  It is proved of
    the code of KeccakTools in [Keccak]. *)
Definition keccak_laws (keccak keccak_inv : nat → nat → list Z → list Z) : Prop :=
  ∀ w r buf, In (w, r) keccak_objects → buf_ok (w / 8) buf →
    buf_ok (w / 8) (keccak w r buf) ∧ keccak_inv w r (keccak w r buf) = buf ∧
    buf_ok (w / 8) (keccak_inv w r buf) ∧ keccak w r (keccak_inv w r buf) = buf.

Lemma keccak_small keccak keccak_inv kd width rd w r : keccak_laws keccak keccak_inv →
  In (w, r) keccak_objects → w = width →
  SmallLaws {|
    sp_kind := kd; sp_bits := width; sp_rounds := rd;
    sp_apply buf := throw_if (negb (length buf =? width / 8)) (InvalidArgument "Keccak buffer size mismatch") ;;
                    mret (keccak w r buf);
    sp_invert buf := throw_if (negb (length buf =? width / 8)) (InvalidArgument "Keccak buffer size mismatch") ;;
                     mret (keccak_inv w r buf) |}.
Proof.
  intros Hk Hin ->. split; intros buf Hbuf; unfold sp_bytes in *; cbn [sp_bits sp_apply sp_invert] in *;
    destruct (Hk width r buf Hin Hbuf) as (H1 & H2 & H3 & H4).
  - exists (keccak width r buf). rewrite (proj1 Hbuf), (proj1 H1), Nat.eqb_refl.
    cbn [negb throw_if mbind Res_bind]. by rewrite H2.
  - exists (keccak_inv width r buf). rewrite (proj1 Hbuf), (proj1 H3), Nat.eqb_refl.
    cbn [negb throw_if mbind Res_bind]. by rewrite H4.
Qed.

(** Every kind has an adapter, of the width [widthOf] tells, whose directions are inverse. *)
Lemma makePerm_laws keccak keccak_inv kind : keccak_laws keccak keccak_inv →
  ∃ p, makePerm keccak keccak_inv kind = Ok p ∧ SmallLaws p ∧ sp_bits p = widthOf kind ∧ sp_kind p = kind.
Proof.
  intros Hk. destruct kind.
  - eexists. split; [reflexivity|]. split; [apply keccak_small; [done|cbn; auto|done]|done].
  - eexists. split; [reflexivity|]. split; [apply keccak_small; [done|cbn; auto|done]|done].
  - eexists. split; [reflexivity|]. split; [apply keccak_small; [done|cbn; auto|done]|done].
  - exists SneikPerm. split; [reflexivity|]. split; [apply sneik_laws|done].
Qed.

End Pi.
