(* ===== verification/Keccak.v ===== *)
(** [src/thirdparty/KeccakTools/Sources/Keccak-f.h] and [Keccak-f.cpp]: the Keccak-f and Keccak-p
    permutations and their inverses, which Construction-Pi uses through the adapter of small.h
    ([Small.Pi]).  The state is a list of 25 lanes, the object a record of the fields that the
    constructor computes.  The two directions are inverse for the widths whose lanes are whole
    bytes in the code (400, 800 and 1600 bits), which discharges [Pi.keccak_laws].  The inverse of
    theta, which the code computes from five constants, is proved from linearity and invariance under
    translation along the lanes. *)
From Stdlib Require Import Btauto.
From S2P Require Import Prelude Words PermApi BitBuf Sneik Small.
Open Scope nat_scope.

Module Keccak.

(** * The object *)

Record KeccakF : Type := mkKeccakF {
  width : nat;
  laneSize : Z;
  nominalNrRounds : Z;
  startRoundIndex : Z;
  nrRounds : Z;
  rhoOffsets : list Z;
  roundConstants : list Z;
  mask : Z;
}.

(** [index(x, y)] and [index(x)]: the C remainder of an [int], corrected when it is negative. *)
Definition mod5 (x : Z) : Z := let x := Z.rem x 5 in if (x <? 0)%Z then (x + 5)%Z else x.
Definition index (x y : Z) : nat := Z.to_nat (mod5 x + 5 * mod5 y).
Definition index1 (x : Z) : nat := Z.to_nat (mod5 x).

Definition initializeNominalNumberOfRounds (width : nat) : Res Z :=
  if width =? 25 then mret 12%Z else
  if width =? 50 then mret 14%Z else
  if width =? 100 then mret 16%Z else
  if width =? 200 then mret 18%Z else
  if width =? 400 then mret 20%Z else
  if width =? 800 then mret 22%Z else
  if width =? 1600 then mret 24%Z else
  Throw (RuntimeError "The width must be 25 times a power of two between 1 and 64.").

Definition LFSR86540 (state : Z) : bool * Z :=
  let result := negb (Z.land state 0x01 =? 0)%Z in
  if negb (Z.land state 0x80 =? 0)%Z then (result, Z.lxor (u8 (Z.shiftl state 1)) 0x71)
  else (result, u8 (Z.shiftl state 1)).

Definition initializeRoundConstants (mask : Z) : list Z :=
  snd (for_ 0 255 (fun i '(LFSRstate, roundConstants) =>
    let '(LFSRstate, c) := for_ 0 7 (fun j '(LFSRstate, c) =>
      let bitPosition := (Z.shiftl 1 (Z.of_nat j) - 1)%Z in
      let '(bit, LFSRstate) := LFSR86540 LFSRstate in
      (LFSRstate, if bit : bool then Z.lxor c (u64 (Z.shiftl 1 bitPosition)) else c)) (LFSRstate, 0%Z) in
    (LFSRstate, roundConstants ++ [Z.land c mask])) (0x01%Z, [])).

Definition initializeRhoOffsets (laneSize : Z) : list Z :=
  let rhoOffsets := <[index 0 0 := 0%Z]> (replicate 25 0%Z) in
  let '(_, _, rhoOffsets) := for_ 0 24 (fun t '(x, y, rhoOffsets) =>
    let t := Z.of_nat t in
    let rhoOffsets := <[index x y := (((t + 1) * (t + 2) / 2) mod laneSize)%Z]> rhoOffsets in
    let newX := ((0 * x + 1 * y) mod 5)%Z in
    let newY := ((2 * x + 3 * y) mod 5)%Z in
    (newX, newY, rhoOffsets)) (1%Z, 0%Z, rhoOffsets) in
  rhoOffsets.

(** [KeccakF(aWidth, aStartRoundIndex, aNrRounds)]. *)
Definition KeccakF_rounds (aWidth : nat) (aStartRoundIndex aNrRounds : Z) : Res KeccakF :=
  nominal ← initializeNominalNumberOfRounds aWidth;
  let laneSize := Z.of_nat (aWidth / 25) in
  let mask := Z.shiftr (2 ^ 64 - 1) (64 - laneSize) in
  mret (mkKeccakF aWidth laneSize nominal aStartRoundIndex aNrRounds (initializeRhoOffsets laneSize)
    (initializeRoundConstants mask) mask).

(** [KeccakF(aWidth)]. *)
Definition KeccakF_of (aWidth : nat) : Res KeccakF :=
  nominal ← initializeNominalNumberOfRounds aWidth;
  KeccakF_rounds aWidth 0 nominal.

(** [KeccakP(aWidth, aNrRounds)]: the last rounds. *)
Definition KeccakP (aWidth : nat) (aNrRounds : Z) : Res KeccakF :=
  k ← KeccakF_rounds aWidth 0 aNrRounds;
  mret (mkKeccakF (width k) (laneSize k) (nominalNrRounds k) (nominalNrRounds k - nrRounds k) (nrRounds k)
    (rhoOffsets k) (roundConstants k) (mask k)).

(** * The steps of a round, on the vector [A] of 25 lanes *)

Section steps.
Context (k : KeccakF).

Definition ROL (L offset : Z) : Z :=
  let offset := Z.rem offset (laneSize k) in
  let offset := if (offset <? 0)%Z then (offset + laneSize k)%Z else offset in
  let L := if negb (offset =? 0)%Z then
      let L := Z.land L (mask k) in
      Z.lxor (u64 (Z.shiftl L offset)) (Z.shiftr L (laneSize k - offset))
    else L in
  Z.land L (mask k).

Local Notation "# x" := (Z.of_nat x) (at level 5).

Definition chi (A : list Z) : list Z :=
  snd (for_ 0 5 (fun y '(C, A) =>
    let C := for_ 0 5 (fun x C =>
      <[x := Z.lxor A.[index #x #y] (Z.land (wnot 64 A.[index (#x + 1) #y]) A.[index (#x + 2) #y])]> C) C in
    let A := for_ 0 5 (fun x A => <[index #x #y := C.[index1 #x]]> A) A in
    (C, A)) (replicate 5 0%Z, A)).

Definition inverseChi (A : list Z) : list Z :=
  for_ 0 5 (fun y A =>
    let length := 5 in
    let C := for_ 0 length (fun x C => <[index1 #x := A.[index #x #y]]> C) (replicate 5 0%Z) in
    for_ 0 (3 * (length - 1) / 2) (fun x A =>
      let X := #((length - 2) * x) in
      <[index X #y := Z.lxor C.[index1 X] (Z.land A.[index (X + 2) #y] (wnot 64 C.[index1 (X + 1)]))]> A) A) A.

(** The column parities, as [theta] and [inverseTheta] compute them. *)
Definition parity (A : list Z) : list Z :=
  for_ 0 5 (fun x C =>
    let C := <[x := A.[index #x 0]]> C in
    for_ 1 5 (fun y C => <[x := Z.lxor C.[x] A.[index #x #y]]> C) C) (replicate 5 0%Z).

Definition theta (A : list Z) : list Z :=
  let C := parity A in
  let D := for_ 0 5 (fun x D =>
    let temp := ROL C.[index1 (#x + 1)] 1 in
    <[x := Z.lxor temp C.[index1 (#x - 1)]]> D) (replicate 5 0%Z) in
  for_ 0 5 (fun x A => for_ 0 5 (fun y A =>
    <[index #x #y := Z.lxor A.[index #x #y] D.[x]]> A) A) A.

Definition inversePositions64 : list Z :=
  [0xDE26BC4D789AF134; 0x09AF135E26BC4D78; 0xEBC4D789AF135E26; 0x7135E26BC4D789AF; 0xCD789AF135E26BC4]%Z.

(** The positions folded to the lane size. *)
Definition inversePositions (laneSize : Z) : list Z :=
  for_ 0 (Z.to_nat (64 / laneSize)) (fun i ip =>
    let z := (#i * laneSize)%Z in
    for_ 0 5 (fun x ip => <[x := Z.lxor ip.[x] (Z.shiftr inversePositions64.[x] z)]> ip) ip) (replicate 5 0%Z).

Definition inverseTheta (A : list Z) : list Z :=
  let C := parity A in
  let '(A, _, _) := for_ 0 (Z.to_nat (laneSize k)) (fun z '(A, C, ip) =>
    let A := for_ 0 5 (fun xOff A => for_ 0 5 (fun x A => for_ 0 5 (fun y A =>
      if negb (Z.land ip.[xOff] 1 =? 0)%Z then <[index #x #y := Z.lxor A.[index #x #y] C.[index1 (#x - #xOff)]]> A
      else A) A) A) A in
    let '(C, ip) := for_ 0 5 (fun xOff '(C, ip) =>
      (<[xOff := ROL C.[xOff] 1]> C, <[xOff := Z.shiftr ip.[xOff] 1]> ip)) (C, ip) in
    (A, C, ip)) (A, C, inversePositions (laneSize k)) in
  A.

(** The coordinate transformations. *)
Definition pi_xy (x y : Z) : Z * Z := (((0 * x + 1 * y) mod 5)%Z, ((2 * x + 3 * y) mod 5)%Z).
Definition inversePi_xy (X Y : Z) : Z * Z := (((1 * X + 3 * Y) mod 5)%Z, ((1 * X + 0 * Y) mod 5)%Z).

Definition pi (A : list Z) : list Z :=
  let a := A in
  for_ 0 5 (fun x A => for_ 0 5 (fun y A =>
    let '(X, Y) := pi_xy #x #y in <[index X Y := a.[index #x #y]]> A) A) A.

Definition inversePi (A : list Z) : list Z :=
  let a := A in
  for_ 0 5 (fun X A => for_ 0 5 (fun Y A =>
    let '(x, y) := inversePi_xy #X #Y in <[index x y := a.[index #X #Y]]> A) A) A.

Definition rho (A : list Z) : list Z :=
  for_ 0 5 (fun x A => for_ 0 5 (fun y A =>
    <[index #x #y := ROL A.[index #x #y] (rhoOffsets k).[index #x #y]]> A) A) A.

Definition inverseRho (A : list Z) : list Z :=
  for_ 0 5 (fun x A => for_ 0 5 (fun y A =>
    <[index #x #y := ROL A.[index #x #y] (- (rhoOffsets k).[index #x #y])]> A) A) A.

Definition iota (A : list Z) (roundIndex : Z) : list Z :=
  let ir := Z.rem (Z.rem roundIndex 255 + 255) 255 in
  <[index 0 0 := Z.lxor A.[index 0 0] (roundConstants k).[Z.to_nat ir]]> A.

Definition round (state : list Z) (roundIndex : Z) : list Z :=
  iota (chi (pi (rho (theta state)))) roundIndex.

Definition inverseRound (state : list Z) (roundIndex : Z) : list Z :=
  inverseTheta (inverseRho (inversePi (inverseChi (iota state roundIndex)))).

(** * The permutation on lanes and on bytes *)

(** The value of a [u32] as an [int]. *)
Definition int32 (x : Z) : Z := let x := u32 x in if (x <? 2 ^ 31)%Z then x else (x - 2 ^ 32)%Z.

(** The loop counter is [unsigned]: it runs from [startRoundIndex] to [startRoundIndex + nrRounds],
    both modulo 2^32. *)
Definition forward (state : list Z) : list Z :=
  let lo := u32 (startRoundIndex k) in
  let hi := u32 (startRoundIndex k + nrRounds k) in
  for_ 0 (Z.to_nat (hi - lo)) (fun i state => round state (int32 (lo + #i))) state.

(** The loop counter is an [int]: it runs down to [startRoundIndex]. *)
Definition inverse (state : list Z) : list Z :=
  let last := int32 (startRoundIndex k + nrRounds k - 1) in
  for_ 0 (Z.to_nat (last - startRoundIndex k + 1)) (fun i state => inverseRound state (last - #i)) state.

Definition fromBytesToLanes (inp : list Z) : list Z :=
  let w := Z.to_nat (laneSize k) in
  if (w =? 1) || (w =? 2) || (w =? 4) || (w =? 8) then
    for_ 0 25 (fun i out =>
      <[i := Z.land (Z.shiftr inp.[i * w / 8] #(i * w mod 8)) (mask k)]> out) (replicate 25 0%Z)
  else if (w =? 16) || (w =? 32) || (w =? 64) then
    for_ 0 25 (fun i out =>
      for_ 0 (w / 8) (fun j out =>
        <[i := Z.lor out.[i] (u64 (Z.shiftl (u8 inp.[i * w / 8 + j]) #(8 * j)))]> out) (<[i := 0%Z]> out)) (replicate 25 0%Z)
  else replicate 25 0%Z.

(** The bytes of [out] after the [25 * laneSize] bits keep their values. *)
Definition fromLanesToBytes (inp out : list Z) : list Z :=
  let w := Z.to_nat (laneSize k) in
  if (w =? 1) || (w =? 2) || (w =? 4) || (w =? 8) then
    let out := for_ 0 ((25 * w + 7) / 8) (fun i out => <[i := 0%Z]> out) out in
    for_ 0 25 (fun i out => <[i * w / 8 := u8 (Z.lor out.[i * w / 8] (Z.shiftl inp.[i] #(i * w mod 8)))]> out) out
  else if (w =? 16) || (w =? 32) || (w =? 64) then
    for_ 0 25 (fun i out => for_ 0 (w / 8) (fun j out =>
      <[i * (w / 8) + j := Z.land (Z.shiftr inp.[i] #(8 * j)) 0xFF]> out) out) out
  else out.

(** [operator()] and [inverse] on a buffer. *)
Definition apply (state : list Z) : list Z := fromLanesToBytes (forward (fromBytesToLanes state)) state.
Definition applyInverse (state : list Z) : list Z := fromLanesToBytes (inverse (fromBytesToLanes state)) state.

(** [KeccakPStar]: pi before and after, on the lanes. *)
Definition applyStar (state : list Z) : list Z :=
  fromLanesToBytes (pi (forward (inversePi (fromBytesToLanes state)))) state.
Definition applyStarInverse (state : list Z) : list Z :=
  fromLanesToBytes (pi (inverse (inversePi (fromBytesToLanes state)))) state.

End steps.

(** * The steps as functions of the lane number *)

(** Splits a list of known length into its elements. *)
Ltac explode A H := lazymatch type of H with
  | length _ = 0 => destruct A; [clear H|discriminate H]
  | _ => destruct A as [|?a A]; [discriminate H|cbn [length] in H; apply eq_add_S in H; explode A H]
  end.

(** Lane [(x + d) mod 5] of the row of lane [i]. *)
Definition row_lane (i d : nat) : nat := i / 5 * 5 + (i mod 5 + d) mod 5.

Lemma chi_spec A : length A = 25 → chi A =
  map (fun i => Z.lxor A.[i] (Z.land (wnot 64 A.[row_lane i 1]) A.[row_lane i 2])) (seq 0 25).
Proof. intros H. explode A H. cbv -[Z.lxor Z.land wnot]. reflexivity. Qed.

(** An equation between bitwise terms, at every bit. *)
Ltac chi_bits :=
  apply Z.bits_inj'; intros ?i ?Hi; unfold wnot; rewrite ?Z.lxor_spec, ?Z.land_spec, ?wrap_testbit, ?Z.lnot_spec,
    ?Z.lxor_spec, ?Z.land_spec by lia;
  repeat (rewrite ?wrap_testbit, ?Z.lnot_spec, ?Z.lxor_spec, ?Z.land_spec by lia);
  match goal with |- context [(?i <? 64)%Z] => destruct (i <? 64)%Z end; btauto.

Lemma inverseChi_chi A : length A = 25 → inverseChi (chi A) = A.
Proof.
  intros H. rewrite chi_spec by done. explode A H. cbv -[Z.lxor Z.land wnot].
  repeat (apply f_equal2; [chi_bits|]). reflexivity.
Qed.

Lemma chi_inverseChi A : length A = 25 → chi (inverseChi A) = A.
Proof.
  intros H. rewrite chi_spec by by explode A H. explode A H. cbv -[Z.lxor Z.land wnot].
  repeat (apply f_equal2; [chi_bits|]). reflexivity.
Qed.

Lemma inversePi_pi A : length A = 25 → inversePi (pi A) = A ∧ pi (inversePi A) = A.
Proof. intros H. explode A H. split; reflexivity. Qed.

Lemma rho_spec k A : length A = 25 → rho k A = map (fun i => ROL k A.[i] (rhoOffsets k).[i]) (seq 0 25).
Proof.
  intros H. unfold rho. generalize (ROL k), (rhoOffsets k). intros f r. explode A H.
  cbv. reflexivity.
Qed.

Lemma inverseRho_spec k A : length A = 25 →
  inverseRho k A = map (fun i => ROL k A.[i] (- (rhoOffsets k).[i])) (seq 0 25).
Proof.
  intros H. unfold inverseRho. generalize (ROL k), (rhoOffsets k). intros f r. explode A H.
  cbv -[Z.opp]. reflexivity.
Qed.

(** ** Planes: one lane for every column of the state *)

(** [g.[x]] added to every lane of column [x]. *)
Definition addp (A g : list Z) : list Z := map (fun i => Z.lxor A.[i] g.[i mod 5]) (seq 0 25).

Lemma parity_spec A : length A = 25 → parity A = map (fun x =>
  Z.lxor (Z.lxor (Z.lxor (Z.lxor A.[x] A.[x + 5]) A.[x + 10]) A.[x + 15]) A.[x + 20]) (seq 0 5).
Proof. intros H. explode A H. cbv -[Z.lxor]. reflexivity. Qed.

Lemma parity_addp A g : length A = 25 → length g = 5 → parity (addp A g) = xorv (parity A) g.
Proof.
  intros H Hg. rewrite !parity_spec by done. explode A H. explode g Hg. cbv -[Z.lxor].
  repeat (apply f_equal2; [apply Z.bits_inj'; intros ?i ?Hi; rewrite !Z.lxor_spec; btauto|]). reflexivity.
Qed.

Lemma addp_addp A g h : length g = 5 → length h = 5 → addp (addp A g) h = addp A (xorv g h).
Proof.
  intros Hg Hh. apply map_ext_in. intros i Hi%in_seq. unfold addp. rewrite nth_map_seq by lia.
  rewrite xorv_nth by congruence. by rewrite Z.lxor_assoc.
Qed.

Lemma addp_0 A : length A = 25 → addp A (replicate 5 0%Z) = A.
Proof. intros H. explode A H. cbv -[Z.lxor]. by rewrite !Z.lxor_0_r. Qed.

(** ** Rotation of a lane *)

(** The lane size is at most 64 and the mask covers it. *)
Definition lanes_wf (k : KeccakF) : Prop := (0 < laneSize k ≤ 64)%Z ∧ mask k = (2 ^ laneSize k - 1)%Z.

Lemma ROL_rotw k L o : lanes_wf k → in_word (laneSize k) L → ROL k L o = rotw (laneSize k) L ((- o) mod laneSize k).
Proof.
  intros [Hw Hm] HL. unfold ROL. rewrite Hm. set (w := laneSize k) in *. clearbody w.
  assert (E : (if Z.rem o w <? 0 then Z.rem o w + w else Z.rem o w)%Z = (o mod w)%Z).
  { pose proof (Z.rem_bound_abs o w ltac:(lia)). pose proof (Z.quot_rem' o w) as Q.
    destruct (Z.ltb_spec (Z.rem o w) 0).
    - apply (Z.mod_unique _ _ (o ÷ w - 1)); lia.
    - apply (Z.mod_unique _ _ (o ÷ w)); lia. }
  rewrite E. clear E. pose proof (Z.mod_pos_bound o w ltac:(lia)) as Ho.
  assert (M : ∀ x, Z.land x (2 ^ w - 1) = wrap w x).
  { intros x. rewrite Z.sub_1_r, <- Z.ones_equiv. apply Z.land_ones. lia. }
  rewrite !M, (wrap_small w L) by done. destruct (Z.eqb_spec (o mod w) 0) as [E|E]; cbn [negb].
  - rewrite wrap_small, Z_mod_zero_opp_full, rotw_0 by done. done.
  - rewrite Z_mod_nz_opp_full by done. unfold rotw. replace (w - (w - o mod w))%Z with (o mod w)%Z by lia.
    bitwise. destruct (Z.ltb_spec i w); cbn [andb].
    + replace (i <? 64)%Z with true by (symmetry; apply Z.ltb_lt; lia). cbn [andb].
      destruct (Z.lt_ge_cases i (o mod w)).
      * by rewrite (Z.testbit_neg_r L (i - _)), xorb_false_l, orb_false_r by lia.
      * by rewrite (testbit_high w L (i + _)), xorb_false_r by (done || lia).
    + by rewrite (testbit_high w L (i + _)) by (done || lia).
Qed.

Lemma ROL_word k L o : lanes_wf k → in_word (laneSize k) L → in_word (laneSize k) (ROL k L o).
Proof.
  intros H HL. rewrite ROL_rotw by done. pose proof (proj1 H).
  pose proof (Z.mod_pos_bound (- o) (laneSize k) ltac:(lia)). apply rotw_word; [lia|lia|done].
Qed.

Lemma ROL_back k L o : lanes_wf k → in_word (laneSize k) L → ROL k (ROL k L o) (- o) = L.
Proof.
  intros H HL. pose proof (proj1 H). rewrite (ROL_rotw k (ROL k L o)) by (done || by apply ROL_word).
  rewrite ROL_rotw by done. rewrite rotw_rotw by (done || (apply Z.mod_pos_bound; lia)).
  rewrite <- Zplus_mod. replace (- o + - - o)%Z with 0%Z by lia. rewrite Z.mod_0_l by lia. by apply rotw_0.
Qed.

(** One step to the left, on lanes of [w] bits. *)
Definition rol1 (w : Z) (L : Z) : Z := rotw w L ((- 1) mod w).

Section planes.
Context (w : Z) (Hw : (0 < w)%Z).

Definition plane_ok (C : list Z) : Prop := length C = 5 ∧ Forall (in_word w) C.
Definition zeros : list Z := replicate 5 0%Z.

Lemma m1_range : (0 ≤ (- 1) mod w < w)%Z.
Proof. apply Z.mod_pos_bound. lia. Qed.

Lemma rol1_word L : in_word w L → in_word w (rol1 w L).
Proof. pose proof m1_range. intros. apply rotw_word; [lia|lia|done]. Qed.

Lemma rol1_xor a b : in_word w a → in_word w b → rol1 w (Z.lxor a b) = Z.lxor (rol1 w a) (rol1 w b).
Proof. intros. apply rotw_xor; [apply m1_range|done|done]. Qed.

Lemma rol1_0 : rol1 w 0 = 0%Z.
Proof. unfold rol1, rotw. by rewrite Z.shiftr_0_l, Z.shiftl_0_l. Qed.

Lemma rol1_pow n : (0 ≤ n)%Z → (n + 1 < w)%Z → rol1 w (2 ^ n) = (2 ^ (n + 1))%Z.
Proof.
  intros Hn Hlt. pose proof m1_range. assert (P : ∀ m, (0 ≤ m < w)%Z → in_word w (2 ^ m)).
  { intros m Hm. split; [lia|]. apply Z.pow_lt_mono_r; lia. }
  apply (word_ext w); [lia|apply rol1_word, P; lia|apply P; lia|]. intros i Hi. unfold rol1.
  rewrite rotw_bit by (done || apply P; lia). rewrite !pow2_testbit by lia. rewrite Zplus_mod_idemp_r.
  destruct (Z.eqb_spec i (n + 1)) as [->|Hne].
  - rewrite Z.mod_small by lia. apply Z.eqb_eq. lia.
  - apply Z.eqb_neq. destruct (Z.eq_dec i 0%Z) as [->|Hi0].
    + rewrite <- (Z.mod_unique (0 + -1) w (-1) (w - 1))%Z by lia. lia.
    + rewrite Z.mod_small by lia. lia.
Qed.

(** Rotation of a plane. *)
Definition rolp (C : list Z) : list Z := map (rol1 w) C.

Lemma plane_xor C C' : plane_ok C → plane_ok C' → plane_ok (xorv C C').
Proof.
  intros [H1 H2] [H1' H2']. split; [by rewrite xorv_length; congruence|]. by apply xorv_ok; [lia|..].
Qed.

Lemma rolp_ok C : plane_ok C → plane_ok (rolp C).
Proof.
  intros [Hl HC]. split; [unfold rolp; by rewrite length_map|]. apply Forall_fmap.
  eapply Forall_impl; [exact HC|]. intros L HL. by apply rol1_word.
Qed.

Lemma zeros_ok : plane_ok zeros.
Proof. split; [done|]. apply Forall_replicate, in_word_0. lia. Qed.

Lemma rolp_xor C C' : plane_ok C → plane_ok C' → rolp (xorv C C') = xorv (rolp C) (rolp C').
Proof.
  intros [H1 H2] [H1' H2']. apply list_eq_nth.
  { unfold rolp. rewrite length_map, !xorv_length; rewrite ?length_map; congruence. }
  unfold rolp. rewrite length_map. intros i _. rewrite xorv_nth by (rewrite !length_map; congruence).
  rewrite <- rol1_0 at 1 2 3. rewrite !map_nth, xorv_nth by congruence.
  apply rol1_xor; by apply Forall_nth_Z; [|apply in_word_0; lia].
Qed.

Lemma rolp_0 : rolp zeros = zeros.
Proof. unfold rolp, zeros. cbn [replicate map]. by rewrite rol1_0. Qed.

(** The plane with lane [L] at [x] and nothing else. *)
Definition single (x : nat) (L : Z) : list Z := <[x := L]> zeros.

Lemma single_ok x L : in_word w L → plane_ok (single x L).
Proof.
  intros HL. split; [unfold single; by rewrite length_insert|]. apply Forall_insert_Z; [apply zeros_ok|done].
Qed.

Lemma single_xor x a b : x < 5 → single x (Z.lxor a b) = xorv (single x a) (single x b).
Proof.
  intros Hx. apply list_eq_nth; [unfold single; by rewrite xorv_length, !length_insert by (by rewrite !length_insert)|].
  intros i _. rewrite xorv_nth by (unfold single; by rewrite !length_insert). unfold single.
  rewrite !nth_insert. destruct (decide _); [done|]. unfold zeros. rewrite nth_replicate. by destruct (decide _).
Qed.

Lemma single_rol x L : rolp (single x L) = single x (rol1 w L).
Proof.
  unfold single. etransitivity; [apply (list_fmap_insert (rol1 w))|]. f_equal. apply rolp_0.
Qed.

(** A plane is the sum of its lanes. *)
Lemma plane_split C : length C = 5 → C = xorv (single 0 C.[0]) (xorv (single 1 C.[1]) (xorv (single 2 C.[2])
  (xorv (single 3 C.[3]) (single 4 C.[4])))).
Proof. intros H. explode C H. cbv -[Z.lxor]. by rewrite !Z.lxor_0_l, !Z.lxor_0_r. Qed.

(** What is linear on planes, commutes with the rotation, and is compared. *)
Record plane_map (F : list Z → list Z) : Prop := {
  pm_ok C : plane_ok C → plane_ok (F C);
  pm_xor C C' : plane_ok C → plane_ok C' → F (xorv C C') = xorv (F C) (F C');
  pm_rol C : plane_ok C → F (rolp C) = rolp (F C);
}.

Lemma plane_map_eq F G : (∀ C, F C = G C) → plane_map G → plane_map F.
Proof.
  intros E HG. split.
  - intros C HC. rewrite E. by apply HG.
  - intros C C' HC HC'. rewrite !E. by apply HG.
  - intros C HC. rewrite !E. by apply HG.
Qed.

Lemma single_agree F G x : plane_map F → plane_map G → x < 5 → F (single x 1) = G (single x 1) →
  ∀ L, in_word w L → F (single x L) = G (single x L).
Proof.
  intros HF HG Hx H1 L HL.
  assert (Pw : ∀ k : nat, (Z.of_nat k < w)%Z → in_word w (2 ^ Z.of_nat k)).
  { intros k Hk. split; [lia|]. apply Z.pow_lt_mono_r; lia. }
  assert (B : ∀ k : nat, (Z.of_nat k < w)%Z → F (single x (2 ^ Z.of_nat k)) = G (single x (2 ^ Z.of_nat k))).
  { induction k as [|k IH]; intros Hk; [done|]. rewrite Nat2Z.inj_succ, <- Z.add_1_r, <- rol1_pow, <- single_rol by lia.
    assert (P : plane_ok (single x (2 ^ Z.of_nat k))) by (apply single_ok, Pw; lia).
    rewrite (pm_rol F HF _ P), (pm_rol G HG _ P), IH by lia. done. }
  assert (S : ∀ a, in_word w a → plane_ok (single x a)) by (intros; by apply single_ok).
  apply list_eq_nth; [rewrite (proj1 (pm_ok F HF _ (S L HL))), (proj1 (pm_ok G HG _ (S L HL))); done|].
  intros j _. assert (Lin : ∀ F, plane_map F → linear (Z.to_nat w) (fun L => (F (single x L)).[j])).
  { intros K HK a b Ha Hb. rewrite Z2Nat.id in Ha, Hb by lia.
    rewrite single_xor, (pm_xor K HK) by (done || by apply S). apply xorv_nth.
    rewrite (proj1 (pm_ok K HK _ (S a Ha))), (proj1 (pm_ok K HK _ (S b Hb))). done. }
  apply (linear_ext (Z.to_nat w) (fun L => (F (single x L)).[j]) (fun L => (G (single x L)).[j])).
  - by apply Lin.
  - by apply Lin.
  - intros k Hk. cbv beta. by rewrite B by lia.
  - by rewrite Z2Nat.id by lia.
Qed.

Lemma plane_ext F G : plane_map F → plane_map G → (∀ x, x < 5 → F (single x 1) = G (single x 1)) →
  ∀ C, plane_ok C → F C = G C.
Proof.
  intros HF HG H C [Hl HC]. assert (W : ∀ i, in_word w C.[i]) by (intros; apply Forall_nth_Z; [done|apply in_word_0; lia]).
  pose proof (fun x => single_ok x _ (W x)) as S. rewrite (plane_split C Hl).
  assert (E : ∀ x, x < 5 → F (single x C.[x]) = G (single x C.[x])) by (intros; apply single_agree; auto).
  pose proof plane_xor as X.
  rewrite !(pm_xor F HF), !(pm_xor G HG) by auto. by rewrite !E by lia.
Qed.

(** ** The planes that theta and its inverse add *)

Definition dplane (C : list Z) : list Z :=
  map (fun x => Z.lxor (rol1 w C.[(x + 1) mod 5]) C.[(x + 4) mod 5]) (seq 0 5).

Definition bit0 (p : Z) : bool := negb (Z.land p 1 =? 0)%Z.
Definition gterm (C : list Z) (xOff : nat) (b : bool) : list Z :=
  map (fun x => if b then C.[(x + 5 - xOff) mod 5] else 0%Z) (seq 0 5).
Definition gplane (C ip : list Z) : list Z :=
  for_ 0 5 (fun xOff g => xorv g (gterm C xOff (bit0 ip.[xOff]))) zeros.

Definition eloop (n : nat) (st : list Z * list Z * list Z) : list Z * list Z * list Z :=
  for_ 0 n (fun z '(E, C, ip) => (xorv E (gplane C ip), rolp C, map (fun p => Z.shiftr p 1) ip)) st.
Definition eplane (C : list Z) : list Z := fst (fst (eloop (Z.to_nat w) (zeros, C, inversePositions w))).

Lemma rolp_nth C i : (rolp C).[i] = rol1 w C.[i].
Proof. unfold rolp. rewrite <- rol1_0 at 1. apply map_nth. Qed.

Lemma plane_lane C i : plane_ok C → in_word w C.[i].
Proof. intros [_ HC]. apply Forall_nth_Z; [done|apply in_word_0; lia]. Qed.

(** A plane given lane by lane. *)
Lemma plane_of_map (f : nat → Z) : (∀ x, in_word w (f x)) → plane_ok (map f (seq 0 5)).
Proof. intros H. split; [done|]. apply Forall_of_nth. intros i Hi. by rewrite nth_map_seq. Qed.

Lemma plane_map_lanes (f : list Z → nat → Z) : (∀ C x, plane_ok C → in_word w (f C x)) →
  (∀ C C' x, plane_ok C → plane_ok C' → f (xorv C C') x = Z.lxor (f C x) (f C' x)) →
  (∀ C x, plane_ok C → f (rolp C) x = rol1 w (f C x)) → plane_map (fun C => map (f C) (seq 0 5)).
Proof.
  intros Hw' Hx Hr. split.
  - intros C HC. apply plane_of_map. auto.
  - intros C C' HC HC'. apply list_eq_nth; [by rewrite xorv_length, !length_map_seq by (by rewrite !length_map_seq)|].
    rewrite length_map_seq. intros i Hi. rewrite xorv_nth by (by rewrite !length_map_seq).
    rewrite !nth_map_seq by done. by apply Hx.
  - intros C HC. unfold rolp. rewrite map_map. apply map_ext. intros x. by apply Hr.
Qed.

Lemma dplane_map : plane_map dplane.
Proof.
  apply plane_map_lanes.
  - intros C x HC. apply in_word_lxor; [lia|apply rol1_word|]; by apply plane_lane.
  - intros C C' x HC HC'. rewrite !xorv_nth by (destruct HC, HC'; congruence).
    rewrite rol1_xor by by apply plane_lane. apply lxor4.
  - intros C x HC. rewrite !rolp_nth, rol1_xor; [done|apply rol1_word|]; by apply plane_lane.
Qed.

Lemma gterm_map xOff b : plane_map (fun C => gterm C xOff b).
Proof.
  apply plane_map_lanes; destruct b.
  - intros C x HC. by apply plane_lane.
  - intros. apply in_word_0. lia.
  - intros C C' x HC HC'. apply xorv_nth. destruct HC, HC'. congruence.
  - done.
  - intros. apply rolp_nth.
  - intros. symmetry. apply rol1_0.
Qed.

Lemma plane_map_add F G : plane_map F → plane_map G → plane_map (fun C => xorv (F C) (G C)).
Proof.
  intros HF HG. split.
  - intros C HC. apply plane_xor; [by apply HF|by apply HG].
  - intros C C' HC HC'. rewrite (pm_xor F HF), (pm_xor G HG) by done.
    rewrite !xorv_assoc. f_equal. rewrite <- !xorv_assoc. f_equal. apply xorv_comm.
  - intros C HC. rewrite (pm_rol F HF), (pm_rol G HG) by done. symmetry.
    apply rolp_xor; [by apply HF|by apply HG].
Qed.

Lemma plane_map_id : plane_map (fun C => C).
Proof. by split. Qed.

Lemma plane_map_zeros : plane_map (fun _ => zeros).
Proof. split; [intros; apply zeros_ok|done|intros; symmetry; apply rolp_0]. Qed.

Lemma plane_map_comp F G : plane_map F → plane_map G → plane_map (fun C => F (G C)).
Proof.
  intros HF HG. split.
  - intros C HC. by apply HF, HG.
  - intros C C' HC HC'. rewrite (pm_xor G HG) by done. apply HF; by apply HG.
  - intros C HC. rewrite (pm_rol G HG) by done. by apply HF, HG.
Qed.

Lemma rolp_map : plane_map rolp.
Proof. split; [apply rolp_ok|apply rolp_xor|done]. Qed.

Lemma gplane_map ip : plane_map (fun C => gplane C ip).
Proof.
  unfold gplane. generalize 5. intros n. induction n as [|n IH].
  - apply plane_map_zeros.
  - eapply plane_map_eq; [|exact (plane_map_add _ _ IH (gterm_map n (bit0 ip.[n])))].
    intros C. cbv beta. by rewrite for_snoc by lia.
Qed.

(** The loop turns the position list independently of the plane, and its other two parts are plane maps. *)
Lemma eloop_map n ip : plane_map (fun C => fst (fst (eloop n (zeros, C, ip)))) ∧
  plane_map (fun C => snd (fst (eloop n (zeros, C, ip)))) ∧
  ∃ ip', ∀ C, snd (eloop n (zeros, C, ip)) = ip'.
Proof.
  induction n as [|n (IHE & IHC & ip' & Hip)].
  - split; [apply plane_map_zeros|]. split; [apply plane_map_id|]. by exists ip.
  - assert (St : ∀ C, eloop (S n) (zeros, C, ip) = let s := eloop n (zeros, C, ip) in
      (xorv (fst (fst s)) (gplane (snd (fst s)) ip'), rolp (snd (fst s)), map (fun p => Z.shiftr p 1) ip')).
    { intros C. unfold eloop at 1. rewrite for_snoc by lia. fold (eloop n (zeros, C, ip)).
      rewrite <- (Hip C). by destruct (eloop n (zeros, C, ip)) as [[E' C'] ip1]. }
    split; [|split; [|exists (map (fun p => Z.shiftr p 1) ip'); intros C; by rewrite St]].
    + eapply plane_map_eq; [|exact (plane_map_add _ _ IHE (plane_map_comp _ _ (gplane_map ip') IHC))].
      intros C. cbv beta. by rewrite St.
    + eapply plane_map_eq; [|exact (plane_map_comp _ _ rolp_map IHC)]. intros C. cbv beta. by rewrite St.
Qed.

Lemma eplane_map : plane_map eplane.
Proof. apply eloop_map. Qed.

(** The two planes cancel, as soon as they do on the five unit planes. *)
Definition theta_check : bool := forallb (fun x => let u := single x 1 in
  bool_decide (eplane (xorv u (dplane u)) = dplane u) && bool_decide (dplane (xorv u (eplane u)) = eplane u)) (seq 0 5).

Lemma planes_cancel C : theta_check = true → plane_ok C →
  eplane (xorv C (dplane C)) = dplane C ∧ dplane (xorv C (eplane C)) = eplane C.
Proof.
  intros H HC. unfold theta_check in H. rewrite forallb_forall in H.
  assert (U : ∀ x, x < 5 → eplane (xorv (single x 1) (dplane (single x 1))) = dplane (single x 1) ∧
    dplane (xorv (single x 1) (eplane (single x 1))) = eplane (single x 1)).
  { intros x Hx. specialize (H x ltac:(apply in_seq; lia)). by rewrite andb_true_iff, !bool_decide_eq_true in H. }
  pose proof (plane_map_add _ _ plane_map_id dplane_map) as Md.
  pose proof (plane_map_add _ _ plane_map_id eplane_map) as Me. split.
  - apply (plane_ext (fun C => eplane (xorv C (dplane C))) dplane); try done.
    + exact (plane_map_comp _ _ eplane_map Md).
    + apply dplane_map.
    + intros x Hx. by apply U.
  - apply (plane_ext (fun C => dplane (xorv C (eplane C))) eplane); try done.
    + exact (plane_map_comp _ _ dplane_map Me).
    + apply eplane_map.
    + intros x Hx. by apply U.
Qed.

End planes.

(** ** The code adds these planes *)

Definition state_ok (k : KeccakF) (A : list Z) : Prop := length A = 25 ∧ Forall (in_word (laneSize k)) A.

Lemma lane_word k A i : lanes_wf k → state_ok k A → in_word (laneSize k) A.[i].
Proof. intros [Hw _] [_ HA]. apply Forall_nth_Z; [done|apply in_word_0; lia]. Qed.

Lemma state_of_map k (f : nat → Z) : (∀ i, in_word (laneSize k) (f i)) → state_ok k (map f (seq 0 25)).
Proof. intros H. split; [done|]. apply Forall_of_nth. intros i Hi. by rewrite nth_map_seq. Qed.

Lemma parity_ok k A : lanes_wf k → state_ok k A → plane_ok (laneSize k) (parity A).
Proof.
  intros Hk HA. rewrite parity_spec by apply HA. pose proof (fun i => lane_word k A i Hk HA) as W.
  pose proof (proj1 Hk). apply plane_of_map. intros x. by repeat (apply in_word_lxor; [lia| |done]).
Qed.

Lemma addp_ok k A g : lanes_wf k → state_ok k A → plane_ok (laneSize k) g → state_ok k (addp A g).
Proof.
  intros Hk HA Hg. pose proof (proj1 Hk). apply state_of_map. intros i.
  apply in_word_lxor; [lia|by apply lane_word|apply plane_lane; [lia|done]].
Qed.

(** [addp] as the code's loops, for a plane given by a function. *)
Lemma addp_loops A g : length A = 25 → length g = 5 →
  for_ 0 5 (fun x A => for_ 0 5 (fun y A =>
    <[index (Z.of_nat x) (Z.of_nat y) := Z.lxor A.[index (Z.of_nat x) (Z.of_nat y)] g.[x]]> A) A) A = addp A g.
Proof. intros HA Hg. explode A HA. explode g Hg. cbv -[Z.lxor]. reflexivity. Qed.

Lemma theta_addp k A : lanes_wf k → state_ok k A →
  theta k A = addp A (dplane (laneSize k) (parity A)).
Proof.
  intros Hk HA. pose proof (parity_ok k A Hk HA) as HC. unfold theta. generalize dependent (parity A). intros C HC.
  match goal with |- for_ 0 5 (fun x A1 => for_ 0 5 (fun y A2 => <[_ := Z.lxor _ ?D.[x]]> A2) A1) A = _ =>
    assert (E : D = dplane (laneSize k) C) end.
  { transitivity (map (fun x => Z.lxor (ROL k C.[(x + 1) mod 5] 1) C.[(x + 4) mod 5]) (seq 0 5)).
    - destruct HC as [Hl _]. generalize (ROL k). intros f. explode C Hl. cbv -[Z.lxor]. reflexivity.
    - unfold dplane. apply map_ext. intros x. f_equal. apply ROL_rotw; [done|].
      apply plane_lane; [apply Hk|done]. }
  rewrite E. apply addp_loops; [apply HA|done].
Qed.

(** One turn of the outer loop of [inverseTheta] adds [gplane] to the state. *)
Lemma gterm_loops A C xOff (b : bool) : length A = 25 → length C = 5 → xOff < 5 →
  for_ 0 5 (fun x A => for_ 0 5 (fun y A => if b
    then <[index (Z.of_nat x) (Z.of_nat y) :=
           Z.lxor A.[index (Z.of_nat x) (Z.of_nat y)] C.[index1 (Z.of_nat x - Z.of_nat xOff)]]> A
    else A) A) A = addp A (gterm C xOff b).
Proof.
  intros HA HC Hx. destruct b.
  - explode A HA. explode C HC. do 5 (destruct xOff as [|xOff]; [cbv -[Z.lxor]; reflexivity|]). lia.
  - unfold gterm. change (map (fun _ => 0%Z) (seq 0 5)) with (replicate 5 0%Z). by rewrite addp_0.
Qed.

Lemma gplane_loops A C ip : length A = 25 → length C = 5 →
  for_ 0 5 (fun xOff A => for_ 0 5 (fun x A => for_ 0 5 (fun y A =>
    if negb (Z.land ip.[xOff] 1 =? 0)%Z
    then <[index (Z.of_nat x) (Z.of_nat y) :=
           Z.lxor A.[index (Z.of_nat x) (Z.of_nat y)] C.[index1 (Z.of_nat x - Z.of_nat xOff)]]> A
    else A) A) A) A = addp A (gplane C ip).
Proof.
  intros HA HC. unfold gplane.
  assert (H : ∀ n, n ≤ 5 → let g := for_ 0 n (fun xOff g => xorv g (gterm C xOff (bit0 ip.[xOff]))) zeros in
    length g = 5 ∧ for_ 0 n (fun xOff A => for_ 0 5 (fun x A => for_ 0 5 (fun y A =>
    if negb (Z.land ip.[xOff] 1 =? 0)%Z
    then <[index (Z.of_nat x) (Z.of_nat y) :=
           Z.lxor A.[index (Z.of_nat x) (Z.of_nat y)] C.[index1 (Z.of_nat x - Z.of_nat xOff)]]> A
    else A) A) A) A = addp A g).
  { induction n as [|n IH]; intros Hn g.
    - subst g. rewrite !for_0. split; [done|]. by rewrite addp_0.
    - subst g. rewrite (for_snoc 0 n) by lia. rewrite (for_snoc 0 n) by lia. destruct IH as [Lg ->]; [lia|]. set (g := for_ 0 n _ zeros) in *.
      assert (Lt : length (gterm C n (bit0 ip.[n])) = 5) by (unfold gterm; by rewrite length_map_seq).
      split; [by rewrite xorv_length; congruence|].
      rewrite gterm_loops by (done || lia || (unfold addp; by rewrite length_map_seq)).
      exact (addp_addp A g _ Lg Lt). }
  by apply H.
Qed.

(** The positions and the parities move on. *)
Lemma rol_loop k C ip : lanes_wf k → plane_ok (laneSize k) C → length ip = 5 →
  for_ 0 5 (fun xOff '(C, ip) =>
    (<[xOff := ROL k C.[xOff] 1]> C, <[xOff := Z.shiftr ip.[xOff] 1]> ip)) (C, ip) =
  (rolp (laneSize k) C, map (fun p => Z.shiftr p 1) ip).
Proof.
  intros Hk HC Hip. transitivity (map (fun L => ROL k L 1) C, map (fun p => Z.shiftr p 1) ip).
  - destruct HC as [Hl _]. generalize (ROL k). intros f. explode C Hl. explode ip Hip. cbv -[Z.shiftr]. reflexivity.
  - f_equal. unfold rolp. apply map_ext_in. intros L HL. apply ROL_rotw; [done|].
    destruct HC as [_ HC]. rewrite Forall_forall in HC. by apply HC, list_elem_of_In.
Qed.

Lemma inversePositions_length w : length (inversePositions w) = 5.
Proof.
  unfold inversePositions. apply (for_inv (fun _ ip => length ip = 5)); [lia|done|]. intros i ip _ Hip.
  apply (for_inv (fun _ ip => length ip = 5)); [lia|done|]. intros x ip' _ Hip'. by rewrite length_insert.
Qed.

Lemma inverseTheta_addp k A : lanes_wf k → state_ok k A →
  inverseTheta k A = addp A (eplane (laneSize k) (parity A)).
Proof.
  intros Hk HA. pose proof (parity_ok k A Hk HA) as HC. unfold inverseTheta, eplane.
  generalize dependent (parity A). intros C HC. pose proof (inversePositions_length (laneSize k)) as L0.
  generalize dependent (inversePositions (laneSize k)). intros ip0 L0.
  assert (Hw : (0 < laneSize k)%Z) by apply Hk. destruct HA as [LA _].
  match goal with |- (let '(_, _) := for_ 0 _ ?f ?s in _) = _ =>
    assert (H : ∀ n, let '(E, C', ip) := eloop (laneSize k) n (zeros, C, ip0) in
      length E = 5 ∧ plane_ok (laneSize k) C' ∧ length ip = 5 ∧ for_ 0 n f s = (addp A E, C', ip)) end.
  { induction n as [|n IH].
    - unfold eloop. rewrite !for_0. unfold zeros. by rewrite addp_0.
    - unfold eloop. rewrite (for_snoc 0 n) by lia. fold (eloop (laneSize k) n (zeros, C, ip0)).
      destruct (eloop (laneSize k) n (zeros, C, ip0)) as [[E C'] ip]. destruct IH as (HE & HC' & Li & IH).
      assert (Lg : length (gplane C' ip) = 5) by apply (pm_ok _ _ (gplane_map (laneSize k) Hw ip) C' HC').
      split; [rewrite xorv_length; congruence|]. split; [by apply rolp_ok|]. split; [by rewrite length_map|].
      rewrite (for_snoc 0 n), IH by lia. rewrite gplane_loops, rol_loop by
        (done || apply HC' || (unfold addp; by rewrite length_map_seq)).
      by rewrite addp_addp. }
  specialize (H (Z.to_nat (laneSize k))). destruct (eloop _ _ _) as [[E C'] ip]. cbn [fst].
  destruct H as (_ & _ & _ & ->). done.
Qed.

(** ** Theta and its inverse *)

Lemma theta_inverse k A : lanes_wf k → theta_check (laneSize k) = true → state_ok k A →
  (state_ok k (theta k A) ∧ inverseTheta k (theta k A) = A) ∧
  (state_ok k (inverseTheta k A) ∧ theta k (inverseTheta k A) = A).
Proof.
  intros Hk Hc HA. pose proof (parity_ok k A Hk HA) as HC. assert (Hw : (0 < laneSize k)%Z) by apply Hk.
  destruct (planes_cancel _ Hw _ Hc HC) as [E1 E2].
  pose proof (pm_ok _ _ (dplane_map _ Hw) _ HC) as Pd. pose proof (pm_ok _ _ (eplane_map _ Hw) _ HC) as Pe.
  rewrite (theta_addp k A), (inverseTheta_addp k A) by done.
  pose proof (addp_ok k A _ Hk HA Pd) as Sd. pose proof (addp_ok k A _ Hk HA Pe) as Se.
  assert (N : ∀ g, plane_ok (laneSize k) g → addp A (xorv g g) = A).
  { intros g [Lg _]. rewrite xorv_nilpotent, Lg. apply addp_0, HA. }
  split; (split; [done|]).
  - rewrite inverseTheta_addp, parity_addp, E1, addp_addp by (done || apply HA || apply Pd). by apply N.
  - rewrite theta_addp, parity_addp, E2, addp_addp by (done || apply HA || apply Pe). by apply N.
Qed.


(** * Rounds *)

Definition constants_ok (k : KeccakF) : Prop := ∀ j, in_word (laneSize k) (roundConstants k).[j].

Section rounds.
Context (k : KeccakF) (Hk : lanes_wf k) (Hrc : constants_ok k) (Hth : theta_check (laneSize k) = true).

Lemma iota_ok A r : state_ok k A → state_ok k (iota k A r) ∧ iota k (iota k A r) r = A.
Proof.
  intros [Hl HA]. unfold iota. change (index 0 0) with 0. generalize (Hrc (Z.to_nat (Z.rem (Z.rem r 255 + 255) 255))).
  generalize ((roundConstants k).[Z.to_nat (Z.rem (Z.rem r 255 + 255) 255)]). intros c Hc.
  pose proof (proj1 Hk). split.
  - split; [by rewrite length_insert|]. apply Forall_insert_Z; [done|].
    apply in_word_lxor; [lia|apply Forall_nth_Z; [done|apply in_word_0; lia]|done].
  - destruct A as [|a A]; [done|]. cbn. by rewrite lxor_cancel.
Qed.

Lemma chi_ok A : state_ok k A → state_ok k (chi A).
Proof.
  intros HA. rewrite chi_spec by apply HA. pose proof (proj1 Hk). apply state_of_map. intros i.
  apply in_word_lxor; [lia|by apply lane_word|]. apply in_word_land_r; [lia| |by apply lane_word].
  apply in_word_wrap. lia.
Qed.

Lemma inverseChi_ok A : state_ok k A → state_ok k (inverseChi A).
Proof.
  intros HA. pose proof (proj1 Hk). unfold inverseChi. apply (for_inv (fun _ A => state_ok k A)); [lia|done|].
  intros y B _ HB. set (C := for_ 0 5 _ (replicate 5 0%Z)).
  assert (HC : Forall (in_word (laneSize k)) C).
  { apply (for_inv (fun _ C => Forall (in_word (laneSize k)) C)); [lia|apply Forall_replicate, in_word_0; lia|].
    intros x C' _ HC'. apply Forall_insert_Z; [done|by apply lane_word]. }
  clearbody C. apply (for_inv (fun _ A => state_ok k A)); [lia|done|]. intros x B' _ [Lb HB'].
  split; [by rewrite length_insert|]. apply Forall_insert_Z; [done|].
  assert (W : ∀ l j, Forall (in_word (laneSize k)) l → in_word (laneSize k) l.[j]).
  { intros l j Hl. apply Forall_nth_Z; [done|apply in_word_0; lia]. }
  apply in_word_lxor; [lia|by apply W|]. apply in_word_land; [lia|by apply W|]. apply in_word_wrap. lia.
Qed.

Lemma pi_ok A : state_ok k A → state_ok k (pi A) ∧ state_ok k (inversePi A).
Proof.
  intros HA. assert (E : pi A = map (fun i => A.[(i mod 5 + 3 * (i / 5)) mod 5 + 5 * (i mod 5)]) (seq 0 25) ∧
    inversePi A = map (fun i => A.[i / 5 + 5 * ((2 * (i mod 5) + 3 * (i / 5)) mod 5)]) (seq 0 25)).
  { destruct HA as [Hl _]. explode A Hl. split; reflexivity. }
  destruct E as [-> ->]. split; apply state_of_map; intros i; by apply lane_word.
Qed.

Lemma rho_ok A : state_ok k A → (state_ok k (rho k A) ∧ inverseRho k (rho k A) = A) ∧
  (state_ok k (inverseRho k A) ∧ rho k (inverseRho k A) = A).
Proof.
  intros HA. assert (S : ∀ f, state_ok k (map (fun i => ROL k A.[i] (f i)) (seq 0 25))).
  { intros f. apply state_of_map. intros i. by apply ROL_word, lane_word. }
  assert (B : ∀ f, map (fun i => ROL k (map (fun i => ROL k A.[i] (f i)) (seq 0 25)).[i] (- f i)) (seq 0 25) = A).
  { intros f. apply list_eq_nth; [rewrite length_map_seq; symmetry; apply HA|]. rewrite length_map_seq.
    intros i Hi. rewrite !nth_map_seq by done. by apply ROL_back; [|apply lane_word]. }
  rewrite (rho_spec k A), (inverseRho_spec k A) by apply HA. split; (split; [apply S|]).
  - rewrite inverseRho_spec by done. apply (B (fun i => (rhoOffsets k).[i])).
  - rewrite rho_spec by done. etransitivity; [|apply (B (fun i => (- (rhoOffsets k).[i])%Z))].
    apply map_ext. intros i. by rewrite Z.opp_involutive.
Qed.

Lemma lanes_round_inverse A r : state_ok k A →
  (state_ok k (round k A r) ∧ inverseRound k (round k A r) r = A) ∧
  (state_ok k (inverseRound k A r) ∧ round k (inverseRound k A r) r = A).
Proof.
  intros HA. unfold round, inverseRound. split.
  - destruct (theta_inverse k A Hk Hth HA) as [[S1 E1] _]. destruct (rho_ok _ S1) as [[S2 E2] _].
    destruct (pi_ok _ S2) as [S3 _]. pose proof (chi_ok _ S3) as S4. destruct (iota_ok _ r S4) as [S5 E5].
    split; [done|]. rewrite E5, inverseChi_chi by apply S3. rewrite (proj1 (inversePi_pi _ (proj1 S2))).
    by rewrite E2.
  - destruct (iota_ok _ r HA) as [S1 E1]. pose proof (inverseChi_ok _ S1) as S2. destruct (pi_ok _ S2) as [_ S3].
    destruct (rho_ok _ S3) as [_ [S4 E4]]. destruct (theta_inverse k _ Hk Hth S4) as [_ [S5 E5]].
    split; [done|]. rewrite E5, E4, (proj2 (inversePi_pi _ (proj1 S2))). rewrite chi_inverseChi by apply S1.
    done.
Qed.

(** ** Forward and inverse *)

(** A range of rounds that the [unsigned] and the [int] counter both count through. *)
Definition range_ok : Prop :=
  (0 ≤ startRoundIndex k)%Z ∧ (0 ≤ nrRounds k)%Z ∧ (startRoundIndex k + nrRounds k < 2 ^ 31)%Z.

Lemma int32_small x : (- 2 ^ 31 ≤ x < 2 ^ 31)%Z → int32 x = x.
Proof.
  intros Hx. unfold int32, wrap. destruct (Z.lt_ge_cases x 0).
  - rewrite <- (Z.mod_unique x (2 ^ 32) (- 1) (x + 2 ^ 32)) by lia.
    destruct (Z.ltb_spec (x + 2 ^ 32) (2 ^ 31)); lia.
  - rewrite Z.mod_small by lia. destruct (Z.ltb_spec x (2 ^ 31)); lia.
Qed.

Lemma for_first n {S} (f : nat → S → S) s : for_ 0 (Datatypes.S n) f s = for_ 0 n (fun i => f (Datatypes.S i)) (f 0 s).
Proof. induction n as [|n IH]; [done|]. rewrite for_snoc, IH, (for_snoc 0 n) by lia. done. Qed.

Lemma for_backwards n {S} (g : nat → S → S) (f : nat → S → S) s :
  (∀ i s, i < n → f i s = g (n - 1 - i) s) → for_ 0 n f s = for_down n g s.
Proof.
  revert f s. induction n as [|n IH]; intros f s H; [done|]. rewrite for_first. cbn [for_down].
  rewrite H by lia. replace (Datatypes.S n - 1 - 0) with n by lia. apply IH. intros i s' Hi.
  rewrite H by lia. f_equal. lia.
Qed.

Lemma forward_rounds A : range_ok → forward k A =
  for_ 0 (Z.to_nat (nrRounds k)) (fun i A => round k A (startRoundIndex k + Z.of_nat i)) A.
Proof.
  intros (H0 & H1 & H2). unfold forward. rewrite !(wrap_small 32) by (split; lia).
  replace (startRoundIndex k + nrRounds k - startRoundIndex k)%Z with (nrRounds k) by lia.
  apply for_ext. intros i s Hi. by rewrite int32_small by lia.
Qed.

Lemma inverse_rounds A : range_ok → inverse k A =
  for_down (Z.to_nat (nrRounds k)) (fun i A => inverseRound k A (startRoundIndex k + Z.of_nat i)) A.
Proof.
  intros (H0 & H1 & H2). unfold inverse. rewrite int32_small by lia.
  replace (startRoundIndex k + nrRounds k - 1 - startRoundIndex k + 1)%Z with (nrRounds k) by lia.
  apply for_backwards. intros i s Hi. f_equal. lia.
Qed.

Lemma forward_inverse A : range_ok → state_ok k A →
  (state_ok k (forward k A) ∧ inverse k (forward k A) = A) ∧ (state_ok k (inverse k A) ∧ forward k (inverse k A) = A).
Proof.
  intros Hr HA. rewrite !forward_rounds, !inverse_rounds by done. split.
  - apply (for_down_undo (state_ok k)); [|done]. intros i s _ Hs. apply (lanes_round_inverse s _ Hs).
  - apply (for_undo (state_ok k)); [|done]. intros i s _ Hs. apply (lanes_round_inverse s _ Hs).
Qed.

(** ** Bytes *)

(** The bytes of a lane, when the code reads whole bytes. *)
Definition lane_bytes : nat := Z.to_nat (laneSize k) / 8.
Definition bytewise : Prop := laneSize k = 16%Z ∨ laneSize k = 32%Z ∨ laneSize k = 64%Z.

Lemma bytewise_size : bytewise → laneSize k = (8 * Z.of_nat lane_bytes)%Z ∧ 0 < lane_bytes ∧
  ∀ i, i * Z.to_nat (laneSize k) / 8 = i * lane_bytes.
Proof.
  unfold lane_bytes. intros [E|[E|E]]; rewrite E; (split; [done|split; [by apply Nat.ltb_lt|]]); intros i.
  - change (i * 16 / 8 = i * 2). divlia.
  - change (i * 32 / 8 = i * 4). divlia.
  - change (i * 64 / 8 = i * 8). divlia.
Qed.

Lemma bytewise_branch : bytewise → let w := Z.to_nat (laneSize k) in
  ((w =? 1) || (w =? 2) || (w =? 4) || (w =? 8)) = false ∧ ((w =? 16) || (w =? 32) || (w =? 64)) = true.
Proof. by intros [E|[E|E]]; rewrite E. Qed.

Lemma slice_snoc (l : list Z) o j : o + j < length l → slice l o (S j) = slice l o j ++ [l.[o + j]].
Proof.
  intros H. unfold slice. rewrite (take_S_r _ _ l.[o + j]); [done|].
  rewrite lookup_drop. by apply nth_lookup_Z.
Qed.

(** The inner loop assembles one lane. *)
Lemma lane_loop (inp out : list Z) i o b : bytes_ok inp → o + b ≤ length inp → b ≤ 8 → i < length out →
  for_ 0 b (fun j out => <[i := Z.lor out.[i] (u64 (Z.shiftl (u8 inp.[o + j]) (Z.of_nat (8 * j))))]> out) (<[i := 0%Z]> out) =
  <[i := le_val (slice inp o b)]> out.
Proof.
  intros Hin Ho Hb Hi. apply (for_inv (fun j x => x = <[i := le_val (slice inp o j)]> out)); [lia|done|].
  intros j x Hj ->. rewrite nth_insert, decide_True by lia. rewrite list_insert_insert_eq. f_equal.
  assert (By : is_byte inp.[o + j]) by (apply Forall_nth_Z; [done|apply in_word_0; lia]).
  assert (Ls : length (slice inp o j) = j) by (apply slice_length; lia).
  assert (W : in_word (Z.of_nat (8 * j)) (le_val (slice inp o j))).
  { assert (B : bytes_ok (slice inp o j)) by (by apply Forall_take, Forall_drop).
    pose proof (le_val_bound _ B) as V. rewrite Ls in V. by replace (Z.of_nat (8 * j)) with (8 * Z.of_nat j)%Z by lia. }
  assert (W64 : in_word 64 (Z.shiftl inp.[o + j] (Z.of_nat (8 * j)))).
  { split; [apply Z.shiftl_nonneg, By|]. rewrite Z.shiftl_mul_pow2 by lia. destruct By as [_ By].
    apply Z.lt_le_trans with (2 ^ 8 * 2 ^ Z.of_nat (8 * j))%Z; [apply Z.mul_lt_mono_pos_r; lia|].
    rewrite <- Z.pow_add_r by lia. apply Z.pow_le_mono_r; lia. }
  rewrite (wrap_small 8 _ By), (wrap_small 64 _ W64), lor_disjoint_add by (done || lia).
  rewrite slice_snoc, le_val_app, Ls by lia. cbn [le_val]. rewrite Nat2Z.inj_mul. lia.
Qed.

Lemma fromBytes_spec inp : bytewise → bytes_ok inp → length inp = 25 * lane_bytes →
  fromBytesToLanes k inp = map (fun i => le_val (slice inp (i * lane_bytes) lane_bytes)) (seq 0 25).
Proof.
  intros Hb Hin Hl. pose proof (bytewise_size Hb) as (Hw & Hb0 & Hdiv).
  assert (Hb8 : lane_bytes ≤ 8) by (destruct Hk; lia).
  unfold fromBytesToLanes. destruct (bytewise_branch Hb) as [-> ->]. fold lane_bytes.
  set (f := fun i => le_val (slice inp (i * lane_bytes) lane_bytes)).
  match goal with |- for_ 0 25 ?g ?s = _ => assert (H : length (for_ 0 25 g s) = 25 ∧ ∀ i, i < 25 → (for_ 0 25 g s).[i] = f i) end.
  { apply (for_inv (fun m out => length out = 25 ∧ ∀ i, i < m → out.[i] = f i)); [lia|split; [done|lia]|].
    intros m out Hm [Ho Hf]. rewrite Hdiv, lane_loop by (done || lia || (rewrite Hl; nia)).
    split; [by rewrite length_insert|]. intros i Hi. rewrite nth_insert. destruct (decide _) as [[-> _]|Hne]; [done|].
    apply Hf. lia. }
  destruct H as [Ho Hf]. apply list_eq_nth; [by rewrite length_map_seq|]. rewrite Ho. intros i Hi.
  rewrite nth_map_seq by done. by apply Hf.
Qed.

(** Byte [t] of a list of lanes. *)
Definition lane_byte (A : list Z) (t : nat) : Z := (le_bytes lane_bytes A.[t / lane_bytes]).[t mod lane_bytes].

Lemma fromLanes_spec A out : bytewise → length out = 25 * lane_bytes →
  fromLanesToBytes k A out = map (lane_byte A) (seq 0 (25 * lane_bytes)).
Proof.
  intros Hb Hl. pose proof (bytewise_size Hb) as (_ & Hb0 & _). unfold fromLanesToBytes.
  destruct (bytewise_branch Hb) as [-> ->]. fold lane_bytes.
  match goal with |- for_ 0 25 ?g ?s = _ => assert (H : length (for_ 0 25 g s) = 25 * lane_bytes ∧
    ∀ t, t < 25 * lane_bytes → (for_ 0 25 g s).[t] = lane_byte A t) end.
  { apply (for_inv (fun m o => length o = 25 * lane_bytes ∧ ∀ t, t < m * lane_bytes → o.[t] = lane_byte A t));
      [lia|split; [done|lia]|]. intros m o Hm [Ho Hf].
    replace (S m * lane_bytes) with (m * lane_bytes + lane_bytes) by lia.
    apply (for_inv (fun j o => length o = 25 * lane_bytes ∧ ∀ t, t < m * lane_bytes + j → o.[t] = lane_byte A t));
      [lia|split; [done|intros t Ht; apply Hf; lia]|]. intros j o' Hj [Ho' Hf'].
    split; [by rewrite length_insert|]. intros t Ht. rewrite nth_insert. destruct (decide _) as [[<- _]|Hne].
    - unfold lane_byte. rewrite (Nat.add_comm (m * _)), Nat.div_add, Nat.Div0.mod_add, Nat.div_small, Nat.mod_small by lia.
      rewrite le_bytes_nth, land_255, Nat2Z.inj_mul by lia. done.
    - apply Hf'. assert (m * lane_bytes + j < length o') by (rewrite Ho'; nia). lia. }
  destruct H as [Ho Hf]. apply list_eq_nth; [by rewrite length_map_seq|]. rewrite Ho. intros t Ht.
  rewrite nth_map_seq by done. by apply Hf.
Qed.

Lemma lane_bytes_ok A : bytewise → buf_ok (25 * lane_bytes) (map (lane_byte A) (seq 0 (25 * lane_bytes))).
Proof.
  intros Hb. split; [apply length_map_seq|]. apply Forall_of_nth. rewrite length_map_seq. intros t Ht.
  rewrite nth_map_seq by done. unfold lane_byte. by apply Forall_nth_Z; [apply le_bytes_ok|].
Qed.

Lemma bytes_lanes A : bytewise → state_ok k A →
  fromBytesToLanes k (map (lane_byte A) (seq 0 (25 * lane_bytes))) = A.
Proof.
  intros Hb HA. pose proof (bytewise_size Hb) as (Hw & Hb0 & _). destruct (lane_bytes_ok A Hb) as [Hl Hbs].
  rewrite fromBytes_spec by done. apply list_eq_nth; [rewrite length_map_seq; symmetry; apply HA|].
  rewrite length_map_seq. intros i Hi. rewrite nth_map_seq by done.
  replace (slice _ (i * lane_bytes) lane_bytes) with (le_bytes lane_bytes A.[i]).
  - rewrite le_val_bytes, <- Hw. by apply wrap_small, lane_word.
  - apply list_eq_nth; [rewrite slice_length, le_bytes_length; [done|rewrite Hl; nia]|]. rewrite le_bytes_length. intros j Hj.
    unfold slice. rewrite nth_firstn. nat_true (j <? lane_bytes). rewrite nth_skipn, nth_map_seq by nia.
    unfold lane_byte. rewrite (Nat.add_comm (i * _)), Nat.div_add, Nat.Div0.mod_add, Nat.div_small, Nat.mod_small by lia. done.
Qed.

Lemma lanes_bytes inp : bytewise → buf_ok (25 * lane_bytes) inp →
  state_ok k (fromBytesToLanes k inp) ∧ map (lane_byte (fromBytesToLanes k inp)) (seq 0 (25 * lane_bytes)) = inp.
Proof.
  intros Hb [Hl Hin]. pose proof (bytewise_size Hb) as (Hw & Hb0 & _). rewrite fromBytes_spec by done.
  assert (Sl : ∀ i, bytes_ok (slice inp (i * lane_bytes) lane_bytes)) by (intros; by apply Forall_take, Forall_drop).
  split.
  - split; [done|]. apply Forall_of_nth. rewrite length_map_seq. intros i Hi. rewrite nth_map_seq by done.
    pose proof (le_val_bound _ (Sl i)) as W. rewrite slice_length in W by (rewrite Hl; nia). by rewrite Hw.
  - apply list_eq_nth; [by rewrite length_map_seq|]. rewrite length_map_seq. intros t Ht. rewrite nth_map_seq by done.
    unfold lane_byte. assert (t / lane_bytes < 25) by (apply Nat.Div0.div_lt_upper_bound; lia).
    assert (t mod lane_bytes < lane_bytes) by (apply Nat.mod_upper_bound; lia).
    rewrite nth_map_seq by done. assert (Ls : length (slice inp (t / lane_bytes * lane_bytes) lane_bytes) = lane_bytes).
    { apply slice_length. rewrite Hl. nia. }
    pose proof (le_bytes_val _ (Sl (t / lane_bytes))) as E. rewrite Ls in E. rewrite E. unfold slice. rewrite nth_firstn. nat_true (t mod lane_bytes <? lane_bytes).
    rewrite nth_skipn. f_equal. rewrite (Nat.div_mod_eq t lane_bytes) at 3. lia.
Qed.

Lemma apply_inverse buf : range_ok → bytewise → buf_ok (25 * lane_bytes) buf →
  (buf_ok (25 * lane_bytes) (apply k buf) ∧ applyInverse k (apply k buf) = buf) ∧
  (buf_ok (25 * lane_bytes) (applyInverse k buf) ∧ apply k (applyInverse k buf) = buf).
Proof.
  intros Hr Hb Hbuf. destruct (lanes_bytes buf Hb Hbuf) as [HA Eb].
  destruct (forward_inverse _ Hr HA) as [[Sf Ef] [Si Ei]]. unfold apply, applyInverse.
  rewrite !(fromLanes_spec _ buf) by (done || apply Hbuf). split; (split; [by apply lane_bytes_ok|]).
  - rewrite bytes_lanes, Ef, fromLanes_spec by (done || apply length_map_seq). done.
  - rewrite bytes_lanes, Ei, fromLanes_spec by (done || apply length_map_seq). done.
Qed.


Lemma star_inverse buf : range_ok → bytewise → buf_ok (25 * lane_bytes) buf →
  applyStarInverse k (applyStar k buf) = buf ∧ applyStar k (applyStarInverse k buf) = buf.
Proof.
  intros Hr Hb Hbuf. destruct (lanes_bytes buf Hb Hbuf) as [HA Eb]. unfold applyStar, applyStarInverse.
  set (A := fromBytesToLanes k buf) in *. destruct (pi_ok A HA) as [_ Hp].
  destruct (forward_inverse _ Hr Hp) as [[Sf Ef] [Si Ei]].
  rewrite !(fromLanes_spec _ buf) by (done || apply Hbuf). split.
  - rewrite bytes_lanes, (proj1 (inversePi_pi _ (proj1 Sf))), Ef by (done || by apply pi_ok).
    rewrite (proj2 (inversePi_pi A (proj1 HA))), fromLanes_spec by (done || apply length_map_seq). done.
  - rewrite bytes_lanes, (proj1 (inversePi_pi _ (proj1 Si))), Ei by (done || by apply pi_ok).
    rewrite (proj2 (inversePi_pi A (proj1 HA))), fromLanes_spec by (done || apply length_map_seq). done.
Qed.

End rounds.

(** * The objects the constructors make *)

Lemma constants_masked w : (0 < w)%Z → ∀ j, in_word w (initializeRoundConstants (2 ^ w - 1)).[j].
Proof.
  intros Hw j. unfold initializeRoundConstants.
  assert (H : Forall (in_word w) (snd (for_ 0 255 (fun i '(LFSRstate, roundConstants) =>
    let '(LFSRstate, c) := for_ 0 7 (fun j '(LFSRstate, c) =>
      let bitPosition := (Z.shiftl 1 (Z.of_nat j) - 1)%Z in
      let '(bit, LFSRstate) := LFSR86540 LFSRstate in
      (LFSRstate, if bit : bool then Z.lxor c (u64 (Z.shiftl 1 bitPosition)) else c)) (LFSRstate, 0%Z) in
    (LFSRstate, roundConstants ++ [Z.land c (2 ^ w - 1)])) (0x01%Z, [])))).
  { apply (for_inv (fun _ st => Forall (in_word w) (snd st))); [lia|constructor|].
    intros i [L rc] _ Hrc. destruct (for_ 0 7 _ _) as [L' c]. cbn [snd] in *. apply Forall_app. split; [done|].
    constructor; [|constructor]. rewrite Z.sub_1_r, <- Z.ones_equiv, Z.land_ones by lia. apply in_word_wrap. lia. }
  apply Forall_nth_Z; [exact H|apply in_word_0; lia].
Qed.

Lemma theta_check_16 : theta_check 16 = true. Proof. vm_compute. reflexivity. Qed.
Lemma theta_check_32 : theta_check 32 = true. Proof. vm_compute. reflexivity. Qed.
Lemma theta_check_64 : theta_check 64 = true. Proof. vm_compute. reflexivity. Qed.

(** What a constructor leaves in an object of one of the widths with whole-byte lanes. *)
Definition made (aWidth : nat) (k : KeccakF) : Prop :=
  In aWidth [400; 800; 1600] ∧ laneSize k = Z.of_nat (aWidth / 25) ∧ mask k = (2 ^ laneSize k - 1)%Z ∧
  roundConstants k = initializeRoundConstants (mask k) ∧ rhoOffsets k = initializeRhoOffsets (laneSize k).

Lemma rounds_made aWidth start n k : In aWidth [400; 800; 1600] → KeccakF_rounds aWidth start n = Ok k →
  made aWidth k ∧ startRoundIndex k = start ∧ nrRounds k = n ∧
  initializeNominalNumberOfRounds aWidth = Ok (nominalNrRounds k).
Proof.
  intros Hw H. unfold KeccakF_rounds in H. apply bind_Ok in H as (nominal & Hn & H). apply mret_Ok in H. subst k.
  cbn [startRoundIndex nrRounds nominalNrRounds]. split; [|done]. split; [done|].
  cbn [laneSize mask roundConstants rhoOffsets]. split; [done|]. split; [|done].
  destruct Hw as [<-|[<-|[<-|[]]]]; reflexivity.
Qed.

Lemma made_laws aWidth k : made aWidth k → lanes_wf k ∧ constants_ok k ∧ theta_check (laneSize k) = true ∧
  bytewise k ∧ 25 * lane_bytes k = aWidth / 8.
Proof.
  intros (Hw & Hl & Hm & Hc & _). assert (Hcases : (aWidth = 400 ∧ laneSize k = 16%Z) ∨ (aWidth = 800 ∧ laneSize k = 32%Z) ∨
    (aWidth = 1600 ∧ laneSize k = 64%Z)).
  { destruct Hw as [<-|[<-|[<-|[]]]]; [left|right; left|right; right]; (split; [reflexivity|exact Hl]). }
  clear Hw Hl. assert (Hp : (0 < laneSize k ≤ 64)%Z) by (destruct Hcases as [[_ ->]|[[_ ->]|[_ ->]]]; lia).
  split; [exact (conj Hp Hm)|]. split; [unfold constants_ok; rewrite Hc, Hm; apply constants_masked; lia|].
  clear Hp Hm Hc. unfold bytewise, lane_bytes. destruct Hcases as [[-> ->]|[[-> ->]|[-> ->]]].
  - split; [apply theta_check_16|]. split; [by left|reflexivity].
  - split; [apply theta_check_32|]. split; [by right; left|reflexivity].
  - split; [apply theta_check_64|]. split; [by right; right|reflexivity].
Qed.

Lemma made_inverse aWidth k buf : made aWidth k → range_ok k → buf_ok (aWidth / 8) buf →
  (buf_ok (aWidth / 8) (apply k buf) ∧ applyInverse k (apply k buf) = buf) ∧
  (buf_ok (aWidth / 8) (applyInverse k buf) ∧ apply k (applyInverse k buf) = buf).
Proof.
  intros Hm Hr Hb. destruct (made_laws _ _ Hm) as (Hk & Hc & Ht & Hby & E). rewrite <- E in *.
  by apply apply_inverse.
Qed.

(** ** The adapter of small.h *)

(** [inst()]. *)
Definition object (width_ rounds_ : nat) : Res KeccakF :=
  if width_ =? 800 then KeccakF_of 800 else
  if rounds_ =? 12 then KeccakP 1600 12 else KeccakF_of 1600.

Definition keccak (width_ rounds_ : nat) (buf : list Z) : list Z :=
  match object width_ rounds_ with Ok k => apply k buf | Throw _ => buf end.
Definition keccak_inv (width_ rounds_ : nat) (buf : list Z) : list Z :=
  match object width_ rounds_ with Ok k => applyInverse k buf | Throw _ => buf end.

Lemma object_made w r : In (w, r) [(800, 22); (1600, 12); (1600, 24)] →
  ∃ k, object w r = Ok k ∧ made w k ∧ range_ok k.
Proof.
  assert (R : ∀ w s n nom, In w [400; 800; 1600] → initializeNominalNumberOfRounds w = Ok nom →
    ∃ k, KeccakF_rounds w s n = Ok k).
  { intros w' s n nom _ E. unfold KeccakF_rounds. rewrite E. by eexists. }
  intros [[= <- <-]|[[= <- <-]|[[= <- <-]|[]]]].
  - destruct (R 800 0%Z 22%Z 22%Z) as [k Hk]; [cbn; auto|done|]. exists k. split; [exact Hk|].
    destruct (rounds_made 800 _ _ _ ltac:(cbn; auto) Hk) as (Hm & Hs & Hn & _). split; [done|].
    unfold range_ok. rewrite Hs, Hn. lia.
  - destruct (R 1600 0%Z 12%Z 24%Z) as [k Hk]; [cbn; auto|done|].
    destruct (rounds_made 1600 _ _ _ ltac:(cbn; auto) Hk) as (Hm & Hs & Hn & Hnom). injection Hnom as Hnom.
    eexists. split; [unfold object; cbn [Nat.eqb]; unfold KeccakP; rewrite Hk; reflexivity|].
    split; [exact Hm|]. unfold range_ok. cbn [startRoundIndex nrRounds]. rewrite Hn, <- Hnom. lia.
  - destruct (R 1600 0%Z 24%Z 24%Z) as [k Hk]; [cbn; auto|done|]. exists k. split; [exact Hk|].
    destruct (rounds_made 1600 _ _ _ ltac:(cbn; auto) Hk) as (Hm & Hs & Hn & _). split; [done|].
    unfold range_ok. rewrite Hs, Hn. lia.
Qed.

(** * Properties *)


(** The permutation objects of small.h satisfy what Construction-Pi needs of Keccak. *)
Theorem keccak_discharges : Pi.keccak_laws keccak keccak_inv.
Proof.
  intros w r buf Hin Hb. destruct (object_made w r Hin) as (k & Hk & Hm & Hr). unfold keccak, keccak_inv. rewrite Hk.
  destruct (made_inverse _ _ _ Hm Hr Hb) as [[B1 E1] [B2 E2]].
  exact (conj B1 (conj E1 (conj B2 E2))).
Qed.

Lemma rounds_exist aWidth start n : In aWidth [25; 50; 100; 200; 400; 800; 1600] →
  ∃ k, KeccakF_rounds aWidth start n = Ok k.
Proof.
  unfold KeccakF_rounds, initializeNominalNumberOfRounds. intros H.
  repeat (destruct H as [<-|H]; [by eexists|]). destruct H.
Qed.

(** The constructor accepts the seven widths and throws on every other. *)
Theorem KeccakF_widths aWidth start n :
  (In aWidth [25; 50; 100; 200; 400; 800; 1600] → ∃ k, KeccakF_rounds aWidth start n = Ok k) ∧
  (¬ In aWidth [25; 50; 100; 200; 400; 800; 1600] → KeccakF_rounds aWidth start n =
     Throw (RuntimeError "The width must be 25 times a power of two between 1 and 64.")).
Proof.
  split; [apply rounds_exist|]. unfold KeccakF_rounds, initializeNominalNumberOfRounds.
  intros H. repeat match goal with |- context [aWidth =? ?c] =>
      destruct (Nat.eqb_spec aWidth c) as [E|_]; [destruct H; subst aWidth; cbn; tauto|] end. done.
Qed.

(** [KeccakP] with more rounds than nominal starts below zero: the unsigned counter of [forward] is
    then past its end at once, so that [operator()] changes no lane, while [inverse] does every round. *)
Theorem KeccakP_excess_rounds n k A : (24 < n < 2 ^ 31)%Z → KeccakP 1600 n = Ok k →
  forward k A = A ∧
  inverse k A = for_ 0 (Z.to_nat n) (fun i A => inverseRound k A (23 - Z.of_nat i)) A.
Proof.
  intros Hn H. unfold KeccakP in H. apply bind_Ok in H as (k0 & H & E). apply mret_Ok in E. subst k.
  destruct (rounds_made 1600 _ _ _ ltac:(cbn; auto) H) as (_ & _ & Hr & Hnom). injection Hnom as Hnom.
  unfold forward, inverse. cbn [startRoundIndex nrRounds]. rewrite <- Hnom, Hr.
  replace (24 - n + n)%Z with 24%Z by lia. split.
  - rewrite (wrap_small 32 24) by (split; lia). replace (Z.to_nat (24 - u32 (24 - n))) with 0; [by rewrite for_0|].
    unfold wrap. rewrite <- (Z.mod_unique (24 - n) (2 ^ 32) (- 1) (24 - n + 2 ^ 32)) by lia. lia.
  - rewrite int32_small by lia. replace (24 - 1 - (24 - n) + 1)%Z with n by lia. done.
Qed.


Lemma KeccakP_excess_rounds_witness : ∃ k, KeccakP 1600 25 = Ok k ∧ forward k (replicate 25 3%Z) = replicate 25 3%Z.
Proof.
  destruct (rounds_exist 1600 0 25 ltac:(cbn; tauto)) as [k0 Hk].
  assert (E : ∃ k, KeccakP 1600 25 = Ok k) by (unfold KeccakP; rewrite Hk; eexists; reflexivity).
  destruct E as [k E]. exists k. split; [exact E|].
  exact (proj1 (KeccakP_excess_rounds 25 k (replicate 25 3%Z) ltac:(lia) E)).
Defined.

Lemma KeccakF_widths_witness : KeccakF_rounds 512 0 20 =
  Throw (RuntimeError "The width must be 25 times a power of two between 1 and 64.").
Proof.
  apply (proj2 (KeccakF_widths 512 0 20)). cbn [In]. intros H.
  repeat (destruct H as [H|H]; [apply (f_equal (Nat.eqb 512)) in H; discriminate H|]). exact H.
Defined.

End Keccak.
