(* ===== verification/Shake.v ===== *)
(** [src/thirdparty/XKCP/Standalone/CompactFIPS202/C/TweetableFIPS202.c]: SHAKE256, which the Feistel
    permutation hashes with, and its siblings.  [F] is the permutation on 25 lanes, [sponge] the function
    [k] that absorbs, pads and squeezes.  [F] computes what the other Keccak of the repository,
    KeccakTools, computes; the sponge is the one of FIPS 202 over it; and [crypto_hash_shake256]
    never fails and fills its output, which discharges what [Feistel] assumes. *)
From S2P Require Import Prelude Words PermApi BitBuf Sneik Small Keccak Feistel.
Open Scope nat_scope.

Import Keccak.Keccak.

Module Shake.

(** * The permutation *)

(** [R(a, n)]. *)
Definition R (a : Z) (n : Z) : Z := Z.lxor (u64 (Z.shiftl a n)) (Z.shiftr a (64 - n)).

(** One turn of the loop over [n]; the byte [rc] is the variable [R] of the source. *)
Definition theta (s : list Z) : list Z :=
  let B := for_ 0 5 (fun i B =>
    for_ 0 5 (fun j B => <[i := Z.lxor B.[i] s.[i + 5 * j]]> B) (<[i := 0%Z]> B)) (replicate 5 0%Z) in
  for_ 0 5 (fun i s =>
    let t := Z.lxor B.[(i + 4) mod 5] (R B.[(i + 1) mod 5] 1) in
    for_ 0 5 (fun j s => <[i + 5 * j := Z.lxor s.[i + 5 * j] t]> s) s) s.

Definition rho_pi (s : list Z) : list Z :=
  let t := s.[1] in
  let '(s, _, _, _, _) := for_ 0 24 (fun j '(s, t, x, y, r) =>
    let r := u8 (r + Z.of_nat j + 1) in
    let Y := 2 * x + 3 * y in
    let x := y in
    let y := Y mod 5 in
    let Y := s.[x + 5 * y] in
    (<[x + 5 * y := R t (r mod 64)]> s, Y, x, y, r)) (s, t, 1, 0, 0%Z) in
  s.

Definition chi (s : list Z) : list Z :=
  for_ 0 5 (fun j s =>
    let B := for_ 0 5 (fun i B => <[i := s.[i + 5 * j]]> B) (replicate 5 0%Z) in
    for_ 0 5 (fun i s =>
      <[i + 5 * j := Z.lxor B.[i] (Z.land (wnot 64 B.[(i + 1) mod 5]) B.[(i + 2) mod 5])]> s) s) s.

Definition iota (s : list Z) (rc : Z) : list Z * Z :=
  for_ 0 7 (fun j '(s, rc) =>
    let rc := u8 (Z.lxor (Z.shiftl rc 1) (113 * Z.shiftr rc 7)) in
    (if negb (Z.land rc 2 =? 0)%Z
     then <[0 := Z.lxor s.[0] (u64 (Z.shiftl 1 (Z.shiftl 1 (Z.of_nat j) - 1)))]> s else s, rc)) (s, rc).

Definition F (s : list Z) : list Z :=
  fst (for_ 0 24 (fun n '(s, rc) => iota (chi (rho_pi (theta s))) rc) (s, 1%Z)).

(** * The sponge *)

(** [S(x)]: the first [r] bytes of [x] into the state. *)
Definition absorb (r : nat) (s x : list Z) : list Z :=
  for_ 0 r (fun i s => <[i / 8 := Z.lxor s.[i / 8] (u64 (Z.shiftl x.[i] (Z.of_nat (i mod 8 * 8))))]> s) s.

(** [k(r, m, n, p, h, d)] with [n] the length of [m]; the result is the [d] bytes of [h]. *)
Definition sponge (r : nat) (m : list Z) (p : Z) (d : nat) : list Z :=
  let n := length m in
  let s := for_ 0 (n / r) (fun i s => F (absorb r s (drop (i * r) m))) (replicate 25 0%Z) in
  let m := drop (n / r * r) m in
  let n := n mod r in
  let t := for_ 0 n (fun i t => <[i := m.[i]]> t) (replicate 200 0%Z) in
  let t := <[n := p]> t in
  let t := <[r - 1 := Z.lor t.[r - 1] 128]> t in
  let s := absorb r s t in
  snd (for_ 0 d (fun i '(s, h) =>
    let s := if i mod r =? 0 then F s else s in
    (s, <[i := u8 (Z.shiftr s.[i mod r / 8] (Z.of_nat (8 * (i mod 8))))]> h)) (s, replicate d 0%Z)).

(** The functions of the macros; the return code is always zero. *)
Definition crypto_hash_sha3224 (m : list Z) : list Z := sponge (18 * 8) m 6 28.
Definition crypto_hash_sha3256 (m : list Z) : list Z := sponge (17 * 8) m 6 32.
Definition crypto_hash_sha3384 (m : list Z) : list Z := sponge (13 * 8) m 6 48.
Definition crypto_hash_sha3512 (m : list Z) : list Z := sponge (9 * 8) m 6 64.
Definition crypto_hash_shake128 (d : nat) (m : list Z) : Z * list Z := (0%Z, sponge (21 * 8) m 31 d).
Definition crypto_hash_shake256 (d : nat) (m : list Z) : Z * list Z := (0%Z, sponge (17 * 8) m 31 d).

(** The SHA3-256 digest of the empty message starts a7 ff c6 f8. *)
Example sha3_256_empty : take 4 (crypto_hash_sha3256 []) = [0xa7; 0xff; 0xc6; 0xf8]%Z.
Proof. vm_compute. reflexivity. Qed.

(** * The permutation is KeccakTools' Keccak-f[1600] *)

Section equivalence.
Context (k : KeccakF) (Hobj : KeccakF_of 1600 = Ok k).

Lemma object_1600 : made 1600 k ∧ laneSize k = 64%Z ∧ mask k = (2 ^ 64 - 1)%Z ∧ startRoundIndex k = 0%Z ∧
  nrRounds k = 24%Z ∧ rhoOffsets k = initializeRhoOffsets 64 ∧ roundConstants k = initializeRoundConstants (2 ^ 64 - 1).
Proof.
  destruct (rounds_made 1600 0 24 k ltac:(cbn; auto) Hobj) as (Hm & Hs & Hn & _). split; [exact Hm|].
  destruct Hm as (_ & Hl & Hmask & Hc & Ho). change (Z.of_nat (1600 / 25)) with 64%Z in Hl.
  rewrite Hl in Hmask, Ho. rewrite Hmask in Hc. by repeat split.
Qed.

Lemma laws_1600 : lanes_wf k ∧ constants_ok k ∧ theta_check (laneSize k) = true ∧ range_ok k.
Proof.
  destruct object_1600 as (Hm & _ & _ & Hs & Hn & _). destruct (made_laws _ _ Hm) as (H1 & H2 & H3 & _).
  split; [exact H1|]. split; [exact H2|]. split; [exact H3|]. unfold range_ok. rewrite Hs, Hn. lia.
Qed.

Lemma ROL_R a o : (0 < o < 64)%Z → in_word 64 a → ROL k a o = R a o.
Proof.
  intros Ho Ha. destruct object_1600 as (_ & Hl & Hm & _). unfold ROL, R. rewrite Hl, Hm.
  assert (M : ∀ x, Z.land x (2 ^ 64 - 1) = u64 x) by (intros x; apply (Z.land_ones x 64); lia).
  rewrite Z.rem_small by lia. destruct (Z.ltb_spec o 0); [lia|]. destruct (Z.eqb_spec o 0); [lia|]. cbn [negb].
  rewrite !M, (wrap_small 64 a Ha). apply wrap_small. apply in_word_lxor; [lia|apply in_word_wrap; lia|].
  apply in_word_shiftr; [lia|done|lia].
Qed.

Lemma rol1_R a : in_word 64 a → rol1 64 a = R a 1.
Proof.
  intros Ha. rewrite <- ROL_R by (done || lia). destruct object_1600 as (_ & Hl & _).
  destruct laws_1600 as (Hk & _). rewrite ROL_rotw; rewrite ?Hl; done.
Qed.

Lemma theta_eq s : state_ok k s → theta s = Keccak.theta k s.
Proof.
  intros Hs. destruct laws_1600 as (Hk & _). destruct object_1600 as (_ & Hl & _).
  rewrite theta_addp by done. pose proof (parity_ok k s Hk Hs) as HC. rewrite Hl in *.
  transitivity (addp s (map (fun x => Z.lxor (parity s).[(x + 4) mod 5] (R (parity s).[(x + 1) mod 5] 1)) (seq 0 5))).
  - destruct Hs as [Hlen _]. explode s Hlen. cbv -[Z.lxor R]. by rewrite !Z.lxor_0_l.
  - f_equal. unfold dplane. apply map_ext. intros x. rewrite Z.lxor_comm. f_equal. symmetry. apply rol1_R.
    by apply plane_lane.
Qed.

(** The offsets, and the lane where each one leads. *)
Lemma rho_pi_eq s : state_ok k s → rho_pi s = pi (rho k s).
Proof.
  intros Hs. destruct laws_1600 as (Hk & _). destruct object_1600 as (_ & Hl & _ & _ & _ & Ho & _).
  rewrite rho_spec, Ho by apply Hs.
  transitivity (pi (map (fun i => if i =? 0 then s.[0] else R s.[i] (initializeRhoOffsets 64).[i]) (seq 0 25))).
  - destruct Hs as [Hlen _]. explode s Hlen. cbv -[R]. reflexivity.
  - f_equal. apply map_ext_in. intros i Hi%in_seq.
    assert (W : ∀ j, in_word 64 s.[j]) by (intros j; rewrite <- Hl; by apply lane_word).
    destruct (Nat.eqb_spec i 0) as [->|Hne].
    + symmetry. rewrite ROL_rotw by first [exact Hk|rewrite Hl; apply W].
      rewrite Hl. replace (_ `mod` 64)%Z with 0%Z by (vm_compute; reflexivity). apply rotw_0, W.
    + symmetry. apply ROL_R; [|apply W].
      assert (H : forallb (fun i => (0 <? (initializeRhoOffsets 64).[i])%Z && ((initializeRhoOffsets 64).[i] <? 64)%Z) (seq 1 24) = true)
        by (vm_compute; reflexivity).
      rewrite forallb_forall in H. specialize (H i ltac:(apply in_seq; lia)).
      apply andb_true_iff in H as [H1%Z.ltb_lt H2%Z.ltb_lt]. exact (conj H1 H2).
Qed.

Lemma chi_eq s : length s = 25 → chi s = Keccak.chi s.
Proof. intros H. explode s H. cbv -[Z.lxor Z.land wnot]. reflexivity. Qed.

(** The round constant that [iota] adds from the byte [rc], and the byte after it. *)
Definition constant (n : nat) (rc : Z) : Z * Z :=
  for_ 0 n (fun j '(c, rc) =>
    let rc := u8 (Z.lxor (Z.shiftl rc 1) (113 * Z.shiftr rc 7)) in
    (if negb (Z.land rc 2 =? 0)%Z then Z.lxor c (u64 (Z.shiftl 1 (Z.shiftl 1 (Z.of_nat j) - 1))) else c, rc)) (0%Z, rc).

Lemma iota_constant s rc : 0 < length s → iota s rc = (<[0 := Z.lxor s.[0] (fst (constant 7 rc))]> s, snd (constant 7 rc)).
Proof.
  intros Hs. unfold iota.
  match goal with |- for_ 0 7 ?f _ = _ => assert (H : ∀ n, for_ 0 n f (s, rc) =
    (<[0 := Z.lxor s.[0] (fst (constant n rc))]> s, snd (constant n rc))) end.
  { induction n as [|n IH].
    - rewrite for_0. cbn. rewrite Z.lxor_0_r. f_equal. symmetry. apply list_insert_id. by apply nth_lookup_Z.
    - rewrite (for_snoc 0 n), IH by lia. unfold constant. rewrite (for_snoc 0 n) by lia. fold (constant n rc).
      destruct (constant n rc) as [c rc']. cbn [fst snd]. f_equal. destruct (negb _); [|done].
      rewrite nth_insert, decide_True by lia. by rewrite list_insert_insert_eq, Z.lxor_assoc. }
  apply H.
Qed.

Fixpoint rc_byte (n : nat) : Z := match n with O => 1%Z | S n => snd (constant 7 (rc_byte n)) end.

Lemma constants_eq n : n < 24 → fst (constant 7 (rc_byte n)) = (roundConstants k).[n].
Proof.
  intros Hn. destruct object_1600 as (_ & _ & _ & _ & _ & _ & ->).
  assert (H : forallb (fun n => (fst (constant 7 (rc_byte n)) =? (initializeRoundConstants (2 ^ 64 - 1)).[n])%Z) (seq 0 24) = true)
    by (vm_compute; reflexivity).
  rewrite forallb_forall in H. apply Z.eqb_eq, H, in_seq. lia.
Qed.

Lemma round_eq s n : state_ok k s → n < 24 →
  iota (chi (rho_pi (theta s))) (rc_byte n) = (round k s (Z.of_nat n), rc_byte (S n)).
Proof.
  intros Hs Hn. destruct laws_1600 as (Hk & Hc & Ht & _). unfold round.
  destruct (theta_inverse k s Hk Ht Hs) as [[S1 _] _]. destruct (rho_ok k Hk _ S1) as [[S2 _] _].
  destruct (pi_ok k Hk _ S2) as [S3 _]. pose proof (chi_ok k Hk _ S3) as S4.
  rewrite (theta_eq s Hs), (rho_pi_eq _ S1), (chi_eq _ (proj1 S3)).
  rewrite iota_constant by (rewrite (proj1 S4); apply Nat.lt_0_succ).
  rewrite (constants_eq n Hn). cbn [rc_byte]. unfold Keccak.iota. change (index 0 0) with 0.
  replace (Z.to_nat (Z.rem (Z.rem (Z.of_nat n) 255 + 255) 255)) with n; [reflexivity|].
  clear - Hn. rewrite (Z.rem_small (Z.of_nat n)) by lia. rewrite Z.rem_mod_nonneg by lia.
  rewrite <- (Z.mod_unique (Z.of_nat n + 255) 255 1 (Z.of_nat n)) by lia. symmetry. apply Nat2Z.id.
Qed.

Lemma F_rounds s : state_ok k s → F s = forward k s ∧ state_ok k (F s).
Proof.
  intros Hs. destruct laws_1600 as (Hk & Hc & Ht & Hr). destruct object_1600 as (_ & _ & _ & H0 & Hn & _).
  assert (H : ∀ n, n ≤ 24 → for_ 0 n (fun n '(s, rc) => iota (chi (rho_pi (theta s))) rc) (s, 1%Z) =
    (for_ 0 n (fun i A => round k A (Z.of_nat i)) s, rc_byte n) ∧
    state_ok k (for_ 0 n (fun i A => round k A (Z.of_nat i)) s)).
  { induction n as [|n IH]; intros Hle; [done|]. destruct IH as [IH Sn]; [lia|].
    rewrite !(for_snoc 0 n), IH by lia. rewrite round_eq by (done || lia). split; [done|].
    by apply (lanes_round_inverse k Hk Hc Ht _ (Z.of_nat n)). }
  destruct (H 24 ltac:(lia)) as [E Sf]. unfold F. rewrite E. cbn [fst]. rewrite forward_rounds, Hn, H0 by done.
  split; [done|exact Sf].
Qed.

(** * The sponge is the one of FIPS 202 *)

(** The [200] bytes of a state. *)
Definition byte (A : list Z) (t : nat) : Z := (Z.shiftr A.[t / 8] (Z.of_nat (8 * (t mod 8))) mod 256)%Z.
Definition bytes (A : list Z) : list Z := map (byte A) (seq 0 200).

Lemma lane_bytes_8 : lane_bytes k = 8.
Proof. unfold lane_bytes. destruct object_1600 as (_ & -> & _). reflexivity. Qed.

Lemma bytes_lane_byte A : bytes A = map (lane_byte k A) (seq 0 (25 * lane_bytes k)).
Proof.
  rewrite lane_bytes_8. apply map_ext. intros t. unfold byte, lane_byte. rewrite lane_bytes_8.
  rewrite le_bytes_nth by (apply Nat.mod_upper_bound; discriminate). by rewrite Nat2Z.inj_mul.
Qed.

Lemma bytes_nth A t : t < 200 → (bytes A).[t] = byte A t.
Proof. intros. by apply nth_map_seq. Qed.

Lemma bytes_F A : state_ok k A → bytes (F A) = apply k (bytes A).
Proof.
  intros HA. destruct (F_rounds A HA) as [E _]. destruct laws_1600 as (Hk & _).
  destruct object_1600 as (Hm & _). destruct (made_laws _ _ Hm) as (_ & _ & _ & Hb & _).
  rewrite E. unfold apply. rewrite !bytes_lane_byte, (bytes_lanes k Hk A Hb HA).
  symmetry. apply fromLanes_spec; [exact Hb|apply length_map_seq].
Qed.

(** A byte added to a lane. *)
Lemma byte_insert A i x t : length A = 25 → i < 200 → is_byte x →
  byte (<[i / 8 := Z.lxor A.[i / 8] (u64 (Z.shiftl x (Z.of_nat (i mod 8 * 8))))]> A) t =
  Z.lxor (byte A t) (if decide (t = i) then x else 0%Z).
Proof.
  intros HA Hi Hx. unfold byte. rewrite nth_insert. assert (i / 8 < 25) by divlia.
  assert (Hm : ∀ j, j mod 8 < 8) by (intros; by apply Nat.mod_upper_bound).
  destruct (decide (i / 8 = t / 8 ∧ _)) as [[Hq _]|Hne].
  - rewrite <- Hq. change 256%Z with (2 ^ 8)%Z. pose proof (Hm i). pose proof (Hm t).
    assert (Ht : t = i ↔ t mod 8 = i mod 8) by (pose proof (Nat.div_mod_eq t 8); pose proof (Nat.div_mod_eq i 8); lia).
    generalize dependent (t mod 8). generalize dependent (i mod 8). intros a Ha b Hb Ht.
    change (wrap 8 (Z.shiftr (Z.lxor A.[i / 8] (u64 (Z.shiftl x (Z.of_nat (a * 8))))) (Z.of_nat (8 * b))) =
      Z.lxor (wrap 8 (Z.shiftr A.[i / 8] (Z.of_nat (8 * b)))) (if decide (t = i) then x else 0%Z)).
    bitwise. destruct (Z.ltb_spec i0 8); cbn [andb].
    + replace (i0 + Z.of_nat (8 * b) <? 64)%Z with true by (symmetry; apply Z.ltb_lt; lia). cbn [andb]. f_equal.
      destruct (decide (t = i)) as [E|E].
      * f_equal. apply Ht in E. lia.
      * rewrite Z.bits_0. destruct (Nat.lt_ge_cases a b); [apply (testbit_high 8); [done|lia]|].
        apply Z.testbit_neg_r. assert (a ≠ b) by (intros ->; apply E, Ht; reflexivity). lia.
    + destruct (decide (t = i)); [by rewrite (testbit_high 8)|by rewrite Z.bits_0].
  - rewrite decide_False by (intros ->; apply Hne; rewrite HA; done). by rewrite Z.lxor_0_r.
Qed.

Lemma absorb_ok r A x : r ≤ 200 → state_ok k A → bytes_ok x → state_ok k (absorb r A x) ∧
  ∀ t, byte (absorb r A x) t = Z.lxor (byte A t) (if decide (t < r) then x.[t] else 0%Z).
Proof.
  intros Hr HA Hx. destruct object_1600 as (_ & Hl & _).
  set (Q := fun i B => state_ok k B ∧ ∀ t, byte B t = Z.lxor (byte A t) (if decide (t < i) then x.[t] else 0%Z)).
  change (Q r (absorb r A x)). apply (for_inv Q); [lia|..]; unfold Q.
  - split; [exact HA|]. intros t. by rewrite decide_False, Z.lxor_0_r by lia.
  - intros i B Hi [HB E]. assert (Xi : is_byte x.[i]) by (by apply Forall_nth_Z; [|apply in_word_0]). split.
    + split; [rewrite length_insert; apply HB|]. apply Forall_insert_Z; [apply HB|]. rewrite Hl.
      apply in_word_lxor; [lia|rewrite <- Hl; apply lane_word; [apply laws_1600|exact HB]|by apply in_word_wrap].
    + intros t. rewrite byte_insert by first [apply HB|exact Xi|lia]. rewrite E, Z.lxor_assoc. f_equal.
      destruct (decide (t = i)) as [->|Hne].
      * rewrite decide_False, decide_True by lia. apply Z.lxor_0_l.
      * rewrite Z.lxor_0_r. destruct (decide (t < i)); [by rewrite decide_True by lia|by rewrite decide_False by lia].
Qed.

(** FIPS 202: the pad of the domain bits [p] and 10*1, the blocks absorbed through [f], the squeezed
    blocks.  [f] is the permutation on the 200 bytes. *)
Section reference.
Context (f : list Z → list Z).

Definition pad (r : nat) (m : list Z) (p : Z) : list Z :=
  let q := r - length m mod r in
  m ++ (if q =? 1 then [Z.lor p 128] else [p] ++ replicate (q - 2) 0%Z ++ [128%Z]).

Definition absorb_block (r i : nat) (P S : list Z) : list Z := xorv S (slice P (i * r) r ++ replicate (200 - r) 0%Z).

Fixpoint squeeze (r n : nat) (S : list Z) : list Z :=
  match n with O => [] | Datatypes.S n => take r S ++ squeeze r n (f S) end.

Definition fips_sponge (r : nat) (m : list Z) (p : Z) (d : nat) : list Z :=
  let P := pad r m p in
  let S := for_ 0 (length P / r) (fun i S => f (absorb_block r i P S)) (replicate 200 0%Z) in
  take d (squeeze r (d / r + 1) S).
End reference.

Lemma absorb_bytes r A x P i : r ≤ 200 → state_ok k A → bytes_ok x → i * r + r ≤ length P →
  (∀ t, t < r → x.[t] = P.[i * r + t]) → bytes (absorb r A x) = absorb_block r i P (bytes A).
Proof.
  intros Hr HA Hx HP E. destruct (absorb_ok r A x Hr HA Hx) as [_ Hb].
  assert (Ls : length (slice P (i * r) r) = r) by (by apply slice_length).
  assert (Lb : length (bytes A) = length (slice P (i * r) r ++ replicate (200 - r) 0%Z)).
  { rewrite length_app, Ls, length_replicate. unfold bytes. rewrite length_map_seq. lia. }
  apply list_eq_nth; unfold absorb_block.
  - rewrite xorv_length by exact Lb. unfold bytes. by rewrite !length_map_seq.
  - intros t Ht. rewrite xorv_nth by exact Lb. unfold bytes in Ht. rewrite length_map_seq in Ht.
    rewrite !bytes_nth, Hb by done. f_equal. destruct (decide (t < r)) as [Hl|Hl].
    + rewrite app_nth1 by lia. unfold slice. rewrite nth_firstn. nat_true (t <? r). rewrite nth_skipn. by apply E.
    + rewrite app_nth2, nth_replicate by lia. by destruct (decide _).
Qed.

Lemma squeeze_nth r n A i : 0 < r ≤ 200 → state_ok k A → i < n * r →
  (squeeze (apply k) r n (bytes A)).[i] = byte (Nat.iter (i / r) F A) (i mod r).
Proof.
  intros Hr. revert A i. induction n as [|n IH]; intros A i HA Hi; [lia|]. cbn [squeeze].
  assert (Lt : length (take r (bytes A)) = r) by (rewrite length_take; unfold bytes; rewrite length_map_seq; lia).
  destruct (Nat.lt_ge_cases i r).
  - rewrite app_nth1 by lia. rewrite Nat.div_small, Nat.mod_small by done. rewrite nth_firstn. nat_true (i <? r).
    apply bytes_nth. lia.
  - rewrite app_nth2, Lt by lia. rewrite <- bytes_F, IH by (lia || done || by apply F_rounds).
    rewrite <- Nat.iter_succ_r. f_equal.
    + f_equal. rewrite <- Nat.add_1_r, <- Nat.div_add by lia. f_equal. lia.
    + rewrite <- (Nat.Div0.mod_add (i - r) 1). f_equal. lia.
Qed.

Lemma squeeze_length f r n S : (∀ x, length (f x) = length x) → r ≤ length S → length (squeeze f r n S) = n * r.
Proof.
  intros Hf. revert S. induction n as [|n IH]; intros S HS; [done|]. cbn [squeeze].
  rewrite length_app, length_take, IH by (rewrite Hf; done). lia.
Qed.

(** The loop that fills the output. *)
Lemma squeeze_loop w d A : 0 < w → let r := 8 * w in let out := snd (for_ 0 d (fun i '(s, h) =>
    let s := if i mod r =? 0 then F s else s in
    (s, <[i := u8 (Z.shiftr s.[i mod r / 8] (Z.of_nat (8 * (i mod 8))))]> h)) (A, replicate d 0%Z)) in
  length out = d ∧ ∀ j, j < d → out.[j] = byte (Nat.iter (j / r + 1) F A) (j mod r).
Proof.
  intros Hw r. cbv zeta. match goal with |- context [for_ 0 d ?f ?s] =>
    set (Q := fun i (x : list Z * list Z) => x.1 = Nat.iter ((i + r - 1) / r) F A ∧ length x.2 = d ∧
      ∀ j, j < i → x.2.[j] = byte (Nat.iter (j / r + 1) F A) (j mod r));
    assert (H : Q d (for_ 0 d f s)) end; [|apply H].
  apply for_inv; [lia|..]; unfold Q; clear Q.
  - split; [by rewrite Nat.div_small by lia|]. split; [apply length_replicate|lia].
  - intros i [s h] Hi (Hs & Hl & Hh). cbn [fst snd] in *. subst s.
    assert (E : (if i mod r =? 0 then F (Nat.iter ((i + r - 1) / r) F A) else Nat.iter ((i + r - 1) / r) F A) =
      Nat.iter (i / r + 1) F A).
    { pose proof (Nat.div_mod_eq i r). assert (i mod r < r) by (apply Nat.mod_upper_bound; lia).
      destruct (Nat.eqb_spec (i mod r) 0).
      - rewrite <- Nat.iter_succ. f_equal. rewrite Nat.add_1_r. f_equal. symmetry. apply Nat.div_unique with (r - 1); lia.
      - f_equal. symmetry. apply Nat.div_unique with (i mod r - 1); lia. }
    rewrite E. split; [|split; [by rewrite length_insert|]].
    + f_equal. replace (S i + r - 1) with (i + 1 * r) by lia. by rewrite Nat.div_add by lia.
    + intros j Hj. rewrite nth_insert. destruct (decide _) as [[<- _]|Hne]; [|apply Hh; lia].
      unfold byte. unfold wrap. change (2 ^ 8)%Z with 256%Z. do 4 f_equal. unfold r.
      rewrite Nat.Div0.mod_mul_r, (Nat.mul_comm 8 (_ mod _)), Nat.Div0.mod_add. symmetry. apply Nat.Div0.mod_mod.
Qed.

Lemma pad_length r m p : 0 < r → length (pad r m p) = (length m / r + 1) * r.
Proof.
  intros Hr. unfold pad. assert (length m mod r < r) by (apply Nat.mod_upper_bound; lia).
  pose proof (Nat.div_mod_eq (length m) r). rewrite length_app.
  destruct (Nat.eqb_spec (r - length m mod r) 1); cbn [length]; [lia|].
  rewrite !length_app, length_replicate. cbn [length]. lia.
Qed.

(** The last block, built in [t]. *)
Lemma last_block r m p n m' : 0 < r ≤ 200 → bytes_ok m → is_byte p → n = length m mod r → m' = drop (length m / r * r) m →
  let x := <[n := p]> (for_ 0 n (fun i t => <[i := m'.[i]]> t) (replicate 200 0%Z)) in
  let t := <[r - 1 := Z.lor x.[r - 1] 128]> x in
  bytes_ok t ∧ ∀ i, i < r → t.[i] = (pad r m p).[length m / r * r + i].
Proof.
  intros Hr Hm Hp -> ->. cbv zeta. set (q := length m / r * r). set (n := length m mod r).
  assert (Hn : n < r) by (apply Nat.mod_upper_bound; lia).
  assert (Hlen : length m = q + n) by (pose proof (Nat.div_mod_eq (length m) r); unfold q, n; lia).
  match goal with |- context [for_ 0 n ?f ?s] => set (t := for_ 0 n f s);
    set (Q := fun i (t : list Z) => length t = 200 ∧ bytes_ok t ∧ ∀ j, t.[j] = if decide (j < i) then m.[q + j] else 0%Z);
    assert (H : Q n t) end.
  { apply for_inv; [lia|..]; unfold Q.
    - split; [apply length_replicate|]. split; [by apply Forall_replicate|]. intros j. rewrite nth_replicate.
      rewrite (decide_False (P := j < 0)) by lia. by destruct (decide _).
    - intros i u Hi (Hl & Hb & Hu). split; [by rewrite length_insert|]. split; [apply Forall_insert_Z; [done|]|].
      + apply Forall_nth_Z; [by apply Forall_drop|done].
      + intros j. rewrite nth_insert, Hl, Hu, nth_skipn. destruct (decide (i = j ∧ _)) as [[<- _]|Hne].
        * by rewrite decide_True by lia.
        * destruct (decide (j < i)); [by rewrite decide_True by lia|by rewrite decide_False by lia]. }
  destruct H as (Hl & Hb & Ht). split.
  - apply Forall_insert_Z; [by apply Forall_insert_Z|]. apply in_word_lor; [lia| |done].
    apply Forall_nth_Z; [by apply Forall_insert_Z|done].
  - intros i Hi. unfold pad. fold n. rewrite !nth_insert, length_insert, Hl, !Ht.
    destruct (Nat.lt_ge_cases i n).
    + rewrite app_nth1 by lia. rewrite !decide_False, decide_True by lia. done.
    + rewrite app_nth2, Hlen by lia. replace (q + i - (q + n)) with (i - n) by lia.
      destruct (Nat.eqb_spec (r - n) 1) as [E1|E1].
      * rewrite !decide_True by lia. by replace (i - n) with 0 by lia.
      * rewrite (decide_False (P := n = r - 1 ∧ _)), (decide_False (P := r - 1 < n)) by lia. destruct (decide (r - 1 = i ∧ _)) as [[<- _]|Hne].
        -- rewrite app_nth2 by (cbn [length]; lia). cbn [length]. rewrite app_nth2 by (rewrite length_replicate; lia).
           rewrite length_replicate. by replace (r - 1 - n - 1 - (r - n - 2)) with 0 by lia.
        -- destruct (decide (n = i ∧ _)) as [[<- _]|Hni]; [by rewrite Nat.sub_diag|].
           rewrite decide_False, app_nth2 by (cbn [length]; lia). cbn [length].
           rewrite app_nth1, nth_replicate by (rewrite length_replicate; lia). by destruct (decide _).
Qed.

Lemma for_related {S T : Type} (R : S → T → Prop) n f g s t : R s t →
  (∀ i s t, i < n → R s t → R (f i s) (g i t)) → R (for_ 0 n f s) (for_ 0 n g t).
Proof.
  intros H0 H. induction n as [|n IH]; [done|]. rewrite !(for_snoc 0 n) by lia. apply H; [lia|].
  apply IH. intros i x y Hi. apply H. lia.
Qed.

Lemma fromLanes_length A out : length (fromLanesToBytes k A out) = length out.
Proof.
  unfold fromLanesToBytes. repeat case_match; [| |done];
    repeat (apply (for_inv (fun _ o => length o = length out)); [lia|try done|intros; rewrite ?length_insert; try done]).
Qed.

Lemma sponge_fips w m p d : 0 < w ≤ 25 → bytes_ok m → is_byte p →
  sponge (8 * w) m p d = fips_sponge (apply k) (8 * w) m p d.
Proof.
  intros Hw Hm Hp. set (r := 8 * w). assert (Hr : 0 < r ≤ 200) by lia. unfold sponge, fips_sponge.
  destruct (last_block r m p _ _ Hr Hm Hp eq_refl eq_refl) as [Hb Hlast]. cbv zeta in Hb, Hlast.
  match type of Hb with Forall _ ?u => set (t := u) in *; clearbody t end.
  pose proof (pad_length r m p ltac:(lia)) as HP. rewrite HP, Nat.div_mul by lia.
  rewrite (Nat.add_1_r (length m / r)). rewrite (for_snoc 0 (length m / r)) by lia. rewrite Nat.add_1_r in HP.
  match goal with |- context [absorb r ?a t] => set (A := a) end.
  match goal with |- context [absorb_block r _ _ ?b] => set (B := b) end.
  assert (HR : state_ok k A ∧ bytes A = B).
  { unfold A, B. apply (for_related (fun A B => state_ok k A ∧ bytes A = B)).
    - split; [|reflexivity]. split; [reflexivity|]. apply Forall_replicate. destruct object_1600 as (_ & -> & _). by apply in_word_0.
    - intros i x y Hi [Hx <-]. assert (Hd : bytes_ok (drop (i * r) m)) by (by apply Forall_drop).
      destruct (absorb_ok r x _ ltac:(lia) Hx Hd) as [Ha _]. split; [by apply F_rounds|].
      rewrite bytes_F by done. f_equal. apply absorb_bytes; [lia|done|done|nia|]. intros j Hj.
      assert (i * r + j < length m) by (pose proof (Nat.div_mod_eq (length m) r); nia).
      rewrite nth_skipn. unfold pad. by rewrite app_nth1 by done. }
  destruct HR as [HA <-]. destruct (absorb_ok r A t ltac:(lia) HA Hb) as [HA2 _].
  rewrite <- (absorb_bytes r A t), <- bytes_F by (done || lia).
  destruct (squeeze_loop w d (absorb r A t) ltac:(lia)) as [Lo Ho]. fold r in Lo, Ho. cbv zeta in Lo, Ho.
  assert (HF : state_ok k (F (absorb r A t))) by (by apply F_rounds).
  assert (Hd : d < (d / r + 1) * r) by (pose proof (Nat.div_mod_eq d r); pose proof (Nat.mod_upper_bound d r ltac:(lia)); lia).
  apply list_eq_nth; rewrite Lo.
  - rewrite length_take, squeeze_length; [lia| |unfold bytes; rewrite length_map_seq; lia].
    intros x. unfold apply. apply fromLanes_length.
  - intros i Hi. rewrite Ho by done. rewrite nth_firstn. nat_true (i <? d). rewrite squeeze_nth by (done || lia).
    by rewrite Nat.add_1_r, Nat.iter_succ_r.
Qed.

End equivalence.

(** [F], written for size over one array of 25 lanes, computes the Keccak-f[1600] that KeccakTools
    computes from its tables, on every state. *)
Theorem F_is_KeccakF k s : KeccakF_of 1600 = Ok k → length s = 25 → Forall (in_word 64) s → F s = forward k s.
Proof.
  intros Hk Hl Hs. apply (F_rounds k Hk). destruct (object_1600 k Hk) as (_ & E & _).
  split; [exact Hl|]. rewrite E. exact Hs.
Qed.

Lemma F_is_KeccakF_witness : let s := map (fun i => (Z.of_nat i * 0x0123456789)%Z) (seq 0 25) in
  ∃ k, KeccakF_of 1600 = Ok k ∧ F s = forward k s.
Proof.
  intros s. eexists. split; [reflexivity|]. apply F_is_KeccakF; [reflexivity|reflexivity|].
  apply Forall_forall. intros x Hx. apply list_elem_of_In, in_map_iff in Hx as (i & <- & Hi%in_seq). split; lia.
Defined.

(** C13 Every function of the file is the sponge of FIPS 202 over KeccakTools' Keccak-f[1600]: the padded
    message is absorbed block by block and the output is the squeezed blocks cut to the length asked
    for. *)
Theorem crypto_hash_fips202 k m d : KeccakF_of 1600 = Ok k → bytes_ok m → let sponge := fips_sponge (apply k) in
  crypto_hash_shake128 d m = (0%Z, sponge 168 m 31%Z d) ∧ crypto_hash_shake256 d m = (0%Z, sponge 136 m 31%Z d) ∧
  crypto_hash_sha3224 m = sponge 144 m 6%Z 28 ∧ crypto_hash_sha3256 m = sponge 136 m 6%Z 32 ∧
  crypto_hash_sha3384 m = sponge 104 m 6%Z 48 ∧ crypto_hash_sha3512 m = sponge 72 m 6%Z 64.
Proof.
  intros Hk Hm f. assert (H : ∀ w p d, 0 < w ≤ 25 → is_byte p → Shake.sponge (8 * w) m p d = f (8 * w) m p d).
  { intros w p d' Hw Hp. exact (sponge_fips k Hk w m p d' Hw Hm Hp). }
  assert (H31 : is_byte 31) by done. assert (H6 : is_byte 6) by done.
  split; [exact (f_equal (pair 0%Z) (H 21 _ d ltac:(lia) H31))|].
  split; [exact (f_equal (pair 0%Z) (H 17 _ d ltac:(lia) H31))|].
  split; [exact (H 18 _ 28 ltac:(lia) H6)|]. split; [exact (H 17 _ 32 ltac:(lia) H6)|].
  split; [exact (H 13 _ 48 ltac:(lia) H6)|exact (H 9 _ 64 ltac:(lia) H6)].
Qed.

Lemma crypto_hash_fips202_witness : ∃ k, KeccakF_of 1600 = Ok k ∧
  crypto_hash_shake256 400 [1; 2; 3]%Z = (0%Z, fips_sponge (apply k) 136 [1; 2; 3]%Z 31 400).
Proof.
  eexists. split; [reflexivity|]. apply crypto_hash_fips202; [reflexivity|]. repeat (constructor; [done|]). constructor.
Defined.

(** * What the Feistel permutation assumes of SHAKE256 *)

(** The call of permutation.cpp: the output when the return code is zero. *)
Definition shake256 (d : nat) (m : list Z) : option (list Z) :=
  let '(rc, h) := crypto_hash_shake256 d m in if (rc =? 0)%Z then Some h else None.

Lemma sponge_ok r m p d : buf_ok d (sponge r m p d).
Proof.
  unfold sponge. match goal with |- context [for_ 0 d ?f ?s] => set (Q := fun (i : nat) (x : list Z * list Z) => buf_ok d x.2);
    assert (H : Q d (for_ 0 d f s)) end; [|exact H].
  apply for_inv; [lia|..]; unfold Q.
  - split; [apply length_replicate|]. by apply Forall_replicate.
  - intros i [A h] Hi [Hl Hh]. split; cbn [snd] in *; [by rewrite length_insert|]. apply Forall_insert_Z; [done|].
    by apply in_word_wrap.
Qed.

Lemma shake256_ok : Feistel.Feistel.shake_ok shake256.
Proof. intros d m out [= <-]. apply sponge_ok. Qed.

Lemma shake256_total : Feistel.Feistel.shake_total shake256.
Proof. intros d m. by eexists. Qed.

End Shake.
