(* ===== verification/ConsPi.v ===== *)
(** Construction-Pi, the wide permutation built from a small one: frontend/permutation/cons.h. *)
From Stdlib Require Import ZifyNat.
From S2P Require Import Prelude Words PermApi BitBuf Small.
Open Scope nat_scope.

Module ConsPi.
Import Pi.

(** The fields of the object. *)
Record State : Type := mkState {
  params_ : Params;
  small_ : SmallPerm;
  party_ : Z;
  t_ : nat;
  r_ : nat;
  roundBits_ : nat;
}.

Definition checkParams (p : Params) (small : SmallPerm) : Res unit :=
  throw_if ((n p =? 0) || (N p =? 0) || (s p =? 0)) (InvalidArgument "Pi params must be positive") ;;
  throw_if (negb (n p =? sp_bits small)) (InvalidArgument "Pi n must match the small permutation width") ;;
  throw_if (N p <=? n p) (InvalidArgument "Pi needs N > n") ;;
  throw_if (negb ((N p - n p) mod s p =? 0)) (InvalidArgument "Pi needs step to divide N - n") ;;
  throw_if (n p <? s p) (InvalidArgument "Pi needs s <= n") ;;
  let minGap := 2 * lambda p in
  throw_if (negb ((minGap <=? s p) && (minGap <=? n p - s p))) (InvalidArgument "Pi lambda check failed").

(** [do { ++bits; x >>= 1; } while (x != 0);]: at most 64 iterations on a [size_t]. *)
Fixpoint bitsLoop (fuel x bits : nat) : nat :=
  match fuel with
  | O => bits
  | S fuel' =>
      let x := x / 2 in
      if x =? 0 then bits + 1 else bitsLoop fuel' x (bits + 1)
  end.
Definition bitsNeeded (x : nat) : nat := bitsLoop 64 x 0.

Section Make.
Context (keccak keccak_inv : nat → nat → list Z → list Z).

(** The constructor from parameters. *)
Definition construct (params : Params) (party : Z) : Res State :=
  small ← makePerm keccak keccak_inv (kind params);
  checkParams params small ;;
  let t := (N params - n params) / s params + 1 in
  let r := 5 * t - 2 in
  mret (mkState params small (Z.land party 1) t r (bitsNeeded (r - 1))).

(** The constructor from explicit sizes. *)
Definition legacyParams (nBits totalBits stepBits lambdaBits : nat) : Params :=
  mkParams (if nBits =? 800 then Keccak800 else Keccak1600) nBits totalBits stepBits lambdaBits.
End Make.

(** * Bits of the state and of the buffer *)

Definition getByteBit (data : list Z) (idx : nat) : Z :=
  u8 (Z.land (Z.shiftr data.[idx / 8] (Z.of_nat (idx mod 8))) 1).

Definition setByteBit (data : list Z) (idx : nat) (bit : Z) : list Z :=
  let mask := u8 (Z.shiftl 1 (Z.of_nat (idx mod 8))) in
  if negb (Z.land bit 1 =? 0)%Z
  then <[idx / 8 := Z.lor data.[idx / 8] mask]> data
  else <[idx / 8 := Z.land data.[idx / 8] (wnot 8 mask)]> data.

Definition setBufBit (buf : list Z) (idx : nat) (bit : Z) : list Z :=
  if negb (Z.land bit 1 =? 0)%Z
  then <[idx / 8 := Z.lor buf.[idx / 8] (u8 (Z.shiftl 1 (Z.of_nat (idx mod 8))))]> buf
  else buf.

Definition getBufBit (buf : list Z) (idx : nat) : Z :=
  u8 (Z.land (Z.shiftr buf.[idx / 8] (Z.of_nat (idx mod 8))) 1).

(** [data[idx / 8] ^= 1 << (idx % 8)] *)
Definition flipByteBit (data : list Z) (idx : nat) : list Z :=
  <[idx / 8 := Z.lxor data.[idx / 8] (u8 (Z.shiftl 1 (Z.of_nat (idx mod 8))))]> data.

Definition bitsToBytes (bits : list Z) : list Z :=
  for_ 0 (length bits) (fun i bytes =>
    if negb (Z.land bits.[i] 1 =? 0)%Z
    then <[i / 8 := Z.lor bytes.[i / 8] (u8 (Z.shiftl 1 (Z.of_nat (i mod 8))))]> bytes
    else bytes) (replicate ((length bits + 7) / 8) 0%Z).

Definition bytesToBits (bytes bits : list Z) : list Z :=
  for_ 0 (length bits) (fun i bits => <[i := getByteBit bytes i]> bits) bits.

Section Ops.
Context (st : State).
Abbreviation n := (n (params_ st)).
Abbreviation N := (N (params_ st)).
Abbreviation s := (s (params_ st)).

(** [(x < N) ? x : (x - N)] *)
Definition wrapN (x : nat) : nat := if x <? N then x else x - N.

Definition packShifted (data : list Z) (off : nat) (buf : list Z) : list Z :=
  let nBytes := n / 8 in
  let totalBytes := N / 8 in
  if off mod 8 =? 0 then
    let start := off / 8 in
    let first := Nat.min nBytes (totalBytes - start) in
    let buf := memcpy buf 0 data start first in
    if first <? nBytes then memcpy buf first data 0 (nBytes - first) else buf
  else
    let buf := replicate (length buf) 0%Z in
    for_ 0 n (fun i buf => setBufBit buf i (getByteBit data (wrapN (off + i)))) buf.

Definition unpackShifted (buf data : list Z) (off : nat) : list Z :=
  let nBytes := n / 8 in
  let totalBytes := N / 8 in
  if off mod 8 =? 0 then
    let start := off / 8 in
    let first := Nat.min nBytes (totalBytes - start) in
    let data := memcpy data start buf 0 first in
    if first <? nBytes then memcpy data 0 buf first (nBytes - first) else data
  else
    for_ 0 n (fun i data => setByteBit data (wrapN (off + i)) (getBufBit buf i)) data.

Definition materialize (data : list Z) (off : nat) : list Z :=
  if off =? 0 then data else
  if off mod 8 =? 0 then drop (off / 8) data ++ take (off / 8) data else
  let tmp := replicate (length data) 0%Z in
  let tmp := for_ 0 N (fun i tmp => setByteBit tmp i (getByteBit data (wrapN (i + off)))) tmp in
  memcpy data 0 tmp 0 (length data).

Definition applyShift (data : list Z) (off : nat) (buf : list Z) : Res (list Z * list Z) :=
  let buf := packShifted data off buf in
  buf ← sp_apply (small_ st) buf;
  mret (unpackShifted buf data off, buf).

Definition applyInvShift (data : list Z) (off : nat) (buf : list Z) : Res (list Z * list Z) :=
  let buf := packShifted data off buf in
  buf ← sp_invert (small_ st) buf;
  mret (unpackShifted buf data off, buf).

(** [while (v != 0 && bit < len)]: [v] is a [size_t], so 64 iterations suffice. *)
Fixpoint xorLoop (fuel : nat) (v : Z) (bit len start : nat) (data : list Z) : list Z :=
  match fuel with
  | O => data
  | S fuel' =>
      if negb (v =? 0)%Z && (bit <? len) then
        let data := if negb (Z.land v 1 =? 0)%Z then flipByteBit data (wrapN (start + bit)) else data in
        xorLoop fuel' (Z.shiftr v 1) (bit + 1) len start data
      else data
  end.

Definition xorRound (data : list Z) (off round : nat) : list Z :=
  let len := n - s in
  let start := off + s in
  let start := if N <=? start then start - N else start in
  let data := xorLoop 64 (Z.of_nat round) 0 len start data in
  if negb (party_ st =? 0)%Z && (roundBits_ st <? len)
  then flipByteBit data (wrapN (start + roundBits_ st))
  else data.

Definition checkBytes (bytes : nat) : Res unit :=
  throw_if (negb (bytes * 8 =? N)) (InvalidArgument "Pi byte state size mismatch").

(** Body of the loop of [encryptBytes]; [round = k + 1], the state is [data, off, buf]. *)
Definition encStep (k : nat) (x : list Z * nat * list Z) : Res (list Z * nat * list Z) :=
  let '(data, off, buf) := x in
  '(data, buf) ← applyShift data off buf;
  let data := xorRound data off (k + 1) in
  mret (data, (off + s) mod N, buf).

Definition encrypt_bytes (data : list Z) : Res (list Z) :=
  checkBytes (length data) ;;
  let buf := replicate (sp_bytes (small_ st)) 0%Z in
  '(data, off, buf) ← forR 0 (r_ st - 1) encStep (data, 0, buf);
  '(data, buf) ← applyShift data off buf;
  mret (materialize data off).

(** Body of the loop of [decryptBytes], [round = k + 1]. *)
Definition decStep (k : nat) (x : list Z * nat * list Z) : Res (list Z * nat * list Z) :=
  let '(data, off, buf) := x in
  let off := (off + N - s) mod N in
  let data := xorRound data off (k + 1) in
  '(data, buf) ← applyInvShift data off buf;
  mret (data, off, buf).

Definition decrypt_bytes (data : list Z) : Res (list Z) :=
  checkBytes (length data) ;;
  let buf := replicate (sp_bytes (small_ st)) 0%Z in
  '(data, buf) ← applyInvShift data 0 buf;
  '(data, off, buf) ← for_downR (r_ st - 1) decStep (data, 0, buf);
  mret (materialize data off).

(** The entry points on vectors of bits. *)
Definition checkState (x : list Z) : Res unit :=
  throw_if (negb (length x =? N)) (InvalidArgument "Pi state size mismatch") ;;
  throw_if (negb (forallb (fun bit => (bit =? 0) || (bit =? 1))%Z x))
    (InvalidArgument "Pi state must be binary").

Definition encrypt (x : list Z) : Res (list Z) :=
  checkState x ;;
  bytes ← encrypt_bytes (bitsToBytes x);
  mret (bytesToBits bytes x).

Definition decrypt (x : list Z) : Res (list Z) :=
  checkState x ;;
  bytes ← decrypt_bytes (bitsToBytes x);
  mret (bytesToBits bytes x).

Definition perm : Perm := {|
  perm_name := "conspi";
  perm_detail := sp_label (small_ st);
  perm_n := n;
  perm_s := s;
  perm_rounds := r_ st;
  encryptBytes := encrypt_bytes;
  decryptBytes := decrypt_bytes;
|}.

End Ops.

(** * Single bits *)

Lemma getByteBit_odd data idx : Z.odd (getByteBit data idx) = bitb data idx.
Proof.
  unfold getByteBit, bitb. rewrite <- Z.bit0_odd, wrap_testbit, Z.land_spec, Z.shiftr_spec, Z.add_0_l by lia.
  change (Z.testbit 1 0) with true. by rewrite andb_true_r.
Qed.

Lemma setByteBit_spec b data idx x : buf_ok b data → idx < 8 * b →
  buf_ok b (setByteBit data idx x) ∧
  ∀ j, bitb (setByteBit data idx x) j = if j =? idx then Z.odd x else bitb data j.
Proof.
  intros [Hl Hb] Hi. pose proof (byte_div _ _ Hi) as Hq. unfold setByteBit. rewrite low_bit_odd.
  pose proof (Nat.mod_upper_bound idx 8 ltac:(lia)) as Hm.
  assert (Hw : in_word 8 data.[idx / 8]) by (apply Forall_nth_Z; [done|by apply in_word_0]).
  set (mask := u8 (Z.shiftl 1 (Z.of_nat (idx mod 8)))).
  assert (Hmask : in_word 8 mask) by (apply in_word_wrap; lia).
  destruct (Z.odd x); (split; [split; [by rewrite length_insert|apply Forall_insert; [done|]]|]).
  - by apply in_word_lor.
  - intros j. rewrite bitb_insert by lia. rewrite <- (same_bit j idx).
    destruct (Nat.eqb_spec (j / 8) (idx / 8)) as [E|]; cbn [andb]; [|done].
    rewrite Z.lor_spec. unfold mask. rewrite wbit_mask by done. unfold bitb. rewrite E.
    destruct (j mod 8 =? idx mod 8); [apply orb_true_r|apply orb_false_r].
  - apply in_word_land; [lia|done|]. apply in_word_wrap. lia.
  - intros j. rewrite bitb_insert by lia. rewrite <- (same_bit j idx).
    destruct (Nat.eqb_spec (j / 8) (idx / 8)) as [E|]; cbn [andb]; [|done].
    unfold wnot. rewrite Z.land_spec, wrap_testbit, Z.lnot_spec by lia. unfold mask. rewrite wbit_mask by done.
    unfold bitb. rewrite E. pose proof (Nat.mod_upper_bound j 8 ltac:(lia)).
    replace (Z.of_nat (j mod 8) <? 8)%Z with true by (symmetry; apply Z.ltb_lt; lia).
    destruct (j mod 8 =? idx mod 8); [apply andb_false_r|apply andb_true_r].
Qed.

Lemma setBufBit_spec b buf idx x : buf_ok b buf → idx < 8 * b →
  buf_ok b (setBufBit buf idx x) ∧
  ∀ j, bitb (setBufBit buf idx x) j = bitb buf j || ((j =? idx) && Z.odd x).
Proof.
  intros Hbuf Hi. unfold setBufBit. rewrite low_bit_odd. destruct (Z.odd x) eqn:E.
  - destruct (setByteBit_spec b buf idx 1 Hbuf Hi) as [H1 H2]. split; [exact H1|]. intros j.
    change (<[idx / 8 := _]> buf) with (setByteBit buf idx 1). rewrite H2.
    destruct (j =? idx); by rewrite ?orb_true_r, ?orb_false_r.
  - split; [done|]. intros j. by rewrite andb_false_r, orb_false_r.
Qed.

Lemma flipByteBit_spec b data idx : buf_ok b data → idx < 8 * b →
  buf_ok b (flipByteBit data idx) ∧
  ∀ j, bitb (flipByteBit data idx) j = xorb (bitb data j) (j =? idx).
Proof.
  intros [Hl Hb] Hi. pose proof (byte_div _ _ Hi) as Hq. unfold flipByteBit.
  pose proof (Nat.mod_upper_bound idx 8 ltac:(lia)) as Hm. split.
  - split; [by rewrite length_insert|]. apply Forall_insert; [done|].
    apply in_word_lxor; [lia|by apply Forall_nth_Z; [|apply in_word_0]|by apply in_word_wrap].
  - intros j. rewrite bitb_insert by lia. rewrite <- (same_bit j idx).
    destruct (Nat.eqb_spec (j / 8) (idx / 8)) as [E|]; cbn [andb]; [|by rewrite xorb_false_r].
    rewrite Z.lxor_spec, wbit_mask by done. unfold bitb. by rewrite E.
Qed.


(** * The moving window *)

Section Window.
Context (st : State) (nb NB : nat).
Abbreviation n := (n (params_ st)).
Abbreviation N := (N (params_ st)).
Abbreviation s := (s (params_ st)).
Hypothesis HnB : n = 8 * nb.
Hypothesis HNB : N = 8 * NB.
Hypothesis HnN : n ≤ N.

(** The state seen from offset [off]: an [N]-bit number, rotated. *)
Definition view (off : nat) (data : list Z) : Z :=
  rotw (Z.of_nat N) (le_val data) (Z.of_nat off).

Lemma wrapN_mod x : 0 < N → x < 2 * N → wrapN st x = x mod N.
Proof.
  intros HN Hx. unfold wrapN. destruct (Nat.ltb_spec x N); [by rewrite Nat.mod_small|].
  apply (Nat.mod_unique _ _ 1); lia.
Qed.

Lemma data_word data : buf_ok NB data → in_word (Z.of_nat N) (le_val data).
Proof. intros Hd. rewrite HNB. by apply buf_value. Qed.

Lemma view_word off data : buf_ok NB data → in_word (Z.of_nat N) (view off data).
Proof. intros Hd. apply rotw_word; [lia|lia|by apply data_word]. Qed.

Lemma view_bit off data i : buf_ok NB data → off < N → i < N →
  Z.testbit (view off data) (Z.of_nat i) = bitb data (wrapN st (off + i)).
Proof.
  intros Hd Hoff Hi. unfold view. rewrite rotw_bit; [|lia|by apply data_word|lia].
  rewrite wrapN_mod by lia. rewrite <- le_val_testbit by apply Hd. f_equal.
  rewrite <- Nat2Z.inj_add, <- Nat2Z.inj_mod. f_equal. f_equal. lia.
Qed.

Lemma wrapN_lt off i : off < N → i < N → wrapN st (off + i) < 8 * NB.
Proof. intros. unfold wrapN. destruct (Nat.ltb_spec (off + i) N); lia. Qed.

(** The byte-aligned case: offset [8 a] moves whole bytes. *)
Lemma aligned_byte a i : a < NB → i < N →
  wrapN st (8 * a + i) / 8 = (if a + i / 8 <? NB then a + i / 8 else a + i / 8 - NB) ∧
  wrapN st (8 * a + i) mod 8 = i mod 8.
Proof.
  intros Ha Hi. unfold wrapN. destruct (Nat.ltb_spec (8 * a + i) N), (Nat.ltb_spec (a + i / 8) NB); divlia.
Qed.

Lemma packShifted_spec off data buf : buf_ok NB data → off < N → buf_ok nb buf →
  buf_ok nb (packShifted st data off buf) ∧
  ∀ i, i < n → bitb (packShifted st data off buf) i = bitb data (wrapN st (off + i)).
Proof.
  intros [Hdl Hdb] Hoff [Hbl Hbb]. unfold packShifted.
  destruct (Nat.eqb_spec (off mod 8) 0) as [Hal|Hal].
  - replace (n / 8) with nb by divlia. replace (N / 8) with NB by divlia.
    assert (Ha : off / 8 < NB) by divlia. set (a := off / 8) in *.
    assert (Eo : off = 8 * a) by (unfold a; divlia). clearbody a. subst off. clear Hal.
    set (first := Nat.min nb (NB - a)). set (b1 := memcpy buf 0 data a first).
    assert (Hl1 : length b1 = nb) by (unfold b1; rewrite memcpy_length; unfold first; lia).
    assert (Hn1 : ∀ k, k < nb → b1.[k] = if k <? first then data.[a + k] else buf.[k]).
    { intros k Hk. unfold b1. rewrite nth_memcpy by (unfold first; lia). cbn [Nat.leb andb Nat.add].
      by rewrite Nat.sub_0_r. }
    assert (Hok1 : bytes_ok b1) by by apply memcpy_ok.
    set (b2 := if first <? nb then _ else b1).
    assert (H2 : buf_ok nb b2 ∧ ∀ k, k < nb → b2.[k] = data.[if a + k <? NB then a + k else a + k - NB]).
    { unfold b2. destruct (Nat.ltb_spec first nb).
      - split; [split; [rewrite memcpy_length; unfold first in *; lia|by apply memcpy_ok]|].
        intros k Hk. rewrite nth_memcpy, Hn1 by (unfold first in *; lia).
        unfold first in *. destruct (Nat.ltb_spec (a + k) NB); nat_cmp; [done|f_equal; lia].
      - split; [done|]. intros k Hk. rewrite Hn1 by done. unfold first in *. by nat_cmp. }
    destruct H2 as [Hok2 Hn2]. clearbody b2. split; [done|]. intros i Hi.
    destruct (aligned_byte a i Ha ltac:(lia)) as [E1 E2]. unfold bitb. rewrite E1, E2.
    by rewrite Hn2 by divlia.
  - set (f := fun i buf => setBufBit buf i (getByteBit data (wrapN st (off + i)))). rewrite Hbl.
    loop_inv (fun i b => buf_ok nb b ∧ ∀ j, j < n →
      bitb b j = (j <? i) && bitb data (wrapN st (off + j))) as H.
    + lia.
    + split; [apply zeros_buf|]. intros j _. apply zeros_bitb.
    + intros i b Hi [Hb IH]. unfold f.
      destruct (setBufBit_spec nb b i (getByteBit data (wrapN st (off + i))) Hb ltac:(lia)) as [Hb' Hs].
      split; [done|]. intros j Hj. rewrite Hs, IH, getByteBit_odd by done.
      destruct (Nat.eqb_spec j i) as [->|]; [by nat_cmp|]. rewrite andb_false_l, orb_false_r.
      destruct (Nat.ltb_spec j i); by nat_cmp.
    + destruct H as [Hb H]. split; [done|]. intros i Hi. rewrite H by done. by nat_cmp.
Qed.

(** Position of state bit [j] in the window that starts at [off]. *)
Definition winpos (off j : nat) : nat := if off <=? j then j - off else j + N - off.

Lemma winpos_wrap off j : off < N → j < N → winpos off j < N ∧ wrapN st (off + winpos off j) = j.
Proof.
  intros. unfold winpos, wrapN. destruct (Nat.leb_spec off j).
  - split; [lia|]. nat_cmp. lia.
  - split; [lia|]. nat_cmp. lia.
Qed.

Lemma wrap_winpos off i : off < N → i < N → winpos off (wrapN st (off + i)) = i.
Proof.
  intros. unfold winpos, wrapN. destruct (Nat.ltb_spec (off + i) N); nat_cmp; lia.
Qed.

(** The two copies of the byte-aligned case. *)
Lemma unpack_aligned a buf data : buf_ok NB data → a < NB → buf_ok nb buf →
  let first := Nat.min nb (NB - a) in
  let d1 := memcpy data a buf 0 first in
  let d2 := if first <? nb then memcpy d1 0 buf first (nb - first) else d1 in
  buf_ok NB d2 ∧ ∀ q, q < NB → d2.[q] =
    let p := if a <=? q then q - a else q + NB - a in if p <? nb then buf.[p] else data.[q].
Proof.
  intros [Hdl Hdb] Ha [Hbl Hbb] first d1 d2.
  assert (Hl1 : length d1 = NB) by (unfold d1; rewrite memcpy_length; unfold first; lia).
  assert (Hn1 : ∀ q, d1.[q] = if (a <=? q) && (q <? a + first) then buf.[q - a] else data.[q]).
  { intros q. unfold d1. by rewrite nth_memcpy by (unfold first; lia). }
  assert (Hok1 : bytes_ok d1) by by apply memcpy_ok.
  unfold d2. destruct (Nat.ltb_spec first nb).
  - split; [split; [rewrite memcpy_length; unfold first in *; lia|by apply memcpy_ok]|].
    intros q Hq. rewrite nth_memcpy, Hn1 by (unfold first in *; lia). cbv zeta.
    unfold first in *. cbn [Nat.leb andb Nat.add]. destruct (Nat.leb_spec a q).
    + nat_cmp. done.
    + rewrite Nat.sub_0_r. destruct (Nat.ltb_spec (q + NB - a) nb); nat_cmp; [f_equal; lia|done].
  - split; [done|]. intros q Hq. rewrite Hn1. cbv zeta. unfold first in *.
    destruct (Nat.leb_spec a q); cbn [andb]; [|by nat_cmp].
    destruct (Nat.ltb_spec (q - a) nb); by nat_cmp.
Qed.

Lemma unpackShifted_spec off buf data : buf_ok NB data → off < N → buf_ok nb buf →
  buf_ok NB (unpackShifted st buf data off) ∧
  ∀ j, j < N → bitb (unpackShifted st buf data off) j
    = if winpos off j <? n then bitb buf (winpos off j) else bitb data j.
Proof.
  intros [Hdl Hdb] Hoff [Hbl Hbb]. unfold unpackShifted.
  destruct (Nat.eqb_spec (off mod 8) 0) as [Hal|Hal].
  - replace (n / 8) with nb by divlia. replace (N / 8) with NB by divlia.
    assert (Ha : off / 8 < NB) by divlia. set (a := off / 8) in *.
    assert (Eo : off = 8 * a) by (unfold a; divlia). clearbody a. subst off. clear Hal.
    destruct (unpack_aligned a buf data (conj Hdl Hdb) Ha (conj Hbl Hbb)) as [Hok2 Hn2].
    cbv zeta in Hok2, Hn2 |- *. lazymatch type of Hok2 with buf_ok _ ?d => set (d2 := d) in * end.
    clearbody d2. split; [done|]. intros j Hj.
    assert (Hq : j / 8 < NB) by divlia. unfold bitb at 1. rewrite Hn2 by done. cbv zeta.
    assert (Ep : winpos (8 * a) j / 8 = (if a <=? j / 8 then j / 8 - a else j / 8 + NB - a) ∧
      winpos (8 * a) j mod 8 = j mod 8).
    { unfold winpos. destruct (Nat.leb_spec (8 * a) j), (Nat.leb_spec a (j / 8)); divlia. }
    destruct Ep as [Ep1 Ep2]. rewrite <- Ep1. unfold bitb. rewrite Ep2.
    assert (Ec : (winpos (8 * a) j / 8 <? nb) = (winpos (8 * a) j <? n)).
    { destruct (Nat.ltb_spec (winpos (8 * a) j / 8) nb), (Nat.ltb_spec (winpos (8 * a) j) n); try done; divlia. }
    rewrite Ec. by destruct (winpos (8 * a) j <? n).
  - set (f := fun i data => setByteBit data (wrapN st (off + i)) (getBufBit buf i)).
    loop_inv (fun i d => buf_ok NB d ∧ ∀ j, j < N →
      bitb d j = if winpos off j <? i then bitb buf (winpos off j) else bitb data j) as H.
    + lia.
    + split; [done|]. intros j _. by nat_cmp.
    + intros i d Hi [Hd IH]. unfold f.
      destruct (setByteBit_spec NB d (wrapN st (off + i)) (getBufBit buf i) Hd) as [Hd' Hs];
        [apply wrapN_lt; lia|]. split; [done|]. intros j Hj. rewrite Hs, IH by done.
      change (getBufBit buf i) with (getByteBit buf i). rewrite getByteBit_odd.
      destruct (winpos_wrap off j Hoff Hj) as [Hp Hw].
      destruct (Nat.eqb_spec j (wrapN st (off + i))) as [->|Hne].
      * rewrite wrap_winpos by lia. by nat_cmp.
      * assert (winpos off j ≠ i) by (intros <-; by rewrite Hw in Hne).
        destruct (Nat.ltb_spec (winpos off j) i); by nat_cmp.
    + done.
Qed.
(** ** The operations on the view *)

(** The constant added in a round: the round number cut to the free bits, and the party bit. *)
Definition roundConst (round : nat) : Z :=
  let len := n - s in
  Z.lxor (wrap (Z.of_nat len) (Z.of_nat round))
    (if negb (party_ st =? 0)%Z && (roundBits_ st <? len) then (2 ^ Z.of_nat (roundBits_ st))%Z else 0%Z).

Lemma pack_view off data buf : buf_ok NB data → off < N → buf_ok nb buf →
  packShifted st data off buf = le_bytes nb (wrap (Z.of_nat n) (view off data)).
Proof.
  intros Hd Hoff Hbuf. destruct (packShifted_spec off data buf Hd Hoff Hbuf) as [Hp Hb].
  rewrite <- (proj2 (buf_value nb _ Hp)). f_equal.
  apply (buf_val_ext nb); [done|rewrite HnB; apply in_word_wrap; lia|].
  intros j Hj. rewrite Hb by lia. rewrite wrap_testbit by lia.
  replace (Z.of_nat j <? Z.of_nat n)%Z with true by (symmetry; apply Z.ltb_lt; lia).
  symmetry. apply view_bit; done || lia.
Qed.

(** Replacing the low [n] bits. *)
Definition setLow (b x : Z) : Z := Z.lor b (Z.shiftl (Z.shiftr x (Z.of_nat n)) (Z.of_nat n)).

Lemma setLow_bit b x i : in_word (Z.of_nat n) b →
  Z.testbit (setLow b x) (Z.of_nat i) = if i <? n then Z.testbit b (Z.of_nat i) else Z.testbit x (Z.of_nat i).
Proof.
  intros Hb. unfold setLow. rewrite Z.lor_spec, Z.shiftl_spec by lia. destruct (Nat.ltb_spec i n).
  - rewrite (Z.testbit_neg_r (Z.shiftr _ _)) by lia. apply orb_false_r.
  - rewrite (testbit_high (Z.of_nat n) b), Z.shiftr_spec by (done || lia). cbn [orb]. f_equal. lia.
Qed.

Lemma setLow_word b x : in_word (Z.of_nat n) b → in_word (Z.of_nat N) x → in_word (Z.of_nat N) (setLow b x).
Proof.
  intros Hb Hx. apply in_word_testbit; [lia| |].
  - apply Z.lor_nonneg. split; [apply Hb|]. rewrite Z.shiftl_nonneg, Z.shiftr_nonneg. apply Hx.
  - intros i Hi. rewrite <- (Z2Nat.id i), setLow_bit by (done || lia). nat_cmp.
    rewrite Z2Nat.id by lia. by apply (testbit_high (Z.of_nat N)).
Qed.

Lemma view_ext off data z : buf_ok NB data → in_word (Z.of_nat N) z →
  (∀ i, i < N → Z.testbit (view off data) (Z.of_nat i) = Z.testbit z (Z.of_nat i)) → view off data = z.
Proof.
  intros Hd Hz H. apply (word_ext (Z.of_nat N)); [lia|by apply view_word|done|].
  intros i Hi. rewrite <- (Z2Nat.id i) by lia. apply H. lia.
Qed.

Lemma unpack_view off buf data : buf_ok NB data → off < N → buf_ok nb buf →
  buf_ok NB (unpackShifted st buf data off) ∧
  view off (unpackShifted st buf data off) = setLow (le_val buf) (view off data).
Proof.
  intros Hd Hoff Hbuf. destruct (unpackShifted_spec off buf data Hd Hoff Hbuf) as [Hu Hb].
  assert (Hv : in_word (Z.of_nat n) (le_val buf)) by (rewrite HnB; by apply buf_value).
  split; [done|]. apply view_ext; [done|apply setLow_word; [done|by apply view_word]|].
  intros i Hi. rewrite view_bit, setLow_bit by done. rewrite Hb by (unfold wrapN; destruct (_ <? _) eqn:E;
    [by apply Nat.ltb_lt|apply Nat.ltb_ge in E; lia]).
  rewrite wrap_winpos by done. destruct (Nat.ltb_spec i n).
  - symmetry. apply le_val_testbit, Hbuf.
  - symmetry. by apply view_bit.
Qed.

Lemma winpos_inj off j i : off < N → j < N → i < N → (j =? wrapN st (off + i)) = (winpos off j =? i).
Proof.
  intros Hoff Hj Hi. destruct (winpos_wrap off j Hoff Hj) as [Hw1 Hw2].
  destruct (Nat.eqb_spec (winpos off j) i) as [<-|Hne].
  - rewrite Hw2. apply Nat.eqb_refl.
  - apply Nat.eqb_neq. intros ->. apply Hne. by apply wrap_winpos.
Qed.

(** The bits the loop of [xorRound] flips, from bit [bit] on. *)
Lemma xorLoop_spec fuel v bit len start data :
  buf_ok NB data → start < N → len ≤ N → in_word (Z.of_nat fuel) v →
  buf_ok NB (xorLoop st fuel v bit len start data) ∧
  ∀ j, j < N → bitb (xorLoop st fuel v bit len start data) j
    = xorb (bitb data j) ((bit <=? winpos start j) && (winpos start j <? len) &&
                          Z.testbit v (Z.of_nat (winpos start j - bit))).
Proof.
  revert v bit data. induction fuel as [|fuel IH]; intros v bit data Hd Hstart Hlen Hv; cbn [xorLoop].
  - assert (v = 0%Z) as -> by (destruct Hv; cbn in *; lia). split; [done|]. intros j _.
    by rewrite Z.testbit_0_l, andb_false_r, xorb_false_r.
  - destruct (Z.eqb_spec v 0) as [->|Hv0]; cbn [negb andb].
    { split; [done|]. intros j _. by rewrite Z.testbit_0_l, andb_false_r, xorb_false_r. }
    destruct (Nat.ltb_spec bit len) as [Hbl|Hbl].
    2: { split; [done|]. intros j _. destruct (Nat.leb_spec bit (winpos start j)); cbn [andb];
         [|by rewrite xorb_false_r]. nat_cmp. by rewrite xorb_false_r. }
    rewrite low_bit_odd. set (d1 := if Z.odd v then _ else data).
    assert (H1 : buf_ok NB d1 ∧ ∀ j, j < N →
      bitb d1 j = xorb (bitb data j) ((winpos start j =? bit) && Z.odd v)).
    { unfold d1. destruct (Z.odd v).
      - destruct (flipByteBit_spec NB data (wrapN st (start + bit)) Hd) as [Hf Hfb];
          [apply wrapN_lt; lia|]. split; [done|]. intros j Hj. rewrite Hfb, winpos_inj by lia.
        by rewrite andb_true_r.
      - split; [done|]. intros j _. by rewrite andb_false_r, xorb_false_r. }
    clearbody d1. destruct H1 as [Hd1 Hb1].
    destruct (IH (Z.shiftr v 1) (bit + 1) d1 Hd1 Hstart Hlen) as [Hr Hrb].
    { destruct Hv as [Hv1 Hv2]. rewrite Z.shiftr_div_pow2 by lia. split; [by apply Z.div_pos|].
      apply Z.div_lt_upper_bound; [lia|]. rewrite <- Z.pow_add_r by lia. by rewrite Nat2Z.inj_succ, Z.add_1_l in *. }
    split; [done|]. intros j Hj. rewrite Hrb, Hb1, xorb_assoc by done. f_equal.
    set (p := winpos start j). destruct (Nat.eqb_spec p bit) as [->|Hp].
    + nat_cmp. rewrite xorb_false_r, Nat.sub_diag. apply Z.bit0_odd.
    + cbn [andb]. rewrite xorb_false_l. destruct (Nat.leb_spec (bit + 1) p); nat_cmp; [|done].
      destruct (p <? len); cbn [andb]; [|done]. rewrite Z.shiftr_spec by lia. f_equal. lia.
Qed.

Hypothesis Hs : 0 < s ≤ n.

Lemma roundConst_word round : in_word (Z.of_nat (n - s)) (roundConst round).
Proof.
  apply in_word_lxor; [lia|apply in_word_wrap; lia|]. destruct (Nat.ltb_spec (roundBits_ st) (n - s)).
  - rewrite andb_true_r. destruct (negb _); [|apply in_word_0; lia].
    split; [apply Z.pow_nonneg; lia|apply Z.pow_lt_mono_r; lia].
  - rewrite andb_false_r. apply in_word_0. lia.
Qed.

Lemma roundConst_bit round i : Z.testbit (roundConst round) (Z.of_nat i) =
  (i <? n - s) && xorb (Z.testbit (Z.of_nat round) (Z.of_nat i))
    (negb (party_ st =? 0)%Z && (i =? roundBits_ st)).
Proof.
  unfold roundConst. rewrite Z.lxor_spec, wrap_testbit by lia.
  assert (Ei : (Z.of_nat i <? Z.of_nat (n - s))%Z = (i <? n - s)).
  { destruct (Nat.ltb_spec i (n - s)); [apply Z.ltb_lt|apply Z.ltb_ge]; lia. }
  rewrite Ei. destruct (negb (party_ st =? 0)%Z); cbn [andb]; [|by rewrite Z.testbit_0_l, !xorb_false_r].
  destruct (Nat.ltb_spec (roundBits_ st) (n - s)).
  - rewrite pow2_testbit by lia. destruct (Nat.eqb_spec i (roundBits_ st)) as [->|].
    + rewrite Z.eqb_refl. by nat_cmp.
    + replace (Z.of_nat i =? Z.of_nat (roundBits_ st))%Z with false by (symmetry; apply Z.eqb_neq; lia).
      by rewrite !xorb_false_r.
  - rewrite Z.testbit_0_l, xorb_false_r. destruct (Nat.ltb_spec i (n - s)); cbn [andb]; [|done].
    nat_cmp. by rewrite xorb_false_r.
Qed.

Lemma xorRound_view off data round : buf_ok NB data → off < N → in_word 64 (Z.of_nat round) →
  buf_ok NB (xorRound st data off round) ∧
  view off (xorRound st data off round) = Z.lxor (view off data) (Z.shiftl (roundConst round) (Z.of_nat s)).
Proof.
  intros Hd Hoff Hr. unfold xorRound. set (start := if N <=? off + s then off + s - N else off + s).
  assert (Hst : start = wrapN st (off + s)).
  { unfold start, wrapN. destruct (Nat.leb_spec N (off + s)), (Nat.ltb_spec (off + s) N); lia. }
  assert (Hstart : start < N) by (rewrite Hst; unfold wrapN; destruct (Nat.ltb_spec (off + s) N); lia).
  clearbody start.
  destruct (xorLoop_spec 64 (Z.of_nat round) 0 (n - s) start data Hd Hstart ltac:(lia) Hr) as [H1 B1].
  set (d1 := xorLoop _ _ _ _ _ _ _) in *. clearbody d1. set (d2 := if _ && _ then _ else d1).
  assert (H2 : buf_ok NB d2 ∧ ∀ j, j < N → bitb d2 j = xorb (bitb data j)
    ((winpos start j <? n - s) && xorb (Z.testbit (Z.of_nat round) (Z.of_nat (winpos start j)))
       (negb (party_ st =? 0)%Z && (winpos start j =? roundBits_ st)))).
  { assert (B1' : ∀ j, j < N → bitb d1 j = xorb (bitb data j)
      ((winpos start j <? n - s) && Z.testbit (Z.of_nat round) (Z.of_nat (winpos start j)))).
    { intros j Hj. rewrite B1 by done. cbn [Nat.leb andb]. by rewrite Nat.sub_0_r. }
    unfold d2. destruct (negb (party_ st =? 0)%Z); cbn [andb].
    2: { split; [done|]. intros j Hj. by rewrite B1', xorb_false_r. }
    destruct (Nat.ltb_spec (roundBits_ st) (n - s)).
    - destruct (flipByteBit_spec NB d1 (wrapN st (start + roundBits_ st)) H1) as [Hf Hfb];
        [apply wrapN_lt; lia|]. split; [done|]. intros j Hj. rewrite Hfb, winpos_inj, B1', xorb_assoc by lia.
      f_equal. destruct (Nat.eqb_spec (winpos start j) (roundBits_ st)) as [->|]; [by nat_cmp|].
      by rewrite !xorb_false_r.
    - split; [done|]. intros j Hj. rewrite B1' by done. f_equal.
      destruct (Nat.ltb_spec (winpos start j) (n - s)); cbn [andb]; [|done]. nat_cmp. by rewrite xorb_false_r. }
  clearbody d2. destruct H2 as [Hd2 B2]. split; [done|].
  assert (Hw : in_word (Z.of_nat N) (Z.shiftl (roundConst round) (Z.of_nat s))).
  { destruct (roundConst_word round) as [Hc0 Hc1]. rewrite Z.shiftl_mul_pow2 by lia. split; [nia|].
    apply Z.lt_le_trans with (2 ^ Z.of_nat (n - s) * 2 ^ Z.of_nat s)%Z; [nia|].
    rewrite <- Z.pow_add_r by lia. apply Z.pow_le_mono_r; lia. }
  apply view_ext; [done|apply in_word_lxor; [lia|by apply view_word|done]|]. intros i Hi.
  rewrite Z.lxor_spec, !view_bit by done.
  assert (Hj : wrapN st (off + i) < N) by (unfold wrapN; destruct (Nat.ltb_spec (off + i) N); lia).
  rewrite B2 by done. f_equal. rewrite Z.shiftl_spec by lia.
  assert (Ep : winpos start (wrapN st (off + i)) = if s <=? i then i - s else i + N - s).
  { rewrite Hst. unfold winpos, wrapN.
    destruct (Nat.ltb_spec (off + s) N), (Nat.ltb_spec (off + i) N), (Nat.leb_spec s i); nat_cmp; lia. }
  rewrite Ep. destruct (Nat.leb_spec s i).
  - rewrite <- Nat2Z.inj_sub, roundConst_bit by done. done.
  - rewrite (Z.testbit_neg_r (roundConst round)) by lia. by nat_cmp.
Qed.

Hypothesis HsN : s < N.

Lemma view_step off data : buf_ok NB data → off < N →
  view ((off + s) mod N) data = rotw (Z.of_nat N) (view off data) (Z.of_nat s).
Proof.
  intros Hd Hoff. unfold view. rewrite rotw_rotw by (lia || by apply data_word).
  by rewrite <- Nat2Z.inj_add, <- Nat2Z.inj_mod.
Qed.

Lemma view_back off data : buf_ok NB data → off < N →
  view ((off + N - s) mod N) data = rotw (Z.of_nat N) (view off data) (Z.of_nat (N - s)).
Proof.
  intros Hd Hoff. unfold view. rewrite rotw_rotw by (lia || by apply data_word).
  rewrite <- Nat2Z.inj_add, <- Nat2Z.inj_mod. do 3 f_equal. lia.
Qed.

Lemma view_0 data : buf_ok NB data → view 0 data = le_val data.
Proof. intros Hd. apply rotw_0. by apply data_word. Qed.

Lemma rotate_nth (data : list Z) a j : a ≤ length data → j < length data →
  (drop a data ++ take a data).[j] = data.[if a + j <? length data then a + j else a + j - length data].
Proof.
  intros Ha Hj. rewrite !nth_lookup. destruct (Nat.ltb_spec (a + j) (length data)).
  - rewrite lookup_app_l by (rewrite length_drop; lia). by rewrite lookup_drop.
  - rewrite lookup_app_r by (rewrite length_drop; lia). rewrite length_drop, lookup_take_lt by lia.
    do 2 f_equal. lia.
Qed.

Lemma materialize_spec off data : buf_ok NB data → off < N →
  buf_ok NB (materialize st data off) ∧ le_val (materialize st data off) = view off data.
Proof.
  intros Hd Hoff. pose proof Hd as [Hl Hb]. unfold materialize.
  destruct (Nat.eqb_spec off 0) as [->|H0]; [split; [done|]; symmetry; by apply view_0|].
  assert (Hfin : ∀ d, buf_ok NB d → (∀ j, j < N → bitb d j = bitb data (wrapN st (off + j))) →
    buf_ok NB d ∧ le_val d = view off data).
  { intros d Hd' H. split; [done|]. apply (buf_val_ext NB); [done|rewrite <- HNB; by apply view_word|].
    intros j Hj. rewrite view_bit by (done || lia). apply H. lia. }
  destruct (Nat.eqb_spec (off mod 8) 0) as [Hal|Hal].
  - assert (Ha : off / 8 < NB) by divlia. set (a := off / 8) in *.
    assert (Eo : off = 8 * a) by (unfold a; divlia). clearbody a. subst off. clear Hal.
    apply Hfin; [split|].
    + rewrite length_app, length_drop, length_take. lia.
    + apply Forall_app. split; [by apply Forall_drop|by apply Forall_take].
    + intros j Hj. destruct (aligned_byte a j Ha Hj) as [E1 E2]. unfold bitb. rewrite E1, E2.
      by rewrite rotate_nth, Hl by divlia.
  - rewrite Hl. set (f := fun i tmp => setByteBit tmp i (getByteBit data (wrapN st (i + off)))).
    loop_inv (fun i d => buf_ok NB d ∧ ∀ j, j < N →
      bitb d j = (j <? i) && bitb data (wrapN st (off + j))) as H.
    + lia.
    + split; [apply zeros_buf|]. intros j _. apply zeros_bitb.
    + intros i d Hi [Hd1 IH]. unfold f.
      destruct (setByteBit_spec NB d i (getByteBit data (wrapN st (i + off))) Hd1 ltac:(lia)) as [Hd2 H2].
      split; [done|]. intros j Hj. rewrite H2, IH, getByteBit_odd by done.
      destruct (Nat.eqb_spec j i) as [->|]; [nat_cmp; by rewrite Nat.add_comm|].
      destruct (Nat.ltb_spec j i); by nat_cmp.
    + destruct H as [[Hl1 Hb1] H]. set (d := for_ 0 N f _) in *. clearbody d.
      assert (E : memcpy data 0 d 0 NB = d).
      { unfold memcpy. cbn [Nat.add]. rewrite take_0, drop_0, firstn_all2, drop_ge, app_nil_r by lia. done. }
      rewrite E. apply Hfin; [done|]. intros j Hj. rewrite H by done. by nat_cmp.
Qed.

(** * The abstract permutation: numbers of [N] bits that rotate after every round *)

(** Applies a direction of the small permutation to the low [n] bits. *)
Definition lowMap (f : list Z → Res (list Z)) (x : Z) : Res Z :=
  b ← f (le_bytes nb (wrap (Z.of_nat n) x));
  mret (setLow (le_val b) x).

Definition refEncStep (k : nat) (x : Z) : Res Z :=
  y ← lowMap (sp_apply (small_ st)) x;
  mret (rotw (Z.of_nat N) (Z.lxor y (Z.shiftl (roundConst (k + 1)) (Z.of_nat s))) (Z.of_nat s)).

Definition refEncrypt (x : Z) : Res Z :=
  y ← forR 0 (r_ st - 1) refEncStep x;
  lowMap (sp_apply (small_ st)) y.

Definition refDecStep (k : nat) (x : Z) : Res Z :=
  lowMap (sp_invert (small_ st))
    (Z.lxor (rotw (Z.of_nat N) x (Z.of_nat (N - s))) (Z.shiftl (roundConst (k + 1)) (Z.of_nat s))).

Definition refDecrypt (x : Z) : Res Z :=
  y ← lowMap (sp_invert (small_ st)) x;
  for_downR (r_ st - 1) refDecStep y.

Context `{Hsmall : SmallLaws (small_ st)}.
Hypothesis Hbits : sp_bits (small_ st) = n.
Hypothesis Hrounds : in_word 64 (Z.of_nat (r_ st)).

Lemma small_bytes : sp_bytes (small_ st) = nb.
Proof. unfold sp_bytes. rewrite Hbits. divlia. Qed.

Lemma low_buf x : buf_ok nb (le_bytes nb (wrap (Z.of_nat n) x)) ∧
  le_val (le_bytes nb (wrap (Z.of_nat n) x)) = wrap (Z.of_nat n) x.
Proof.
  split; [split; [apply le_bytes_length|apply le_bytes_ok]|]. rewrite le_val_bytes.
  apply wrap_small. replace (8 * Z.of_nat nb)%Z with (Z.of_nat n) by lia. apply in_word_wrap. lia.
Qed.

Lemma setLow_same x : in_word (Z.of_nat N) x → setLow (wrap (Z.of_nat n) x) x = x.
Proof.
  intros Hx. apply (word_ext (Z.of_nat N)); [lia|apply setLow_word; [apply in_word_wrap; lia|done]|done|].
  intros i Hi. rewrite <- (Z2Nat.id i) by lia. rewrite setLow_bit by (apply in_word_wrap; lia).
  rewrite wrap_testbit by lia. destruct (Nat.ltb_spec (Z.to_nat i) n); [|done].
  replace (_ <? _)%Z with true by (symmetry; apply Z.ltb_lt; lia). done.
Qed.

Lemma setLow_low b x : in_word (Z.of_nat n) b →
  wrap (Z.of_nat n) (setLow b x) = b ∧ ∀ b', in_word (Z.of_nat n) b' → setLow b' (setLow b x) = setLow b' x.
Proof.
  intros Hb. split.
  - apply (word_ext (Z.of_nat n)); [lia|apply in_word_wrap; lia|done|]. intros i Hi.
    rewrite <- (Z2Nat.id i) by lia. rewrite wrap_testbit, setLow_bit by (done || lia). nat_cmp.
    by replace (_ <? _)%Z with true by (symmetry; apply Z.ltb_lt; lia).
  - intros b' Hb'. apply Z.bits_inj'. intros i Hi. rewrite <- (Z2Nat.id i) by lia.
    rewrite !setLow_bit by done. by destruct (Z.to_nat i <? n).
Qed.

(** Both directions on the low bits, total and inverse to each other. *)
Lemma lowMap_undo (dir : bool) x : in_word (Z.of_nat N) x →
  let f := if dir then sp_apply (small_ st) else sp_invert (small_ st) in
  let g := if dir then sp_invert (small_ st) else sp_apply (small_ st) in
  ∃ y, lowMap f x = Ok y ∧ in_word (Z.of_nat N) y ∧ lowMap g y = Ok x.
Proof.
  intros Hx f g. destruct (low_buf x) as [Hlb Hlv].
  assert (H : ∃ c, f (le_bytes nb (wrap (Z.of_nat n) x)) = Ok c ∧ buf_ok nb c ∧
    g c = Ok (le_bytes nb (wrap (Z.of_nat n) x))).
  { rewrite <- small_bytes in Hlb |- *. unfold f, g. destruct dir; [by apply apply_ok|by apply invert_ok]. }
  destruct H as (c & Hf & Hc & Hg). unfold lowMap. rewrite Hf. cbn [mbind Res_bind].
  destruct (buf_value nb c Hc) as [Hcw Hcb]. rewrite <- HnB in Hcw.
  eexists. split; [reflexivity|]. split; [by apply setLow_word|].
  destruct (setLow_low (le_val c) x Hcw) as [-> Hset]. rewrite Hcb, Hg. cbn [mbind Res_bind].
  rewrite Hlv, Hset by (apply in_word_wrap; lia). unfold mret, Res_ret. by rewrite setLow_same.
Qed.

Lemma rot_back x : in_word (Z.of_nat N) x →
  rotw (Z.of_nat N) (rotw (Z.of_nat N) x (Z.of_nat s)) (Z.of_nat (N - s)) = x ∧
  rotw (Z.of_nat N) (rotw (Z.of_nat N) x (Z.of_nat (N - s))) (Z.of_nat s) = x.
Proof.
  intros Hx. rewrite !rotw_rotw by (done || lia).
  replace (Z.of_nat s + Z.of_nat (N - s))%Z with (Z.of_nat N) by lia.
  replace (Z.of_nat (N - s) + Z.of_nat s)%Z with (Z.of_nat N) by lia.
  rewrite Z.mod_same by lia. split; by apply rotw_0.
Qed.

Lemma const_word k : in_word (Z.of_nat N) (Z.shiftl (roundConst k) (Z.of_nat s)).
Proof.
  destruct (roundConst_word k) as [Hc0 Hc1]. rewrite Z.shiftl_mul_pow2 by lia. split; [nia|].
  apply Z.lt_le_trans with (2 ^ Z.of_nat (n - s) * 2 ^ Z.of_nat s)%Z; [nia|].
  rewrite <- Z.pow_add_r by lia. apply Z.pow_le_mono_r; lia.
Qed.

Abbreviation word := (in_word (Z.of_nat N)).

Lemma refEncStep_undo k x : word x → ∃ y, refEncStep k x = Ok y ∧ word y ∧ refDecStep k y = Ok x.
Proof.
  intros Hx. destruct (lowMap_undo true x Hx) as (y & Hy & Hyw & Hback). cbn in Hy, Hback.
  unfold refEncStep, refDecStep. rewrite Hy. cbn [mbind Res_bind]. eexists. split; [reflexivity|].
  assert (Hz : word (Z.lxor y (Z.shiftl (roundConst (k + 1)) (Z.of_nat s)))).
  { apply in_word_lxor; [lia|done|apply const_word]. }
  split; [apply rotw_word; [lia|lia|done]|]. rewrite (proj1 (rot_back _ Hz)), lxor_cancel. exact Hback.
Qed.

Lemma refDecStep_undo k x : word x → ∃ y, refDecStep k x = Ok y ∧ word y ∧ refEncStep k y = Ok x.
Proof.
  intros Hx. unfold refEncStep, refDecStep. set (c := Z.shiftl _ _).
  assert (Hz : word (Z.lxor (rotw (Z.of_nat N) x (Z.of_nat (N - s))) c)).
  { apply in_word_lxor; [lia|apply rotw_word; [lia|lia|done]|apply const_word]. }
  destruct (lowMap_undo false _ Hz) as (y & Hy & Hyw & Hback). cbn in Hy, Hback.
  exists y. split; [done|]. split; [done|]. rewrite Hback. cbn [mbind Res_bind].
  rewrite lxor_cancel. unfold mret, Res_ret. by rewrite (proj2 (rot_back _ Hx)).
Qed.

Lemma ref_undo x : word x →
  (∃ y, refEncrypt x = Ok y ∧ word y ∧ refDecrypt y = Ok x) ∧
  (∃ y, refDecrypt x = Ok y ∧ word y ∧ refEncrypt y = Ok x).
Proof.
  intros Hx. unfold refEncrypt, refDecrypt. split.
  - destruct (forR_inv (fun _ => word) 0 (r_ st - 1) refEncStep x) as (y & Hy & Hyw); [lia|done| |].
    { intros i z _ Hz. destruct (refEncStep_undo i z Hz) as (z' & ? & ? & _). by exists z'. }
    destruct (lowMap_undo true y Hyw) as (z & Hz & Hzw & Hzb). cbn in Hz, Hzb.
    exists z. rewrite Hy. cbn [mbind Res_bind]. split; [done|]. split; [done|].
    rewrite Hzb. cbn [mbind Res_bind]. eapply (for_downR_undo word); [|exact Hx|exact Hy].
    intros i a b _ Ha Hab. destruct (refEncStep_undo i a Ha) as (b' & Hb' & Hbw & Hd).
    rewrite Hab in Hb'. by injection Hb' as <-.
  - destruct (lowMap_undo false x Hx) as (y & Hy & Hyw & Hyb). cbn in Hy, Hyb.
    destruct (for_downR_inv (fun _ => word) (r_ st - 1) refDecStep y) as (z & Hz & Hzw); [done| |].
    { intros i a _ Ha. destruct (refDecStep_undo i a Ha) as (b & ? & ? & _). by exists b. }
    exists z. rewrite Hy. cbn [mbind Res_bind]. split; [done|]. split; [done|].
    assert (Hrun : forR 0 (r_ st - 1) refEncStep z = Ok y).
    { eapply (forR_undo word); [|exact Hyw|exact Hz].
      intros i a b _ Ha Hab. destruct (refDecStep_undo i a Ha) as (b' & Hb' & Hbw & Hd).
      rewrite Hab in Hb'. by injection Hb' as <-. }
    rewrite Hrun. cbn [mbind Res_bind]. exact Hyb.
Qed.
(** * The code refines the abstract permutation *)

Lemma applyDir_view (dir : bool) data off buf : buf_ok NB data → off < N → buf_ok nb buf →
  let f := if dir then sp_apply (small_ st) else sp_invert (small_ st) in
  let run := if dir then applyShift st data off buf else applyInvShift st data off buf in
  ∃ data' buf', run = Ok (data', buf') ∧ buf_ok NB data' ∧ buf_ok nb buf' ∧
    lowMap f (view off data) = Ok (view off data').
Proof.
  intros Hd Hoff Hbuf f run. destruct (low_buf (view off data)) as [Hlb _].
  assert (H : ∃ c, f (le_bytes nb (wrap (Z.of_nat n) (view off data))) = Ok c ∧ buf_ok nb c).
  { rewrite <- small_bytes in Hlb |- *. unfold f. destruct dir.
    - destruct (apply_ok _ Hlb) as (c & ? & ? & _). by exists c.
    - destruct (invert_ok _ Hlb) as (c & ? & ? & _). by exists c. }
  destruct H as (c & Hf & Hc). destruct (unpack_view off c data Hd Hoff Hc) as [Hu Hv].
  exists (unpackShifted st c data off), c. unfold f, run in *. clear f run.
  split; [|split; [done|split; [done|unfold lowMap; rewrite Hf; cbn [mbind Res_bind]; by rewrite Hv]]].
  unfold applyShift, applyInvShift.
  destruct dir; rewrite pack_view by done; cbn in Hf; by rewrite Hf.
Qed.

Lemma off_next off : (off + s) mod N < N ∧ (off + N - s) mod N < N.
Proof. split; apply Nat.mod_upper_bound; lia. Qed.

Lemma round_word k : k < r_ st - 1 → in_word 64 (Z.of_nat (k + 1)).
Proof. intros Hk. destruct Hrounds as [_ H]. split; lia. Qed.

(** State of the loops: a buffer, an offset and the scratch buffer. *)
Definition loop_ok (x : list Z * nat * list Z) : Prop :=
  buf_ok NB x.1.1 ∧ x.1.2 < N ∧ buf_ok nb x.2.
Definition loop_view (x : list Z * nat * list Z) : Z := view x.1.2 x.1.1.

Lemma encStep_ref k x : k < r_ st - 1 → loop_ok x →
  ∃ x', encStep st k x = Ok x' ∧ loop_ok x' ∧ refEncStep k (loop_view x) = Ok (loop_view x').
Proof.
  intros Hk (Hd & Hoff & Hbuf). destruct x as [[data off] buf]. cbn [fst snd] in *.
  destruct (applyDir_view true data off buf Hd Hoff Hbuf) as (d1 & b1 & Hrun & Hd1 & Hb1 & Hlow).
  cbv beta iota zeta in Hrun, Hlow. unfold encStep, refEncStep, loop_view. cbn [fst snd]. rewrite Hrun, Hlow. cbn [mbind Res_bind].
  destruct (xorRound_view off d1 (k + 1) Hd1 Hoff (round_word k Hk)) as [Hd2 Hv2].
  eexists. split; [reflexivity|]. split; [split; [exact Hd2|split; [apply off_next|exact Hb1]]|].
  cbn [fst snd]. by rewrite view_step, Hv2.
Qed.

Lemma decStep_ref k x : k < r_ st - 1 → loop_ok x →
  ∃ x', decStep st k x = Ok x' ∧ loop_ok x' ∧ refDecStep k (loop_view x) = Ok (loop_view x').
Proof.
  intros Hk (Hd & Hoff & Hbuf). destruct x as [[data off] buf]. cbn [fst snd] in *.
  unfold decStep, refDecStep, loop_view. cbn [fst snd]. set (off' := (off + N - s) mod N).
  assert (Hoff' : off' < N) by apply off_next.
  destruct (xorRound_view off' data (k + 1) Hd Hoff' (round_word k Hk)) as [Hd2 Hv2].
  destruct (applyDir_view false _ off' buf Hd2 Hoff' Hbuf) as (d1 & b1 & Hrun & Hd1 & Hb1 & Hlow).
  cbv beta iota zeta in Hrun, Hlow. rewrite Hrun. cbn [mbind Res_bind].
  eexists. split; [reflexivity|]. split; [exact (conj Hd1 (conj Hoff' Hb1))|].
  cbn [fst snd]. rewrite Hv2 in Hlow. unfold off' in Hlow at 1. by rewrite view_back in Hlow by done.
Qed.

(** A loop that simulates another one step by step. *)
Lemma forR_sim {A B} (P : A → Prop) (v : A → B) m f g x :
  (∀ i a, i < m → P a → ∃ a', f i a = Ok a' ∧ P a' ∧ g i (v a) = Ok (v a')) → P x →
  ∃ x', forR 0 m f x = Ok x' ∧ P x' ∧ forR 0 m g (v x) = Ok (v x').
Proof.
  intros H Hx. induction m as [|m IH]; [by exists x; rewrite !forR_0|].
  destruct IH as (y & E1 & Py & E2); [auto|]. destruct (H m y ltac:(lia) Py) as (z & F1 & Pz & F2).
  exists z. rewrite !forR_snoc, E1, E2. cbn [mbind Res_bind]. done.
Qed.

Lemma for_downR_sim {A B} (P : A → Prop) (v : A → B) m f g x :
  (∀ i a, i < m → P a → ∃ a', f i a = Ok a' ∧ P a' ∧ g i (v a) = Ok (v a')) → P x →
  ∃ x', for_downR m f x = Ok x' ∧ P x' ∧ for_downR m g (v x) = Ok (v x').
Proof.
  intros H. revert x. induction m as [|m IH]; intros x Hx; [by exists x|].
  destruct (H m x ltac:(lia) Hx) as (z & F1 & Pz & F2). cbn. rewrite F1, F2. apply IH; auto.
Qed.

Lemma checkBytes_ok data : buf_ok NB data → checkBytes st (length data) = Ok tt.
Proof.
  intros [Hl _]. unfold checkBytes. rewrite Hl. replace (NB * 8) with N by lia. by rewrite Nat.eqb_refl.
Qed.

Lemma scratch_ok : buf_ok nb (replicate (sp_bytes (small_ st)) 0%Z).
Proof. rewrite small_bytes. apply zeros_buf. Qed.

Lemma encrypt_refines data : buf_ok NB data →
  ∃ c, encrypt_bytes st data = Ok c ∧ buf_ok NB c ∧ refEncrypt (le_val data) = Ok (le_val c).
Proof.
  intros Hd. unfold encrypt_bytes, refEncrypt. rewrite checkBytes_ok by done. cbn [mbind Res_bind].
  assert (Hx : loop_ok (data, 0, replicate (sp_bytes (small_ st)) 0%Z)).
  { split; [done|]. split; [cbn; lia|apply scratch_ok]. }
  destruct (forR_sim loop_ok loop_view (r_ st - 1) (encStep st) refEncStep _
    (fun i a => encStep_ref i a) Hx) as ([[d off] b] & E1 & (Hd1 & Hoff & Hb1) & E2).
  unfold loop_view in E2 at 1. cbn [fst snd] in E2, Hd1, Hoff, Hb1. rewrite view_0 in E2 by done.
  rewrite E1, E2. cbn [mbind Res_bind].
  destruct (applyDir_view true d off b Hd1 Hoff Hb1) as (d1 & b1 & Hrun & Hd2 & _ & Hlow).
  cbv beta iota zeta in Hrun, Hlow. rewrite Hrun. cbn [mbind Res_bind].
  destruct (materialize_spec off d1 Hd2 Hoff) as [Hm Hv].
  eexists. split; [reflexivity|]. split; [done|]. rewrite Hv. exact Hlow.
Qed.

Lemma decrypt_refines data : buf_ok NB data →
  ∃ c, decrypt_bytes st data = Ok c ∧ buf_ok NB c ∧ refDecrypt (le_val data) = Ok (le_val c).
Proof.
  intros Hd. unfold decrypt_bytes, refDecrypt. rewrite checkBytes_ok by done. cbn [mbind Res_bind].
  destruct (applyDir_view false data 0 _ Hd ltac:(lia) scratch_ok) as (d0 & b0 & Hrun & Hd0 & Hb0 & Hlow).
  cbv beta iota zeta in Hrun, Hlow. rewrite Hrun. rewrite view_0 in Hlow by done. rewrite Hlow. cbn [mbind Res_bind].
  assert (Hx : loop_ok (d0, 0, b0)) by (split; [done|]; split; [cbn; lia|done]).
  destruct (for_downR_sim loop_ok loop_view (r_ st - 1) (decStep st) refDecStep _
    (fun i a => decStep_ref i a) Hx) as ([[d off] b] & E1 & (Hd1 & Hoff & Hb1) & E2).
  unfold loop_view in E2 at 1. cbn [fst snd] in E2, Hd1, Hoff, Hb1.
  rewrite E1, E2. cbn [mbind Res_bind]. destruct (materialize_spec off d Hd1 Hoff) as [Hm Hv].
  eexists. split; [reflexivity|]. split; [done|]. by rewrite Hv.
Qed.

Lemma window_laws : PermLaws (perm st) NB.
Proof.
  assert (Hval : ∀ a b, buf_ok NB a → buf_ok NB b → le_val a = le_val b → a = b).
  { intros a b Ha Hb E. rewrite <- (proj2 (buf_value NB a Ha)), <- (proj2 (buf_value NB b Hb)). by rewrite E. }
  split; cbn [perm encryptBytes decryptBytes].
  - intros data Hd. destruct (encrypt_refines data Hd) as (c & ? & ? & _). by exists c.
  - intros data Hd. destruct (decrypt_refines data Hd) as (c & ? & ? & _). by exists c.
  - intros data c Hd Hc. destruct (encrypt_refines data Hd) as (c' & Hc' & Hbc & Href).
    rewrite Hc in Hc'. injection Hc' as <-. destruct (decrypt_refines c Hbc) as (d & Hdd & Hdb & Hdr).
    rewrite Hdd. f_equal. apply Hval; [done|done|].
    destruct (ref_undo (le_val data) (data_word data Hd)) as [(y & Hy & _ & Hyd) _].
    rewrite Href in Hy. injection Hy as <-. rewrite Hdr in Hyd. by injection Hyd.
  - intros data c Hd Hc. destruct (decrypt_refines data Hd) as (c' & Hc' & Hbc & Href).
    rewrite Hc in Hc'. injection Hc' as <-. destruct (encrypt_refines c Hbc) as (d & Hdd & Hdb & Hdr).
    rewrite Hdd. f_equal. apply Hval; [done|done|].
    destruct (ref_undo (le_val data) (data_word data Hd)) as [_ (y & Hy & _ & Hyd)].
    rewrite Href in Hy. injection Hy as <-. rewrite Hdr in Hyd. by injection Hyd.
Qed.
End Window.

(** * What the constructor establishes *)

(** A constructed object with a byte-sized state. *)
Record wf (st : State) : Prop := {
  wf_small : SmallLaws (small_ st);
  wf_bits : sp_bits (small_ st) = n (params_ st);
  wf_n : n (params_ st) mod 8 = 0;
  wf_s : 0 < s (params_ st) ≤ n (params_ st);
  wf_N : n (params_ st) < N (params_ st);
  wf_gap : (N (params_ st) - n (params_ st)) mod s (params_ st) = 0;
  wf_rounds : r_ st = 5 * ((N (params_ st) - n (params_ st)) / s (params_ st) + 1) - 2;
}.

Lemma construct_wf keccak keccak_inv params party st : keccak_laws keccak keccak_inv →
  construct keccak keccak_inv params party = Ok st → wf st ∧ params_ st = params.
Proof.
  intros Hk H. destruct (makePerm_laws keccak keccak_inv (kind params) Hk) as (p & Hp & Hlaws & Hbits & _).
  unfold construct in H. rewrite Hp in H. cbn [mbind Res_bind] in H. inv_ok. unfold checkParams in *. inv_ok.
  rewrite ?orb_false_iff, ?negb_false_iff, ?andb_true_iff, ?Nat.eqb_eq, ?Nat.eqb_neq, ?Nat.ltb_ge,
    ?Nat.leb_gt, ?Nat.leb_le in *. destruct_and?.
  split; [|done]. split; cbn [params_ small_ r_]; try done; try lia.
  replace (n params) with (widthOf (kind params)) by congruence. by destruct (kind params).
Qed.

Lemma construct_laws st len : wf st → N (params_ st) = 8 * len → in_word 64 (Z.of_nat (r_ st)) →
  PermLaws (perm st) len.
Proof.
  intros [Hsm Hb Hn Hs HN _ _] HNB Hr.
  apply (window_laws st (n (params_ st) / 8) len); try done; lia.
Qed.

(** The rounds of an object built over at most [2 ^ 60] bits fit in a [size_t]. *)
Lemma wf_round_word st : wf st → (Z.of_nat (N (params_ st)) < 2 ^ 60)%Z → in_word 64 (Z.of_nat (r_ st)).
Proof.
  intros H HN. rewrite (wf_rounds st H).
  pose proof (Nat.Div0.div_le_mono (N (params_ st) - n (params_ st)) (N (params_ st)) (s (params_ st)) ltac:(lia)).
  pose proof (Nat.Div0.div_le_upper_bound (N (params_ st)) (s (params_ st)) (N (params_ st))).
  pose proof (wf_s st H). pose proof (wf_n st H). split; [lia|].
  assert ((N (params_ st) - n (params_ st)) / s (params_ st) ≤ N (params_ st)) by nia. lia.
Qed.

Section Theorems.
Context (keccak keccak_inv : nat → nat → list Z → list Z).

(** An object the constructor accepts is a permutation of the byte strings of its width: each of
    [encryptBytes] and [decryptBytes] succeeds on every buffer, keeps its size, and undoes the
    other. *)
Theorem conspi_inverse params party st len data :
  keccak_laws keccak keccak_inv → construct keccak keccak_inv params party = Ok st →
  N params = 8 * len → (Z.of_nat (N params) < 2 ^ 60)%Z → buf_ok len data →
  (∃ c, encryptBytes (perm st) data = Ok c ∧ buf_ok len c ∧ decryptBytes (perm st) c = Ok data) ∧
  (∃ c, decryptBytes (perm st) data = Ok c ∧ buf_ok len c ∧ encryptBytes (perm st) c = Ok data).
Proof.
  intros Hk Hc HN Hmax Hd. destruct (construct_wf _ _ _ _ _ Hk Hc) as [Hw Hp]. rewrite <- Hp in HN, Hmax.
  pose proof (construct_laws st len Hw HN (wf_round_word st Hw Hmax)) as Hl. split.
  - destruct (enc_buf data Hd) as (c & He & Hb). exists c. split; [done|]. split; [done|]. by apply (dec_enc data).
  - destruct (dec_buf data Hd) as (c & He & Hb). exists c. split; [done|]. split; [done|]. by apply (enc_dec data).
Qed.

(** C12 The in-place code, with its moving offset, its byte-aligned copies and its bit loops, computes
    the abstract permutation of an [N]-bit number: in each round the small permutation on the low
    [n] bits, the round and party constant at bit [s], and a rotation by [s]. *)
Theorem conspi_refines params party st len data :
  keccak_laws keccak keccak_inv → construct keccak keccak_inv params party = Ok st →
  N params = 8 * len → (Z.of_nat (N params) < 2 ^ 60)%Z → buf_ok len data →
  (∃ c, encrypt_bytes st data = Ok c ∧ refEncrypt st (n params / 8) (le_val data) = Ok (le_val c)) ∧
  (∃ c, decrypt_bytes st data = Ok c ∧ refDecrypt st (n params / 8) (le_val data) = Ok (le_val c)).
Proof.
  intros Hk Hc HN Hmax Hd. destruct (construct_wf _ _ _ _ _ Hk Hc) as [Hw Hp]. rewrite <- Hp in HN, Hmax |- *.
  pose proof (wf_round_word st Hw Hmax) as Hr. destruct Hw as [Hsm Hb Hn Hs HnN _ _].
  assert (En : n (params_ st) = 8 * (n (params_ st) / 8)) by divlia.
  destruct (encrypt_refines st (n (params_ st) / 8) len En HN ltac:(lia) Hs ltac:(lia) Hb Hr data Hd) as (c & ? & _ & ?).
  destruct (decrypt_refines st (n (params_ st) / 8) len En HN ltac:(lia) Hs ltac:(lia) Hb Hr data Hd) as (d & ? & _ & ?).
  split; [by exists c|by exists d].
Qed.

Lemma bestStep_default :
  bestStep 800 KEM_key_size_bit 128 = Ok 400 ∧ bestStep 1600 KEM_key_size_bit 128 = Ok 1200 ∧
  bestStep 512 KEM_key_size_bit 128 = Ok 256.
Proof. vm_compute. by split. Qed.

Lemma construct_accepts params party p : makePerm keccak keccak_inv (kind params) = Ok p →
  checkParams params p = Ok tt →
  ∃ st, construct keccak keccak_inv params party = Ok st ∧ small_ st = p ∧
    r_ st = 5 * ((N params - n params) / s params + 1) - 2.
Proof. intros Hp Hc. unfold construct. rewrite Hp. cbn [mbind Res_bind]. rewrite Hc. by eexists. Qed.

Lemma default_params kd party :
  ∃ p st, defaults kd KEM_key_size_bit 128 = Ok p ∧ construct keccak keccak_inv p party = Ok st ∧
    sp_kind (small_ st) = kd ∧ s p = match kd with Keccak800 => 400 | SneikF512 => 256 | _ => 1200 end ∧
    r_ st = match kd with Keccak800 => 73 | SneikF512 => 118 | _ => 23 end.
Proof.
  set (step := match kd with Keccak800 => 400 | SneikF512 => 256 | _ => 1200 end).
  set (p := mkParams kd (widthOf kd) KEM_key_size_bit step 128).
  assert (Hd : defaults kd KEM_key_size_bit 128 = Ok p).
  { unfold defaults, p, step. destruct bestStep_default as (H1 & H2 & H3).
    by destruct kd; cbn [widthOf]; rewrite ?H1, ?H2, ?H3. }
  assert (Hs : ∃ small, makePerm keccak keccak_inv kd = Ok small ∧ sp_kind small = kd ∧ checkParams p small = Ok tt).
  { unfold p, step. destruct kd; (eexists; split; [reflexivity|]); (split; [reflexivity|]); vm_compute; reflexivity. }
  destruct Hs as (small & Hs & Hk & Hc). destruct (construct_accepts p party small Hs Hc) as (st & Hst & Hsm & Hr).
  exists p, st. split; [done|]. split; [done|]. split; [by rewrite Hsm|]. split; [done|]. rewrite Hr. unfold p, step.
  destruct kd; vm_compute; reflexivity.
Qed.

Lemma default_object kd party :
  ∃ p st, defaults kd KEM_key_size_bit 128 = Ok p ∧ construct keccak keccak_inv p party = Ok st ∧
    sp_kind (small_ st) = kd.
Proof. destruct (default_params kd party) as (p & st & ? & ? & ? & _). by exists p, st. Qed.

(** The default parameters of every small permutation are accepted for the 6400-bit states and the
    128-bit security level the protocol uses, with the steps 1200, 400 and 256. *)
Theorem defaults_accepted kd party :
  ∃ p st, defaults kd KEM_key_size_bit 128 = Ok p ∧ construct keccak keccak_inv p party = Ok st ∧
    s p = match kd with Keccak800 => 400 | SneikF512 => 256 | _ => 1200 end ∧
    r_ st = match kd with Keccak800 => 73 | SneikF512 => 118 | _ => 23 end.
Proof. destruct (default_params kd party) as (p & st & ? & ? & _ & ? & ?). by exists p, st. Qed.
End Theorems.

Module Examples.
Definition keccak_id (w r : nat) (buf : list Z) : list Z := buf.
Lemma keccak_id_laws : keccak_laws keccak_id keccak_id.
Proof. intros w r buf Hb. done. Qed.

(** SNEIK with a state of 768 bits, rotated by 64 bits. *)
Definition small_params : Params := mkParams SneikF512 512 768 64 16.
Definition small_state : State := match construct keccak_id keccak_id small_params 1 with Ok st => st | Throw _ => mkState small_params SneikPerm 0 0 0 0 end.

Lemma conspi_inverse_witness :
  (∃ c, encryptBytes (perm small_state) (replicate 96 7%Z) = Ok c ∧ buf_ok 96 c ∧
    decryptBytes (perm small_state) c = Ok (replicate 96 7%Z)) ∧
  (∃ c, decryptBytes (perm small_state) (replicate 96 7%Z) = Ok c ∧ buf_ok 96 c ∧
    encryptBytes (perm small_state) c = Ok (replicate 96 7%Z)).
Proof.
  refine (conspi_inverse keccak_id keccak_id small_params 1 small_state 96 (replicate 96 7%Z)
    keccak_id_laws _ _ _ _); [reflexivity|reflexivity|reflexivity|].
  split; [reflexivity|apply Forall_replicate; unfold in_word; lia].
Defined.

Lemma conspi_refines_witness :
  (∃ c, encrypt_bytes small_state (replicate 96 7%Z) = Ok c ∧
    refEncrypt small_state (512 / 8) (le_val (replicate 96 7%Z)) = Ok (le_val c)) ∧
  (∃ c, decrypt_bytes small_state (replicate 96 7%Z) = Ok c ∧
    refDecrypt small_state (512 / 8) (le_val (replicate 96 7%Z)) = Ok (le_val c)).
Proof.
  refine (conspi_refines keccak_id keccak_id small_params 1 small_state 96 (replicate 96 7%Z)
    keccak_id_laws _ _ _ _); [reflexivity|reflexivity|reflexivity|].
  split; [reflexivity|apply Forall_replicate; unfold in_word; lia].
Defined.

End Examples.
End ConsPi.
