(* ===== verification/Xoodoo.v ===== *)
(** Xoodoo and its inverse: frontend/permutation/xoodoo.h and xoodoo_inv.h, with the forward
    permutation of thirdparty/XKCP/lib/low/Xoodoo/plain/Xoodoo-plain.c. *)
From S2P Require Import Prelude Words PermApi.
Open Scope nat_scope.

Module Xoodoo.

(** * The forward permutation (Xoodoo-plain.c) *)

(** The local variables that hold the twelve lanes. *)
Record Vars : Type := mkVars {
  a00 : Z; a01 : Z; a02 : Z; a03 : Z;
  a10 : Z; a11 : Z; a12 : Z; a13 : Z;
  a20 : Z; a21 : Z; a22 : Z; a23 : Z;
}.

(** [((uint32_t)a << (offset % 32)) ^ ((uint32_t)a >> ((32 - offset) % 32))] *)
Definition ROTL32 (a : Z) (offset : Z) : Z :=
  Z.lxor (u32 (Z.shiftl a (offset mod 32))) (Z.shiftr a ((32 - offset) mod 32)).

Definition State2Vars (A : list Z) : Vars :=
  mkVars A.[0] A.[1] A.[2] A.[3] A.[4] A.[5] A.[6] A.[7] A.[8] A.[9] A.[10] A.[11].

Definition Vars2State (v : Vars) : list Z :=
  [a00 v; a01 v; a02 v; a03 v; a10 v; a11 v; a12 v; a13 v; a20 v; a21 v; a22 v; a23 v].

Definition Theta (v : Vars) : Vars :=
  let v1 := Z.lxor (Z.lxor (a03 v) (a13 v)) (a23 v) in
  let v2 := Z.lxor (Z.lxor (a00 v) (a10 v)) (a20 v) in
  let v1 := Z.lxor (ROTL32 v1 5) (ROTL32 v1 14) in
  let x00 := Z.lxor (a00 v) v1 in
  let x10 := Z.lxor (a10 v) v1 in
  let x20 := Z.lxor (a20 v) v1 in
  let v1 := Z.lxor (Z.lxor (a01 v) (a11 v)) (a21 v) in
  let v2 := Z.lxor (ROTL32 v2 5) (ROTL32 v2 14) in
  let x01 := Z.lxor (a01 v) v2 in
  let x11 := Z.lxor (a11 v) v2 in
  let x21 := Z.lxor (a21 v) v2 in
  let v2 := Z.lxor (Z.lxor (a02 v) (a12 v)) (a22 v) in
  let v1 := Z.lxor (ROTL32 v1 5) (ROTL32 v1 14) in
  let x02 := Z.lxor (a02 v) v1 in
  let x12 := Z.lxor (a12 v) v1 in
  let x22 := Z.lxor (a22 v) v1 in
  let v2 := Z.lxor (ROTL32 v2 5) (ROTL32 v2 14) in
  let x03 := Z.lxor (a03 v) v2 in
  let x13 := Z.lxor (a13 v) v2 in
  let x23 := Z.lxor (a23 v) v2 in
  mkVars x00 x01 x02 x03 x10 x11 x12 x13 x20 x21 x22 x23.

Definition Rho_west (v : Vars) : Vars :=
  mkVars (a00 v) (a01 v) (a02 v) (a03 v)
    (a13 v) (a10 v) (a11 v) (a12 v)
    (ROTL32 (a20 v) 11) (ROTL32 (a21 v) 11) (ROTL32 (a22 v) 11) (ROTL32 (a23 v) 11).

Definition Iota (rc : Z) (v : Vars) : Vars :=
  mkVars (Z.lxor (a00 v) rc) (a01 v) (a02 v) (a03 v) (a10 v) (a11 v) (a12 v) (a13 v)
    (a20 v) (a21 v) (a22 v) (a23 v).

(** One column of [Chi], three assignments in sequence. *)
Definition chiCol (a0 a1 a2 : Z) : Z * Z * Z :=
  let a0 := Z.lxor a0 (Z.land (wnot 32 a1) a2) in
  let a1 := Z.lxor a1 (Z.land (wnot 32 a2) a0) in
  let a2 := Z.lxor a2 (Z.land (wnot 32 a0) a1) in
  (a0, a1, a2).

Definition Chi (v : Vars) : Vars :=
  let '(x00, x10, x20) := chiCol (a00 v) (a10 v) (a20 v) in
  let '(x01, x11, x21) := chiCol (a01 v) (a11 v) (a21 v) in
  let '(x02, x12, x22) := chiCol (a02 v) (a12 v) (a22 v) in
  let '(x03, x13, x23) := chiCol (a03 v) (a13 v) (a23 v) in
  mkVars x00 x01 x02 x03 x10 x11 x12 x13 x20 x21 x22 x23.

Definition Rho_east (v : Vars) : Vars :=
  mkVars (a00 v) (a01 v) (a02 v) (a03 v)
    (ROTL32 (a10 v) 1) (ROTL32 (a11 v) 1) (ROTL32 (a12 v) 1) (ROTL32 (a13 v) 1)
    (ROTL32 (a22 v) 8) (ROTL32 (a23 v) 8) (ROTL32 (a20 v) 8) (ROTL32 (a21 v) 8).

Definition Round (rc : Z) (v : Vars) : Vars := Rho_east (Chi (Iota rc (Rho_west (Theta v)))).

(** [RC], from [_rc12] down to [_rc1]. *)
Definition RC : list Z :=
  [0x58; 0x38; 0x3C0; 0xD0; 0x120; 0x14; 0x60; 0x2C; 0x380; 0xF0; 0x1A0; 0x12]%Z.

Definition Permute_12rounds (A : list Z) : list Z :=
  Vars2State (for_ 0 12 (fun i v => Round RC.[i] v) (State2Vars A)).

(** * The inverse (xoodoo_inv.h) *)

(** [n] is an [int]; [n &= 31]. *)
Definition rot (x n : Z) : Z :=
  let n := Z.land n 31 in
  if (n =? 0)%Z then x else u32 (Z.lor (u32 (Z.shiftl x n)) (Z.shiftr x (32 - n))).

Definition rotr (x n : Z) : Z := rot x (- n).

(** [(x % 4 + 4) % 4] with the truncated remainder of [int]. *)
Definition xm (x : Z) : nat := Z.to_nat (Z.rem (Z.rem x 4 + 4) 4).

(** Body of the loop on [p] of [theta]. *)
Definition thetaStep (p : Z) (effect : list Z) : list Z :=
  let prev := effect in
  for_ 0 4 (fun x (effect : list Z) =>
    let v := prev.[xm (Z.of_nat x - p)] in
    <[x := Z.lxor (Z.lxor prev.[x] (rot v (5 * p))) (rot v (14 * p))]> effect) effect.

(** [for (p = 1; p <= 31; p <<= 1)]: five iterations. *)
Definition thetaEffect (parity : list Z) : list Z :=
  for_ 0 5 (fun k effect => thetaStep (Z.shiftl 1 (Z.of_nat k)) effect) parity.

Definition theta (a : list Z) : list Z :=
  let parity := for_ 0 4 (fun x parity => <[x := Z.lxor (Z.lxor a.[x] a.[4 + x]) a.[8 + x]]> parity)
    (replicate 4 0%Z) in
  let effect := thetaEffect parity in
  let '(_, a) := for_ 0 4 (fun x '(effect, a) =>
    let effect := <[x := Z.lxor (nth x effect 0%Z) parity.[x]]> effect in
    let a := <[x := Z.lxor (nth x a 0%Z) effect.[x]]> a in
    let a := <[4 + x := Z.lxor a.[4 + x] effect.[x]]> a in
    let a := <[8 + x := Z.lxor a.[8 + x] effect.[x]]> a in
    (effect, a)) (effect, a) in
  a.

Definition rhoWest (a : list Z) : list Z :=
  let a := for_ 0 4 (fun x (a : list Z) => <[8 + x := rotr a.[8 + x] 11]> a) a in
  let a10 := a.[4] in
  let a := <[4 := a.[5]]> a in
  let a := <[5 := a.[6]]> a in
  let a := <[6 := a.[7]]> a in
  <[7 := a10]> a.

Definition rhoEast (a : list Z) : list Z :=
  let a := for_ 0 4 (fun x (a : list Z) => <[4 + x := rotr a.[4 + x] 1]> a) a in
  let a20 := rotr a.[10] 8 in
  let a21 := rotr a.[11] 8 in
  let a22 := rotr a.[8] 8 in
  let a23 := rotr a.[9] 8 in
  let a := <[8 := a20]> a in
  let a := <[9 := a21]> a in
  let a := <[10 := a22]> a in
  <[11 := a23]> a.

Definition chi (a : list Z) : list Z :=
  for_ 0 4 (fun x (a : list Z) =>
    let a0 := a.[x] in
    let a1 := a.[4 + x] in
    let a2 := a.[8 + x] in
    let a0 := Z.lxor a0 (Z.land (wnot 32 a1) a2) in
    let a1 := Z.lxor a1 (Z.land (wnot 32 a2) a0) in
    let a2 := Z.lxor a2 (Z.land (wnot 32 a0) a1) in
    let a := <[x := a0]> a in
    let a := <[4 + x := a1]> a in
    <[8 + x := a2]> a) a.

Definition rc : list Z :=
  [0x12; 0x1A0; 0xF0; 0x380; 0x2C; 0x60; 0x14; 0x120; 0xD0; 0x3C0; 0x38; 0x58]%Z.

(** Body of the loop of [run]. *)
Definition unround (c : Z) (a : list Z) : list Z :=
  let a := rhoEast a in
  let a := chi a in
  let a := <[0 := Z.lxor a.[0] c]> a in
  let a := rhoWest a in
  theta a.

Definition run (a : list Z) : list Z := foldl (fun a c => unround c a) a rc.

(** * The permutation object (xoodoo.h) *)

Definition Bytes : nat := 48.
Definition Bits : nat := Bytes * 8.
Definition Rounds : nat := 12.

Definition check (bytes : nat) : Res unit :=
  throw_if (negb (bytes =? 48)) (InvalidArgument "xoodoo expects exactly 48 bytes").

(** [memcpy] between bytes and [n] little-endian lanes. *)
Fixpoint lanesOf (n : nat) (bs : list Z) : list Z :=
  match n with
  | O => []
  | S n' => le_val (take 4 bs) :: lanesOf n' (drop 4 bs)
  end.
Definition bytesOfLanes (a : list Z) : list Z := List.concat (map (le_bytes 4) a).

Definition encrypt (data : list Z) : Res (list Z) :=
  check (length data) ;;
  mret (bytesOfLanes (Permute_12rounds (lanesOf 12 data))).

Definition decrypt (data : list Z) : Res (list Z) :=
  check (length data) ;;
  mret (bytesOfLanes (run (lanesOf 12 data))).

Definition perm : Perm := {|
  perm_name := "xoodoo";
  perm_detail := "xoodoo-12";
  perm_n := Bits;
  perm_s := 0;
  perm_rounds := Rounds;
  encryptBytes := encrypt;
  decryptBytes := decrypt;
|}.

(** Known answer: the all-zero state after twelve rounds starts with these lanes. *)
Example xoodoo_zero : take 2 (Permute_12rounds (replicate 12 0%Z)) = [0x89D5D88D; 0xA963FCBF]%Z.
Proof. vm_compute. reflexivity. Qed.
Example xoodoo_zero_back : run (Permute_12rounds (replicate 12 0%Z)) = replicate 12 0%Z.
Proof. vm_compute. reflexivity. Qed.

(** * Rotations *)

Lemma rotl_bits x n : in_word 32 x → (0 < n < 32)%Z →
  Z.land (u32 (Z.shiftl x n)) (Z.shiftr x (32 - n)) = 0%Z ∧
  Z.lor (u32 (Z.shiftl x n)) (Z.shiftr x (32 - n)) = rotw 32 x (32 - n).
Proof.
  intros Hx Hn. split; [|unfold rotw; rewrite Z.lor_comm; do 4 f_equal; lia].
  apply Z.bits_inj'. intros i Hi. rewrite Z.land_spec, wrap_testbit, Z.shiftl_spec, Z.shiftr_spec, Z.bits_0 by lia.
  destruct (Z.lt_ge_cases i n).
  - rewrite (Z.testbit_neg_r x (i - n)) by lia. by rewrite andb_false_r.
  - rewrite (testbit_high 32 x (i + (32 - n))) by (done || lia). apply andb_false_r.
Qed.

Lemma ROTL32_rotw x n : in_word 32 x → (0 < n < 32)%Z → ROTL32 x n = rotw 32 x (32 - n).
Proof.
  intros Hx Hn. destruct (rotl_bits x n Hx Hn) as [H0 <-]. unfold ROTL32.
  rewrite !Z.mod_small by lia. by rewrite Z.lxor_lor.
Qed.

Lemma rot_rotw x n m : in_word 32 x → Z.land n 31 = m → (0 < m < 32)%Z → rot x n = rotw 32 x (32 - m).
Proof.
  intros Hx Hm Hr. unfold rot. rewrite Hm. destruct (Z.eqb_spec m 0); [lia|].
  rewrite (proj2 (rotl_bits x m Hx Hr)). apply wrap_small. apply rotw_word; done || lia.
Qed.

Lemma rotr_ROTL32 x n : in_word 32 x → (0 < n < 32)%Z → Z.land (- n) 31 = (32 - n)%Z →
  rotr (ROTL32 x n) n = x ∧ ROTL32 (rotr x n) n = x.
Proof.
  intros Hx Hn Hm. assert (Hw : ∀ k, (0 ≤ k)%Z → in_word 32 (rotw 32 x k)) by (intros; by apply rotw_word).
  unfold rotr. rewrite (ROTL32_rotw x), (rot_rotw x _ _ Hx Hm) by (done || lia).
  rewrite (rot_rotw _ _ _ (Hw (32 - n)%Z ltac:(lia)) Hm) by lia.
  rewrite ROTL32_rotw by (done || apply Hw; lia). rewrite !rotw_rotw by (done || lia).
  replace ((32 - n + (32 - (32 - n))) mod 32)%Z with 0%Z by (replace (32 - n + (32 - (32 - n)))%Z with 32%Z by lia; done).
  replace ((32 - (32 - n) + (32 - n)) mod 32)%Z with 0%Z by (replace (32 - (32 - n) + (32 - n))%Z with 32%Z by lia; done).
  by rewrite rotw_0.
Qed.

Lemma ROTL32_word x n : in_word 32 x → (0 < n < 32)%Z → in_word 32 (ROTL32 x n).
Proof. intros. rewrite ROTL32_rotw by done. apply rotw_word; done || lia. Qed.

Lemma rot_word x n : in_word 32 x → in_word 32 (rot x n).
Proof. intros. unfold rot. destruct (_ =? 0)%Z; [done|]. apply in_word_wrap. lia. Qed.

(** [rot] by a constant is linear. *)
Lemma rot_xor a b n : in_word 32 a → in_word 32 b → rot (Z.lxor a b) n = Z.lxor (rot a n) (rot b n).
Proof.
  intros Ha Hb. destruct (Z.eq_dec (Z.land n 31) 0%Z) as [E|E]; [by unfold rot; rewrite E|].
  assert (Hm : (0 < Z.land n 31 < 32)%Z).
  { pose proof (Z.land_ones n 5 ltac:(lia)) as H. change (Z.ones 5) with 31%Z in H. change (2 ^ 5)%Z with 32%Z in H.
    pose proof (Z.mod_pos_bound n 32 ltac:(lia)). lia. }
  rewrite !(rot_rotw _ n _) by (done || by apply in_word_lxor). apply rotw_xor; done || lia.
Qed.

(** * The nonlinear step is an involution *)

Lemma chi_bits a0 a1 a2 i : (0 ≤ i < 32)%Z →
  let '(b0, b1, b2) := chiCol a0 a1 a2 in
  let x := Z.testbit a0 i in let y := Z.testbit a1 i in let z := Z.testbit a2 i in
  Z.testbit b0 i = xorb x (negb y && z) ∧ Z.testbit b1 i = xorb y (negb z && x) ∧
  Z.testbit b2 i = xorb z (negb x && y).
Proof.
  intros Hi. unfold chiCol, wnot. cbv zeta.
  repeat (rewrite ?Z.lxor_spec, ?Z.land_spec, ?wrap_testbit, ?Z.lnot_spec by lia).
  replace (i <? 32)%Z with true by (symmetry; apply Z.ltb_lt; lia). cbn [andb].
  by destruct (Z.testbit a0 i), (Z.testbit a1 i), (Z.testbit a2 i).
Qed.

Lemma chi_word a0 a1 a2 : in_word 32 a0 → in_word 32 a1 → in_word 32 a2 →
  let '(b0, b1, b2) := chiCol a0 a1 a2 in in_word 32 b0 ∧ in_word 32 b1 ∧ in_word 32 b2.
Proof.
  intros H0 H1 H2. unfold chiCol. cbv zeta.
  assert (Hx : ∀ a b c, in_word 32 a → in_word 32 c → in_word 32 (Z.lxor a (Z.land (wnot 32 b) c))).
  { intros a b c Ha Hc. apply in_word_lxor; [lia|done|]. apply in_word_land; [lia|apply in_word_wrap; lia|apply Hc]. }
  split; [by apply Hx|]. split; apply Hx; try done; by repeat apply Hx.
Qed.

Lemma chi_chi a0 a1 a2 : in_word 32 a0 → in_word 32 a1 → in_word 32 a2 →
  let '(b0, b1, b2) := chiCol a0 a1 a2 in chiCol b0 b1 b2 = (a0, a1, a2).
Proof.
  intros H0 H1 H2. pose proof (chi_word a0 a1 a2 H0 H1 H2) as Hb.
  pose proof (chi_bits a0 a1 a2) as Hbit. destruct (chiCol a0 a1 a2) as [[b0 b1] b2] eqn:E.
  destruct Hb as (Hb0 & Hb1 & Hb2). pose proof (chi_word b0 b1 b2 Hb0 Hb1 Hb2) as Hc.
  pose proof (chi_bits b0 b1 b2) as Hbit2. destruct (chiCol b0 b1 b2) as [[c0 c1] c2] eqn:E2.
  destruct Hc as (Hc0 & Hc1 & Hc2). f_equal; [f_equal|]; apply (word_ext 32); try done; intros i Hi;
    destruct (Hbit2 i Hi) as (F0 & F1 & F2), (Hbit i Hi) as (G0 & G1 & G2); rewrite ?F0, ?F1, ?F2, G0, G1, G2;
    by destruct (Z.testbit a0 i), (Z.testbit a1 i), (Z.testbit a2 i).
Qed.

(** * The column parity mixer *)

Definition words (n : nat) (l : list Z) : Prop := length l = n ∧ Forall (in_word 32) l.

Lemma lanes_nth n l i : words n l → in_word 32 l.[i].
Proof. intros [_ H]. by apply Forall_nth_Z; [|apply in_word_0]. Qed.

(** The step written without assignments. *)
Definition stepOf (p : Z) (l : list Z) : list Z :=
  map (fun x => let v := l.[xm (Z.of_nat x - p)] in
    Z.lxor (Z.lxor l.[x] (rot v (5 * p))) (rot v (14 * p))) (seq 0 4).

Lemma thetaStep_of p l : length l = 4 → thetaStep p l = stepOf p l.
Proof. intros Hl. destruct l as [|w0 [|w1 [|w2 [|w3 [|]]]]]; try done. Qed.

Lemma thetaStep_length p l : length l = 4 → length (thetaStep p l) = 4.
Proof. intros Hl. by rewrite thetaStep_of. Qed.

Lemma stepOf_words p l : words 4 l → words 4 (stepOf p l).
Proof.
  intros Hl. split; [done|]. apply Forall_of_nth. intros i Hi. unfold stepOf.
  rewrite nth_map_seq by done. pose proof (fun j => lanes_nth 4 l j Hl) as Hn.
  apply in_word_lxor; [lia|apply in_word_lxor; [lia|apply Hn|]|]; by apply rot_word.
Qed.

Lemma stepOf_xor p a b : words 4 a → words 4 b → stepOf p (xorv a b) = xorv (stepOf p a) (stepOf p b).
Proof.
  intros Ha Hb. pose proof (fun j => lanes_nth 4 a j Ha) as Hna. pose proof (fun j => lanes_nth 4 b j Hb) as Hnb.
  assert (Hl : length a = length b) by (rewrite (proj1 Ha); by rewrite (proj1 Hb)).
  apply list_eq_nth; [done|]. intros i Hi. rewrite xorv_nth by done. unfold stepOf.
  rewrite !nth_map_seq by done. cbv zeta. rewrite !xorv_nth by done. rewrite !rot_xor by done.
  set (x := rot _ (5 * p)). set (x' := rot _ (5 * p)). set (y := rot _ (14 * p)). set (y' := rot _ (14 * p)).
  rewrite !Z.lxor_assoc. f_equal. rewrite (Z.lxor_comm b.[i]), !Z.lxor_assoc. f_equal.
  rewrite (Z.lxor_comm x'), !Z.lxor_assoc. f_equal. rewrite (Z.lxor_comm y'), !Z.lxor_assoc. done.
Qed.

(** The steps of a list of distances, in order. *)
Definition steps (ps : list Z) (l : list Z) : list Z := foldl (fun l p => stepOf p l) l ps.

Lemma steps_words ps l : words 4 l → words 4 (steps ps l).
Proof. revert l. induction ps as [|p ps IH]; intros l Hl; [done|]. cbn [steps foldl]. by apply IH, stepOf_words. Qed.

Lemma steps_xor ps a b : words 4 a → words 4 b → steps ps (xorv a b) = xorv (steps ps a) (steps ps b).
Proof.
  revert a b. induction ps as [|p ps IH]; intros a b Ha Hb; [done|]. cbn [steps foldl].
  rewrite stepOf_xor by done. apply IH; by apply stepOf_words.
Qed.

Lemma thetaEffect_steps l : length l = 4 → thetaEffect l = steps [1; 2; 4; 8; 16]%Z l.
Proof.
  intros Hl. unfold thetaEffect. rewrite !(for_snoc 0) by lia. rewrite for_0. cbn [steps foldl].
  by rewrite !thetaStep_of by by repeat apply thetaStep_length.
Qed.

(** Four lanes as a number of 128 bits. *)
Definition unpack4 (z : Z) : list Z :=
  let z1 := Z.shiftr z 32 in let z2 := Z.shiftr z1 32 in let z3 := Z.shiftr z2 32 in
  [u32 z; u32 z1; u32 z2; u32 z3].

Lemma unpack4_words z : words 4 (unpack4 z).
Proof. split; [done|]. repeat constructor; apply in_word_wrap; lia. Qed.

Lemma unpack4_xor a b : unpack4 (Z.lxor a b) = xorv (unpack4 a) (unpack4 b).
Proof. unfold unpack4, xorv. cbn [zip_with]. by rewrite !Z.shiftr_lxor, !wrap_lxor by lia. Qed.

Lemma unpack_cons a r : in_word 32 a → (0 ≤ r)%Z →
  u32 (Z.lor a (Z.shiftl r 32)) = a ∧ Z.shiftr (Z.lor a (Z.shiftl r 32)) 32 = r.
Proof.
  intros Ha Hr. split; bitwise.
  - destruct (Z.ltb_spec i 32); cbn [andb].
    + by rewrite (Z.testbit_neg_r r), orb_false_r by lia.
    + by rewrite (testbit_high 32 a).
  - rewrite (testbit_high 32 a) by (done || lia). cbn [orb]. f_equal. lia.
Qed.

Lemma unpack4_surj l : words 4 l → ∃ z, in_word 128 z ∧ unpack4 z = l.
Proof.
  intros [Hl Hw]. destruct l as [|w0 [|w1 [|w2 [|w3 [|]]]]]; try done.
  inversion_clear Hw as [|?? H0 Hw1]. inversion_clear Hw1 as [|?? H1 Hw2].
  inversion_clear Hw2 as [|?? H2 Hw3]. inversion_clear Hw3 as [|?? H3 _].
  set (r2 := Z.lor w2 (Z.shiftl w3 32)). set (r1 := Z.lor w1 (Z.shiftl r2 32)).
  assert (Hr2 : in_word 64 r2).
  { unfold r2. rewrite lor_disjoint_add by (done || lia). unfold in_word in *. lia. }
  assert (Hr1 : in_word 96 r1).
  { unfold r1. rewrite lor_disjoint_add by (done || lia). unfold in_word in *. lia. }
  exists (Z.lor w0 (Z.shiftl r1 32)). split.
  { rewrite lor_disjoint_add by (done || lia). unfold in_word in *. lia. }
  unfold unpack4. cbv zeta. destruct (unpack_cons w0 r1 H0 (proj1 Hr1)) as [-> ->].
  unfold r1 at 1 2 3. destruct (unpack_cons w1 r2 H1 (proj1 Hr2)) as [-> ->].
  unfold r2. destruct (unpack_cons w2 w3 H2 (proj1 H3)) as [-> ->]. by rewrite wrap_small.
Qed.

(** Steps that fix the 128 unit vectors are the identity. *)
Lemma steps_id ps : (∀ i, i < 4 →
    agree_on_basis 128 (fun z => (steps ps (unpack4 z)).[i]) (fun z => (unpack4 z).[i]) = true) →
  ∀ l, words 4 l → steps ps l = l.
Proof.
  intros Hc l Hl. destruct (unpack4_surj l Hl) as (z & Hz & <-).
  assert (Hlen : ∀ z, length (steps ps (unpack4 z)) = 4) by (intros; by apply steps_words, unpack4_words).
  apply list_eq_nth; [apply Hlen|]. intros i Hi. rewrite Hlen in Hi.
  apply (linear_check 128 (fun z => (steps ps (unpack4 z)).[i]) (fun z => (unpack4 z).[i])); [| |by apply Hc|done].
  - intros a b Ha Hb. rewrite unpack4_xor, steps_xor by apply unpack4_words. apply xorv_nth. by rewrite !Hlen.
  - intros a b Ha Hb. rewrite unpack4_xor. by apply xorv_nth.
Qed.

(** The doubling loop inverts one step, on both sides: [(1 + E) ^ 32 = 1 + E ^ 32 = 1]. *)
Lemma thetaEffect_inverse l : words 4 l →
  thetaEffect (stepOf 1 l) = l ∧ stepOf 1 (thetaEffect l) = l.
Proof.
  intros Hl. rewrite !thetaEffect_steps by (apply Hl || done).
  split; [change (steps [1; 1; 2; 4; 8; 16]%Z l = l)|change (steps [1; 2; 4; 8; 16; 1]%Z l = l)];
    apply steps_id; try done; intros i Hi; destruct i as [|[|[|[|]]]]; try lia; vm_compute; reflexivity.
Qed.

(** * Layers of a round on states *)

Definition vars_ok (v : Vars) : Prop := words 12 (Vars2State v).

Lemma vars_of_state A : words 12 A → ∃ v, vars_ok v ∧ A = Vars2State v ∧ State2Vars A = v.
Proof.
  intros HA. exists (State2Vars A). assert (E : A = Vars2State (State2Vars A)).
  { destruct HA as [Hl _]. do 12 (destruct A as [|? A]; [done|]). by destruct A. }
  split; [|done]. unfold vars_ok. by rewrite <- E.
Qed.

Lemma State_Vars v : State2Vars (Vars2State v) = v.
Proof. by destruct v. Qed.

Lemma vars_fields v : vars_ok v →
  (in_word 32 (a00 v) ∧ in_word 32 (a01 v) ∧ in_word 32 (a02 v) ∧ in_word 32 (a03 v)) ∧
  (in_word 32 (a10 v) ∧ in_word 32 (a11 v) ∧ in_word 32 (a12 v) ∧ in_word 32 (a13 v)) ∧
  (in_word 32 (a20 v) ∧ in_word 32 (a21 v) ∧ in_word 32 (a22 v) ∧ in_word 32 (a23 v)).
Proof.
  intros Hv. pose proof (fun i => lanes_nth 12 (Vars2State v) i Hv) as H.
  split; [|split]; (split; [|split; [|split]]).
  - apply (H 0). - apply (H 1). - apply (H 2). - apply (H 3).
  - apply (H 4). - apply (H 5). - apply (H 6). - apply (H 7).
  - apply (H 8). - apply (H 9). - apply (H 10). - apply (H 11).
Qed.

Lemma mk_ok x00 x01 x02 x03 x10 x11 x12 x13 x20 x21 x22 x23 :
  in_word 32 x00 → in_word 32 x01 → in_word 32 x02 → in_word 32 x03 →
  in_word 32 x10 → in_word 32 x11 → in_word 32 x12 → in_word 32 x13 →
  in_word 32 x20 → in_word 32 x21 → in_word 32 x22 → in_word 32 x23 →
  vars_ok (mkVars x00 x01 x02 x03 x10 x11 x12 x13 x20 x21 x22 x23).
Proof. intros. split; [done|]. do 12 (constructor; [done|]). constructor. Qed.

(** The inverse layers on the variables. *)
Definition Rho_west_inv (v : Vars) : Vars :=
  mkVars (a00 v) (a01 v) (a02 v) (a03 v) (a11 v) (a12 v) (a13 v) (a10 v)
    (rotr (a20 v) 11) (rotr (a21 v) 11) (rotr (a22 v) 11) (rotr (a23 v) 11).

Definition Rho_east_inv (v : Vars) : Vars :=
  mkVars (a00 v) (a01 v) (a02 v) (a03 v)
    (rotr (a10 v) 1) (rotr (a11 v) 1) (rotr (a12 v) 1) (rotr (a13 v) 1)
    (rotr (a22 v) 8) (rotr (a23 v) 8) (rotr (a20 v) 8) (rotr (a21 v) 8).

Lemma rhoWest_state v : rhoWest (Vars2State v) = Vars2State (Rho_west_inv v).
Proof. done. Qed.
Lemma rhoEast_state v : rhoEast (Vars2State v) = Vars2State (Rho_east_inv v).
Proof. done. Qed.
Lemma chi_state v : chi (Vars2State v) = Vars2State (Chi v).
Proof. done. Qed.

Lemma rotr11 x : in_word 32 x → rotr (ROTL32 x 11) 11 = x ∧ ROTL32 (rotr x 11) 11 = x.
Proof. intros. by apply rotr_ROTL32. Qed.
Lemma rotr1 x : in_word 32 x → rotr (ROTL32 x 1) 1 = x ∧ ROTL32 (rotr x 1) 1 = x.
Proof. intros. by apply rotr_ROTL32. Qed.
Lemma rotr8 x : in_word 32 x → rotr (ROTL32 x 8) 8 = x ∧ ROTL32 (rotr x 8) 8 = x.
Proof. intros. by apply rotr_ROTL32. Qed.

(** A layer [f] and its inverse [g] on the variables. *)
Definition layer_inv (f g : Vars → Vars) : Prop :=
  ∀ v, vars_ok v → vars_ok (f v) ∧ vars_ok (g v) ∧ g (f v) = v ∧ f (g v) = v.

Ltac fields Hv :=
  pose proof (vars_fields _ Hv) as ((?&?&?&?)&(?&?&?&?)&(?&?&?&?)).
Ltac vcbn := cbn [a00 a01 a02 a03 a10 a11 a12 a13 a20 a21 a22 a23] in *.
Ltac words_done := first [assumption|apply ROTL32_word; [assumption|lia]|apply rot_word; assumption].

(** Closes [rotr (ROTL32 x n) n = x] and its converse with the lemma for [n]. *)
Ltac rot_back L :=
  lazymatch goal with
  | H : in_word 32 ?x |- rotr (ROTL32 ?x _) _ = ?x => exact (proj1 (L x H))
  | H : in_word 32 ?x |- ROTL32 (rotr ?x _) _ = ?x => exact (proj2 (L x H))
  end.

Lemma Rho_west_layer : layer_inv Rho_west Rho_west_inv.
Proof.
  intros v Hv. fields Hv. destruct v. unfold Rho_west, Rho_west_inv. vcbn.
  split; [apply mk_ok; words_done|]. split; [apply mk_ok; words_done|].
  split; f_equal; rot_back rotr11.
Qed.

Lemma Rho_east_layer : layer_inv Rho_east Rho_east_inv.
Proof.
  intros v Hv. fields Hv. destruct v. unfold Rho_east, Rho_east_inv. vcbn.
  split; [apply mk_ok; words_done|]. split; [apply mk_ok; words_done|].
  split; f_equal; first [rot_back rotr1 | rot_back rotr8].
Qed.

Lemma Iota_layer c : in_word 32 c → layer_inv (Iota c) (Iota c).
Proof.
  intros Hc v Hv. fields Hv. destruct v as [x00]. unfold Iota. vcbn.
  assert (in_word 32 (Z.lxor x00 c)) by (apply in_word_lxor; done).
  split; [apply mk_ok; words_done|]. split; [apply mk_ok; words_done|]. rewrite lxor_cancel. split; reflexivity.
Qed.

Lemma Chi_layer : layer_inv Chi Chi.
Proof.
  intros v Hv. fields Hv. destruct v as [x00 x01 x02 x03 x10 x11 x12 x13 x20 x21 x22 x23]. vcbn.
  assert (HC : vars_ok (Chi (mkVars x00 x01 x02 x03 x10 x11 x12 x13 x20 x21 x22 x23)) ∧
    Chi (Chi (mkVars x00 x01 x02 x03 x10 x11 x12 x13 x20 x21 x22 x23)) =
      mkVars x00 x01 x02 x03 x10 x11 x12 x13 x20 x21 x22 x23); [|tauto].
  pose proof (chi_word x00 x10 x20) as W0. pose proof (chi_chi x00 x10 x20) as C0.
  pose proof (chi_word x01 x11 x21) as W1. pose proof (chi_chi x01 x11 x21) as C1.
  pose proof (chi_word x02 x12 x22) as W2. pose proof (chi_chi x02 x12 x22) as C2.
  pose proof (chi_word x03 x13 x23) as W3. pose proof (chi_chi x03 x13 x23) as C3.
  unfold Chi at 1 3. vcbn.
  destruct (chiCol x00 x10 x20) as [[y00 y10] y20], (chiCol x01 x11 x21) as [[y01 y11] y21],
    (chiCol x02 x12 x22) as [[y02 y12] y22], (chiCol x03 x13 x23) as [[y03 y13] y23].
  destruct W0 as (?&?&?), W1 as (?&?&?), W2 as (?&?&?), W3 as (?&?&?); try assumption.
  split; [apply mk_ok; assumption|]. unfold Chi. vcbn.
  rewrite C0, C1, C2, C3 by assumption. reflexivity.
Qed.

(** Adds four words to the columns of a state. *)
Definition addE (e : list Z) (v : Vars) : Vars :=
  mkVars (Z.lxor (a00 v) e.[0]) (Z.lxor (a01 v) e.[1]) (Z.lxor (a02 v) e.[2]) (Z.lxor (a03 v) e.[3])
    (Z.lxor (a10 v) e.[0]) (Z.lxor (a11 v) e.[1]) (Z.lxor (a12 v) e.[2]) (Z.lxor (a13 v) e.[3])
    (Z.lxor (a20 v) e.[0]) (Z.lxor (a21 v) e.[1]) (Z.lxor (a22 v) e.[2]) (Z.lxor (a23 v) e.[3]).

(** Column parities. *)
Definition parity (v : Vars) : list Z :=
  [Z.lxor (Z.lxor (a00 v) (a10 v)) (a20 v); Z.lxor (Z.lxor (a01 v) (a11 v)) (a21 v);
   Z.lxor (Z.lxor (a02 v) (a12 v)) (a22 v); Z.lxor (Z.lxor (a03 v) (a13 v)) (a23 v)].

Lemma words_fields e : words 4 e → in_word 32 e.[0] ∧ in_word 32 e.[1] ∧ in_word 32 e.[2] ∧ in_word 32 e.[3].
Proof. intros He. pose proof (fun i => lanes_nth 4 e i He) as H. split; [|split; [|split]]; apply H. Qed.

Lemma addE_ok e v : words 4 e → vars_ok v → vars_ok (addE e v).
Proof.
  intros He Hv. fields Hv. destruct (words_fields e He) as (?&?&?&?). unfold addE.
  apply mk_ok; (apply in_word_lxor; [lia|assumption|assumption]).
Qed.

Lemma parity_words v : vars_ok v → words 4 (parity v).
Proof.
  intros Hv. fields Hv. split; [done|]. unfold parity.
  do 4 (constructor; [apply in_word_lxor; [lia|apply in_word_lxor; [lia|assumption|assumption]|assumption]|]).
  constructor.
Qed.

Lemma lxor3_same a b c e :
  Z.lxor (Z.lxor (Z.lxor a e) (Z.lxor b e)) (Z.lxor c e) = Z.lxor (Z.lxor (Z.lxor a b) c) e.
Proof. by rewrite lxor_swap4, <- Z.lxor_assoc. Qed.

Lemma parity_addE e v : length e = 4 → parity (addE e v) = xorv (parity v) e.
Proof.
  intros Hl. destruct e as [|e0 [|e1 [|e2 [|e3 [|]]]]]; try done. destruct v. unfold parity, addE, xorv.
  cbn [zip_with]. vcbn. cbn [nth]. by rewrite !lxor3_same.
Qed.

Lemma addE_addE e v : addE e (addE e v) = v.
Proof. destruct v. unfold addE. vcbn. by rewrite !lxor_cancel. Qed.

Lemma xorv_words n a b : words n a → words n b → words n (xorv a b).
Proof.
  intros [Ha Wa] [Hb Wb]. split; [rewrite xorv_length; congruence|]. apply xorv_ok; done || lia.
Qed.

(** The forward step adds what one doubling step adds to the parities. *)
Lemma Theta_addE v : vars_ok v → Theta v = addE (xorv (parity v) (stepOf 1 (parity v))) v.
Proof.
  intros Hv. destruct (words_fields _ (parity_words v Hv)) as (H0&H1&H2&H3).
  assert (HR : ∀ x, in_word 32 x → rot x (5 * 1) = ROTL32 x 5 ∧ rot x (14 * 1) = ROTL32 x 14).
  { intros x Hx. split; rewrite ROTL32_rotw by (done || lia); by apply rot_rotw. }
  assert (E : xorv (parity v) (stepOf 1 (parity v)) =
    map (fun x => Z.lxor (ROTL32 (parity v).[x] 5) (ROTL32 (parity v).[x] 14)) [3; 0; 1; 2]).
  { change (stepOf 1 (parity v)) with (map (fun '(x, y) => Z.lxor (Z.lxor (parity v).[x] (rot (parity v).[y] (5 * 1)))
      (rot (parity v).[y] (14 * 1))) [(0, 3); (1, 0); (2, 1); (3, 2)]).
    cbn [map]. destruct (HR _ H0) as [-> ->], (HR _ H1) as [-> ->], (HR _ H2) as [-> ->], (HR _ H3) as [-> ->].
    change (parity v) with [(parity v).[0]; (parity v).[1]; (parity v).[2]; (parity v).[3]] at 1.
    unfold xorv. cbn [zip_with]. rewrite !Z.lxor_assoc, !lxor_cancel_l. done. }
  rewrite E. destruct v. reflexivity.
Qed.

Lemma theta_addE v : theta (Vars2State v) = Vars2State (addE (xorv (thetaEffect (parity v)) (parity v)) v).
Proof.
  assert (Hl : ∀ p, length p = 4 → ∃ e0 e1 e2 e3, thetaEffect p = [e0; e1; e2; e3]).
  { intros p Hp. assert (Hq : length (thetaEffect p) = 4).
    { unfold thetaEffect. rewrite !(for_snoc 0), for_0 by lia. by repeat apply thetaStep_length. }
    destruct (thetaEffect p) as [|e0 [|e1 [|e2 [|e3 [|]]]]]; try done. by exists e0, e1, e2, e3. }
  destruct (Hl (parity v) eq_refl) as (e0 & e1 & e2 & e3 & He). unfold theta.
  change (for_ 0 4 _ (replicate 4 0%Z)) with (parity v). cbv zeta. rewrite He. reflexivity.
Qed.

Definition Theta_inv (v : Vars) : Vars := addE (xorv (thetaEffect (parity v)) (parity v)) v.

Lemma thetaEffect_words p : words 4 p → words 4 (thetaEffect p).
Proof. intros Hp. rewrite thetaEffect_steps by apply Hp. by apply steps_words. Qed.

Lemma Theta_layer : layer_inv Theta Theta_inv.
Proof.
  intros v Hv. pose proof (parity_words v Hv) as Hp.
  assert (He : words 4 (xorv (parity v) (stepOf 1 (parity v)))) by (apply xorv_words, stepOf_words; done).
  assert (Hd : words 4 (xorv (thetaEffect (parity v)) (parity v))) by (apply xorv_words; [by apply thetaEffect_words|done]).
  assert (Hv1 : vars_ok (addE (xorv (parity v) (stepOf 1 (parity v))) v)) by by apply addE_ok.
  assert (Hv2 : vars_ok (Theta_inv v)) by by apply addE_ok.
  split; [by rewrite Theta_addE|]. split; [done|]. split.
  - rewrite Theta_addE by done. unfold Theta_inv. rewrite parity_addE by apply He.
    rewrite xorv_cancel_l by (rewrite (proj1 Hp); symmetry; apply (stepOf_words 1 _ Hp)).
    rewrite (proj1 (thetaEffect_inverse _ Hp)). apply addE_addE.
  - rewrite Theta_addE by done. unfold Theta_inv at 1 2. rewrite parity_addE by apply Hd.
    rewrite (xorv_comm (thetaEffect _) (parity v)), xorv_cancel_l
      by (rewrite (proj1 Hp); symmetry; apply (thetaEffect_words _ Hp)).
    rewrite (proj2 (thetaEffect_inverse _ Hp)). unfold Theta_inv.
    rewrite (xorv_comm (thetaEffect _) (parity v)) at 2. rewrite xorv_comm. apply addE_addE.
Qed.

(** * Rounds *)

Definition Round_inv (c : Z) (v : Vars) : Vars :=
  Theta_inv (Rho_west_inv (Iota c (Chi (Rho_east_inv v)))).

Lemma layer_compose f g f' g' : layer_inv f g → layer_inv f' g' →
  layer_inv (fun v => f' (f v)) (fun v => g (g' v)).
Proof.
  intros H H' v Hv. destruct (H v Hv) as (A1 & A2 & A3 & A4), (H' v Hv) as (B1 & B2 & B3 & B4).
  destruct (H' (f v) A1) as (C1 & _ & C3 & _), (H (g' v) B2) as (_ & D2 & _ & D4).
  split; [done|]. split; [done|]. by rewrite C3, D4.
Qed.

Lemma Round_layer c : in_word 32 c → layer_inv (Round c) (Round_inv c).
Proof.
  intros Hc. unfold Round, Round_inv.
  exact (layer_compose _ _ _ _ (layer_compose _ _ _ _ (layer_compose _ _ _ _ (layer_compose _ _ _ _
    Theta_layer Rho_west_layer) (Iota_layer c Hc)) Chi_layer) Rho_east_layer).
Qed.

Lemma iota_state c v : <[0 := Z.lxor (Vars2State v).[0] c]> (Vars2State v) = Vars2State (Iota c v).
Proof. by destruct v. Qed.

Lemma unround_state c v : unround c (Vars2State v) = Vars2State (Round_inv c v).
Proof.
  unfold unround. rewrite rhoEast_state, chi_state.
  by rewrite iota_state, rhoWest_state, theta_addE.
Qed.

Lemma RC_word i : in_word 32 RC.[i].
Proof.
  apply Forall_nth_Z; [|by apply in_word_0]. apply Forall_forall. intros x Hx. unfold RC in Hx.
  assert (H : forallb (fun x => (0 <=? x)%Z && (x <? 2 ^ 32)%Z) RC = true) by reflexivity.
  rewrite forallb_forall in H. specialize (H x). apply list_elem_of_In in Hx. specialize (H Hx).
  apply andb_true_iff in H as [H1%Z.leb_le H2%Z.ltb_lt]. done.
Qed.

(** [run] walks the round constants of the forward permutation backwards. *)
Lemma run_state v : run (Vars2State v) = Vars2State (for_down 12 (fun i v => Round_inv RC.[i] v) v).
Proof. unfold run, rc. cbn [foldl for_down]. by rewrite !unround_state. Qed.

Lemma permute_run A : words 12 A →
  words 12 (Permute_12rounds A) ∧ run (Permute_12rounds A) = A ∧
  words 12 (run A) ∧ Permute_12rounds (run A) = A.
Proof.
  intros HA. destruct (vars_of_state A HA) as (v & Hv & -> & Es). unfold Permute_12rounds.
  rewrite !run_state, !State_Vars.
  destruct (for_down_undo vars_ok 12 (fun i v => Round RC.[i] v) (fun i v => Round_inv RC.[i] v) v) as [H1 H2].
  { intros i w _ Hw. destruct (Round_layer _ (RC_word i) w Hw) as (?&_&?&_). done. }
  { done. }
  destruct (for_undo vars_ok 12 (fun i v => Round RC.[i] v) (fun i v => Round_inv RC.[i] v) v) as [H3 H4].
  { intros i w _ Hw. destruct (Round_layer _ (RC_word i) w Hw) as (_&?&_&?). done. }
  { done. }
  rewrite H2, H4. done.
Qed.

(** * Bytes and lanes *)

Lemma lanes_words n bs : bytes_ok bs → words n (lanesOf n bs).
Proof.
  revert bs. induction n as [|n IH]; intros bs Hbs; [by split|].
  destruct (IH (drop 4 bs)) as [Hl Hw]; [by apply Forall_drop|].
  split; [cbn; by rewrite Hl|]. constructor; [|done].
  eapply in_word_weaken; [|apply le_val_bound; by apply Forall_take]. rewrite length_take. lia.
Qed.

Lemma bytes_of_lanes n a : words n a → buf_ok (4 * n) (bytesOfLanes a) ∧ lanesOf n (bytesOfLanes a) = a.
Proof.
  revert a. induction n as [|n IH]; intros a [Hl Hw].
  - destruct a; [|done]. split; [split; [done|constructor]|done].
  - destruct a as [|x a]; [done|]. inversion_clear Hw as [|?? Hx Ha].
    destruct (IH a) as [[H1 H2] H3]; [split; [by injection Hl|done]|].
    unfold bytesOfLanes in *. cbn [map List.concat lanesOf]. split.
    + split; [rewrite length_app, H1, le_bytes_length; lia|]. apply Forall_app. split; [apply le_bytes_ok|done].
    + rewrite take_app_length', drop_app_length' by (by rewrite le_bytes_length).
      rewrite H3, le_val_bytes. f_equal. apply wrap_small. exact Hx.
Qed.

Lemma lanes_of_bytes n bs : buf_ok (4 * n) bs → bytesOfLanes (lanesOf n bs) = bs.
Proof.
  revert bs. induction n as [|n IH]; intros bs [Hl Hb]; [by destruct bs|].
  unfold bytesOfLanes in *. cbn [lanesOf map List.concat]. rewrite IH.
  - pose proof (le_bytes_val (take 4 bs) (Forall_take _ _ _ Hb)) as E.
    rewrite length_take, Nat.min_l in E by lia. rewrite E. apply take_drop.
  - split; [rewrite length_drop; lia|by apply Forall_drop].
Qed.

Lemma xoodoo_both data : buf_ok Bytes data →
  (∃ c, encrypt data = Ok c ∧ buf_ok Bytes c ∧ decrypt c = Ok data) ∧
  (∃ c, decrypt data = Ok c ∧ buf_ok Bytes c ∧ encrypt c = Ok data).
Proof.
  intros Hd. destruct (permute_run _ (lanes_words 12 data (proj2 Hd))) as (H1 & H2 & H3 & H4).
  destruct (bytes_of_lanes 12 _ H1) as [B1 L1], (bytes_of_lanes 12 _ H3) as [B2 L2].
  assert (Hc : ∀ d, buf_ok Bytes d → check (length d) = Ok tt) by (intros d [-> _]; done).
  unfold encrypt, decrypt. rewrite (Hc data Hd). cbn [mbind Res_bind]. split.
  - eexists. split; [reflexivity|]. split; [exact B1|]. rewrite (Hc _ B1). cbn [mbind Res_bind].
    rewrite L1, H2. unfold mret, Res_ret. f_equal. by apply (lanes_of_bytes 12).
  - eexists. split; [reflexivity|]. split; [exact B2|]. rewrite (Hc _ B2). cbn [mbind Res_bind].
    rewrite L2, H4. unfold mret, Res_ret. f_equal. by apply (lanes_of_bytes 12).
Qed.

#[export] Instance xoodoo_laws : PermLaws perm Bytes.
Proof.
  split; cbn [perm encryptBytes decryptBytes]; intros data.
  - intros Hd. destruct (xoodoo_both data Hd) as [(c & ? & ? & _) _]. by exists c.
  - intros Hd. destruct (xoodoo_both data Hd) as [_ (c & ? & ? & _)]. by exists c.
  - intros c Hd E. destruct (xoodoo_both data Hd) as [(c' & E' & _ & H) _]. rewrite E in E'. by injection E' as ->.
  - intros c Hd E. destruct (xoodoo_both data Hd) as [_ (c' & E' & _ & H)]. rewrite E in E'. by injection E' as ->.
Qed.

(** The inverse Xoodoo of the repository (backwards round constants, the involution [chi], and the
    five doubling steps for [theta]) undoes twelve rounds of the vendored forward permutation on
    every 48-byte state, and is undone by them. *)
Theorem xoodoo_inverse data : buf_ok Bytes data →
  (∃ c, encryptBytes perm data = Ok c ∧ buf_ok Bytes c ∧ decryptBytes perm c = Ok data) ∧
  (∃ c, decryptBytes perm data = Ok c ∧ buf_ok Bytes c ∧ encryptBytes perm c = Ok data).
Proof. exact (xoodoo_both data). Qed.

Lemma xoodoo_inverse_witness :
  (∃ c, encryptBytes perm (replicate 48 9%Z) = Ok c ∧ buf_ok Bytes c ∧ decryptBytes perm c = Ok (replicate 48 9%Z)) ∧
  (∃ c, decryptBytes perm (replicate 48 9%Z) = Ok c ∧ buf_ok Bytes c ∧ encryptBytes perm c = Ok (replicate 48 9%Z)).
Proof.
  apply (xoodoo_inverse (replicate 48 9%Z)). split; [reflexivity|apply Forall_replicate; unfold in_word; lia].
Defined.
End Xoodoo.
