(* ===== verification/Permutation.v ===== *)
(** The choice of a wide permutation: frontend/permutation/permutation.h. *)
From S2P Require Import Prelude Words PermApi Feistel Hctr2 Sneik Small ConsPi Xoodoo.
From Stdlib Require Import DecimalString DecimalPos DecimalN.
Open Scope nat_scope.

Module PqPerm.

Inductive Kind : Type := ConsPi | Hctr | Feistel | Xoodoo.

#[export] Instance Kind_eq_dec : EqDecision Kind.
Proof. solve_decision. Defined.

Record Cfg : Type := mkCfg {
  kind : Kind;
  small : Pi.Kind;
  lambda : nat;
  rounds : nat;
}.

(** The default member values. *)
Definition Cfg_default : Cfg := mkCfg ConsPi Pi.Keccak1600 128 Feistel.Feistel.DefaultRounds.

Definition name (kind : Kind) : string :=
  match kind with
  | ConsPi => "conspi"
  | Hctr => "hctr"
  | Feistel => "feistel"
  | Xoodoo => "xoodoo"
  end.

Definition with_kind (k : Kind) (cfg : Cfg) : Cfg := mkCfg k (small cfg) (lambda cfg) (rounds cfg).
Definition with_small (k : Pi.Kind) (cfg : Cfg) : Cfg := mkCfg (kind cfg) k (lambda cfg) (rounds cfg).
Definition with_rounds (r : nat) (cfg : Cfg) : Cfg := mkCfg (kind cfg) (small cfg) (lambda cfg) r.

(** [std::isdigit] in the C locale. *)
Definition isdigit (c : Ascii.ascii) : bool :=
  let n := Ascii.nat_of_ascii c in (48 <=? n) && (n <=? 57).

(** [std::stoull] on a string of decimal digits. *)
Definition stoull (tail : string) : Res Z :=
  let v := foldl (fun v c => (10 * v + (Z.of_nat (Ascii.nat_of_ascii c) - 48))%Z) 0%Z (String.list_ascii_of_string tail) in
  throw_if (2 ^ 64 <=? v)%Z (OutOfRange "stoull") ;;
  mret v.

(** [set(cfg, text)]: the configuration after the call. *)
Definition set (cfg : Cfg) (text : string) : Res Cfg :=
  let eqs s := String.eqb text s in
  if eqs "conspi" || eqs "cons-pi" || eqs "pi" then mret (with_kind ConsPi cfg) else
  if eqs "hctr" || eqs "hctr2" then mret (with_kind Hctr cfg) else
  if eqs "feistel" then mret (with_kind Feistel cfg) else
  let prefix := "feistel-" in
  if String.prefix prefix text then
    let tail := String.substring (String.length prefix) (String.length text - String.length prefix) text in
    throw_if (String.eqb tail "" || negb (forallb isdigit (String.list_ascii_of_string tail)))
      (InvalidArgument (String.append "bad feistel round count: " text)) ;;
    r ← stoull tail;
    mret (with_rounds (Z.to_nat r) (with_kind Feistel cfg))
  else
  if eqs "xoodoo" then mret (with_kind Xoodoo cfg) else
  k ← Pi.parseKind text;
  mret (with_small k (with_kind ConsPi cfg)).

Section Make.
(** Keccak-p (KeccakTools), SHAKE256 and AES-128 (cryptoTools and system libraries). *)
Context (keccak keccak_inv : nat → nat → list Z → list Z)
  (shake : nat → list Z → option (list Z)) (aes_enc aes_dec : block → block → block).

Definition make (cfg : Cfg) (party : Z) : Res Perm :=
  match kind cfg with
  | ConsPi =>
      params ← Pi.defaults (small cfg) KEM_key_size_bit (lambda cfg);
      st ← ConsPi.ConsPi.construct keccak keccak_inv params party;
      mret (ConsPi.ConsPi.perm st)
  | Hctr => mret (Hctr2.Hctr2.perm aes_enc aes_dec party)
  | Feistel =>
      st ← Feistel.Feistel.construct (rounds cfg) party;
      mret (Feistel.Feistel.perm shake st)
  | Xoodoo => mret Xoodoo.Xoodoo.perm
  end.

(** * Every object [make] returns is a permutation of the rows *)

(** Bytes of the rows an object works on. *)
Definition rowBytes (k : Kind) : nat :=
  match k with Xoodoo => Xoodoo.Xoodoo.Bytes | _ => KEM_key_size_bit / 8 end.

(** What the three external primitives document. *)
Definition primitives_ok : Prop :=
  Pi.keccak_laws keccak keccak_inv ∧ Feistel.Feistel.shake_ok shake ∧ Feistel.Feistel.shake_total shake ∧
  Hctr2.Hctr2.aes_inverse aes_enc aes_dec.

Lemma make_laws cfg party p : primitives_ok → make cfg party = Ok p → PermLaws p (rowBytes (kind cfg)).
Proof.
  intros (Hk & Hs & Ht & Ha) H. unfold make in H. destruct (kind cfg) eqn:E; cbn [rowBytes].
  - inv_ok. lazymatch goal with Hc : ConsPi.ConsPi.construct _ _ ?q _ = Ok ?st |- _ =>
      destruct (ConsPi.ConsPi.construct_wf _ _ _ _ _ Hk Hc) as [Hw Hp] end.
    lazymatch goal with Hd : Pi.defaults _ _ _ = Ok _ |- _ => unfold Pi.defaults in Hd end. inv_ok.
    apply ConsPi.ConsPi.construct_laws; [done|by rewrite Hp|].
    apply ConsPi.ConsPi.wf_round_word; [done|]. rewrite Hp. reflexivity.
  - injection H as <-. by apply Hctr2.Hctr2.hctr_laws.
  - inv_ok. by apply Feistel.Feistel.feistel_laws.
  - injection H as <-. apply Xoodoo.Xoodoo.xoodoo_laws.
Qed.
End Make.

(** * Names and texts *)

(** Decimal text of a number, without leading zeros. *)
Definition decimal (n : N) : string := NilZero.string_of_uint (N.to_uint n).

Lemma stoull_digits d acc :
  foldl (fun v c => (10 * v + (Z.of_nat (Ascii.nat_of_ascii c) - 48))%Z) (Zpos acc)
    (String.list_ascii_of_string (NilEmpty.string_of_uint d)) = Zpos (Pos.of_uint_acc d acc).
Proof.
  revert acc. induction d using Decimal.uint_ind; intros acc; [done|..];
    cbn [NilEmpty.string_of_uint String.list_ascii_of_string foldl Pos.of_uint_acc]; rewrite <- IHd; f_equal;
    lazymatch goal with |- context [Z.of_nat ?k] => let v := eval vm_compute in (Z.of_nat k) in change (Z.of_nat k) with v end; lia.
Qed.

Lemma stoull_uint d :
  foldl (fun v c => (10 * v + (Z.of_nat (Ascii.nat_of_ascii c) - 48))%Z) 0%Z
    (String.list_ascii_of_string (NilEmpty.string_of_uint d)) = Z.of_N (Pos.of_uint d).
Proof.
  induction d using Decimal.uint_ind; [done|..]; cbn [NilEmpty.string_of_uint String.list_ascii_of_string foldl Pos.of_uint];
    [exact IHd|..]; apply stoull_digits.
Qed.

Lemma digits_uint d : forallb isdigit (String.list_ascii_of_string (NilEmpty.string_of_uint d)) = true.
Proof. by induction d using Decimal.uint_ind. Qed.

Lemma decimal_spec n :
  decimal n ≠ "" ∧ forallb isdigit (String.list_ascii_of_string (decimal n)) = true ∧
  stoull (decimal n) = if (2 ^ 64 <=? Z.of_N n)%Z then Throw (OutOfRange "stoull") else Ok (Z.of_N n).
Proof.
  assert (E : ∃ d, decimal n = NilEmpty.string_of_uint d ∧ d ≠ Decimal.Nil ∧ Pos.of_uint d = n).
  { pose proof (DecimalN.Unsigned.of_to n) as Hn. unfold decimal, NilZero.string_of_uint.
    assert (Hnil : N.to_uint n ≠ Decimal.Nil) by (destruct n as [|q]; [done|apply DecimalPos.Unsigned.to_uint_nonnil]).
    exists (N.to_uint n). split; [by destruct (N.to_uint n)|done]. }
  destruct E as (d & -> & Hd & Hn). split; [by destruct d|]. split; [apply digits_uint|].
  unfold stoull. cbv zeta. rewrite stoull_uint, Hn. by destruct (2 ^ 64 <=? Z.of_N n)%Z.
Qed.

Lemma feistel_tail s : String.prefix "feistel-" (String.append "feistel-" s) = true ∧
  String.substring 8 (String.length (String.append "feistel-" s) - 8) (String.append "feistel-" s) = s.
Proof.
  split; [by destruct s|].
  change (String.length (String.append "feistel-" s)) with (8 + String.length s).
  replace (8 + String.length s - 8) with (String.length s) by lia.
  change (String.substring 0 (String.length s) s = s).
  induction s as [|c s IH]; [done|]. cbn [String.length String.substring]. by rewrite IH.
Qed.

(** [set] reads back every name the library prints, and any decimal round count: the names of the
    four kinds, the names of the small permutations (which select Construction-Pi), and
    "feistel-N" for every [N] a [size_t] holds; a larger [N] throws and a text that names nothing
    throws. *)
Theorem set_reads_names cfg :
  (∀ k, set cfg (name k) = Ok (with_kind k cfg)) ∧
  (∀ k, set cfg (Pi.name k) = Ok (with_small k (with_kind ConsPi cfg))) ∧
  (∀ n, (n < 2 ^ 64)%N →
    set cfg (String.append "feistel-" (decimal n)) = Ok (with_rounds (N.to_nat n) (with_kind Feistel cfg))) ∧
  (∀ n, (2 ^ 64 ≤ n)%N → set cfg (String.append "feistel-" (decimal n)) = Throw (OutOfRange "stoull")) ∧
  (∀ s, forallb isdigit (String.list_ascii_of_string s) = false →
    set cfg (String.append "feistel-" s) =
      Throw (InvalidArgument (String.append "bad feistel round count: " (String.append "feistel-" s)))).
Proof.
  assert (Hset : ∀ s, set cfg (String.append "feistel-" s) =
    (throw_if (String.eqb s "" || negb (forallb isdigit (String.list_ascii_of_string s)))
      (InvalidArgument (String.append "bad feistel round count: " (String.append "feistel-" s))) ;;
     r ← stoull s; mret (with_rounds (Z.to_nat r) (with_kind Feistel cfg)))).
  { intros s. destruct (feistel_tail s) as [Hp Ht]. unfold set.
    change (String.length "feistel-") with 8. rewrite Hp, Ht. reflexivity. }
  split; [intros k; by destruct k|]. split; [intros k; by destruct k|]. split; [|split].
  - intros n Hn. destruct (decimal_spec n) as (H0 & H1 & H2). rewrite Hset, H1, H2.
    apply String.eqb_neq in H0. rewrite H0. destruct (Z.leb_spec (2 ^ 64) (Z.of_N n)); [lia|].
    cbn [orb negb throw_if mbind Res_bind]. unfold mret, Res_ret. do 2 f_equal. lia.
  - intros n Hn. destruct (decimal_spec n) as (H0 & H1 & H2). rewrite Hset, H1, H2.
    apply String.eqb_neq in H0. rewrite H0. by destruct (Z.leb_spec (2 ^ 64) (Z.of_N n)); [|lia].
  - intros s Hs. rewrite Hset, Hs. by rewrite orb_true_r.
Qed.

(** Whatever configuration it is given, a permutation object that [make] returns is a bijection of
    the rows of its width (800 bytes, or 48 for Xoodoo): both directions succeed on every row and
    undo each other. *)
Theorem make_bijective keccak keccak_inv shake aes_enc aes_dec cfg party p row :
  primitives_ok keccak keccak_inv shake aes_enc aes_dec →
  make keccak keccak_inv shake aes_enc aes_dec cfg party = Ok p → buf_ok (rowBytes (kind cfg)) row →
  (∃ c, encryptBytes p row = Ok c ∧ buf_ok (rowBytes (kind cfg)) c ∧ decryptBytes p c = Ok row) ∧
  (∃ c, decryptBytes p row = Ok c ∧ buf_ok (rowBytes (kind cfg)) c ∧ encryptBytes p c = Ok row).
Proof.
  intros Hp Hm Hrow. pose proof (make_laws _ _ _ _ _ _ _ _ Hp Hm) as Hl. split.
  - destruct (enc_buf row Hrow) as (c & Hc & Hb). exists c. split; [done|]. split; [done|]. by apply (dec_enc row).
  - destruct (dec_buf row Hrow) as (c & Hc & Hb). exists c. split; [done|]. split; [done|]. by apply (enc_dec row).
Qed.

(** [make] fails only on the configurations it documents: zero Feistel rounds, or a security level
    without a Construction-Pi step. Every kind at its default level is accepted. *)
Theorem make_accepts keccak keccak_inv shake aes_enc aes_dec cfg party :
  let mk := make keccak keccak_inv shake aes_enc aes_dec cfg party in
  match kind cfg with
  | ConsPi => lambda cfg = 128 → ∃ p, mk = Ok p ∧ perm_name p = "conspi" ∧ perm_detail p = Pi.name (small cfg)
  | Hctr => ∃ p, mk = Ok p ∧ perm_name p = "hctr"
  | Feistel => if rounds cfg =? 0 then mk = Throw (InvalidArgument "feistel needs at least one round")
               else ∃ p, mk = Ok p ∧ perm_name p = "feistel" ∧ perm_rounds p = rounds cfg
  | Xoodoo => ∃ p, mk = Ok p ∧ perm_name p = "xoodoo"
  end.
Proof.
  intros mk. unfold mk, make. destruct (kind cfg).
  - intros ->. destruct (ConsPi.ConsPi.default_object keccak keccak_inv (small cfg) party)
      as (p & st & -> & Hst & Hk). cbn [mbind Res_bind]. rewrite Hst. eexists. split; [reflexivity|].
    split; [done|]. change (Pi.name (Pi.sp_kind (ConsPi.ConsPi.small_ st)) = Pi.name (small cfg)). by rewrite Hk.
  - by eexists.
  - unfold Feistel.Feistel.construct. destruct (rounds cfg =? 0); [done|]. by eexists.
  - by eexists.
Qed.

Module Examples.
Definition toy_make := make ConsPi.ConsPi.Examples.keccak_id ConsPi.ConsPi.Examples.keccak_id
  Feistel.Feistel.toy_shake Hctr2.Hctr2.toy_enc Hctr2.Hctr2.toy_enc.

Lemma toy_primitives : primitives_ok ConsPi.ConsPi.Examples.keccak_id ConsPi.ConsPi.Examples.keccak_id
  Feistel.Feistel.toy_shake Hctr2.Hctr2.toy_enc Hctr2.Hctr2.toy_enc.
Proof.
  split; [apply ConsPi.ConsPi.Examples.keccak_id_laws|]. split; [apply Feistel.Feistel.toy_shake_ok|].
  split; [intros d m; by eexists|apply Hctr2.Hctr2.toy_inverse].
Qed.

Lemma set_reads_names_witness : set Cfg_default "feistel-12" = Ok (with_rounds 12 (with_kind Feistel Cfg_default)).
Proof. exact (proj1 (proj2 (proj2 (set_reads_names Cfg_default))) 12%N eq_refl). Defined.

Lemma make_bijective_witness : let cfg := with_kind Feistel Cfg_default in
  ∃ p, toy_make cfg 1 = Ok p ∧
  ∃ c, encryptBytes p (replicate 800 3%Z) = Ok c ∧ decryptBytes p c = Ok (replicate 800 3%Z).
Proof.
  intros cfg. exists (Feistel.Feistel.perm Feistel.Feistel.toy_shake (Feistel.Feistel.mkState 8 1)).
  split; [reflexivity|]. edestruct (make_bijective ConsPi.ConsPi.Examples.keccak_id ConsPi.ConsPi.Examples.keccak_id
    Feistel.Feistel.toy_shake Hctr2.Hctr2.toy_enc Hctr2.Hctr2.toy_enc cfg 1
    (Feistel.Feistel.perm Feistel.Feistel.toy_shake (Feistel.Feistel.mkState 8 1)) (replicate 800 3%Z) toy_primitives)
    as [(c & Hc & _ & Hd) _].
  - reflexivity.
  - split; [reflexivity|apply Forall_replicate; unfold in_word; lia].
  - exists c. exact (conj Hc Hd).
Defined.

Lemma make_accepts_witness : ∃ p, toy_make Cfg_default 1 = Ok p ∧ perm_name p = "conspi" ∧
  perm_detail p = "keccak1600".
Proof. exact (make_accepts _ _ _ _ _ Cfg_default 1 eq_refl). Defined.
End Examples.
End PqPerm.
