(* ===== verification/MlKem.v ===== *)
(** The ML-KEM wrapper: frontend/kem/obf-mlkem/backend/MlKem.h and MlKem.cpp.

    The three derandomised entry points of mlkem-native are parameters: [None] is a non-zero return
    code. The byte counts are those of thirdparty/mlkem-native/mlkem/mlkem_native.h. *)
From S2P Require Import Prelude Words PermApi.
Open Scope nat_scope.

Module MlKem.

Inductive Mode : Type := MlKem512 | MlKem768 | MlKem1024.

#[export] Instance Mode_eq_dec : EqDecision Mode.
Proof. solve_decision. Defined.

Definition SharedSecretSize : nat := 32.
Definition EncapSeedSize : nat := 32.
Definition KeyGenSeedSize : nat := 64.

Record Sizes : Type := mkSizes {
  s_publicKeyBytes : nat;
  s_secretKeyBytes : nat;
  s_cipherTextBytes : nat;
}.

Definition getSizes (mode : Mode) : Sizes :=
  match mode with
  | MlKem512 => mkSizes 800 1632 768
  | MlKem768 => mkSizes 1184 2400 1088
  | MlKem1024 => mkSizes 1568 3168 1568
  end.

(** The object: [MlKem kem(mode)], and [setMode]. *)
Record MlKem : Type := mkMlKem { mMode : Mode; mSizes : Sizes }.
Definition construct (mode : Mode) : MlKem := mkMlKem mode (getSizes mode).
Definition setMode (kem : MlKem) (mode : Mode) : MlKem := mkMlKem mode (getSizes mode).
Definition mode (kem : MlKem) : Mode := mMode kem.
Definition sizes (kem : MlKem) : Sizes := mSizes kem.
Definition publicKeyBytes (kem : MlKem) : nat := s_publicKeyBytes (mSizes kem).
Definition secretKeyBytes (kem : MlKem) : nat := s_secretKeyBytes (mSizes kem).
Definition cipherTextBytes (kem : MlKem) : nat := s_cipherTextBytes (mSizes kem).

Definition requireSize (input : list Z) (expectedSize : nat) (label : string) : Res unit :=
  throw_if (negb (length input =? expectedSize))
    (InvalidArgument (String.append label " has unexpected size")).

(** [requireSuccess(rc, label)] on the outputs of a native call. *)
Definition requireSuccess {A : Type} (rc : option A) (label : string) : Res A :=
  match rc with
  | Some out => mret out
  | None => Throw (RuntimeError (String.append label " failed"))
  end.

Definition checkSeedSize (seed : list Z) (expectedSize : nat) (label : string) : Res unit :=
  requireSize seed expectedSize label.

Section Native.
(** [mlkem*_keypair_derand], [mlkem*_enc_derand] and [mlkem*_dec]. *)
Context (keypair_derand : Mode → list Z → option (list Z * list Z))
  (enc_derand : Mode → list Z → list Z → option (list Z * list Z))
  (dec : Mode → list Z → list Z → option (list Z)).

(** [keyGen(seed, publicKey, secretKey)]; [pkLen] and [skLen] are the sizes of the output spans. *)
Definition keyGenInto (kem : MlKem) (seed : list Z) (pkLen skLen : nat) : Res (list Z * list Z) :=
  checkSeedSize seed KeyGenSeedSize "MlKem::keyGen seed" ;;
  throw_if (negb (pkLen =? publicKeyBytes kem))
    (InvalidArgument "MlKem public key output has unexpected size") ;;
  throw_if (negb (skLen =? secretKeyBytes kem))
    (InvalidArgument "MlKem secret key output has unexpected size") ;;
  match mMode kem with
  | MlKem512 => requireSuccess (keypair_derand MlKem512 seed) "MlKem512 keypair_derand"
  | MlKem768 => requireSuccess (keypair_derand MlKem768 seed) "MlKem768 keypair_derand"
  | MlKem1024 => requireSuccess (keypair_derand MlKem1024 seed) "MlKem1024 keypair_derand"
  end.

(** [keyGen(seed)]. The overload without a seed draws [KeyGenSeedSize] random bytes and calls it. *)
Definition keyGen (kem : MlKem) (seed : list Z) : Res (list Z * list Z) :=
  checkSeedSize seed KeyGenSeedSize "MlKem::keyGen seed" ;;
  keyGenInto kem seed (publicKeyBytes kem) (secretKeyBytes kem).

(** [encaps(publicKey, seed, cipherText, sharedSecret)]. *)
Definition encapsInto (kem : MlKem) (publicKey seed : list Z) (ctLen ssLen : nat) : Res (list Z * list Z) :=
  requireSize publicKey (publicKeyBytes kem) "MlKem public key" ;;
  checkSeedSize seed EncapSeedSize "MlKem::encaps seed" ;;
  throw_if (negb (ctLen =? cipherTextBytes kem))
    (InvalidArgument "MlKem ciphertext output has unexpected size") ;;
  throw_if (negb (ssLen =? SharedSecretSize))
    (InvalidArgument "MlKem shared secret output has unexpected size") ;;
  match mMode kem with
  | MlKem512 => requireSuccess (enc_derand MlKem512 publicKey seed) "MlKem512 enc_derand"
  | MlKem768 => requireSuccess (enc_derand MlKem768 publicKey seed) "MlKem768 enc_derand"
  | MlKem1024 => requireSuccess (enc_derand MlKem1024 publicKey seed) "MlKem1024 enc_derand"
  end.

Definition encaps (kem : MlKem) (publicKey seed : list Z) : Res (list Z * list Z) :=
  encapsInto kem publicKey seed (cipherTextBytes kem) SharedSecretSize.

Definition decaps (kem : MlKem) (cipherText secretKey : list Z) : Res (list Z) :=
  requireSize cipherText (cipherTextBytes kem) "MlKem ciphertext" ;;
  requireSize secretKey (secretKeyBytes kem) "MlKem secret key" ;;
  match mMode kem with
  | MlKem512 => requireSuccess (dec MlKem512 cipherText secretKey) "MlKem512 dec"
  | MlKem768 => requireSuccess (dec MlKem768 cipherText secretKey) "MlKem768 dec"
  | MlKem1024 => requireSuccess (dec MlKem1024 cipherText secretKey) "MlKem1024 dec"
  end.

(** What FIPS 203 and the documentation of mlkem-native promise of these calls: the sizes of the
    outputs. *)
Record native_sizes : Prop := {
  ns_key m seed pk sk : keypair_derand m seed = Some (pk, sk) →
    buf_ok (s_publicKeyBytes (getSizes m)) pk ∧ buf_ok (s_secretKeyBytes (getSizes m)) sk;
  ns_enc m pk seed ct ss : enc_derand m pk seed = Some (ct, ss) →
    buf_ok (s_cipherTextBytes (getSizes m)) ct ∧ buf_ok SharedSecretSize ss;
  ns_dec m ct sk ss : dec m ct sk = Some ss → buf_ok SharedSecretSize ss;
}.

(** An object whose sizes are those of its mode; every object the interface builds is one. *)
Definition kem_ok (kem : MlKem) : Prop := mSizes kem = getSizes (mMode kem).

Lemma kem_ok_construct m : kem_ok (construct m).
Proof. done. Qed.
Lemma kem_ok_setMode kem m : kem_ok (setMode kem m).
Proof. done. Qed.

Lemma requireSize_Ok input n label : requireSize input n label = Ok tt ↔ length input = n.
Proof.
  unfold requireSize. destruct (Nat.eqb_spec (length input) n); cbn [negb throw_if]; split; congruence.
Qed.

Lemma requireSuccess_Ok {A} (rc : option A) label out : requireSuccess rc label = Ok out ↔ rc = Some out.
Proof. destruct rc; cbn; unfold mret, Res_ret; split; congruence. Qed.

(** The outcome of the three operations, on inputs of every size. *)
Lemma keyGenInto_spec kem seed pl sl out :
  keyGenInto kem seed pl sl = Ok out ↔
  length seed = KeyGenSeedSize ∧ pl = publicKeyBytes kem ∧ sl = secretKeyBytes kem ∧
  keypair_derand (mMode kem) seed = Some out.
Proof.
  unfold keyGenInto, checkSeedSize, requireSize.
  destruct (Nat.eqb_spec (length seed) KeyGenSeedSize); [|split; [done|tauto]].
  destruct (Nat.eqb_spec pl (publicKeyBytes kem)); [|split; [done|tauto]].
  destruct (Nat.eqb_spec sl (secretKeyBytes kem)); [|split; [done|tauto]].
  cbn [negb throw_if mbind Res_bind]. destruct (mMode kem); rewrite requireSuccess_Ok; tauto.
Qed.

Lemma encapsInto_spec kem pk seed cl sl out :
  encapsInto kem pk seed cl sl = Ok out ↔
  length pk = publicKeyBytes kem ∧ length seed = EncapSeedSize ∧ cl = cipherTextBytes kem ∧
  sl = SharedSecretSize ∧ enc_derand (mMode kem) pk seed = Some out.
Proof.
  unfold encapsInto, checkSeedSize, requireSize.
  destruct (Nat.eqb_spec (length pk) (publicKeyBytes kem)); [|split; [done|tauto]].
  destruct (Nat.eqb_spec (length seed) EncapSeedSize); [|split; [done|tauto]].
  destruct (Nat.eqb_spec cl (cipherTextBytes kem)); [|split; [done|tauto]].
  destruct (Nat.eqb_spec sl SharedSecretSize); [|split; [done|tauto]].
  cbn [negb throw_if mbind Res_bind]. destruct (mMode kem); rewrite requireSuccess_Ok; tauto.
Qed.

Lemma decaps_spec kem ct sk out :
  decaps kem ct sk = Ok out ↔
  length ct = cipherTextBytes kem ∧ length sk = secretKeyBytes kem ∧ dec (mMode kem) ct sk = Some out.
Proof.
  unfold decaps, requireSize.
  destruct (Nat.eqb_spec (length ct) (cipherTextBytes kem)); [|split; [done|tauto]].
  destruct (Nat.eqb_spec (length sk) (secretKeyBytes kem)); [|split; [done|tauto]].
  cbn [negb throw_if mbind Res_bind]. destruct (mMode kem); rewrite requireSuccess_Ok; tauto.
Qed.
End Native.
End MlKem.
