(* ===== verification/KemBits.v ===== *)
(** The packing and compression helpers of the Kemeleon codec:
    frontend/kem/obf-mlkem/codec/Kemeleon.cpp, from [makePreimageTable] to [decompressValue]. *)
From Stdlib Require Import ZifyNat.
From S2P Require Import Prelude Words PermApi BitBuf.
Open Scope nat_scope.

Module KemBits.

Definition n : nat := 256.
Definition q : Z := 3329.
Definition rhoBytes : nat := 32.

(** * 12-bit coefficients *)

Definition unpackPolyBytes (src : list Z) : Res (list Z) :=
  throw_if (negb (length src mod 3 =? 0)) (InvalidArgument "Kemeleon poly bytes have unexpected size") ;;
  mret (for_ 0 (length src / 3) (fun i (out : list Z) =>
    let b0 := src.[3 * i + 0] in
    let b1 := src.[3 * i + 1] in
    let b2 := src.[3 * i + 2] in
    let out := <[2 * i + 0 := u16 (Z.lor b0 (Z.shiftl (Z.land b1 0x0F) 8))]> out in
    <[2 * i + 1 := u16 (Z.lor (Z.shiftr b1 4) (Z.shiftl b2 4))]> out)
    (replicate (length src / 3 * 2) 0%Z)).

Definition packPolyBytes (src : list Z) : Res (list Z) :=
  throw_if (negb (length src mod 2 =? 0)) (InvalidArgument "Kemeleon coeff count has unexpected size") ;;
  mret (for_ 0 (length src / 2) (fun i (out : list Z) =>
    let a0 := src.[2 * i + 0] in
    let a1 := src.[2 * i + 1] in
    let out := <[3 * i + 0 := u8 (Z.land a0 0xFF)]> out in
    let out := <[3 * i + 1 := u8 (Z.lor (Z.shiftr a0 8) (Z.shiftl (Z.land a1 0x0F) 4))]> out in
    <[3 * i + 2 := u8 (Z.shiftr a1 4)]> out)
    (replicate (length src / 2 * 3) 0%Z)).

(** * [d]-bit values *)

(** [(src[pos / 8] >> (pos % 8)) & 1] *)
Definition srcBit (src : list Z) (pos : nat) : Z :=
  Z.land (Z.shiftr src.[pos / 8] (Z.of_nat (pos mod 8))) 1.

(** The loop on [j] that reads one value. *)
Definition readValue (src : list Z) (bitsPerValue bitPos : nat) : Z :=
  for_ 0 bitsPerValue (fun j x =>
    u16 (Z.lor x (Z.shiftl (srcBit src (bitPos + j)) (Z.of_nat j)))) 0%Z.

Definition unpackBits (src : list Z) (bitsPerValue count : nat) : list Z :=
  (for_ 0 count (fun i '(out, bitPos) =>
    let x := readValue src bitsPerValue bitPos in
    (<[i := x]> out, bitPos + bitsPerValue)) (replicate count 0%Z, 0)).1.

(** The loop on [j] that writes one value. *)
Definition writeValue (x : Z) (bitsPerValue bitPos : nat) (out : list Z) : list Z :=
  for_ 0 bitsPerValue (fun j (out : list Z) =>
    if negb (Z.land (Z.shiftr x (Z.of_nat j)) 1 =? 0)%Z then
      let pos := bitPos + j in
      <[pos / 8 := Z.lor out.[pos / 8] (u8 (Z.shiftl 1 (Z.of_nat (pos mod 8))))]> out
    else out) out.

Definition packBits (src : list Z) (bitsPerValue : nat) : list Z :=
  let totalBits := length src * bitsPerValue in
  (for_ 0 (length src) (fun i '(out, bitPos) =>
    (writeValue src.[i] bitsPerValue bitPos out, bitPos + bitsPerValue))
    (replicate ((totalBits + 7) / 8) 0%Z, 0)).1.

(** * Compression *)

Definition compressValue (x : Z) (bitsPerValue : nat) : Z :=
  let scale := u32 (Z.shiftl 1 (Z.of_nat bitsPerValue)) in
  (u16 ((u32 (x * scale) + q / 2) / q) mod scale)%Z.

Definition decompressValue (x : Z) (bitsPerValue : nat) : Z :=
  let half := u32 (Z.shiftl 1 (Z.of_nat bitsPerValue - 1)) in
  u16 (Z.shiftr (x * q + half) (Z.of_nat bitsPerValue)).

(** The preimages of each compressed value, grouped. *)
Record PreimageTable : Type := mkPreimageTable {
  vals : list Z;
  offsets : list Z;
  counts : list Z;
}.

(** [++counts[compressValue(x, bitsPerValue)]] for every [x]. *)
Definition countPreimages (bitsPerValue scale : nat) : list Z :=
  for_ 0 (Z.to_nat q) (fun x (counts : list Z) =>
    let c := Z.to_nat (compressValue (Z.of_nat x) bitsPerValue) in
    <[c := u16 (counts.[c] + 1)]> counts) (replicate scale 0%Z).

(** The layout loop: the offsets, the counts and the running offset. *)
Definition layout (counts : list Z) (scale : nat) : list Z * list Z * Z :=
  for_ 0 scale (fun i '(offs, cnts, offset) =>
    (<[i := offset]> offs, <[i := counts.[i]]> cnts, u16 (offset + counts.[i])))
    (replicate scale 0%Z, replicate scale 0%Z, 0%Z).

Definition placeValues (bitsPerValue scale : nat) (offs : list Z) (total : Z) : list Z :=
  (for_ 0 (Z.to_nat q) (fun x '(vals, used) =>
    let idx := Z.to_nat (compressValue (Z.of_nat x) bitsPerValue) in
    let pos := u16 (offs.[idx] + nth idx used 0%Z) in
    let vals := <[Z.to_nat pos := Z.of_nat x]> vals in
    (vals, <[idx := u16 (nth idx used 0%Z + 1)]> used))
    (replicate (Z.to_nat total) 0%Z, replicate scale 0%Z)).1.

Definition makePreimageTable (bitsPerValue : nat) : PreimageTable :=
  let scale := Nat.shiftl 1 bitsPerValue in
  let counts := countPreimages bitsPerValue scale in
  let '(offs, cnts, offset) := layout counts scale in
  mkPreimageTable (placeValues bitsPerValue scale offs offset) offs cnts.

(** * Round trip of the 12-bit packing *)

Definition coeffs_ok (v : list Z) : Prop := Forall (in_word 12) v.

Lemma three_two (b0 b1 b2 : Z) : in_word 8 b0 → in_word 8 b1 → in_word 8 b2 →
  let a0 := u16 (Z.lor b0 (Z.shiftl (Z.land b1 0x0F) 8)) in
  let a1 := u16 (Z.lor (Z.shiftr b1 4) (Z.shiftl b2 4)) in
  in_word 12 a0 ∧ in_word 12 a1 ∧
  u8 (Z.land a0 0xFF) = b0 ∧ u8 (Z.lor (Z.shiftr a0 8) (Z.shiftl (Z.land a1 0x0F) 4)) = b1 ∧
  u8 (Z.shiftr a1 4) = b2.
Proof.
  intros H0 H1 H2 a0 a1.
  assert (E0 : a0 = (b0 + b1 mod 16 * 256)%Z).
  { unfold a0. change 0x0F%Z with (Z.ones 4). rewrite Z.land_ones, lor_disjoint_add by (done || lia).
    apply wrap_small. unfold in_word in *. change (2 ^ 4)%Z with 16%Z. change (2 ^ 8)%Z with 256%Z in *. lia. }
  assert (E1 : a1 = (b1 / 16 + b2 * 16)%Z).
  { unfold a1. rewrite lor_disjoint_add by first [lia|rewrite Z.shiftr_div_pow2 by lia; unfold in_word in *; change (2 ^ 8)%Z with 256%Z in *;
      change (2 ^ 4)%Z with 16%Z; lia].
    rewrite Z.shiftr_div_pow2 by lia. change (2 ^ 4)%Z with 16%Z.
    apply wrap_small. unfold in_word in *. change (2 ^ 8)%Z with 256%Z in *. lia. }
  clearbody a0 a1. subst a0 a1. change 0xFF%Z with (Z.ones 8). change 0x0F%Z with (Z.ones 4).
  rewrite !Z.land_ones by lia. unfold in_word in *.
  change (2 ^ 8)%Z with 256%Z in *. change (2 ^ 4)%Z with 16%Z. change (2 ^ 12)%Z with 4096%Z.
  split; [lia|]. split; [lia|]. rewrite !Z.shiftr_div_pow2 by lia.
  change (2 ^ 8)%Z with 256%Z. change (2 ^ 4)%Z with 16%Z.
  split; [|split].
  - rewrite Z.mod_add, Z.mod_small by lia. by apply wrap_small.
  - rewrite Z.div_add, Z.div_small, Z.mod_add, Z.add_0_l by lia.
    rewrite (Z.mod_small (b1 / 16)) by lia. rewrite lor_disjoint_add by (unfold in_word; lia).
    change (2 ^ 4)%Z with 16%Z. replace (b1 mod 16 + b1 / 16 * 16)%Z with b1 by lia.
    by apply wrap_small.
  - rewrite Z.div_add, Z.div_div, Z.div_small, Z.add_0_l by lia. by apply wrap_small.
Qed.

Lemma two_three (a0 a1 : Z) : in_word 12 a0 → in_word 12 a1 →
  let b0 := u8 (Z.land a0 0xFF) in
  let b1 := u8 (Z.lor (Z.shiftr a0 8) (Z.shiftl (Z.land a1 0x0F) 4)) in
  let b2 := u8 (Z.shiftr a1 4) in
  u16 (Z.lor b0 (Z.shiftl (Z.land b1 0x0F) 8)) = a0 ∧ u16 (Z.lor (Z.shiftr b1 4) (Z.shiftl b2 4)) = a1.
Proof.
  intros H0 H1 b0 b1 b2. unfold in_word in *. change (2 ^ 12)%Z with 4096%Z in *.
  assert (E0 : b0 = (a0 mod 256)%Z).
  { unfold b0. change 0xFF%Z with (Z.ones 8). rewrite Z.land_ones by lia. apply wrap_small.
    apply Z.mod_pos_bound. lia. }
  assert (E1 : b1 = (a0 / 256 + a1 mod 16 * 16)%Z).
  { unfold b1. change 0x0F%Z with (Z.ones 4). rewrite Z.land_ones, Z.shiftr_div_pow2 by lia.
    change (2 ^ 8)%Z with 256%Z. change (2 ^ 4)%Z with 16%Z.
    rewrite lor_disjoint_add by first [lia|unfold in_word; lia]. apply wrap_small. unfold in_word. lia. }
  assert (E2 : b2 = (a1 / 16)%Z).
  { unfold b2. rewrite Z.shiftr_div_pow2 by lia. apply wrap_small. unfold in_word. lia. }
  clearbody b0 b1 b2. subst. change 0x0F%Z with (Z.ones 4). rewrite Z.land_ones, Z.shiftr_div_pow2 by lia.
  change (2 ^ 4)%Z with 16%Z. rewrite !lor_disjoint_add by first [lia|unfold in_word; lia].
  change (2 ^ 8)%Z with 256%Z. split.
  - replace (a0 mod 256 + (a0 / 256 + a1 mod 16 * 16) mod 16 * 256)%Z with a0 by lia.
    apply wrap_small. unfold in_word. lia.
  - replace ((a0 / 256 + a1 mod 16 * 16) / 16 + a1 / 16 * 2 ^ 4)%Z with a1 by lia.
    apply wrap_small. unfold in_word. lia.
Qed.

Lemma unpackPoly_spec k src : length src = 3 * k →
  ∃ out, unpackPolyBytes src = Ok out ∧ length out = 2 * k ∧ ∀ i, i < k →
    out.[2 * i] = u16 (Z.lor src.[3 * i] (Z.shiftl (Z.land src.[3 * i + 1] 0x0F) 8)) ∧
    out.[2 * i + 1] = u16 (Z.lor (Z.shiftr src.[3 * i + 1] 4) (Z.shiftl src.[3 * i + 2] 4)).
Proof.
  intros Hl. unfold unpackPolyBytes. rewrite Hl. replace (3 * k mod 3) with 0 by divlia.
  replace (3 * k / 3) with k by divlia. cbn [Nat.eqb negb throw_if mbind Res_bind].
  eexists. split; [reflexivity|].
  loop_inv (fun i (out : list Z) => length out = 2 * k ∧ ∀ j, j < i →
    out.[2 * j] = u16 (Z.lor src.[3 * j] (Z.shiftl (Z.land src.[3 * j + 1] 0x0F) 8)) ∧
    out.[2 * j + 1] = u16 (Z.lor (Z.shiftr src.[3 * j + 1] 4) (Z.shiftl src.[3 * j + 2] 4))) as H.
  - lia.
  - split; [rewrite length_replicate; lia|lia].
  - intros i out Hi [Hlo IH]. split; [by rewrite !length_insert|]. intros j Hj.
    rewrite !Nat.add_0_r, !nth_insert, !length_insert.
    destruct (decide (j = i)) as [->|Hne].
    + repeat first [rewrite decide_True by lia|rewrite decide_False by lia]. done.
    + rewrite !decide_False by lia. apply IH. lia.
  - exact H.
Qed.

Lemma packPoly_spec k src : length src = 2 * k →
  ∃ out, packPolyBytes src = Ok out ∧ length out = 3 * k ∧ ∀ i, i < k →
    out.[3 * i] = u8 (Z.land src.[2 * i] 0xFF) ∧
    out.[3 * i + 1] = u8 (Z.lor (Z.shiftr src.[2 * i] 8) (Z.shiftl (Z.land src.[2 * i + 1] 0x0F) 4)) ∧
    out.[3 * i + 2] = u8 (Z.shiftr src.[2 * i + 1] 4).
Proof.
  intros Hl. unfold packPolyBytes. rewrite Hl. replace (2 * k mod 2) with 0 by divlia.
  replace (2 * k / 2) with k by divlia. cbn [Nat.eqb negb throw_if mbind Res_bind].
  eexists. split; [reflexivity|].
  loop_inv (fun i (out : list Z) => length out = 3 * k ∧ ∀ j, j < i →
    out.[3 * j] = u8 (Z.land src.[2 * j] 0xFF) ∧
    out.[3 * j + 1] = u8 (Z.lor (Z.shiftr src.[2 * j] 8) (Z.shiftl (Z.land src.[2 * j + 1] 0x0F) 4)) ∧
    out.[3 * j + 2] = u8 (Z.shiftr src.[2 * j + 1] 4)) as H.
  - lia.
  - split; [rewrite length_replicate; lia|lia].
  - intros i out Hi [Hlo IH]. split; [by rewrite !length_insert|]. intros j Hj.
    rewrite !Nat.add_0_r, !nth_insert, !length_insert.
    destruct (decide (j = i)) as [->|Hne].
    + repeat first [rewrite decide_True by lia|rewrite decide_False by lia]. done.
    + rewrite !decide_False by lia. apply IH. lia.
  - exact H.
Qed.

Lemma unpackPoly_coeffs k src : length src = 3 * k → bytes_ok src →
  ∃ out, unpackPolyBytes src = Ok out ∧ length out = 2 * k ∧ coeffs_ok out.
Proof.
  intros Hl Hb. destruct (unpackPoly_spec k src Hl) as (out & Ho & Hlo & Hs). exists out.
  split; [done|]. split; [done|]. apply Forall_of_nth. intros i Hi.
  assert (Hw : ∀ j, in_word 8 src.[j]) by (intros; by apply Forall_nth_Z; [|apply in_word_0]).
  destruct (Hs (i / 2) ltac:(divlia)) as [H0 H1].
  destruct (three_two _ _ _ (Hw (3 * (i / 2))) (Hw (3 * (i / 2) + 1)) (Hw (3 * (i / 2) + 2))) as (W0 & W1 & _).
  destruct (decide (i mod 2 = 0)).
  - replace i with (2 * (i / 2)) by divlia. rewrite H0. exact W0.
  - replace i with (2 * (i / 2) + 1) by divlia. rewrite H1. exact W1.
Qed.

Lemma third j k : j < 3 * k → ∃ i, i < k ∧ (j = 3 * i ∨ j = 3 * i + 1 ∨ j = 3 * i + 2).
Proof. intros Hj. exists (j / 3). divlia. Qed.

(** Packing undoes unpacking. *)
Lemma pack_unpackPoly k src : length src = 3 * k → bytes_ok src →
  ∃ out, unpackPolyBytes src = Ok out ∧ length out = 2 * k ∧ packPolyBytes out = Ok src.
Proof.
  intros Hl Hb. destruct (unpackPoly_spec k src Hl) as (out & Ho & Hlo & Hs).
  destruct (packPoly_spec k out Hlo) as (src' & Hp & Hls & Hp'). exists out. split; [done|]. split; [done|].
  rewrite Hp. f_equal. apply list_eq_nth; [congruence|]. intros j Hj. rewrite Hls in Hj.
  assert (Hw : ∀ j, in_word 8 src.[j]) by (intros; by apply Forall_nth_Z; [|apply in_word_0]).
  destruct (third j k Hj) as (i & Hi & Hj3).
  destruct (Hs i Hi) as [S0 S1], (Hp' i Hi) as (P0 & P1 & P2). rewrite S0, S1 in *.
  destruct (three_two _ _ _ (Hw (3 * i)) (Hw (3 * i + 1)) (Hw (3 * i + 2))) as (_ & _ & E0 & E1 & E2).
  destruct Hj3 as [->|[->| ->]]; congruence.
Qed.

(** Unpacking undoes packing of 12-bit coefficients. *)
Lemma unpack_packPoly k v : length v = 2 * k → coeffs_ok v →
  ∃ out, packPolyBytes v = Ok out ∧ length out = 3 * k ∧ bytes_ok out ∧ unpackPolyBytes out = Ok v.
Proof.
  intros Hl Hv. destruct (packPoly_spec k v Hl) as (out & Ho & Hlo & Hp). exists out.
  split; [done|]. split; [done|]. split.
  - apply Forall_of_nth. intros j Hj. rewrite Hlo in Hj. destruct (third j k Hj) as (i & Hi & Hj3). destruct (Hp i Hi) as (P0 & P1 & P2).
    destruct Hj3 as [->|[->| ->]]; rewrite ?P0, ?P1, ?P2; apply in_word_wrap; lia.
  - destruct (unpackPoly_spec k out Hlo) as (v' & Hu & Hlv & Hs). rewrite Hu. f_equal.
    apply list_eq_nth; [congruence|]. intros j Hj. rewrite Hlv in Hj.
    assert (Hw : ∀ j, in_word 12 v.[j]) by (intros; by apply Forall_nth_Z; [|apply in_word_0]).
    assert (Hj2 : ∃ i, i < k ∧ (j = 2 * i ∨ j = 2 * i + 1)) by (exists (j / 2); divlia).
    destruct Hj2 as (i & Hi & Hj2).
    destruct (Hs i Hi) as [S0 S1], (Hp i Hi) as (P0 & P1 & P2). rewrite P0, P1, P2 in *.
    destruct (two_three _ _ (Hw (2 * i)) (Hw (2 * i + 1))) as [E0 E1].
    destruct Hj2 as [->| ->]; congruence.
Qed.

(** * Round trip of the bit packing *)

Lemma srcBit_b2z src pos : srcBit src pos = Z.b2z (bitb src pos).
Proof.
  unfold srcBit, bitb. rewrite Z.testbit_spec', Z.shiftr_div_pow2 by lia.
  exact (Z.land_ones _ 1 ltac:(lia)).
Qed.

Lemma readValue_spec src d pos : d ≤ 16 →
  in_word (Z.of_nat d) (readValue src d pos) ∧
  ∀ j, j < d → Z.testbit (readValue src d pos) (Z.of_nat j) = bitb src (pos + j).
Proof.
  intros Hd. unfold readValue.
  loop_inv (fun i x => in_word (Z.of_nat i) x ∧ ∀ j, j < i →
    Z.testbit x (Z.of_nat j) = bitb src (pos + j)) as H.
  - lia.
  - split; [by apply in_word_0|lia].
  - intros i x Hi [Hx IH]. rewrite srcBit_b2z.
    assert (Hw : in_word (Z.of_nat (S i)) (Z.lor x (Z.shiftl (Z.b2z (bitb src (pos + i))) (Z.of_nat i)))).
    { apply in_word_lor; [lia|apply (in_word_weaken (Z.of_nat i)); [lia|done]|].
      destruct (bitb src (pos + i)); cbn [Z.b2z]; [|rewrite Z.shiftl_0_l; apply in_word_0; lia].
      rewrite Z.shiftl_1_l. apply in_word_pow2. lia. }
    rewrite wrap_small by (apply (in_word_weaken (Z.of_nat (S i))); [lia|done]). split; [done|].
    intros j Hj. rewrite Z.lor_spec. destruct (decide (j = i)) as [->|].
    + rewrite (testbit_high (Z.of_nat i) x) by (done || lia). rewrite Z.shiftl_spec, Z.sub_diag by lia.
      by destruct (bitb src (pos + i)).
    + rewrite IH, Z.shiftl_spec, Z.testbit_neg_r, orb_false_r by lia. done.
  - exact H.
Qed.

Lemma unpackBits_spec src d count : d ≤ 16 →
  length (unpackBits src d count) = count ∧
  ∀ i, i < count → in_word (Z.of_nat d) (unpackBits src d count).[i] ∧
    ∀ j, j < d → Z.testbit (unpackBits src d count).[i] (Z.of_nat j) = bitb src (i * d + j).
Proof.
  intros Hd. unfold unpackBits.
  loop_inv (fun i (st : list Z * nat) => st.2 = i * d ∧ length st.1 = count ∧ ∀ k, k < i →
    in_word (Z.of_nat d) st.1.[k] ∧ ∀ j, j < d → Z.testbit st.1.[k] (Z.of_nat j) = bitb src (k * d + j)) as H.
  - lia.
  - split; [done|]. split; [apply length_replicate|lia].
  - intros i [out pos] Hi (Hp & Hl & IH). cbn [fst snd] in *. subst pos. split; [lia|].
    split; [by rewrite length_insert|]. intros k Hk. rewrite nth_insert. destruct (decide (k = i)) as [->|].
    + rewrite decide_True by lia. by apply readValue_spec.
    + rewrite decide_False by lia. apply IH. lia.
  - destruct H as (_ & Hl & H). done.
Qed.

Lemma writeValue_spec b x d pos out : buf_ok b out → pos + d ≤ 8 * b →
  buf_ok b (writeValue x d pos out) ∧
  ∀ k, bitb (writeValue x d pos out) k =
    bitb out k || ((pos <=? k) && (k <? pos + d) && Z.testbit x (Z.of_nat (k - pos))).
Proof.
  intros Hb Hd. unfold writeValue.
  loop_inv (fun i o => buf_ok b o ∧ ∀ k, bitb o k =
    bitb out k || ((pos <=? k) && (k <? pos + i) && Z.testbit x (Z.of_nat (k - pos)))) as H.
  - lia.
  - split; [done|]. intros k. rewrite Nat.add_0_r.
    destruct (Nat.leb_spec pos k), (Nat.ltb_spec k pos); try lia; cbn [andb]; by rewrite orb_false_r.
  - intros i o Hi [Ho IH]. rewrite low_bit_odd, <- Z.bit0_odd, Z.shiftr_spec, Z.add_0_l by lia.
    assert (Hk : ∀ k, (pos <=? k) && (k <? pos + S i) && Z.testbit x (Z.of_nat (k - pos)) =
      ((pos <=? k) && (k <? pos + i) && Z.testbit x (Z.of_nat (k - pos))) ||
        ((k =? pos + i) && Z.testbit x (Z.of_nat i))).
    { intros k. destruct (Nat.eqb_spec k (pos + i)) as [->|].
      - replace (pos + i - pos) with i by lia. nat_cmp. by destruct (Z.testbit x _).
      - rewrite andb_false_l, orb_false_r. do 2 f_equal.
        destruct (Nat.ltb_spec k (pos + S i)), (Nat.ltb_spec k (pos + i)); try lia; done. }
    destruct (Z.testbit x (Z.of_nat i)) eqn:E.
    + destruct (orBit_spec b o (pos + i) Ho ltac:(lia)) as [Ho' Hs]. split; [exact Ho'|]. intros k.
      change (bitb (orBit o (pos + i)) k = bitb out k || ((pos <=? k) && (k <? pos + S i) && Z.testbit x (Z.of_nat (k - pos)))).
      rewrite Hs, IH, Hk, andb_true_r. by rewrite orb_assoc.
    + split; [done|]. intros k. by rewrite IH, Hk, andb_false_r, orb_false_r.
  - exact H.
Qed.

Lemma packBits_spec src d b : length src * d = 8 * b → 0 < d →
  buf_ok b (packBits src d) ∧
  ∀ i j, i < length src → j < d → bitb (packBits src d) (i * d + j) = Z.testbit src.[i] (Z.of_nat j).
Proof.
  intros Hl Hd. unfold packBits. rewrite Hl. replace ((8 * b + 7) / 8) with b by divlia.
  loop_inv (fun i (st : list Z * nat) => st.2 = i * d ∧ buf_ok b st.1 ∧
    (∀ k, i * d ≤ k → bitb st.1 k = false) ∧
    ∀ l j, l < i → j < d → bitb st.1 (l * d + j) = Z.testbit src.[l] (Z.of_nat j)) as H.
  - lia.
  - split; [done|]. split; [apply zeros_buf|]. split; [intros; apply zeros_bitb|lia].
  - intros i [out pos] Hi (Hp & Ho & Hz & IH). cbn [fst snd] in *. subst pos.
    destruct (writeValue_spec b src.[i] d (i * d) out Ho ltac:(nia)) as [Ho' Hs].
    split; [lia|]. split; [done|]. split.
    + intros k Hk. rewrite Hs, Hz by lia. nat_cmp. done.
    + intros l j Hlt Hj. rewrite Hs. destruct (decide (l = i)) as [->|].
      * rewrite Hz by lia. replace (i * d + j - i * d) with j by lia. nat_cmp. done.
      * rewrite IH by lia. assert (l * d + j < i * d) by nia. nat_cmp. by rewrite orb_false_r.
  - destruct H as (_ & Ho & _ & H). done.
Qed.

(** Writing back what was read. *)
Lemma pack_unpackBits src d count b : d ≤ 16 → 0 < d → buf_ok b src → count * d = 8 * b →
  packBits (unpackBits src d count) d = src.
Proof.
  intros Hd Hd0 Hsrc Hc. destruct (unpackBits_spec src d count Hd) as [Hl Hu].
  destruct (packBits_spec (unpackBits src d count) d b) as [Hb Hp]; [by rewrite Hl|done|].
  apply (buf_ext b); [done|done|]. intros k Hk. rewrite Hl in Hp.
  assert (E : k = k / d * d + k mod d) by (pose proof (Nat.div_mod_eq k d); nia).
  assert (k mod d < d) by (apply Nat.mod_upper_bound; lia). assert (k / d < count) by nia.
  rewrite E, Hp by done. by apply Hu.
Qed.

(** Reading back what was written. *)
Lemma unpack_packBits v d b : d ≤ 16 → 0 < d → Forall (in_word (Z.of_nat d)) v → length v * d = 8 * b →
  unpackBits (packBits v d) d (length v) = v.
Proof.
  intros Hd Hd0 Hv Hl. destruct (packBits_spec v d b Hl Hd0) as [_ Hp].
  destruct (unpackBits_spec (packBits v d) d (length v) Hd) as [Hlu Hu].
  apply list_eq_nth; [done|]. intros i Hi. rewrite Hlu in Hi. destruct (Hu i Hi) as [Hw Hb].
  apply (word_ext (Z.of_nat d)); [lia|done|by apply Forall_nth_Z; [|apply in_word_0; lia]|].
  intros j Hj. rewrite <- (Z2Nat.id j) by lia. rewrite Hb by lia. apply Hp; lia.
Qed.

(** ** Compression at the widths of the vectors *)

(** The number [2^d] of compressed values. *)
Definition scaleOf (d : nat) : Z := 2 ^ Z.of_nat d.

Lemma compress_value x d : d ≤ 11 → (0 ≤ x < q)%Z →
  compressValue x d = (((x * scaleOf d + 1664) / 3329) mod scaleOf d)%Z.
Proof.
  intros Hd Hx. unfold compressValue, scaleOf, q in *. rewrite Z.shiftl_1_l.
  assert (Hp : (1 ≤ 2 ^ Z.of_nat d ≤ 2048)%Z).
  { split; [apply (Z.pow_le_mono_r 2 0); lia|]. change 2048%Z with (2 ^ 11)%Z. apply Z.pow_le_mono_r; lia. }
  change (3329 / 2)%Z with 1664%Z.
  rewrite (wrap_small 32 (2 ^ Z.of_nat d)) by (unfold in_word; change (2 ^ 32)%Z with 4294967296%Z; lia).
  rewrite (wrap_small 32) by (unfold in_word; change (2 ^ 32)%Z with 4294967296%Z; nia).
  rewrite (wrap_small 16); [done|]. unfold in_word. change (2 ^ 16)%Z with 65536%Z.
  split; [apply Z.div_pos; nia|]. apply Z.div_lt_upper_bound; nia.
Qed.

Lemma compress_range x d : d ≤ 11 → (0 ≤ x < q)%Z → in_word (Z.of_nat d) (compressValue x d).
Proof. intros Hd Hx. rewrite compress_value by done. apply Z.mod_pos_bound, Z.pow_pos_nonneg; lia. Qed.

Lemma decompress_value y d : 0 < d ≤ 11 → in_word (Z.of_nat d) y →
  decompressValue y d = ((y * 3329 + scaleOf d / 2) / scaleOf d)%Z ∧ (0 ≤ decompressValue y d < q)%Z.
Proof.
  intros Hd [Hy0 Hy]. unfold decompressValue, scaleOf, q in *. rewrite Z.shiftl_1_l, Z.shiftr_div_pow2 by lia.
  assert (Hp : (2 ^ Z.of_nat d = 2 * 2 ^ (Z.of_nat d - 1))%Z) by (rewrite <- Z.pow_succ_r by lia; f_equal; lia).
  set (h := (2 ^ (Z.of_nat d - 1))%Z) in *.
  assert (Hh : (1 ≤ h ≤ 1024)%Z).
  { unfold h. split; [apply (Z.pow_le_mono_r 2 0); lia|]. change 1024%Z with (2 ^ 10)%Z. apply Z.pow_le_mono_r; lia. }
  clearbody h. rewrite Hp in *.
  rewrite (wrap_small 32 h) by (unfold in_word; change (2 ^ 32)%Z with 4294967296%Z; lia).
  replace (2 * h / 2)%Z with h by (symmetry; rewrite Z.mul_comm; by apply Z.div_mul).
  assert (Hr : (0 ≤ (y * 3329 + h) / (2 * h) < 3329)%Z).
  { split; [apply Z.div_pos; lia|]. apply Z.div_lt_upper_bound; nia. }
  rewrite (wrap_small 16) by (unfold in_word; change (2 ^ 16)%Z with 65536%Z; lia). done.
Qed.

(** Decompression is a right inverse of compression at the widths in use. *)
Lemma compress_decompress d y : 0 < d ≤ 11 → in_word (Z.of_nat d) y →
  compressValue (decompressValue y d) d = y.
Proof.
  intros Hd Hy. destruct (decompress_value y d Hd Hy) as [E Hr]. rewrite compress_value, E by (done || lia). clear E Hr.
  destruct Hy as [Hy0 Hy]. unfold scaleOf. assert (Hp : (2 ^ Z.of_nat d = 2 * 2 ^ (Z.of_nat d - 1))%Z)
    by (rewrite <- Z.pow_succ_r by lia; f_equal; lia).
  set (h := (2 ^ (Z.of_nat d - 1))%Z) in *. assert (Hh : (1 ≤ h ≤ 1024)%Z).
  { unfold h. split; [apply (Z.pow_le_mono_r 2 0); lia|]. change 1024%Z with (2 ^ 10)%Z. apply Z.pow_le_mono_r; lia. }
  clearbody h. rewrite Hp in *. replace (2 * h / 2)%Z with h by (symmetry; rewrite Z.mul_comm; by apply Z.div_mul).
  pose proof (Z.div_mod (y * 3329 + h) (2 * h) ltac:(lia)) as Hdm. pose proof (Z.mod_pos_bound (y * 3329 + h) (2 * h) ltac:(lia)) as Hm.
  set (a := ((y * 3329 + h) / (2 * h))%Z) in *. set (r := ((y * 3329 + h) mod (2 * h))%Z) in *. clearbody a r.
  assert (Eq : ((a * (2 * h) + 1664) / 3329 = y)%Z) by (symmetry; apply (Z.div_unique _ _ _ (1664 + h - r)); lia).
  rewrite Eq. apply Z.mod_small. lia.
Qed.

(** * The preimage table *)

(** [P] counted below [n]. *)
Definition occ (P : nat → bool) (n : nat) : nat := length (List.filter P (seq 0 n)).

Lemma occ_S P n : occ P (S n) = occ P n + Nat.b2n (P n).
Proof.
  unfold occ. rewrite seq_S, List.filter_app, length_app. cbn [List.filter Nat.add]. by destruct (P n).
Qed.

Lemma occ_le P n : occ P n ≤ n.
Proof. induction n as [|n IH]; [done|]. rewrite occ_S. destruct (P n); cbn [Nat.b2n]; lia. Qed.

Lemma occ_mono P n n' : n ≤ n' → occ P n ≤ occ P n'.
Proof. induction 1 as [|n' _ IH]; [done|]. rewrite occ_S. lia. Qed.

Lemma occ_lt P x n : x < n → P x = true → occ P x < occ P n.
Proof.
  intros Hx HP. pose proof (occ_mono P (S x) n Hx) as H. rewrite occ_S, HP in H. cbn [Nat.b2n] in H. lia.
Qed.

Lemma occ_find P n k : k < occ P n → ∃ x, x < n ∧ P x = true ∧ occ P x = k.
Proof.
  induction n as [|n IH]; [cbn; lia|]. rewrite occ_S. intros Hk. destruct (Nat.lt_ge_cases k (occ P n)) as [Hlt|Hge].
  - destruct (IH Hlt) as (x & Hx & HP). exists x. split; [lia|done].
  - destruct (P n) eqn:E; cbn [Nat.b2n] in Hk; [|lia]. exists n. split; [lia|]. split; [done|lia].
Qed.

(** The elements counted all belong to a short list. *)
Lemma occ_bound P n l : (∀ x, x < n → P x = true → In x l) → occ P n ≤ length l.
Proof.
  intros H. unfold occ. apply NoDup_incl_length; [apply List.NoDup_filter, seq_NoDup|].
  intros x [Hx HP]%List.filter_In. apply in_seq in Hx. apply H; [lia|done].
Qed.

(** [f 0 + ... + f (w - 1)] *)
Fixpoint psum (f : nat → nat) (w : nat) : nat :=
  match w with
  | O => 0
  | S w' => psum f w' + f w'
  end.

Lemma psum_mono f w w' : w ≤ w' → psum f w ≤ psum f w'.
Proof. induction 1 as [|w' _ IH]; [done|]. cbn [psum]. lia. Qed.

Section Table.
Context (cls : nat → nat) (N : nat).

Definition below (w n : nat) : nat := occ (fun x => cls x =? w) n.

Lemma below_S w n : below w (S n) = below w n + (if cls n =? w then 1 else 0).
Proof. unfold below. rewrite occ_S. by destruct (cls n =? w). Qed.

Lemma psum_below w n : psum (fun w => below w n) w ≤ n.
Proof.
  induction n as [|n IH].
  - induction w as [|w IH]; [done|]. cbn [psum]. change (below w 0) with 0. lia.
  - assert (H : psum (fun w => below w (S n)) w = psum (fun w => below w n) w + (if cls n <? w then 1 else 0)).
    { clear IH. induction w as [|w IH]; [done|]. cbn [psum]. rewrite IH, below_S. cbv beta.
      destruct (Nat.ltb_spec (cls n) w), (Nat.ltb_spec (cls n) (S w)), (Nat.eqb_spec (cls n) w); lia. }
    rewrite H. destruct (cls n <? w); lia.
Qed.

(** Position of the value [x] in the table, and its uniqueness. *)
Definition place (x : nat) : nat := psum (fun w => below w N) (cls x) + below (cls x) x.

Lemma place_end x : x < N → place x < psum (fun w => below w N) (S (cls x)).
Proof.
  intros Hx. unfold place. cbn [psum]. assert (below (cls x) x < below (cls x) N); [|lia].
  unfold below. apply occ_lt; [done|apply Nat.eqb_refl].
Qed.

Lemma place_inj x y : x < N → y < N → place x = place y → x = y.
Proof.
  intros Hx Hy E. pose proof (place_end x Hx) as Ex. pose proof (place_end y Hy) as Ey.
  destruct (Nat.lt_trichotomy (cls x) (cls y)) as [H|[H|H]].
  - pose proof (psum_mono (fun w => below w N) (S (cls x)) (cls y) H). unfold place in *. lia.
  - unfold place in E. rewrite H in E. destruct (Nat.lt_trichotomy x y) as [Hl|[Hl|Hl]]; [|done|].
    + assert (below (cls y) x < below (cls y) y); [|lia]. apply occ_lt; [done|by apply Nat.eqb_eq].
    + assert (below (cls y) y < below (cls y) x); [|lia]. apply occ_lt; [done|by apply Nat.eqb_eq].
  - pose proof (psum_mono (fun w => below w N) (S (cls y)) (cls x) H). unfold place in *. lia.
Qed.
End Table.

Section MakeTable.
Context (d : nat) (Hd : d = 10 ∨ d = 11).

Definition cls (x : nat) : nat := Z.to_nat (compressValue (Z.of_nat x) d).
Abbreviation N := (Z.to_nat q).
Abbreviation scale := (Nat.shiftl 1 d).
Abbreviation cnt v := (below cls v N).
Abbreviation pre v := (psum (fun v' => below cls v' N) v).

Lemma N_value : Z.of_nat N = 3329%Z.
Proof. reflexivity. Qed.

Lemma scale_value : Z.of_nat scale = scaleOf d.
Proof. unfold scaleOf. rewrite Nat.shiftl_1_l, Nat2Z.inj_pow. done. Qed.

Lemma cls_spec x : x < N → cls x < scale ∧ compressValue (Z.of_nat x) d = Z.of_nat (cls x).
Proof.
  intros Hx. pose proof N_value. destruct (compress_range (Z.of_nat x) d) as [H0 H1]; [lia|unfold q in *; lia|].
  unfold cls. rewrite Z2Nat.id by done. split; [|done]. apply Nat2Z.inj_lt. rewrite Z2Nat.id, scale_value by done. exact H1.
Qed.

Lemma cnt_le w : cnt w ≤ N.
Proof. apply occ_le. Qed.
Lemma pre_le w : pre w ≤ N.
Proof. apply psum_below. Qed.

Lemma countPreimages_spec :
  length (countPreimages d scale) = scale ∧ ∀ w, w < scale → (countPreimages d scale).[w] = Z.of_nat (cnt w).
Proof.
  unfold countPreimages.
  loop_inv (fun i (c : list Z) => length c = scale ∧ ∀ w, w < scale → c.[w] = Z.of_nat (below cls w i)) as H.
  - lia.
  - split; [apply length_replicate|]. intros w Hw. rewrite nth_replicate, decide_True by done. done.
  - intros i c Hi [Hl IH]. split; [by rewrite length_insert|]. intros w Hw.
    destruct (cls_spec i ltac:(lia)) as [Hc _]. rewrite nth_insert, below_S. fold (cls i).
    destruct (Nat.eqb_spec (cls i) w) as [<-|Hne].
    + rewrite decide_True, IH by lia. rewrite wrap_small; [lia|].
      pose proof (occ_le (fun x => cls x =? cls i) i). pose proof N_value. unfold below, in_word. change (2 ^ 16)%Z with 65536%Z. lia.
    + rewrite decide_False, IH by lia. lia.
  - exact H.
Qed.

Lemma layout_spec c : length c = scale → (∀ w, w < scale → c.[w] = Z.of_nat (cnt w)) →
  let '(offs, ks, total) := layout c scale in
  length offs = scale ∧ length ks = scale ∧ total = Z.of_nat (pre scale) ∧
  ∀ w, w < scale → offs.[w] = Z.of_nat (pre w) ∧ ks.[w] = Z.of_nat (cnt w).
Proof.
  intros Hl Hc. unfold layout.
  loop_inv (fun i (st : list Z * list Z * Z) => length st.1.1 = scale ∧ length st.1.2 = scale ∧ st.2 = Z.of_nat (pre i) ∧
    ∀ w, w < i → st.1.1.[w] = Z.of_nat (pre w) ∧ st.1.2.[w] = Z.of_nat (cnt w)) as H.
  - lia.
  - cbn [fst snd]. rewrite !length_replicate. split; [done|]. split; [done|]. split; [done|lia].
  - intros i [[offs ks] o] Hi (H1 & H2 & H3 & IH). cbn [fst snd] in *. rewrite !length_insert.
    split; [done|]. split; [done|]. split.
    + rewrite H3, Hc by lia. cbn [psum]. pose proof (pre_le (S i)) as Hp. cbn [psum] in Hp. pose proof N_value.
      rewrite wrap_small; [lia|]. unfold in_word. change (2 ^ 16)%Z with 65536%Z. lia.
    + intros w Hw. rewrite !nth_insert, H1, H2. destruct (decide (i = w)) as [<-|Hne].
      * rewrite !decide_True by lia. rewrite Hc by lia. done.
      * rewrite !decide_False by lia. apply IH. lia.
  - destruct (for_ 0 scale _ _) as [[offs ks] o]. cbn [fst snd] in H. done.
Qed.

Lemma placeValues_spec offs : (∀ w, w < scale → offs.[w] = Z.of_nat (pre w)) →
  ∀ x, x < N → (placeValues d scale offs (Z.of_nat (pre scale))).[place cls N x] = Z.of_nat x.
Proof.
  intros Ho. unfold placeValues. rewrite Nat2Z.id.
  loop_inv (fun i (st : list Z * list Z) => length st.1 = pre scale ∧ length st.2 = scale ∧
    (∀ w, w < scale → st.2.[w] = Z.of_nat (below cls w i)) ∧ ∀ x, x < i → st.1.[place cls N x] = Z.of_nat x) as H.
  - lia.
  - cbn [fst snd]. rewrite !length_replicate. split; [done|]. split; [done|]. split; [|lia].
    intros w Hw. by rewrite nth_replicate, decide_True by done.
  - intros i [vs used] Hi (H1 & H2 & Hu & IH). cbn [fst snd] in *. fold (cls i).
    destruct (cls_spec i ltac:(lia)) as [Hc _].
    change (nth (cls i) used 0%Z) with used.[cls i]. rewrite Ho, Hu by done.
    pose proof (place_end cls N i ltac:(lia)) as Hend. pose proof (psum_mono (fun w => below cls w N) (S (cls i)) scale Hc) as Hm.
    pose proof (pre_le scale) as Hps. pose proof N_value as HN.
    assert (Ep : u16 (Z.of_nat (pre (cls i)) + Z.of_nat (below cls (cls i) i)) = Z.of_nat (place cls N i)).
    { unfold place. rewrite wrap_small; [lia|]. unfold place in Hend. unfold in_word. change (2 ^ 16)%Z with 65536%Z. lia. }
    rewrite Ep, Nat2Z.id, !length_insert. split; [done|]. split; [done|]. split.
    + intros w Hw. rewrite nth_insert, below_S. destruct (Nat.eqb_spec (cls i) w) as [<-|Hne].
      * rewrite decide_True by lia. pose proof (occ_le (fun x => cls x =? cls i) i). rewrite wrap_small; [lia|].
        unfold below, in_word. change (2 ^ 16)%Z with 65536%Z. lia.
      * rewrite decide_False, Hu by lia. lia.
    + intros x Hx. rewrite nth_insert. destruct (decide (x = i)) as [->|Hne].
      * by rewrite decide_True by lia.
      * rewrite decide_False; [apply IH; lia|]. intros [E _]. apply Hne. symmetry. by apply (place_inj cls N); [lia|lia|].
  - exact (proj2 (proj2 (proj2 H))).
Qed.

(** Between one and four values compress to each number. *)
Lemma cnt_bounds w : w < scale → 0 < cnt w ≤ 4.
Proof.
  intros Hw. pose proof N_value as HN. pose proof scale_value as Hs. assert (Hd11 : 0 < d ≤ 11) by lia. split.
  - assert (Hww : in_word (Z.of_nat d) (Z.of_nat w)) by (split; [lia|]; fold (scaleOf d); lia).
    destruct (decompress_value (Z.of_nat w) d Hd11 Hww) as [_ Hr].
    pose proof (compress_decompress d (Z.of_nat w) Hd11 Hww) as Hc.
    assert (Hx : Z.to_nat (decompressValue (Z.of_nat w) d) < N) by (unfold q in *; lia).
    apply (Nat.le_lt_trans _ (below cls w (Z.to_nat (decompressValue (Z.of_nat w) d)))); [lia|].
    apply occ_lt; [done|]. apply Nat.eqb_eq. unfold cls. rewrite Z2Nat.id, Hc by lia. lia.
  - assert (Hcls : ∀ x, x < N → (cls x =? w) = true → Z.of_nat w = (((Z.of_nat x * scaleOf d + 1664) / 3329) mod scaleOf d)%Z).
    { intros x Hx E. apply Nat.eqb_eq in E as <-. rewrite <- compress_value by (unfold q in *; lia). symmetry. by apply cls_spec. }
    assert (Hs2 : scaleOf d = 1024%Z ∨ scaleOf d = 2048%Z) by (destruct Hd as [-> | ->]; auto).
    set (s := scaleOf d) in *. clearbody s. destruct (decide (w = 0)) as [->|Hw0].
    + transitivity (length [0; 1; 3328]); [|cbn [length]; lia]. apply occ_bound. intros x Hx E. apply Hcls in E; [|done].
      assert (x = 0 ∨ x = 1 ∨ Z.of_nat x = 3328%Z) as Hx3.
      { destruct Hs2 as [-> | ->]; clear -E HN Hx; zify; Z.to_euclidean_division_equations; lia. }
      destruct Hx3 as [-> |[-> | Hx3]]; [by left|right; by left|right; right; left]. lia.
    + set (a := Z.to_nat ((3329 * Z.of_nat w - 1664 + s - 1) / s)).
      transitivity (length (seq a 4)); [|by rewrite length_seq]. apply occ_bound. intros x Hx E. apply Hcls in E; [|done]. apply in_seq.
      unfold a. clear a. destruct Hs2 as [-> | ->]; clear -E HN Hx Hw0; zify; Z.to_euclidean_division_equations; lia.
Qed.
End MakeTable.

(** What a table of a compression width promises the encoder: every compressed value has between one
    and four preimages, and the entries of its group are preimages. *)
Record table_ok (d : nat) (t : PreimageTable) : Prop := {
  to_length : length (counts t) = Nat.shiftl 1 d;
  to_pos want : want < Nat.shiftl 1 d → (0 < (counts t).[want] ≤ 4)%Z;
  to_val want k : want < Nat.shiftl 1 d → (0 ≤ k < (counts t).[want])%Z →
    let x := (vals t).[Z.to_nat (offsets t).[want] + Z.to_nat k] in
    (0 ≤ x < q)%Z ∧ compressValue x d = Z.of_nat want;
}.

(** Every field element is listed in the group of its compression. *)
Definition table_full (d : nat) (t : PreimageTable) : Prop :=
  ∀ x, x < Z.to_nat q → ∃ k, (0 ≤ k < (counts t).[Z.to_nat (compressValue (Z.of_nat x) d)])%Z ∧
    (vals t).[Z.to_nat (offsets t).[Z.to_nat (compressValue (Z.of_nat x) d)] + Z.to_nat k] = Z.of_nat x.

Lemma makePreimageTable_parts d : d = 10 ∨ d = 11 → let t := makePreimageTable d in
  length (counts t) = Nat.shiftl 1 d ∧
  (∀ w, w < Nat.shiftl 1 d → (offsets t).[w] = Z.of_nat (psum (fun w => below (cls d) w (Z.to_nat q)) w) ∧
     (counts t).[w] = Z.of_nat (below (cls d) w (Z.to_nat q))) ∧
  ∀ x, x < Z.to_nat q → (vals t).[place (cls d) (Z.to_nat q) x] = Z.of_nat x.
Proof.
  intros Hd t. unfold t, makePreimageTable. destruct (countPreimages_spec d Hd) as [Hl Hc].
  pose proof (layout_spec d Hd _ Hl Hc) as H. destruct (layout _ _) as [[offs ks] total].
  destruct H as (_ & H2 & -> & Hw). cbn [counts offsets vals]. split; [done|]. split; [done|].
  apply placeValues_spec; [done|]. intros w Hlt. by apply Hw.
Qed.

Lemma table_ok_widths d : d = 10 ∨ d = 11 → table_ok d (makePreimageTable d).
Proof.
  intros Hd. destruct (makePreimageTable_parts d Hd) as (Hl & Hw & Hv). pose proof N_value as HN. split.
  - exact Hl.
  - intros want Hwant. rewrite (proj2 (Hw want Hwant)). pose proof (cnt_bounds d Hd want Hwant). lia.
  - intros want k Hwant Hk. destruct (Hw want Hwant) as [Ho Hc]. rewrite Hc in Hk. cbv zeta. rewrite Ho, Nat2Z.id.
    destruct (occ_find (fun x => cls d x =? want) (Z.to_nat q) (Z.to_nat k)) as (x & Hx & E & Hox); [unfold below in Hk; lia|].
    apply Nat.eqb_eq in E. specialize (Hv x Hx). unfold place in Hv. rewrite E in Hv.
    unfold below at 2 in Hv. rewrite Hox in Hv. rewrite Hv. split; [unfold q in *; lia|].
    rewrite (proj2 (cls_spec d Hd x Hx)). by rewrite E.
Qed.

Lemma table_full_widths d : d = 10 ∨ d = 11 → table_full d (makePreimageTable d).
Proof.
  intros Hd x Hx. destruct (makePreimageTable_parts d Hd) as (_ & Hw & Hv). destruct (cls_spec d Hd x Hx) as [Hc _].
  fold (cls d x). destruct (Hw (cls d x) Hc) as [Ho Hn]. rewrite Ho, Hn.
  exists (Z.of_nat (below (cls d) (cls d x) x)). rewrite !Nat2Z.id. split; [|by apply Hv].
  split; [lia|]. apply Nat2Z.inj_lt. unfold below. apply occ_lt; [done|apply Nat.eqb_refl].
Qed.
End KemBits.
