(* ===== verification/Kemeleon.v ===== *)
(** The Kemeleon codec of public keys and ciphertexts:
    frontend/kem/obf-mlkem/codec/Kemeleon.h and Kemeleon.cpp.

    GMP integers are [Z]. Randomness is explicit: [entropy k] is the buffer the [k]-th call of
    [randombytes_buf] fills, [uniform k p] the result of the [k]-th [randombytes_uniform(p)]. *)
From Stdlib Require Import ZifyNat.
From S2P Require Import Prelude Words PermApi BitBuf KemBits MlKem.
Open Scope nat_scope.

Module Kemeleon.
Import KemBits MlKem.

Record Info : Type := mkInfo {
  k : nat;
  du : nat;
  dv : nat;
  polyBytes : nat;
  c1Bytes : nat;
  c2Bytes : nat;
  vecSize : nat;
  vecBits : nat;
  vecBytes : nat;
}.

(** [mpz_sizeinbase(x, 2)], exact for base 2, and the loop that drops leading zeros. *)
Definition sizeinbase2 (x : Z) : nat := Z.to_nat (Z.log2 x + 1).
Fixpoint dropZeros (n : nat) (x : Z) : nat :=
  match n with
  | O => O
  | S n' => if Z.testbit x (Z.of_nat n') then n else dropZeros n' x
  end.
Definition bitLen (x : Z) : nat := if (x =? 0)%Z then 0 else dropZeros (sizeinbase2 x) x.

Definition makeInfo (mode : Mode) : Info :=
  let '(k, du, dv) :=
    match mode with
    | MlKem512 => (2, 10, 4)
    | MlKem768 => (3, 10, 4)
    | MlKem1024 => (4, 11, 5)
    end in
  let vecSize := k * n in
  let top := (q ^ Z.of_nat vecSize + 1)%Z in
  let vecBits := bitLen top - 1 in
  mkInfo k du dv (384 * k) (k * du * n / 8) (dv * n / 8) vecSize vecBits ((vecBits + 7) / 8).

(** * The base-[q] vector codec *)

(** [mpz_export(out, &wrote, -1, 1, 0, 0, x)]: the significant bytes of [x], least first. *)
Definition mpz_export (out : list Z) (x : Z) : list Z :=
  let wrote := (bitLen x + 7) / 8 in
  memcpy out 0 (le_bytes wrote x) 0 wrote.

(** [mpz_import(x, size, -1, 1, 0, 0, data)] *)
Definition mpz_import (data : list Z) : Z := le_val data.

(** [bits % 8 != 0]: the last byte keeps its low bits. *)
Definition maskLast (bits : nat) (out : list Z) : list Z :=
  if negb (bits mod 8 =? 0) then
    let last := length out - 1 in
    <[last := Z.land out.[last] (u8 (Z.shiftl 1 (Z.of_nat (bits mod 8)) - 1))]> out
  else out.

(** The end of both vector encoders: [None] is [out.clear(); return false]. *)
Definition finishVec (x : Z) (bits : nat) : option (list Z) :=
  if bits <? bitLen x then None else
  let out := replicate ((bits + 7) / 8) 0%Z in
  Some (maskLast bits (mpz_export out x)).

Definition encodeVec (inp : list Z) (bits : nat) : option (list Z) :=
  let x := for_down (length inp) (fun i x => (x * q + inp.[i])%Z) 0%Z in
  finishVec x bits.

(** The result and the vector; the vector is meaningful when the result is true. *)
Definition decodeVec (inp : list Z) (bits count : nat) : bool * list Z :=
  if negb (length inp =? (bits + 7) / 8) then (false, []) else
  let mask := wnot 8 (u8 (Z.shiftl 1 (Z.of_nat (bits mod 8)) - 1)) in
  if negb (bits mod 8 =? 0) && negb (Z.land inp.[length inp - 1] mask =? 0)%Z then (false, []) else
  let '(x, out) := for_ 0 count (fun i '(x, out) =>
    ((x / q)%Z, <[i := u16 (x mod q)]> out)) (mpz_import inp, replicate count 0%Z) in
  ((x =? 0)%Z, out).

(** * Sampling *)

(** [WordSampler]: the buffer and the read position, with the number of buffers drawn so far. *)
Record WordSampler : Type := mkWordSampler {
  mBuf : list Z;
  mPos : nat;
  calls : nat;
}.

Definition bufWords : nat := 1024.

Section Random.
Context (entropy : nat → list Z) (uniform : nat → Z → Z).

Definition newSampler (calls : nat) : WordSampler := mkWordSampler (replicate bufWords 0%Z) bufWords calls.

Definition nextWord (s : WordSampler) : Z * WordSampler :=
  let s := if mPos s =? length (mBuf s) then mkWordSampler (entropy (calls s)) 0 (S (calls s)) else s in
  ((mBuf s).[mPos s], mkWordSampler (mBuf s) (S (mPos s)) (calls s)).

(** [for (;;)]: [None] when [fuel] words are all below [lim]. *)
Fixpoint nextLoop (fuel : nat) (lim bound : Z) (s : WordSampler) : option (Z * WordSampler) :=
  match fuel with
  | O => None
  | S fuel' =>
      let '(x, s) := nextWord s in
      if (lim <=? x)%Z then Some ((x mod bound)%Z, s) else nextLoop fuel' lim bound s
  end.

Definition next (fuel : nat) (bound : Z) (s : WordSampler) : Res (option (Z * WordSampler)) :=
  throw_if (bound =? 0)%Z (RuntimeError "Kemeleon sampler got zero bound") ;;
  mret (nextLoop fuel (u32 (- bound) mod bound) bound s).

(** Body of the loop of [encodePickedVec]; [None] carries an exhausted fuel to the end. *)
Definition pickStep (fuel : nat) (t : PreimageTable) (inp : list Z) (i : nat)
    (st : option (Z * WordSampler)) : Res (option (Z * WordSampler)) :=
  match st with
  | None => mret None
  | Some (x, s) =>
      let want := Z.to_nat inp.[i] in
      throw_if (length (counts t) <=? want) (RuntimeError "Kemeleon preimage set is empty") ;;
      let count := (counts t).[want] in
      throw_if (count =? 0)%Z (RuntimeError "Kemeleon preimage set is empty") ;;
      let offset := (offsets t).[want] in
      o ← next fuel count s;
      match o with
      | None => mret None
      | Some (pick, s) =>
          let val := (vals t).[Z.to_nat offset + Z.to_nat pick] in
          mret (Some ((x * q + val)%Z, s))
      end
  end.

(** [encodePickedVec]; the outer option is the fuel, the inner one the returned bool. The second
    component counts the buffers drawn. *)
Definition encodePickedVec (fuel : nat) (t : PreimageTable) (inp : list Z) (bits calls0 : nat)
    : Res (option (option (list Z) * nat)) :=
  o ← for_downR (length inp) (pickStep fuel t inp) (Some (0%Z, newSampler calls0));
  match o with
  | None => mret None
  | Some (x, s) => mret (Some (finishVec x bits, calls s))
  end.

(** [encodePickedVecProfiled]: the same path; the times it adds to the statistics are left out. *)
Definition encodePickedVecProfiled (fuel : nat) (t : PreimageTable) (inp : list Z) (bits calls0 : nat)
    : Res (option (option (list Z) * nat)) :=
  o ← for_downR (length inp) (pickStep fuel t inp) (Some (0%Z, newSampler calls0));
  match o with
  | None => mret None
  | Some (x, s) => mret (Some (finishVec x bits, calls s))
  end.

Definition pickPreimage (t : PreimageTable) (want draw : nat) : Res Z :=
  throw_if (length (counts t) <=? want) (RuntimeError "Kemeleon preimage set is empty") ;;
  let count := (counts t).[want] in
  throw_if (count =? 0)%Z (RuntimeError "Kemeleon preimage set is empty") ;;
  let offset := (offsets t).[want] in
  let pick := uniform draw count in
  mret (vals t).[Z.to_nat offset + Z.to_nat pick].

(** [shouldRejectZero]: the [draw]-th uniform value is 0. *)
Definition shouldRejectZero (bitsPerValue draw : nat) : bool :=
  let scale := u32 (Z.shiftl 1 (Z.of_nat bitsPerValue)) in
  let p := u32 ((q + scale - 1) / scale) in
  (uniform draw p =? 0)%Z.

(** The scan of [rejectZeroEntries] over the [count] values left, at bit [bitPos]; the draw is made
    only for a zero value. The second component counts the draws. *)
Fixpoint rejectLoop (count : nat) (src : list Z) (bitsPerValue bitPos draw : nat) : bool * nat :=
  match count with
  | O => (false, draw)
  | S count' =>
      if (readValue src bitsPerValue bitPos =? 0)%Z then
        if shouldRejectZero bitsPerValue draw then (true, S draw)
        else rejectLoop count' src bitsPerValue (bitPos + bitsPerValue) (S draw)
      else rejectLoop count' src bitsPerValue (bitPos + bitsPerValue) draw
  end.
Definition rejectZeroEntries (src : list Z) (bitsPerValue count draw : nat) : bool * nat :=
  rejectLoop count src bitsPerValue 0 draw.
End Random.

(** * The class *)

Record Kemeleon : Type := mkKemeleon { mKem : MlKem.MlKem; mInfo : Info; mPreimages : PreimageTable }.

Definition construct (mode : Mode) : Kemeleon :=
  mkKemeleon (MlKem.construct mode) (makeInfo mode) (makePreimageTable (du (makeInfo mode))).
Definition setMode (c : Kemeleon) (mode : Mode) : Kemeleon :=
  mkKemeleon (MlKem.setMode (mKem c) mode) (makeInfo mode) (makePreimageTable (du (makeInfo mode))).

Definition mode (c : Kemeleon) : Mode := MlKem.mode (mKem c).
Definition sizes (c : Kemeleon) : Sizes := MlKem.sizes (mKem c).
Definition rawKeyBytes (c : Kemeleon) : nat := publicKeyBytes (mKem c).
Definition rawCipherBytes (c : Kemeleon) : nat := cipherTextBytes (mKem c).
Definition codeKeyBytes (c : Kemeleon) : nat := rhoBytes + vecBytes (mInfo c).
Definition codeCipherBytes (c : Kemeleon) : nat := vecBytes (mInfo c) + c2Bytes (mInfo c).

Definition keyHighMask (c : Kemeleon) : Z :=
  let rem := vecBits (mInfo c) mod 8 in
  if rem =? 0 then 0%Z else u8 (Z.lnot (Z.shiftl 1 (Z.of_nat rem) - 1)).

Section Codec.
(** [crypto_generichash] with a one-byte output. *)
Context (hashByte : list Z → Z).

Definition fillKeyHighBits (c : Kemeleon) (key out : list Z) : list Z :=
  let mask := keyHighMask c in
  if (mask =? 0)%Z then out else
  let at_ := rhoBytes + vecBytes (mInfo c) - 1 in
  <[at_ := Z.lor out.[at_] (Z.land (hashByte key) mask)]> out.

Definition clearKeyHighBits (c : Kemeleon) (inp : list Z) : list Z :=
  let mask := keyHighMask c in
  if (mask =? 0)%Z || (length inp =? 0) then inp else
  let last := length inp - 1 in
  <[last := Z.land inp.[last] (wnot 8 mask)]> inp.

(** [encodeKey]: [None] is [out.clear(); return false]. *)
Definition encodeKey (c : Kemeleon) (key : list Z) : Res (option (list Z)) :=
  throw_if (negb (length key =? rawKeyBytes c)) (InvalidArgument "Kemeleon key has unexpected size") ;;
  t ← unpackPolyBytes (slice key 0 (polyBytes (mInfo c)));
  match encodeVec t (vecBits (mInfo c)) with
  | None => mret None
  | Some r =>
      let out := replicate (codeKeyBytes c) 0%Z in
      let out := memcpy out 0 key (polyBytes (mInfo c)) (length key - polyBytes (mInfo c)) in
      let out := memcpy out rhoBytes r 0 (length r) in
      mret (Some (fillKeyHighBits c key out))
  end.

(** [decodeKey(data, key, work)] with an output span of [keyLen] bytes; [None] is [false]. *)
Definition decodeKeyInto (c : Kemeleon) (data : list Z) (keyLen : nat) : Res (option (list Z)) :=
  if negb (length data =? codeKeyBytes c) || negb (keyLen =? rawKeyBytes c) then mret None else
  let r := slice data rhoBytes (vecBytes (mInfo c)) in
  let r := clearKeyHighBits c r in
  let '(ok, t) := decodeVec r (vecBits (mInfo c)) (vecSize (mInfo c)) in
  if negb ok then mret None else
  packedT ← packPolyBytes t;
  let key := replicate keyLen 0%Z in
  let key := memcpy key 0 packedT 0 (length packedT) in
  mret (Some (memcpy key (polyBytes (mInfo c)) data 0 rhoBytes)).

Definition decodeKey (c : Kemeleon) (data : list Z) : Res (option (list Z)) :=
  decodeKeyInto c data (rawKeyBytes c).
End Codec.

(** The counters of [EncodeCipherStats]; its clock readings are left out. *)
Record EncodeCipherStats : Type := mkStats { tries : Z; overflowFails : Z; zeroFails : Z }.
Definition addTries (s : EncodeCipherStats) := mkStats (u64 (tries s + 1)) (overflowFails s) (zeroFails s).
Definition addOverflow (s : EncodeCipherStats) := mkStats (tries s) (u64 (overflowFails s + 1)) (zeroFails s).
Definition addZero (s : EncodeCipherStats) := mkStats (tries s) (overflowFails s) (u64 (zeroFails s + 1)).

(** Position in the two sources of randomness. *)
Record Rng : Type := mkRng { bufs : nat; draws : nat }.

Section Cipher.
Context (entropy : nat → list Z) (uniform : nat → Z → Z).

(** [encodeCipherImpl]: the encoded text ([None] is [false]), the counters and the randomness used;
    an outer [None] means that [fuel] words were rejected in a row. *)
Definition encodeCipherImpl (fuel : nat) (c : Kemeleon) (cipher : list Z) (stats : option EncodeCipherStats)
    (rng : Rng) : Res (option (option (list Z) * option EncodeCipherStats * Rng)) :=
  throw_if (negb (length cipher =? rawCipherBytes c)) (InvalidArgument "Kemeleon cipher has unexpected size") ;;
  let stats : option EncodeCipherStats := addTries <$> stats in
  let info := mInfo c in
  let uComp := unpackBits (slice cipher 0 (c1Bytes info)) (du info) (vecSize info) in
  o ← match stats with
      | Some _ => encodePickedVecProfiled entropy fuel (mPreimages c) uComp (vecBits info) (bufs rng)
      | None => encodePickedVec entropy fuel (mPreimages c) uComp (vecBits info) (bufs rng)
      end;
  match o with
  | None => mret None
  | Some (None, calls) => mret (Some (None, addOverflow <$> stats, mkRng calls (draws rng)))
  | Some (Some r, calls) =>
      let '(rejected, draws') := rejectZeroEntries uniform (slice cipher (c1Bytes info) (c2Bytes info)) (dv info) n (draws rng) in
      if rejected then mret (Some (None, addZero <$> stats, mkRng calls draws')) else
      let out := replicate (codeCipherBytes c) 0%Z in
      let out := memcpy out 0 r 0 (length r) in
      let out := memcpy out (vecBytes info) cipher (c1Bytes info) (length cipher - c1Bytes info) in
      mret (Some (Some out, stats, mkRng calls draws'))
  end.

Definition encodeCipher (fuel : nat) (c : Kemeleon) (cipher : list Z) (rng : Rng) :=
  encodeCipherImpl fuel c cipher None rng.
Definition encodeCipherProfiled (fuel : nat) (c : Kemeleon) (cipher : list Z) (stats : EncodeCipherStats) (rng : Rng) :=
  encodeCipherImpl fuel c cipher (Some stats) rng.
End Cipher.

(** [decodeCipher]: [None] is [cipher.clear(); return false]. *)
Definition decodeCipher (c : Kemeleon) (data : list Z) : option (list Z) :=
  let info := mInfo c in
  if negb (length data =? codeCipherBytes c) then None else
  let '(ok, u) := decodeVec (slice data 0 (vecBytes info)) (vecBits info) (vecSize info) in
  if negb ok then None else
  let uComp := for_ 0 (vecSize info) (fun i (uComp : list Z) => <[i := compressValue u.[i] (du info)]> uComp)
    (replicate (vecSize info) 0%Z) in
  let c1 := packBits uComp (du info) in
  let cipher := replicate (rawCipherBytes c) 0%Z in
  let cipher := memcpy cipher 0 c1 0 (length c1) in
  Some (memcpy cipher (c1Bytes info) data (vecBytes info) (length data - vecBytes info)).

Definition copyIfSize (src : list Z) (need : nat) : option (list Z) :=
  if negb (length src =? need) then None else Some src.


(** * Bit lengths and bytes of a number *)

Lemma dropZeros_top k x : Z.testbit x (Z.of_nat k) = true → dropZeros (S k) x = S k.
Proof. intros H. cbn [dropZeros]. by rewrite H. Qed.

Lemma bitLen_spec x b : (0 ≤ x)%Z → bitLen x ≤ b ↔ (x < 2 ^ Z.of_nat b)%Z.
Proof.
  intros Hx. unfold bitLen. destruct (Z.eqb_spec x 0) as [->|Hne].
  - split; [intros _; apply Z.pow_pos_nonneg; lia|lia].
  - pose proof (Z.log2_nonneg x). unfold sizeinbase2. rewrite Z2Nat.inj_add by lia.
    change (Z.to_nat 1) with 1. rewrite Nat.add_1_r, dropZeros_top.
    + rewrite Z.log2_lt_pow2 by lia. lia.
    + rewrite Z2Nat.id by lia. apply Z.bit_log2. lia.
Qed.

(** * Sizes of the three modes *)

(** Bounds of [q ^ m] with mantissas of at most 128 bits. *)
Definition bracket (m : nat) (b : Z * Z * Z) : Prop :=
  let '(lo, hi, e) := b in
  (0 ≤ e ∧ 0 ≤ lo ∧ lo * 2 ^ e ≤ q ^ Z.of_nat m ≤ hi * 2 ^ e)%Z.

Definition bracketMul (a b : Z * Z * Z) : Z * Z * Z :=
  let '(lo, hi, e) := a in
  let '(lo', hi', e') := b in
  let s := if (lo * lo' <? 2 ^ 128)%Z then 0%Z else 64%Z in
  (lo * lo' / 2 ^ s, hi * hi' / 2 ^ s + 1, e + e' + s)%Z.

Lemma bracket_mul m m' a b : bracket m a → bracket m' b → bracket (m + m') (bracketMul a b).
Proof.
  destruct a as [[lo hi] e], b as [[lo' hi'] e']. unfold bracket, bracketMul. intros (He & Hlo & H1 & H2) (He' & Hlo' & H3 & H4).
  set (s := (if (lo * lo' <? 2 ^ 128)%Z then 0%Z else 64%Z)). assert (Hs : (0 ≤ s)%Z) by (unfold s; destruct (_ <? _)%Z; lia). clearbody s.
  assert (Hp : (0 < 2 ^ s)%Z) by (apply Z.pow_pos_nonneg; lia).
  rewrite Nat2Z.inj_add, Z.pow_add_r, !Z.pow_add_r by lia.
  assert (0 < 2 ^ e)%Z by (apply Z.pow_pos_nonneg; lia). assert (0 < 2 ^ e')%Z by (apply Z.pow_pos_nonneg; lia).
  pose proof (Z.mul_div_le (lo * lo') (2 ^ s) Hp). pose proof (Z.mul_succ_div_gt (hi * hi') (2 ^ s) Hp).
  set (A := (2 ^ e)%Z) in *. set (B := (2 ^ e')%Z) in *. set (S := (2 ^ s)%Z) in *.
  set (X := (q ^ Z.of_nat m)%Z) in *. set (Y := (q ^ Z.of_nat m')%Z) in *. clearbody A B S X Y.
  split; [lia|]. split; [apply Z.div_pos; [by apply Z.mul_nonneg_nonneg|done]|]. split.
  - transitivity ((lo * A) * (lo' * B))%Z.
    + replace (lo * lo' / S * (A * B * S))%Z with (S * (lo * lo' / S) * (A * B))%Z by ring.
      replace (lo * A * (lo' * B))%Z with (lo * lo' * (A * B))%Z by ring.
      apply Z.mul_le_mono_nonneg_r; [by apply Z.mul_nonneg_nonneg; lia|done].
    + apply Z.mul_le_mono_nonneg; try done; apply Z.mul_nonneg_nonneg; lia.
  - transitivity ((hi * A) * (hi' * B))%Z.
    + apply Z.mul_le_mono_nonneg; try done; (etransitivity; [|eassumption]); apply Z.mul_nonneg_nonneg; lia.
    + replace ((hi * hi' / S + 1) * (A * B * S))%Z with (S * Z.succ (hi * hi' / S) * (A * B))%Z by ring.
      replace (hi * A * (hi' * B))%Z with (hi * hi' * (A * B))%Z by ring.
      apply Z.mul_le_mono_nonneg_r; [by apply Z.mul_nonneg_nonneg; lia|lia].
Qed.

Fixpoint bracketSq (k : nat) : Z * Z * Z :=
  match k with
  | O => (q, q, 0)%Z
  | S k' => let b := bracketSq k' in bracketMul b b
  end.

Lemma bracketSq_ok k : bracket (2 ^ k) (bracketSq k).
Proof.
  induction k as [|k IH].
  - unfold bracket, bracketSq. change (Z.of_nat (2 ^ 0)) with 1%Z. rewrite Z.pow_1_r. unfold q. lia.
  - cbn [bracketSq]. rewrite Nat.pow_succ_r'. replace (2 * 2 ^ k) with (2 ^ k + 2 ^ k) by lia. by apply bracket_mul.
Qed.

(** The bit length of [q ^ m + 1] from such bounds. *)
Lemma bracket_bits m b bits : bracket m b →
  (let '(lo, hi, e) := b in (e <=? Z.of_nat bits) && (2 ^ (Z.of_nat bits - e) <=? lo) && (hi + 1 <? 2 ^ (Z.of_nat bits + 1 - e)))%Z = true →
  (2 ^ Z.of_nat bits ≤ q ^ Z.of_nat m)%Z ∧ bitLen (q ^ Z.of_nat m + 1) - 1 = bits.
Proof.
  destruct b as [[lo hi] e]. unfold bracket. rewrite !andb_true_iff, !Z.leb_le, Z.ltb_lt. intros (He & Hlo & H1 & H2) [[Hb H3] H4].
  assert (Hpe : (0 < 2 ^ e)%Z) by (apply Z.pow_pos_nonneg; lia).
  assert (H5 : (2 ^ Z.of_nat bits ≤ q ^ Z.of_nat m)%Z).
  { replace (Z.of_nat bits) with (Z.of_nat bits - e + e)%Z by lia. rewrite Z.pow_add_r by lia. nia. }
  split; [done|]. assert (H6 : (q ^ Z.of_nat m + 1 < 2 ^ Z.of_nat (S bits))%Z).
  { replace (Z.of_nat (S bits)) with (Z.of_nat bits + 1 - e + e)%Z by lia. rewrite Z.pow_add_r by lia. nia. }
  assert (H7 : (0 ≤ q ^ Z.of_nat m)%Z) by (apply Z.pow_nonneg; done).
  apply bitLen_spec in H6; [|lia]. destruct (Nat.le_gt_cases (bitLen (q ^ Z.of_nat m + 1)) bits) as [Hle|Hgt]; [|lia].
  apply bitLen_spec in Hle; lia.
Qed.

Lemma vector_bits : (∀ bits : nat, bits = 5990 → (2 ^ Z.of_nat bits ≤ q ^ Z.of_nat 512)%Z ∧ bitLen (q ^ Z.of_nat 512 + 1) - 1 = bits) ∧
  (∀ bits : nat, bits = 8986 → (2 ^ Z.of_nat bits ≤ q ^ Z.of_nat 768)%Z ∧ bitLen (q ^ Z.of_nat 768 + 1) - 1 = bits) ∧
  (∀ bits : nat, bits = 11981 → (2 ^ Z.of_nat bits ≤ q ^ Z.of_nat 1024)%Z ∧ bitLen (q ^ Z.of_nat 1024 + 1) - 1 = bits).
Proof.
  split; [|split]; intros bits E.
  - change 512 with (2 ^ 9). apply (bracket_bits _ _ _ (bracketSq_ok 9)). rewrite E. vm_compute. reflexivity.
  - change 768 with (2 ^ 9 + 2 ^ 8). apply (bracket_bits _ _ _ (bracket_mul _ _ _ _ (bracketSq_ok 9) (bracketSq_ok 8))).
    rewrite E. vm_compute. reflexivity.
  - change 1024 with (2 ^ 10). apply (bracket_bits _ _ _ (bracketSq_ok 10)). rewrite E. vm_compute. reflexivity.
Qed.

(** The facts about an [Info] that the codec relies on. *)
Record info_ok (i : Info) : Prop := {
  io_poly : 2 * polyBytes i = 3 * vecSize i;
  io_even : vecSize i mod 2 = 0;
  io_c1 : vecSize i * du i = 8 * c1Bytes i;
  io_c2 : n * dv i = 8 * c2Bytes i;
  io_du : du i = 10 ∨ du i = 11;
  io_bytes : vecBytes i = (vecBits i + 7) / 8;
  io_rem : vecBits i mod 8 ≠ 0;
  io_fit : (2 ^ Z.of_nat (vecBits i) ≤ q ^ Z.of_nat (vecSize i))%Z;
}.

Lemma makeInfo_values m : makeInfo m =
  match m with
  | MlKem512 => mkInfo 2 10 4 768 640 128 512 5990 749
  | MlKem768 => mkInfo 3 10 4 1152 960 128 768 8986 1124
  | MlKem1024 => mkInfo 4 11 5 1536 1408 160 1024 11981 1498
  end.
Proof.
  destruct vector_bits as (H1 & H2 & H3). unfold makeInfo.
  destruct m; cbv beta iota zeta;
    [change (2 * n) with 512; rewrite (proj2 (H1 _ eq_refl))
    |change (3 * n) with 768; rewrite (proj2 (H2 _ eq_refl))
    |change (4 * n) with 1024; rewrite (proj2 (H3 _ eq_refl))]; vm_compute; reflexivity.
Qed.

Lemma makeInfo_ok m : info_ok (makeInfo m).
Proof.
  destruct vector_bits as (H1 & H2 & H3).
  rewrite makeInfo_values.
  destruct m; [pose proof (proj1 (H1 _ eq_refl)) as Hf|pose proof (proj1 (H2 _ eq_refl)) as Hf|pose proof (proj1 (H3 _ eq_refl)) as Hf];
    clear H1 H2 H3; split; cbn [polyBytes vecSize du c1Bytes dv c2Bytes vecBytes vecBits];
    lazymatch goal with
    | |- (_ ≤ _)%Z => exact Hf
    | |- _ ≠ _ => vm_compute; discriminate
    | |- _ ∨ _ => tauto
    | |- _ => vm_compute; reflexivity
    end.
Qed.

Definition codec_ok (c : Kemeleon) : Prop :=
  info_ok (mInfo c) ∧ table_ok (du (mInfo c)) (mPreimages c) ∧
  rawKeyBytes c = polyBytes (mInfo c) + rhoBytes ∧ rawCipherBytes c = c1Bytes (mInfo c) + c2Bytes (mInfo c).

Lemma codec_ok_mode c m : mKem c = MlKem.construct m → mInfo c = makeInfo m →
  mPreimages c = makePreimageTable (du (makeInfo m)) → codec_ok c.
Proof.
  intros Hk Hi Ht. pose proof (makeInfo_ok m) as Hok. unfold codec_ok, rawKeyBytes, rawCipherBytes.
  rewrite Hk, Hi, Ht. split; [done|]. split; [apply table_ok_widths, (io_du _ Hok)|].
  rewrite makeInfo_values. destruct m; split; vm_compute; reflexivity.
Qed.

Lemma construct_ok m : codec_ok (construct m).
Proof. by apply (codec_ok_mode _ m). Qed.
Lemma setMode_ok c m : codec_ok (setMode c m).
Proof. by apply (codec_ok_mode _ m). Qed.

Lemma le_bytes_app a b x : le_bytes (a + b) x = le_bytes a x ++ le_bytes b (Z.shiftr x (8 * Z.of_nat a)).
Proof.
  revert x. induction a as [|a IH]; intros x; cbn [Nat.add le_bytes app]; [by rewrite Z.shiftr_0_r|].
  rewrite IH, Z.shiftr_shiftr by lia. do 4 f_equal. lia.
Qed.

Lemma le_bytes_zero b : le_bytes b 0 = replicate b 0%Z.
Proof. induction b as [|b IH]; [done|]. cbn [le_bytes replicate]. by rewrite Z.land_0_l, Z.shiftr_0_l, IH. Qed.

Lemma mpz_export_spec nb x : (0 ≤ x < 2 ^ (8 * Z.of_nat nb))%Z → mpz_export (replicate nb 0%Z) x = le_bytes nb x.
Proof.
  intros Hx. unfold mpz_export. set (w := (bitLen x + 7) / 8).
  assert (Hb : bitLen x ≤ 8 * nb) by (apply bitLen_spec; [lia|]; rewrite Nat2Z.inj_mul; apply Hx).
  assert (Hw : w ≤ nb) by (unfold w; divlia).
  assert (Hxw : (x < 2 ^ (8 * Z.of_nat w))%Z).
  { replace (8 * Z.of_nat w)%Z with (Z.of_nat (8 * w)) by lia. apply bitLen_spec; [lia|unfold w; divlia]. }
  clearbody w. unfold memcpy. cbn [Nat.add]. rewrite take_0, drop_0, app_nil_l.
  rewrite firstn_all2 by (rewrite le_bytes_length; lia). rewrite drop_replicate.
  replace nb with (w + (nb - w)) at 2 by lia. rewrite le_bytes_app. f_equal.
  rewrite Z.shiftr_div_pow2, Z.div_small by lia. by rewrite le_bytes_zero.
Qed.

(** The partial byte of a string of [bits] bits. *)
Lemma partial_byte bits nb : nb = (bits + 7) / 8 → bits mod 8 ≠ 0 →
  bits = 8 * (nb - 1) + bits mod 8 ∧ 0 < nb.
Proof. intros -> H. divlia. Qed.

Lemma last_byte_value nb bs : buf_ok nb bs → 0 < nb →
  le_val bs = (le_val (take (nb - 1) bs) + 2 ^ (8 * Z.of_nat (nb - 1)) * bs.[nb - 1])%Z ∧
  (0 ≤ le_val (take (nb - 1) bs) < 2 ^ (8 * Z.of_nat (nb - 1)))%Z.
Proof.
  intros [Hl Hb] Hnb. assert (E : bs = take (nb - 1) bs ++ [bs.[nb - 1]]).
  { rewrite <- (take_drop (nb - 1) bs) at 1. f_equal. rewrite (drop_S bs bs.[nb - 1]).
    - rewrite drop_ge by lia. done.
    - apply nth_lookup_Z. lia. }
  split.
  - rewrite E at 1. rewrite le_val_app, length_take, Nat.min_l by lia. cbn [le_val]. lia.
  - pose proof (le_val_bound (take (nb - 1) bs) (Forall_take _ _ _ Hb)) as H.
    rewrite length_take, Nat.min_l in H by lia. exact H.
Qed.

Lemma value_below bits nb bs : nb = (bits + 7) / 8 → bits mod 8 ≠ 0 → buf_ok nb bs →
  (le_val bs < 2 ^ Z.of_nat bits)%Z ↔ (bs.[nb - 1] < 2 ^ Z.of_nat (bits mod 8))%Z.
Proof.
  intros Hnb Hr Hbs. destruct (partial_byte bits nb Hnb Hr) as [E Hpos].
  destruct (last_byte_value nb bs Hbs Hpos) as [-> Hlo]. set (r := bits mod 8) in *.
  rewrite E at 1. rewrite Nat2Z.inj_add, Z.pow_add_r, Nat2Z.inj_mul by lia. change (Z.of_nat 8) with 8%Z.
  split; intros H; nia.
Qed.

Lemma low_ones r : r < 8 → u8 (Z.shiftl 1 (Z.of_nat r) - 1) = Z.ones (Z.of_nat r) ∧
  wnot 8 (Z.ones (Z.of_nat r)) = (255 - Z.ones (Z.of_nat r))%Z.
Proof. intros Hr. destruct r as [|[|[|[|[|[|[|[|r]]]]]]]]; try lia; done. Qed.

Lemma high_bits x r : in_word 8 x → r < 8 →
  Z.land x (Z.ones (Z.of_nat r)) = (x mod 2 ^ Z.of_nat r)%Z ∧
  (Z.land x (wnot 8 (Z.ones (Z.of_nat r))) =? 0)%Z = (x <? 2 ^ Z.of_nat r)%Z.
Proof.
  intros Hx Hr. split; [apply Z.land_ones; lia|].
  assert (E : Z.land x (wnot 8 (Z.ones (Z.of_nat r))) = Z.shiftl (Z.shiftr x (Z.of_nat r)) (Z.of_nat r)).
  { rewrite <- Z.ldiff_ones_r by lia. apply (word_ext 8); [lia| | |].
    - apply in_word_land; [lia|done|]. apply in_word_wrap. lia.
    - apply in_word_bit; [lia|]. split; [apply Z.ldiff_nonneg; left; apply Hx|]. intros i Hi.
      rewrite Z.ldiff_spec. by rewrite (testbit_high 8 x).
    - intros i Hi. rewrite Z.land_spec, Z.ldiff_spec. unfold wnot. rewrite wrap_testbit, Z.lnot_spec by lia.
      by replace (i <? 8)%Z with true by (symmetry; apply Z.ltb_lt; lia). }
  rewrite E, Z.shiftl_mul_pow2, Z.shiftr_div_pow2 by lia.
  assert (0 < 2 ^ Z.of_nat r)%Z by (apply Z.pow_pos_nonneg; lia). destruct Hx as [Hx0 _].
  destruct (Z.ltb_spec x (2 ^ Z.of_nat r)).
  - by rewrite Z.div_small.
  - apply Z.eqb_neq. assert (1 ≤ x / 2 ^ Z.of_nat r)%Z by (apply Z.div_le_lower_bound; lia). nia.
Qed.

(** * The vector codec *)

(** Value of a list of base-[q] digits, least significant first. *)
Fixpoint qval (l : list Z) : Z :=
  match l with
  | [] => 0%Z
  | d :: l' => (d + q * qval l')%Z
  end.

Definition digits_ok (l : list Z) : Prop := Forall (fun d => 0 ≤ d < q)%Z l.

Lemma qval_bound l : digits_ok l → (0 ≤ qval l < q ^ Z.of_nat (length l))%Z.
Proof.
  induction 1 as [|d l Hd _ IH]; cbn [qval length]; [by split|].
  rewrite Nat2Z.inj_succ, Z.pow_succ_r by lia. unfold q in *. nia.
Qed.

Lemma qval_take l m : m < length l → qval (take (S m) l) = (qval (take m l) + q ^ Z.of_nat m * l.[m])%Z.
Proof.
  revert m. induction l as [|e l IH]; intros m Hm; [cbn in Hm; lia|]. destruct m as [|m].
  - cbn [firstn qval nth]. change (q ^ Z.of_nat 0)%Z with 1%Z. rewrite take_0. cbn [qval]. ring.
  - cbn [length] in Hm. change (take (S (S m)) (e :: l)) with (e :: take (S m) l).
    cbn [firstn qval nth]. rewrite IH by lia. rewrite Nat2Z.inj_succ, Z.pow_succ_r by lia. ring.
Qed.

Lemma horner_loop l m x : m ≤ length l →
  for_down m (fun i x => (x * q + l.[i])%Z) x = (qval (take m l) + q ^ Z.of_nat m * x)%Z.
Proof.
  revert x. induction m as [|m IH]; intros x Hm.
  - cbn [for_down]. rewrite take_0. change (q ^ Z.of_nat 0)%Z with 1%Z. cbn [qval]. lia.
  - cbn [for_down]. rewrite IH, qval_take by lia. rewrite Nat2Z.inj_succ, Z.pow_succ_r by lia. ring.
Qed.

Lemma qval_loop l : for_down (length l) (fun i x => (x * q + l.[i])%Z) 0%Z = qval l.
Proof. rewrite horner_loop, firstn_all by lia. lia. Qed.

Lemma finishVec_spec x bits : (0 ≤ x)%Z → bits mod 8 ≠ 0 →
  finishVec x bits = if (x <? 2 ^ Z.of_nat bits)%Z then Some (le_bytes ((bits + 7) / 8) x) else None.
Proof.
  intros Hx Hr. unfold finishVec.
  assert (Hcmp : (bits <? bitLen x) = negb (x <? 2 ^ Z.of_nat bits)%Z).
  { pose proof (bitLen_spec x bits Hx). destruct (Nat.ltb_spec bits (bitLen x)), (Z.ltb_spec x (2 ^ Z.of_nat bits)); try done; lia. }
  rewrite Hcmp. destruct (Z.ltb_spec x (2 ^ Z.of_nat bits)) as [Hlt|]; [|done]. cbn [negb]. f_equal.
  set (nb := (bits + 7) / 8). destruct (partial_byte bits nb eq_refl Hr) as [E Hpos].
  assert (Hle : (x < 2 ^ (8 * Z.of_nat nb))%Z).
  { apply Z.lt_le_trans with (2 ^ Z.of_nat bits)%Z; [done|]. apply Z.pow_le_mono_r; [lia|]. unfold nb. divlia. }
  rewrite mpz_export_spec by done. unfold maskLast. apply Nat.eqb_neq in Hr as Hr'. rewrite Hr'. cbn [negb].
  rewrite le_bytes_length. assert (Hok : buf_ok nb (le_bytes nb x)) by (split; [apply le_bytes_length|apply le_bytes_ok]).
  assert (Hval : le_val (le_bytes nb x) = x) by (rewrite le_val_bytes; by apply wrap_small).
  pose proof (proj1 (value_below bits nb _ eq_refl Hr Hok)) as Hlast. rewrite Hval in Hlast. specialize (Hlast Hlt).
  assert (Hm : bits mod 8 < 8) by (apply Nat.mod_upper_bound; lia).
  destruct (low_ones (bits mod 8) Hm) as [-> _].
  assert (Hw : in_word 8 (le_bytes nb x).[nb - 1]) by (apply Forall_nth_Z; [apply Hok|by apply in_word_0]).
  rewrite (proj1 (high_bits _ _ Hw Hm)), Z.mod_small by (split; [apply Hw|done]).
  apply list_insert_id, nth_lookup_Z. rewrite le_bytes_length. lia.
Qed.

Lemma digit_loop x count : (0 ≤ x)%Z →
  let '(y, out) := for_ 0 count (fun i '(x, out) => ((x / q)%Z, <[i := u16 (x mod q)]> out))
    (x, replicate count 0%Z) in
  length out = count ∧ digits_ok out ∧ y = (x / q ^ Z.of_nat count)%Z ∧
  x = (qval out + q ^ Z.of_nat count * y)%Z.
Proof.
  intros Hx.
  loop_inv (fun i (st : Z * list Z) => st.1 = (x / q ^ Z.of_nat i)%Z ∧ length st.2 = count ∧ digits_ok st.2 ∧
    x = (qval (take i st.2) + q ^ Z.of_nat i * st.1)%Z) as H.
  - lia.
  - cbn [fst snd]. change (q ^ Z.of_nat 0)%Z with 1%Z. rewrite Z.div_1_r, take_0. split; [done|].
    split; [apply length_replicate|]. split; [by apply Forall_replicate|cbn [qval]; lia].
  - intros i [y out] Hi (Hy & Hl & Hd & He). cbn [fst snd] in *.
    pose proof (Z.mod_pos_bound y q ltac:(done)) as Hm.
    assert (Hu : u16 (y mod q) = (y mod q)%Z) by (apply wrap_small; unfold q in *; split; lia).
    rewrite Hu. split; [|split; [by rewrite length_insert|split]].
    + rewrite Hy, Z.div_div by (assert (0 < q ^ Z.of_nat i)%Z by (apply Z.pow_pos_nonneg; done || lia); unfold q in *; lia). f_equal.
      rewrite Nat2Z.inj_succ, Z.pow_succ_r by lia. lia.
    + by apply Forall_insert.
    + rewrite qval_take by (rewrite length_insert; lia). rewrite take_insert by lia.
      rewrite decide_False, nth_insert, decide_True by lia. rewrite Nat2Z.inj_succ, Z.pow_succ_r by lia.
      rewrite He at 1. rewrite (Z.div_mod y q) at 1 by done. ring.
  - destruct (for_ 0 count _ _) as [y out]. cbn [fst snd] in H. destruct H as (Hy & Hl & Hd & He).
    rewrite firstn_all2 in He by lia. done.
Qed.

(** The outcome of [decodeVec] on every string of the right size. *)
Lemma decodeVec_spec inp bits count : bits mod 8 ≠ 0 → buf_ok ((bits + 7) / 8) inp →
  (le_val inp < 2 ^ Z.of_nat bits)%Z → (2 ^ Z.of_nat bits ≤ q ^ Z.of_nat count)%Z →
  ∃ out, decodeVec inp bits count = (true, out) ∧ length out = count ∧ digits_ok out ∧ qval out = le_val inp.
Proof.
  intros Hr Hb Hlt Hfit. unfold decodeVec. rewrite (proj1 Hb), Nat.eqb_refl. cbn [negb].
  assert (Hm : bits mod 8 < 8) by (apply Nat.mod_upper_bound; lia).
  destruct (low_ones (bits mod 8) Hm) as [-> _].
  assert (Hw : ∀ i, in_word 8 inp.[i]) by (intros; apply Forall_nth_Z; [apply Hb|by apply in_word_0]).
  rewrite (proj2 (high_bits _ _ (Hw _) Hm)). pose proof (proj1 (value_below bits _ inp eq_refl Hr Hb) Hlt) as Hlast. apply Z.ltb_lt in Hlast.
  rewrite Hlast. cbn [negb]. rewrite andb_false_r.
  assert (H0 : (0 ≤ le_val inp)%Z) by apply le_val_bound, Hb.
  pose proof (digit_loop (mpz_import inp) count H0) as H. destruct (for_ 0 count _ _) as [y out].
  destruct H as (Hl & Hd & Hy & He). unfold mpz_import in *.
  rewrite Z.div_small in Hy by lia. subst y. exists out. split; [done|]. split; [done|]. split; [done|lia].
Qed.

Lemma decodeVec_length inp bits count : length inp ≠ (bits + 7) / 8 → decodeVec inp bits count = (false, []).
Proof. intros H. unfold decodeVec. apply Nat.eqb_neq in H. by rewrite H. Qed.

Lemma qval_inj l l' : length l = length l' → digits_ok l → digits_ok l' → qval l = qval l' → l = l'.
Proof.
  revert l'. induction l as [|d l IH]; intros [|d' l'] Hl Hd Hd' E; try done.
  inversion_clear Hd as [|?? H1 H2]. inversion_clear Hd' as [|?? H1' H2']. cbn [qval] in E.
  assert (d = d') as -> by (unfold q in *; lia). f_equal. apply IH; try done; [by injection Hl|unfold q in *; lia].
Qed.

(** * Public keys *)

Section Keys.
Context (hashByte : list Z → Z) (c : Kemeleon).
Hypothesis Hc : codec_ok c.
Hypothesis Hhash : ∀ m, in_word 8 (hashByte m).

Abbreviation info := (mInfo c).
Abbreviation vb := (vecBytes (mInfo c)).
Abbreviation bits := (vecBits (mInfo c)).

Local Lemma Hinfo : info_ok (mInfo c).
Proof. apply Hc. Qed.

(** A raw key whose coefficients are reduced, as the key generation of ML-KEM writes them. *)
Definition canonical (key : list Z) : Prop :=
  buf_ok (rawKeyBytes c) key ∧
  ∃ t, unpackPolyBytes (slice key 0 (polyBytes info)) = Ok t ∧ digits_ok t.

Lemma poly_third : ∃ h, polyBytes info = 3 * h ∧ vecSize info = 2 * h.
Proof.
  destruct Hinfo as [H1 H2 _ _ _ _ _ _]. exists (vecSize info / 2). divlia.
Qed.

Lemma spare_bits : bits mod 8 < 8 ∧ bits mod 8 ≠ 0 ∧ 0 < vb ∧ vb = (bits + 7) / 8.
Proof. destruct Hinfo as [_ _ _ _ _ Hb Hr _]. rewrite Hb. divlia. Qed.

Lemma keyHighMask_value : keyHighMask c = wnot 8 (Z.ones (Z.of_nat (bits mod 8))) ∧ keyHighMask c ≠ 0%Z ∧
  wnot 8 (keyHighMask c) = Z.ones (Z.of_nat (bits mod 8)).
Proof.
  destruct spare_bits as (Hr & H0 & _). unfold keyHighMask. apply Nat.eqb_neq in H0 as E. rewrite E. clear E.
  destruct (bits mod 8) as [|[|[|[|[|[|[|[|r]]]]]]]]; try lia; done.
Qed.

(** The spare bits of the last byte, on a string that ends with it. *)
Lemma clear_last pre r : buf_ok vb r →
  clearKeyHighBits c (pre ++ r) = pre ++ <[vb - 1 := (r.[vb - 1] mod 2 ^ Z.of_nat (bits mod 8))%Z]> r.
Proof.
  intros [Hl Hb]. destruct spare_bits as (Hr & _ & Hv & _). destruct keyHighMask_value as (_ & H0 & Hn).
  unfold clearKeyHighBits. apply Z.eqb_neq in H0. rewrite H0, Hn. rewrite length_app, Hl.
  destruct (Nat.eqb_spec (length pre + vb) 0); [lia|]. cbn [orb].
  replace (length pre + vb - 1) with (length pre + (vb - 1)) by lia.
  rewrite insert_app_r, app_nth2_plus. do 2 f_equal.
  apply high_bits; [by apply Forall_nth_Z; [|apply in_word_0]|done].
Qed.

Lemma fill_last key pre r : buf_ok vb r → length pre = rhoBytes →
  fillKeyHighBits hashByte c key (pre ++ r) =
    pre ++ <[vb - 1 := Z.lor r.[vb - 1] (Z.land (hashByte key) (keyHighMask c))]> r.
Proof.
  intros [Hl Hb] Hp. destruct spare_bits as (_ & _ & Hv & _). destruct keyHighMask_value as (_ & H0 & _).
  unfold fillKeyHighBits. apply Z.eqb_neq in H0. rewrite H0.
  replace (rhoBytes + vb - 1) with (length pre + (vb - 1)) by lia.
  by rewrite insert_app_r, app_nth2_plus.
Qed.

Lemma clear_fill_byte x h : in_word 8 x → (x < 2 ^ Z.of_nat (bits mod 8))%Z → in_word 8 h →
  in_word 8 (Z.lor x (Z.land h (keyHighMask c))) ∧
  (Z.lor x (Z.land h (keyHighMask c)) mod 2 ^ Z.of_nat (bits mod 8))%Z = x.
Proof.
  intros Hx Hlt Hh. destruct spare_bits as (Hr & _). destruct keyHighMask_value as (Hm & _).
  assert (Hw : in_word 8 (Z.lor x (Z.land h (keyHighMask c)))).
  { apply in_word_lor; [lia|done|]. apply in_word_land; [lia|done|]. rewrite Hm. apply in_word_wrap. lia. }
  split; [done|]. rewrite <- Z.land_ones, Z.land_lor_distr_l by lia.
  assert (E : Z.land (Z.land h (keyHighMask c)) (Z.ones (Z.of_nat (bits mod 8))) = 0%Z).
  { rewrite <- Z.land_assoc, Hm. destruct (bits mod 8) as [|[|[|[|[|[|[|[|r]]]]]]]]; try lia; apply Z.land_0_r. }
  rewrite E, Z.lor_0_r, Z.land_ones by lia. apply Z.mod_small. split; [apply Hx|done].
Qed.

(** The vector of the decoder: the low bits of the string, as a number. *)
Lemma decode_cleared r : buf_ok vb r →
  let r' := <[vb - 1 := (r.[vb - 1] mod 2 ^ Z.of_nat (bits mod 8))%Z]> r in
  buf_ok vb r' ∧ (le_val r' < 2 ^ Z.of_nat bits)%Z ∧
  ∃ t, decodeVec r' bits (vecSize info) = (true, t) ∧ length t = vecSize info ∧ digits_ok t ∧ qval t = le_val r'.
Proof.
  intros [Hl Hb] r'. destruct spare_bits as (Hr & H0 & Hv & Hvb).
  assert (Hw : in_word 8 r.[vb - 1]) by (by apply Forall_nth_Z; [|apply in_word_0]).
  pose proof (Z.mod_pos_bound r.[vb - 1] (2 ^ Z.of_nat (bits mod 8)) ltac:(apply Z.pow_pos_nonneg; lia)) as Hm.
  assert (Hok : buf_ok vb r').
  { split; [unfold r'; by rewrite length_insert|]. apply Forall_insert; [done|].
    split; [lia|]. apply Z.le_lt_trans with r.[vb - 1]; [|apply Hw]. apply Z.mod_le; [apply Hw|apply Z.pow_pos_nonneg; lia]. }
  assert (Hlt : (le_val r' < 2 ^ Z.of_nat bits)%Z).
  { apply (value_below bits vb r' Hvb H0 Hok). unfold r'. rewrite nth_insert, decide_True by lia. lia. }
  split; [done|]. split; [done|]. rewrite Hvb in Hok.
  apply decodeVec_spec; [done|done|done|apply Hinfo].
Qed.

Lemma encodeVec_digits t : digits_ok t →
  encodeVec t bits = if (qval t <? 2 ^ Z.of_nat bits)%Z then Some (le_bytes vb (qval t)) else None.
Proof.
  intros Ht. destruct spare_bits as (_ & H0 & _ & Hvb). unfold encodeVec. rewrite qval_loop, Hvb.
  apply finishVec_spec; [apply qval_bound, Ht|done].
Qed.

(** The outcome of [encodeKey] on canonical keys. *)
Lemma encodeKey_spec key t : buf_ok (rawKeyBytes c) key →
  unpackPolyBytes (slice key 0 (polyBytes info)) = Ok t → digits_ok t →
  encodeKey hashByte c key = Ok (if (qval t <? 2 ^ Z.of_nat bits)%Z
    then Some (fillKeyHighBits hashByte c key (slice key (polyBytes info) rhoBytes ++ le_bytes vb (qval t)))
    else None).
Proof.
  intros [Hl Hb] Ht Hd. unfold encodeKey. rewrite Hl, Nat.eqb_refl. cbn [negb throw_if mbind Res_bind].
  rewrite Ht. cbn [mbind Res_bind]. rewrite encodeVec_digits by done.
  destruct (qval t <? 2 ^ Z.of_nat bits)%Z; [|done]. unfold mret, Res_ret. do 3 f_equal.
  assert (Hraw : rawKeyBytes c = polyBytes info + rhoBytes) by apply Hc.
  rewrite Hraw. replace (polyBytes info + rhoBytes - polyBytes info) with rhoBytes by lia.
  rewrite le_bytes_length. unfold codeKeyBytes. rewrite memcpy_assemble by (rewrite ?le_bytes_length; lia).
  f_equal. unfold slice. rewrite drop_0. apply firstn_all2. by rewrite le_bytes_length.
Qed.

(** The outcome of [decodeKey] on every string of the right size. *)
Lemma decodeKey_spec pre r : buf_ok rhoBytes pre → buf_ok vb r →
  let r' := <[vb - 1 := (r.[vb - 1] mod 2 ^ Z.of_nat (bits mod 8))%Z]> r in
  ∃ t packed, length t = vecSize info ∧ digits_ok t ∧ qval t = le_val r' ∧
    packPolyBytes t = Ok packed ∧ buf_ok (polyBytes info) packed ∧ unpackPolyBytes packed = Ok t ∧
    decodeKey c (pre ++ r) = Ok (Some (packed ++ pre)).
Proof.
  intros Hp Hr r'. destruct (decode_cleared r Hr) as (Hok & Hlt & t & Hdec & Hl & Hd & Hv). fold r' in Hok, Hlt, Hdec, Hv.
  destruct poly_third as (h & Hpoly & Hvec).
  assert (Hco : coeffs_ok t).
  { eapply Forall_impl; [exact Hd|]. intros d Hdd. cbv beta in Hdd. unfold q in Hdd. split; [lia|]. change (2 ^ 12)%Z with 4096%Z. lia. }
  destruct (unpack_packPoly h t ltac:(lia) Hco) as (packed & Hpk & Hlp & Hbp & Hup).
  exists t, packed. split; [done|]. split; [done|]. split; [done|]. split; [done|].
  split; [split; [lia|done]|]. split; [done|].
  assert (Hraw : rawKeyBytes c = polyBytes info + rhoBytes) by apply Hc.
  destruct Hp as [Hpl Hpb]. unfold decodeKey, decodeKeyInto, codeKeyBytes.
  rewrite length_app, Hpl, (proj1 Hr), !Nat.eqb_refl. cbn [negb orb].
  assert (Hs : slice (pre ++ r) rhoBytes vb = r).
  { unfold slice. rewrite drop_app_length' by done. apply firstn_all2. rewrite (proj1 Hr). lia. }
  rewrite Hs. pose proof (clear_last [] r Hr) as Hcl. cbn [app] in Hcl. rewrite Hcl. fold r'. rewrite Hdec. cbn [negb].
  rewrite Hpk. cbn [mbind Res_bind]. unfold mret, Res_ret. do 2 f_equal. rewrite Hraw.
  replace (length packed) with (polyBytes info) by lia.
  rewrite memcpy_assemble by (rewrite ?length_app; lia).
  unfold slice. rewrite !drop_0, take_app_length' by done. f_equal. apply firstn_all2. lia.
Qed.

Lemma split_code data : buf_ok (codeKeyBytes c) data →
  ∃ pre r, data = pre ++ r ∧ buf_ok rhoBytes pre ∧ buf_ok vb r.
Proof.
  intros [Hl Hb]. unfold codeKeyBytes in Hl. exists (take rhoBytes data), (drop rhoBytes data).
  split; [by rewrite take_drop|]. split; split; [rewrite length_take; lia|by apply Forall_take|rewrite length_drop; lia|by apply Forall_drop].
Qed.

Lemma split_key key : buf_ok (rawKeyBytes c) key →
  key = slice key 0 (polyBytes info) ++ slice key (polyBytes info) rhoBytes ∧
  buf_ok (polyBytes info) (slice key 0 (polyBytes info)) ∧ buf_ok rhoBytes (slice key (polyBytes info) rhoBytes).
Proof.
  intros [Hl Hb]. assert (Hraw : rawKeyBytes c = polyBytes info + rhoBytes) by apply Hc. unfold slice. rewrite drop_0.
  assert (E : take rhoBytes (drop (polyBytes info) key) = drop (polyBytes info) key)
    by (apply firstn_all2; rewrite length_drop; lia).
  rewrite E. split; [by rewrite take_drop|].
  split; split; [rewrite length_take; lia|by apply Forall_take|rewrite length_drop; lia|by apply Forall_drop].
Qed.

Lemma decode_encode key out : canonical key → encodeKey hashByte c key = Ok (Some out) →
  buf_ok (codeKeyBytes c) out ∧ decodeKey c out = Ok (Some key).
Proof.
  intros [Hkey (t & Ht & Hd)] He. rewrite (encodeKey_spec key t Hkey Ht Hd) in He.
  destruct (Z.ltb_spec (qval t) (2 ^ Z.of_nat bits)) as [Hlt|]; [|discriminate He]. injection He as <-.
  destruct spare_bits as (Hr & H0 & Hv & Hvb). destruct (split_key key Hkey) as (Ek & Hpoly & Hrho).
  set (v := qval t) in *. assert (Hv0 : (0 ≤ v)%Z) by apply qval_bound, Hd.
  assert (Hvok : buf_ok vb (le_bytes vb v)) by (split; [apply le_bytes_length|apply le_bytes_ok]).
  assert (Hval : le_val (le_bytes vb v) = v).
  { rewrite le_val_bytes. apply wrap_small. split; [done|]. apply Z.lt_le_trans with (2 ^ Z.of_nat bits)%Z; [done|].
    apply Z.pow_le_mono_r; [lia|]. rewrite Hvb. divlia. }
  pose proof (proj1 (value_below bits vb _ Hvb H0 Hvok)) as Hlast. rewrite Hval in Hlast. specialize (Hlast Hlt).
  rewrite fill_last by (done || apply Hrho).
  assert (Hw : in_word 8 (le_bytes vb v).[vb - 1]) by (apply Forall_nth_Z; [apply Hvok|by apply in_word_0]).
  destruct (clear_fill_byte _ _ Hw Hlast (Hhash key)) as [Hfb Hfm].
  set (r := <[vb - 1 := _]> (le_bytes vb v)).
  assert (Hrok : buf_ok vb r) by (split; [unfold r; rewrite length_insert; apply Hvok|apply Forall_insert; [apply Hvok|done]]).
  split.
  - split; [unfold codeKeyBytes; rewrite length_app, (proj1 Hrho), (proj1 Hrok); done|].
    apply Forall_app. split; [apply Hrho|apply Hrok].
  - destruct (decodeKey_spec _ r Hrho Hrok) as (t' & packed & Hlt' & Hd' & Hq' & Hpk & _ & _ & Hdec). rewrite Hdec.
    assert (Ecl : <[vb - 1 := (r.[vb - 1] mod 2 ^ Z.of_nat (bits mod 8))%Z]> r = le_bytes vb v).
    { unfold r. rewrite nth_insert, decide_True by (rewrite le_bytes_length; lia). rewrite Hfm, list_insert_insert_eq.
      apply list_insert_id, nth_lookup_Z. rewrite le_bytes_length. lia. }
    rewrite Ecl, Hval in Hq'.
    destruct poly_third as (h & Hpl & Hvec).
    destruct (pack_unpackPoly h (slice key 0 (polyBytes info))) as (t2 & Hu2 & Hl2 & Hp2).
    { rewrite (proj1 Hpoly). done. } { apply Hpoly. }
    rewrite Ht in Hu2. injection Hu2 as <-.
    assert (t' = t) as -> by (apply qval_inj; [congruence|done|done|exact Hq']).
    rewrite Hp2 in Hpk. injection Hpk as <-. by rewrite <- Ek.
Qed.

Lemma decode_total data : buf_ok (codeKeyBytes c) data →
  ∃ key, decodeKey c data = Ok (Some key) ∧ canonical key ∧
    encodeKey hashByte c key = Ok (Some (fillKeyHighBits hashByte c key (clearKeyHighBits c data))).
Proof.
  intros Hdata. destruct (split_code data Hdata) as (pre & r & -> & Hpre & Hr).
  destruct (decodeKey_spec pre r Hpre Hr) as (t & packed & Hlt & Hd & Hq & Hpk & Hpok & Hup & Hdec).
  destruct (decode_cleared r Hr) as (Hrok & Hrlt & _).
  exists (packed ++ pre). split; [done|].
  assert (Hraw : rawKeyBytes c = polyBytes info + rhoBytes) by apply Hc.
  assert (Hkey : buf_ok (rawKeyBytes c) (packed ++ pre)).
  { split; [rewrite length_app, (proj1 Hpok), (proj1 Hpre); lia|apply Forall_app; split; [apply Hpok|apply Hpre]]. }
  assert (Hs0 : slice (packed ++ pre) 0 (polyBytes info) = packed).
  { unfold slice. rewrite drop_0. apply take_app_length'. symmetry. exact (proj1 Hpok). }
  assert (Hs1 : slice (packed ++ pre) (polyBytes info) rhoBytes = pre).
  { unfold slice. rewrite drop_app_length' by exact (eq_sym (proj1 Hpok)). apply firstn_all2. rewrite (proj1 Hpre). lia. }
  assert (Ht : unpackPolyBytes (slice (packed ++ pre) 0 (polyBytes info)) = Ok t) by (by rewrite Hs0).
  split; [split; [done|by exists t]|]. rewrite (encodeKey_spec _ t Hkey Ht Hd), Hq.
  apply Z.ltb_lt in Hrlt. rewrite Hrlt, Hs1, clear_last by done. do 5 f_equal.
  rewrite <- (proj1 Hrok) at 1. apply le_bytes_val, Hrok.
Qed.
End Keys.

(** * Ciphertexts *)

Lemma lookup_below inp d i : Forall (in_word (Z.of_nat d)) inp → Z.to_nat inp.[i] < Nat.shiftl 1 d ∧ (0 ≤ inp.[i])%Z.
Proof.
  intros H. assert (Hw : in_word (Z.of_nat d) inp.[i]) by (apply Forall_nth_Z; [done|apply in_word_0; lia]).
  destruct Hw as [H0 H1]. split; [|done]. rewrite Nat.shiftl_1_l. apply Nat2Z.inj_lt.
  rewrite Z2Nat.id, Nat2Z.inj_pow by done. exact H1.
Qed.

Section Encoder.
Context (entropy : nat → list Z) (d : nat) (t : PreimageTable).
Hypothesis Ht : table_ok d t.

Lemma nextLoop_range fuel lim bound s p s' : (0 < bound)%Z →
  nextLoop entropy fuel lim bound s = Some (p, s') → (0 ≤ p < bound)%Z.
Proof.
  intros Hb. revert s. induction fuel as [|fuel IH]; intros s; cbn [nextLoop]; [done|].
  destruct (nextWord entropy s) as [x s1]. destruct (lim <=? x)%Z; [|apply IH].
  intros [= <- <-]. by apply Z.mod_pos_bound.
Qed.

(** The step of the encoder at a compressed value: it stops for lack of fuel, or appends a preimage. *)
Lemma pickStep_spec fuel inp i x s : Forall (in_word (Z.of_nat d)) inp →
  ∃ o, pickStep entropy fuel t inp i (Some (x, s)) = Ok o ∧
    match nextLoop entropy fuel (u32 (- (counts t).[Z.to_nat inp.[i]]) mod (counts t).[Z.to_nat inp.[i]])
        (counts t).[Z.to_nat inp.[i]] s with
    | None => o = None
    | Some (p, s') => ∃ v, o = Some ((x * q + v)%Z, s') ∧ (0 ≤ v < q)%Z ∧ compressValue v d = inp.[i]
    end.
Proof.
  intros Hi. destruct (lookup_below inp d i Hi) as [Hlt H0]. pose proof (to_pos _ _ Ht _ Hlt) as Hc.
  unfold pickStep. rewrite (to_length _ _ Ht). set (want := Z.to_nat inp.[i]) in *.
  destruct (Nat.leb_spec (Nat.shiftl 1 d) want); [lia|]. cbn [throw_if mbind Res_bind].
  destruct (Z.eqb_spec (counts t).[want] 0); [lia|]. cbn [throw_if mbind Res_bind]. unfold next.
  destruct (Z.eqb_spec (counts t).[want] 0); [lia|]. cbn [throw_if mbind Res_bind]. unfold mret, Res_ret.
  destruct (nextLoop _ _ _ _ _) as [[p s']|] eqn:E; cbn [mbind Res_bind]; [|by eexists].
  apply nextLoop_range in E; [|lia]. pose proof (to_val _ _ Ht want p Hlt E) as [Hv Hcv].
  eexists. split; [reflexivity|]. eexists. split; [reflexivity|]. split; [done|].
  rewrite Hcv. unfold want. lia.
Qed.

(** The digits collected above position [i]. *)
Definition picked (inp : list Z) (i : nat) (l : list Z) : Prop :=
  length l = length inp - i ∧ digits_ok l ∧ ∀ j, j < length l → compressValue l.[j] d = inp.[i + j].

Lemma picked_cons inp i v l : i < length inp → picked inp (S i) l → (0 ≤ v < q)%Z → compressValue v d = inp.[i] →
  picked inp i (v :: l).
Proof.
  intros Hi (Hl & Hd & Hj) Hv Hc. split; [cbn [length]; lia|]. split; [by constructor|].
  intros [|j] Hlt; cbn [nth]; [by rewrite Nat.add_0_r|]. rewrite Nat.add_succ_r. apply Hj. cbn in Hlt. lia.
Qed.

Lemma encodePickedVec_spec fuel inp bits calls0 : Forall (in_word (Z.of_nat d)) inp →
  ∃ o, encodePickedVec entropy fuel t inp bits calls0 = Ok o ∧
    ∀ r calls, o = Some (r, calls) → ∃ l, picked inp 0 l ∧ r = finishVec (qval l) bits.
Proof.
  intros Hinp. unfold encodePickedVec.
  destruct (for_downR_inv (fun i st => ∀ x s, st = Some (x, s) → ∃ l, picked inp i l ∧ x = qval l)
    (length inp) (pickStep entropy fuel t inp) (Some (0%Z, newSampler calls0))) as (st & -> & Hst).
  - intros x s [= <- <-]. exists []. split; [|done]. split; [cbn; lia|]. split; [constructor|cbn; lia].
  - intros i [[x s]|] Hi IH; [|by exists None]. destruct (pickStep_spec fuel inp i x s Hinp) as (o & -> & Ho).
    exists o. split; [done|]. intros x' s'' Eo. destruct (nextLoop _ _ _ _ _) as [[p s']|]; [|congruence].
    destruct Ho as (v & -> & Hv & Hcv). injection Eo as <- <-. destruct (IH x s eq_refl) as (l & Hl & ->).
    exists (v :: l). split; [by apply picked_cons|]. cbn [qval]. lia.
  - cbn [mbind Res_bind]. destruct st as [[x s]|]; (eexists; split; [reflexivity|]); [|by intros].
    intros r calls [= <- <-]. destruct (Hst x s eq_refl) as (l & Hl & ->). by exists l.
Qed.
End Encoder.

Lemma map_nth_list (f : Z → Z) u v : length u = length v → (∀ j, j < length u → f u.[j] = v.[j]) → map f u = v.
Proof.
  intros Hl H. apply list_eq_nth; [by rewrite length_map|]. rewrite length_map. intros j Hj.
  rewrite (nth_indep _ 0%Z (f 0%Z)) by (rewrite length_map; lia). rewrite (map_nth f). by apply H.
Qed.

Lemma profiled_same entropy fuel t inp bits calls0 {A} (stats : option A) :
  match stats with
  | Some _ => encodePickedVecProfiled entropy fuel t inp bits calls0
  | None => encodePickedVec entropy fuel t inp bits calls0
  end = encodePickedVec entropy fuel t inp bits calls0.
Proof. by destruct stats. Qed.

Lemma compress_loop d (u : list Z) m : length u = m →
  for_ 0 m (fun i (o : list Z) => <[i := compressValue u.[i] d]> o) (replicate m 0%Z) = map (fun x => compressValue x d) u.
Proof.
  intros Hl.
  loop_inv (fun i (o : list Z) => length o = m ∧ ∀ j, j < i → o.[j] = compressValue u.[j] d) as H.
  - lia.
  - split; [apply length_replicate|lia].
  - intros i o Hi [Ho IH]. split; [by rewrite length_insert|]. intros j Hj. rewrite nth_insert.
    destruct (decide (i = j)) as [->|]; [by rewrite decide_True by lia|]. rewrite decide_False by lia. apply IH. lia.
  - destruct H as [Ho H]. symmetry. apply map_nth_list; [congruence|]. intros j Hj. symmetry. apply H. lia.
Qed.

Section Ciphers.
Context (c : Kemeleon).
Hypothesis Hc : codec_ok c.
Abbreviation info := (mInfo c).
Abbreviation vb := (vecBytes (mInfo c)).
Abbreviation bits := (vecBits (mInfo c)).

Lemma width_ok : du info ≤ 16 ∧ 0 < du info ∧ vecSize info * du info = 8 * c1Bytes info.
Proof. destruct (proj1 Hc) as [_ _ H _ Hd _ _ _]. lia. Qed.

(** The outcome of [decodeCipher] on every string of the right size: it fails exactly when a spare bit
    of the vector is set. *)
Lemma decodeCipher_spec r tl : buf_ok vb r → buf_ok (c2Bytes info) tl →
  if (le_val r <? 2 ^ Z.of_nat bits)%Z then
    ∃ u, length u = vecSize info ∧ digits_ok u ∧ qval u = le_val r ∧
      decodeCipher c (r ++ tl) = Some (packBits (map (fun x => compressValue x (du info)) u) (du info) ++ tl)
  else decodeCipher c (r ++ tl) = None.
Proof.
  intros Hr Htl. destruct (spare_bits c Hc) as (Hm & H0 & Hv & Hvb).
  assert (Hs : slice (r ++ tl) 0 vb = r).
  { unfold slice. rewrite drop_0. apply take_app_length'. symmetry. exact (proj1 Hr). }
  unfold decodeCipher, codeCipherBytes. rewrite length_app, (proj1 Hr), (proj1 Htl), Nat.eqb_refl, Hs. cbn [negb].
  rewrite Hvb in Hr. destruct (Z.ltb_spec (le_val r) (2 ^ Z.of_nat bits)) as [Hlt|Hge].
  - destruct (decodeVec_spec r bits (vecSize info) H0 Hr Hlt (io_fit _ (proj1 Hc))) as (u & -> & Hlu & Hdu & Hqu).
    exists u. split; [done|]. split; [done|]. split; [done|]. cbn [negb]. rewrite compress_loop by done. f_equal.
    destruct width_ok as (Hd1 & Hd2 & Hd3).
    destruct (packBits_spec (map (fun x => compressValue x (du info)) u) (du info) (c1Bytes info)) as [[Hl1 _] _];
      [rewrite length_map; congruence|done|]. rewrite Hl1.
    assert (Hraw : rawCipherBytes c = c1Bytes info + c2Bytes info) by apply Hc. rewrite Hraw.
    replace (vb + c2Bytes info - vb) with (c2Bytes info) by lia.
    rewrite memcpy_assemble by (rewrite ?length_app, ?(proj1 Hr), ?(proj1 Htl); lia).
    unfold slice. rewrite drop_0, firstn_all2 by lia. f_equal.
    rewrite drop_app_length' by (rewrite (proj1 Hr); lia). apply firstn_all2. rewrite (proj1 Htl). lia.
  - unfold decodeVec. rewrite (proj1 Hr), Nat.eqb_refl. cbn [negb].
    destruct (low_ones (bits mod 8) Hm) as [-> _].
    assert (Hw : in_word 8 r.[(bits + 7) / 8 - 1]) by (apply Forall_nth_Z; [apply Hr|by apply in_word_0]).
    rewrite (proj2 (high_bits _ _ Hw Hm)). apply Nat.eqb_neq in H0 as H0'. rewrite H0'.
    destruct (Z.ltb_spec r.[(bits + 7) / 8 - 1] (2 ^ Z.of_nat (bits mod 8))) as [Hlast|]; [|done].
    apply (value_below bits _ r eq_refl H0 Hr) in Hlast. lia.
Qed.

Lemma decode_encoded entropy uniform fuel cipher stats rng out st rng' :
  buf_ok (rawCipherBytes c) cipher →
  encodeCipherImpl entropy uniform fuel c cipher stats rng = Ok (Some (Some out, st, rng')) →
  buf_ok (codeCipherBytes c) out ∧ decodeCipher c out = Some cipher.
Proof.
  intros Hb. assert (Hraw : rawCipherBytes c = c1Bytes info + c2Bytes info) by apply Hc. rewrite Hraw in Hb.
  destruct (spare_bits c Hc) as (Hm & H0 & Hv & Hvb). destruct width_ok as (Hd1 & Hd2 & Hd3).
  destruct (unpackBits_spec (slice cipher 0 (c1Bytes info)) (du info) (vecSize info) Hd1) as [Hlu Hu].
  unfold encodeCipherImpl. rewrite Hraw, (proj1 Hb), Nat.eqb_refl. cbn [negb throw_if mbind Res_bind]. rewrite profiled_same.
  set (uComp := unpackBits _ _ _) in *.
  assert (Hwu : Forall (in_word (Z.of_nat (du info))) uComp) by (apply Forall_of_nth; intros; apply Hu; lia).
  destruct (encodePickedVec_spec entropy _ _ (proj1 (proj2 Hc)) fuel uComp bits (bufs rng) Hwu) as (o & -> & Ho).
  cbn [mbind Res_bind]. destruct o as [[[r|] calls]|]; [|discriminate|discriminate].
  destruct (Ho _ _ eq_refl) as (l & (Hl & Hdl & Hcl) & Hr). rewrite Nat.sub_0_r, Hlu in Hl.
  rewrite finishVec_spec, <- Hvb in Hr by (done || apply qval_bound, Hdl).
  destruct (Z.ltb_spec (qval l) (2 ^ Z.of_nat bits)) as [Hlt|]; [|discriminate]. injection Hr as ->.
  destruct (rejectZeroEntries _ _ _ _ _) as [[|] draws']; [discriminate|].
  unfold mret, Res_ret. intros [= <- _ _]. rewrite le_bytes_length. unfold codeCipherBytes.
  replace (c1Bytes info + c2Bytes info - c1Bytes info) with (c2Bytes info) by lia.
  rewrite memcpy_assemble by (rewrite ?le_bytes_length, ?(proj1 Hb); lia).
  assert (Hv' : buf_ok vb (le_bytes vb (qval l))) by (split; [apply le_bytes_length|apply le_bytes_ok]).
  assert (Hval : le_val (le_bytes vb (qval l)) = qval l).
  { rewrite le_val_bytes. apply wrap_small. split; [apply qval_bound, Hdl|]. apply Z.lt_le_trans with (2 ^ Z.of_nat bits)%Z; [done|].
    apply Z.pow_le_mono_r; [lia|]. rewrite Hvb. divlia. }
  assert (Hs : slice (le_bytes vb (qval l)) 0 vb = le_bytes vb (qval l)).
  { unfold slice. rewrite drop_0. apply firstn_all2. by rewrite le_bytes_length. }
  assert (Htl : buf_ok (c2Bytes info) (slice cipher (c1Bytes info) (c2Bytes info))).
  { split; [apply slice_length; rewrite (proj1 Hb); lia|]. apply Forall_take, Forall_drop, Hb. }
  rewrite Hs. split.
  - split; [rewrite length_app, (proj1 Hv'), (proj1 Htl); done|]. apply Forall_app. split; [apply Hv'|apply Htl].
  - pose proof (decodeCipher_spec _ _ Hv' Htl) as Hdec. rewrite Hval in Hdec.
    apply Z.ltb_lt in Hlt. rewrite Hlt in Hdec. destruct Hdec as (u & Hlu' & Hdu & Hqu & ->).
    assert (u = l) as -> by (apply qval_inj; [congruence|done|done|exact Hqu]). f_equal.
    assert (E : map (fun x => compressValue x (du info)) l = uComp)
      by (apply map_nth_list; [congruence|intros; by apply Hcl]).
    assert (Hc1 : buf_ok (c1Bytes info) (slice cipher 0 (c1Bytes info))).
    { split; [apply slice_length; rewrite (proj1 Hb); lia|]. apply Forall_take, Forall_drop, Hb. }
    rewrite E. unfold uComp. rewrite (pack_unpackBits _ _ _ _ Hd1 Hd2 Hc1 Hd3).
    unfold slice. rewrite drop_0, (firstn_all2 (n := c2Bytes info)) by (rewrite length_drop, (proj1 Hb); lia).
    apply take_drop.
Qed.
End Ciphers.

(** * Termination of the sampling *)

(** Word [k] of the random stream. *)
Definition wordAt (entropy : nat → list Z) (k : nat) : Z := (entropy (k / bufWords)).[k mod bufWords].

Section Stream.
Context (entropy : nat → list Z).
Hypothesis Hlen : ∀ k, length (entropy k) = bufWords.

(** The sampler is about to read word [k] of the stream. *)
Definition sampler_at (s : WordSampler) (k : nat) : Prop :=
  length (mBuf s) = bufWords ∧
  ((mPos s = bufWords ∧ k = bufWords * calls s) ∨
   (mPos s < bufWords ∧ ∃ c, calls s = S c ∧ mBuf s = entropy c ∧ k = bufWords * c + mPos s)).

Lemma newSampler_at calls0 : sampler_at (newSampler calls0) (bufWords * calls0).
Proof. split; [apply length_replicate|by left]. Qed.

Lemma wordAt_eq c p : p < bufWords → wordAt entropy (bufWords * c + p) = (entropy c).[p].
Proof.
  intros Hp. unfold wordAt. rewrite Nat.mul_comm, Nat.div_add_l, Nat.div_small, Nat.add_0_r by (done || lia).
  by rewrite Nat.add_comm, Nat.Div0.mod_add, Nat.mod_small.
Qed.

Lemma sampler_step c p : p < bufWords → sampler_at (mkWordSampler (entropy c) (S p) (S c)) (S (bufWords * c + p)).
Proof.
  intros Hp. split; cbn [mBuf mPos calls]; [apply Hlen|]. destruct (decide (S p = bufWords)).
  - left. lia.
  - right. split; [lia|]. exists c. split; [done|]. split; [done|lia].
Qed.

Lemma nextWord_at s k : sampler_at s k →
  ∃ s', nextWord entropy s = (wordAt entropy k, s') ∧ sampler_at s' (S k).
Proof.
  intros [Hl [[Hp ->]|[Hp (c & Hc & Hb & ->)]]]; unfold nextWord; rewrite Hl.
  - rewrite Hp, Nat.eqb_refl. cbn [mBuf mPos calls]. eexists. split.
    + rewrite <- (Nat.add_0_r (bufWords * calls s)), wordAt_eq by (unfold bufWords; lia). reflexivity.
    + rewrite <- (Nat.add_0_r (bufWords * calls s)). apply sampler_step. unfold bufWords. lia.
  - destruct (Nat.eqb_spec (mPos s) bufWords); [lia|]. rewrite Hb, Hc. eexists.
    split; [by rewrite wordAt_eq|by apply sampler_step].
Qed.

Lemma nextLoop_returns fuel lim bound s k : sampler_at s k → (∃ j, j < fuel ∧ (lim ≤ wordAt entropy (k + j))%Z) →
  ∃ p s' k', nextLoop entropy fuel lim bound s = Some (p, s') ∧ sampler_at s' k'.
Proof.
  revert s k. induction fuel as [|fuel IH]; intros s k Hs (j & Hj & Hw); [lia|]. cbn [nextLoop].
  destruct (nextWord_at s k Hs) as (s1 & -> & Hs1). destruct (Z.leb_spec lim (wordAt entropy k)).
  - by eexists _, s1, (S k).
  - apply (IH s1 (S k) Hs1). destruct j as [|j]; [rewrite Nat.add_0_r in Hw; lia|].
    exists j. split; [lia|]. by replace (S k + j) with (k + S j) by lia.
Qed.

(** Only the word zero can be rejected: the tables have at most four preimages per value. *)
Lemma lim_small b : (0 < b ≤ 4)%Z → (u32 (- b) mod b ≤ 1)%Z.
Proof. intros Hb. assert (b = 1 ∨ b = 2 ∨ b = 3 ∨ b = 4)%Z as [->|[->|[->| ->]]] by lia; done. Qed.

Lemma encodePickedVec_returns d t fuel inp bits calls0 : table_ok d t → Forall (in_word (Z.of_nat d)) inp →
  (∀ k, ∃ j, j < fuel ∧ (1 ≤ wordAt entropy (k + j))%Z) →
  ∃ r, encodePickedVec entropy fuel t inp bits calls0 = Ok (Some r).
Proof.
  intros Ht Hinp Hw. unfold encodePickedVec.
  destruct (for_downR_inv (fun i st => ∃ x s k, st = Some (x, s) ∧ sampler_at s k)
    (length inp) (pickStep entropy fuel t inp) (Some (0%Z, newSampler calls0))) as (st & -> & Hst).
  - eexists _, _, _. split; [reflexivity|apply newSampler_at].
  - intros i st Hi (x & s & k & -> & Hs). destruct (pickStep_spec entropy d t Ht fuel inp i x s Hinp) as (o & -> & Ho).
    exists o. split; [done|]. pose proof (to_pos _ _ Ht _ (proj1 (lookup_below inp d i Hinp))) as Hc.
    destruct (nextLoop_returns fuel (u32 (- (counts t).[Z.to_nat inp.[i]]) mod (counts t).[Z.to_nat inp.[i]])
      (counts t).[Z.to_nat inp.[i]] s k Hs) as (p & s' & k' & E & Hs').
    { destruct (Hw k) as (j & Hj & Hj1). exists j. split; [exact Hj|]. etransitivity; [apply (lim_small _ Hc)|exact Hj1]. }
    rewrite E in Ho. destruct Ho as (v & -> & _). by eexists _, s', k'.
  - destruct Hst as (x & s & k & -> & _). cbn [mbind Res_bind]. by eexists.
Qed.
End Stream.

(** C16 Decoding undoes encoding: whenever [encodeKey] accepts a public key with reduced coefficients,
    the text it writes has the advertised size and [decodeKey] returns the key, although spare bits
    of the text carry a hash. *)
Theorem key_roundtrip hashByte c key out : codec_ok c → (∀ m, in_word 8 (hashByte m)) → canonical c key →
  encodeKey hashByte c key = Ok (Some out) →
  buf_ok (codeKeyBytes c) out ∧ decodeKey c out = Ok (Some key).
Proof. intros Hc Hh. by apply decode_encode. Qed.

(** Every string of the code size decodes to a canonical public key, and encoding that key gives the
    string back except for its spare bits: a receiver that decodes a uniformly random row never
    fails, which is what makes the masked rows look alike. *)
Theorem decodeKey_total hashByte c data : codec_ok c → (∀ m, in_word 8 (hashByte m)) →
  buf_ok (codeKeyBytes c) data →
  ∃ key, decodeKey c data = Ok (Some key) ∧ canonical c key ∧
    encodeKey hashByte c key = Ok (Some (fillKeyHighBits hashByte c key (clearKeyHighBits c data))).
Proof. intros Hc Hh. by apply decode_total. Qed.

(** [encodeKey] throws on a wrong size only; on a key with reduced coefficients it rejects exactly when
    the base-3329 number of the coefficients needs more bits than the code has. *)
Theorem encodeKey_rejects hashByte c key : codec_ok c →
  (length key ≠ rawKeyBytes c →
     encodeKey hashByte c key = Throw (InvalidArgument "Kemeleon key has unexpected size")) ∧
  (∀ t, buf_ok (rawKeyBytes c) key → unpackPolyBytes (slice key 0 (polyBytes (mInfo c))) = Ok t → digits_ok t →
     encodeKey hashByte c key = Ok None ↔ (2 ^ Z.of_nat (vecBits (mInfo c)) ≤ qval t)%Z).
Proof.
  intros Hc. split.
  - intros Hl. unfold encodeKey. apply Nat.eqb_neq in Hl. by rewrite Hl.
  - intros t Hk Ht Hd. rewrite (encodeKey_spec hashByte c Hc key t Hk Ht Hd).
    destruct (Z.ltb_spec (qval t) (2 ^ Z.of_nat (vecBits (mInfo c)))); split; intros; (congruence || lia).
Qed.

(** The sizes of the codec: 781, 1156 and 1530 bytes for keys, 877, 1252 and 1658 for ciphertexts, in
    the three modes. The key codes of ML-KEM-512 fit the 800-byte rows of the protocol. *)
Theorem code_sizes m :
  (codeKeyBytes (construct m), codeCipherBytes (construct m)) =
    match m with MlKem512 => (781, 877) | MlKem768 => (1156, 1252) | MlKem1024 => (1530, 1658) end.
Proof.
  unfold codeKeyBytes, codeCipherBytes. cbn [construct mInfo]. rewrite makeInfo_values. destruct m; vm_compute; reflexivity.
Qed.

(** C17 Decoding undoes encoding of ciphertexts: whatever preimages the sampler picked, a code the encoder
    accepts has the advertised size and decodes to the ciphertext. *)
Theorem cipher_roundtrip entropy uniform fuel c cipher stats rng out st rng' :
  codec_ok c → buf_ok (rawCipherBytes c) cipher →
  encodeCipherImpl entropy uniform fuel c cipher stats rng = Ok (Some (Some out, st, rng')) →
  buf_ok (codeCipherBytes c) out ∧ decodeCipher c out = Some cipher.
Proof. intros Hc. by apply decode_encoded. Qed.

(** [decodeCipher] on arbitrary bytes: a wrong size is refused; a string of the right size is refused
    exactly when a spare bit of its vector is set, and otherwise gives a ciphertext of the raw size. *)
Theorem decodeCipher_outcome c data : codec_ok c →
  (length data ≠ codeCipherBytes c → decodeCipher c data = None) ∧
  (buf_ok (codeCipherBytes c) data →
    let last := data.[vecBytes (mInfo c) - 1] in
    if (last <? 2 ^ Z.of_nat (vecBits (mInfo c) mod 8))%Z
    then ∃ cipher, decodeCipher c data = Some cipher ∧ buf_ok (rawCipherBytes c) cipher
    else decodeCipher c data = None).
Proof.
  intros Hc. split.
  - intros Hl. unfold decodeCipher. apply Nat.eqb_neq in Hl. by rewrite Hl.
  - intros [Hl Hb] last. destruct (spare_bits c Hc) as (Hm & H0 & Hv & Hvb). unfold codeCipherBytes in Hl.
    assert (Hr : buf_ok (vecBytes (mInfo c)) (take (vecBytes (mInfo c)) data))
      by (split; [rewrite length_take; lia|by apply Forall_take]).
    assert (Htl : buf_ok (c2Bytes (mInfo c)) (drop (vecBytes (mInfo c)) data))
      by (split; [rewrite length_drop; lia|by apply Forall_drop]).
    pose proof (decodeCipher_spec c Hc _ _ Hr Htl) as H. rewrite take_drop in H.
    assert (El : last = (take (vecBytes (mInfo c)) data).[vecBytes (mInfo c) - 1])
      by (unfold last; rewrite !nth_lookup, lookup_take_lt by lia; done).
    pose proof (value_below _ _ _ Hvb H0 Hr) as Hvl. rewrite <- El in Hvl.
    destruct (Z.ltb_spec last (2 ^ Z.of_nat (vecBits (mInfo c) mod 8))) as [Hlt|Hge],
      (Z.ltb_spec (le_val (take (vecBytes (mInfo c)) data)) (2 ^ Z.of_nat (vecBits (mInfo c)))); try tauto; try lia.
    destruct H as (u & Hlu & _ & _ & ->). eexists. split; [reflexivity|].
    destruct (width_ok c Hc) as (_ & Hd & Hsz).
    destruct (packBits_spec (map (fun x => compressValue x (du (mInfo c))) u) (du (mInfo c)) (c1Bytes (mInfo c)))
      as [[Hl1 Hb1] _]; [rewrite length_map; congruence|done|].
    replace (rawCipherBytes c) with (c1Bytes (mInfo c) + c2Bytes (mInfo c)) by (symmetry; apply Hc).
    split; [rewrite length_app, Hl1, (proj1 Htl); done|]. apply Forall_app. split; [done|apply Htl].
Qed.

(** The encoder of ciphertexts throws on a wrong size only, and it terminates: when no [fuel] words
    of the random stream in a row are zero, every call returns. (The rejection sampler draws again
    only on the word 0, because a compressed value has at most four preimages.) *)
Theorem encodeCipher_returns entropy uniform fuel c cipher stats rng : codec_ok c →
  (∀ k, length (entropy k) = bufWords) → (∀ k, ∃ j, j < fuel ∧ (1 ≤ wordAt entropy (k + j))%Z) →
  if length cipher =? rawCipherBytes c
  then ∃ r, encodeCipherImpl entropy uniform fuel c cipher stats rng = Ok (Some r)
  else encodeCipherImpl entropy uniform fuel c cipher stats rng =
    Throw (InvalidArgument "Kemeleon cipher has unexpected size").
Proof.
  intros Hc Hlen Hw. unfold encodeCipherImpl. destruct (Nat.eqb_spec (length cipher) (rawCipherBytes c)); [|done].
  cbn [negb throw_if mbind Res_bind]. rewrite profiled_same.
  destruct (unpackBits_spec (slice cipher 0 (c1Bytes (mInfo c))) (du (mInfo c)) (vecSize (mInfo c)) (proj1 (width_ok c Hc))) as [Hl Hu].
  destruct (encodePickedVec_returns entropy Hlen _ _ fuel (unpackBits (slice cipher 0 (c1Bytes (mInfo c))) (du (mInfo c)) (vecSize (mInfo c)))
    (vecBits (mInfo c)) (bufs rng) (proj1 (proj2 Hc))) as ([[r|] calls] & ->).
  - apply Forall_of_nth. intros i Hi. apply Hu. lia.
  - exact Hw.
  - cbn [mbind Res_bind]. destruct (rejectZeroEntries _ _ _ _ _) as [[|] draws']; by eexists.
  - by eexists.
Qed.

(** * Concrete instances *)

Definition exampleKey : list Z := replicate 3 17%Z ++ replicate 765 0%Z ++ replicate 32 5%Z.
Definition exampleDigits : list Z := replicate 2 273%Z ++ replicate 510 0%Z.
Definition exampleHash (key : list Z) : Z := u8 (foldr Z.add 0 key)%Z.

Lemma exampleKey_ok : canonical (construct MlKem512) exampleKey ∧
  ∃ out, encodeKey exampleHash (construct MlKem512) exampleKey = Ok (Some out).
Proof.
  assert (Hb : buf_ok (rawKeyBytes (construct MlKem512)) exampleKey).
  { split; [reflexivity|]. repeat (apply Forall_app; split); apply Forall_replicate; done. }
  assert (Ht : unpackPolyBytes (slice exampleKey 0 (polyBytes (makeInfo MlKem512))) = Ok exampleDigits).
  { rewrite makeInfo_values. vm_compute. reflexivity. }
  assert (Hd : digits_ok exampleDigits) by (unfold digits_ok; apply Forall_app; split; apply Forall_replicate; unfold q; lia).
  split; [split; [done|]; exists exampleDigits; split; [exact Ht|exact Hd]|].
  rewrite (encodeKey_spec exampleHash (construct MlKem512) (construct_ok _) _ _ Hb Ht Hd).
  assert (E : (qval exampleDigits <? 2 ^ Z.of_nat (vecBits (makeInfo MlKem512)))%Z = true)
    by (rewrite makeInfo_values; vm_compute; reflexivity).
  change (mInfo (construct MlKem512)) with (makeInfo MlKem512). rewrite E. eexists. reflexivity.
Qed.

Lemma exampleHash_byte key : in_word 8 (exampleHash key).
Proof. apply in_word_wrap. lia. Qed.

Lemma key_roundtrip_witness : ∃ out, encodeKey exampleHash (construct MlKem512) exampleKey = Ok (Some out) ∧
  buf_ok (codeKeyBytes (construct MlKem512)) out ∧ decodeKey (construct MlKem512) out = Ok (Some exampleKey).
Proof.
  destruct exampleKey_ok as [Hc [out E]]. exists out. split; [exact E|].
  exact (key_roundtrip exampleHash _ _ out (construct_ok MlKem512) exampleHash_byte Hc E).
Defined.

(** Every field element is a candidate of the sampler: the table lists it, once, with the values of its
    compression. *)
Lemma preimages_complete m : table_full (du (makeInfo m)) (mPreimages (construct m)).
Proof. apply table_full_widths, (io_du _ (makeInfo_ok m)). Qed.

Lemma code_example m : buf_ok (codeKeyBytes (construct m)) (replicate (codeKeyBytes (construct m)) 255%Z).
Proof. split; [apply length_replicate|by apply Forall_replicate]. Qed.

Lemma decodeKey_total_witness : ∃ key,
  decodeKey (construct MlKem768) (replicate (codeKeyBytes (construct MlKem768)) 255%Z) = Ok (Some key) ∧
  canonical (construct MlKem768) key.
Proof.
  destruct (decodeKey_total exampleHash (construct MlKem768) _ (construct_ok _) exampleHash_byte (code_example _))
    as (key & H1 & H2 & _). exists key. split; [exact H1|exact H2].
Defined.

Lemma encodeKey_rejects_witness :
  encodeKey exampleHash (construct MlKem512) [] = Throw (InvalidArgument "Kemeleon key has unexpected size") ∧
  ∃ t, (qval t < 2 ^ Z.of_nat (vecBits (mInfo (construct MlKem512))))%Z.
Proof.
  destruct exampleKey_ok as [[Hb (t & Ht & Hd)] [out E]]. split.
  - apply (encodeKey_rejects exampleHash (construct MlKem512) [] (construct_ok _)). discriminate.
  - exists t. destruct (encodeKey_rejects exampleHash (construct MlKem512) exampleKey (construct_ok _)) as [_ H].
    destruct (Z.lt_ge_cases (qval t) (2 ^ Z.of_nat (vecBits (mInfo (construct MlKem512))))) as [Hlt|Hge]; [exact Hlt|].
    rewrite (proj2 (H t Hb Ht Hd) Hge) in E. discriminate E.
Defined.

(** A codec for short ciphertexts, with one preimage per compressed value. *)
Definition toyTable : PreimageTable :=
  mkPreimageTable (map (fun w => decompressValue (Z.of_nat w) 10) (seq 0 1024)) (map Z.of_nat (seq 0 1024)) (replicate 1024 1%Z).
Definition toyCodec : Kemeleon :=
  mkKemeleon (mkMlKem MlKem512 (mkSizes 38 0 37)) (mkInfo 1 10 1 6 5 32 4 46 6) toyTable.

Lemma toyTable_ok : table_ok 10 toyTable.
Proof.
  assert (Hw : ∀ w, w < Nat.shiftl 1 10 → w < 1024) by (intros w Hw; exact Hw). split.
  - apply length_replicate.
  - intros w Hlt%Hw. cbn [toyTable counts]. rewrite nth_replicate, decide_True by done. lia.
  - intros w k Hlt%Hw Hk. cbn [toyTable counts offsets vals] in *. rewrite nth_replicate, decide_True in Hk by done.
    assert (k = 0%Z) as -> by lia. rewrite (nth_map_seq Z.of_nat) by done. rewrite Nat2Z.id, Nat.add_0_r.
    rewrite (nth_map_seq (fun w => decompressValue (Z.of_nat w) 10)) by done.
    assert (Hb : in_word (Z.of_nat 10) (Z.of_nat w)) by (unfold in_word; change (2 ^ Z.of_nat 10)%Z with 1024%Z; lia).
    split; [by apply decompress_value; [lia|]|by apply compress_decompress; [lia|]].
Qed.

Lemma toyCodec_ok : codec_ok toyCodec.
Proof.
  split; [|split; [exact toyTable_ok|done]].
  split; cbn [toyCodec mInfo polyBytes vecSize du c1Bytes dv c2Bytes vecBytes vecBits]; try done. by left.
Qed.

Definition exampleEntropy (k : nat) : list Z := replicate bufWords 1%Z.
Definition exampleUniform (k : nat) (p : Z) : Z := (p - 1)%Z.
Definition exampleCipher : list Z := map Z.of_nat (seq 1 37).

Definition accepted {A B} (r : Res (option (option A * B * Rng))) : bool :=
  match r with Ok (Some (Some _, _, _)) => true | _ => false end.

Lemma exampleCipher_accepted :
  accepted (encodeCipherImpl exampleEntropy exampleUniform 1 toyCodec exampleCipher None (mkRng 0 0)) = true.
Proof. vm_compute. reflexivity. Qed.

Lemma exampleCipher_ok : buf_ok (rawCipherBytes toyCodec) exampleCipher.
Proof. split; [reflexivity|]. repeat constructor; done. Qed.

Lemma cipher_roundtrip_witness : ∃ out, buf_ok (codeCipherBytes toyCodec) out ∧
  decodeCipher toyCodec out = Some exampleCipher.
Proof.
  pose proof exampleCipher_accepted as H.
  destruct (encodeCipherImpl _ _ _ _ _ _ _) as [[[[[out|] st] rng']|]|] eqn:E; try discriminate H.
  exists out. exact (cipher_roundtrip _ _ _ _ _ _ _ out st rng' toyCodec_ok exampleCipher_ok E).
Defined.

Lemma decodeCipher_outcome_witness : decodeCipher (construct MlKem512) [] = None ∧
  decodeCipher (construct MlKem512) (replicate (codeCipherBytes (construct MlKem512)) 255%Z) = None.
Proof.
  generalize (construct_ok MlKem512). generalize (construct MlKem512). intros c Hc.
  destruct (spare_bits c Hc) as (Hm & H0 & Hv & _). split.
  - apply (proj1 (decodeCipher_outcome c [] Hc)). unfold codeCipherBytes. cbn [length]. lia.
  - pose proof (proj2 (decodeCipher_outcome c (replicate (codeCipherBytes c) 255%Z) Hc)) as H. cbv zeta in H.
    rewrite nth_replicate, decide_True in H by (unfold codeCipherBytes; lia).
    assert (Hp : (2 ^ Z.of_nat (vecBits (mInfo c) mod 8) ≤ 2 ^ 7)%Z) by (apply Z.pow_le_mono_r; lia).
    destruct (Z.ltb_spec 255 (2 ^ Z.of_nat (vecBits (mInfo c) mod 8))); [lia|]. apply H.
    split; [apply length_replicate|by apply Forall_replicate].
Defined.

Lemma encodeCipher_returns_witness : ∃ r,
  encodeCipherImpl exampleEntropy exampleUniform 1 (construct MlKem768)
    (replicate (rawCipherBytes (construct MlKem768)) 7%Z) None (mkRng 0 0) = Ok (Some r).
Proof.
  pose proof (encodeCipher_returns exampleEntropy exampleUniform 1 (construct MlKem768)
    (replicate (rawCipherBytes (construct MlKem768)) 7%Z) None (mkRng 0 0) (construct_ok _)) as H.
  rewrite length_replicate, Nat.eqb_refl in H. apply H.
  - intros k. apply length_replicate.
  - intros k. exists 0. split; [lia|]. unfold wordAt, exampleEntropy. rewrite nth_replicate.
    rewrite decide_True by (apply Nat.mod_upper_bound; discriminate). lia.
Defined.
End Kemeleon.
