(* ===== verification/EcKem.v ===== *)
(** The elliptic-curve KEM: frontend/kem/eckem/raw.h, eckem.h and eckem.cpp.

    The Monocypher calls are parameters: Elligator's map and key pair, X25519, BLAKE2b with a
    16-byte digest (an incremental hash of the concatenated updates) and the comparison of 16 bytes. *)
From S2P Require Import Prelude Words PermApi BitBuf.
Open Scope nat_scope.

Module EcKem.

Definition PointBytes : nat := 32.
Definition SecretBytes : nat := 32.
Definition TagBytes : nat := 16.
Definition PkBytes : nat := PointBytes.
Definition SkBytes : nat := SecretBytes.
Definition CtBytes : nat := PointBytes + TagBytes.
Definition KeySeedBytes : nat := 32.
Definition EncSeedBytes : nat := 32.

Record KeyPair : Type := mkKeyPair { pk : list Z; sk : list Z }.
Record Encap : Type := mkEncap { ct : list Z; tag : list Z }.

(** [kLabel]: the characters of "eckem/tag". *)
Definition kLabel : list Z := [101; 99; 107; 101; 109; 47; 116; 97; 103]%Z.

Section Calls.
Context (elligator_map : list Z → list Z) (elligator_key_pair : list Z → list Z * list Z)
  (x25519 : list Z → list Z → list Z) (blake2b16 : list Z → list Z) (verify16 : list Z → list Z → bool).

Definition map (rep : list Z) : list Z := elligator_map rep.
Definition kdf (shared : list Z) : list Z := blake2b16 (kLabel ++ shared).

Definition keyGen (seed : list Z) : KeyPair :=
  let '(pk, sk) := elligator_key_pair seed in mkKeyPair pk sk.

Definition encap (pk seed : list Z) : Encap :=
  let pkCurve := map pk in
  let '(repR, skR) := elligator_key_pair seed in
  let shared := x25519 skR pkCurve in
  let tag := kdf shared in
  let ct := replicate CtBytes 0%Z in
  let ct := memcpy ct 0 repR 0 (length repR) in
  mkEncap (memcpy ct (length repR) tag 0 TagBytes) tag.

(** The tag that is written out and the result of the comparison. *)
Definition decapTag (sk ct : list Z) : list Z * bool :=
  let rCurve := map (slice ct 0 PointBytes) in
  let shared := x25519 sk rCurve in
  let tag := kdf shared in
  (tag, verify16 tag (slice ct PointBytes TagBytes)).

(** The overload without the tag. *)
Definition decap (sk ct : list Z) : bool := (decapTag sk ct).2.

(** What Monocypher documents of these calls: the sizes of the outputs, that X25519 of matching key
    pairs agrees on both sides, and that the comparison returns 0 on equal buffers only. *)
Record ec_laws : Prop := {
  ec_pair seed : buf_ok KeySeedBytes seed →
    buf_ok PkBytes (elligator_key_pair seed).1 ∧ buf_ok SkBytes (elligator_key_pair seed).2;
  ec_dh a b : buf_ok KeySeedBytes a → buf_ok EncSeedBytes b →
    x25519 (elligator_key_pair a).2 (elligator_map (elligator_key_pair b).1)
    = x25519 (elligator_key_pair b).2 (elligator_map (elligator_key_pair a).1);
  ec_hash m : buf_ok TagBytes (blake2b16 m);
  ec_verify a b : verify16 a b = true ↔ a = b;
}.

Context (Hec : ec_laws).

(** A ciphertext is the representative of the ephemeral key followed by the tag. *)
Lemma encap_parts pk seed : buf_ok EncSeedBytes seed →
  let e := encap pk seed in
  let '(repR, skR) := elligator_key_pair seed in
  ct e = repR ++ tag e ∧ tag e = kdf (x25519 skR (map pk)) ∧ buf_ok CtBytes (ct e) ∧ buf_ok TagBytes (tag e).
Proof.
  intros Hs e. destruct (ec_pair Hec seed Hs) as [Hr Hk]. unfold e, encap.
  destruct (elligator_key_pair seed) as [repR skR]. cbn [fst snd ct tag] in *.
  pose proof (ec_hash Hec (kLabel ++ x25519 skR (map pk))) as Ht. unfold kdf. rewrite (proj1 Hr).
  unfold CtBytes. change PkBytes with PointBytes in *.
  rewrite memcpy_assemble by (rewrite ?(proj1 Hr), ?(proj1 Ht); lia).
  unfold slice. rewrite !drop_0, firstn_all2, firstn_all2 by (rewrite ?(proj1 Hr), ?(proj1 Ht); lia).
  split; [done|]. split; [done|]. split; [|exact Ht].
  split; [rewrite length_app, (proj1 Hr), (proj1 Ht); done|]. apply Forall_app. split; [apply Hr|apply Ht].
Qed.

(** Decapsulation accepts exactly the ciphertexts whose tag is that of their first 32 bytes. *)
Lemma decap_iff sk rep tg : length rep = PointBytes → length tg = TagBytes →
  decap sk (rep ++ tg) = true ↔ tg = kdf (x25519 sk (map rep)).
Proof.
  intros Hr Ht. unfold decap, decapTag. cbn [snd]. rewrite (ec_verify Hec). unfold slice.
  rewrite drop_0, take_app_length', drop_app_length' by done.
  rewrite (firstn_all2 tg) by lia. split; intros H; by symmetry.
Qed.

Lemma decap_encap seed eseed : buf_ok KeySeedBytes seed → buf_ok EncSeedBytes eseed →
  decapTag (sk (keyGen seed)) (ct (encap (pk (keyGen seed)) eseed))
  = (tag (encap (pk (keyGen seed)) eseed), true).
Proof.
  intros Hs He. pose proof (encap_parts (pk (keyGen seed)) eseed He) as H.
  pose proof (ec_dh Hec seed eseed Hs He) as Hdh. destruct (ec_pair Hec eseed He) as [Hr _].
  unfold keyGen in *. destruct (elligator_key_pair seed) as [p s]. cbn [pk sk fst snd] in *.
  destruct (elligator_key_pair eseed) as [repR skR]. cbn [fst snd] in *. cbv zeta in H. destruct H as (Hct & Htag & _ & Ht).
  assert (E : tag (encap p eseed) = kdf (x25519 s (map repR))) by (rewrite Htag; unfold map; by rewrite Hdh).
  rewrite Hct. assert (Hd : decap s (repR ++ tag (encap p eseed)) = true).
  { apply decap_iff; [apply Hr|apply Ht|exact E]. }
  unfold decap in Hd. unfold decapTag in *. cbn [snd] in Hd. rewrite Hd. f_equal.
  unfold slice. rewrite drop_0, take_app_length' by exact (eq_sym (proj1 Hr)). by symmetry.
Qed.
End Calls.

(** A decapsulation with the matching secret key returns the tag of the encapsulation and accepts. With
    any secret key, a 48-byte ciphertext is accepted exactly when its last 16 bytes are the digest
    of the shared secret its first 32 bytes give, so a changed tag is always rejected. *)
Theorem eckem_correct emap epair x25519 blake verify16 : ec_laws emap epair x25519 blake verify16 →
  (∀ seed eseed, buf_ok KeySeedBytes seed → buf_ok EncSeedBytes eseed →
     let kp := keyGen epair seed in
     let e := encap emap epair x25519 blake (pk kp) eseed in
     buf_ok CtBytes (ct e) ∧ decapTag emap x25519 blake verify16 (sk kp) (ct e) = (tag e, true)) ∧
  (∀ s c, length c = CtBytes →
     decap emap x25519 blake verify16 s c = true ↔
     slice c PointBytes TagBytes = kdf blake (x25519 s (emap (slice c 0 PointBytes)))).
Proof.
  intros Hec. split.
  - intros seed eseed Hs He kp e. split; [|by apply decap_encap].
    pose proof (encap_parts _ _ _ _ _ Hec (pk kp) eseed He) as H. fold e in H. cbv zeta in H.
    destruct (epair eseed). apply H.
  - intros s c Hl. unfold CtBytes in Hl.
    assert (E : c = slice c 0 PointBytes ++ slice c PointBytes TagBytes).
    { unfold slice. rewrite drop_0, (firstn_all2 (drop _ _)) by (rewrite length_drop; lia). by rewrite take_drop. }
    rewrite E at 1. apply (decap_iff _ _ _ _ _ Hec); apply slice_length; lia.
Qed.

(** * A concrete instance *)

(** A stand-in for the curve: keys are their seeds and the shared secret is the exclusive or. *)
Definition toyVerify (a b : list Z) : bool := bool_decide (a = b).
Definition toyHash (m : list Z) : list Z := replicate TagBytes (u8 (foldr Z.add 0%Z m)).

Lemma toy_laws : ec_laws (fun r => r) (fun s => (s, s)) xorv toyHash toyVerify.
Proof.
  split.
  - done.
  - intros a b _ _. apply xorv_comm.
  - intros m. split; [apply length_replicate|]. apply Forall_replicate, in_word_wrap. lia.
  - intros a b. unfold toyVerify. apply bool_decide_eq_true.
Qed.

Lemma eckem_correct_witness :
  decapTag (fun r => r) xorv toyHash toyVerify (replicate 32 3%Z)
    (ct (encap (fun r => r) (fun s => (s, s)) xorv toyHash (replicate 32 3%Z) (replicate 32 9%Z)))
  = (tag (encap (fun r => r) (fun s => (s, s)) xorv toyHash (replicate 32 3%Z) (replicate 32 9%Z)), true).
Proof.
  assert (Hb : ∀ x, in_word 8 x → buf_ok 32 (replicate 32 x))
    by (intros; split; [apply length_replicate|by apply Forall_replicate]).
  exact (proj2 (proj1 (eckem_correct _ _ _ _ _ toy_laws) (replicate 32 3%Z) (replicate 32 9%Z)
    (Hb 3%Z ltac:(done)) (Hb 9%Z ltac:(done)))).
Defined.
End EcKem.
