(* ===== verification/Net.v ===== *)
(** The channels of the protocol: frontend/pqpsi/protocols/net.h.

    A byte buffer travels over several channels at once, one piece per channel. A channel of the
    network library is a value of an abstract type with the operations of [Channel]; its laws are
    the behaviour the library documents: messages arrive whole and in order.  BtIo.v proves them of
    the library's own channels. *)
From stdpp Require Import sets.
From S2P Require Import Prelude Words PermApi BitBuf Parallel.
Open Scope nat_scope.

(** One direction of a channel between the parties. [csend] may throw; [crecv c n] waits for the next
    message, which must have the [n] bytes the caller expects. *)
Class Channel (C : Type) : Type := {
  csend : C → list Z → Res C;
  crecv : C → nat → Res (list Z * C);
  cidle : C → Prop;
}.

(** What a channel carries: the length of a message is a positive 32-bit number. *)
Definition msg_ok (m : list Z) : Prop := 0 < length m ∧ (Z.of_nat (length m) < 2 ^ 32)%Z.

(** A message put on an idle channel arrives, and leaves the channel idle; nothing arrives on an idle channel. *)
Class ChannelLaws (C : Type) `{Channel C} : Prop := {
  deliver c m : cidle c → msg_ok m → ∃ c1 c', csend c m = Ok c1 ∧ crecv c1 (length m) = Ok (m, c') ∧ cidle c';
  idle_waits c n : cidle c → is_ok (crecv c n) = false;
}.

Module Net.

Definition blockBytes : nat := 16.

(** The loop of [chunks] over pieces [i], ..., in units of [unit] bytes. *)
Fixpoint pieces (total per unit i use : nat) : list (nat * nat) :=
  match use with
  | O => []
  | S use' =>
      let b := i * per in
      let e := Nat.min total (b + per) in
      if b <? e then (b * unit, (e - b) * unit) :: pieces total per unit (S i) use'
      else pieces total per unit (S i) use'
  end.

(** Offsets and sizes of the pieces of a buffer. *)
Definition chunks (bytes n : nat) : list (nat * nat) :=
  if (bytes =? 0) || (n =? 0) then [] else
  if bytes mod blockBytes =? 0 then
    let blocks := bytes / blockBytes in
    let use := Nat.min n blocks in
    let per := (blocks + use - 1) / use in
    pieces blocks per blockBytes 0 use
  else
    let use := Nat.min n bytes in
    let per := (bytes + use - 1) / use in
    pieces bytes per 1 0 use.

Definition minParallelBytes : nat := 16 * 1024.

Section Transfer.
Context {C : Type} `{Channel C}.

(** [chls] is [ctx.chls[peer]] when [peer] is a known party, with at least one channel. *)
Definition shouldSplit (multiThread : bool) (chls : list C) (bytes : nat) : bool :=
  multiThread && (1 <? length chls) && (minParallelBytes <=? bytes).

(** [eachChunk(n, fn)]: [fn(0)] runs here and the others on threads; [order] is the order in which the
    calls take effect. *)
Definition eachChunk {S : Type} (order : list nat) (fn : nat → S → Res S) (s : S) : Res S :=
  fold_left (fun acc i => acc ≫= fn i) order (Ok s).

Definition nochunk : nat * nat := (0, 0).

(** [ctx.chls[peer][i]->send(...)]; the pieces are at most as many as the channels. *)
Definition sendOn (i : nat) (m : list Z) (chls : list C) : Res (list C) :=
  match chls !! i with Some c => c ← csend c m; mret (<[i := c]> chls) | None => mret chls end.

Definition send (multiThread : bool) (order : list nat) (data : list Z) (chls : list C) : Res (list C) :=
  let bytes := length data in
  if negb (shouldSplit multiThread chls bytes) then sendOn 0 data chls else
  let parts := chunks bytes (length chls) in
  eachChunk order (fun i chls =>
    let part := nth i parts nochunk in
    sendOn i (slice data part.1 part.2) chls) chls.

(** [ctx.chls[peer][i]->recv(data + offset, size)] *)
Definition recvOn (i offset size : nat) (st : list Z * list C) : Res (list Z * list C) :=
  match st.2 !! i with
  | Some c => '(m, c') ← crecv c size; mret (memcpy st.1 offset m 0 size, <[i := c']> st.2)
  | None => mret st
  end.

(** The received bytes, in a buffer of [bytes]. *)
Definition recv (multiThread : bool) (order : list nat) (bytes : nat) (chls : list C) : Res (list Z * list C) :=
  let data := replicate bytes 0%Z in
  if negb (shouldSplit multiThread chls bytes) then recvOn 0 0 bytes (data, chls) else
  let parts := chunks bytes (length chls) in
  eachChunk order (fun i st => let part := nth i parts nochunk in recvOn i part.1 part.2 st) (data, chls).

(** [asyncRecv] posts one job per piece, (channel, offset, size); [wait] gets them in turn. *)
Definition asyncRecv (multiThread : bool) (bytes : nat) (chls : list C) : list (nat * nat * nat) :=
  if negb (shouldSplit multiThread chls bytes) then [(0, 0, bytes)] else
  let parts := chunks bytes (length chls) in
  map (fun i => (i, (nth i parts nochunk).1, (nth i parts nochunk).2)) (seq 0 (length parts)).

Definition wait (jobs : list (nat * nat * nat)) (st : list Z * list C) : Res (list Z * list C) :=
  fold_left (fun acc '(i, offset, size) => acc ≫= recvOn i offset size) jobs (Ok st).
End Transfer.

(** * The pieces partition the buffer *)

(** Consecutive non-empty pieces from [lo] to [hi], all on multiples of [unit]. *)
Inductive tiles (unit : nat) : nat → nat → list (nat * nat) → Prop :=
  | tiles_nil b : tiles unit b b []
  | tiles_cons b k hi ps : 0 < k → tiles unit (b + k * unit) hi ps → tiles unit b hi ((b, k * unit) :: ps).

Lemma pieces_none total per unit i use : total ≤ i * per → pieces total per unit i use = [].
Proof.
  revert i. induction use as [|use IH]; intros i Hi; cbn [pieces]; [done|].
  nat_cmp. apply IH. nia.
Qed.

Lemma pieces_tiles total per unit i use : 0 < per → i * per ≤ total → total ≤ (i + use) * per →
  tiles unit (i * per * unit) (total * unit) (pieces total per unit i use).
Proof.
  intros Hper. revert i. induction use as [|use IH]; intros i Hi Ht; cbn [pieces].
  - replace total with (i * per) by lia. constructor.
  - destruct (Nat.ltb_spec (i * per) (Nat.min total (i * per + per))) as [Hlt|Hge].
    + constructor; [lia|]. destruct (Nat.le_gt_cases (i * per + per) total).
      * rewrite Nat.min_r by lia. replace (i * per * unit + (i * per + per - i * per) * unit) with (S i * per * unit) by nia.
        apply IH; nia.
      * rewrite Nat.min_l, pieces_none by nia.
        replace (i * per * unit + (total - i * per) * unit) with (total * unit) by nia. constructor.
    + assert (total = i * per) as -> by lia. rewrite pieces_none by nia. constructor.
Qed.

Lemma pieces_length total per unit i use : length (pieces total per unit i use) ≤ use.
Proof.
  revert i. induction use as [|use IH]; intros i; cbn [pieces]; [done|].
  specialize (IH (S i)). destruct (_ <? _); cbn [length]; lia.
Qed.

Lemma per_pos t u : 0 < u → u ≤ t → 0 < (t + u - 1) / u ∧ t ≤ u * ((t + u - 1) / u).
Proof. intros. split; [apply chunk_pos; lia|by apply chunk_enough]. Qed.

Lemma chunks_tiles bytes n : 0 < n → 0 < bytes →
  ∃ unit, 0 < unit ∧ (bytes mod blockBytes = 0 → unit = blockBytes) ∧ tiles unit 0 bytes (chunks bytes n) ∧ length (chunks bytes n) ≤ n.
Proof.
  intros Hn Hb. unfold chunks. nat_cmp. destruct (Nat.eqb_spec (bytes mod blockBytes) 0) as [E|E].
  - exists blockBytes. unfold blockBytes in *. split; [lia|]. split; [done|].
    assert (Hbl : bytes = bytes / 16 * 16) by divlia. set (t := bytes / 16) in *.
    destruct (per_pos t (Nat.min n t)) as [H1 H2]; [lia|lia|].
    split; [|etrans; [apply pieces_length|lia]]. rewrite Hbl at 1. apply (pieces_tiles t _ 16 0); [done|lia|cbn [Nat.add]; lia].
  - exists 1. split; [lia|]. split; [done|]. destruct (per_pos bytes (Nat.min n bytes)) as [H1 H2]; [lia|lia|].
    split; [|etrans; [apply pieces_length|lia]]. rewrite <- (Nat.mul_1_r bytes) at 1.
    apply (pieces_tiles bytes _ 1 0); [done|lia|cbn [Nat.add]; lia].
Qed.

Lemma tiles_le unit b hi ps : tiles unit b hi ps → b ≤ hi.
Proof. induction 1; lia. Qed.

Lemma tiles_concat {A} unit b hi ps (data : list A) : tiles unit b hi ps → hi = length data →
  List.concat (map (fun p => slice data p.1 p.2) ps) = drop b data.
Proof.
  induction 1 as [b|b k hi ps Hk Ht IH]; intros Hl; cbn [map List.concat fst snd].
  - by rewrite drop_ge by lia.
  - rewrite IH by done. unfold slice. rewrite <- (take_drop (k * unit) (drop b data)) at 2. by rewrite drop_drop.
Qed.

Lemma tiles_in unit b hi ps p : 0 < unit → tiles unit b hi ps → p ∈ ps → b ≤ p.1 ∧ p.1 + p.2 ≤ hi ∧ 0 < p.2.
Proof.
  intros Hu. induction 1 as [b|b k hi ps Hk Ht IH]; [by intros ?%elem_of_nil|].
  pose proof (tiles_le _ _ _ _ Ht). intros [->|Hp]%elem_of_cons; cbn [fst snd]; [nia|].
  destruct (IH Hp) as (? & ? & ?). lia.
Qed.

(** Pieces at different places do not overlap. *)
Lemma tiles_disjoint unit b hi ps i j p p' : tiles unit b hi ps → i < j → ps !! i = Some p → ps !! j = Some p' →
  0 < unit → p.1 + p.2 ≤ p'.1.
Proof.
  intros Ht. revert i j. induction Ht as [b|b k hi ps Hk Ht IH]; intros i j Hij Hi Hj Hu; [by destruct i|].
  destruct j as [|j]; [lia|]. cbn in Hj. destruct i as [|i]; cbn in Hi.
  - injection Hi as <-. cbn [fst snd]. apply list_elem_of_lookup_2 in Hj.
    by destruct (tiles_in _ _ _ _ _ Hu Ht Hj).
  - eapply (IH i j); try done. lia.
Qed.

(** * A transfer *)

Section Delivery.
Context {C : Type} `{ChannelLaws C}.

Abbreviation piece data parts i := (slice data (nth i parts nochunk).1 (nth i parts nochunk).2).

(** Effects on different channels in any order: every index of [order] once. *)
Definition all_sent (data : list Z) (parts : list (nat * nat)) (order : list nat) (chls chls' : list C) : Prop :=
  length chls' = length chls ∧
  ∀ i c, chls !! i = Some c → ∃ c', chls' !! i = Some c' ∧
    (i ∈ order → csend c (piece data parts i) = Ok c') ∧ (i ∉ order → c' = c).

Lemma sendOn_length i m (chls chls' : list C) : sendOn i m chls = Ok chls' → length chls' = length chls.
Proof.
  unfold sendOn. destruct (chls !! i); [|by intros [= <-]]. intros H1. apply bind_Ok in H1 as (c' & _ & [= <-]). apply length_insert.
Qed.

Lemma send_all data parts order chls : NoDup order → Forall cidle chls →
  (∀ i, i ∈ order → msg_ok (piece data parts i)) →
  ∃ chls', eachChunk order (fun i chls =>
    let part := nth i parts nochunk in sendOn i (slice data part.1 part.2) chls) chls = Ok chls' ∧
    all_sent data parts order chls chls'.
Proof.
  intros Hnd Hid. unfold eachChunk. induction order as [|i order IH] using rev_ind; intros Hok.
  - exists chls. split; [done|]. split; [done|]. intros i c Hc. exists c. split; [done|]. split; [by intros ?%elem_of_nil|done].
  - apply NoDup_app in Hnd as (Hnd & Hdis & _). destruct (IH Hnd) as (chls1 & E & Hl & Hs); [intros j Hj; apply Hok; set_solver|].
    rewrite fold_left_app, E. cbn [fold_left mbind Res_bind].
    assert (Hni : i ∉ order) by (intros Hin; apply (Hdis i Hin), list_elem_of_singleton; done).
    unfold sendOn. destruct (chls1 !! i) as [ci|] eqn:Eci.
    + destruct (lookup_lt_is_Some_2 chls i) as [c0 Hc0]; [rewrite <- Hl; eapply lookup_lt_Some, Eci|].
      destruct (Hs i c0 Hc0) as (c0' & E0 & _ & Hkeep). rewrite Eci in E0. injection E0 as <-. rewrite (Hkeep Hni).
      destruct (deliver c0 (piece data parts i)) as (c1 & _ & Ec1 & _); [by apply (Forall_lookup_1 _ chls i)|apply Hok; set_solver|].
      rewrite Ec1. cbn [mbind Res_bind]. eexists. split; [reflexivity|].
      split; [by rewrite length_insert|]. intros j c Hc. destruct (decide (i = j)) as [<-|Hne].
      * rewrite list_lookup_insert_eq by (eapply lookup_lt_Some, Eci). exists c1. split; [done|].
        split; [intros _; congruence|set_solver].
      * rewrite list_lookup_insert_ne by done. destruct (Hs j c Hc) as (c' & Ec' & H1 & H2). exists c'. split; [done|]. set_solver.
    + eexists. split; [reflexivity|]. split; [done|]. intros j c Hc. destruct (Hs j c Hc) as (c' & Ec' & H1 & H2).
      exists c'. split; [done|]. assert (j ≠ i) by (intros ->; rewrite Ec' in Eci; done). set_solver.
Qed.

(** What a channel carries before its piece is received, and afterwards. *)
Definition in_flight (data : list Z) (parts : list (nat * nat)) (todo done_ : list nat) (st : list Z * list C) : Prop :=
  length st.1 = length data ∧
  (∀ i, i ∈ todo → ∃ c c1, st.2 !! i = Some c1 ∧ cidle c ∧ msg_ok (piece data parts i) ∧ csend c (piece data parts i) = Ok c1) ∧
  (∀ i, i ∈ done_ → slice st.1 (nth i parts nochunk).1 (nth i parts nochunk).2 = piece data parts i) ∧
  (∀ i c, i ∉ todo → st.2 !! i = Some c → cidle c).

Lemma recv_step data parts i todo done_ st unit : 0 < unit → tiles unit 0 (length data) parts → i < length parts →
  i ∉ todo → (∀ j, j ∈ done_ → j < length parts ∧ j ≠ i) → in_flight data parts (i :: todo) done_ st →
  ∃ st', recvOn i (nth i parts nochunk).1 (nth i parts nochunk).2 st = Ok st' ∧ in_flight data parts todo (i :: done_) st'.
Proof.
  intros Hu Ht Hi Hni Hdn (Hl & Htodo & Hdone & Hidle). destruct (Htodo i ltac:(set_solver)) as (c & c1 & Hc & Hci & Hm & Hsend).
  destruct (lookup_lt_is_Some_2 parts i Hi) as [p Hp]. rewrite (nth_lookup_Some _ _ _ _ Hp) in *.
  destruct (tiles_in _ _ _ _ p Hu Ht (list_elem_of_lookup_2 _ _ _ Hp)) as (_ & Hpl & _).
  assert (Hsl : length (slice data p.1 p.2) = p.2) by (by apply slice_length).
  destruct (deliver c (slice data p.1 p.2) Hci Hm) as (c2 & c' & Es & Hd & Hc'). rewrite Hsl in Hd.
  rewrite Hsend in Es. injection Es as <-.
  unfold recvOn. rewrite Hc, Hd. cbn [mbind Res_bind]. eexists. split; [reflexivity|].
  assert (Hil : i < length st.2) by (eapply lookup_lt_Some, Hc).
  split; [cbn [fst]; rewrite memcpy_length by lia; done|]. split; [|split]; cbn [fst snd].
  - intros j Hj. rewrite list_lookup_insert_ne by (intros ->; done). apply Htodo. set_solver.
  - intros j [->|Hj]%elem_of_cons.
    + rewrite (nth_lookup_Some _ _ _ _ Hp). rewrite slice_memcpy_eq by lia.
      unfold slice at 1. rewrite drop_0. apply firstn_all2. lia.
    + destruct (Hdn j Hj) as [Hjl Hji]. destruct (lookup_lt_is_Some_2 parts j Hjl) as [p' Hp'].
      specialize (Hdone j Hj). rewrite (nth_lookup_Some _ _ _ _ Hp') in *. rewrite slice_memcpy_ne; [done|lia|lia|].
      destruct (Nat.lt_ge_cases j i).
      * left. eapply (tiles_disjoint _ _ _ _ j i); eauto.
      * right. eapply (tiles_disjoint _ _ _ _ i j); eauto. lia.
  - intros j cj Hj Hcj. destruct (decide (i = j)) as [<-|Hne].
    + rewrite list_lookup_insert_eq in Hcj by done. injection Hcj as <-. exact Hc'.
    + rewrite list_lookup_insert_ne in Hcj by done. apply (Hidle j cj); [set_solver|exact Hcj].
Qed.

Lemma recv_all data parts unit order done_ st : 0 < unit → tiles unit 0 (length data) parts → NoDup order →
  (∀ i, i ∈ order → i < length parts) → (∀ j, j ∈ done_ → j < length parts ∧ j ∉ order) →
  in_flight data parts order done_ st →
  ∃ st', eachChunk order (fun i st => let part := nth i parts nochunk in recvOn i part.1 part.2 st) st = Ok st' ∧
    in_flight data parts [] (order ++ done_) st'.
Proof.
  intros Hu Ht. unfold eachChunk. revert done_ st.
  induction order as [|i order IH]; intros done_ st Hnd Hlt Hdn Hf; cbn [fold_left].
  - by exists st.
  - apply NoDup_cons in Hnd as [Hni Hnd].
    destruct (recv_step data parts i order done_ st unit Hu Ht (Hlt i ltac:(set_solver)) Hni) as (st1 & E & Hf1).
    { intros j Hj. destruct (Hdn j Hj) as [? Hnj]. split; [done|set_solver]. }
    { exact Hf. }
    cbn [mbind Res_bind] in *. rewrite E.
    destruct (IH (i :: done_) st1 Hnd) as (st' & E' & Hf').
    + intros j Hj. apply Hlt. set_solver.
    + intros j [->|Hj]%elem_of_cons; [split; [apply Hlt; set_solver|done]|]. destruct (Hdn j Hj). split; [done|set_solver].
    + exact Hf1.
    + exists st'. split; [exact E'|]. destruct Hf' as (H1 & H2 & H3 & H4). split; [done|]. split; [done|]. split; [|done].
      intros j Hj. apply H3. set_solver.
Qed.

Lemma received data parts unit order st : tiles unit 0 (length data) parts → order ≡ₚ seq 0 (length parts) →
  in_flight data parts [] (order ++ []) st → st.1 = data ∧ Forall cidle st.2.
Proof.
  intros Ht Ho (Hl & _ & Hd & Hi). split.
  - rewrite <- (drop_0 st.1), <- (drop_0 data), <- (tiles_concat _ _ _ _ st.1 Ht), <- (tiles_concat _ _ _ _ data Ht) by done.
    f_equal. apply map_ext_in. intros p Hp. apply list_elem_of_In, list_elem_of_lookup in Hp as [i Hp].
    specialize (Hd i). rewrite (nth_lookup_Some _ _ _ _ Hp) in Hd. apply Hd. rewrite app_nil_r, Ho. apply elem_of_seq.
    apply lookup_lt_Some in Hp. lia.
  - apply Forall_lookup. intros i c Hc. apply (Hi i c); [apply not_elem_of_nil|exact Hc].
Qed.

Lemma order_facts (order : list nat) n : order ≡ₚ seq 0 n → NoDup order ∧ ∀ i, i ∈ order ↔ i < n.
Proof.
  intros Ho. split; [rewrite Ho; apply NoDup_seq|]. intros i. rewrite Ho, elem_of_seq. lia.
Qed.

Lemma sent_in_flight data parts order chls chls' : Forall cidle chls → length parts ≤ length chls →
  (∀ i, i < length parts → msg_ok (piece data parts i)) →
  order ≡ₚ seq 0 (length parts) → all_sent data parts order chls chls' →
  ∀ order', order' ≡ₚ seq 0 (length parts) → in_flight data parts order' [] (replicate (length data) 0%Z, chls').
Proof.
  intros Hid Hl Hok Ho [Hlc Hs] order' Ho'. destruct (order_facts _ _ Ho) as [_ Hin], (order_facts _ _ Ho') as [_ Hin'].
  split; [apply length_replicate|]. split; [|split; [by intros ? ?%elem_of_nil|]]; cbn [fst snd].
  - intros i Hi. apply Hin' in Hi. destruct (lookup_lt_is_Some_2 chls i ltac:(lia)) as [c Hc].
    destruct (Hs i c Hc) as (c1 & Ec1 & Esend & _). exists c, c1. split; [done|]. split; [by apply (Forall_lookup_1 _ chls i)|].
    split; [by apply Hok|]. by apply Esend, Hin.
  - intros i c Hi Hc. destruct (lookup_lt_is_Some_2 chls i) as [c0 Hc0]; [apply lookup_lt_Some in Hc; lia|].
    destruct (Hs i c0 Hc0) as (c1 & Ec1 & _ & Hkeep). rewrite Ec1 in Hc. injection Hc as ->.
    rewrite Hkeep by (rewrite Hin, <- Hin'; done). by apply (Forall_lookup_1 _ chls i).
Qed.

(** The pieces of a message below 4 GiB are messages. *)
Lemma pieces_ok data parts unit : 0 < unit → tiles unit 0 (length data) parts → (Z.of_nat (length data) < 2 ^ 32)%Z →
  ∀ i, i < length parts → msg_ok (piece data parts i).
Proof.
  intros Hu Ht Hz i Hi. destruct (lookup_lt_is_Some_2 parts i Hi) as [p Hp]. rewrite (nth_lookup_Some _ _ _ _ Hp).
  destruct (tiles_in _ _ _ _ p Hu Ht (list_elem_of_lookup_2 _ _ _ Hp)) as (_ & H1 & H2).
  unfold msg_ok. rewrite slice_length by done. split; [done|lia].
Qed.

Lemma seq_jobs parts (st : list Z * list C) :
  wait (map (fun i => (i, (nth i parts nochunk).1, (nth i parts nochunk).2)) (seq 0 (length parts))) st =
  eachChunk (seq 0 (length parts)) (fun i st => let part := nth i parts nochunk in recvOn i part.1 part.2 st) st.
Proof. unfold eachChunk, wait. generalize (seq 0 (length parts)) as l, (Ok st) as a. induction l as [|i l IH]; intros a; cbn; auto. Qed.

Lemma split_parts mt (chls : list C) bytes : shouldSplit mt chls bytes = true →
  ∃ unit, 0 < unit ∧ tiles unit 0 bytes (chunks bytes (length chls)) ∧ length (chunks bytes (length chls)) ≤ length chls.
Proof.
  unfold shouldSplit. rewrite !andb_true_iff, Nat.ltb_lt, Nat.leb_le. intros [[_ Hc] Hb].
  destruct (chunks_tiles bytes (length chls)) as (u & Hu & _ & Ht & Hl); [lia|unfold minParallelBytes in Hb; lia|].
  by exists u.
Qed.

Lemma single_transfer data (chls : list C) : 0 < length chls → Forall cidle chls → msg_ok data →
  ∃ sent, sendOn 0 data chls = Ok sent ∧ ∃ chls', recvOn 0 0 (length data) (replicate (length data) 0%Z, sent) = Ok (data, chls') ∧
    Forall cidle chls'.
Proof.
  intros Hc Hid Hm. destruct chls as [|c chls]; [cbn in Hc; lia|]. unfold sendOn. cbn [lookup list_lookup].
  destruct (deliver c data) as (c1 & c' & Es & Hd & Hc'); [by inversion Hid|done|]. rewrite Es. cbn [mbind Res_bind].
  eexists. split; [reflexivity|]. unfold recvOn. cbn. rewrite Hd. cbn [mbind Res_bind]. eexists. split.
  - unfold mret, Res_ret. do 2 f_equal. unfold memcpy. cbn [Nat.add]. rewrite take_0, drop_0, drop_ge by (rewrite length_replicate; done).
    rewrite firstn_all2 by lia. cbn [app]. by rewrite app_nil_r.
  - constructor; [exact Hc'|by inversion Hid].
Qed.
End Delivery.

(** The pieces of a buffer are consecutive and non-empty, there are at most as many as channels, they
    put the buffer together again, and when it consists of whole blocks no block is torn. *)
Theorem chunks_partition {A} (data : list A) n : 0 < n →
  let ps := chunks (length data) n in
  length ps ≤ n ∧ List.concat (map (fun p => slice data p.1 p.2) ps) = data ∧
  Forall (fun p => 0 < p.2 ∧ p.1 + p.2 ≤ length data) ps ∧
  (length data mod blockBytes = 0 → Forall (fun p => p.1 mod blockBytes = 0 ∧ p.2 mod blockBytes = 0) ps).
Proof.
  intros Hn ps. destruct (decide (length data = 0)) as [E|E].
  - unfold ps. rewrite E. cbn. destruct data; [|done]. split; [lia|done].
  - destruct (chunks_tiles (length data) n Hn) as (u & Hu & Hub & Ht & Hl); [lia|]. fold ps in Ht, Hl.
    split; [done|]. split; [by rewrite (tiles_concat _ _ _ _ _ Ht), drop_0|]. split.
    + apply Forall_forall. intros p Hp. destruct (tiles_in _ _ _ _ p Hu Ht Hp) as (_ & H1 & H2). done.
    + intros Hm. specialize (Hub Hm). clear -Ht Hub. subst u.
      assert (H : ∀ b, b mod blockBytes = 0 → tiles blockBytes b (length data) ps →
        Forall (fun p => p.1 mod blockBytes = 0 ∧ p.2 mod blockBytes = 0) ps).
      { clear. intros b Hb Ht. induction Ht as [b|b k hi ps Hk Ht IH]; [constructor|]. unfold blockBytes in *. constructor.
        - cbn [fst snd]. split; [done|]. apply Nat.Div0.mod_mul.
        - apply IH. rewrite Nat.Div0.mod_add. done. }
      by apply (H 0).
Qed.

(** A transfer by [recv] or by [asyncRecv] and [wait], with any order of the threads. *)
Lemma transfer {C} `{ChannelLaws C} mt (chls : list C) data so ro :
  0 < length chls → Forall cidle chls → msg_ok data →
  so ≡ₚ seq 0 (length (chunks (length data) (length chls))) →
  ro ≡ₚ seq 0 (length (chunks (length data) (length chls))) →
  ∃ sent, send mt so data chls = Ok sent ∧ length sent = length chls ∧
    (∃ chls', recv mt ro (length data) sent = Ok (data, chls') ∧ Forall cidle chls') ∧
    (∃ chls', wait (asyncRecv mt (length data) sent) (replicate (length data) 0%Z, sent) = Ok (data, chls') ∧
       Forall cidle chls').
Proof.
  intros Hc Hid Hm Hso Hro. unfold send, recv, asyncRecv. destruct (shouldSplit mt chls (length data)) eqn:E; cbn [negb].
  - destruct (split_parts _ _ _ E) as (u & Hu & Ht & Hl).
    pose proof (pieces_ok data _ u Hu Ht (proj2 Hm)) as Hok. destruct (order_facts _ _ Hso) as [Hndso Hinso].
    destruct (send_all data (chunks (length data) (length chls)) so chls Hndso Hid) as (sent & Es & Hs); [intros i Hi; by apply Hok, Hinso|].
    pose proof (sent_in_flight _ _ _ _ _ Hid Hl Hok Hso Hs) as Hf. destruct Hs as [Hlen _].
    assert (Hsplit : shouldSplit mt sent (length data) = true) by (unfold shouldSplit in *; by rewrite Hlen).
    exists sent. split; [exact Es|]. split; [exact Hlen|]. rewrite Hsplit. cbn [negb]. rewrite Hlen, seq_jobs.
    assert (Hrecv : ∀ order, order ≡ₚ seq 0 (length (chunks (length data) (length chls))) →
      ∃ chls', eachChunk order (fun i (st : list Z * list C) =>
        let part := nth i (chunks (length data) (length chls)) nochunk in recvOn i part.1 part.2 st)
        (replicate (length data) 0%Z, sent) = Ok (data, chls') ∧ Forall cidle chls').
    { intros order Ho. destruct (order_facts _ _ Ho) as [Hnd Hin].
      destruct (recv_all data _ u order [] (replicate (length data) 0%Z, sent) Hu Ht Hnd) as ([d chls'] & Er & Hf').
      - intros i. apply Hin.
      - by intros j ?%elem_of_nil.
      - by apply Hf.
      - destruct (received data _ u order _ Ht Ho Hf') as [Hd Hidle]. cbn in Hd, Hidle. subst d. by exists chls'. }
    split; [by apply Hrecv|]. by apply Hrecv.
  - destruct (single_transfer data chls Hc Hid Hm) as (sent & Es & chls' & Er & Hi').
    exists sent. split; [exact Es|]. pose proof (sendOn_length _ _ _ _ Es) as Hlen.
    assert (Hsplit : shouldSplit mt sent (length data) = false) by (unfold shouldSplit in *; by rewrite Hlen).
    split; [exact Hlen|]. rewrite Hsplit. cbn [negb wait fold_left mbind Res_bind]. split; by exists chls'.
Qed.

(** [wait] does not end before something was sent. *)
Lemma wait_idle {C} `{ChannelLaws C} mt bytes data (chls : list C) : 0 < length chls → Forall cidle chls →
  is_ok (wait (asyncRecv mt bytes chls) (data, chls)) = false.
Proof.
  intros Hl Hi. assert (Hjob : ∃ offset size jobs, asyncRecv mt bytes chls = (0, offset, size) :: jobs).
  { unfold asyncRecv. destruct (shouldSplit mt chls bytes) eqn:E; cbn [negb]; [|by repeat eexists].
    destruct (split_parts _ _ _ E) as (u & Hu & Ht & _). destruct (chunks bytes (length chls)) as [|p ps]; [|by repeat eexists].
    unfold shouldSplit, minParallelBytes in E. rewrite !andb_true_iff, Nat.leb_le in E. exfalso.
    destruct E as [_ E]. inversion Ht as [b E1 E2|]. lia. }
  destruct Hjob as (offset & size & jobs & ->). unfold wait. cbn [fold_left].
  assert (Hfirst : is_ok (Ok (data, chls) ≫= recvOn 0 offset size) = false).
  { destruct chls as [|c chls]; [cbn in Hl; lia|]. unfold recvOn. cbn [mbind Res_bind snd lookup list_lookup].
    pose proof (idle_waits c size ltac:(by inversion Hi)) as Hw. by destruct (crecv c size). }
  destruct (Ok (data, chls) ≫= recvOn 0 offset size) as [|e]; [done|]. clear.
  induction jobs as [|[[i o] z] jobs IH]; [done|exact IH].
Qed.

Lemma send_length {C} `{Channel C} mt order data (chls sent : list C) :
  send mt order data chls = Ok sent → length sent = length chls.
Proof.
  unfold send. destruct (negb _); [apply sendOn_length|]. unfold eachChunk.
  generalize (chunks (length data) (length chls)) as parts. intros parts.
  revert sent. induction order as [|i order IH] using rev_ind; intros sent; [by intros [= <-]|].
  rewrite fold_left_app. cbn [fold_left]. intros E. apply bind_Ok in E as (l & El & E). apply sendOn_length in E.
  rewrite E. by apply IH.
Qed.

(** The posted jobs depend on the number of channels only. *)
Lemma asyncRecv_length {C} `{Channel C} mt bytes (chls chls' : list C) : length chls = length chls' →
  asyncRecv mt bytes chls = asyncRecv mt bytes chls'.
Proof. intros Hl. unfold asyncRecv, shouldSplit. by rewrite Hl. Qed.

(** C10 A buffer of at least a byte and below 4 GiB sent over the channels arrives unchanged, in one message or in pieces, in whatever order the
    sending and the receiving threads run, also through the jobs of [asyncRecv]; the channels are
    idle again afterwards, so that transfers compose. Both sides must agree on threading and
    channels. *)
Theorem net_transfer {C} `{ChannelLaws C} mt (chls : list C) data so ro :
  0 < length chls → Forall cidle chls → msg_ok data →
  so ≡ₚ seq 0 (length (chunks (length data) (length chls))) →
  ro ≡ₚ seq 0 (length (chunks (length data) (length chls))) →
  ∃ sent, send mt so data chls = Ok sent ∧
    (∃ chls', recv mt ro (length data) sent = Ok (data, chls') ∧ Forall cidle chls') ∧
    (∃ chls', wait (asyncRecv mt (length data) sent) (replicate (length data) 0%Z, sent) = Ok (data, chls') ∧
       Forall cidle chls').
Proof.
  intros Hc Hid Hm Hso Hro. destruct (transfer mt chls data so ro Hc Hid Hm Hso Hro) as (sent & Es & _ & Hr). by exists sent.
Qed.

(** * A concrete instance: a queue of messages *)

#[export] Instance queue_channel : Channel (list (list Z)) := {|
  csend c m := Ok (c ++ [m]);
  crecv c n := match c with
    | m :: c' => if length m =? n then Ok (m, c') else Throw (RuntimeError "receive buffer size")
    | [] => Throw (RuntimeError "nothing to receive")
    end;
  cidle c := c = [];
|}.

#[export] Instance queue_laws : ChannelLaws (list (list Z)).
Proof. split; [intros c m -> _; exists [m]; cbn; rewrite Nat.eqb_refl; by exists []|by intros c n ->]. Qed.

Lemma chunks_partition_witness : chunks (length (replicate 100 1%Z)) 3 = [(0, 34); (34, 34); (68, 32)] ∧
  List.concat (map (fun p => slice (replicate 100 1%Z) p.1 p.2) (chunks (length (replicate 100 1%Z)) 3)) = replicate 100 1%Z.
Proof.
  split; [reflexivity|].
  exact (proj1 (proj2 (chunks_partition (replicate 100 1%Z) 3 ltac:(lia)))).
Defined.

Lemma net_transfer_witness :
  ∃ sent, send true [1; 0] (replicate 20000 7%Z) [[]; []] = Ok sent ∧
    ∃ chls', recv true [0; 1] 20000 sent = Ok (replicate 20000 7%Z, chls').
Proof.
  assert (Hl : length (replicate 20000 7%Z) = 20000) by apply length_replicate.
  assert (Hp : length (chunks 20000 2) = 2) by (vm_compute; reflexivity).
  destruct (net_transfer true [[]; []] (replicate 20000 7%Z) [1; 0] [0; 1]) as (sent & Es & (chls' & Er & _) & _).
  - cbn. lia.
  - repeat constructor.
  - split; rewrite Hl; [by apply Nat.ltb_lt|by apply Z.ltb_lt].
  - rewrite Hl. change (length (A := list (list Z)) [[]; []]) with 2. rewrite Hp. apply Permutation_swap.
  - rewrite Hl. change (length (A := list (list Z)) [[]; []]) with 2. rewrite Hp. reflexivity.
  - exists sent. split; [exact Es|]. rewrite Hl in Er. by exists chls'.
Defined.
End Net.
