(* ===== verification/BtIo.v ===== *)
(** The channels of cryptoTools: the operations on a socket (Network/BtSocket.h, BtIOService.cpp) and the calls of a channel
    (BtChannel.cpp).  A message travels as a 4-byte length and its bytes over a TCP stream, which may cut the bytes
    anywhere.  The two directions of a connection do not meet: each is the send half of one socket,
    the bytes on the wire, and the receive half of the other; the handlers of a half run one at a
    time (they are on a strand), and the steps of both halves interleave freely. *)
From stdpp Require Import relations.
From S2P Require Import Prelude Words PermApi BitBuf Parallel Net.
Open Scope nat_scope.

Module BtIo.

(** * Operations *)

Inductive OpType : Type := RecvName | RecvData | CloseRecv | SendData | CloseSend | CloseThread.

#[export] Instance OpType_eq_dec : EqDecision OpType.
Proof. solve_decision. Defined.

(** [mBuff] is [mBuffs[1]], the bytes to send or the bytes of the buffer to fill; [mBuffs[0]] is always the
    four bytes of [mSize].  [mOther] says whether a resizable [ChannelBuffer] is attached. A promise is
    a number. *)
Record BoostIOOperation : Type := mkOp {
  mType : OpType;
  mSize : Z;
  mBuff : list Z;
  mOther : bool;
  mPromise : option nat;
}.

(** [clear] *)
Definition op_clear : BoostIOOperation := mkOp RecvName 0 [] false None.

(** * Halves of a socket *)

(** The send queue: idle, writing the front operation with these bytes left, or written and not yet popped. *)
Inductive SendPhase : Type := SIdle | SWriting (rest : list Z) | SWritten.

(** The receive queue: idle, reading the length of the front operation, reading [n] bytes, read and not yet popped,
    or given up. *)
Inductive RecvPhase : Type := RIdle | RHeader | RBody (n : nat) | RRead | RStuck.

(** What a promise is given.  [NullException] is [set_exception] with the empty [std::current_exception()]. *)
Inductive Outcome : Type := Value (data : list Z) | NullException.

(** [s_posts]: operations given to the strand whose handler did not run yet; [s_done]: the promises fulfilled so far. *)
Record SendHalf : Type := mkSend {
  s_posts : list BoostIOOperation;
  mSendQueue : list BoostIOOperation;
  s_phase : SendPhase;
  mOutstandingSendData : Z;
  mMaxOutstandingSendData : Z;
  mTotalSentData : Z;
  s_done : list (option nat);
}.

Record RecvHalf : Type := mkRecv {
  r_posts : list BoostIOOperation;
  mRecvQueue : list BoostIOOperation;
  r_phase : RecvPhase;
  mTotalRecvData : Z;
  r_done : list (option nat * Outcome);
}.

Record BtSocket : Type := mkSocket { sendHalf : SendHalf; recvHalf : RecvHalf; mStopped : bool }.

Definition BtSocket_new : BtSocket := mkSocket (mkSend [] [] SIdle 0 0 0 []) (mkRecv [] [] RIdle 0 []) false.

Definition rt_error : exn := RuntimeError "rt error at ".

(** * BtIOService *)

(** The bytes of an operation on the wire. *)
Definition frame (op : BoostIOOperation) : list Z :=
  match mType op with SendData => le_bytes 4 (mSize op) ++ mBuff op | _ => [] end.

(** [sendOne]: starts the front operation. *)
Definition sendOne (s : SendHalf) : Res SendHalf :=
  match mSendQueue s with
  | [] => Throw rt_error
  | op :: queue =>
      match mType op with
      | SendData => mret (mkSend (s_posts s) (mSendQueue s) (SWriting (frame op)) (mOutstandingSendData s)
          (mMaxOutstandingSendData s) (mTotalSentData s) (s_done s))
      | CloseSend => mret (mkSend (s_posts s) queue SIdle (mOutstandingSendData s)
          (mMaxOutstandingSendData s) (mTotalSentData s) (s_done s ++ [mPromise op]))
      | _ => Throw rt_error
      end
  end.

(** The handler that [dispatch] posts for a send. *)
Definition enqueueSend (s : SendHalf) (op : BoostIOOperation) (posts : list BoostIOOperation) : Res SendHalf :=
  let queue := mSendQueue s ++ [op] in
  let total := u64 (mTotalSentData s + mSize op) in
  let out := u64 (mOutstandingSendData s + mSize op) in
  let s := mkSend posts queue (s_phase s) out (Z.max out (mMaxOutstandingSendData s)) total (s_done s) in
  if length queue =? 1 then sendOne s else mret s.

(** The completion handler of [async_write] up to the dispatch of the pop. *)
Definition writeDone (s : SendHalf) : Res SendHalf :=
  match mSendQueue s with
  | [] => Throw rt_error
  | op :: _ => mret (mkSend (s_posts s) (mSendQueue s) SWritten (u64 (mOutstandingSendData s - mSize op))
      (mMaxOutstandingSendData s) (mTotalSentData s) (s_done s ++ [mPromise op]))
  end.

Definition popSend (s : SendHalf) : Res SendHalf :=
  let s := mkSend (s_posts s) (tail (mSendQueue s)) SIdle (mOutstandingSendData s) (mMaxOutstandingSendData s)
    (mTotalSentData s) (s_done s) in
  if length (mSendQueue s) =? 0 then mret s else sendOne s.

(** [receiveOne]: starts the front operation. *)
Definition receiveOne (r : RecvHalf) : Res RecvHalf :=
  match mRecvQueue r with
  | [] => Throw rt_error
  | op :: queue =>
      match mType op with
      | RecvData => mret (mkRecv (r_posts r) (mRecvQueue r) RHeader (mTotalRecvData r) (r_done r))
      | CloseRecv => mret (mkRecv (r_posts r) queue RIdle (mTotalRecvData r) (r_done r ++ [(mPromise op, Value [])]))
      | _ => Throw rt_error
      end
  end.

Definition enqueueRecv (r : RecvHalf) (op : BoostIOOperation) (posts : list BoostIOOperation) : Res RecvHalf :=
  let total := u64 (mTotalRecvData r + mSize op) in
  let queue := mRecvQueue r ++ [op] in
  let r := mkRecv posts queue (r_phase r) total (r_done r) in
  if length queue =? 1 then receiveOne r else mret r.

(** The completion handler of the first [async_read]: [size] is the length received.  The promise gets
    [std::current_exception()], which is empty here, and nothing is popped. *)
Definition headerRead (r : RecvHalf) (size : Z) : Res RecvHalf :=
  match mRecvQueue r with
  | [] => Throw rt_error
  | op :: _ =>
      if mOther op then mret (mkRecv (r_posts r) (mRecvQueue r) (RBody (Z.to_nat size)) (mTotalRecvData r) (r_done r)) else
      if negb (Z.of_nat (length (mBuff op)) =? size)%Z then
        mret (mkRecv (r_posts r) (mRecvQueue r) RStuck (mTotalRecvData r) (r_done r ++ [(mPromise op, NullException)]))
      else mret (mkRecv (r_posts r) (mRecvQueue r) (RBody (length (mBuff op))) (mTotalRecvData r) (r_done r))
  end.

(** The completion handler of the second [async_read] with the bytes received. *)
Definition bodyRead (r : RecvHalf) (data : list Z) : Res RecvHalf :=
  match mRecvQueue r with
  | [] => Throw rt_error
  | op :: _ => mret (mkRecv (r_posts r) (mRecvQueue r) RRead (mTotalRecvData r) (r_done r ++ [(mPromise op, Value data)]))
  end.

Definition popRecv (r : RecvHalf) : Res RecvHalf :=
  let r := mkRecv (r_posts r) (tail (mRecvQueue r)) RIdle (mTotalRecvData r) (r_done r) in
  if length (mRecvQueue r) =? 0 then mret r else receiveOne r.

(** [dispatch]: the operation is posted to its strand. *)
Definition dispatch (sock : BtSocket) (op : BoostIOOperation) : Res BtSocket :=
  let s := sendHalf sock in let r := recvHalf sock in
  let postRecv := mkSocket s (mkRecv (r_posts r ++ [op]) (mRecvQueue r) (r_phase r) (mTotalRecvData r) (r_done r)) (mStopped sock) in
  let postSend := mkSocket (mkSend (s_posts s ++ [op]) (mSendQueue s) (s_phase s) (mOutstandingSendData s)
    (mMaxOutstandingSendData s) (mTotalSentData s) (s_done s)) r (mStopped sock) in
  match mType op with
  | RecvData => throw_if (negb (mOther op) && (mSize op =? 0)%Z) rt_error ;; mret postRecv
  | CloseRecv => mret postRecv
  | SendData => throw_if (mSize op =? 0)%Z rt_error ;; mret postSend
  | CloseSend => mret postSend
  | _ => Throw (RuntimeError "unknown BoostIOOperation::Type")
  end.

(** * BtChannel *)

(** The operations of [send] and [asyncSend], [asyncRecv] and [close]; sizes are cut to 32 bits. *)
Definition sendOp (data : list Z) (promise : option nat) : BoostIOOperation :=
  let size := u32 (Z.of_nat (length data)) in mkOp SendData size (take (Z.to_nat size) data) false promise.
Definition recvOp (dest : list Z) (promise : nat) : BoostIOOperation :=
  let size := u32 (Z.of_nat (length dest)) in mkOp RecvData size (take (Z.to_nat size) dest) false (Some promise).
(** [asyncRecv] into a resizable buffer. *)
Definition recvBufOp (promise : nat) : BoostIOOperation := mkOp RecvData 0 [] true (Some promise).
Definition closeSendOp (promise : nat) : BoostIOOperation := mkOp CloseSend 0 [] false (Some promise).
Definition closeRecvOp (promise : nat) : BoostIOOperation := mkOp CloseRecv 0 [] false (Some promise).

(** The calls, up to the wait on the promise. *)
Definition asyncSend (sock : BtSocket) (data : list Z) (promise : option nat) : Res BtSocket :=
  throw_if (mStopped sock) rt_error ;; dispatch sock (sendOp data promise).
Definition asyncRecv (sock : BtSocket) (dest : list Z) (promise : nat) : Res BtSocket :=
  throw_if (mStopped sock) rt_error ;; dispatch sock (recvOp dest promise).
Definition asyncRecvBuf (sock : BtSocket) (promise : nat) : Res BtSocket :=
  throw_if (mStopped sock) rt_error ;; dispatch sock (recvBufOp promise).

Definition close (sock : BtSocket) (recvPromise sendPromise : nat) : Res BtSocket :=
  let sock := mkSocket (sendHalf sock) (recvHalf sock) true in
  sock ← dispatch sock (closeRecvOp recvPromise);
  dispatch sock (closeSendOp sendPromise).

(** * One direction of a connection *)

Record Pipe : Type := mkPipe { p_send : SendHalf; p_wire : list Z; p_recv : RecvHalf }.

Inductive pipe_step : Pipe → Pipe → Prop :=
  | run_send_post s s' w r op posts : s_posts s = op :: posts → enqueueSend s op posts = Ok s' →
      pipe_step (mkPipe s w r) (mkPipe s' w r)
  | write_some s w r rest k : s_phase s = SWriting rest → 0 < k ≤ length rest →
      pipe_step (mkPipe s w r)
        (mkPipe (mkSend (s_posts s) (mSendQueue s) (SWriting (drop k rest)) (mOutstandingSendData s)
          (mMaxOutstandingSendData s) (mTotalSentData s) (s_done s)) (w ++ take k rest) r)
  | write_done s s' w r : s_phase s = SWriting [] → writeDone s = Ok s' →
      pipe_step (mkPipe s w r) (mkPipe s' w r)
  | send_pop s s' w r : s_phase s = SWritten → popSend s = Ok s' →
      pipe_step (mkPipe s w r) (mkPipe s' w r)
  | run_recv_post s w r r' op posts : r_posts r = op :: posts → enqueueRecv r op posts = Ok r' →
      pipe_step (mkPipe s w r) (mkPipe s w r')
  | read_header s w r r' : r_phase r = RHeader → 4 ≤ length w → headerRead r (le_val (take 4 w)) = Ok r' →
      pipe_step (mkPipe s w r) (mkPipe s (drop 4 w) r')
  | read_body s w r r' n : r_phase r = RBody n → n ≤ length w → bodyRead r (take n w) = Ok r' →
      pipe_step (mkPipe s w r) (mkPipe s (drop n w) r')
  | recv_pop s w r r' : r_phase r = RRead → popRecv r = Ok r' →
      pipe_step (mkPipe s w r) (mkPipe s w r').

(** Two quiet halves to which [sops] and [rops] were dispatched. *)
Definition pipe_start (sops rops : list BoostIOOperation) : Pipe :=
  mkPipe (mkSend sops [] SIdle 0 0 0 []) [] (mkRecv rops [] RIdle 0 []).

(** * The send half *)

Abbreviation frames l := (concat (map frame l)).

(** Sends, and at most one [CloseSend] at the end. *)
Definition send_ops (sops : list BoostIOOperation) : Prop :=
  ∀ a op b, sops = a ++ op :: b → (mType op = SendData ∧ mSize op = Z.of_nat (length (mBuff op)) ∧ in_word 32 (mSize op)) ∨
    (mType op = CloseSend ∧ b = []).

Section Send.
Context (sops : list BoostIOOperation) (Hops : send_ops sops).

(** What is still to be written. *)
Definition unsent (s : SendHalf) : list Z :=
  match s_phase s with
  | SIdle => frames (mSendQueue s)
  | SWriting rest => rest ++ frames (tail (mSendQueue s))
  | SWritten => frames (tail (mSendQueue s))
  end ++ frames (s_posts s).

Definition send_ok (s : SendHalf) : Prop :=
  ∃ sp, sops = sp ++ mSendQueue s ++ s_posts s ∧
  match s_phase s with
  | SIdle => mSendQueue s = [] ∧ s_done s = map mPromise sp
  | SWriting _ => mSendQueue s ≠ [] ∧ s_done s = map mPromise sp
  | SWritten => mSendQueue s ≠ [] ∧ s_done s = map mPromise (sp ++ take 1 (mSendQueue s))
  end.

(** Steps that the send half may still make. *)
Definition op_cost (op : BoostIOOperation) : nat := length (frame op) + 2.
Definition send_cost (s : SendHalf) : nat :=
  match s_phase s with
  | SIdle => 0
  | SWriting rest => length rest + 2 + sum_list_with op_cost (tail (mSendQueue s))
  | SWritten => 1 + sum_list_with op_cost (tail (mSendQueue s))
  end + sum_list_with (fun op => S (op_cost op)) (s_posts s).

Lemma sendOne_ok s sp : sops = sp ++ mSendQueue s ++ s_posts s → mSendQueue s ≠ [] → s_done s = map mPromise sp →
  ∃ s', sendOne s = Ok s' ∧ send_ok s' ∧ unsent s' = frames (mSendQueue s) ++ frames (s_posts s) ∧
    send_cost s' ≤ sum_list_with op_cost (mSendQueue s) + sum_list_with (fun op => S (op_cost op)) (s_posts s).
Proof.
  destruct s as [posts queue ph out mx tot dn]. cbn [mSendQueue s_posts s_done]. intros E Hq Hd.
  destruct queue as [|op queue]; [done|]. unfold sendOne. cbn [mSendQueue].
  destruct (Hops sp op (queue ++ posts)) as [(Ht & _)|[Ht Hb]]; [exact E| |]; rewrite Ht; cbn [mbind Res_bind];
    (eexists; split; [reflexivity|]); unfold send_ok, unsent, send_cost; cbn [s_phase mSendQueue s_posts s_done tail].
  - split; [exists sp; split; [exact E|by split]|]. cbn [map concat sum_list_with]. split; [done|].
    change (op_cost op) with (length (frame op) + 2). lia.
  - apply app_eq_nil in Hb as [-> ->]. assert (Hf : frame op = []) by (unfold frame; by rewrite Ht). split.
    + exists (sp ++ [op]). split; [by rewrite E, !app_nil_r|]. split; [done|]. by rewrite map_app, Hd.
    + cbn [map concat]. rewrite Hf. split; [done|]. cbn. lia.
Qed.

Lemma enqueueSend_ok s op posts : send_ok s → s_posts s = op :: posts → ∃ s', enqueueSend s op posts = Ok s' ∧ send_ok s' ∧
  unsent s' = unsent s ∧ send_cost s' < send_cost s.
Proof.
  destruct s as [posts0 queue ph out mx tot dn]. unfold send_ok. cbn [mSendQueue s_posts s_done s_phase].
  intros (sp & E & Hp) ->. unfold enqueueSend. cbn [mSendQueue s_phase mTotalSentData mOutstandingSendData mMaxOutstandingSendData s_done].
  rewrite length_app, Nat.add_1_r. destruct queue as [|op0 queue].
  - cbn [length Nat.eqb app]. assert (Hs : ph = SIdle ∧ dn = map mPromise sp) by (destruct ph; tauto). destruct Hs as [-> Hd].
    lazymatch goal with |- context [sendOne ?s] => destruct (sendOne_ok s sp) as (s' & Es & Hok & Hu & Hc); [exact E|done|exact Hd|] end.
    exists s'. split; [exact Es|]. split; [exact Hok|]. rewrite Hu. cbn [mSendQueue s_posts]. split; [unfold unsent; cbn; by rewrite app_nil_r|].
    cbn [mSendQueue s_posts] in Hc. unfold send_cost at 2. cbn [s_phase s_posts sum_list_with] in *. lia.
  - cbn [length Nat.eqb]. eexists. split; [reflexivity|]. unfold send_ok. cbn [mSendQueue s_posts s_done s_phase].
    assert (E' : sops = sp ++ ((op0 :: queue) ++ [op]) ++ posts) by (rewrite E, <- !app_assoc; done).
    split; [exists sp; split; [exact E'|]; destruct ph; [by destruct Hp|by split; [|apply Hp]|by split; [|apply Hp]]|].
    unfold unsent, send_cost. cbn [s_phase mSendQueue s_posts tail app map concat]. destruct ph; [by destruct Hp| |];
      (split; [by rewrite map_app, concat_app, <- !app_assoc; cbn; rewrite app_nil_r|]);
      rewrite sum_list_with_app; cbn [sum_list_with]; lia.
Qed.

Lemma write_some_ok s rest k : send_ok s → s_phase s = SWriting rest → 0 < k ≤ length rest →
  let s' := mkSend (s_posts s) (mSendQueue s) (SWriting (drop k rest)) (mOutstandingSendData s)
    (mMaxOutstandingSendData s) (mTotalSentData s) (s_done s) in
  send_ok s' ∧ take k rest ++ unsent s' = unsent s ∧ send_cost s' < send_cost s.
Proof.
  intros Hok Hp Hk s'. unfold send_ok, unsent, send_cost in *. rewrite Hp in *. unfold s'.
  cbn [s_phase mSendQueue s_posts s_done]. split; [exact Hok|]. split; [by rewrite <- !app_assoc, (app_assoc (take k rest)), take_drop|].
  rewrite length_drop. lia.
Qed.

Lemma writeDone_ok s : send_ok s → s_phase s = SWriting [] → ∃ s', writeDone s = Ok s' ∧ send_ok s' ∧
  unsent s' = unsent s ∧ send_cost s' < send_cost s.
Proof.
  destruct s as [posts queue ph out mx tot dn]. unfold send_ok, writeDone. cbn [mSendQueue s_posts s_done s_phase].
  intros (sp & E & Hp) ->. destruct Hp as [Hq Hd]. destruct queue as [|op queue]; [done|]. eexists. split; [reflexivity|].
  split; [exists sp; split; [exact E|split; [done|]]; by rewrite map_app, Hd|]. split; [done|].
  unfold send_cost. cbn. lia.
Qed.

Lemma popSend_ok s : send_ok s → s_phase s = SWritten → ∃ s', popSend s = Ok s' ∧ send_ok s' ∧
  unsent s' = unsent s ∧ send_cost s' < send_cost s.
Proof.
  destruct s as [posts queue ph out mx tot dn]. unfold send_ok, popSend. cbn [mSendQueue s_posts s_done s_phase].
  intros (sp & E & Hp) ->. destruct Hp as [Hq Hd]. destruct queue as [|op queue]; [done|]. cbn [tail].
  assert (E' : sops = (sp ++ [op]) ++ queue ++ posts) by (by rewrite E, <- app_assoc).
  destruct queue as [|op1 queue].
  - eexists. split; [reflexivity|]. split; [exists (sp ++ [op]); split; [exact E'|by split]|]. split; [done|]. unfold send_cost. cbn. lia.
  - cbn [length Nat.eqb].
    lazymatch goal with |- context [sendOne ?s] => destruct (sendOne_ok s (sp ++ [op])) as (s' & Es & Hok & Hu & Hc); [exact E'|done|exact Hd|] end.
    exists s'. split; [exact Es|]. split; [exact Hok|]. rewrite Hu. split; [done|].
    cbn [mSendQueue s_posts] in Hc. unfold send_cost at 2. cbn [s_phase mSendQueue s_posts tail]. lia.
Qed.

(** A send half without a step has written everything. *)
Lemma send_stops s : send_ok s → s_posts s = [] → s_phase s = SIdle → unsent s = [] ∧ s_done s = map mPromise sops.
Proof.
  intros (sp & E & Hp) Hposts Hph. unfold unsent. rewrite Hph, Hposts in *. destruct Hp as [Hq Hd]. rewrite Hq in *.
  rewrite Hd, E, !app_nil_r. done.
Qed.
End Send.

(** * The receive half *)

Section Recv.
(** Receives, and at most one [CloseRecv] at the end. *)
Context (sops ds cl : list BoostIOOperation) (Hops : send_ops sops).
Context (Hds : Forall (fun r => mType r = RecvData) ds) (Hcl : cl = [] ∨ ∃ p, cl = [closeRecvOp p]).

(** The receive takes the message: it may resize, or the sizes agree. *)
Definition accepts (r s : BoostIOOperation) : Prop := mOther r = true ∨ Z.of_nat (length (mBuff r)) = mSize s.
Definition message (j : nat) (s : BoostIOOperation) : Prop := sops !! j = Some s ∧ mType s = SendData.

(** The first [k] receives got the first messages. *)
Definition took (k : nat) : Prop := ∀ j, j < k → j < length ds → ∃ r s, ds !! j = Some r ∧ message j s ∧ accepts r s.

Definition outcome (i : nat) (r : BoostIOOperation) : Outcome :=
  match mType r with RecvData => Value (mBuff (nth i sops op_clear)) | _ => Value [] end.
Definition outcomes (k : nat) : list (option nat * Outcome) := imap (fun i r => (mPromise r, outcome i r)) (take k (ds ++ cl)).

(** The bytes that they read. *)
Definition consumed (k : nat) : list Z := frames (take (k `min` length ds) sops).

Definition recv_ok (r : RecvHalf) (c : list Z) : Prop :=
  ∃ rp, ds ++ cl = rp ++ mRecvQueue r ++ r_posts r ∧ let i := length rp in took i ∧
  match r_phase r with
  | RIdle => mRecvQueue r = [] ∧ c = consumed i ∧ r_done r = outcomes i
  | RHeader => mRecvQueue r ≠ [] ∧ i < length ds ∧ c = consumed i ∧ r_done r = outcomes i
  | RBody n => mRecvQueue r ≠ [] ∧ i < length ds ∧ took (S i) ∧
      ∃ s, message i s ∧ n = length (mBuff s) ∧ c = consumed i ++ le_bytes 4 (mSize s) ∧ r_done r = outcomes i
  | RRead => mRecvQueue r ≠ [] ∧ i < length ds ∧ took (S i) ∧ c = consumed (S i) ∧ r_done r = outcomes (S i)
  | RStuck => mRecvQueue r ≠ [] ∧ i < length ds ∧
      ∃ op s, ds !! i = Some op ∧ message i s ∧ ¬ accepts op s ∧ c = consumed i ++ le_bytes 4 (mSize s) ∧
        r_done r = outcomes i ++ [(mPromise op, NullException)]
  end.

Definition recv_cost (r : RecvHalf) : nat :=
  match r_phase r with RIdle => 0 | RHeader => 3 | RBody _ => 2 | RRead => 1 | RStuck => 0 end +
  3 * length (tail (mRecvQueue r)) + 4 * length (r_posts r).

Lemma recv_op rp op b : ds ++ cl = rp ++ op :: b →
  (length rp < length ds ∧ mType op = RecvData ∧ ds !! length rp = Some op) ∨
  (length ds ≤ length rp ∧ mType op = CloseRecv ∧ b = []).
Proof.
  intros E. assert (L : (ds ++ cl) !! length rp = Some op) by (rewrite E; by apply list_lookup_middle).
  apply lookup_app_Some in L as [L|[Hlen L]].
  - left. split; [by eapply lookup_lt_Some|]. split; [|done]. exact (Forall_lookup_1 (fun r => mType r = RecvData) ds (length rp) op Hds L).
  - right. split; [done|]. destruct Hcl as [->|[p ->]]; [done|].
    apply list_lookup_singleton_Some in L as [L0 <-]. split; [done|].
    apply (f_equal length) in E. rewrite !length_app in E. cbn in E. destruct b; [done|cbn in E; lia].
Qed.

Lemma outcomes_snoc rp op b : ds ++ cl = rp ++ op :: b →
  outcomes (S (length rp)) = outcomes (length rp) ++ [(mPromise op, outcome (length rp) op)].
Proof.
  intros E. unfold outcomes. rewrite E. rewrite (take_S_r _ _ op) by (by apply list_lookup_middle).
  rewrite imap_app, length_take_le by (rewrite length_app; lia). cbn. by rewrite Nat.add_0_r.
Qed.

Lemma consumed_S i s : i < length ds → message i s → consumed (S i) = consumed i ++ frame s.
Proof.
  intros Hi [Hs _]. unfold consumed. rewrite !Nat.min_l by lia. rewrite (take_S_r _ _ _ Hs), map_app, concat_app.
  cbn. by rewrite app_nil_r.
Qed.

Lemma took_S i : took i → (i < length ds → ∃ r s, ds !! i = Some r ∧ message i s ∧ accepts r s) → took (S i).
Proof. intros H1 H2 j Hj. destruct (decide (j = i)) as [->|]; [exact H2|]. apply H1. lia. Qed.

(** What is on the wire starts with the next message. *)
Lemma next_message i w u : i < length ds → consumed i ++ w ++ u = frames sops → 0 < length w →
  ∃ s, message i s ∧ mSize s = Z.of_nat (length (mBuff s)) ∧ in_word 32 (mSize s) ∧
    w ++ u = le_bytes 4 (mSize s) ++ mBuff s ++ frames (drop (S i) sops).
Proof.
  intros Hi E Hw. unfold consumed in E. rewrite Nat.min_l in E by lia.
  rewrite <- (take_drop i sops) in E at 2. rewrite map_app, concat_app in E. apply app_inv_head in E.
  destruct (drop i sops) as [|s rest] eqn:D.
  - cbn in E. apply app_eq_nil in E as [-> _]. cbn in Hw. lia.
  - assert (Hs : sops !! i = Some s) by (rewrite <- (Nat.add_0_r i), <- lookup_drop, D; done).
    assert (Hrest : drop (S i) sops = rest) by (replace (S i) with (i + 1) by lia; by rewrite <- drop_drop, D).
    rewrite Hrest. destruct (Hops (take i sops) s rest) as [(Ht & Hl & Hz)|[Ht ->]]; [rewrite <- D; symmetry; apply take_drop| |].
    + exists s. split; [by split|]. split; [done|]. split; [done|]. rewrite E. cbn [map concat]. unfold frame at 1. rewrite Ht.
      by rewrite <- app_assoc.
    + cbn in E. unfold frame in E. rewrite Ht in E. apply app_eq_nil in E as [-> _]. cbn in Hw. lia.
Qed.

Lemma receiveOne_ok r rp c : ds ++ cl = rp ++ mRecvQueue r ++ r_posts r → mRecvQueue r ≠ [] → took (length rp) →
  c = consumed (length rp) → r_done r = outcomes (length rp) →
  ∃ r', receiveOne r = Ok r' ∧ recv_ok r' c ∧ recv_cost r' ≤ 3 * length (mRecvQueue r) + 4 * length (r_posts r).
Proof.
  destruct r as [posts queue ph tot dn]. cbn [mRecvQueue r_posts r_done]. intros E Hq Ht Hc Hd.
  destruct queue as [|op queue]; [done|]. unfold receiveOne. cbn [mRecvQueue].
  destruct (recv_op rp op (queue ++ posts)) as [(Hi & Hty & _)|(Hi & Hty & Hb)]; [exact E| |]; rewrite Hty;
    (eexists; split; [reflexivity|]); unfold recv_ok, recv_cost; cbn [r_phase mRecvQueue r_posts r_done tail].
  - split; [exists rp; split; [exact E|]; by split|]. cbn [length]. lia.
  - apply app_eq_nil in Hb as [-> ->]. split; [|cbn; lia].
    exists (rp ++ [op]). split; [by rewrite E, !app_nil_r|]. rewrite length_app. cbn [length]. rewrite Nat.add_1_r.
    split; [apply took_S; [done|lia]|]. split; [done|]. split.
    + rewrite Hc. unfold consumed. by rewrite !Nat.min_r by lia.
    + rewrite (outcomes_snoc rp op []) by done. unfold outcome. by rewrite Hd, Hty.
Qed.

Lemma enqueueRecv_ok r c op posts : recv_ok r c → r_posts r = op :: posts → ∃ r', enqueueRecv r op posts = Ok r' ∧
  recv_ok r' c ∧ recv_cost r' < recv_cost r.
Proof.
  destruct r as [posts0 queue ph tot dn]. unfold recv_ok. cbn [mRecvQueue r_posts r_done r_phase].
  intros (rp & E & Ht & Hp) ->. unfold enqueueRecv. cbn [mRecvQueue r_phase mTotalRecvData r_done].
  rewrite length_app, Nat.add_1_r. destruct queue as [|op0 queue].
  - cbn [length Nat.eqb app].
    assert (Hs : ph = RIdle ∧ c = consumed (length rp) ∧ dn = outcomes (length rp)) by (destruct ph; tauto). destruct Hs as (-> & Hc & Hd).
    lazymatch goal with |- context [receiveOne ?r] => destruct (receiveOne_ok r rp c) as (r' & Er & Hok & Hcost); [exact E|done|done|done|done|] end.
    exists r'. split; [exact Er|]. split; [exact Hok|]. cbn [mRecvQueue r_posts length] in Hcost. unfold recv_cost at 2.
    cbn [r_phase mRecvQueue r_posts length tail]. lia.
  - cbn [length Nat.eqb]. eexists. split; [reflexivity|]. unfold recv_ok. cbn [mRecvQueue r_posts r_done r_phase].
    assert (E' : ds ++ cl = rp ++ ((op0 :: queue) ++ [op]) ++ posts) by (rewrite E, <- !app_assoc; done).
    split; [exists rp; split; [exact E'|]; split; [exact Ht|]; destruct ph; [by destruct Hp|by split; [|apply Hp]..]|].
    unfold recv_cost. cbn [r_phase mRecvQueue r_posts tail app length]. rewrite length_app. cbn [length]. lia.
Qed.

Lemma headerRead_ok r c w u : recv_ok r c → r_phase r = RHeader → c ++ w ++ u = frames sops → 4 ≤ length w →
  ∃ r', headerRead r (le_val (take 4 w)) = Ok r' ∧ recv_ok r' (c ++ take 4 w) ∧ recv_cost r' < recv_cost r.
Proof.
  destruct r as [posts queue ph tot dn]. unfold recv_ok. cbn [mRecvQueue r_posts r_done r_phase].
  intros (rp & E & Ht & Hp) -> Hframes Hw. destruct Hp as (Hq & Hi & -> & ->).
  destruct queue as [|op queue]; [done|].
  destruct (recv_op rp op (queue ++ posts)) as [(_ & Hty & Hop)|(Hi' & _)]; [exact E| |lia].
  destruct (next_message (length rp) w u) as (s & Hs & Hl & Hz & Ew); [done|done|lia|].
  assert (Ehead : take 4 w = le_bytes 4 (mSize s)).
  { rewrite <- (take_app_le w u 4) by done. rewrite Ew. by rewrite take_app_length' by by rewrite le_bytes_length. }
  rewrite Ehead, le_val_bytes. change (8 * Z.of_nat 4)%Z with 32%Z. rewrite (wrap_small 32 _ Hz).
  unfold headerRead. cbn [mRecvQueue].
  assert (Hacc : accepts op s → took (S (length rp))) by (intros Ha; apply took_S; [done|]; intros _; exists op, s; done).
  destruct (mOther op) eqn:Eo; [|destruct (Z.eqb_spec (Z.of_nat (length (mBuff op))) (mSize s)) as [Hsz|Hsz]; cbn [negb]];
    (eexists; split; [reflexivity|]); unfold recv_cost; cbn [r_phase mRecvQueue r_posts r_done tail length];
    (split; [exists rp; split; [exact E|]; split; [exact Ht|]; split; [done|]; split; [done|]|lia]).
  - split; [by apply Hacc; left|]. exists s. split; [done|]. split; [rewrite Hl; lia|]. done.
  - split; [by apply Hacc; right|]. exists s. split; [done|]. split; [lia|]. done.
  - exists op, s. split; [done|]. split; [done|]. split; [|done]. intros [Ha|Ha]; congruence.
Qed.

Lemma bodyRead_ok r c w u n : recv_ok r c → r_phase r = RBody n → c ++ w ++ u = frames sops → n ≤ length w →
  ∃ r', bodyRead r (take n w) = Ok r' ∧ recv_ok r' (c ++ take n w) ∧ recv_cost r' < recv_cost r.
Proof.
  destruct r as [posts queue ph tot dn]. unfold recv_ok. cbn [mRecvQueue r_posts r_done r_phase].
  intros (rp & E & Ht & Hp) -> Hframes Hw. destruct Hp as (Hq & Hi & Ht1 & s & Hs & -> & -> & ->).
  destruct queue as [|op queue]; [done|].
  destruct (recv_op rp op (queue ++ posts)) as [(_ & Hty & Hop)|(Hi' & _)]; [exact E| |lia].
  assert (Hbody : take (length (mBuff s)) w = mBuff s).
  { rewrite <- app_assoc in Hframes. destruct (next_message (length rp) (le_bytes 4 (mSize s) ++ w) u) as (s' & Hs' & _ & _ & Ew);
      [done|by rewrite <- app_assoc|rewrite length_app, le_bytes_length; lia|].
    assert (s' = s) as -> by (destruct Hs, Hs'; congruence). rewrite <- app_assoc in Ew. apply app_inv_head in Ew.
    rewrite <- (take_app_le w u) by done. by rewrite Ew, take_app_length. }
  rewrite Hbody. unfold bodyRead. cbn [mRecvQueue]. eexists. split; [reflexivity|]. unfold recv_cost.
  cbn [r_phase mRecvQueue r_posts r_done tail length]. split; [|lia].
  exists rp. split; [exact E|]. split; [exact Ht|]. split; [done|]. split; [done|]. split; [done|]. split.
  - rewrite (consumed_S _ s) by done. rewrite <- app_assoc. f_equal. unfold frame. destruct Hs as [_ ->]. done.
  - rewrite (outcomes_snoc rp op (queue ++ posts)) by done. unfold outcome. rewrite Hty. by rewrite (nth_lookup_Some _ _ _ _ (proj1 Hs)).
Qed.

Lemma popRecv_ok r c : recv_ok r c → r_phase r = RRead → ∃ r', popRecv r = Ok r' ∧ recv_ok r' c ∧ recv_cost r' < recv_cost r.
Proof.
  destruct r as [posts queue ph tot dn]. unfold recv_ok, popRecv. cbn [mRecvQueue r_posts r_done r_phase].
  intros (rp & E & Ht & Hp) ->. destruct Hp as (Hq & Hi & Ht1 & Hc & Hd). destruct queue as [|op queue]; [done|]. cbn [tail].
  assert (E' : ds ++ cl = (rp ++ [op]) ++ queue ++ posts) by (by rewrite E, <- app_assoc).
  assert (Hl : length (rp ++ [op]) = S (length rp)) by (rewrite length_app; cbn; lia).
  destruct queue as [|op1 queue].
  - eexists. split; [reflexivity|]. split; [exists (rp ++ [op]); split; [exact E'|]; rewrite Hl; by split|]. unfold recv_cost. cbn. lia.
  - cbn [length Nat.eqb].
    lazymatch goal with |- context [receiveOne ?r] => destruct (receiveOne_ok r (rp ++ [op]) c) as (r' & Er & Hok & Hcost);
      [exact E'|done|by rewrite Hl|by rewrite Hl|by rewrite Hl|] end.
    exists r'. split; [exact Er|]. split; [exact Hok|].
    cbn [mRecvQueue r_posts length] in Hcost. unfold recv_cost at 2. cbn [r_phase mRecvQueue r_posts tail length]. lia.
Qed.
End Recv.

(** * Every run of a direction *)

Section Runs.
Context (sops ds cl : list BoostIOOperation) (Hops : send_ops sops).
Context (Hds : Forall (fun r => mType r = RecvData) ds) (Hcl : cl = [] ∨ ∃ p, cl = [closeRecvOp p]).

Definition pipe_ok (p : Pipe) : Prop := send_ok sops (p_send p) ∧
  ∃ c, recv_ok sops ds cl (p_recv p) c ∧ c ++ p_wire p ++ unsent (p_send p) = frames sops.
Definition pipe_cost (p : Pipe) : nat := send_cost (p_send p) + recv_cost (p_recv p).

Lemma pipe_step_ok p p' : pipe_ok p → pipe_step p p' → pipe_ok p' ∧ pipe_cost p' < pipe_cost p.
Proof.
  intros (Hs & c & Hr & E) Hstep. unfold pipe_ok, pipe_cost.
  destruct Hstep as [s s' w r op posts Hp Es|s w r rest k Hp Hk|s s' w r Hp Es|s s' w r Hp Es
    |s w r r' op posts Hp Er|s w r r' Hp Hw Er|s w r r' n Hp Hw Er|s w r r' Hp Er]; cbn [p_send p_wire p_recv] in *.
  - destruct (enqueueSend_ok sops Hops s op posts Hs Hp) as (s1 & E1 & Hok & Hu & Hc). rewrite Es in E1. injection E1 as <-.
    split; [|lia]. split; [done|]. exists c. by rewrite Hu.
  - destruct (write_some_ok sops s rest k Hs Hp Hk) as (Hok & Hu & Hc). cbv zeta in *.
    split; [|lia]. split; [done|]. exists c. split; [done|]. by rewrite <- app_assoc, Hu.
  - destruct (writeDone_ok sops s Hs Hp) as (s1 & E1 & Hok & Hu & Hc). rewrite Es in E1. injection E1 as <-.
    split; [|lia]. split; [done|]. exists c. by rewrite Hu.
  - destruct (popSend_ok sops Hops s Hs Hp) as (s1 & E1 & Hok & Hu & Hc). rewrite Es in E1. injection E1 as <-.
    split; [|lia]. split; [done|]. exists c. by rewrite Hu.
  - destruct (enqueueRecv_ok sops ds cl Hds Hcl r c op posts Hr Hp) as (r1 & E1 & Hok & Hc). rewrite Er in E1. injection E1 as <-.
    split; [|lia]. split; [done|]. by exists c.
  - destruct (headerRead_ok sops ds cl Hops Hds Hcl r c w (unsent s) Hr Hp E Hw) as (r1 & E1 & Hok & Hc). rewrite Er in E1. injection E1 as <-.
    split; [|lia]. split; [done|]. exists (c ++ take 4 w). split; [done|]. by rewrite <- app_assoc, (app_assoc (take 4 w)), take_drop.
  - destruct (bodyRead_ok sops ds cl Hops Hds Hcl r c w (unsent s) n Hr Hp E Hw) as (r1 & E1 & Hok & Hc). rewrite Er in E1. injection E1 as <-.
    split; [|lia]. split; [done|]. exists (c ++ take n w). split; [done|]. by rewrite <- app_assoc, (app_assoc (take n w)), take_drop.
  - destruct (popRecv_ok sops ds cl Hds Hcl r c Hr Hp) as (r1 & E1 & Hok & Hc). rewrite Er in E1. injection E1 as <-.
    split; [|lia]. split; [done|]. by exists c.
Qed.

Lemma pipe_start_ok : pipe_ok (pipe_start sops (ds ++ cl)).
Proof.
  split; [by exists []|]. exists []. split; [|done]. exists []. split; [done|]. split; [by intros j Hj%Nat.nlt_0_r|].
  split; [done|]. split; done.
Qed.

Lemma runs_ok k p : nsteps pipe_step k (pipe_start sops (ds ++ cl)) p →
  pipe_ok p ∧ k + pipe_cost p ≤ pipe_cost (pipe_start sops (ds ++ cl)).
Proof.
  revert p. induction k as [|k IH]; intros p Hk.
  - inversion Hk; subst. split; [apply pipe_start_ok|lia].
  - apply nsteps_inv_r in Hk as (p1 & H1 & H2). destruct (IH p1 H1) as [Hok Hc].
    destruct (pipe_step_ok _ _ Hok H2). split; [done|lia].
Qed.

(** How a direction may come to rest: everything was written, and every receive is served, or one has the wrong size, or
    there are no more messages. *)
Definition at_rest (p : Pipe) : Prop := s_done (p_send p) = map mPromise sops ∧
  ∃ i, took sops ds i ∧
    ((i = length (ds ++ cl) ∧ r_done (p_recv p) = outcomes sops ds cl i) ∨
     (i < length ds ∧ ∃ op s, ds !! i = Some op ∧ message sops i s ∧ ¬ accepts op s ∧
        r_done (p_recv p) = outcomes sops ds cl i ++ [(mPromise op, NullException)]) ∨
     (i < length ds ∧ r_done (p_recv p) = outcomes sops ds cl i ∧ ∀ s, ¬ message sops i s)).

Lemma recv_rest w r c : recv_ok sops ds cl r c → c ++ w = frames sops →
  (∃ r' w', ∀ s, pipe_step (mkPipe s w r) (mkPipe s w' r')) ∨
  ∃ i, took sops ds i ∧
    ((i = length (ds ++ cl) ∧ r_done r = outcomes sops ds cl i) ∨
     (i < length ds ∧ ∃ op s, ds !! i = Some op ∧ message sops i s ∧ ¬ accepts op s ∧
        r_done r = outcomes sops ds cl i ++ [(mPromise op, NullException)]) ∨
     (i < length ds ∧ r_done r = outcomes sops ds cl i ∧ ∀ s, ¬ message sops i s)).
Proof.
  intros Hr E. assert (E' : c ++ w ++ [] = frames sops) by by rewrite app_nil_r.
  destruct (r_posts r) as [|op posts] eqn:Hposts.
  2: { left. destruct (enqueueRecv_ok sops ds cl Hds Hcl r c op posts Hr Hposts) as (r' & Er & _). exists r', w. intros s. by eapply run_recv_post. }
  destruct (r_phase r) as [| |n| |] eqn:Hph.
  - right. destruct Hr as (rp & Erp & Ht & Hp). rewrite Hph, Hposts in *. destruct Hp as (Hq & _ & Hd). rewrite Hq, !app_nil_r in Erp.
    exists (length rp). split; [done|]. left. by rewrite Erp.
  - destruct (Nat.lt_ge_cases (length w) 4) as [Hw|Hw].
    + right. destruct Hr as (rp & Erp & Ht & Hp). rewrite Hph in Hp. destruct Hp as (Hq & Hi & -> & Hd).
      exists (length rp). split; [done|]. right. right. split; [done|]. split; [done|]. intros s Hs.
      unfold consumed in E. rewrite Nat.min_l in E by lia. rewrite <- (take_drop (length rp) sops) in E at 2.
      rewrite map_app, concat_app in E. apply app_inv_head in E. rewrite (drop_S _ _ _ (proj1 Hs)) in E. cbn [map concat] in E.
      unfold frame in E at 1. rewrite (proj2 Hs) in E. rewrite E, !length_app, le_bytes_length in Hw. lia.
    + left. destruct (headerRead_ok sops ds cl Hops Hds Hcl r c w [] Hr Hph E' Hw) as (r' & Er & _).
      exists r', (drop 4 w). intros s. by apply read_header.
  - assert (Hn : n ≤ length w).
    { destruct Hr as (rp & Erp & Ht & Hp). rewrite Hph in Hp. destruct Hp as (Hq & Hi & _ & s & Hs & -> & -> & _).
      rewrite <- app_assoc in E'. destruct (next_message sops ds Hops (length rp) (le_bytes 4 (mSize s) ++ w) []) as (s' & Hs' & _ & _ & Ew);
        [done|by rewrite <- app_assoc|rewrite length_app, le_bytes_length; lia|].
      assert (s' = s) as -> by (destruct Hs, Hs'; congruence). rewrite <- app_assoc in Ew. apply app_inv_head in Ew.
      rewrite app_nil_r in Ew. rewrite Ew, length_app. lia. }
    left. destruct (bodyRead_ok sops ds cl Hops Hds Hcl r c w [] n Hr Hph E' Hn) as (r' & Er & _).
    exists r', (drop n w). intros s. by apply (read_body s w r r' n).
  - left. destruct (popRecv_ok sops ds cl Hds Hcl r c Hr Hph) as (r' & Er & _). exists r', w. intros s. by apply recv_pop.
  - right. destruct Hr as (rp & Erp & Ht & Hp). rewrite Hph in Hp. destruct Hp as (_ & Hi & op & s & H1 & H2 & H3 & _ & H4).
    exists (length rp). split; [done|]. right. left. split; [done|]. by exists op, s.
Qed.

Lemma pipe_progress p : pipe_ok p → (∃ p', pipe_step p p') ∨ at_rest p.
Proof.
  destruct p as [s w r]. intros (Hs & c & Hr & E). cbn [p_send p_wire p_recv] in *.
  destruct (s_posts s) as [|op posts] eqn:Hposts.
  2: { left. destruct (enqueueSend_ok sops Hops s op posts Hs Hposts) as (s' & Es & _). eexists. by eapply run_send_post. }
  destruct (s_phase s) as [|rest|] eqn:Hph.
  - destruct (send_stops sops s Hs Hposts Hph) as [Hu Hd]. rewrite Hu, app_nil_r in E.
    destruct (recv_rest w r c Hr E) as [(r' & w' & Hstep)|Hrest]; [left; by eexists|]. right. by split.
  - left. destruct rest as [|b rest].
    + destruct (writeDone_ok sops s Hs Hph) as (s' & Es & _). eexists. by apply write_done.
    + eexists. eapply (write_some s w r _ 1 Hph). cbn [length]. lia.
  - left. destruct (popSend_ok sops Hops s Hs Hph) as (s' & Es & _). eexists. by apply send_pop.
Qed.

(** What has been delivered at any time. *)
Lemma done_grows p : pipe_ok p → ∃ i, took sops ds i ∧ (r_done (p_recv p) = outcomes sops ds cl i ∨
  (i < length ds ∧ ∃ op s, ds !! i = Some op ∧ message sops i s ∧ ¬ accepts op s ∧
     r_done (p_recv p) = outcomes sops ds cl i ++ [(mPromise op, NullException)])).
Proof.
  intros (_ & c & (rp & _ & Ht & Hp) & _). destruct (r_phase (p_recv p)).
  - exists (length rp). split; [done|]. left. apply Hp.
  - exists (length rp). split; [done|]. left. apply Hp.
  - exists (length rp). split; [done|]. left. destruct Hp as (_ & _ & _ & s & Hp). apply Hp.
  - exists (S (length rp)). split; [apply Hp|]. left. apply Hp.
  - exists (length rp). split; [done|]. right. destruct Hp as (_ & Hi & op & s & H1 & H2 & H3 & _ & H4).
    split; [done|]. by exists op, s.
Qed.
End Runs.

(** * The blocking calls *)

(** The effect of [send] on its direction, once its handlers have run. *)
Definition sendCall (p : Pipe) (data : list Z) : Res Pipe :=
  sock ← asyncSend (mkSocket (p_send p) (p_recv p) false) data (Some 0);
  match s_posts (sendHalf sock) with
  | op :: posts =>
      s ← enqueueSend (sendHalf sock) op posts;
      match s_phase s with
      | SWriting rest => s ← writeDone s; s ← popSend s; mret (mkPipe s (p_wire p ++ rest) (p_recv p))
      | _ => Throw (RuntimeError "blocked")
      end
  | [] => Throw (RuntimeError "blocked")
  end.

(** The effect of [recv] into a buffer of [n] bytes; it waits while the message is not there. *)
Definition recvCall (p : Pipe) (n : nat) : Res (list Z * Pipe) :=
  sock ← asyncRecv (mkSocket (p_send p) (p_recv p) false) (replicate n 0%Z) 0;
  match r_posts (recvHalf sock) with
  | op :: posts =>
      r ← enqueueRecv (recvHalf sock) op posts;
      if length (p_wire p) <? 4 then Throw (RuntimeError "blocked") else
      r ← headerRead r (le_val (take 4 (p_wire p)));
      let w := drop 4 (p_wire p) in
      match r_phase r with
      | RBody m =>
          if length w <? m then Throw (RuntimeError "blocked") else
          r ← bodyRead r (take m w);
          r ← popRecv r;
          mret (take m w, mkPipe (p_send p) (drop m w) r)
      | _ => Throw (RuntimeError "blocked")
      end
  | [] => Throw (RuntimeError "blocked")
  end.

(** A direction on which no operation is under way and no byte travels. *)
Definition quiet (p : Pipe) : Prop :=
  s_posts (p_send p) = [] ∧ mSendQueue (p_send p) = [] ∧ s_phase (p_send p) = SIdle ∧ p_wire p = [] ∧
  r_posts (p_recv p) = [] ∧ mRecvQueue (p_recv p) = [] ∧ r_phase (p_recv p) = RIdle.

Definition Pipe_new : Pipe := mkPipe (sendHalf BtSocket_new) [] (recvHalf BtSocket_new).

#[export] Instance bt_channel : Channel Pipe := {| csend := sendCall; crecv := recvCall; cidle := quiet |}.

Lemma sendOp_ok m p : msg_ok m → sendOp m p = mkOp SendData (Z.of_nat (length m)) m false p.
Proof.
  intros [Hm H32]. unfold sendOp. assert (W : in_word 32 (Z.of_nat (length m))) by (split; [lia|done]).
  rewrite (wrap_small 32 _ W), Nat2Z.id. by rewrite firstn_all2 by lia.
Qed.

Lemma recvOp_ok dest p : msg_ok dest → recvOp dest p = mkOp RecvData (Z.of_nat (length dest)) dest false (Some p).
Proof.
  intros [Hm H32]. unfold recvOp. assert (W : in_word 32 (Z.of_nat (length dest))) by (split; [lia|done]).
  rewrite (wrap_small 32 _ W), Nat2Z.id. by rewrite firstn_all2 by lia.
Qed.

Lemma msg_size m : msg_ok m → in_word 32 (Z.of_nat (length m)) ∧ (Z.of_nat (length m) =? 0)%Z = false.
Proof. intros [H0 H1]. split; [split; [lia|exact H1]|]. apply Z.eqb_neq. lia. Qed.

Lemma sendCall_quiet out mx tot dn r m : msg_ok m → let n := Z.of_nat (length m) in
  sendCall (mkPipe (mkSend [] [] SIdle out mx tot dn) [] r) m =
  Ok (mkPipe (mkSend [] [] SIdle (u64 (u64 (out + n) - n)) (Z.max (u64 (out + n)) mx) (u64 (tot + n)) (dn ++ [Some 0]))
    (le_bytes 4 n ++ m) r).
Proof.
  intros Hm n. destruct (msg_size m Hm) as [W Hz]. unfold sendCall, asyncSend. cbn [mStopped throw_if mbind Res_bind].
  rewrite sendOp_ok by exact Hm. fold n in Hz |- *. clearbody n. unfold dispatch. cbn [mType mSize]. rewrite Hz. reflexivity.
Qed.

(** Runs the calls that returned. *)
Ltac run_ok :=
  repeat (lazymatch goal with |- context [@mret Res Res_ret ?A] => change (@mret Res Res_ret A) with (@Ok A) end);
  cbn [mbind Res_bind throw_if sendHalf recvHalf p_send p_recv p_wire r_posts mRecvQueue r_phase mTotalRecvData r_done
    mType mSize mBuff mOther mPromise app tail length negb andb Nat.eqb].

Lemma recvCall_frame s tot dn m : msg_ok m → let n := Z.of_nat (length m) in
  recvCall (mkPipe s (le_bytes 4 n ++ m) (mkRecv [] [] RIdle tot dn)) (length m) =
  Ok (m, mkPipe s [] (mkRecv [] [] RIdle (u64 (tot + n)) (dn ++ [(Some 0, Value m)]))).
Proof.
  intros Hm n. destruct (msg_size m Hm) as [W Hz]. fold n in W, Hz.
  assert (Hrep : msg_ok (replicate (length m) 0%Z)) by (unfold msg_ok; rewrite length_replicate; exact Hm).
  assert (El : length (replicate (length m) 0%Z) = length m) by apply length_replicate.
  unfold recvCall, asyncRecv. cbn [mStopped throw_if mbind Res_bind].
  rewrite recvOp_ok by exact Hrep. generalize dependent (replicate (length m) 0%Z). intros buf _ El. rewrite El. fold n.
  unfold dispatch. run_ok. rewrite Hz. run_ok. unfold enqueueRecv. run_ok. unfold receiveOne. run_ok.
  rewrite length_app, le_bytes_length. nat_false (4 + length m <? 4).
  rewrite take_app_length', drop_app_length' by (by rewrite le_bytes_length).
  rewrite le_val_bytes. change (8 * Z.of_nat 4)%Z with 32%Z. rewrite (wrap_small 32 _ W).
  unfold headerRead. run_ok. rewrite El. fold n. rewrite Z.eqb_refl. run_ok. rewrite Nat.ltb_irrefl, firstn_all, drop_all.
  reflexivity.
Qed.

(** The channels of the protocol can be these. *)
#[export] Instance bt_laws : ChannelLaws Pipe.
Proof.
  split.
  - intros [[sp sq sph out mx tot dn] w [rp rq rph rtot rdn]] m (H1 & H2 & H3 & H4 & H5 & H6 & H7) Hm.
    cbn [p_send p_wire p_recv s_posts mSendQueue s_phase r_posts mRecvQueue r_phase] in *. subst.
    eexists _, _. split; [exact (sendCall_quiet out mx tot dn _ m Hm)|]. split; [exact (recvCall_frame _ rtot rdn m Hm)|]. done.
  - intros [[sp sq sph out mx tot dn] w [rp rq rph rtot rdn]] n (H1 & H2 & H3 & H4 & H5 & H6 & H7).
    cbn [p_send p_wire p_recv s_posts mSendQueue s_phase r_posts mRecvQueue r_phase] in *. subst.
    cbn [crecv bt_channel]. unfold recvCall, asyncRecv. cbn [mStopped throw_if mbind Res_bind].
    generalize (replicate n 0%Z). intros buf. unfold dispatch, recvOp. cbn [mType mOther mSize negb andb].
    generalize (u32 (Z.of_nat (length buf))). intros z. destruct (z =? 0)%Z; reflexivity.
Qed.

(** A direction after [dispatch] posted an operation on one of its halves. *)
Definition post_send (p : Pipe) (op : BoostIOOperation) : Pipe :=
  let s := p_send p in mkPipe (mkSend (s_posts s ++ [op]) (mSendQueue s) (s_phase s) (mOutstandingSendData s)
    (mMaxOutstandingSendData s) (mTotalSentData s) (s_done s)) (p_wire p) (p_recv p).
Definition post_recv (p : Pipe) (op : BoostIOOperation) : Pipe :=
  let r := p_recv p in mkPipe (p_send p) (p_wire p) (mkRecv (r_posts r ++ [op]) (mRecvQueue r) (r_phase r) (mTotalRecvData r) (r_done r)).

Lemma sendCall_runs out mx tot dn r m : msg_ok m → let p := mkPipe (mkSend [] [] SIdle out mx tot dn) [] r in
  ∀ p', sendCall p m = Ok p' → rtc pipe_step (post_send p (sendOp m (Some 0))) p'.
Proof.
  intros Hm p p' E. unfold p in E. rewrite (sendCall_quiet out mx tot dn r m Hm) in E. apply mret_Ok in E as <-. rewrite sendOp_ok by exact Hm.
  generalize (Z.of_nat (length m)). intros z. unfold post_send. cbn [p_send p_wire p_recv p s_posts app mSendQueue s_phase
    mOutstandingSendData mMaxOutstandingSendData mTotalSentData s_done].
  eapply rtc_l; [eapply run_send_post; reflexivity|].
  eapply rtc_l; [eapply (write_some _ _ _ (le_bytes 4 z ++ m) (length (le_bytes 4 z ++ m))); [reflexivity|rewrite length_app, le_bytes_length; lia]|].
  rewrite firstn_all, drop_all. eapply rtc_l; [eapply write_done; reflexivity|].
  eapply rtc_l; [eapply send_pop; reflexivity|]. apply rtc_refl.
Qed.

Lemma recvCall_runs s tot dn m : msg_ok m → let p := mkPipe s (le_bytes 4 (Z.of_nat (length m)) ++ m) (mkRecv [] [] RIdle tot dn) in
  ∀ x, recvCall p (length m) = Ok x → rtc pipe_step (post_recv p (recvOp (replicate (length m) 0%Z) 0)) x.2.
Proof.
  intros Hm p x E. unfold p in E. rewrite (recvCall_frame s tot dn m Hm) in E. apply mret_Ok in E as <-. destruct (msg_size m Hm) as [W _].
  assert (Hrep : msg_ok (replicate (length m) 0%Z)) by (unfold msg_ok; rewrite length_replicate; exact Hm).
  assert (El : length (replicate (length m) 0%Z) = length m) by apply length_replicate.
  rewrite recvOp_ok by exact Hrep. generalize dependent (replicate (length m) 0%Z). intros buf _ El. rewrite El.
  unfold post_recv. subst p. cbn [p_send p_wire p_recv r_posts app mRecvQueue r_phase mTotalRecvData r_done].
  set (n := Z.of_nat (length m)) in *. assert (En : (Z.of_nat (length buf) =? n)%Z = true) by (rewrite El; apply Z.eqb_refl).
  clearbody n. assert (E4 : 4 = length (le_bytes 4 n)) by by rewrite le_bytes_length.
  eapply rtc_l; [eapply run_recv_post; reflexivity|].
  eapply rtc_l; [eapply read_header; [reflexivity|rewrite length_app, le_bytes_length; lia|]|].
  - rewrite (take_app_length' _ _ 4 E4), le_val_bytes. change (8 * Z.of_nat 4)%Z with 32%Z. rewrite (wrap_small 32 _ W).
    unfold headerRead. run_ok. rewrite En. run_ok. rewrite El. reflexivity.
  - rewrite (drop_app_length' _ _ 4 E4).
    eapply rtc_l; [eapply read_body; [reflexivity|done|rewrite firstn_all; reflexivity]|].
    rewrite drop_all. eapply rtc_l; [eapply recv_pop; reflexivity|]. apply rtc_refl.
Qed.

(** What the protocol assumes of a channel, the channels of cryptoTools do: on a quiet direction the blocking calls of
    [send] and [recv] return, the second with the message of the first, they leave the direction
    quiet, and each is a run of the handlers from the operation it dispatches. *)
Theorem blocking_calls p m : quiet p → msg_ok m → ∃ p1 p2,
  sendCall p m = Ok p1 ∧ recvCall p1 (length m) = Ok (m, p2) ∧ quiet p2 ∧
  rtc pipe_step (post_send p (sendOp m (Some 0))) p1 ∧
  rtc pipe_step (post_recv p1 (recvOp (replicate (length m) 0%Z) 0)) p2.
Proof.
  destruct p as [[sp sq sph out mx tot dn] w [rp rq rph rtot rdn]]. intros (H1 & H2 & H3 & H4 & H5 & H6 & H7) Hm.
  cbn [p_send p_wire p_recv s_posts mSendQueue s_phase r_posts mRecvQueue r_phase] in *. subst.
  eexists _, _. split; [exact (sendCall_quiet out mx tot dn _ m Hm)|]. split; [exact (recvCall_frame _ rtot rdn m Hm)|].
  split; [done|]. split.
  - exact (sendCall_runs out mx tot dn _ m Hm _ (sendCall_quiet out mx tot dn _ m Hm)).
  - exact (recvCall_runs _ rtot rdn m Hm _ (recvCall_frame _ rtot rdn m Hm)).
Qed.

(** * Properties *)

(** What is dispatched to send the messages [ms], each with the promise of its call, and to close. *)
Definition sends (ms : list (list Z * option nat)) (closeS : option nat) : list BoostIOOperation :=
  map (fun m => sendOp m.1 m.2) ms ++ match closeS with Some p => [closeSendOp p] | None => [] end.
(** The receives [ds], and to close. *)
Definition recvs (ds : list BoostIOOperation) (closeR : option nat) : list BoostIOOperation :=
  ds ++ match closeR with Some p => [closeRecvOp p] | None => [] end.

(** The receives [ds] completed with the messages [ms]. *)
Definition deliveries (ds : list BoostIOOperation) (ms : list (list Z * option nat)) : list (option nat * Outcome) :=
  zip_with (fun r m => (mPromise r, Value m.1)) ds ms.

Section Messages.
Context (ms : list (list Z * option nat)) (ds : list BoostIOOperation) (closeS closeR : option nat).
Context (Hms : Forall (fun m => msg_ok m.1) ms) (Hds : Forall (fun r => mType r = RecvData) ds).

Abbreviation cl := (match closeR with Some p => [closeRecvOp p] | None => [] end).

Lemma sends_message i s : message (sends ms closeS) i s ↔ ∃ m, ms !! i = Some m ∧ s = mkOp SendData (Z.of_nat (length m.1)) m.1 false m.2.
Proof.
  unfold message, sends. split.
  - intros [Hs Ht]. apply lookup_app_Some in Hs as [Hs|[_ Hs]].
    + change (((fun m => sendOp m.1 m.2) <$> ms) !! i = Some s) in Hs. rewrite list_lookup_fmap in Hs.
      destruct (ms !! i) as [m|] eqn:Em; [|done]. cbn in Hs. injection Hs as <-.
      exists m. split; [done|]. apply sendOp_ok. exact (Forall_lookup_1 (fun m => msg_ok m.1) ms i m Hms Em).
    + destruct closeS; [|done]. by apply list_lookup_singleton_Some in Hs as [_ <-].
  - intros (m & Em & ->). split; [|done]. rewrite lookup_app_l by (rewrite length_map; by eapply lookup_lt_Some).
    change (((fun m => sendOp m.1 m.2) <$> ms) !! i = Some (mkOp SendData (Z.of_nat (length m.1)) m.1 false m.2)).
    rewrite list_lookup_fmap, Em. cbn. by rewrite sendOp_ok by exact (Forall_lookup_1 (fun m => msg_ok m.1) ms i m Hms Em).
Qed.

Lemma sends_ops : send_ops (sends ms closeS).
Proof.
  intros a op b E. assert (Ho : sends ms closeS !! length a = Some op) by (rewrite E; by apply list_lookup_middle).
  destruct (decide (mType op = SendData)) as [Ht|Ht].
  - left. destruct (proj1 (sends_message (length a) op) (conj Ho Ht)) as (m & Em & ->). split; [done|]. split; [done|].
    pose proof (Forall_lookup_1 (fun m => msg_ok m.1) ms _ m Hms Em) as [H0 H1]. cbn. split; [lia|done].
  - right. unfold sends in *. apply lookup_app_Some in Ho as [Ho|[Hl Ho]].
    + change (((fun m => sendOp m.1 m.2) <$> ms) !! length a = Some op) in Ho. rewrite list_lookup_fmap in Ho.
      destruct (ms !! length a); [|done]. cbn in Ho. by injection Ho as <-.
    + destruct closeS; [|done]. apply list_lookup_singleton_Some in Ho as [H0 <-]. split; [done|].
      apply (f_equal length) in E. rewrite !length_app in E. cbn in E. destruct b; [done|cbn in E; lia].
Qed.

Lemma recvs_close : cl = [] ∨ ∃ p, cl = [closeRecvOp p].
Proof. destruct closeR as [p|]; [right; by exists p|by left]. Qed.

Lemma outcomes_deliveries i : i ≤ length ds → i ≤ length ms →
  outcomes (sends ms closeS) ds cl i = deliveries (take i ds) (take i ms).
Proof.
  induction i as [|i IH]; intros Hd Hm; [done|].
  destruct (lookup_lt_is_Some_2 ds i Hd) as [r Hr], (lookup_lt_is_Some_2 ms i Hm) as [m Em].
  assert (E : ds ++ cl = take i ds ++ r :: (drop (S i) ds ++ cl)).
  { rewrite <- (take_drop i ds) at 1. rewrite (drop_S _ _ _ Hr). by rewrite <- app_assoc. }
  assert (Hi : length (take i ds) = i) by (rewrite length_take; lia).
  pose proof (outcomes_snoc (sends ms closeS) ds cl (take i ds) r _ E) as Ho. rewrite Hi in Ho. rewrite Ho, IH by lia.
  rewrite (take_S_r _ _ _ Hr), (take_S_r _ _ _ Em). unfold deliveries. rewrite zip_with_app by (rewrite !length_take; lia). f_equal. cbn.
  unfold outcome. rewrite (Forall_lookup_1 (fun r => mType r = RecvData) ds i r Hds Hr).
  destruct (proj2 (sends_message i _) (ex_intro _ m (conj Em eq_refl))) as [Hs _]. by rewrite (nth_lookup_Some _ _ _ _ Hs).
Qed.

(** The outcomes of all receives. *)
Lemma outcomes_all : length ds ≤ length ms → outcomes (sends ms closeS) ds cl (length (ds ++ cl)) =
  deliveries ds ms ++ match closeR with Some p => [(Some p, Value [])] | None => [] end.
Proof.
  intros Hl. assert (E : deliveries ds ms = deliveries (take (length ds) ds) (take (length ds) ms)).
  { unfold deliveries. rewrite firstn_all. revert Hl. generalize ms. clear. induction ds as [|r l IH]; intros [|m ms] Hl; try done.
    cbn. f_equal. apply IH. cbn in Hl. lia. }
  rewrite E, <- (outcomes_deliveries (length ds)) by lia. destruct closeR as [p|].
  - rewrite length_app. cbn [length]. rewrite Nat.add_1_r. by rewrite (outcomes_snoc _ ds _ ds (closeRecvOp p) []).
  - by rewrite !app_nil_r.
Qed.

Abbreviation start := (pipe_start (sends ms closeS) (recvs ds closeR)).

Lemma start_cost : pipe_cost start ≤ sum_list_with (fun m => length m.1 + 7) ms + 4 * length ds + 7.
Proof.
  unfold pipe_cost, pipe_start, send_cost, recv_cost, sends, recvs. cbn [p_send p_recv s_phase s_posts r_phase r_posts mRecvQueue tail length].
  rewrite sum_list_with_app, length_app.
  assert (H : sum_list_with (fun op => S (op_cost op)) (map (fun m => sendOp m.1 m.2) ms) = sum_list_with (fun m => length m.1 + 7) ms).
  { revert Hms. clear. induction 1 as [|m l Hm _ IH]; [done|]. cbn [map sum_list_with]. rewrite IH. f_equal.
    rewrite sendOp_ok by done. unfold op_cost, frame. cbn [mType mSize mBuff]. rewrite length_app, le_bytes_length. lia. }
  rewrite H. destruct closeS, closeR; cbn; lia.
Qed.

Lemma runs_bound k p : nsteps pipe_step k start p → k ≤ sum_list_with (fun m => length m.1 + 7) ms + 4 * length ds + 7 ∧
  pipe_ok (sends ms closeS) ds cl p ∧ ((∃ p', pipe_step p p') ∨ at_rest (sends ms closeS) ds cl p).
Proof.
  intros Hk. destruct (runs_ok _ ds cl sends_ops Hds recvs_close k p Hk) as [Hok Hc]. pose proof start_cost.
  split; [change (recvs ds closeR) with (ds ++ cl) in *; lia|]. split; [done|].
  by apply (pipe_progress _ ds cl sends_ops Hds recvs_close).
Qed.

(** A receive takes a message: it may resize its buffer, or the sizes agree. *)
Definition fits (r : BoostIOOperation) (m : list Z * option nat) : Prop := mOther r = true ∨ length (mBuff r) = length m.1.

Lemma accepts_fits i r s m : message (sends ms closeS) i s → ms !! i = Some m → accepts r s ↔ fits r m.
Proof.
  intros Hs Em. destruct (proj1 (sends_message i s) Hs) as (m' & Em' & ->). rewrite Em in Em'. injection Em' as <-.
  unfold accepts, fits. cbn [mSize]. by rewrite Nat2Z.inj_iff.
Qed.
End Messages.

Lemma take_imap {A B} (f : nat → A → B) l i : take i (imap f l) = imap f (take i l).
Proof.
  destruct (Nat.le_gt_cases i (length l)).
  - rewrite <- (take_drop i l) at 1. rewrite imap_app, take_app_length'; [done|]. rewrite length_imap, length_take. lia.
  - rewrite !firstn_all2; [done|lia|]. rewrite length_imap. lia.
Qed.

(** C4 Messages arrive whole and in order, whatever the order of the handlers and however TCP cuts the stream: when every
    receive fits its message, a run is bounded, at any time the completed receives are the first ones
    with the first messages, and a run that cannot go on has completed every send, every receive and,
    after them, the closing of both halves. *)
Theorem channel_delivers ms ds closeS closeR :
  Forall (fun m => msg_ok m.1) ms → Forall (fun r => mType r = RecvData) ds → length ds ≤ length ms →
  (∀ i r m, ds !! i = Some r → ms !! i = Some m → fits r m) →
  ∀ k p, nsteps pipe_step k (pipe_start (sends ms closeS) (recvs ds closeR)) p →
  let all := deliveries ds ms ++ match closeR with Some p => [(Some p, Value [])] | None => [] end in
  k ≤ sum_list_with (fun m => length m.1 + 7) ms + 4 * length ds + 7 ∧
  (∃ i, r_done (p_recv p) = take i all) ∧
  ((∃ p', pipe_step p p') ∨
   (s_done (p_send p) = map snd ms ++ match closeS with Some p => [Some p] | None => [] end ∧ r_done (p_recv p) = all)).
Proof.
  intros Hms Hds Hl Hfit k p Hk all. destruct (runs_bound ms ds closeS closeR Hms Hds k p Hk) as (Hb & Hok & Hend).
  split; [exact Hb|].
  assert (Hacc : ∀ i op s, ds !! i = Some op → message (sends ms closeS) i s → accepts op s).
  { intros i op s Hop Hs. destruct (lookup_lt_is_Some_2 ms i) as [m Em]; [apply lookup_lt_Some in Hop; lia|].
    apply (accepts_fits ms closeS Hms i op s m Hs Em). by apply (Hfit i). }
  pose proof (outcomes_all ms ds closeS closeR Hms Hds Hl) as Hall. fold all in Hall. split.
  - destruct (done_grows _ _ _ p Hok) as (i & _ & [Hd|(_ & op & s & H1 & H2 & H3 & _)]); [|by destruct H3; apply (Hacc i)].
    exists i. rewrite Hd, <- Hall. unfold outcomes. by rewrite firstn_all, take_imap.
  - destruct Hend as [Hstep|(Hs & i & Ht & Hd)]; [by left|]. right. split.
    + rewrite Hs. unfold sends. rewrite map_app, map_map. f_equal. by destruct closeS.
    + destruct Hd as [[-> Hd]|[(_ & op & s & H1 & H2 & H3 & _)|(Hi & _ & Hno)]].
      * by rewrite Hd.
      * destruct H3. by apply (Hacc i).
      * destruct (lookup_lt_is_Some_2 ms i) as [m Em]; [lia|].
        destruct (Hno _ (proj2 (sends_message ms closeS Hms i _) (ex_intro _ m (conj Em eq_refl)))).
Qed.

(** C28 A receive whose buffer has another size than its message: the receives before it complete with their messages, and
    its promise gets the empty exception instead of [BadReceiveBufferSize].  The run that cannot go on
    stays there: no later receive completes and the half is never closed. *)
Theorem channel_mismatch ms ds closeS closeR i r m :
  Forall (fun m => msg_ok m.1) ms → Forall (fun r => mType r = RecvData) ds →
  ds !! i = Some r → ms !! i = Some m → ¬ fits r m →
  (∀ j r m, j < i → ds !! j = Some r → ms !! j = Some m → fits r m) →
  ∀ k p, nsteps pipe_step k (pipe_start (sends ms closeS) (recvs ds closeR)) p →
  (∃ p', pipe_step p p') ∨ r_done (p_recv p) = deliveries (take i ds) (take i ms) ++ [(mPromise r, NullException)].
Proof.
  intros Hms Hds Hr Hm Hno Hfit k p Hk. destruct (runs_bound ms ds closeS closeR Hms Hds k p Hk) as (_ & Hok & [Hstep|Hend]); [by left|].
  right. destruct Hend as (_ & i' & Ht & Hd). pose proof (lookup_lt_Some _ _ _ Hr) as Hi. pose proof (lookup_lt_Some _ _ _ Hm) as Him.
  assert (Hle : i' ≤ i).
  { destruct (Nat.le_gt_cases i' i) as [|Hlt]; [done|]. destruct (Ht i Hlt Hi) as (op & s & Hop & Hs & Ha).
    rewrite Hr in Hop. injection Hop as <-. destruct Hno. by apply (accepts_fits ms closeS Hms i r s m Hs Hm). }
  destruct Hd as [[-> _]|[(Hi' & op & s & H1 & H2 & H3 & Hd)|(Hi' & _ & Hnone)]].
  - rewrite length_app in Hle. lia.
  - assert (i' = i) as ->.
    { destruct (Nat.lt_ge_cases i' i) as [Hlt|]; [|lia]. destruct (lookup_lt_is_Some_2 ms i' ltac:(lia)) as [m' Em'].
      destruct H3. apply (accepts_fits ms closeS Hms i' op s m' H2 Em'). by apply (Hfit i'). }
    rewrite Hr in H1. injection H1 as <-. rewrite Hd. by rewrite outcomes_deliveries by (done || lia).
  - destruct (lookup_lt_is_Some_2 ms i' ltac:(lia)) as [m' Em'].
    destruct (Hnone _ (proj2 (sends_message ms closeS Hms i' _) (ex_intro _ m' (conj Em' eq_refl)))).
Qed.

(** Sizes are cut to 32 bits without an error: sending a longer message is sending its first bytes, as many as the size
    modulo 2^32, and a size that is a multiple of 2^32, an empty message included, throws. *)
Theorem send_truncates sock data promise : let n := Z.to_nat (u32 (Z.of_nat (length data))) in
  asyncSend sock data promise = asyncSend sock (take n data) promise ∧
  (n = 0 → asyncSend sock data promise = Throw rt_error).
Proof.
  intros n. assert (Hn : Z.of_nat n = u32 (Z.of_nat (length data))) by (unfold n; rewrite Z2Nat.id; [done|apply in_word_wrap; lia]).
  assert (Hle : n ≤ length data) by (apply Nat2Z.inj_le; rewrite Hn; apply Z.mod_le; lia).
  assert (Hl : length (take n data) = n) by (rewrite length_take; lia).
  assert (E : sendOp data promise = sendOp (take n data) promise).
  { unfold sendOp. rewrite Hl, Hn. rewrite (wrap_small 32 (u32 (Z.of_nat (length data)))) by (apply in_word_wrap; lia). fold n.
    by rewrite take_take, Nat.min_id. }
  unfold asyncSend. rewrite E. split; [done|]. intros H0.
  destruct (mStopped sock); [done|]. cbn [throw_if mbind Res_bind]. rewrite <- E. unfold sendOp, dispatch. cbn [mType mSize].
  rewrite <- Hn, H0. done.
Qed.

Lemma blocking_calls_witness : ∃ p1 p2, sendCall Pipe_new [1; 2; 3]%Z = Ok p1 ∧ recvCall p1 3 = Ok ([1; 2; 3]%Z, p2) ∧ quiet p2.
Proof.
  destruct (blocking_calls Pipe_new [1; 2; 3]%Z) as (p1 & p2 & H1 & H2 & H3 & _).
  - repeat (split; [reflexivity|]). reflexivity.
  - split; [apply Nat.lt_0_succ|reflexivity].
  - exists p1, p2. exact (conj H1 (conj H2 H3)).
Defined.

Lemma channel_delivers_witness : let ms := [([7; 8; 9]%Z, Some 1); ([5]%Z, None)] in let ds := [recvBufOp 2; recvOp [0%Z] 3] in
  length ds ≤ length ms ∧ ∀ k p, nsteps pipe_step k (pipe_start (sends ms (Some 4)) (recvs ds (Some 5))) p → k ≤ 33 ∧
  ((∃ p', pipe_step p p') ∨ r_done (p_recv p) = [(Some 2, Value [7; 8; 9]%Z); (Some 3, Value [5%Z]); (Some 5, Value [])]).
Proof.
  intros ms ds. split; [reflexivity|]. intros k p Hk. destruct (channel_delivers ms ds (Some 4) (Some 5)) with (k := k) (p := p) as (Hb & _ & Hend).
  - repeat constructor.
  - repeat constructor.
  - reflexivity.
  - intros [|[|i]] r m Hr Hm; [injection Hr as <-; by left|injection Hr as <-; injection Hm as <-; by right|done].
  - exact Hk.
  - split; [exact Hb|]. destruct Hend as [H|[_ H]]; [by left|right; exact H].
Defined.

Lemma channel_mismatch_witness : let ms := [([7; 8; 9]%Z, None); ([5]%Z, None)] in let ds := [recvOp [0; 0]%Z 1; recvOp [0%Z] 2] in
  length ds = length ms ∧ ∀ k p, nsteps pipe_step k (pipe_start (sends ms None) (recvs ds (Some 3))) p →
  (∃ p', pipe_step p p') ∨ r_done (p_recv p) = [(Some 1, NullException)].
Proof.
  intros ms ds. split; [reflexivity|]. intros k p Hk. destruct (channel_mismatch ms ds None (Some 3) 0 (recvOp [0; 0]%Z 1) ([7; 8; 9]%Z, None)) with (k := k) (p := p) as [H|H].
  - repeat constructor.
  - repeat constructor.
  - reflexivity.
  - reflexivity.
  - intros [H|H]; discriminate H.
  - intros j r m Hj. by apply Nat.nlt_0_r in Hj.
  - exact Hk.
  - by left.
  - right. exact H.
Defined.

Lemma send_truncates_witness : asyncSend BtSocket_new [] None = Throw rt_error.
Proof. exact (proj2 (send_truncates BtSocket_new [] None) eq_refl). Defined.
End BtIo.
