(* ===== verification/Rows.v ===== *)
(** Rows of blocks and their masks: frontend/pqpsi/protocols/tools/base.h and mask.h.

    A flat vector holds the rows one after the other; [rowPtr] reads the blocks a pointer designates and
    [setRow] writes them. [aes key x] is [AES(key).ecbEncBlock(x)]. *)
From S2P Require Import Prelude Words Parallel PermApi BitBuf MlKem.
Open Scope nat_scope.

Module Rows.

(** * base.h *)

Definition kMode : MlKem.Mode := MlKem.MlKem512.
Definition kKemBytes : nat := KEM_key_block_size * 16.
Definition kMlKem512RowBytes : nat := 800.
Definition kMaxKeyTries : nat := 64.

Definition toBytes (key : list block) : list Z := memcpy (replicate kKemBytes 0%Z) 0 (bytesOf key) 0 kKemBytes.

Definition rowBytes (rowSize : nat) : nat := rowSize * 16.
Definition rowPtr (rows : list block) (rowSize row : nat) : list block := slice rows (row * rowSize) rowSize.
Definition setRow (rows : list block) (rowSize row : nat) (v : list block) : list block :=
  memcpy rows (row * rowSize) v 0 rowSize.

(** The overload of [rowBytes] on one row. *)
Definition rowBytesOf (row : list block) : Res (list Z) :=
  throw_if (negb (length row =? KEM_key_block_size)) (InvalidArgument "rowBytes: wrong block count") ;;
  mret (memcpy (replicate kKemBytes 0%Z) 0 (bytesOf row) 0 kKemBytes).

Definition fromBytes (src : list Z) : Res (list block) :=
  throw_if (negb (length src =? kKemBytes)) (InvalidArgument "fromBytes: wrong byte count") ;;
  mret (blocksOf KEM_key_block_size src).

(** The eight statements of each turn are the inner loop. *)
Definition toBits (inp : list block) : list Z :=
  let bytes := bytesOf inp in
  for_ 0 kKemBytes (fun i (out : list Z) =>
    let b := bytes.[i] in
    let off := i * 8 in
    for_ 0 8 (fun k (out : list Z) => <[off + k := u8 (Z.land (Z.shiftr b (Z.of_nat k)) 1)]> out) out)
    (replicate KEM_key_size_bit 0%Z).

Definition toBlocks (inp : list Z) : Res (list block) :=
  throw_if (negb (length inp =? KEM_key_size_bit)) (InvalidArgument "toBlocks: wrong bit count") ;;
  let bytes := for_ 0 kKemBytes (fun i (bytes : list Z) =>
    let off := i * 8 in
    <[i := for_ 0 8 (fun k acc => Z.lor acc (u8 (Z.shiftl (Z.land inp.[off + k] 1) (Z.of_nat k)))) 0%Z]> bytes)
    (replicate kKemBytes 0%Z) in
  mret (blocksOf KEM_key_block_size bytes).

Definition copyRow (inp : list block) : list block :=
  memcpy (replicate KEM_key_block_size ZeroBlock) 0 inp 0 KEM_key_block_size.

(** The overload with a row size; those on a [kemKey] are the case of [KEM_key_block_size] blocks. *)
Definition permute (pi : Perm) (inp : list block) (rowSize : nat) : Res (list block) :=
  out ← encryptBytes pi (bytesOf inp);
  mret (blocksOf rowSize out).

Definition unpermute (pi : Perm) (row : list block) (rowSize : nat) : Res (list block) :=
  out ← decryptBytes pi (bytesOf row);
  mret (blocksOf rowSize out).

Definition unpermuteVec (pi : Perm) (row : list block) : Res (list block) :=
  throw_if (negb (length row =? KEM_key_block_size)) (InvalidArgument "unpermute: wrong block count") ;;
  unpermute pi row KEM_key_block_size.

(** * mask.h *)

Section Masks.
Context (hw : nat) (aes : block → block → block).

Definition fillMask (key : block) (rowSize : nat) : list block :=
  for_ 0 rowSize (fun i (out : list block) => <[i := aes key (toBlock 0 (Z.of_nat (i + 1)))]> out)
    (replicate rowSize ZeroBlock).

Definition xorMask (mask row : list block) (rowSize : nat) : list block :=
  for_ 0 rowSize (fun i (row : list block) => <[i := Z.lxor row.[i] mask.[i]]> row) row.

Definition xorMaskVec (mask row : list block) : Res (list block) :=
  throw_if (negb (length row =? KEM_key_block_size)) (InvalidArgument "xorMask: wrong row block count") ;;
  mret (xorMask mask row KEM_key_block_size).

Definition precomputeMasks (set : list block) (rowSize : nat) (multiThread : bool) (workerThreads : nat)
    : Res (list block) :=
  Tools.parallelFor hw (length set) 16 multiThread workerThreads
    (fun b e => forR b e (fun i masks => mret (setRow masks rowSize i (fillMask set.[i] rowSize))))
    (replicate (length set * rowSize) ZeroBlock).

Definition storeTable (table : list (list block)) (flat : list block) (rowSize : nat) (multiThread : bool)
    (workerThreads : nat) : Res (list block) :=
  Tools.parallelFor hw (length table) 16 multiThread workerThreads
    (fun b e => forR b e (fun j flat => mret (setRow flat rowSize j (nth j table [])))) flat.

Definition loadTable (flat : list block) (table : list (list block)) (rowSize : nat) (multiThread : bool)
    (workerThreads : nat) : Res (list (list block)) :=
  Tools.parallelFor hw (length table) 16 multiThread workerThreads
    (fun b e => forR b e (fun j table =>
       mret (<[j := memcpy (nth j table []) 0 flat (j * rowSize) rowSize]> table))) table.

(** The shape the counting functions share: a plain loop below 64 items or without threads, else one
    partial sum per worker. [one i] is the test of item [i]. *)
Definition countRange (one : nat → Res bool) (from to : nat) : Res nat :=
  forR from to (fun i local => b ← one i; mret (local + if (b : bool) then 1 else 0)) 0.

Definition countAll (one : nat → Res bool) (n : nat) (multiThread : bool) (workerThreads : nat) : Res nat :=
  if negb multiThread || (n <? 64) then countRange one 0 n else
  let threads := Nat.min (Tools.workerLimit hw multiThread workerThreads) n in
  let chunk := (n + threads - 1) / threads in
  partial ← Tools.parallelFor hw threads 1 true threads
    (fun b e => forR b e (fun t (partial : list nat) =>
       let from := t * chunk in
       let to := Nat.min n (from + chunk) in
       local ← countRange one from to;
       mret (<[t := local]> partial))) (replicate threads 0);
  mret (foldl Nat.add 0 partial).

(** [countHits(mask, ...)] *)
Definition countHits (mask : list Z) (multiThread : bool) (workerThreads : nat) : Res nat :=
  countAll (fun i => mret (negb (mask.[i] =? 0)%Z)) (length mask) multiThread workerThreads.
End Masks.

(** * Rows of a flat vector *)

Definition row_ok (r : nat) (row : list block) : Prop := length row = r ∧ blocks_ok row.

(** [n] well-formed rows of [r] blocks. *)
Definition rows_ok (n r : nat) (rows : list block) : Prop := length rows = n * r ∧ blocks_ok rows.

Lemma rowPtr_ok n r rows i : rows_ok n r rows → i < n → row_ok r (rowPtr rows r i).
Proof.
  intros [Hl Hb] Hi. split; [apply slice_length; nia|]. by apply Forall_take, Forall_drop.
Qed.

Lemma setRow_ok n r rows i v : rows_ok n r rows → i < n → row_ok r v → rows_ok n r (setRow rows r i v).
Proof.
  intros [Hl Hb] Hi [Hv Hvb]. unfold setRow. split; [rewrite memcpy_length by nia; done|].
  unfold memcpy. rewrite !Forall_app. split; [by apply Forall_take|]. split; [by apply Forall_take, Forall_drop|by apply Forall_drop].
Qed.

Lemma rowPtr_setRow n r rows i j v : length rows = n * r → i < n → j < n → length v = r →
  rowPtr (setRow rows r i v) r j = if decide (i = j) then v else rowPtr rows r j.
Proof.
  intros Hl Hi Hj Hv. unfold rowPtr, setRow. destruct (decide (i = j)) as [<-|Hne].
  - rewrite slice_memcpy_eq by nia. unfold slice. rewrite drop_0. apply firstn_all2. lia.
  - apply slice_memcpy_ne; [nia|lia|]. destruct (Nat.lt_ge_cases i j); [right|left]; nia.
Qed.

Lemma zero_rows_ok n r : rows_ok n r (replicate (n * r) ZeroBlock).
Proof. split; [apply length_replicate|]. apply Forall_replicate. by apply in_word_0. Qed.

(** Equal rows make equal vectors. *)
Lemma rows_ext {A} n r (a b : list A) : length a = n * r → length b = n * r →
  (∀ i, i < n → slice a (i * r) r = slice b (i * r) r) → a = b.
Proof.
  intros Ha Hb H. transitivity (List.concat (map (fun i => slice b (i * r) r) (seq 0 n))).
  - apply (slices_concat a _ r); rewrite length_map_seq; [done|]. intros i Hi. by rewrite nth_map_seq, H.
  - symmetry. apply (slices_concat b _ r); rewrite length_map_seq; [done|]. intros i Hi. by rewrite nth_map_seq.
Qed.

(** The parallel loop whose turn [i] replaces row [i] by a function of that row. *)
Lemma par_rows hw mw mt wt n r (f : nat → list block → Res (list block)) (g : nat → list block) rows :
  rows_ok n r rows →
  (∀ i, i < n → f i (rowPtr rows r i) = Ok (g i) ∧ row_ok r (g i)) →
  ∃ out, Tools.parallelFor hw n mw mt wt
      (fun b e => forR b e (fun i rows => v ← f i (rowPtr rows r i); mret (setRow rows r i v))) rows = Ok out ∧
    rows_ok n r out ∧ ∀ i, i < n → rowPtr out r i = g i.
Proof.
  intros Hrows Hf. rewrite parallelFor_loop.
  destruct (forR_inv (fun i out => rows_ok n r out ∧ ∀ j, j < n →
    rowPtr out r j = if decide (j < i) then g j else rowPtr rows r j) 0 n
    (fun i rows => v ← f i (rowPtr rows r i); mret (setRow rows r i v)) rows) as (out & E & Hok & Hout).
  - lia.
  - split; [done|]. intros j Hj. by rewrite decide_False by lia.
  - intros i out Hi [Hok IH]. rewrite IH, decide_False by lia. destruct (Hf i ltac:(lia)) as [Hfi Hgi].
    rewrite Hfi. cbn [mbind Res_bind]. eexists. split; [reflexivity|]. split; [apply setRow_ok; [done|lia|done]|].
    intros j Hj. rewrite (rowPtr_setRow n) by (apply Hok || lia || apply Hgi).
    destruct (decide (i = j)) as [<-|Hne]; [by rewrite decide_True by lia|]. rewrite IH by done.
    destruct (decide (j < i)); [by rewrite decide_True by lia|by rewrite decide_False by lia].
  - exists out. split; [done|]. split; [done|]. intros i Hi. by rewrite Hout, decide_True by done.
Qed.

Lemma row_bytes r row : row_ok r row → buf_ok (16 * r) (bytesOf row).
Proof. intros [Hl _]. split; [by rewrite bytesOf_length, Hl|apply bytesOf_ok]. Qed.

Lemma bytes_row r bs : buf_ok (16 * r) bs → row_ok r (blocksOf r bs) ∧ bytesOf (blocksOf r bs) = bs.
Proof.
  intros [Hl Hb]. split; [split; [apply blocksOf_length|by apply blocksOf_ok]|by apply bytesOf_blocksOf].
Qed.

Lemma row_of_bytes r row : row_ok r row → blocksOf r (bytesOf row) = row.
Proof. intros [<- Hb]. by apply blocksOf_bytesOf. Qed.

(** * Permutation and masks *)

Lemma permute_ok pi r row `{PermLaws pi (16 * r)} : row_ok r row →
  ∃ out, permute pi row r = Ok out ∧ row_ok r out ∧ unpermute pi out r = Ok row.
Proof.
  intros Hr. destruct (enc_buf (bytesOf row) (row_bytes _ _ Hr)) as (c & Hc & Hbc). unfold permute, unpermute.
  rewrite Hc. cbn [mbind Res_bind]. destruct (bytes_row r c Hbc) as [Hok Hb]. eexists. split; [reflexivity|]. split; [done|].
  rewrite Hb, (dec_enc _ c (row_bytes _ _ Hr) Hc). cbn [mbind Res_bind]. unfold mret, Res_ret. by rewrite row_of_bytes.
Qed.

Lemma unpermute_ok pi r row `{PermLaws pi (16 * r)} : row_ok r row →
  ∃ out, unpermute pi row r = Ok out ∧ row_ok r out.
Proof.
  intros Hr. destruct (dec_buf (bytesOf row) (row_bytes _ _ Hr)) as (c & Hc & Hbc). unfold unpermute.
  rewrite Hc. cbn [mbind Res_bind]. eexists. split; [reflexivity|]. by apply bytes_row.
Qed.

Lemma fillMask_spec aes key r : length (fillMask aes key r) = r ∧
  ∀ i, i < r → (fillMask aes key r).[i] = aes key (toBlock 0 (Z.of_nat (i + 1))).
Proof.
  unfold fillMask.
  loop_inv (fun i (out : list block) => length out = r ∧ ∀ j, j < i → out.[j] = aes key (toBlock 0 (Z.of_nat (j + 1)))) as H.
  - lia.
  - split; [apply length_replicate|lia].
  - intros i out Hi [Hl IH]. split; [by rewrite length_insert|]. intros j Hj. rewrite nth_insert.
    destruct (decide (i = j)) as [<-|]; [by rewrite decide_True by lia|]. rewrite decide_False by lia. apply IH. lia.
  - exact H.
Qed.

Lemma fillMask_ok aes key r : (∀ k x, is_block (aes k x)) → row_ok r (fillMask aes key r).
Proof.
  intros Ha. destruct (fillMask_spec aes key r) as [Hl H]. split; [done|]. apply Forall_of_nth.
  intros i Hi. rewrite H by lia. apply Ha.
Qed.

Lemma xorMask_xorv mask row r : length mask = r → length row = r → xorMask mask row r = xorv row mask.
Proof. intros Hm Hr. by apply xor_loop_xorv. Qed.

Lemma xorMask_ok mask row r : row_ok r mask → row_ok r row →
  row_ok r (xorMask mask row r) ∧ xorMask mask (xorMask mask row r) r = row.
Proof.
  intros [Hm Hmb] [Hr Hrb]. assert (Hlx : length (xorv row mask) = r) by (rewrite xorv_length; congruence).
  rewrite !xorMask_xorv by (done || (rewrite xorMask_xorv by done; done)).
  split; [split; [done|by apply xorv_ok]|]. apply xorv_cancel. congruence.
Qed.

Lemma precomputeMasks_ok hw aes set r mt wt : (∀ k x, is_block (aes k x)) →
  ∃ masks, precomputeMasks hw aes set r mt wt = Ok masks ∧ rows_ok (length set) r masks ∧
    ∀ i, i < length set → rowPtr masks r i = fillMask aes set.[i] r.
Proof.
  intros Ha. apply (par_rows hw 16 mt wt (length set) r (fun i _ => Ok (fillMask aes set.[i] r)) _ _ (zero_rows_ok _ _)).
  intros i Hi. split; [done|by apply fillMask_ok].
Qed.

(** * Counting *)

(** The number of indices below [n] that [b] accepts. *)
Fixpoint hits (b : nat → bool) (n : nat) : nat :=
  match n with
  | O => 0
  | S n' => hits b n' + (if b n' then 1 else 0)
  end.

Lemma hits_add b m k : hits b (m + k) = hits b m + hits (fun i => b (m + i)) k.
Proof.
  induction k as [|k IH]; [by rewrite Nat.add_0_r, Nat.add_0_r|]. rewrite Nat.add_succ_r. cbn [hits]. rewrite IH. lia.
Qed.

Lemma hits_ext b b' n : (∀ i, i < n → b i = b' i) → hits b n = hits b' n.
Proof. induction n as [|n IH]; intros H; cbn [hits]; [done|]. rewrite IH by auto. by rewrite H by lia. Qed.

Lemma countRange_hits one b from to : from ≤ to → (∀ i, from ≤ i < to → one i = Ok (b i)) →
  countRange one from to = Ok (hits (fun i => b (from + i)) (to - from)).
Proof.
  intros Hle Hone. unfold countRange.
  destruct (forR_inv (fun i c => c = hits (fun j => b (from + j)) (i - from)) from to
    (fun i local => b ← one i; mret (local + if (b : bool) then 1 else 0)) 0) as (c & -> & ->); [done|by rewrite Nat.sub_diag| |done].
  intros i c Hi ->. rewrite Hone by done. cbn [mbind Res_bind]. eexists. split; [reflexivity|].
  replace (S i - from) with (S (i - from)) by lia. cbn [hits]. by replace (from + (i - from)) with i by lia.
Qed.

(** The partial sums add up to the plain count. *)
Lemma chunk_sum b n chunk k : hits b (Nat.min n (k * chunk)) =
  foldr Nat.add 0 (map (fun t => hits (fun i => b (t * chunk + i)) (Nat.min n (t * chunk + chunk) - t * chunk)) (seq 0 k)).
Proof.
  induction k as [|k IH]; [by rewrite Nat.mul_0_l, Nat.min_0_r|].
  rewrite seq_S, map_app, foldr_app. cbn [map foldr Nat.add].
  assert (Hacc : ∀ (l : list nat) a, foldr Nat.add a l = foldr Nat.add 0 l + a) by (induction l; intros; cbn; [done|rewrite IHl; lia]).
  rewrite Hacc, <- IH, Nat.add_0_r. destruct (Nat.le_gt_cases (k * chunk) n) as [Hle|Hgt].
  - rewrite (Nat.min_r n (k * chunk)) by done.
    replace (Nat.min n (S k * chunk)) with (k * chunk + (Nat.min n (k * chunk + chunk) - k * chunk)) by lia.
    by rewrite hits_add.
  - rewrite !Nat.min_l by lia. replace (n - k * chunk) with 0 by lia. cbn [hits]. lia.
Qed.

Lemma countAll_hits hw one b n mt wt : (∀ i, i < n → one i = Ok (b i)) → countAll hw one n mt wt = Ok (hits b n).
Proof.
  intros Hone. unfold countAll. cbv zeta. destruct (negb mt || (n <? 64)) eqn:E.
  - rewrite (countRange_hits one b) by (lia || (intros; apply Hone; lia)). by rewrite Nat.sub_0_r.
  - apply orb_false_iff in E as [_ E%Nat.ltb_ge].
    set (threads := Nat.min _ n). set (chunk := (n + threads - 1) / threads).
    assert (Hth : 0 < threads).
    { unfold threads, Tools.workerLimit. destruct mt; cbn [negb]; [destruct (wt =? 0)|]; lia. }
    assert (Hch : n ≤ threads * chunk) by (by apply chunk_enough).
    clearbody threads chunk. rewrite parallelFor_loop.
    set (f := fun t => hits (fun i => b (t * chunk + i)) (Nat.min n (t * chunk + chunk) - t * chunk)).
    destruct (forR_inv (fun t (p : list nat) => length p = threads ∧ ∀ j, j < t → p !! j = Some (f j)) 0 threads
      (fun t (partial : list nat) => local ← countRange one (t * chunk) (Nat.min n (t * chunk + chunk));
         mret (<[t := local]> partial)) (replicate threads 0)) as (p & -> & Hl & Hp).
    + lia.
    + split; [apply length_replicate|lia].
    + intros t p Ht [Hl IH].
      assert (Hc : countRange one (t * chunk) (Nat.min n (t * chunk + chunk)) = Ok (f t)).
      { destruct (Nat.le_gt_cases (t * chunk) (Nat.min n (t * chunk + chunk))).
        - apply countRange_hits; [done|]. intros i Hi. apply Hone. lia.
        - unfold countRange, forR. unfold f. by replace (Nat.min n (t * chunk + chunk) - t * chunk) with 0 by lia. }
      rewrite Hc. cbn [mbind Res_bind]. eexists. split; [reflexivity|]. split; [by rewrite length_insert|].
      intros j Hj. destruct (decide (t = j)) as [<-|Hne]; [by apply list_lookup_insert_eq; lia|].
      rewrite list_lookup_insert_ne by done. apply IH. lia.
    + cbn [mbind Res_bind]. unfold mret, Res_ret. f_equal.
      assert (p = map f (seq 0 threads)) as ->.
      { apply list_eq. intros j. destruct (Nat.lt_ge_cases j threads).
        - rewrite Hp by done. change (map f (seq 0 threads)) with (f <$> seq 0 threads).
          by rewrite list_lookup_fmap, lookup_seq_lt by done.
        - rewrite !lookup_ge_None_2; [done|by rewrite length_map_seq|lia]. }
      assert (Hfold : ∀ (l : list nat) a, foldl Nat.add a l = a + foldr Nat.add 0 l) by (induction l; intros; cbn; [lia|rewrite IHl; lia]).
      rewrite Hfold, Nat.add_0_l. etransitivity; [symmetry; exact (chunk_sum b n chunk threads)|]. by rewrite Nat.min_l.
Qed.

(** * Bits of a row *)

Lemma bit_of b k : Z.land (Z.shiftr b (Z.of_nat k)) 1 = Z.b2z (Z.testbit b (Z.of_nat k)).
Proof.
  rewrite Z.testbit_spec', Z.shiftr_div_pow2 by lia. exact (Z.land_ones _ 1 ltac:(lia)).
Qed.

Lemma bitb_index data i k : k < 8 → bitb data (i * 8 + k) = Z.testbit data.[i] (Z.of_nat k).
Proof. intros Hk. unfold bitb. replace ((i * 8 + k) / 8) with i by divlia. by replace ((i * 8 + k) mod 8) with k by divlia. Qed.

Lemma toBits_spec row : length (toBits row) = KEM_key_size_bit ∧
  ∀ j, j < KEM_key_size_bit → (toBits row).[j] = Z.b2z (bitb (bytesOf row) j).
Proof.
  unfold toBits. cbv zeta. assert (Hk : KEM_key_size_bit = kKemBytes * 8) by reflexivity. rewrite Hk.
  generalize kKemBytes. intros kb.
  loop_inv (fun i (out : list Z) => length out = kb * 8 ∧ ∀ j, j < i * 8 → out.[j] = Z.b2z (bitb (bytesOf row) j)) as H.
  - lia.
  - split; [apply length_replicate|lia].
  - intros i out Hi [Hl IH].
    loop_inv (fun k (o : list Z) => length o = kb * 8 ∧ ∀ j, j < i * 8 + k → o.[j] = Z.b2z (bitb (bytesOf row) j)) as H.
    + lia.
    + split; [done|]. intros j Hj. apply IH. lia.
    + intros k o Hk8 [Ho IHk]. split; [by rewrite length_insert|]. intros j Hj. rewrite nth_insert.
      destruct (decide (i * 8 + k = j)) as [<-|Hne].
      * rewrite decide_True by lia. rewrite bit_of, bitb_index by lia.
        apply wrap_small. by destruct (Z.testbit _ _).
      * rewrite decide_False by lia. apply IHk. lia.
    + destruct H as [Hlo H]. split; [exact Hlo|]. intros j Hj. apply H. lia.
  - exact H.
Qed.

(** One byte of [toBlocks], from the bits of a byte. *)
Lemma join_bits (inp : list Z) off x : in_word 8 x → (∀ k, k < 8 → inp.[off + k] = Z.b2z (Z.testbit x (Z.of_nat k))) →
  for_ 0 8 (fun k acc => Z.lor acc (u8 (Z.shiftl (Z.land inp.[off + k] 1) (Z.of_nat k)))) 0%Z = x.
Proof.
  intros Hx Hb.
  loop_inv (fun k acc => in_word (Z.of_nat k) acc ∧ ∀ j, j < k → Z.testbit acc (Z.of_nat j) = Z.testbit x (Z.of_nat j)) as H.
  - lia.
  - split; [by apply in_word_0|lia].
  - intros k acc Hk [Hw IH]. rewrite Hb by lia.
    assert (Eb : u8 (Z.shiftl (Z.land (Z.b2z (Z.testbit x (Z.of_nat k))) 1) (Z.of_nat k)) =
      (if Z.testbit x (Z.of_nat k) then 2 ^ Z.of_nat k else 0)%Z).
    { destruct (Z.testbit x (Z.of_nat k)); cbn [Z.b2z]; [|by rewrite Z.shiftl_0_l].
      change (Z.land 1 1) with 1%Z. rewrite Z.shiftl_1_l. apply wrap_small, (in_word_pow2 8). lia. }
    rewrite Eb. split.
    + apply in_word_lor; [lia|apply (in_word_weaken (Z.of_nat k)); [lia|done]|].
      destruct (Z.testbit x (Z.of_nat k)); [apply in_word_pow2; lia|apply in_word_0; lia].
    + intros j Hj. rewrite Z.lor_spec. destruct (decide (j = k)) as [->|Hne].
      * rewrite (testbit_high (Z.of_nat k) acc) by (done || lia).
        destruct (Z.testbit x (Z.of_nat k)); [by rewrite pow2_testbit, Z.eqb_refl by lia|by rewrite Z.testbit_0_l].
      * rewrite IH by lia. destruct (Z.testbit x (Z.of_nat k)); [|by rewrite Z.testbit_0_l, orb_false_r].
        rewrite pow2_testbit by lia. replace (Z.of_nat j =? Z.of_nat k)%Z with false by (symmetry; apply Z.eqb_neq; lia).
        apply orb_false_r.
  - destruct H as [Hw H]. apply (word_ext 8); [lia|exact Hw|done|]. intros i Hi.
    rewrite <- (Z2Nat.id i) by lia. apply H. lia.
Qed.

Lemma toBlocks_spec row : row_ok KEM_key_block_size row → toBlocks (toBits row) = Ok row.
Proof.
  intros Hr. destruct (toBits_spec row) as [Hl Hb]. unfold toBlocks. rewrite Hl, Nat.eqb_refl.
  cbn [negb throw_if mbind Res_bind]. unfold mret, Res_ret. f_equal.
  match goal with |- blocksOf _ ?bs = _ => assert (bs = bytesOf row) as ->; [|exact (row_of_bytes _ _ Hr)] end.
  destruct (row_bytes _ _ Hr) as [Hbl Hbb]. assert (Hk : kKemBytes = length (bytesOf row)) by (rewrite Hbl; reflexivity).
  assert (Hk8 : KEM_key_size_bit = kKemBytes * 8) by reflexivity. rewrite Hk8 in Hb. rewrite Hk in *.
  loop_inv (fun i (bs : list Z) => length bs = length (bytesOf row) ∧ ∀ j, j < i → bs.[j] = (bytesOf row).[j]) as H.
  - lia.
  - split; [apply length_replicate|lia].
  - intros i bs Hi [Hlb IH]. split; [by rewrite length_insert|]. intros j Hj. rewrite nth_insert.
    destruct (decide (i = j)) as [<-|Hne].
    + rewrite decide_True by lia. apply join_bits; [by apply Forall_nth_Z; [|apply in_word_0]|].
      intros k Hk7. rewrite Hb by lia. by rewrite bitb_index.
    + rewrite decide_False by lia. apply IH. lia.
  - destruct H as [Hlb H]. apply list_eq_nth; [done|]. intros j Hj. apply H. lia.
Qed.

(** * Properties *)

(** The bit vector of a protocol row has one entry per bit, byte by byte and least significant bit first,
    and packing it gives the row back. *)
Theorem toBits_toBlocks row : row_ok KEM_key_block_size row →
  length (toBits row) = KEM_key_size_bit ∧
  (∀ j, j < KEM_key_size_bit → (toBits row).[j] = Z.b2z (bitb (bytesOf row) j)) ∧
  toBlocks (toBits row) = Ok row.
Proof.
  intros Hr. destruct (toBits_spec row) as [Hl Hb]. split; [exact Hl|]. split; [exact Hb|]. by apply toBlocks_spec.
Qed.

(** Counting with worker threads gives the count of the plain loop, for every machine, number of threads
    and size: the partial sums cover every entry once. *)
Theorem countHits_threads hw hw' mask mt mt' wt wt' :
  countHits hw mask mt wt = countHits hw' mask mt' wt' ∧
  countHits hw mask mt wt = Ok (hits (fun i => negb (mask.[i] =? 0)%Z) (length mask)).
Proof.
  unfold countHits. rewrite !(countAll_hits _ _ (fun i => negb (mask.[i] =? 0)%Z)) by done. done.
Qed.

(** A table stored into a flat vector is loaded back row by row, whatever the threads do. *)
Theorem storeTable_loadTable hw table flat r mt wt : length flat = length table * r →
  Forall (fun row => length row = r) table →
  ∃ flat', storeTable hw table flat r mt wt = Ok flat' ∧ loadTable hw flat' table r mt wt = Ok table ∧
    flat' = List.concat table.
Proof.
  intros Hl Ht. unfold storeTable, loadTable. rewrite parallelFor_loop.
  assert (Hrow : ∀ j, j < length table → length (nth j table []) = r).
  { intros j Hj. rewrite Forall_lookup in Ht. destruct (lookup_lt_is_Some_2 table j Hj) as [row Hrow].
    rewrite (nth_lookup_Some _ _ _ _ Hrow). by apply (Ht j). }
  destruct (forR_inv (fun i (out : list block) => length out = length table * r ∧ ∀ j, j < i → slice out (j * r) r = nth j table [])
    0 (length table) (fun j flat => mret (setRow flat r j (nth j table []))) flat) as (out & -> & Hlo & Hout).
  - lia.
  - split; [done|lia].
  - intros i out Hi [Hlo IH]. eexists. split; [reflexivity|].
    split; [unfold setRow; rewrite memcpy_length by (rewrite ?Hrow; nia); done|]. intros j Hj.
    change (rowPtr (setRow out r i (nth i table [])) r j = nth j table []).
    rewrite (rowPtr_setRow (length table)) by (done || lia || (apply Hrow; lia)).
    destruct (decide (i = j)) as [<-|]; [done|]. apply IH. lia.
  - exists out. split; [done|]. split; [|by apply (slices_concat out table r)]. rewrite parallelFor_loop.
    destruct (forR_inv (fun i (t : list (list block)) => t = table) 0 (length table)
      (fun j table => mret (<[j := memcpy (nth j table []) 0 out (j * r) r]> table)) table) as (t & -> & ->); [lia|done| |done].
    intros i t Hi ->. eexists. split; [reflexivity|].
    assert (E : memcpy (nth i table []) 0 out (i * r) r = nth i table []).
    { unfold memcpy. cbn [Nat.add]. rewrite take_0, (drop_ge (nth i table [])), app_nil_r by (rewrite Hrow by lia; done).
      cbn [app]. apply (Hout i). lia. }
    rewrite E. apply list_insert_id. destruct (lookup_lt_is_Some_2 table i ltac:(lia)) as [row Hrow'].
    by rewrite (nth_lookup_Some _ _ _ _ Hrow').
Qed.

Lemma toBits_toBlocks_witness : toBlocks (toBits (replicate 50 (2 ^ 127 + 5)%Z)) = Ok (replicate 50 (2 ^ 127 + 5)%Z).
Proof.
  apply (toBits_toBlocks (replicate 50 (2 ^ 127 + 5)%Z)). split; [reflexivity|]. apply Forall_replicate. done.
Defined.

Lemma storeTable_loadTable_witness : ∃ flat', storeTable 4 [[1; 2]; [3; 4]]%Z (replicate 4 0%Z) 2 true 2 = Ok flat' ∧
  loadTable 4 flat' [[1; 2]; [3; 4]]%Z 2 true 2 = Ok [[1; 2]; [3; 4]]%Z.
Proof.
  destruct (storeTable_loadTable 4 [[1; 2]; [3; 4]]%Z (replicate 4 0%Z) 2 true 2) as (flat' & H1 & H2 & _);
    [reflexivity|repeat constructor|]. exists flat'. split; [exact H1|exact H2].
Defined.
End Rows.
