(* ===== verification/KemRows.v ===== *)
(** Keys and ciphertexts as protocol rows: frontend/pqpsi/protocols/tools/kem_rows.h, with the choice of
    the KEM in frontend/pqpsi/pqpsi.h.

    The random seeds are functions of the row (and of the attempt), so that every order in which the worker
    threads draw them is covered. A parallel loop is its sequential reference (Parallel.v); the
    exception it rethrows is that of the first failing row. *)
From S2P Require Import Prelude Words Parallel PermApi BitBuf MlKem KemBits Kemeleon EcKem Rows.
Open Scope nat_scope.

(** What the protocol needs of a KEM on rows of [r] blocks: key generation, encapsulation and the
    hit test never fail, and an encapsulation for a generated key is a hit for its secret key. *)
Class RowKemLaws (r : nat) (genRow : nat → Res (list Z * list block))
    (encapRow : nat → list block → Res (list block)) (hitRow : list Z → list block → Res bool) : Prop := {
  gen_total i : ∃ sk row, genRow i = Ok (sk, row) ∧ Rows.row_ok r row;
  encap_total j row : Rows.row_ok r row → ∃ ct, encapRow j row = Ok ct ∧ Rows.row_ok r ct;
  hit_total i sk pk row : genRow i = Ok (sk, pk) → Rows.row_ok r row → ∃ b, hitRow sk row = Ok b;
  hit_correct i j sk pk ct : genRow i = Ok (sk, pk) → encapRow j pk = Ok ct → hitRow sk ct = Ok true;
}.

Module KemRows.
Import Rows.

(** * pqpsi.h *)

Inductive PsiKemKind : Type := ObfMlKem | EcKem.
Record KemCfg : Type := mkKemCfg { kind : PsiKemKind }.

Definition name (kind : PsiKemKind) : string :=
  match kind with ObfMlKem => "obf-mlkem" | EcKem => "eckem" end.

Definition setKem (kem : KemCfg) (text : string) : Res KemCfg :=
  if (text =? "obf-mlkem")%string || (text =? "mlkem")%string || (text =? "kemeleon")%string
  then mret (mkKemCfg ObfMlKem) else
  if (text =? "eckem")%string || (text =? "ec-kem")%string then mret (mkKemCfg EcKem) else
  Throw (InvalidArgument (String.append "unknown PQ-PSI KEM: " text)).

Definition kemRowBytes (kem : KemCfg) : nat :=
  match kind kem with ObfMlKem => KEM_key_size_bit / 8 | EcKem => 48 end.

Definition kemRowBlocks (kem : KemCfg) : Res nat :=
  let bytes := kemRowBytes kem in
  throw_if (negb (bytes mod 16 =? 0)) (InvalidArgument "PQ-PSI KEM row must be block aligned") ;;
  mret (bytes / 16).

(** * Key generation *)

(** The value of PQPSI_DETERMINISTIC_KEM, if it is set. *)
Definition deterministicKemSeeds (v : option string) : bool :=
  match v with
  | None => false
  | Some s => negb (s =? "")%string && negb (s =? "0")%string && negb (s =? "false")%string && negb (s =? "off")%string
  end.

(** [random] is what [randombytes_buf] would put into [seed]. *)
Definition fillMlKemKeySeed (random : list Z) (row attempt : nat) (deterministic : bool) : list Z :=
  if negb deterministic then random else
  for_ 0 MlKem.KeyGenSeedSize (fun j (seed : list Z) =>
    <[j := u8 (Z.land (Z.of_nat ((row + 1) * 131 + (j + 3) * 17 + attempt * 29)) 0xFF)]> seed)
    (replicate MlKem.KeyGenSeedSize 0%Z).

Section Rows.
Context (hw : nat).
(** mlkem-native and the one-byte hash of the codec. *)
Context (keypair_derand : MlKem.Mode → list Z → option (list Z * list Z))
  (enc_derand : MlKem.Mode → list Z → list Z → option (list Z * list Z))
  (dec : MlKem.Mode → list Z → list Z → option (list Z)) (hashByte : list Z → Z).
(** Monocypher. *)
Context (elligator_map : list Z → list Z) (elligator_key_pair : list Z → list Z * list Z)
  (x25519 : list Z → list Z → list Z) (blake2b16 : list Z → list Z) (verify16 : list Z → list Z → bool).
(** Randomness: the key seed of a row and attempt, the encapsulation seed of a row, and the two seeds of the
    elliptic-curve KEM. *)
Context (deterministic : bool) (keySeed : nat → nat → list Z) (encSeed ecKeySeed ecEncSeed : nat → list Z).

Definition kem : MlKem.MlKem := MlKem.construct kMode.
Definition codec : Kemeleon.Kemeleon := Kemeleon.construct kMode.

(** The loop over the attempts for row [i]: the secret key and the code of the first key that the codec
    accepts. *)
Definition keyTries (i : nat) : Res (option (list Z * list Z)) :=
  o ← forC 0 kMaxKeyTries (fun t (_ : unit) =>
    let seed := fillMlKemKeySeed (keySeed i t) i t deterministic in
    '(rawPk, sk) ← MlKem.keyGenInto keypair_derand kem seed (MlKem.publicKeyBytes kem) (MlKem.secretKeyBytes kem);
    code ← Kemeleon.encodeKey hashByte codec rawPk;
    match code with
    | Some code => Ok (Return (sk, code))
    | None => Ok (Continue tt)
    end) tt;
  match o with inr r => mret (Some r) | inl _ => mret None end.

(** One turn of the generation loop: the secret key and the row. *)
Definition mlKeyRow (label : string) (rowSize i : nat) : Res (list Z * list block) :=
  o ← keyTries i;
  match o with
  | None => Throw (RuntimeError (String.append label ": encodeKey failed"))
  | Some (sk, code) =>
      throw_if (rowBytes rowSize <? length code) (RuntimeError (String.append label ": encoded pk too large")) ;;
      mret (sk, blocksOf rowSize (memcpy (replicate (rowBytes rowSize) 0%Z) 0 code 0 (length code)))
  end.

(** [genKeys] fills [kemKey] arrays; [count] is [pk.size()]. *)
Definition genKeys (count : nat) (multiThread : bool) (workerThreads : nat) : Res (list (list Z) * list (list block)) :=
  let sk := replicate count (replicate (MlKem.secretKeyBytes kem) 0%Z) in
  let pk := replicate count (replicate KEM_key_block_size ZeroBlock) in
  Tools.parallelFor hw count 8 multiThread workerThreads
    (fun b e => forR b e (fun i '(sk, pk) =>
       '(s, row) ← mlKeyRow "genKeys" KEM_key_block_size i;
       mret (<[i := s]> sk, <[i := row]> pk))) (sk, pk).

Definition genMlKemKeys (pk : list block) (rowSize : nat) (multiThread : bool) (workerThreads : nat)
    : Res (list (list Z) * list block) :=
  throw_if (negb (rowSize =? KEM_key_block_size) || negb (length pk mod rowSize =? 0))
    (InvalidArgument "genMlKemKeys: wrong row size") ;;
  let count := length pk / rowSize in
  let sk := replicate count (replicate (MlKem.secretKeyBytes kem) 0%Z) in
  Tools.parallelFor hw count 8 multiThread workerThreads
    (fun b e => forR b e (fun i '(sk, pk) =>
       '(s, row) ← mlKeyRow "genMlKemKeys" rowSize i;
       mret (<[i := s]> sk, setRow pk rowSize i row))) (sk, pk).

Definition storeMlKemRows (keyed : list (list block)) (rowSize : nat) (multiThread : bool) (workerThreads : nat)
    : Res (list block) :=
  Tools.parallelFor hw (length keyed) 16 multiThread workerThreads
    (fun b e => forR b e (fun i out =>
       let out := setRow out rowSize i (replicate rowSize ZeroBlock) in
       mret (memcpy out (i * rowSize) (nth i keyed []) 0 KEM_key_block_size)))
    (replicate (length keyed * rowSize) ZeroBlock).

Definition ecKeyRow (rowSize i : nat) : Res (list Z * list block) :=
  let kp := EcKem.keyGen elligator_key_pair (ecKeySeed i) in
  mret (EcKem.sk kp, blocksOf rowSize (memcpy (replicate (rowBytes rowSize) 0%Z) 0 (EcKem.pk kp) 0 EcKem.PkBytes)).

Definition genEcKeys (pk : list block) (rowSize : nat) (multiThread : bool) (workerThreads : nat)
    : Res (list (list Z) * list block) :=
  ecRowBlocks ← kemRowBlocks (mkKemCfg EcKem);
  throw_if (negb (rowSize =? ecRowBlocks) || negb (length pk mod rowSize =? 0))
    (InvalidArgument "genEcKeys: wrong row size") ;;
  let count := length pk / rowSize in
  let sk := replicate count (replicate EcKem.SkBytes 0%Z) in
  Tools.parallelFor hw count 8 multiThread workerThreads
    (fun b e => forR b e (fun i '(sk, pk) =>
       '(s, row) ← ecKeyRow rowSize i;
       mret (<[i := s]> sk, setRow pk rowSize i row))) (sk, pk).

Definition genRows (cfg : KemCfg) (pk : list block) (rowSize : nat) (multiThread : bool) (workerThreads : nat)
    : Res (list (list Z) * list block) :=
  match kind cfg with
  | ObfMlKem => genMlKemKeys pk rowSize multiThread workerThreads
  | EcKem => genEcKeys pk rowSize multiThread workerThreads
  end.

(** * Encapsulation *)

(** One turn of the encapsulation loops. The text of the first error also prints the row number. *)
Definition mlEncapRow (label : string) (rowSize i : nat) (row : list block) : Res (list block) :=
  o ← Kemeleon.decodeKeyInto codec (slice (bytesOf row) 0 (Kemeleon.codeKeyBytes codec)) (MlKem.publicKeyBytes kem);
  match o with
  | None => Throw (RuntimeError (String.append label ": decodeKey failed at row"))
  | Some rawPk =>
      '(cipher, shared) ← MlKem.encapsInto enc_derand kem rawPk (encSeed i) (MlKem.cipherTextBytes kem) MlKem.SharedSecretSize;
      let outBytes := replicate (rowBytes rowSize) 0%Z in
      throw_if (rowBytes rowSize <? MlKem.cipherTextBytes kem + MlKem.SharedSecretSize)
        (RuntimeError (String.append label ": output row too small")) ;;
      let outBytes := memcpy outBytes 0 cipher 0 (length cipher) in
      mret (blocksOf rowSize (memcpy outBytes (MlKem.cipherTextBytes kem) shared 0 (length shared)))
  end.

(** The overload on separate rows. *)
Definition encapRowsVec (rows : list (list block)) (multiThread : bool) (workerThreads : nat) : Res (list (list block)) :=
  Tools.parallelFor hw (length rows) 8 multiThread workerThreads
    (fun b e => forR b e (fun i out =>
       throw_if (negb (length (nth i rows []) =? KEM_key_block_size)) (InvalidArgument "encap: wrong row size") ;;
       v ← mlEncapRow "encap" KEM_key_block_size i (nth i rows []);
       mret (<[i := v]> out))) (replicate (length rows) (replicate KEM_key_block_size ZeroBlock)).

(** The overload on a flat vector with [kemKey] outputs. *)
Definition encapFlat (rows : list block) (rowSize : nat) (multiThread : bool) (workerThreads : nat) : Res (list (list block)) :=
  throw_if (negb (rowSize =? KEM_key_block_size) || negb (length rows mod rowSize =? 0))
    (InvalidArgument "encap: flat row size mismatch") ;;
  let count := length rows / rowSize in
  Tools.parallelFor hw count 8 multiThread workerThreads
    (fun b e => forR b e (fun i out =>
       v ← mlEncapRow "encap" KEM_key_block_size i (rowPtr rows rowSize i);
       mret (<[i := v]> out))) (replicate count (replicate KEM_key_block_size ZeroBlock)).

Definition encapMlKem (rows : list block) (rowSize : nat) (multiThread : bool) (workerThreads : nat) : Res (list block) :=
  throw_if (negb (rowSize =? KEM_key_block_size) || negb (length rows mod rowSize =? 0))
    (InvalidArgument "encapMlKem: flat row size mismatch") ;;
  let count := length rows / rowSize in
  Tools.parallelFor hw count 8 multiThread workerThreads
    (fun b e => forR b e (fun i out =>
       v ← mlEncapRow "encapMlKem" rowSize i (rowPtr rows rowSize i);
       mret (setRow out rowSize i v))) (replicate (length rows) ZeroBlock).

Definition ecEncapRow (rowSize i : nat) (row : list block) : Res (list block) :=
  let e := EcKem.encap elligator_map elligator_key_pair x25519 blake2b16 (slice (bytesOf row) 0 EcKem.PkBytes) (ecEncSeed i) in
  mret (blocksOf rowSize (EcKem.ct e)).

Definition encapEc (rows : list block) (rowSize : nat) (multiThread : bool) (workerThreads : nat) : Res (list block) :=
  ecRowBlocks ← kemRowBlocks (mkKemCfg EcKem);
  throw_if (negb (rowSize =? ecRowBlocks) || negb (length rows mod rowSize =? 0))
    (InvalidArgument "encapEc: wrong row size") ;;
  let count := length rows / rowSize in
  Tools.parallelFor hw count 8 multiThread workerThreads
    (fun b e => forR b e (fun i out =>
       v ← ecEncapRow rowSize i (rowPtr rows rowSize i);
       mret (setRow out rowSize i v))) (replicate (length rows) ZeroBlock).

Definition encapRows (cfg : KemCfg) (rows : list block) (rowSize : nat) (multiThread : bool) (workerThreads : nat)
    : Res (list block) :=
  match kind cfg with
  | ObfMlKem => encapMlKem rows rowSize multiThread workerThreads
  | EcKem => encapEc rows rowSize multiThread workerThreads
  end.

(** * Hits *)

Definition decapBytes (sk : list Z) (row : list block) (rowSize : nat) : Res bool :=
  if negb (rowSize =? KEM_key_block_size) || negb (length sk =? MlKem.secretKeyBytes kem) then mret false else
  if kKemBytes <? MlKem.cipherTextBytes kem + MlKem.SharedSecretSize then mret false else
  got ← MlKem.decaps dec kem (slice (bytesOf row) 0 (MlKem.cipherTextBytes kem)) sk;
  mret (bool_decide (got = slice (bytesOf row) (MlKem.cipherTextBytes kem) (length got))).

(** [decap] and [decapWith] on a separate row. *)
Definition decapVec (sk : list Z) (row : list block) : Res bool := decapBytes sk row (length row).

Definition countDecapHitsVec (sk : list (list Z)) (rows : list (list block)) (multiThread : bool) (workerThreads : nat) : Res nat :=
  throw_if (negb (length sk =? length rows)) (InvalidArgument "countDecapHits: size mismatch") ;;
  countAll hw (fun i => decapVec (nth i sk []) (nth i rows [])) (length rows) multiThread workerThreads.

Definition countDecapHits (sk : list (list Z)) (rows : list block) (rowSize : nat) (multiThread : bool) (workerThreads : nat) : Res nat :=
  throw_if (negb (rowSize =? KEM_key_block_size) || negb (length rows =? length sk * rowSize))
    (InvalidArgument "countDecapHits: flat size mismatch") ;;
  countAll hw (fun i => decapBytes (nth i sk []) (rowPtr rows rowSize i) rowSize) (length sk) multiThread workerThreads.

Definition ecHit (sk : list Z) (row : list block) : Res bool :=
  if negb (length sk =? EcKem.SkBytes) then mret false else
  mret (EcKem.decap elligator_map x25519 blake2b16 verify16 sk (bytesOf row)).

Definition countEcHits (sk : list (list Z)) (rows : list block) (rowSize : nat) (multiThread : bool) (workerThreads : nat) : Res nat :=
  ecRowBlocks ← kemRowBlocks (mkKemCfg EcKem);
  throw_if (negb (rowSize =? ecRowBlocks) || negb (length rows =? length sk * rowSize))
    (InvalidArgument "countEcHits: flat size mismatch") ;;
  countAll hw (fun i => ecHit (nth i sk []) (rowPtr rows rowSize i)) (length sk) multiThread workerThreads.

Definition countHits (cfg : KemCfg) (sk : list (list Z)) (rows : list block) (rowSize : nat) (multiThread : bool) (workerThreads : nat) : Res nat :=
  match kind cfg with
  | ObfMlKem => countDecapHits sk rows rowSize multiThread workerThreads
  | EcKem => countEcHits sk rows rowSize multiThread workerThreads
  end.
End Rows.

(** * The ML-KEM rows keep the contract *)

Lemma codec_sizes : Kemeleon.codeKeyBytes codec = 781 ∧ Kemeleon.rawKeyBytes codec = MlKem.publicKeyBytes kem ∧
  MlKem.publicKeyBytes kem = 800 ∧ MlKem.secretKeyBytes kem = 1632 ∧ MlKem.cipherTextBytes kem = 768 ∧
  MlKem.mMode kem = kMode ∧ Kemeleon.codec_ok codec.
Proof.
  split; [unfold codec, Kemeleon.codeKeyBytes; cbn [Kemeleon.construct Kemeleon.mInfo]; by rewrite Kemeleon.makeInfo_values|].
  do 5 (split; [reflexivity|]). apply Kemeleon.construct_ok.
Qed.

#[local] Opaque codec kem.

(** A padded row starts with its contents. *)
Lemma pad_row r n code : buf_ok n code → n ≤ 16 * r →
  let bs := memcpy (replicate (rowBytes r) 0%Z) 0 code 0 n in
  row_ok r (blocksOf r bs) ∧ slice (bytesOf (blocksOf r bs)) 0 n = code.
Proof.
  intros [Hl Hb] Hn bs. assert (Hz : length (replicate (rowBytes r) 0%Z) = 16 * r)
    by (rewrite length_replicate; unfold rowBytes; lia).
  assert (Hbs : buf_ok (16 * r) bs).
  { split; [unfold bs; rewrite memcpy_length by lia; exact Hz|].
    apply memcpy_ok; [|done]. apply Forall_replicate. by apply in_word_0. }
  destruct (bytes_row _ _ Hbs) as [Hrow ->]. split; [exact Hrow|]. unfold bs.
  rewrite slice_memcpy_eq by lia. unfold slice. rewrite drop_0. apply firstn_all2. lia.
Qed.

Section MlRow.
Context (keypair_derand : MlKem.Mode → list Z → option (list Z * list Z))
  (enc_derand : MlKem.Mode → list Z → list Z → option (list Z * list Z))
  (dec : MlKem.Mode → list Z → list Z → option (list Z)) (hashByte : list Z → Z)
  (deterministic : bool) (keySeed : nat → nat → list Z) (encSeed : nat → list Z).

(** The key seed of an attempt. *)
Definition seedOf (i t : nat) : list Z := fillMlKemKeySeed (keySeed i t) i t deterministic.

(** What the session relies on: ML-KEM succeeds and returns reduced public keys and buffers of the
    documented sizes, its decapsulation recovers the shared secret for the seeds of this session, and
    for every row one of the first 64 seeds gives a key the codec accepts. *)
Record native_laws : Prop := {
  nl_hash m : in_word 8 (hashByte m);
  nl_seed i t : length (seedOf i t) = MlKem.KeyGenSeedSize;
  nl_eseed j : length (encSeed j) = MlKem.EncapSeedSize;
  nl_key i t : t < kMaxKeyTries → ∃ pk sk, keypair_derand kMode (seedOf i t) = Some (pk, sk) ∧
    Kemeleon.canonical codec pk ∧ buf_ok (MlKem.secretKeyBytes kem) sk;
  nl_accept i : ∃ t pk sk code, t < kMaxKeyTries ∧ keypair_derand kMode (seedOf i t) = Some (pk, sk) ∧
    Kemeleon.encodeKey hashByte codec pk = Ok (Some code);
  nl_enc j pk : Kemeleon.canonical codec pk → ∃ ct ss, enc_derand kMode pk (encSeed j) = Some (ct, ss) ∧
    buf_ok (MlKem.cipherTextBytes kem) ct ∧ buf_ok MlKem.SharedSecretSize ss;
  nl_dec ct sk : buf_ok (MlKem.cipherTextBytes kem) ct → buf_ok (MlKem.secretKeyBytes kem) sk →
    ∃ ss, dec kMode ct sk = Some ss ∧ buf_ok MlKem.SharedSecretSize ss;
  nl_correct i t j pk sk ct ss : keypair_derand kMode (seedOf i t) = Some (pk, sk) →
    enc_derand kMode pk (encSeed j) = Some (ct, ss) → dec kMode ct sk = Some ss;
}.

Context (Hnl : native_laws).
Abbreviation tries := (keyTries keypair_derand hashByte deterministic keySeed).
Abbreviation keyRow l := (mlKeyRow keypair_derand hashByte deterministic keySeed l KEM_key_block_size).
Abbreviation encapRow l := (mlEncapRow enc_derand encSeed l KEM_key_block_size).
Abbreviation hitRow := (fun sk row => decapBytes dec sk row KEM_key_block_size).

Lemma canonical_encodes pk : Kemeleon.canonical codec pk → ∃ o, Kemeleon.encodeKey hashByte codec pk = Ok o.
Proof.
  intros [Hb (t & Ht & Hd)]. destruct codec_sizes as (_ & _ & _ & _ & _ & _ & Hc).
  rewrite (Kemeleon.encodeKey_spec hashByte codec Hc pk t Hb Ht Hd). by eexists.
Qed.

(** A row gets the first acceptable key. *)
Lemma keyTries_spec i : ∃ t pk sk code, t < kMaxKeyTries ∧ keypair_derand kMode (seedOf i t) = Some (pk, sk) ∧
  Kemeleon.canonical codec pk ∧ buf_ok (MlKem.secretKeyBytes kem) sk ∧
  Kemeleon.encodeKey hashByte codec pk = Ok (Some code) ∧ tries i = Ok (Some (sk, code)).
Proof.
  destruct codec_sizes as (_ & _ & _ & _ & _ & Hm & _). unfold keyTries.
  match goal with |- context [forC ?lo ?hi ?f ?s] =>
    destruct (forC_inv (fun t _ => ∀ t' pk sk code, t' < t → keypair_derand kMode (seedOf i t') = Some (pk, sk) →
        Kemeleon.encodeKey hashByte codec pk ≠ Ok (Some code))
      (fun _ => False)
      (fun r => ∃ t pk, t < kMaxKeyTries ∧ keypair_derand kMode (seedOf i t) = Some (pk, r.1) ∧
        Kemeleon.canonical codec pk ∧ buf_ok (MlKem.secretKeyBytes kem) r.1 ∧ Kemeleon.encodeKey hashByte codec pk = Ok (Some r.2))
      lo hi f s) as (o & -> & Ho) end.
  - lia.
  - intros t' pk sk code Hlt. lia.
  - intros t [] Ht IH. destruct (nl_key Hnl i t ltac:(lia)) as (pk & sk & Hk & Hcan & Hsk).
    assert (Hgen : MlKem.keyGenInto keypair_derand kem (seedOf i t) (MlKem.publicKeyBytes kem) (MlKem.secretKeyBytes kem) = Ok (pk, sk)).
    { apply MlKem.keyGenInto_spec. rewrite Hm. split; [apply (nl_seed Hnl)|done]. }
    fold (seedOf i t). rewrite Hgen. cbn [mbind Res_bind]. destruct (canonical_encodes pk Hcan) as [o Ho]. rewrite Ho.
    cbn [mbind Res_bind]. destruct o as [code|]; eexists; (split; [reflexivity|]).
    + exists t, pk. split; [lia|]. done.
    + intros t' pk' sk' code' Hlt Hk'. destruct (decide (t' = t)) as [->|Hne]; [|apply (IH t' pk' sk' code'); [lia|done]].
      rewrite Hk in Hk'. injection Hk' as <- <-. congruence.
  - intros [] H. destruct (nl_accept Hnl i) as (t & pk & sk & code & Ht & Hk & He). by apply (H t pk sk code Ht Hk).
  - destruct o as [[]|[sk code]]; [done|]. destruct Ho as (t & pk & Ht & Hk & Hc & Hsk & He). cbn [fst snd] in *.
    exists t, pk, sk, code. done.
Qed.

Lemma row_len : rowBytes KEM_key_block_size = 800 ∧ 16 * KEM_key_block_size = 800.
Proof. split; reflexivity. Qed.

Lemma mlKeyRow_spec l i : ∃ t pk sk code row, keypair_derand kMode (seedOf i t) = Some (pk, sk) ∧
  Kemeleon.canonical codec pk ∧ buf_ok (MlKem.secretKeyBytes kem) sk ∧
  Kemeleon.encodeKey hashByte codec pk = Ok (Some code) ∧ keyRow l i = Ok (sk, row) ∧
  row_ok KEM_key_block_size row ∧ slice (bytesOf row) 0 (Kemeleon.codeKeyBytes codec) = code.
Proof.
  destruct (keyTries_spec i) as (t & pk & sk & code & _ & Hk & Hcan & Hsk & He & Ht).
  destruct codec_sizes as (Hck & _ & _ & _ & _ & _ & Hc). destruct row_len as [Hrl0 Hrl].
  destruct (Kemeleon.decode_encode hashByte codec Hc (nl_hash Hnl) pk code Hcan He) as [Hcode _].
  destruct (pad_row KEM_key_block_size _ code Hcode) as [Hrow Hsl]; [rewrite Hck, Hrl; lia|].
  exists t, pk, sk, code. eexists. do 4 (split; [done|]). split; [|split; [exact Hrow|exact Hsl]].
  unfold mlKeyRow. rewrite Ht. cbn [mbind Res_bind]. rewrite (proj1 Hcode).
  rewrite Hrl0, Hck. reflexivity.
Qed.

(** Encapsulation for a public key in a row. *)
Lemma mlEncapRow_spec l j row rawPk :
  Kemeleon.decodeKey codec (slice (bytesOf row) 0 (Kemeleon.codeKeyBytes codec)) = Ok (Some rawPk) →
  Kemeleon.canonical codec rawPk →
  ∃ ct ss out, enc_derand kMode rawPk (encSeed j) = Some (ct, ss) ∧ encapRow l j row = Ok out ∧
    row_ok KEM_key_block_size out ∧ bytesOf out = ct ++ ss ∧
    buf_ok (MlKem.cipherTextBytes kem) ct ∧ buf_ok MlKem.SharedSecretSize ss.
Proof.
  intros Hdec Hcan. destruct codec_sizes as (_ & Hraw & Hpk & _ & Hct & Hm & _). destruct row_len as [Hrl Hrl16].
  destruct (nl_enc Hnl j rawPk Hcan) as (ct & ss & He & Hbc & Hbs). exists ct, ss.
  unfold Kemeleon.decodeKey in Hdec. rewrite Hraw in Hdec. unfold mlEncapRow. rewrite Hdec. cbn [mbind Res_bind].
  assert (Hen : MlKem.encapsInto enc_derand kem rawPk (encSeed j) (MlKem.cipherTextBytes kem) MlKem.SharedSecretSize = Ok (ct, ss)).
  { apply MlKem.encapsInto_spec. rewrite Hm. destruct Hcan as [[Hl _] _]. split; [congruence|]. split; [apply (nl_eseed Hnl)|done]. }
  rewrite Hen. cbn [mbind Res_bind]. rewrite Hrl, (proj1 Hbc), (proj1 Hbs), Hct.
  change (800 <? 768 + MlKem.SharedSecretSize) with false. cbn [throw_if mbind Res_bind]. unfold mret, Res_ret.
  eexists. split; [done|]. split; [reflexivity|].
  change 800 with (768 + MlKem.SharedSecretSize). rewrite Hct in Hbc.
  rewrite memcpy_assemble by (rewrite ?(proj1 Hbc), ?(proj1 Hbs); lia).
  unfold slice. rewrite !drop_0, !firstn_all2 by (rewrite ?(proj1 Hbc), ?(proj1 Hbs); lia).
  assert (Hb : buf_ok (16 * KEM_key_block_size) (ct ++ ss)).
  { split; [rewrite length_app, (proj1 Hbc), (proj1 Hbs); reflexivity|]. apply Forall_app. split; [apply Hbc|apply Hbs]. }
  destruct (bytes_row _ _ Hb) as [Hrow Hbytes]. split; [exact Hrow|]. split; [exact Hbytes|]. done.
Qed.

Lemma row_code row : row_ok KEM_key_block_size row →
  buf_ok (Kemeleon.codeKeyBytes codec) (slice (bytesOf row) 0 (Kemeleon.codeKeyBytes codec)).
Proof.
  intros Hr. destruct (row_bytes _ _ Hr) as [Hl Hb]. destruct codec_sizes as (Hck & _). destruct row_len as [_ Hrl].
  split; [apply slice_length; rewrite Hl, Hrl, Hck; lia|]. by apply Forall_take, Forall_drop.
Qed.

#[export] Instance ml_row_laws l l' : RowKemLaws KEM_key_block_size (keyRow l) (encapRow l') hitRow.
Proof.
  destruct codec_sizes as (Hck & Hraw & Hpk & Hskl & Hct & Hm & Hc). destruct row_len as [Hrl Hrl16]. split.
  - intros i. destruct (mlKeyRow_spec l i) as (t & pk & sk & code & row & _ & _ & _ & _ & H & Hr & _). exists sk, row. split; [exact H|exact Hr].
  - intros j row Hr. destruct (Kemeleon.decode_total hashByte codec Hc _ (row_code row Hr)) as (key & Hd & Hcan & _).
    destruct (mlEncapRow_spec l' j row key Hd Hcan) as (ct & ss & out & _ & H & Ho & _). exists out. split; [exact H|exact Ho].
  - intros i sk pk row Hg Hr. destruct (mlKeyRow_spec l i) as (t & pk' & sk' & code & row' & _ & _ & Hsk & _ & H & _).
    rewrite Hg in H. injection H as <- <-. unfold decapBytes. rewrite (proj1 Hsk), !Nat.eqb_refl, Hct. cbn [negb orb].
    change (kKemBytes <? 768 + MlKem.SharedSecretSize) with false. cbv iota.
    destruct (row_bytes _ _ Hr) as [Hl Hb].
    destruct (nl_dec Hnl (slice (bytesOf row) 0 768) sk) as (ss & Hd & _).
    { rewrite Hct. split; [apply slice_length; rewrite Hl, Hrl16; lia|]. by apply Forall_take, Forall_drop. }
    { done. }
    assert (Hdc : MlKem.decaps dec kem (slice (bytesOf row) 0 768) sk = Ok ss).
    { apply MlKem.decaps_spec. rewrite Hm, Hct. split; [apply slice_length; rewrite Hl, Hrl16; lia|]. split; [apply Hsk|done]. }
    rewrite Hdc. cbn [mbind Res_bind]. by eexists.
  - intros i j sk pk ct Hg He. destruct (mlKeyRow_spec l i) as (t & rawPk & sk' & code & row' & Hk & Hcan & Hsk & Henc & H & Hrow & Hsl).
    rewrite Hg in H. injection H as <- <-.
    destruct (Kemeleon.decode_encode hashByte codec Hc (nl_hash Hnl) rawPk code Hcan Henc) as [_ Hdec].
    rewrite <- Hsl in Hdec. destruct (mlEncapRow_spec l' j pk rawPk Hdec Hcan) as (c & ss & out & Hen & H & _ & Hbytes & Hbc & Hbs).
    rewrite He in H. injection H as <-. unfold decapBytes. rewrite (proj1 Hsk), !Nat.eqb_refl. cbn [negb orb].
    rewrite Hbytes, Hct in *. change (kKemBytes <? 768 + MlKem.SharedSecretSize) with false. cbv iota.
    assert (E1 : slice (c ++ ss) 0 768 = c) by (unfold slice; rewrite drop_0; apply take_app_length'; symmetry; exact (proj1 Hbc)).
    assert (Hdc : MlKem.decaps dec kem c sk = Ok ss).
    { apply MlKem.decaps_spec. rewrite Hm, Hct. split; [exact (proj1 Hbc)|]. split; [exact (proj1 Hsk)|]. by eapply (nl_correct Hnl). }
    rewrite E1, Hdc. cbn [mbind Res_bind]. unfold mret, Res_ret. f_equal. apply bool_decide_eq_true. unfold slice.
    rewrite drop_app_length' by exact (eq_sym (proj1 Hbc)). symmetry. apply firstn_all2. lia.
Qed.
End MlRow.

(** * The elliptic-curve rows keep the contract *)

Section EcRow.
Context (elligator_map : list Z → list Z) (elligator_key_pair : list Z → list Z * list Z)
  (x25519 : list Z → list Z → list Z) (blake2b16 : list Z → list Z) (verify16 : list Z → list Z → bool)
  (ecKeySeed ecEncSeed : nat → list Z).

Record ec_session : Prop := {
  es_calls : EcKem.ec_laws elligator_map elligator_key_pair x25519 blake2b16 verify16;
  es_key i : buf_ok EcKem.KeySeedBytes (ecKeySeed i);
  es_enc j : buf_ok EcKem.EncSeedBytes (ecEncSeed j);
}.

Context (Hes : ec_session).

#[export] Instance ec_row_laws : RowKemLaws 3 (ecKeyRow elligator_key_pair ecKeySeed 3)
  (ecEncapRow elligator_map elligator_key_pair x25519 blake2b16 ecEncSeed 3)
  (ecHit elligator_map x25519 blake2b16 verify16).
Proof.
  pose proof (es_calls Hes) as Hec.
  assert (Hkey : ∀ i, ∃ sk row, ecKeyRow elligator_key_pair ecKeySeed 3 i = Ok (sk, row) ∧ row_ok 3 row ∧
    sk = EcKem.sk (EcKem.keyGen elligator_key_pair (ecKeySeed i)) ∧ length sk = EcKem.SkBytes ∧
    slice (bytesOf row) 0 EcKem.PkBytes = EcKem.pk (EcKem.keyGen elligator_key_pair (ecKeySeed i))).
  { intros i. destruct (EcKem.ec_pair _ _ _ _ _ Hec (ecKeySeed i) (es_key Hes i)) as [Hp Hs].
    unfold ecKeyRow, EcKem.keyGen. destruct (elligator_key_pair (ecKeySeed i)) as [p s]. cbn [fst snd EcKem.pk EcKem.sk] in *.
    destruct (pad_row 3 EcKem.PkBytes p Hp) as [Hrow Hsl]; [unfold EcKem.PkBytes, EcKem.PointBytes; lia|].
    eexists _, _. split; [reflexivity|]. split; [exact Hrow|]. split; [reflexivity|]. split; [apply Hs|exact Hsl]. }
  assert (Henc : ∀ j row, ∃ ct, ecEncapRow elligator_map elligator_key_pair x25519 blake2b16 ecEncSeed 3 j row = Ok ct ∧ row_ok 3 ct ∧
    bytesOf ct = EcKem.ct (EcKem.encap elligator_map elligator_key_pair x25519 blake2b16 (slice (bytesOf row) 0 EcKem.PkBytes) (ecEncSeed j))).
  { intros j row. unfold ecEncapRow. eexists. split; [reflexivity|]. apply bytes_row.
    pose proof (EcKem.encap_parts _ _ _ _ _ Hec (slice (bytesOf row) 0 EcKem.PkBytes) (ecEncSeed j) (es_enc Hes j)) as H.
    cbv zeta in H. destruct (elligator_key_pair (ecEncSeed j)). apply H. }
  split.
  - intros i. destruct (Hkey i) as (sk & row & H & Hr & _). by exists sk, row.
  - intros j row _. destruct (Henc j row) as (ct & H & Hr & _). by exists ct.
  - intros i sk pk row _ _. unfold ecHit. destruct (negb _); by eexists.
  - intros i j sk pk ct Hg He. destruct (Hkey i) as (sk' & row & H & _ & Hsk & Hlen & Hsl).
    rewrite Hg in H. injection H as <- <-. destruct (Henc j pk) as (ct' & H & _ & Hct). rewrite He in H. injection H as <-.
    unfold ecHit. rewrite Hlen, Nat.eqb_refl. cbn [negb]. rewrite Hct, Hsl, Hsk. unfold EcKem.decap.
    by rewrite (EcKem.decap_encap _ _ _ _ _ Hec (ecKeySeed i) (ecEncSeed j) (es_key Hes i) (es_enc Hes j)).
Qed.
End EcRow.

(** * The loops over the rows *)

Section Loops.
Context (hw mw : nat) (mt : bool) (wt : nat) (r : nat) (genRow : nat → Res (list Z * list block))
  (encapRow : nat → list block → Res (list block)) (hitRow : list Z → list block → Res bool)
  `{RowKemLaws r genRow encapRow hitRow}.

Lemma gen_loop n sk0 pk0 : length sk0 = n → rows_ok n r pk0 →
  ∃ sks pks, Tools.parallelFor hw n mw mt wt (fun b e => forR b e (fun i '(sk, pk) =>
      '(s, row) ← genRow i; mret (<[i := s]> sk, setRow pk r i row))) (sk0, pk0) = Ok (sks, pks) ∧
    length sks = n ∧ rows_ok n r pks ∧ ∀ i, i < n → genRow i = Ok (nth i sks [], rowPtr pks r i).
Proof.
  intros Hs Hp. rewrite parallelFor_loop.
  destruct (forR_inv (fun i (st : list (list Z) * list block) => length st.1 = n ∧ rows_ok n r st.2 ∧
    ∀ j, j < i → genRow j = Ok (nth j st.1 [], rowPtr st.2 r j)) 0 n
    (fun i '(sk, pk) => '(s, row) ← genRow i; mret (<[i := s]> sk, setRow pk r i row)) (sk0, pk0))
    as ([sks pks] & E & Hl & Hok & Hall).
  - lia.
  - split; [done|]. split; [done|lia].
  - intros i [sk pk] Hi (Hl & Hok & IH). cbn [fst snd] in *. destruct (gen_total i) as (s & row & Hg & Hrow).
    rewrite Hg. cbn [mbind Res_bind]. eexists. split; [reflexivity|]. cbn [fst snd].
    split; [by rewrite length_insert|]. split; [apply setRow_ok; [done|lia|done]|]. intros j Hj.
    rewrite (rowPtr_setRow n) by (apply Hok || lia || apply Hrow). destruct (decide (i = j)) as [<-|Hne].
    + rewrite (nth_lookup_Some _ _ [] s); [exact Hg|]. apply list_lookup_insert_eq. lia.
    + rewrite IH by lia. do 2 f_equal. rewrite !nth_lookup. by rewrite list_lookup_insert_ne.
  - by exists sks, pks.
Qed.

Lemma encap_loop n rows : rows_ok n r rows →
  ∃ out, Tools.parallelFor hw n mw mt wt (fun b e => forR b e (fun i out =>
      v ← encapRow i (rowPtr rows r i); mret (setRow out r i v))) (replicate (length rows) ZeroBlock) = Ok out ∧
    rows_ok n r out ∧ ∀ i, i < n → encapRow i (rowPtr rows r i) = Ok (rowPtr out r i).
Proof.
  intros Hrows. set (g := fun i => match encapRow i (rowPtr rows r i) with Ok v => v | Throw _ => [] end).
  assert (Hg : ∀ i, i < n → encapRow i (rowPtr rows r i) = Ok (g i) ∧ row_ok r (g i)).
  { intros i Hi. destruct (encap_total i (rowPtr rows r i) (rowPtr_ok _ _ _ _ Hrows Hi)) as (ct & Hc & Hok).
    unfold g. by rewrite Hc. }
  rewrite (proj1 Hrows).
  destruct (par_rows hw mw mt wt n r (fun i _ => encapRow i (rowPtr rows r i)) g _ (zero_rows_ok n r) Hg) as (out & E & Hok & Hout).
  exists out. split; [exact E|]. split; [done|]. intros i Hi. rewrite Hout by done. apply Hg, Hi.
Qed.

Lemma hit_loop n sks rows : rows_ok n r rows → (∀ i, i < n → ∃ pk, genRow i = Ok (nth i sks [], pk)) →
  ∃ b, countAll hw (fun i => hitRow (nth i sks []) (rowPtr rows r i)) n mt wt = Ok (hits b n) ∧
    ∀ i, i < n → hitRow (nth i sks []) (rowPtr rows r i) = Ok (b i).
Proof.
  intros Hrows Hg.
  set (b := fun i => match hitRow (nth i sks []) (rowPtr rows r i) with Ok v => v | Throw _ => false end). exists b.
  assert (Hb : ∀ i, i < n → hitRow (nth i sks []) (rowPtr rows r i) = Ok (b i)).
  { intros i Hi. destruct (Hg i Hi) as [pk Hpk].
    destruct (hit_total i _ pk (rowPtr rows r i) Hpk (rowPtr_ok _ _ _ _ Hrows Hi)) as (v & Hv). unfold b. by rewrite Hv. }
  split; [by apply countAll_hits|exact Hb].
Qed.
End Loops.

(** * Either KEM *)

Section Session.
Context (hw : nat) (keypair_derand : MlKem.Mode → list Z → option (list Z * list Z))
  (enc_derand : MlKem.Mode → list Z → list Z → option (list Z * list Z))
  (dec : MlKem.Mode → list Z → list Z → option (list Z)) (hashByte : list Z → Z)
  (elligator_map : list Z → list Z) (elligator_key_pair : list Z → list Z * list Z)
  (x25519 : list Z → list Z → list Z) (blake2b16 : list Z → list Z) (verify16 : list Z → list Z → bool)
  (deterministic : bool) (keySeed : nat → nat → list Z) (encSeed ecKeySeed ecEncSeed : nat → list Z).

(** The three functions of a row that [genRows], [encapRows] and [countHits] iterate. *)
Definition genRowOf (k : PsiKemKind) (r i : nat) : Res (list Z * list block) :=
  match k with
  | ObfMlKem => mlKeyRow keypair_derand hashByte deterministic keySeed "genMlKemKeys" r i
  | EcKem => ecKeyRow elligator_key_pair ecKeySeed r i
  end.
Definition encapRowOf (k : PsiKemKind) (r i : nat) (row : list block) : Res (list block) :=
  match k with
  | ObfMlKem => mlEncapRow enc_derand encSeed "encapMlKem" r i row
  | EcKem => ecEncapRow elligator_map elligator_key_pair x25519 blake2b16 ecEncSeed r i row
  end.
Definition hitRowOf (k : PsiKemKind) (r : nat) (sk : list Z) (row : list block) : Res bool :=
  match k with
  | ObfMlKem => decapBytes dec sk row r
  | EcKem => ecHit elligator_map x25519 blake2b16 verify16 sk row
  end.

(** Blocks per row of each KEM. *)
Definition blocksOfKem (k : PsiKemKind) : nat := match k with ObfMlKem => KEM_key_block_size | EcKem => 3 end.

Lemma kemRowBlocks_value cfg : kemRowBlocks cfg = Ok (blocksOfKem (kind cfg)).
Proof. destruct cfg as [[|]]; vm_compute; reflexivity. Qed.

(** What a session relies on, for the KEM it uses. *)
Definition session_ok (k : PsiKemKind) : Prop :=
  match k with
  | ObfMlKem => native_laws keypair_derand enc_derand dec hashByte deterministic keySeed encSeed
  | EcKem => ec_session elligator_map elligator_key_pair x25519 blake2b16 verify16 ecKeySeed ecEncSeed
  end.

Lemma row_laws k : session_ok k →
  RowKemLaws (blocksOfKem k) (genRowOf k (blocksOfKem k)) (encapRowOf k (blocksOfKem k)) (hitRowOf k (blocksOfKem k)).
Proof.
  destruct k; intros Hs.
  - exact (ml_row_laws _ _ _ _ _ _ _ Hs "genMlKemKeys" "encapMlKem").
  - exact (ec_row_laws _ _ _ _ _ _ _ Hs).
Qed.

Abbreviation gen := (genRows hw keypair_derand hashByte elligator_key_pair deterministic keySeed ecKeySeed).
Abbreviation encap := (encapRows hw enc_derand elligator_map elligator_key_pair x25519 blake2b16 encSeed ecEncSeed).
Abbreviation count := (countHits hw dec elligator_map x25519 blake2b16 verify16).

Lemma whole_rows n r (rows : list block) : 0 < r → length rows = n * r → (length rows mod r =? 0) = true ∧ length rows / r = n.
Proof. intros Hr ->. by rewrite Nat.Div0.mod_mul, Nat.div_mul by lia. Qed.

Lemma blocksOfKem_pos k : 0 < blocksOfKem k.
Proof. destruct k; apply Nat.ltb_lt; reflexivity. Qed.

Lemma genRows_ok cfg n pk0 mt wt : session_ok (kind cfg) → rows_ok n (blocksOfKem (kind cfg)) pk0 →
  ∃ sks pks, gen cfg pk0 (blocksOfKem (kind cfg)) mt wt = Ok (sks, pks) ∧ length sks = n ∧
    rows_ok n (blocksOfKem (kind cfg)) pks ∧
    ∀ i, i < n → genRowOf (kind cfg) (blocksOfKem (kind cfg)) i = Ok (nth i sks [], rowPtr pks (blocksOfKem (kind cfg)) i).
Proof.
  intros Hs Hpk. pose proof (row_laws _ Hs) as Hl. destruct (whole_rows _ _ _ (blocksOfKem_pos (kind cfg)) (proj1 Hpk)) as [Hm Hd].
  unfold genRows, genMlKemKeys, genEcKeys. rewrite kemRowBlocks_value, Hm, Hd.
  destruct (kind cfg); cbn [mbind Res_bind blocksOfKem kind]; rewrite Nat.eqb_refl; cbn [negb orb throw_if mbind Res_bind].
  - apply (gen_loop hw 8 mt wt _ _ _ _ n); [apply length_replicate|exact Hpk].
  - apply (gen_loop hw 8 mt wt _ _ _ _ n); [apply length_replicate|exact Hpk].
Qed.

Lemma encapRows_ok cfg n rows mt wt : session_ok (kind cfg) → rows_ok n (blocksOfKem (kind cfg)) rows →
  ∃ out, encap cfg rows (blocksOfKem (kind cfg)) mt wt = Ok out ∧ rows_ok n (blocksOfKem (kind cfg)) out ∧
    ∀ i, i < n → encapRowOf (kind cfg) (blocksOfKem (kind cfg)) i (rowPtr rows (blocksOfKem (kind cfg)) i)
      = Ok (rowPtr out (blocksOfKem (kind cfg)) i).
Proof.
  intros Hs Hrows. pose proof (row_laws _ Hs) as Hl. destruct (whole_rows _ _ _ (blocksOfKem_pos (kind cfg)) (proj1 Hrows)) as [Hm Hd].
  unfold encapRows, encapMlKem, encapEc. rewrite kemRowBlocks_value, Hm, Hd.
  destruct (kind cfg); cbn [mbind Res_bind blocksOfKem kind]; rewrite Nat.eqb_refl; cbn [negb orb throw_if mbind Res_bind].
  - apply (encap_loop hw 8 mt wt _ _ _ _ n); exact Hrows.
  - apply (encap_loop hw 8 mt wt _ _ _ _ n); exact Hrows.
Qed.

Lemma countHits_ok cfg n sks rows mt wt : session_ok (kind cfg) → length sks = n →
  rows_ok n (blocksOfKem (kind cfg)) rows →
  (∀ i, i < n → ∃ pk, genRowOf (kind cfg) (blocksOfKem (kind cfg)) i = Ok (nth i sks [], pk)) →
  ∃ b, count cfg sks rows (blocksOfKem (kind cfg)) mt wt = Ok (hits b n) ∧
    ∀ i, i < n → hitRowOf (kind cfg) (blocksOfKem (kind cfg)) (nth i sks []) (rowPtr rows (blocksOfKem (kind cfg)) i) = Ok (b i).
Proof.
  intros Hs Hl Hrows Hg. pose proof (row_laws _ Hs) as Hlaws.
  unfold countHits, countDecapHits, countEcHits. rewrite kemRowBlocks_value, Hl, (proj1 Hrows).
  destruct (kind cfg); cbn [mbind Res_bind blocksOfKem kind] in *; rewrite !Nat.eqb_refl; cbn [negb orb throw_if mbind Res_bind].
  - exact (hit_loop hw mt wt _ _ _ (hitRowOf ObfMlKem KEM_key_block_size) n sks rows Hrows Hg).
  - exact (hit_loop hw mt wt _ _ _ (hitRowOf EcKem 3) n sks rows Hrows Hg).
Qed.
End Session.

Lemma hits_all b n : (∀ i, i < n → b i = true) → hits b n = n.
Proof. induction n as [|n IH]; intros Hb; cbn [hits]; [done|]. rewrite IH by auto. rewrite Hb by lia. lia. Qed.


(** * A concrete instance: the elliptic-curve KEM over the stand-in curve *)

Lemma toy_ec_session (a b : Z) : in_word 8 a → in_word 8 b →
  ec_session (fun r => r) (fun s => (s, s)) xorv EcKem.toyHash EcKem.toyVerify
    (fun _ => replicate 32 a) (fun _ => replicate 32 b).
Proof.
  intros Ha Hb. split; [apply EcKem.toy_laws|intros _|intros _]; (split; [apply length_replicate|by apply Forall_replicate]).
Qed.

End KemRows.
