(* ===== verification/Protocol.v ===== *)
(** The two parties of the protocol: frontend/pqpsi/protocols/recv.cpp, send.cpp and the context of
    party.h, as the local phases between two network operations.

    A phase is a function of the context and of what the phase before it kept. Clock readings, traces
    and the simulated network delay are left out. The result of [RBEncode] is not looked at,
    as in the code. *)
From S2P Require Import Prelude Words Parallel RbBits Fit RbRows RbSolve RbCodec RbOkvs RbTypes PermApi BitBuf.
From S2P Require Import Xoodoo MlKem KemBits Kemeleon EcKem Rows KemRows.
Open Scope nat_scope.

Module Protocol.
Import Rows.

(** * Parameters and context *)

(** Code outside the repository: the number of hardware threads, AES-128, [std::log2], mlkem-native,
    the one-byte hash of the codec, and Monocypher. *)
Record Lib : Type := mkLib {
  l_hw : nat;
  l_aes : block → block → block;
  l_log2 : double → double;
  l_keypair : MlKem.Mode → list Z → option (list Z * list Z);
  l_enc : MlKem.Mode → list Z → list Z → option (list Z * list Z);
  l_dec : MlKem.Mode → list Z → list Z → option (list Z);
  l_hash : list Z → Z;
  l_map : list Z → list Z;
  l_pair : list Z → list Z * list Z;
  l_x25519 : list Z → list Z → list Z;
  l_blake : list Z → list Z;
  l_verify : list Z → list Z → bool;
}.

(** The randomness of a run: key seeds of the receiver, encapsulation seeds of the sender. *)
Record Rand : Type := mkRand {
  r_deterministic : bool;
  r_keySeed : nat → nat → list Z;
  r_encSeed : nat → list Z;
  r_ecKeySeed : nat → list Z;
  r_ecEncSeed : nat → list Z;
}.

(** party.h. The channels are the state of the network (Session.v). *)
Record Ctx : Type := mkCtx {
  tableSize : nat;
  bandWidth : nat;
  rowSize : nat;
  multiThread : bool;
  workerThreads : nat;
  rb : RBParams;
  kem : KemRows.KemCfg;
  bobPi : bool;
  ownPi : Perm;
  peerPi : Perm;
  set : list block;
}.

Definition zeroRows (n rowSize : nat) : list block := replicate (n * rowSize) ZeroBlock.

Section Party.
Context (L : Lib) (R : Rand) (ctx : Ctx).
Abbreviation n := (length (set ctx)).
Abbreviation r := (rowSize ctx).

(** The loops over the rows: turn [i] replaces row [i] by [f i] of it. *)
Definition eachRow (f : nat → list block → Res (list block)) (rows : list block) : Res (list block) :=
  Tools.parallelFor (l_hw L) n 16 (multiThread ctx) (workerThreads ctx)
    (fun b e => forR b e (fun i rows => v ← f i (rowPtr rows r i); mret (setRow rows r i v))) rows.

(** Permute (or copy) a row, then add its mask. *)
Definition hideRow (perm : bool) (pi : Perm) (mask src : list block) : Res (list block) :=
  row ← (if perm then permute pi src r else mret src);
  mret (xorMask mask row r).

(** Remove the mask of a row, then apply the inverse permutation if there is one. *)
Definition revealRow (perm : bool) (pi : Perm) (mask row : list block) : Res (list block) :=
  let row := xorMask mask row r in
  if perm then unpermute pi row r else mret row.

Definition masksOf : Res (list block) :=
  precomputeMasks (l_hw L) (l_aes L) (set ctx) r (multiThread ctx) (workerThreads ctx).

Definition encode (rows buf : list block) : Res (list block) :=
  '(_, buf) ← RBEncode_flat (l_hw L) (l_aes L) (l_log2 L) (set ctx) rows r buf (rb ctx);
  mret buf.

Definition decode (buf : list block) : Res (list block) :=
  RBDecode_flat (l_hw L) (l_aes L) (l_log2 L) buf r (set ctx) (rb ctx).

(** * recv.cpp *)

(** [Recv] up to the network: the secret keys, the masks and the table to send. *)
Definition recvPrepare : Res (list (list Z) * list block * list block) :=
  let pk := zeroRows n r in
  '(sk, pk) ← KemRows.genRows (l_hw L) (l_keypair L) (l_hash L) (l_pair L) (r_deterministic R) (r_keySeed R)
    (r_ecKeySeed R) (kem ctx) pk r (multiThread ctx) (workerThreads ctx);
  masks ← masksOf;
  rows ← eachRow (fun i _ => hideRow true (ownPi ctx) (rowPtr masks r i) (rowPtr pk r i)) (zeroRows n r);
  buf ← encode rows (zeroRows (tableSize ctx) r);
  mret (sk, masks, buf).

(** [Recv] after the network: the number of hits. *)
Definition recvFinish (sk : list (list Z)) (masks recvBuf : list block) : Res nat :=
  rows ← decode recvBuf;
  rows ← eachRow (fun i row => revealRow (bobPi ctx) (peerPi ctx) (rowPtr masks r i) row) rows;
  KemRows.countHits (l_hw L) (l_dec L) (l_map L) (l_x25519 L) (l_blake L) (l_verify L) (kem ctx) sk rows r
    (multiThread ctx) (workerThreads ctx).

(** * send.cpp *)

(** [Send] between the two network operations, after the masks: the table to send back. *)
Definition sendRespond (masks buf : list block) : Res (list block) :=
  rows ← decode buf;
  rows ← eachRow (fun i row => revealRow true (peerPi ctx) (rowPtr masks r i) row) rows;
  ct ← KemRows.encapRows (l_hw L) (l_enc L) (l_map L) (l_pair L) (l_x25519 L) (l_blake L) (r_encSeed R) (r_ecEncSeed R)
    (kem ctx) rows r (multiThread ctx) (workerThreads ctx);
  rows ← eachRow (fun i _ => hideRow (bobPi ctx) (ownPi ctx) (rowPtr masks r i) (rowPtr ct r i)) rows;
  encode rows buf.
End Party.

(** * What a phase relies on *)

(** The context of a party with [m] items whose parameters resolve to [cfg]. *)
Record ctx_ok (L : Lib) (cfg : RBInfo) (ctx : Ctx) : Prop := {
  co_aes : aes_ok (l_aes L);
  co_set : set ctx ≠ [];
  co_row : rowSize ctx = KemRows.blocksOfKem (KemRows.kind (kem ctx));
  co_info : RBInfoOf (l_hw L) (l_log2 L) (length (set ctx)) (rb ctx) = Ok cfg;
  co_table : tableSize ctx = i_columns cfg;
  co_agree : params_agree (l_log2 L) (length (set ctx)) (rb ctx);
  co_own : PermLaws (ownPi ctx) (16 * rowSize ctx);
  co_peer : PermLaws (peerPi ctx) (16 * rowSize ctx);
}.

(** The external KEM with this randomness (KemRows.v). *)
Definition kem_ok (L : Lib) (R : Rand) : KemRows.PsiKemKind → Prop :=
  KemRows.session_ok (l_keypair L) (l_enc L) (l_dec L) (l_hash L) (l_map L) (l_pair L) (l_x25519 L) (l_blake L)
    (l_verify L) (r_deterministic R) (r_keySeed R) (r_encSeed R) (r_ecKeySeed R) (r_ecEncSeed R).

(** The three row functions of the KEM. *)
Definition genRow (L : Lib) (R : Rand) := KemRows.genRowOf (l_keypair L) (l_hash L) (l_pair L) (r_deterministic R) (r_keySeed R) (r_ecKeySeed R).
Definition encapRow (L : Lib) (R : Rand) := KemRows.encapRowOf (l_enc L) (l_map L) (l_pair L) (l_x25519 L) (l_blake L) (r_encSeed R) (r_ecEncSeed R).
Definition hitRow (L : Lib) := KemRows.hitRowOf (l_dec L) (l_map L) (l_x25519 L) (l_blake L) (l_verify L).

(** A table that may travel between the parties. *)
Definition table_ok (ctx : Ctx) (buf : list block) : Prop := rows_ok (tableSize ctx) (rowSize ctx) buf.

(** * The phases never fail *)

Section Phase.
Context (L : Lib) (R : Rand) (cfg : RBInfo) (ctx : Ctx) (Hctx : ctx_ok L cfg ctx) (Hkem : kem_ok L R (KemRows.kind (kem ctx))).
Abbreviation n := (length (set ctx)).
Abbreviation r := (rowSize ctx).
Abbreviation k := (KemRows.kind (kem ctx)).

Lemma row_pos : 0 < r.
Proof. rewrite (co_row _ _ _ Hctx). apply KemRows.blocksOfKem_pos. Qed.

Lemma masksOf_ok : ∃ masks, masksOf L ctx = Ok masks ∧ rows_ok n r masks ∧
  ∀ i, i < n → rowPtr masks r i = fillMask (l_aes L) (set ctx).[i] r.
Proof. apply precomputeMasks_ok, (co_aes _ _ _ Hctx). Qed.

Lemma eachRow_ok f rows : rows_ok n r rows →
  (∀ i row, i < n → row_ok r row → ∃ v, f i row = Ok v ∧ row_ok r v) →
  ∃ out, eachRow L ctx f rows = Ok out ∧ rows_ok n r out ∧ ∀ i, i < n → f i (rowPtr rows r i) = Ok (rowPtr out r i).
Proof.
  intros Hrows Hf. set (g := fun i => match f i (rowPtr rows r i) with Ok v => v | Throw _ => [] end).
  assert (Hg : ∀ i, i < n → f i (rowPtr rows r i) = Ok (g i) ∧ row_ok r (g i)).
  { intros i Hi. destruct (Hf i (rowPtr rows r i) Hi (rowPtr_ok _ _ _ _ Hrows Hi)) as (v & Hv & Hok). unfold g. by rewrite Hv. }
  destruct (par_rows (l_hw L) 16 (multiThread ctx) (workerThreads ctx) n r f g rows Hrows Hg) as (out & E & Hok & Hout).
  exists out. split; [exact E|]. split; [done|]. intros i Hi. rewrite Hout by done. by apply Hg.
Qed.

Lemma hideRow_ok perm pi mask src : PermLaws pi (16 * r) → row_ok r mask → row_ok r src →
  ∃ row, hideRow ctx perm pi mask src = Ok row ∧ row_ok r row ∧ revealRow ctx perm pi mask row = Ok src.
Proof.
  intros Hpi Hm Hs. unfold hideRow, revealRow. destruct perm; cbn [mbind Res_bind].
  - destruct (permute_ok pi r src Hs) as (c & -> & Hc & Hu). cbn [mbind Res_bind]. eexists. split; [reflexivity|].
    destruct (xorMask_ok mask c r Hm Hc) as [Hok ->]. split; [done|exact Hu].
  - eexists. split; [reflexivity|]. destruct (xorMask_ok mask src r Hm Hs) as [Hok E]. split; [done|]. by rewrite E.
Qed.

Lemma revealRow_ok perm pi mask row : PermLaws pi (16 * r) → row_ok r mask → row_ok r row →
  ∃ out, revealRow ctx perm pi mask row = Ok out ∧ row_ok r out.
Proof.
  intros Hpi Hm Hs. destruct (xorMask_ok mask row r Hm Hs) as [Hok _]. unfold revealRow. destruct perm; [by apply unpermute_ok|].
  by eexists.
Qed.

Lemma table_pos : 0 < tableSize ctx.
Proof.
  destruct (RBInfoOf_inv _ _ _ _ _ (co_info _ _ _ Hctx)) as (_ & _ & Hw & Hc & _). rewrite (co_table _ _ _ Hctx). lia.
Qed.

Lemma set_pos : length (set ctx) ≠ 0.
Proof. intros E. by apply (co_set _ _ _ Hctx), nil_length_inv. Qed.

(** Encoding, whether or not the key masks are dependent. *)
Lemma encode_ok rows buf : rows_ok n r rows → table_ok ctx buf →
  ∃ ok tb, RBEncode_flat (l_hw L) (l_aes L) (l_log2 L) (set ctx) rows r buf (rb ctx) = Ok (ok, tb) ∧
    encode L ctx rows buf = Ok tb ∧ table_ok ctx tb ∧ (ok = false → tb = buf) ∧
    (ok = true ↔ ¬ keys_dependent (l_aes L) (i_bandWidth cfg) (i_columns cfg) (rb ctx) (set ctx)) ∧
    (ok = true → ∀ i, i < n → okvs_eval (l_aes L) (i_bandWidth cfg) (i_columns cfg) r (rb ctx) (RBRowPtr tb r) (set ctx).[i]
       = rowPtr rows r i).
Proof.
  intros [Hl Hb] [Htl Htb]. pose proof (co_aes _ _ _ Hctx) as Ha.
  destruct (RBEncode_flat_spec (l_hw L) (l_aes L) (l_log2 L) (set ctx) rows buf r (rb ctx) cfg Ha (co_set _ _ _ Hctx) Hl row_pos
    (co_info _ _ _ Hctx)) as [[E Hd]|(tb & E & Hlen & Hd & Heval)].
  - exists false, buf. split; [exact E|]. unfold encode. rewrite E. cbn [mbind Res_bind]. do 3 (split; [done|]). split; [|done].
    split; [done|]. intros Hn. by destruct Hn.
  - exists true, tb. split; [exact E|]. unfold encode. rewrite E. cbn [mbind Res_bind]. split; [done|].
    split; [|split; [done|split; [done|intros _; exact Heval]]].
    split; [by rewrite Hlen, (co_table _ _ _ Hctx)|]. exact (RBEncode_flat_words _ _ _ _ _ _ _ _ _ _ Ha Hb Htb E).
Qed.

(** Decoding any table of the right size. *)
Lemma decode_ok buf : table_ok ctx buf → ∃ out, decode L ctx buf = Ok out ∧ rows_ok n r out ∧
  ∀ j key, set ctx !! j = Some key →
    rowPtr out r j = okvs_eval (l_aes L) (i_bandWidth cfg) (i_columns cfg) r (rb ctx) (RBRowPtr buf r) key.
Proof.
  intros [Hl Hb]. pose proof (co_aes _ _ _ Hctx) as Ha.
  destruct (params_agree_width (l_hw L) _ _ _ _ set_pos (co_agree _ _ _ Hctx) (co_info _ _ _ Hctx)) as (Hw & Hcol & Hdw).
  rewrite (co_table _ _ _ Hctx) in Hl.
  pose proof (RBDecode_flat_spec (l_hw L) (l_aes L) (l_log2 L) buf r (set ctx) (rb ctx) _ _ Ha row_pos Hl Hw Hdw) as E.
  eexists. split; [exact E|]. split; [|intros j key Hj; by apply decoded_row].
  split; [apply decoded_length|]. by apply (RBDecode_flat_words _ _ _ _ _ _ _ _ Hb E).
Qed.

Lemma recvPrepare_ok : ∃ sks pks masks rows buf,
  recvPrepare L R ctx = Ok (sks, masks, buf) ∧ length sks = n ∧ rows_ok n r pks ∧
  (∀ i, i < n → genRow L R k r i = Ok (nth i sks [], rowPtr pks r i)) ∧
  masksOf L ctx = Ok masks ∧ rows_ok n r rows ∧
  (∀ i, i < n → hideRow ctx true (ownPi ctx) (rowPtr masks r i) (rowPtr pks r i) = Ok (rowPtr rows r i)) ∧
  encode L ctx rows (zeroRows (tableSize ctx) r) = Ok buf.
Proof.
  destruct masksOf_ok as (masks & Hm & Hmok & _). pose proof (co_row _ _ _ Hctx) as Hr.
  destruct (KemRows.genRows_ok (l_hw L) _ _ _ _ _ _ _ _ _ _ _ _ _ _ (kem ctx) n (zeroRows n r) (multiThread ctx) (workerThreads ctx)
    Hkem) as (sks & pks & Hg & Hl & Hpk & Hrow).
  { rewrite <- Hr. apply zero_rows_ok. }
  rewrite <- Hr in Hg, Hpk, Hrow.
  destruct (eachRow_ok (fun i _ => hideRow ctx true (ownPi ctx) (rowPtr masks r i) (rowPtr pks r i)) (zeroRows n r) (zero_rows_ok _ _))
    as (rows & He & Hrows & Hhide).
  { intros i _ Hi _. destruct (hideRow_ok true (ownPi ctx) (rowPtr masks r i) (rowPtr pks r i) (co_own _ _ _ Hctx)) as (v & Hv & Hok & _);
      [by apply (rowPtr_ok n)|by apply (rowPtr_ok n)|]. by exists v. }
  destruct (encode_ok rows (zeroRows (tableSize ctx) r) Hrows (zero_rows_ok _ _)) as (ok & buf & _ & Hbuf & _).
  exists sks, pks, masks, rows, buf. split; [|by auto 10].
  unfold recvPrepare. rewrite Hg. cbn [mbind Res_bind]. rewrite Hm. cbn [mbind Res_bind]. rewrite He. cbn [mbind Res_bind].
  rewrite Hbuf. reflexivity.
Qed.

Lemma sendRespond_ok masks buf : masksOf L ctx = Ok masks → table_ok ctx buf → ∃ dec pks cts rows out,
  sendRespond L R ctx masks buf = Ok out ∧ decode L ctx buf = Ok dec ∧
  (∀ i, i < n → revealRow ctx true (peerPi ctx) (rowPtr masks r i) (rowPtr dec r i) = Ok (rowPtr pks r i)) ∧
  (∀ i, i < n → encapRow L R k r i (rowPtr pks r i) = Ok (rowPtr cts r i)) ∧ rows_ok n r cts ∧ rows_ok n r rows ∧
  (∀ i, i < n → hideRow ctx (bobPi ctx) (ownPi ctx) (rowPtr masks r i) (rowPtr cts r i) = Ok (rowPtr rows r i)) ∧
  encode L ctx rows buf = Ok out.
Proof.
  intros Hmasks Htb. destruct masksOf_ok as (masks' & Hm & Hmok & _). rewrite Hmasks in Hm. injection Hm as <-.
  destruct (decode_ok buf Htb) as (dec & Hd & Hdec & _).
  destruct (eachRow_ok (fun i row => revealRow ctx true (peerPi ctx) (rowPtr masks r i) row) dec Hdec) as (pks & Hp & Hpks & Hreveal).
  { intros i row Hi Hrow. apply revealRow_ok; [apply (co_peer _ _ _ Hctx)|by apply (rowPtr_ok n)|done]. }
  pose proof (co_row _ _ _ Hctx) as Hr.
  destruct (KemRows.encapRows_ok (l_hw L) _ _ _ _ _ _ _ _ _ _ _ _ _ _ (kem ctx) n pks (multiThread ctx) (workerThreads ctx)
    Hkem) as (cts & Hc & Hcts & Henc); [by rewrite <- Hr|]. rewrite <- Hr in Hc, Hcts, Henc.
  destruct (eachRow_ok (fun i _ => hideRow ctx (bobPi ctx) (ownPi ctx) (rowPtr masks r i) (rowPtr cts r i)) pks Hpks)
    as (rows & He & Hrows & Hhide).
  { intros i _ Hi _. destruct (hideRow_ok (bobPi ctx) (ownPi ctx) (rowPtr masks r i) (rowPtr cts r i) (co_own _ _ _ Hctx)) as (v & Hv & Hok & _);
      [by apply (rowPtr_ok n)|by apply (rowPtr_ok n)|]. by exists v. }
  destruct (encode_ok rows buf Hrows Htb) as (ok & out & _ & Hout & _).
  exists dec, pks, cts, rows, out. split; [|by auto 10].
  unfold sendRespond. rewrite Hd. cbn [mbind Res_bind]. rewrite Hp. cbn [mbind Res_bind]. rewrite Hc. cbn [mbind Res_bind].
  rewrite He. cbn [mbind Res_bind]. exact Hout.
Qed.

Lemma recvFinish_ok sks masks buf : masksOf L ctx = Ok masks → table_ok ctx buf → length sks = n →
  (∀ i, i < n → ∃ pk, genRow L R k r i = Ok (nth i sks [], pk)) → ∃ dec rows b,
  recvFinish L ctx sks masks buf = Ok (hits b n) ∧ decode L ctx buf = Ok dec ∧
  (∀ i, i < n → revealRow ctx (bobPi ctx) (peerPi ctx) (rowPtr masks r i) (rowPtr dec r i) = Ok (rowPtr rows r i)) ∧
  (∀ i, i < n → hitRow L k r (nth i sks []) (rowPtr rows r i) = Ok (b i)).
Proof.
  intros Hmasks Htb Hl Hgen. destruct masksOf_ok as (masks' & Hm & Hmok & _). rewrite Hmasks in Hm. injection Hm as <-.
  destruct (decode_ok buf Htb) as (dec & Hd & Hdec & _).
  destruct (eachRow_ok (fun i row => revealRow ctx (bobPi ctx) (peerPi ctx) (rowPtr masks r i) row) dec Hdec) as (rows & Hp & Hrows & Hreveal).
  { intros i row Hi Hrow. apply revealRow_ok; [apply (co_peer _ _ _ Hctx)|by apply (rowPtr_ok n)|done]. }
  pose proof (co_row _ _ _ Hctx) as Hr. rewrite Hr in Hgen.
  destruct (KemRows.countHits_ok (l_hw L) _ _ _ _ _ _ _ _ _ _ _ _ _ _ (kem ctx) n sks rows (multiThread ctx) (workerThreads ctx)
    Hkem Hl) as (b & Hb & Hhit); [by rewrite <- Hr|exact Hgen|]. rewrite <- Hr in Hb, Hhit.
  exists dec, rows, b. split; [|by auto].
  unfold recvFinish. rewrite Hd. cbn [mbind Res_bind]. rewrite Hp. cbn [mbind Res_bind]. exact Hb.
Qed.
End Phase.

(** * The exchange *)

Lemma hits_le b m : hits b m ≤ m.
Proof. induction m as [|m IH]; cbn [hits]; [done|]. destruct (b m); lia. Qed.

(** The contexts of the receiver [c0] and the sender [c1] of one run. *)
Record matched (c0 c1 : Ctx) : Prop := {
  ma_kem : kem c1 = kem c0;
  ma_rb : rb c1 = rb c0;
  ma_bob : bobPi c1 = bobPi c0;
  ma_length : length (set c1) = length (set c0);
  ma_fwd : peerPi c1 = ownPi c0;
  ma_back : peerPi c0 = ownPi c1;
}.

(** The masks of the items are linearly independent, so that [RBEncode] succeeds. *)
Definition independent (L : Lib) (cfg : RBInfo) (ctx : Ctx) : Prop :=
  ¬ keys_dependent (l_aes L) (i_bandWidth cfg) (i_columns cfg) (rb ctx) (set ctx).

Section Exchange.
Context (L : Lib) (R : Rand) (cfg : RBInfo) (c0 c1 : Ctx).
Context (H0 : ctx_ok L cfg c0) (H1 : ctx_ok L cfg c1) (Hm : matched c0 c1) (Hkem : kem_ok L R (KemRows.kind (kem c0))).
Abbreviation n := (length (set c0)).
Abbreviation r := (rowSize c0).

Lemma same_row : rowSize c1 = r.
Proof. rewrite (co_row _ _ _ H0), (co_row _ _ _ H1). by rewrite (ma_kem _ _ Hm). Qed.

Lemma same_table buf : table_ok c1 buf ↔ table_ok c0 buf.
Proof. unfold table_ok. by rewrite same_row, (co_table _ _ _ H0), (co_table _ _ _ H1). Qed.

(** What one party encodes under a common item, the other decodes. *)
Lemma okvs_link ca cb rows buf buf' dec i j key : ctx_ok L cfg ca → ctx_ok L cfg cb → rb cb = rb ca → rowSize cb = rowSize ca →
  independent L cfg ca → rows_ok (length (set ca)) (rowSize ca) rows → table_ok ca buf →
  encode L ca rows buf = Ok buf' → decode L cb buf' = Ok dec → table_ok cb buf' →
  set ca !! i = Some key → set cb !! j = Some key → rowPtr dec (rowSize ca) j = rowPtr rows (rowSize ca) i.
Proof.
  intros Ha Hb Erb Er Hind Hrows Hbuf He Hd Ht Hi Hj.
  destruct (encode_ok L cfg ca Ha rows buf Hrows Hbuf) as (ok & tb & _ & E & _ & _ & Hok & Heval). rewrite He in E. injection E as <-.
  specialize (Heval (proj2 Hok Hind) i (lookup_lt_Some _ _ _ Hi)). rewrite (nth_lookup_Some _ _ _ _ Hi) in Heval.
  destruct (decode_ok L cfg cb Hb buf' Ht) as (dec' & E & _ & Hdec). rewrite Hd in E. injection E as <-.
  specialize (Hdec j key Hj). rewrite Erb, Er in Hdec. by rewrite Hdec.
Qed.

(** Masks of a common item are the same for both parties. *)
Lemma same_mask m0 m1 i j key : masksOf L c0 = Ok m0 → masksOf L c1 = Ok m1 →
  set c0 !! i = Some key → set c1 !! j = Some key → rowPtr m1 r j = rowPtr m0 r i ∧ row_ok r (rowPtr m0 r i).
Proof.
  intros E0 E1 Hi Hj. destruct (masksOf_ok L cfg c0 H0) as (m0' & E & Hok & Hm0). rewrite E0 in E. injection E as <-.
  destruct (masksOf_ok L cfg c1 H1) as (m1' & E & _ & Hm1). rewrite E1 in E. injection E as <-.
  rewrite <- same_row at 1. rewrite Hm1, Hm0 by (by eapply lookup_lt_Some).
  rewrite (nth_lookup_Some _ _ _ _ Hi), (nth_lookup_Some _ _ _ _ Hj), same_row. split; [done|].
  apply fillMask_ok, (co_aes _ _ _ H0).
Qed.

(** Hiding by one party and revealing by the other. *)
Lemma reveal_hide ca perm pi mask src row : rowSize ca = r → PermLaws pi (16 * r) → row_ok r mask → row_ok r src →
  hideRow c0 perm pi mask src = Ok row → revealRow ca perm pi mask row = Ok src.
Proof.
  intros Hr Hpi Hmask Hsrc Hh. destruct (hideRow_ok c0 perm pi mask src Hpi Hmask Hsrc) as (row' & E & _ & Hrev).
  rewrite Hh in E. injection E as <-. unfold revealRow in *. by rewrite Hr.
Qed.

Lemma hide_row ca perm pi mask src : rowSize ca = r → hideRow ca perm pi mask src = hideRow c0 perm pi mask src.
Proof. intros Hr. unfold hideRow. by rewrite Hr. Qed.

Lemma exchange : ∃ sks masks0 buf1 masks1 buf2 b,
  recvPrepare L R c0 = Ok (sks, masks0, buf1) ∧ table_ok c0 buf1 ∧ masksOf L c1 = Ok masks1 ∧
  sendRespond L R c1 masks1 buf1 = Ok buf2 ∧ table_ok c0 buf2 ∧
  recvFinish L c0 sks masks0 buf2 = Ok (hits b n) ∧
  (independent L cfg c0 → independent L cfg c1 →
   ∀ i j key, set c0 !! i = Some key → set c1 !! j = Some key → b i = true).
Proof.
  assert (Hk1 : kem_ok L R (KemRows.kind (kem c1))) by by rewrite (ma_kem _ _ Hm).
  destruct (recvPrepare_ok L R cfg c0 H0 Hkem) as (sks & pks & m0 & rows & buf1 & Eprep & Hl & Hpks & Hgen & Em0 & Hrows & Hhide & Eenc).
  assert (Hz : table_ok c0 (zeroRows (tableSize c0) r)) by apply zero_rows_ok.
  destruct (encode_ok L cfg c0 H0 rows _ Hrows Hz) as (o1 & t1 & _ & E1 & Ht1 & _). rewrite Eenc in E1. injection E1 as <-.
  destruct (masksOf_ok L cfg c1 H1) as (m1 & Em1 & _).
  destruct (sendRespond_ok L R cfg c1 H1 Hk1 m1 buf1 Em1 (proj2 (same_table _) Ht1))
    as (dec1 & pks1 & cts & rows1 & buf2 & Eresp & Edec1 & Hrev1 & Hencap & Hcts & Hrows1 & Hhide1 & Eenc1).
  destruct (encode_ok L cfg c1 H1 rows1 buf1 Hrows1 (proj2 (same_table _) Ht1)) as (o2 & t2 & _ & E2 & Ht2 & _).
  rewrite Eenc1 in E2. injection E2 as <-. apply same_table in Ht2.
  destruct (recvFinish_ok L R cfg c0 H0 Hkem sks m0 buf2 Em0 Ht2 Hl) as (dec2 & rows2 & b & Efin & Edec2 & Hrev2 & Hhit).
  { intros i Hi. eexists. by apply Hgen. }
  exists sks, m0, buf1, m1, buf2, b. do 6 (split; [done|]). intros Hi0 Hi1 i j key Hi Hj.
  pose proof (lookup_lt_Some _ _ _ Hi) as Hin. pose proof (lookup_lt_Some _ _ _ Hj) as Hjn.
  destruct (same_mask m0 m1 i j key Em0 Em1 Hi Hj) as [Emask Hmask]. pose proof same_row as Er.
  rewrite Er, (ma_kem _ _ Hm), (ma_bob _ _ Hm), (ma_fwd _ _ Hm) in *.
  (* the sender recovers the receiver's key *)
  pose proof (okvs_link c0 c1 rows _ buf1 dec1 i j key H0 H1 (ma_rb _ _ Hm) Er Hi0 Hrows Hz Eenc Edec1 (proj2 (same_table _) Ht1) Hi Hj) as Edec.
  specialize (Hrev1 j Hjn). rewrite Emask, Edec in Hrev1.
  rewrite (reveal_hide c1 _ _ _ _ _ Er (co_own _ _ _ H0) Hmask (rowPtr_ok n _ _ _ Hpks Hin) (Hhide i Hin)) in Hrev1.
  injection Hrev1 as Epk. specialize (Hencap j Hjn). rewrite <- Epk in Hencap.
  (* the receiver recovers the encapsulation *)
  assert (Edec' : rowPtr dec2 r i = rowPtr rows1 r j).
  { rewrite <- Er. apply (okvs_link c1 c0 rows1 buf1 buf2 dec2 j i key H1 H0); try done; rewrite ?Er; try done;
      [by rewrite (ma_rb _ _ Hm)|by apply same_table]. }
  specialize (Hrev2 i Hin). specialize (Hhide1 j Hjn). rewrite Emask, (hide_row c1) in Hhide1 by done.
  rewrite Edec', (ma_back _ _ Hm) in Hrev2.
  pose proof (co_own _ _ _ H1) as Hown1. rewrite Er in Hown1.
  rewrite (reveal_hide c0 _ _ _ _ _ eq_refl Hown1 Hmask (rowPtr_ok _ _ _ _ Hcts Hjn) Hhide1) in Hrev2.
  injection Hrev2 as Ect. specialize (Hhit i Hin). rewrite <- Ect in Hhit.
  pose proof (KemRows.row_laws _ _ _ _ _ _ _ _ _ _ _ _ _ _ _ Hkem) as Hlaws. rewrite <- (co_row _ _ _ H0) in Hlaws.
  pose proof (hit_correct i j _ _ _ (Hgen i Hin) Hencap) as Hc. unfold hitRow in Hhit. rewrite Hc in Hhit. congruence.
Qed.
End Exchange.

(** * Properties *)

(** C2 No table of the agreed size, however the peer made it, makes a party throw: the receiver gets a number of hits
    of at most the size of its set, and the sender a table to send back. *)
Theorem peer_tables_safe L R cfg ctx : ctx_ok L cfg ctx → kem_ok L R (KemRows.kind (kem ctx)) →
  ∃ sk masks buf, recvPrepare L R ctx = Ok (sk, masks, buf) ∧ table_ok ctx buf ∧
    (∀ peer, table_ok ctx peer → ∃ h, recvFinish L ctx sk masks peer = Ok h ∧ h ≤ length (set ctx)) ∧
    masksOf L ctx = Ok masks ∧
    (∀ peer, table_ok ctx peer → ∃ out, sendRespond L R ctx masks peer = Ok out ∧ table_ok ctx out).
Proof.
  intros Hc Hk. destruct (recvPrepare_ok L R cfg ctx Hc Hk) as (sks & pks & m & rows & buf & E & Hl & _ & Hgen & Em & Hrows & _ & Eenc).
  exists sks, m, buf. split; [done|].
  destruct (encode_ok L cfg ctx Hc rows _ Hrows (zero_rows_ok _ _)) as (ok & tb & _ & E1 & Htb & _).
  change (encode L ctx rows (zeroRows (tableSize ctx) (rowSize ctx)) = Ok tb) in E1. rewrite Eenc in E1. injection E1 as <-.
  split; [done|]. split; [|split; [done|]].
  - intros peer Hp. destruct (recvFinish_ok L R cfg ctx Hc Hk sks m peer Em Hp Hl) as (_ & _ & b & Ef & _).
    { intros i Hi. eexists. by apply Hgen. }
    eexists. split; [exact Ef|apply hits_le].
  - intros peer Hp. destruct (sendRespond_ok L R cfg ctx Hc Hk m peer Em Hp) as (_ & _ & _ & rows' & out & Eo & _ & _ & _ & _ & Hr' & _ & Ee).
    exists out. split; [done|]. destruct (encode_ok L cfg ctx Hc rows' peer Hr' Hp) as (ok' & tb' & _ & E1 & Htb' & _).
    rewrite Ee in E1. by injection E1 as <-.
Qed.

(** C24 When the masks of a party's items are dependent, so that its [RBEncode] returns [false], nothing is reported: the
    receiver sends the table of zero blocks, and the sender sends back the table it received. *)
Theorem encode_failure_silent L R cfg ctx : ctx_ok L cfg ctx → kem_ok L R (KemRows.kind (kem ctx)) → ¬ independent L cfg ctx →
  ∃ sk masks, recvPrepare L R ctx = Ok (sk, masks, zeroRows (tableSize ctx) (rowSize ctx)) ∧
    ∀ peer, table_ok ctx peer → sendRespond L R ctx masks peer = Ok peer.
Proof.
  intros Hc Hk Hd. destruct (recvPrepare_ok L R cfg ctx Hc Hk) as (sks & pks & m & rows & buf & E & Hl & _ & Hgen & Em & Hrows & _ & Eenc).
  assert (Hsame : ∀ rows tb out, rows_ok (length (set ctx)) (rowSize ctx) rows → table_ok ctx tb → encode L ctx rows tb = Ok out → out = tb).
  { intros rs tb out Hrs Htb Eo. destruct (encode_ok L cfg ctx Hc rs tb Hrs Htb) as (ok & tb' & _ & E1 & _ & Hf & Hok & _).
    rewrite Eo in E1. injection E1 as <-. apply Hf. destruct ok; [|done]. by destruct Hd; apply Hok. }
  exists sks, m. rewrite E. rewrite (Hsame _ _ _ Hrows (zero_rows_ok _ _) Eenc). split; [done|].
  intros peer Hp. destruct (sendRespond_ok L R cfg ctx Hc Hk m peer Em Hp) as (_ & _ & _ & rows' & out & Eo & _ & _ & _ & _ & Hr' & _ & Ee).
  rewrite Eo. f_equal. by apply (Hsame rows').
Qed.

(** Without items the receiver sends an empty table, although the sender waits for [tableSize] rows. *)
Lemma empty_set_table L R ctx sk masks buf : set ctx = [] → recvPrepare L R ctx = Ok (sk, masks, buf) → buf = [].
Proof.
  intros Hs H. unfold recvPrepare in H. apply bind_Ok in H as ([s p] & _ & H). apply bind_Ok in H as (m & _ & H).
  apply bind_Ok in H as (rows & _ & H). apply bind_Ok in H as (b & Hb & [= _ _ <-]).
  unfold encode, RBEncode_flat in Hb. rewrite Hs in Hb. by injection Hb.
Qed.

(** * A concrete session: the elliptic-curve KEM over a stand-in curve, and Xoodoo *)

Module Examples.
Import RbOkvs.Examples.

Definition toy_lib : Lib := mkLib 4 toy_aes toy_log2 (fun _ _ => None) (fun _ _ _ => None) (fun _ _ _ => None) (fun _ => 0%Z)
  (fun r => r) (fun s => (s, s)) xorv EcKem.toyHash EcKem.toyVerify.
Definition toy_rand : Rand := mkRand false (fun _ _ => []) (fun _ => []) (fun _ => replicate 32 3%Z) (fun _ => replicate 32 9%Z).

Definition toy_ctx (keys : list block) : Ctx := mkCtx 8 4 3 true 2 (toy_params 8 4) (KemRows.mkKemCfg KemRows.EcKem) true
  Xoodoo.Xoodoo.perm Xoodoo.Xoodoo.perm keys.

Lemma toy_kem : kem_ok toy_lib toy_rand KemRows.EcKem.
Proof. by apply KemRows.toy_ec_session. Qed.

Lemma toy_ctx_ok keys : length keys = 3 → ctx_ok toy_lib cfg3 (toy_ctx keys).
Proof.
  intros Hl. split; cbn [toy_ctx set rowSize kem rb tableSize ownPi peerPi].
  - apply toy_aes_ok.
  - by intros ->.
  - reflexivity.
  - rewrite Hl. apply cfg3_ok.
  - vm_compute. reflexivity.
  - apply params_agree_fixed; [right; rewrite Hl; cbn; lia|done].
  - apply Xoodoo.Xoodoo.xoodoo_laws.
  - apply Xoodoo.Xoodoo.xoodoo_laws.
Qed.

Lemma peer_tables_safe_witness : ∃ sk masks buf, recvPrepare toy_lib toy_rand (toy_ctx keys3) = Ok (sk, masks, buf) ∧
  ∃ h, recvFinish toy_lib (toy_ctx keys3) sk masks (zeroRows 8 3) = Ok h ∧ h ≤ 3.
Proof.
  destruct (peer_tables_safe toy_lib toy_rand cfg3 (toy_ctx keys3) (toy_ctx_ok keys3 eq_refl) toy_kem)
    as (sk & masks & buf & E & _ & Hf & _).
  exists sk, masks, buf. split; [exact E|]. apply (Hf (zeroRows 8 3)), zero_rows_ok.
Defined.

Lemma encode_failure_silent_witness : ∃ sk masks,
  recvPrepare toy_lib toy_rand (toy_ctx [11; 22; 11]%Z) = Ok (sk, masks, zeroRows 8 3).
Proof.
  destruct (encode_failure_silent toy_lib toy_rand cfg3 (toy_ctx [11; 22; 11]%Z) (toy_ctx_ok [11; 22; 11]%Z eq_refl) toy_kem)
    as (sk & masks & E & _).
  - intros Hd. apply Hd, (duplicate_dependent _ _ _ _ _ 0 2 11%Z); [lia|done|done].
  - exists sk, masks. exact E.
Defined.
End Examples.
End Protocol.
