(* ===== verification/Session.v ===== *)
(** A run of the two parties over the network: Recv and Send of frontend/pqpsi/protocols/recv.cpp and send.cpp
    as a step relation.

    Each party is a state machine whose states stand between the calls of its function; the parties
    move in any order. Posting a receive computes its jobs, [wait] is enabled once the
    messages have arrived, and the threads that send the pieces run in any order. *)
From stdpp Require Import relations.
From S2P Require Import Prelude Words Parallel RbBits Fit RbRows RbSolve RbCodec RbOkvs RbTypes PermApi BitBuf.
From S2P Require Import Xoodoo MlKem KemBits Kemeleon EcKem Net Rows KemRows Protocol.
Open Scope nat_scope.

Module Session.
Import Rows Protocol.

Definition Jobs : Type := list (nat * nat * nat).

(** [Recv]: before the call, after [asyncRecv], after [send], after [wait], returned. *)
Inductive RecvSt : Type :=
  | RInit
  | RPosted (sk : list (list Z)) (masks buf : list block) (okvs2Recv : Jobs)
  | RWaiting (sk : list (list Z)) (masks : list block) (size : nat) (okvs2Recv : Jobs)
  | RReceived (sk : list (list Z)) (masks recvBuf : list block)
  | RDone (hitOut : nat)
  | RFailed (e : exn).

(** [Send]: before the call, after [asyncRecv], after the masks, after [wait], after the encoding, returned. *)
Inductive SendSt : Type :=
  | SInit
  | SPosted (okvs1Recv : Jobs)
  | SWaiting (okvs1Recv : Jobs) (masks : list block)
  | SReceived (masks buf : list block)
  | SReady (buf : list block)
  | SDone
  | SFailed (e : exn).

(** The parties and the two directions of their channels. *)
Record State (C : Type) : Type := mkState {
  receiver : RecvSt;
  sender : SendSt;
  up : list C;
  down : list C;
}.
Arguments mkState {C}. Arguments receiver {C}. Arguments sender {C}. Arguments up {C}. Arguments down {C}.

Section Steps.
Context {C : Type} `{Channel C} (L : Lib) (R : Rand) (c0 c1 : Ctx).

Definition bytesOfTable (ctx : Ctx) : nat := 16 * (tableSize ctx * rowSize ctx).

(** A party sends a table in the order [order] of its threads. *)
Definition sends (ctx : Ctx) (buf : list block) (chls chls' : list C) : Prop :=
  ∃ order, order ≡ₚ seq 0 (length (Net.chunks (16 * length buf) (length chls))) ∧
    Net.send (multiThread ctx) order (bytesOf buf) chls = Ok chls'.

(** [wait] on the jobs fills a buffer of [size] blocks. *)
Definition receives (jobs : Jobs) (size : nat) (chls : list C) (buf : list block) (chls' : list C) : Prop :=
  ∃ data, Net.wait jobs (replicate (16 * size) 0%Z, chls) = Ok (data, chls') ∧ buf = blocksOf size data.

Inductive step : State C → State C → Prop :=
  | recv_prepare s u d sk masks buf : recvPrepare L R c0 = Ok (sk, masks, buf) →
      step (mkState RInit s u d)
        (mkState (RPosted sk masks buf (Net.asyncRecv (multiThread c0) (16 * length buf) d)) s u d)
  | recv_prepare_throws s u d e : recvPrepare L R c0 = Throw e →
      step (mkState RInit s u d) (mkState (RFailed e) s u d)
  | recv_send s u u' d sk masks buf jobs : sends c0 buf u u' →
      step (mkState (RPosted sk masks buf jobs) s u d) (mkState (RWaiting sk masks (length buf) jobs) s u' d)
  | recv_wait s u d d' sk masks size jobs buf : receives jobs size d buf d' →
      step (mkState (RWaiting sk masks size jobs) s u d) (mkState (RReceived sk masks buf) s u d')
  | recv_finish s u d sk masks buf h : recvFinish L c0 sk masks buf = Ok h →
      step (mkState (RReceived sk masks buf) s u d) (mkState (RDone h) s u d)
  | recv_finish_throws s u d sk masks buf e : recvFinish L c0 sk masks buf = Throw e →
      step (mkState (RReceived sk masks buf) s u d) (mkState (RFailed e) s u d)
  | send_post r u d :
      step (mkState r SInit u d) (mkState r (SPosted (Net.asyncRecv (multiThread c1) (bytesOfTable c1) u)) u d)
  | send_masks r u d jobs masks : masksOf L c1 = Ok masks →
      step (mkState r (SPosted jobs) u d) (mkState r (SWaiting jobs masks) u d)
  | send_masks_throws r u d jobs e : masksOf L c1 = Throw e →
      step (mkState r (SPosted jobs) u d) (mkState r (SFailed e) u d)
  | send_wait r u u' d jobs masks buf : receives jobs (tableSize c1 * rowSize c1) u buf u' →
      step (mkState r (SWaiting jobs masks) u d) (mkState r (SReceived masks buf) u' d)
  | send_respond r u d masks buf out : sendRespond L R c1 masks buf = Ok out →
      step (mkState r (SReceived masks buf) u d) (mkState r (SReady out) u d)
  | send_respond_throws r u d masks buf e : sendRespond L R c1 masks buf = Throw e →
      step (mkState r (SReceived masks buf) u d) (mkState r (SFailed e) u d)
  | send_send r u d d' buf : sends c1 buf d d' →
      step (mkState r (SReady buf) u d) (mkState r SDone u d').

(** Both functions returned and nothing is left on the channels. *)
Definition final (h : nat) (st : State C) : Prop :=
  receiver st = RDone h ∧ sender st = SDone ∧ Forall cidle (up st) ∧ Forall cidle (down st).
End Steps.

(** * What every reachable state satisfies *)

Section Invariant.
Context {C : Type} `{ChannelLaws C} (L : Lib) (R : Rand) (c0 c1 : Ctx) (up0 down0 : list C).
(** The values the phases compute. *)
Context (sks : list (list Z)) (masks0 buf1 masks1 buf2 : list block) (h : nat) (N : nat).
Context (Eprep : recvPrepare L R c0 = Ok (sks, masks0, buf1)) (Emasks : masksOf L c1 = Ok masks1)
  (Eresp : sendRespond L R c1 masks1 buf1 = Ok buf2) (Efin : recvFinish L c0 sks masks0 buf2 = Ok h).
Context (Hb1 : length buf1 = N) (Hb1ok : blocks_ok buf1) (Hb2 : length buf2 = N) (Hb2ok : blocks_ok buf2)
  (HN : tableSize c1 * rowSize c1 = N) (Hmt : multiThread c1 = multiThread c0).
Context (HN0 : 0 < N) (HN32 : (Z.of_nat (16 * N) < 2 ^ 32)%Z).
Context (Hup : 0 < length up0) (Hdown : 0 < length down0) (Hui : Forall cidle up0) (Hdi : Forall cidle down0).

Definition jobs0 : Jobs := Net.asyncRecv (multiThread c0) (16 * N) down0.
Definition jobs1 : Jobs := Net.asyncRecv (multiThread c0) (16 * N) up0.

(** Progress of the parties, and what each state keeps. *)
Definition recv_phase (r : RecvSt) : nat :=
  match r with RInit => 0 | RPosted _ _ _ _ => 1 | RWaiting _ _ _ _ => 2 | RReceived _ _ _ => 3 | RDone _ => 4 | RFailed _ => 5 end.
Definition send_phase (s : SendSt) : nat :=
  match s with SInit => 0 | SPosted _ => 1 | SWaiting _ _ => 2 | SReceived _ _ => 3 | SReady _ => 4 | SDone => 5 | SFailed _ => 6 end.

Definition recv_data (r : RecvSt) : Prop :=
  match r with
  | RInit => True
  | RPosted sk m buf jobs => sk = sks ∧ m = masks0 ∧ buf = buf1 ∧ jobs = jobs0
  | RWaiting sk m size jobs => sk = sks ∧ m = masks0 ∧ size = N ∧ jobs = jobs0
  | RReceived sk m buf => sk = sks ∧ m = masks0 ∧ buf = buf2
  | RDone x => x = h
  | RFailed _ => False
  end.
Definition send_data (s : SendSt) : Prop :=
  match s with
  | SInit | SDone => True
  | SPosted jobs => jobs = jobs1
  | SWaiting jobs m => jobs = jobs1 ∧ m = masks1
  | SReceived m buf => m = masks1 ∧ buf = buf1
  | SReady buf => buf = buf2
  | SFailed _ => False
  end.

(** One direction: untouched, carrying the table, or idle again. *)
Definition chan_inv (chls0 chls : list C) (buf : list block) (sent got : bool) : Prop :=
  match sent, got with
  | false, false => chls = chls0
  | true, false => sends c0 buf chls0 chls
  | true, true => Forall cidle chls
  | false, true => False
  end.

Definition recv_sent (r : RecvSt) : bool := match r with RWaiting _ _ _ _ | RReceived _ _ _ | RDone _ => true | _ => false end.
Definition recv_got (r : RecvSt) : bool := match r with RReceived _ _ _ | RDone _ => true | _ => false end.
Definition send_got (s : SendSt) : bool := match s with SReceived _ _ | SReady _ | SDone => true | _ => false end.
Definition send_sent (s : SendSt) : bool := match s with SDone => true | _ => false end.

Definition Inv (st : State C) : Prop :=
  recv_data (receiver st) ∧ send_data (sender st) ∧
  chan_inv up0 (up st) buf1 (recv_sent (receiver st)) (send_got (sender st)) ∧
  chan_inv down0 (down st) buf2 (send_sent (sender st)) (recv_got (receiver st)).

Lemma sends_mt buf (chls chls' : list C) : sends c1 buf chls chls' ↔ sends c0 buf chls chls'.
Proof. unfold sends. by rewrite Hmt. Qed.

Lemma table_msg buf : length buf = N → msg_ok (bytesOf buf).
Proof. intros Hb. unfold msg_ok. rewrite bytesOf_length, Hb. split; [lia|done]. Qed.

(** A table can be sent, and what was sent can be received, as it was. *)
Lemma can_send buf (chls : list C) : 0 < length chls → Forall cidle chls → length buf = N → ∃ chls', sends c0 buf chls chls'.
Proof.
  intros Hl Hi Hb. set (so := seq 0 (length (Net.chunks (length (bytesOf buf)) (length chls)))).
  destruct (Net.transfer (multiThread c0) chls (bytesOf buf) so so Hl Hi (table_msg buf Hb) (reflexivity _) (reflexivity _)) as (sent & Es & _).
  exists sent, so. unfold so. by rewrite <- bytesOf_length.
Qed.

Lemma table_arrives buf (chls chls' : list C) : 0 < length chls → Forall cidle chls → length buf = N → blocks_ok buf →
  sends c0 buf chls chls' → ∃ chls2,
    receives (Net.asyncRecv (multiThread c0) (16 * N) chls) N chls' buf chls2 ∧ Forall cidle chls2 ∧
    ∀ b2 chls3, receives (Net.asyncRecv (multiThread c0) (16 * N) chls) N chls' b2 chls3 → b2 = buf ∧ chls3 = chls2.
Proof.
  intros Hl Hi Hbl Hb (order & Ho & Es). rewrite <- bytesOf_length in Ho.
  destruct (Net.transfer (multiThread c0) chls (bytesOf buf) order order Hl Hi (table_msg buf Hbl) Ho Ho) as (sent & Es' & Hlen & _ & chls2 & Er & Hi2).
  rewrite Es in Es'. injection Es' as <-. rewrite (Net.asyncRecv_length _ _ _ _ Hlen) in Er.
  assert (Ebytes : length (bytesOf buf) = 16 * N) by by rewrite bytesOf_length, Hbl. rewrite Ebytes in Er.
  assert (Eb : blocksOf N (bytesOf buf) = buf) by (rewrite <- Hbl; by apply blocksOf_bytesOf).
  exists chls2. split; [exists (bytesOf buf); by rewrite Eb|]. split; [done|].
  intros b2 chls3 (data & Ed & ->). rewrite Er in Ed. injection Ed as <- <-. by rewrite Eb.
Qed.

Lemma nothing_yet (chls chls' : list C) size buf : 0 < length chls → Forall cidle chls →
  ¬ receives (Net.asyncRecv (multiThread c0) (16 * N) chls) size chls buf chls'.
Proof.
  intros Hl Hi (data & E & _). pose proof (Net.wait_idle (multiThread c0) (16 * N) (replicate (16 * size) 0%Z) chls Hl Hi) as Hw.
  by rewrite E in Hw.
Qed.

(** What a finished receive returned, from the state of its direction. *)
Lemma chan_receive chls0 chls chls' buf b2 sent : 0 < length chls0 → Forall cidle chls0 → length buf = N → blocks_ok buf →
  chan_inv chls0 chls buf sent false → receives (Net.asyncRecv (multiThread c0) (16 * N) chls0) N chls b2 chls' →
  sent = true ∧ b2 = buf ∧ Forall cidle chls'.
Proof.
  intros Hl Hi Hbl Hb Hc Hr. destruct sent; cbn [chan_inv] in Hc.
  - destruct (table_arrives buf chls0 chls Hl Hi Hbl Hb Hc) as (chls2 & _ & Hi2 & Hu). destruct (Hu _ _ Hr) as [-> ->]. done.
  - subst chls. by apply nothing_yet in Hr.
Qed.

(** Every step preserves the invariant and advances one of the parties by one phase. *)
Lemma step_inv st st' : Inv st → step L R c0 c1 st st' →
  Inv st' ∧ recv_phase (receiver st') + send_phase (sender st') = S (recv_phase (receiver st) + send_phase (sender st)).
Proof.
  intros (Hr & Hs & Hu & Hd) Hstep.
  destruct Hstep as [s u d sk masks buf E|s u d e E|s u u' d sk masks buf jobs E|s u d d' sk masks size jobs buf E|s u d sk masks buf x E
    |s u d sk masks buf e E|r u d|r u d jobs masks E|r u d jobs e E|r u u' d jobs masks buf E|r u d masks buf out E
    |r u d masks buf e E|r u d d' buf E]; unfold Inv;
    cbn [receiver sender up down recv_phase send_phase recv_data send_data recv_sent recv_got send_got send_sent] in *.
  - rewrite Eprep in E. injection E as <- <- <-. split; [|lia]. split; [|done].
    assert (Hd0 : d = down0) by (destruct s; cbn in Hd, Hu; done). by rewrite Hd0, Hb1.
  - by rewrite Eprep in E.
  - destruct Hr as (-> & -> & -> & ->). split; [|lia]. split; [by rewrite Hb1|]. split; [done|]. split; [|done].
    destruct (send_got s); cbn [chan_inv] in *; [done|]. by subst u.
  - destruct Hr as (-> & -> & -> & ->). destruct (chan_receive down0 d d' buf2 buf _ Hdown Hdi Hb2 Hb2ok Hd E) as (Hsent & -> & Hid).
    split; [|lia]. split; [done|]. split; [done|]. split; [done|]. by rewrite Hsent.
  - destruct Hr as (-> & -> & ->). rewrite Efin in E. injection E as <-. split; [done|lia].
  - destruct Hr as (-> & -> & ->). by rewrite Efin in E.
  - split; [|lia]. split; [done|]. split; [|done]. unfold jobs1, bytesOfTable. rewrite HN, Hmt.
    apply Net.asyncRecv_length. destruct (recv_sent r); cbn [chan_inv] in Hu; [|by subst u].
    destruct Hu as (order & _ & Es). by apply Net.send_length in Es.
  - rewrite Emasks in E. injection E as <-. split; [done|lia].
  - by rewrite Emasks in E.
  - destruct Hs as [-> ->]. rewrite HN in E. destruct (chan_receive up0 u u' buf1 buf _ Hup Hui Hb1 Hb1ok Hu E) as (Hsent & -> & Hid).
    split; [|lia]. split; [done|]. split; [done|]. by rewrite Hsent.
  - destruct Hs as [-> ->]. rewrite Eresp in E. injection E as <-. split; [done|lia].
  - destruct Hs as [-> ->]. by rewrite Eresp in E.
  - subst buf. apply sends_mt in E. split; [|lia]. split; [done|]. split; [done|]. split; [done|].
    destruct (recv_got r); cbn [chan_inv] in *; [done|]. by subst d.
Qed.

(** Every state with the invariant is final or has a step. *)
Lemma inv_progress st : Inv st → final h st ∨ ∃ st', step L R c0 c1 st st'.
Proof.
  destruct st as [r s u d]. intros (Hr & Hs & Hu & Hd). cbn [receiver sender up down] in *.
  destruct r as [|sk m buf jobs|sk m size jobs|sk m buf|x|e]; cbn [recv_data recv_sent recv_got] in *; [| | | | |done].
  - right. eexists. by apply recv_prepare.
  - destruct Hr as (-> & -> & -> & ->). right. destruct (can_send buf1 up0 Hup Hui Hb1) as (u' & E).
    assert (u = up0) as -> by (destruct (send_got s); cbn [chan_inv] in Hu; done). eexists. apply recv_send, E.
  - destruct Hr as (-> & -> & -> & ->). right. destruct s as [|jobs|jobs m|m buf|buf| |e]; cbn [send_data send_got send_sent chan_inv] in *.
    + eexists. apply send_post.
    + eexists. by apply send_masks.
    + destruct Hs as [-> ->]. destruct (table_arrives buf1 up0 u Hup Hui Hb1 Hb1ok Hu) as (u' & E & _).
      eexists. apply send_wait. rewrite HN. exact E.
    + destruct Hs as [-> ->]. eexists. by apply send_respond.
    + subst buf d. destruct (can_send buf2 down0 Hdown Hdi Hb2) as (d' & E). eexists. apply send_send, sends_mt, E.
    + destruct (table_arrives buf2 down0 d Hdown Hdi Hb2 Hb2ok Hd) as (d' & E & _). eexists. apply recv_wait, E.
    + done.
  - destruct Hr as (-> & -> & ->). right. eexists. by apply recv_finish.
  - left. subst x. destruct s; cbn [send_sent send_got chan_inv] in *; done.
Qed.

Lemma init_inv : Inv (mkState RInit SInit up0 down0).
Proof. done. Qed.

(** All executions have at most nine steps, and those that cannot go on have delivered. *)
Lemma runs_end k st : nsteps (step L R c0 c1) k (mkState RInit SInit up0 down0) st →
  k ≤ 9 ∧ (final h st ∨ ∃ st', step L R c0 c1 st st').
Proof.
  intros Hk. assert (Hinv : Inv st ∧ recv_phase (receiver st) + send_phase (sender st) = k).
  { remember (mkState RInit SInit up0 down0) as s0 eqn:E0.
    assert (H1 : Inv s0 ∧ recv_phase (receiver s0) + send_phase (sender s0) = 0) by (rewrite E0; split; [apply init_inv|done]).
    clear E0. change k with (0 + k). revert H1. generalize 0 as j.
    induction Hk as [s0|k s0 s1 s2 Hs _ IH]; intros j [Hi Hp]; [by rewrite Nat.add_0_r|].
    destruct (step_inv _ _ Hi Hs) as [Hi1 Hp1]. rewrite <- Nat.add_succ_comm. apply IH. split; [done|]. by rewrite Hp1, Hp. }
  destruct Hinv as [Hi Hp]. split; [|by apply inv_progress].
  destruct Hi as (Hr & Hs & _). destruct st as [r s u d]; cbn in *. destruct r, s; cbn in *; try done; lia.
Qed.
End Invariant.
End Session.
