(* ===== verification/Connect.v ===== *)
(** How the two parties of [pqpsi] connect (frontend/pqpsi/pqpsi.cpp): the settings read from the
    environment, the ports and the names of the channels, and the exchange of one byte over every channel
    before the protocol ([warmChannels]).  The parties of the exchange move in any order. *)
From stdpp Require Import relations.
From S2P Require Import Prelude Words PermApi BitBuf Parallel Feistel Hctr2 Sneik Small ConsPi Xoodoo Permutation Net.
Open Scope nat_scope.

Module Connect.

(** * The environment *)

Definition isspace (c : Ascii.ascii) : bool :=
  let n := Ascii.nat_of_ascii c in (n =? 32) || ((9 <=? n) && (n <=? 13)).

(** The value of the longest prefix of digits after [v], and whether there was a digit. *)
Fixpoint digits (s : list Ascii.ascii) (seen : bool) (v : Z) : bool * Z :=
  match s with
  | c :: s =>
      if PqPerm.isdigit c then digits s true (10 * v + (Z.of_nat (Ascii.nat_of_ascii c) - 48))%Z else (seen, v)
  | [] => (seen, v)
  end.

Fixpoint skip_space (s : list Ascii.ascii) : list Ascii.ascii :=
  match s with
  | c :: s' => if isspace c then skip_space s' else s
  | [] => []
  end.

(** [std::stoull] and [std::stoul] in base 10: leading space, a minus (45) or a plus
    (43), digits, and whatever follows; a value after a minus sign is negated modulo 2^64. *)
Definition std_stoull (s : string) : Res Z :=
  let s := skip_space (String.list_ascii_of_string s) in
  let '(neg, s) := match s with
    | c :: s' => if Ascii.nat_of_ascii c =? 45 then (true, s') else if Ascii.nat_of_ascii c =? 43 then (false, s') else (false, s)
    | [] => (false, [])
    end in
  let '(seen, v) := digits s false 0%Z in
  throw_if (negb seen) (InvalidArgument "stoull") ;;
  throw_if (2 ^ 64 <=? v)%Z (OutOfRange "stoull") ;;
  mret (if neg : bool then u64 (- v) else v).

(** The [env] arguments are the values of [std::getenv]. *)
Definition envSize (env : option string) (fallback : Z) : Z :=
  match env with
  | None => fallback
  | Some v => if String.eqb v "" then fallback else match std_stoull v with Ok n => n | Throw _ => fallback end
  end.

(** PQPSI_NET_CHANNELS *)
Definition netChannels (env : option string) (multiThread : bool) (workerThreads : nat) : nat :=
  let workerThreads := Z.of_nat workerThreads in
  let requestedChannels := envSize env workerThreads in
  let requestedChannels := if (requestedChannels =? 0)%Z then workerThreads else requestedChannels in
  if multiThread then Z.to_nat (Z.max 1 (Z.min requestedChannels workerThreads)) else 1.

(** PQPSI_RUN_TAG *)
Definition runName (env : option string) : string :=
  match env with
  | Some tag => if String.eqb tag "" then "psi" else String.append (String.append "psi" "_") tag
  | None => "psi"
  end.

(** PQPSI_PORT_BASE *)
Definition portBase (env : option string) : Z :=
  match env with
  | Some v => match std_stoull v with Ok n => u32 n | Throw _ => 1210%Z end
  | None => 1210%Z
  end.

(** * The endpoints *)

Record Endpoint : Type := mkEndpoint {
  e_port : Z;
  e_isServer : bool;
  e_name : string;
  e_channels : list string;
}.

Definition nParties : nat := 2.

Definition endpoint (me i nCh : nat) (base : Z) (run : string) : Endpoint :=
  let isServer := me <? i in
  let port := if isServer then u32 (base + Z.of_nat me * 10 + Z.of_nat i) else u32 (base + Z.of_nat i * 10 + Z.of_nat me) in
  mkEndpoint port isServer run
    (map (fun j => String.append (String.append run "_ch") (PqPerm.decimal (N.of_nat j))) (seq 0 nCh)).

(** [eps]: [None] at the party's own place. *)
Definition endpoints (me nCh : nat) (base : Z) (run : string) : list (option Endpoint) :=
  map (fun i => if i =? me then None else Some (endpoint me i nCh base run)) (seq 0 nParties).

(** ** The parties meet *)

Lemma append_inj a b c : String.append a b = String.append a c → b = c.
Proof. induction a as [|x a IH]; [done|]. cbn [String.append]. intros [= H]. by apply IH. Qed.

Lemma decimal_inj m n : (m < 2 ^ 64)%N → (n < 2 ^ 64)%N → PqPerm.decimal m = PqPerm.decimal n → m = n.
Proof.
  intros Hm Hn E. destruct (PqPerm.decimal_spec m) as (_ & _ & Em), (PqPerm.decimal_spec n) as (_ & _ & En).
  rewrite E, En in Em. destruct (Z.leb_spec (2 ^ 64) (Z.of_N n)); [lia|]. destruct (Z.leb_spec (2 ^ 64) (Z.of_N m)); [lia|].
  injection Em as Em. lia.
Qed.

Lemma names_NoDup run nCh : (N.of_nat nCh ≤ 2 ^ 64)%N →
  NoDup (map (fun j => String.append (String.append run "_ch") (PqPerm.decimal (N.of_nat j))) (seq 0 nCh)).
Proof.
  intros Hn. apply (NoDup_fmap_2_strong (fun j => String.append (String.append run "_ch") (PqPerm.decimal (N.of_nat j))));
    [|apply NoDup_seq]. intros i j Hi%elem_of_seq Hj%elem_of_seq E%append_inj.
  apply decimal_inj in E; lia.
Qed.

(** With the same settings the two parties meet: one listens and the other connects, on one port and
    under one name, and they open the same channels, whose names are distinct. *)
Theorem endpoints_meet nCh base run : (N.of_nat nCh ≤ 2 ^ 64)%N → ∃ e0 e1,
  endpoints 0 nCh base run = [None; Some e0] ∧ endpoints 1 nCh base run = [Some e1; None] ∧
  e_port e0 = e_port e1 ∧ e_isServer e0 = true ∧ e_isServer e1 = false ∧ e_name e0 = e_name e1 ∧
  e_channels e0 = e_channels e1 ∧ length (e_channels e0) = nCh ∧ NoDup (e_channels e0).
Proof.
  intros Hn. exists (endpoint 0 1 nCh base run), (endpoint 1 0 nCh base run).
  do 7 (split; [reflexivity|]). split; [apply length_map_seq|by apply names_NoDup].
Qed.

Lemma endpoints_meet_witness : ∃ e0 e1, endpoints 0 4 (portBase None) (runName (Some "a")) = [None; Some e0] ∧
  endpoints 1 4 (portBase None) (runName (Some "a")) = [Some e1; None] ∧ e_port e0 = e_port e1.
Proof.
  destruct (endpoints_meet 4 (portBase None) (runName (Some "a"))) as (e0 & e1 & H0 & H1 & Hp & _); [lia|].
  by exists e0, e1.
Defined.

Example names_read : runName (Some "a") = "psi_a" ∧ portBase (Some " +1300x") = 1300%Z ∧ portBase (Some "") = 1210%Z ∧
  e_channels (endpoint 0 1 2 1210 "psi_a") = ["psi_a_ch0"; "psi_a_ch1"] ∧ e_port (endpoint 0 1 2 1210 "psi_a") = 1211%Z.
Proof. repeat split. Qed.

(** There is always a channel, and never more than workers; a setting that cannot be read and a
    setting of zero count as none. *)
Lemma netChannels_bounds env multiThread w : 1 ≤ netChannels env multiThread w ≤ Nat.max 1 w ∧
  netChannels None multiThread w = netChannels (Some "0") multiThread w ∧
  (∀ n, 0 < n ≤ w → (Z.of_nat n < 2 ^ 64)%Z → envSize env (Z.of_nat w) = Z.of_nat n → netChannels env true w = n).
Proof.
  unfold netChannels. split; [|split].
  - destruct multiThread; [|lia]. destruct (_ =? 0)%Z; lia.
  - cbn. destruct (Z.eqb_spec (Z.of_nat w) 0) as [->|]; done.
  - intros n Hn Hw ->. destruct (Z.eqb_spec (Z.of_nat n) 0); lia.
Qed.

(** * One byte over every channel *)

(** What a party still has to do on the channels to its peer. *)
Inductive Act : Type := DoSend (j : nat) | DoRecv (j : nat).

Definition sendByte (me : nat) : Z := u8 (Z.lor 0xA0 (Z.land (Z.of_nat me) 1)).

(** The loop over [j] from [lo] on, for the party [me] and its peer. *)
Definition warmFrom (me peer lo n : nat) : list Act :=
  flat_map (fun j => if me <? peer then [DoSend j; DoRecv j] else [DoRecv j; DoSend j]) (seq lo n).

Definition warmChannels (me nCh : nat) : list Act :=
  flat_map (fun peer => if peer =? me then [] else warmFrom me peer 0 nCh) (seq 0 nParties).

Section Warm.
Context {C : Type} `{Channel C}.

(** A party's program and the last byte it received; the channels of the two directions. *)
Record Warm : Type := mkWarm {
  prog0 : list Act;
  got0 : list Z;
  prog1 : list Act;
  got1 : list Z;
  toServer : list C;
  toClient : list C;
}.

(** One call of a party [me] that sends on [out] and receives from [inc]. *)
Inductive act (me : nat) : list Act → list Z → list C → list C → list Act → list Z → list C → list C → Prop :=
  | act_send j p got out out' inc : Net.sendOn j [sendByte me] out = Ok out' →
      act me (DoSend j :: p) got out inc p got out' inc
  | act_recv j p got out inc inc' got' : j < length inc → Net.recvOn j 0 1 (got, inc) = Ok (got', inc') →
      act me (DoRecv j :: p) got out inc p got' out inc'.

Inductive warm_step : Warm → Warm → Prop :=
  | step_0 p0 g0 p1 g1 u d p0' g0' u' d' : act 0 p0 g0 u d p0' g0' u' d' →
      warm_step (mkWarm p0 g0 p1 g1 u d) (mkWarm p0' g0' p1 g1 u' d')
  | step_1 p0 g0 p1 g1 u d p1' g1' u' d' : act 1 p1 g1 d u p1' g1' d' u' →
      warm_step (mkWarm p0 g0 p1 g1 u d) (mkWarm p0 g0 p1' g1' u' d').

Definition warm_start (nCh : nat) (u d : list C) : Warm :=
  mkWarm (warmChannels 0 nCh) [0%Z] (warmChannels 1 nCh) [0%Z] u d.
End Warm.
Arguments Warm C : clear implicits.

(** ** Every run of the exchange *)

Section WarmRuns.
Context {C : Type} `{ChannelLaws C} (n : nat).
Implicit Types (u d : list C) (st : Warm C).

Lemma byte_msg b : msg_ok [b].
Proof. by split; [apply Nat.lt_0_1|]. Qed.

Lemma send_ok j b u : Forall cidle u → j < length u → ∃ u', Net.sendOn j [b] u = Ok u'.
Proof.
  intros Hu Hj. destruct (lookup_lt_is_Some_2 u j Hj) as [c Hc].
  destruct (deliver c [b]) as (c1 & _ & E & _); [by apply (Forall_lookup_1 _ u j)|apply byte_msg|].
  unfold Net.sendOn. rewrite Hc, E. by eexists.
Qed.

Lemma recv_sent j b g u u1 : Forall cidle u → j < length u → Net.sendOn j [b] u = Ok u1 →
  ∃ u', Forall cidle u' ∧ length u' = length u ∧ Net.recvOn j 0 1 ([g], u1) = Ok ([b], u').
Proof.
  intros Hu Hj. destruct (lookup_lt_is_Some_2 u j Hj) as [c Hc].
  destruct (deliver c [b]) as (c1 & c' & Es & Hd & Hi); [by apply (Forall_lookup_1 _ u j)|apply byte_msg|].
  unfold Net.sendOn. rewrite Hc, Es. intros [= <-].
  exists (<[j := c']> u). split; [by apply Forall_insert|]. split; [apply length_insert|].
  unfold Net.recvOn. cbn [fst snd]. rewrite list_lookup_insert_eq by done.
  cbn [length] in Hd. rewrite Hd. cbn [mbind Res_bind]. by rewrite list_insert_insert_eq.
Qed.

Lemma recv_waits j g u r : Forall cidle u → j < length u → Net.recvOn j 0 1 (g, u) ≠ Ok r.
Proof.
  intros Hu Hj. destruct (lookup_lt_is_Some_2 u j Hj) as [c Hc]. unfold Net.recvOn. cbn [fst snd]. rewrite Hc.
  pose proof (idle_waits c 1 (Forall_lookup_1 _ u j c Hu Hc)) as Hw. by destruct (crecv c 1).
Qed.

Abbreviation rest0 j := (warmFrom 0 1 j (n - j)).
Abbreviation rest1 j := (warmFrom 1 0 j (n - j)).

Lemma rest_S j : j < n → rest0 j = DoSend j :: DoRecv j :: rest0 (S j) ∧ rest1 j = DoRecv j :: DoSend j :: rest1 (S j).
Proof. intros Hj. by replace (n - j) with (S (n - S j)) by lia. Qed.

(** The bytes received once [j] channels are done. *)
Definition got (b : Z) (j : nat) : list Z := if j =? 0 then [0%Z] else [b].

(** The state between the calls: [j] channels are done and [r] calls on channel [j]. *)
Definition turn (j r : nat) st : Prop :=
  length (toServer st) = n ∧ length (toClient st) = n ∧
  match r with
  | 0 => prog0 st = rest0 j ∧ prog1 st = rest1 j ∧ got0 st = got (sendByte 1) j ∧ got1 st = got (sendByte 0) j ∧
         Forall cidle (toServer st) ∧ Forall cidle (toClient st)
  | 1 => prog0 st = DoRecv j :: rest0 (S j) ∧ prog1 st = rest1 j ∧ got0 st = got (sendByte 1) j ∧ got1 st = got (sendByte 0) j ∧
         (∃ u, Forall cidle u ∧ length u = n ∧ Net.sendOn j [sendByte 0] u = Ok (toServer st)) ∧ Forall cidle (toClient st)
  | 2 => prog0 st = DoRecv j :: rest0 (S j) ∧ prog1 st = DoSend j :: rest1 (S j) ∧ got0 st = got (sendByte 1) j ∧
         got1 st = [sendByte 0] ∧ Forall cidle (toServer st) ∧ Forall cidle (toClient st)
  | _ => prog0 st = DoRecv j :: rest0 (S j) ∧ prog1 st = rest1 (S j) ∧ got0 st = got (sendByte 1) j ∧ got1 st = [sendByte 0] ∧
         Forall cidle (toServer st) ∧ ∃ d, Forall cidle d ∧ length d = n ∧ Net.sendOn j [sendByte 1] d = Ok (toClient st)
  end.

Definition next (j r : nat) : nat * nat := if r =? 3 then (S j, 0) else (j, S r).

Lemma got_one b j : ∃ g, got b j = [g].
Proof. unfold got. destruct (j =? 0); by eexists. Qed.

(** A party that is about to receive on idle channels does not move. *)
Lemma act_waits me j p g out inc p' g' out' inc' : Forall cidle inc → ¬ act me (DoRecv j :: p) g out inc p' g' out' inc'.
Proof. intros Hi A. inversion A; subst. by eapply recv_waits. Qed.

Lemma act_recv_sent me j p b g u u1 out p' g' out' inc' : Forall cidle u → length u = n → Net.sendOn j [b] u = Ok u1 →
  act me (DoRecv j :: p) [g] out u1 p' g' out' inc' →
  p' = p ∧ g' = [b] ∧ out' = out ∧ Forall cidle inc' ∧ length inc' = n.
Proof.
  intros Hu Hl Hs A. inversion A as [|? ? ? ? ? ? ? Hj E]; subst. rewrite (Net.sendOn_length _ _ _ _ Hs) in Hj.
  destruct (recv_sent j b g u u1 Hu Hj Hs) as (u' & Hi & Hl' & E'). rewrite E' in E. injection E as <- <-.
  do 3 (split; [done|]). by split.
Qed.

Lemma act_sends me j p g out inc p' g' out' inc' : act me (DoSend j :: p) g out inc p' g' out' inc' →
  p' = p ∧ g' = g ∧ Net.sendOn j [sendByte me] out = Ok out' ∧ inc' = inc.
Proof. intros A. inversion A; subst. by repeat split. Qed.

(** The channels in the middle of a turn. *)
Ltac done_turn := unfold turn; cbn [prog0 prog1 got0 got1 toServer toClient]; 
  repeat (split; [assumption || reflexivity|]); try assumption.

(** From every state but the last there is exactly one way on. *)
Lemma turn_step j r st st' : j < n → r < 4 → turn j r st → warm_step st st' → turn (next j r).1 (next j r).2 st'.
Proof.
  intros Hj Hr (Lu & Ld & T) Hs. destruct (rest_S j Hj) as [E0 E1].
  destruct (got_one (sendByte 1) j) as [x0 X0], (got_one (sendByte 0) j) as [x1 X1].
  destruct r as [|[|[|[|r]]]]; [| | | |lia]; destruct Hs as [p0 g0 p1 g1 u d p0' g0' u' d' A|p0 g0 p1 g1 u d p1' g1' u' d' A];
    destruct T as (P0 & P1 & G0 & G1 & Hu & Hd);
    cbn [prog0 prog1 got0 got1 toServer toClient next Nat.eqb fst snd] in *; subst p0 p1 g0 g1;
    rewrite ?E0, ?E1, ?X0, ?X1 in A.
  - apply act_sends in A as (-> & -> & Es & ->). rewrite <- X0. split; [cbn [toServer toClient]; by rewrite (Net.sendOn_length _ _ _ _ Es)|].
    done_turn. split; [by exists u|done].
  - by apply act_waits in A.
  - by apply act_waits in A.
  - destruct Hu as (u0 & Hu & Lu0 & Es).
    destruct (act_recv_sent _ _ _ _ _ _ _ _ _ _ _ _ Hu Lu0 Es A) as (-> & -> & -> & Hi & Hl). done_turn.
  - by apply act_waits in A.
  - apply act_sends in A as (-> & -> & Es & ->). split; [done|]. split; [cbn [toServer toClient]; by rewrite (Net.sendOn_length _ _ _ _ Es)|].
    done_turn. by exists d.
  - destruct Hd as (d0 & Hd & Ld0 & Es).
    destruct (act_recv_sent _ _ _ _ _ _ _ _ _ _ _ _ Hd Ld0 Es A) as (-> & -> & -> & Hi & Hl). done_turn.
  - destruct (Nat.lt_ge_cases (S j) n) as [Hn|Hn]; [rewrite (proj2 (rest_S (S j) Hn)) in A; by apply act_waits in A|].
    replace (n - S j) with 0 in A by lia. inversion A.
Qed.

Lemma turn_moves j r st : j < n → r < 4 → turn j r st → ∃ st', warm_step st st'.
Proof.
  intros Hj Hr (Lu & Ld & T). destruct (rest_S j Hj) as [E0 E1]. destruct st as [p0 g0 p1 g1 u d].
  destruct (got_one (sendByte 1) j) as [x0 X0], (got_one (sendByte 0) j) as [x1 X1].
  destruct r as [|[|[|[|r]]]]; [| | | |lia]; destruct T as (P0 & P1 & G0 & G1 & Hu & Hd);
    cbn [prog0 prog1 got0 got1 toServer toClient] in *; subst p0 p1 g0 g1; rewrite ?E0, ?E1, ?X0, ?X1.
  - destruct (send_ok j (sendByte 0) u Hu) as [u' E]; [lia|]. eexists. by apply step_0, act_send.
  - destruct Hu as (u0 & Hu & Lu0 & Es). destruct (recv_sent j (sendByte 0) x1 u0 u Hu) as (u' & _ & _ & E); [lia|done|].
    eexists. eapply step_1, act_recv, E. lia.
  - destruct (send_ok j (sendByte 1) d Hd) as [d' E]; [lia|]. eexists. by apply step_1, act_send.
  - destruct Hd as (d0 & Hd & Ld0 & Es). destruct (recv_sent j (sendByte 1) x0 d0 d Hd) as (d' & _ & _ & E); [lia|done|].
    eexists. eapply step_0, act_recv, E. lia.
Qed.

Lemma turn_last st st' : turn n 0 st → ¬ warm_step st st'.
Proof.
  intros (_ & _ & P0 & P1 & _) Hs. rewrite Nat.sub_diag in P0, P1. destruct st as [p0 g0 p1 g1 u d].
  cbn in P0, P1. subst p0 p1. inversion Hs as [? ? ? ? ? ? ? ? ? ? A|? ? ? ? ? ? ? ? ? ? A]; inversion A.
Qed.

(** The state after [k] calls. *)
Lemma turn_reached k st0 : turn 0 0 st0 → ∀ st, nsteps warm_step k st0 st → k ≤ 4 * n ∧ turn (k / 4) (k mod 4) st.
Proof.
  intros T0. induction k as [|k IH]; intros st Hs.
  - inversion Hs; subst. split; [lia|exact T0].
  - apply nsteps_inv_r in Hs as (st1 & H1 & Hs). destruct (IH st1 H1) as [Hk T].
    assert (Hr : k mod 4 < 4) by (by apply Nat.mod_upper_bound).
    destruct (Nat.lt_ge_cases k (4 * n)) as [Hlt|Hge].
    + assert (Hj : k / 4 < n) by divlia. split; [lia|]. pose proof (turn_step _ _ _ _ Hj Hr T Hs) as T'.
      unfold next in T'. destruct (Nat.eqb_spec (k mod 4) 3); cbn [fst snd] in T'.
      * replace (S k / 4) with (S (k / 4)) by divlia. by replace (S k mod 4) with 0 by divlia.
      * replace (S k / 4) with (k / 4) by divlia. by replace (S k mod 4) with (S (k mod 4)) by divlia.
    + exfalso. replace k with (0 + n * 4) in T by lia. rewrite Nat.div_add, Nat.Div0.mod_add in T by done.
      by apply (turn_last _ _ T) in Hs.
Qed.

Lemma start_turn u d : length u = n → length d = n → Forall cidle u → Forall cidle d → turn 0 0 (warm_start n u d).
Proof.
  intros Hu Hd Iu Id. split; [done|]. split; [done|]. unfold warm_start, warmChannels, warmFrom. cbn.
  rewrite Nat.sub_0_r, !app_nil_r. done.
Qed.

Lemma turn_end st : turn (4 * n / 4) ((4 * n) mod 4) st → prog0 st = [] ∧ prog1 st = [] ∧
  length (toServer st) = n ∧ length (toClient st) = n ∧ Forall cidle (toServer st) ∧ Forall cidle (toClient st) ∧
  (0 < n → got0 st = [0xA1%Z] ∧ got1 st = [0xA0%Z]) ∧ ∀ st', ¬ warm_step st st'.
Proof.
  rewrite Nat.mul_comm, Nat.div_mul, Nat.Div0.mod_mul by done. intros T. pose proof (fun st' => turn_last st st' T) as Hlast.
  destruct T as (Lu & Ld & P0 & P1 & G0 & G1 & Hi & Hj). rewrite Nat.sub_diag in P0, P1.
  do 6 (split; [done|]). split; [|exact Hlast]. intros Hn. rewrite G0, G1. unfold got. by nat_false (n =? 0).
Qed.
End WarmRuns.

(** C26 The exchange of the first bytes ends, whatever the order in which the parties move: no run gets stuck, a run has
    four calls for every channel, and afterwards each party has the byte of the other and nothing
    is left on the channels. *)
Theorem warm_channels {C} `{ChannelLaws C} nCh (u d : list C) : length u = nCh → length d = nCh →
  Forall cidle u → Forall cidle d → ∀ k st, nsteps warm_step k (warm_start nCh u d) st →
  k ≤ 4 * nCh ∧ (k < 4 * nCh → ∃ st', warm_step st st') ∧
  (k = 4 * nCh → (∀ st', ¬ warm_step st st') ∧ prog0 st = [] ∧ prog1 st = [] ∧
     Forall cidle (toServer st) ∧ Forall cidle (toClient st) ∧ (0 < nCh → got0 st = [0xA1%Z] ∧ got1 st = [0xA0%Z])).
Proof.
  intros Hu Hd Iu Id k st Hs. destruct (turn_reached nCh k _ (start_turn nCh u d Hu Hd Iu Id) st Hs) as [Hk T].
  split; [done|]. split.
  - intros Hlt. apply (turn_moves nCh (k / 4) (k mod 4)); [divlia|by apply Nat.mod_upper_bound|done].
  - intros ->. destruct (turn_end nCh st T) as (P0 & P1 & _ & _ & Iu' & Id' & Hg & Hlast). done.
Qed.

Lemma warm_channels_witness : let q : list (list (list Z)) := [[]; []] in
  length q = 2 ∧ ∀ k st, nsteps (@warm_step _ Net.queue_channel) k (warm_start 2 q q) st →
  k ≤ 8 ∧ (k < 8 → ∃ st', @warm_step _ Net.queue_channel st st').
Proof.
  intros q. split; [reflexivity|]. intros k st Hs. destruct (@warm_channels _ Net.queue_channel Net.queue_laws 2 q q eq_refl eq_refl) with (k := k) (st := st)
    as (Hk & Hp & _); [by repeat constructor..|exact Hs|]. by split.
Defined.
End Connect.
