(* ===== verification/BtConnect.v ===== *)
(** How a socket of cryptoTools finds its channel: the client of a connection sends the names of its channel as the first
    message (Network/BtEndpoint.cpp), and the acceptor gives the socket to the channel of the host that waits under those
    names (Network/BtAcceptor.cpp), in whichever order the two come. *)
From stdpp Require Import gmap.
From S2P Require Import Prelude Words PermApi BitBuf Parallel Feistel Hctr2 Sneik Small ConsPi Xoodoo Permutation Net Connect.
Open Scope nat_scope.

Module BtConnect.

(** [split(s, delim)] of Common/Defines.cpp: [std::getline] until the stream ends, so that nothing follows a last delimiter. *)
Fixpoint split_from (cur : list Ascii.ascii) (s : list Ascii.ascii) (delim : Ascii.ascii) : list (list Ascii.ascii) :=
  match s with
  | [] => match cur with [] => [] | _ => [cur] end
  | c :: s => if Ascii.eqb c delim then cur :: split_from [] s delim else split_from (cur ++ [c]) s delim
  end.

Definition split (s : string) (delim : Ascii.ascii) : list string :=
  map String.string_of_list_ascii (split_from [] (String.list_ascii_of_string s) delim).

(** The character "`". *)
Definition backtick : Ascii.ascii := Ascii.ascii_of_nat 96.
Definition tick : string := String.String backtick String.EmptyString.

(** The first message of a client: [mName], [localName] and [remoteName]; an empty remote name is the local one. *)
Definition remoteOf (localName remoteName : string) : string := if String.eqb remoteName "" then localName else remoteName.
Definition hello (mName localName remoteName : string) : string :=
  String.append mName (String.append tick (String.append localName (String.append tick (remoteOf localName remoteName)))).

(** Sockets are numbers; a promise has a socket or is still empty. *)
Abbreviation Promises := (gmap string (option nat)).

Definition tagOf (endpoint local remote : string) : string :=
  String.append endpoint (String.append ":" (String.append local (String.append ":" remote))).

(** The promise of a tag is made when it is missing. *)
Definition withPromise (mSocketPromises : Promises) (tag : string) : Promises :=
  match mSocketPromises !! tag with Some _ => mSocketPromises | None => <[tag := None]> mSocketPromises end.

(** [getSocket]: what the host's [addChannel] waits on; [None] while the socket is not there. *)
Definition getSocket (ps : Promises) (endpoint local remote : string) : option nat * Promises :=
  let tag := tagOf endpoint local remote in
  let ps := withPromise ps tag in
  (default None (ps !! tag), ps).

(** [getSocketPromise(...).set_value(socket)]: a promise is set once. *)
Definition setSocket (ps : Promises) (endpointName localChannelName remoteChannelName : string) (socket : nat) : Res Promises :=
  let tag := tagOf endpointName localChannelName remoteChannelName in
  let ps := withPromise ps tag in
  match default None (ps !! tag) with
  | None => mret (<[tag := Some socket]> ps)
  | Some _ => Throw (RuntimeError "Promise already satisfied")
  end.

(** The conditions under which the acceptor goes on after the 4 bytes of the length and after the names. *)
Definition headerOk (ec2 : bool) (bytesTransferred : nat) : bool := negb ec2 || negb (bytesTransferred =? 4).
Definition bodyOk (ec3 : bool) (bytesTransferred2 size : nat) : bool := negb ec3 || negb (bytesTransferred2 =? size).

(** The handler of the names; fewer than three names are read out of range. *)
Definition namesReceived (ps : Promises) (message : string) (socket : nat) : Res Promises :=
  match split message backtick with
  | n0 :: n1 :: n2 :: _ => setSocket ps n0 n2 n1 socket
  | _ => Throw (OutOfRange "names")
  end.

(** * The names survive the message *)

(** A name without the delimiter. *)
Definition plain (s : string) : Prop := backtick ∉ String.list_ascii_of_string s.

Lemma list_of_append a b : String.list_ascii_of_string (String.append a b) =
  String.list_ascii_of_string a ++ String.list_ascii_of_string b.
Proof. induction a as [|c a IH]; [done|]. exact (f_equal (cons c) IH). Qed.

Lemma split_from_plain cur a b : backtick ∉ a → split_from cur (a ++ backtick :: b) backtick = (cur ++ a) :: split_from [] b backtick.
Proof.
  revert cur. induction a as [|c a IH]; intros cur Ha; cbn [app split_from].
  - by rewrite Ascii.eqb_refl, app_nil_r.
  - apply not_elem_of_cons in Ha as [Hc Ha]. destruct (Ascii.eqb_spec c backtick) as [->|_]; [done|].
    rewrite IH by done. by rewrite <- app_assoc.
Qed.

Lemma split_from_last cur a : backtick ∉ a → cur ++ a ≠ [] → split_from cur a backtick = [cur ++ a].
Proof.
  revert cur. induction a as [|c a IH]; intros cur Ha Hne; cbn [split_from].
  - rewrite app_nil_r in *. by destruct cur.
  - apply not_elem_of_cons in Ha as [Hc Ha]. destruct (Ascii.eqb_spec c backtick) as [->|_]; [done|].
    rewrite IH; [by rewrite <- app_assoc|done|]. by rewrite <- app_assoc.
Qed.

Lemma split_hello name local remote : plain name → plain local → plain (remoteOf local remote) → remoteOf local remote ≠ "" →
  split (hello name local remote) backtick = [name; local; remoteOf local remote].
Proof.
  intros Hn Hl Hr Hne. unfold split, hello. rewrite !list_of_append. change (String.list_ascii_of_string tick) with [backtick].
  cbn [app]. rewrite split_from_plain by exact Hn. cbn [app]. rewrite split_from_plain by exact Hl. cbn [app].
  rewrite split_from_last; [|exact Hr|].
  - cbn [app map]. by rewrite !String.string_of_list_ascii_of_string.
  - cbn [app]. intros E. apply Hne. destruct (remoteOf local remote); [done|discriminate E].
Qed.

(** * Every channel gets its socket *)

(** What happens at the acceptor: the host's channel [j] asks for its socket, or the names of the client's channel [j]
    arrive on the socket [f j]. *)
Inductive Event : Type := Asks (j : nat) | Arrives (j : nat).

Section Channels.
Context (run : string) (name : nat → string) (f : nat → nat).

Definition accept (ps : Promises) (e : Event) : Res Promises :=
  match e with
  | Asks j => mret (getSocket ps run (name j) (remoteOf (name j) (name j))).2
  | Arrives j => namesReceived ps (hello run (name j) (name j)) (f j)
  end.

Definition accepts (events : list Event) : Res Promises := foldl (fun ps e => ps ≫= fun ps => accept ps e) (mret ∅) events.

Definition arrivals (events : list Event) : list nat := omap (fun e => match e with Arrives j => Some j | Asks _ => None end) events.
Definition channel_of (e : Event) : nat := match e with Asks j | Arrives j => j end.

Lemma remote_same s : remoteOf s s = s.
Proof. unfold remoteOf. by destruct (String.eqb s ""). Qed.

Lemma append_length a b : String.length (String.append a b) = String.length a + String.length b.
Proof. induction a as [|c a IH]; [done|]. exact (f_equal S IH). Qed.

Lemma append_same a b x y : String.length a = String.length b → String.append a x = String.append b y → a = b.
Proof.
  revert b. induction a as [|c a IH]; intros [|d b] Hl E; try done. injection E as -> E. injection Hl as Hl. f_equal. by apply IH.
Qed.

Lemma tag_inj s t : tagOf run s s = tagOf run t t → s = t.
Proof.
  unfold tagOf. intros E%Connect.append_inj. injection E as E.
  change (String.append s (String.append ":" s) = String.append t (String.append ":" t)) in E.
  apply (append_same s t (String.append ":" s) (String.append ":" t)); [|exact E].
  apply (f_equal String.length) in E. rewrite !append_length in E. cbn [String.length] in E. lia.
Qed.

Definition tag (j : nat) : string := tagOf run (name j) (name j).

(** The promises after [events]. *)
Definition promised (n : nat) (arrived : list nat) (ps : Promises) : Prop :=
  ∀ j, j < n → if decide (j ∈ arrived) then ps !! tag j = Some (Some (f j)) else default None (ps !! tag j) = None.

Context (n : nat) (Hrun : plain run) (Hname : ∀ j, j < n → plain (name j) ∧ name j ≠ "").
Context (Hdistinct : ∀ i j, i < n → j < n → name i = name j → i = j).

Lemma tag_ne i j : i < n → j < n → i ≠ j → tag i ≠ tag j.
Proof. intros Hi Hj Hne E. apply Hne, Hdistinct; [done..|]. by apply tag_inj. Qed.

Lemma withPromise_lookup ps t t' : default None (withPromise ps t !! t') = default None (ps !! t') ∧
  (∀ x, ps !! t' = Some (Some x) → withPromise ps t !! t' = Some (Some x)).
Proof.
  unfold withPromise. destruct (ps !! t) as [o|] eqn:E; [done|]. destruct (decide (t = t')) as [<-|Hne].
  - rewrite lookup_insert_eq, E. done.
  - by rewrite lookup_insert_ne.
Qed.

Lemma promised_with arrived ps t : promised n arrived ps → promised n arrived (withPromise ps t).
Proof.
  intros Hp j Hj. specialize (Hp j Hj). destruct (withPromise_lookup ps t (tag j)) as [H1 H2].
  destruct (decide (j ∈ arrived)); [by apply H2|by rewrite H1].
Qed.

Lemma accept_ok arrived ps e : promised n arrived ps → channel_of e < n → (∀ j, e = Arrives j → j ∉ arrived) →
  ∃ ps', accept ps e = Ok ps' ∧ promised n (match e with Arrives j => j :: arrived | Asks _ => arrived end) ps'.
Proof.
  intros Hp Hj Hnew. destruct e as [j|j]; cbn [channel_of accept] in *.
  - eexists. split; [reflexivity|]. by apply promised_with.
  - destruct (Hname j Hj) as [Hpl Hne]. unfold namesReceived.
    rewrite split_hello by (rewrite ?remote_same; done). rewrite remote_same. unfold setSocket. fold (tag j).
    pose proof (promised_with arrived ps (tag j) Hp) as Hp'. pose proof (Hp' j Hj) as Hjp. rewrite decide_False in Hjp by by apply Hnew.
    rewrite Hjp. eexists. split; [reflexivity|]. intros i Hi. destruct (decide (i = j)) as [->|Hij].
    + rewrite decide_True by left. apply lookup_insert_eq.
    + rewrite lookup_insert_ne by (intros E; by apply (tag_ne i j)). specialize (Hp' i Hi).
      destruct (decide (i ∈ arrived)); [rewrite decide_True by (by right)|rewrite decide_False by set_solver]; done.
Qed.

Lemma accepts_ok events : (∀ e, e ∈ events → channel_of e < n) → NoDup (arrivals events) →
  ∃ ps arrived, accepts events = Ok ps ∧ promised n arrived ps ∧ ∀ j, j ∈ arrived ↔ j ∈ arrivals events.
Proof.
  induction events as [|e events IH] using rev_ind; intros Hch Hnd.
  - exists ∅, []. split; [done|]. split; [intros j Hj; by rewrite decide_False by set_solver|done].
  - unfold arrivals in Hnd |- *. rewrite omap_app in Hnd |- *. fold (arrivals events) in Hnd |- *.
    destruct IH as (ps & arrived & E & Hp & Hin); [intros e' He'; apply Hch; set_solver|by apply NoDup_app in Hnd as [? _]|].
    assert (Hnew : ∀ j, e = Arrives j → j ∉ arrived).
    { intros j -> Hj%Hin. apply NoDup_app in Hnd as (_ & Hd & _). apply (Hd j Hj). cbn. set_solver. }
    destruct (accept_ok arrived ps e Hp (Hch e ltac:(set_solver)) Hnew) as (ps' & E' & Hp').
    eexists ps', _. split; [|split; [exact Hp'|]].
    + unfold accepts in *. rewrite foldl_app, E. exact E'.
    + intros j. destruct e as [i|i]; cbn; set_solver.
Qed.
End Channels.

Lemma plain_append a b : plain a → plain b → plain (String.append a b).
Proof. unfold plain. rewrite list_of_append. set_solver. Qed.

Lemma plain_decimal k : plain (PqPerm.decimal k).
Proof.
  destruct (PqPerm.decimal_spec k) as (_ & Hd & _). unfold plain. intros Hin. rewrite forallb_forall in Hd.
  apply list_elem_of_In, Hd in Hin. discriminate Hin.
Qed.

(** The channels of the protocol under their names. *)
Definition chName (run : string) (j : nat) : string := String.append (String.append run "_ch") (PqPerm.decimal (N.of_nat j)).

(** C27 When the run tag has no backtick, every channel of the host gets the socket on which its name arrived, in whatever
    order the host asks and the clients connect; no two channels are mixed up. *)
Theorem sockets_meet run nCh f events : plain run → (N.of_nat nCh ≤ 2 ^ 64)%N →
  (∀ e, e ∈ events → channel_of e < nCh) → arrivals events ≡ₚ seq 0 nCh →
  ∃ ps, accepts run (chName run) f events = Ok ps ∧
    ∀ j, j < nCh → (getSocket ps run (chName run j) (remoteOf (chName run j) (chName run j))).1 = Some (f j).
Proof.
  intros Hrun Hn Hch Hall. destruct (accepts_ok run (chName run) f nCh Hrun) with (events := events) as (ps & arrived & E & Hp & Hin).
  - intros j Hj. split; [|by destruct run]. apply plain_append; [apply plain_append; [done|]|apply plain_decimal].
    unfold plain. cbn. set_solver.
  - intros i j Hi Hj Heq%Connect.append_inj. apply Connect.decimal_inj in Heq; lia.
  - exact Hch.
  - rewrite Hall. apply NoDup_seq.
  - exists ps. split; [exact E|]. intros j Hj. rewrite remote_same. unfold getSocket. cbn [fst].
    specialize (Hp j Hj). rewrite decide_True in Hp by (rewrite Hin, Hall; apply elem_of_seq; lia).
    unfold tag in Hp. by rewrite (proj2 (withPromise_lookup ps _ _) _ Hp).
Qed.

Lemma sockets_meet_witness : ∃ ps, accepts "psi" (chName "psi") (fun j => j + 7) [Arrives 1; Asks 0; Arrives 0; Asks 1] = Ok ps ∧
  (getSocket ps "psi" (chName "psi" 0) (remoteOf (chName "psi" 0) (chName "psi" 0))).1 = Some 7.
Proof.
  destruct (sockets_meet "psi" 2 (fun j => j + 7) [Arrives 1; Asks 0; Arrives 0; Asks 1]) as (ps & E & H).
  - unfold plain. cbn. set_solver.
  - lia.
  - intros e He. cbn in *. set_solver.
  - apply Permutation_swap.
  - exists ps. split; [exact E|]. apply (H 0). lia.
Defined.

(** The acceptor gives up only when a read failed and yet transferred everything: a failed or a short read of the length
    or of the names goes on. *)
Theorem acceptor_goes_on : (∀ ec n, headerOk ec n = false ↔ ec = true ∧ n = 4) ∧
  (∀ ec n size, bodyOk ec n size = false ↔ ec = true ∧ n = size) ∧ headerOk true 0 = true ∧ headerOk false 2 = true.
Proof.
  unfold headerOk, bodyOk. split; [|split; [|done]].
  - intros ec n. rewrite orb_false_iff, !negb_false_iff, Nat.eqb_eq. done.
  - intros ec n size. rewrite orb_false_iff, !negb_false_iff, Nat.eqb_eq. done.
Qed.

End BtConnect.
