(* ===== verification/Pqpsi.v ===== *)
(** The entry point of the protocol: the configuration of the permutation (frontend/pqpsi/pqpsi.h), the checks and
    the choices [pqpsi] makes before the parties run (pqpsi.cpp), and the runs of check.cpp. *)
From stdpp Require Import relations.
From S2P Require Import Prelude Words Parallel RbBits Fit RbRows RbSolve RbCodec RbOkvs RbTypes PermApi BitBuf.
From S2P Require Import Feistel Hctr2 Sneik Small ConsPi Xoodoo Permutation MlKem KemBits Kemeleon EcKem Net.
From S2P Require Import Rows KemRows Protocol Session.
Open Scope nat_scope.

Module Pqpsi.
Import Protocol Session.
#[local] Existing Instance PqPerm.Kind_eq_dec.

(** * pqpsi.h *)

Record PiCfg : Type := mkPiCfg {
  pi_kind : PqPerm.Kind;
  pi_small : Pi.Kind;
  pi_lambda : nat;
  pi_rounds : nat;
  pi_bobPi : bool;
}.

(** The default member values. *)
Definition PiCfg_default : PiCfg := mkPiCfg PqPerm.ConsPi Pi.Keccak1600 128 Feistel.Feistel.DefaultRounds false.

Definition toPermCfg (pi : PiCfg) : PqPerm.Cfg := PqPerm.mkCfg (pi_kind pi) (pi_small pi) (pi_lambda pi) (pi_rounds pi).

Definition setPi (pi : PiCfg) (text : string) : Res PiCfg :=
  cfg ← PqPerm.set (toPermCfg pi) text;
  mret (mkPiCfg (PqPerm.kind cfg) (PqPerm.small cfg) (PqPerm.lambda cfg) (PqPerm.rounds cfg) (pi_bobPi pi)).

(** * pqpsi.cpp *)

Section Setup.
Context (L : Lib).
(** The primitives of the permutations. *)
Context (keccak keccak_inv : nat → nat → list Z → list Z) (shake : nat → list Z → option (list Z)) (aes_dec : block → block → block).

Definition makePi (pi : PiCfg) (party : Z) : Res Perm :=
  PqPerm.make keccak keccak_inv shake (l_aes L) aes_dec (toPermCfg pi) party.

(** The permutation the KEM allows. *)
Definition localPiOf (kem : KemRows.KemCfg) (pi : PiCfg) : Res PiCfg :=
  match KemRows.kind kem with
  | KemRows.EcKem => mret (mkPiCfg PqPerm.Xoodoo (pi_small pi) (pi_lambda pi) (pi_rounds pi) (pi_bobPi pi))
  | KemRows.ObfMlKem =>
      throw_if (bool_decide (pi_kind pi = PqPerm.Xoodoo)) (InvalidArgument "xoodoo permutation is only supported with eckem") ;;
      mret pi
  end.

(** [pqpsi] up to the call of [Recv] or [Send]; the pointers that may be null are options. *)
Definition setup (me setSize : nat) (set : list block) (rb : option RBParams) (piCfg : option PiCfg)
    (kemCfg : option KemRows.KemCfg) : Res Ctx :=
  throw_if (negb (setSize =? length set)) (InvalidArgument "pqpsi: setSize must match set.size()") ;;
  let rbCfg := default RBParams_default rb in
  rbInfo ← RBInfoOf (l_hw L) (l_log2 L) (length set) rbCfg;
  let localKem := default (KemRows.mkKemCfg KemRows.ObfMlKem) kemCfg in
  rowSize ← KemRows.kemRowBlocks localKem;
  localPi ← localPiOf localKem (default PiCfg_default piCfg);
  let ownParty := Z.land (Z.of_nat me) 1 in
  let peerParty := Z.lxor ownParty 1 in
  ownPi ← makePi localPi ownParty;
  peerPi ← makePi localPi peerParty;
  mret (mkCtx (i_columns rbInfo) (i_bandWidth rbInfo) rowSize (p_multiThread rbCfg) (i_workerThreads rbInfo) rbCfg localKem
    (pi_bobPi localPi) ownPi peerPi set).

(** The KEM and the permutation of a run. *)
Definition kemOf (kemCfg : option KemRows.KemCfg) : KemRows.KemCfg := default (KemRows.mkKemCfg KemRows.ObfMlKem) kemCfg.

Definition prims_ok : Prop := aes_ok (l_aes L) ∧ PqPerm.primitives_ok keccak keccak_inv shake (l_aes L) aes_dec.

Lemma localPi_rows kem pi pi' : localPiOf kem pi = Ok pi' →
  PqPerm.rowBytes (pi_kind pi') = 16 * KemRows.blocksOfKem (KemRows.kind kem).
Proof.
  unfold localPiOf. destruct (KemRows.kind kem).
  - intros H. apply bind_Ok in H as (u & Hk & [= <-]). apply throw_if_Ok, bool_decide_eq_false in Hk. by destruct (pi_kind pi).
  - by intros [= <-].
Qed.

(** What a successful setup fixes. *)
Lemma setup_inv me n set rb pi kem c : prims_ok → setup me n set rb pi kem = Ok c →
  ∃ cfg pi', n = length set ∧ RBInfoOf (l_hw L) (l_log2 L) (length set) (default RBParams_default rb) = Ok cfg ∧
    localPiOf (kemOf kem) (default PiCfg_default pi) = Ok pi' ∧
    makePi pi' (Z.land (Z.of_nat me) 1) = Ok (ownPi c) ∧
    makePi pi' (Z.lxor (Z.land (Z.of_nat me) 1) 1) = Ok (peerPi c) ∧
    Protocol.set c = set ∧ Protocol.rb c = default RBParams_default rb ∧ Protocol.kem c = kemOf kem ∧
    bobPi c = pi_bobPi pi' ∧ multiThread c = p_multiThread (default RBParams_default rb) ∧
    (set ≠ [] → params_agree (l_log2 L) (length set) (default RBParams_default rb) → ctx_ok L cfg c).
Proof.
  intros [Ha Hp] H. unfold setup in H. rewrite KemRows.kemRowBlocks_value in H. cbn [mbind Res_bind] in H. inv_ok.
  lazymatch goal with H : negb _ = false |- _ => apply negb_false_iff, Nat.eqb_eq in H; subst n end.
  lazymatch goal with Hi : RBInfoOf _ _ _ _ = Ok ?cfg, Hl : localPiOf _ _ = Ok ?pi' |- _ => exists cfg, pi'; rename Hi into Ei, Hl into El end.
  do 5 (split; [done|]). do 5 (split; [reflexivity|]). intros Hne Hagree.
  pose proof (localPi_rows (kemOf kem) _ _ El) as Hrows.
  rename x1 into pi'. assert (Hpi : ∀ party p, makePi pi' party = Ok p →
    PermLaws p (16 * KemRows.blocksOfKem (KemRows.kind (kemOf kem)))).
  { intros party p E. rewrite <- Hrows. exact (PqPerm.make_laws _ _ _ _ _ _ _ _ Hp E). }
  split; try done; [by eapply Hpi|by eapply Hpi].
Qed.

(** The contexts of the two parties of a run. *)
Lemma setup_matched set0 set1 rb pi kem c0 c1 : prims_ok → length set1 = length set0 → set0 ≠ [] →
  params_agree (l_log2 L) (length set0) (default RBParams_default rb) →
  setup 0 (length set0) set0 rb pi kem = Ok c0 → setup 1 (length set1) set1 rb pi kem = Ok c1 →
  ∃ cfg, RBInfoOf (l_hw L) (l_log2 L) (length set0) (default RBParams_default rb) = Ok cfg ∧
    ctx_ok L cfg c0 ∧ ctx_ok L cfg c1 ∧ matched c0 c1 ∧ Protocol.kem c0 = kemOf kem ∧ multiThread c1 = multiThread c0 ∧
    Protocol.set c0 = set0 ∧ Protocol.set c1 = set1.
Proof.
  intros Hp Hl Hne Hagree S0 S1.
  destruct (setup_inv _ _ _ _ _ _ _ Hp S0) as (cfg & pi0 & _ & E0 & P0 & O0 & Q0 & Hs0 & Hr0 & Hk0 & Hb0 & Hm0 & Hc0).
  destruct (setup_inv _ _ _ _ _ _ _ Hp S1) as (cfg1 & pi1 & _ & E1 & P1 & O1 & Q1 & Hs1 & Hr1 & Hk1 & Hb1 & Hm1 & Hc1).
  rewrite Hl, E0 in E1. injection E1 as <-. rewrite P0 in P1. injection P1 as <-.
  change (Z.land (Z.of_nat 0) 1) with 0%Z in *. change (Z.land (Z.of_nat 1) 1) with 1%Z in *.
  change (Z.lxor 0 1) with 1%Z in *. change (Z.lxor 1 1) with 0%Z in *.
  exists cfg. split; [done|]. split; [by apply Hc0|]. split; [apply Hc1; [by intros ->; destruct set0|by rewrite Hl]|].
  split; [split; congruence|]. split; [done|]. split; [congruence|done].
Qed.
End Setup.

(** A party counts at least the items that it shares with the other. *)
Lemma common_hits b (set0 set1 : list block) : (∀ i key, set0 !! i = Some key → key ∈ set1 → b i = true) →
  length (filter (.∈ set1) set0) ≤ Rows.hits b (length set0).
Proof.
  induction set0 as [|x l IH] using rev_ind; intros H; [done|].
  rewrite filter_app, !length_app. cbn [length]. rewrite Nat.add_1_r. cbn [Rows.hits].
  assert (IH' := IH (fun i key Hi => H i key (lookup_app_l_Some _ _ _ _ Hi))).
  destruct (decide (x ∈ set1)) as [Hx|Hx].
  - rewrite filter_cons_True, filter_nil by done. cbn [length]. rewrite (H (length l) x); [lia| |done].
    by rewrite lookup_app_r, Nat.sub_diag by lia.
  - rewrite filter_cons_False, filter_nil by done. cbn [length]. lia.
Qed.

(** * Properties of a run *)

(** Two parties with the same number of items and the same options deliver when the table is below 4 GiB: over any
    implementation of the channels and in whatever order the parties and their threads move, a run has at most nine steps and never gets stuck, and when both functions have
    returned the channels are idle and the receiver reports [h] hits. [h] is at most the size of
    the set, and at least the number of the receiver's items that the sender has too, unless
    the masks of one party's items are dependent. *)
Theorem pqpsi_delivers L R keccak keccak_inv shake aes_dec set0 set1 rb pi kem c0 c1 :
  prims_ok L keccak keccak_inv shake aes_dec → kem_ok L R (KemRows.kind (kemOf kem)) →
  length set1 = length set0 → set0 ≠ [] → params_agree (l_log2 L) (length set0) (default RBParams_default rb) →
  setup L keccak keccak_inv shake aes_dec 0 (length set0) set0 rb pi kem = Ok c0 →
  setup L keccak keccak_inv shake aes_dec 1 (length set1) set1 rb pi kem = Ok c1 →
  ∃ cfg h, RBInfoOf (l_hw L) (l_log2 L) (length set0) (default RBParams_default rb) = Ok cfg ∧ h ≤ length set0 ∧
    (independent L cfg c0 → independent L cfg c1 → length (filter (.∈ set1) set0) ≤ h) ∧
    ((Z.of_nat (16 * (tableSize c0 * rowSize c0)) < 2 ^ 32)%Z →
    ∀ C (HC : Channel C) (HL : ChannelLaws C) (up0 down0 : list C), 0 < length up0 → 0 < length down0 → Forall cidle up0 → Forall cidle down0 →
    ∀ k st, nsteps (step L R c0 c1) k (mkState RInit SInit up0 down0) st →
      k ≤ 9 ∧ (final h st ∨ ∃ st', step L R c0 c1 st st')).
Proof.
  intros Hp Hk Hl Hne Hagree S0 S1.
  destruct (setup_matched L keccak keccak_inv shake aes_dec set0 set1 rb pi kem c0 c1 Hp Hl Hne Hagree S0 S1)
    as (cfg & Ecfg & Hc0 & Hc1 & Hm & Ekem & Emt & Es0 & Es1).
  rewrite <- Ekem in Hk.
  destruct (exchange L R cfg c0 c1 Hc0 Hc1 Hm Hk) as (sks & m0 & buf1 & m1 & buf2 & b & E1 & [Hl1 Hb1] & Em1 & E2 & [Hl2 Hb2] & E3 & Hhits).
  rewrite Es0, Es1 in *. exists cfg, (Rows.hits b (length set0)). split; [done|]. split; [apply hits_le|]. split.
  - intros Hi0 Hi1. apply common_hits. intros i key Hi (j & Hj)%list_elem_of_lookup. by apply (Hhits Hi0 Hi1 i j key).
  - intros H32 C HC HCL up0 down0 Hu Hd Hui Hdi.
    apply (runs_end L R c0 c1 up0 down0 sks m0 buf1 m1 buf2 _ (tableSize c0 * rowSize c0) E1 Em1 E2 E3 Hl1 Hb1 Hl2 Hb2); try done.
    + by rewrite (same_row L cfg c0 c1), (co_table _ _ _ Hc0), (co_table _ _ _ Hc1).
    + apply Nat.mul_pos_pos; [exact (table_pos L cfg c0 Hc0)|exact (row_pos L cfg c0 Hc0)].
Qed.

(** How [pqpsi] ends before the parties run: a wrong [setSize] is rejected first, then what [RBInfoOf] rejects; the
    elliptic-curve KEM always runs with Xoodoo on rows of 3 blocks, whatever permutation was asked
    for; ML-KEM rejects Xoodoo and otherwise runs on rows of 50 blocks when both permutation
    objects can be made. *)
Theorem setup_outcome L keccak keccak_inv shake aes_dec me set rb pi kem :
  let run n := setup L keccak keccak_inv shake aes_dec me n set rb pi kem in
  let info := RBInfoOf (l_hw L) (l_log2 L) (length set) (default RBParams_default rb) in
  let piCfg := default PiCfg_default pi in
  (∀ n, n ≠ length set → run n = Throw (InvalidArgument "pqpsi: setSize must match set.size()")) ∧
  (∀ e, info = Throw e → run (length set) = Throw e) ∧
  (∀ cfg, info = Ok cfg → match KemRows.kind (kemOf kem) with
     | KemRows.EcKem => ∃ c, run (length set) = Ok c ∧ perm_name (ownPi c) = "xoodoo" ∧ rowSize c = 3
     | KemRows.ObfMlKem =>
         (pi_kind piCfg = PqPerm.Xoodoo →
            run (length set) = Throw (InvalidArgument "xoodoo permutation is only supported with eckem")) ∧
         (pi_kind piCfg ≠ PqPerm.Xoodoo → ∀ own peer,
            makePi L keccak keccak_inv shake aes_dec piCfg (Z.land (Z.of_nat me) 1) = Ok own →
            makePi L keccak keccak_inv shake aes_dec piCfg (Z.lxor (Z.land (Z.of_nat me) 1) 1) = Ok peer →
            ∃ c, run (length set) = Ok c ∧ ownPi c = own ∧ peerPi c = peer ∧ rowSize c = 50)
     end).
Proof.
  intros run info piCfg. unfold run, setup. split; [|split].
  - intros n Hn. by nat_cmp.
  - intros e He. rewrite Nat.eqb_refl. cbn [negb throw_if mbind Res_bind]. fold info. by rewrite He.
  - intros cfg Hcfg. rewrite Nat.eqb_refl. cbn [negb throw_if mbind Res_bind]. fold info. rewrite Hcfg. cbn [mbind Res_bind].
    fold (kemOf kem). fold piCfg. rewrite KemRows.kemRowBlocks_value. cbn [mbind Res_bind]. unfold localPiOf.
    destruct (KemRows.kind (kemOf kem)).
    + split; [intros Hx; by rewrite bool_decide_true|]. intros Hx own peer Ho Hpe. rewrite bool_decide_false by done.
      cbn [throw_if mbind Res_bind]. unfold mret, Res_ret. cbn [mbind Res_bind]. rewrite Ho. cbn [mbind Res_bind]. rewrite Hpe. by eexists.
    + by eexists.
Qed.

(** * check.cpp *)

(** [prng] are the outputs of the pseudo-random generator, in order. *)
Section Check.
Context (prng : nat → block).

Definition sameBlock (a b : block) : bool := (a =? b)%Z.

Definition hasBlock (set : list block) (x : block) : bool := existsb (fun v => sameBlock v x) set.

(** [pos] outputs are consumed already; [None]: the fuel was not enough. *)
Fixpoint freshBlock (fuel pos : nat) (forbidA forbidB : list block) : option (block * nat) :=
  match fuel with
  | O => None
  | S fuel =>
      let x := prng pos in
      if negb (hasBlock forbidA x) && negb (hasBlock forbidB x) then Some (x, S pos)
      else freshBlock fuel (S pos) forbidA forbidB
  end.

(** The two sets; [Return tt] when a [freshBlock] ran out of fuel. *)
Definition makePairSets (fuel n hitTarget : nat) : Res ((list block * list block * nat) + unit) :=
  let '(set0, set1, pos) := for_ 0 n (fun i '(set0, set1, pos) =>
    let set1 : list block := <[i := prng pos]> set1 in
    (<[i := (set1.[i])]> set0, set1, S pos)) (replicate n ZeroBlock, replicate n ZeroBlock, 0) in
  let misses := if n <? hitTarget then 0 else n - hitTarget in
  forC 0 misses (fun i '(set0, set1, pos) =>
    match freshBlock fuel pos set0 set1 with
    | Some (x, pos) => Ok (Continue (<[i := x]> set0, set1, pos))
    | None => Ok (Return tt)
    end) (set0, set1, pos).

(** The number of hits [rbRun] asks for; [max] is the default argument. *)
Definition rbWant (n : nat) (hitTarget : Z) : nat :=
  if n =? 0 then 0 else
  let hitTarget := if (hitTarget =? 2 ^ 64 - 1)%Z then (Z.of_nat n - 1)%Z else hitTarget in
  Z.to_nat (if (Z.of_nat n <? hitTarget)%Z then Z.of_nat n else hitTarget).

(** [psiMain]: the contexts of the two threads, which get the same four items and no options. *)
Definition psiMain (run : nat → nat → list block → Res Ctx) : Res Ctx * Res Ctx :=
  let n := 4 in
  let set := for_ 0 n (fun i set => <[i := prng i]> set) (replicate n ZeroBlock) in
  (run 0 n set, run 1 n set).

(** [rbRun] up to the calls of the parties. *)
Inductive Run : Type := NoRun | OutOfFuel | Parties (want : nat) (party0 party1 : Res Ctx).

Definition rbRun (run : nat → nat → list block → Res Ctx) (fuel n : nat) (hitTarget : Z) : Res Run :=
  if n =? 0 then mret NoRun else
  let want := rbWant n hitTarget in
  o ← makePairSets fuel n want;
  match o with
  | inr _ => mret OutOfFuel
  | inl (set0, set1, _) => mret (Parties want (run 0 n set0) (run 1 n set1))
  end.

(** [rbRun] returns whether the receiver counted what was asked for. *)
Definition rbVerdict (got want : nat) : bool := got =? want.

Definition rbCheck (run : nat → nat → list block → Res Ctx) (fuel : nat) : Res Run := rbRun run fuel 4 (2 ^ 64 - 1).

Lemma hasBlock_spec l x : hasBlock l x = true ↔ x ∈ l.
Proof.
  unfold hasBlock. rewrite existsb_exists. setoid_rewrite <- list_elem_of_In. unfold sameBlock. setoid_rewrite Z.eqb_eq.
  split; [by intros (v & Hv & ->)|by exists x].
Qed.

Lemma fresh_test A B x : negb (hasBlock A x) && negb (hasBlock B x) = true ↔ (x ∉ A) ∧ (x ∉ B).
Proof. by rewrite andb_true_iff, !negb_true_iff, <- !not_true_iff_false, !hasBlock_spec. Qed.

Lemma freshBlock_spec fuel pos A B x pos' : freshBlock fuel pos A B = Some (x, pos') → (x ∉ A) ∧ (x ∉ B).
Proof.
  revert pos. induction fuel as [|fuel IH]; intros pos; cbn [freshBlock]; [done|].
  destruct (_ && _) eqn:E; [|apply IH]. intros [= <- _]. by apply fresh_test.
Qed.

Lemma freshBlock_first fuel pos A B : 0 < fuel → prng pos ∉ A → prng pos ∉ B → freshBlock fuel pos A B = Some (prng pos, S pos).
Proof.
  intros Hf HA HB. destruct fuel as [|fuel]; [lia|]. cbn [freshBlock]. by rewrite (proj2 (fresh_test A B _) (conj HA HB)).
Qed.

(** The first [n] outputs. *)
Abbreviation drawn n := (map prng (seq 0 n)).

Lemma draw n : for_ 0 n (fun i '(set0, set1, pos) =>
    let set1 : list block := <[i := prng pos]> set1 in
    (<[i := (set1.[i])]> set0, set1, S pos)) (replicate n ZeroBlock, replicate n ZeroBlock, 0) = (drawn n, drawn n, n).
Proof.
  match goal with |- for_ 0 n ?f ?s = _ =>
    assert (H : ∀ m, m ≤ n → for_ 0 m f s = (drawn m ++ replicate (n - m) ZeroBlock, drawn m ++ replicate (n - m) ZeroBlock, m)) end.
  { induction m as [|m IH]; intros Hm; [by rewrite for_0, Nat.sub_0_r|]. rewrite for_snoc, IH by lia. cbv beta iota zeta.
    assert (E : <[m := prng m]> (drawn m ++ replicate (n - m) ZeroBlock) = drawn (S m) ++ replicate (n - S m) ZeroBlock).
    { rewrite seq_S, map_app, <- app_assoc. replace (n - m) with (S (n - S m)) by lia. cbn [replicate].
      rewrite insert_app_r_alt by (by rewrite length_map, length_seq). by rewrite length_map, length_seq, Nat.sub_diag. }
    rewrite E. do 2 f_equal. assert (Ed : (drawn (S m) ++ replicate (n - S m) ZeroBlock).[m] = prng m).
    { rewrite app_nth1 by (rewrite length_map, length_seq; lia). rewrite nth_map_seq; [done|lia]. }
    by rewrite Ed, E. }
  rewrite H by lia. by rewrite Nat.sub_diag, app_nil_r.
Qed.

Lemma NoDup_insert_fresh (l : list block) i x : NoDup l → x ∉ l → NoDup (<[i := x]> l).
Proof.
  intros Hnd Hx. apply NoDup_alt. intros a b y. rewrite !list_lookup_insert. 
  assert (Hl : ∀ j, l !! j ≠ Some x) by (intros j Hj; apply Hx; by apply list_elem_of_lookup_2 with j).
  repeat case_decide; intros Ha Hb; simplify_eq; try lia.
  - by apply Hl in Hb.
  - by apply Hl in Ha.
  - by apply (NoDup_lookup l a b y).
Qed.

Lemma filter_split (P : block → Prop) `{∀ x, Decision (P x)} (l : list block) m :
  (∀ i, i < m → i < length l → ¬ P l.[i]) → (∀ i, m ≤ i < length l → P l.[i]) → length (filter P l) = length l - m.
Proof.
  revert m. induction l as [|x l IH]; intros m Hno Hyes; [done|]. destruct m as [|m].
  - rewrite filter_cons_True by (apply (Hyes 0); cbn; lia). cbn [length].
    rewrite (IH 0); [lia|lia|]. intros i Hi. apply (Hyes (S i)). cbn. lia.
  - rewrite filter_cons_False by (apply (Hno 0); cbn; lia). rewrite (IH m); [cbn; lia| |].
    + intros i Hi Hl. apply (Hno (S i)); cbn; lia.
    + intros i Hi. apply (Hyes (S i)). cbn. lia.
Qed.

(** The state of the replacing loop after [i] turns. [D] says that the outputs up to [2 n] are distinct. *)
Definition replaced (D : Prop) (n i : nat) (st : list block * list block * nat) : Prop :=
  let '(set0, set1, pos) := st in
  length set0 = n ∧ set1 = drawn n ∧ (∀ j, j < i → set0.[j] ∉ drawn n) ∧ (∀ j, i ≤ j → j < n → set0.[j] = prng j) ∧
  (NoDup (drawn n) → NoDup set0) ∧ (D → pos = n + i ∧ ∀ x, x ∈ set0 → ∃ k, k < n + i ∧ x = prng k).

Definition distinct (m : nat) : Prop := ∀ i j, i < j → j < m → prng i ≠ prng j.

Lemma elem_drawn n x : x ∈ drawn n ↔ ∃ k, k < n ∧ x = prng k.
Proof.
  rewrite list_elem_of_In, in_map_iff. split.
  - intros (k & <- & Hk%in_seq). exists k. split; [lia|done].
  - intros (k & Hk & ->). exists k. split; [done|]. apply in_seq. lia.
Qed.

(** Without repetitions every turn succeeds at its first try. *)
Lemma fresh_first fuel n i (s0 : list block) : 0 < fuel → distinct (2 * n) → i < n →
  (∀ x, x ∈ s0 → ∃ k, k < n + i ∧ x = prng k) → freshBlock fuel (n + i) s0 (drawn n) = Some (prng (n + i), S (n + i)).
Proof.
  intros Hf Hd Hi Hs. assert (Hnew : ∀ s : list block, (∀ y, y ∈ s → ∃ k, k < n + i ∧ y = prng k) → prng (n + i) ∉ s).
  { intros s Hall Hin. destruct (Hall _ Hin) as (k & Hk & Ek). by apply (Hd k (n + i)); [lia|lia|]. }
  apply freshBlock_first; [done|by apply Hnew|]. apply Hnew. intros y (k & Hk & ->)%elem_drawn. exists k. split; [lia|done].
Qed.

Lemma pair_loop fuel n hitTarget : ∃ o, makePairSets fuel n hitTarget = Ok o ∧
  match o with
  | inl st => replaced (0 < fuel ∧ distinct (2 * n)) n (n - Nat.min hitTarget n) st
  | inr _ => ¬ (0 < fuel ∧ distinct (2 * n))
  end.
Proof.
  set (D := 0 < fuel ∧ distinct (2 * n)). unfold makePairSets. rewrite draw.
  assert (Hm : (if n <? hitTarget then 0 else n - hitTarget) = n - Nat.min hitTarget n) by (destruct (Nat.ltb_spec n hitTarget); lia).
  rewrite Hm. set (m := n - Nat.min hitTarget n). assert (Hmn : m ≤ n) by lia.
  apply (forC_inv (replaced D n) (replaced D n m) (fun _ => ¬ D)); [lia| | |done].
  - cbn. split; [by rewrite length_map, length_seq|]. split; [done|]. split; [lia|].
    split; [intros j _ Hj; by apply nth_map_seq|]. split; [done|]. intros _. split; [lia|]. intros x Hx. rewrite Nat.add_0_r. by apply elem_drawn.
  - intros i [[s0 s1] pos] Hi (Hl & -> & Hno & Hrest & Hnd & HD).
    destruct (freshBlock fuel pos s0 (drawn n)) as [[x pos']|] eqn:E.
    + eexists. split; [reflexivity|]. destruct (freshBlock_spec _ _ _ _ _ _ E) as [Hx0 Hx1]. cbn.
      split; [by rewrite length_insert|]. split; [done|]. split; [|split; [|split]].
      * intros j Hj. rewrite nth_insert. destruct (decide (i = j ∧ i < length s0)); [done|]. apply Hno. lia.
      * intros j Hj Hjn. rewrite nth_insert, decide_False by lia. apply Hrest; lia.
      * intros Hd. by apply NoDup_insert_fresh; [apply Hnd|].
      * intros HDt. destruct (HD HDt) as [-> Hall]. destruct HDt as [Hf Hdist].
        rewrite fresh_first in E by (done || lia).
        injection E as <- <-. split; [lia|]. intros y (j & Hj)%list_elem_of_lookup. rewrite list_lookup_insert in Hj. case_decide.
        -- injection Hj as <-. exists (n + i). split; [lia|done].
        -- destruct (Hall y) as (k & Hk & ->); [by apply list_elem_of_lookup_2 with j|]. exists k. split; [lia|done].
    + eexists. split; [reflexivity|]. cbn. intros HDt. destruct (HD HDt) as [-> Hall]. destruct HDt as [Hf Hdist].
      by rewrite fresh_first in E by (done || lia).
Qed.

(** The sets of a test run: both have [n] items, and exactly [min(hitTarget, n)] items of the first set are in the
    second; the first set has no repeated item when the second has none. The unbounded search
    for a fresh item ends at its first try when the generator does not repeat itself within
    [2 n] outputs. *)
Theorem pair_sets fuel n hitTarget :
  (∀ set0 set1 pos, makePairSets fuel n hitTarget = Ok (inl (set0, set1, pos)) →
     length set0 = n ∧ set1 = drawn n ∧ length (filter (.∈ set1) set0) = Nat.min hitTarget n ∧ (NoDup set1 → NoDup set0)) ∧
  (0 < fuel → distinct (2 * n) → ∃ set0 set1,
     makePairSets fuel n hitTarget = Ok (inl (set0, set1, n + (n - Nat.min hitTarget n))) ∧ NoDup set0 ∧ NoDup set1).
Proof.
  destruct (pair_loop fuel n hitTarget) as (o & -> & Ho). split.
  - intros s0 s1 pos [= ->]. destruct Ho as (Hl & -> & Hno & Hrest & Hnd & _). split; [done|]. split; [done|]. split; [|done].
    rewrite (filter_split (.∈ drawn n) s0 (n - Nat.min hitTarget n)); [rewrite Hl; lia|by intros i Hi _; apply Hno|].
    intros i Hi. rewrite Hrest by lia. apply elem_drawn. exists i. split; [lia|done].
  - intros Hf Hd. destruct o as [[[s0 s1] pos]|[]]; [|by destruct Ho]. destruct Ho as (Hl & -> & _ & _ & Hnd & HD).
    destruct (HD (conj Hf Hd)) as [-> _]. exists s0, (drawn n). split; [done|].
    assert (H1 : NoDup (drawn n)).
    { apply NoDup_fmap_2_strong; [|apply NoDup_seq]. intros i j Hi%elem_of_seq Hj%elem_of_seq E.
      destruct (Nat.lt_trichotomy i j) as [Hlt|[?|Hlt]]; [|done|]; [|symmetry in E]; by apply Hd in E; lia. }
    split; [by apply Hnd|done].
Qed.
End Check.

(** The program of main.cpp and the check without options never get to the protocol: with four items and the default
    parameters both parties throw while they are set up, whatever the generator gives. *)
Theorem psiMain_throws L keccak keccak_inv shake aes_dec prng :
  let run me n set := setup L keccak keccak_inv shake aes_dec me n set None None None in
  let e := InvalidArgument "RBInfoOf width > columns" in
  psiMain prng run = (Throw e, Throw e) ∧
  ∀ fuel want party0 party1, rbCheck prng run fuel = Ok (Parties want party0 party1) → party0 = Throw e ∧ party1 = Throw e.
Proof.
  intros run e. assert (Hrun : ∀ me set, length set = 4 → run me 4 set = Throw e).
  { intros me set Hl. unfold run, setup. rewrite Hl. cbn [Nat.eqb negb throw_if mbind Res_bind default from_option].
    by rewrite default_too_small by lia. }
  split.
  - unfold psiMain. by rewrite !Hrun by (vm_compute; reflexivity).
  - intros fuel want p0 p1 E. unfold rbCheck, rbRun in E. cbn [Nat.eqb] in E.
    destruct (pair_loop prng fuel 4 (rbWant 4 (2 ^ 64 - 1))) as (o & Eo & Ho). rewrite Eo in E. cbn [mbind Res_bind] in E.
    destruct o as [[[s0 s1] pos]|]; [|done]. injection E as _ <- <-. destruct Ho as (Hl & -> & _).
    split; apply Hrun; [done|]. by rewrite length_map, length_seq.
Qed.

(** * A concrete run *)

Module Examples.
Import RbOkvs.Examples.
#[local] Existing Instances Net.queue_channel Net.queue_laws.

(** A stand-in for AES: adds the key. *)
Definition toy_cipher (k x : block) : block := Z.lxor (wrap 128 x) (wrap 128 k).

Lemma toy_cipher_ok : aes_ok toy_cipher.
Proof. intros k x. apply in_word_lxor; [lia| |]; by apply in_word_wrap. Qed.

Lemma toy_cipher_inverse : Hctr2.Hctr2.aes_inverse toy_cipher toy_cipher.
Proof.
  intros k x Hx. assert (E : toy_cipher k (toy_cipher k x) = x).
  { unfold toy_cipher. rewrite (wrap_small 128 (Z.lxor _ _)) by (apply in_word_lxor; [lia| |]; by apply in_word_wrap).
    rewrite lxor_cancel. by apply wrap_small. }
  split; (split; [apply toy_cipher_ok|exact E]).
Qed.

Definition lib : Lib := mkLib 4 toy_cipher toy_log2 (fun _ _ => None) (fun _ _ _ => None) (fun _ _ _ => None)
  (fun _ => 0%Z) (fun r => r) (fun s => (s, s)) xorv EcKem.toyHash EcKem.toyVerify.
Abbreviation toy_setup me n set := (setup lib ConsPi.ConsPi.Examples.keccak_id ConsPi.ConsPi.Examples.keccak_id
  Feistel.Feistel.toy_shake toy_cipher me n set (Some (toy_params 8 4)) None (Some (KemRows.mkKemCfg KemRows.EcKem))).
Definition ctx (keys : list block) : Ctx := mkCtx (i_columns cfg3) (i_bandWidth cfg3) 3 true (i_workerThreads cfg3) (toy_params 8 4)
  (KemRows.mkKemCfg KemRows.EcKem) false Xoodoo.Xoodoo.perm Xoodoo.Xoodoo.perm keys.
Definition queue : list (list (list Z)) := [[]].

Lemma toy_setup_ok me keys : length keys = 3 → toy_setup me 3 keys = Ok (ctx keys).
Proof.
  intros Hl. unfold setup. rewrite Hl. change (default RBParams_default (Some (toy_params 8 4))) with (toy_params 8 4).
  cbn [Nat.eqb negb throw_if mbind Res_bind]. change (RBInfoOf (l_hw lib) (l_log2 lib)) with (RBInfoOf 4 toy_log2).
  rewrite cfg3_ok. reflexivity.
Qed.

Lemma toy_prims : prims_ok lib ConsPi.ConsPi.Examples.keccak_id ConsPi.ConsPi.Examples.keccak_id
  Feistel.Feistel.toy_shake toy_cipher.
Proof.
  split; [exact toy_cipher_ok|]. destruct PqPerm.Examples.toy_primitives as (Hk & Hs & Ht & _).
  do 3 (split; [assumption|]). exact toy_cipher_inverse.
Qed.

Lemma toy_independent keys : length keys = 3 →
  match RBEncode_flat 4 toy_cipher toy_log2 keys [1; 2; 3]%Z 1 [] (toy_params 8 4) with Ok (ok, _) => ok | Throw _ => false end = true →
  independent lib cfg3 (ctx keys).
Proof.
  intros Hl E. unfold independent. cbn [ctx lib l_aes rb set].
  assert (Hc : RBInfoOf 4 toy_log2 (length keys) (toy_params 8 4) = Ok cfg3) by (rewrite Hl; exact cfg3_ok).
  destruct (RBEncode_flat_spec 4 toy_cipher toy_log2 keys [1; 2; 3]%Z [] 1 (toy_params 8 4) cfg3 toy_cipher_ok)
    as [[E' _]|(tb & _ & _ & Hd & _)]; [by intros ->|by rewrite Hl|lia|exact Hc| |exact Hd].
  by rewrite E' in E.
Qed.

Lemma pqpsi_delivers_witness : ∃ h, h = 3 ∧
  ∀ k st, nsteps (step lib Protocol.Examples.toy_rand (ctx [11; 22; 33]%Z) (ctx [33; 11; 22]%Z)) k (mkState RInit SInit queue queue) st →
    k ≤ 9 ∧ (final h st ∨ ∃ st', step lib Protocol.Examples.toy_rand (ctx [11; 22; 33]%Z) (ctx [33; 11; 22]%Z) st st').
Proof.
  destruct (pqpsi_delivers lib Protocol.Examples.toy_rand _ _ _ _ [11; 22; 33]%Z [33; 11; 22]%Z (Some (toy_params 8 4)) None
    (Some (KemRows.mkKemCfg KemRows.EcKem)) (ctx [11; 22; 33]%Z) (ctx [33; 11; 22]%Z) toy_prims)
    as (cfg & h & Ecfg & Hle & Hge & Hrun).
  - exact Protocol.Examples.toy_kem.
  - reflexivity.
  - discriminate.
  - apply params_agree_fixed; [right; cbn; lia|discriminate].
  - exact (toy_setup_ok 0 [11; 22; 33]%Z eq_refl).
  - exact (toy_setup_ok 1 [33; 11; 22]%Z eq_refl).
  - exists h. split; [|apply (Hrun eq_refl _ _ _ queue queue); [cbn; lia|cbn; lia|repeat constructor..]]. change (RBInfoOf 4 toy_log2 3 (toy_params 8 4) = Ok cfg) in Ecfg.
    rewrite cfg3_ok in Ecfg. apply (mret_Ok cfg3 cfg) in Ecfg. rewrite <- Ecfg in Hge.
    specialize (Hge (toy_independent [11; 22; 33]%Z eq_refl ltac:(vm_compute; reflexivity))
      (toy_independent [33; 11; 22]%Z eq_refl ltac:(vm_compute; reflexivity))).
    change (length (filter (.∈ [33; 11; 22]%Z) [11; 22; 33]%Z)) with 3 in Hge. cbn in Hle. lia.
Defined.

Lemma setup_outcome_witness :
  setup lib ConsPi.ConsPi.Examples.keccak_id ConsPi.ConsPi.Examples.keccak_id Feistel.Feistel.toy_shake toy_cipher 0 4
    [11; 22; 33]%Z None None None = Throw (InvalidArgument "pqpsi: setSize must match set.size()").
Proof.
  apply (proj1 (setup_outcome lib ConsPi.ConsPi.Examples.keccak_id ConsPi.ConsPi.Examples.keccak_id Feistel.Feistel.toy_shake
    toy_cipher 0 [11; 22; 33]%Z None None None)). discriminate.
Defined.

Lemma pair_sets_witness : ∃ set0 set1, makePairSets (fun i => Z.of_nat (7 * i + 3)) 1 4 3 = Ok (inl (set0, set1, 5)) ∧
  NoDup set0 ∧ NoDup set1.
Proof.
  apply (proj2 (pair_sets (fun i => Z.of_nat (7 * i + 3)) 1 4 3)); [lia|]. intros i j Hij _. lia.
Defined.
End Examples.
End Pqpsi.
