(* ===== verification/EndToEnd.v ===== *)
(** The protocol with the code it is built with: Construction-Pi over KeccakTools, the Feistel network over the
    repository's SHAKE256, HCTR2 and the OKVS rows over the AES of cryptoTools, and the sets of check.cpp from its
    generator.  What the components assume of these primitives is proved here, so that the theorems
    about a whole run have no hypothesis about them. *)
From stdpp Require Import relations.
From S2P Require Import Prelude Words Parallel RbBits Fit RbRows RbSolve RbCodec RbOkvs RbTypes PermApi BitBuf.
From S2P Require Import Feistel Hctr2 AesNi Aes Prng Sneik Small Keccak Shake ConsPi Xoodoo Permutation MlKem KemBits Kemeleon EcKem.
From S2P Require Import Net BtIo Rows KemRows Protocol Session Connect Pqpsi.
Open Scope nat_scope.

Module EndToEnd.
Import Protocol Session Pqpsi Connect.
#[local] Existing Instance PqPerm.Kind_eq_dec.
#[local] Existing Instances AesNi.Fips.fips AesNi.Fips.fips_laws.

Abbreviation keccak := Keccak.Keccak.keccak.
Abbreviation keccak_inv := Keccak.Keccak.keccak_inv.
Abbreviation shake := Shake.Shake.shake256.
Abbreviation aes_enc := Aes.Aes.aes_enc.
Abbreviation aes_dec := Aes.Aes.aes_dec.

Lemma primitives : PqPerm.primitives_ok keccak keccak_inv shake aes_enc aes_dec.
Proof.
  exact (conj Keccak.Keccak.keccak_discharges
    (conj Shake.Shake.shake256_ok (conj Shake.Shake.shake256_total Aes.Aes.aes_enc_dec))).
Qed.

Lemma prims L : l_aes L = aes_enc → prims_ok L keccak keccak_inv shake aes_dec.
Proof. intros E. unfold prims_ok. rewrite E. exact (conj Aes.Aes.aes_enc_ok primitives). Qed.

(** * Permutations *)

(** C9 Whatever configuration it is given, a permutation object that [make] returns over the repository's Keccak, SHAKE256
    and AES is a bijection of the rows of its width (800 bytes, or 48 for Xoodoo): both directions
    succeed on every row and undo each other. *)
Theorem make_bijection cfg party p row : PqPerm.make keccak keccak_inv shake aes_enc aes_dec cfg party = Ok p →
  buf_ok (PqPerm.rowBytes (PqPerm.kind cfg)) row →
  (∃ c, encryptBytes p row = Ok c ∧ buf_ok (PqPerm.rowBytes (PqPerm.kind cfg)) c ∧ decryptBytes p c = Ok row) ∧
  (∃ c, decryptBytes p row = Ok c ∧ buf_ok (PqPerm.rowBytes (PqPerm.kind cfg)) c ∧ encryptBytes p c = Ok row).
Proof. intros Hm Hrow. by apply (PqPerm.make_bijective _ _ _ _ _ cfg party p row primitives). Qed.

Lemma make_bijection_witness : let cfg := PqPerm.with_kind PqPerm.Hctr PqPerm.Cfg_default in
  ∃ p, PqPerm.make keccak keccak_inv shake aes_enc aes_dec cfg 1 = Ok p ∧
  ∃ c, encryptBytes p (replicate 800 3%Z) = Ok c ∧ decryptBytes p c = Ok (replicate 800 3%Z).
Proof.
  intros cfg. exists (Hctr2.Hctr2.perm aes_enc aes_dec 1). split; [reflexivity|].
  edestruct (make_bijection cfg 1 (Hctr2.Hctr2.perm aes_enc aes_dec 1) (replicate 800 3%Z)) as [(c & Hc & _ & Hd) _].
  - reflexivity.
  - split; [reflexivity|apply Forall_replicate; unfold in_word; lia].
  - exists c. exact (conj Hc Hd).
Defined.

(** * A run *)

Abbreviation start L := (setup L keccak keccak_inv shake aes_dec).

(** C1 A whole run of two parties with as many items, the same options and the same environment, and tables below 4 GiB:
    they first exchange a byte over every channel and, once both have, run the protocol.  In whatever order
    the parties and their threads move, the run never gets stuck.  The exchange takes four calls for every
    channel and the protocol at most nine steps, after which the channels are idle and the receiver
    reports [h] hits.  [h] is at most the size of the set, and at least the number of the
    receiver's items that the sender has too, unless the masks of one party's items are dependent. *)
Theorem pqpsi_runs {C} `{ChannelLaws C} L R env set0 set1 rb pi kem c0 c1 (up0 down0 : list C) :
  l_aes L = aes_enc → kem_ok L R (KemRows.kind (kemOf kem)) →
  length set1 = length set0 → set0 ≠ [] → params_agree (l_log2 L) (length set0) (default RBParams_default rb) →
  start L 0 (length set0) set0 rb pi kem = Ok c0 → start L 1 (length set1) set1 rb pi kem = Ok c1 →
  (Z.of_nat (16 * (tableSize c0 * rowSize c0)) < 2 ^ 32)%Z →
  let nCh := netChannels env (multiThread c0) (workerThreads c0) in
  length up0 = nCh → length down0 = nCh → Forall cidle up0 → Forall cidle down0 →
  ∃ cfg h, RBInfoOf (l_hw L) (l_log2 L) (length set0) (default RBParams_default rb) = Ok cfg ∧ h ≤ length set0 ∧
    (independent L cfg c0 → independent L cfg c1 → length (filter (.∈ set1) set0) ≤ h) ∧
    ∀ k w, nsteps warm_step k (warm_start nCh up0 down0) w →
      k ≤ 4 * nCh ∧ (k < 4 * nCh → ∃ w', warm_step w w') ∧
      (k = 4 * nCh → ∀ m st, nsteps (step L R c0 c1) m (mkState RInit SInit (toServer w) (toClient w)) st →
         m ≤ 9 ∧ (final h st ∨ ∃ st', step L R c0 c1 st st')).
Proof.
  intros Ha Hk Hl Hne Hagree S0 S1 H32 nCh Lu Ld Iu Id.
  destruct (pqpsi_delivers L R _ _ _ _ set0 set1 rb pi kem c0 c1 (prims L Ha) Hk Hl Hne Hagree S0 S1)
    as (cfg & h & Ecfg & Hle & Hge & Hrun).
  exists cfg, h. split; [exact Ecfg|]. split; [exact Hle|]. split; [exact Hge|]. intros k w Hw.
  destruct (turn_reached nCh k _ (start_turn nCh up0 down0 Lu Ld Iu Id) w Hw) as [Hk4 T]. split; [done|]. split.
  - intros Hlt. apply (turn_moves nCh (k / 4) (k mod 4)); [divlia|by apply Nat.mod_upper_bound|done].
  - intros ->. destruct (turn_end nCh w T) as (_ & _ & Hu & Hd & Wu & Wd & _).
    assert (Hn : 0 < nCh) by apply netChannels_bounds.
    apply (Hrun H32 C _ _ (toServer w) (toClient w)); [by rewrite Hu|by rewrite Hd|done|done].
Qed.

(** * The sets of a test run *)

(** The seed of check.cpp, [_mm_set_epi32(4253465, 3434565, 234435, 23987045)]. *)
Definition seed : block := of_dwords 23987045 234435 3434565 4253465.

Lemma distinct_outputs m : (Z.of_nat m ≤ 2 ^ 64)%Z → distinct (Prng.Prng.nth_block seed) m.
Proof.
  intros Hm i j Hij Hj E. assert (i = j) by (apply (Prng.Prng.nth_block_inj seed); [lia|lia|exact E]). lia.
Qed.

(** C30 The sets of a test run, drawn from the repository's generator with the seed of check.cpp: the outputs that
    [makePairSets] consumes are those the generator gives, the search for a fresh item never looks twice,
    and the result is two sets of [n] distinct items with exactly [min(hitTarget, n)] items in
    common. *)
Theorem check_sets fuel n hitTarget : 0 < fuel → (Z.of_nat (2 * n) ≤ 2 ^ 64)%Z →
  let used := n + (n - Nat.min hitTarget n) in
  ∃ set0 set1 p, makePairSets (Prng.Prng.nth_block seed) fuel n hitTarget = Ok (inl (set0, set1, used)) ∧
    Prng.Prng.draw_blocks used (Prng.Prng.PRNG_of seed) = Some (map (Prng.Prng.nth_block seed) (seq 0 used), p) ∧
    length set0 = n ∧ length set1 = n ∧ NoDup set0 ∧ NoDup set1 ∧ length (filter (.∈ set1) set0) = Nat.min hitTarget n.
Proof.
  intros Hf Hn used. destruct (pair_sets (Prng.Prng.nth_block seed) fuel n hitTarget) as [Hall Hex].
  destruct (Hex Hf (distinct_outputs _ Hn)) as (set0 & set1 & E & N0 & N1).
  destruct (Hall _ _ _ E) as (L0 & E1 & Hc & _).
  destruct (Prng.Prng.draw_blocks_nth seed used) as [p Hp]; [split; [by vm_compute|reflexivity]|unfold used; lia|].
  exists set0, set1, p. split; [exact E|]. split; [exact Hp|]. split; [exact L0|].
  split; [rewrite E1; apply length_map_seq|]. split; [exact N0|]. split; [exact N1|exact Hc].
Qed.

Lemma check_sets_witness : ∃ set0 set1 p, makePairSets (Prng.Prng.nth_block seed) 1 4 3 = Ok (inl (set0, set1, 5)) ∧
  Prng.Prng.draw_blocks 5 (Prng.Prng.PRNG_of seed) = Some (map (Prng.Prng.nth_block seed) (seq 0 5), p) ∧
  length (filter (.∈ set1) set0) = 3.
Proof.
  destruct (check_sets 1 4 3) as (set0 & set1 & p & E & Hp & _ & _ & _ & _ & Hc); [lia|lia|].
  exists set0, set1, p. exact (conj E (conj Hp Hc)).
Defined.

(** * A concrete run *)

Module Examples.
Import RbOkvs.Examples.

Definition lib : Lib := mkLib 4 aes_enc toy_log2 (fun _ _ => None) (fun _ _ _ => None) (fun _ _ _ => None)
  (fun _ => 0%Z) (fun r => r) (fun s => (s, s)) xorv EcKem.toyHash EcKem.toyVerify.
Abbreviation options := (Some (toy_params 8 4)).
Abbreviation eckem := (Some (KemRows.mkKemCfg KemRows.EcKem)).
Definition ctx (keys : list block) : Ctx := mkCtx (i_columns cfg3) (i_bandWidth cfg3) 3 true (i_workerThreads cfg3) (toy_params 8 4)
  (KemRows.mkKemCfg KemRows.EcKem) false Xoodoo.Xoodoo.perm Xoodoo.Xoodoo.perm keys.

Lemma start_ok me keys : length keys = 3 → start lib me 3 keys options None eckem = Ok (ctx keys).
Proof.
  intros Hl. unfold setup. rewrite Hl. change (default RBParams_default options) with (toy_params 8 4).
  cbn [Nat.eqb negb throw_if mbind Res_bind]. change (RBInfoOf (l_hw lib) (l_log2 lib)) with (RBInfoOf 4 toy_log2).
  rewrite cfg3_ok. reflexivity.
Qed.

(** Two channels of cryptoTools are asked for and opened. *)
Lemma pqpsi_runs_witness : let q := [BtIo.Pipe_new; BtIo.Pipe_new] in let c0 := ctx [11; 22; 33]%Z in let c1 := ctx [33; 11; 22]%Z in
  ∃ h, h ≤ 3 ∧ ∀ k w, nsteps (@warm_step _ BtIo.bt_channel) k (warm_start 2 q q) w → k ≤ 8 ∧
  (k = 8 → ∀ m st, nsteps (@step _ BtIo.bt_channel lib Protocol.Examples.toy_rand c0 c1) m
      (mkState RInit SInit (toServer w) (toClient w)) st →
    m ≤ 9 ∧ (@final _ BtIo.bt_channel h st ∨ ∃ st', @step _ BtIo.bt_channel lib Protocol.Examples.toy_rand c0 c1 st st')).
Proof.
  intros q c0 c1. destruct (@pqpsi_runs _ BtIo.bt_channel BtIo.bt_laws lib Protocol.Examples.toy_rand (Some "2") [11; 22; 33]%Z [33; 11; 22]%Z
    options None eckem c0 c1 q q) as (cfg & h & _ & Hle & _ & Hrun).
  - reflexivity.
  - exact Protocol.Examples.toy_kem.
  - reflexivity.
  - discriminate.
  - apply params_agree_fixed; [right; cbn; lia|discriminate].
  - exact (start_ok 0 [11; 22; 33]%Z eq_refl).
  - exact (start_ok 1 [33; 11; 22]%Z eq_refl).
  - reflexivity.
  - reflexivity.
  - reflexivity.
  - by repeat constructor.
  - by repeat constructor.
  - exists h. split; [exact Hle|]. intros k w Hw. destruct (Hrun k w Hw) as (Hk & _ & Hend).
    split; [exact Hk|]. exact Hend.
Defined.
End Examples.
End EndToEnd.
