(* ===== verification/PxUtil.v ===== *)
(** The containers of the VOLE-PSI solver (src/volepsi/volePSI/PxUtil.h): Permutation, and WeightData, the buckets of
    columns by weight as doubly linked lists threaded through an array of nodes.
    Node pointers are indices; [NullNode] and a null pointer are [None].  [undefined] stands for undefined behaviour of the
    source (the [assert]s of debug builds): every theorem that ends in [Ok] shows that it is not reached. *)
From stdpp Require Import sets.
From S2P Require Import Prelude.
Open Scope nat_scope.

Module PxUtil.

Definition RTE_LOC : exn := RuntimeError "rt error at ".
Definition undefined : exn := OutOfRange "undefined behaviour".

(** [*p] of an optional value. *)
Definition must {A} (o : option A) : Res A := match o with Some a => Ok a | None => Throw undefined end.

(** * Permutations *)

Record Permutation : Type := mkPerm { mSrc2Dst : list nat; mDst2Src : list nat }.

(** [init]: the identity. *)
Definition perm_init (n : nat) : Permutation := mkPerm (seq 0 n) (seq 0 n).

(** [srcs] is the [std::set] of sources not yet mapped, in ascending order. *)
Definition initDst2Src (p : Permutation) (n : nat) (dst2Src : list nat) : Res Permutation :=
  '(srcs, s2d) ← forR 0 (length dst2Src) (fun dst '(srcs, s2d) =>
     src ← must (dst2Src !! dst);
     throw_if (negb (existsb (Nat.eqb src) srcs)) RTE_LOC ;;
     mret (List.filter (fun s => negb (s =? src)) srcs, <[src := dst]> s2d))
     (seq 0 n, take n (mSrc2Dst p) ++ replicate (n - length (mSrc2Dst p)) 0);
  let '(d2s, s2d) := foldl (fun '(d2s, s2d) src => (d2s ++ [src], <[src := length d2s]> s2d)) (dst2Src, s2d) srcs in
  mret (mkPerm s2d d2s).

Definition perm_src (p : Permutation) (i : nat) : nat := nth i (mDst2Src p) 0.
Definition perm_dst (p : Permutation) (i : nat) : nat := nth i (mSrc2Dst p) 0.
Definition invert (p : Permutation) : Permutation := mkPerm (mDst2Src p) (mSrc2Dst p).

(** [std::swap] of two entries. *)
Definition swap_at (l : list nat) (i j : nat) : list nat := <[j := nth i l 0]> (<[i := nth j l 0]> l).

Definition perm_swap (p : Permutation) (i j : nat) : Permutation :=
  let si := nth i (mDst2Src p) 0 in
  let sj := nth j (mDst2Src p) 0 in
  mkPerm (swap_at (mSrc2Dst p) si sj) (swap_at (mDst2Src p) i j).

(** * Buckets of columns by weight *)

Record WeightNode : Type := mkNode { nWeight : nat; mPrev : option nat; mNext : option nat }.

Record WeightData : Type := mkWD { mWeightSets : list (option nat); mNodes : list WeightNode }.

Definition WeightData_new : WeightData := mkWD [] [].

Definition getNode (wd : WeightData) (i : nat) : Res WeightNode := must (mNodes wd !! i).
Definition putNode (wd : WeightData) (i : nat) (nd : WeightNode) : WeightData := mkWD (mWeightSets wd) (<[i := nd]> (mNodes wd)).
Definition withPrev (p : option nat) (nd : WeightNode) : WeightNode := mkNode (nWeight nd) p (mNext nd).
Definition withNext (p : option nat) (nd : WeightNode) : WeightNode := mkNode (nWeight nd) (mPrev nd) p.
Definition setWeight (wd : WeightData) (i w : nat) : Res WeightData :=
  nd ← getNode wd i; mret (putNode wd i (mkNode w (mPrev nd) (mNext nd))).

Definition pushNode (wd : WeightData) (i : nat) : Res WeightData :=
  node ← getNode wd i;
  let w := nWeight node in
  let sets := mWeightSets wd ++ replicate (S w - length (mWeightSets wd)) None in
  cur ← must (sets !! w);
  match cur with
  | None => mret (mkWD (<[w := Some i]> sets) (mNodes wd))
  | Some h =>
      hd ← getNode wd h;
      let wd := putNode wd h (withPrev (Some i) hd) in
      node ← getNode wd i;
      let wd := putNode wd i (withNext (Some h) node) in
      mret (mkWD (<[w := Some i]> sets) (mNodes wd))
  end.

(** [while (mWeightSets.back() == nullptr) mWeightSets.pop_back();], undefined when every bucket is empty. *)
Fixpoint strip (l : list (option nat)) : list (option nat) :=
  match l with
  | [] => []
  | x :: l' => match strip l', x with [], None => [] | l'', _ => x :: l'' end
  end.
Definition pop_back (l : list (option nat)) : Res (list (option nat)) :=
  match strip l with [] => Throw undefined | l' => Ok l' end.

Definition popNode (wd : WeightData) (i : nat) : Res WeightData :=
  node ← getNode wd i;
  wd ← match mPrev node, mNext node with
       | None, None =>
           _ ← must (mWeightSets wd !! nWeight node);
           sets ← pop_back (<[nWeight node := None]> (mWeightSets wd));
           mret (mkWD sets (mNodes wd))
       | None, Some nx =>
           _ ← must (mWeightSets wd !! nWeight node);
           next ← getNode wd nx;
           mret (mkWD (<[nWeight node := Some nx]> (mWeightSets wd)) (mNodes (putNode wd nx (withPrev None next))))
       | Some pv, None =>
           prev ← getNode wd pv;
           mret (putNode wd pv (withNext None prev))
       | Some pv, Some nx =>
           prev ← getNode wd pv;
           let wd := putNode wd pv (withNext (Some nx) prev) in
           next ← getNode wd nx;
           mret (putNode wd nx (withPrev (Some pv) next))
       end;
  mret (putNode wd i (mkNode (nWeight node) None None)).

Definition decementWeight (wd : WeightData) (i : nat) : Res WeightData :=
  wd ← popNode wd i;
  node ← getNode wd i;
  wd ← setWeight wd i (nWeight node - 1);
  pushNode wd i.

Fixpoint find_set (sets : list (option nat)) : option nat :=
  match sets with [] => None | Some x :: _ => Some x | None :: sets' => find_set sets' end.

Definition getMinWeightNode (wd : WeightData) : Res nat :=
  match find_set (drop 1 (mWeightSets wd)) with Some x => Ok x | None => Throw RTE_LOC end.

(** The nodes of a smaller or equal number of columns are reused. *)
Definition wd_init (wd : WeightData) (weights : list nat) : Res WeightData :=
  let n := length weights in
  let nodes := if length (mNodes wd) <? n then replicate n (mkNode 0 None None) else mNodes wd in
  wd ← forR 0 n (fun i wd =>
    w ← must (weights !! i);
    ws ← must (mWeightSets wd !! w);
    wd ← match ws with
         | Some h => hd ← getNode wd h; mret (putNode (putNode wd i (mkNode w None (Some h))) h (withPrev (Some i) hd))
         | None => mret (putNode wd i (mkNode w None None))
         end;
    mret (mkWD (<[w := Some i]> (mWeightSets wd)) (mNodes wd))) (mkWD (replicate 200 None) nodes);
  mret (mkWD (match strip (mWeightSets wd) with [] => mWeightSets wd | sets => sets end) (mNodes wd)).

(** The walk of [setSize]; the number of nodes is enough fuel for lists without a cycle. *)
Fixpoint walk (fuel : nat) (wd : WeightData) (cur : option nat) : list nat :=
  match fuel, cur with
  | S fuel, Some i => i :: walk fuel wd (mNodes wd !! i ≫= mNext)
  | _, _ => []
  end.
Definition setSize (wd : WeightData) (w : nat) : Res nat :=
  head ← must (mWeightSets wd !! w); mret (length (walk (length (mNodes wd)) wd head)).

(** * Doubly linked lists *)

(** The neighbours of every element are those of the list. *)
Definition linked (nodes : list WeightNode) (l : list nat) : Prop :=
  ∀ a x b, l = a ++ x :: b → ∃ nd, nodes !! x = Some nd ∧ mPrev nd = last a ∧ mNext nd = head b.

Lemma app_split {A} (a b a' b' : list A) y : a ++ b = a' ++ y :: b' →
  (∃ c, a = a' ++ y :: c ∧ b' = c ++ b) ∨ (∃ c, a' = a ++ c ∧ b = c ++ y :: b').
Proof.
  revert a'. induction a as [|z a IH]; intros [|z' a'] H; cbn in *.
  - right. by exists [].
  - right. by exists (z' :: a').
  - injection H as -> <-. left. by exists a.
  - injection H as -> H. destruct (IH a' H) as [(c & -> & ->)|(c & -> & ->)]; [left|right]; by exists c.
Qed.

Lemma linked_ext nodes nodes' l :
  (∀ y, y ∈ l → nodes' !! y = nodes !! y) → linked nodes l → linked nodes' l.
Proof. intros H Hl a x b ->. rewrite H; [by apply Hl|set_solver]. Qed.

(** The nodes after [x] is taken out between [a] and [b]. *)
Definition unlinked (nodes nodes' : list WeightNode) (a : list nat) (x : nat) (b : list nat) : Prop :=
  ∀ y nd, y ≠ x → nodes !! y = Some nd → nodes' !! y = Some (mkNode (nWeight nd)
    (if decide (head b = Some y) then last a else mPrev nd) (if decide (last a = Some y) then head b else mNext nd)).

Lemma last_in {A} (l : list A) y : last l = Some y → y ∈ l.
Proof. intros [l' ->]%last_Some. set_solver. Qed.

Lemma head_in {A} (l : list A) y : head l = Some y → y ∈ l.
Proof. intros (l' & ->)%head_Some. set_solver. Qed.

Lemma last_mid {A} (a : list A) y c : last (a ++ y :: c) = match last c with Some z => Some z | None => Some y end.
Proof. rewrite last_app_cons, last_cons. by destruct (last c). Qed.

Lemma linked_unlink nodes nodes' a x b : NoDup (a ++ x :: b) → unlinked nodes nodes' a x b →
  linked nodes (a ++ x :: b) → linked nodes' (a ++ b).
Proof.
  intros Hnd Hu Hl a' y b' E. apply NoDup_app in Hnd as (Ha & Hab & [Hx Hb]%NoDup_cons).
  destruct (app_split a b a' b' y E) as [(c & -> & ->)|(c & -> & ->)].
  - destruct (Hl a' y (c ++ x :: b)) as (nd & Hn & Hp & Hnx); [by rewrite <- app_assoc|].
    assert (Hyx : y ≠ x) by (intros ->; apply (Hab x); set_solver).
    eexists. split; [by apply Hu|]. cbn. apply NoDup_app in Ha as (_ & _ & [Hy _]%NoDup_cons). split.
    + rewrite decide_False; [done|]. intros Hh%head_in. apply (Hab y); set_solver.
    + rewrite last_mid. destruct (last c) as [z|] eqn:Ez.
      * rewrite decide_False; [|intros [= ->]; by apply last_in in Ez]. rewrite Hnx. destruct c; [discriminate|done].
      * apply last_None in Ez as ->. by rewrite decide_True.
  - destruct (Hl (a ++ x :: c) y b') as (nd & Hn & Hp & Hnx); [by rewrite <- app_assoc|].
    assert (Hyx : y ≠ x) by (intros ->; set_solver).
    eexists. split; [by apply Hu|]. cbn. rewrite last_mid in Hp. split.
    + destruct c as [|z c]; cbn.
      * rewrite decide_True by done. by rewrite app_nil_r.
      * apply NoDup_cons in Hb as [Hz _]. rewrite decide_False by (intros [= ->]; set_solver).
        rewrite Hp, last_app_cons, last_cons. by destruct (last c).
    + rewrite decide_False; [done|]. intros Hh%last_in. apply (Hab y); set_solver.
Qed.

Lemma linked_other nodes nodes' a x b l : unlinked nodes nodes' a x b → linked nodes l →
  (∀ y, y ∈ l → y ∉ a ++ x :: b) → linked nodes' l.
Proof.
  intros Hu Hl Hd. apply linked_ext with nodes; [|done]. intros y Hy.
  apply list_elem_of_split in Hy as (a' & b' & E). destruct (Hl a' y b' E) as (nd & Hn & _).
  specialize (Hd y ltac:(set_solver)). rewrite (Hu y nd), Hn by set_solver.
  rewrite !decide_False; [by destruct nd| |].
  - intros H%last_in. set_solver.
  - intros H%head_in. set_solver.
Qed.

(** The nodes after [x] is put before [l]. *)
Lemma linked_push nodes nodes' x l nd0 : linked nodes l → NoDup l → x ∉ l →
  nodes' !! x = Some (mkNode nd0 None (head l)) →
  (∀ y nd, y ≠ x → nodes !! y = Some nd → nodes' !! y = Some (mkNode (nWeight nd)
     (if decide (head l = Some y) then Some x else mPrev nd) (mNext nd))) →
  linked nodes' (x :: l).
Proof.
  intros Hl Hnd Hx H0 Hn [|z a] y b E; cbn in E; injection E as <- ->; [by eexists|].
  destruct (Hl a y b eq_refl) as (nd & Hy & Hp & Hnx). eexists. split; [apply Hn; [set_solver|done]|]. cbn.
  split; [|done]. destruct a as [|z a]; cbn.
  - by rewrite decide_True.
  - apply NoDup_cons in Hnd as [Hz _]. rewrite decide_False by (intros [= ->]; set_solver).
    by rewrite Hp.
Qed.

(** * The buckets as lists *)

(** [Rep wd L]: bucket [w] holds the list [L w]; nodes outside of the buckets are unlinked, and the vector of buckets ends
    with a bucket in use. *)
Record Rep (wd : WeightData) (L : nat → list nat) : Prop := {
  rep_out : ∀ w, length (mWeightSets wd) ≤ w → L w = [];
  rep_head : ∀ w, w < length (mWeightSets wd) → mWeightSets wd !! w = Some (head (L w));
  rep_nodup : ∀ w, NoDup (L w);
  rep_weight : ∀ w x, x ∈ L w → ∃ nd, mNodes wd !! x = Some nd ∧ nWeight nd = w;
  rep_linked : ∀ w, linked (mNodes wd) (L w);
  rep_free : ∀ x nd, mNodes wd !! x = Some nd → x ∉ L (nWeight nd) → mPrev nd = None ∧ mNext nd = None;
  rep_trim : mWeightSets wd = [] ∨ ∃ x, last (mWeightSets wd) = Some (Some x) }.

Definition upd (L : nat → list nat) (w : nat) (l : list nat) : nat → list nat := fun v => if v =? w then l else L v.

(** Same weights at every node. *)
Definition same_weights (wd wd' : WeightData) : Prop := ∀ y, nWeight <$> mNodes wd' !! y = nWeight <$> mNodes wd !! y.

Lemma upd_eq L w l : upd L w l w = l.
Proof. unfold upd. by rewrite Nat.eqb_refl. Qed.
Lemma upd_ne L w l v : v ≠ w → upd L w l v = L v.
Proof. intros. unfold upd. by rewrite (proj2 (Nat.eqb_neq _ _)). Qed.

Lemma rep_disjoint wd L v w x : Rep wd L → x ∈ L v → x ∈ L w → v = w.
Proof.
  intros H (nd & Hn & <-)%(rep_weight _ _ H) (nd' & Hn' & <-)%(rep_weight _ _ H). congruence.
Qed.

Lemma rep_bound wd L w x : Rep wd L → x ∈ L w → w < length (mWeightSets wd).
Proof.
  intros H Hx. destruct (Nat.lt_ge_cases w (length (mWeightSets wd))) as [|Hge]; [done|].
  rewrite (rep_out _ _ H w Hge) in Hx. by apply not_elem_of_nil in Hx.
Qed.

(** ** Trimming *)

Lemma strip_last l x : last l = Some (Some x) → strip l = l.
Proof.
  induction l as [|y l IH]; [done|]. intros H. cbn. destruct l as [|z l].
  - injection H as ->. done.
  - by rewrite (IH H).
Qed.

Lemma strip_spec l : ∃ n, strip l = take n l ∧ n ≤ length l ∧ (∀ i, n ≤ i → i < length l → l !! i = Some None) ∧
  (strip l = [] ∨ ∃ x, last (strip l) = Some (Some x)).
Proof.
  induction l as [|y l (n & E & Hn & Hs & Hl)]; [exists 0; cbn; split_and!; [done|lia|lia|by left]|].
  cbn. destruct (strip l) as [|z l'] eqn:Es.
  - destruct y as [x|].
    + exists 1. split; [done|]. split; [cbn; lia|]. split; [|right; by exists x]. intros [|i] Hi Hlt; [lia|]. cbn.
      apply Hs; [|cbn in Hlt; lia]. destruct n; [lia|]. destruct l; [cbn in *; lia|done].
    + exists 0. split; [done|]. split; [lia|]. split; [|by left]. intros [|i] Hi Hlt; [done|]. cbn.
      apply Hs; [|cbn in Hlt; lia]. destruct n; [lia|]. destruct l; [cbn in *; lia|done].
  - exists (S n). split; [by rewrite E; destruct y|]. split; [cbn; lia|]. split.
    + intros [|i] Hi Hlt; [lia|]. apply Hs; cbn in Hlt; lia.
    + right. destruct Hl as [|[x Hx]]; [done|]. exists x. by destruct y.
Qed.

Lemma strip_some l i x : l !! i = Some (Some x) → strip l !! i = Some (Some x) ∧ strip l ≠ [].
Proof.
  intros H. destruct (strip_spec l) as (n & E & Hn & Hs & _).
  assert (Hi : strip l !! i = Some (Some x)).
  { rewrite E. destruct (Nat.lt_ge_cases i n) as [Hlt|Hge]; [by rewrite lookup_take_lt|].
    rewrite Hs in H by (done || by eapply lookup_lt_Some). done. }
  split; [done|]. intros Hnil. by rewrite Hnil in Hi.
Qed.

(** Buckets may be trimmed when one of them is in use. *)
Lemma rep_strip sets sets' L i x : (∀ w, length sets ≤ w → L w = []) →
  (∀ w, w < length sets → sets !! w = Some (head (L w))) → sets !! i = Some (Some x) → pop_back sets = Ok sets' →
  (∀ w, length sets' ≤ w → L w = []) ∧ (∀ w, w < length sets' → sets' !! w = Some (head (L w))) ∧
  (sets' = [] ∨ ∃ x, last sets' = Some (Some x)).
Proof.
  intros Ho Hh Hi Hp. unfold pop_back in Hp. destruct (strip_some _ _ _ Hi) as [_ Hne].
  destruct (strip_spec sets) as (n & E & Hn & Hs & Hl). destruct (strip sets) as [|z l]; [done|]. injection Hp as <-.
  rewrite E. rewrite E in Hl. rewrite length_take. split; [|split; [|done]].
  - intros w Hw. destruct (Nat.lt_ge_cases w (length sets)) as [Hlt|]; [|by apply Ho].
    specialize (Hs w ltac:(lia) Hlt). rewrite Hh in Hs by done. injection Hs as Hs. by destruct (L w).
  - intros w Hw. rewrite lookup_take_lt by lia. apply Hh. lia.
Qed.

(** ** Removing a node *)

Definition sets_ok (sets : list (option nat)) (L : nat → list nat) : Prop :=
  (∀ w, length sets ≤ w → L w = []) ∧ (∀ w, w < length sets → sets !! w = Some (head (L w))) ∧
  (sets = [] ∨ ∃ x, last sets = Some (Some x)).

Lemma rep_sets wd L : Rep wd L → sets_ok (mWeightSets wd) L.
Proof. intros []. by split_and!. Qed.

Lemma pop_rep wd L w a x b sets nodes : Rep wd L → L w = a ++ x :: b →
  unlinked (mNodes wd) nodes a x b → nodes !! x = Some (mkNode w None None) → length nodes = length (mNodes wd) →
  sets_ok sets (upd L w (a ++ b)) → Rep (mkWD sets nodes) (upd L w (a ++ b)) ∧ same_weights wd (mkWD sets nodes).
Proof.
  intros H E Hu Hx Hlen (H1 & H2 & H3). pose proof (rep_nodup _ _ H w) as Hnd. rewrite E in Hnd.
  assert (Hw : same_weights wd (mkWD sets nodes)).
  { intros y. cbn. destruct (decide (y = x)) as [->|Hne].
    - destruct (rep_weight _ _ H w x) as (nd & Hn & Hnw); [rewrite E; set_solver|]. by rewrite Hx, Hn, <- Hnw.
    - destruct (mNodes wd !! y) as [nd|] eqn:Ey; [by rewrite (Hu y nd)|].
      apply lookup_ge_None in Ey. by rewrite lookup_ge_None_2 by lia. }
  assert (Hin : ∀ v y, y ∈ upd L w (a ++ b) v → y ∈ L v ∧ y ≠ x).
  { intros v y. unfold upd. destruct (Nat.eqb_spec v w) as [->|Hne].
    - rewrite E. apply NoDup_app in Hnd as (? & Hab & [? ?]%NoDup_cons). intros Hy. split; [set_solver|]. intros ->.
      apply elem_of_app in Hy as [Hy|Hy]; [apply (Hab x); set_solver|done].
    - intros Hy. split; [done|]. intros ->. apply Hne. apply (rep_disjoint wd L v w x H Hy). rewrite E. set_solver. }
  split; [|done]. split; cbn [mWeightSets mNodes]; try done.
  - intros v. unfold upd. destruct (v =? w); [|apply (rep_nodup _ _ H)].
    apply NoDup_app in Hnd as (Ha & Hab & [Hxb Hb]%NoDup_cons). apply NoDup_app. split; [done|]. split; [set_solver|done].
  - intros v y Hy. destruct (Hin v y Hy) as [Hy' _]. destruct (rep_weight _ _ H v y Hy') as (nd & Hn & Hnw).
    specialize (Hw y). cbn in Hw. rewrite Hn in Hw. destruct (nodes !! y) as [nd'|]; [|done]. exists nd'.
    injection Hw as ->. done.
  - intros v. pose proof (rep_linked _ _ H v) as Hl. unfold upd. destruct (Nat.eqb_spec v w) as [->|Hne].
    + rewrite E in Hl. by eapply linked_unlink.
    + eapply linked_other; [done|done|]. intros y Hy Hy'. apply Hne. apply (rep_disjoint wd L v w y H Hy). by rewrite E.
  - intros y nd Hy Hfree. destruct (decide (y = x)) as [->|Hne]; [rewrite Hx in Hy; by injection Hy as <-|].
    specialize (Hw y). cbn in Hw. rewrite Hy in Hw. destruct (mNodes wd !! y) as [nd0|] eqn:Ey; [|done].
    injection Hw as Hw. pose proof (Hu y nd0 Hne Ey) as Hy'. rewrite Hy in Hy'. injection Hy' as ->. cbn in Hfree, Hw |- *.
    assert (Hn : y ∉ L (nWeight nd0)).
    { intros Hin'. apply Hfree. unfold upd. destruct (Nat.eqb_spec (nWeight nd0) w) as [E0|]; [|done].
      rewrite E0, E in Hin'. set_solver. }
    destruct (rep_free _ _ H y nd0 Ey Hn) as [-> ->].
    assert (Hnw : y ∉ a ++ x :: b).
    { rewrite <- E. intros Hin'. destruct (rep_weight _ _ H w y Hin') as (nd1 & Hn1 & Hw1). apply Hn. congruence. }
    rewrite !decide_False; [done| |]; [intros Hh%last_in|intros Hh%head_in]; set_solver.
Qed.

Lemma lookup_upd {A} (l : list A) i j x y : l !! i = Some y → <[i := x]> l !! j = if decide (i = j) then Some x else l !! j.
Proof.
  intros H%lookup_lt_Some. case_decide as E; [subst; by apply list_lookup_insert_eq|by apply list_lookup_insert_ne].
Qed.

Lemma last_lookup_pred {A} (l : list A) : last l = l !! pred (length l).
Proof. induction l as [|x [|y l] IH]; done. Qed.

Lemma sets_ok_insert sets L w l : sets_ok sets L → w < length sets → l ≠ [] → sets_ok (<[w := head l]> sets) (upd L w l).
Proof.
  intros (H1 & H2 & H3) Hw Hl. split; [|split]; rewrite ?length_insert.
  - intros v Hv. rewrite upd_ne by lia. by apply H1.
  - intros v Hv. unfold upd. destruct (Nat.eqb_spec v w) as [->|Hne]; [by apply list_lookup_insert_eq|].
    rewrite list_lookup_insert_ne by done. by apply H2.
  - right. rewrite last_lookup_pred, length_insert. destruct l as [|z l]; [done|]. cbn [head].
    destruct (decide (w = pred (length sets))) as [<-|Hne].
    + exists z. by apply list_lookup_insert_eq.
    + rewrite list_lookup_insert_ne by done. rewrite <- last_lookup_pred. destruct H3 as [->|?]; [cbn in Hw; lia|done].
Qed.

Lemma sets_ok_same sets L w l : sets_ok sets L → w < length sets → l ≠ [] → head l = head (L w) → sets_ok sets (upd L w l).
Proof.
  intros H Hw Hl Hh. rewrite <- (list_insert_id sets w (head l)); [by apply sets_ok_insert|].
  rewrite Hh. by apply H.
Qed.

(** A bucket becomes empty while another one is in use. *)
Lemma pop_last sets L w v y : sets_ok sets L → w < length sets → y ∈ L v → v ≠ w →
  ∃ sets', pop_back (<[w := None]> sets) = Ok sets' ∧ sets_ok sets' (upd L w []).
Proof.
  intros (H1 & H2 & H3) Hw Hy Hne. assert (Hv : v < length sets).
  { destruct (Nat.lt_ge_cases v (length sets)) as [|Hge]; [done|]. rewrite (H1 v Hge) in Hy. by apply not_elem_of_nil in Hy. }
  assert (Hi : <[w := None]> sets !! v = Some (Some (default 0 (head (L v))))).
  { rewrite list_lookup_insert_ne, H2 by done. destruct (L v); [by apply not_elem_of_nil in Hy|done]. }
  destruct (strip_some _ _ _ Hi) as [_ Hnil].
  assert (Hp : pop_back (<[w := None]> sets) = Ok (strip (<[w := None]> sets))).
  { unfold pop_back. by destruct (strip _). }
  exists (strip (<[w := None]> sets)). split; [done|]. eapply rep_strip; [| |exact Hi|exact Hp]; rewrite length_insert.
  - intros u Hu. rewrite upd_ne by lia. by apply H1.
  - intros u Hu. unfold upd. destruct (Nat.eqb_spec u w) as [->|]; [by apply list_lookup_insert_eq|].
    rewrite list_lookup_insert_ne by done. by apply H2.
Qed.

(** Proves [unlinked] of an array in which the neighbours were rewritten. *)
Ltac solve_unlinked :=
  let z := fresh "z" in let nz := fresh "nz" in let Hz := fresh "Hz" in let Hnz := fresh "Hnz" in
  intros z nz Hz Hnz; cbn; pose proof (lookup_lt_Some _ _ _ Hnz);
  repeat match goal with
  | |- context [<[?i := _]> _ !! z] => destruct (decide (i = z)) as [->|];
      [rewrite list_lookup_insert_eq by (rewrite ?length_insert; done)|rewrite list_lookup_insert_ne by done]
  end; simplify_eq; repeat case_decide; simplify_eq; try done; rewrite ?Hnz; by destruct nz.

Lemma popNode_spec wd L w a x b : Rep wd L → L w = a ++ x :: b → (∃ v y, y ∈ L v ∧ y ≠ x) →
  ∃ wd', popNode wd x = Ok wd' ∧ Rep wd' (upd L w (a ++ b)) ∧ same_weights wd wd' ∧ mNodes wd' !! x = Some (mkNode w None None).
Proof.
  intros H E (v & y & Hy & Hyx). destruct (rep_linked _ _ H w a x b E) as (nd & Hx & Hp & Hn).
  assert (Hxw : x ∈ L w) by (rewrite E; set_solver). pose proof (rep_bound _ _ _ _ H Hxw) as Hw.
  assert (nWeight nd = w) as Hnw by (destruct (rep_weight _ _ H w x Hxw) as (? & ? & <-); congruence).
  pose proof (rep_nodup _ _ H w) as Hnd. rewrite E in Hnd. apply NoDup_app in Hnd as Hnd'. destruct Hnd' as (Ha & Hab & [Hxb Hb]%NoDup_cons).
  assert (Hlk : ∀ z, z ∈ a ++ x :: b → ∃ nz, mNodes wd !! z = Some nz).
  { intros z Hz. rewrite <- E in Hz. destruct (rep_weight _ _ H w z Hz) as (? & ? & _). eauto. }
  pose proof (rep_sets _ _ H) as Hs. unfold popNode, getNode. rewrite Hx. cbn [must mbind Res_bind].
  rewrite Hp, Hn, Hnw.
  assert (Hfin : ∀ sets nodes, unlinked (mNodes wd) (<[x := mkNode w None None]> nodes) a x b → length nodes = length (mNodes wd) →
    sets_ok sets (upd L w (a ++ b)) → ∃ wd', Ok (putNode (mkWD sets nodes) x (mkNode w None None)) = Ok wd' ∧
      Rep wd' (upd L w (a ++ b)) ∧ same_weights wd wd' ∧ mNodes wd' !! x = Some (mkNode w None None)).
  { intros sets nodes Hu Hl Hso. eexists. split; [done|]. pose proof (lookup_lt_Some _ _ _ Hx) as Hlt.
    assert (Hx' : <[x:=mkNode w None None]> nodes !! x = Some (mkNode w None None)) by (apply list_lookup_insert_eq; lia).
    destruct (pop_rep wd L w a x b sets _ H E Hu Hx') as [? ?]; [by rewrite length_insert|done|]. done. }
  destruct (last a) as [pv|] eqn:La; [pose proof (last_in _ _ La) as Hpa; destruct (Hlk pv ltac:(set_solver)) as [npv Hpv]|
    apply last_None in La as ->; cbn [app] in *].
  all: destruct (head b) as [nx|] eqn:Hbe; [pose proof (head_in _ _ Hbe) as Hnb; destruct (Hlk nx ltac:(set_solver)) as [nnx Hnx]|
    destruct b; [|discriminate]; rewrite ?app_nil_r in *].
  - rewrite Hpv. cbn [must mbind Res_bind mNodes putNode].
    assert (pv ≠ nx) by (intros Heq; rewrite Heq in Hpa; apply (Hab nx); [done|set_solver]).
    rewrite (list_lookup_insert_ne _ _ nx) by done. rewrite Hnx. cbn [must mbind Res_bind].
    apply Hfin; [unfold unlinked; rewrite La, Hbe; solve_unlinked|by cbn; rewrite !length_insert|].
    apply sets_ok_same; [done|done|by destruct b, a|]. rewrite E. by destruct a.
  - rewrite Hpv. cbn [must mbind Res_bind mNodes putNode].
    apply Hfin; [unfold unlinked; rewrite La; solve_unlinked|by cbn; rewrite !length_insert|].
    apply sets_ok_same; [done|done|by destruct a|]. rewrite E. by destruct a.
  - rewrite (proj1 (proj2 Hs) w Hw), Hnx. cbn [must mbind Res_bind].
    apply Hfin; [unfold unlinked; rewrite Hbe; solve_unlinked|by cbn; rewrite !length_insert|].
    rewrite <- Hbe. apply sets_ok_insert; [done|done|by destruct b].
  - rewrite (proj1 (proj2 Hs) w Hw). cbn [must mbind Res_bind].
    destruct (pop_last (mWeightSets wd) L w v y Hs Hw Hy) as (sets & -> & Hso).
    { intros ->. rewrite E in Hy. set_solver. }
    apply Hfin; [unfold unlinked; solve_unlinked|done|done].
Qed.

(** ** Adding a node *)

Lemma push_sets sets L w x : sets_ok sets L →
  sets_ok (<[w := Some x]> (sets ++ replicate (S w - length sets) None)) (upd L w (x :: L w)) ∧
  (sets ++ replicate (S w - length sets) None) !! w = Some (head (L w)).
Proof.
  intros H. destruct (Nat.lt_ge_cases w (length sets)) as [Hw|Hw].
  - replace (S w - length sets) with 0 by lia. cbn [replicate]. rewrite app_nil_r. split; [|by apply H].
    by apply (sets_ok_insert sets L w (x :: L w)).
  - destruct H as (H1 & H2 & H3). set (ext := sets ++ replicate (S w - length sets) None).
    assert (Hl : length ext = S w) by (unfold ext; rewrite length_app, length_replicate; lia).
    assert (He : ∀ v, v < S w → ext !! v = Some (head (L v))).
    { intros v Hv. unfold ext. destruct (Nat.lt_ge_cases v (length sets)) as [Hlt|Hge].
      - rewrite lookup_app_l by done. by apply H2.
      - rewrite lookup_app_r, lookup_replicate_2 by lia. by rewrite H1 by lia. }
    split; [|apply He; lia]. split; [|split]; rewrite ?length_insert, ?Hl.
    + intros v Hv. rewrite upd_ne by lia. apply H1. lia.
    + intros v Hv. unfold upd. destruct (Nat.eqb_spec v w) as [->|Hne]; [apply list_lookup_insert_eq; lia|].
      rewrite list_lookup_insert_ne by done. apply He. lia.
    + right. exists x. rewrite last_lookup_pred, length_insert, Hl. cbn. apply list_lookup_insert_eq. lia.
Qed.

Lemma push_rep wd L w x sets nodes : Rep wd L → (∀ v, x ∉ L v) → nodes !! x = Some (mkNode w None (head (L w))) →
  length nodes = length (mNodes wd) → nWeight <$> mNodes wd !! x = Some w →
  (∀ y nd, y ≠ x → mNodes wd !! y = Some nd → nodes !! y = Some (mkNode (nWeight nd)
     (if decide (head (L w) = Some y) then Some x else mPrev nd) (mNext nd))) →
  sets_ok sets (upd L w (x :: L w)) → Rep (mkWD sets nodes) (upd L w (x :: L w)) ∧ same_weights wd (mkWD sets nodes).
Proof.
  intros H Hfx Hx Hlen Hwx Hn (H1 & H2 & H3).
  assert (Hw : same_weights wd (mkWD sets nodes)).
  { intros y. cbn. destruct (decide (y = x)) as [->|Hne]; [by rewrite Hx, Hwx|].
    destruct (mNodes wd !! y) as [nd|] eqn:Ey; [by rewrite (Hn y nd)|].
    apply lookup_ge_None in Ey. by rewrite lookup_ge_None_2 by lia. }
  split; [|done]. split; cbn [mWeightSets mNodes]; try done.
  - intros v. unfold upd. destruct (Nat.eqb_spec v w) as [->|]; [|apply (rep_nodup _ _ H)].
    apply NoDup_cons. split; [apply Hfx|apply (rep_nodup _ _ H)].
  - intros v y. unfold upd. destruct (Nat.eqb_spec v w) as [->|].
    + intros [->|Hy]%elem_of_cons; [by eexists|]. destruct (rep_weight _ _ H w y Hy) as (nd & Hy' & Hwy).
      specialize (Hw y). cbn in Hw. rewrite Hy' in Hw. destruct (nodes !! y); [|done]. injection Hw as ?. eexists. split; [done|congruence].
    + intros Hy. destruct (rep_weight _ _ H v y Hy) as (nd & Hy' & Hwy).
      specialize (Hw y). cbn in Hw. rewrite Hy' in Hw. destruct (nodes !! y); [|done]. injection Hw as ?. eexists. split; [done|congruence].
  - intros v. unfold upd. destruct (Nat.eqb_spec v w) as [->|Hne].
    + eapply linked_push; [apply (rep_linked _ _ H)|apply (rep_nodup _ _ H)|apply Hfx|done|done].
    + apply linked_ext with (mNodes wd); [|apply (rep_linked _ _ H)]. intros y Hy.
      destruct (rep_weight _ _ H v y Hy) as (nd & Hy' & Hwy). assert (Hyx : y ≠ x) by (intros ->; by apply (Hfx v)).
      rewrite (Hn y nd), Hy' by done. rewrite decide_False; [by destruct nd|]. intros Hh%head_in.
      apply Hne. by apply (rep_disjoint wd L v w y).
  - intros y nd Hy Hfree. destruct (decide (y = x)) as [->|Hne].
    { rewrite Hx in Hy. injection Hy as <-. cbn in Hfree. rewrite upd_eq in Hfree. set_solver. }
    specialize (Hw y). cbn in Hw. rewrite Hy in Hw. destruct (mNodes wd !! y) as [nd0|] eqn:Ey; [|done].
    injection Hw as Hw. pose proof (Hn y nd0 Hne Ey) as Hy'. rewrite Hy in Hy'. injection Hy' as ->. cbn in Hfree, Hw |- *.
    assert (Hny : y ∉ L (nWeight nd0)).
    { intros Hin'. apply Hfree. unfold upd. destruct (Nat.eqb_spec (nWeight nd0) w) as [E0|]; [|done]. rewrite E0 in Hin'. set_solver. }
    destruct (rep_free _ _ H y nd0 Ey Hny) as [-> ->]. rewrite decide_False; [done|]. intros Hh%head_in.
    destruct (rep_weight _ _ H w y Hh) as (nd1 & Hn1 & Hw1). apply Hny. congruence.
Qed.

Lemma pushNode_spec wd L x w : Rep wd L → (∀ v, x ∉ L v) → mNodes wd !! x = Some (mkNode w None None) →
  ∃ wd', pushNode wd x = Ok wd' ∧ Rep wd' (upd L w (x :: L w)) ∧ same_weights wd wd'.
Proof.
  intros H Hfx Hx. destruct (push_sets (mWeightSets wd) L w x (rep_sets _ _ H)) as [Hso Hcur].
  pose proof (lookup_lt_Some _ _ _ Hx) as Hlt. unfold pushNode, getNode. rewrite Hx. cbn [must mbind Res_bind nWeight].
  rewrite Hcur. cbn [must mbind Res_bind]. destruct (head (L w)) as [h|] eqn:Eh.
  - pose proof (head_in _ _ Eh) as Hh. destruct (rep_weight _ _ H w h Hh) as (nh & Hnh & Hwh). rewrite Hnh. cbn [must mbind Res_bind mNodes putNode].
    assert (h ≠ x) by (intros ->; by apply (Hfx w)).
    rewrite (list_lookup_insert_ne _ _ x), Hx by done. cbn [must mbind Res_bind]. eexists. split; [done|].
    apply push_rep; try done.
    + cbn. rewrite list_lookup_insert_eq by (rewrite length_insert; done). by rewrite Eh.
    + cbn. by rewrite !length_insert.
    + by rewrite Hx.
    + cbn [mNodes putNode]. intros y nd Hy Hyn. rewrite (list_lookup_insert_ne _ x) by done. rewrite Eh.
      destruct (decide (h = y)) as [<-|Hne].
      * rewrite list_lookup_insert_eq by (by eapply lookup_lt_Some). rewrite decide_True by done. by simplify_eq.
      * rewrite list_lookup_insert_ne, decide_False by congruence. rewrite Hyn. by destruct nd.
  - eexists. split; [done|]. apply push_rep; try done.
    + by rewrite Hx, Eh.
    + by rewrite Hx.
    + intros y nd Hy Hyn. rewrite Eh, decide_False by done. rewrite Hyn. by destruct nd.
Qed.

(** * What the buckets promise *)

(** [View wd n P W]: of the columns below [n], those in [P] are in the structure, each in the bucket of its weight [W]. *)
Definition View (wd : WeightData) (n : nat) (P : nat → Prop) (W : nat → nat) : Prop :=
  ∃ L, Rep wd L ∧ length (mNodes wd) = n ∧ (∀ x, x < n → ∃ nd, mNodes wd !! x = Some nd ∧ nWeight nd = W x) ∧
    ∀ w x, x ∈ L w ↔ x < n ∧ P x ∧ W x = w.

Lemma view_node wd n P W x : View wd n P W → x < n → ∃ nd, getNode wd x = Ok nd ∧ nWeight nd = W x.
Proof. intros (L & _ & _ & Hn & _) Hx. unfold getNode. destruct (Hn x Hx) as (nd & -> & Hw). by exists nd. Qed.

Lemma view_same wd wd' n W : same_weights wd wd' → length (mNodes wd) = n →
  (∀ x, x < n → ∃ nd, mNodes wd !! x = Some nd ∧ nWeight nd = W x) →
  length (mNodes wd') = n ∧ ∀ x, x < n → ∃ nd, mNodes wd' !! x = Some nd ∧ nWeight nd = W x.
Proof.
  intros Hs Hl Hn. split.
  - apply Nat.le_antisymm; (destruct (decide (length (mNodes wd') = n)) as [->|Hne]; [done|]);
      apply Nat.nlt_ge; intros Hlt.
    + specialize (Hs n). rewrite (lookup_ge_None_2 (mNodes wd)) in Hs by lia.
      destruct (lookup_lt_is_Some_2 (mNodes wd') n Hlt) as [y Hy]. by rewrite Hy in Hs.
    + specialize (Hs (length (mNodes wd'))). rewrite (lookup_ge_None_2 (mNodes wd')) in Hs by lia.
      destruct (lookup_lt_is_Some_2 (mNodes wd) (length (mNodes wd')) ltac:(lia)) as [y Hy]. by rewrite Hy in Hs.
  - intros x Hx. destruct (Hn x Hx) as (nd & Hnd & Hw). specialize (Hs x). rewrite Hnd in Hs.
    destruct (mNodes wd' !! x) as [nd'|]; [|done]. exists nd'. split; [done|]. cbn in Hs. injection Hs as ->. done.
Qed.

Lemma view_pop wd n P W x : View wd n P W → x < n → P x → (∃ y, y < n ∧ P y ∧ y ≠ x) →
  ∃ wd', popNode wd x = Ok wd' ∧ View wd' n (fun y => P y ∧ y ≠ x) W.
Proof.
  intros (L & HR & Hl & Hn & HL) Hx HP (y & Hy & HPy & Hyx).
  assert (Hin : x ∈ L (W x)) by (by apply HL). pose proof (rep_nodup _ _ HR (W x)) as Hnd.
  apply list_elem_of_split in Hin as (a & b & E).
  destruct (popNode_spec wd L (W x) a x b HR E) as (wd' & Hp & HR' & Hs & _).
  { exists (W y), y. split; [by apply HL|done]. }
  exists wd'. split; [done|]. exists (upd L (W x) (a ++ b)). split; [done|].
  destruct (view_same wd wd' n W Hs Hl Hn) as [Hl' Hn']. split; [done|]. split; [done|]. intros w z.
  rewrite E in Hnd. apply NoDup_app in Hnd as (_ & Hab & [Hxb _]%NoDup_cons).
  unfold upd. destruct (Nat.eqb_spec w (W x)) as [->|Hne].
  - pose proof (HL (W x) z) as Hz. rewrite E in Hz. split.
    + intros Hz'. destruct (proj1 Hz) as (? & ? & ?); [set_solver|]. split; [done|]. split; [|done]. split; [done|].
      intros ->. apply elem_of_app in Hz' as [Hz'|Hz']; [apply (Hab x); set_solver|done].
    + intros (? & [? ?] & ?). assert (z ∈ a ++ x :: b) by (by apply Hz). set_solver.
  - rewrite HL. split; [|tauto]. intros (? & ? & Hw). split; [done|]. split; [|done]. split; [done|]. by intros ->.
Qed.

Lemma view_set wd n P W x w : View wd n P W → x < n → ¬ P x →
  ∃ wd', setWeight wd x w = Ok wd' ∧ View wd' n P (fun y => if y =? x then w else W y).
Proof.
  intros (L & HR & Hl & Hn & HL) Hx HP. destruct (Hn x Hx) as (nd & Hnd & Hw).
  assert (Hfree : ∀ v, x ∉ L v) by (intros v (_ & ? & _)%HL; done).
  unfold setWeight, getNode. rewrite Hnd. cbn [must mbind Res_bind]. eexists. split; [done|].
  destruct (rep_free _ _ HR x nd Hnd (Hfree _)) as [-> ->]. exists L.
  assert (Hlk : ∀ y, y ≠ x → mNodes (putNode wd x (mkNode w None None)) !! y = mNodes wd !! y).
  { intros y Hy. by apply list_lookup_insert_ne. }
  assert (Hlx : mNodes (putNode wd x (mkNode w None None)) !! x = Some (mkNode w None None)).
  { apply list_lookup_insert_eq. lia. }
  split; [|split; [cbn; by rewrite length_insert|split]].
  - destruct HR as [H1 H2 H3 H4 H5 H6 H7]. split; try done.
    + intros v y Hy. rewrite Hlk by (intros ->; by apply (Hfree v)). by apply H4.
    + intros v. apply linked_ext with (mNodes wd); [|apply H5]. intros y Hy. apply Hlk. intros ->. by apply (Hfree v).
    + intros y nd' Hy. destruct (decide (y = x)) as [->|Hne]; [rewrite Hlx in Hy; by injection Hy as <-|].
      rewrite Hlk in Hy by done. by apply H6.
  - intros y Hy. destruct (Nat.eqb_spec y x) as [->|Hne]; [by eexists|]. rewrite Hlk by done. auto.
  - intros v y. rewrite HL. destruct (Nat.eqb_spec y x) as [->|Hne]; tauto.
Qed.

Lemma view_push wd n P W x : View wd n P W → x < n → ¬ P x →
  ∃ wd', pushNode wd x = Ok wd' ∧ View wd' n (fun y => P y ∨ y = x) W.
Proof.
  intros (L & HR & Hl & Hn & HL) Hx HP. destruct (Hn x Hx) as (nd & Hnd & Hw).
  assert (Hfree : ∀ v, x ∉ L v) by (intros v (_ & ? & _)%HL; done).
  destruct (rep_free _ _ HR x nd Hnd (Hfree _)) as [Hp Hnx].
  destruct (pushNode_spec wd L x (W x) HR Hfree) as (wd' & Hpu & HR' & Hs).
  { rewrite Hnd. destruct nd. cbn in *. by subst. }
  exists wd'. split; [done|]. exists (upd L (W x) (x :: L (W x))). split; [done|].
  destruct (view_same wd wd' n W Hs Hl Hn) as [Hl' Hn']. split; [done|]. split; [done|]. intros w z.
  unfold upd. destruct (Nat.eqb_spec w (W x)) as [->|Hne].
  - rewrite elem_of_cons, HL. split; [intros [->|?]; tauto|]. intros (? & [?| ->] & ?); tauto.
  - rewrite HL. split; [intros (? & ? & ?); auto|]. intros (? & [?| ->] & E); [auto|by rewrite E in Hne].
Qed.

Lemma buckets_ext wd n P P' W W' : (∀ x, x < n → P x ↔ P' x) → (∀ x, x < n → W x = W' x) → View wd n P W → View wd n P' W'.
Proof.
  intros HP HW (L & HR & Hl & Hn & HL). exists L. split; [done|]. split; [done|]. split.
  - intros x Hx. rewrite <- HW by done. auto.
  - intros w x. rewrite HL. split; intros (Hx & ? & ?).
    + rewrite <- HP, <- HW by done. done.
    + split; [done|]. split; [by apply HP|]. by rewrite HW.
Qed.

(** The three calls of triangulate on a column that loses a row. *)
Lemma view_decrement wd n P W x : View wd n P W → x < n → P x → (∃ y, y < n ∧ P y ∧ y ≠ x) →
  ∃ wd', decementWeight wd x = Ok wd' ∧ View wd' n P (fun y => if y =? x then W x - 1 else W y).
Proof.
  intros HV Hx HP Hy. unfold decementWeight. destruct (view_pop wd n P W x HV Hx HP Hy) as (wd1 & -> & H1).
  cbn [mbind Res_bind]. destruct (view_node wd1 n _ W x H1 Hx) as (nd & -> & Hw). cbn [mbind Res_bind]. rewrite Hw.
  destruct (view_set wd1 n _ W x (W x - 1) H1 Hx ltac:(tauto)) as (wd2 & -> & H2). cbn [mbind Res_bind].
  destruct (view_push wd2 n _ _ x H2 Hx ltac:(tauto)) as (wd3 & -> & H3). exists wd3. split; [done|].
  eapply buckets_ext; [|done|exact H3]. intros z Hz. cbn. destruct (decide (z = x)) as [->|]; tauto.
Qed.

Lemma find_set_spec l x : find_set l = Some x → ∃ i, l !! i = Some (Some x) ∧ ∀ j, j < i → l !! j = Some None.
Proof.
  induction l as [|[y|] l IH]; cbn; intros H; [done| |].
  - injection H as ->. exists 0. split; [done|lia].
  - destruct (IH H) as (i & Hi & Hj). exists (S i). split; [done|]. intros [|j] ?; [done|]. apply Hj. lia.
Qed.

Lemma find_set_some l i x : l !! i = Some (Some x) → find_set l ≠ None.
Proof. revert i. induction l as [|[y|] l IH]; intros [|i] H; cbn in *; try done. by eapply IH. Qed.

(** While a bucket other than that of weight zero is left, the column found has the smallest positive weight. *)
Lemma view_min wd n P W : View wd n P W → 1 < length (mWeightSets wd) →
  ∃ x, getMinWeightNode wd = Ok x ∧ x < n ∧ P x ∧ 0 < W x ∧ ∀ y, y < n → P y → 0 < W y → W x ≤ W y.
Proof.
  intros (L & HR & Hl & Hn & HL) Hlen. unfold getMinWeightNode. destruct (rep_sets _ _ HR) as (H1 & H2 & H3).
  assert (Hd : ∀ i, drop 1 (mWeightSets wd) !! i = mWeightSets wd !! S i) by (intros i; by rewrite lookup_drop).
  destruct (find_set (drop 1 (mWeightSets wd))) as [x|] eqn:Ef.
  - exists x. split; [done|]. destruct (find_set_spec _ _ Ef) as (i & Hi & Hj). rewrite Hd in Hi.
    pose proof (lookup_lt_Some _ _ _ Hi) as Hlt. rewrite H2 in Hi by done. injection Hi as Hi%head_in.
    apply HL in Hi as (Hx & HP & HW). split; [done|]. split; [done|]. split; [lia|]. intros y Hy HPy HWy.
    apply Nat.nlt_ge. intros Hlt'. specialize (Hj (W y - 1) ltac:(lia)). rewrite Hd in Hj.
    replace (S (W y - 1)) with (W y) in Hj by lia. rewrite H2 in Hj by lia. injection Hj as Hj.
    assert (Hin : y ∈ L (W y)) by (by apply HL). destruct (L (W y)); [by apply not_elem_of_nil in Hin|done].
  - exfalso. destruct H3 as [H3|[x Hx]]; [rewrite H3 in Hlen; cbn in Hlen; lia|].
    rewrite last_lookup_pred in Hx. apply (find_set_some (drop 1 (mWeightSets wd)) (length (mWeightSets wd) - 2) x); [|done].
    rewrite Hd. by replace (S (length (mWeightSets wd) - 2)) with (pred (length (mWeightSets wd))) by lia.
Qed.

Lemma view_done wd n P W : View wd n P W → length (mWeightSets wd) ≤ 1 → ∀ x, x < n → P x → W x = 0.
Proof.
  intros (L & HR & _ & _ & HL) Hlen x Hx HP. assert (Hin : x ∈ L (W x)) by (by apply HL).
  pose proof (rep_bound _ _ _ _ HR Hin). lia.
Qed.

(** ** Initialisation *)

(** The buckets after the first [i] columns. *)
Definition InitInv (weights : list nat) (i : nat) (wd : WeightData) : Prop :=
  ∃ L, length (mWeightSets wd) = 200 ∧ length (mNodes wd) = length weights ∧
    (∀ w, w < 200 → mWeightSets wd !! w = Some (head (L w))) ∧ (∀ w, NoDup (L w)) ∧
    (∀ w x, x ∈ L w ↔ x < i ∧ weights !! x = Some w) ∧ (∀ w, linked (mNodes wd) (L w)) ∧
    (∀ x w, x < i → weights !! x = Some w → nWeight <$> mNodes wd !! x = Some w).

Lemma init_step weights i wd w sets nodes L : weights !! i = Some w → w < 200 →
  length (mWeightSets wd) = 200 → (∀ w, w < 200 → mWeightSets wd !! w = Some (head (L w))) →
  sets = <[w := Some i]> (mWeightSets wd) → length nodes = length weights →
  (∀ w, NoDup (L w)) → (∀ w x, x ∈ L w ↔ x < i ∧ weights !! x = Some w) → (∀ w, linked (mNodes wd) (L w)) →
  (∀ x w, x < i → weights !! x = Some w → nWeight <$> mNodes wd !! x = Some w) →
  nodes !! i = Some (mkNode w None (head (L w))) →
  (∀ y nd, y ≠ i → mNodes wd !! y = Some nd → nodes !! y = Some (mkNode (nWeight nd)
     (if decide (head (L w) = Some y) then Some i else mPrev nd) (mNext nd))) →
  InitInv weights (S i) (mkWD sets nodes).
Proof.
  intros Hwi Hw H1 H2 -> Hl Hnd HL Hlk Hnw Hi Hn. exists (upd L w (i :: L w)). cbn [mWeightSets mNodes].
  assert (Hil : i ∉ L w) by (intros (? & _)%HL; lia).
  assert (Hbr : ∀ y, y < i → is_Some (mNodes wd !! y)).
  { intros y Hy. destruct (lookup_lt_is_Some_2 weights y) as [v Hv]; [apply lookup_lt_Some in Hwi; lia|].
    specialize (Hnw y v Hy Hv). destruct (mNodes wd !! y); [eauto|done]. }
  rewrite length_insert. split; [done|]. split; [done|]. split; [|split; [|split; [|split]]].
  - intros v Hv. unfold upd. destruct (Nat.eqb_spec v w) as [->|Hne]; [apply list_lookup_insert_eq; lia|].
    rewrite list_lookup_insert_ne by done. by apply H2.
  - intros v. unfold upd. destruct (v =? w); [|done]. by apply NoDup_cons.
  - intros v x. unfold upd. destruct (Nat.eqb_spec v w) as [->|Hne].
    + rewrite elem_of_cons, HL. split; [intros [->|[? ?]]; split; auto; lia|].
      intros [Hx Hv]. destruct (decide (x = i)) as [->|]; [by left|]. right. split; [lia|done].
    + rewrite HL. split; intros [? Hv]; (split; [|done]); [lia|]. destruct (decide (x = i)) as [->|]; [congruence|lia].
  - intros v. unfold upd. destruct (Nat.eqb_spec v w) as [->|Hne]; [by eapply linked_push|].
    apply linked_ext with (mNodes wd); [|apply Hlk]. intros y Hy. pose proof Hy as [Hyi Hv]%HL.
    destruct (Hbr y Hyi) as [nd Hnd']. rewrite (Hn y nd), Hnd' by (done || lia).
    rewrite decide_False; [by destruct nd|]. intros Hh%head_in. apply HL in Hh as [_ ?]. congruence.
  - intros x v Hx Hv. destruct (decide (x = i)) as [->|]; [rewrite Hi; cbn; congruence|].
    pose proof (Hnw x v ltac:(lia) Hv) as Hx'. destruct (Hbr x ltac:(lia)) as [nd Hnd'].
    rewrite (Hn x nd) by done. rewrite Hnd' in Hx'. done.
Qed.

Lemma init_finish weights wd : InitInv weights (length weights) wd → 0 < length weights → Forall (fun w => w < 200) weights →
  View (mkWD (match strip (mWeightSets wd) with [] => mWeightSets wd | sets => sets end) (mNodes wd))
    (length weights) (fun _ => True) (fun x => nth x weights 0).
Proof.
  intros (L & H1 & H2 & H3 & H4 & H5 & H6 & H7) Hpos Hall.
  assert (Hw : ∀ w, 200 ≤ w → L w = []).
  { intros w Hge. destruct (L w) as [|x l] eqn:E; [done|]. exfalso.
    assert (Hx : x ∈ L w) by (rewrite E; set_solver). apply H5 in Hx as [_ Hx].
    apply (Forall_lookup_1 _ _ _ _ Hall) in Hx. lia. }
  destruct (lookup_lt_is_Some_2 weights 0 Hpos) as [w0 Hw0].
  assert (Hin : 0 ∈ L w0) by (by apply H5). assert (Hw0' : w0 < 200) by (by apply (Forall_lookup_1 _ _ _ _ Hall) in Hw0).
  assert (Hs0 : mWeightSets wd !! w0 = Some (Some (default 0 (head (L w0))))).
  { rewrite H3 by done. destruct (L w0); [by apply not_elem_of_nil in Hin|done]. }
  destruct (strip_some _ _ _ Hs0) as [_ Hnil].
  assert (Hp : pop_back (mWeightSets wd) = Ok (strip (mWeightSets wd))) by (unfold pop_back; by destruct (strip _)).
  assert (E : match strip (mWeightSets wd) with [] => mWeightSets wd | sets => sets end = strip (mWeightSets wd)).
  { by destruct (strip (mWeightSets wd)). }
  rewrite E. clear E.
  destruct (rep_strip (mWeightSets wd) (strip (mWeightSets wd)) L w0 (default 0 (head (L w0)))) as (S1 & S2 & S3);
    [intros w; rewrite H1; apply Hw|intros w; rewrite H1; apply H3|exact Hs0|exact Hp|].
  exists L. split; [|split; [done|split]].
  - split; cbn [mWeightSets mNodes]; try done.
    + intros w x Hx. apply H5 in Hx as [Hx Hwx]. specialize (H7 x w Hx Hwx).
      destruct (mNodes wd !! x) as [nd|]; [|done]. exists nd. split; [done|]. by injection H7.
    + intros x nd Hx Hfree. exfalso. apply Hfree. pose proof (lookup_lt_Some _ _ _ Hx) as Hlt. rewrite H2 in Hlt.
      destruct (lookup_lt_is_Some_2 weights x Hlt) as [w Hwx]. specialize (H7 x w Hlt Hwx). rewrite Hx in H7.
      injection H7 as ->. by apply H5.
  - cbn. intros x Hx. destruct (lookup_lt_is_Some_2 weights x Hx) as [w Hwx]. specialize (H7 x w Hx Hwx).
    destruct (mNodes wd !! x) as [nd|]; [|done]. exists nd. split; [done|]. injection H7 as ->.
    by rewrite (nth_lookup_Some _ _ _ _ Hwx).
  - intros w x. rewrite H5. split.
    + intros [? Hx]. split; [done|]. split; [done|]. by apply nth_lookup_Some.
    + intros (Hx & _ & <-). split; [done|]. destruct (lookup_lt_is_Some_2 weights x Hx) as [w Hwx].
      by rewrite Hwx, (nth_lookup_Some _ _ _ _ Hwx).
Qed.

(** Every column is in the bucket of its weight. *)
Lemma view_init wd weights : length (mNodes wd) ≤ length weights → 0 < length weights → Forall (fun w => w < 200) weights →
  ∃ wd', wd_init wd weights = Ok wd' ∧ View wd' (length weights) (fun _ => True) (fun x => nth x weights 0).
Proof.
  intros Hle Hpos Hall. unfold wd_init.
  set (nodes := if length (mNodes wd) <? length weights then _ else _).
  assert (Hl : length nodes = length weights).
  { unfold nodes. destruct (Nat.ltb_spec (length (mNodes wd)) (length weights)); [apply length_replicate|lia]. }
  match goal with |- context [forR 0 _ ?f ?s] => destruct (forR_inv (InitInv weights) 0 (length weights) f s) as (wd' & E & HI) end.
  - lia.
  - exists (fun _ => []). cbn [mWeightSets mNodes]. rewrite Hl, length_replicate. split; [done|]. split; [done|]. split; [|split; [|split; [|split]]].
    + intros w Hw. by apply lookup_replicate_2.
    + intros w. apply NoDup_nil_2.
    + intros w x. split; [by intros []%not_elem_of_nil|lia].
    + intros w [|? a] x b H; done.
    + lia.
  - intros i wd1 Hi (L & H1 & H2 & H3 & H4 & H5 & H6 & H7).
    destruct (lookup_lt_is_Some_2 weights i ltac:(lia)) as [w Hw]. rewrite Hw. cbn [must mbind Res_bind].
    assert (Hw2 : w < 200) by (by apply (Forall_lookup_1 _ _ _ _ Hall) in Hw).
    rewrite H3 by done. cbn [must mbind Res_bind]. destruct (head (L w)) as [h|] eqn:Eh.
    + pose proof (head_in _ _ Eh) as [Hh Hhw]%H5. destruct (lookup_lt_is_Some_2 (mNodes wd1) h ltac:(lia)) as [nh Hnh].
      unfold getNode. rewrite Hnh. cbn [must mbind Res_bind]. eexists. split; [done|].
      eapply init_step; try done; cbn [mWeightSets mNodes putNode].
      * by rewrite !length_insert.
      * rewrite list_lookup_insert_ne, list_lookup_insert_eq by lia. by rewrite Eh.
      * intros y nd Hy Hnd. rewrite Eh. destruct (decide (h = y)) as [<-|Hne].
        -- rewrite list_lookup_insert_eq by (rewrite length_insert; lia). rewrite decide_True by done. by simplify_eq.
        -- rewrite !list_lookup_insert_ne, decide_False by congruence. rewrite Hnd. by destruct nd.
    + eexists. split; [done|]. eapply init_step; try done; cbn [mWeightSets mNodes putNode].
      * by rewrite !length_insert.
      * rewrite list_lookup_insert_eq by lia. by rewrite Eh.
      * intros y nd Hy Hnd. rewrite Eh, list_lookup_insert_ne, decide_False by done. rewrite Hnd. by destruct nd.
  - rewrite E. cbn [mbind Res_bind]. eexists. split; [done|]. by apply init_finish.
Qed.

(** ** Bucket sizes *)

Lemma walk_list nodes sets l a fuel : linked nodes (a ++ l) → length l ≤ fuel → walk fuel (mkWD sets nodes) (head l) = l.
Proof.
  revert a fuel. induction l as [|x l IH]; intros a [|fuel] Hl Hf; cbn in Hf; try done; try lia.
  destruct (Hl a x l eq_refl) as (nd & Hx & _ & Hn). cbn [walk head mNodes]. rewrite Hx. cbn. rewrite Hn. f_equal.
  apply (IH (a ++ [x])); [by rewrite <- app_assoc|lia].
Qed.

Lemma nodup_bound (l : list nat) n : NoDup l → (∀ x, x ∈ l → x < n) → length l ≤ n.
Proof.
  intros Hnd Hl. rewrite <- (length_seq n 0). apply NoDup_incl_length; [by apply NoDup_ListNoDup|].
  intros x Hx. apply in_seq. apply list_elem_of_In, Hl in Hx. lia.
Qed.

(** The walk of a bucket ends and counts the columns of its weight. *)
Lemma view_setSize wd n P W w : View wd n P W → w < length (mWeightSets wd) →
  ∃ l, setSize wd w = Ok (length l) ∧ NoDup l ∧ ∀ x, x ∈ l ↔ x < n ∧ P x ∧ W x = w.
Proof.
  intros (L & HR & Hl & _ & HL) Hw. exists (L w). unfold setSize. destruct (rep_sets _ _ HR) as (_ & H2 & _).
  rewrite H2 by done. cbn [must mbind Res_bind]. destruct wd as [sets nodes]. cbn in *.
  rewrite (walk_list nodes sets (L w) []); [|apply (rep_linked _ _ HR)|].
  - split; [done|]. split; [apply (rep_nodup _ _ HR)|apply HL].
  - apply nodup_bound; [apply (rep_nodup _ _ HR)|]. intros x (? & _)%HL. lia.
Qed.

(** Bucket [w] holds the columns of weight [w]. *)
Lemma view_bucket wd n P W w x : View wd n P W → x < n → P x → W x = w →
  ∃ h, mWeightSets wd !! w = Some h ∧ ∀ y, y ∈ walk (length (mNodes wd)) wd h ↔ y < n ∧ P y ∧ W y = w.
Proof.
  intros (L & HR & Hl & _ & HL) Hx HP HW. assert (Hin : x ∈ L w) by (by apply HL). pose proof (rep_bound _ _ _ _ HR Hin) as Hw.
  destruct (rep_sets _ _ HR) as (_ & H2 & _). exists (head (L w)). split; [by apply H2|]. destruct wd as [sets nodes]. cbn in *.
  rewrite (walk_list nodes sets (L w) []); [apply HL|apply (rep_linked _ _ HR)|].
  apply nodup_bound; [apply (rep_nodup _ _ HR)|]. intros y (? & _)%HL. lia.
Qed.

(** * Permutations are bijections *)

Definition perm_ok (n : nat) (p : Permutation) : Prop :=
  length (mSrc2Dst p) = n ∧ length (mDst2Src p) = n ∧
  ∀ i, i < n → (perm_dst p i < n ∧ perm_src p (perm_dst p i) = i) ∧ (perm_src p i < n ∧ perm_dst p (perm_src p i) = i).

Lemma perm_init_ok n : perm_ok n (perm_init n).
Proof.
  unfold perm_ok, perm_dst, perm_src, perm_init. cbn. rewrite length_seq. split; [done|]. split; [done|].
  intros i Hi. rewrite !seq_nth by (rewrite ?seq_nth; lia). cbn. lia.
Qed.

Lemma invert_ok n p : perm_ok n p → perm_ok n (invert p).
Proof.
  intros (H1 & H2 & H3). split; [done|]. split; [done|]. intros i Hi. specialize (H3 i Hi). by destruct H3.
Qed.

Lemma swap_nth l i j k : i < length l → j < length l →
  nth k (swap_at l i j) 0 = if decide (j = k) then nth i l 0 else if decide (i = k) then nth j l 0 else nth k l 0.
Proof. intros Hi Hj. unfold swap_at. rewrite nth_upd by (by rewrite length_insert). by rewrite nth_upd. Qed.

(** [swap] of two destinations keeps the bijection and exchanges their sources. *)
Lemma perm_swap_ok n p i j : perm_ok n p → i < n → j < n → perm_ok n (perm_swap p i j) ∧
  ∀ k, perm_src (perm_swap p i j) k =
    if decide (j = k) then perm_src p i else if decide (i = k) then perm_src p j else perm_src p k.
Proof.
  intros (H1 & H2 & H3) Hi Hj. destruct (H3 i Hi) as [_ [Hi1 Hi2]], (H3 j Hj) as [_ [Hj1 Hj2]].
  assert (Hs : ∀ k, perm_src (perm_swap p i j) k =
    if decide (j = k) then perm_src p i else if decide (i = k) then perm_src p j else perm_src p k).
  { intros k. unfold perm_src at 1, perm_swap. cbn [mDst2Src]. by rewrite swap_nth by lia. }
  assert (Hd : ∀ k, perm_dst (perm_swap p i j) k =
    if decide (perm_src p j = k) then i else if decide (perm_src p i = k) then j else perm_dst p k).
  { intros k. unfold perm_dst at 1, perm_swap. cbn [mSrc2Dst]. fold (perm_src p i). fold (perm_src p j).
    rewrite swap_nth by (unfold perm_src in *; lia). fold (perm_dst p (perm_src p i)). fold (perm_dst p (perm_src p j)).
    by rewrite Hi2, Hj2. }
  split; [|done]. split; [cbn; unfold swap_at; by rewrite !length_insert|].
  split; [cbn; unfold swap_at; by rewrite !length_insert|]. intros k Hk. destruct (H3 k Hk) as [[K1 K2] [K3 K4]].
  assert (Hinj : ∀ u v, u < n → v < n → perm_src p u = perm_src p v → u = v).
  { intros u v Hu Hv E. rewrite <- (proj2 (proj2 (H3 u Hu))), E. by apply H3. }
  assert (Hinj' : ∀ u, u < n → perm_src p u = k → perm_dst p k = u) by (intros u Hu <-; by apply H3).
  rewrite !Hs, !Hd. split.
  - destruct (decide (perm_src p j = k)); [split; [lia|]; repeat case_decide; congruence|].
    destruct (decide (perm_src p i = k)); [split; [lia|]; repeat case_decide; congruence|].
    split; [lia|]. repeat case_decide; congruence.
  - destruct (decide (j = k)) as [->|].
    + split; [lia|]. repeat case_decide; try congruence.
    + destruct (decide (i = k)) as [->|]; [split; [lia|]; by rewrite decide_True|]. split; [lia|].
      rewrite !decide_False; [done| |]; intros E; apply Hinj in E; congruence || lia.
Qed.

(** ** A permutation from part of its mapping *)

Definition good_map (n : nat) (l : list nat) : Prop := NoDup l ∧ Forall (fun x => x < n) l.
#[export] Instance good_map_dec n l : Decision (good_map n l).
Proof. unfold good_map. apply _. Defined.

Definition remaining (n : nat) (l : list nat) : list nat := List.filter (fun s => negb (existsb (Nat.eqb s) l)) (seq 0 n).

Lemma existsb_in (x : nat) l : existsb (Nat.eqb x) l = true ↔ x ∈ l.
Proof.
  rewrite existsb_exists. split.
  - intros (y & Hy & ->%Nat.eqb_eq). by apply list_elem_of_In.
  - intros Hx. exists x. split; [by apply list_elem_of_In|apply Nat.eqb_refl].
Qed.

Lemma remaining_in n l x : x ∈ remaining n l ↔ x < n ∧ x ∉ l.
Proof.
  unfold remaining. rewrite list_elem_of_In, filter_In, in_seq, negb_true_iff, <- not_true_iff_false, existsb_in.
  split; intros []; split; auto; lia.
Qed.

Lemma remaining_snoc n l x : List.filter (fun s => negb (s =? x)) (remaining n l) = remaining n (l ++ [x]).
Proof.
  unfold remaining. induction (seq 0 n) as [|y s IH]; [done|]. cbn [List.filter]. rewrite existsb_app. cbn [existsb].
  rewrite orb_false_r. destruct (existsb (Nat.eqb y) l) eqn:E1; cbn [negb orb]; [exact IH|].
  cbn [List.filter]. destruct (y =? x); cbn [negb]; [exact IH|]. by f_equal.
Qed.

Lemma good_map_snoc n l x : good_map n (l ++ [x]) ↔ good_map n l ∧ x ∈ remaining n l.
Proof.
  unfold good_map. rewrite !Forall_forall, remaining_in, NoDup_app. split.
  - intros [(? & Hd & _) Hl]. split; [split; [done|]; intros; apply Hl; set_solver|]. split; [apply Hl; set_solver|].
    intros Hx. apply (Hd x); set_solver.
  - intros [[? Hl] [? ?]]. split; [split; [done|]; split; [set_solver|apply NoDup_singleton]|]. intros y [Hy|Hy]%elem_of_app; [auto|].
    apply list_elem_of_singleton in Hy as ->. done.
Qed.

(** The first loop: what is mapped so far, or the exception of the first source that is out of range or repeated. *)
Lemma map_loop n d s0 k : length s0 = n → k ≤ length d →
  let r := forR 0 k (fun dst '(srcs, s2d) =>
     src ← must (d !! dst);
     throw_if (negb (existsb (Nat.eqb src) srcs)) RTE_LOC ;;
     mret (List.filter (fun s => negb (s =? src)) srcs, <[src := dst]> s2d)) (seq 0 n, s0) in
  (good_map n (take k d) → ∃ s2d, r = Ok (remaining n (take k d), s2d) ∧ length s2d = n ∧
     ∀ j, j < k → nth (nth j d 0) s2d 0 = j) ∧
  (¬ good_map n (take k d) → r = Throw RTE_LOC).
Proof.
  intros Hs0 Hk. induction k as [|k IH].
  - split; [|intros []; split; [apply NoDup_nil_2|done]].
    intros _. exists s0. split; [|split; [done|lia]]. cbn. unfold remaining. cbn. do 2 f_equal.
    induction (seq 0 n) as [|y s IH]; [done|]. cbn. by rewrite <- IH.
  - cbv zeta in *. destruct (IH ltac:(lia)) as [IH1 IH2]. clear IH. destruct (lookup_lt_is_Some_2 d k ltac:(lia)) as [x Hx].
    rewrite (take_S_r _ _ _ Hx), forR_snoc. split.
    + intros [Hg Hr]%good_map_snoc. destruct (IH1 Hg) as (s2d & -> & Hl & Hj). cbn [mbind Res_bind].
      rewrite Hx. cbn [must mbind Res_bind]. rewrite (proj2 (existsb_in _ _) Hr). cbn [negb throw_if mbind Res_bind].
      eexists. rewrite remaining_snoc. split; [done|]. rewrite length_insert. split; [done|].
      apply remaining_in in Hr as [Hxn Hxk]. intros j Hjk. rewrite nth_upd by lia. case_decide as E.
      * destruct (decide (j = k)) as [->|]; [done|]. exfalso. apply Hxk. rewrite E.
        destruct (lookup_lt_is_Some_2 d j ltac:(lia)) as [y Hy]. rewrite (nth_lookup_Some _ _ _ _ Hy).
        apply (list_elem_of_lookup_2 _ j). by rewrite lookup_take_lt by lia.
      * apply Hj. destruct (decide (j = k)) as [->|]; [|lia]. by rewrite (nth_lookup_Some _ _ _ _ Hx) in E.
    + intros Hng. destruct (decide (good_map n (take k d))) as [Hg|Hg]; [|by rewrite (IH2 Hg)].
      destruct (IH1 Hg) as (s2d & -> & Hl & Hj). cbn [mbind Res_bind]. rewrite Hx. cbn [must mbind Res_bind].
      destruct (existsb _ _) eqn:E; [|done]. apply existsb_in in E. exfalso. apply Hng, good_map_snoc. done.
Qed.

Lemma rest_loop n l d2s s2d : length s2d = n → good_map n (d2s ++ l) → (∀ j, j < length d2s → nth (nth j d2s 0) s2d 0 = j) →
  let '(d2s', s2d') := foldl (fun '(d2s, s2d) src => (d2s ++ [src], <[src := length d2s]> s2d)) (d2s, s2d) l in
  d2s' = d2s ++ l ∧ length s2d' = n ∧ ∀ j, j < length d2s' → nth (nth j d2s' 0) s2d' 0 = j.
Proof.
  revert d2s s2d. induction l as [|x l IH]; intros d2s s2d Hl Hg Hj; cbn [foldl]; [by rewrite app_nil_r|].
  assert (Hg' : good_map n ((d2s ++ [x]) ++ l)) by (by rewrite <- app_assoc).
  assert (Hx : x < n ∧ x ∉ d2s).
  { destruct Hg as [(_ & Hd & _)%NoDup_app Hf]. rewrite Forall_forall in Hf. split; [apply Hf; set_solver|].
    intros Hx. apply (Hd x Hx). set_solver. }
  specialize (IH (d2s ++ [x]) (<[x := length d2s]> s2d)). rewrite length_insert in IH. specialize (IH Hl Hg').
  destruct (foldl _ _ l) as [d2s' s2d']. rewrite <- app_assoc in IH. apply IH. intros j Hjl. rewrite length_app in Hjl. cbn in Hjl.
  rewrite nth_upd by lia. destruct (decide (j = length d2s)) as [->|Hne].
  - rewrite nth_middle. by rewrite decide_True.
  - rewrite app_nth1 by lia. rewrite decide_False; [apply Hj; lia|]. intros ->. apply Hx.
    apply list_elem_of_In, nth_In. lia.
Qed.

Lemma good_complete n d : good_map n d → good_map n (d ++ remaining n d) ∧ (∀ i, i < n → i ∈ d ++ remaining n d).
Proof.
  intros [Hnd Hf]. rewrite Forall_forall in Hf. split.
  - split; [|apply Forall_forall; intros x [Hx|[Hx _]%remaining_in]%elem_of_app; auto].
    apply NoDup_app. split; [done|]. split; [by intros x Hx [_ ?]%remaining_in|].
    unfold remaining. apply NoDup_ListNoDup, List.NoDup_filter, seq_NoDup.
  - intros i Hi. apply elem_of_app. destruct (decide (i ∈ d)); [by left|right]. by apply remaining_in.
Qed.

(** C38 [initDst2Src] completes an injective partial mapping to a permutation, sources that are not mentioned keeping their
    order, and throws on a source that is repeated or out of range. *)
Theorem initDst2Src_outcome p n d :
  (NoDup d → Forall (fun x => x < n) d → ∃ p', initDst2Src p n d = Ok p' ∧ perm_ok n p' ∧
     mDst2Src p' = d ++ List.filter (fun s => negb (existsb (Nat.eqb s) d)) (seq 0 n)) ∧
  (¬ (NoDup d ∧ Forall (fun x => x < n) d) → initDst2Src p n d = Throw RTE_LOC).
Proof.
  unfold initDst2Src. set (s0 := take n (mSrc2Dst p) ++ _).
  assert (Hs0 : length s0 = n) by (unfold s0; rewrite length_app, length_take, length_replicate; lia).
  pose proof (map_loop n d s0 (length d) Hs0 ltac:(lia)) as [H1 H2]. rewrite firstn_all in H1, H2. split.
  2: { intros Hb. by rewrite (H2 Hb). }
  intros Hnd Hf. assert (Hg : good_map n d) by done. destruct (H1 Hg) as (s2d & -> & Hl & Hj). cbn [mbind Res_bind].
  destruct (good_complete n d Hg) as [Hg' Hc]. pose proof (rest_loop n (remaining n d) d s2d Hl Hg' Hj) as Hr.
  destruct (foldl _ _ _) as [d2s' s2d']. destruct Hr as (-> & Hl' & Hj'). eexists. split; [done|].
  assert (Hn : length (d ++ remaining n d) = n).
  { apply Nat.le_antisymm.
    - apply nodup_bound; [apply Hg'|]. by apply Forall_forall, Hg'.
    - rewrite <- (length_seq n 0) at 1. apply NoDup_incl_length; [apply seq_NoDup|].
      intros i Hi. apply in_seq in Hi. apply list_elem_of_In, Hc. lia. }
  split; [|done]. unfold perm_ok, perm_dst, perm_src. cbn [mSrc2Dst mDst2Src]. split; [done|]. split; [done|].
  rewrite Hn in Hj'. intros i Hi. pose proof (Hc i Hi) as Hin. apply list_elem_of_In, (In_nth _ _ 0) in Hin as (j & Hjn & E).
  rewrite Hn in Hjn. rewrite <- E at 1 2. rewrite Hj' by done. split; [split; [done|exact E]|]. split; [|by apply Hj'].
  destruct Hg' as [_ Hf']. rewrite Forall_forall in Hf'. apply Hf', list_elem_of_In, nth_In. lia.
Qed.

Lemma initDst2Src_outcome_witness :
  (∃ p', initDst2Src (mkPerm [] []) 4 [2; 0] = Ok p' ∧ perm_ok 4 p' ∧ mDst2Src p' = [2; 0; 1; 3]) ∧
  initDst2Src (mkPerm [] []) 4 [2; 2] = Throw RTE_LOC.
Proof.
  split.
  - apply (proj1 (initDst2Src_outcome (mkPerm [] []) 4 [2; 0])); [|repeat constructor].
    apply (bool_decide_unpack _). by vm_compute.
  - apply (proj2 (initDst2Src_outcome (mkPerm [] []) 4 [2; 2])). intros [H _]. apply NoDup_cons in H as [H _]. set_solver.
Defined.

End PxUtil.
