(* ===== verification/PaxosHash.v ===== *)
(** The rows of the VOLE-PSI solver: PaxosHash of src/volepsi/volePSI/PaxosImpl.h, which maps the hash of an input to the
    indices of a row, one input at a time or 32 at a time in 64-bit lanes. The multiplication of GF(2^128),
    libdivide and the AES hash of libOTe are parameters. *)
From S2P Require Import Prelude Words PxUtil.
Open Scope nat_scope.

Module PaxosHash.
Import PxUtil.

Record PaxosHash : Type := mkHash { mWeight : nat; mSparseSize : nat; mIdxSize : nat; mAes : block; mModVals : list Z }.

Section hash.
Context (gf128Mul : block → block → block) (libdivide_u64_do : Z → Z → Z) (hashBlock : block → block → block).

(** [oc::log2ceil] and [oc::roundUpTo]. *)
Definition hash_init (seed : block) (weight paxosSize : nat) : PaxosHash :=
  mkHash weight paxosSize ((Nat.log2_up paxosSize + 7) / 8) seed
    (map (fun i => u64 (Z.of_nat paxosSize - Z.of_nat i)) (seq 0 weight)).

(** [doMod32] *)
Definition doMod32 (vals : list Z) (modVal : Z) : list Z :=
  map (fun v => u64 (v - libdivide_u64_do v modVal * modVal)) vals.
Definition mod32 (h : PaxosHash) (vals : list Z) (modIdx : nat) : list Z := doMod32 vals (mModVals h).[modIdx].

(** The two 64-bit lanes of a block and the operations on them. *)
Definition lane (k : nat) (b : block) : Z := if k =? 0 then block_lo b else block_hi b.
Definition lanes (f : Z → Z → Z) (a b : block) : block := toBlock (f (block_hi a) (block_hi b)) (f (block_lo a) (block_lo b)).
Definition allOnes : Z := 2 ^ 64 - 1.
Definition mm_cmpgt_epi64 : block → block → block := lanes (fun x y => if (y <? x)%Z then allOnes else 0%Z).
Definition mm_cmpeq_epi64 : block → block → block := lanes (fun x y => if (x =? y)%Z then allOnes else 0%Z).
Definition mm_sub_epi64 : block → block → block := lanes (fun x y => (x - y)%Z).
Definition AllOneBlock : block := 2 ^ 128 - 1.

(** One block of each of the three columns of a batch. *)
Definition spread (a b c : block) : block * block * block :=
  let mask := mm_cmpgt_epi64 a b in
  let min := Z.lxor a b in
  let max := Z.lxor (Z.land min mask) b in
  let min := Z.lxor min max in
  let mask := mm_cmpeq_epi64 max b in
  let b := mm_sub_epi64 b mask in
  let max := mm_sub_epi64 max mask in
  let mask := Z.lxor (mm_cmpgt_epi64 min c) AllOneBlock in
  let c := mm_sub_epi64 c mask in
  let mask := Z.lxor (mm_cmpgt_epi64 max c) AllOneBlock in
  let c := mm_sub_epi64 c mask in
  (a, b, c).

(** The columns found so far are in ascending order; a later one counts the free places only. *)
Fixpoint insertCol (row : list nat) (colIdx : nat) : list nat :=
  match row with
  | [] => [colIdx]
  | x :: row' => if x <=? colIdx then x :: insertCol row' (S colIdx) else colIdx :: row
  end.

Definition buildRow (h : PaxosHash) (hash : block) : list nat :=
  let s := mSparseSize h in
  if mWeight h =? 3 then
    let rr i := u64 (Z.shiftr hash (32 * i)) in
    let row0 := Z.to_nat (rr 0%Z mod Z.of_nat s) in
    let row1 := Z.to_nat (rr 1%Z mod (Z.of_nat s - 1)) in
    let row2 := Z.to_nat (rr 2%Z mod (Z.of_nat s - 2)) in
    let min := Nat.min row0 row1 in
    let max := row0 + row1 - min in
    let '(row1, max) := if max =? row1 then (S row1, S max) else (row1, max) in
    let row2 := if min <=? row2 then S row2 else row2 in
    let row2 := if max <=? row2 then S row2 else row2 in
    [row0; row1; row2]
  else
    snd (for_ 0 (mWeight h) (fun j '(hh, row) =>
      let hh := gf128Mul hh hh in
      let colIdx := Z.to_nat (block_lo hh mod Z.of_nat (s - j)) in
      (hh, insertCol row colIdx)) (hash, [])).

Definition buildRow32 (h : PaxosHash) (hash : list block) : list (list nat) :=
  if mWeight h =? 3 then
    let row128 i :=
      let ll := mod32 h (map (fun x => u64 (Z.shiftr x (32 * Z.of_nat i))) hash) i in
      map (fun k => toBlock ll.[2 * k + 1] ll.[2 * k]) (seq 0 16) in
    let out := map (fun k => spread (row128 0).[k] (row128 1).[k] (row128 2).[k]) (seq 0 16) in
    map (fun t =>
      let '(a, b, c) := nth (t / 2) out (0%Z, 0%Z, 0%Z) in
      map (fun x => Z.to_nat (lane (t mod 2) x)) [a; b; c]) (seq 0 32)
  else map (buildRow h) (take 32 hash).

Definition hashBuildRow32 (h : PaxosHash) (inIter : list block) : list (list nat) * list block :=
  let hash := map (hashBlock (mAes h)) (take 32 inIter) in (buildRow32 h hash, hash).
Definition hashBuildRow1 (h : PaxosHash) (inIter : block) : list nat * block :=
  let hash := hashBlock (mAes h) inIter in (buildRow h hash, hash).

(** * Rows have distinct columns *)

(** Strictly ascending from [lo], below [hi]. *)
Fixpoint ascending (lo hi : nat) (row : list nat) : Prop :=
  match row with [] => True | x :: row' => lo ≤ x < hi ∧ ascending (S x) hi row' end.

Lemma ascending_weaken lo lo' hi hi' row : lo' ≤ lo → hi ≤ hi' → ascending lo hi row → ascending lo' hi' row.
Proof.
  revert lo lo'. induction row as [|x row IH]; intros lo lo' H H'; cbn; [done|]. intros [Hx Hr].
  split; [lia|]. by apply (IH (S x)).
Qed.

Lemma ascending_in lo hi row x : ascending lo hi row → x ∈ row → lo ≤ x < hi.
Proof.
  revert lo. induction row as [|y row IH]; intros lo; cbn; [by intros _ []%not_elem_of_nil|].
  intros [Hy Hr] [->|Hx]%elem_of_cons; [done|]. specialize (IH _ Hr Hx). lia.
Qed.

Lemma ascending_nodup lo hi row : ascending lo hi row → NoDup row.
Proof.
  revert lo. induction row as [|x row IH]; intros lo; cbn; [constructor|]. intros [Hx Hr].
  apply NoDup_cons. split; [|by eapply IH]. intros Hin%(ascending_in _ _ _ _ Hr). lia.
Qed.

(** A column counted among the free places lands on a free place. *)
Lemma insertCol_spec row c lo hi : ascending lo hi row → lo ≤ c → c + length row < hi →
  ascending lo hi (insertCol row c) ∧ length (insertCol row c) = S (length row).
Proof.
  revert c lo. induction row as [|x row IH]; intros c lo; cbn [ascending insertCol length]; [split; [lia|done]|].
  intros [Hx Hr] Hc Hh. destruct (Nat.leb_spec x c).
  - destruct (IH (S c) (S x) Hr ltac:(lia) ltac:(lia)) as [H1 H2]. cbn. by rewrite H2.
  - cbn. split; [|done]. split; [lia|]. split; [lia|done].
Qed.

Lemma buildRow_general h hash : mWeight h ≠ 3 → mWeight h ≤ mSparseSize h →
  ascending 0 (mSparseSize h) (buildRow h hash) ∧ length (buildRow h hash) = mWeight h.
Proof.
  intros Hw Hs. unfold buildRow. rewrite (proj2 (Nat.eqb_neq _ _) Hw).
  loop_inv (fun j (st : block * list nat) => ascending 0 (mSparseSize h) st.2 ∧ length st.2 = j) as H; [lia|done| |exact H].
  intros j [hh row] Hj [H1 H2]. cbn [snd] in *.
  set (c := Z.to_nat _). assert (Hc : c < mSparseSize h - j).
  { subst c. pose proof (Z.mod_pos_bound (block_lo (gf128Mul hh hh)) (Z.of_nat (mSparseSize h - j)) ltac:(lia)). lia. }
  destruct (insertCol_spec row c 0 (mSparseSize h) H1 ltac:(lia) ltac:(lia)) as [H3 H4]. split; [done|lia].
Qed.

(** The places of three columns of which the second counts the places other than the first, and the third the others. *)
Definition three (x y z : nat) : list nat :=
  let min := Nat.min x y in
  let max := x + y - min in
  let '(y, max) := if max =? y then (S y, S max) else (y, max) in
  let z := if min <=? z then S z else z in
  let z := if max <=? z then S z else z in [x; y; z].

Lemma three_spec x y z s : x < s → y + 1 < s → z + 2 < s → NoDup (three x y z) ∧ Forall (fun c => c < s) (three x y z).
Proof.
  intros Hx Hy Hz. unfold three. destruct (Nat.eqb_spec (x + y - Nat.min x y) y); repeat case_match;
    repeat match goal with H : (_ <=? _) = true |- _ => apply Nat.leb_le in H | H : (_ <=? _) = false |- _ => apply Nat.leb_gt in H end;
    (split; [repeat (apply NoDup_cons; split; [rewrite ?elem_of_cons, ?elem_of_nil; lia|]); apply NoDup_nil_2|repeat constructor; lia]).
Qed.

(** The three columns of a hash before they are spread. *)
Definition col (h : PaxosHash) (i : nat) (hash : block) : nat :=
  Z.to_nat (u64 (Z.shiftr hash (32 * Z.of_nat i)) mod (Z.of_nat (mSparseSize h) - Z.of_nat i)).

Lemma col_bound h i hash : i < mSparseSize h → col h i hash + i < mSparseSize h.
Proof.
  intros Hi. unfold col. pose proof (Z.mod_pos_bound (u64 (Z.shiftr hash (32 * Z.of_nat i)))
    (Z.of_nat (mSparseSize h) - Z.of_nat i) ltac:(lia)). lia.
Qed.

Lemma buildRow_three h hash : mWeight h = 3 → buildRow h hash = three (col h 0 hash) (col h 1 hash) (col h 2 hash).
Proof. intros Hw. unfold buildRow, col. rewrite Hw. cbn [Nat.eqb]. change (Z.of_nat 0) with 0%Z. by rewrite Z.sub_0_r. Qed.

(** Every row has [mWeight] distinct columns below [mSparseSize]. *)
Lemma row_distinct h hash : mWeight h ≤ mSparseSize h →
  length (buildRow h hash) = mWeight h ∧ NoDup (buildRow h hash) ∧ Forall (fun c => c < mSparseSize h) (buildRow h hash).
Proof.
  intros Hs. destruct (decide (mWeight h = 3)) as [Hw|Hw].
  - rewrite buildRow_three by done. destruct (three_spec (col h 0 hash) (col h 1 hash) (col h 2 hash) (mSparseSize h)).
    + pose proof (col_bound h 0 hash). lia.
    + pose proof (col_bound h 1 hash). lia.
    + pose proof (col_bound h 2 hash). lia.
    + split; [|done]. rewrite Hw. unfold three. by destruct (_ =? _).
  - destruct (buildRow_general h hash Hw Hs) as [H1 H2]. split; [done|]. split; [by eapply ascending_nodup|].
    apply Forall_forall. intros x Hx. by apply (ascending_in 0 _ _ _ H1).
Qed.

(** * Lanes *)

Lemma lane_toBlock k x y : k < 2 → lane k (toBlock x y) = if k =? 0 then u64 y else u64 x.
Proof.
  intros Hk. unfold lane, toBlock, block_lo, block_hi. destruct k as [|[|]]; cbn [Nat.eqb]; [| |lia].
  - bitwise. destruct (Z.ltb_spec i 64); cbn [andb]; [|done]. rewrite Z.testbit_neg_r by lia.
    case_bits; done || lia.
  - bitwise. replace (i + 64 <? 64)%Z with false by (symmetry; apply Z.ltb_ge; lia). cbn [andb].
    rewrite orb_false_r. by replace (i + 64 - 64)%Z with i by lia.
Qed.

Lemma lane_lanes k f a b : k < 2 → lane k (lanes f a b) = u64 (f (lane k a) (lane k b)).
Proof. intros Hk. unfold lanes. rewrite lane_toBlock by done. unfold lane. by destruct (k =? 0). Qed.

Lemma lane_lxor k a b : lane k (Z.lxor a b) = Z.lxor (lane k a) (lane k b).
Proof. unfold lane, block_lo, block_hi. destruct (k =? 0); [apply wrap_lxor; lia|apply Z.shiftr_lxor]. Qed.

Lemma lane_land k a b : lane k (Z.land a b) = Z.land (lane k a) (lane k b).
Proof.
  unfold lane, block_lo, block_hi. destruct (k =? 0); [|apply Z.shiftr_land]. bitwise. by destruct (i <? 64)%Z.
Qed.

Lemma lane_ones k : lane k AllOneBlock = allOnes.
Proof. unfold lane. by destruct (k =? 0). Qed.

Lemma land_ones64 x : in_word 64 x → Z.land x allOnes = x.
Proof.
  intros Hx. change allOnes with (Z.ones 64). rewrite Z.land_ones by lia. by apply wrap_small.
Qed.

Lemma lxor_ones64 (b : bool) : Z.lxor (if b then allOnes else 0%Z) allOnes = if b then 0%Z else allOnes.
Proof. by destruct b. Qed.

Lemma mask_u64 (b : bool) : u64 (if b then allOnes else 0%Z) = if b then allOnes else 0%Z.
Proof. by destruct b. Qed.

(** Subtracting a mask adds one where the mask is set. *)
Lemma sub_mask (b : bool) x : (0 ≤ x)%Z → (x + 1 < 2 ^ 64)%Z → u64 (x - (if b then allOnes else 0)) = if b then (x + 1)%Z else x.
Proof.
  intros H0 H1. destruct b; [|rewrite Z.sub_0_r; by apply wrap_small; split; [|lia]].
  unfold wrap, allOnes. replace (x - (2 ^ 64 - 1))%Z with (x + 1 + (-1) * 2 ^ 64)%Z by lia.
  rewrite Z.mod_add by lia. apply Z.mod_small. lia.
Qed.

Lemma max_mask x y : in_word 64 x → in_word 64 y →
  Z.lxor (Z.land (Z.lxor x y) (if (y <? x)%Z then allOnes else 0%Z)) y = Z.max x y.
Proof.
  intros Hx Hy. destruct (Z.ltb_spec y x).
  - rewrite land_ones64 by (apply in_word_lxor; (lia || done)). rewrite lxor_cancel. lia.
  - rewrite Z.land_0_r, Z.lxor_0_l. lia.
Qed.

Lemma min_mask x y : Z.lxor (Z.lxor x y) (Z.max x y) = Z.min x y.
Proof.
  destruct (Z.max_spec x y) as [[? ->]|[? ->]].
  - rewrite lxor_cancel. lia.
  - rewrite (Z.lxor_comm x y), lxor_cancel. lia.
Qed.

(** A lane of [spread] does what [buildRow] does with its three columns. *)
Lemma spread_three k a b c x y z s : k < 2 → lane k a = Z.of_nat x → lane k b = Z.of_nat y → lane k c = Z.of_nat z →
  x < s → y + 1 < s → z + 2 < s → (Z.of_nat s < 2 ^ 64)%Z →
  let '(a', b', c') := spread a b c in map (lane k) [a'; b'; c'] = map Z.of_nat (three x y z).
Proof.
  intros Hk Ha Hb Hc Hx Hy Hz Hs. unfold spread. cbv zeta. cbn [map].
  assert (Hwx : in_word 64 (Z.of_nat x)) by (split; lia). assert (Hwy : in_word 64 (Z.of_nat y)) by (split; lia).
  set (mx := Z.lxor (Z.land (Z.lxor a b) (mm_cmpgt_epi64 a b)) b). set (mn := Z.lxor (Z.lxor a b) mx).
  assert (Hmx : lane k mx = Z.max (Z.of_nat x) (Z.of_nat y)).
  { subst mx. rewrite lane_lxor, lane_land, lane_lxor. unfold mm_cmpgt_epi64. rewrite lane_lanes, mask_u64, Ha, Hb by done.
    by apply max_mask. }
  assert (Hmn : lane k mn = Z.min (Z.of_nat x) (Z.of_nat y)).
  { subst mn. rewrite !lane_lxor, Hmx, Ha, Hb. apply min_mask. }
  set (e := mm_cmpeq_epi64 mx b). assert (He : lane k e = if (Z.max (Z.of_nat x) (Z.of_nat y) =? Z.of_nat y)%Z then allOnes else 0%Z).
  { subst e. unfold mm_cmpeq_epi64. by rewrite lane_lanes, mask_u64, Hmx, Hb by done. }
  assert (Hc1 : ∀ m c0, (0 ≤ lane k c0)%Z → (lane k c0 + 1 < 2 ^ 64)%Z →
    lane k (mm_sub_epi64 c0 (Z.lxor (mm_cmpgt_epi64 m c0) AllOneBlock)) = if (lane k c0 <? lane k m)%Z then lane k c0 else (lane k c0 + 1)%Z).
  { intros m c0 H0 H1. unfold mm_sub_epi64, mm_cmpgt_epi64. rewrite lane_lanes, lane_lxor, lane_lanes, mask_u64, lane_ones, lxor_ones64 by done.
    pose proof (sub_mask (negb (lane k c0 <? lane k m)%Z) (lane k c0) H0 H1) as E.
    destruct (lane k c0 <? lane k m)%Z; exact E. }
  assert (Hmx' : lane k (mm_sub_epi64 mx e) = if (Z.max (Z.of_nat x) (Z.of_nat y) =? Z.of_nat y)%Z
    then (Z.max (Z.of_nat x) (Z.of_nat y) + 1)%Z else Z.max (Z.of_nat x) (Z.of_nat y)).
  { unfold mm_sub_epi64. rewrite lane_lanes, He, Hmx by done. apply sub_mask; lia. }
  assert (Hb' : lane k (mm_sub_epi64 b e) = if (Z.max (Z.of_nat x) (Z.of_nat y) =? Z.of_nat y)%Z
    then (Z.of_nat y + 1)%Z else Z.of_nat y).
  { unfold mm_sub_epi64. rewrite lane_lanes, He, Hb by done. apply sub_mask; lia. }
  assert (Hz1 : lane k (mm_sub_epi64 c (Z.lxor (mm_cmpgt_epi64 mn c) AllOneBlock)) =
    if (Z.of_nat z <? Z.min (Z.of_nat x) (Z.of_nat y))%Z then Z.of_nat z else (Z.of_nat z + 1)%Z).
  { rewrite Hc1, Hc, Hmn by (rewrite Hc; lia). done. }
  rewrite Hc1, Hz1, Hmx', Ha, Hb' by (rewrite Hz1; destruct (_ <? _)%Z; lia). unfold three.
  destruct (Z.eqb_spec (Z.max (Z.of_nat x) (Z.of_nat y)) (Z.of_nat y)), (Nat.eqb_spec (x + y - Nat.min x y) y); try (exfalso; lia);
    destruct (Z.ltb_spec (Z.of_nat z) (Z.min (Z.of_nat x) (Z.of_nat y))), (Nat.leb_spec (Nat.min x y) z); try (exfalso; lia);
    cbn [map]; repeat f_equal; repeat match goal with
      | |- context [(?u <? ?v)%Z] => destruct (Z.ltb_spec u v) | |- context [?u <=? ?v] => destruct (Nat.leb_spec u v) end; lia.
Qed.

(** * Batches *)

Context (libdivide_ok : ∀ x d, in_word 64 x → (0 < d < 2 ^ 64)%Z → libdivide_u64_do x d = (x / d)%Z).

(** The remainder by libdivide. *)
Lemma mod32_col seed s hash i t : i < 3 → 3 ≤ s → (Z.of_nat s < 2 ^ 64)%Z → t < length hash →
  let h := hash_init seed 3 s in
  (mod32 h (map (fun x => u64 (Z.shiftr x (32 * Z.of_nat i))) hash) i).[t] = Z.of_nat (col h i (nth t hash 0%Z)).
Proof.
  intros Hi Hs Hs' Ht h. unfold mod32, doMod32, h, hash_init. cbn [mModVals]. rewrite (nth_map_seq _ 3) by done.
  assert (Hd : in_word 64 (Z.of_nat s - Z.of_nat i)) by (split; lia). rewrite (wrap_small 64 _ Hd).
  rewrite (nth_map _ _ _ 0%Z), (nth_map _ _ _ 0%Z) by (by rewrite ?length_map).
  set (v := u64 (Z.shiftr (nth t hash 0%Z) (32 * Z.of_nat i))). assert (Hv : in_word 64 v) by (apply in_word_wrap; lia). rewrite libdivide_ok by (done || lia).
  unfold col. cbn [mSparseSize]. fold v. set (d := (Z.of_nat s - Z.of_nat i)%Z) in *.
  pose proof (Z.mod_pos_bound v d ltac:(lia)) as Hm. replace (v - v / d * d)%Z with (v mod d)%Z.
  - rewrite Z2Nat.id by lia. apply wrap_small. split; [lia|]. destruct Hd. lia.
  - pose proof (Z.div_mod v d ltac:(lia)). lia.
Qed.

(** The lane of an entry of an array of 64-bit words read as blocks. *)
Lemma lane_pack ll t : t < 32 → (∀ t, t < 32 → in_word 64 ll.[t]) →
  lane (t mod 2) (map (fun k => toBlock ll.[2 * k + 1] ll.[2 * k]) (seq 0 16)).[t / 2] = ll.[t].
Proof.
  intros Ht Hw. assert (Hk : t / 2 < 16) by (apply Nat.Div0.div_lt_upper_bound; lia). rewrite nth_map_seq by done.
  pose proof (Nat.mod_upper_bound t 2 ltac:(lia)). pose proof (Nat.div_mod_eq t 2) as E. rewrite lane_toBlock by done.
  destruct (Nat.eqb_spec (t mod 2) 0) as [E0|E0].
  - rewrite wrap_small by (apply Hw; lia). f_equal. lia.
  - rewrite wrap_small by (apply Hw; lia). f_equal. lia.
Qed.

Lemma map_ext_nth {A B} (f : nat → B) (g : A → B) l d : (∀ i, i < length l → f i = g (nth i l d)) →
  map f (seq 0 (length l)) = map g l.
Proof.
  intros H. apply (nth_ext _ _ (f 0) (f 0)); [by rewrite !length_map, length_seq|]. intros i Hi.
  rewrite length_map, length_seq in Hi. rewrite nth_map_seq by done. rewrite (nth_map g l i d) by done. by apply H.
Qed.

(** The rows of a batch of 32, computed in lanes with multiplications instead of divisions, are those of [buildRow]. *)
Lemma batch_rows seed weight s hash : length hash = 32 → 3 ≤ s → (Z.of_nat s < 2 ^ 64)%Z →
  let h := hash_init seed weight s in buildRow32 h hash = map (buildRow h) hash.
Proof.
  intros Hl Hs Hs' h. unfold buildRow32. destruct (Nat.eqb_spec (mWeight h) 3) as [Hw|Hw].
  2: { by rewrite <- Hl, firstn_all. }
  assert (weight = 3) as -> by done. cbv zeta.
  replace (seq 0 32) with (seq 0 (length hash)) by (by rewrite Hl). apply (map_ext_nth _ _ _ 0%Z). rewrite Hl. intros t Ht.
  assert (Hk : t / 2 < 16) by (apply Nat.Div0.div_lt_upper_bound; lia). rewrite (nth_map_seq _ 16) by done.
  set (ll i := mod32 h (map (fun x => u64 (Z.shiftr x (32 * Z.of_nat i))) hash) i).
  assert (Hll : ∀ i t, i < 3 → t < 32 → (ll i).[t] = Z.of_nat (col h i (nth t hash 0%Z))).
  { intros i t' Hi Ht'. apply mod32_col; lia. }
  assert (Hb : ∀ i t, i < 3 → col h i (nth t hash 0%Z) + i < s) by (intros; apply (col_bound h); cbn; lia).
  assert (Hlw : ∀ i t, i < 3 → t < 32 → in_word 64 (ll i).[t]).
  { intros i t' Hi Ht'. rewrite Hll by done. specialize (Hb i t' Hi). split; lia. }
  pose proof (Hb 0 t ltac:(lia)). pose proof (Hb 1 t ltac:(lia)). pose proof (Hb 2 t ltac:(lia)).
  rewrite buildRow_three by done.
  set (row128 i := map (fun k => toBlock (ll i).[2 * k + 1] (ll i).[2 * k]) (seq 0 16)).
  assert (Hr : ∀ i, i < 3 → lane (t mod 2) (row128 i).[t / 2] = Z.of_nat (col h i (nth t hash 0%Z))).
  { intros i Hi. unfold row128. rewrite lane_pack by auto. by apply Hll. }
  pose proof (spread_three (t mod 2) _ _ _ _ _ _ s ltac:(apply Nat.mod_upper_bound; lia)
    (Hr 0 ltac:(lia)) (Hr 1 ltac:(lia)) (Hr 2 ltac:(lia)) ltac:(lia) ltac:(lia) ltac:(lia) Hs') as Hsp.
  match goal with |- context [spread ?a ?b ?c] =>
    change (spread a b c) with (spread (row128 0).[t / 2] (row128 1).[t / 2] (row128 2).[t / 2]) end.
  destruct (spread _ _ _) as [[a b] c].
  transitivity (map Z.to_nat (map (lane (t mod 2)) [a; b; c])); [by rewrite map_map|].
  rewrite Hsp, map_map. rewrite (map_ext _ id); [apply map_id|]. intros n. apply Nat2Z.id.
Qed.

(** C22 A batch of 32 inputs gives the rows and hashes of the single inputs, and every row has [weight] distinct columns. *)
Theorem hashBuildRow32_outcome seed weight s inputs : length inputs = 32 → 3 ≤ s → (Z.of_nat s < 2 ^ 64)%Z → weight ≤ s →
  let h := hash_init seed weight s in
  hashBuildRow32 h inputs = (map (fun x => fst (hashBuildRow1 h x)) inputs, map (fun x => snd (hashBuildRow1 h x)) inputs) ∧
  Forall (fun row => length row = weight ∧ NoDup row ∧ Forall (fun c => c < s) row) (fst (hashBuildRow32 h inputs)).
Proof.
  intros Hl Hs Hs' Hw h. assert (Hl' : length (map (hashBlock (mAes h)) inputs) = 32) by (by rewrite length_map).
  unfold hashBuildRow32, hashBuildRow1. rewrite (take_ge inputs) by lia. cbn [fst snd].
  pose proof (batch_rows seed weight s _ Hl' Hs Hs') as E. cbv zeta in E. fold h in E. rewrite E, map_map. split; [done|].
  apply Forall_map, Forall_forall. intros x _. by apply row_distinct.
Qed.

End hash.

Lemma hashBuildRow32_outcome_witness : let h := hash_init 0 3 20 in let inputs := map (fun i => (Z.of_nat i * 0x123456789abcdef0123456789)%Z) (seq 0 32) in
  length inputs = 32 ∧ hashBuildRow32 Z.land Z.div Z.lxor h inputs = (map (fun x => fst (hashBuildRow1 Z.land Z.lxor h x)) inputs, map (fun x => snd (hashBuildRow1 Z.land Z.lxor h x)) inputs) ∧
  Forall (fun row => length row = 3 ∧ NoDup row ∧ Forall (fun c => c < 20) row) (fst (hashBuildRow32 Z.land Z.div Z.lxor h inputs)).
Proof. split; [reflexivity|]. apply (hashBuildRow32_outcome Z.land Z.div Z.lxor); [done|reflexivity|lia|reflexivity|lia]. Defined.

End PaxosHash.
