(* ===== verification/Paxos.v ===== *)
(** The solver of VOLE-PSI (class Paxos of src/volepsi/volePSI/Paxos.h and PaxosImpl.h): parameters, the rows and columns of
    the matrix, and the triangulation. [IdxType] is an unsigned type of [idxBits] bits; indices are natural
    numbers, wrapped where the code may wrap them. Memory that [allocate] leaves uninitialised is zero here and
    overwritten before it is read. Timing points and prefetches are left out. *)
From stdpp Require Import sets.
From S2P Require Import Prelude Words PxUtil PaxosHash.
Open Scope nat_scope.

Module Paxos.
Import PxUtil PaxosHash.

Inductive DenseType : Type := Binary | GF128.

Record PaxosParam : Type := mkParam {
  pSparseSize : nat; pDenseSize : nat; pWeight : nat; pG : nat; pSsp : nat; pDt : DenseType }.

Definition param_size (p : PaxosParam) : nat := pSparseSize p + pDenseSize p.

Record Paxos : Type := mkPaxos {
  param : PaxosParam; mNumItems : nat; mSeed : block; mAddToDecode : bool; mHasher : PaxosHash;
  mDense : list block; mRows : list (list nat);
  mCols : list (nat * nat);  (** start in [mColBacking] and size *)
  mColBacking : list nat; mWeightSets : WeightData }.

Definition Paxos_new : Paxos :=
  mkPaxos (mkParam 0 0 0 0 40 GF128) 0 0%Z false (mkHash 0 0 0 0%Z []) [] [] [] [] WeightData_new.

(** [for (x : l)] with a body that may throw. *)
Fixpoint foldR {A S : Type} (f : S → A → Res S) (l : list A) (s : S) : Res S :=
  match l with [] => Ok s | x :: l' => s ← f s x; foldR f l' s end.

Section paxos.
Context (gf128Mul : block → block → block) (libdivide_u64_do : Z → Z → Z) (hashBlock : block → block → block) (idxBits : Z).

Definition idx_wrap (n : nat) : nat := Z.to_nat (Z.of_nat n mod 2 ^ idxBits).

Definition init (px : Paxos) (numItems : nat) (p : PaxosParam) (seed : block) : Res Paxos :=
  throw_if (2 ^ idxBits - 1 <=? Z.of_nat (pSparseSize p))%Z RTE_LOC ;;
  throw_if (pSparseSize p + pDenseSize p <? numItems) RTE_LOC ;;
  mret (mkPaxos p (idx_wrap numItems) seed (mAddToDecode px) (hash_init seed (pWeight p) (pSparseSize p))
    (mDense px) (mRows px) (mCols px) (mColBacking px) (mWeightSets px)).

Definition allocate (px : Paxos) : Paxos :=
  let n := mNumItems px in let w := pWeight (param px) in
  mkPaxos (param px) n (mSeed px) (mAddToDecode px) (mHasher px) (replicate n 0%Z) (replicate n (replicate w 0))
    (replicate (pSparseSize (param px)) (0, 0)) (replicate (n * w) 0) (mWeightSets px).

(** The column [c] of the matrix: the rows in its span. *)
Definition colRows (px : Paxos) (c : nat) : list nat :=
  let '(start, size) := nth c (mCols px) (0, 0) in slice (mColBacking px) start size.

(** [++colWeights[c]] for the columns of some rows. *)
Definition countCols (colWeights : list nat) (cols : list nat) : list nat :=
  foldl (fun cw c => <[c := idx_wrap (nth c cw 0 + 1)]> cw) colWeights cols.

(** [mCols[c]] grows by one entry, [i]. *)
Definition pushCol (i : nat) (st : list (nat * nat) * list nat) (c : nat) : list (nat * nat) * list nat :=
  let '(cols, backing) := st in
  let '(start, size) := nth c cols (0, 0) in (<[c := (start, S size)]> cols, <[start + size := i]> backing).

(** The three spans of a row are read before any of them grows. *)
Definition pushRow3 (i : nat) (row : list nat) (st : list (nat * nat) * list nat) : list (nat * nat) * list nat :=
  let '(cols, backing) := st in
  let c0 := nth 0 row 0 in let c1 := nth 1 row 0 in let c2 := nth 2 row 0 in
  let '(d0, s0) := nth c0 cols (0, 0) in
  let '(d1, s1) := nth c1 cols (0, 0) in
  let '(d2, s2) := nth c2 cols (0, 0) in
  (<[c2 := (d2, S s2)]> (<[c1 := (d1, S s1)]> (<[c0 := (d0, S s0)]> cols)),
   <[d2 + s2 := i]> (<[d1 + s1 := i]> (<[d0 + s0 := i]> backing))).

Definition rebuildColumns (px : Paxos) (colWeights : list nat) (totalWeight : nat) : Res Paxos :=
  throw_if (negb (length (mColBacking px) =? totalWeight)) RTE_LOC ;;
  let '(cols, colIter) := for_ 0 (pSparseSize (param px)) (fun i '(cols, colIter) =>
    (<[i := (colIter, 0)]> cols, colIter + nth i colWeights 0)) (mCols px, 0) in
  throw_if (negb (colIter =? length (mColBacking px))) RTE_LOC ;;
  let '(cols, backing) := for_ 0 (mNumItems px) (fun i st =>
    let row := nth i (mRows px) [] in
    if pWeight (param px) =? 3 then pushRow3 i row st else foldl (pushCol i) st row) (cols, mColBacking px) in
  mret (mkPaxos (param px) (mNumItems px) (mSeed px) (mAddToDecode px) (mHasher px) (mDense px) (mRows px) cols backing (mWeightSets px)).

Definition withWeights (px : Paxos) (wd : WeightData) : Paxos :=
  mkPaxos (param px) (mNumItems px) (mSeed px) (mAddToDecode px) (mHasher px) (mDense px) (mRows px) (mCols px) (mColBacking px) wd.
Definition withRows (px : Paxos) (rows : list (list nat)) (dense : list block) : Paxos :=
  mkPaxos (param px) (mNumItems px) (mSeed px) (mAddToDecode px) (mHasher px) dense rows (mCols px) (mColBacking px) (mWeightSets px).

Definition gPaxosBuildRowSize : nat := 32.

(** [setInput(inputs)] *)
Definition setInput (px : Paxos) (inputs : list block) : Res Paxos :=
  throw_if (negb (length inputs =? mNumItems px)) RTE_LOC ;;
  let px := allocate px in
  let batches := length inputs / gPaxosBuildRowSize in
  let '(rows, dense, colWeights) := for_ 0 batches (fun b '(rows, dense, colWeights) =>
    let i := gPaxosBuildRowSize * b in
    let '(rr, hash) := hashBuildRow32 gf128Mul libdivide_u64_do hashBlock (mHasher px) (slice inputs i gPaxosBuildRowSize) in
    (memcpy rows i rr 0 gPaxosBuildRowSize, memcpy dense i hash 0 gPaxosBuildRowSize, countCols colWeights (concat rr)))
    (mRows px, mDense px, replicate (pSparseSize (param px)) 0) in
  let '(rows, dense, colWeights) := for_ (gPaxosBuildRowSize * batches) (mNumItems px) (fun i '(rows, dense, colWeights) =>
    let '(row, hash) := hashBuildRow1 gf128Mul hashBlock (mHasher px) inputs.[i] in
    (<[i := row]> rows, <[i := hash]> dense, countCols colWeights row)) (rows, dense, colWeights) in
  px ← rebuildColumns (withRows px rows dense) colWeights (pWeight (param px) * mNumItems px);
  wd ← wd_init (mWeightSets px) colWeights;
  mret (withWeights px wd).

(** [setInput(rows, dense)]: the rows are given; [rowCols] is [rows.cols()]. *)
Definition setInputRows (px : Paxos) (rowCols : nat) (rows : list (list nat)) (dense : list block) : Res Paxos :=
  throw_if (negb (length rows =? mNumItems px) || negb (length dense =? mNumItems px)) RTE_LOC ;;
  throw_if (negb (rowCols =? pWeight (param px))) RTE_LOC ;;
  let px := allocate px in
  let colWeights := countCols (replicate (pSparseSize (param px)) 0) (concat rows) in
  px ← rebuildColumns (withRows px rows dense) colWeights (pWeight (param px) * mNumItems px);
  wd ← wd_init (mWeightSets px) colWeights;
  mret (withWeights px wd).

(** [setInput(rows, dense, cols, colBacking, colWeights)]: the caller gives the memory and has counted the columns. *)
Definition setInputWith (px : Paxos) (rowCols : nat) (rows : list (list nat)) (dense : list block) (cols : list (nat * nat))
    (colBacking colWeights : list nat) : Res Paxos :=
  throw_if (negb (length rows =? mNumItems px) || negb (length dense =? mNumItems px)) RTE_LOC ;;
  throw_if (negb (rowCols =? pWeight (param px))) RTE_LOC ;;
  throw_if (negb (length cols =? pSparseSize (param px))) RTE_LOC ;;
  throw_if (negb (length colBacking =? mNumItems px * pWeight (param px))) RTE_LOC ;;
  throw_if (negb (length colWeights =? pSparseSize (param px))) RTE_LOC ;;
  px ← rebuildColumns (mkPaxos (param px) (mNumItems px) (mSeed px) (mAddToDecode px) (mHasher px) dense rows cols colBacking
    (mWeightSets px)) colWeights (pWeight (param px) * mNumItems px);
  wd ← wd_init (mWeightSets px) colWeights;
  mret (withWeights px wd).

(** * Triangulation *)

Record Tri : Type := mkTri {
  t_wd : WeightData; t_rowSet : list bool; t_mainRows : list nat; t_mainCols : list nat; t_gapRows : list (nat * nat) }.

(** The other columns of a row that is now fixed lose a row. *)
Definition fixRow (wd : WeightData) (row : list nat) : Res WeightData :=
  foldR (fun wd colIdx2 =>
    node ← getNode wd colIdx2;
    if nWeight node =? 0 then mret wd else
    wd ← popNode wd colIdx2;
    nd ← getNode wd colIdx2;
    wd ← setWeight wd colIdx2 (nWeight nd - 1);
    pushNode wd colIdx2) row wd.

Definition visitRow (px : Paxos) (colIdx : nat) (st : Tri * bool) (rowIdx : nat) : Res (Tri * bool) :=
  let '(t, first) := st in
  isSet ← must (t_rowSet t !! rowIdx);
  if isSet : bool then mret (t, first) else
  let rowSet := <[rowIdx := true]> (t_rowSet t) in
  row ← must (mRows px !! rowIdx);
  wd ← fixRow (t_wd t) row;
  if first then mret (mkTri wd rowSet (t_mainRows t ++ [rowIdx]) (t_mainCols t ++ [colIdx]) (t_gapRows t), false)
  else
    main ← must (last (t_mainRows t));
    throw_if ((mDense px).[main] =? (mDense px).[rowIdx])%Z RTE_LOC ;;
    mret (mkTri wd rowSet (t_mainRows t) (t_mainCols t) (t_gapRows t ++ [(rowIdx, main)]), false).

(** One turn of the loop of [triangulate]. *)
Definition triStep (px : Paxos) (t : Tri) : Res Tri :=
  colIdx ← getMinWeightNode (t_wd t);
  wd ← popNode (t_wd t) colIdx;
  wd ← setWeight wd colIdx 0;
  '(t, first) ← foldR (visitRow px colIdx) (colRows px colIdx)
    (mkTri wd (t_rowSet t) (t_mainRows t) (t_mainCols t) (t_gapRows t), true);
  throw_if first RTE_LOC ;;
  mret t.

(** Every turn fixes a row, so that the number of rows is enough fuel. *)
Fixpoint triLoop (fuel : nat) (px : Paxos) (t : Tri) : Res Tri :=
  if length (PxUtil.mWeightSets (t_wd t)) <=? 1 then Ok t else
  match fuel with O => Throw undefined | S fuel => t ← triStep px t; triLoop fuel px t end.

Definition triangulate (px : Paxos) : Res Tri :=
  wd ← (if length (PxUtil.mWeightSets (mWeightSets px)) <=? 1
        then wd_init (mWeightSets px) (map (fun i => idx_wrap (snd (nth i (mCols px) (0, 0)))) (seq 0 (pSparseSize (param px))))
        else mret (mWeightSets px));
  triLoop (mNumItems px) px (mkTri wd (replicate (mNumItems px) false) [] [] []).

(** * Counting columns *)

Definition occ (c : nat) (l : list nat) : nat := count_occ Nat.eq_dec l c.

Lemma occ_app c l m : occ c (l ++ m) = occ c l + occ c m.
Proof. apply count_occ_app. Qed.

Lemma idx_wrap_small n : (Z.of_nat n < 2 ^ idxBits)%Z → idx_wrap n = n.
Proof. intros H. unfold idx_wrap. rewrite Z.mod_small by lia. apply Nat2Z.id. Qed.

Lemma countCols_spec cw cols : (∀ c, c ∈ cols → c < length cw) →
  (∀ c, (Z.of_nat (nth c cw 0 + occ c cols)%nat < 2 ^ idxBits)%Z) →
  length (countCols cw cols) = length cw ∧ ∀ c, nth c (countCols cw cols) 0 = nth c cw 0 + occ c cols.
Proof.
  revert cw. induction cols as [|x cols IH]; intros cw Hc Hw; [split; [done|]; intros c; cbn; lia|].
  change (countCols cw (x :: cols)) with (countCols (<[x := idx_wrap (nth x cw 0 + 1)]> cw) cols).
  assert (Hx : x < length cw) by (apply Hc; apply elem_of_cons; by left).
  assert (Ho : ∀ c, occ c (x :: cols) = (if decide (x = c) then 1 else 0) + occ c cols).
  { intros c. unfold occ. cbn. destruct (Nat.eq_dec x c), (decide (x = c)); done. }
  assert (Hwx : idx_wrap (nth x cw 0 + 1) = nth x cw 0 + 1).
  { apply idx_wrap_small. specialize (Hw x). rewrite Ho, decide_True in Hw by done. lia. }
  assert (Hn : ∀ c, nth c (<[x := nth x cw 0 + 1]> cw) 0 = nth c cw 0 + if decide (x = c) then 1 else 0).
  { intros c. rewrite nth_upd by done. case_decide; [subst|]; lia. }
  rewrite Hwx. destruct (IH (<[x := nth x cw 0 + 1]> cw)) as [H1 H2].
  - intros c Hin. rewrite length_insert. apply Hc. apply elem_of_cons. by right.
  - intros c. rewrite Hn. specialize (Hw c). rewrite Ho in Hw. lia.
  - rewrite length_insert in H1. split; [done|]. intros c. rewrite H2, Hn, Ho. lia.
Qed.

(** * Building the columns *)

(** The rows that contain a column, in ascending order. *)
Definition rowsWith (rows : list (list nat)) (c n : nat) : list nat :=
  List.filter (fun i => existsb (Nat.eqb c) (nth i rows [])) (seq 0 n).

Lemma rowsWith_S rows c n : rowsWith rows c (S n) = rowsWith rows c n ++ if existsb (Nat.eqb c) (nth n rows []) then [n] else [].
Proof. unfold rowsWith. rewrite seq_S, List.filter_app. cbn. by destruct (existsb _ _). Qed.

Lemma rowsWith_in rows c n i : i ∈ rowsWith rows c n ↔ i < n ∧ c ∈ nth i rows [].
Proof. unfold rowsWith. rewrite list_elem_of_In, filter_In, in_seq, existsb_in. split; intros []; split; auto; lia. Qed.

(** The span of column [c] starts where those before it end, and holds [f c]. *)
Definition start_of (cw : list nat) (c : nat) : nat := sum_list (take c cw).

Definition ColInv (cw : list nat) (st : list (nat * nat) * list nat) (f : nat → list nat) : Prop :=
  length st.1 = length cw ∧ length st.2 = sum_list cw ∧
  ∀ c, c < length cw → nth c st.1 (0, 0) = (start_of cw c, length (f c)) ∧ length (f c) ≤ nth c cw 0 ∧
    ∀ k, k < length (f c) → nth (start_of cw c + k) st.2 0 = nth k (f c) 0.

Lemma start_S cw c : c < length cw → start_of cw (S c) = start_of cw c + nth c cw 0.
Proof.
  intros Hc. unfold start_of. destruct (lookup_lt_is_Some_2 cw c Hc) as [x Hx].
  rewrite (take_S_r _ _ _ Hx), sum_list_with_app, (nth_lookup_Some _ _ _ _ Hx). cbn. lia.
Qed.

Lemma start_mono cw c c' : c ≤ c' → start_of cw c ≤ start_of cw c'.
Proof.
  intros H. unfold start_of. replace c' with (c + (c' - c)) by lia. rewrite <- (take_take_drop cw c), sum_list_with_app. lia.
Qed.

Lemma start_total cw c : c < length cw → start_of cw c + nth c cw 0 ≤ sum_list cw.
Proof.
  intros Hc. rewrite <- start_S by done. unfold start_of. rewrite <- (take_drop (S c) cw) at 2. rewrite sum_list_with_app. lia.
Qed.

(** The spans of different columns do not meet. *)
Lemma start_apart cw c c' k k' : c < length cw → c' < length cw → c ≠ c' → k < nth c cw 0 → k' < nth c' cw 0 →
  start_of cw c + k ≠ start_of cw c' + k'.
Proof.
  intros Hc Hc' Hne Hk Hk'. destruct (Nat.lt_gt_cases c c') as [[Hlt|Hgt] _]; [done| |].
  - pose proof (start_mono cw (S c) c' ltac:(lia)). rewrite start_S in H by done. lia.
  - pose proof (start_mono cw (S c') c ltac:(lia)). rewrite start_S in H by done. lia.
Qed.

Lemma pushCol_spec cw i st f c : ColInv cw st f → c < length cw → length (f c) < nth c cw 0 →
  ColInv cw (pushCol i st c) (fun c' => if c' =? c then f c ++ [i] else f c').
Proof.
  intros (H1 & H2 & H3) Hc Hlen. destruct st as [cols backing]. cbn [fst snd] in *. unfold pushCol.
  destruct (H3 c Hc) as (E & _ & _). rewrite E. unfold ColInv. cbn [fst snd]. rewrite !length_insert.
  pose proof (start_total cw c Hc). split; [done|]. split; [done|]. intros c' Hc'. destruct (H3 c' Hc') as (E' & Hl' & Hk').
  assert (Hcol : nth c' (<[c := (start_of cw c, S (length (f c)))]> cols) (0, 0) =
    if decide (c = c') then (start_of cw c, S (length (f c))) else nth c' cols (0, 0)).
  { rewrite !nth_lookup. case_decide as Hd; [subst c'; by rewrite list_lookup_insert_eq by lia|by rewrite list_lookup_insert_ne]. }
  rewrite Hcol. clear Hcol. destruct (Nat.eqb_spec c' c) as [->|Hne].
  - rewrite decide_True by done. rewrite length_app. cbn [length]. split; [f_equal; lia|]. split; [lia|]. intros k Hk.
    rewrite nth_upd by lia. case_decide as Hd.
    + replace k with (length (f c) + 0) by lia. by rewrite app_nth2_plus.
    + rewrite app_nth1 by lia. apply Hk'. lia.
  - rewrite decide_False by done. split; [done|]. split; [done|]. intros k Hk. rewrite nth_upd by lia.
    rewrite decide_False; [by apply Hk'|]. apply start_apart; (done || lia).
Qed.

(** A row is pushed on its columns. *)
Lemma pushCols_spec cw i row st f : ColInv cw st f → NoDup row → (∀ c, c ∈ row → c < length cw ∧ length (f c) < nth c cw 0) →
  ColInv cw (foldl (pushCol i) st row) (fun c => if existsb (Nat.eqb c) row then f c ++ [i] else f c).
Proof.
  revert st f. induction row as [|x row IH]; intros st f H Hnd Hr; [exact H|]. cbn [foldl].
  apply NoDup_cons in Hnd as [Hx Hnd]. destruct (Hr x) as [Hxl Hxw]; [apply elem_of_cons; by left|].
  pose proof (pushCol_spec cw i st f x H Hxl Hxw) as H1. specialize (IH _ _ H1 Hnd).
  cbv beta in IH. match type of IH with ?A → _ => assert (Hpre : A) end.
  { intros c Hc. assert (Hne : c ≠ x) by (intros Heq; apply Hx; by rewrite <- Heq). rewrite (proj2 (Nat.eqb_neq c x) Hne).
    apply Hr. apply elem_of_cons. by right. }
  destruct (IH Hpre) as (E1 & E2 & E3). split; [done|]. split; [done|]. intros c Hc. specialize (E3 c Hc). cbn [existsb].
  destruct (decide (c = x)) as [Heq|Hne]; [|by rewrite (proj2 (Nat.eqb_neq c x) Hne) in E3 |- *].
  rewrite Heq, Nat.eqb_refl in *. cbn [orb]. destruct (existsb (Nat.eqb x) row) eqn:Ex; [by apply existsb_in in Ex|exact E3].
Qed.

Lemma pushRow3_pushCol i c0 c1 c2 st : NoDup [c0; c1; c2] → pushRow3 i [c0; c1; c2] st = foldl (pushCol i) st [c0; c1; c2].
Proof.
  intros Hnd. apply NoDup_cons in Hnd as [H0 [H1 _]%NoDup_cons].
  assert (c0 ≠ c1) by set_solver. assert (c0 ≠ c2) by set_solver. assert (c1 ≠ c2) by set_solver.
  destruct st as [cols backing]. unfold pushRow3, pushCol. cbn [nth foldl].
  assert (Hn : ∀ (l : list (nat * nat)) u v x, u ≠ v → nth v (<[u := x]> l) (0, 0) = nth v l (0, 0)).
  { intros l u v x Huv. rewrite !nth_lookup. by rewrite list_lookup_insert_ne. }
  destruct (nth c0 cols (0, 0)) as [d0 s0] eqn:E0. rewrite !Hn by done.
  destruct (nth c1 cols (0, 0)) as [d1 s1] eqn:E1. rewrite !Hn by done.
  by destruct (nth c2 cols (0, 0)) as [d2 s2].
Qed.

(** What [setInput] leaves for the triangulation: well-formed rows, and in every column the rows that contain it. *)
Record Matrix (px : Paxos) : Prop := {
  mx_rows : length (mRows px) = mNumItems px;
  mx_dense : length (mDense px) = mNumItems px;
  mx_row : ∀ i, i < mNumItems px → length (nth i (mRows px) []) = pWeight (param px) ∧ NoDup (nth i (mRows px) []) ∧
    ∀ c, c ∈ nth i (mRows px) [] → c < pSparseSize (param px);
  mx_cols : ∀ c, c < pSparseSize (param px) → colRows px c = rowsWith (mRows px) c (mNumItems px);
  mx_sizes : ∀ c, c < pSparseSize (param px) → snd (nth c (mCols px) (0, 0)) = length (rowsWith (mRows px) c (mNumItems px)) }.

Lemma occ_nodup c l : NoDup l → occ c l = if existsb (Nat.eqb c) l then 1 else 0.
Proof.
  intros Hnd%NoDup_ListNoDup. unfold occ. destruct (existsb (Nat.eqb c) l) eqn:E.
  - apply NoDup_count_occ'; [done|]. by apply list_elem_of_In, existsb_in.
  - apply count_occ_not_In. intros Hin. apply list_elem_of_In, existsb_in in Hin. congruence.
Qed.

Lemma occ_rows rows c n : n ≤ length rows → (∀ i, i < n → NoDup (nth i rows [])) →
  occ c (concat (take n rows)) = length (rowsWith rows c n).
Proof.
  intros Hn Hnd. induction n as [|n IH]; [done|]. destruct (lookup_lt_is_Some_2 rows n ltac:(lia)) as [r Hr].
  rewrite (take_S_r _ _ _ Hr), concat_app, occ_app, IH, rowsWith_S, length_app by (auto; lia). cbn [concat]. rewrite app_nil_r.
  pose proof (Hnd n ltac:(lia)) as Hrn. rewrite (nth_lookup_Some _ _ _ _ Hr) in Hrn. rewrite (nth_lookup_Some _ _ _ _ Hr).
  rewrite (occ_nodup c r Hrn). by destruct (existsb _ _).
Qed.

Lemma sum_occ l s : (∀ c, c ∈ l → c < s) → sum_list (map (fun c => occ c l) (seq 0 s)) = length l.
Proof.
  induction l as [|x l IH]; intros Hl; [by induction (seq 0 s)|].
  assert (Hx : x < s) by (apply Hl; set_solver). cbn [length]. rewrite <- IH by set_solver. clear IH Hl.
  assert (H : ∀ k, k ≤ s → sum_list (map (fun c => occ c (x :: l)) (seq 0 k)) = sum_list (map (fun c => occ c l) (seq 0 k)) + if x <? k then 1 else 0).
  { induction k as [|k IH]; intros Hk; [done|]. rewrite !seq_S, !map_app, !sum_list_with_app, IH by lia. cbn [map sum_list_with foldr]. change (0 + k) with k. unfold id. rewrite !Nat.add_0_r.
    assert (Ho : occ k (x :: l) = occ k l + if decide (x = k) then 1 else 0).
    { unfold occ. cbn. destruct (Nat.eq_dec x k), (decide (x = k)); lia || done. }
    rewrite Ho. case_decide; destruct (Nat.ltb_spec x k), (Nat.ltb_spec x (S k)); lia. }
  rewrite H by lia. destruct (Nat.ltb_spec x s); lia.
Qed.

(** The rows of a matrix before its columns are built. *)
Definition rows_ok (px : Paxos) : Prop :=
  length (mRows px) = mNumItems px ∧ ∀ i, i < mNumItems px → length (nth i (mRows px) []) = pWeight (param px) ∧
    NoDup (nth i (mRows px) []) ∧ ∀ c, c ∈ nth i (mRows px) [] → c < pSparseSize (param px).

Lemma rows_total px : rows_ok px → length (concat (mRows px)) = mNumItems px * pWeight (param px) ∧
  ∀ c, c ∈ concat (mRows px) → c < pSparseSize (param px).
Proof.
  intros [Hl Hr]. rewrite <- Hl in *. clear Hl. induction (mRows px) as [|r rows IH]; [split; [done|by intros c []%not_elem_of_nil]|].
  cbn [concat length]. rewrite length_app. destruct IH as [IH1 IH2].
  { intros i Hi. apply (Hr (S i)). cbn. lia. }
  destruct (Hr 0) as (H1 & _ & H3); [cbn; lia|]. cbn in H1, H3. split; [rewrite IH1; lia|]. intros c [Hc|Hc]%elem_of_app; auto.
Qed.

Lemma sum_weights px cw : rows_ok px → length cw = pSparseSize (param px) →
  (∀ c, c < pSparseSize (param px) → nth c cw 0 = length (rowsWith (mRows px) c (mNumItems px))) →
  sum_list cw = mNumItems px * pWeight (param px).
Proof.
  intros Hok Hl Hcw. destruct (rows_total px Hok) as [H1 H2]. destruct Hok as [H3 H4].
  rewrite <- H1, <- (sum_occ _ _ H2). f_equal. apply (nth_ext _ _ 0 0); [by rewrite length_map, length_seq|].
  intros c Hc. rewrite Hl in Hc. rewrite (nth_map_seq _ _ _ 0) by done. rewrite Hcw by done.
  rewrite <- occ_rows; [|lia|intros; by apply H4]. by rewrite <- H3, firstn_all.
Qed.

Lemma starts_loop cols cw n : length cols = length cw → n ≤ length cw →
  let '(cols', colIter) := for_ 0 n (fun i '(cols, colIter) => (<[i := (colIter, 0)]> cols, colIter + nth i cw 0)) (cols, 0) in
  length cols' = length cw ∧ colIter = start_of cw n ∧ ∀ c, c < n → nth c cols' (0, 0) = (start_of cw c, 0).
Proof.
  intros Hl Hn. induction n as [|n IH]; [cbn; split_and!; [done|done|lia]|]. rewrite for_snoc by lia. specialize (IH ltac:(lia)).
  destruct (for_ 0 n _ _) as [cols' colIter]. destruct IH as (H1 & -> & H3). rewrite length_insert.
  split; [done|]. split; [symmetry; apply start_S; lia|]. intros c Hc. rewrite nth_lookup.
  destruct (decide (c = n)) as [->|Hne]; [by rewrite list_lookup_insert_eq by lia|].
  rewrite list_lookup_insert_ne by done. rewrite <- nth_lookup. apply H3. lia.
Qed.

(** The column of a span that has been filled. *)
Lemma colInv_slice cw cols backing f c : ColInv cw (cols, backing) f → c < length cw →
  (let '(start, size) := nth c cols (0, 0) in slice backing start size) = f c.
Proof.
  intros (H1 & H2 & H3) Hc. destruct (H3 c Hc) as (E & Hle & Hk). cbn [fst snd] in *. rewrite E.
  pose proof (start_total cw c Hc). apply (nth_ext _ _ 0 0); [apply slice_length; lia|].
  rewrite slice_length by lia. intros k Hlt. rewrite <- Hk by done. unfold slice.
  rewrite !nth_lookup, lookup_take_lt, lookup_drop by done. done.
Qed.

Lemma rebuildColumns_spec px cw : rows_ok px → length (mDense px) = mNumItems px → length (mCols px) = pSparseSize (param px) →
  length (mColBacking px) = mNumItems px * pWeight (param px) → length cw = pSparseSize (param px) →
  (∀ c, c < pSparseSize (param px) → nth c cw 0 = length (rowsWith (mRows px) c (mNumItems px))) →
  ∃ cols backing, rebuildColumns px cw (pWeight (param px) * mNumItems px) =
    Ok (mkPaxos (param px) (mNumItems px) (mSeed px) (mAddToDecode px) (mHasher px) (mDense px) (mRows px) cols backing (mWeightSets px)) ∧
    ColInv cw (cols, backing) (fun c => rowsWith (mRows px) c (mNumItems px)).
Proof.
  intros Hok Hd Hc Hb Hl Hcw. pose proof (sum_weights px cw Hok Hl Hcw) as Hsum. unfold rebuildColumns.
  replace (length (mColBacking px) =? pWeight (param px) * mNumItems px) with true by (symmetry; apply Nat.eqb_eq; lia).
  cbn [negb throw_if mbind Res_bind]. pose proof (starts_loop (mCols px) cw (pSparseSize (param px)) ltac:(lia) ltac:(lia)) as Hst.
  destruct (for_ 0 (pSparseSize (param px)) _ _) as [cols0 colIter]. destruct Hst as (S1 & -> & S3).
  assert (Hit : start_of cw (pSparseSize (param px)) = length (mColBacking px)).
  { unfold start_of. rewrite <- Hl, firstn_all. lia. }
  rewrite Hit, Nat.eqb_refl. cbn [negb throw_if mbind Res_bind].
  loop_inv (fun i st => ColInv cw st (fun c => rowsWith (mRows px) c i)) as HI; [lia| | |].
  - split; [done|]. split; [cbn; lia|]. intros c Hcl. rewrite Hl in Hcl. cbn. split; [by apply S3|]. split; lia.
  - intros i st Hi H. destruct Hok as [Hr1 Hr2]. destruct (Hr2 i ltac:(lia)) as (R1 & R2 & R3). set (row := nth i (mRows px) []) in *.
    assert (H' : ColInv cw (foldl (pushCol i) st row) (fun c => rowsWith (mRows px) c (S i))).
    { pose proof (pushCols_spec cw i row st _ H R2) as Hp. match type of Hp with ?A → _ => assert (Hpre : A) end.
      { intros c Hin. split; [rewrite Hl; by apply R3|]. rewrite Hcw by auto.
        assert (Hlen : ∀ m, m ≤ mNumItems px → S i ≤ m → length (rowsWith (mRows px) c i) < length (rowsWith (mRows px) c m)).
        { induction m as [|m IHm]; intros Hm Him; [lia|]. rewrite (rowsWith_S (mRows px) c m), length_app.
          destruct (decide (m = i)) as [->|]; [|specialize (IHm ltac:(lia) ltac:(lia)); lia].
          fold row. rewrite (proj2 (existsb_in c row) Hin). cbn. lia. }
        apply Hlen; lia. }
      destruct (Hp Hpre) as (E1 & E2 & E3). split; [done|]. split; [done|]. intros c Hcl. specialize (E3 c Hcl).
      rewrite rowsWith_S. fold row. destruct (existsb (Nat.eqb c) row); [exact E3|]. by rewrite app_nil_r. }
    destruct (Nat.eqb_spec (pWeight (param px)) 3) as [E3|]; [|exact H'].
    rewrite E3 in R1. destruct row as [|c0 [|c1 [|c2 []]]]; try discriminate. by rewrite pushRow3_pushCol.
  - destruct (for_ 0 (mNumItems px) _ _) as [cols backing]. by exists cols, backing.
Qed.

(** * Setting the input *)

Context (libdivide_ok : ∀ x d, in_word 64 x → (0 < d < 2 ^ 64)%Z → libdivide_u64_do x d = (x / d)%Z).

(** The row and the dense part of an input. *)
Definition denseOf (px : Paxos) (x : block) : block := hashBlock (mAes (mHasher px)) x.
Definition rowOf (px : Paxos) (x : block) : list nat := buildRow gf128Mul (mHasher px) (denseOf px x).

(** What [init] leaves, for parameters that fit the index type. *)
Definition ready (px : Paxos) : Prop :=
  mHasher px = hash_init (mSeed px) (pWeight (param px)) (pSparseSize (param px)) ∧
  pWeight (param px) ≤ pSparseSize (param px) ∧ (Z.of_nat (pSparseSize (param px)) < 2 ^ 64)%Z ∧
  (Z.of_nat (mNumItems px) < 2 ^ idxBits)%Z ∧ 0 < pSparseSize (param px) ∧
  length (PxUtil.mNodes (mWeightSets px)) ≤ pSparseSize (param px).

Lemma rowOf_ok px x : ready px → length (rowOf px x) = pWeight (param px) ∧ NoDup (rowOf px x) ∧
  ∀ c, c ∈ rowOf px x → c < pSparseSize (param px).
Proof.
  intros (Hh & Hw & _). unfold rowOf. pose proof (row_distinct gf128Mul (mHasher px) (denseOf px x)) as H.
  rewrite Hh in *. destruct (H Hw) as (H1 & H2 & H3). split; [done|]. split; [done|]. by apply Forall_forall.
Qed.

Lemma occ_rows_le rows c : Forall NoDup rows → occ c (concat rows) ≤ length rows.
Proof.
  induction 1 as [|r rows Hr _ IH]; [done|]. cbn [concat length]. rewrite occ_app, (occ_nodup c r Hr).
  destruct (existsb _ _); lia.
Qed.

Definition InputInv (px : Paxos) (inputs : list block) (i : nat) (st : list (list nat) * list block * list nat) : Prop :=
  let '(rows, dense, cw) := st in
  (∃ r, rows = map (rowOf px) (take i inputs) ++ r ∧ length rows = length inputs) ∧
  (∃ d, dense = map (denseOf px) (take i inputs) ++ d ∧ length dense = length inputs) ∧
  length cw = pSparseSize (param px) ∧ ∀ c, nth c cw 0 = occ c (concat (map (rowOf px) (take i inputs))).

Lemma input_rows px inputs i m : ready px → length inputs = mNumItems px →
  Forall NoDup (map (rowOf px) (take i inputs)) ∧ length (map (rowOf px) (take i inputs)) ≤ mNumItems px ∧
  ∀ c, c ∈ concat (map (rowOf px) (slice inputs i m)) → c < pSparseSize (param px).
Proof.
  intros Hr Hl. split; [|split].
  - apply Forall_map, Forall_forall. intros x _. by apply rowOf_ok.
  - rewrite length_map, length_take. lia.
  - intros c Hc. apply list_elem_of_In, in_concat in Hc as (r & Hin & Hc). apply in_map_iff in Hin as (x & <- & _).
    apply list_elem_of_In in Hc. by apply (rowOf_ok px x).
Qed.

Lemma take_slice {A} (l : list A) i m : take (i + m) l = take i l ++ slice l i m.
Proof. unfold slice. symmetry. apply take_take_drop. Qed.

(** The weights after more rows. *)
Lemma count_more px inputs i m cw : ready px → length inputs = mNumItems px → length cw = pSparseSize (param px) →
  (∀ c, nth c cw 0 = occ c (concat (map (rowOf px) (take i inputs)))) →
  let cw' := countCols cw (concat (map (rowOf px) (slice inputs i m))) in
  length cw' = pSparseSize (param px) ∧ ∀ c, nth c cw' 0 = occ c (concat (map (rowOf px) (take (i + m) inputs))).
Proof.
  intros Hr Hl Hcw Hc cw'. assert (Hsum : ∀ c, nth c cw 0 + occ c (concat (map (rowOf px) (slice inputs i m))) =
    occ c (concat (map (rowOf px) (take (i + m) inputs)))).
  { intros c. by rewrite take_slice, map_app, concat_app, occ_app, Hc. }
  destruct (countCols_spec cw (concat (map (rowOf px) (slice inputs i m)))) as [H1 H2].
  - rewrite Hcw. by apply input_rows.
  - intros c. rewrite Hsum. destruct (input_rows px inputs (i + m) 0 Hr Hl) as (Hnd & Hle & _).
    pose proof (occ_rows_le _ c Hnd). destruct Hr as (_ & _ & _ & Hn & _). lia.
  - split; [unfold cw'; lia|]. intros c. unfold cw'. by rewrite H2, Hsum.
Qed.

(** A batch of 32 rows is 32 rows. *)
Lemma hash_batch px l : ready px → length l = 32 →
  hashBuildRow32 gf128Mul libdivide_u64_do hashBlock (mHasher px) l = (map (rowOf px) l, map (denseOf px) l).
Proof.
  intros Hr Hll. unfold hashBuildRow32.
  assert (Hh : map (hashBlock (mAes (mHasher px))) (take 32 l) = map (denseOf px) l) by (by rewrite <- Hll, firstn_all).
  rewrite Hh. f_equal.
  destruct Hr as (Eh & Hw & Hs & _). unfold buildRow32. destruct (Nat.eqb_spec (mWeight (mHasher px)) 3) as [E3|].
  - rewrite Eh in E3. cbn in E3. pose proof (batch_rows gf128Mul libdivide_u64_do libdivide_ok (mSeed px)
      (pWeight (param px)) (pSparseSize (param px)) (map (denseOf px) l)) as HB.
    rewrite length_map in HB. specialize (HB Hll ltac:(lia) Hs). cbv zeta in HB. rewrite <- Eh in HB.
    unfold buildRow32 in HB. rewrite Eh in HB at 1. cbn [mWeight hash_init] in HB. rewrite E3 in HB. cbn [Nat.eqb] in HB.
    rewrite HB. by rewrite map_map.
  - rewrite firstn_all2 by (rewrite length_map; lia). by rewrite map_map.
Qed.

(** A batch of 32 rows and a single row write what [rowOf] and [denseOf] say. *)
Lemma batch_step px inputs b st : ready px → length inputs = mNumItems px → 32 * S b ≤ length inputs →
  InputInv px inputs (32 * b) st →
  InputInv px inputs (32 * S b) (let '(rows, dense, colWeights) := st in
    let i := gPaxosBuildRowSize * b in
    let '(rr, hash) := hashBuildRow32 gf128Mul libdivide_u64_do hashBlock (mHasher px) (slice inputs i gPaxosBuildRowSize) in
    (memcpy rows i rr 0 gPaxosBuildRowSize, memcpy dense i hash 0 gPaxosBuildRowSize, countCols colWeights (concat rr))).
Proof.
  intros Hr Hl Hb H. destruct st as [[rows dense] cw]. destruct H as ((r & Er & Hlr) & (d & Ed & Hld) & Hcw & Hc).
  cbv zeta. unfold gPaxosBuildRowSize, hashBuildRow32. set (i := 32 * b) in *. set (l := slice inputs i 32).
  assert (Hll : length l = 32) by (unfold l; apply slice_length; lia). pose proof (hash_batch px l Hr Hll) as Hb32.
  unfold hashBuildRow32 in Hb32. injection Hb32 as Hrr Hh. rewrite Hh in Hrr |- *.
  rewrite Hrr. replace (32 * S b) with (i + 32) by lia. unfold InputInv.
  destruct (count_more px inputs i 32 cw Hr Hl Hcw Hc) as [C1 C2]. fold l in C1, C2.
  assert (Hmem : ∀ {A} (f : block → A) (x rest : list A), x = map f (take i inputs) ++ rest → length x = length inputs →
    ∃ r, memcpy x i (map f l) 0 32 = map f (take (i + 32) inputs) ++ r ∧ length (memcpy x i (map f l) 0 32) = length inputs).
  { intros A f x rest Ex Hlx. exists (drop (i + 32) x). rewrite memcpy_length by (rewrite ?length_map; lia). split; [|done].
    unfold memcpy. rewrite drop_0, (firstn_all2 (map f l)) by (rewrite length_map; lia). rewrite take_slice, map_app, <- app_assoc. f_equal.
    rewrite Ex. apply take_app_length'. rewrite length_map, length_take. lia. }
  split; [|split; [|done]].
  - destruct (Hmem _ (rowOf px) rows r Er Hlr) as (r' & E & Hl'). by exists r'.
  - destruct (Hmem _ (denseOf px) dense d Ed Hld) as (d' & E & Hl'). by exists d'.
Qed.

Lemma single_step px inputs i st : ready px → length inputs = mNumItems px → i < length inputs → InputInv px inputs i st →
  InputInv px inputs (S i) (let '(rows, dense, colWeights) := st in
    let '(row, hash) := hashBuildRow1 gf128Mul hashBlock (mHasher px) inputs.[i] in
    (<[i := row]> rows, <[i := hash]> dense, countCols colWeights row)).
Proof.
  intros Hr Hl Hi H. destruct st as [[rows dense] cw]. destruct H as ((r & Er & Hlr) & (d & Ed & Hld) & Hcw & Hc).
  unfold hashBuildRow1. fold (denseOf px inputs.[i]). fold (rowOf px inputs.[i]).
  destruct (lookup_lt_is_Some_2 inputs i Hi) as [x Hx]. rewrite (nth_lookup_Some _ _ _ _ Hx).
  assert (Hmem : ∀ {A} (f : block → A) (l rest : list A), l = map f (take i inputs) ++ rest → length l = length inputs →
    ∃ r, <[i := f x]> l = map f (take (S i) inputs) ++ r ∧ length (<[i := f x]> l) = length inputs).
  { intros A f l rest El Hll. exists (drop 1 rest). rewrite length_insert. split; [|done].
    assert (Hli : length (map f (take i inputs)) = i) by (rewrite length_map, length_take; lia).
    rewrite (take_S_r _ _ _ Hx), map_app, <- app_assoc, El. replace i with (length (map f (take i inputs)) + 0) at 1 by lia.
    rewrite insert_app_r. f_equal. destruct rest as [|y rest]; [|done]. rewrite El, app_nil_r in Hll. lia. }
  assert (Hsl : slice inputs i 1 = [x]) by (unfold slice; by rewrite (drop_S _ _ _ Hx)).
  destruct (count_more px inputs i 1 cw Hr Hl Hcw Hc) as [C1 C2]. rewrite Hsl in C1, C2. cbn [map concat] in C1, C2.
  rewrite app_nil_r, Nat.add_1_r in *. split; [|split; [|done]].
  - destruct (Hmem _ (rowOf px) rows r Er Hlr) as (r' & E & Hl'). by exists r'.
  - destruct (Hmem _ (denseOf px) dense d Ed Hld) as (d' & E & Hl'). by exists d'.
Qed.

(** The columns of a matrix as the lists of its rows. *)
Lemma colRows_inv px cw : length cw = pSparseSize (param px) →
  ColInv cw (mCols px, mColBacking px) (fun c => rowsWith (mRows px) c (mNumItems px)) →
  ∀ c, c < pSparseSize (param px) → colRows px c = rowsWith (mRows px) c (mNumItems px).
Proof.
  intros Hl H c Hc. unfold colRows.
  exact (colInv_slice cw _ _ (fun c => rowsWith (mRows px) c (mNumItems px)) c H ltac:(lia)).
Qed.

(** The columns and the buckets of some rows, the end of every [setInput]. *)
Lemma finishInput px cw : rows_ok px → length (mDense px) = mNumItems px → length (mCols px) = pSparseSize (param px) →
  length (mColBacking px) = mNumItems px * pWeight (param px) → length cw = pSparseSize (param px) →
  (∀ c, nth c cw 0 = length (rowsWith (mRows px) c (mNumItems px))) →
  (∀ c, length (rowsWith (mRows px) c (mNumItems px)) < 200) → 0 < pSparseSize (param px) →
  length (PxUtil.mNodes (mWeightSets px)) ≤ pSparseSize (param px) →
  ∃ px', (px1 ← rebuildColumns px cw (pWeight (param px) * mNumItems px);
      wd ← wd_init (mWeightSets px1) cw;
      mret (withWeights px1 wd)) = Ok px' ∧ Matrix px' ∧ param px' = param px ∧ mNumItems px' = mNumItems px ∧
    mRows px' = mRows px ∧ mDense px' = mDense px ∧ mHasher px' = mHasher px ∧ mSeed px' = mSeed px ∧ mAddToDecode px' = mAddToDecode px ∧
    View (mWeightSets px') (pSparseSize (param px)) (fun _ => True) (fun c => length (rowsWith (mRows px') c (mNumItems px))).
Proof.
  intros Hok Hd Hc Hb Hcw Hcw' H200 Hpos Hnodes.
  destruct (rebuildColumns_spec px cw Hok Hd Hc Hb Hcw) as (cols & backing & E & HI); [intros; by rewrite Hcw'|].
  rewrite E. cbn [mbind Res_bind mWeightSets].
  destruct (view_init (mWeightSets px) cw) as (wd & Ewd & HV); [lia|lia| |].
  { apply Forall_lookup_2. intros c x Hx. rewrite <- (nth_lookup_Some _ _ 0 _ Hx), Hcw'. apply H200. }
  rewrite Ewd. cbn [mbind Res_bind]. eexists. split; [done|]. cbn. split; [|split_and!; try done].
  - destruct Hok as [Hk1 Hk2]. split; cbn; try done.
    + exact (colRows_inv (mkPaxos (param px) (mNumItems px) (mSeed px) (mAddToDecode px) (mHasher px) (mDense px) (mRows px) cols backing wd) cw Hcw HI).
    + intros c Hc'. destruct HI as (_ & _ & HI). destruct (HI c ltac:(lia)) as [E' _]. cbn [fst] in E'. by rewrite E'.
  - rewrite Hcw in HV. refine (buckets_ext _ _ _ _ _ _ _ _ HV); [done|]. intros c _. apply Hcw'.
Qed.

(** [setInput] hashes every input to its row, builds the columns and sorts them by weight; it needs every column to have
    fewer than 200 rows. *)
Lemma setInput_spec px inputs : ready px → length inputs = mNumItems px →
  (∀ c, length (rowsWith (map (rowOf px) inputs) c (mNumItems px)) < 200) →
  ∃ px', setInput px inputs = Ok px' ∧ Matrix px' ∧ param px' = param px ∧ mNumItems px' = mNumItems px ∧
    mRows px' = map (rowOf px) inputs ∧ mDense px' = map (denseOf px) inputs ∧
    mHasher px' = mHasher px ∧ mSeed px' = mSeed px ∧ mAddToDecode px' = mAddToDecode px ∧
    View (mWeightSets px') (pSparseSize (param px)) (fun _ => True)
      (fun c => length (rowsWith (mRows px') c (mNumItems px))).
Proof.
  intros Hr Hl H200. unfold setInput. rewrite Hl, Nat.eqb_refl. cbn [negb throw_if mbind Res_bind].
  set (s0 := (mRows (allocate px), mDense (allocate px), replicate (pSparseSize (param (allocate px))) 0)).
  assert (H0 : InputInv px inputs 0 s0).
  { split; [|split; [|split]].
    - eexists. split; [done|]. cbn. by rewrite length_replicate.
    - eexists. split; [done|]. cbn. by rewrite length_replicate.
    - apply length_replicate.
    - intros c. cbn. rewrite nth_lookup. destruct (decide (c < pSparseSize (param px))).
      + by rewrite lookup_replicate_2 by done.
      + rewrite lookup_ge_None_2; [done|]. rewrite length_replicate. lia. }
  pose proof (Nat.div_mod_eq (mNumItems px) 32) as Hdm.
  match goal with |- context [for_ 0 ?n ?f s0] => assert (H1 : InputInv px inputs (32 * n) (for_ 0 n f s0)) end.
  { apply (for_inv (fun b st => InputInv px inputs (32 * b) st)); [lia|exact H0|]. intros b st Hb Hst. unfold gPaxosBuildRowSize in Hb.
    apply (batch_step px inputs b st Hr Hl); [lia|done]. }
  destruct (for_ 0 _ _ s0) as [[rows1 dense1] cw1]. unfold gPaxosBuildRowSize in *.
  match goal with |- context [for_ ?m ?n ?f ?s] => assert (H2 : InputInv px inputs n (for_ m n f s)) end.
  { apply (for_inv (fun i st => InputInv px inputs i st)); [change (mNumItems (allocate px)) with (mNumItems px); lia|exact H1|]. intros i st Hi Hst. apply (single_step px inputs i st Hr Hl); [change (mNumItems (allocate px)) with (mNumItems px) in Hi; lia|done]. }
  destruct (for_ (32 * (mNumItems px / 32)) _ _ _) as [[rows dense] cw]. destruct H2 as ((r & Er & Hlr) & (d & Ed & Hld) & Hcw & Hc).
  change (mNumItems (allocate px)) with (mNumItems px) in *. rewrite <- Hl, firstn_all in Er, Ed, Hc.
  assert (rows = map (rowOf px) inputs) as ->.
  { destruct r as [|y r]; [by rewrite app_nil_r in Er|]. rewrite Er, length_app, length_map in Hlr. cbn in Hlr. lia. }
  assert (dense = map (denseOf px) inputs) as ->.
  { destruct d as [|y d]; [by rewrite app_nil_r in Ed|]. rewrite Ed, length_app, length_map in Hld. cbn in Hld. lia. }
  set (px1 := withRows (allocate px) (map (rowOf px) inputs) (map (denseOf px) inputs)).
  assert (Hok : rows_ok px1).
  { split; [cbn; by rewrite length_map|]. cbn. intros i Hi. rewrite (nth_map (rowOf px) inputs i 0%Z) by lia. by apply rowOf_ok. }
  assert (Hcw' : ∀ c, nth c cw 0 = length (rowsWith (map (rowOf px) inputs) c (mNumItems px))).
  { intros c. rewrite Hc, <- occ_rows; [by rewrite <- Hl, firstn_all2 by (by rewrite length_map)|rewrite length_map; lia|apply Hok]. }
  destruct Hr as (Hh & Hw & Hs & Hn & Hpos & Hnodes).
  destruct (finishInput px1 cw Hok) as (px' & E & HM & E1 & E2 & E3 & E4 & E5 & E6 & E7 & HV); try (cbn; rewrite ?length_map, ?length_replicate; done || lia).
  exists px'. split; [exact E|]. cbn [px1 withRows mNumItems allocate param] in HV. by split_and!.
Qed.

End paxos.
End Paxos.
