(* ===== verification/PaxosTri.v ===== *)
(** The triangulation of VOLE-PSI's solver ([triangulate] in src/volepsi/volePSI/PaxosImpl.h, definitions in Paxos.v): it
    ends, it never takes a column from the wrong bucket, and it puts the matrix in triangular form or finds two rows with
    the same dense part. *)
From stdpp Require Import sets.
From S2P Require Import Prelude Words PxUtil PaxosHash Paxos.
Open Scope nat_scope.

Module PaxosTri.
Import PxUtil PaxosHash Paxos.

(** * Rows that are still to be fixed *)

Definition isSet (rowSet : list bool) (i : nat) : bool := nth i rowSet false.

(** The weight of a column: its rows that are not fixed. *)
Definition left_rows (rowSet : list bool) (rows : list nat) : list nat := List.filter (fun i => negb (isSet rowSet i)) rows.

Lemma left_rows_in rs rows i : i ∈ left_rows rs rows ↔ i ∈ rows ∧ isSet rs i = false.
Proof. unfold left_rows. by rewrite !list_elem_of_In, filter_In, negb_true_iff. Qed.

Lemma left_pos rs rows : 0 < length (left_rows rs rows) ↔ ∃ i, i ∈ rows ∧ isSet rs i = false.
Proof.
  split.
  - intros H. destruct (left_rows rs rows) as [|i l] eqn:E; [cbn in H; lia|]. exists i.
    apply left_rows_in. rewrite E. apply elem_of_cons. by left.
  - intros (i & Hi). apply left_rows_in in Hi. destruct (left_rows rs rows); [by apply not_elem_of_nil in Hi|cbn; lia].
Qed.

Lemma isSet_insert rs i j : i < length rs → isSet (<[i := true]> rs) j = if decide (i = j) then true else isSet rs j.
Proof.
  intros Hi. unfold isSet. rewrite !nth_lookup. case_decide as E; [subst; by rewrite list_lookup_insert_eq|by rewrite list_lookup_insert_ne].
Qed.

Lemma left_none rs i rows : i ∉ rows → i < length rs → left_rows (<[i := true]> rs) rows = left_rows rs rows.
Proof.
  intros Hn Hi. unfold left_rows. apply filter_ext_in. intros j Hj%list_elem_of_In.
  rewrite isSet_insert, decide_False by (done || congruence). done.
Qed.

Lemma left_insert rs rows i : NoDup rows → i < length rs → isSet rs i = false →
  length (left_rows (<[i := true]> rs) rows) = length (left_rows rs rows) - if existsb (Nat.eqb i) rows then 1 else 0.
Proof.
  intros Hnd Hi Hs. induction Hnd as [|j rows Hj Hnd IH]; [done|]. cbn [existsb].
  destruct (Nat.eqb_spec i j) as [<-|Hne].
  - cbn [orb]. pose proof (left_none rs i rows Hj Hi) as E. unfold left_rows in E |- *. cbn [List.filter].
    rewrite isSet_insert, decide_True, Hs, E by done. cbn. lia.
  - cbn [orb]. unfold left_rows in IH |- *. cbn [List.filter]. rewrite isSet_insert, decide_False by done.
    destruct (isSet rs j); cbn [negb]; [done|]. cbn [length]. rewrite IH. destruct (existsb (Nat.eqb i) rows) eqn:Ex; [|lia].
    apply existsb_in in Ex. assert (0 < length (left_rows rs rows)) by (apply left_pos; by exists i).
    unfold left_rows in *. lia.
Qed.

Section tri.
Context (px : Paxos) (HM : Matrix px) (Hsp : mNumItems px + 2 ≤ pSparseSize (param px)) (Hw : 0 < pWeight (param px)).

Notation n := (mNumItems px).
Notation s := (pSparseSize (param px)).
Notation row i := (nth i (mRows px) []).
Notation colOf c := (rowsWith (mRows px) c n).

Definition weightOf (rs : list bool) (X : list nat) (c : nat) : nat :=
  if decide (c ∈ X) then 0 else length (left_rows rs (colOf c)).

Lemma colOf_nodup c : NoDup (colOf c).
Proof. apply NoDup_ListNoDup, List.NoDup_filter, seq_NoDup. Qed.

(** Fewer columns than there are leave another one. *)
Lemma another X c : NoDup X → length X ≤ n → ∃ y, y < s ∧ y ∉ X ∧ y ≠ c.
Proof.
  intros Hnd Hl. destruct (decide (Exists (fun y => y ∉ X ∧ y ≠ c) (seq 0 s))) as [(y & Hy & ?)%Exists_exists|Hno].
  - exists y. apply list_elem_of_In, in_seq in Hy. split; [lia|done].
  - exfalso. apply not_Exists_Forall in Hno; [|intros ?; apply _]. rewrite Forall_forall in Hno.
    assert (length (seq 0 s) ≤ length (c :: X)).
    { apply NoDup_incl_length; [apply seq_NoDup|]. intros y Hy. apply list_elem_of_In in Hy. apply list_elem_of_In. specialize (Hno y Hy).
      apply elem_of_cons. destruct (decide (y = c)); [by left|right]. destruct (decide (y ∈ X)); [done|]. exfalso. by apply Hno. }
    rewrite length_seq in H. cbn in H. lia.
Qed.

(** [fixRow] takes one from the weight of the row's columns. *)
Lemma fixRow_spec X W r wd : NoDup X → length X ≤ n → (∀ c, c ∈ X → W c = 0) → NoDup r → (∀ c, c ∈ r → c < s) →
  View wd s (fun c => c ∉ X) W →
  ∃ wd', fixRow wd r = Ok wd' ∧ View wd' s (fun c => c ∉ X) (fun c => W c - if existsb (Nat.eqb c) r then 1 else 0).
Proof.
  intros HX HXl. unfold fixRow. revert W wd. induction r as [|x r IH]; intros W wd HW Hnd Hr HV.
  - exists wd. split; [done|]. refine (buckets_ext _ _ _ _ _ _ _ _ HV); [done|]. intros c _. cbn. lia.
  - apply NoDup_cons in Hnd as [Hx Hnd]. assert (Hxs : x < s) by (apply Hr; apply elem_of_cons; by left).
    assert (Hr' : ∀ c, c ∈ r → c < s) by (intros; apply Hr; apply elem_of_cons; by right).
    destruct (view_node _ _ _ _ x HV Hxs) as (nd & Hnd' & HWx). cbn [foldR]. rewrite Hnd'. cbn [mbind Res_bind]. rewrite HWx.
    assert (Hxr : existsb (Nat.eqb x) r = false) by (apply not_true_iff_false; by rewrite existsb_in).
    destruct (Nat.eqb_spec (W x) 0) as [E0|Hne].
    + destruct (IH W wd HW Hnd Hr' HV) as (wd' & E & HV'). exists wd'. split; [exact E|].
      refine (buckets_ext _ _ _ _ _ _ _ _ HV'); [done|]. intros c _. cbn [existsb].
      destruct (Nat.eqb_spec c x) as [->|]; [|done]. rewrite E0. lia.
    + assert (HxX : x ∉ X) by (intros H; by apply Hne, HW).
      destruct (view_decrement wd s _ W x HV Hxs HxX) as (wd1 & E1 & HV1).
      { destruct (another X x HX HXl) as (y & ? & ? & ?). by exists y. }
      unfold decementWeight in E1. rewrite E1. cbn [mbind Res_bind].
      assert (HW1 : ∀ c, c ∈ X → (if c =? x then W x - 1 else W c) = 0).
      { intros c Hc. destruct (Nat.eqb_spec c x) as [Ec|]; [by rewrite Ec in Hc|by apply HW]. }
      destruct (IH _ wd1 HW1 Hnd Hr' HV1) as (wd' & E & HV').
      exists wd'. split; [exact E|]. refine (buckets_ext _ _ _ _ _ _ _ _ HV'); [done|]. intros c _. cbn [existsb].
      destruct (Nat.eqb_spec c x) as [->|]; cbn [orb]; [rewrite Hxr; lia|done].
Qed.

(** * One column *)

Definition rowsOf (t : Tri) : list nat := t_mainRows t ++ map fst (t_gapRows t).

(** The state between two rows, when the columns [X] are taken out: the buckets hold the other columns by weight; the rows
    fixed so far are main rows or gap rows, once; every main row has its main column and no earlier one. *)
Record TriOk (t : Tri) (X : list nat) : Prop := {
  to_len : length (t_rowSet t) = n;
  to_view : View (t_wd t) s (fun c => c ∉ X) (weightOf (t_rowSet t) X);
  to_nodup : NoDup X;
  to_cols : ∀ c, c ∈ X → c < s;
  to_size : length (t_mainRows t) = length (t_mainCols t);
  to_once : NoDup (rowsOf t);
  to_set : ∀ i, i ∈ rowsOf t ↔ i < n ∧ isSet (t_rowSet t) i = true;
  to_diag : ∀ k r c, t_mainRows t !! k = Some r → t_mainCols t !! k = Some c → c ∈ row r;
  to_lower : ∀ k j c r, k < j → t_mainCols t !! k = Some c → t_mainRows t !! j = Some r → c ∉ row r;
  to_gap : ∀ r m, (r, m) ∈ t_gapRows t → m ∈ t_mainRows t ∧ (mDense px).[m] ≠ (mDense px).[r] }.

(** The state within the turn of [col]: before its first row, [first] is true and nothing is fixed yet. *)
Record ColOk (X : list nat) (col : nat) (rs0 : list bool) (t : Tri) (first : bool) : Prop := {
  co_tri : TriOk t (X ++ [col]);
  co_cols : t_mainCols t = if first then X else X ++ [col];
  co_done : ∀ c i, c ∈ X → i ∈ colOf c → isSet (t_rowSet t) i = true;
  co_first : if first then t_rowSet t = rs0 else t_mainRows t ≠ [];
  co_mono : ∀ i, isSet rs0 i = true → isSet (t_rowSet t) i = true }.

Definition dup : Prop := ∃ i j, i < n ∧ j < n ∧ i ≠ j ∧ (mDense px).[i] = (mDense px).[j].

Lemma colOf_in c i : i ∈ colOf c ↔ i < n ∧ c ∈ row i.
Proof. apply rowsWith_in. Qed.

Lemma tri_bound t X : TriOk t X → length (t_mainRows t) ≤ n ∧ (∀ i, i < n → isSet (t_rowSet t) i = false → length (t_mainRows t) < n).
Proof.
  intros H. assert (Hb : ∀ l, NoDup (l ++ t_mainRows t) → (∀ x, x ∈ l → x < n) → length (l ++ t_mainRows t) ≤ n).
  { intros l Hnd Hl. apply nodup_bound; [done|]. intros x [Hx|Hx]%elem_of_app; [auto|].
    apply (to_set t X H). apply elem_of_app. by left. }
  pose proof (to_once t X H) as Hnd. unfold rowsOf in Hnd. pose proof Hnd as (Hm & _ & _)%NoDup_app. split.
  - apply (Hb []); [done|]. by intros x []%not_elem_of_nil.
  - intros i Hi Hs. apply Nat.le_succ_l, (Hb [i]).
    + apply NoDup_cons. split; [|done]. intros Hin. assert (i ∈ rowsOf t) as [_ Hs']%(to_set t X H) by (apply elem_of_app; by left).
      congruence.
    + intros x ->%list_elem_of_singleton. done.
Qed.

Lemma last_lookup_S (l : list nat) k x : (l ++ [x]) !! k = if decide (k = length l) then Some x else l !! k.
Proof.
  case_decide as E; [subst; by rewrite list_lookup_middle|]. destruct (decide (k < length l)) as [Hlt|Hge].
  - by rewrite lookup_app_l.
  - rewrite !lookup_ge_None_2; [done|lia|]. rewrite length_app. cbn. lia.
Qed.

(** The buckets after an unset row is fixed. *)
Lemma fix_view wd rs X i : length rs = n → NoDup X → length X ≤ n → i < n → isSet rs i = false →
  View wd s (fun c => c ∉ X) (weightOf rs X) →
  ∃ wd', fixRow wd (row i) = Ok wd' ∧ View wd' s (fun c => c ∉ X) (weightOf (<[i := true]> rs) X).
Proof.
  intros Hl HX HXl Hi Hs HV. destruct (mx_row px HM i Hi) as (_ & Hnd & Hlt).
  destruct (fixRow_spec X (weightOf rs X) (row i) wd HX HXl) as (wd' & E & HV'); try done.
  - intros c Hc. unfold weightOf. by rewrite decide_True.
  - exists wd'. split; [done|]. refine (buckets_ext _ _ _ _ _ _ _ _ HV'); [done|]. intros c Hc. unfold weightOf.
    case_decide; [done|]. rewrite left_insert by (done || apply colOf_nodup || lia). f_equal.
    assert (existsb (Nat.eqb c) (row i) = existsb (Nat.eqb i) (colOf c)) as ->; [|done].
    apply eq_true_iff_eq. rewrite !existsb_in, colOf_in. tauto.
Qed.

(** The rows fixed, as [rowSet] has them, after one more. *)
Lemma set_step t (l : list nat) i : length (t_rowSet t) = n → i < n → isSet (t_rowSet t) i = false →
  (∀ j, j ∈ rowsOf t ↔ j < n ∧ isSet (t_rowSet t) j = true) → (∀ j, j ∈ l ↔ j ∈ rowsOf t ∨ j = i) →
  ∀ j, j ∈ l ↔ j < n ∧ isSet (<[i := true]> (t_rowSet t)) j = true.
Proof.
  intros Hl Hi Hs Hset Hin j. rewrite Hin, Hset, isSet_insert by lia. case_decide as E; [subst; split; tauto|].
  split; [intros [?|?]; [done|congruence]|tauto].
Qed.

Lemma visit_first X col rs0 t i wd : ColOk X col rs0 t true → i ∈ colOf col → isSet (t_rowSet t) i = false →
  View wd s (fun c => c ∉ X ++ [col]) (weightOf (<[i := true]> (t_rowSet t)) (X ++ [col])) →
  ColOk X col rs0 (mkTri wd (<[i := true]> (t_rowSet t)) (t_mainRows t ++ [i]) (t_mainCols t ++ [col]) (t_gapRows t)) false.
Proof.
  intros [HT Hc Hd Hf Hm] [Hi Hir]%colOf_in Hs HV. pose proof HT as [T1 T2 T3 T4 T5 T6 T7 T8 T9 T10]. cbn in Hc, Hf.
  assert (Hnew : i ∉ rowsOf t) by (intros [_ ?]%T7; congruence).
  split; cbn [t_wd t_rowSet t_mainRows t_mainCols t_gapRows].
  - split; cbn [t_wd t_rowSet t_mainRows t_mainCols t_gapRows]; try done.
    + by rewrite length_insert.
    + rewrite !length_app. cbn. lia.
    + unfold rowsOf in T6, Hnew |- *. cbn [t_mainRows t_gapRows]. rewrite <- app_assoc. cbn [app]. apply NoDup_app in T6 as (U1 & U2 & U3).
      apply NoDup_app. split; [done|]. rewrite elem_of_app in Hnew. split.
      * intros x Hx [->|Hx']%elem_of_cons; [tauto|by apply (U2 x)].
      * apply NoDup_cons. split; [tauto|done].
    + apply set_step; try done. intros j. unfold rowsOf. cbn [t_mainRows t_gapRows]. rewrite !elem_of_app, list_elem_of_singleton. tauto.
    + intros k r c. rewrite !last_lookup_S, T5. repeat case_decide; [|apply T8]. by intros [= <-] [= <-].
    + intros k j c r Hkj. rewrite !last_lookup_S, <- T5. case_decide as E1; case_decide as E2; try lia.
      * intros [= <-] Hr. apply lookup_lt_Some in Hr. lia.
      * intros Hk [= <-] Hin. rewrite Hc in Hk. assert (HcX : c ∈ X) by by apply list_elem_of_lookup_2 in Hk.
        rewrite (Hd c i HcX) in Hs; [done|]. by apply colOf_in.
      * by apply T9.
    + intros r m Hg. destruct (T10 r m Hg). split; [|done]. apply elem_of_app. by left.
  - by rewrite Hc.
  - intros c j HcX Hj. rewrite isSet_insert by lia. case_decide; [done|]. by apply (Hd c).
  - by destruct (t_mainRows t).
  - intros j Hj. rewrite isSet_insert by lia. case_decide; [done|]. by apply Hm.
Qed.

Lemma visit_gap X col rs0 t i m wd : ColOk X col rs0 t false → i < n → isSet (t_rowSet t) i = false →
  View wd s (fun c => c ∉ X ++ [col]) (weightOf (<[i := true]> (t_rowSet t)) (X ++ [col])) →
  m ∈ t_mainRows t → (mDense px).[m] ≠ (mDense px).[i] →
  ColOk X col rs0 (mkTri wd (<[i := true]> (t_rowSet t)) (t_mainRows t) (t_mainCols t) (t_gapRows t ++ [(i, m)])) false.
Proof.
  intros [HT Hc Hd Hf Hm] Hi Hs HV Hmm Hden. pose proof HT as [T1 T2 T3 T4 T5 T6 T7 T8 T9 T10]. cbn in Hc, Hf.
  assert (Hnew : i ∉ rowsOf t) by (intros [_ ?]%T7; congruence).
  split; cbn [t_wd t_rowSet t_mainRows t_mainCols t_gapRows]; try done.
  - split; cbn [t_wd t_rowSet t_mainRows t_mainCols t_gapRows]; try done.
    + by rewrite length_insert.
    + unfold rowsOf in T6, Hnew |- *. cbn [t_mainRows t_gapRows]. rewrite map_app, app_assoc. cbn [map fst]. apply NoDup_app. split; [done|].
      split; [|apply NoDup_singleton]. by intros x Hx ->%list_elem_of_singleton.
    + apply set_step; try done. intros j. unfold rowsOf. cbn [t_mainRows t_gapRows]. rewrite map_app, !elem_of_app. cbn [map fst].
      rewrite list_elem_of_singleton. tauto.
    + intros r m' [Hg|Hg]%elem_of_app; [by apply T10|]. apply list_elem_of_singleton in Hg. by injection Hg as -> ->.
  - intros c j HcX Hj. rewrite isSet_insert by lia. case_decide; [done|]. by apply (Hd c).
  - intros j Hj. rewrite isSet_insert by lia. case_decide; [done|]. by apply Hm.
Qed.

(** One row of the column. *)
Lemma visitRow_step X col rs0 t first i : ColOk X col rs0 t first → i ∈ colOf col →
  (∃ t' first', visitRow px col (t, first) i = Ok (t', first') ∧ ColOk X col rs0 t' first' ∧ isSet (t_rowSet t') i = true ∧
     ∀ j, isSet (t_rowSet t) j = true → isSet (t_rowSet t') j = true) ∨
  visitRow px col (t, first) i = Throw RTE_LOC ∧ dup.
Proof.
  intros H Hi. pose proof Hi as [Hin _]%colOf_in. pose proof (co_tri _ _ _ _ _ H) as HT. pose proof (to_len _ _ HT) as Hl.
  unfold visitRow. destruct (lookup_lt_is_Some_2 (t_rowSet t) i ltac:(lia)) as [b Hb]. rewrite Hb. cbn [must mbind Res_bind].
  assert (Hbi : isSet (t_rowSet t) i = b) by (unfold isSet; by apply nth_lookup_Some).
  destruct b; [left; exists t, first; split; [done|]; split; [done|]; split; [done|]; auto|].
  pose proof (mx_rows px HM) as Hrows. destruct (lookup_lt_is_Some_2 (mRows px) i ltac:(lia)) as [r Hr]. rewrite Hr. cbn [must mbind Res_bind].
  rewrite <- (nth_lookup_Some _ _ [] _ Hr).
  assert (Hlen : length (X ++ [col]) ≤ n).
  { destruct (tri_bound _ _ HT) as [_ Hb2]. specialize (Hb2 i Hin Hbi). pose proof (to_size _ _ HT) as Hsz. rewrite (co_cols _ _ _ _ _ H) in Hsz.
    rewrite length_app. cbn. destruct first; rewrite Hsz, ?length_app in Hb2; cbn in Hb2; lia. }
  destruct (fix_view (t_wd t) (t_rowSet t) (X ++ [col]) i Hl (to_nodup _ _ HT) Hlen Hin Hbi (to_view _ _ HT)) as (wd & Ewd & HV).
  rewrite Ewd. cbn [mbind Res_bind]. assert (Hmono : ∀ j, isSet (t_rowSet t) j = true → isSet (<[i:=true]> (t_rowSet t)) j = true).
  { intros j Hj. rewrite isSet_insert by lia. by case_decide. }
  assert (Hi' : isSet (<[i:=true]> (t_rowSet t)) i = true) by (rewrite isSet_insert, decide_True by (done || lia); done).
  destruct first.
  - left. eexists _, _. split; [done|]. split; [by apply visit_first|]. done.
  - pose proof (co_first _ _ _ _ _ H) as Hne. cbn in Hne. destruct (last (t_mainRows t)) as [m|] eqn:El; [|by apply last_None in El].
    cbn [must mbind Res_bind]. apply last_in in El. destruct (Z.eqb_spec ((mDense px).[m]) ((mDense px).[i])) as [E|Hd]; cbn [throw_if mbind Res_bind].
    + right. split; [done|]. assert (m ∈ rowsOf t) as [Hm Hms]%(to_set _ _ HT) by (apply elem_of_app; by left).
      exists m, i. split_and!; try done. congruence.
    + left. eexists _, _. split; [done|]. split; [by apply visit_gap|]. done.
Qed.

(** All the rows of the column. *)
Lemma visit_rows X col rs0 rows t first : ColOk X col rs0 t first → (∀ i, i ∈ rows → i ∈ colOf col) →
  (∃ t' first', foldR (visitRow px col) rows (t, first) = Ok (t', first') ∧ ColOk X col rs0 t' first' ∧
     (∀ i, i ∈ rows → isSet (t_rowSet t') i = true) ∧ ∀ j, isSet (t_rowSet t) j = true → isSet (t_rowSet t') j = true) ∨
  foldR (visitRow px col) rows (t, first) = Throw RTE_LOC ∧ dup.
Proof.
  revert t first. induction rows as [|i rows IH]; intros t first H Hr.
  - left. exists t, first. split; [done|]. split; [done|]. split; [by intros i []%not_elem_of_nil|done].
  - destruct (visitRow_step X col rs0 t first i H) as [(t1 & f1 & E1 & H1 & Hs1 & Hm1)|[E1 Hd]]; [apply Hr, elem_of_cons; by left| |].
    + cbn [foldR]. rewrite E1. cbn [mbind Res_bind].
      destruct (IH t1 f1 H1) as [(t2 & f2 & E2 & H2 & Hs2 & Hm2)|[E2 Hd]]; [intros j Hj; apply Hr, elem_of_cons; by right| |].
      * left. exists t2, f2. split; [done|]. split; [done|]. split; [|auto]. intros j [->|Hj]%elem_of_cons; auto.
      * right. done.
    + right. cbn [foldR]. rewrite E1. done.
Qed.

(** The state between two turns: every row of a main column is fixed. *)
Definition LoopOk (t : Tri) : Prop :=
  TriOk t (t_mainCols t) ∧ ∀ c i, c ∈ t_mainCols t → i ∈ colOf c → isSet (t_rowSet t) i = true.

(** A column is taken out of its bucket. *)
Lemma take_column t : LoopOk t → 1 < length (PxUtil.mWeightSets (t_wd t)) →
  ∃ col wd1 wd2, getMinWeightNode (t_wd t) = Ok col ∧ popNode (t_wd t) col = Ok wd1 ∧ setWeight wd1 col 0 = Ok wd2 ∧
    col < s ∧ (∃ i, i ∈ colOf col ∧ isSet (t_rowSet t) i = false) ∧
    ColOk (t_mainCols t) col (t_rowSet t) (mkTri wd2 (t_rowSet t) (t_mainRows t) (t_mainCols t) (t_gapRows t)) true.
Proof.
  intros [HT Hd] Hsz. pose proof HT as [T1 T2 T3 T4 T5 T6 T7 T8 T9 T10].
  destruct (view_min _ _ _ _ T2 Hsz) as (col & Emin & Hcol & HcX & Hpos & _). unfold weightOf in Hpos. rewrite decide_False in Hpos by done.
  apply left_pos in Hpos. destruct (tri_bound t _ HT) as [Hb _]. rewrite T5 in Hb.
  destruct (view_pop _ _ _ _ col T2 Hcol HcX) as (wd1 & E1 & HV1).
  { destruct (another _ col T3 Hb) as (y & ? & ? & ?). by exists y. }
  destruct (view_set wd1 _ _ _ col 0 HV1 Hcol ltac:(tauto)) as (wd2 & E2 & HV2).
  exists col, wd1, wd2. do 5 (split; [done|]). split; cbn [t_wd t_rowSet t_mainRows t_mainCols t_gapRows]; try done.
  split; cbn [t_wd t_rowSet t_mainRows t_mainCols t_gapRows]; try done.
  - refine (buckets_ext _ _ _ _ _ _ _ _ HV2).
    + intros c _. cbn. rewrite elem_of_app, list_elem_of_singleton. tauto.
    + intros c _. cbn. unfold weightOf. destruct (Nat.eqb_spec c col) as [->|Hne].
      * rewrite decide_True; [done|]. apply elem_of_app. right. by apply list_elem_of_singleton.
      * destruct (decide (c ∈ t_mainCols t)), (decide (c ∈ t_mainCols t ++ [col])) as [Hin|Hin]; try done.
        -- exfalso. apply Hin, elem_of_app. by left.
        -- apply elem_of_app in Hin as [Hin|Hin]; [done|]. by apply list_elem_of_singleton in Hin.
  - apply NoDup_app. split; [done|]. split; [by intros x Hx ->%list_elem_of_singleton|apply NoDup_singleton].
  - intros c [Hc| ->%list_elem_of_singleton]%elem_of_app; auto.
Qed.

Lemma triStep_spec t : LoopOk t → 1 < length (PxUtil.mWeightSets (t_wd t)) →
  (∃ t', triStep px t = Ok t' ∧ LoopOk t' ∧ length (t_mainRows t') = S (length (t_mainRows t))) ∨ triStep px t = Throw RTE_LOC ∧ dup.
Proof.
  intros HL Hsz. destruct (take_column t HL Hsz) as (col & wd1 & wd2 & E1 & E2 & E3 & Hcol & (i & Hi & His) & HC).
  unfold triStep. rewrite E1. cbn [mbind Res_bind]. rewrite E2. cbn [mbind Res_bind]. rewrite E3. cbn [mbind Res_bind].
  rewrite (mx_cols px HM col Hcol).
  destruct (visit_rows _ _ _ (colOf col) _ _ HC ltac:(done)) as [(t' & first & E & H' & Hs & Hm)|[E Hdup]]; rewrite E; cbn [mbind Res_bind].
  2: by right. left. destruct first.
  - pose proof (co_first _ _ _ _ _ H') as Hf. cbn in Hf. specialize (Hs i Hi). congruence.
  - cbn [throw_if mbind Res_bind]. exists t'. split; [done|]. pose proof (co_cols _ _ _ _ _ H') as Hc. cbn in Hc. split.
    + unfold LoopOk. rewrite Hc. split; [apply H'|]. intros c j [Hin| ->%list_elem_of_singleton]%elem_of_app Hj; [|auto].
      by apply (co_done _ _ _ _ _ H' c).
    + destruct HL as [HT _]. rewrite (to_size _ _ (co_tri _ _ _ _ _ H')), (to_size _ _ HT), Hc, length_app. cbn. lia.
Qed.

(** When no column has weight left, every row is fixed. *)
Lemma stop_done t : LoopOk t → length (PxUtil.mWeightSets (t_wd t)) ≤ 1 → ∀ i, i < n → isSet (t_rowSet t) i = true.
Proof.
  intros [HT Hd] Hsz i Hi. destruct (isSet (t_rowSet t) i) eqn:Es; [done|]. exfalso.
  destruct (mx_row px HM i Hi) as (R1 & _ & R3). destruct (row i) as [|c r] eqn:Er; [cbn in R1; lia|].
  assert (Hc : c ∈ c :: r) by (apply elem_of_cons; by left). assert (Hic : i ∈ colOf c) by (apply colOf_in; by rewrite Er).
  assert (HcX : c ∉ t_mainCols t) by (intros HcX; rewrite (Hd c i HcX Hic) in Es; done).
  pose proof (view_done _ _ _ _ (to_view _ _ HT) Hsz c (R3 c Hc) HcX) as H0. unfold weightOf in H0. rewrite decide_False in H0 by done.
  assert (0 < length (left_rows (t_rowSet t) (colOf c))) by (apply left_pos; by exists i). lia.
Qed.

(** The loop ends with its fuel and every row fixed. *)
Lemma triLoop_spec fuel t : LoopOk t → n ≤ fuel + length (t_mainRows t) →
  (∃ t', triLoop fuel px t = Ok t' ∧ LoopOk t' ∧ (∀ i, i < n → isSet (t_rowSet t') i = true) ∧
     length (PxUtil.mWeightSets (t_wd t')) ≤ 1) ∨ triLoop fuel px t = Throw RTE_LOC ∧ dup.
Proof.
  revert t. induction fuel as [|fuel IH]; intros t HL Hf; cbn [triLoop];
    destruct (Nat.leb_spec (length (PxUtil.mWeightSets (t_wd t))) 1) as [Hsz|Hsz].
  1,3: left; exists t; pose proof (stop_done t HL Hsz); auto.
  - exfalso. destruct (take_column t HL Hsz) as (col & _ & _ & _ & _ & _ & _ & (i & [Hi _]%colOf_in & His) & _).
    pose proof (proj2 (tri_bound t _ (proj1 HL)) i Hi His). lia.
  - destruct (triStep_spec t HL Hsz) as [(t' & E & HL' & Hlen)|[E Hdup]]; rewrite E; cbn [mbind Res_bind]; [|by right].
    apply IH; [done|lia].
Qed.

Definition tri0 : Tri := mkTri (mWeightSets px) (replicate n false) [] [] [].

Lemma loop_start : View (mWeightSets px) s (fun _ => True) (fun c => length (colOf c)) → LoopOk tri0.
Proof.
  intros HV. split; [|by intros c i []%not_elem_of_nil]. split; cbn [tri0 t_wd t_rowSet t_mainRows t_mainCols t_gapRows]; try done.
  - apply length_replicate.
  - refine (buckets_ext _ _ _ _ _ _ _ _ HV).
    + intros c _. split; [by intros _ []%not_elem_of_nil|done].
    + intros c _. unfold weightOf. rewrite decide_False by (by intros []%not_elem_of_nil). f_equal.
      unfold left_rows. symmetry. apply forallb_filter_id, forallb_forall. intros i _. unfold isSet. rewrite nth_lookup.
      destruct (replicate n false !! i) eqn:E; [apply lookup_replicate in E as [-> _]; done|done].
  - apply NoDup_nil_2.
  - by intros c []%not_elem_of_nil.
  - apply NoDup_nil_2.
  - intros i. split; [by intros []%not_elem_of_nil|]. intros [Hi Hs]. unfold isSet in Hs. rewrite nth_lookup, lookup_replicate_2 in Hs by done. done.
  - by intros r m []%not_elem_of_nil.
Qed.

End tri.

(** What [triangulate] promises to the solver: the rows are main rows or gap rows, once each; main row [k] has main column
    [k] and none of the earlier ones; a gap row differs from its main row in the dense part;
    the buckets are left with the other columns, without weight. *)
Record Triangular (px : Paxos) (t : Tri) : Prop := {
  tr_size : length (t_mainRows t) = length (t_mainCols t);
  tr_rows : NoDup (rowsOf t) ∧ ∀ i, i ∈ rowsOf t ↔ i < mNumItems px;
  tr_cols : NoDup (t_mainCols t) ∧ ∀ c, c ∈ t_mainCols t → c < pSparseSize (param px);
  tr_diag : ∀ k r c, t_mainRows t !! k = Some r → t_mainCols t !! k = Some c → c ∈ nth r (mRows px) [];
  tr_lower : ∀ k j c r, k < j → t_mainCols t !! k = Some c → t_mainRows t !! j = Some r → c ∉ nth r (mRows px) [];
  tr_gap : ∀ r m, (r, m) ∈ t_gapRows t → m ∈ t_mainRows t ∧ (mDense px).[m] ≠ (mDense px).[r];
  tr_free : View (t_wd t) (pSparseSize (param px)) (fun c => c ∉ t_mainCols t) (fun _ => 0) }.

(** [triangulate] ends with the matrix in triangular form, unless two rows have the same dense part. *)
Lemma triangulate_spec idxBits px :
  Matrix px → 0 < mNumItems px → mNumItems px + 2 ≤ pSparseSize (param px) → 0 < pWeight (param px) →
  View (mWeightSets px) (pSparseSize (param px)) (fun _ => True) (fun c => length (rowsWith (mRows px) c (mNumItems px))) →
  (∃ t, triangulate idxBits px = Ok t ∧ Triangular px t) ∨
  (triangulate idxBits px = Throw RTE_LOC ∧
   ∃ i j, i < mNumItems px ∧ j < mNumItems px ∧ i ≠ j ∧ (mDense px).[i] = (mDense px).[j]).
Proof.
  intros HM Hpos Hs Hw HV. unfold triangulate.
  destruct (Nat.leb_spec (length (PxUtil.mWeightSets (mWeightSets px))) 1) as [Hsz|Hsz].
  { exfalso. destruct (mx_row px HM 0 Hpos) as (R1 & _ & R3). destruct (nth 0 (mRows px) []) as [|c r] eqn:Er; [cbn in R1; lia|].
    assert (Hc : c ∈ c :: r) by (apply elem_of_cons; by left).
    pose proof (view_done _ _ _ _ HV Hsz c (R3 c Hc) ltac:(done)) as H0. cbn in H0.
    assert (H1 : 0 ∈ rowsWith (mRows px) c (mNumItems px)) by (apply rowsWith_in; by rewrite Er).
    destruct (rowsWith _ _ _); [by apply not_elem_of_nil in H1|discriminate]. }
  cbn [mbind Res_bind]. destruct (triLoop_spec px HM Hs Hw (mNumItems px) (tri0 px) (loop_start px HV) ltac:(lia))
    as [(t & E & [HT _] & Hall & _)|[E Hd]]; [left|by right].
  exists t. split; [exact E|]. destruct HT as [T1 T2 T3 T4 T5 T6 T7 T8 T9 T10]. split; try done.
  - split; [done|]. intros i. rewrite T7. split; [tauto|auto].
  - refine (buckets_ext _ _ _ _ _ _ _ _ T2); [done|]. intros c _. unfold weightOf. case_decide; [done|].
    destruct (left_rows (t_rowSet t) _) as [|i l] eqn:El; [done|]. assert (Hi : i ∈ left_rows (t_rowSet t) (rowsWith (mRows px) c (mNumItems px))).
    { rewrite El. apply elem_of_cons. by left. }
    apply left_rows_in in Hi as [[Hi _]%rowsWith_in Hs']. by rewrite (Hall i Hi) in Hs'.
Qed.

(** The weights that [triangulate] takes from the columns when the buckets have been used up. *)
Lemma reinit idxBits px : Matrix px → 0 < pSparseSize (param px) → length (mNodes (mWeightSets px)) ≤ pSparseSize (param px) →
  (∀ c, length (rowsWith (mRows px) c (mNumItems px)) < 200) → (0 ≤ idxBits)%Z → (Z.of_nat (mNumItems px) < 2 ^ idxBits)%Z →
  ∃ wd, wd_init (mWeightSets px) (map (fun i => idx_wrap idxBits (snd (nth i (mCols px) (0, 0)))) (seq 0 (pSparseSize (param px)))) = Ok wd ∧
    View wd (pSparseSize (param px)) (fun _ => True) (fun c => length (rowsWith (mRows px) c (mNumItems px))).
Proof.
  intros HM Hs Hn H200 Hb Hi. set (cw := map _ _).
  assert (Hcw : length cw = pSparseSize (param px)) by (unfold cw; by rewrite length_map, length_seq).
  assert (Hc : ∀ c, c < pSparseSize (param px) → nth c cw 0 = length (rowsWith (mRows px) c (mNumItems px))).
  { intros c Hlt. unfold cw. rewrite (nth_map_seq _ _ _ 0) by done. rewrite (mx_sizes px HM c Hlt). unfold idx_wrap.
    assert (Hle : length (rowsWith (mRows px) c (mNumItems px)) ≤ mNumItems px).
    { unfold rowsWith. rewrite <- (length_seq (mNumItems px) 0) at 2. apply filter_length_le. }
    rewrite Z.mod_small by lia. lia. }
  destruct (view_init (mWeightSets px) cw) as (wd & E & HV); [lia|lia| |].
  { apply Forall_lookup_2. intros c x Hx. pose proof (lookup_lt_Some _ _ _ Hx). rewrite <- (nth_lookup_Some _ _ 0 _ Hx), Hc by lia. apply H200. }
  exists wd. split; [done|]. rewrite Hcw in HV. refine (buckets_ext _ _ _ _ _ _ _ _ HV); [done|]. intros c Hlt. by apply Hc.
Qed.

(** C19 What [triangulate] leaves: the main rows and the gap rows are all the rows, main row [k] contains main column [k] and no
    earlier one; it throws only when two rows have the same dense part. *)
Theorem triangulate_outcome idxBits px :
  Matrix px → 0 < mNumItems px → mNumItems px + 2 ≤ pSparseSize (param px) → 0 < pWeight (param px) →
  View (mWeightSets px) (pSparseSize (param px)) (fun _ => True) (fun c => length (rowsWith (mRows px) c (mNumItems px))) →
  (∃ t, triangulate idxBits px = Ok t ∧ length (t_mainRows t) = length (t_mainCols t) ∧
     t_mainRows t ++ map fst (t_gapRows t) ≡ₚ seq 0 (mNumItems px) ∧ NoDup (t_mainCols t) ∧
     (∀ k j r c, t_mainCols t !! k = Some c → t_mainRows t !! j = Some r →
        (k = j → c ∈ nth r (mRows px) []) ∧ (k < j → c ∉ nth r (mRows px) []))) ∨
  (triangulate idxBits px = Throw RTE_LOC ∧
   ∃ i j, i < mNumItems px ∧ j < mNumItems px ∧ i ≠ j ∧ (mDense px).[i] = (mDense px).[j]).
Proof.
  intros HM Hpos Hs Hw HV. destruct (triangulate_spec idxBits px HM Hpos Hs Hw HV) as [(t & E & HT)|Hd]; [left|by right].
  exists t. split; [done|]. split; [apply (tr_size px t HT)|]. split; [|split; [apply (tr_cols px t HT)|]].
  - apply NoDup_Permutation; [apply (tr_rows px t HT)|apply NoDup_ListNoDup, seq_NoDup|]. intros i. fold (rowsOf t).
    rewrite (proj2 (tr_rows px t HT)), list_elem_of_In, in_seq. lia.
  - intros k j r c Hc Hr. split; [intros ->; by apply (tr_diag px t HT j)|intros Hkj; by apply (tr_lower px t HT k j)].
Qed.

(** Two rows on four columns. *)
Definition twoRows (wd : WeightData) : Paxos :=
  mkPaxos (mkParam 4 1 2 1 40 GF128) 2 0%Z false (hash_init 0%Z 2 4) [5; 7]%Z [[0; 1]; [1; 2]] [(0, 1); (1, 2); (3, 1); (4, 0)] [0; 0; 1; 1] wd.

Lemma twoRows_matrix wd : Matrix (twoRows wd).
Proof.
  split; [done|done| | |].
  - intros [|[|i]] Hi; [| |cbn in Hi; lia]; cbn; (split; [done|]); (split; [apply (bool_decide_unpack _); by vm_compute|]);
      intros c Hc; repeat (apply elem_of_cons in Hc as [->|Hc]; [lia|]); by apply not_elem_of_nil in Hc.
  - intros [|[|[|[|c]]]] Hc; [reflexivity..|cbn in Hc; lia].
  - intros [|[|[|[|c]]]] Hc; [reflexivity..|cbn in Hc; lia].
Qed.

Lemma twoRows_view : ∃ wd, View wd 4 (fun _ => True) (fun c => length (rowsWith [[0; 1]; [1; 2]] c 2)).
Proof.
  destruct (view_init WeightData_new [1; 2; 1; 0]) as (wd & _ & HV); [cbn; lia|cbn; lia|do 4 (apply Forall_cons; split; [lia|]); by apply Forall_nil|].
  exists wd. refine (buckets_ext _ _ _ _ _ _ _ _ HV); [done|]. intros [|[|[|[|c]]]] Hc; [done..|cbn in Hc; lia].
Qed.

Lemma triangulate_outcome_witness : ∃ px, mNumItems px = 2 ∧
  ((∃ t, triangulate 32 px = Ok t ∧ length (t_mainRows t) = length (t_mainCols t) ∧
     t_mainRows t ++ map fst (t_gapRows t) ≡ₚ seq 0 (mNumItems px) ∧ NoDup (t_mainCols t) ∧
     (∀ k j r c, t_mainCols t !! k = Some c → t_mainRows t !! j = Some r →
        (k = j → c ∈ nth r (mRows px) []) ∧ (k < j → c ∉ nth r (mRows px) []))) ∨
  (triangulate 32 px = Throw RTE_LOC ∧
   ∃ i j, i < mNumItems px ∧ j < mNumItems px ∧ i ≠ j ∧ (mDense px).[i] = (mDense px).[j])).
Proof.
  destruct twoRows_view as [wd HV]. exists (twoRows wd). split; [reflexivity|].
  apply (triangulate_outcome 32 (twoRows wd) (twoRows_matrix wd)); [cbn; lia|cbn; lia|cbn; lia|exact HV].
Defined.

End PaxosTri.
