(* ===== verification/Gf128.v ===== *)
(** The field GF(2^128) that the VOLE-PSI solver takes from libOTe as [block::gf128Mul]: its laws as a class, which the solver
    is proved against, and an instance, multiplication modulo x^128 + x^7 + x^2 + x + 1, which shows that the laws can hold. *)
From S2P Require Import Prelude Words.
Open Scope nat_scope.

(** [square n a] is [a] to the power 2^n, [norm n a] to the power 2^n - 1. *)
Section powers.
Context (gf128Mul : block → block → block).
Fixpoint square (n : nat) (a : block) : block :=
  match n with O => a | S n => let b := square n a in gf128Mul b b end.
Fixpoint norm (n : nat) (a : block) : block :=
  match n with O => 1%Z | S n => gf128Mul (norm n a) (square n a) end.
End powers.

(** The documented behaviour of [gf128Mul]: a field on 128-bit blocks whose addition is xor. *)
Class Gf128 (gf128Mul : block → block → block) : Prop := {
  gf_block : ∀ a b, is_block a → is_block b → is_block (gf128Mul a b);
  gf_comm : ∀ a b, is_block a → is_block b → gf128Mul a b = gf128Mul b a;
  gf_assoc : ∀ a b c, is_block a → is_block b → is_block c → gf128Mul (gf128Mul a b) c = gf128Mul a (gf128Mul b c);
  gf_xor : ∀ a b c, is_block a → is_block b → is_block c →
    gf128Mul (Z.lxor a b) c = Z.lxor (gf128Mul a c) (gf128Mul b c);
  gf_one : ∀ a, is_block a → gf128Mul 1%Z a = a;
  gf_order : ∀ a, is_block a → a ≠ 0%Z → norm gf128Mul 128 a = 1%Z }.

Module Gf.

Definition xt (a : Z) : Z := if Z.testbit a 127 then Z.lxor (Z.double a) 0x100000000000000000000000000000087 else Z.double a.

Fixpoint mulN (n : nat) (a b : Z) : Z :=
  match n with O => 0%Z | S n => Z.lxor (if Z.testbit b 0 then a else 0) (mulN n (xt a) (Z.shiftr b 1)) end.
Definition mul (a b : block) : block := mulN 128 a b.

(** * Additive functions *)

Definition additive (f : Z → Z) : Prop := f 0%Z = 0%Z ∧ ∀ a b, f (Z.lxor a b) = Z.lxor (f a) (f b).

Lemma split_top n x : in_word (Z.of_nat (S n)) x →
  x = Z.lxor (if Z.testbit x (Z.of_nat n) then 2 ^ Z.of_nat n else 0) (wrap (Z.of_nat n) x) ∧
  in_word (Z.of_nat n) (wrap (Z.of_nat n) x).
Proof.
  intros Hx. split; [|apply in_word_wrap; lia]. apply Z.bits_inj'. intros i Hi. rewrite Z.lxor_spec, wrap_testbit by lia.
  destruct (Z.ltb_spec i (Z.of_nat n)).
  - destruct (Z.testbit x (Z.of_nat n)); rewrite ?pow2_testbit, ?Z.testbit_0_l by lia; cbn [andb].
    + replace (i =? Z.of_nat n)%Z with false by (symmetry; apply Z.eqb_neq; lia). by rewrite xorb_false_l.
    + by rewrite xorb_false_l.
  - destruct (decide (i = Z.of_nat n)) as [->|].
    + destruct (Z.testbit x (Z.of_nat n)) eqn:E; rewrite ?pow2_testbit, ?Z.testbit_0_l, ?Z.eqb_refl by lia; done.
    + rewrite (testbit_high (Z.of_nat (S n)) x) by (done || lia).
      destruct (Z.testbit x (Z.of_nat n)); rewrite ?pow2_testbit, ?Z.testbit_0_l by lia; [|done].
      by replace (i =? Z.of_nat n)%Z with false by (symmetry; apply Z.eqb_neq; lia).
Qed.

(** Additive functions that agree on the powers of two agree. *)
Lemma additive_ext f g n x : additive f → additive g → in_word (Z.of_nat n) x →
  (∀ i, i < n → f (2 ^ Z.of_nat i)%Z = g (2 ^ Z.of_nat i)%Z) → f x = g x.
Proof.
  intros [f0 Hf] [g0 Hg]. revert x. induction n as [|n IH]; intros x Hx H.
  - destruct Hx as [H1 H2]. change (2 ^ Z.of_nat 0)%Z with 1%Z in H2. replace x with 0%Z by lia. congruence.
  - destruct (split_top n x Hx) as [E Hw]. rewrite E, Hf, Hg, (IH _ Hw) by auto. f_equal.
    destruct (Z.testbit x (Z.of_nat n)); [by apply H; lia|congruence].
Qed.

Lemma double_lxor a b : Z.double (Z.lxor a b) = Z.lxor (Z.double a) (Z.double b).
Proof. rewrite !Z.double_spec, !(Z.mul_comm 2). change 2%Z with (2 ^ 1)%Z. by rewrite <- !Z.shiftl_mul_pow2, Z.shiftl_lxor by lia. Qed.

Lemma xt_additive : additive xt.
Proof.
  split; [reflexivity|]. intros a b. unfold xt. rewrite double_lxor, Z.lxor_spec.
  destruct (Z.testbit a 127), (Z.testbit b 127); cbn [xorb]; try done.
  - by rewrite lxor4, Z.lxor_nilpotent, Z.lxor_0_r.
  - by rewrite lxor_comm3.
  - by rewrite Z.lxor_assoc.
Qed.

Lemma double_testbit a i : (0 < i)%Z → Z.testbit (Z.double a) i = Z.testbit a (i - 1).
Proof. intros. rewrite Z.double_spec, Z.mul_comm. change 2%Z with (2 ^ 1)%Z at 1. by rewrite Z.mul_pow2_bits by lia. Qed.

Lemma xt_block a : is_block a → is_block (xt a).
Proof.
  intros Ha. assert (H0 : (0 ≤ xt a)%Z).
  { unfold xt. destruct Ha as [H _]. destruct (Z.testbit a 127); [apply Z.lxor_nonneg|]; rewrite Z.double_spec; lia. }
  apply in_word_testbit; [lia|done|]. intros i Hi. unfold xt. destruct (Z.testbit a 127) eqn:E.
  - rewrite Z.lxor_spec, double_testbit by lia. change 0x100000000000000000000000000000087%Z with (Z.lxor (2 ^ 128) 135).
    rewrite Z.lxor_spec, pow2_testbit by lia. rewrite (testbit_high 8 135) by (lia || by split).
    destruct (Z.eqb_spec i 128) as [->|]; [change (128 - 1)%Z with 127%Z; by rewrite E|]. by rewrite (testbit_high 128 a) by (done || lia).
  - rewrite double_testbit by lia. destruct (decide (i = 128%Z)) as [->|]; [done|]. apply (testbit_high 128); [done|lia].
Qed.

Lemma mulN_additive_l n b : additive (fun a => mulN n a b).
Proof.
  revert b. induction n as [|n IH]; intros b; cbn [mulN]; [done|]. destruct xt_additive as [x0 Hx]. split.
  - rewrite x0, (proj1 (IH _)). by destruct (Z.testbit b 0).
  - intros a a'. rewrite Hx, (proj2 (IH _)), lxor4. f_equal. by destruct (Z.testbit b 0).
Qed.

Lemma mulN_additive_r n a : additive (mulN n a).
Proof.
  revert a. induction n as [|n IH]; intros a; cbn [mulN]; [done|]. split.
  - rewrite Z.testbit_0_l, Z.shiftr_0_l. by rewrite (proj1 (IH _)).
  - intros b b'. rewrite Z.lxor_spec, Z.shiftr_lxor, (proj2 (IH _)), lxor4. f_equal.
    destruct (Z.testbit b 0), (Z.testbit b' 0); cbn [xorb]; rewrite ?Z.lxor_0_r, ?Z.lxor_nilpotent; done.
Qed.

Lemma mul_block a b : is_block a → is_block (mul a b).
Proof.
  unfold mul. generalize 128 as n. intros n. revert a b. induction n as [|n IH]; intros a b Ha; cbn [mulN]; [by apply in_word_0|].
  apply in_word_lxor; [lia|destruct (Z.testbit b 0); [done|by apply in_word_0]|]. apply IH. by apply xt_block.
Qed.

(** * Multiplication by [b] is a polynomial in [xt] *)

(** Functions that are additive and commute with [xt]. *)
Definition poly (f : Z → Z) : Prop := additive f ∧ ∀ a, f (xt a) = xt (f a).

Lemma mul_poly b : poly (fun a => mul a b).
Proof.
  split; [apply mulN_additive_l|]. unfold mul. generalize 128 as n. intros n. revert b.
  destruct xt_additive as [x0 Hx]. induction n as [|n IH]; intros b a; cbn [mulN]; [done|].
  rewrite Hx, IH. f_equal. by destruct (Z.testbit b 0).
Qed.

(** Such a function commutes with every multiplication. *)
Lemma poly_mul f a b : poly f → f (mul a b) = mul (f a) b.
Proof.
  intros [[f0 Hf] Hx]. unfold mul. generalize 128 as n. intros n. revert a b.
  induction n as [|n IH]; intros a b; cbn [mulN]; [done|].
  rewrite Hf, IH, Hx. f_equal. by destruct (Z.testbit b 0).
Qed.

Lemma mul_1_l a : is_block a → mul 1%Z a = a.
Proof.
  intros Ha. apply (additive_ext (mul 1%Z) (fun x => x) 128); [apply mulN_additive_r|by split|done|].
  intros i Hi. assert (H : forallb (fun i => mul 1%Z (2 ^ Z.of_nat i) =? 2 ^ Z.of_nat i)%Z (seq 0 128) = true) by now vm_compute.
  rewrite forallb_forall in H. apply Z.eqb_eq, H, in_seq. lia.
Qed.

Lemma mul_comm a b : is_block a → is_block b → mul a b = mul b a.
Proof.
  intros Ha Hb. rewrite <- (mul_1_l a Ha) at 1. rewrite <- (mul_1_l b Hb) at 2.
  apply (poly_mul (fun x => mul x b) 1%Z a). apply mul_poly.
Qed.

Lemma mul_swap a b c : mul (mul a b) c = mul (mul a c) b.
Proof. apply (poly_mul (fun x => mul x c)), mul_poly. Qed.

Lemma mul_assoc a b c : is_block a → is_block b → is_block c → mul (mul a b) c = mul a (mul b c).
Proof.
  intros Ha Hb Hc. rewrite (mul_comm a (mul b c)), (mul_comm a b) by (try apply mul_block; done). apply mul_swap.
Qed.

(** * Powers *)

Lemma square_block n a : is_block a → is_block (square mul n a).
Proof. intros Ha. induction n as [|n IH]; [done|]. cbn [square]. by apply mul_block. Qed.

Lemma norm_block n a : is_block a → is_block (norm mul n a).
Proof.
  intros Ha. induction n as [|n IH]; cbn [norm]; [by split|]. apply mul_block. done.
Qed.

Lemma mul_add a b c : is_block a → is_block b → is_block c → mul a (Z.lxor b c) = Z.lxor (mul a b) (mul a c).
Proof. intros. apply mulN_additive_r. Qed.

Lemma lxor_block a b : is_block a → is_block b → is_block (Z.lxor a b).
Proof. intros. by apply in_word_lxor. Qed.

#[local] Hint Resolve mul_block square_block norm_block lxor_block : core.

(** Squaring is additive and multiplicative. *)
Lemma square_lxor n a b : is_block a → is_block b → square mul n (Z.lxor a b) = Z.lxor (square mul n a) (square mul n b).
Proof.
  intros Ha Hb. induction n as [|n IH]; [done|]. cbn [square]. rewrite IH.
  set (x := square mul n a). set (y := square mul n b). assert (Hx : is_block x) by (apply square_block; done).
  assert (Hy : is_block y) by (apply square_block; done).
  pose proof (proj2 (mulN_additive_l 128 (Z.lxor x y)) x y) as E. cbv beta in E. fold (mul (Z.lxor x y) (Z.lxor x y)) in E.
  rewrite E. fold (mul x (Z.lxor x y)) (mul y (Z.lxor x y)). rewrite !mul_add, (mul_comm y x) by done.
  rewrite Z.lxor_assoc, <- (Z.lxor_assoc (mul x y)), Z.lxor_nilpotent, Z.lxor_0_l. done.
Qed.

Lemma mul_mul4 a b c d : is_block a → is_block b → is_block c → is_block d →
  mul (mul a b) (mul c d) = mul (mul a c) (mul b d).
Proof.
  intros. rewrite <- !mul_assoc by auto. f_equal. apply mul_swap.
Qed.

Lemma square_mul n a b : is_block a → is_block b → square mul n (mul a b) = mul (square mul n a) (square mul n b).
Proof.
  intros Ha Hb. induction n as [|n IH]; [done|]. cbn [square]. rewrite IH. by apply mul_mul4; auto.
Qed.

Lemma xt_mul a : is_block a → xt a = mul a 2%Z.
Proof.
  intros Ha. rewrite mul_comm by (done || (split; [lia|reflexivity])).
  rewrite <- (mul_1_l a Ha) at 1. rewrite <- (proj2 (mul_poly a) 1%Z). reflexivity.
Qed.

(** The 128th square is the identity: it fixes 2, which generates the field. *)
Lemma square_2 : square mul 128 2%Z = 2%Z.
Proof. now vm_compute. Qed.

Lemma pow2_block i : i < 128 → is_block (2 ^ Z.of_nat i)%Z.
Proof. intros. split; [lia|]. apply Z.pow_lt_mono_r; lia. Qed.

(** [additive_ext] for functions that are additive on blocks. *)
Lemma block_ext f g x : f 0%Z = g 0%Z →
  (∀ a b, is_block a → is_block b → f (Z.lxor a b) = Z.lxor (f a) (f b)) →
  (∀ a b, is_block a → is_block b → g (Z.lxor a b) = Z.lxor (g a) (g b)) →
  (∀ i, i < 128 → f (2 ^ Z.of_nat i)%Z = g (2 ^ Z.of_nat i)%Z) → is_block x → f x = g x.
Proof.
  intros H0 Hf Hg H. change (is_block x) with (in_word (Z.of_nat 128) x).
  assert (Hn : 128 ≤ 128) by lia. revert Hn. generalize 128 at 1 3 as n. intros n. revert x.
  induction n as [|n IH]; intros x Hn Hx.
  - destruct Hx as [H1 H2]. change (2 ^ Z.of_nat 0)%Z with 1%Z in H2. by replace x with 0%Z by lia.
  - destruct (split_top n x Hx) as [E Hw]. rewrite E.
    assert (Hw' : is_block (wrap (Z.of_nat n) x)) by (apply in_word_weaken with (Z.of_nat n); [lia|done]).
    set (t := if Z.testbit x (Z.of_nat n) then (2 ^ Z.of_nat n)%Z else 0%Z).
    assert (Ht : is_block t) by (unfold t; destruct (Z.testbit x (Z.of_nat n)); [apply pow2_block; lia|by apply in_word_0]).
    rewrite Hf, Hg, (IH _ ltac:(lia) Hw) by done. f_equal. unfold t. destruct (Z.testbit x (Z.of_nat n)); [apply H; lia|done].
Qed.

Lemma double_mul i : S i < 128 → (2 ^ Z.of_nat (S i))%Z = mul (2 ^ Z.of_nat i)%Z 2%Z.
Proof.
  intros Hi. rewrite <- xt_mul by (apply pow2_block; lia). unfold xt. rewrite pow2_testbit by lia.
  replace (127 =? Z.of_nat i)%Z with false by (symmetry; apply Z.eqb_neq; lia).
  by rewrite Z.double_spec, Nat2Z.inj_succ, Z.pow_succ_r by lia.
Qed.

Lemma square_id a : is_block a → square mul 128 a = a.
Proof.
  apply (block_ext (square mul 128) (fun x => x)); [now vm_compute|apply square_lxor|done|].
  induction i as [|i IH]; intros Hi; [now vm_compute|]. rewrite (double_mul i Hi), square_mul, square_2, IH by
    (lia || (apply pow2_block; lia) || (split; [lia|reflexivity])). done.
Qed.

(** * Every nonzero element has the full order *)

Lemma norm_square n a : is_block a → mul (norm mul n a) a = square mul n a.
Proof.
  intros Ha. induction n as [|n IH]; [by apply mul_1_l|]. cbn [norm square].
  rewrite mul_swap, IH. done.
Qed.

Lemma square_sq n a : is_block a → square mul n (mul a a) = square mul (S n) a.
Proof. intros Ha. by rewrite square_mul. Qed.

Lemma norm_sq n a : is_block a → norm mul n (mul a a) = mul (norm mul n a) (norm mul n a).
Proof.
  intros Ha. induction n as [|n IH]; [reflexivity|]. cbn [norm]. rewrite IH, square_sq by done. cbn [square].
  symmetry. by apply mul_mul4; auto.
Qed.

Lemma one_block : is_block 1%Z.
Proof. by split. Qed.

Lemma norm_S n a : is_block a → norm mul (S n) a = mul a (norm mul n (mul a a)).
Proof.
  intros Ha. induction n as [|n IH]; [by apply mul_comm; [apply one_block|]|].
  transitivity (mul (norm mul (S n) a) (square mul (S n) a)); [reflexivity|].
  transitivity (mul a (mul (norm mul n (mul a a)) (square mul n (mul a a)))); [|reflexivity].
  rewrite IH, square_sq by done. apply mul_assoc; auto.
Qed.

(** The product of all conjugates is fixed by squaring. *)
Lemma norm_shift n a : is_block a → square mul (S n) a = a → mul (norm mul (S n) a) (norm mul (S n) a) = norm mul (S n) a.
Proof.
  intros Ha Hs. rewrite <- norm_sq, (norm_S n a) by done. cbn [norm]. rewrite square_sq, Hs by done. apply mul_comm; auto.
Qed.

Lemma norm_fixed a : is_block a → mul (norm mul 128 a) (norm mul 128 a) = norm mul 128 a.
Proof. intros Ha. exact (norm_shift 127 a Ha (square_id a Ha)). Qed.

(** [kernelInv] inverts the additive map [a * a + a], up to the two elements it sends to zero. *)
Definition kernelInv : list Z := [
    0x295ac0b1f4731af9676aac9fa4b20b08; 0xe5da5595ee970b89929959af766af404;
    0xe5da5595ee970b89929959af766af406; 0x4e9826c74350bfe67783f7333404a20c;
    0xe5da5595ee970b89929959af766af402; 0x2aaea79ad7da34b07dc714cb83074e6a;
    0x4e9826c74350bfe67783f7333404a204; 0xcc8095241ae41171f5f3f531d2d9fe18;
    0xe5da5595ee970b89929959af766af412; 0x4e983687d159ce9677cb862e8ac85b44;
    0x2aaea79ad7da34b07dc714cb83074e4a; 0xaae2ab6aaf144aaff73fcb3c06aaff56;
    0x4e9826c74350bfe67783f7333404a244; 0xe62f327ccd5792dd893fe9ca40603f62;
    0xcc8095241ae41171f5f3f531d2d9fe98; 0xab52f0323f47c90be1336bc7d453b626;
    0xe5da5595ee970b89929959af766af512; 0x2abe34bad75338b479a6a089abf4573a;
    0x4e983687d159ce9677cb862e8ac85944; 0x1e8ccb9dcc72f2e1a9cbef8232562fc;
    0x2aaea79ad7da34b07dc714cb83074a4a; 0x2442c3221f3dc1a0ce869b24a80e48c;
    0xaae2ab6aaf144aaff73fcb3c06aaf756; 0xcf64612f39c4323deb3ff936dd9aa228;
    0x4e9826c74350bfe67783f7333404b244; 0xcc911696880d4909f0d5382a57572458;
    0xe62f327ccd5792dd893fe9ca40601f62; 0x4d7cd7cc29d28cf2697f6478e5db2834;
    0xcc8095241ae41171f5f3f531d2d9be98; 0xccc99127569146a7fc0956ca1a5b86a4;
    0xab52f0323f47c90be1336bc7d4533626; 0x65cece94dacd5b1c14f5986b001eeb82;
    0xe5da5595ee970b89929959af766bf512; 0x2b0e7fa2d509ca746fe27169c7c3e73a;
    0x2abe34bad75338b479a6a089abf6573a; 0x65df4d264824132411d3553885980142;
    0x4e983687d159ce9677cb862e8acc5944; 0xcf74f70e70ef2af7ef6fd21d2af671a4;
    0x1e8ccb9dcc72f2e1a9cbef8232d62fc; 0xcec4b9173b16cdf9f91a9d8499490f58;
    0x2aaea79ad7da34b07dc714cb83174a4a; 0x83f16f99175f624799a6cf206b513bdc;
    0x2442c3221f3dc1a0ce869b24aa0e48c; 0x3f562a96a2aa9081b9e27ebe84671c0;
    0xaae2ab6aaf144aaff73fcb3c06eaf756; 0xccc9c07ae11bcce3fcd6d526cddeebd4;
    0xcf64612f39c4323deb3ff936dd1aa228; 0xa95fc803c09556f7e461dfebe8467196;
    0x4e9826c74350bfe67783f7333504b244; 0x4cdc1ab0f0ab5b2e7b20ee03c15c7384;
    0xcc911696880d4909f0d5382a55572458; 0xaaba68961da11d79fb48c8c7fe68cf6a;
    0xe62f327ccd5792dd893fe9ca44601f62; 0xe5db5416ee209847938b5c70638d3bee;
    0x4d7cd7cc29d28cf2697f6478eddb2834; 0x6437818b95e2e76e0b49fa26a7e512ce;
    0xcc8095241ae41171f5f3f531c2d9be98; 0x4cd9020746184ba27868a299022ddf34;
    0xccc99127569146a7fc0956ca3a5b86a4; 0x824171dcefbe4a8b8f1d24e407e8e76c;
    0xab52f0323f47c90be1336bc794533626; 0xe62e22af1f6bf32b88711e202cdc3b5e;
    0x65cece94dacd5b1c14f5986b801eeb82; 0x83f4672b23a92e499aadb85427b54520;
    0xe5da5595ee970b89929959ae766bf512; 0x1040920971720048711dbeccf94c;
    0x2b0e7fa2d509ca746fe2716bc7c3e73a; 0x81edd40a7a7437cb99d6b267d0d7976c;
    0x2abe34bad75338b479a6a08dabf6573a; 0xe46a1e8deccdf96d84dd884d1a5d4462;
    0x65df4d264824132411d3553085980142; 0x804c1cb1eac70f698ab1aeeb3a605920;
    0x4e983687d159ce9677cb863e8acc5944; 0xa94f4b3252499e01e04514377dbd55aa;
    0xcf74f70e70ef2af7ef6fd23d2af671a4; 0xe7d77da5831189d3978a93f3f56f619e;
    0x1e8ccb9dcc72f2e1a9cbeb8232d62fc; 0x4cdd0f362b68e52a7a5109eab0a16ef4;
    0xcec4b9173b16cdf9f91a9d0499490f58; 0xe4329c3d7bf233698830781e88d05912;
    0x2aaea79ad7da34b07dc715cb83174a4a; 0x82082082597387418618bcbfcff334e0;
    0x83f16f99175f624799a6cd206b513bdc; 0x294b124ed1181a846297e291f4adcc3a;
    0x2442c3221f3dc1a0ce86db24aa0e48c; 0xe78fff41144664939b696b666550119e;
    0x3f562a96a2aa9081b9e2febe84671c0; 0xcd78dbfd54a1436beb568d9e63d55a14;
    0xaae2ab6aaf144aaff73fdb3c06eaf756; 0xccdd4e7b1ce38d0ffacabbbeed722b64;
    0xccc9c07ae11bcce3fcd6f526cddeebd4; 0x3e5e1ccb1bf89c61fb4754fa43bbf3c;
    0xcf64612f39c4323deb3fb936dd1aa228; 0xe5da00893461b455926f68f4172caea2;
    0xa95fc803c09556f7e4615febe8467196; 0xe78ae2a77b3e87b1981cf1dccb9d1fd2;
    0x4e9826c74350bfe67782f7333504b244; 0x2912d4222a675b0a6fd777b6c15f72c6;
    0x4cdc1ab0f0ab5b2e7b22ee03c15c7384; 0xe7d6682e58d237f196f8740f85956fd2;
    0xcc911696880d4909f0d1382a55572458; 0xab4366b0764a0b4be46143c933474626;
    0xaaba68961da11d79fb40c8c7fe68cf6a; 0xe7d77d718378aeb397849bb7f7de0d9e;
    0xe62f327ccd5792dd892fe9ca44601f62; 0x64231d9efb5729d60d13f9bd382e380e;
    0xe5db5416ee20984793ab5c70638d3bee; 0x81b51ab7a5fe1499959811bd9a557220;
    0x4d7cd7cc29d28cf2693f6478eddb2834; 0x295ab4bb43072c12678a4ee975a08406;
    0x6437818b95e2e76e0bc9fa26a7e512ce; 0xab0eead38eb165ebef9e1acd25989a26;
    0xcc8095241ae41171f4f3f531c2d9be98; 0x3ba7996db230c0010185b9b29b00000;
    0x4cd9020746184ba27a68a299022ddf34; 0x8210932010890d058261f45338765990;
    0xccc99127569146a7f80956ca3a5b86a4; 0x2a88e0fbb92f0c2c7f14722e3db361fa;
    0x824171dcefbe4a8b871d24e407e8e76c; 0x29b11e87b8989fd86fb067f47d17578a;
    0xab52f0323f47c90bf1336bc794533626; 0x0;
    0xe62e22af1f6bf32ba8711e202cdc3b5e; 0x862e22af1f6bf32ba8711e202cdc3b6c;
    0x65cece94dacd5b1c54f5986b801eeb82; 0x8e8cbdc6770aef73b1ef36f7c270bdac;
    0x83f4672b23a92e491aadb85427b54520; 0x38b21c09fae1613c0db7ed8c3891e6fa
  ]%Z.

Definition applyInv (v : Z) : Z :=
  for_ 0 128 (fun i acc => if Z.testbit v (Z.of_nat i) then Z.lxor acc kernelInv.[i] else acc) 0%Z.

Lemma applyInv_additive : additive applyInv.
Proof.
  split; [reflexivity|]. intros a b. unfold applyInv. generalize 128 as n. induction n as [|n IH]; [reflexivity|].
  rewrite !for_snoc, IH, Z.lxor_spec by lia.
  destruct (Z.testbit a (Z.of_nat n)), (Z.testbit b (Z.of_nat n)); cbn [xorb]; try done.
  - by rewrite lxor4, Z.lxor_nilpotent, Z.lxor_0_r.
  - by rewrite lxor_comm3.
  - by rewrite Z.lxor_assoc.
Qed.

(** An element fixed by squaring is 0 or 1. *)
Lemma fixed_bit e : is_block e → mul e e = e → e = 0%Z ∨ e = 1%Z.
Proof.
  intros He Hf. assert (H : applyInv (Z.lxor (mul e e) e) = Z.lxor e (Z.land e 1)).
  { apply (block_ext (fun e => applyInv (Z.lxor (mul e e) e)) (fun e => Z.lxor e (Z.land e 1))); [reflexivity| | | |done].
    - intros a b Ha Hb. rewrite <- (proj2 applyInv_additive). f_equal. pose proof (square_lxor 1 a b Ha Hb) as E. cbn [square] in E.
      by rewrite E, lxor4.
    - intros a b _ _. rewrite lxor4. f_equal. apply Z.bits_inj'. intros i Hi. rewrite !Z.lxor_spec, !Z.land_spec, Z.lxor_spec.
      destruct (Z.testbit 1 i); rewrite ?andb_true_r, ?andb_false_r; done.
    - intros i Hi. assert (E : forallb (fun i => let e := (2 ^ Z.of_nat i)%Z in
        applyInv (Z.lxor (mul e e) e) =? Z.lxor e (Z.land e 1))%Z (seq 0 128) = true) by now vm_compute.
      rewrite forallb_forall in E. apply Z.eqb_eq, (E i), in_seq. lia. }
  rewrite Hf, Z.lxor_nilpotent, (proj1 applyInv_additive) in H. symmetry in H. apply Z.lxor_eq in H. rewrite H.
  pose proof (Z.land_ones e 1 ltac:(lia)) as E. change (Z.ones 1) with 1%Z in E. rewrite E. change (2 ^ 1)%Z with 2%Z.
  pose proof (Z.mod_pos_bound e 2 ltac:(lia)). lia.
Qed.

Lemma mul_order a : is_block a → a ≠ 0%Z → norm mul 128 a = 1%Z.
Proof.
  intros Ha H0. destruct (fixed_bit (norm mul 128 a)) as [E|E]; [by apply norm_block|by apply norm_fixed| |done].
  exfalso. apply H0. rewrite <- (square_id a Ha), <- (norm_square 128 a Ha), E. apply (mulN_additive_l 128 a).
Qed.

#[export] Instance mul_laws : Gf128 mul.
Proof.
  split; [intros; by apply mul_block|apply mul_comm|apply mul_assoc| |apply mul_1_l|apply mul_order].
  intros a b c _ _ _. apply (mulN_additive_l 128 c).
Qed.

End Gf.
