(* ===== verification/PxVec.v ===== *)
(** The values of the VOLE-PSI solver (PxVector and PxMatrix of src/volepsi/volePSI/PxUtil.h, with blocks as elements): the
    operations of the two [Helper]s as instances of a class, and the laws the solver is proved against, which say that the
    values are a vector space over GF(2^128). A row of a PxMatrix with [mCols] columns is a vector of that length. *)
From stdpp Require Import vector.
From S2P Require Import Prelude Words Gf128.
Open Scope nat_scope.

Module PxVec.

(** [newElement] (and [zerofill]), [add], [multAdd] by a block, [multAdd] by a bit. [assign] is assignment. *)
Class Helper (V : Type) : Type := {
  newElement : V;
  add : V → V → V;
  multAdd : V → V → block → V;
  multAddBit : V → V → bool → V }.

Definition zeroOneMask (bit : bool) : block := if bit then Z.ones 128 else 0%Z.

#[export] Instance PxVector_Helper (gf128Mul : block → block → block) : Helper block := {
  newElement := 0%Z;
  add dst src1 := Z.lxor dst src1;
  multAdd dst src1 m := Z.lxor dst (gf128Mul src1 m);
  multAddBit dst src1 bit := Z.lxor dst (Z.land src1 (zeroOneMask bit)) }.

#[export] Instance PxMatrix_Helper (gf128Mul : block → block → block) (mCols : nat) : Helper (vec block mCols) := {
  newElement := vreplicate mCols 0%Z;
  add dst src1 := vzip_with Z.lxor dst src1;
  multAdd dst src1 m := vzip_with (fun d s => Z.lxor d (gf128Mul s m)) dst src1;
  multAddBit dst src1 bit := vzip_with (fun d s => Z.lxor d (Z.land s (zeroOneMask bit))) dst src1 }.

(** The laws; [vok] are the values that consist of blocks. *)
Class HelperOk (gf128Mul : block → block → block) {V : Type} (H : Helper V) (vok : V → Prop) : Prop := {
  ok_new : vok newElement;
  ok_add : ∀ a b, vok a → vok b → vok (add a b);
  ok_mult : ∀ a b m, vok a → vok b → is_block m → vok (multAdd a b m);
  add_comm : ∀ a b, add a b = add b a;
  add_assoc : ∀ a b c, add a (add b c) = add (add a b) c;
  add_nil : ∀ a, add a a = newElement;
  add_0_r : ∀ a, add a newElement = a;
  mult_add : ∀ a b m, multAdd a b m = add a (multAdd newElement b m);
  mult_dist : ∀ a b m, vok a → vok b → is_block m →
    multAdd newElement (add a b) m = add (multAdd newElement a m) (multAdd newElement b m);
  mult_xor : ∀ a m m', vok a → is_block m → is_block m' →
    multAdd newElement a (Z.lxor m m') = add (multAdd newElement a m) (multAdd newElement a m');
  mult_mult : ∀ a m m', vok a → is_block m → is_block m' →
    multAdd newElement (multAdd newElement a m) m' = multAdd newElement a (gf128Mul m m');
  mult_1 : ∀ a, vok a → multAdd newElement a 1%Z = a;
  bit_add : ∀ a b x, vok b → multAddBit a b x = if x then add a b else a }.

Lemma mask_block b x : is_block b → Z.land b (zeroOneMask x) = if x then b else 0%Z.
Proof.
  intros Hb. destruct x; cbn; [|apply Z.land_0_r]. change 340282366920938463463374607431768211455%Z with (Z.ones 128).
  rewrite Z.land_ones by lia. destruct Hb. by apply Z.mod_small.
Qed.

#[export] Instance PxVector_ok gf128Mul : Gf128 gf128Mul → HelperOk gf128Mul (PxVector_Helper gf128Mul) is_block.
Proof.
  intros G. split; cbn -[zeroOneMask Z.lxor]; intros; rewrite ?Z.lxor_0_l.
  - by apply in_word_0.
  - by apply in_word_lxor.
  - apply in_word_lxor; [lia|done|]. by apply gf_block.
  - apply Z.lxor_comm.
  - by rewrite Z.lxor_assoc.
  - apply Z.lxor_nilpotent.
  - apply Z.lxor_0_r.
  - done.
  - by rewrite gf_xor.
  - rewrite !(gf_comm a) by (try apply in_word_lxor; done || lia). by rewrite gf_xor.
  - by rewrite gf_assoc.
  - rewrite gf_comm, gf_one by (done || by vm_compute). done.
  - rewrite mask_block by done. destruct x; [done|apply Z.lxor_0_r].
Qed.

#[export] Instance PxMatrix_ok gf128Mul mCols : Gf128 gf128Mul →
  HelperOk gf128Mul (PxMatrix_Helper gf128Mul mCols) (fun v => ∀ i, is_block (v !!! i)).
Proof.
  intros G. pose proof (PxVector_ok gf128Mul G) as [B1 B2 B3 B4 B5 B6 B7 B8 B9 B10 B11 B12 B13].
  split; intros; try intros i; try (apply vec_eq; intros i); cbn -[zeroOneMask Z.lxor] in *;
    try (destruct x); rewrite ?vlookup_zip_with, ?vlookup_replicate, ?vlookup_zip_with, ?vlookup_replicate; auto.
Qed.

(** * Sums *)

Section sums.
Context {gf128Mul : block → block → block} {V : Type} {H : Helper V} {vok : V → Prop} {HOk : HelperOk gf128Mul H vok}.

(** [src] times [m]. *)
Definition vmul (src : V) (m : block) : V := multAdd newElement src m.

Definition vsum (l : list V) : V := foldr add newElement l.

Lemma vsum_cons x l : vsum (x :: l) = add x (vsum l).
Proof. done. Qed.

Lemma vadd_0_l a : add newElement a = a.
Proof. rewrite (add_comm (vok:=vok)). apply (add_0_r (vok:=vok)). Qed.
Lemma vadd_0_r a : add a newElement = a.
Proof. apply (add_0_r (vok:=vok)). Qed.
Lemma vadd_comm a b : add a b = add b a.
Proof. apply (add_comm (vok:=vok)). Qed.
Lemma vadd_assoc a b c : add a (add b c) = add (add a b) c.
Proof. apply (add_assoc (vok:=vok)). Qed.
Lemma vadd_nil a : add a a = newElement.
Proof. apply (add_nil (vok:=vok)). Qed.
Lemma vadd_4 a b c d : add (add a b) (add c d) = add (add a c) (add b d).
Proof. rewrite <- !vadd_assoc. f_equal. by rewrite !vadd_assoc, (vadd_comm b). Qed.
Lemma vadd_inv a b c : add a b = c → a = add c b.
Proof. intros <-. by rewrite <- vadd_assoc, vadd_nil, vadd_0_r. Qed.
Lemma vadd_cancel a b : add a b = newElement → a = b.
Proof. intros E%vadd_inv. by rewrite vadd_0_l in E. Qed.

Lemma vsum_1 x : vsum [x] = x.
Proof. apply vadd_0_r. Qed.

Lemma vsum_app l m : vsum (l ++ m) = add (vsum l) (vsum m).
Proof. induction l as [|x l IH]; cbn [app]; [by rewrite vadd_0_l|]. by rewrite !vsum_cons, IH, vadd_assoc. Qed.

Lemma vsum_perm l m : l ≡ₚ m → vsum l = vsum m.
Proof.
  induction 1 as [|x l m _ IH|x y l|l m u _ IH1 _ IH2]; [done| | |congruence]; rewrite !vsum_cons; [congruence|].
  by rewrite !vadd_assoc, (vadd_comm x).
Qed.

Lemma vsum_add {A} (f g : A → V) l : vsum (map (fun x => add (f x) (g x)) l) = add (vsum (map f l)) (vsum (map g l)).
Proof. induction l as [|x l IH]; cbn [map]; [by rewrite vadd_0_l|]. by rewrite !vsum_cons, IH, vadd_4. Qed.

Lemma vsum_0 {A} (f : A → V) l : (∀ x, x ∈ l → f x = newElement) → vsum (map f l) = newElement.
Proof.
  induction l as [|x l IH]; intros Hf; [done|]. cbn [map]. rewrite vsum_cons, Hf by (apply elem_of_cons; by left).
  rewrite IH by (intros; apply Hf, elem_of_cons; by right). apply vadd_0_l.
Qed.

Lemma vsum_ext {A} (f g : A → V) l : (∀ x, x ∈ l → f x = g x) → vsum (map f l) = vsum (map g l).
Proof. intros Hf. f_equal. apply map_ext_in. intros x Hx. by apply Hf, list_elem_of_In. Qed.

(** Two sums may be exchanged. *)
Lemma vsum_swap {A B} (f : A → B → V) l m :
  vsum (map (fun x => vsum (map (f x) m)) l) = vsum (map (fun y => vsum (map (fun x => f x y) l)) m).
Proof.
  induction l as [|x l IH]; cbn [map]; [by rewrite vsum_0|]. rewrite vsum_cons, IH. by rewrite <- vsum_add.
Qed.

Lemma vsum_concat {A} (f : A → V) ll : vsum (map f (concat ll)) = vsum (map (fun l => vsum (map f l)) ll).
Proof. induction ll as [|l ll IH]; [done|]. cbn [concat map]. by rewrite map_app, vsum_app, IH, vsum_cons. Qed.

Lemma vsum_ok l : Forall vok l → vok (vsum l).
Proof. induction 1; cbn; [apply (ok_new (vok:=vok))|by apply (ok_add (vok:=vok))]. Qed.

Lemma vmul_ok a m : vok a → is_block m → vok (vmul a m).
Proof. intros. apply (ok_mult (vok:=vok)); [apply (ok_new (vok:=vok))|done|done]. Qed.

Lemma multAdd_vmul a b m : multAdd a b m = add a (vmul b m).
Proof. apply (mult_add (vok:=vok)). Qed.

Lemma vmul_add a b m : vok a → vok b → is_block m → vmul (add a b) m = add (vmul a m) (vmul b m).
Proof. apply (mult_dist (vok:=vok)). Qed.
Lemma vmul_xor a m m' : vok a → is_block m → is_block m' → vmul a (Z.lxor m m') = add (vmul a m) (vmul a m').
Proof. apply (mult_xor (vok:=vok)). Qed.
Lemma vmul_mul a m m' : vok a → is_block m → is_block m' → vmul (vmul a m) m' = vmul a (gf128Mul m m').
Proof. apply (mult_mult (vok:=vok)). Qed.
Lemma vmul_1 a : vok a → vmul a 1%Z = a.
Proof. apply (mult_1 (vok:=vok)). Qed.
Lemma vmul_0_r a : vok a → vmul a 0%Z = newElement.
Proof. intros Ha. change 0%Z with (Z.lxor 0 0). rewrite vmul_xor by (done || by apply in_word_0). apply vadd_nil. Qed.
Lemma vmul_0_l m : is_block m → vmul newElement m = newElement.
Proof.
  intros Hm. rewrite <- (vadd_0_l newElement) at 1. rewrite vmul_add by (done || apply (ok_new (vok:=vok))). apply vadd_nil.
Qed.

Lemma vmul_sum {A} (f : A → V) l m : (∀ x, x ∈ l → vok (f x)) → is_block m → vmul (vsum (map f l)) m = vsum (map (fun x => vmul (f x) m) l).
Proof.
  intros Hf Hm. induction l as [|x l IH]; cbn [map]; [by apply vmul_0_l|]. rewrite !vsum_cons, vmul_add, IH; [done| | | |done].
  - intros; apply Hf, elem_of_cons; by right.
  - apply Hf, elem_of_cons; by left.
  - apply vsum_ok, Forall_map, Forall_forall. intros y Hy. apply Hf, elem_of_cons. by right.
Qed.

Lemma vsum_seq_1 (f : nat → V) n i : i < n → vsum (map (fun k => if decide (k = i) then f k else newElement) (seq 0 n)) = f i.
Proof.
  intros Hi. replace n with (i + S (n - S i)) by lia. rewrite seq_app, map_app, vsum_app. cbn [seq map]. rewrite vsum_cons.
  rewrite decide_True by done. rewrite !vsum_0; [by rewrite vadd_0_l, vadd_0_r| |]; intros x Hx%list_elem_of_In%in_seq; rewrite decide_False by lia; done.
Qed.

(** Entries that occur an even number of times cancel. *)
Definition occs (c : nat) (l : list nat) : nat := count_occ Nat.eq_dec l c.

Lemma vsum_parity (P : nat → V) l s : (∀ c, c ∈ l → c < s) →
  vsum (map P l) = vsum (map (fun c => if Nat.odd (occs c l) then P c else newElement) (seq 0 s)).
Proof.
  induction l as [|x l IH]; intros Hl; [symmetry; by apply vsum_0|]. cbn [map]. rewrite vsum_cons.
  rewrite IH by (intros; apply Hl, elem_of_cons; by right).
  rewrite <- (vsum_seq_1 P s x) at 1 by (apply Hl, elem_of_cons; by left). rewrite <- vsum_add. apply vsum_ext. intros c _.
  unfold occs. cbn. destruct (Nat.eq_dec x c) as [->|Hne].
  - rewrite decide_True by done. rewrite Nat.odd_succ, <- Nat.negb_odd. destruct (Nat.odd _); cbn; [apply vadd_nil|apply vadd_0_r].
  - rewrite decide_False by congruence. apply vadd_0_l.
Qed.

Lemma vsum_even (P : nat → V) l s : (∀ c, c ∈ l → c < s) → (∀ c, c < s → Nat.even (occs c l) = true ∨ P c = newElement) →
  vsum (map P l) = newElement.
Proof.
  intros Hl He. rewrite (vsum_parity P l s Hl). apply vsum_0. intros c Hc%list_elem_of_In%in_seq.
  destruct (He c ltac:(lia)) as [E|E]; [|by rewrite E; destruct (Nat.odd _)]. by rewrite <- Nat.negb_even, E.
Qed.

End sums.
End PxVec.
