(* ===== verification/GfMat.v ===== *)
(** Inverses over GF(2^128) (gf128Inv and gf128Mul of src/volepsi/volePSI/PaxosImpl.h): of an element, by the addition chain
    for 2^128 - 2, and of a square matrix, by Gauss-Jordan elimination. A Matrix is the list of its rows. *)
From S2P Require Import Prelude Words Gf128 PxVec.
Open Scope nat_scope.

Module GfMat.
Import PxVec.

Section gfmat.
Context (gf128Mul : block → block → block).

(** [gf128Inv(block)] *)
Definition gf128Inv (x : block) : block :=
  snd (for_ 0 7 (fun i '(a, result) =>
    let b := for_ 0 (Nat.shiftl 1 i) (fun _ b => gf128Mul b b) a in
    (gf128Mul a b, if i =? 0 then b else gf128Mul result b)) (x, 0%Z)).

Notation Mtx := (list (list block)).

Definition mget (m : Mtx) (i j : nat) : block := nth j (nth i m []) 0%Z.
Definition mset (m : Mtx) (i j : nat) (v : block) : Mtx := <[i := <[j := v]> (nth i m [])]> m.

(** [std::swap(m(i, k), m(j, k))], [m(i, k) *= c] and [m(j, k) += m(i, k) * c]. *)
Definition swapAt (m : Mtx) (i j k : nat) : Mtx := mset (mset m i k (mget m j k)) j k (mget m i k).
Definition scaleAt (c : block) (i : nat) (m : Mtx) (k : nat) : Mtx := mset m i k (gf128Mul (mget m i k) c).
Definition elimAt (c : block) (i j : nat) (m : Mtx) (k : nat) : Mtx :=
  mset m j k (Z.lxor (mget m j k) (gf128Mul (mget m i k) c)).

(** The row that the pivot search finds: the code compares with one. *)
Definition findPivot (mtx : Mtx) (i n : nat) : option nat :=
  List.find (fun j => (mget mtx j i =? 1)%Z) (seq (S i) (n - S i)).

(** Both matrices undergo the same row operation. *)
Definition both (f : Mtx → nat → Mtx) (n : nat) (st : Mtx * Mtx) : Mtx * Mtx :=
  for_ 0 n (fun k '(mtx, Inv) => (f mtx k, f Inv k)) st.

(** The turn of row [i]; [None] is the early return of the empty matrix. *)
Definition invStep (n i : nat) (st : Mtx * Mtx) : option (Mtx * Mtx) :=
  let st := if (mget (fst st) i i =? 0)%Z then
      match findPivot (fst st) i n with
      | Some j => both (fun m k => swapAt m i j k) n st
      | None => st
      end else st in
  if (mget (fst st) i i =? 0)%Z then None else
  let st := both (scaleAt (gf128Inv (mget (fst st) i i)) i) n st in
  Some (for_ 0 n (fun j st => if negb (j =? i) then both (elimAt (mget (fst st) j i) i j) n st else st) st).

Definition zeroMtx (r c : nat) : Mtx := replicate r (replicate c 0%Z).

Fixpoint invLoop (n k i : nat) (st : Mtx * Mtx) : option (Mtx * Mtx) :=
  match k with O => Some st | S k => st ← invStep n i st; invLoop n k (S i) st end.

Definition idMtx (n : nat) : Mtx := for_ 0 n (fun i Inv => mset Inv i i 1%Z) (zeroMtx n n).

(** [gf128Inv(Matrix)] *)
Definition gf128InvMtx (mtx : Mtx) : Mtx :=
  let n := length mtx in
  match invLoop n n 0 (mtx, idMtx n) with Some (_, Inv) => Inv | None => [] end.

(** [gf128Mul(Matrix, Matrix)] *)
Definition gf128MulMtx (m0 m1 : Mtx) : Mtx :=
  let cols := length (nth 0 m1 []) in
  for_ 0 (length m0) (fun i ret => for_ 0 cols (fun j ret => for_ 0 (length m1) (fun k ret =>
    mset ret i j (Z.lxor (mget ret i j) (gf128Mul (mget m0 i k) (mget m1 k j)))) ret) ret) (zeroMtx (length m0) cols).

(** * The inverse of an element *)

Context (G : Gf128 gf128Mul).
Notation sq := (square gf128Mul).
Notation nm := (norm gf128Mul).

Lemma one_ok : is_block 1%Z.
Proof. by split. Qed.
Lemma zero_ok : is_block 0%Z.
Proof. by apply in_word_0. Qed.
Lemma xor_ok a b : is_block a → is_block b → is_block (Z.lxor a b).
Proof. intros. by apply in_word_lxor. Qed.
Lemma sq_ok n a : is_block a → is_block (sq n a).
Proof. intros Ha. induction n as [|n IH]; [done|]. cbn [square]. by apply (gf_block (gf128Mul:=gf128Mul)). Qed.
Lemma nm_ok n a : is_block a → is_block (nm n a).
Proof. intros Ha. induction n as [|n IH]; [apply one_ok|]. cbn [norm]. apply (gf_block (gf128Mul:=gf128Mul)); [done|by apply sq_ok]. Qed.
Lemma mul_ok a b : is_block a → is_block b → is_block (gf128Mul a b).
Proof. apply gf_block. Qed.
Hint Resolve one_ok zero_ok xor_ok sq_ok nm_ok mul_ok : core.

Lemma gf_0_l a : is_block a → gf128Mul 0 a = 0%Z.
Proof. intros Ha. change 0%Z with (Z.lxor 0 0) at 1. rewrite gf_xor by auto. apply Z.lxor_nilpotent. Qed.

Lemma gf_mul4 a b c d : is_block a → is_block b → is_block c → is_block d →
  gf128Mul (gf128Mul a b) (gf128Mul c d) = gf128Mul (gf128Mul a c) (gf128Mul b d).
Proof.
  intros. rewrite !gf_assoc by auto. f_equal. rewrite <- !gf_assoc by auto. by rewrite (gf_comm b c).
Qed.

Lemma sq_mul n a b : is_block a → is_block b → sq n (gf128Mul a b) = gf128Mul (sq n a) (sq n b).
Proof. intros. induction n as [|n IH]; [done|]. cbn [square]. rewrite IH. apply gf_mul4; auto. Qed.

Lemma sq_add m k a : sq m (sq k a) = sq (m + k) a.
Proof. induction m as [|m IH]; [done|]. cbn [square Nat.add]. by rewrite IH. Qed.

Lemma sq_1 m : sq m 1%Z = 1%Z.
Proof. induction m as [|m IH]; [done|]. cbn [square]. rewrite IH. by apply gf_one. Qed.

Lemma nm_add m k a : is_block a → nm (m + k) a = gf128Mul (nm m a) (sq m (nm k a)).
Proof.
  intros Ha. induction k as [|k IH].
  - rewrite Nat.add_0_r. cbn [norm]. by rewrite sq_1, gf_comm, gf_one by auto.
  - rewrite Nat.add_succ_r. cbn [norm]. rewrite IH, sq_mul, sq_add by auto. by rewrite gf_assoc by auto.
Qed.

Lemma sq_loop n a : for_ 0 n (fun _ b => gf128Mul b b) a = sq n a.
Proof. induction n as [|n IH]; [done|]. rewrite for_snoc by lia. by rewrite IH. Qed.

(** [gf128Inv] is the inverse of every element but zero. *)
Lemma gf128Inv_spec x : is_block x → x ≠ 0%Z → is_block (gf128Inv x) ∧ gf128Mul (gf128Inv x) x = 1%Z.
Proof.
  intros Hx H0. unfold gf128Inv.
  assert (H : ∀ k, 0 < k → let '(a, r) := for_ 0 k (fun i '(a, result) =>
      let b := for_ 0 (Nat.shiftl 1 i) (fun _ b => gf128Mul b b) a in
      (gf128Mul a b, if i =? 0 then b else gf128Mul result b)) (x, 0%Z) in
    a = nm (2 ^ k) x ∧ is_block r ∧ gf128Mul r x = nm (2 ^ k) x).
  { induction k as [|k IH]; intros Hk; [lia|]. rewrite for_snoc by lia. destruct (decide (k = 0)) as [->|Hne].
    - clear IH. change (for_ 0 0 _ _) with (x, 0%Z). cbv beta iota zeta. rewrite sq_loop. cbn. rewrite gf_one by done.
      split; [done|]. split; [auto|]. by apply gf_comm; auto.
    - specialize (IH ltac:(lia)). destruct (for_ 0 k _ _) as [a r]. destruct IH as (-> & Hr & E). rewrite sq_loop.
      rewrite (proj2 (Nat.eqb_neq k 0) Hne), Nat.shiftl_1_l. rewrite Nat.pow_succ_r'. replace (2 * 2 ^ k) with (2 ^ k + 2 ^ k) by lia.
      rewrite nm_add by done. split; [done|]. split; [auto|].
      rewrite gf_assoc, (gf_comm _ x), <- gf_assoc, E by auto. done. }
  specialize (H 7 ltac:(lia)). destruct (for_ 0 7 _ _) as [a r]. destruct H as (_ & Hr & E). cbn [snd]. split; [done|].
  rewrite E. by apply gf_order.
Qed.

(** * Matrices entry by entry *)

Definition dims (n : nat) (m : Mtx) : Prop := length m = n ∧ ∀ i, i < n → length (nth i m []) = n.

Lemma mset_spec n m i k v : dims n m → i < n → k < n → dims n (mset m i k v) ∧
  ∀ a b, mget (mset m i k v) a b = if decide (a = i ∧ b = k) then v else mget m a b.
Proof.
  intros [H1 H2] Hi Hk. unfold mset, mget. split.
  - split; [by rewrite length_insert|]. intros a Ha. rewrite nth_upd by lia. case_decide; [|auto]. rewrite length_insert. auto.
  - intros a b. rewrite nth_upd by lia. case_decide as E; [subst a|by rewrite decide_False by (intros []; congruence)].
    rewrite nth_upd by (rewrite H2; lia). destruct (decide (k = b)) as [Hkb|]; [by rewrite decide_True by (by split)|by rewrite decide_False by (intros [_ ?]; congruence)].
Qed.

(** A loop over the columns whose turn [k] only reads and writes column [k]. *)
Lemma col_loop n m0 (F : Mtx → nat → Mtx) (g : nat → nat → block) : dims n m0 →
  (∀ m k, k < n → dims n m → (∀ a, mget m a k = mget m0 a k) →
    dims n (F m k) ∧ ∀ a b, mget (F m k) a b = if b =? k then g a k else mget m a b) →
  let m' := for_ 0 n (fun k m => F m k) m0 in
  dims n m' ∧ ∀ a b, mget m' a b = if b <? n then g a b else mget m0 a b.
Proof.
  intros Hd HF m'. unfold m'. apply (for_inv (fun k m => dims n m ∧ ∀ a b, mget m a b = if b <? k then g a b else mget m0 a b)).
  - lia.
  - split; [done|]. intros a b. by destruct (Nat.ltb_spec b 0); [lia|].
  - intros k m Hk [D E]. destruct (HF m k ltac:(lia) D) as [D' E'].
    { intros a. rewrite E. by rewrite (proj2 (Nat.ltb_ge k k)) by lia. }
    split; [done|]. intros a b. rewrite E'. destruct (Nat.eqb_spec b k) as [->|Hne].
    + by rewrite (proj2 (Nat.ltb_lt k (S k))) by lia.
    + rewrite E. destruct (Nat.ltb_spec b k), (Nat.ltb_spec b (S k)); done || lia.
Qed.

Lemma both_for f n mtx Inv : both f n (mtx, Inv) = (for_ 0 n (fun k m => f m k) mtx, for_ 0 n (fun k m => f m k) Inv).
Proof. unfold both. induction n as [|n IH]; [done|]. rewrite !for_snoc by lia. by rewrite IH. Qed.

Definition swapRows (i j : nat) (m : Mtx) (a b : nat) : block := mget m (if a =? i then j else if a =? j then i else a) b.
Definition scaleRow (c : block) (i : nat) (m : Mtx) (a b : nat) : block := if a =? i then gf128Mul (mget m i b) c else mget m a b.
Definition elimRow (c : block) (i j : nat) (m : Mtx) (a b : nat) : block :=
  if a =? j then Z.lxor (mget m j b) (gf128Mul (mget m i b) c) else mget m a b.

Lemma swap_spec n i j m : dims n m → i < n → j < n → i ≠ j → let m' := for_ 0 n (fun k m => swapAt m i j k) m in
  dims n m' ∧ ∀ a b, b < n → mget m' a b = swapRows i j m a b.
Proof.
  intros D Hi Hj Hij m'. destruct (col_loop n m (fun m k => swapAt m i j k) (swapRows i j m) D) as [D' E'].
  - intros m1 k Hk D1 E1. unfold swapAt. destruct (mset_spec n m1 i k (mget m1 j k) D1 Hi Hk) as [D2 E2].
    destruct (mset_spec n _ j k (mget m1 i k) D2 Hj Hk) as [D3 E3]. split; [done|]. intros a b. rewrite E3, E2, !E1. unfold swapRows.
    destruct (Nat.eqb_spec b k) as [->|]; [|by rewrite !decide_False by tauto].
    destruct (Nat.eqb_spec a i) as [->|]; [rewrite decide_False by tauto; by rewrite decide_True|].
    destruct (Nat.eqb_spec a j) as [->|]; [by rewrite decide_True|by rewrite !decide_False by tauto].
  - split; [done|]. intros a b Hb. rewrite E'. by rewrite (proj2 (Nat.ltb_lt b n)).
Qed.

Lemma scale_spec n c i m : dims n m → i < n → let m' := for_ 0 n (fun k m => scaleAt c i m k) m in
  dims n m' ∧ ∀ a b, b < n → mget m' a b = scaleRow c i m a b.
Proof.
  intros D Hi m'. destruct (col_loop n m (scaleAt c i) (scaleRow c i m) D) as [D' E'].
  - intros m1 k Hk D1 E1. unfold scaleAt. destruct (mset_spec n m1 i k (gf128Mul (mget m1 i k) c) D1 Hi Hk) as [D2 E2].
    split; [done|]. intros a b. rewrite E2, E1. unfold scaleRow. destruct (Nat.eqb_spec b k) as [->|]; [|by rewrite decide_False by tauto].
    destruct (Nat.eqb_spec a i) as [->|]; [by rewrite decide_True|by rewrite decide_False by tauto].
  - split; [done|]. intros a b Hb. rewrite E'. by rewrite (proj2 (Nat.ltb_lt b n)).
Qed.

Lemma elim_spec n c i j m : dims n m → j < n → let m' := for_ 0 n (fun k m => elimAt c i j m k) m in
  dims n m' ∧ ∀ a b, b < n → mget m' a b = elimRow c i j m a b.
Proof.
  intros D Hj m'. destruct (col_loop n m (elimAt c i j) (elimRow c i j m) D) as [D' E'].
  - intros m1 k Hk D1 E1. unfold elimAt.
    destruct (mset_spec n m1 j k (Z.lxor (mget m1 j k) (gf128Mul (mget m1 i k) c)) D1 Hj Hk) as [D2 E2].
    split; [done|]. intros a b. rewrite E2, !E1. unfold elimRow. destruct (Nat.eqb_spec b k) as [->|]; [|by rewrite decide_False by tauto].
    destruct (Nat.eqb_spec a j) as [->|]; [by rewrite decide_True|by rewrite decide_False by tauto].
  - split; [done|]. intros a b Hb. rewrite E'. by rewrite (proj2 (Nat.ltb_lt b n)).
Qed.

(** * The linear systems *)

Context {V : Type} {H : Helper V} {vok : V → Prop} {HOk : HelperOk gf128Mul H vok}.

Definition rowDot (n : nat) (m : Mtx) (p : nat → V) (a : nat) : V := vsum (map (fun b => vmul (p b) (mget m a b)) (seq 0 n)).

(** [mtx p = Inv x]: what every row operation keeps. *)
Definition Sys (n : nat) (st : Mtx * Mtx) (p x : nat → V) : Prop :=
  ∀ a, a < n → rowDot n (fst st) p a = rowDot n (snd st) x a.

Definition blocks (n : nat) (m : Mtx) : Prop := ∀ a b, a < n → b < n → is_block (mget m a b).

Lemma rowDot_ok n m p a : blocks n m → a < n → (∀ b, b < n → vok (p b)) → vok (rowDot n m p a).
Proof.
  intros Hm Ha Hp. apply vsum_ok, Forall_map, Forall_forall. intros b Hb%list_elem_of_In%in_seq. apply vmul_ok; [apply Hp|apply Hm]; lia.
Qed.

Lemma rowDot_ext n m m' p a a' : (∀ b, b < n → mget m a b = mget m' a' b) → rowDot n m p a = rowDot n m' p a'.
Proof. intros E. apply vsum_ext. intros b Hb%list_elem_of_In%in_seq. by rewrite E by lia. Qed.

Lemma rowDot_scale n c i m m' p : blocks n m → is_block c → i < n → (∀ b, b < n → vok (p b)) →
  (∀ b, b < n → mget m' i b = gf128Mul (mget m i b) c) → rowDot n m' p i = vmul (rowDot n m p i) c.
Proof.
  intros Hm Hc Hi Hp E. unfold rowDot at 2. rewrite vmul_sum; [|intros b Hb%list_elem_of_In%in_seq; apply vmul_ok; [apply Hp|apply Hm]; lia|done].
  apply vsum_ext. intros b Hb%list_elem_of_In%in_seq. rewrite E, vmul_mul by (try apply Hp; try apply Hm; done || lia). done.
Qed.

Lemma rowDot_elim n c i j m m' p : blocks n m → is_block c → i < n → j < n → (∀ b, b < n → vok (p b)) →
  (∀ b, b < n → mget m' j b = Z.lxor (mget m j b) (gf128Mul (mget m i b) c)) →
  rowDot n m' p j = add (rowDot n m p j) (vmul (rowDot n m p i) c).
Proof.
  intros Hm Hc Hi Hj Hp E. unfold rowDot at 3. rewrite vmul_sum; [|intros b Hb%list_elem_of_In%in_seq; apply vmul_ok; [apply Hp|apply Hm]; lia|done].
  unfold rowDot at 2. rewrite <- vsum_add. apply vsum_ext. intros b Hb%list_elem_of_In%in_seq.
  assert (Hpb : vok (p b)) by (apply Hp; lia). assert (H1 : is_block (mget m j b)) by (apply Hm; lia). assert (H2 : is_block (mget m i b)) by (apply Hm; lia).
  rewrite E, vmul_xor, vmul_mul by (auto; lia). done.
Qed.

(** What holds after [i] turns: both matrices consist of blocks, the first [i] columns are those of the identity. *)
Definition InvOk (n i : nat) (st : Mtx * Mtx) : Prop :=
  dims n (fst st) ∧ dims n (snd st) ∧ blocks n (fst st) ∧ blocks n (snd st) ∧
  ∀ a b, a < n → b < i → mget (fst st) a b = if a =? b then 1%Z else 0%Z.

(** From [st] to [st'], and solutions of [st'] are solutions of [st]. *)
Definition keeps (n : nat) (st st' : Mtx * Mtx) : Prop :=
  ∀ p x, (∀ b, b < n → vok (p b)) → (∀ b, b < n → vok (x b)) → Sys n st' p x → Sys n st p x.

Lemma swap_keeps n i j st : InvOk n i st → i < n → i < j → j < n →
  let st' := both (fun m k => swapAt m i j k) n st in InvOk n i st' ∧ keeps n st st' ∧ mget (fst st') i i = mget (fst st) j i.
Proof.
  destruct st as [m v]. intros (D1 & D2 & B1 & B2 & Hid) Hi Hij Hj. cbn [fst snd] in *. cbv zeta. rewrite both_for.
  destruct (swap_spec n i j m D1 Hi Hj ltac:(lia)) as [D1' E1]. destruct (swap_spec n i j v D2 Hi Hj ltac:(lia)) as [D2' E2].
  cbv zeta in *. set (m' := for_ 0 n _ m) in *. set (v' := for_ 0 n _ v) in *. unfold swapRows in E1, E2.
  set (s := fun a => if a =? i then j else if a =? j then i else a).
  assert (Hs : ∀ a, a < n → s a < n ∧ s (s a) = a).
  { intros a Ha. unfold s. destruct (Nat.eqb_spec a i) as [->|]; [|destruct (Nat.eqb_spec a j) as [->|]];
      repeat (case_match; rewrite ?Nat.eqb_eq, ?Nat.eqb_neq in *); lia. }
  split; [|split].
  - split; [done|]. split; [done|]. split; [|split]; cbn [fst snd]; intros a b Ha Hb.
    1-2: rewrite ?E1, ?E2 by done; (apply B1 || apply B2); (done || by apply Hs). rewrite E1 by lia. fold (s a). rewrite Hid by (try apply Hs; lia). unfold s.
    repeat (case_match; rewrite ?Nat.eqb_eq, ?Nat.eqb_neq in *); done || lia.
  - intros p x _ _ HS a Ha. destruct (Hs a Ha) as [Hsa Hss]. specialize (HS (s a) Hsa). cbn [fst snd] in *.
    rewrite (rowDot_ext n m m' p a (s a)), (rowDot_ext n v v' x a (s a)); [done| |]; intros b Hb; rewrite ?E1, ?E2 by done; fold (s (s a)); by rewrite Hss.
  - cbn [fst]. rewrite E1 by done. by rewrite Nat.eqb_refl.
Qed.

Lemma scale_keeps n i st : InvOk n i st → i < n → mget (fst st) i i ≠ 0%Z →
  let st' := both (scaleAt (gf128Inv (mget (fst st) i i)) i) n st in InvOk n i st' ∧ keeps n st st' ∧ mget (fst st') i i = 1%Z.
Proof.
  destruct st as [m v]. intros (D1 & D2 & B1 & B2 & Hid) Hi Hne. cbn [fst snd] in *. cbv zeta. rewrite both_for.
  destruct (gf128Inv_spec (mget m i i) (B1 i i Hi Hi) Hne) as [Hc Hinv]. set (c := gf128Inv (mget m i i)) in *.
  destruct (scale_spec n c i m D1 Hi) as [D1' E1]. destruct (scale_spec n c i v D2 Hi) as [D2' E2].
  cbv zeta in *. set (m' := for_ 0 n _ m) in *. set (v' := for_ 0 n _ v) in *. unfold scaleRow in E1, E2.
  split; [|split].
  - split; [done|]. split; [done|]. split; [|split]; cbn [fst snd]; intros a b Ha Hb.
    1-2: rewrite ?E1, ?E2 by done; destruct (a =? i); [apply mul_ok|]; auto. rewrite E1 by lia. destruct (Nat.eqb_spec a i) as [->|]; [|by apply Hid].
    rewrite Hid by lia. destruct (Nat.eqb_spec i b); [lia|]. by apply gf_0_l.
  - intros p x Hp Hx HS a Ha. specialize (HS a Ha). cbn [fst snd] in *. destruct (decide (a = i)) as [->|Hai].
    + rewrite (rowDot_scale n c i m m' p), (rowDot_scale n c i v v' x) in HS by
        (done || (intros b Hb; rewrite ?E1, ?E2 by done; by rewrite Nat.eqb_refl)).
      assert (Hu : ∀ m0 q, blocks n m0 → (∀ b, b < n → vok (q b)) → vmul (vmul (rowDot n m0 q i) c) (mget m i i) = rowDot n m0 q i).
      { intros m0 q Hm0 Hq. rewrite vmul_mul, Hinv by (try (by apply rowDot_ok); auto). by apply vmul_1, rowDot_ok. }
      rewrite <- (Hu m p), <- (Hu v x) by done. by f_equal.
    + rewrite (rowDot_ext n m m' p a a), (rowDot_ext n v v' x a a); [done| |]; intros b Hb;
        rewrite ?E1, ?E2 by done; by rewrite (proj2 (Nat.eqb_neq a i)).
  - cbn [fst]. rewrite E1, Nat.eqb_refl by done. rewrite gf_comm by auto. done.
Qed.

Lemma elim_keeps n i j st : InvOk n i st → i < n → j < n → j ≠ i → mget (fst st) i i = 1%Z →
  let st' := both (elimAt (mget (fst st) j i) i j) n st in
  InvOk n i st' ∧ keeps n st st' ∧ mget (fst st') j i = 0%Z ∧ ∀ a, a ≠ j → mget (fst st') a i = mget (fst st) a i.
Proof.
  destruct st as [m v]. intros (D1 & D2 & B1 & B2 & Hid) Hi Hj Hji H1. cbn [fst snd] in *. cbv zeta. rewrite both_for.
  set (c := mget m j i) in *. assert (Hc : is_block c) by (by apply B1).
  destruct (elim_spec n c i j m D1 Hj) as [D1' E1]. destruct (elim_spec n c i j v D2 Hj) as [D2' E2].
  cbv zeta in *. set (m' := for_ 0 n _ m) in *. set (v' := for_ 0 n _ v) in *. unfold elimRow in E1, E2.
  split; [|split; [|split]].
  - split; [done|]. split; [done|]. split; [|split]; cbn [fst snd]; intros a b Ha Hb.
    1-2: rewrite ?E1, ?E2 by done; destruct (a =? j); [apply xor_ok; [|apply mul_ok]|]; auto. rewrite E1 by lia. destruct (Nat.eqb_spec a j) as [->|]; [|by apply Hid].
    rewrite !Hid by lia. rewrite (proj2 (Nat.eqb_neq i b)) by lia. rewrite gf_0_l by done. apply Z.lxor_0_r.
  - intros p x Hp Hx HS. assert (Hoth : ∀ a, a < n → a ≠ j → rowDot n m p a = rowDot n v x a).
    { intros a Ha Haj. specialize (HS a Ha). cbn [fst snd] in HS.
      rewrite (rowDot_ext n m m' p a a), (rowDot_ext n v v' x a a); [done| |]; intros b Hb; rewrite ?E1, ?E2 by done; by rewrite (proj2 (Nat.eqb_neq a j)). }
    intros a Ha. cbn [fst snd]. destruct (decide (a = j)) as [->|Haj]; [|by apply Hoth]. specialize (HS j Ha). cbn [fst snd] in HS.
    rewrite (rowDot_elim n c i j m m' p), (rowDot_elim n c i j v v' x), (Hoth i) in HS by
      (done || (intros b Hb; rewrite ?E1, ?E2 by done; by rewrite Nat.eqb_refl) || congruence).
    apply vadd_inv in HS. by rewrite <- vadd_assoc, vadd_nil, vadd_0_r in HS.
  - cbn [fst]. rewrite E1, Nat.eqb_refl, H1, gf_one by done. apply Z.lxor_nilpotent.
  - cbn [fst]. intros a Ha. rewrite E1 by done. by rewrite (proj2 (Nat.eqb_neq a j)).
Qed.

Lemma keeps_refl n st : keeps n st st.
Proof. by intros p x _ _. Qed.
Lemma keeps_trans n st st' st'' : keeps n st st' → keeps n st' st'' → keeps n st st''.
Proof. intros H1 H2 p x Hp Hx HS. by apply H1, H2. Qed.

(** A turn that goes on keeps the system and adds a column of the identity. *)
Lemma invStep_spec n i st st' : InvOk n i st → i < n → invStep n i st = Some st' → InvOk n (S i) st' ∧ keeps n st st'.
Proof.
  intros HI Hi. unfold invStep. set (st1 := if (mget (fst st) i i =? 0)%Z then _ else st).
  assert (H1 : InvOk n i st1 ∧ keeps n st st1).
  { unfold st1. case_match; [|by split; [|apply keeps_refl]]. destruct (findPivot (fst st) i n) as [j|] eqn:E; [|by split; [|apply keeps_refl]].
    apply find_some in E as [E%in_seq _]. destruct (swap_keeps n i j st HI Hi ltac:(lia) ltac:(lia)) as (? & ? & _). done. }
  destruct H1 as [HI1 K1]. clearbody st1. destruct (Z.eqb_spec (mget (fst st1) i i) 0) as [|Hne]; [done|].
  destruct (scale_keeps n i st1 HI1 Hi Hne) as (HI2 & K2 & H2). cbv zeta in *. set (st2 := both _ n st1) in *. clearbody st2.
  intros [= <-].
  assert (HL : ∀ k, k ≤ n → let st3 := for_ 0 k (fun j st => if negb (j =? i) then both (elimAt (mget (fst st) j i) i j) n st else st) st2 in
    InvOk n i st3 ∧ keeps n st2 st3 ∧ mget (fst st3) i i = 1%Z ∧ ∀ a, a < k → a ≠ i → mget (fst st3) a i = 0%Z).
  { induction k as [|k IH]; intros Hk; [split; [done|]; split; [apply keeps_refl|]; split; [done|lia]|]. cbv zeta in *. rewrite for_snoc by lia.
    destruct (IH ltac:(lia)) as (I3 & K3 & O3 & Z3). set (st3 := for_ 0 k _ st2) in *. destruct (Nat.eqb_spec k i) as [->|Hki]; cbn [negb].
    - do 3 (split; [done|]). intros a Ha Hai. apply Z3; lia.
    - destruct (elim_keeps n i k st3 I3 Hi ltac:(lia) Hki O3) as (I4 & K4 & Z4 & R4). split; [done|]. split; [by eapply keeps_trans|].
      split; [rewrite R4 by congruence; done|]. intros a Ha Hai. destruct (decide (a = k)) as [->|]; [done|]. rewrite R4 by done. apply Z3; lia. }
  destruct (HL n ltac:(lia)) as (I3 & K3 & O3 & Z3). cbv zeta in *. split.
  - destruct I3 as (? & ? & ? & ? & Hid). repeat (split; [done|]). intros a b Ha Hb. destruct (decide (b = i)) as [->|]; [|apply Hid; lia].
    destruct (Nat.eqb_spec a i) as [->|]; auto.
  - eapply keeps_trans; [exact K1|]. by eapply keeps_trans.
Qed.

Lemma invLoop_spec n k i st st' : InvOk n i st → i + k = n → invLoop n k i st = Some st' → InvOk n n st' ∧ keeps n st st'.
Proof.
  revert i st. induction k as [|k IH]; intros i st HI Hk E; cbn [invLoop] in E.
  - injection E as <-. replace n with i at 2 by lia. split; [done|apply keeps_refl].
  - destruct (invStep n i st) as [st1|] eqn:E1; [|done]. destruct (invStep_spec n i st st1 HI ltac:(lia) E1) as [H1 K1].
    destruct (IH (S i) st1 H1 ltac:(lia) E) as [H2 K2]. split; [done|]. by eapply keeps_trans.
Qed.

(** * The inverse of a matrix *)

Lemma zeroMtx_spec n : dims n (zeroMtx n n) ∧ ∀ a b, mget (zeroMtx n n) a b = 0%Z.
Proof.
  assert (Hr : ∀ a, nth a (zeroMtx n n) [] = if decide (a < n) then replicate n 0%Z else []).
  { intros a. unfold zeroMtx. rewrite nth_lookup. case_decide; [by rewrite lookup_replicate_2|].
    rewrite lookup_ge_None_2; [done|]. rewrite length_replicate. lia. }
  split.
  - split; [apply length_replicate|]. intros a Ha. rewrite Hr, decide_True by done. apply length_replicate.
  - intros a b. unfold mget. rewrite Hr. case_decide; [|by destruct b]. rewrite nth_lookup. destruct (replicate n 0%Z !! b) eqn:E; [|done].
    by apply lookup_replicate in E as [-> _].
Qed.

Lemma idMtx_spec n : dims n (idMtx n) ∧ ∀ a b, a < n → mget (idMtx n) a b = if a =? b then 1%Z else 0%Z.
Proof.
  unfold idMtx. destruct (zeroMtx_spec n) as [D0 E0].
  loop_inv (fun i Inv => dims n Inv ∧ ∀ a b, mget Inv a b = if (a =? b) && (a <? i) then 1%Z else 0%Z) as HI.
  - lia.
  - split; [done|]. intros a b. rewrite E0. destruct (Nat.ltb_spec a 0); [lia|]. by rewrite andb_false_r.
  - intros i Inv Hi [D E]. destruct (mset_spec n Inv i i 1%Z D ltac:(lia) ltac:(lia)) as [D' E']. split; [done|].
    intros a b. rewrite E', E. case_decide as Hab.
    + destruct Hab as [-> ->]. rewrite Nat.eqb_refl. by rewrite (proj2 (Nat.ltb_lt i (S i))) by lia.
    + destruct (Nat.eqb_spec a b) as [Eab|], (Nat.ltb_spec a i), (Nat.ltb_spec a (S i)); cbn; try done; try lia.
  - destruct HI as [D E]. split; [done|]. intros a b Ha. rewrite E. rewrite (proj2 (Nat.ltb_lt a n)) by done. by rewrite andb_true_r.
Qed.

Lemma rowDot_id n m p a : (∀ b, b < n → mget m a b = if a =? b then 1%Z else 0%Z) → a < n → (∀ b, b < n → vok (p b)) → rowDot n m p a = p a.
Proof.
  intros E Ha Hp. rewrite <- (vsum_seq_1 p n a Ha). apply vsum_ext. intros b Hb%list_elem_of_In%in_seq. rewrite E by lia.
  destruct (Nat.eqb_spec a b) as [->|Hne].
  - rewrite decide_True by done. apply vmul_1, Hp. lia.
  - rewrite decide_False by congruence. apply vmul_0_r, Hp. lia.
Qed.

(** An inverse that is not the empty matrix solves the system. *)
Lemma inv_solves n mtx : dims n mtx → blocks n mtx → gf128InvMtx mtx ≠ [] →
  dims n (gf128InvMtx mtx) ∧ blocks n (gf128InvMtx mtx) ∧
  ∀ x a, (∀ b, b < n → vok (x b)) → a < n → rowDot n mtx (rowDot n (gf128InvMtx mtx) x) a = x a.
Proof.
  intros D B. unfold gf128InvMtx. pose proof (proj1 D) as Hl. rewrite Hl. destruct (idMtx_spec n) as [D0 E0].
  destruct (invLoop n n 0 (mtx, idMtx n)) as [[m v]|] eqn:E; [|done]. intros _.
  assert (H0 : InvOk n 0 (mtx, idMtx n)).
  { split; [done|]. split; [done|]. split; [done|]. split; [|lia]. intros a b Ha Hb. cbn [snd]. rewrite E0 by done. destruct (a =? b); auto. }
  destruct (invLoop_spec n n 0 _ _ H0 ltac:(lia) E) as [(D1 & D2 & B1 & B2 & Hid) K]. cbn [fst snd] in *.
  split; [done|]. split; [done|]. intros x a Hx Ha.
  assert (Hok : ∀ b, b < n → vok (rowDot n v x b)) by (intros; by apply rowDot_ok).
  pose proof (K (rowDot n v x) x Hok Hx) as HS. specialize (HS ltac:(intros c Hc; cbn [fst snd]; rewrite (rowDot_id n m); auto) a Ha).
  cbn [fst snd] in HS. rewrite HS. apply (rowDot_id n (idMtx n)); auto.
Qed.

End gfmat.

(** * Products *)

Section product.
Context (gf128Mul : block → block → block) (G : Gf128 gf128Mul).

Lemma mtx_ext n (m m' : list (list block)) : dims n m → dims n m' → (∀ a b, a < n → b < n → mget m a b = mget m' a b) → m = m'.
Proof.
  intros [H1 H2] [H1' H2'] E. apply (nth_ext _ _ [] []); [lia|]. intros a Ha. apply (nth_ext _ _ 0%Z 0%Z).
  - rewrite H2, H2' by lia. done.
  - intros b Hb. rewrite H2 in Hb by lia. apply E; lia.
Qed.

Definition dot (m0 m1 : list (list block)) (a b k : nat) : block :=
  foldl Z.lxor 0%Z (map (fun k => gf128Mul (mget m0 a k) (mget m1 k b)) (seq 0 k)).

Definition dotStep (m0 m1 : list (list block)) (i j k : nat) (ret : list (list block)) : list (list block) :=
  mset ret i j (Z.lxor (mget ret i j) (gf128Mul (mget m0 i k) (mget m1 k j))).

Lemma mul_entry n m0 m1 ret i j : dims n ret → i < n → j < n → mget ret i j = 0%Z →
  dims n (for_ 0 n (dotStep m0 m1 i j) ret) ∧
  ∀ a b, mget (for_ 0 n (dotStep m0 m1 i j) ret) a b = if decide (a = i ∧ b = j) then dot m0 m1 i j n else mget ret a b.
Proof.
  intros Dr Hi Hj E0. loop_inv (fun k r => dims n r ∧ ∀ a b, mget r a b = if decide (a = i ∧ b = j) then dot m0 m1 i j k else mget ret a b) as HI; [lia| | |done].
  - split; [done|]. intros a b. case_decide as Hab; [|done]. by destruct Hab as [-> ->].
  - intros k r Hk [D E]. destruct (mset_spec n r i j (Z.lxor (mget r i j) (gf128Mul (mget m0 i k) (mget m1 k j))) D Hi Hj) as [D' E'].
    split; [done|]. intros a b. unfold dotStep. rewrite E', !E, (decide_True (P := i = i ∧ j = j)) by done. case_decide; [|done].
    unfold dot. by rewrite seq_S, map_app, foldl_app.
Qed.

Lemma mul_row n m0 m1 ret i : dims n ret → i < n → (∀ b, mget ret i b = 0%Z) →
  let ret' := for_ 0 n (fun j ret => for_ 0 n (dotStep m0 m1 i j) ret) ret in
  dims n ret' ∧ ∀ a b, mget ret' a b = if decide (a = i ∧ b < n) then dot m0 m1 i b n else mget ret a b.
Proof.
  intros Dr Hi E0. cbv zeta. loop_inv (fun j r => dims n r ∧ ∀ a b, mget r a b = if decide (a = i ∧ b < j) then dot m0 m1 i b n else mget ret a b) as HI; [lia| | |done].
  - split; [done|]. intros a b. by rewrite decide_False by lia.
  - intros j r Hj [D E]. destruct (mul_entry n m0 m1 r i j D Hi ltac:(lia)) as [D' E']; [rewrite E, decide_False by lia; apply E0|].
    split; [done|]. intros a b. rewrite E', E. destruct (decide (a = i ∧ b = j)) as [[-> ->]|]; [by rewrite decide_True by lia|].
    destruct (decide (a = i ∧ b < j)); [by rewrite decide_True by lia|by rewrite decide_False by lia].
Qed.

(** The product entry by entry. *)
Lemma gf128MulMtx_spec n m0 m1 : 0 < n → dims n m0 → dims n m1 → dims n (gf128MulMtx gf128Mul m0 m1) ∧
  ∀ a b, a < n → b < n → mget (gf128MulMtx gf128Mul m0 m1) a b = dot m0 m1 a b n.
Proof.
  intros Hn D0 D1. unfold gf128MulMtx. rewrite (proj1 D0), (proj1 D1), (proj2 D1) by done. destruct (zeroMtx_spec n) as [DZ EZ].
  loop_inv (fun i r => dims n r ∧ ∀ a b, (a < i → b < n → mget r a b = dot m0 m1 a b n) ∧ (i ≤ a → mget r a b = 0%Z)) as HI.
  - lia.
  - split; [done|]. intros a b. split; [lia|]. intros _. apply EZ.
  - intros i r Hi [D E]. destruct (mul_row n m0 m1 r i D ltac:(lia)) as [D' E']; [intros b; by apply E|]. split; [exact D'|].
    intros a b. split.
    + intros Ha Hb. rewrite E'. case_decide as Hab; [by destruct Hab as [-> _]|]. apply E; lia.
    + intros Ha. rewrite E', decide_False by lia. apply E. lia.
  - destruct HI as [D E]. split; [done|]. intros a b Ha Hb. by apply E.
Qed.

Lemma foldl_vsum l x : foldl Z.lxor x l = Z.lxor x (vsum (H := PxVector_Helper gf128Mul) l).
Proof. revert x. induction l as [|y l IH]; intros x; cbn [foldl]; [symmetry; apply Z.lxor_0_r|]. by rewrite IH, vsum_cons, Z.lxor_assoc. Qed.

(** C20 The matrix that [gf128Inv] returns is the inverse of its argument, unless it is the empty matrix. *)
Theorem gf128InvMtx_outcome n mtx : 0 < n → dims n mtx → blocks n mtx → gf128InvMtx gf128Mul mtx ≠ [] →
  dims n (gf128InvMtx gf128Mul mtx) ∧ gf128MulMtx gf128Mul mtx (gf128InvMtx gf128Mul mtx) = idMtx n.
Proof.
  intros Hn D B Hne. pose proof (PxVector_ok gf128Mul G) as HOk.
  destruct (inv_solves gf128Mul G (H := PxVector_Helper gf128Mul) (vok := is_block) n mtx D B Hne) as (DI & BI & HS).
  set (Inv := gf128InvMtx gf128Mul mtx) in *. split; [done|]. destruct (gf128MulMtx_spec n mtx Inv Hn D DI) as [DM EM].
  destruct (idMtx_spec n) as [DId EId]. apply (mtx_ext n); [done|done|]. intros a b Ha Hb. rewrite EM, EId by done.
  set (x := fun k => if k =? b then 1%Z else 0%Z). assert (Hx : ∀ k, is_block (x k)) by (intros k; unfold x; destruct (k =? b); [by apply one_ok|by apply zero_ok]).
  specialize (HS x a (fun k _ => Hx k) Ha). unfold dot. rewrite foldl_vsum, Z.lxor_0_l. transitivity (x a); [|done]. rewrite <- HS.
  apply vsum_ext. intros k Hk%list_elem_of_In%in_seq. assert (Hik : is_block (mget Inv k b)) by (apply BI; lia).
  assert (E : rowDot (H := PxVector_Helper gf128Mul) n Inv x k = mget Inv k b).
  { unfold rowDot. rewrite <- (vsum_seq_1 (HOk := HOk) (fun c => mget Inv k c) n b Hb). apply vsum_ext. intros c Hc%list_elem_of_In%in_seq.
    assert (Hkc : is_block (mget Inv k c)) by (apply BI; lia). unfold x, vmul. cbn [multAdd PxVector_Helper newElement]. rewrite Z.lxor_0_l.
    destruct (Nat.eqb_spec c b) as [->|]; [rewrite decide_True by done; by apply gf_one|rewrite decide_False by done; by apply (gf_0_l gf128Mul)]. }
  rewrite E. unfold vmul. cbn [multAdd PxVector_Helper newElement]. rewrite Z.lxor_0_l. apply gf_comm; [apply B; lia|done].
Qed.

(** C39 The pivot search compares with one instead of zero, so that an invertible matrix may be rejected. *)
Theorem gf128InvMtx_rejects : let mtx := [[0; 1]; [2; 0]]%Z in
  gf128InvMtx gf128Mul mtx = [] ∧ gf128MulMtx gf128Mul mtx [[0; gf128Inv gf128Mul 2]; [1; 0]]%Z = idMtx 2.
Proof.
  assert (H2 : is_block 2%Z) by (by split). destruct (gf128Inv_spec gf128Mul G 2%Z H2 ltac:(done)) as [Hb E]. split; [reflexivity|].
  set (c := gf128Inv gf128Mul 2) in *. clearbody c. assert (G0 : ∀ a, is_block a → gf128Mul 0 a = 0%Z) by (apply gf_0_l; done).
  assert (B0 : is_block 0%Z) by by apply zero_ok. assert (B1 : is_block 1%Z) by by apply one_ok.
  unfold gf128MulMtx, idMtx. cbn -[Z.lxor]. rewrite !G0, !gf_one by done. rewrite !(gf_comm 2), E, G0, !Z.lxor_0_r by done.
  done.
Qed.

End product.
Lemma gf128InvMtx_outcome_witness : let mtx := [[1; 2]; [0; 1]]%Z in
  gf128InvMtx Gf.mul mtx ≠ [] ∧ gf128MulMtx Gf.mul mtx (gf128InvMtx Gf.mul mtx) = idMtx 2.
Proof.
  assert (Hne : gf128InvMtx Gf.mul [[1; 2]; [0; 1]]%Z ≠ []) by (by vm_compute). split; [exact Hne|].
  apply (gf128InvMtx_outcome Gf.mul Gf.mul_laws 2); [lia| | |exact Hne].
  - split; [done|]. intros [|[|i]] Hi; [done..|lia].
  - intros [|[|a]] [|[|b]] Ha Hb; lia || (by split).
Defined.

Lemma gf128InvMtx_rejects_witness : Gf128 Gf.mul ∧ gf128InvMtx Gf.mul [[0; 1]; [2; 0]]%Z = [] ∧
  gf128MulMtx Gf.mul [[0; 1]; [2; 0]]%Z [[0; gf128Inv Gf.mul 2]; [1; 0]]%Z = idMtx 2.
Proof. exact (conj Gf.mul_laws (gf128InvMtx_rejects Gf.mul Gf.mul_laws)). Defined.

End GfMat.
