(* ===== verification/PaxosFc.v ===== *)
(** The matrix F C^-1 of VOLE-PSI's solver ([getFCInv] in src/volepsi/volePSI/PaxosImpl.h): for every gap row, the main rows
    whose sum cancels it on the main columns. *)
From stdpp Require Import sets.
From S2P Require Import Prelude Words PxUtil PaxosHash Paxos PaxosTri Gf128 PxVec.
Open Scope nat_scope.

Module PaxosFc.
Import PxUtil PaxosHash Paxos PaxosTri.

(** A [std::set] with [std::greater] is the list of its elements in descending order. *)
Fixpoint set_insert (x : nat) (l : list nat) : list nat :=
  match l with
  | [] => [x]
  | y :: l' => if y =? x then l else if y <? x then x :: l else y :: set_insert x l'
  end.
Definition set_erase (x : nat) (l : list nat) : list nat := List.filter (fun y => negb (y =? x)) l.
Definition set_find (x : nat) (l : list nat) : bool := existsb (Nat.eqb x) l.

(** The column of C that is column [c] of H; [None] is [IdxType(-1)]. *)
Definition colMapping (px : Paxos) (t : Tri) : list (option nat) :=
  let m := length (t_mainRows t) in
  for_ 0 m (fun i cm => <[nth (m - i - 1) (t_mainCols t) 0 := Some i]> cm) (replicate (param_size (param px)) None).

Definition mapped (cm : list (option nat)) (c : nat) : option nat := nth c cm None.

(** The loop that cancels the row of F; the number of main rows is enough fuel. *)
Fixpoint fcLoop (fuel : nat) (px : Paxos) (t : Tri) (cm : list (option nat)) (row mtx : list nat) : Res (list nat) :=
  match row with
  | [] => Ok mtx
  | CCol :: _ =>
      match fuel with
      | O => Throw undefined
      | S fuel =>
          let HRow := nth (length (t_mainRows t) - CCol - 1) (t_mainRows t) 0 in
          let row := foldl (fun row HCol =>
            match mapped cm HCol with
            | Some CCol2 => if set_find CCol2 row then set_erase CCol2 row else set_insert CCol2 row
            | None => row
            end) row (nth HRow (mRows px) []) in
          fcLoop fuel px t cm row (mtx ++ [HRow])
      end
  end.

Definition fcRow (px : Paxos) (t : Tri) (gap : nat * nat) : Res (list nat) :=
  if decide (nth (fst gap) (mRows px) [] = nth (snd gap) (mRows px) []) then Ok [snd gap] else
  let cm := colMapping px t in
  let row := foldl (fun row c1 => match mapped cm c1 with Some c => set_insert c row | None => row end) [] (nth (fst gap) (mRows px) []) in
  fcLoop (length (t_mainRows t)) px t cm row [].

Definition getFCInv (px : Paxos) (t : Tri) : Res (list (list nat)) :=
  foldR (fun ret gap => mtx ← fcRow px t gap; mret (ret ++ [mtx])) (t_gapRows t) [].

(** * Descending lists *)

Inductive desc : list nat → Prop :=
  | desc_nil : desc []
  | desc_cons x l : desc l → Forall (fun y => y < x) l → desc (x :: l).

Lemma set_insert_spec x l : desc l → desc (set_insert x l) ∧ ∀ y, y ∈ set_insert x l ↔ y = x ∨ y ∈ l.
Proof.
  induction 1 as [|y l Hd IH Hf].
  - split; [repeat constructor|]. intros y. cbn. rewrite elem_of_cons. done.
  - destruct IH as [IH1 IH2]. cbn [set_insert]. destruct (Nat.eqb_spec y x) as [->|Hne]; [|destruct (Nat.ltb_spec y x)].
    + split; [by constructor|]. intros z. rewrite elem_of_cons. tauto.
    + split; [|intros z; by rewrite elem_of_cons]. constructor; [by constructor|]. constructor; [done|].
      eapply Forall_impl; [exact Hf|]. cbn. lia.
    + split; [|intros z; rewrite !elem_of_cons, IH2; tauto]. constructor; [done|]. apply Forall_forall. intros z [->|Hz]%IH2; [lia|].
      rewrite Forall_forall in Hf. auto.
Qed.

Lemma set_erase_spec x l : desc l → desc (set_erase x l) ∧ ∀ y, y ∈ set_erase x l ↔ y ≠ x ∧ y ∈ l.
Proof.
  intros Hd. assert (Hin : ∀ y l, y ∈ set_erase x l ↔ y ≠ x ∧ y ∈ l).
  { intros y l'. unfold set_erase. rewrite !list_elem_of_In, filter_In, negb_true_iff, Nat.eqb_neq. tauto. }
  split; [|intros; apply Hin]. induction Hd as [|y l Hd IH Hf]; [constructor|]. cbn. destruct (y =? x); cbn; [done|].
  constructor; [done|]. apply Forall_forall. intros z [_ Hz]%Hin. rewrite Forall_forall in Hf. auto.
Qed.

Lemma set_find_spec x l : set_find x l = true ↔ x ∈ l.
Proof. apply existsb_in. Qed.

Section fc.
Context (px : Paxos) (HM : Matrix px) (t : Tri) (HT : Triangular px t).

Notation m := (length (t_mainRows t)).
Notation row i := (nth i (mRows px) []).

(** The column of H that is column [j] of C. *)
Definition mcol (j : nat) : nat := nth (m - j - 1) (t_mainCols t) 0.

Lemma mcol_in j : j < m → mcol j ∈ t_mainCols t.
Proof. intros Hj. apply list_elem_of_In, nth_In. rewrite <- (tr_size px t HT). lia. Qed.

Lemma mcol_lookup j : j < m → t_mainCols t !! (m - j - 1) = Some (mcol j).
Proof.
  intros Hj. unfold mcol. destruct (lookup_lt_is_Some_2 (t_mainCols t) (m - j - 1)) as [c Hc]; [rewrite <- (tr_size px t HT); lia|].
  by rewrite (nth_lookup_Some _ _ _ _ Hc).
Qed.

Lemma mcol_inj i j : i < m → j < m → mcol i = mcol j → i = j.
Proof.
  intros Hi Hj E. pose proof (mcol_lookup i Hi) as H1. pose proof (mcol_lookup j Hj) as H2. rewrite E in H1.
  pose proof (NoDup_lookup _ _ _ _ (proj1 (tr_cols px t HT)) H1 H2). lia.
Qed.

Lemma mcol_surj c : c ∈ t_mainCols t → ∃ j, j < m ∧ mcol j = c.
Proof.
  intros [k Hk]%list_elem_of_lookup. pose proof (lookup_lt_Some _ _ _ Hk) as Hlt. rewrite <- (tr_size px t HT) in Hlt.
  exists (m - k - 1). split; [lia|]. unfold mcol. replace (m - (m - k - 1) - 1) with k by lia. by apply nth_lookup_Some.
Qed.

Lemma colMapping_spec c j : mapped (colMapping px t) c = Some j ↔ j < m ∧ c = mcol j.
Proof.
  unfold colMapping. loop_inv (fun i cm => length cm = param_size (param px) ∧ ∀ c j, mapped cm c = Some j ↔ j < i ∧ c = mcol j) as HI.
  - lia.
  - split; [apply length_replicate|]. intros c' j'. unfold mapped. rewrite nth_lookup. split; [|lia].
    destruct (replicate _ None !! c') eqn:E; [|done]. by apply lookup_replicate in E as [-> _].
  - intros i cm Hi [Hl HI]. fold (mcol i). split; [by rewrite length_insert|]. intros c' j'.
    assert (Hb : mcol i < length cm).
    { rewrite Hl. unfold param_size. pose proof (proj2 (tr_cols px t HT) _ (mcol_in i ltac:(lia))). lia. }
    unfold mapped. rewrite nth_upd by done. case_decide as E.
    + subst c'. split; [intros [= <-]; split; [lia|done]|]. intros [Hj' Ej]. f_equal. apply mcol_inj; [lia|lia|done].
    + fold (mapped cm c'). rewrite HI. split; [intros []; split; [lia|done]|]. intros [Hj' ->]. split; [|done].
      destruct (decide (j' = i)) as [->|]; [done|lia].
  - destruct HI as [_ HI]. apply HI.
Qed.

(** * The set of columns that is left *)

(** [row] is the set of the columns of C that occur an odd number of times in [K]. *)
Definition parity (row K : list nat) : Prop :=
  desc row ∧ (∀ j, j ∈ row → j < m) ∧ ∀ j, j < m → j ∈ row ↔ Nat.odd (occ (mcol j) K) = true.

Lemma occ_snoc c K x : occ c (K ++ [x]) = occ c K + if decide (x = c) then 1 else 0.
Proof. rewrite occ_app. by f_equal. Qed.

Lemma odd_S n : Nat.odd (n + 1) = negb (Nat.odd n).
Proof. by rewrite Nat.add_1_r, Nat.odd_succ, <- Nat.negb_odd. Qed.

Definition toggle (CCol2 : nat) (row : list nat) : list nat :=
  if set_find CCol2 row then set_erase CCol2 row else set_insert CCol2 row.

Lemma parity_toggle row K HCol : parity row K →
  parity (match mapped (colMapping px t) HCol with Some CCol2 => toggle CCol2 row | None => row end) (K ++ [HCol]).
Proof.
  intros (Hd & Hb & Hp). destruct (mapped (colMapping px t) HCol) as [j2|] eqn:E.
  - apply colMapping_spec in E as [Hj2 ->]. unfold toggle. destruct (set_find j2 row) eqn:Ef.
    + apply set_find_spec in Ef. destruct (set_erase_spec j2 row Hd) as [Hd' Hi']. split; [done|]. split; [intros j [_ ?]%Hi'; auto|].
      intros j Hj. rewrite Hi', occ_snoc, Hp by done. case_decide as E.
      * apply mcol_inj in E as <-; [|done|done]. rewrite odd_S. apply Hp in Ef; [|done]. rewrite Ef. split; [intros []; done|done].
      * rewrite Nat.add_0_r. split; [tauto|]. intros ?. split; [|done]. intros ->. done.
    + apply not_true_iff_false in Ef. rewrite set_find_spec in Ef. destruct (set_insert_spec j2 row Hd) as [Hd' Hi'].
      split; [done|]. split; [intros j [->|?]%Hi'; auto|]. intros j Hj. rewrite Hi', occ_snoc, Hp by done. case_decide as E.
      * apply mcol_inj in E as <-; [|done|done]. rewrite odd_S. rewrite Hp in Ef by done. apply not_true_iff_false in Ef. rewrite Ef. split; [done|by left].
      * rewrite Nat.add_0_r. split; [|tauto]. intros [->|]; done.
  - split; [done|]. split; [done|]. intros j Hj. rewrite occ_snoc, Hp by done. rewrite decide_False; [by rewrite Nat.add_0_r|].
    intros ->. assert (Hx : mapped (colMapping px t) (mcol j) = Some j) by (by apply colMapping_spec). congruence.
Qed.

Lemma parity_row row K r : parity row K →
  parity (foldl (fun row HCol => match mapped (colMapping px t) HCol with Some CCol2 => toggle CCol2 row | None => row end) row r) (K ++ r).
Proof.
  revert row K. induction r as [|c r IH]; intros row K H; cbn [foldl]; [by rewrite app_nil_r|].
  apply (parity_toggle row K c) in H. apply IH in H. by rewrite <- app_assoc in H.
Qed.

(** The first row is inserted without cancelling, which is the same as its columns are distinct. *)
Lemma parity_insert row K r : parity row K → NoDup r → (∀ c, c ∈ r → c ∉ K) →
  parity (foldl (fun row c1 => match mapped (colMapping px t) c1 with Some c => set_insert c row | None => row end) row r) (K ++ r).
Proof.
  intros H Hnd. revert row K H. induction Hnd as [|c r Hc Hnd IH]; intros row K H Hdis; cbn [foldl]; [by rewrite app_nil_r|].
  pose proof (parity_toggle row K c H) as H'.
  assert (E : match mapped (colMapping px t) c with Some CCol2 => toggle CCol2 row | None => row end =
    match mapped (colMapping px t) c with Some c' => set_insert c' row | None => row end).
  { destruct (mapped (colMapping px t) c) as [j|] eqn:E; [|done]. apply colMapping_spec in E as [Hj ->]. unfold toggle.
    destruct (set_find j row) eqn:Ef; [|done]. apply set_find_spec in Ef. apply H in Ef; [|done]. exfalso.
    apply (Hdis (mcol j)); [apply elem_of_cons; by left|]. apply list_elem_of_In, (count_occ_In Nat.eq_dec).
    fold (occ (mcol j) K). destruct (occ (mcol j) K); [done|lia]. }
  rewrite E in H'. apply IH in H'; [by rewrite <- app_assoc in H'|]. intros x Hx [HK|Hxc]%elem_of_app.
  - apply (Hdis x); [apply elem_of_cons; by right|done].
  - apply list_elem_of_singleton in Hxc as ->. done.
Qed.

Lemma parity_first r : NoDup r →
  parity (foldl (fun row c1 => match mapped (colMapping px t) c1 with Some c => set_insert c row | None => row end) [] r) r.
Proof.
  intros Hnd. apply (parity_insert [] [] r); [|done|by intros c _ []%not_elem_of_nil].
  split; [constructor|]. split; [by intros j []%not_elem_of_nil|]. intros j _. split; [by intros []%not_elem_of_nil|done].
Qed.

(** * The loop ends *)

Lemma main_lookup k : k < m → t_mainRows t !! k = Some (nth k (t_mainRows t) 0).
Proof. intros Hk. destruct (lookup_lt_is_Some_2 (t_mainRows t) k Hk) as [r Hr]. by rewrite (nth_lookup_Some _ _ _ _ Hr). Qed.

Lemma main_row i : i ∈ t_mainRows t → i < mNumItems px.
Proof. intros Hi. apply (proj2 (tr_rows px t HT)), elem_of_app. by left. Qed.

(** Adding the main row of the largest column leaves smaller columns. *)
Lemma fc_step CCol rest K : parity (CCol :: rest) K →
  let HRow := nth (m - CCol - 1) (t_mainRows t) 0 in
  let row' := foldl (fun row HCol => match mapped (colMapping px t) HCol with Some CCol2 => toggle CCol2 row | None => row end) (CCol :: rest) (row HRow) in
  parity row' (K ++ row HRow) ∧ HRow ∈ t_mainRows t ∧ ∀ j, j ∈ row' → j < CCol.
Proof.
  intros HP HRow row'. pose proof (parity_row _ _ (row HRow) HP) as HP'. destruct HP as (Hd & Hb & Hp).
  assert (HC : CCol < m) by (apply Hb, elem_of_cons; by left). assert (Hk : m - CCol - 1 < m) by lia.
  pose proof (main_lookup _ Hk) as Hrow. fold HRow in Hrow. assert (Hin : HRow ∈ t_mainRows t) by (by apply list_elem_of_lookup_2 in Hrow).
  split; [done|]. split; [done|]. intros j Hj. destruct HP' as (_ & Hb' & Hp'). fold row' in Hb', Hp'. pose proof (Hb' j Hj) as Hjm.
  apply Hp' in Hj; [|done]. rewrite occ_app in Hj. destruct (mx_row px HM HRow (main_row HRow Hin)) as (_ & Hnd & _).
  assert (Hmax : ∀ y, y ∈ CCol :: rest → y ≤ CCol).
  { inversion Hd; subst. intros y [->|Hy]%elem_of_cons; [done|]. rewrite Forall_forall in H2. specialize (H2 y Hy). lia. }
  destruct (lt_eq_lt_dec j CCol) as [[Hlt|Heq]|Hgt]; [done| |]; exfalso.
  - rewrite Heq in Hj. rewrite (occ_nodup _ _ Hnd) in Hj.
    rewrite (proj2 (existsb_in _ _)) in Hj by (by apply (tr_diag px t HT (m - CCol - 1)); [|apply mcol_lookup]).
    rewrite odd_S in Hj. assert (Ho : Nat.odd (occ (mcol CCol) K) = true) by (apply Hp; [done|apply elem_of_cons; by left]). by rewrite Ho in Hj.
  - rewrite (occ_nodup _ _ Hnd) in Hj. destruct (existsb (Nat.eqb (mcol j)) (row HRow)) eqn:E.
    + apply existsb_in in E. revert E. apply (tr_lower px t HT (m - j - 1) (m - CCol - 1)); [lia|by apply mcol_lookup|done].
    + rewrite Nat.add_0_r in Hj. apply Hp in Hj; [|done]. apply Hmax in Hj. lia.
Qed.

Lemma fcLoop_spec fuel l mtx r : parity l (r ++ concat (map (fun i => row i) mtx)) → (∀ j, j ∈ l → j < fuel) →
  (∀ i, i ∈ mtx → i ∈ t_mainRows t) →
  ∃ L, fcLoop fuel px t (colMapping px t) l mtx = Ok L ∧ (∀ i, i ∈ L → i ∈ t_mainRows t) ∧ parity [] (r ++ concat (map (fun i => row i) L)).
Proof.
  revert l mtx. induction fuel as [|fuel IH]; intros [|CCol rest] mtx HP Hf Hm.
  1,3: by exists mtx.
  - specialize (Hf CCol ltac:(apply elem_of_cons; by left)). lia.
  - destruct (fc_step CCol rest _ HP) as (HP' & Hin & Hlt). cbn [fcLoop].
    apply IH.
    + rewrite map_app, concat_app, app_assoc. cbn [map concat]. by rewrite app_nil_r.
    + intros j Hj. apply Hlt in Hj. specialize (Hf CCol ltac:(apply elem_of_cons; by left)). lia.
    + intros i [Hi|Hi]%elem_of_app; [auto|]. by apply list_elem_of_singleton in Hi as ->.
Qed.

(** The rows [L] cancel the row of the gap on the main columns, and on all columns when the two rows of the gap agree. *)
Definition cancels (gap : nat * nat) (L : list nat) : Prop :=
  (∀ i, i ∈ L → i ∈ t_mainRows t) ∧
  (∀ c, c ∈ t_mainCols t → Nat.even (occ c (row (fst gap) ++ concat (map (fun i => row i) L))) = true) ∧
  (row (fst gap) = row (snd gap) → ∀ c, Nat.even (occ c (row (fst gap) ++ concat (map (fun i => row i) L))) = true).

Lemma fcRow_spec gap : gap ∈ t_gapRows t → ∃ L, fcRow px t gap = Ok L ∧ cancels gap L.
Proof.
  intros Hg. unfold fcRow. destruct (decide _) as [E|Hne].
  - exists [snd gap]. split; [done|]. assert (Hev : ∀ c, Nat.even (occ c (row (fst gap) ++ concat (map (fun i => row i) [snd gap]))) = true).
    { intros c. cbn [map concat]. rewrite app_nil_r, <- E, occ_app. apply Nat.even_spec. by exists (occ c (row (fst gap))); lia. }
    split; [|by split]. intros i Hi. apply list_elem_of_singleton in Hi as ->. apply (tr_gap px t HT (fst gap)). by destruct gap.
  - assert (Hi : fst gap < mNumItems px).
    { apply (proj2 (tr_rows px t HT)), elem_of_app. right. apply list_elem_of_In, in_map. by apply list_elem_of_In. }
    destruct (mx_row px HM _ Hi) as (_ & Hnd & _). pose proof (parity_first _ Hnd) as HP.
    destruct (fcLoop_spec m _ [] (row (fst gap)) ltac:(cbn [map concat]; rewrite app_nil_r; exact HP) (proj1 (proj2 HP)) ltac:(by intros i []%not_elem_of_nil)) as (L & E & HL & HP').
    exists L. split; [exact E|]. split; [done|]. split; [|intros; done]. intros c Hc. destruct (mcol_surj c Hc) as (j & Hj & <-).
    rewrite <- Nat.negb_odd. apply negb_true_iff, not_true_iff_false. intros Ho. apply HP' in Ho; [|done]. by apply not_elem_of_nil in Ho.
Qed.

End fc.

(** [getFCInv] returns, for every gap row, main rows that cancel it on the main columns. *)
Lemma getFCInv_spec px t : Matrix px → Triangular px t →
  ∃ mtx, getFCInv px t = Ok mtx ∧ Forall2 (cancels px t) (t_gapRows t) mtx.
Proof.
  intros HM HT. unfold getFCInv. assert (H : ∀ l acc, (∀ g, g ∈ l → g ∈ t_gapRows t) →
    ∃ mtx, foldR (fun ret gap => mtx ← fcRow px t gap; mret (ret ++ [mtx])) l acc = Ok (acc ++ mtx) ∧ Forall2 (cancels px t) l mtx).
  { induction l as [|g l IH]; intros acc Hl.
    - exists []. split; [by rewrite app_nil_r|constructor].
    - destruct (fcRow_spec px HM t HT g) as (L & E & HL); [apply Hl, elem_of_cons; by left|]. cbn [foldR]. rewrite E. cbn [mbind Res_bind].
      destruct (IH (acc ++ [L])) as (mtx & E' & HF); [intros; apply Hl, elem_of_cons; by right|]. exists (L :: mtx).
      rewrite <- app_assoc in E'. split; [exact E'|by constructor]. }
  destruct (H (t_gapRows t) []) as (mtx & E & HF); [done|]. by exists mtx.
Qed.

(** C21 After a triangulation, [getFCInv] returns for every gap row some main rows such that every main column occurs an even
    number of times in the gap row and these rows. *)
Theorem getFCInv_outcome idxBits px t : Matrix px → 0 < mNumItems px → mNumItems px + 2 ≤ pSparseSize (param px) → 0 < pWeight (param px) →
  View (mWeightSets px) (pSparseSize (param px)) (fun _ => True) (fun c => length (rowsWith (mRows px) c (mNumItems px))) →
  triangulate idxBits px = Ok t →
  ∃ mtx, getFCInv px t = Ok mtx ∧ length mtx = length (t_gapRows t) ∧
    ∀ i gap L, t_gapRows t !! i = Some gap → mtx !! i = Some L → (∀ r, r ∈ L → r ∈ t_mainRows t) ∧
      ∀ c, c ∈ t_mainCols t → Nat.even (occ c (nth (fst gap) (mRows px) [] ++ concat (map (fun r => nth r (mRows px) []) L))) = true.
Proof.
  intros HM Hpos Hs Hw HV E. destruct (triangulate_spec idxBits px HM Hpos Hs Hw HV) as [(t' & E' & HT)|[E' _]]; [|congruence].
  assert (t' = t) as -> by congruence. destruct (getFCInv_spec px t HM HT) as (mtx & Em & HF). exists mtx. split; [done|].
  split; [symmetry; by eapply Forall2_length|]. intros i gap L Hg HL. destruct (Forall2_lookup_l _ _ _ _ _ HF Hg) as (L' & HL' & H1 & H2 & _).
  assert (L' = L) as -> by congruence. done.
Qed.

Lemma getFCInv_outcome_witness : ∃ px t, triangulate 32 px = Ok t ∧ ∃ mtx, getFCInv px t = Ok mtx ∧ length mtx = length (t_gapRows t) ∧
    ∀ i gap L, t_gapRows t !! i = Some gap → mtx !! i = Some L → (∀ r, r ∈ L → r ∈ t_mainRows t) ∧
      ∀ c, c ∈ t_mainCols t → Nat.even (occ c (nth (fst gap) (mRows px) [] ++ concat (map (fun r => nth r (mRows px) []) L))) = true.
Proof.
  destruct twoRows_view as [wd HV]. exists (twoRows wd).
  destruct (triangulate_spec 32 (twoRows wd) (twoRows_matrix wd)) as [(t & E & _)|(_ & i & j & Hi & Hj & Hij & E)]; [cbn; lia|cbn; lia|cbn; lia|exact HV| |].
  - exists t. split; [exact E|]. apply (getFCInv_outcome 32 (twoRows wd) t (twoRows_matrix wd)); [cbn; lia|cbn; lia|cbn; lia|exact HV|exact E].
  - exfalso. cbn in Hi, Hj. destruct i as [|[|i]], j as [|[|j]]; try lia; try done.
Defined.

End PaxosFc.
