(* ===== verification/PaxosBack.v ===== *)
(** Back substitution in VOLE-PSI's solver (the loops over the main rows of [backfillGf128] and [backfillBinary] in
    src/volepsi/volePSI/PaxosImpl.h): the value of a row, and why the triangular form makes the loop solve every main row
    and a gap row follow from its dense equation. The two dense types share these lemmas. *)
From stdpp Require Import sets.
From S2P Require Import Prelude Words PxUtil PaxosHash Paxos PaxosTri Gf128 PxVec GfMat PaxosFc.
Open Scope nat_scope.

Module PaxosBack.
Import PxUtil PaxosHash Paxos PaxosTri PxVec GfMat PaxosFc.

Section values.
Context (gf128Mul : block → block → block) {V : Type} {H : Helper V}.

(** [P[c]] *)
Definition vget (P : list V) (c : nat) : V := nth c P newElement.

(** [helper.randomize] on some entries of the output. *)
Definition randomizeAt {R : Type} (randomize : R → V * R) (cs : list nat) (P : list V) (prng : R) : list V * R :=
  foldl (fun '(P, prng) c => let '(x, prng) := randomize prng in (<[c := x]> P, prng)) (P, prng) cs.

(** * The value of a row *)

(** [pw d k] is the power k + 1 of [d]. *)
Fixpoint pw (d : block) (k : nat) : block := match k with O => d | S k => gf128Mul (pw d k) d end.

(** The dense part of a row with dense part [d]: over GF(2^128), and by the bits of [d]. *)
Definition denseV (size : nat) (p : nat → V) (d : block) : V := vsum (map (fun k => vmul (p k) (pw d k)) (seq 0 size)).
Definition denseB (size : nat) (p : nat → V) (d : block) : V :=
  vsum (map (fun k => if Z.testbit d (Z.of_nat k) then p k else newElement) (seq 0 size)).
Definition densePart (px : Paxos) (p : nat → V) (d : block) : V :=
  match pDt (param px) with GF128 => denseV (pDenseSize (param px)) p d | Binary => denseB (pDenseSize (param px)) p d end.

Definition sparseV (P : list V) (r : list nat) : V := vsum (map (vget P) r).
Definition evalRow (px : Paxos) (P : list V) (r : list nat) (d : block) : V :=
  add (sparseV P r) (densePart px (fun k => vget P (pSparseSize (param px) + k)) d).

Context {vok : V → Prop} {HOk : HelperOk gf128Mul H vok} (G : Gf128 gf128Mul).

Lemma pw_ok d k : is_block d → is_block (pw d k).
Proof. intros Hd. induction k as [|k IH]; [done|]. by apply (mul_ok gf128Mul G). Qed.

Lemma vget_upd (P : list V) i j x : i < length P → vget (<[i := x]> P) j = if decide (i = j) then x else vget P j.
Proof. apply nth_upd. Qed.

Lemma densePart_ext px p p' d : (∀ k, k < pDenseSize (param px) → p k = p' k) → densePart px p d = densePart px p' d.
Proof.
  intros E. unfold densePart. destruct (pDt (param px)); apply vsum_ext; intros k Hk%list_elem_of_In%in_seq; by rewrite E by lia.
Qed.

Lemma foldl_add P y r : foldl (fun y cc => add y (vget P cc)) y r = add y (sparseV P r).
Proof. revert y. unfold sparseV. induction r as [|c r IH]; intros y; cbn [foldl map]; [symmetry; apply vadd_0_r|]. by rewrite IH, vsum_cons, vadd_assoc. Qed.

Lemma sparse_upd P r c y : NoDup r → c ∈ r → c < length P → vget P c = newElement → sparseV (<[c := y]> P) r = add y (sparseV P r).
Proof.
  intros Hnd Hc Hl H0. unfold sparseV.
  transitivity (vsum (map (fun x => add (if decide (x = c) then y else newElement) (vget P x)) r)).
  - apply vsum_ext. intros x _. rewrite vget_upd by done. destruct (decide (c = x)) as [<-|].
    + by rewrite decide_True, H0, vadd_0_r by done.
    + rewrite decide_False by congruence. by rewrite vadd_0_l.
  - rewrite vsum_add. f_equal. apply list_elem_of_split in Hc as (l1 & l2 & ->). rewrite map_app, vsum_app. cbn [map]. rewrite vsum_cons, decide_True by done.
    apply NoDup_app in Hnd as (_ & H1 & [H2 _]%NoDup_cons). rewrite !vsum_0; [by rewrite vadd_0_l, vadd_0_r| |].
    + intros x Hx. rewrite decide_False; [done|congruence].
    + intros x Hx. rewrite decide_False; [done|]. intros ->. apply (H1 c Hx). apply elem_of_cons. by left.
Qed.

Lemma sparse_upd_ne P r c y : c ∉ r → c < length P → sparseV (<[c := y]> P) r = sparseV P r.
Proof. intros Hc Hl. apply vsum_ext. intros x Hx. rewrite vget_upd, decide_False by (done || congruence). done. Qed.

Lemma denseV_0 size p d : (∀ k, k < size → p k = newElement) → is_block d → denseV size p d = newElement.
Proof.
  intros Hp Hd. apply vsum_0. intros k Hk%list_elem_of_In%in_seq. rewrite Hp by lia. apply vmul_0_l. by apply pw_ok.
Qed.

Lemma denseB_0 size p d : (∀ k, k < size → p k = newElement) → denseB size p d = newElement.
Proof. intros Hp. apply vsum_0. intros k Hk%list_elem_of_In%in_seq. rewrite Hp by lia. by destruct (Z.testbit _ _). Qed.

(** * Back substitution *)

Lemma combine_rev {A B} (l : list A) (l' : list B) : length l = length l' → combine (rev l) (rev l') = rev (combine l l').
Proof.
  revert l'. induction l as [|x l IH]; intros [|y l'] Hl; try done. cbn [rev combine]. rewrite <- IH by (cbn in Hl; lia).
  assert (Hr : length (rev l) = length (rev l')) by (rewrite !length_rev; cbn in Hl; lia). clear IH Hl.
  revert Hr. generalize (rev l) as u. generalize (rev l') as v. intros v u. revert v. induction u as [|a u IHu]; intros [|b v] Hr; try done.
  cbn. f_equal. apply IHu. cbn in Hr. lia.
Qed.

(** The value of a row consists of blocks when the encoding does. *)
Lemma densePart_ok px p d : (∀ k, vok (p k)) → is_block d → vok (densePart px p d).
Proof.
  intros Hp Hd. unfold densePart, denseV, denseB. destruct (pDt (param px)); apply vsum_ok, Forall_map, Forall_forall; intros k _.
  - destruct (Z.testbit _ _); [done|apply (ok_new (vok := vok))].
  - apply vmul_ok; [done|by apply pw_ok].
Qed.

Lemma evalRow_ok px P r d : (∀ c, vok (vget P c)) → is_block d → vok (evalRow px P r d).
Proof.
  intros HP Hd. apply (ok_add (vok := vok)); [|by apply densePart_ok]. apply vsum_ok, Forall_map, Forall_forall. auto.
Qed.

Section back.
Context (px : Paxos) (HM : Matrix px) (t : Tri) (HT : Triangular px t) (X : list V) (p2 : nat → V)
  (Hblock : ∀ i, is_block (mDense px).[i]) (HX : ∀ i, vok (vget X i)).
Notation row i := (nth i (mRows px) []).
Notation D := (pDenseSize (param px)).
Notation S0 := (pSparseSize (param px)).

(** The values the back substitution works on have the dense part [p2]. *)
Definition backOk (P : list V) : Prop :=
  length P = S0 + D ∧ (∀ k, k < D → vget P (S0 + k) = p2 k) ∧ ∀ c, vok (vget P c).

(** A turn writes to the main column of its row what the row lacks. *)
Context (backRow : list V → nat → nat → list V)
  (Hstep : ∀ P i c, backOk P → i < mNumItems px → backRow P i c = <[c := add (vget X i) (evalRow px P (row i) (mDense px).[i])]> P).

Definition backRows (P : list V) : list V :=
  foldl (fun P '(i, c) => backRow P i c) P (combine (rev (t_mainRows t)) (rev (t_mainCols t))).

Lemma evalRow_upd P r d c y : c < S0 → c < length P → c ∉ r → evalRow px (<[c := y]> P) r d = evalRow px P r d.
Proof.
  intros Hc Hl Hr. unfold evalRow. rewrite sparse_upd_ne by done. f_equal. apply densePart_ext. intros k _.
  rewrite vget_upd, decide_False by (done || lia). done.
Qed.

(** One turn satisfies its row and keeps the rows without its column. *)
Lemma backRow_spec P i c : backOk P → i < mNumItems px → c ∈ row i → vget P c = newElement →
  let P' := backRow P i c in
  evalRow px P' (row i) (mDense px).[i] = vget X i ∧ backOk P' ∧
  (∀ r d, c ∉ r → evalRow px P' r d = evalRow px P r d) ∧ (∀ c', c' ≠ c → vget P' c' = vget P c').
Proof.
  intros HP Hi Hc H0 P'. unfold P'. rewrite (Hstep P i c HP Hi). clear P'. set (y := add _ _).
  destruct HP as (Hl & HD & Hv). destruct (mx_row px HM i Hi) as (_ & Hnd & Hlt). assert (HcS : c < S0) by auto.
  assert (HcP : c < length P) by lia. split; [|split; [|split]].
  - unfold evalRow. rewrite sparse_upd by done.
    rewrite (densePart_ext px (fun k => vget (<[c := y]> P) (S0 + k)) (fun k => vget P (S0 + k))) by
      (intros k _; rewrite vget_upd, decide_False by (done || lia); done).
    rewrite <- vadd_assoc. fold (evalRow px P (row i) (mDense px).[i]). unfold y. rewrite <- vadd_assoc, vadd_nil. apply vadd_0_r.
  - split; [by rewrite length_insert|]. split; [intros k Hk; rewrite vget_upd, decide_False by (done || lia); auto|].
    intros c'. rewrite vget_upd by done. case_decide; [|auto]. apply (ok_add (vok := vok)); [apply HX|by apply evalRow_ok].
  - intros r d Hr. by apply evalRow_upd.
  - intros c' Hc'. by rewrite vget_upd, decide_False.
Qed.

Lemma backRows_suffix rs' rs cs' cs P : t_mainRows t = rs' ++ rs → t_mainCols t = cs' ++ cs → length rs = length cs →
  backOk P → (∀ c, c ∈ cs → vget P c = newElement) →
  let P' := foldl (fun P '(i, c) => backRow P i c) P (rev (combine rs cs)) in
  backOk P' ∧ (∀ i, i ∈ rs → evalRow px P' (row i) (mDense px).[i] = vget X i) ∧ ∀ c, c ∉ cs → vget P' c = vget P c.
Proof.
  revert rs' cs' cs. induction rs as [|r rs IH]; intros rs' cs' [|c cs] Er Ec Hl HP H0 P'; try done.
  - split; [done|]. split; [by intros i []%not_elem_of_nil|done].
  - unfold P'. cbn [combine rev]. rewrite foldl_app. cbn [foldl]. clear P'. injection Hl as Hl.
    assert (Hl' : length rs' = length cs') by (pose proof (tr_size px t HT) as Hs; rewrite Er, Ec, !length_app in Hs; cbn in Hs; lia).
    destruct (IH (rs' ++ [r]) (cs' ++ [c]) cs ltac:(by rewrite <- app_assoc) ltac:(by rewrite <- app_assoc) Hl HP
      ltac:(intros c' Hc'; apply H0, elem_of_cons; by right)) as (HP1 & Hev & Hoth).
    set (P1 := foldl _ P _) in *. clearbody P1. pose proof (proj1 (tr_cols px t HT)) as Hnd. rewrite Ec in Hnd.
    apply NoDup_app in Hnd as (_ & _ & [Hcc _]%NoDup_cons).
    assert (Hrk : t_mainRows t !! length rs' = Some r) by (rewrite Er; apply list_lookup_middle; done).
    assert (Hck : t_mainCols t !! length rs' = Some c) by (rewrite Ec; by apply list_lookup_middle).
    assert (Hr : r < mNumItems px) by (apply (main_row px t HT); by apply list_elem_of_lookup_2 in Hrk).
    destruct (backRow_spec P1 r c HP1 Hr (tr_diag px t HT _ _ _ Hrk Hck)) as (E1 & HP2 & Hoth2 & Hv2).
    { rewrite Hoth by done. apply H0, elem_of_cons. by left. }
    split; [done|]. split.
    + intros i [->|Hi]%elem_of_cons; [done|]. rewrite Hoth2; [by apply Hev|]. apply list_elem_of_lookup in Hi as [k Hk].
      apply (tr_lower px t HT (length rs') (length rs' + S k)); [lia|done|]. rewrite Er, lookup_app_r by lia. by replace (length rs' + S k - length rs') with (S k) by lia.
    + intros c' Hc'. rewrite elem_of_cons in Hc'. rewrite Hv2, Hoth by tauto. done.
Qed.

(** After the back substitution every main row has its value; only the main columns have changed. *)
Lemma backRows_spec P : backOk P → (∀ c, c ∈ t_mainCols t → vget P c = newElement) →
  let P' := backRows P in
  backOk P' ∧ (∀ i, i ∈ t_mainRows t → evalRow px P' (row i) (mDense px).[i] = vget X i) ∧ ∀ c, c ∉ t_mainCols t → vget P' c = vget P c.
Proof.
  intros HP H0. unfold backRows. rewrite combine_rev by apply (tr_size px t HT).
  apply (backRows_suffix [] (t_mainRows t) [] (t_mainCols t)); try done. apply (tr_size px t HT).
Qed.

(** A gap row has its value when the dense part solves its equation. *)
Lemma gap_value P gap L : backOk P → gap ∈ t_gapRows t → cancels px t gap L →
  (∀ i, i ∈ t_mainRows t → evalRow px P (row i) (mDense px).[i] = vget X i) →
  ((∀ c, c < S0 → c ∉ t_mainCols t → vget P c = newElement) ∨ row (fst gap) = row (snd gap)) →
  (let dn i := densePart px p2 (mDense px).[i] in
   add (dn (fst gap)) (vsum (map dn L)) = add (vget X (fst gap)) (vsum (map (vget X) L))) →
  evalRow px P (row (fst gap)) (mDense px).[fst gap] = vget X (fst gap).
Proof.
  intros HP Hg (HL & Hev & Hev') Hmain Hfree Hdn. cbv zeta in Hdn.
  assert (Hlt : ∀ i, i < mNumItems px → ∀ c, c ∈ row i → c < S0) by (intros i Hi; apply (mx_row px HM i Hi)).
  assert (Hgl : fst gap < mNumItems px).
  { apply (proj2 (tr_rows px t HT)), elem_of_app. right. apply list_elem_of_In, in_map. by apply list_elem_of_In. }
  assert (Hsp : add (sparseV P (row (fst gap))) (vsum (map (fun i => sparseV P (row i)) L)) = newElement).
  { transitivity (vsum (map (vget P) (row (fst gap) ++ concat (map (fun i => row i) L)))).
    - rewrite map_app, vsum_app, vsum_concat, map_map. done.
    - apply (vsum_even _ _ S0).
      + intros c [Hc|Hc]%elem_of_app; [by apply (Hlt _ Hgl)|]. apply list_elem_of_In, in_concat in Hc as (r & Hr & Hc).
        apply in_map_iff in Hr as (i & <- & Hi). apply list_elem_of_In in Hi, Hc. by apply (Hlt i); [apply (main_row px t HT), HL|].
      + intros c Hc. change occs with occ. destruct (decide (c ∈ t_mainCols t)) as [Hm|Hm]; [left; by apply Hev|].
        destruct Hfree as [Hf|Hf]; [right; by apply Hf|left; by apply Hev']. }
  assert (Hp2 : ∀ d, densePart px (fun k => vget P (S0 + k)) d = densePart px p2 d) by (intros d; apply densePart_ext; apply HP).
  assert (HXL : vsum (map (vget X) L) = add (vsum (map (fun i => sparseV P (row i)) L))
    (vsum (map (fun i => densePart px p2 (mDense px).[i]) L))).
  { rewrite <- vsum_add. apply vsum_ext. intros i Hi. rewrite <- Hp2. symmetry. apply Hmain, HL, Hi. }
  apply vadd_cancel in Hsp. unfold evalRow. rewrite Hsp, Hp2. symmetry in Hdn. apply vadd_inv in Hdn. rewrite Hdn, HXL.
  set (a := densePart _ _ _). set (b := vsum (map (fun i => densePart _ _ _) L)). set (c := vsum _).
  rewrite (vadd_comm c b), vadd_assoc, <- (vadd_assoc a b b), vadd_nil, vadd_0_r. apply vadd_comm.
Qed.

(** Every row has its value. *)
Definition solved (P : list V) : Prop :=
  length P = S0 + D ∧ (∀ i, i < mNumItems px → evalRow px P (row i) (mDense px).[i] = vget X i) ∧ ∀ c, vok (vget P c).

Lemma main_dense k : S0 + k ∉ t_mainCols t.
Proof. intros Hk%(proj2 (tr_cols px t HT)). lia. Qed.

(** The output before the back substitution: the main columns and the dense part are zero. *)
Definition fillStart (P : list V) : Prop :=
  length P = S0 + D ∧ (∀ c, c ∈ t_mainCols t → vget P c = newElement) ∧ (∀ k, k < D → vget P (S0 + k) = newElement) ∧ ∀ c, vok (vget P c).

(** The columns without a row are zero, or they are random and the rows of every gap agree. *)
Definition freeOk (P : list V) : Prop :=
  (∀ c, c < S0 → c ∉ t_mainCols t → vget P c = newElement) ∨ ∀ gap, gap ∈ t_gapRows t → row (fst gap) = row (snd gap).

(** The loop solves every row when the equations of the gap rows hold. *)
Lemma backRows_solved P : backOk P → (∀ c, c ∈ t_mainCols t → vget P c = newElement) →
  freeOk P →
  (∀ gap, gap ∈ t_gapRows t → ∃ L, cancels px t gap L ∧
    let dn i := densePart px p2 (mDense px).[i] in
    add (dn (fst gap)) (vsum (map dn L)) = add (vget X (fst gap)) (vsum (map (vget X) L))) →
  solved (backRows P).
Proof.
  intros HP H0 Hfree Hgap. destruct (backRows_spec P HP H0) as (HP2 & Hmain & Hoth). split; [apply HP2|]. split; [|apply HP2]. intros i Hi.
  apply (proj2 (tr_rows px t HT)), elem_of_app in Hi as [Hi|Hi]; [by apply Hmain|].
  apply list_elem_of_In, in_map_iff in Hi as (gap & <- & Hg%list_elem_of_In). destruct (Hgap gap Hg) as (L & HL & E).
  apply (gap_value _ gap L HP2 Hg HL Hmain); [|exact E]. destruct Hfree as [Hf|Hf]; [left|right; by apply Hf].
  intros c Hc Hcm. rewrite Hoth by done. by apply Hf.
Qed.

End back.

Lemma randomizeAt_ok {R : Type} (randomize : R → V * R) cs P r : (∀ r, vok (fst (randomize r))) → (∀ c, c ∈ cs → c < length P) →
  (∀ c, vok (vget P c)) → ∀ c, vok (vget (fst (randomizeAt randomize cs P r)) c).
Proof.
  intros Hr. unfold randomizeAt. revert P r. induction cs as [|c cs IH]; intros P r Hc HP; [done|]. cbn [foldl].
  pose proof (Hr r) as Hx. destruct (randomize r) as [x r1]. cbn [fst] in Hx. apply IH.
  - intros c' Hc'. rewrite length_insert. apply Hc, elem_of_cons. by right.
  - intros c'. rewrite vget_upd by (apply Hc, elem_of_cons; by left). by case_decide.
Qed.

Lemma randomizeAt_spec {R : Type} (randomize : R → V * R) cs P r : (∀ c, c ∈ cs → c < length P) →
  length (fst (randomizeAt randomize cs P r)) = length P ∧ ∀ c, c ∉ cs → vget (fst (randomizeAt randomize cs P r)) c = vget P c.
Proof.
  unfold randomizeAt. revert P r. induction cs as [|c cs IH]; intros P r Hc; [done|]. cbn [foldl]. destruct (randomize r) as [x r1].
  destruct (IH (<[c := x]> P) r1) as [H1 H2]; [intros c' Hc'; rewrite length_insert; apply Hc, elem_of_cons; by right|].
  rewrite length_insert in H1. split; [done|]. intros c' Hc'. rewrite elem_of_cons in Hc'. rewrite H2 by tauto.
  rewrite vget_upd, decide_False by (try (apply Hc, elem_of_cons; by left); intros ->; tauto). done.
Qed.

End values.
End PaxosBack.
