(* ===== verification/PaxosGf.v ===== *)
(** Back substitution with the dense part over GF(2^128) ([backfillGf128] in src/volepsi/volePSI/PaxosImpl.h): the gap rows
    give a dense system, which is solved by an inverse matrix. [prng] is the optional generator, its state a type [R];
    [randomize] is the helper's operation and [getBlocks] is [PRNG::get] of a row of blocks. *)
From stdpp Require Import sets.
From S2P Require Import Prelude Words PxUtil PaxosHash Paxos PaxosTri Gf128 PxVec GfMat PaxosFc PaxosBack.
Open Scope nat_scope.

Module PaxosGf.
Import PxUtil PaxosHash Paxos PaxosTri PxVec GfMat PaxosFc PaxosBack.

Definition not_invertable : exn := RuntimeError "E' not invertable. ".

Section gf.
Context (gf128Mul : block → block → block) {V : Type} {H : Helper V}.
Context {R : Type} (randomize : R → V * R) (getBlocks : nat → R → list block * R).

(** The powers e, e^2, ... of a row of E, assigned to it or added to it. *)
Definition setPowers (size : nat) (e : block) (row : list block) : list block :=
  snd (for_ 1 size (fun j '(ej, row) => let ej := gf128Mul ej e in (ej, <[j := ej]> row)) (e, <[0 := e]> row)).
Definition addPowers (size : nat) (fcb : block) (row : list block) : list block :=
  snd (for_ 1 size (fun k '(fcbk, row) => let fcbk := gf128Mul fcbk fcb in (fcbk, <[k := Z.lxor (nth k row 0%Z) fcbk]> row))
    (fcb, <[0 := Z.lxor (nth 0 row 0%Z) fcb]> row)).

(** Row [i] of E - F C^-1 B and entry [i] of x2 - F C^-1 x1. *)
Definition gapRow (px : Paxos) (X : list V) (size : nat) (gap : nat * nat) (fc : list nat) : list block * V :=
  foldl (fun '(row, x) j => (addPowers size (mDense px).[j] row, add x (vget X j)))
    (setPowers size (mDense px).[fst gap] (replicate size 0%Z), vget X (fst gap)) fc.

Fixpoint randomRows (k size : nat) (prng : R) : list (list block * V) * R :=
  match k with
  | O => ([], prng)
  | S k =>
      let '(row, prng) := getBlocks size prng in
      let '(x, prng) := randomize prng in
      let '(rest, prng) := randomRows k size prng in ((row, x) :: rest, prng)
  end.

(** p2 += E'^-1 x2' *)
Definition mulInto (off size : nat) (EE : list (list block)) (xx : list V) (P : list V) : list V :=
  for_ 0 size (fun i P => for_ 0 size (fun j P => <[off + i := multAdd (vget P (off + i)) (vget xx j) (mget EE i j)]> P) P) P.

(** The dense part of a row, [GF128_DENSE_BACKFILL]. *)
Definition denseBackfill (px : Paxos) (P : list V) (d : block) (y : V) : V :=
  snd (for_ 1 (pDenseSize (param px)) (fun i '(x, y) => let x := gf128Mul x d in (x, multAdd y (vget P (pSparseSize (param px) + i)) x))
    (d, multAdd y (vget P (pSparseSize (param px))) d)).

(** One turn of the back substitution: main row [i] with main column [c]. *)
Definition backRow (px : Paxos) (doDense : bool) (X : list V) (P : list V) (i c : nat) : list V :=
  let row := nth i (mRows px) [] in
  let y := vget X i in
  let y := if pWeight (param px) =? 3
    then add (add (add y (vget P (nth 0 row 0))) (vget P (nth 1 row 0))) (vget P (nth 2 row 0))
    else foldl (fun y cc => add y (vget P cc)) y row in
  let y := if doDense then denseBackfill px P (mDense px).[i] y else y in
  <[c := y]> P.

Definition backfillGf128 (px : Paxos) (t : Tri) (X P : list V) (prng : option R) : Res (list V * option R) :=
  let g := length (t_gapRows t) in
  throw_if (pDenseSize (param px) <? g) RTE_LOC ;;
  '(P, prng) ← (if negb (g =? 0) then
      fcinv ← getFCInv px t;
      let size := match prng with Some _ => pDenseSize (param px) | None => g end in
      let rows := map (fun '(gap, fc) => gapRow px X size gap fc) (combine (t_gapRows t) fcinv) in
      let '(rand, prng) := match prng with
        | Some r => let '(rand, r) := randomRows (pDenseSize (param px) - g) size r in (rand, Some r)
        | None => ([], None)
        end in
      let EE := gf128InvMtx gf128Mul (map fst (rows ++ rand)) in
      throw_if (length EE =? 0) not_invertable ;;
      mret (mulInto (pSparseSize (param px)) size EE (map snd (rows ++ rand)) P, prng)
    else mret (match prng with
      | Some r => let '(P, r) := randomizeAt randomize (seq (pSparseSize (param px)) (pDenseSize (param px))) P r in (P, Some r)
      | None => (P, None)
      end));
  let doDense := negb (g =? 0) || match prng with Some _ => true | None => false end in
  mret (backRows t (backRow px doDense X) P, prng).

(** * Powers and dense sums *)

Context {vok : V → Prop} {HOk : HelperOk gf128Mul H vok} (G : Gf128 gf128Mul).

Abbreviation pw := (pw gf128Mul).
Abbreviation denseV := (denseV gf128Mul).
Abbreviation evalRow := (evalRow gf128Mul).

(** The dense part of a row with coefficients [row]. *)
Definition dotp (size : nat) (p : nat → V) (row : list block) : V := vsum (map (fun k => vmul (p k) (nth k row 0%Z)) (seq 0 size)).

Definition brow (size : nat) (row : list block) : Prop := length row = size ∧ ∀ k, k < size → is_block (nth k row 0%Z).

Lemma setPowers_spec size e row : 0 < size → is_block e → length row = size →
  brow size (setPowers size e row) ∧ ∀ k, k < size → nth k (setPowers size e row) 0%Z = pw e k.
Proof.
  intros Hs He Hl. unfold setPowers.
  loop_inv (fun j (st : block * list block) => let '(ej, r) := st in ej = pw e (j - 1) ∧ length r = size ∧ ∀ k, k < j → nth k r 0%Z = pw e k) as HI.
  - lia.
  - split; [done|]. split; [by rewrite length_insert|]. intros k Hk. rewrite nth_upd by lia. rewrite decide_True by lia. by replace k with 0 by lia.
  - intros j [ej r] Hj (-> & Hlr & Hr). cbv zeta. replace (S j - 1) with j by lia. assert (E : gf128Mul (pw e (j - 1)) e = pw e j).
    { replace j with (S (j - 1)) at 2 by lia. done. }
    rewrite E. split; [done|]. split; [by rewrite length_insert|]. intros k Hk. rewrite nth_upd by lia.
    case_decide; [by subst|]. apply Hr. lia.
  - destruct (for_ 1 size _ _) as [ej r]. destruct HI as (_ & Hlr & Hr). cbn [snd]. split; [|done]. split; [done|].
    intros k Hk. rewrite Hr by done. by apply pw_ok.
Qed.

Lemma addPowers_spec size e row : 0 < size → is_block e → brow size row →
  brow size (addPowers size e row) ∧ ∀ k, k < size → nth k (addPowers size e row) 0%Z = Z.lxor (nth k row 0%Z) (pw e k).
Proof.
  intros Hs He [Hl Hb]. unfold addPowers.
  loop_inv (fun j (st : block * list block) => let '(ej, r) := st in ej = pw e (j - 1) ∧ length r = size ∧
    ∀ k, nth k r 0%Z = if k <? j then Z.lxor (nth k row 0%Z) (pw e k) else nth k row 0%Z) as HI.
  - lia.
  - split; [done|]. split; [by rewrite length_insert|]. intros k. rewrite nth_upd by lia. case_decide as E; [by subst|].
    by rewrite (proj2 (Nat.ltb_ge k 1)) by lia.
  - intros j [ej r] Hj (-> & Hlr & Hr). cbv zeta. replace (S j - 1) with j by lia. assert (E : gf128Mul (pw e (j - 1)) e = pw e j).
    { replace j with (S (j - 1)) at 2 by lia. done. }
    rewrite E. split; [done|]. split; [by rewrite length_insert|]. intros k. rewrite nth_upd by lia. rewrite !Hr.
    case_decide; [subst|].
    + rewrite (proj2 (Nat.ltb_ge k k)) by lia. by rewrite (proj2 (Nat.ltb_lt k (S k))) by lia.
    + destruct (Nat.ltb_spec k j), (Nat.ltb_spec k (S j)); done || lia.
  - destruct (for_ 1 size _ _) as [ej r]. destruct HI as (_ & Hlr & Hr). cbn [snd]. assert (Hk : ∀ k, k < size → nth k r 0%Z = Z.lxor (nth k row 0%Z) (pw e k)).
    { intros k Hk. rewrite Hr. by rewrite (proj2 (Nat.ltb_lt k size)). }
    split; [|done]. split; [done|]. intros k Hks. rewrite Hk by done. apply xor_ok; [by apply Hb|by apply pw_ok].
Qed.

Lemma gapRow_spec px X size gap fc p : 0 < size → (∀ i, is_block (mDense px).[i]) → (∀ k, k < size → vok (p k)) →
  let '(row, x) := gapRow px X size gap fc in
  brow size row ∧ x = add (vget X (fst gap)) (vsum (map (vget X) fc)) ∧
  dotp size p row = add (denseV size p (mDense px).[fst gap]) (vsum (map (fun j => denseV size p (mDense px).[j]) fc)).
Proof.
  intros Hs Hd Hp. unfold gapRow.
  destruct (setPowers_spec size (mDense px).[fst gap] (replicate size 0%Z) Hs (Hd _) (length_replicate _ _)) as [B0 E0].
  set (row0 := setPowers _ _ _) in *. assert (D0 : dotp size p row0 = denseV size p (mDense px).[fst gap]).
  { apply vsum_ext. intros k Hk%list_elem_of_In%in_seq. by rewrite E0 by lia. }
  rewrite <- D0. clear E0 D0. clearbody row0. generalize (vget X (fst gap)) as x0. revert row0 B0.
  induction fc as [|j fc IH]; intros row B x; cbn [foldl]; [cbn; split; [done|]; by rewrite !vadd_0_r|].
  destruct (addPowers_spec size (mDense px).[j] row Hs (Hd j) B) as [B' E']. specialize (IH _ B' (add x (vget X j))).
  destruct (foldl _ _ fc) as [row' x']. destruct IH as (B2 & -> & ->). split; [done|]. cbn [map]. rewrite !vsum_cons, !vadd_assoc.
  split; [done|]. f_equal. unfold dotp at 2. unfold denseV at 1. unfold dotp. rewrite <- vsum_add. apply vsum_ext.
  intros k Hk%list_elem_of_In%in_seq. rewrite E' by lia. apply vmul_xor; [apply Hp; lia|apply B; lia|by apply pw_ok].
Qed.

(** * The dense unknowns *)

Lemma mulInto_spec off size EE xx P : off + size ≤ length P →
  length (mulInto off size EE xx P) = length P ∧
  ∀ c, vget (mulInto off size EE xx P) c =
    if decide (off ≤ c ∧ c < off + size) then add (vget P c) (rowDot size EE (vget xx) (c - off)) else vget P c.
Proof.
  intros Hl. unfold mulInto.
  assert (Hin : ∀ i Q, i < size → length Q = length P →
    let Q' := for_ 0 size (fun j P => <[off + i := multAdd (vget P (off + i)) (vget xx j) (mget EE i j)]> P) Q in
    length Q' = length P ∧ ∀ c, vget Q' c = if decide (c = off + i) then add (vget Q c) (rowDot size EE (vget xx) i) else vget Q c).
  { intros i Q Hi HQ. cbv zeta.
    loop_inv (fun j (Q' : list V) => length Q' = length P ∧ ∀ c, vget Q' c =
      if decide (c = off + i) then add (vget Q c) (vsum (map (fun b => vmul (vget xx b) (mget EE i b)) (seq 0 j))) else vget Q c) as HI; [lia| | |exact HI].
    - split; [done|]. intros c. cbn. rewrite vadd_0_r. by case_decide.
    - intros j Q' Hj [HQl HQ']. split; [by rewrite length_insert|]. intros c. rewrite vget_upd by lia. rewrite !HQ', (decide_True (P := off + i = off + i)) by done.
      case_decide as E; [subst c|rewrite !decide_False by congruence; done]. rewrite decide_True by done.
      rewrite multAdd_vmul, seq_S, map_app, vsum_app, <- !vadd_assoc. cbn [map Nat.add]. by rewrite vsum_1. }
  loop_inv (fun i (Q : list V) => length Q = length P ∧ ∀ c, vget Q c =
    if decide (off ≤ c ∧ c < off + i) then add (vget P c) (rowDot size EE (vget xx) (c - off)) else vget P c) as HI; [lia| | |exact HI].
  - split; [done|]. intros c. by rewrite decide_False by lia.
  - intros i Q Hi [HQ E]. destruct (Hin i Q ltac:(lia) HQ) as [HQ' E']. split; [exact HQ'|]. intros c. rewrite E', E.
    destruct (decide (c = off + i)) as [->|].
    + rewrite decide_False by lia. rewrite decide_True by lia. do 2 f_equal. lia.
    + destruct (decide (off ≤ c ∧ c < off + i)); [by rewrite decide_True by lia|by rewrite decide_False by lia].
Qed.

Lemma denseBackfill_spec px P d y : 0 < pDenseSize (param px) →
  denseBackfill px P d y = add y (denseV (pDenseSize (param px)) (fun k => vget P (pSparseSize (param px) + k)) d).
Proof.
  intros HD. unfold denseBackfill.
  loop_inv (fun i (st : block * V) => let '(x, z) := st in x = pw d (i - 1) ∧
    z = add y (denseV i (fun k => vget P (pSparseSize (param px) + k)) d)) as HI.
  - lia.
  - split; [done|]. unfold denseV. cbn [seq map]. rewrite vsum_cons, multAdd_vmul. cbn [vsum foldr pw]. by rewrite vadd_0_r, Nat.add_0_r.
  - intros i [x z] Hi (-> & ->). cbv zeta. replace (S i - 1) with i by lia. assert (E : gf128Mul (pw d (i - 1)) d = pw d i).
    { replace i with (S (i - 1)) at 2 by lia. done. }
    rewrite E. split; [done|]. unfold denseV. rewrite seq_S, map_app, vsum_app, multAdd_vmul, <- vadd_assoc. cbn [map Nat.add]. by rewrite vsum_1.
  - destruct (for_ 1 _ _ _) as [x z]. by destruct HI as [_ ->].
Qed.

(** * The gap *)

Definition goodRow (size : nat) (rx : list block * V) : Prop := brow size (fst rx) ∧ vok (snd rx).

(** The system E' p2 = x2' that the inverse solves. *)
Lemma gap_system size rows P off : 0 < size → length rows = size → Forall (goodRow size) rows → off + size ≤ length P →
  (∀ k, k < size → vget P (off + k) = newElement) → gf128InvMtx gf128Mul (map fst rows) ≠ [] →
  let P1 := mulInto off size (gf128InvMtx gf128Mul (map fst rows)) (map snd rows) P in
  length P1 = length P ∧ (∀ c, ¬ (off ≤ c ∧ c < off + size) → vget P1 c = vget P c) ∧ (∀ k, k < size → vok (vget P1 (off + k))) ∧
  ∀ a rx, rows !! a = Some rx → dotp size (fun k => vget P1 (off + k)) (fst rx) = snd rx.
Proof.
  intros Hs Hl Hrows HP H0 Hne P1. rewrite Forall_forall in Hrows.
  assert (Hrow : ∀ a rx, rows !! a = Some rx → nth a (map fst rows) [] = fst rx ∧ vget (map snd rows) a = snd rx).
  { intros a rx Ha. split; apply nth_lookup_Some; [change (map fst rows) with (fst <$> rows)|change (map snd rows) with (snd <$> rows)];
      by rewrite list_lookup_fmap, Ha. }
  assert (Hget : ∀ a, a < size → ∃ rx, rows !! a = Some rx ∧ goodRow size rx).
  { intros a Ha. destruct (lookup_lt_is_Some_2 rows a ltac:(lia)) as [rx Hrx]. exists rx. split; [done|]. by eapply Hrows, list_elem_of_lookup_2. }
  assert (D : dims size (map fst rows)).
  { split; [by rewrite length_map|]. intros a Ha. destruct (Hget a Ha) as (rx & Hrx & [B _] & _). by rewrite (proj1 (Hrow a rx Hrx)). }
  assert (B : blocks size (map fst rows)).
  { intros a b Ha Hb. destruct (Hget a Ha) as (rx & Hrx & [_ Hbr] & _). unfold mget. rewrite (proj1 (Hrow a rx Hrx)). auto. }
  assert (Hx : ∀ b, b < size → vok (vget (map snd rows) b)).
  { intros b Hb. destruct (Hget b Hb) as (rx & Hrx & _ & Hv). by rewrite (proj2 (Hrow b rx Hrx)). }
  destruct (inv_solves gf128Mul G size _ D B Hne) as (DI & BI & HS).
  destruct (mulInto_spec off size (gf128InvMtx gf128Mul (map fst rows)) (map snd rows) P HP) as [HL HE]. fold P1 in HL, HE.
  assert (Hp : ∀ k, k < size → vget P1 (off + k) = rowDot size (gf128InvMtx gf128Mul (map fst rows)) (vget (map snd rows)) k).
  { intros k Hk. rewrite HE, decide_True, H0, vadd_0_l by lia. f_equal. lia. }
  split; [done|]. split; [intros c Hc; rewrite HE; by apply decide_False|]. split.
  - intros k Hk. rewrite Hp by done. by apply (rowDot_ok gf128Mul).
  - intros a rx Ha. pose proof (lookup_lt_Some _ _ _ Ha) as Hlt. rewrite Hl in Hlt. destruct (Hrow a rx Ha) as [E1 E2].
    rewrite <- E2, <- (HS _ a Hx Hlt). unfold dotp, rowDot at 1. apply vsum_ext. intros k Hk%list_elem_of_In%in_seq.
    rewrite Hp by lia. unfold mget. by rewrite E1.
Qed.

Lemma denseV_size size D p d : size ≤ D → (∀ k, size ≤ k → k < D → p k = newElement) → is_block d → denseV size p d = denseV D p d.
Proof.
  intros Hs Hp Hd. unfold denseV. replace D with (size + (D - size)) by lia. rewrite seq_app, map_app, vsum_app.
  rewrite (vsum_0 _ (seq (0 + size) (D - size))); [symmetry; apply vadd_0_r|]. intros k Hk%list_elem_of_In%in_seq.
  rewrite Hp by lia. apply vmul_0_l. by apply pw_ok.
Qed.

Context (randomize_ok : ∀ r, vok (fst (randomize r))) (getBlocks_ok : ∀ k r, brow k (fst (getBlocks k r))).

Lemma randomRows_ok k size r : length (fst (randomRows k size r)) = k ∧
  Forall (goodRow size) (fst (randomRows k size r)).
Proof.
  revert r. induction k as [|k IH]; intros r; cbn [randomRows]; [by split|].
  pose proof (getBlocks_ok size r) as Hb. destruct (getBlocks size r) as [row r1]. pose proof (randomize_ok r1) as Hv.
  destruct (randomize r1) as [x r2]. destruct (IH r2) as [H1 H2]. destruct (randomRows k size r2) as [rest r3].
  cbn [fst] in *. split; [cbn; lia|]. constructor; [by split|done].
Qed.

(** * The whole routine *)

Section fill.
Context (px : Paxos) (HM : Matrix px) (t : Tri) (HT : Triangular px t) (X : list V) (Hdt : pDt (param px) = GF128)
  (Hblock : ∀ i, is_block (mDense px).[i]) (HX : ∀ i, vok (vget X i)).
Notation row i := (nth i (mRows px) []).
Notation D := (pDenseSize (param px)).
Notation S0 := (pSparseSize (param px)).
Notation g := (length (t_gapRows t)).

Lemma backRow_step (doDense : bool) (p2 : nat → V) P i c : (if doDense then 0 < D else ∀ k, k < D → p2 k = newElement) → backOk (vok := vok) px p2 P → i < mNumItems px →
  backRow px doDense X P i c = <[c := add (vget X i) (evalRow px P (row i) (mDense px).[i])]> P.
Proof.
  intros HD (Hl & Hp2 & _) Hi. unfold backRow. f_equal. destruct (mx_row px HM i Hi) as (Hw & _ & _).
  assert (E : (if pWeight (param px) =? 3
    then add (add (add (vget X i) (vget P (nth 0 (row i) 0))) (vget P (nth 1 (row i) 0))) (vget P (nth 2 (row i) 0))
    else foldl (fun y cc => add y (vget P cc)) (vget X i) (row i)) = add (vget X i) (sparseV P (row i))).
  { destruct (Nat.eqb_spec (pWeight (param px)) 3) as [E3|]; [|by apply (foldl_add gf128Mul)]. rewrite E3 in Hw.
    destruct (row i) as [|c0 [|c1 [|c2 []]]]; try done. rewrite <- (foldl_add gf128Mul). done. }
  rewrite E. unfold evalRow, densePart. rewrite Hdt. destruct doDense.
  - by rewrite denseBackfill_spec, <- vadd_assoc.
  - rewrite (denseV_0 gf128Mul G) by (auto; intros k Hk; rewrite Hp2 by done; auto). by rewrite vadd_0_r.
Qed.

Lemma gap_rows size fcinv : Forall2 (cancels px t) (t_gapRows t) fcinv →
  Forall2 (fun gap rx => ∃ L, cancels px t gap L ∧ rx = gapRow px X size gap L) (t_gapRows t)
    (map (fun '(gap, fc) => gapRow px X size gap fc) (combine (t_gapRows t) fcinv)).
Proof. induction 1 as [|gap L gaps Ls HL _ IH]; cbn; constructor; [by exists L|done]. Qed.

(** Without gap rows only the main rows matter. *)
Lemma fill_nogap P (doDense : bool) : g = 0 → length P = S0 + D → (∀ c, vok (vget P c)) → (∀ c, c ∈ t_mainCols t → vget P c = newElement) →
  (if doDense then 0 < D else ∀ k, k < D → vget P (S0 + k) = newElement) →
  solved gf128Mul (vok := vok) px X (backRows t (backRow px doDense X) P).
Proof.
  intros Hg Hl Hv H0 HD. apply (backRows_solved gf128Mul G px HM t HT X (fun k => vget P (S0 + k)) Hblock HX).
  - intros. by apply (backRow_step doDense (fun k => vget P (S0 + k))).
  - done.
  - done.
  - right. intros gap Hgap. destruct (t_gapRows t); [by apply not_elem_of_nil in Hgap|done].
  - intros gap Hgap. destruct (t_gapRows t); [by apply not_elem_of_nil in Hgap|done].
Qed.

Lemma gap_good size rows : 0 < size → Forall2 (fun gap rx => ∃ L, cancels px t gap L ∧ rx = gapRow px X size gap L) (t_gapRows t) rows →
  Forall (goodRow size) rows.
Proof.
  intros Hs HF. assert (Hzero : ∀ k : nat, k < size → vok (newElement : V)) by (intros; apply (ok_new (vok := vok))).
  apply Forall_forall. intros rx (a & Ha)%list_elem_of_lookup. destruct (Forall2_lookup_r _ _ _ _ _ HF Ha) as (gap & _ & L & _ & ->).
  pose proof (gapRow_spec px X size gap L (fun _ => newElement) Hs Hblock Hzero) as Hr. destruct (gapRow px X size gap L) as [r x].
  destruct Hr as (B & -> & _). split; [done|]. cbn [snd]. apply (ok_add (vok := vok)); [apply HX|]. apply vsum_ok, Forall_map, Forall_forall. auto.
Qed.

(** With gap rows, from the solution of the dense system. *)
Lemma fill_gap P size rows rand : fillStart (vok := vok) px t P → freeOk px t P → 0 < g → g ≤ size → size ≤ D →
  Forall2 (fun gap rx => ∃ L, cancels px t gap L ∧ rx = gapRow px X size gap L) (t_gapRows t) rows →
  length rand = size - g → Forall (goodRow size) rand → gf128InvMtx gf128Mul (map fst (rows ++ rand)) ≠ [] →
  solved gf128Mul (vok := vok) px X (backRows t (backRow px true X)
    (mulInto S0 size (gf128InvMtx gf128Mul (map fst (rows ++ rand))) (map snd (rows ++ rand)) P)).
Proof.
  intros (Hl & Hm & Hd & Hv) Hfree Hg Hgs HsD HF Hrl Hrg Hne. pose proof (Forall2_length _ _ _ HF) as Hlen.
  pose proof (gap_good size rows ltac:(lia) HF) as Hgood.
  destruct (gap_system size (rows ++ rand) P S0) as (Hl1 & Ho1 & Hok1 & Heq1); try done.
  { lia. } { rewrite length_app. lia. } { by apply Forall_app. } { lia. } { intros k Hk. apply Hd. lia. }
  set (P1 := mulInto _ _ _ _ P) in *. clearbody P1.
  apply (backRows_solved gf128Mul G px HM t HT X (fun k => vget P1 (S0 + k)) Hblock HX).
  - intros. apply (backRow_step true (fun k => vget P1 (S0 + k))); [lia|done|done].
  - split; [lia|]. split; [done|]. intros c. destruct (decide (S0 ≤ c ∧ c < S0 + size)) as [Hc|Hc]; [|by rewrite Ho1].
    replace c with (S0 + (c - S0)) by lia. apply Hok1. lia.
  - intros c Hc. rewrite Ho1; [auto|]. pose proof (proj2 (tr_cols px t HT) c Hc). lia.
  - destruct Hfree as [Hf|Hf]; [left|by right]. intros c Hc Hcm. rewrite Ho1 by lia. by apply Hf.
  - intros gap (a & Ha)%list_elem_of_lookup. destruct (Forall2_lookup_l _ _ _ _ _ HF Ha) as (rx & Hrx & L & HL & Erx).
    exists L. split; [done|]. cbv beta zeta. unfold densePart. rewrite Hdt.
    assert (Hdn : ∀ i, denseV D (fun k => vget P1 (S0 + k)) (mDense px).[i] = denseV size (fun k => vget P1 (S0 + k)) (mDense px).[i]).
    { intros i. symmetry. apply denseV_size; [done| |done]. intros k Hk1 Hk2. rewrite Ho1 by lia. by apply Hd. }
    rewrite Hdn, (vsum_ext _ (fun i => denseV size (fun k => vget P1 (S0 + k)) (mDense px).[i]) L) by (intros; apply Hdn).
    pose proof (gapRow_spec px X size gap L (fun k => vget P1 (S0 + k)) ltac:(lia) Hblock Hok1) as Hr.
    specialize (Heq1 a rx ltac:(rewrite lookup_app_l by (by eapply lookup_lt_Some); done)). rewrite Erx in Heq1.
    destruct (gapRow px X size gap L) as [r x]. destruct Hr as (_ & -> & Hr). cbn [fst snd] in Heq1. by rewrite <- Hr.
Qed.

(** [backfillGf128] throws when there are more gap rows than dense columns or their system has no inverse; otherwise every
    row has its value. Without gap rows it returns. *)
Lemma backfillGf128_outcome P prng : fillStart (vok := vok) px t P → freeOk px t P → (prng ≠ None → 0 < D) →
  (g ≤ D → g = 0 → ∃ P' prng', backfillGf128 px t X P prng = Ok (P', prng')) ∧
  (D < g → backfillGf128 px t X P prng = Throw RTE_LOC) ∧
  (g ≤ D → backfillGf128 px t X P prng = Throw not_invertable ∨
    ∃ P' prng', backfillGf128 px t X P prng = Ok (P', prng') ∧ solved gf128Mul (vok := vok) px X P').
Proof.
  intros Hst Hfree HD. destruct (decide (D < g)) as [Hlt|Hge].
  { split; [lia|]. split; [|lia]. intros _. unfold backfillGf128. by rewrite (proj2 (Nat.ltb_lt D g)). }
  assert (Hok : backfillGf128 px t X P prng = Throw not_invertable ∧ g ≠ 0 ∨
    ∃ P' prng', backfillGf128 px t X P prng = Ok (P', prng') ∧ solved gf128Mul (vok := vok) px X P').
  2: { split; [|split; [lia|]].
       - intros _ Hg. destruct Hok as [[_ ?]|(P' & r & E & _)]; [done|by exists P', r].
       - intros _. destruct Hok as [[? _]|]; [by left|by right]. }
  unfold backfillGf128. rewrite (proj2 (Nat.ltb_ge D g)) by lia. cbn [throw_if mbind Res_bind].
  destruct (Nat.eqb_spec g 0) as [Hg|Hg]; cbn [negb].
  - right. destruct Hst as (Hl & Hm & Hd & Hv). destruct prng as [r|].
    + pose proof (randomizeAt_spec randomize (seq S0 D) P r) as Hr. pose proof (randomizeAt_ok randomize (seq S0 D) P r randomize_ok) as Hrv. destruct (randomizeAt randomize (seq S0 D) P r) as [P1 r1].
      cbn [mbind Res_bind fst] in *. assert (Hsq : ∀ c, c ∈ seq S0 D → c < length P) by (intros c Hc%list_elem_of_In%in_seq; lia). destruct Hr as [H1 H2]; [done|].
      eexists _, _. split; [done|]. apply fill_nogap; [done|lia|by apply Hrv| |by apply HD].
      intros c Hc. rewrite H2; [by apply Hm|]. intros Hin%list_elem_of_In%in_seq. pose proof (proj2 (tr_cols px t HT) c Hc). lia.
    + eexists _, _. split; [done|]. by apply fill_nogap.
  - destruct (getFCInv_spec px t HM HT) as (fcinv & -> & HF). cbn [mbind Res_bind].
    set (size := match prng with Some _ => D | None => g end). set (rows := map _ (combine (t_gapRows t) fcinv)).
    assert (HR : Forall2 (fun gap rx => ∃ L, cancels px t gap L ∧ rx = gapRow px X size gap L) (t_gapRows t) rows) by (by apply gap_rows).
    destruct (match prng with Some r => let '(rand, r0) := randomRows (D - g) size r in (rand, Some r0) | None => ([], None) end)
      as [rand prng'] eqn:Er.
    assert (Hrand : length rand = size - g ∧ Forall (goodRow size) rand).
    { unfold size in *. destruct prng as [r|].
      - pose proof (randomRows_ok (D - g) D r) as Hr. destruct (randomRows (D - g) D r) as [rd r1]. injection Er as <- <-. destruct Hr. by split.
      - injection Er as <- <-. split; [cbn; lia|constructor]. }
    destruct Hrand as [Hr1 Hr2]. destruct (gf128InvMtx gf128Mul (map fst (rows ++ rand))) as [|EE0 EE1] eqn:EE.
    + left. done.
    + cbn [length Nat.eqb throw_if mbind Res_bind]. right. eexists _, _. split; [done|]. rewrite <- EE. cbn [orb].
      apply fill_gap; try done.
      * lia.
      * unfold size. destruct prng; lia.
      * unfold size. destruct prng; lia.
      * by rewrite EE.
Qed.

End fill.
End gf.
End PaxosGf.
