(* ===== verification/PaxosBin.v ===== *)
(** Back substitution with a binary dense part ([backfillBinary], [getGapCols], [getX2Prime] and [getEPrime] in
    src/volepsi/volePSI/PaxosImpl.h): the gap rows need an invertible selection of the dense columns, which is searched for
    among all combinations. [DenseMtx::invert], [choose] and [ithCombination] of libOTe are parameters; a DenseMtx is the
    list of its rows. *)
From stdpp Require Import sets.
From S2P Require Import Prelude Words PxUtil PaxosHash Paxos PaxosTri Gf128 PxVec PaxosFc PaxosBack.
Open Scope nat_scope.

Module PaxosBin.
Import PxUtil PaxosHash Paxos PaxosTri PxVec PaxosFc PaxosBack.

Definition not_found : exn := RuntimeError "failed to find invertible matrix. ".

Definition bget (m : list (list bool)) (i j : nat) : bool := nth j (nth i m []) false.

(** The dense columns that are not gap columns. *)
Definition others (gapCols : list nat) (D : nat) : list nat :=
  List.filter (fun i => negb (existsb (Nat.eqb i) gapCols)) (seq 0 D).

Section bin.
Context (invert : list (list bool) → list (list bool)) (choose : nat → nat → nat) (ithCombination : nat → nat → nat → list nat).
Context {V : Type} {H : Helper V} {R : Type} (randomize : R → V * R).

(** Row [i] of E - F C^-1 B on all dense columns, as [getGapCols] and as [getEPrime] compute it. *)
Definition gapRowBits (px : Paxos) (gap : nat * nat) (fc : list nat) : block :=
  Z.lxor (mDense px).[fst gap] (foldl (fun FCB c => Z.lxor FCB (mDense px).[c]) 0%Z fc).
Definition primeRowBits (px : Paxos) (gap : nat * nat) (fc : list nat) : block :=
  foldl (fun EERow j => Z.lxor EERow (mDense px).[j]) (mDense px).[fst gap] fc.

Definition selectBits (EERow : block) (gapCols : list nat) : list bool := map (fun c => Z.testbit EERow (Z.of_nat c)) gapCols.

(** The turns [ci] to [e - 1] of the search. *)
Fixpoint gapColsLoop (k ci : nat) (px : Paxos) (fcinv : list (list nat)) (gapRows : list (nat * nat)) : Res (list nat) :=
  let gapCols := ithCombination ci (pDenseSize (param px)) (length gapRows) in
  match k with
  | O => Throw not_found
  | S k =>
      let EE := map (fun '(gap, fc) => selectBits (gapRowBits px gap fc) gapCols) (combine gapRows fcinv) in
      if negb (length (invert EE) =? 0) then Ok gapCols else gapColsLoop k (S ci) px fcinv gapRows
  end.

Definition getGapCols (px : Paxos) (fcinv : list (list nat)) (gapRows : list (nat * nat)) : Res (list nat) :=
  if length gapRows =? 0 then Ok [] else
  gapColsLoop (choose (pDenseSize (param px)) (length gapRows)) 0 px fcinv gapRows.

(** x2' = x2 - D' r - F C^-1 x1, where [P] is given when the encoding is random. *)
Definition x2Prime (px : Paxos) (X : list V) (P : option (list V)) (gapCols : list nat) (gap : nat * nat) (fc : list nat) : V :=
  let x := foldl (fun x j => add x (vget X j)) (vget X (fst gap)) fc in
  match P with
  | None => x
  | Some P => foldl (fun x i => if Z.testbit (primeRowBits px gap fc) (Z.of_nat i) then add x (vget P (pSparseSize (param px) + i)) else x)
      x (others gapCols (pDenseSize (param px)))
  end.

Definition getEPrime (px : Paxos) (gapCols : list nat) (gap : nat * nat) (fc : list nat) : list bool :=
  selectBits (primeRowBits px gap fc) gapCols.

(** The turn of main row [i] with main column [c]; [gapCols] are the columns of the masks. *)
Definition backRowBin (px : Paxos) (random : bool) (gapCols : list nat) (X : list V) (P : list V) (i c : nat) : list V :=
  let S0 := pSparseSize (param px) in
  let y := foldl (fun y cc => add y (vget P cc)) (vget X i) (nth i (mRows px) []) in
  let d := wrap 64 (mDense px).[i] in
  let y := if random
    then fst (for_ 0 (pDenseSize (param px)) (fun j '(y, d) => (if Z.testbit d 0 then add y (vget P (S0 + j)) else y, Z.shiftr d 1)) (y, d))
    else foldl (fun y gc => if (Z.land d (wrap 64 (Z.shiftl 1 (Z.of_nat gc))) =? 0)%Z then y else add y (vget P (S0 + gc))) y gapCols in
  <[c := y]> P.

Definition backfillBinary (px : Paxos) (t : Tri) (X P : list V) (prng : option R) : Res (list V * option R) :=
  let g := length (t_gapRows t) in let D := pDenseSize (param px) in let S0 := pSparseSize (param px) in
  throw_if (pG (param px) <? g) RTE_LOC ;;
  '(P, prng, gapCols) ← (if negb (g =? 0) then
      fcinv ← getFCInv px t;
      gapCols ← getGapCols px fcinv (t_gapRows t);
      let '(P, prng) := match prng with
        | Some r => let '(P, r) := randomizeAt randomize (map (fun i => S0 + i) (others gapCols D)) P r in (P, Some r)
        | None => (P, None)
        end in
      let PP := match prng with Some _ => Some P | None => None end in
      let xx2 := map (fun '(gap, fc) => x2Prime px X PP gapCols gap fc) (combine (t_gapRows t) fcinv) in
      let EEInv := invert (map (fun '(gap, fc) => getEPrime px gapCols gap fc) (combine (t_gapRows t) fcinv)) in
      let P := for_ 0 g (fun i P => for_ 0 g (fun j P =>
        let c := S0 + nth i gapCols 0 in
        if bget EEInv i j then <[c := add (vget P c) (vget xx2 j)]> P else P) P) P in
      mret (P, prng, gapCols)
    else mret (match prng with
      | Some r => let '(P, r) := randomizeAt randomize (seq S0 D) P r in (P, Some r, [])
      | None => (P, None, [])
      end));
  let random := match prng with Some _ => true | None => false end in
  mret (backRows t (backRowBin px random gapCols X) P, prng).

(** * Bits of sums *)

Context {gf128Mul : block → block → block} {vok : V → Prop} {HOk : HelperOk gf128Mul H vok}.

Lemma bits_same px gap fc : gapRowBits px gap fc = primeRowBits px gap fc.
Proof.
  unfold gapRowBits, primeRowBits. assert (E : ∀ x y, foldl (fun E j => Z.lxor E (mDense px).[j]) (Z.lxor x y) fc = Z.lxor x (foldl (fun E j => Z.lxor E (mDense px).[j]) y fc)).
  { intros x y. revert y. induction fc as [|j fc IH]; intros y; cbn [foldl]; [done|]. by rewrite Z.lxor_assoc, IH. }
  by rewrite <- E, Z.lxor_0_r.
Qed.

(** [x] when the bit is set. *)
Definition bsel (b : bool) (x : V) : V := if b then x else newElement.

Lemma bsel_xorb b b' x : bsel (xorb b b') x = add (bsel b x) (bsel b' x).
Proof. destruct b, b'; cbn; by rewrite ?vadd_0_l, ?vadd_0_r, ?vadd_nil. Qed.

Lemma bsel_sum b (f : nat → V) l : bsel b (vsum (map f l)) = vsum (map (fun k => bsel b (f k)) l).
Proof. destruct b; [done|]. symmetry. by apply vsum_0. Qed.

Lemma bsel_bits (f : nat → bool) x l : vsum (map (fun k => bsel (f k) x) l) = bsel (foldl xorb false (map f l)) x.
Proof.
  assert (E : ∀ b, add (bsel b x) (vsum (map (fun k => bsel (f k) x) l)) = bsel (foldl xorb b (map f l)) x).
  { induction l as [|k l IH]; intros b; cbn [map foldl]; [apply vadd_0_r|]. by rewrite vsum_cons, vadd_assoc, <- bsel_xorb. }
  rewrite <- E. symmetry. apply vadd_0_l.
Qed.

Lemma denseB_xor size p a b : denseB size p (Z.lxor a b) = add (denseB size p a) (denseB size p b).
Proof. unfold denseB. rewrite <- vsum_add. apply vsum_ext. intros k _. rewrite Z.lxor_spec. apply bsel_xorb. Qed.

Lemma denseB_prime px size p gap fc : denseB size p (primeRowBits px gap fc) =
  add (denseB size p (mDense px).[fst gap]) (vsum (map (fun j => denseB size p (mDense px).[j]) fc)).
Proof.
  unfold primeRowBits. generalize ((mDense px).[fst gap]) as x. induction fc as [|j fc IH]; intros x; cbn [foldl map]; [symmetry; apply vadd_0_r|].
  by rewrite IH, denseB_xor, vsum_cons, vadd_assoc.
Qed.

(** The dense columns are the gap columns and the others. *)
Lemma others_perm gapCols D : NoDup gapCols → (∀ c, c ∈ gapCols → c < D) → seq 0 D ≡ₚ gapCols ++ others gapCols D.
Proof.
  intros Hnd Hlt. apply NoDup_Permutation; [apply NoDup_ListNoDup, seq_NoDup| |].
  - apply NoDup_app. split; [done|]. split; [|apply NoDup_ListNoDup, List.NoDup_filter, seq_NoDup].
    intros x Hx (_ & Hn)%list_elem_of_In%filter_In. apply existsb_in in Hx. by rewrite Hx in Hn.
  - intros x. rewrite elem_of_app. unfold others. rewrite !list_elem_of_In, filter_In, in_seq, <- !list_elem_of_In.
    destruct (existsb (Nat.eqb x) gapCols) eqn:E.
    + apply existsb_in in E. specialize (Hlt x E). split; [by left|lia].
    + apply not_true_iff_false in E. rewrite existsb_in in E. cbn. split; [intros; right; split; [lia|done]|intros [?|[? _]]; [done|lia]].
Qed.

Lemma others_in gapCols D x : x ∈ others gapCols D ↔ x < D ∧ x ∉ gapCols.
Proof.
  unfold others. rewrite list_elem_of_In, filter_In, in_seq, negb_true_iff, <- not_true_iff_false, existsb_in. split; intros []; split; (done || lia).
Qed.

Lemma denseB_split gapCols D p d : NoDup gapCols → (∀ c, c ∈ gapCols → c < D) →
  denseB D p d = add (vsum (map (fun c => bsel (Z.testbit d (Z.of_nat c)) (p c)) gapCols))
    (vsum (map (fun c => bsel (Z.testbit d (Z.of_nat c)) (p c)) (others gapCols D))).
Proof.
  intros Hnd Hlt. unfold denseB. rewrite <- vsum_app, <- map_app. apply vsum_perm, Permutation_map. by apply others_perm.
Qed.

Lemma foldl_bsel (f : nat → bool) (v : nat → V) x l : foldl (fun x i => if f i then add x (v i) else x) x l = add x (vsum (map (fun i => bsel (f i) (v i)) l)).
Proof.
  revert x. induction l as [|i l IH]; intros x; cbn [foldl map]; [symmetry; apply vadd_0_r|]. rewrite IH, vsum_cons, vadd_assoc. f_equal.
  destruct (f i); cbn; [done|]. by rewrite vadd_0_r.
Qed.

(** What [x2Prime] computes. *)
Lemma x2Prime_spec px X P gapCols gap fc : x2Prime px X P gapCols gap fc =
  add (add (vget X (fst gap)) (vsum (map (vget X) fc))) (match P with None => newElement | Some P =>
    vsum (map (fun i => bsel (Z.testbit (primeRowBits px gap fc) (Z.of_nat i)) (vget P (pSparseSize (param px) + i)))
      (others gapCols (pDenseSize (param px)))) end).
Proof.
  unfold x2Prime. rewrite (foldl_add gf128Mul). fold (sparseV X fc). destruct P as [P|]; [|by rewrite vadd_0_r].
  apply (foldl_bsel (fun i => Z.testbit (primeRowBits px gap fc) (Z.of_nat i)) (fun i => vget P (pSparseSize (param px) + i))).
Qed.

(** * One turn *)

Lemma land_bit d gc : gc < 64 → (Z.land d (wrap 64 (Z.shiftl 1 (Z.of_nat gc))) =? 0)%Z = negb (Z.testbit d (Z.of_nat gc)).
Proof.
  intros Hgc. rewrite Z.shiftl_1_l. assert (Hw : wrap 64 (2 ^ Z.of_nat gc) = (2 ^ Z.of_nat gc)%Z).
  { apply wrap_small. split; [lia|]. apply Z.pow_lt_mono_r; lia. }
  rewrite Hw. destruct (Z.testbit d (Z.of_nat gc)) eqn:E; cbn [negb].
  - apply Z.eqb_neq. intros H0. assert (Hb : Z.testbit (Z.land d (2 ^ Z.of_nat gc)) (Z.of_nat gc) = true).
    { by rewrite Z.land_spec, pow2_testbit, Z.eqb_refl, E by lia. }
    by rewrite H0, Z.testbit_0_l in Hb.
  - apply Z.eqb_eq, Z.bits_inj'. intros i Hi. rewrite Z.land_spec, pow2_testbit, Z.testbit_0_l by lia.
    destruct (Z.eqb_spec i (Z.of_nat gc)) as [->|]; [by rewrite E|apply andb_false_r].
Qed.

Lemma random_loop P S0 D y d : D ≤ 64 →
  fst (for_ 0 D (fun j '(y, d) => (if Z.testbit d 0 then add y (vget P (S0 + j)) else y, Z.shiftr d 1)) (y, wrap 64 d)) =
  add y (denseB D (fun k => vget P (S0 + k)) d).
Proof.
  intros HD. loop_inv (fun j (st : V * Z) => st = (add y (denseB j (fun k => vget P (S0 + k)) d), Z.shiftr (wrap 64 d) (Z.of_nat j))) as HI.
  - lia.
  - cbn. by rewrite vadd_0_r.
  - intros j st Hj ->. rewrite Z.shiftr_shiftr by lia. rewrite Z.shiftr_spec, wrap_testbit by lia.
    replace (Z.of_nat j + 1)%Z with (Z.of_nat (S j)) by lia. replace (0 + Z.of_nat j)%Z with (Z.of_nat j) by lia.
    rewrite (proj2 (Z.ltb_lt _ _)) by lia. cbn [andb]. f_equal. unfold denseB. rewrite seq_S, map_app, vsum_app. cbn [map Nat.add]. rewrite vsum_1.
    destruct (Z.testbit d (Z.of_nat j)); [by rewrite vadd_assoc|by rewrite vadd_0_r].
  - by rewrite HI.
Qed.

Lemma mask_loop P S0 y d gapCols : (∀ k, k ∈ gapCols → k < 64) →
  foldl (fun y gc => if (Z.land (wrap 64 d) (wrap 64 (Z.shiftl 1 (Z.of_nat gc))) =? 0)%Z then y else add y (vget P (S0 + gc))) y gapCols =
  add y (vsum (map (fun c => bsel (Z.testbit d (Z.of_nat c)) (vget P (S0 + c))) gapCols)).
Proof.
  intros Hlt. revert y. induction gapCols as [|gc gapCols IH]; intros y; cbn [foldl map]; [symmetry; apply vadd_0_r|].
  assert (Hgc : gc < 64) by (apply Hlt, elem_of_cons; by left). rewrite IH by (intros; apply Hlt, elem_of_cons; by right).
  rewrite land_bit, wrap_testbit, vsum_cons, vadd_assoc by lia. rewrite (proj2 (Z.ltb_lt _ _)) by lia. f_equal.
  destruct (Z.testbit d (Z.of_nat gc)); cbn; [done|by rewrite vadd_0_r].
Qed.

Section fill.
Context (px : Paxos) (HM : Matrix px) (t : Tri) (HT : Triangular px t) (X : list V) (Hdt : pDt (param px) = Binary)
  (HD64 : pDenseSize (param px) ≤ 64) (Hblock : ∀ i, is_block (mDense px).[i]) (HX : ∀ i, vok (vget X i))
  (randomize_ok : ∀ r, vok (fst (randomize r))) (G : Gf128 gf128Mul).
Notation row i := (nth i (mRows px) []).
Notation D := (pDenseSize (param px)).
Notation S0 := (pSparseSize (param px)).
Notation g := (length (t_gapRows t)).

Lemma backRowBin_step (random : bool) (p2 : nat → V) gapCols P i c : NoDup gapCols → (∀ k, k ∈ gapCols → k < D) →
  (random = false → ∀ k, k < D → k ∉ gapCols → p2 k = newElement) → backOk (vok := vok) px p2 P → i < mNumItems px →
  backRowBin px random gapCols X P i c = <[c := add (vget X i) (evalRow gf128Mul px P (row i) (mDense px).[i])]> P.
Proof.
  intros Hnd Hlt Hz (Hl & Hp2 & _) Hi. unfold backRowBin. f_equal. rewrite (foldl_add gf128Mul).
  unfold evalRow, densePart. rewrite Hdt, vadd_assoc. destruct random.
  - by rewrite random_loop.
  - rewrite (denseB_split gapCols D) by done. rewrite (vsum_0 _ (others gapCols D)), vadd_0_r.
    2: { intros k [Hk Hn]%others_in. rewrite Hp2, Hz by done. by destruct (Z.testbit _ _). }
    apply mask_loop. intros k Hk. specialize (Hlt k Hk). lia.
Qed.

(** * The gap *)

Definition bitRows (n : nat) (M : list (list bool)) : Prop := length M = n ∧ ∀ r, r ∈ M → length r = n.

(** The documented behaviour of [DenseMtx::invert] and [ithCombination]. *)
Definition inverse (n : nat) (M Inv : list (list bool)) : Prop :=
  ∀ a b, a < n → b < n → foldl xorb false (map (fun k => bget M a k && bget Inv k b) (seq 0 n)) = (a =? b).
Definition invert_ok : Prop := ∀ n M, bitRows n M → invert M ≠ [] → inverse n M (invert M).
Definition combination_ok : Prop := ∀ ci n k, ci < choose n k →
  NoDup (ithCombination ci n k) ∧ length (ithCombination ci n k) = k ∧ ∀ c, c ∈ ithCombination ci n k → c < n.

Context (Hinv : invert_ok) (Hcomb : combination_ok).

(** The search returns gap columns whose matrix has an inverse, or throws. *)
Lemma gapCols_spec fcinv : 0 < g →
  getGapCols px fcinv (t_gapRows t) = Throw not_found ∨
  ∃ gapCols, getGapCols px fcinv (t_gapRows t) = Ok gapCols ∧ NoDup gapCols ∧ length gapCols = g ∧ (∀ c, c ∈ gapCols → c < D) ∧
    invert (map (fun '(gap, fc) => getEPrime px gapCols gap fc) (combine (t_gapRows t) fcinv)) ≠ [].
Proof.
  intros Hg. unfold getGapCols. rewrite (proj2 (Nat.eqb_neq g 0)) by lia.
  assert (HL : ∀ k ci, ci + k = choose D g → gapColsLoop k ci px fcinv (t_gapRows t) = Throw not_found ∨
    ∃ gapCols, gapColsLoop k ci px fcinv (t_gapRows t) = Ok gapCols ∧ NoDup gapCols ∧ length gapCols = g ∧ (∀ c, c ∈ gapCols → c < D) ∧
      invert (map (fun '(gap, fc) => getEPrime px gapCols gap fc) (combine (t_gapRows t) fcinv)) ≠ []).
  { induction k as [|k IH]; intros ci Hk; cbn [gapColsLoop]; [by left|]. destruct (negb _) eqn:E.
    - right. destruct (Hcomb ci D g ltac:(lia)) as (H1 & H2 & H3). eexists. split; [done|]. split; [done|]. split; [done|]. split; [done|].
      intros E0. apply negb_true_iff, Nat.eqb_neq in E. apply E. replace (map _ (combine (t_gapRows t) fcinv)) with
        (map (fun '(gap, fc) => getEPrime px (ithCombination ci D g) gap fc) (combine (t_gapRows t) fcinv)); [by rewrite E0|].
      apply map_ext. intros [gap fc]. unfold getEPrime. by rewrite bits_same.
    - apply IH. lia. }
  apply HL. lia.
Qed.

(** p2 += E'^-1 x2' on the gap columns. *)
Definition addInverse (EEInv : list (list bool)) (gapCols : list nat) (xx2 P : list V) : list V :=
  for_ 0 g (fun i P => for_ 0 g (fun j P =>
    let c := S0 + nth i gapCols 0 in
    if bget EEInv i j then <[c := add (vget P c) (vget xx2 j)]> P else P) P) P.

Lemma addInverse_spec EEInv gapCols xx2 P : NoDup gapCols → length gapCols = g → (∀ c, c ∈ gapCols → c < D) → length P = S0 + D →
  let P' := addInverse EEInv gapCols xx2 P in
  length P' = length P ∧
  (∀ i, i < g → vget P' (S0 + nth i gapCols 0) = add (vget P (S0 + nth i gapCols 0)) (vsum (map (fun j => bsel (bget EEInv i j) (vget xx2 j)) (seq 0 g)))) ∧
  ∀ c, (∀ i, i < g → c ≠ S0 + nth i gapCols 0) → vget P' c = vget P c.
Proof.
  intros Hnd Hl Hlt HP. cbv zeta. unfold addInverse. assert (Hc : ∀ i, i < g → nth i gapCols 0 < D) by (intros i Hi; apply Hlt, list_elem_of_In, nth_In; lia).
  assert (Hinj : ∀ i j, i < g → j < g → nth i gapCols 0 = nth j gapCols 0 → i = j) by (intros i j Hi Hj; apply NoDup_nth; [by apply NoDup_ListNoDup|lia|lia]).
  assert (Hrow : ∀ i Q, i < g → length Q = length P → let Q' := for_ 0 g (fun j P => let c := S0 + nth i gapCols 0 in
      if bget EEInv i j then <[c := add (vget P c) (vget xx2 j)]> P else P) Q in
    length Q' = length P ∧ ∀ c, vget Q' c = if decide (c = S0 + nth i gapCols 0)
      then add (vget Q c) (vsum (map (fun j => bsel (bget EEInv i j) (vget xx2 j)) (seq 0 g))) else vget Q c).
  { intros i Q Hi HQ. cbv zeta. specialize (Hc i Hi). set (ci := S0 + nth i gapCols 0) in *.
    loop_inv (fun j (Q' : list V) => length Q' = length P ∧ ∀ c, vget Q' c = if decide (c = ci)
      then add (vget Q c) (vsum (map (fun j => bsel (bget EEInv i j) (vget xx2 j)) (seq 0 j))) else vget Q c) as HI; [lia| | |exact HI].
    - split; [done|]. intros c. cbn. rewrite vadd_0_r. by case_decide.
    - intros j Q' Hj [H1 H2]. rewrite seq_S, map_app, vsum_app. cbn [map Nat.add]. rewrite vsum_1. destruct (bget EEInv i j); cbn [bsel].
      + split; [by rewrite length_insert|]. intros c. rewrite vget_upd by lia. case_decide as E.
        * subst c. rewrite H2, !decide_True by done. by rewrite vadd_assoc.
        * rewrite H2, !decide_False by congruence. done.
      + split; [done|]. intros c. by rewrite H2, vadd_0_r. }
  loop_inv (fun i (Q : list V) => length Q = length P ∧
    (∀ k, k < g → vget Q (S0 + nth k gapCols 0) = if k <? i then add (vget P (S0 + nth k gapCols 0))
      (vsum (map (fun j => bsel (bget EEInv k j) (vget xx2 j)) (seq 0 g))) else vget P (S0 + nth k gapCols 0)) ∧
    ∀ c, (∀ k, k < g → c ≠ S0 + nth k gapCols 0) → vget Q c = vget P c) as HI.
  - lia.
  - split; [done|]. split; [|done]. intros k _. done.
  - intros i Q Hi (H1 & H2 & H3). destruct (Hrow i Q ltac:(lia) H1) as [R1 R2]. cbv zeta in R1, R2. split; [exact R1|]. split.
    + intros k Hk. rewrite R2, H2 by done. case_decide as E.
      * assert (k = i) as -> by (apply Hinj; lia). rewrite (proj2 (Nat.ltb_ge i i)) by lia. by rewrite (proj2 (Nat.ltb_lt i (S i))) by lia.
      * destruct (Nat.ltb_spec k i), (Nat.ltb_spec k (S i)); try done; [lia|]. exfalso. apply E. by replace k with i by lia.
    + intros c Hcn. rewrite R2, decide_False by (apply Hcn; lia). by apply H3.
  - destruct HI as (H1 & H2 & H3). split; [done|]. split; [|done]. intros i Hi. rewrite H2 by done. by rewrite (proj2 (Nat.ltb_lt i g)).
Qed.

(** An inverse solves its system. *)
Lemma inverse_solves n M Inv (x : nat → V) a : inverse n M Inv → a < n →
  vsum (map (fun i => bsel (bget M a i) (vsum (map (fun j => bsel (bget Inv i j) (x j)) (seq 0 n)))) (seq 0 n)) = x a.
Proof.
  intros HI Ha. rewrite (vsum_ext _ (fun i => vsum (map (fun j => bsel (bget M a i && bget Inv i j) (x j)) (seq 0 n)))).
  2: { intros i _. rewrite bsel_sum. apply vsum_ext. intros j _. by destruct (bget M a i), (bget Inv i j). }
  rewrite vsum_swap, <- (vsum_seq_1 x n a Ha). apply vsum_ext. intros j Hj%list_elem_of_In%in_seq.
  rewrite (bsel_bits (fun i => bget M a i && bget Inv i j)), HI by lia. destruct (Nat.eqb_spec a j) as [->|]; [by rewrite decide_True|by rewrite decide_False].
Qed.

Lemma sum_nth (f : nat → V) l : vsum (map f l) = vsum (map (fun i => f (nth i l 0)) (seq 0 (length l))).
Proof.
  f_equal. apply (nth_ext _ _ newElement newElement); [by rewrite !length_map, length_seq|]. intros i Hi. rewrite length_map in Hi.
  rewrite (nth_map_seq _ _ _ _ Hi). by rewrite (nth_map f l i 0).
Qed.

(** The equation of gap row [a] after the dense unknowns are set. *)
Lemma gap_equation (random : bool) gapCols fcinv P a gap L : NoDup gapCols → length gapCols = g → (∀ c, c ∈ gapCols → c < D) →
  let EE := map (fun '(gap, fc) => getEPrime px gapCols gap fc) (combine (t_gapRows t) fcinv) in
  invert EE ≠ [] → length fcinv = g → t_gapRows t !! a = Some gap → fcinv !! a = Some L →
  length P = S0 + D → (∀ i, i < g → vget P (S0 + nth i gapCols 0) = newElement) →
  (random = false → ∀ k, k < D → k ∉ gapCols → vget P (S0 + k) = newElement) →
  let xx2 := map (fun '(gap, fc) => x2Prime px X (if random then Some P else None) gapCols gap fc) (combine (t_gapRows t) fcinv) in
  let p2 k := vget (addInverse (invert EE) gapCols xx2 P) (S0 + k) in
  add (denseB D p2 (mDense px).[fst gap]) (vsum (map (fun j => denseB D p2 (mDense px).[j]) L)) = add (vget X (fst gap)) (vsum (map (vget X) L)).
Proof.
  intros Hnd Hl Hlt EE Hne Hfl Ha HL HP Hz Hr xx2 p2. pose proof (lookup_lt_Some _ _ _ Ha) as Hag.
  destruct (addInverse_spec (invert EE) gapCols xx2 P Hnd Hl Hlt HP) as (_ & HA & HO).
  assert (Hab : ∀ {A} (f : nat * nat → list nat → A), map (fun '(gap, fc) => f gap fc) (combine (t_gapRows t) fcinv) !! a = Some (f gap L)).
  { intros A f. change (map ?h ?l) with (h <$> l). rewrite list_lookup_fmap. assert (E : combine (t_gapRows t) fcinv !! a = Some (gap, L)).
    { clear -Ha HL. revert a fcinv Ha HL. induction (t_gapRows t) as [|y l IH]; intros [|a] [|z fcinv] Ha HL; try done; cbn in *; [congruence|]. by apply IH. }
    by rewrite E. }
  assert (Hin : inverse g EE (invert EE)).
  { apply Hinv; [|done]. split; [unfold EE; rewrite length_map, length_combine; lia|]. intros r Hr'. unfold EE in Hr'.
    apply list_elem_of_In, in_map_iff in Hr' as ([gp fc] & <- & _). unfold getEPrime, selectBits. by rewrite length_map. }
  rewrite <- denseB_prime, (denseB_split gapCols D) by done.
  rewrite (vsum_ext _ (fun c => bsel (Z.testbit (primeRowBits px gap L) (Z.of_nat c)) (vget P (S0 + c))) (others gapCols D)).
  2: { intros c [Hc Hcn]%others_in. unfold p2. rewrite HO; [done|]. intros k Hk E. apply Hcn. assert (c = nth k gapCols 0) as -> by lia. apply list_elem_of_In, nth_In. lia. }
  rewrite sum_nth, Hl.
  rewrite (vsum_ext _ (fun i => bsel (bget EE a i) (vsum (map (fun j => bsel (bget (invert EE) i j) (vget xx2 j)) (seq 0 g)))) (seq 0 g)).
  2: { intros i Hi%list_elem_of_In%in_seq. unfold p2. rewrite HA, Hz, vadd_0_l by lia. f_equal. unfold bget, EE.
       rewrite (nth_lookup_Some _ _ [] _ (Hab _ (getEPrime px gapCols))). unfold getEPrime, selectBits. symmetry.
       apply (nth_map (fun c => Z.testbit (primeRowBits px gap L) (Z.of_nat c)) gapCols i 0 false). lia. }
  rewrite (inverse_solves g EE (invert EE)) by done. unfold vget at 1, xx2. rewrite (nth_lookup_Some _ _ newElement _ (Hab _ (x2Prime px X _ gapCols))).
  rewrite x2Prime_spec. destruct random.
  - by rewrite <- vadd_assoc, vadd_nil, vadd_0_r.
  - rewrite vadd_0_r. rewrite (vsum_0 _ (others gapCols D)); [apply vadd_0_r|]. intros c [Hc Hcn]%others_in. rewrite Hr by done. by destruct (Z.testbit _ _).
Qed.

Lemma randomizeAt_free gapCols P r : length P = S0 + D → (∀ c, c ∈ gapCols → c < D) → 
  let P1 := fst (randomizeAt randomize (map (fun i => S0 + i) (others gapCols D)) P r) in
  length P1 = length P ∧ (∀ c, c < S0 → vget P1 c = vget P c) ∧ (∀ k, k ∈ gapCols → vget P1 (S0 + k) = vget P (S0 + k)) ∧
  ((∀ c, vok (vget P c)) → ∀ c, vok (vget P1 c)).
Proof.
  intros HP Hlt. assert (Hin : ∀ c, c ∈ map (fun i => S0 + i) (others gapCols D) → S0 ≤ c ∧ c < S0 + D ∧ c - S0 ∉ gapCols).
  { intros c (k & <- & [Hk Hn]%list_elem_of_In%others_in)%list_elem_of_In%in_map_iff. replace (S0 + k - S0) with k by lia. split; [lia|]. split; [lia|done]. }
  destruct (randomizeAt_spec randomize (map (fun i => S0 + i) (others gapCols D)) P r) as [H1 H2]; [intros c Hc%Hin; lia|].
  split; [done|]. split; [intros c Hc; apply H2; intros Hc'%Hin; lia|]. split; [|intros HPv; apply randomizeAt_ok; [done|intros c Hc%Hin; lia|done]]. intros k Hk. apply H2. intros (_ & _ & Hn)%Hin.
  by replace (S0 + k - S0) with k in Hn by lia.
Qed.

Lemma addInverse_ok EEInv gapCols xx2 P : NoDup gapCols → length gapCols = g → (∀ c, c ∈ gapCols → c < D) → length P = S0 + D →
  (∀ c, vok (vget P c)) → (∀ j, vok (vget xx2 j)) → ∀ c, vok (vget (addInverse EEInv gapCols xx2 P) c).
Proof.
  intros Hnd Hl Hlt HP HPv Hxv c. destruct (addInverse_spec EEInv gapCols xx2 P Hnd Hl Hlt HP) as (_ & HA & HO).
  destruct (decide (Exists (fun i => c = S0 + nth i gapCols 0) (seq 0 g))) as [(i & Hi%list_elem_of_In%in_seq & ->)%Exists_exists|Hno].
  - rewrite HA by lia. apply (ok_add (vok := vok)); [done|]. apply vsum_ok, Forall_map, Forall_forall. intros j _.
    destruct (bget EEInv i j); [exact (Hxv j)|apply (ok_new (vok := vok))].
  - rewrite HO; [done|]. intros i Hi E. apply Hno, Exists_exists. exists i. split; [apply list_elem_of_In, in_seq; lia|done].
Qed.

Lemma x2_ok P gapCols fcinv : (match P with Some P => ∀ c, vok (vget P c) | None => True end) →
  ∀ j, vok (vget (map (fun '(gap, fc) => x2Prime px X P gapCols gap fc) (combine (t_gapRows t) fcinv)) j).
Proof.
  intros HPv j. unfold vget. match goal with |- vok (nth j ?l newElement) => destruct (nth_in_or_default j l newElement) as [Hin|E] end; [|rewrite E; apply (ok_new (vok := vok))].
  apply in_map_iff in Hin as ([gap fc] & <- & _). rewrite x2Prime_spec.
  assert (Hsum : ∀ {A} (f : A → V) l, (∀ x, vok (f x)) → vok (vsum (map f l))) by (intros A f l' Hf; apply vsum_ok, Forall_map, Forall_forall; auto).
  apply (ok_add (vok := vok)); [apply (ok_add (vok := vok)); [apply HX|by apply Hsum]|]. destruct P as [P|]; [|apply (ok_new (vok := vok))].
  apply Hsum. intros i. destruct (Z.testbit _ _); [apply HPv|apply (ok_new (vok := vok))].
Qed.

(** The loop over the main rows after the gap is solved. *)
Lemma bin_gap (random : bool) gapCols fcinv P : NoDup gapCols → length gapCols = g → (∀ c, c ∈ gapCols → c < D) →
  let EE := map (fun '(gap, fc) => getEPrime px gapCols gap fc) (combine (t_gapRows t) fcinv) in
  invert EE ≠ [] → Forall2 (cancels px t) (t_gapRows t) fcinv →
  length P = S0 + D → (∀ c, vok (vget P c)) → (∀ c, c ∈ t_mainCols t → vget P c = newElement) → (∀ i, i < g → vget P (S0 + nth i gapCols 0) = newElement) →
  (random = false → ∀ k, k < D → k ∉ gapCols → vget P (S0 + k) = newElement) → freeOk px t P →
  let xx2 := map (fun '(gap, fc) => x2Prime px X (if random then Some P else None) gapCols gap fc) (combine (t_gapRows t) fcinv) in
  solved gf128Mul (vok := vok) px X (backRows t (backRowBin px random gapCols X) (addInverse (invert EE) gapCols xx2 P)).
Proof.
  intros Hnd Hl Hlt EE Hne HF HP HPv Hm Hz Hr Hfree xx2. pose proof (Forall2_length _ _ _ HF) as Hfl.
  destruct (addInverse_spec (invert EE) gapCols xx2 P Hnd Hl Hlt HP) as (H1 & _ & HO).
  assert (Hsp : ∀ c, c < S0 → vget (addInverse (invert EE) gapCols xx2 P) c = vget P c) by (intros c Hc; apply HO; intros; lia).
  apply (backRows_solved gf128Mul G px HM t HT X (fun k => vget (addInverse (invert EE) gapCols xx2 P) (S0 + k)) Hblock HX).
  - intros P' i c HP' Hi. apply (backRowBin_step random (fun k => vget (addInverse (invert EE) gapCols xx2 P) (S0 + k))); try done.
    intros Hrand k Hk Hkn. rewrite HO; [by apply Hr|]. intros i' Hi' E. apply Hkn. assert (k = nth i' gapCols 0) as -> by lia. apply list_elem_of_In, nth_In. lia.
  - split; [lia|]. split; [done|]. apply addInverse_ok; try done. intros j. unfold xx2. apply x2_ok. by destruct random.
  - intros c Hc. rewrite Hsp by (by apply (tr_cols px t HT)). auto.
  - destruct Hfree as [Hf|Hf]; [left|by right]. intros c Hc Hcm. rewrite Hsp by done. by apply Hf.
  - intros gap (a & Ha)%list_elem_of_lookup. destruct (Forall2_lookup_l _ _ _ _ _ HF Ha) as (L & HL & Hcan). exists L. split; [done|].
    cbv beta zeta. unfold densePart. rewrite Hdt. by apply (gap_equation random gapCols fcinv P a gap L).
Qed.

Lemma bin_nogap (random : bool) P : g = 0 → length P = S0 + D → (∀ c, vok (vget P c)) → (∀ c, c ∈ t_mainCols t → vget P c = newElement) →
  (random = false → ∀ k, k < D → vget P (S0 + k) = newElement) → solved gf128Mul (vok := vok) px X (backRows t (backRowBin px random [] X) P).
Proof.
  intros Hg Hl Hv H0 HD. apply (backRows_solved gf128Mul G px HM t HT X (fun k => vget P (S0 + k)) Hblock HX).
  - intros. apply (backRowBin_step random (fun k => vget P (S0 + k))); try done; [apply NoDup_nil_2|by intros k []%not_elem_of_nil|].
    intros Hrd k Hk _. by apply HD.
  - done.
  - done.
  - right. intros gap Hgap. destruct (t_gapRows t); [by apply not_elem_of_nil in Hgap|done].
  - intros gap Hgap. destruct (t_gapRows t); [by apply not_elem_of_nil in Hgap|done].
Qed.

(** [backfillBinary] throws when there are more than [mG] gap rows or no gap columns are found; otherwise every row has its
    value. *)
Lemma backfillBinary_outcome P prng : fillStart (vok := vok) px t P → freeOk px t P →
  (pG (param px) < g → backfillBinary px t X P prng = Throw RTE_LOC) ∧
  (g = 0 → ∃ P' prng', backfillBinary px t X P prng = Ok (P', prng')) ∧
  (g ≤ pG (param px) → backfillBinary px t X P prng = Throw not_found ∨
    ∃ P' prng', backfillBinary px t X P prng = Ok (P', prng') ∧ solved gf128Mul (vok := vok) px X P').
Proof.
  intros (Hl & Hm & Hd & Hv) Hfree. destruct (decide (pG (param px) < g)) as [Hlt|Hge].
  { split; [|split; lia]. intros _. unfold backfillBinary. by rewrite (proj2 (Nat.ltb_lt (pG (param px)) g)). }
  assert (Hok : backfillBinary px t X P prng = Throw not_found ∧ g ≠ 0 ∨
    ∃ P' prng', backfillBinary px t X P prng = Ok (P', prng') ∧ solved gf128Mul (vok := vok) px X P').
  2: { split; [lia|]. split.
       - intros Hg. destruct Hok as [[_ ?]|(P' & r & E & _)]; [done|by exists P', r].
       - intros _. destruct Hok as [[? _]|]; [by left|by right]. }
  unfold backfillBinary. rewrite (proj2 (Nat.ltb_ge (pG (param px)) g)) by lia. cbn [throw_if mbind Res_bind].
  destruct (Nat.eqb_spec g 0) as [Hg|Hg]; cbn [negb].
  - right. destruct prng as [r|].
    + pose proof (randomizeAt_spec randomize (seq S0 D) P r) as Hr. destruct (randomizeAt randomize (seq S0 D) P r) as [P1 r1] eqn:Er.
      cbn [mbind Res_bind fst] in *. pose proof (randomizeAt_ok randomize (seq S0 D) P r randomize_ok) as Hrv. rewrite Er in Hrv.
      assert (Hsq : ∀ c, c ∈ seq S0 D → c < length P) by (intros c Hc%list_elem_of_In%in_seq; lia). destruct Hr as [H1 H2]; [done|].
      eexists _, _. split; [done|]. apply bin_nogap; [done|lia|by apply Hrv| |done].
      intros c Hc. rewrite H2; [by apply Hm|]. intros Hin%list_elem_of_In%in_seq. pose proof (proj2 (tr_cols px t HT) c Hc). lia.
    + eexists _, _. split; [done|]. by apply bin_nogap.
  - destruct (getFCInv_spec px t HM HT) as (fcinv & -> & HF). cbn [mbind Res_bind].
    destruct (gapCols_spec fcinv ltac:(lia)) as [->|(gapCols & -> & Hnd & Hgl & Hlt & Hne)]; [by left|]. right. cbn [mbind Res_bind].
    assert (Hgc : ∀ i, i < g → nth i gapCols 0 ∈ gapCols) by (intros i Hi; apply list_elem_of_In, nth_In; lia).
    destruct prng as [r|].
    + pose proof (randomizeAt_free gapCols P r Hl Hlt) as Hr. cbv zeta in Hr. destruct (randomizeAt _ _ P r) as [P1 r1]. cbn [fst] in Hr.
      destruct Hr as (R1 & R2 & R3 & R4). cbn [mbind Res_bind]. eexists _, _. split; [done|]. apply (bin_gap true); try done.
      * lia.
      * auto.
      * intros c Hc. rewrite R2 by (by apply (tr_cols px t HT)). auto.
      * intros i Hi. rewrite R3 by auto. auto.
      * destruct Hfree as [Hf|Hf]; [left|by right]. intros c Hc Hcm. rewrite R2 by done. by apply Hf.
    + cbn [mbind Res_bind]. eexists _, _. split; [done|]. apply (bin_gap false); try done; auto.
Qed.

End fill.
End bin.
End PaxosBin.
