(* ===== verification/PaxosSolve.v ===== *)
(** Encoding and decoding of VOLE-PSI's solver ([encode], [decode], [decode1], [decode8] and [decode32] in
    src/volepsi/volePSI/PaxosImpl.h, [solve] in Paxos.h), over the values of PxVec.v: what an encoding of some inputs and
    values decodes to. *)
From stdpp Require Import sets.
From S2P Require Import Prelude Words PxUtil PaxosHash Paxos PaxosTri Gf128 PxVec GfMat PaxosFc PaxosBack PaxosGf PaxosBin.
Open Scope nat_scope.

Module PaxosSolve.
Import PxUtil PaxosHash Paxos PaxosTri PxVec GfMat PaxosFc PaxosBack PaxosGf PaxosBin.

Section solve.
Context (gf128Mul : block → block → block) (libdivide_u64_do : Z → Z → Z) (hashBlock : block → block → block) (idxBits : Z).
Context (invert : list (list bool) → list (list bool)) (choose : nat → nat → nat) (ithCombination : nat → nat → nat → list nat).
Context {V : Type} {H : Helper V} {R : Type} (randomize : R → V * R) (getBlocks : nat → R → list block * R).

(** * Definitions *)

Definition backfill (px : Paxos) (t : Tri) (X P : list V) (prng : option R) : Res (list V * option R) :=
  match pDt (param px) with
  | GF128 => backfillGf128 gf128Mul randomize getBlocks px t X P prng
  | Binary => backfillBinary invert choose ithCombination randomize px t X P prng
  end.

(** [encode(values, output, h, prng)]; with a generator, the columns left in bucket 0 get random values. *)
Definition encode (px : Paxos) (values : list V) (outSize : nat) (prng : option R) : Res (Paxos * list V * option R) :=
  throw_if (negb (outSize =? param_size (param px))) RTE_LOC ;;
  t ← triangulate idxBits px;
  let P := replicate outSize newElement in
  '(P, prng) ← match prng with
    | Some r =>
        node ← must (PxUtil.mWeightSets (t_wd t) !! 0);
        let '(P, r) := randomizeAt randomize (walk (length (mNodes (t_wd t))) (t_wd t) node) P r in mret (P, Some r)
    | None => mret (P, None)
    end;
  '(P, prng) ← backfill px t values P prng;
  mret (withWeights px (t_wd t), P, prng).

(** [solve(inputs, values, output, prng)] *)
Definition solve (px : Paxos) (inputs : list block) (values : list V) (outSize : nat) (prng : option R) : Res (Paxos * list V * option R) :=
  px ← setInput gf128Mul libdivide_u64_do hashBlock idxBits px inputs;
  encode px values outSize prng.

Definition decode1 (px : Paxos) (row : list nat) (dense : block) (p : list V) : V :=
  let v := for_ 1 (pWeight (param px)) (fun j v => add v (vget p (nth j row 0))) (vget p (nth 0 row 0)) in
  match pDt (param px) with
  | GF128 => denseBackfill gf128Mul px p dense v
  | Binary => for_ 0 (pDenseSize (param px)) (fun i v => if Z.testbit dense (Z.of_nat i) then add v (vget p (pSparseSize (param px) + i)) else v) v
  end.

(** [decode8] and [decode32]: the lanes side by side. *)
Definition decodeLanes (px : Paxos) (rows : list (list nat)) (dense : list block) (p : list V) : list V :=
  let S0 := pSparseSize (param px) in
  let values := map (fun row => vget p (nth 0 row 0)) rows in
  let values := for_ 1 (pWeight (param px)) (fun j values => zip_with (fun v row => add v (vget p (nth j row 0))) values rows) values in
  match pDt (param px) with
  | GF128 =>
      let values := zip_with (fun v x => multAdd v (vget p S0) x) values dense in
      snd (for_ 1 (pDenseSize (param px)) (fun i '(x, values) =>
        let x := zip_with gf128Mul x dense in
        (x, zip_with (fun v x => multAdd v (vget p (S0 + i)) x) values x)) (dense, values))
  | Binary =>
      snd (for_ 0 (pDenseSize (param px)) (fun i '(d2, values) =>
        (map (fun d => Z.shiftr d 1) d2, zip_with (fun v d => multAddBit v (vget p (S0 + i)) (Z.testbit d 0)) values d2))
        (map (wrap 64) dense, values))
  end.

Definition decode8 (px : Paxos) (rows : list (list nat)) (dense : list block) (p : list V) : list V :=
  decodeLanes px (take 8 rows) (take 8 dense) p.
Definition decode32 (px : Paxos) (rows : list (list nat)) (dense : list block) (p : list V) : list V :=
  decodeLanes px (take 32 rows) (take 32 dense) p.

Definition decode (px : Paxos) (inputs : list block) (values : list V) (PP : list V) : Res (list V) :=
  throw_if (negb (length PP =? param_size (param px))) RTE_LOC ;;
  let batches := length inputs / gPaxosBuildRowSize in
  let values := for_ 0 batches (fun b values =>
    let i := gPaxosBuildRowSize * b in
    let '(rows, dense) := hashBuildRow32 gf128Mul libdivide_u64_do hashBlock (mHasher px) (slice inputs i gPaxosBuildRowSize) in
    let v := decode32 px rows dense PP in
    if mAddToDecode px
    then for_ 0 32 (fun j values => <[i + j := add (vget values (i + j)) (vget v j)]> values) values
    else memcpy values i v 0 32) values in
  mret (for_ (gPaxosBuildRowSize * batches) (length inputs) (fun i values =>
    let '(row, dense) := hashBuildRow1 gf128Mul hashBlock (mHasher px) inputs.[i] in
    let v := decode1 px row dense PP in
    <[i := if mAddToDecode px then add (vget values i) v else v]> values) values).

(** * Decoding a row *)

Context {vok : V → Prop} {HOk : HelperOk gf128Mul H vok} (G : Gf128 gf128Mul).

(** What a Paxos needs for decoding: a dense part that fits its type. *)
Definition denseFits (px : Paxos) : Prop :=
  match pDt (param px) with GF128 => 0 < pDenseSize (param px) | Binary => pDenseSize (param px) ≤ 64 end.

Lemma columns_loop p row w : length row = w → 0 < w →
  for_ 1 w (fun j v => add v (vget p (nth j row 0))) (vget p (nth 0 row 0)) = sparseV p row.
Proof.
  intros <- Hw. destruct row as [|c row]; [cbn in Hw; lia|]. change (nth 0 (c :: row) 0) with c.
  loop_inv (fun j (v : V) => v = sparseV p (take j (c :: row))) as HI.
  - cbn. lia.
  - change (take 1 (c :: row)) with [c]. unfold sparseV. cbn [map]. by rewrite vsum_1.
  - intros j v Hj ->. cbn in Hj. destruct (lookup_lt_is_Some_2 (c :: row) j ltac:(cbn; lia)) as [x Hx].
    rewrite (take_S_r _ _ _ Hx), (nth_lookup_Some _ _ _ _ Hx). unfold sparseV. rewrite map_app, vsum_app. cbn [map]. by rewrite vsum_1.
  - rewrite HI. by rewrite firstn_all.
Qed.

Lemma decode1_spec px row dense p : denseFits px → length row = pWeight (param px) → 0 < pWeight (param px) →
  decode1 px row dense p = evalRow gf128Mul px p row dense.
Proof.
  intros Hd Hl Hw. unfold decode1, evalRow, densePart, denseFits in *. rewrite columns_loop by done. destruct (pDt (param px)).
  - loop_inv (fun i (v : V) => v = add (sparseV p row) (denseB i (fun k => vget p (pSparseSize (param px) + k)) dense)) as HI; [lia| | |exact HI].
    + cbn. by rewrite vadd_0_r.
    + intros i v Hi ->. unfold denseB. rewrite seq_S, map_app, vsum_app. cbn [map Nat.add]. rewrite vsum_1.
      destruct (Z.testbit dense (Z.of_nat i)); [by rewrite vadd_assoc|by rewrite vadd_0_r].
  - by apply (denseBackfill_spec gf128Mul).
Qed.

Lemma zip_map {A B C D : Type} (h : A → B → C) (f : D → A) (k : D → B) l : zip_with h (map f l) (map k l) = map (fun z => h (f z) (k z)) l.
Proof. induction l as [|z l IH]; [done|]. cbn. by rewrite IH. Qed.

(** The dense parts of the lanes. *)
Lemma lanes_gf px p l (y : list nat * block → V) : let S0 := pSparseSize (param px) in
  snd (for_ 1 (pDenseSize (param px)) (fun i '(x, values) =>
        let x := zip_with gf128Mul x (map snd l) in (x, zip_with (fun v x => multAdd v (vget p (S0 + i)) x) values x))
    (map snd l, zip_with (fun v x => multAdd v (vget p S0) x) (map y l) (map snd l))) =
  map (fun z => denseBackfill gf128Mul px p (snd z) (y z)) l.
Proof.
  cbv zeta. set (S0 := pSparseSize (param px)). unfold denseBackfill. fold S0.
  set (lane := fun i (z : list nat * block) => for_ 1 i (fun i '(x, y) => let x := gf128Mul x (snd z) in (x, multAdd y (vget p (S0 + i)) x))
    (snd z, multAdd (y z) (vget p S0) (snd z))).
  destruct (decide (1 ≤ pDenseSize (param px))) as [HD|HD].
  - loop_inv (fun i (st : list block * list V) => st = (map (fun z => fst (lane i z)) l, map (fun z => snd (lane i z)) l)) as HI; [done| | |by rewrite HI].
    + by rewrite zip_map.
    + intros i st Hi ->. rewrite !zip_map. f_equal; apply map_ext; intros z; unfold lane; rewrite for_snoc by lia; by destruct (for_ 1 i _ _).
  - rewrite zip_map. unfold for_. replace (pDenseSize (param px) - 1) with 0 by lia. cbn. done.
Qed.

Lemma lanes_bin px p l (y : list nat * block → V) : (∀ i, vok (vget p i)) → pDenseSize (param px) ≤ 64 → let S0 := pSparseSize (param px) in
  snd (for_ 0 (pDenseSize (param px)) (fun i '(d2, values) =>
        (map (fun d => Z.shiftr d 1) d2, zip_with (fun v d => multAddBit v (vget p (S0 + i)) (Z.testbit d 0)) values d2))
    (map (wrap 64) (map snd l), map y l)) =
  map (fun z => for_ 0 (pDenseSize (param px)) (fun i v => if Z.testbit (snd z) (Z.of_nat i) then add v (vget p (S0 + i)) else v) (y z)) l.
Proof.
  intros Hp HD. cbv zeta. set (S0 := pSparseSize (param px)).
  loop_inv (fun i (st : list Z * list V) => st = (map (fun z => Z.shiftr (wrap 64 (snd z)) (Z.of_nat i)) l,
    map (fun z => for_ 0 i (fun i v => if Z.testbit (snd z) (Z.of_nat i) then add v (vget p (S0 + i)) else v) (y z)) l)) as HI; [lia| | |by rewrite HI].
  - rewrite map_map. done.
  - intros i st Hi ->. rewrite zip_map, map_map. f_equal; apply map_ext; intros z.
    + rewrite Z.shiftr_shiftr by lia. f_equal. lia.
    + rewrite for_snoc, (bit_add (vok := vok)), Z.shiftr_spec, wrap_testbit by (done || lia).
      replace (0 + Z.of_nat i)%Z with (Z.of_nat i) by lia. by rewrite (proj2 (Z.ltb_lt _ _)) by lia.
Qed.

(** The lanes are independent. *)
Lemma decodeLanes_spec px rows dense p : denseFits px → length rows = length dense → 0 < pWeight (param px) →
  (∀ i, vok (vget p i)) → (∀ row, row ∈ rows → length row = pWeight (param px)) →
  decodeLanes px rows dense p = zip_with (fun row d => evalRow gf128Mul px p row d) rows dense.
Proof.
  intros Hd Hl Hw Hp Hr. unfold decodeLanes. set (S0 := pSparseSize (param px)). set (l := zip rows dense).
  assert (Er : rows = map fst l) by (symmetry; apply fst_zip; lia).
  assert (Ed : dense = map snd l) by (symmetry; apply snd_zip; lia).
  assert (Hl1 : ∀ z, z ∈ l → length (fst z) = pWeight (param px)).
  { intros z Hz. apply Hr. rewrite Er. apply list_elem_of_In, in_map. by apply list_elem_of_In. }
  transitivity (map (fun z => decode1 px (fst z) (snd z) p) l).
  2: { transitivity (map (fun z => evalRow gf128Mul px p (fst z) (snd z)) l); [|by rewrite Er, Ed, zip_map].
       apply map_ext_in. intros z Hz%list_elem_of_In. by apply decode1_spec; auto. }
  clearbody l. subst rows dense. rewrite (map_map fst (fun row => vget p (nth 0 row 0))).
  assert (E1 : for_ 1 (pWeight (param px)) (fun j values => zip_with (fun v row => add v (vget p (nth j row 0))) values (map fst l))
      (map (fun z => vget p (nth 0 (fst z) 0)) l) = map (fun z => sparseV p (fst z)) l).
  { loop_inv (fun j (v : list V) => v = map (fun z => for_ 1 j (fun j v => add v (vget p (nth j (fst z) 0))) (vget p (nth 0 (fst z) 0))) l) as HI.
    - lia.
    - done.
    - intros j v Hj ->. rewrite zip_map. apply map_ext. intros z. by rewrite for_snoc by lia.
    - rewrite HI. apply map_ext_in. intros z Hz%list_elem_of_In. apply columns_loop; auto. }
  rewrite E1. transitivity (map (fun z => match pDt (param px) with
    | GF128 => denseBackfill gf128Mul px p (snd z) (sparseV p (fst z))
    | Binary => for_ 0 (pDenseSize (param px)) (fun i v => if Z.testbit (snd z) (Z.of_nat i) then add v (vget p (S0 + i)) else v) (sparseV p (fst z))
    end) l).
  - unfold denseFits in Hd. destruct (pDt (param px)); [by apply lanes_bin|apply lanes_gf].
  - apply map_ext_in. intros z Hz%list_elem_of_In. unfold decode1. rewrite columns_loop by auto. done.
Qed.

(** * Decoding *)

Context (libdivide_ok : ∀ x d, in_word 64 x → (0 < d < 2 ^ 64)%Z → libdivide_u64_do x d = (x / d)%Z).

(** The value of input [x], and what [decode] writes for it over [v]. *)
Definition valueOf (px : Paxos) (P : list V) (x : block) : V :=
  evalRow gf128Mul px P (rowOf gf128Mul hashBlock px x) (denseOf hashBlock px x).
Definition written (px : Paxos) (P : list V) (x : block) (v : V) : V :=
  if mAddToDecode px then add v (valueOf px P x) else valueOf px P x.

(** The values after the first [i] inputs. *)
Definition DecInv (px : Paxos) (P : list V) (inputs : list block) (values : list V) (i : nat) (vs : list V) : Prop :=
  length vs = length inputs ∧ ∀ k, k < length inputs → vget vs k = if k <? i then written px P inputs.[k] (vget values k) else vget values k.

Lemma add_batch i n v vs : i + n ≤ length vs →
  let vs' := for_ 0 n (fun j values => <[i + j := add (vget values (i + j)) (vget v j)]> values) vs in
  length vs' = length vs ∧ ∀ k, vget vs' k = if decide (i ≤ k ∧ k < i + n) then add (vget vs k) (vget v (k - i)) else vget vs k.
Proof.
  intros Hl. cbv zeta. loop_inv (fun j (vs' : list V) => length vs' = length vs ∧
    ∀ k, vget vs' k = if decide (i ≤ k ∧ k < i + j) then add (vget vs k) (vget v (k - i)) else vget vs k) as HI; [lia| | |exact HI].
  - split; [done|]. intros k. by rewrite decide_False by lia.
  - intros j vs' Hj [H1 H2]. split; [by rewrite length_insert|]. intros k. rewrite vget_upd by lia. case_decide as E.
    + subst k. rewrite H2, decide_False, decide_True by lia. do 2 f_equal. lia.
    + rewrite H2. destruct (decide (i ≤ k ∧ k < i + j)); [by rewrite decide_True by lia|by rewrite decide_False by lia].
Qed.

Lemma memcpy_vget vs i v n : i + n ≤ length vs → length v = n → length (memcpy vs i v 0 n) = length vs ∧
  ∀ k, vget (memcpy vs i v 0 n) k = if decide (i ≤ k ∧ k < i + n) then vget v (k - i) else vget vs k.
Proof.
  intros Hl Hv. rewrite memcpy_length by lia. split; [done|]. intros k. unfold memcpy, vget. rewrite drop_0, (take_ge v n) by lia.
  rewrite !nth_lookup. destruct (decide (k < i)) as [Hk|Hk].
  - rewrite lookup_app_l by (rewrite length_take; lia). rewrite lookup_take_lt by done. by rewrite decide_False by lia.
  - rewrite lookup_app_r by (rewrite length_take; lia). rewrite length_take_le by lia. destruct (decide (k < i + n)) as [Hk2|Hk2].
    + rewrite lookup_app_l by lia. by rewrite decide_True by lia.
    + rewrite lookup_app_r by lia. rewrite lookup_drop, decide_False by lia. do 2 f_equal. lia.
Qed.

Lemma decode_batch px P inputs values b vs : ready idxBits px → denseFits px → 0 < pWeight (param px) → (∀ i, vok (vget P i)) →
  32 * S b ≤ length inputs → DecInv px P inputs values (32 * b) vs →
  DecInv px P inputs values (32 * S b) (let i := gPaxosBuildRowSize * b in
    let '(rows, dense) := hashBuildRow32 gf128Mul libdivide_u64_do hashBlock (mHasher px) (slice inputs i gPaxosBuildRowSize) in
    let v := decode32 px rows dense P in
    if mAddToDecode px
    then for_ 0 32 (fun j values => <[i + j := add (vget values (i + j)) (vget v j)]> values) vs
    else memcpy vs i v 0 32).
Proof.
  intros Hr Hd Hw HP Hb [Hl HI]. cbv zeta. unfold gPaxosBuildRowSize. set (i := 32 * b) in *. set (l := slice inputs i 32).
  assert (Hll : length l = 32) by (unfold l; apply slice_length; lia).
  rewrite (hash_batch gf128Mul libdivide_u64_do hashBlock idxBits libdivide_ok px l Hr Hll).
  assert (Hrow : ∀ x, length (rowOf gf128Mul hashBlock px x) = pWeight (param px)) by (intros x; by apply (rowOf_ok gf128Mul hashBlock idxBits)).
  assert (Hv : decode32 px (map (rowOf gf128Mul hashBlock px) l) (map (denseOf hashBlock px) l) P = map (valueOf px P) l).
  { unfold decode32. rewrite !firstn_all2 by (rewrite length_map; lia). rewrite decodeLanes_spec, zip_map; try done.
    - by rewrite !length_map.
    - intros row (x & <- & _)%list_elem_of_In%in_map_iff. apply Hrow. }
  rewrite Hv. replace (32 * S b) with (i + 32) by lia.
  assert (Hk : ∀ k, i ≤ k → k < i + 32 → vget (map (valueOf px P) l) (k - i) = valueOf px P inputs.[k]).
  { intros k Hk1 Hk2. unfold vget. rewrite (nth_map _ _ _ 0%Z) by lia. f_equal. unfold l, slice.
    rewrite !nth_lookup, lookup_take_lt, lookup_drop by lia. do 2 f_equal. lia. }
  unfold DecInv, written in *. destruct (mAddToDecode px).
  - destruct (add_batch i 32 (map (valueOf px P) l) vs ltac:(lia)) as [H1 H2]. cbv zeta in H1, H2. split; [by rewrite H1|].
    intros k Hkl. rewrite H2, HI by done. case_decide as E.
    + rewrite Hk by lia. rewrite (proj2 (Nat.ltb_ge k i)) by lia. by rewrite (proj2 (Nat.ltb_lt k (i + 32))) by lia.
    + destruct (Nat.ltb_spec k i), (Nat.ltb_spec k (i + 32)); done || lia.
  - destruct (memcpy_vget vs i (map (valueOf px P) l) 32 ltac:(lia) ltac:(by rewrite length_map)) as [H1 H2]. split; [by rewrite H1|].
    intros k Hkl. rewrite H2. case_decide as E.
    + rewrite Hk by lia. by rewrite (proj2 (Nat.ltb_lt k (i + 32))) by lia.
    + rewrite HI by done. destruct (Nat.ltb_spec k i), (Nat.ltb_spec k (i + 32)); done || lia.
Qed.

(** [decode] writes the value of every input, or adds it. *)
Lemma decode_spec px inputs values P : ready idxBits px → denseFits px → 0 < pWeight (param px) → (∀ i, vok (vget P i)) →
  length P = param_size (param px) → length values = length inputs →
  decode px inputs values P = Ok (zip_with (written px P) inputs values).
Proof.
  intros Hr Hd Hw HP HPl Hl. unfold decode. rewrite HPl, Nat.eqb_refl. cbn [negb throw_if mbind Res_bind].
  pose proof (Nat.div_mod_eq (length inputs) 32) as Hdm. unfold gPaxosBuildRowSize at 1 3.
  assert (H0 : DecInv px P inputs values (32 * 0) values) by (split; [done|]; intros k _; done).
  match goal with |- context [for_ _ _ _ (for_ ?a ?b ?f ?v)] => set (vs1 := for_ a b f v); assert (H1 : DecInv px P inputs values (32 * b) vs1) end.
  { apply (for_inv (fun b vs => DecInv px P inputs values (32 * b) vs)); [lia|exact H0|]. intros b vs Hb Hvs.
    unfold gPaxosBuildRowSize in Hb. apply decode_batch; (done || lia). }
  clearbody vs1. unfold gPaxosBuildRowSize in *.
  match goal with |- context [for_ ?a ?b ?f ?v] => set (vs2 := for_ a b f v); assert (H2 : DecInv px P inputs values b vs2) end.
  { apply (for_inv (fun i vs => DecInv px P inputs values i vs)); [lia|exact H1|]. intros i vs Hi [Hvl HI].
    unfold hashBuildRow1. fold (denseOf hashBlock px inputs.[i]). fold (rowOf gf128Mul hashBlock px inputs.[i]).
    rewrite decode1_spec by (try done; by apply (rowOf_ok gf128Mul hashBlock idxBits)). fold (valueOf px P inputs.[i]).
    split; [by rewrite length_insert|]. intros k Hk. rewrite vget_upd by lia. case_decide as E.
    - subst k. rewrite (proj2 (Nat.ltb_lt i (S i))) by lia. unfold written. rewrite HI by done. by rewrite (proj2 (Nat.ltb_ge i i)) by lia.
    - rewrite HI by done. destruct (Nat.ltb_spec k i), (Nat.ltb_spec k (S i)); done || lia. }
  clearbody vs2. destruct H2 as [H2l H2]. f_equal. apply (nth_ext _ _ newElement newElement); [rewrite length_zip_with; lia|].
  intros k Hk. rewrite H2l in Hk. specialize (H2 k Hk). rewrite (proj2 (Nat.ltb_lt k (length inputs))) in H2 by done. unfold vget in H2. rewrite H2.
  symmetry. apply nth_lookup_Some. rewrite lookup_zip_with. destruct (lookup_lt_is_Some_2 inputs k Hk) as [x Hx].
  destruct (lookup_lt_is_Some_2 values k ltac:(lia)) as [v Hv]. rewrite Hx, Hv. cbn. by rewrite (nth_lookup_Some _ _ _ _ Hx), (nth_lookup_Some _ _ _ _ Hv).
Qed.

(** * Encoding *)

Context (randomize_ok : ∀ r, vok (fst (randomize r))) (getBlocks_ok : ∀ k r, brow k (fst (getBlocks k r))).
Context (Hinv : invert_ok invert) (Hcomb : combination_ok choose ithCombination).

(** What [setInput] leaves for [encode]. *)
Record Prepared (px : Paxos) : Prop := {
  pr_matrix : Matrix px;
  pr_items : 0 < mNumItems px;
  pr_sparse : mNumItems px + 2 ≤ pSparseSize (param px);
  pr_weight : 0 < pWeight (param px);
  pr_view : View (mWeightSets px) (pSparseSize (param px)) (fun _ => True) (fun c => length (rowsWith (mRows px) c (mNumItems px)));
  pr_block : ∀ i, is_block (mDense px).[i] }.

(** The number of gap rows that the dense part can take. *)
Definition gapLimit (px : Paxos) : nat := match pDt (param px) with GF128 => pDenseSize (param px) | Binary => pG (param px) end.

Lemma vget_replicate n c : vget (replicate n (newElement : V)) c = newElement.
Proof. unfold vget. rewrite nth_lookup. destruct (replicate n newElement !! c) eqn:E; [by apply lookup_replicate in E as [-> _]|done]. Qed.

(** The output before the back substitution. *)
Lemma encode_start px t prng : Prepared px → Triangular px t →
  (prng = None ∨ ∀ gap, gap ∈ t_gapRows t → nth (fst gap) (mRows px) [] = nth (snd gap) (mRows px) []) →
  ∃ P prng', (match prng with
    | Some r =>
        node ← must (PxUtil.mWeightSets (t_wd t) !! 0);
        let '(P, r) := randomizeAt randomize (walk (length (mNodes (t_wd t))) (t_wd t) node) (replicate (param_size (param px)) newElement) r in mret (P, Some r)
    | None => mret (replicate (param_size (param px)) newElement, None)
    end : Res (list V * option R)) = Ok (P, prng') ∧ fillStart (vok := vok) px t P ∧ freeOk px t P.
Proof.
  intros Hpr HT Hgaps. set (P0 := replicate (param_size (param px)) newElement).
  assert (Hv0 : ∀ c, vok (vget P0 c)) by (intros c; unfold P0; rewrite vget_replicate; apply (ok_new (vok := vok))).
  assert (Hl0 : length P0 = pSparseSize (param px) + pDenseSize (param px)) by apply length_replicate.
  destruct prng as [r|].
  - destruct (another px (pr_sparse px Hpr) (pr_weight px Hpr) (t_mainCols t) 0 (proj1 (tr_cols px t HT))) as (x & Hx & Hxm & _).
    { rewrite <- (tr_size px t HT). apply nodup_bound; [|intros; by apply (main_row px t HT)].
      pose proof (proj1 (tr_rows px t HT)) as Hnd. unfold rowsOf in Hnd. by apply NoDup_app in Hnd as (? & _). }
    destruct (view_bucket _ _ _ _ 0 x (tr_free px t HT) Hx Hxm eq_refl) as (h & -> & Hin). cbn [must mbind Res_bind].
    set (cs := walk _ _ h) in *. assert (Hcs : ∀ c, c ∈ cs → c < length P0) by (intros c (? & _)%Hin; lia).
    pose proof (randomizeAt_spec randomize cs P0 r Hcs) as [H1 H2]. pose proof (randomizeAt_ok randomize cs P0 r randomize_ok Hcs Hv0) as H3.
    destruct (randomizeAt randomize cs P0 r) as [P r1]. cbn [fst] in *. eexists _, _. split; [done|].
    destruct Hgaps as [|Hgaps]; [done|]. split; [|by right]. split; [lia|]. split; [|split; [|done]].
    + intros c Hc. rewrite H2; [apply vget_replicate|]. intros (_ & Hn & _)%Hin. done.
    + intros k Hk. rewrite H2; [apply vget_replicate|]. intros (Hlt & _)%Hin. lia.
  - eexists _, _. split; [done|]. split; [split; [done|]; split; [|split; [|done]]|left]; intros; apply vget_replicate.
Qed.

Definition encodeResult (px : Paxos) (X : list V) (t : Tri) (r : Res (list V * option R)) : Prop :=
  (∃ P prng, r = Ok (P, prng) ∧ solved gf128Mul (vok := vok) px X P) ∨
  (r = Throw RTE_LOC ∧ gapLimit px < length (t_gapRows t)) ∨
  ((r = Throw not_invertable ∨ r = Throw not_found) ∧ 0 < length (t_gapRows t) ≤ gapLimit px).

Lemma backfill_outcome px X t P prng : Prepared px → denseFits px → Triangular px t → (∀ i, vok (vget X i)) →
  fillStart (vok := vok) px t P → freeOk px t P → encodeResult px X t (backfill px t X P prng).
Proof.
  intros [HM _ _ _ _ Hblock] Hd HT HX Hst Hfree. unfold encodeResult, backfill, gapLimit, denseFits in *. destruct (pDt (param px)) eqn:Edt.
  - destruct (backfillBinary_outcome invert choose ithCombination randomize px HM t HT X Edt Hd Hblock HX randomize_ok G Hinv Hcomb P prng Hst Hfree) as (H1 & H2 & H3).
    destruct (decide (pG (param px) < length (t_gapRows t))) as [Hlt|Hge]; [right; left; by split; [apply H1|]|].
    destruct (H3 ltac:(lia)) as [E|(P' & r & E & Hs)]; [|left; by exists P', r]. right. right. split; [by right|]. split; [|lia].
    destruct (decide (length (t_gapRows t) = 0)) as [H0|]; [|lia]. destruct (H2 H0) as (P' & r & E'). congruence.
  - destruct (backfillGf128_outcome gf128Mul randomize getBlocks G randomize_ok getBlocks_ok px HM t HT X Edt Hblock HX P prng Hst Hfree ltac:(done)) as (H1 & H2 & H3).
    destruct (decide (pDenseSize (param px) < length (t_gapRows t))) as [Hlt|Hge]; [right; left; by split; [apply H2|]|].
    destruct (H3 ltac:(lia)) as [E|(P' & r & E & Hs)]; [|left; by exists P', r]. right. right. split; [by left|]. split; [|lia].
    destruct (decide (length (t_gapRows t) = 0)) as [H0|]; [|lia]. destruct (H1 ltac:(lia) H0) as (P' & r & E'). congruence.
Qed.

(** Why an encoding may fail: two rows with the same dense part, more gap rows than the dense part can take, or gap rows whose
    dense system is singular. *)
Inductive encodeFails (px : Paxos) : exn → Prop :=
  | fails_dup i j : i < mNumItems px → j < mNumItems px → i ≠ j → (mDense px).[i] = (mDense px).[j] → encodeFails px RTE_LOC
  | fails_gap t : triangulate idxBits px = Ok t → gapLimit px < length (t_gapRows t) → encodeFails px RTE_LOC
  | fails_singular t e : triangulate idxBits px = Ok t → 0 < length (t_gapRows t) ≤ gapLimit px → e = not_invertable ∨ e = not_found →
      encodeFails px e.

Definition gapsAgree (px : Paxos) : Prop := ∀ t gap, triangulate idxBits px = Ok t → gap ∈ t_gapRows t →
  nth (fst gap) (mRows px) [] = nth (snd gap) (mRows px) [].

Lemma encode_spec px X prng : Prepared px → denseFits px → (∀ i, vok (vget X i)) → (prng = None ∨ gapsAgree px) →
  (∃ t P prng', encode px X (param_size (param px)) prng = Ok (withWeights px (t_wd t), P, prng') ∧ Triangular px t ∧
     solved gf128Mul (vok := vok) px X P) ∨
  ∃ e, encode px X (param_size (param px)) prng = Throw e ∧ encodeFails px e.
Proof.
  intros Hpr Hd HX Hgaps. pose proof Hpr as [HM Hn Hs Hw HV Hb]. unfold encode. rewrite Nat.eqb_refl. cbn [negb throw_if mbind Res_bind].
  destruct (triangulate_spec idxBits px HM Hn Hs Hw HV) as [(t & Et & HT)|(Et & i & j & Hi & Hj & Hij & E)].
  2: { right. exists RTE_LOC. rewrite Et. split; [done|]. by apply (fails_dup px i j). }
  rewrite Et. cbn [mbind Res_bind]. destruct (encode_start px t prng Hpr HT) as (P & prng1 & Ep & Hst & Hfree).
  { destruct Hgaps as [|Hg]; [by left|right]. intros gap Hgap. by apply (Hg t). }
  rewrite Ep. cbn [mbind Res_bind].
  destruct (backfill_outcome px X t P prng1 Hpr Hd HT HX Hst Hfree) as [(P' & r & E & Hsol)|[[E Hg]|[[E|E] Hg]]]; rewrite E; cbn [mbind Res_bind].
  - left. by exists t, P', r.
  - right. eexists. split; [done|]. by apply (fails_gap px t).
  - right. eexists. split; [done|]. apply (fails_singular px t); [done|done|by left].
  - right. eexists. split; [done|]. apply (fails_singular px t); [done|done|by right].
Qed.

Context (hash_ok : ∀ k x, is_block (hashBlock k x)).

(** What an encoding decodes to: the values, or what was there plus the values. *)
Definition decoded (px : Paxos) (values out : list V) : list V :=
  zip_with (fun v o => if mAddToDecode px then add o v else v) values out.

(** The Paxos after [setInput]. *)
Lemma setInput_prepared px inputs : ready idxBits px → 0 < mNumItems px → mNumItems px + 2 ≤ pSparseSize (param px) → 0 < pWeight (param px) →
  length inputs = mNumItems px → (∀ c, length (rowsWith (map (rowOf gf128Mul hashBlock px) inputs) c (mNumItems px)) < 200) →
  ∃ px', setInput gf128Mul libdivide_u64_do hashBlock idxBits px inputs = Ok px' ∧ Prepared px' ∧ param px' = param px ∧
    mNumItems px' = mNumItems px ∧ mRows px' = map (rowOf gf128Mul hashBlock px) inputs ∧ mDense px' = map (denseOf hashBlock px) inputs ∧
    mHasher px' = mHasher px ∧ mSeed px' = mSeed px ∧ mAddToDecode px' = mAddToDecode px.
Proof.
  intros Hr Hn Hs Hw Hl H200.
  destruct (setInput_spec gf128Mul libdivide_u64_do hashBlock idxBits libdivide_ok px inputs Hr Hl H200) as (px' & E & HM & Ep & En & Erows & Ed & Eh & Es & Ea & HV).
  exists px'. split; [done|]. split; [|by split_and!]. rewrite <- En, <- Ep in *. split; try done. intros i. rewrite Ed.
  destruct (nth_in_or_default i (map (denseOf hashBlock px) inputs) 0%Z) as [(x & <- & _)%in_map_iff|E0]; [apply hash_ok|rewrite E0; by apply in_word_0].
Qed.


End solve.
(** A small instance: six inputs, eight columns, weight three; it has a gap row. *)
Definition demoHash (k x : block) : block :=
  wrap 128 (Gf.mul (Gf.mul (Z.lxor x 987654321987654321987654321) (Z.lxor x 1234567123456712345671234567)) (x + 3)).
Definition demoParam : PaxosParam := mkParam 8 5 3 5 40 GF128.
Definition demo : Paxos := match init 32 Paxos_new 6 demoParam 0%Z with Ok p => p | Throw _ => Paxos_new end.

Lemma rowsWith_length rows c n : length (rowsWith rows c n) ≤ n.
Proof. unfold rowsWith. rewrite <- (length_seq n 0) at 2. apply filter_length_le. Qed.


End PaxosSolve.
