(* ===== verification/PxParam.v ===== *)
(** The parameters of VOLE-PSI's solver: [PaxosParam::init] of src/volepsi/volePSI/PaxosImpl.h. Doubles are the IEEE values
    of Fit.v; [std::log2] and [std::pow] are parameters. *)
From Stdlib Require Import SpecFloat.
From S2P Require Import Prelude Words Fit PxUtil Paxos.
Open Scope nat_scope.

Module PxParam.
Import PxUtil Paxos.

(** [std::floor] *)
Definition d_floor (x : double) : double := dopp (d_ceil (dopp x)).

(** The conversion of a double to u64: undefined when the truncated value is out of range. *)
Definition to_u64 (x : double) : Res nat :=
  match x with
  | S754_zero _ => Ok 0
  | S754_finite s m e =>
      let q := (if (0 <=? e)%Z then Z.pos m * 2 ^ e else Z.pos m / 2 ^ (- e))%Z in
      if ((q <? 2 ^ 64) && (negb s || (q =? 0)))%Z then Ok (Z.to_nat q) else Throw undefined
  | _ => Throw undefined
  end.

Section param.
Context (std_log2 : double → double) (std_pow : double → double → double).

Definition weight_small : exn := RuntimeError "weight must be 2 or greater.".

(** [PaxosParam::init] *)
Definition param_init (numItems weight ssp : nat) (dt : DenseType) : Res PaxosParam :=
  throw_if (weight <? 2) weight_small ;;
  let logN := std_log2 (d_of_nat numItems) in
  let binary := match dt with Binary => 1 | GF128 => 0 end in
  if weight =? 2 then
    let a := d_lit 7529 1000 in let b := d_lit 61 100 in let c := d_lit 2556 1000 in
    let lambdaVsGap := dadd (ddiv a (dsub logN c)) b in
    g ← to_u64 (d_ceil (dadd (ddiv (d_of_nat ssp) lambdaVsGap) (d_lit 19 10)));
    mret (mkParam (2 * numItems) (g + binary * ssp) weight g ssp dt)
  else
    let ee := if weight =? 3 then d_lit 1223 1000 else if weight =? 4 then d_lit 1293 1000
      else dadd (dmul (d_lit 1485 10000) (d_of_nat weight)) (d_lit 6845 10000) in
    let logW := std_log2 (d_of_nat weight) in
    let logLambdaVsE := dsub (dadd (dsub (dadd (dmul (d_lit 555 1000) logN) (dmul (d_lit 93 1000) (std_pow logW (d_of_nat 3))))
      (dmul (d_lit 101 100) (std_pow logW (d_of_nat 2)))) (dmul (d_lit 2925 1000) logW)) (d_lit 133 1000) in
    let lambdaVsE := std_pow (d_of_nat 2) logLambdaVsE in
    let b := dsub (dopp (d_lit 92 10)) (dmul lambdaVsE ee) in
    let e := ddiv (dsub (d_of_nat ssp) b) lambdaVsE in
    g ← to_u64 (d_floor (ddiv (d_of_nat ssp) (dmul (d_of_nat (weight - 2)) (std_log2 (dmul e (d_of_nat numItems))))));
    sparse ← to_u64 (dmul (d_of_nat numItems) e);
    mret (mkParam sparse (g + binary * ssp) weight g ssp dt).

(** What every accepted choice has in common: the gap bound is the dense part, less the security parameter of the binary type. *)
Lemma param_init_shape numItems weight ssp dt p : param_init numItems weight ssp dt = Ok p →
  2 ≤ weight ∧ pWeight p = weight ∧ pSsp p = ssp ∧ pDt p = dt ∧
  pDenseSize p = pG p + (match dt with Binary => ssp | GF128 => 0 end) ∧ (weight = 2 → pSparseSize p = 2 * numItems).
Proof.
  unfold param_init. intros H. inv_ok. match goal with Hw : (weight <? 2) = false |- _ => apply Nat.ltb_ge in Hw end.
  destruct (Nat.eqb_spec weight 2) as [->|]; inv_ok; cbn; (split; [done|]); split_and!; try done; destruct dt; lia.
Qed.

(** For weight two and one item the gap bound is negative and its conversion undefined. *)
Lemma param_init_one_item dt : std_log2 (d_of_nat 1) = S754_zero false → param_init 1 2 40 dt = Throw undefined.
Proof. intros E. unfold param_init. rewrite E. by destruct dt; vm_compute. Qed.

End param.
End PxParam.
