(* ===== verification/BinTables.v ===== *)
(** The tables of SimpleIndex (src/volepsi/volePSI/SimpleIndex.cpp): log2 of the size of a bin when 2^j items are thrown
    into 2^i bins, for four levels of security; row [i], column [j], in units of 10^-9. *)
From Stdlib Require Import ZArith List.
Import ListNotations.
Open Scope Z_scope.

Module BinTables.

Definition logbinSizes_40bit : list (list Z) := [
  [0; 1000000000; 2000000000; 3000000000; 4000000000; 5000000000; 6000000000; 7000000000; 8000000000; 9000000000;
   10000000000; 11000000000; 12000000000; 13000000000; 14000000000; 15000000000; 16000000000; 17000000000; 18000000000;
   19000000000; 20000000000; 21000000000; 22000000000; 23000000000; 24000000000; 25000000000; 26000000000; 27000000000;
   28000000000; 29000000000; 30000000000];
  [0; 1000000000; 2000000000; 3000000000; 4000000000; 5000000000; 5857980995; 6686500527; 7523561956; 8392317423;
   9290018847; 10210671340; 11152284840; 12109504220; 13078317620; 14055790810; 15039690190; 16028186670; 17019992430;
   18014162170; 19010028120; 20007098460; 21005022770; 22003552910; 23002513060; 24001777210; 25001256650; 26000888430;
   27000628020; 28000443860; 29000313630];
  [0; 1000000000; 2000000000; 3000000000; 4000000000; 4754887502; 5459431619; 6129283017; 6870364720; 7665335917;
   8491853096; 9361943774; 10263269200; 11189824560; 12136029850; 13097373770; 14069365850; 15049295520; 16034992350;
   17024815020; 18017575080; 19012447220; 20008808830; 21006232930; 22004409080; 23003118460; 24002205280; 25001559250;
   26001102330; 27000779170; 28000550630];
  [0; 1000000000; 2000000000; 3000000000; 3906890596; 4459431619; 5000000000; 5614709844; 6247927513; 6965784285;
   7727920455; 8539158811; 9394462695; 10287712380; 11207624470; 12148794320; 13106399360; 14075813380; 15053925880;
   16038276010; 17027139270; 18019232360; 19013617100; 20009637290; 21006819140; 22004823950; 23003411710; 24002412620;
   25001705880; 26001205980; 27000852410];
  [0; 1000000000; 2000000000; 3000000000; 3700439718; 4087462841; 4584962501; 5129283017; 5672425342; 6321928095;
   7011227255; 7761551232; 8566054038; 9413627929; 10301496190; 11217351910; 12156083080; 13111461740; 14079484780;
   15056510710; 16040118450; 17028445700; 18020155260; 19014271160; 20010101900; 21007147060; 22005056020; 23003575900;
   24002528770; 25001787980; 26001264010];
  [0; 1000000000; 2000000000; 3000000000; 3459431619; 3807354922; 4247927513; 4700439718; 5169925001; 5727920455;
   6357552005; 7033423002; 7781359714; 8581200582; 9426264755; 10309476350; 11223398410; 12160501750; 13114718390;
   14081733080; 15061497770; 16041274130; 17029265660; 18020741260; 19014685240; 20010394250; 21007354460; 22005202710;
   23003679690; 24002602160; 25001839900];
  [0; 1000000000; 2000000000; 2807354922; 3169925001; 3584962501; 3906890596; 4321928095; 4700439718; 5209453366;
   5754887502; 6375039431; 7055282436; 7794415866; 8592457037; 9434628228; 10315149560; 11228217440; 12163649680;
   13116993680; 14083396220; 15059302210; 16042108210; 17029858760; 18021153500; 19014979390; 20010603230; 21007502290;
   22005307240; 23003753790; 24002654520];
  [0; 1000000000; 2000000000; 2807354922; 3000000000; 3321928095; 3584962501; 4000000000; 4321928095; 4754887502;
   5247927513; 5781359714; 6392317423; 7066089190; 7807354922; 8599912842; 9440869168; 10320800550; 11231221180;
   12166163080; 13118778890; 14084725360; 15060231510; 16042770860; 17030322280; 18021484280; 19015216300; 20010769840;
   21007620000; 22005390860; 23003812800];
  [0; 1000000000; 2000000000; 2584962501; 2807354922; 3169925001; 3321928095; 3700439718; 4000000000; 4392317423;
   4807354922; 5247927513; 5807354922; 6409390936; 7076815597; 7813781191; 8607330314; 9445014846; 10324180550;
   11234218680; 12168358730; 13120399900; 14085804380; 15061033600; 16043326390; 17030731790; 18021771620; 19015417770;
   20010914590; 21007722640; 22005463160];
  [0; 1000000000; 2000000000; 2321928095; 2584962501; 3000000000; 3169925001; 3459431619; 3700439718; 4000000000;
   4392317423; 4807354922; 5285402219; 5807354922; 6426264755; 7087462841; 7826548487; 8614709844; 9451211112;
   10327552640; 11237209960; 12170238050; 13121857250; 14086799690; 15061750890; 16043860350; 17031098090; 18022037230;
   19015605610; 20011047040; 21007817070];
  [0; 1000000000; 2000000000; 2321928095; 2584962501; 2807354922; 3000000000; 3169925001; 3459431619; 3700439718;
   4087462841; 4392317423; 4807354922; 5285402219; 5832890014; 6426264755; 7098032083; 7832890014; 8618385502;
   9455327220; 10332036550; 11239598530; 12172114930; 13123151430; 14087794300; 15062467820; 16044351430; 17031453530;
   18022291950; 19015785260; 20011172650];
  [0; 1000000000; 2000000000; 2321928095; 2321928095; 2584962501; 2807354922; 3000000000; 3169925001; 3459431619;
   3700439718; 4087462841; 4459431619; 4857980995; 5321928095; 5832890014; 6442943496; 7108524457; 7839203788;
   8625708843; 9459431619; 10335390350; 11241983150; 12173989370; 13124444460; 14088788240; 15063142250; 16044842330;
   17031798110; 18022535790; 19015956720];
  [0; 1000000000; 2000000000; 2000000000; 2321928095; 2321928095; 2584962501; 2807354922; 3000000000; 3169925001;
   3459431619; 3807354922; 4087462841; 4459431619; 4857980995; 5321928095; 5857980995; 6459431619; 7118941073;
   7845490051; 8629356620; 9463524373; 10338736380; 11244363840; 12175861380; 13125736330; 14089698740; 15063816370;
   16045311740; 17032131850; 18022774160];
  [0; 1000000000; 2000000000; 2000000000; 2321928095; 2321928095; 2584962501; 2584962501; 2807354922; 3000000000;
   3321928095; 3459431619; 3807354922; 4087462841; 4459431619; 4857980995; 5357552005; 5882643049; 6459431619;
   7129283017; 7851749041; 8636624621; 9467605550; 10342074670; 11246740600; 12177419540; 13127027040; 14090608670;
   15064448070; 16045759660; 17032465500];
  [0; 1000000000; 1584962501; 2000000000; 2000000000; 2321928095; 2321928095; 2584962501; 2584962501; 2807354922;
   3000000000; 3321928095; 3584962501; 3807354922; 4169925001; 4459431619; 4906890596; 5357552005; 5882643049;
   6475733431; 7139551352; 7857980995; 8643856190; 9473705750; 10344295910; 11249113450; 12179287100; 13128316600;
   14091518030; 15065079490; 16046228770];
  [0; 1000000000; 1584962501; 2000000000; 2000000000; 2000000000; 2321928095; 2321928095; 2584962501; 2807354922;
   2807354922; 3169925001; 3321928095; 3584962501; 3807354922; 4169925001; 4523561956; 4906890596; 5357552005;
   5906890596; 6491853096; 7149747120; 7870364720; 8647458426; 9477758266; 10347621370; 11251482410; 12180841570;
   13129444020; 14092344220; 15065710640];
  [0; 1000000000; 1584962501; 1584962501; 2000000000; 2000000000; 2000000000; 2321928095; 2321928095; 2584962501;
   2807354922; 3000000000; 3169925001; 3321928095; 3584962501; 3906890596; 4169925001; 4523561956; 4906890596;
   5392317423; 5906890596; 6491853096; 7159871337; 7876516947; 8654636029; 9481799432; 10350939180; 11253847480;
   12182704710; 13130731430; 14093252490];
  [0; 1000000000; 1584962501; 1584962501; 1584962501; 2000000000; 2000000000; 2000000000; 2321928095; 2321928095;
   2584962501; 2807354922; 3000000000; 3169925001; 3321928095; 3584962501; 3906890596; 4169925001; 4523561956;
   4954196310; 5392317423; 5930737338; 6507794640; 7159871337; 7882643049; 8658211483; 9485829309; 10354249380;
   11256208690; 12184255500; 13131856960];
  [0; 1000000000; 1584962501; 1584962501; 1584962501; 2000000000; 2000000000; 2000000000; 2321928095; 2321928095;
   2584962501; 2584962501; 2807354922; 3000000000; 3169925001; 3321928095; 3584962501; 3906890596; 4169925001;
   4584962501; 4954196310; 5426264755; 5930737338; 6523561956; 7169925001; 7888743249; 8665335917; 9489847960;
   10357552000; 11258566030; 12185804620];
  [0; 1000000000; 1584962501; 1584962501; 1584962501; 1584962501; 2000000000; 2000000000; 2000000000; 2321928095;
   2321928095; 2584962501; 2584962501; 2807354922; 3000000000; 3169925001; 3459431619; 3700439718; 3906890596;
   4247927513; 4584962501; 4954196310; 5426264755; 5954196310; 6523561956; 7179909090; 7894817763; 8668884984;
   9493855449; 10359749560; 11260919530];
  [0; 1000000000; 1584962501; 1584962501; 1584962501; 1584962501; 1584962501; 2000000000; 2000000000; 2000000000;
   2321928095; 2321928095; 2584962501; 2584962501; 2807354922; 3000000000; 3169925001; 3459431619; 3700439718;
   3906890596; 4247927513; 4584962501; 5000000000; 5426264755; 5954196310; 6539158811; 7189824559; 7900866808;
   8675957033; 9497851837; 10363039630];
  [0; 1000000000; 1000000000; 1584962501; 1584962501; 1584962501; 1584962501; 2000000000; 2000000000; 2000000000;
   2000000000; 2321928095; 2321928095; 2584962501; 2584962501; 2807354922; 3000000000; 3169925001; 3459431619;
   3700439718; 4000000000; 4247927513; 4584962501; 5000000000; 5459431619; 5977279923; 6554588852; 7199672345;
   7906890596; 8679480100; 9501837185];
  [0; 1000000000; 1000000000; 1584962501; 1584962501; 1584962501; 1584962501; 1584962501; 2000000000; 2000000000;
   2000000000; 2321928095; 2321928095; 2321928095; 2584962501; 2807354922; 2807354922; 3000000000; 3321928095;
   3459431619; 3700439718; 4000000000; 4247927513; 4643856190; 5000000000; 5459431619; 5977279923; 6554588852;
   7209453366; 7912889336; 8682994584];
  [0; 1000000000; 1000000000; 1000000000; 1584962501; 1584962501; 1584962501; 1584962501; 1584962501; 2000000000;
   2000000000; 2000000000; 2321928095; 2321928095; 2321928095; 2584962501; 2807354922; 2807354922; 3000000000;
   3321928095; 3459431619; 3700439718; 4000000000; 4321928095; 4643856190; 5044394119; 5491853096; 6000000000;
   6569855608; 7209453366; 7918863237];
  [0; 1000000000; 1000000000; 1000000000; 1584962501; 1584962501; 1584962501; 1584962501; 1584962501; 1584962501;
   2000000000; 2000000000; 2000000000; 2321928095; 2321928095; 2584962501; 2584962501; 2807354922; 3000000000;
   3169925001; 3321928095; 3459431619; 3700439718; 4000000000; 4321928095; 4643856190; 5044394119; 5491853096;
   6000000000; 6584962501; 7219168520];
  [0; 1000000000; 1000000000; 1000000000; 1000000000; 1584962501; 1584962501; 1584962501; 1584962501; 1584962501;
   2000000000; 2000000000; 2000000000; 2000000000; 2321928095; 2321928095; 2584962501; 2584962501; 2807354922;
   3000000000; 3169925001; 3321928095; 3459431619; 3807354922; 4000000000; 4321928095; 4643856190; 5044394119;
   5491853096; 6022367813; 6584962501];
  [0; 1000000000; 1000000000; 1000000000; 1000000000; 1584962501; 1584962501; 1584962501; 1584962501; 1584962501;
   1584962501; 2000000000; 2000000000; 2000000000; 2000000000; 2321928095; 2321928095; 2584962501; 2584962501;
   2807354922; 3000000000; 3169925001; 3321928095; 3584962501; 3807354922; 4000000000; 4321928095; 4700439718;
   5087462841; 5523561956; 6022367813];
  [0; 1000000000; 1000000000; 1000000000; 1000000000; 1000000000; 1584962501; 1584962501; 1584962501; 1584962501;
   1584962501; 1584962501; 2000000000; 2000000000; 2000000000; 2321928095; 2321928095; 2321928095; 2584962501;
   2584962501; 2807354922; 3000000000; 3169925001; 3321928095; 3584962501; 3807354922; 4087462841; 4392317423;
   4700439718; 5087462841; 5523561956];
  [0; 1000000000; 1000000000; 1000000000; 1000000000; 1000000000; 1000000000; 1584962501; 1584962501; 1584962501;
   1584962501; 1584962501; 1584962501; 2000000000; 2000000000; 2000000000; 2321928095; 2321928095; 2321928095;
   2584962501; 2584962501; 2807354922; 3000000000; 3169925001; 3321928095; 3584962501; 3807354922; 4087462841;
   4392317423; 4700439718; 5087462841];
  [0; 1000000000; 1000000000; 1000000000; 1000000000; 1000000000; 1000000000; 1584962501; 1584962501; 1584962501;
   1584962501; 1584962501; 1584962501; 2000000000; 2000000000; 2000000000; 2000000000; 2321928095; 2321928095;
   2321928095; 2584962501; 2807354922; 2807354922; 3000000000; 3169925001; 3321928095; 3584962501; 3807354922;
   4087462841; 4392317423; 4754887502];
  [0; 1000000000; 1000000000; 1000000000; 1000000000; 1000000000; 1000000000; 1000000000; 1584962501; 1584962501;
   1584962501; 1584962501; 1584962501; 1584962501; 2000000000; 2000000000; 2000000000; 2000000000; 2321928095;
   2321928095; 2584962501; 2584962501; 2807354922; 2807354922; 3000000000; 3169925001; 3459431619; 3584962501;
   3807354922; 4087462841; 4392317423];
  [0; 1000000000; 1000000000; 1000000000; 1000000000; 1000000000; 1000000000; 1000000000; 1000000000; 1584962501;
   1584962501; 1584962501; 1584962501; 1584962501; 1584962501; 2000000000; 2000000000; 2000000000; 2000000000;
   2321928095; 2321928095; 2584962501; 2584962501; 2807354922; 2807354922; 3000000000; 3169925001; 3459431619;
   3584962501; 3906890596; 4087462841];
  [0; 1000000000; 1000000000; 1000000000; 1000000000; 1000000000; 1000000000; 1000000000; 1000000000; 1584962501;
   1584962501; 1584962501; 1584962501; 1584962501; 1584962501; 1584962501; 2000000000; 2000000000; 2000000000;
   2321928095; 2321928095; 2321928095; 2584962501; 2584962501; 2807354922; 3000000000; 3000000000; 3321928095;
   3459431619; 3700439718; 3906890596]].

Definition logbinSizes_50bit : list (list Z) := [
  [0; 1000000000; 2000000000; 3000000000; 4000000000; 5000000000; 6000000000; 7000000000; 8000000000; 9000000000;
   10000000000; 11000000000; 12000000000; 13000000000; 14000000000; 15000000000; 16000000000; 17000000000; 18000000000;
   19000000000; 20000000000; 21000000000; 22000000000; 23000000000; 24000000000; 25000000000; 26000000000; 27000000000;
   28000000000; 29000000000; 30000000000];
  [0; 1000000000; 2000000000; 3000000000; 4000000000; 5000000000; 5977279923; 6794415866; 7622051819; 8471675214;
   9350939182; 10257387840; 11186733290; 12134426320; 13096385730; 14068862230; 15049040210; 16034841940; 17024728470;
   18017526150; 19012414490; 20008789690; 21006221280; 22004401540; 23003113480; 24002202100; 25001557320; 26001101190;
   27000778580; 28000550420; 29000389060];
  [0; 1000000000; 2000000000; 3000000000; 4000000000; 4954196310; 5643856190; 6321928095; 7033423002; 7787902559;
   8588714636; 9436711542; 10319672120; 11231221180; 12166476950; 13119265380; 14085140460; 15060611500; 16043070020;
   17030559380; 18021657780; 19015341540; 20010859970; 21007685690; 22005437810; 23003846420; 24002720430; 25001923800;
   26001360300; 27000961730; 28000679860];
  [0; 1000000000; 2000000000; 3000000000; 4000000000; 4700439718; 5247927513; 5832890014; 6459431619; 7129283017;
   7857980995; 8643856190; 9475733431; 10347621370; 11252074040; 12181462880; 13129926930; 14092757140; 15066047130;
   16046910830; 17033283180; 18023591940; 19016710370; 20011830550; 21008372540; 22005923630; 23004190110; 24002963480;
   25002095680; 26001481820; 27001047630];
  [0; 1000000000; 2000000000; 3000000000; 3906890596; 4459431619; 4906890596; 5392317423; 5930737338; 6523561956;
   7179909090; 7894817763; 8672425342; 9495855027; 10363039630; 11262682140; 12189206830; 13135548980; 14096797500;
   15068904210; 16048955090; 17034745240; 18024625680; 19017441870; 20012349010; 21008739090; 22006182920; 23004373760;
   24003093320; 25002187460; 26001546710];
  [0; 1000000000; 2000000000; 3000000000; 3807354922; 4169925001; 4584962501; 5000000000; 5459431619; 5977279923;
   6554588852; 7209453366; 7918863237; 8686500527; 9507794640; 10371776640; 11269126680; 12193833330; 13138911720;
   14099183410; 15061497770; 16050188770; 17035604580; 18025236910; 19017876790; 20012657270; 21008957200; 22006337380;
   23004482810; 24003170450; 25002242030];
  [0; 1000000000; 2000000000; 3000000000; 3584962501; 3906890596; 4247927513; 4643856190; 5044394119; 5491853096;
   6000000000; 6584962501; 7228818690; 7930737338; 8696967526; 9515699838; 10377210530; 11273795600; 12196909440;
   13141149200; 14100826570; 15071755630; 16050996460; 17036184350; 18025647860; 19018167570; 20012861830; 21009102130;
   22006440110; 23004555500; 24003221930];
  [0; 1000000000; 2000000000; 3000000000; 3459431619; 3700439718; 4000000000; 4321928095; 4700439718; 5087462841;
   5523561956; 6022367813; 6599912842; 7238404739; 7942514505; 8707359132; 9521600440; 10381542950; 11276706020;
   12199365620; 13142904790; 14101975670; 15072635080; 16051591320; 17036613650; 18025956000; 19018384940; 20013015920;
   21009211500; 22006517500; 23004610190];
  [0; 1000000000; 2000000000; 3000000000; 3321928095; 3459431619; 3807354922; 4087462841; 4392317423; 4700439718;
   5087462841; 5523561956; 6044394119; 6614709844; 7247927513; 7948367232; 8710806434; 9527477006; 10385862400;
   11279610580; 12201205010; 13144180240; 14102959890; 15073304780; 16052101000; 17036978460; 18026210020; 19018566960;
   20013144080; 21009302410; 22006581530];
  [0; 1000000000; 2000000000; 2807354922; 3169925001; 3321928095; 3584962501; 3807354922; 4087462841; 4392317423;
   4700439718; 5129283017; 5554588852; 6044394119; 6629356620; 7257387843; 7960001932; 8717676423; 9531381461;
   10388017290; 11281930030; 12203042060; 13145454560; 14103861490; 15073974160; 16052546820; 17037289550; 18026436990;
   19018727220; 20013258600; 21009383750];
  [0; 1000000000; 2000000000; 2807354922; 3000000000; 3169925001; 3321928095; 3584962501; 3807354922; 4087462841;
   4392317423; 4754887502; 5129283017; 5554588852; 6066089190; 6629356620; 7266786541; 7965784285; 8724513853;
   9535275377; 10391243590; 11283667170; 12204571140; 13146568680; 14104680650; 15074559620; 16052971290; 17037600570;
   18026653110; 19018879330; 20013366300];
  [0; 1000000000; 2000000000; 2584962501; 2807354922; 3000000000; 3169925001; 3459431619; 3584962501; 3906890596;
   4087462841; 4392317423; 4754887502; 5129283017; 5584962501; 6087462841; 6643856190; 7276124405; 7971543554;
   8727920455; 9539158811; 10394462690; 11285980110; 12206098610; 13147681930; 14105499340; 15075103050; 16053395630;
   17037890090; 18026858400; 19019025980];
  [0; 1000000000; 2000000000; 2584962501; 2807354922; 2807354922; 3000000000; 3169925001; 3459431619; 3700439718;
   3906890596; 4169925001; 4459431619; 4754887502; 5169925001; 5584962501; 6087462841; 6643856190; 7276124405;
   7977279923; 8731319031; 9543031820; 10396604780; 11287712380; 12207624470; 13148794320; 14106235760; 15075688050;
   16053777430; 17038168820; 18027058260];
  [0; 1000000000; 2000000000; 2321928095; 2584962501; 2807354922; 3000000000; 3169925001; 3321928095; 3459431619;
   3700439718; 3906890596; 4169925001; 4459431619; 4807354922; 5169925001; 5614709844; 6087462841; 6658211483;
   7285402219; 7982993575; 8738092260; 9544964433; 10399811960; 11290018850; 12208843990; 13149905860; 14107053570;
   15076231050; 16054180330; 17038447500];
  [0; 1000000000; 2000000000; 2321928095; 2584962501; 2584962501; 2807354922; 3000000000; 3169925001; 3321928095;
   3459431619; 3700439718; 3906890596; 4169925001; 4459431619; 4807354922; 5169925001; 5614709844; 6108524457;
   6672425342; 7294620749; 7988684687; 8741466986; 9548821908; 10401946120; 11291746280; 12210366950; 13150857920;
   14107789200; 15076773850; 16054561930];
  [0; 1000000000; 2000000000; 2321928095; 2321928095; 2584962501; 2584962501; 2807354922; 3000000000; 3169925001;
   3321928095; 3459431619; 3700439718; 3906890596; 4169925001; 4459431619; 4807354922; 5209453366; 5614709844;
   6108524457; 6672425342; 7303780748; 7994353437; 8744833837; 9552669098; 10405141460; 11294046310; 12211888290;
   13151967870; 14108524460; 15077316450];
  [0; 1000000000; 2000000000; 2321928095; 2321928095; 2321928095; 2584962501; 2807354922; 2807354922; 3000000000;
   3169925001; 3321928095; 3459431619; 3700439718; 3906890596; 4169925001; 4523561956; 4807354922; 5209453366;
   5643856190; 6129283017; 6686500527; 7312882955; 8000000000; 8751544059; 9556506055; 10407267760; 11295768930;
   12213408040; 13152918580; 14109259340];
  [0; 1000000000; 2000000000; 2000000000; 2321928095; 2321928095; 2584962501; 2584962501; 2807354922; 2807354922;
   3000000000; 3169925001; 3321928095; 3584962501; 3700439718; 4000000000; 4247927513; 4523561956; 4857980995;
   5209453366; 5643856190; 6129283017; 6686500527; 7312882955; 8005624549; 8754887502; 9560332834; 10410451350;
   11297489500; 12214622690; 13154026940];
  [0; 1000000000; 2000000000; 2000000000; 2321928095; 2321928095; 2321928095; 2584962501; 2584962501; 2807354922;
   2807354922; 3000000000; 3169925001; 3321928095; 3584962501; 3700439718; 4000000000; 4247927513; 4523561956;
   4857980995; 5209453366; 5643856190; 6149747120; 6700439718; 7321928095; 8011227255; 8758223215; 9562242424;
   10412569850; 11299780400; 12216139560];
  [0; 1000000000; 2000000000; 2000000000; 2000000000; 2321928095; 2321928095; 2321928095; 2584962501; 2584962501;
   2807354922; 2807354922; 3000000000; 3169925001; 3321928095; 3584962501; 3807354922; 4000000000; 4247927513;
   4523561956; 4857980995; 5247927513; 5672425342; 6149747120; 6714245518; 7330916878; 8016808288; 8764871591;
   9566054038; 10414685240; 11301496190];
  [0; 1000000000; 1584962501; 2000000000; 2000000000; 2000000000; 2321928095; 2321928095; 2321928095; 2584962501;
   2584962501; 2807354922; 3000000000; 3000000000; 3169925001; 3321928095; 3584962501; 3807354922; 4000000000;
   4247927513; 4523561956; 4857980995; 5247927513; 5672425342; 6169925001; 6714245518; 7339850003; 8022367813;
   8768184325; 9569855608; 10417852510];
  [0; 1000000000; 1584962501; 2000000000; 2000000000; 2000000000; 2000000000; 2321928095; 2321928095; 2321928095;
   2584962501; 2584962501; 2807354922; 3000000000; 3000000000; 3169925001; 3459431619; 3584962501; 3807354922;
   4000000000; 4247927513; 4584962501; 4906890596; 5247927513; 5700439718; 6169925001; 6727920455; 7339850003;
   8027905997; 8771489470; 9573647187];
  [0; 1000000000; 1584962501; 2000000000; 2000000000; 2000000000; 2000000000; 2000000000; 2321928095; 2321928095;
   2584962501; 2584962501; 2584962501; 2807354922; 3000000000; 3169925001; 3321928095; 3459431619; 3584962501;
   3807354922; 4000000000; 4321928095; 4584962501; 4906890596; 5285402219; 5700439718; 6189824559; 6727920455;
   7348728154; 8033423002; 8774787060];
  [0; 1000000000; 1584962501; 1584962501; 2000000000; 2000000000; 2000000000; 2000000000; 2321928095; 2321928095;
   2321928095; 2584962501; 2584962501; 2807354922; 2807354922; 3000000000; 3169925001; 3321928095; 3459431619;
   3584962501; 3807354922; 4087462841; 4321928095; 4584962501; 4906890596; 5285402219; 5700439718; 6189824559;
   6741466986; 7357552005; 8038918989];
  [0; 1000000000; 1584962501; 1584962501; 1584962501; 2000000000; 2000000000; 2000000000; 2000000000; 2321928095;
   2321928095; 2321928095; 2584962501; 2584962501; 2807354922; 2807354922; 3000000000; 3169925001; 3321928095;
   3459431619; 3584962501; 3807354922; 4087462841; 4321928095; 4584962501; 4906890596; 5285402219; 5727920455;
   6209453366; 6741466986; 7357552005];
  [0; 1000000000; 1584962501; 1584962501; 1584962501; 2000000000; 2000000000; 2000000000; 2000000000; 2000000000;
   2321928095; 2321928095; 2321928095; 2584962501; 2584962501; 2807354922; 2807354922; 3000000000; 3169925001;
   3321928095; 3459431619; 3700439718; 3807354922; 4087462841; 4321928095; 4584962501; 4954196310; 5321928095;
   5727920455; 6209453366; 6754887502];
  [0; 1000000000; 1584962501; 1584962501; 1584962501; 1584962501; 2000000000; 2000000000; 2000000000; 2000000000;
   2000000000; 2321928095; 2321928095; 2321928095; 2584962501; 2584962501; 2807354922; 2807354922; 3000000000;
   3169925001; 3321928095; 3459431619; 3700439718; 3906890596; 4087462841; 4321928095; 4643856190; 4954196310;
   5321928095; 5727920455; 6209453366];
  [0; 1000000000; 1584962501; 1584962501; 1584962501; 1584962501; 1584962501; 2000000000; 2000000000; 2000000000;
   2000000000; 2321928095; 2321928095; 2321928095; 2321928095; 2584962501; 2584962501; 2807354922; 2807354922;
   3000000000; 3169925001; 3321928095; 3459431619; 3700439718; 3906890596; 4087462841; 4321928095; 4643856190;
   4954196310; 5321928095; 5754887502];
  [0; 1000000000; 1584962501; 1584962501; 1584962501; 1584962501; 1584962501; 1584962501; 2000000000; 2000000000;
   2000000000; 2000000000; 2321928095; 2321928095; 2321928095; 2584962501; 2584962501; 2584962501; 2807354922;
   3000000000; 3000000000; 3169925001; 3321928095; 3459431619; 3700439718; 3906890596; 4087462841; 4392317423;
   4643856190; 4954196310; 5321928095];
  [0; 1000000000; 1584962501; 1584962501; 1584962501; 1584962501; 1584962501; 1584962501; 2000000000; 2000000000;
   2000000000; 2000000000; 2000000000; 2321928095; 2321928095; 2321928095; 2584962501; 2584962501; 2584962501;
   2807354922; 3000000000; 3000000000; 3169925001; 3321928095; 3584962501; 3700439718; 3906890596; 4169925001;
   4392317423; 4643856190; 5000000000];
  [0; 1000000000; 1584962501; 1584962501; 1584962501; 1584962501; 1584962501; 1584962501; 1584962501; 2000000000;
   2000000000; 2000000000; 2000000000; 2000000000; 2321928095; 2321928095; 2321928095; 2584962501; 2584962501;
   2807354922; 2807354922; 3000000000; 3000000000; 3169925001; 3321928095; 3584962501; 3700439718; 3906890596;
   4169925001; 4392317423; 4700439718];
  [0; 1000000000; 1000000000; 1584962501; 1584962501; 1584962501; 1584962501; 1584962501; 1584962501; 1584962501;
   2000000000; 2000000000; 2000000000; 2000000000; 2000000000; 2321928095; 2321928095; 2321928095; 2584962501;
   2584962501; 2807354922; 2807354922; 3000000000; 3169925001; 3169925001; 3321928095; 3584962501; 3700439718;
   3906890596; 4169925001; 4392317423];
  [0; 1000000000; 1000000000; 1584962501; 1584962501; 1584962501; 1584962501; 1584962501; 1584962501; 1584962501;
   1584962501; 2000000000; 2000000000; 2000000000; 2000000000; 2321928095; 2321928095; 2321928095; 2321928095;
   2584962501; 2584962501; 2807354922; 2807354922; 3000000000; 3169925001; 3321928095; 3459431619; 3584962501;
   3700439718; 3906890596; 4169925001]].

Definition logbinSizes_60bit : list (list Z) := [
  [0; 1000000000; 2000000000; 3000000000; 4000000000; 5000000000; 6000000000; 7000000000; 8000000000; 9000000000;
   10000000000; 11000000000; 12000000000; 13000000000; 14000000000; 15000000000; 16000000000; 17000000000; 18000000000;
   19000000000; 20000000000; 21000000000; 22000000000; 23000000000; 24000000000; 25000000000; 26000000000; 27000000000;
   28000000000; 29000000000; 30000000000; 31000000000; 32000000000];
  [0; 1000000000; 2000000000; 3000000000; 4000000000; 5000000000; 5977280000; 6794420000; 7622050000; 8471680000;
   9350940000; 10257400000; 11186700000; 12134400000; 13096400000; 14068900000; 15049000000; 16034800000; 17024700000;
   18017500000; 19012400000; 20008800000; 21006200000; 22004400000; 23003100000; 24002200000; 25001600000; 26001100000;
   27000800000; 28000600000; 29000400000];
  [0; 1000000000; 2000000000; 3000000000; 4000000000; 4954200000; 5643860000; 6321930000; 7033420000; 7787900000;
   8588710000; 9436710000; 10319700000; 11231200000; 12166500000; 13119300000; 14085100000; 15060600000; 16043100000;
   17030600000; 18021700000; 19015300000; 20010900000; 21007700000; 22005400000; 23003800000; 24002700000; 25001900000;
   26001400000; 27001000000; 28000700000];
  [0; 1000000000; 2000000000; 3000000000; 4000000000; 4700440000; 5247930000; 5832890000; 6459430000; 7129280000;
   7857980000; 8643860000; 9475730000; 10347600000; 11252100000; 12181500000; 13129900000; 14092800000; 15066000000;
   16046900000; 17033300000; 18023600000; 19016700000; 20011800000; 21008400000; 22005900000; 23004200000; 24003000000;
   25002100000; 26001500000; 27001000000];
  [0; 1000000000; 2000000000; 3000000000; 3906890000; 4459430000; 4906890000; 5392320000; 5930740000; 6523560000;
   7179910000; 7894820000; 8672430000; 9495860000; 10363000000; 11262700000; 12189200000; 13135500000; 14096800000;
   15068900000; 16049000000; 17034700000; 18024600000; 19017400000; 20012300000; 21008700000; 22006200000; 23004400000;
   24003100000; 25002200000; 26001500000];
  [0; 1000000000; 2000000000; 3000000000; 3807350000; 4169930000; 4584960000; 5000000000; 5459430000; 5977280000;
   6554590000; 7209450000; 7918860000; 8686500000; 9507790000; 10371800000; 11269100000; 12193800000; 13138900000;
   14099200000; 15061500000; 16050200000; 17035600000; 18025200000; 19017900000; 20012700000; 21009000000; 22006300000;
   23004500000; 24003200000; 25002200000];
  [0; 1000000000; 2000000000; 3000000000; 3584960000; 3906890000; 4247930000; 4643860000; 5044390000; 5491850000;
   6000000000; 6584960000; 7228820000; 7930740000; 8696970000; 9515700000; 10377200000; 11273800000; 12196900000;
   13141100000; 14100800000; 15071800000; 16051000000; 17036200000; 18025600000; 19018200000; 20012900000; 21009100000;
   22006400000; 23004600000; 24003200000];
  [0; 1000000000; 2000000000; 3000000000; 3459430000; 3700440000; 4000000000; 4321930000; 4700440000; 5087460000;
   5523560000; 6022370000; 6599910000; 7238400000; 7942510000; 8707360000; 9521600000; 10381500000; 11276700000;
   12199400000; 13142900000; 14102000000; 15072600000; 16051600000; 17036600000; 18026000000; 19018400000; 20013000000;
   21009200000; 22006500000; 23004600000];
  [0; 1000000000; 2000000000; 3000000000; 3321930000; 3459430000; 3807350000; 4087460000; 4392320000; 4700440000;
   5087460000; 5523560000; 6044390000; 6614710000; 7247930000; 7948370000; 8710810000; 9527480000; 10385900000;
   11279600000; 12201200000; 13144200000; 14103000000; 15073300000; 16052100000; 17037000000; 18026200000; 19018600000;
   20013100000; 21009300000; 22006600000];
  [0; 1000000000; 2000000000; 2807350000; 3169930000; 3321930000; 3584960000; 3807350000; 4087460000; 4392320000;
   4700440000; 5129280000; 5554590000; 6044390000; 6629360000; 7257390000; 7960000000; 8717680000; 9531380000;
   10388000000; 11281900000; 12203000000; 13145500000; 14103900000; 15074000000; 16052500000; 17037300000; 18026400000;
   19018700000; 20013300000; 21009400000];
  [0; 1000000000; 2000000000; 2807350000; 3000000000; 3169930000; 3321930000; 3584960000; 3807350000; 4087460000;
   4392320000; 4754890000; 5129280000; 5554590000; 6066090000; 6629360000; 7266790000; 7965780000; 8724510000;
   9535280000; 10391200000; 11283700000; 12204600000; 13146600000; 14104700000; 15074600000; 16053000000; 17037600000;
   18026700000; 19018900000; 20013400000];
  [0; 1000000000; 2000000000; 2584960000; 2807350000; 3000000000; 3169930000; 3459430000; 3584960000; 3906890000;
   4087460000; 4392320000; 4754890000; 5129280000; 5584960000; 6087460000; 6643860000; 7276120000; 7971540000;
   8727920000; 9539160000; 10394500000; 11286000000; 12206100000; 13147700000; 14105500000; 15075100000; 16053400000;
   17037900000; 18026900000; 19019000000];
  [0; 1000000000; 2000000000; 2584960000; 2807350000; 2807350000; 3000000000; 3169930000; 3459430000; 3700440000;
   3906890000; 4169930000; 4459430000; 4754890000; 5169930000; 5584960000; 6087460000; 6643860000; 7276120000;
   7977280000; 8731320000; 9543030000; 10396600000; 11287700000; 12207600000; 13148800000; 14106200000; 15075700000;
   16053800000; 17038200000; 18027100000];
  [0; 1000000000; 2000000000; 2321930000; 2584960000; 2807350000; 3000000000; 3169930000; 3321930000; 3459430000;
   3700440000; 3906890000; 4169930000; 4459430000; 4807350000; 5169930000; 5614710000; 6087460000; 6658210000;
   7285400000; 7982990000; 8738090000; 9544960000; 10399800000; 11290000000; 12208800000; 13149900000; 14107100000;
   15076200000; 16054200000; 17038400000];
  [0; 1000000000; 2000000000; 2321930000; 2584960000; 2584960000; 2807350000; 3000000000; 3169930000; 3321930000;
   3459430000; 3700440000; 3906890000; 4169930000; 4459430000; 4807350000; 5169930000; 5614710000; 6108520000;
   6672430000; 7294620000; 7988680000; 8741470000; 9548820000; 10401900000; 11291700000; 12210400000; 13150900000;
   14107800000; 15076800000; 16054600000];
  [0; 1000000000; 2000000000; 2321930000; 2321930000; 2584960000; 2584960000; 2807350000; 3000000000; 3169930000;
   3321930000; 3459430000; 3700440000; 3906890000; 4169930000; 4459430000; 4807350000; 5209450000; 5614710000;
   6108520000; 6672430000; 7303780000; 7994350000; 8744830000; 9552670000; 10405100000; 11294000000; 12211900000;
   13152000000; 14108500000; 15077300000];
  [0; 1000000000; 2000000000; 2321930000; 2321930000; 2321930000; 2584960000; 2807350000; 2807350000; 3000000000;
   3169930000; 3321930000; 3459430000; 3700440000; 3906890000; 4169930000; 4523560000; 4807350000; 5209450000;
   5643860000; 6129280000; 6686500000; 7312880000; 8000000000; 8751540000; 9556510000; 10407300000; 11295800000;
   12213400000; 13152900000; 14109300000];
  [0; 1000000000; 2000000000; 2000000000; 2321930000; 2321930000; 2584960000; 2584960000; 2807350000; 2807350000;
   3000000000; 3169930000; 3321930000; 3584960000; 3700440000; 4000000000; 4247930000; 4523560000; 4857980000;
   5209450000; 5643860000; 6129280000; 6686500000; 7312880000; 8005620000; 8754890000; 9560330000; 10410500000;
   11297500000; 12214600000; 13154000000];
  [0; 1000000000; 2000000000; 2000000000; 2321930000; 2321930000; 2321930000; 2584960000; 2584960000; 2807350000;
   2807350000; 3000000000; 3169930000; 3321930000; 3584960000; 3700440000; 4000000000; 4247930000; 4523560000;
   4857980000; 5209450000; 5643860000; 6149750000; 6700440000; 7321930000; 8011230000; 8758220000; 9562240000;
   10412600000; 11299800000; 12216100000];
  [0; 1000000000; 2000000000; 2000000000; 2000000000; 2321930000; 2321930000; 2321930000; 2584960000; 2584960000;
   2807350000; 2807350000; 3000000000; 3169930000; 3321930000; 3584960000; 3807350000; 4000000000; 4247930000;
   4523560000; 4857980000; 5247930000; 5672430000; 6149750000; 6714250000; 7330920000; 8016810000; 8764870000;
   9566050000; 10414700000; 11301500000];
  [0; 1000000000; 1584960000; 2000000000; 2000000000; 2000000000; 2321930000; 2321930000; 2321930000; 2584960000;
   2584960000; 2807350000; 3000000000; 3000000000; 3169930000; 3321930000; 3584960000; 3807350000; 4000000000;
   4247930000; 4523560000; 4857980000; 5247930000; 5672430000; 6169930000; 6714250000; 7339850000; 8022370000;
   8768180000; 9569860000; 10417900000];
  [0; 1000000000; 1584960000; 2000000000; 2000000000; 2000000000; 2000000000; 2321930000; 2321930000; 2321930000;
   2584960000; 2584960000; 2807350000; 3000000000; 3000000000; 3169930000; 3459430000; 3584960000; 3807350000;
   4000000000; 4247930000; 4584960000; 4906890000; 5247930000; 5700440000; 6169930000; 6727920000; 7339850000;
   8027910000; 8771490000; 9573650000];
  [0; 1000000000; 1584960000; 2000000000; 2000000000; 2000000000; 2000000000; 2000000000; 2321930000; 2321930000;
   2584960000; 2584960000; 2584960000; 2807350000; 3000000000; 3169930000; 3321930000; 3459430000; 3584960000;
   3807350000; 4000000000; 4321930000; 4584960000; 4906890000; 5285400000; 5700440000; 6189820000; 6727920000;
   7348730000; 8033420000; 8774790000];
  [0; 1000000000; 1584960000; 1584960000; 2000000000; 2000000000; 2000000000; 2000000000; 2321930000; 2321930000;
   2321930000; 2584960000; 2584960000; 2807350000; 2807350000; 3000000000; 3169930000; 3321930000; 3459430000;
   3584960000; 3807350000; 4087460000; 4321930000; 4584960000; 4906890000; 5285400000; 5700440000; 6189820000;
   6741470000; 7357550000; 8038920000];
  [0; 1000000000; 1584960000; 1584960000; 1584960000; 2000000000; 2000000000; 2000000000; 2000000000; 2321930000;
   2321930000; 2321930000; 2584960000; 2584960000; 2807350000; 2807350000; 3000000000; 3169930000; 3321930000;
   3459430000; 3584960000; 3807350000; 4087460000; 4321930000; 4584960000; 4906890000; 5285400000; 5727920000;
   6209450000; 6741470000; 7357550000];
  [0; 1000000000; 1584960000; 1584960000; 1584960000; 2000000000; 2000000000; 2000000000; 2000000000; 2000000000;
   2321930000; 2321930000; 2321930000; 2584960000; 2584960000; 2807350000; 2807350000; 3000000000; 3169930000;
   3321930000; 3459430000; 3700440000; 3807350000; 4087460000; 4321930000; 4584960000; 4954200000; 5321930000;
   5727920000; 6209450000; 6754890000];
  [0; 1000000000; 1584960000; 1584960000; 1584960000; 1584960000; 2000000000; 2000000000; 2000000000; 2000000000;
   2000000000; 2321930000; 2321930000; 2321930000; 2584960000; 2584960000; 2807350000; 2807350000; 3000000000;
   3169930000; 3321930000; 3459430000; 3700440000; 3906890000; 4087460000; 4321930000; 4643860000; 4954200000;
   5321930000; 5727920000; 6209450000];
  [0; 1000000000; 1584960000; 1584960000; 1584960000; 1584960000; 1584960000; 2000000000; 2000000000; 2000000000;
   2000000000; 2321930000; 2321930000; 2321930000; 2321930000; 2584960000; 2584960000; 2807350000; 2807350000;
   3000000000; 3169930000; 3321930000; 3459430000; 3700440000; 3906890000; 4087460000; 4321930000; 4643860000;
   4954200000; 5321930000; 5754890000];
  [0; 1000000000; 1584960000; 1584960000; 1584960000; 1584960000; 1584960000; 1584960000; 2000000000; 2000000000;
   2000000000; 2000000000; 2321930000; 2321930000; 2321930000; 2584960000; 2584960000; 2584960000; 2807350000;
   3000000000; 3000000000; 3169930000; 3321930000; 3459430000; 3700440000; 3906890000; 4087460000; 4392320000;
   4643860000; 4954200000; 5321930000];
  [0; 1000000000; 1584960000; 1584960000; 1584960000; 1584960000; 1584960000; 1584960000; 2000000000; 2000000000;
   2000000000; 2000000000; 2000000000; 2321930000; 2321930000; 2321930000; 2584960000; 2584960000; 2584960000;
   2807350000; 3000000000; 3000000000; 3169930000; 3321930000; 3584960000; 3700440000; 3906890000; 4169930000;
   4392320000; 4643860000; 5000000000];
  [0; 1000000000; 1584960000; 1584960000; 1584960000; 1584960000; 1584960000; 1584960000; 1584960000; 2000000000;
   2000000000; 2000000000; 2000000000; 2000000000; 2321930000; 2321930000; 2321930000; 2584960000; 2584960000;
   2807350000; 2807350000; 3000000000; 3000000000; 3169930000; 3321930000; 3584960000; 3700440000; 3906890000;
   4169930000; 4392320000; 4700440000];
  [0; 1000000000; 1000000000; 1584960000; 1584960000; 1584960000; 1584960000; 1584960000; 1584960000; 1584960000;
   2000000000; 2000000000; 2000000000; 2000000000; 2000000000; 2321930000; 2321930000; 2321930000; 2584960000;
   2584960000; 2807350000; 2807350000; 3000000000; 3169930000; 3169930000; 3321930000; 3584960000; 3700440000;
   3906890000; 4169930000; 4392320000];
  [0; 1000000000; 1000000000; 1584960000; 1584960000; 1584960000; 1584960000; 1584960000; 1584960000; 1584960000;
   1584960000; 2000000000; 2000000000; 2000000000; 2000000000; 2321930000; 2321930000; 2321930000; 2321930000;
   2584960000; 2584960000; 2807350000; 2807350000; 3000000000; 3169930000; 3321930000; 3459430000; 3584960000;
   3700440000; 3906890000; 4169930000]].

Definition logbinSizes_80bit : list (list Z) := [
  [0; 1000000000; 2000000000; 3000000000; 4000000000; 5000000000; 6000000000; 7000000000; 8000000000; 9000000000;
   10000000000; 11000000000; 12000000000; 13000000000; 14000000000; 15000000000; 16000000000; 17000000000; 18000000000;
   19000000000; 20000000000; 21000000000; 22000000000; 23000000000; 24000000000; 25000000000; 26000000000; 27000000000;
   28000000000; 29000000000; 30000000000; 31000000000; 32000000000];
  [0; 1000000000; 2000000000; 3000000000; 4000000000; 5000000000; 6000000000; 6882640000; 7693490000; 8531380000;
   9398740000; 10294600000; 11214300000; 12155100000; 13111500000; 14079700000; 15056800000; 16040400000; 17028700000;
   18020300000; 19014400000; 20010200000; 21007200000; 22005100000; 23003600000; 24002600000; 25001800000; 26001300000;
   27000900000; 28000600000; 29000500000];
  [0; 1000000000; 2000000000; 3000000000; 4000000000; 5000000000; 5781360000; 6459430000; 7149750000; 7882640000;
   8668880000; 9497850000; 10365200000; 11265600000; 12191700000; 13137600000; 14098400000; 15070100000; 16049800000;
   17035400000; 18025100000; 19017800000; 20012600000; 21008900000; 22006300000; 23004500000; 24003200000; 25002200000;
   26001600000; 27001100000; 28000800000];
  [0; 1000000000; 2000000000; 3000000000; 4000000000; 4906890000; 5459430000; 6022370000; 6614710000; 7257390000;
   7965780000; 8727920000; 9541100000; 10397700000; 11288900000; 12208500000; 13149600000; 14107000000; 15076200000;
   16054200000; 17038500000; 18027300000; 19019300000; 20013700000; 21009700000; 22006900000; 23004800000; 24003400000;
   25002400000; 26001700000; 27001200000];
  [0; 1000000000; 2000000000; 3000000000; 4000000000; 4643860000; 5129280000; 5584960000; 6108520000; 6686500000;
   7312880000; 8005620000; 8758220000; 9564150000; 10413600000; 11300900000; 12217000000; 13155800000; 14111400000;
   15079400000; 16056400000; 17040100000; 18028400000; 19020100000; 20014300000; 21010100000; 22007100000; 23005000000;
   24003600000; 25002500000; 26001800000];
  [0; 1000000000; 2000000000; 3000000000; 4000000000; 4459430000; 4807350000; 5209450000; 5672430000; 6169930000;
   6727920000; 7348730000; 8027910000; 8774790000; 9575540000; 10423100000; 11307800000; 12221900000; 13159400000;
   14113900000; 15061500000; 16057700000; 17041000000; 18029100000; 19020600000; 20014600000; 21010300000; 22007300000;
   23005200000; 24003700000; 25002600000];
  [0; 1000000000; 2000000000; 3000000000; 3807350000; 4247930000; 4523560000; 4906890000; 5285400000; 5700440000;
   6189820000; 6741470000; 7366320000; 8044390000; 8787900000; 9584960000; 10428400000; 11311700000; 12225200000;
   13161600000; 14115500000; 15082300000; 16058500000; 17041600000; 18029500000; 19020900000; 20014800000; 21010500000;
   22007400000; 23005200000; 24003700000];
  [0; 1000000000; 2000000000; 3000000000; 3700440000; 4000000000; 4321930000; 4584960000; 4954200000; 5321930000;
   5727920000; 6209450000; 6768180000; 7375040000; 8055280000; 8794420000; 9590590000; 10432500000; 11315100000;
   12227300000; 13163200000; 14116700000; 15083100000; 16059100000; 17042000000; 18029800000; 19021100000; 20014900000;
   21010600000; 22007500000; 23005300000];
  [0; 1000000000; 2000000000; 3000000000; 3584960000; 3807350000; 4087460000; 4321930000; 4643860000; 4954200000;
   5321930000; 5754890000; 6228820000; 6768180000; 7383700000; 8060700000; 8800900000; 9594320000; 10435700000;
   11317400000; 12229100000; 13164400000; 14117600000; 15083800000; 16059600000; 17042300000; 18030000000; 19021300000;
   20015100000; 21010700000; 22007500000];
  [0; 1000000000; 2000000000; 3000000000; 3459430000; 3700440000; 3906890000; 4087460000; 4392320000; 4643860000;
   4954200000; 5357550000; 5754890000; 6247930000; 6781360000; 7392320000; 8066090000; 8804130000; 9598050000;
   10438800000; 11319100000; 12230600000; 13165500000; 14118400000; 15084400000; 16060000000; 17042600000; 18030200000;
   19021400000; 20015200000; 21010700000];
  [0; 1000000000; 2000000000; 3000000000; 3321930000; 3459430000; 3700440000; 3906890000; 4169930000; 4392320000;
   4643860000; 5000000000; 5357550000; 5781360000; 6247930000; 6794420000; 7400880000; 8071460000; 8807350000;
   9601770000; 10441900000; 11321400000; 12232100000; 13166600000; 14119100000; 15084900000; 16060400000; 17042900000;
   18030400000; 19021500000; 20015300000];
  [0; 1000000000; 2000000000; 3000000000; 3169930000; 3321930000; 3584960000; 3700440000; 3906890000; 4169930000;
   4392320000; 4700440000; 5000000000; 5357550000; 5781360000; 6266790000; 6794420000; 7400880000; 8076820000;
   8813780000; 9603630000; 10444000000; 11323100000; 12233300000; 13167600000; 14119800000; 15085400000; 16060700000;
   17043100000; 18030600000; 19021700000];
  [0; 1000000000; 2000000000; 2807350000; 3000000000; 3169930000; 3321930000; 3584960000; 3700440000; 3906890000;
   4169930000; 4392320000; 4700440000; 5000000000; 5392320000; 5781360000; 6266790000; 6807350000; 7409390000;
   8082150000; 8816980000; 9607330000; 10446000000; 11324700000; 12234500000; 13168500000; 14120500000; 15085900000;
   16061100000; 17043400000; 18030800000];
  [0; 1000000000; 2000000000; 2807350000; 3000000000; 3169930000; 3321930000; 3459430000; 3584960000; 3807350000;
   4000000000; 4169930000; 4459430000; 4700440000; 5044390000; 5392320000; 5807350000; 6285400000; 6807350000;
   7417850000; 8087460000; 8820180000; 9611020000; 10448100000; 11326400000; 12236000000; 13169500000; 14121100000;
   15086400000; 16061400000; 17043600000];
  [0; 1000000000; 2000000000; 2584960000; 2807350000; 3000000000; 3169930000; 3321930000; 3459430000; 3584960000;
   3807350000; 4000000000; 4169930000; 4459430000; 4700440000; 5044390000; 5392320000; 5807350000; 6285400000;
   6820180000; 7426260000; 8092760000; 8823370000; 9612870000; 10451200000; 11328100000; 12237200000; 13170400000;
   14121900000; 15086800000; 16061800000];
  [0; 1000000000; 2000000000; 2584960000; 2807350000; 2807350000; 3000000000; 3169930000; 3321930000; 3459430000;
   3584960000; 3807350000; 4000000000; 4169930000; 4459430000; 4754890000; 5044390000; 5426260000; 5832890000;
   6285400000; 6832890000; 7426260000; 8098030000; 8829720000; 9616550000; 10453300000; 11329800000; 12238400000;
   13171200000; 14122500000; 15087300000];
  [0; 1000000000; 2000000000; 2584960000; 2584960000; 2807350000; 3000000000; 3000000000; 3169930000; 3321930000;
   3459430000; 3584960000; 3807350000; 4000000000; 4247930000; 4459430000; 4754890000; 5044390000; 5426260000;
   5832890000; 6303780000; 6832890000; 7434630000; 8103290000; 8832890000; 9618390000; 10455300000; 11331500000;
   12239600000; 13172100000; 14123200000];
  [0; 1000000000; 2000000000; 2321930000; 2584960000; 2584960000; 2807350000; 3000000000; 3000000000; 3169930000;
   3321930000; 3459430000; 3584960000; 3807350000; 4000000000; 4247930000; 4459430000; 4754890000; 5087460000;
   5426260000; 5832890000; 6303780000; 6845490000; 7442940000; 8108520000; 8836050000; 9622050000; 10457400000;
   11333200000; 12240800000; 13173100000];
  [0; 1000000000; 2000000000; 2321930000; 2584960000; 2584960000; 2807350000; 2807350000; 3000000000; 3000000000;
   3169930000; 3321930000; 3459430000; 3700440000; 3807350000; 4000000000; 4247930000; 4459430000; 4754890000;
   5087460000; 5426260000; 5857980000; 6321930000; 6845490000; 7442940000; 8108520000; 8839200000; 9625710000;
   10459400000; 11334800000; 12242000000];
  [0; 1000000000; 2000000000; 2321930000; 2321930000; 2584960000; 2584960000; 2807350000; 2807350000; 3000000000;
   3000000000; 3169930000; 3321930000; 3459430000; 3700440000; 3807350000; 4000000000; 4247930000; 4523560000;
   4754890000; 5087460000; 5459430000; 5857980000; 6321930000; 6857980000; 7451210000; 8113740000; 8842350000;
   9627530000; 10462500000; 11336500000];
  [0; 1000000000; 2000000000; 2321930000; 2321930000; 2321930000; 2584960000; 2584960000; 2807350000; 2807350000;
   3000000000; 3169930000; 3169930000; 3321930000; 3459430000; 3700440000; 3807350000; 4087460000; 4247930000;
   4523560000; 4807350000; 5087460000; 5459430000; 5857980000; 6339850000; 6857980000; 7459430000; 8118940000;
   8845490000; 9631180000; 10464500000];
  [0; 1000000000; 2000000000; 2321930000; 2321930000; 2321930000; 2584960000; 2584960000; 2584960000; 2807350000;
   2807350000; 3000000000; 3169930000; 3169930000; 3321930000; 3584960000; 3700440000; 3906890000; 4087460000;
   4247930000; 4523560000; 4807350000; 5129280000; 5459430000; 5882640000; 6339850000; 6870360000; 7459430000;
   8124120000; 8851750000; 9633000000];
  [0; 1000000000; 2000000000; 2000000000; 2321930000; 2321930000; 2321930000; 2584960000; 2584960000; 2584960000;
   2807350000; 2807350000; 3000000000; 3169930000; 3321930000; 3321930000; 3584960000; 3700440000; 3906890000;
   4087460000; 4321930000; 4523560000; 4807350000; 5129280000; 5491850000; 5882640000; 6339850000; 6870360000;
   7467610000; 8129280000; 8854870000];
  [0; 1000000000; 2000000000; 2000000000; 2321930000; 2321930000; 2321930000; 2321930000; 2584960000; 2584960000;
   2584960000; 2807350000; 2807350000; 3000000000; 3169930000; 3321930000; 3459430000; 3584960000; 3700440000;
   3906890000; 4087460000; 4321930000; 4523560000; 4807350000; 5129280000; 5491850000; 5882640000; 6357550000;
   6882640000; 7475730000; 8134430000];
  [0; 1000000000; 2000000000; 2000000000; 2000000000; 2321930000; 2321930000; 2321930000; 2321930000; 2584960000;
   2584960000; 2807350000; 2807350000; 3000000000; 3000000000; 3169930000; 3321930000; 3459430000; 3584960000;
   3700440000; 3906890000; 4087460000; 4321930000; 4584960000; 4807350000; 5129280000; 5491850000; 5906890000;
   6357550000; 6882640000; 7475730000];
  [0; 1000000000; 2000000000; 2000000000; 2000000000; 2000000000; 2321930000; 2321930000; 2321930000; 2321930000;
   2584960000; 2584960000; 2807350000; 2807350000; 3000000000; 3000000000; 3169930000; 3321930000; 3459430000;
   3584960000; 3700440000; 3906890000; 4087460000; 4321930000; 4584960000; 4857980000; 5169930000; 5491850000;
   5906890000; 6375040000; 6894820000];
  [0; 1000000000; 2000000000; 2000000000; 2000000000; 2000000000; 2000000000; 2321930000; 2321930000; 2321930000;
   2584960000; 2584960000; 2584960000; 2807350000; 2807350000; 3000000000; 3000000000; 3169930000; 3321930000;
   3459430000; 3584960000; 3700440000; 3906890000; 4087460000; 4321930000; 4584960000; 4857980000; 5169930000;
   5523560000; 5906890000; 6375040000];
  [0; 1000000000; 1584960000; 2000000000; 2000000000; 2000000000; 2000000000; 2000000000; 2321930000; 2321930000;
   2321930000; 2584960000; 2584960000; 2584960000; 2807350000; 2807350000; 3000000000; 3000000000; 3169930000;
   3321930000; 3459430000; 3584960000; 3807350000; 3906890000; 4169930000; 4321930000; 4584960000; 4857980000;
   5169930000; 5523560000; 5930740000];
  [0; 1000000000; 1584960000; 2000000000; 2000000000; 2000000000; 2000000000; 2000000000; 2321930000; 2321930000;
   2321930000; 2321930000; 2584960000; 2584960000; 2584960000; 2807350000; 2807350000; 3000000000; 3000000000;
   3169930000; 3321930000; 3459430000; 3584960000; 3807350000; 3906890000; 4169930000; 4392320000; 4584960000;
   4857980000; 5169930000; 5523560000];
  [0; 1000000000; 1584960000; 1584960000; 2000000000; 2000000000; 2000000000; 2000000000; 2000000000; 2321930000;
   2321930000; 2321930000; 2321930000; 2584960000; 2584960000; 2584960000; 2807350000; 2807350000; 3000000000;
   3169930000; 3169930000; 3321930000; 3459430000; 3584960000; 3807350000; 4000000000; 4169930000; 4392320000;
   4584960000; 4857980000; 5169930000];
  [0; 1000000000; 1584960000; 1584960000; 2000000000; 2000000000; 2000000000; 2000000000; 2000000000; 2000000000;
   2321930000; 2321930000; 2321930000; 2321930000; 2584960000; 2584960000; 2584960000; 2807350000; 2807350000;
   3000000000; 3169930000; 3169930000; 3321930000; 3459430000; 3584960000; 3807350000; 4000000000; 4169930000;
   4392320000; 4643860000; 4906890000];
  [0; 1000000000; 1584960000; 1584960000; 1584960000; 2000000000; 2000000000; 2000000000; 2000000000; 2000000000;
   2000000000; 2321930000; 2321930000; 2321930000; 2321930000; 2584960000; 2584960000; 2807350000; 2807350000;
   2807350000; 3000000000; 3169930000; 3169930000; 3321930000; 3459430000; 3700440000; 3807350000; 4000000000;
   4169930000; 4392320000; 4643860000];
  [0; 1000000000; 1584960000; 1584960000; 1584960000; 1584960000; 2000000000; 2000000000; 2000000000; 2000000000;
   2000000000; 2321930000; 2321930000; 2321930000; 2321930000; 2584960000; 2584960000; 2584960000; 2807350000;
   2807350000; 3000000000; 3000000000; 3169930000; 3321930000; 3321930000; 3459430000; 3700440000; 3807350000;
   4000000000; 4169930000; 4392320000]].

End BinTables.
