(* ===== verification/BinSize.v ===== *)
(** The size of a bin when items are thrown into bins: [SimpleIndex::get_bin_size] and [getBinOverflowProb] of
    src/volepsi/volePSI/SimpleIndex.cpp. [std::log2], [std::pow] and the sum of boost's binomial coefficients are parameters;
    [log2floor] and [log2ceil] of libOTe are the integer logarithms. The search has fuel, and returns within it. *)
From Stdlib Require Import SpecFloat.
From S2P Require Import Prelude Words Fit PxUtil BinTables PxParam.
Open Scope nat_scope.

Module BinSize.
Import PxUtil BinTables PxParam.

Section size.
Context (std_log2 : double → double) (std_pow : double → double → double) (binomialTail : nat → nat → nat → double).

Definition too_many_balls : exn := RuntimeError "boost::math::binomial_coefficient(...) only supports 32 bit inputs which was exceeded.".
Definition no_step : exn := RuntimeError "".

(** [std::numeric_limits<double>::max()] *)
Definition double_max : double := S754_finite false 9007199254740991 971.

(** [getBinOverflowProb]: minus log2 of the probability that some bin overflows. *)
Definition getBinOverflowProb (numBins numBalls binSize : nat) : Res double :=
  if numBalls <=? binSize then mret double_max else
  throw_if (2 ^ 31 - 1 <? Z.of_nat numBalls)%Z too_many_balls ;;
  mret (binomialTail numBins numBalls binSize).

Definition sizes (statSecParam : nat) : list (list Z) :=
  if statSecParam <=? 40 then logbinSizes_40bit else
  if statSecParam <=? 50 then logbinSizes_50bit else
  if statSecParam <=? 60 then logbinSizes_60bit else logbinSizes_80bit.

(** An entry of a table as a double. *)
Definition entry (t : list (list Z)) (i j : nat) : double := d_lit (nth j (nth i t []) 0%Z) (10 ^ 9).

(** The interpolation in the table; [None] when it has no entry. *)
Definition lookup_bin_size (numBins numBalls statSecParam : nat) : option (Res nat) :=
  let t := sizes statSecParam in
  let numBinsLow := Nat.log2 numBins in let numBinsHgh := Nat.log2_up numBins in
  let numBallsLow := Nat.log2 numBalls in let numBallsHgh := Nat.log2_up numBalls in
  let diffBin := dsub (std_log2 (d_of_nat numBins)) (d_of_nat numBinsLow) in
  let diffBall := dsub (std_log2 (d_of_nat numBalls)) (d_of_nat numBallsLow) in
  if (numBinsHgh <? length t) && (numBallsHgh <? length (nth numBinsHgh t [])) then
    let one := d_of_nat 1 in
    let a0 := dadd (dmul diffBin (entry t numBinsLow numBallsLow)) (dmul (dsub one diffBin) (entry t numBinsLow numBallsHgh)) in
    let a1 := dadd (dmul diffBin (entry t numBinsHgh numBallsLow)) (dmul (dsub one diffBin) (entry t numBinsHgh numBallsHgh)) in
    let b0 := dadd (dmul diffBall a0) (dmul (dsub one diffBall) a1) in
    Some (to_u64 (d_ceil (std_pow (d_of_nat 2) b0)))
  else None.

(** The loop of the exact search. *)
Fixpoint search (fuel numBins numBalls statSecParam B step : nat) (doubling : bool) : Res nat :=
  currentProb ← getBinOverflowProb numBins numBalls B;
  let low := dlt currentProb (d_of_nat statSecParam) in
  if negb (low || (1 <? step)) then mret B else
  match fuel with
  | O => Throw undefined
  | S fuel =>
      throw_if (step =? 0) no_step ;;
      if low then
        let step := if doubling then Nat.max 1 (step * 2) else Nat.max 1 (step / 2) in
        search fuel numBins numBalls statSecParam (B + step) step doubling
      else
        let step := Nat.max 1 (step / 2) in
        throw_if (B <? step) undefined ;;
        search fuel numBins numBalls statSecParam (B - step) step false
  end.

(** [get_bin_size]; the logarithm of no balls is not defined. *)
Definition get_bin_size (numBins numBalls statSecParam : nat) (approx : bool) : Res nat :=
  if numBins <? 2 then mret numBalls else
  throw_if (approx && (numBalls =? 0)) undefined ;;
  match (if approx then lookup_bin_size numBins numBalls statSecParam else None) with
  | Some r => r
  | None => search (8 * numBalls + 8) numBins numBalls statSecParam (Nat.max 1 (numBalls / numBins)) 1 true
  end.

(** * The search *)

Lemma double_max_high s : s ≤ 200 → dlt double_max (d_of_nat s) = false.
Proof.
  intros Hs. assert (H : forallb (fun s => negb (dlt double_max (d_of_nat s))) (seq 0 201) = true) by reflexivity.
  rewrite forallb_forall in H. apply negb_true_iff, H, in_seq. lia.
Qed.

Definition low (numBins numBalls statSecParam B : nat) : Prop :=
  ∃ p, getBinOverflowProb numBins numBalls B = Ok p ∧ dlt p (d_of_nat statSecParam) = true.

Lemma prob_cases numBins numBalls s B : (Z.of_nat numBalls < 2 ^ 31)%Z → s ≤ 200 →
  ∃ p, getBinOverflowProb numBins numBalls B = Ok p ∧ (dlt p (d_of_nat s) = true → B < numBalls).
Proof.
  intros Hn Hs. unfold getBinOverflowProb. destruct (Nat.leb_spec numBalls B).
  - exists double_max. split; [done|]. rewrite double_max_high by done. done.
  - exists (binomialTail numBins numBalls B). rewrite (proj2 (Z.ltb_ge _ _)) by lia. done.
Qed.

Definition found (numBins numBalls s : nat) (r : Res nat) : Prop :=
  ∃ B, r = Ok B ∧ 1 ≤ B ∧ ¬ low numBins numBalls s B.

Lemma found_here numBins numBalls s B p : 1 ≤ B → getBinOverflowProb numBins numBalls B = Ok p →
  dlt p (d_of_nat s) = false → found numBins numBalls s (Ok B).
Proof. intros HB E Hp. exists B. split; [done|]. split; [done|]. intros (p' & E' & Hp'). congruence. Qed.

Lemma search_down numBins numBalls s : (Z.of_nat numBalls < 2 ^ 31)%Z → s ≤ 200 → ∀ fuel B step, 1 ≤ step ≤ B →
  3 * step + (numBalls - B) < fuel → found numBins numBalls s (search fuel numBins numBalls s B step false).
Proof.
  intros Hn Hs. induction fuel as [|fuel IH]; intros B step HB Hf; [lia|]. cbn [search].
  destruct (prob_cases numBins numBalls s B Hn Hs) as (p & E & Hp). rewrite E. cbn [mbind Res_bind].
  rewrite (proj2 (Nat.eqb_neq step 0)) by lia. cbn [throw_if mbind Res_bind]. pose proof (Nat.div_mod_eq step 2).
  pose proof (Nat.mod_upper_bound step 2 ltac:(lia)). destruct (dlt p (d_of_nat s)) eqn:El; cbn [orb negb].
  - specialize (Hp eq_refl). apply IH; lia.
  - destruct (Nat.ltb_spec 1 step); cbn [negb]; [|by apply (found_here _ _ _ _ p); [lia| |]].
    rewrite (proj2 (Nat.ltb_ge B _)) by lia. cbn [throw_if mbind Res_bind]. apply IH; lia.
Qed.

Lemma search_up numBins numBalls s : (Z.of_nat numBalls < 2 ^ 31)%Z → s ≤ 200 → ∀ fuel B step, 1 ≤ step ≤ B → step ≤ 2 * numBalls →
  7 * numBalls + (numBalls - B) + 1 < fuel → found numBins numBalls s (search fuel numBins numBalls s B step true).
Proof.
  intros Hn Hs. induction fuel as [|fuel IH]; intros B step HB Hst Hf; [lia|]. cbn [search].
  destruct (prob_cases numBins numBalls s B Hn Hs) as (p & E & Hp). rewrite E. cbn [mbind Res_bind].
  rewrite (proj2 (Nat.eqb_neq step 0)) by lia. cbn [throw_if mbind Res_bind]. pose proof (Nat.div_mod_eq step 2).
  pose proof (Nat.mod_upper_bound step 2 ltac:(lia)). destruct (dlt p (d_of_nat s)) eqn:El; cbn [orb negb].
  - specialize (Hp eq_refl). apply IH; lia.
  - destruct (Nat.ltb_spec 1 step); cbn [negb]; [|by apply (found_here _ _ _ _ p); [lia| |]].
    rewrite (proj2 (Nat.ltb_ge B _)) by lia. cbn [throw_if mbind Res_bind]. apply search_down; try lia.
Qed.

(** C40 The exact search ends: without a table the result is a size whose overflow probability is not above the bound. *)
Theorem get_bin_size_outcome numBins numBalls s : 2 ≤ numBins → 0 < numBalls → (Z.of_nat numBalls < 2 ^ 31)%Z → s ≤ 200 →
  ∃ B, get_bin_size numBins numBalls s false = Ok B ∧ 1 ≤ B ∧ ¬ low numBins numBalls s B.
Proof.
  intros Hb Hn Hn' Hs. unfold get_bin_size. rewrite (proj2 (Nat.ltb_ge _ _)) by lia. cbn [andb throw_if mbind Res_bind].
  apply search_up; (lia || done).
Qed.

End size.

Lemma get_bin_size_outcome_witness : let tail := fun _ _ _ : nat => d_of_nat 3 in
  ∃ B, get_bin_size (fun x => x) (fun x _ => x) tail 4 100 40 false = Ok B ∧ 1 ≤ B ∧ ¬ low tail 4 100 40 B.
Proof. apply get_bin_size_outcome; (lia || done). Defined.

End BinSize.
