(* ===== verification/Baxos.v ===== *)
(** The binned solver of VOLE-PSI: Baxos of src/volepsi/volePSI/Paxos.h and PaxosImpl.h. The inputs are hashed to bins, by
    several threads, and every bin is encoded with a Paxos of its own.

    The memory that the threads share is modelled bin by bin: bin [b] has one region per thread for hashes and values. An item
    is the index of an input, its bin and its hash. In the first phase thread [t] puts its items into its regions, in the second
    one it encodes bins t, t + T, ...; the phases are separated by a barrier, and the orders of the steps of the threads
    are arguments. [inputMapping] is written but never read and is left out. *)
From stdpp Require Import sets.
From S2P Require Import Prelude Words Parallel Fit PxUtil PaxosHash Paxos PaxosTri Gf128 PxVec GfMat PaxosFc PaxosBack PaxosGf PaxosBin PaxosSolve PxParam BinSize.
Open Scope nat_scope.

Module Baxos.
Import PxUtil PaxosHash Paxos PxVec PaxosBack PaxosSolve PxParam BinSize.

Record Baxos : Type := mkBaxos {
  bNumItems : nat; bNumBins : nat; bItemsPerBin : nat; bWeight : nat; bSsp : nat; bParam : PaxosParam; bSeed : block; bAddToDecode : bool }.

Definition getBinSize (std_log2 : double → double) (std_pow : double → double → double) (binomialTail : nat → nat → nat → double)
    (numBins numBalls statSecParam : nat) : Res nat := get_bin_size std_log2 std_pow binomialTail numBins numBalls statSecParam true.

(** [Baxos::init] *)
Definition baxos_init (std_log2 : double → double) (std_pow : double → double → double) (binomialTail : nat → nat → nat → double)
    (numItems binSize weight ssp : nat) (dt : DenseType) (seed : block) : Res Baxos :=
  throw_if (binSize =? 0) undefined ;;
  let numBins := (numItems + binSize - 1) / binSize in
  sec ← to_u64 (dadd (d_of_nat ssp) (std_log2 (d_of_nat numBins)));
  items ← getBinSize std_log2 std_pow binomialTail numBins numItems sec;
  p ← param_init std_log2 std_pow items weight ssp dt;
  mret (mkBaxos numItems numBins items weight ssp p seed false).

Definition bsize (bx : Baxos) : nat := bNumBins bx * (pSparseSize (bParam bx) + pDenseSize (bParam bx)).

(** [get<u64>(0) ^ get<u64>(1) ^ get<u32>(3)] *)
Definition binIdxCompress (h : block) : Z := Z.lxor (Z.lxor (block_lo h) (block_hi h)) (wrap 32 (Z.shiftr h 96)).
Definition modNumBins (bx : Baxos) (h : block) : nat := Z.to_nat (binIdxCompress h mod Z.of_nat (bNumBins bx)).

(** The index type that [solve] and [decode] choose for [mSparseSize + 1]. *)
Definition idxTypeBits (bx : Baxos) : Z :=
  let bitLength := (Nat.log2_up (pSparseSize (bParam bx) + 1) + 7) / 8 * 8 in
  if bitLength <=? 8 then 8 else if bitLength <=? 16 then 16 else if bitLength <=? 32 then 32 else 64.

Abbreviation item := (nat * (nat * block))%type.

Section baxos.
Context (gf128Mul : block → block → block) (libdivide_u64_do : Z → Z → Z) (hashBlock : block → block → block).
Context (invert : list (list bool) → list (list bool)) (choose : nat → nat → nat) (ithCombination : nat → nat → nat → list nat).
Context {V : Type} {H : Helper V} {R : Type} (randomize : R → V * R) (getBlocks : nat → R → list block * R).

(** * Hashing to bins *)

(** The items of a range of inputs that starts at [begin]: 32 at a time, then one by one. *)
Definition binItems (bx : Baxos) (begin : nat) (inputs : list block) : list item :=
  let main := length inputs / 32 in
  concat (map (fun b =>
    let hashes := map (hashBlock (bSeed bx)) (slice inputs (32 * b) 32) in
    let binIdxs := doMod32 libdivide_u64_do (map binIdxCompress hashes) (Z.of_nat (bNumBins bx)) in
    map (fun k => (begin + 32 * b + k, (Z.to_nat binIdxs.[k], hashes.[k]))) (seq 0 32)) (seq 0 main)) ++
  map (fun i => let h := hashBlock (bSeed bx) inputs.[i] in (begin + i, (modNumBins bx h, h))) (seq (32 * main) (length inputs - 32 * main)).

Definition rangeBegin (n T t : nat) : nat := n * t / T.
Definition threadItems (bx : Baxos) (inputs : list block) (T t : nat) : list item :=
  let begin := rangeBegin (length inputs) T t in let end_ := rangeBegin (length inputs) T (S t) in
  binItems bx begin (slice inputs begin (end_ - begin)).

(** The regions of a bin; [per] entries for every thread. *)
Record BinMem : Type := mkBin { n_sizes : list nat; n_vals : list V; n_hashes : list block }.

(** One item of thread [t]. A write past the region of the thread goes into the next one; past the last region of the bin it is
    undefined here (the code writes into the next bin or behind the memory). *)
Definition place (per : nat) (vals : list V) (t : nat) (it : item) (bin : BinMem) : Res BinMem :=
  let '(inIdx, (_, hash)) := it in
  let bs := nth t (n_sizes bin) 0 in
  let addr := per * t + bs in
  throw_if (length (n_hashes bin) <=? addr) undefined ;;
  mret (mkBin (<[t := S bs]> (n_sizes bin)) (<[addr := vget vals inIdx]> (n_vals bin)) (<[addr := hash]> (n_hashes bin))).

Definition placeAt (per : nat) (vals : list V) (mem : list BinMem) (ti : nat * item) : Res (list BinMem) :=
  let '(t, it) := ti in
  bin ← must (mem !! fst (snd it));
  bin ← place per vals t it bin;
  mret (<[fst (snd it) := bin]> mem).

(** * Encoding the bins *)

(** The regions of the threads are moved together. *)
Definition gather (per T : nat) (bin : BinMem) : list block * list V :=
  let '(hashes, vals, _) := for_ 1 T (fun i '(hashes, vals, binPos) =>
    let size := nth i (n_sizes bin) 0 in
    (memcpy hashes binPos hashes (per * i) size,
     for_ 0 size (fun j vals => <[binPos + j := vget vals (per * i + j)]> vals) vals, binPos + size))
    (n_hashes bin, n_vals bin, nth 0 (n_sizes bin) 0) in
  (hashes, vals).

(** The rows of the hashes of a bin. *)
Definition binRows (bx : Baxos) (h : PaxosHash) (hashes : list block) : list (list nat) :=
  if bWeight bx =? 3 then
    let main := length hashes / 32 in
    concat (map (fun b => buildRow32 gf128Mul libdivide_u64_do h (slice hashes (32 * b) 32)) (seq 0 main)) ++
    map (buildRow gf128Mul h) (drop (32 * main) hashes)
  else map (buildRow gf128Mul h) hashes.

(** The memory for the rows, the columns and the weights of a bin, in bytes. *)
Definition allocBytes (bx : Baxos) (idxBits : Z) (items : nat) : Z :=
  (idxBits / 8 * Z.of_nat (items * bWeight bx * 2 + pSparseSize (bParam bx)) + 16 * Z.of_nat (pSparseSize (bParam bx)))%Z.

Definition solveBin (bx : Baxos) (idxBits : Z) (per T : nat) (px : Paxos) (bin : BinMem) (prng : option R) : Res (Paxos * list V * option R) :=
  let binSize := sum_list (n_sizes bin) in
  throw_if (bItemsPerBin bx <? binSize) RTE_LOC ;;
  px ← init idxBits px binSize (bParam bx) (bSeed bx);
  throw_if (allocBytes bx idxBits (bItemsPerBin bx) <? allocBytes bx idxBits binSize)%Z RTE_LOC ;;
  let '(hashes, vals) := gather per T bin in
  let hashes := take binSize hashes in
  let rows := binRows bx (mHasher px) hashes in
  let s := pSparseSize (bParam bx) in
  let colWeights := countCols idxBits (replicate s 0) (concat rows) in
  px ← setInputWith px (bWeight bx) rows hashes (replicate s (0, 0)) (replicate (binSize * bWeight bx) 0) colWeights;
  encode gf128Mul idxBits invert choose ithCombination randomize getBlocks px (take binSize vals) (param_size (bParam bx)) prng.

(** The bins of thread [t]. *)
Definition threadBins (bx : Baxos) (T t : nat) : list nat :=
  List.filter (fun b => b <? bNumBins bx) (map (fun k => t + T * k) (seq 0 (bNumBins bx))).

Definition solveAt (bx : Baxos) (idxBits : Z) (per T : nat) (mem : list BinMem) (st : list Paxos * list V * option R) (tb : nat * nat) :
    Res (list Paxos * list V * option R) :=
  let '(pxs, P, prng) := st in let '(t, b) := tb in
  px ← must (pxs !! t);
  bin ← must (mem !! b);
  '(px, out, prng) ← solveBin bx idxBits per T px bin prng;
  let sizePer := param_size (bParam bx) in
  mret (<[t := px]> pxs, memcpy P (sizePer * b) out 0 sizePer, prng).

(** The steps of the threads, tagged with the thread. *)
Definition tagged {A} (T : nat) (steps : nat → list A) : list (list (nat * A)) := map (fun t => map (pair t) (steps t)) (seq 0 T).

(** [implParSolve]; [order1] and [order2] are the orders of the two phases. The generator is used as if its calls were
    exclusive, and [getBinSize] may be any function. *)
Definition implParSolve (bx : Baxos) (idxBits : Z) (getBinSize : nat → nat → nat → Res nat) (inputs : list block) (vals : list V)
    (outSize : nat) (prng : option R) (numThreads : nat) (order1 : list (nat * item)) (order2 : list (nat * nat)) : Res (list V * option R) :=
  throw_if (negb (outSize =? bsize bx)) RTE_LOC ;;
  if bNumBins bx =? 1 then
    px ← init idxBits Paxos_new (bNumItems bx) (bParam bx) (bSeed bx);
    px ← setInput gf128Mul libdivide_u64_do hashBlock idxBits px inputs;
    '(_, P, prng) ← encode gf128Mul idxBits invert choose ithCombination randomize getBlocks px vals outSize prng;
    mret (P, prng)
  else
    let T := Nat.max 1 numThreads in
    per ← getBinSize (bNumBins bx) ((bNumItems bx + T - 1) / T) (bSsp bx);
    mem ← foldR (placeAt per vals) order1
      (replicate (bNumBins bx) (mkBin (replicate T 0) (replicate (per * T) newElement) (replicate (per * T) 0%Z)));
    '(_, P, prng) ← foldR (solveAt bx idxBits per T mem) order2 (replicate T Paxos_new, replicate outSize newElement, prng);
    mret (P, prng).

(** * Decoding *)

(** [implDecodeBin]; the rows have room for weight 20. *)
Definition implDecodeBin (bx : Baxos) (px : Paxos) (hashes : list block) (inIdxs : list nat) (values PP : list V) : Res (list V) :=
  throw_if (20 <? bWeight bx) undefined ;;
  let store k v values := let idx := nth k inIdxs 0 in <[idx := if bAddToDecode bx then add (vget values idx) v else v]> values in
  let main := length hashes / 32 in
  let values := for_ 0 main (fun b values =>
    let hs := slice hashes (32 * b) 32 in
    let buff := decode32 gf128Mul px (buildRow32 gf128Mul libdivide_u64_do (mHasher px) hs) hs PP in
    for_ 0 32 (fun k values => store (32 * b + k) (vget buff k) values) values) values in
  mret (for_ (32 * main) (length hashes) (fun i values =>
    store i (decode1 gf128Mul px (buildRow gf128Mul (mHasher px) hashes.[i]) hashes.[i] PP) values) values).

(** [implDecodeBatch]: the items wait in the batch of their bin. *)
Definition implDecodeBatch (bx : Baxos) (idxBits : Z) (inputs : list block) (values pp : list V) : Res (list V) :=
  let decodeSize := Nat.min 512 (length inputs) in
  let sizePer := bsize bx / bNumBins bx in
  px ← init idxBits Paxos_new 1 (bParam bx) (bSeed bx);
  let flush binIdx (batch : list (nat * block)) values :=
    implDecodeBin bx px (map snd batch) (map fst batch) values (slice pp (binIdx * sizePer) sizePer) in
  '(batches, values) ← foldR (fun '(batches, values) '(inIdx, (binIdx, hash)) =>
    let batch := nth binIdx batches [] ++ [(inIdx, hash)] in
    if length batch =? decodeSize
    then values ← flush binIdx batch values; mret (<[binIdx := []]> batches, values)
    else mret (<[binIdx := batch]> batches, values)) (binItems bx 0 inputs) (replicate (bNumBins bx) [], values);
  forR 0 (bNumBins bx) (fun binIdx values =>
    let batch := nth binIdx batches [] in
    if length batch =? 0 then mret values else flush binIdx batch values) values.

(** [implParDecode]; [order] is the order of the threads, whose ranges of values are disjoint. *)
Definition implParDecode (bx : Baxos) (idxBits : Z) (inputs : list block) (values pp : list V) (numThreads : nat) (order : list nat) : Res (list V) :=
  if bNumBins bx =? 1 then
    px ← init idxBits Paxos_new 1 (bParam bx) (bSeed bx);
    let px := mkPaxos (param px) (mNumItems px) (mSeed px) (bAddToDecode bx) (mHasher px) (mDense px) (mRows px) (mCols px)
      (mColBacking px) (mWeightSets px) in
    decode gf128Mul libdivide_u64_do hashBlock px inputs values pp
  else
    let T := Nat.max numThreads 1 in
    foldR (fun values t =>
      let begin := rangeBegin (length inputs) T t in let n := rangeBegin (length inputs) T (S t) - begin in
      va ← implDecodeBatch bx idxBits (slice inputs begin n) (slice values begin n) pp;
      mret (memcpy values begin va 0 n)) order values.

(** [solve] and [decode] *)
Definition baxos_solve (bx : Baxos) (getBinSize : nat → nat → nat → Res nat) (inputs : list block) (vals : list V) (outSize : nat)
    (prng : option R) (numThreads : nat) (order1 : list (nat * item)) (order2 : list (nat * nat)) : Res (list V * option R) :=
  implParSolve bx (idxTypeBits bx) getBinSize inputs vals outSize prng numThreads order1 order2.
Definition baxos_decode (bx : Baxos) (inputs : list block) (values pp : list V) (numThreads : nat) (order : list nat) : Res (list V) :=
  implParDecode bx (idxTypeBits bx) inputs values pp numThreads order.
(** [decode] of one input *)
Definition baxos_decode_one (bx : Baxos) (input : block) (p : list V) : Res V :=
  out ← baxos_decode bx [input] [newElement] p 0 [0]; mret (vget out 0).

End baxos.
End Baxos.
