(* ===== verification/BaxosMem.v ===== *)
(** The first phase of the binned solver of Baxos.v: whatever the order in which the threads put their items into the bins,
    the regions of a bin, moved together, hold the items of the bin in the order of the inputs. *)
From stdpp Require Import sets.
From S2P Require Import Prelude Words Parallel PxUtil PaxosHash Paxos PxVec PaxosBack Baxos RbRows.
Open Scope nat_scope.

Module BaxosMem.
Import PxUtil PaxosHash Paxos PxVec PaxosBack Baxos.

(** * Lists *)

Lemma nth_memcpy_at {A} (dst src : list A) doff soff n i d : doff + n ≤ length dst → soff + n ≤ length src →
  nth i (memcpy dst doff src soff n) d = if (doff <=? i) && (i <? doff + n) then nth (soff + (i - doff)) src d else nth i dst d.
Proof.
  intros Hd Hs. unfold memcpy. rewrite !nth_lookup. destruct (Nat.leb_spec doff i); cbn [andb].
  - rewrite lookup_app_r by (rewrite length_take; lia). rewrite length_take_le by lia. destruct (Nat.ltb_spec i (doff + n)).
    + rewrite lookup_app_l by (rewrite length_take, length_drop; lia). by rewrite lookup_take_lt, lookup_drop by lia.
    + rewrite lookup_app_r by (rewrite length_take, length_drop; lia). rewrite lookup_drop, length_take, length_drop. do 2 f_equal. lia.
  - rewrite lookup_app_l by (rewrite length_take; lia). by rewrite lookup_take_lt by lia.
Qed.

Lemma blocks_seq {A} (f : nat → A) k m : concat (map (fun b => map (fun i => f (k * b + i)) (seq 0 k)) (seq 0 m)) = map f (seq 0 (k * m)).
Proof.
  induction m as [|m IH]; [by rewrite Nat.mul_0_r|]. rewrite seq_S, map_app, concat_app, IH. cbn [map concat Nat.add]. rewrite app_nil_r.
  replace (k * S m) with (k * m + k) by lia. rewrite seq_app, map_app. f_equal. cbn [Nat.add].
  pose proof (fmap_add_seq (k * m) 0 k) as E. rewrite Nat.add_0_r in E. rewrite <- E. symmetry. apply map_map.
Qed.

Lemma filter_concat {A} (p : A → bool) (ls : list (list A)) : List.filter p (concat ls) = concat (map (List.filter p) ls).
Proof. induction ls as [|l ls IH]; [done|]. cbn [concat map]. by rewrite List.filter_app, IH. Qed.

Lemma filter_map_comm {A B} (p : B → bool) (f : A → B) l : List.filter p (map f l) = map f (List.filter (fun x => p (f x)) l).
Proof. induction l as [|x l IH]; [done|]. cbn. destruct (p (f x)); cbn; by rewrite IH. Qed.

(** Adjacent ranges. *)
Lemma ranges_seq (b : nat → nat) m : b 0 = 0 → (∀ t, b t ≤ b (S t)) →
  concat (map (fun t => seq (b t) (b (S t) - b t)) (seq 0 m)) = seq 0 (b m).
Proof.
  intros H0 Hb. induction m as [|m IH]; [cbn; by rewrite H0|]. rewrite seq_S, map_app, concat_app, IH. cbn [map concat Nat.add].
  rewrite app_nil_r. specialize (Hb m). replace (b (S m)) with (b m + (b (S m) - b m)) at 2 by lia. by rewrite seq_app.
Qed.

(** An interleaving of tagged steps has the steps of every thread in their order. *)
Lemma interleave_thread {A} (ts : list (list (nat * A))) order : interleave ts order →
  (∀ i t, ts !! i = Some t → Forall (fun x => fst x = i) t) →
  (∀ x, x ∈ order → fst x < length ts) ∧ ∀ i, List.filter (fun x => fst x =? i) order = nth i ts [].
Proof.
  induction 1 as [ts Hnil|ts1 x t ts2 l _ IH]; intros Htag.
  - split; [by intros x []%not_elem_of_nil|]. intros i. cbn. rewrite nth_lookup. destruct (ts !! i) as [t|] eqn:E; [|done].
    by apply (Forall_lookup_1 _ _ _ _ Hnil) in E.
  - assert (Hx : fst x = length ts1).
    { specialize (Htag (length ts1) (x :: t)). rewrite list_lookup_middle in Htag by done. by specialize (Htag eq_refl); inversion Htag. }
    destruct IH as [IH1 IH2].
    { intros i t' Ht'. destruct (decide (i = length ts1)) as [->|Hne].
      - rewrite list_lookup_middle in Ht' by done. injection Ht' as <-. specialize (Htag (length ts1) (x :: t)).
        rewrite list_lookup_middle in Htag by done. by specialize (Htag eq_refl); inversion Htag.
      - apply (Htag i). destruct (decide (i < length ts1)); [by rewrite lookup_app_l in * by lia|].
        rewrite lookup_app_r in * by lia. destruct (i - length ts1) eqn:E; [lia|]. done. }
    rewrite !length_app in *. cbn [length] in *. split.
    + intros y [->|Hy]%elem_of_cons; [lia|]. by apply IH1.
    + intros i. cbn [List.filter]. rewrite IH2, Hx, !nth_lookup. destruct (Nat.eqb_spec (length ts1) i) as [<-|Hne].
      * by rewrite !list_lookup_middle by done.
      * f_equal. destruct (decide (i < length ts1)); [by rewrite !lookup_app_l by lia|].
        rewrite !lookup_app_r by lia. by destruct (i - length ts1) eqn:E; [lia|].
Qed.

Lemma tagged_thread {A} T (steps : nat → list A) order : interleave (tagged T steps) order →
  (∀ x, x ∈ order → fst x < T) ∧ ∀ t, t < T → map snd (List.filter (fun x => fst x =? t) order) = steps t.
Proof.
  unfold tagged. intros Hi. pose proof (interleave_thread _ _ Hi) as Ht. match type of Ht with ?P → _ => assert (Hp : P) end.
  { intros i t E. apply list_lookup_fmap_Some in E as (j & -> & Hj). apply lookup_seq in Hj as [-> _]. apply Forall_map, Forall_forall. done. }
  destruct (Ht Hp) as [H1 H2]. rewrite length_map, length_seq in H1. split; [done|]. intros t Hlt. rewrite H2, nth_map_seq by done.
  rewrite map_map. apply map_id.
Qed.

Lemma tagged_all {A} T (steps : nat → list A) order : interleave (tagged T steps) order → map snd order ≡ₚ concat (map steps (seq 0 T)).
Proof.
  intros Hi%interleave_Permutation. rewrite Hi. unfold tagged. induction (seq 0 T) as [|t l IH]; [done|]. cbn [map concat].
  rewrite map_app, IH, map_map. by rewrite map_id.
Qed.

(** The ranges of the threads. *)
Lemma rangeBegin_le n T t : 0 < T → rangeBegin n T t ≤ rangeBegin n T (S t).
Proof. intros HT. unfold rangeBegin. apply Nat.Div0.div_le_mono. lia. Qed.

Lemma rangeBegin_0 n T : rangeBegin n T 0 = 0.
Proof. unfold rangeBegin. rewrite Nat.mul_0_r. apply Nat.Div0.div_0_l. Qed.

Lemma rangeBegin_T n T : 0 < T → rangeBegin n T T = n.
Proof. intros HT. unfold rangeBegin. apply Nat.div_mul. lia. Qed.

Lemma rangeBegin_bound n T t : 0 < T → t ≤ T → rangeBegin n T t ≤ n.
Proof. intros HT Ht. rewrite <- (rangeBegin_T n T) at 2 by done. unfold rangeBegin. apply Nat.Div0.div_le_mono. nia. Qed.

(** * The items *)

Section mem.
Context (libdivide_u64_do : Z → Z → Z) (hashBlock : block → block → block).
Context (libdivide_ok : ∀ x d, in_word 64 x → (0 < d < 2 ^ 64)%Z → libdivide_u64_do x d = (x / d)%Z).
Context (hash_ok : ∀ k x, is_block (hashBlock k x)).
Context (bx : Baxos) (Hnb : 0 < bNumBins bx) (Hnb' : (Z.of_nat (bNumBins bx) < 2 ^ 64)%Z).

(** The hash, the bin and the item of an input. *)
Definition hashOf (x : block) : block := hashBlock (bSeed bx) x.
Definition binOf (x : block) : nat := modNumBins bx (hashOf x).
Definition itemOf (inputs : list block) (i : nat) : item := (i, (binOf inputs.[i], hashOf inputs.[i])).

Lemma binOf_lt x : binOf x < bNumBins bx.
Proof. unfold binOf, modNumBins. pose proof (Z.mod_pos_bound (binIdxCompress (hashOf x)) (Z.of_nat (bNumBins bx))). lia. Qed.

Lemma compress_word h : is_block h → in_word 64 (binIdxCompress h).
Proof.
  intros Hh. unfold binIdxCompress. apply in_word_lxor; [lia|apply in_word_lxor; [lia|apply block_lo_word|by apply block_hi_word]|].
  apply (in_word_weaken 32); [lia|apply in_word_wrap; lia].
Qed.

(** The remainder by libdivide. *)
Lemma doMod32_mod vals m : (∀ v, v ∈ vals → in_word 64 v) → (0 < m < 2 ^ 64)%Z → doMod32 libdivide_u64_do vals m = map (fun v => v mod m)%Z vals.
Proof.
  intros Hv Hm. apply map_ext_in. intros v Hin%list_elem_of_In. rewrite libdivide_ok by auto. pose proof (Z.mod_pos_bound v m ltac:(lia)).
  pose proof (Z.div_mod v m ltac:(lia)). replace (v - v / m * m)%Z with (v mod m)%Z by lia. apply wrap_small. split; lia.
Qed.

Lemma binItems_spec begin inputs : binItems libdivide_u64_do hashBlock bx begin inputs =
  map (fun i => (begin + i, (binOf inputs.[i], hashOf inputs.[i]))) (seq 0 (length inputs)).
Proof.
  unfold binItems. set (main := length inputs / 32). pose proof (Nat.div_mod_eq (length inputs) 32). fold main in H.
  set (F := fun i => (begin + i, (binOf inputs.[i], hashOf inputs.[i]))).
  replace (length inputs) with (32 * main + (length inputs - 32 * main)) at 2 by lia. rewrite seq_app, map_app, <- blocks_seq.
  f_equal. f_equal. apply map_ext_in. intros b Hb%in_seq. assert (Hl : length (slice inputs (32 * b) 32) = 32) by (apply slice_length; lia).
  cbv zeta. rewrite doMod32_mod; [|intros v (h & <- & (x & <- & _)%in_map_iff)%list_elem_of_In%in_map_iff; apply compress_word, hash_ok|lia].
  apply map_ext_in. intros k Hk%in_seq. unfold F, binOf, modNumBins.
  assert (Ek : (map (hashBlock (bSeed bx)) (slice inputs (32 * b) 32)).[k] = hashOf inputs.[32 * b + k]).
  { rewrite (nth_map _ _ _ 0%Z) by lia. unfold hashOf, slice. f_equal. rewrite !nth_lookup, lookup_take_lt, lookup_drop by lia. done. }
  rewrite (nth_map (fun v => (v mod _)%Z) _ k 0%Z), (nth_map binIdxCompress _ k 0%Z) by (rewrite ?length_map; lia). by rewrite Ek, Nat.add_assoc.
Qed.

Lemma threadItems_spec inputs T t : t < T → threadItems libdivide_u64_do hashBlock bx inputs T t =
  map (itemOf inputs) (seq (rangeBegin (length inputs) T t) (rangeBegin (length inputs) T (S t) - rangeBegin (length inputs) T t)).
Proof.
  intros Ht. unfold threadItems. pose proof (rangeBegin_le (length inputs) T t ltac:(lia)).
  pose proof (rangeBegin_bound (length inputs) T (S t) ltac:(lia) ltac:(lia)). set (b := rangeBegin _ T t) in *. set (e := rangeBegin _ T (S t)) in *.
  rewrite binItems_spec, slice_length by lia. pose proof (fmap_add_seq b 0 (e - b)) as E. rewrite Nat.add_0_r in E. rewrite <- E. symmetry.
  etransitivity; [apply map_map|]. apply map_ext_in. intros i Hi%in_seq. unfold itemOf.
  replace (slice inputs b (e - b)).[i] with inputs.[b + i]; [done|]. unfold slice. rewrite !nth_lookup, lookup_take_lt, lookup_drop by lia. done.
Qed.

Lemma threads_items inputs T : 0 < T →
  concat (map (threadItems libdivide_u64_do hashBlock bx inputs T) (seq 0 T)) = map (itemOf inputs) (seq 0 (length inputs)).
Proof.
  intros HT. rewrite <- (rangeBegin_T (length inputs) T HT) at 1. rewrite <- (ranges_seq (rangeBegin (length inputs) T) T).
  - rewrite concat_map, map_map. f_equal. apply map_ext_in. intros t Ht%in_seq. apply threadItems_spec. lia.
  - apply rangeBegin_0.
  - intros t. by apply rangeBegin_le.
Qed.

End mem.

(** * The regions of a bin *)

Section place.
Context {V : Type} {H : Helper V} (per T : nat) (vals : list V).

(** The items of thread [t] in bin [b], of the steps [l]. *)
Definition sel (t b : nat) (l : list (nat * item)) : list item :=
  List.filter (fun it => fst (snd it) =? b) (map snd (List.filter (fun x => fst x =? t) l)).

Lemma sel_snoc t b l x : sel t b (l ++ [x]) = sel t b l ++ if decide (fst x = t ∧ fst (snd (snd x)) = b) then [snd x] else [].
Proof.
  unfold sel. rewrite List.filter_app, map_app, List.filter_app. f_equal. cbn.
  destruct (Nat.eqb_spec (fst x) t); cbn; [|by rewrite decide_False by tauto].
  destruct (Nat.eqb_spec (fst (snd (snd x))) b); [by rewrite decide_True by done|by rewrite decide_False by tauto].
Qed.

(** Bin [b] after the steps [l]. *)
Definition BinInv (l : list (nat * item)) (b : nat) (bin : BinMem) : Prop :=
  length (n_sizes bin) = T ∧ length (n_hashes bin) = per * T ∧ length (n_vals bin) = per * T ∧
  ∀ t, t < T → nth t (n_sizes bin) 0 = length (sel t b l) ∧
    ∀ k it, sel t b l !! k = Some it → nth (per * t + k) (n_hashes bin) 0%Z = snd (snd it) ∧ vget (n_vals bin) (per * t + k) = vget vals (fst it).

(** The regions of two threads do not meet. *)
Lemma region_ne t t' k k' : k < per → k' < per → t ≠ t' → per * t + k ≠ per * t' + k'.
Proof. intros Hk Hk' Hne E. apply Hne. assert (t * per + k = t' * per + k') by lia. nia. Qed.

Lemma place_inv l b bin t it : BinInv l b bin → t < T → fst (snd it) = b → length (sel t b (l ++ [(t, it)])) ≤ per →
  (∀ t', t' < T → length (sel t' b l) ≤ per) →
  ∃ bin', place per vals t it bin = Ok bin' ∧ BinInv (l ++ [(t, it)]) b bin'.
Proof.
  intros (H1 & H2 & H3 & H4) Ht Hb Hle Hle'. destruct it as [i [b' h]]. cbn in Hb. subst b'. unfold place.
  destruct (H4 t Ht) as [Hs _]. rewrite Hs. rewrite sel_snoc, decide_True, length_app in Hle by done. cbn in Hle.
  set (bs := length (sel t b l)) in *. assert (Haddr : per * t + bs < per * T) by nia. rewrite (proj2 (Nat.leb_gt _ _)) by lia. cbn [throw_if mbind Res_bind].
  eexists. split; [done|]. unfold BinInv. cbn [n_sizes n_hashes n_vals]. rewrite !length_insert. do 3 (split; [done|]).
  intros t' Ht'. rewrite sel_snoc. cbn [fst snd]. destruct (H4 t' Ht') as [Hs' Hk']. specialize (Hle' t' Ht').
  rewrite nth_upd by lia. destruct (decide (t = t')) as [<-|Hne].
  - rewrite decide_True by done. split; [by rewrite length_app, Nat.add_1_r|]. intros k it Hk. rewrite nth_upd, vget_upd by lia.
    apply lookup_app_Some in Hk as [Hk|[Hge Hk]].
    + assert (Hlt : k < bs) by (eapply lookup_lt_Some; exact Hk). rewrite !decide_False by lia. by apply Hk'.
    + change (bs ≤ k) in Hge. change ([(i, (b, h))] !! (k - bs) = Some it) in Hk. assert (k = bs) as -> by (destruct (k - bs) eqn:E; [lia|done]). rewrite Nat.sub_diag in Hk. injection Hk as <-.
      by rewrite !decide_True by done.
  - rewrite decide_False by tauto. rewrite app_nil_r. split; [done|]. intros k it Hk.
    assert (Hlt : k < length (sel t' b l)) by (eapply lookup_lt_Some; exact Hk).
    rewrite nth_upd, vget_upd by lia. pose proof (region_ne t t' bs k ltac:(lia) ltac:(lia) Hne). rewrite !decide_False by done. by apply Hk'.
Qed.

Lemma sel_mono t b l l' : length (sel t b l) ≤ length (sel t b (l ++ l')).
Proof. unfold sel. rewrite List.filter_app, map_app, List.filter_app, length_app. lia. Qed.

Lemma sel_other t b l t' it : fst (snd it) ≠ b → sel t b (l ++ [(t', it)]) = sel t b l.
Proof. intros Hb. rewrite sel_snoc, decide_False by tauto. apply app_nil_r. Qed.

(** All bins after the steps of an order, when no region overflows. *)
Lemma phase1_spec nb order mem : (∀ t b, t < T → length (sel t b order) ≤ per) →
  (∀ x, x ∈ order → fst x < T ∧ fst (snd (snd x)) < nb) → length mem = nb →
  (∀ b bin, mem !! b = Some bin → BinInv [] b bin) →
  ∃ mem', foldR (placeAt per vals) order mem = Ok mem' ∧ length mem' = nb ∧ ∀ b bin, mem' !! b = Some bin → BinInv order b bin.
Proof.
  intros Hle Hx Hl H0. assert (G : ∀ rest done mem, order = done ++ rest → length mem = nb → (∀ b bin, mem !! b = Some bin → BinInv done b bin) →
    ∃ mem', foldR (placeAt per vals) rest mem = Ok mem' ∧ length mem' = nb ∧ ∀ b bin, mem' !! b = Some bin → BinInv order b bin).
  2: { by apply (G order []). }
  clear mem Hl H0. induction rest as [|[t it] rest IH]; intros dn mem Eo Hl HI.
  { exists mem. rewrite Eo, app_nil_r in *. done. }
  destruct (Hx (t, it)) as [Ht Hb]; [rewrite Eo; set_solver|]. cbn in Ht, Hb. cbn [foldR placeAt].
  destruct (lookup_lt_is_Some_2 mem (fst (snd it)) ltac:(lia)) as [bin Hbin]. rewrite Hbin. cbn [must mbind Res_bind].
  assert (Eo' : order = (dn ++ [(t, it)]) ++ rest) by (by rewrite <- app_assoc).
  destruct (place_inv dn _ bin t it (HI _ _ Hbin) Ht eq_refl) as (bin' & E & HI').
  { rewrite <- (Hle t (fst (snd it)) Ht), Eo'. apply sel_mono. }
  { intros t' Ht'. rewrite <- (Hle t' (fst (snd it)) Ht'), Eo. apply sel_mono. }
  rewrite E. cbn [mbind Res_bind]. change (mret ?x) with (Ok x). cbn [mbind Res_bind]. apply (IH (dn ++ [(t, it)])); [done|by rewrite length_insert|].
  intros b bin1 Hb1. apply list_lookup_insert_Some in Hb1 as [(<- & <- & _)|[Hne Hb1]]; [done|].
  destruct (HI b bin1 Hb1) as (I1 & I2 & I3 & I4). split; [done|]. split; [done|]. split; [done|]. intros t' Ht'. by rewrite sel_other by done; apply I4.
Qed.

(** The values of a region are moved forward. *)
Lemma move_vals vs pos off size : pos ≤ off → off + size ≤ length vs →
  let r := for_ 0 size (fun j vals => <[pos + j := vget vals (off + j)]> vals) vs in
  length r = length vs ∧ ∀ k, vget r k = if decide (pos ≤ k ∧ k < pos + size) then vget vs (off + (k - pos)) else vget vs k.
Proof.
  intros Hp Hl r. unfold r. loop_inv (fun j (r : list V) => length r = length vs ∧
    ∀ k, vget r k = if decide (pos ≤ k ∧ k < pos + j) then vget vs (off + (k - pos)) else vget vs k) as HI; [lia| | |exact HI].
  - split; [done|]. intros k. by rewrite decide_False by lia.
  - intros j r' Hj [I1 I2]. split; [by rewrite length_insert|]. intros k. rewrite vget_upd by lia. destruct (decide (pos + j = k)) as [<-|Hne].
    + rewrite I2, decide_False, decide_True by lia. f_equal. lia.
    + rewrite I2. destruct (decide (pos ≤ k ∧ k < pos + j)); [by rewrite decide_True by lia|by rewrite decide_False by lia].
Qed.

Context (order : list (nat * item)) (b : nat) (Hle : ∀ t, t < T → length (sel t b order) ≤ per).

(** The items of the first [i] threads in the bin. *)
Definition gathered (i : nat) : list item := concat (map (fun t => sel t b order) (seq 0 i)).

Lemma gathered_S i : gathered (S i) = gathered i ++ sel i b order.
Proof. unfold gathered. rewrite seq_S, map_app, concat_app. cbn [map concat Nat.add]. by rewrite app_nil_r. Qed.

Lemma gathered_length i : i ≤ T → length (gathered i) ≤ per * i.
Proof.
  induction i as [|i IH]; intros Hi; [cbn; lia|]. rewrite gathered_S, length_app. specialize (IH ltac:(lia)). specialize (Hle i ltac:(lia)). lia.
Qed.

Definition holds (hs : list block) (vs : list V) (off : nat) (l : list item) : Prop :=
  ∀ k it, l !! k = Some it → nth (off + k) hs 0%Z = snd (snd it) ∧ vget vs (off + k) = vget vals (fst it).

Lemma holds_take hs vs l : holds hs vs 0 l → length l ≤ length hs → length l ≤ length vs →
  take (length l) hs = map (fun it => snd (snd it)) l ∧ take (length l) vs = map (fun it => vget vals (fst it)) l.
Proof.
  intros Hh H1 H2. split.
  - apply (nth_ext _ _ 0%Z 0%Z); [rewrite length_map, length_take; lia|]. intros k Hk. rewrite length_take in Hk.
    destruct (lookup_lt_is_Some_2 l k ltac:(lia)) as [it Hit]. destruct (Hh k it Hit) as [E _]. cbn in E.
    rewrite (nth_map _ _ _ (0, (0, 0%Z))) by lia. rewrite (nth_lookup_Some _ _ _ _ Hit), <- E, !nth_lookup. by rewrite lookup_take_lt by lia.
  - apply (nth_ext _ _ newElement newElement); [rewrite length_map, length_take; lia|]. intros k Hk. rewrite length_take in Hk.
    destruct (lookup_lt_is_Some_2 l k ltac:(lia)) as [it Hit]. destruct (Hh k it Hit) as [_ E]. cbn in E. unfold vget at 1 in E.
    rewrite (nth_map _ _ _ (0, (0, 0%Z))) by lia. rewrite (nth_lookup_Some _ _ _ _ Hit), <- E, !nth_lookup. by rewrite lookup_take_lt by lia.
Qed.

(** Moved together, the regions of the threads are the items of the bin. *)
Lemma gather_spec bin : 0 < T → BinInv order b bin → let '(hashes, vs) := gather per T bin in
  sum_list (n_sizes bin) = length (gathered T) ∧
  take (length (gathered T)) hashes = map (fun it => snd (snd it)) (gathered T) ∧
  take (length (gathered T)) vs = map (fun it => vget vals (fst it)) (gathered T).
Proof.
  intros HT (H1 & H2 & H3 & H4). unfold gather.
  loop_inv (fun i (st : list block * list V * nat) => let '(hs, vs, pos) := st in pos = length (gathered i) ∧ length hs = per * T ∧ length vs = per * T ∧
    holds hs vs 0 (gathered i) ∧ ∀ t, i ≤ t → t < T → holds hs vs (per * t) (sel t b order)) as HI; [lia| | |].
  - destruct (H4 0 HT) as [E0 Hk0]. rewrite Nat.mul_0_r in Hk0. unfold gathered. cbn [seq map concat]. rewrite app_nil_r.
    do 3 (split; [done|]). split; [exact Hk0|]. intros t Ht Ht'. exact (proj2 (H4 t Ht')).
  - intros i [[hs vs] pos] Hi (-> & L1 & L2 & Hg & Hr). destruct (H4 i ltac:(lia)) as [Es _]. rewrite Es. pose proof (gathered_length i ltac:(lia)) as Hlen.
    pose proof (Hle i ltac:(lia)) as Hli. assert (HiT : per * i + length (sel i b order) ≤ per * T) by nia.
    destruct (move_vals vs (length (gathered i)) (per * i) (length (sel i b order)) Hlen ltac:(lia)) as [M1 M2]. cbv zeta in M1, M2.
    rewrite gathered_S, length_app, memcpy_length by lia. do 2 (split; [done|]). split; [lia|]. split.
    + intros k it Hk. cbn [Nat.add]. rewrite nth_memcpy_at, M2 by lia. apply lookup_app_Some in Hk as [Hk|[Hge Hk]].
      * pose proof (lookup_lt_Some _ _ _ Hk). rewrite (proj2 (Nat.leb_gt _ _)), decide_False by lia. by apply Hg.
      * pose proof (lookup_lt_Some _ _ _ Hk). rewrite (proj2 (Nat.leb_le _ _)), (proj2 (Nat.ltb_lt _ _)), decide_True by lia. apply (Hr i); [lia|lia|exact Hk].
    + intros t Ht Ht' k it Hk. pose proof (lookup_lt_Some _ _ _ Hk). assert (per * i + per ≤ per * t) by nia.
      rewrite nth_memcpy_at, M2 by lia. rewrite (proj2 (Nat.ltb_ge (per * t + k) _)), andb_false_r, decide_False by lia. apply (Hr t); (done || lia).
  - destruct (for_ 1 T _ _) as [[hs vs] pos]. destruct HI as (_ & L1 & L2 & Hg & _).
    pose proof (gathered_length T ltac:(lia)). split; [|apply holds_take; (done || lia)].
    transitivity (sum_list (map (fun t => length (sel t b order)) (seq 0 T))).
    + f_equal. apply (nth_ext _ _ 0 0); [by rewrite length_map, length_seq|]. intros t Ht. rewrite H1 in Ht. rewrite nth_map_seq by done. by apply H4.
    + unfold gathered. clear. induction (seq 0 T) as [|t l IH]; [done|]. cbn [map concat]. rewrite length_app, <- IH. done.
Qed.

End place.
(** The items of a bin, in whatever order the threads have worked. *)
Lemma gathered_items libdivide_u64_do hashBlock bx inputs T order b :
  (∀ x d, in_word 64 x → (0 < d < 2 ^ 64)%Z → libdivide_u64_do x d = (x / d)%Z) → (∀ k x, is_block (hashBlock k x)) →
  0 < bNumBins bx → (Z.of_nat (bNumBins bx) < 2 ^ 64)%Z → 0 < T →
  interleave (tagged T (threadItems libdivide_u64_do hashBlock bx inputs T)) order →
  gathered order b T = map (itemOf hashBlock bx inputs) (List.filter (fun i => binOf hashBlock bx inputs.[i] =? b) (seq 0 (length inputs))).
Proof.
  intros Hd Hh Hnb Hnb' HT Hi. destruct (tagged_thread _ _ _ Hi) as [_ Ht]. unfold gathered.
  transitivity (List.filter (fun it => fst (snd it) =? b) (map (itemOf hashBlock bx inputs) (seq 0 (length inputs)))).
  - rewrite <- (threads_items libdivide_u64_do hashBlock Hd Hh bx Hnb Hnb' inputs T HT), filter_concat, map_map. f_equal.
    apply map_ext_in. intros t Hlt%in_seq. unfold sel. by rewrite Ht by lia.
  - apply filter_map_comm.
Qed.

End BaxosMem.
