(* ===== verification/BaxosBins.v ===== *)
(** The second phase of the binned solver of Baxos.v: the encoding of one bin, which may be empty, and of all of them in any
    order. *)
From stdpp Require Import sets.
From S2P Require Import Prelude Words Parallel PxUtil PaxosHash Paxos PaxosTri Gf128 PxVec GfMat PaxosFc PaxosBack PaxosGf PaxosBin PaxosSolve Baxos BaxosMem.
Open Scope nat_scope.

Module BaxosBins.
Import PxUtil PaxosHash Paxos PaxosTri PxVec PaxosBack PaxosGf PaxosBin PaxosSolve Baxos BaxosMem.

(** * The encoding of nothing *)

(** When no column has a row, only bucket 0 is in use. *)
Lemma view_zero wd n P W : View wd n P W → (∀ x, x < n → W x = 0) → length (PxUtil.mWeightSets wd) ≤ 1.
Proof.
  intros (L & HR & _ & _ & HL) H0. destruct (rep_trim _ _ HR) as [->|(x & Hx)]; [cbn; lia|]. rewrite last_lookup in Hx.
  pose proof (lookup_lt_Some _ _ _ Hx) as Hlt. rewrite (rep_head _ _ HR) in Hx by done. injection Hx as Hx.
  assert (Hin : x ∈ L (Nat.pred (length (PxUtil.mWeightSets wd)))) by (destruct (L _) as [|y l]; [done|injection Hx as ->; apply elem_of_cons; by left]).
  apply HL in Hin as (Hlt' & _ & Hw). rewrite H0 in Hw by done. lia.
Qed.

Section bins.
Context (gf128Mul : block → block → block) (libdivide_u64_do : Z → Z → Z) (hashBlock : block → block → block) (idxBits : Z).
Context (invert : list (list bool) → list (list bool)) (choose : nat → nat → nat) (ithCombination : nat → nat → nat → list nat).
Context {V : Type} {H : Helper V} {R : Type} (randomize : R → V * R) (getBlocks : nat → R → list block * R).
Context {vok : V → Prop} {HOk : HelperOk gf128Mul H vok} (G : Gf128 gf128Mul).
Context (libdivide_ok : ∀ x d, in_word 64 x → (0 < d < 2 ^ 64)%Z → libdivide_u64_do x d = (x / d)%Z).
Context (randomize_ok : ∀ r, vok (fst (randomize r))) (getBlocks_ok : ∀ k r, brow k (fst (getBlocks k r))).
Context (Hinv : invert_ok invert) (Hcomb : combination_ok choose ithCombination).

Local Abbreviation encodePx := (encode gf128Mul idxBits invert choose ithCombination randomize getBlocks).

(** The output of an encoding without rows: zero, or random. *)
Lemma fill_free P cs (prng : option R) : (∀ c, c ∈ cs → c < length P) → (∀ c, vok (vget P c)) →
  let '(P', _) := match prng with Some r => let '(P, r) := randomizeAt randomize cs P r in (P, Some r) | None => (P, None) end in
  length P' = length P ∧ ∀ c, vok (vget P' c).
Proof.
  intros Hc HP. destruct prng as [r|]; [|done]. pose proof (randomizeAt_spec randomize cs P r Hc) as [H1 _].
  pose proof (randomizeAt_ok randomize cs P r randomize_ok Hc HP) as H2. by destruct (randomizeAt randomize cs P r).
Qed.

(** The back substitution without rows. *)
Lemma backfill_empty px wd rs X P prng : length P = param_size (param px) → (∀ c, vok (vget P c)) →
  ∃ P' prng', backfill gf128Mul invert choose ithCombination randomize getBlocks px (mkTri wd rs [] [] []) X P prng = Ok (P', prng') ∧
    length P' = length P ∧ ∀ c, vok (vget P' c).
Proof.
  intros Hl HP. assert (Hseq : ∀ c, c ∈ seq (pSparseSize (param px)) (pDenseSize (param px)) → c < length P).
  { intros c Hc%list_elem_of_In%in_seq. unfold param_size in Hl. lia. }
  pose proof (fill_free P _ prng Hseq HP) as Hf. unfold backfill. destruct (pDt (param px)).
  - unfold backfillBinary. cbn [t_gapRows length Nat.ltb Nat.leb throw_if negb Nat.eqb mbind Res_bind].
    destruct prng as [r|]; [|by exists P, None]. destruct (randomizeAt _ _ P r) as [P' r']. by exists P', (Some r').
  - unfold backfillGf128. cbn [t_gapRows length]. rewrite (proj2 (Nat.ltb_ge _ _)) by lia. cbn [throw_if negb Nat.eqb mbind Res_bind].
    destruct prng as [r|]; [|by exists P, None]. destruct (randomizeAt _ _ P r) as [P' r']. by exists P', (Some r').
Qed.

Lemma triangulate_empty px : Matrix px → mNumItems px = 0 → 0 < pSparseSize (param px) → (0 ≤ idxBits)%Z →
  View (mWeightSets px) (pSparseSize (param px)) (fun _ => True) (fun c => length (rowsWith (mRows px) c (mNumItems px))) →
  ∃ wd, triangulate idxBits px = Ok (mkTri wd [] [] [] []) ∧ View wd (pSparseSize (param px)) (fun _ => True) (fun _ => 0).
Proof.
  intros HM Hn Hs Hb HV. assert (Hw : ∀ c, length (rowsWith (mRows px) c (mNumItems px)) = 0) by (intros c; by rewrite Hn).
  unfold triangulate. rewrite (proj2 (Nat.leb_le _ _)) by (by apply (view_zero _ _ _ _ HV)).
  destruct (reinit idxBits px HM Hs) as (wd & E & HV1); [destruct HV as (L & _ & Hnl & _); lia|intros c; rewrite Hw; lia|done|rewrite Hn; lia|].
  rewrite E. cbn [mbind Res_bind]. exists wd. rewrite Hn. cbn [triLoop t_wd replicate]. rewrite (proj2 (Nat.leb_le _ _)) by (by apply (view_zero _ _ _ _ HV1)).
  split; [done|]. refine (buckets_ext _ _ _ _ _ _ _ _ HV1); [done|]. intros c _. apply Hw.
Qed.

Lemma encode_empty px X prng : Matrix px → mNumItems px = 0 → 0 < pSparseSize (param px) → (0 ≤ idxBits)%Z →
  View (mWeightSets px) (pSparseSize (param px)) (fun _ => True) (fun c => length (rowsWith (mRows px) c (mNumItems px))) →
  ∃ wd P prng', encodePx px X (param_size (param px)) prng = Ok (withWeights px wd, P, prng') ∧
    length (mNodes wd) = pSparseSize (param px) ∧ length P = param_size (param px) ∧ ∀ c, vok (vget P c).
Proof.
  intros HM Hn Hs Hb HV. destruct (triangulate_empty px HM Hn Hs Hb HV) as (wd & Et & HV1).
  unfold encode. rewrite Nat.eqb_refl, Et. cbn [negb throw_if mbind Res_bind t_wd].
  set (P0 := replicate (param_size (param px)) newElement). assert (Hl0 : length P0 = param_size (param px)) by apply length_replicate.
  assert (HP0 : ∀ c, vok (vget P0 c)) by (intros c; unfold P0; rewrite vget_replicate; apply (ok_new (vok := vok))).
  destruct (view_bucket _ _ _ _ 0 0 HV1 Hs I eq_refl) as (h & Eh & Hy). set (cs := walk (length (mNodes wd)) wd h) in *.
  assert (Hcs : ∀ c, c ∈ cs → c < length P0) by (intros c [Hc _]%Hy; unfold param_size in Hl0; lia).
  pose proof (fill_free P0 cs prng Hcs HP0) as Hf.
  assert (E1 : ∃ P1 prng1, (match prng with
      | Some r => node ← must (PxUtil.mWeightSets wd !! 0);
          let '(P, r) := randomizeAt randomize (walk (length (mNodes wd)) wd node) P0 r in mret (P, Some r)
      | None => mret (P0, None) end : Res (list V * option R)) = Ok (P1, prng1) ∧ length P1 = length P0 ∧ ∀ c, vok (vget P1 c)).
  { destruct prng as [r|]; [|by exists P0, None]. rewrite Eh. cbn [must mbind Res_bind]. fold cs.
    destruct (randomizeAt randomize cs P0 r) as [P1 r1]. by exists P1, (Some r1). }
  destruct E1 as (P1 & prng1 & -> & Hl1 & HP1). cbn [mbind Res_bind].
  destruct (backfill_empty px wd [] X P1 prng1 ltac:(lia) HP1) as (P2 & prng2 & -> & Hl2 & HP2). cbn [mbind Res_bind].
  exists wd, P2, prng2. split; [done|]. split; [by destruct HV1 as (L & _ & ? & _)|]. split; [lia|done].
Qed.

(** Without a generator none comes back. *)
Lemma backfill_none px t X P P' r : backfill gf128Mul invert choose ithCombination randomize getBlocks px t X P None = Ok (P', r) → r = None.
Proof.
  unfold backfill, backfillBinary, backfillGf128. destruct (pDt (param px)); intros E; inv_ok.
  - match goal with q : (list V * option R * list nat)%type |- _ => destruct q as [[P1 r1] gc] end. inv_ok.
    destruct (negb (length (t_gapRows t) =? 0)); inv_ok; congruence.
  - match goal with q : (list V * option R)%type |- _ => destruct q as [P1 r1] end. inv_ok.
    destruct (negb (length (t_gapRows t) =? 0)); inv_ok; congruence.
Qed.

Lemma encode_none px X n px' P r : encodePx px X n None = Ok (px', P, r) → r = None.
Proof.
  unfold encode. intros E. inv_ok. cbn [mbind Res_bind] in E. inv_ok.
  match goal with q : (list V * option R)%type |- _ => destruct q as [P1 r1] end. inv_ok.
  match goal with H : backfill _ _ _ _ _ _ _ _ _ _ _ = Ok _ |- _ => apply backfill_none in H end. congruence.
Qed.

(** * One bin *)

(** The value of a hash depends on the parameters only. *)
Lemma evalRow_param px px' P r d : param px = param px' → evalRow gf128Mul px P r d = evalRow gf128Mul px' P r d.
Proof. intros E. unfold evalRow, densePart. by rewrite E. Qed.

Context (bx : Baxos).
Local Abbreviation s := (pSparseSize (bParam bx)).

(** The hasher of the bins, and the value of hash [h] under the encoding [P] of its bin. *)
Definition binHasher : PaxosHash := hash_init (bSeed bx) (pWeight (bParam bx)) s.
Definition evalPx : Paxos := mkPaxos (bParam bx) 0 (bSeed bx) false binHasher [] [] [] [] WeightData_new.
Definition binRow (h : block) : list nat := buildRow gf128Mul binHasher h.
Definition ev (P : list V) (h : block) : V := evalRow gf128Mul evalPx P (binRow h) h.

(** Parameters that fit the index type. *)
Record Fits : Prop := {
  ft_weight : 0 < pWeight (bParam bx) ≤ s;
  ft_same : bWeight bx = pWeight (bParam bx);
  ft_bits : (0 ≤ idxBits)%Z;
  ft_idx : (Z.of_nat s < 2 ^ idxBits - 1)%Z;
  ft_word : (Z.of_nat s < 2 ^ 64)%Z;
  ft_items : bItemsPerBin bx + 2 ≤ s;
  ft_dense : denseFits evalPx }.

(** A Paxos that is ready to encode a bin with hashes [hs]. *)
Definition binPx (hs : list block) (px : Paxos) : Prop :=
  Prepared px ∧ param px = bParam bx ∧ mDense px = hs ∧ mRows px = map binRow hs.
Definition binFails (hs : list block) (e : exn) : Prop := ∃ px, binPx hs px ∧ encodeFails idxBits px e.

Lemma binRow_ok h : pWeight (bParam bx) ≤ s → length (binRow h) = pWeight (bParam bx) ∧ NoDup (binRow h) ∧ ∀ c, c ∈ binRow h → c < s.
Proof.
  intros Hw. destruct (row_distinct gf128Mul binHasher h Hw) as (H1 & H2 & H3). split; [done|]. split; [done|]. by apply Forall_forall.
Qed.

Lemma binRows_spec hs : Fits → binRows gf128Mul libdivide_u64_do bx binHasher hs = map binRow hs.
Proof.
  intros Hf. unfold binRows. destruct (Nat.eqb_spec (bWeight bx) 3) as [E3|]; [|done]. pose proof (Nat.div_mod_eq (length hs) 32) as Hd.
  set (main := length hs / 32) in *. rewrite (ft_same Hf) in E3. pose proof (ft_weight Hf) as Hw.
  transitivity (map binRow (concat (map (fun b => slice hs (32 * b) 32) (seq 0 main))) ++ map binRow (drop (32 * main) hs)).
  - f_equal. rewrite concat_map, map_map. f_equal. apply map_ext_in. intros b Hb%in_seq. unfold binRow, binHasher.
    apply (batch_rows gf128Mul libdivide_u64_do libdivide_ok); [apply slice_length; lia|lia|apply (ft_word Hf)].
  - rewrite <- map_app. f_equal. transitivity (take (32 * main) hs ++ drop (32 * main) hs); [|apply take_drop]. f_equal.
    assert (Hm : ∀ m, 32 * m ≤ length hs → concat (map (fun b => slice hs (32 * b) 32) (seq 0 m)) = take (32 * m) hs).
    { induction m as [|m IH]; intros Hle; [done|]. rewrite seq_S, map_app, concat_app, IH by lia. cbn [map concat Nat.add]. rewrite app_nil_r.
      replace (32 * S m) with (32 * m + 32) by lia. symmetry. apply take_slice. }
    apply Hm. lia.
Qed.

(** The rows of the hashes of a bin and the weights of its columns. *)
Lemma binWeights_spec hs : Fits → (Z.of_nat (length hs) < 2 ^ idxBits)%Z →
  let cw := countCols idxBits (replicate s 0) (concat (map binRow hs)) in
  length cw = s ∧ ∀ c, nth c cw 0 = length (rowsWith (map binRow hs) c (length hs)).
Proof.
  intros Hf Hlen cw. assert (Hrow : ∀ h, length (binRow h) = pWeight (bParam bx) ∧ NoDup (binRow h) ∧ ∀ c, c ∈ binRow h → c < s) by (intros h; apply binRow_ok, (ft_weight Hf)).
  assert (Hnd : Forall NoDup (map binRow hs)) by (apply Forall_map, Forall_forall; intros h _; apply Hrow).
  assert (H0 : ∀ c, nth c (replicate s 0) 0 = 0).
  { intros c. rewrite nth_lookup. destruct (replicate s 0 !! c) eqn:E; [by apply lookup_replicate in E as [-> _]|done]. }
  destruct (countCols_spec idxBits (replicate s 0) (concat (map binRow hs))) as [C1 C2].
  - rewrite length_replicate. intros c (r & (h & <- & _)%in_map_iff & Hc)%list_elem_of_In%in_concat. apply (Hrow h). by apply list_elem_of_In.
  - intros c. rewrite H0. pose proof (occ_rows_le _ c Hnd) as Hle. rewrite length_map in Hle. lia.
  - rewrite length_replicate in C1. split; [done|]. intros c. unfold cw. rewrite C2, H0. cbn [Nat.add].
    rewrite <- occ_rows; [by rewrite firstn_all2 by (by rewrite length_map)|by rewrite length_map|]. intros i Hi.
    rewrite (nth_map _ _ _ 0%Z) by done. apply Hrow.
Qed.

Lemma binInit px m : Fits → m ≤ s → init idxBits px m (bParam bx) (bSeed bx) =
  Ok (mkPaxos (bParam bx) m (bSeed bx) (mAddToDecode px) binHasher (mDense px) (mRows px) (mCols px) (mColBacking px) (mWeightSets px)).
Proof.
  intros Hf Hm. pose proof (ft_items Hf). pose proof (ft_idx Hf). pose proof (ft_bits Hf). unfold init. rewrite (proj2 (Z.leb_gt _ _)) by lia. cbn [throw_if mbind Res_bind].
  rewrite (proj2 (Nat.ltb_ge _ _)) by lia. cbn [throw_if mbind Res_bind]. unfold idx_wrap. rewrite Z.mod_small by lia. by rewrite Nat2Z.id.
Qed.

Local Abbreviation solveBinPx := (solveBin gf128Mul libdivide_u64_do invert choose ithCombination randomize getBlocks bx idxBits).

Lemma sub_throw (a b : Z) {A} (e : exn) (k : Res A) : (b ≤ a)%Z → (throw_if (a <? b)%Z e ;; k) = k.
Proof. intros Hle. by rewrite (proj2 (Z.ltb_ge _ _)) by done. Qed.

Lemma alloc_fits m : (0 ≤ idxBits)%Z → m ≤ bItemsPerBin bx → (allocBytes bx idxBits m ≤ allocBytes bx idxBits (bItemsPerBin bx))%Z.
Proof.
  intros Hb Hm. unfold allocBytes. apply Z.add_le_mono_r, Z.mul_le_mono_nonneg_l; [by apply Z.div_pos|]. apply Nat2Z.inj_le.
  apply Nat.add_le_mono_r, Nat.mul_le_mono_r, Nat.mul_le_mono_r, Hm.
Qed.

(** A Paxos after the input of a bin. *)
Lemma bin_input px hs : Fits → length hs ≤ bItemsPerBin bx → length (mNodes (mWeightSets px)) ≤ s →
  (∀ c, length (rowsWith (map binRow hs) c (length hs)) < 200) →
  ∃ px', (px ← init idxBits px (length hs) (bParam bx) (bSeed bx);
    setInputWith px (bWeight bx) (map binRow hs) hs (replicate s (0, 0)) (replicate (length hs * bWeight bx) 0)
      (countCols idxBits (replicate s 0) (concat (map binRow hs)))) = Ok px' ∧
    Matrix px' ∧ param px' = bParam bx ∧ mNumItems px' = length hs ∧ mRows px' = map binRow hs ∧ mDense px' = hs ∧
    View (mWeightSets px') s (fun _ => True) (fun c => length (rowsWith (mRows px') c (mNumItems px'))).
Proof.
  intros Hf Hm Hnodes H200. rewrite (binInit px (length hs) Hf ltac:(pose proof (ft_items Hf); lia)). cbn [mbind Res_bind]. unfold setInputWith. cbn [mNumItems param].
  rewrite length_map, !length_replicate, !Nat.eqb_refl, (ft_same Hf), !Nat.eqb_refl. cbn [negb orb throw_if mbind Res_bind].
  pose proof (ft_items Hf). pose proof (ft_idx Hf). destruct (binWeights_spec hs Hf ltac:(lia)) as [C1 C2]. set (cw := countCols _ _ _) in *. clearbody cw.
  rewrite C1, Nat.eqb_refl. cbn [negb throw_if mbind Res_bind].
  match goal with |- context [rebuildColumns ?q] => destruct (finishInput gf128Mul libdivide_u64_do hashBlock idxBits q cw) as (px' & E & HM & E1 & E2 & E3 & E4 & E5 & E6 & E7 & HV) end;
    cbn [mNumItems param mRows mDense mCols mColBacking mWeightSets] in *; rewrite ?length_replicate; try done; try lia.
  - split; cbn [mNumItems param mRows]; [by rewrite length_map|]. intros i Hi. rewrite (nth_map _ _ _ 0%Z) by done. apply binRow_ok, (ft_weight Hf).
  - exists px'. rewrite E2. by split_and!.
Qed.

(** The encoding of a bin with hashes [hs] and values [xs]. *)
Lemma solveBin_spec per T px bin prng hs xs : Fits → length (mNodes (mWeightSets px)) ≤ s →
  (let '(hashes, vals) := gather per T bin in sum_list (n_sizes bin) = length hs ∧ take (length hs) hashes = hs ∧ take (length hs) vals = xs) →
  Forall is_block hs → (∀ i, vok (vget xs i)) → (∀ c, length (rowsWith (map binRow hs) c (length hs)) < 200) →
  (prng = None ∨ ∀ px, binPx hs px → gapsAgree idxBits px) →
  (∃ px' P prng', length hs ≤ bItemsPerBin bx ∧ solveBinPx per T px bin prng = Ok (px', P, prng') ∧ (prng = None → prng' = None) ∧ length (mNodes (mWeightSets px')) ≤ s ∧
     length P = param_size (bParam bx) ∧ (∀ c, vok (vget P c)) ∧ ∀ k, k < length hs → ev P hs.[k] = vget xs k) ∨
  ∃ e, solveBinPx per T px bin prng = Throw e ∧ ((bItemsPerBin bx < length hs ∧ e = RTE_LOC) ∨ binFails hs e).
Proof.
  intros Hf Hnodes Hg Hblocks Hxs H200 Hgaps. unfold solveBin. destruct (gather per T bin) as [hashes vals]. destruct Hg as (-> & -> & ->).
  destruct (Nat.ltb_spec (bItemsPerBin bx) (length hs)) as [Hbig|Hm]; cbn [throw_if mbind Res_bind].
  { right. exists RTE_LOC. split; [done|]. by left. }
  destruct (bin_input px hs Hf Hm Hnodes H200) as (px1 & E & HM & Ep & En & Er & Ed & HV). rewrite (binInit px (length hs) Hf ltac:(pose proof (ft_items Hf); lia)) in E |- *.
  cbn [mbind Res_bind] in E |- *. rewrite sub_throw by (apply alloc_fits; [apply (ft_bits Hf)|done]). cbn [mHasher]. rewrite (binRows_spec hs Hf), E. cbn [mbind Res_bind].
  pose proof (ft_weight Hf) as Hw. pose proof (ft_items Hf) as Hit. rewrite <- Ep in *.
  assert (Hnone : ∀ p q r, encodePx px1 xs (param_size (param px1)) prng = Ok (p, q, r) → prng = None → r = None) by (intros p q r Ee ->; by apply encode_none in Ee).
  destruct (decide (length hs = 0)) as [H0|H0].
  { left. destruct (encode_empty px1 xs prng HM ltac:(lia) ltac:(lia) (ft_bits Hf) HV) as (wd & P & prng' & Ee & Hl & HP & Hv).
    exists (withWeights px1 wd), P, prng'. split; [done|]. split; [exact Ee|]. split; [by eapply Hnone|]. cbn [mWeightSets withWeights].
    split; [lia|]. split; [done|]. split; [done|lia]. }
  assert (Hpr : Prepared px1).
  { split; [done|lia|lia|lia|done|]. intros i. rewrite Ed. destruct (nth_in_or_default i hs 0%Z) as [Hin| ->]; [|by apply in_word_0].
    apply list_elem_of_In in Hin. by apply (proj1 (Forall_forall _ _) Hblocks). }
  assert (Hbx : binPx hs px1) by (by split_and!). destruct (encode_spec gf128Mul idxBits invert choose ithCombination randomize getBlocks G randomize_ok getBlocks_ok Hinv Hcomb px1 xs prng Hpr)
    as [(t & P & prng' & Ee & HT & HlP & Hev & HvP)|(e & Ee & Hfail)]; [|done|destruct Hgaps as [|Hgaps]; [by left|right; by apply Hgaps]| |].
  - pose proof (ft_dense Hf) as Hd. unfold denseFits in *. by rewrite Ep.
  - left. exists (withWeights px1 (t_wd t)), P, prng'. split; [done|]. split; [exact Ee|]. split; [by eapply Hnone|]. cbn [mWeightSets withWeights].
    split; [destruct (tr_free px1 t HT) as (L & _ & Hnl & _); lia|]. split; [exact HlP|]. split; [done|]. intros k Hk.
    specialize (Hev k ltac:(lia)). rewrite Er, Ed, (nth_map _ _ _ 0%Z) in Hev by done. unfold ev. rewrite <- Hev. apply evalRow_param. by rewrite Ep.
  - right. exists e. split; [exact Ee|]. right. by exists px1.
Qed.

(** * All bins *)

Local Abbreviation sizePer := (param_size (bParam bx)).
Local Abbreviation solveAtPx := (solveAt gf128Mul libdivide_u64_do invert choose ithCombination randomize getBlocks bx idxBits).

(** The chunk [Pb] of a bin encodes its values. *)
Definition good (hs : list block) (xs : list V) (Pb : list V) : Prop :=
  length Pb = sizePer ∧ (∀ c, vok (vget Pb c)) ∧ ∀ k, k < length hs → ev Pb hs.[k] = vget xs k.

(** What the first phase leaves of a bin. *)
Definition binReady (per T : nat) (mem : list BinMem) (hs : list block) (xs : list V) (b : nat) : Prop :=
  (∃ bin, mem !! b = Some bin ∧ let '(hashes, vals) := gather per T bin in
    sum_list (n_sizes bin) = length hs ∧ take (length hs) hashes = hs ∧ take (length hs) vals = xs) ∧
  Forall is_block hs ∧ (∀ i, vok (vget xs i)) ∧ ∀ c, length (rowsWith (map binRow hs) c (length hs)) < 200.

Definition binFailure (hsOf : nat → list block) (e : exn) : Prop :=
  ∃ b, b < bNumBins bx ∧ ((bItemsPerBin bx < length (hsOf b) ∧ e = RTE_LOC) ∨ binFails (hsOf b) e).

Lemma vget_slice (P : list V) off n k : k < n → off + n ≤ length P → vget (slice P off n) k = vget P (off + k).
Proof. intros Hk Hl. unfold vget, slice. rewrite !nth_lookup. by rewrite lookup_take_lt, lookup_drop by lia. Qed.

Lemma phase2_step per T mem st tb hsOf xsOf (dn : list nat) : Fits → fst tb < T → snd tb < bNumBins bx → snd tb ∉ dn →
  (∀ b, b < bNumBins bx → binReady per T mem (hsOf b) (xsOf b) b) → (∀ b, b ∈ dn → b < bNumBins bx) →
  (let '(pxs, P, prng) := st in length pxs = T ∧ Forall (fun px => length (mNodes (mWeightSets px)) ≤ s) pxs ∧ length P = bsize bx ∧
    (∀ b, b ∈ dn → good (hsOf b) (xsOf b) (slice P (sizePer * b) sizePer)) ∧
    (prng = None ∨ ∀ b px, b < bNumBins bx → binPx (hsOf b) px → gapsAgree idxBits px)) →
  (∃ pxs P prng, solveAtPx per T mem st tb = Ok (pxs, P, prng) ∧ length pxs = T ∧ Forall (fun px => length (mNodes (mWeightSets px)) ≤ s) pxs ∧
    length P = bsize bx ∧ (∀ b, b ∈ snd tb :: dn → good (hsOf b) (xsOf b) (slice P (sizePer * b) sizePer)) ∧
    (prng = None ∨ ∀ b px, b < bNumBins bx → binPx (hsOf b) px → gapsAgree idxBits px)) ∨
  ∃ e, solveAtPx per T mem st tb = Throw e ∧ binFailure hsOf e.
Proof.
  intros Hf Ht Hb Hnew Hready Hdn. destruct st as [[pxs P] prng], tb as [t b]. cbn [fst snd] in *. intros (Hl & Hnodes & HlP & Hgood & Hgaps).
  destruct (lookup_lt_is_Some_2 pxs t ltac:(lia)) as [px Hpx]. destruct (Hready b Hb) as ((bin & Hbin & Hg) & H1 & H2 & H3).
  unfold solveAt. rewrite Hpx, Hbin. cbn [must mbind Res_bind].
  destruct (solveBin_spec per T px bin prng (hsOf b) (xsOf b) Hf (Forall_lookup_1 _ _ _ _ Hnodes Hpx) Hg H1 H2 H3) as
    [(px' & Pb & prng' & Hm & E & Hpn & Hn & Hlb & Hvb & Hev)|(e & E & Hfail)].
  - destruct Hgaps as [|Hgaps]; [by left|right; intros px0; by apply (Hgaps b)].
  - left. rewrite E. cbn [mbind Res_bind]. eexists _, _, _. split; [done|]. assert (Hsz : sizePer * b + sizePer ≤ length P) by (rewrite HlP; unfold bsize, param_size; nia).
    split; [by rewrite length_insert|]. split; [by apply Forall_insert|]. rewrite memcpy_length by lia. split; [done|].
    split; [|destruct Hgaps; [left; auto|by right]]. intros b' [->|Hb']%elem_of_cons.
    + rewrite slice_memcpy_eq by lia. unfold slice. rewrite drop_0, firstn_all2 by lia. by split_and!.
    + assert (Hne : b' ≠ b) by (intros ->; done). rewrite slice_memcpy_ne by (try lia; nia). by apply Hgood.
  - right. exists e. rewrite E. split; [done|]. exists b. done.
Qed.

(** The bins in any order. *)
Lemma phase2_spec per T mem order hsOf xsOf : Fits → (∀ tb, tb ∈ order → fst tb < T ∧ snd tb < bNumBins bx) → NoDup (map snd order) →
  (∀ b, b < bNumBins bx → binReady per T mem (hsOf b) (xsOf b) b) → ∀ st (dn : list nat), (∀ b, b ∈ dn → b < bNumBins bx ∧ b ∉ map snd order) →
  (let '(pxs, P, prng) := st in length pxs = T ∧ Forall (fun px => length (mNodes (mWeightSets px)) ≤ s) pxs ∧ length P = bsize bx ∧
    (∀ b, b ∈ dn → good (hsOf b) (xsOf b) (slice P (sizePer * b) sizePer)) ∧
    (prng = None ∨ ∀ b px, b < bNumBins bx → binPx (hsOf b) px → gapsAgree idxBits px)) →
  (∃ pxs P prng, foldR (solveAtPx per T mem) order st = Ok (pxs, P, prng) ∧ length P = bsize bx ∧
    ∀ b, b ∈ dn ∨ b ∈ map snd order → good (hsOf b) (xsOf b) (slice P (sizePer * b) sizePer)) ∨
  ∃ e, foldR (solveAtPx per T mem) order st = Throw e ∧ binFailure hsOf e.
Proof.
  intros Hf. induction order as [|tb order IH]; intros Ho Hnd Hready st dn Hdn Hst.
  { left. destruct st as [[pxs P] prng]. exists pxs, P, prng. destruct Hst as (_ & _ & HlP & Hg & _). split; [done|]. split; [done|].
    intros b [Hb|Hb]; [by apply Hg|by apply not_elem_of_nil in Hb]. }
  cbn [map] in Hnd, Hdn. apply NoDup_cons in Hnd as [Hnew Hnd]. destruct (Ho tb) as [Ht Hb]; [apply elem_of_cons; by left|].
  destruct (phase2_step per T mem st tb hsOf xsOf dn Hf Ht Hb) as [(pxs & P & prng & E & Hst')|(e & E & Hfail)]; try done.
  - intros Hin. destruct (Hdn _ Hin) as [_ Hn]. apply Hn, elem_of_cons. by left.
  - intros b Hin. by apply Hdn.
  - cbn [foldR]. rewrite E. cbn [mbind Res_bind].
    destruct (IH ltac:(intros; apply Ho, elem_of_cons; by right) Hnd Hready (pxs, P, prng) (snd tb :: dn)) as [(pxs' & P' & prng' & E' & HlP & Hg)|Hfail]; [|done| |by right].
    + intros b [->|Hin]%elem_of_cons; [done|]. destruct (Hdn b Hin) as [? Hn]. split; [done|]. intros Hin'. apply Hn, elem_of_cons. by right.
    + left. exists pxs', P', prng'. split; [done|]. split; [done|]. intros b Hin. apply Hg. cbn [map] in Hin. rewrite !elem_of_cons in *. tauto.
  - right. exists e. cbn [foldR]. rewrite E. done.
Qed.

End bins.
End BaxosBins.
