(* ===== verification/BaxosDecode.v ===== *)
(** Decoding with the binned solver of Baxos.v: whatever the batches and the threads, every input gets the value of its hash
    under the encoding of its bin. *)
From stdpp Require Import sets.
From S2P Require Import Prelude Words Parallel PxUtil PaxosHash Paxos PaxosTri Gf128 PxVec GfMat PaxosFc PaxosBack PaxosGf PaxosBin PaxosSolve Baxos BaxosMem BaxosBins.
Open Scope nat_scope.

Module BaxosDecode.
Import PxUtil PaxosHash Paxos PxVec PaxosBack PaxosSolve Baxos BaxosMem BaxosBins.

Section decode.
Context (gf128Mul : block → block → block) (libdivide_u64_do : Z → Z → Z) (hashBlock : block → block → block) (idxBits : Z).
Context {V : Type} {H : Helper V} {vok : V → Prop} {HOk : HelperOk gf128Mul H vok} (G : Gf128 gf128Mul).
Context (libdivide_ok : ∀ x d, in_word 64 x → (0 < d < 2 ^ 64)%Z → libdivide_u64_do x d = (x / d)%Z).
Context (hash_ok : ∀ k x, is_block (hashBlock k x)).
Context (bx : Baxos) (Hf : Fits idxBits bx) (Hnb : 0 < bNumBins bx) (Hnb' : (Z.of_nat (bNumBins bx) < 2 ^ 64)%Z) (H20 : bWeight bx ≤ 20).

Local Abbreviation s := (pSparseSize (bParam bx)).
Local Abbreviation binHasherB := (binHasher bx).
Local Abbreviation evB := (ev gf128Mul bx).
Local Abbreviation hashB := (hashOf hashBlock bx).
Local Abbreviation binB := (binOf hashBlock bx).
Local Abbreviation decodeBinB := (implDecodeBin gf128Mul libdivide_u64_do bx).

(** * The decoding of a batch of one bin *)

(** A Paxos that decodes for the bins. *)
Definition decPx (px : Paxos) : Prop := param px = bParam bx ∧ mHasher px = binHasherB.

(** What is written over [v] for hash [h]. *)
Definition wr (PP : list V) (h : block) (v : V) : V := if bAddToDecode bx then add v (evB PP h) else evB PP h.
Definition writeAt (PP : list V) (values : list V) (p : nat * block) : list V := <[fst p := wr PP (snd p) (vget values (fst p))]> values.

Lemma rows32 l : length l = 32 → buildRow32 gf128Mul libdivide_u64_do binHasherB l = map (binRow gf128Mul bx) l.
Proof.
  intros Hl. pose proof (ft_weight idxBits bx Hf). unfold binRow. destruct (decide (pWeight (bParam bx) = 3)) as [E3|Hne].
  - apply (batch_rows gf128Mul libdivide_u64_do libdivide_ok); [done|lia|apply (ft_word idxBits bx Hf)].
  - unfold buildRow32. cbn [mWeight binHasher hash_init]. rewrite (proj2 (Nat.eqb_neq _ _)) by done. by rewrite firstn_all2 by lia.
Qed.

Lemma decFits px : decPx px → denseFits px.
Proof. intros [Hp _]. pose proof (ft_dense idxBits bx Hf) as Hd. unfold denseFits in *. by rewrite Hp. Qed.

Lemma decode1_ev px h PP : decPx px → decode1 gf128Mul px (buildRow gf128Mul (mHasher px) h) h PP = evB PP h.
Proof.
  intros Hpx. pose proof (ft_weight idxBits bx Hf). pose proof (decFits px Hpx) as Hd. destruct Hpx as [Hp Hh]. rewrite Hh.
  destruct (binRow_ok gf128Mul bx h ltac:(lia)) as (Hl & _). unfold binRow in Hl.
  rewrite (decode1_spec gf128Mul) by (try done; rewrite ?Hp; (done || lia)). by apply evalRow_param.
Qed.

Lemma decode32_ev px l PP : decPx px → length l = 32 → (∀ i, vok (vget PP i)) →
  decode32 gf128Mul px (buildRow32 gf128Mul libdivide_u64_do (mHasher px) l) l PP = map (evB PP) l.
Proof.
  intros Hpx Hl HP. pose proof (ft_weight idxBits bx Hf). pose proof (decFits px Hpx) as Hd. destruct Hpx as [Hp Hh]. rewrite Hh, rows32 by done.
  unfold decode32. rewrite !firstn_all2 by (rewrite ?length_map; lia).
  rewrite (decodeLanes_spec gf128Mul (vok := vok)); [|done|by rewrite length_map|rewrite Hp; lia|done|].
  - rewrite <- (map_id l) at 2. rewrite zip_map. apply map_ext. intros h. unfold ev. by apply evalRow_param.
  - intros row (h & <- & _)%list_elem_of_In%in_map_iff. rewrite Hp. apply binRow_ok. lia.
Qed.

(** The groups of 32 and the rest write entry after entry. *)
Lemma implDecodeBin_spec px (batch : list (nat * block)) values PP : decPx px → (∀ i, vok (vget PP i)) →
  decodeBinB px (map snd batch) (map fst batch) values PP = Ok (foldl (writeAt PP) values batch).
Proof.
  intros Hpx HP. unfold implDecodeBin. rewrite (proj2 (Nat.ltb_ge _ _)) by done. cbn [throw_if mbind Res_bind]. rewrite length_map.
  pose proof (Nat.div_mod_eq (length batch) 32) as Hdm. set (main := length batch / 32) in *.
  assert (Hstep : ∀ k values v, k < length batch → v = evB PP (map snd batch).[k] →
    <[nth k (map fst batch) 0 := if bAddToDecode bx then add (vget values (nth k (map fst batch) 0)) v else v]> values = writeAt PP values (nth k batch (0, 0%Z))).
  { intros k vs v Hk ->. unfold writeAt, wr. rewrite (nth_map fst batch k (0, 0%Z)), (nth_map snd batch k (0, 0%Z)) by done. done. }
  assert (Htake : ∀ k, k < length batch → foldl (writeAt PP) values (take (S k) batch) = writeAt PP (foldl (writeAt PP) values (take k batch)) (nth k batch (0, 0%Z))).
  { intros k Hk. destruct (lookup_lt_is_Some_2 batch k Hk) as [p Hp]. by rewrite (take_S_r _ _ _ Hp), foldl_snoc, (nth_lookup_Some _ _ _ _ Hp). }
  match goal with |- context [for_ (32 * main) _ _ (for_ ?a ?b ?f ?v)] => assert (H1 : for_ a b f v = foldl (writeAt PP) values (take (32 * main) batch)) end.
  { apply (for_inv (fun b vs => vs = foldl (writeAt PP) values (take (32 * b) batch))); [lia|done|]. intros b vs Hb ->. cbv zeta beta.
    assert (Hsl : length (slice (map snd batch) (32 * b) 32) = 32) by (apply slice_length; rewrite length_map; lia). rewrite (decode32_ev px _ PP Hpx Hsl HP).
    replace (32 * S b) with (32 * b + 32) by lia.
    apply (for_inv (fun k vs => vs = foldl (writeAt PP) values (take (32 * b + k) batch))); [lia|by rewrite Nat.add_0_r|]. intros k vs Hk ->.
    rewrite Nat.add_succ_r, Htake by lia. apply Hstep; [lia|]. unfold vget. rewrite (nth_map (evB PP) _ k 0%Z) by lia. f_equal.
    unfold slice. rewrite !nth_lookup, lookup_take_lt, lookup_drop by lia. done. }
  rewrite H1. f_equal. transitivity (foldl (writeAt PP) values (take (length batch) batch)); [|by rewrite firstn_all].
  apply (for_inv (fun i vs => vs = foldl (writeAt PP) values (take i batch))); [lia|done|]. intros i vs Hi ->.
  rewrite Htake by lia. apply Hstep; [lia|by apply decode1_ev].
Qed.

(** * The decoding of a range of inputs *)

Context (pp : list V) (Hpp : ∀ i, vok (vget pp i)).
Local Abbreviation sizePer := (param_size (bParam bx)).

(** The chunk of bin [b], and what is written over [v] for input [x]. *)
Definition chunk (b : nat) : list V := slice pp (b * sizePer) sizePer.
Definition fin (x : block) (v : V) : V := wr (chunk (binB x)) (hashB x) v.

Lemma chunk_ok b i : vok (vget (chunk b) i).
Proof.
  unfold vget, chunk, slice. rewrite nth_lookup. destruct (decide (i < sizePer)).
  - rewrite lookup_take_lt, lookup_drop by done. rewrite <- nth_lookup. apply Hpp.
  - rewrite lookup_take_ge by lia. apply (ok_new (vok := vok)).
Qed.

Lemma sizePer_eq : bsize bx / bNumBins bx = sizePer.
Proof. unfold bsize, param_size. rewrite Nat.mul_comm. apply Nat.div_mul. lia. Qed.

Context (inputs : list block) (v0 : list V) (Hlen : length v0 = length inputs).

(** A batch of bin [b] holds hashes of inputs of that bin, each once. *)
Definition batchOk (k b : nat) (q : list (nat * block)) : Prop :=
  NoDup (map fst q) ∧ ∀ p, p ∈ q → fst p < k ∧ binB inputs.[fst p] = b ∧ snd p = hashB inputs.[fst p].

Lemma flush_spec k b q values : batchOk k b q → k ≤ length values →
  length (foldl (writeAt (chunk b)) values q) = length values ∧
  ∀ i, vget (foldl (writeAt (chunk b)) values q) i = if decide (i ∈ map fst q) then fin inputs.[i] (vget values i) else vget values i.
Proof.
  revert values. induction q as [|p q IH]; intros values [Hnd Hq] Hl; cbn [foldl map] in *.
  { split; [done|]. intros i. by rewrite decide_False by (by intros []%not_elem_of_nil). }
  apply NoDup_cons in Hnd as [Hp Hnd]. destruct (Hq p) as (Hk & Hb & Hh); [apply elem_of_cons; by left|].
  destruct (IH (writeAt (chunk b) values p)) as [I1 I2].
  { split; [done|]. intros p' Hp'. apply Hq, elem_of_cons. by right. }
  { unfold writeAt. by rewrite length_insert. }
  unfold writeAt in I1, I2 |- *. rewrite length_insert in I1. split; [done|]. intros i. rewrite I2, vget_upd by lia.
  destruct (decide (fst p = i)) as [<-|Hne].
  - rewrite decide_False, decide_True by (done || apply elem_of_cons; by left). unfold fin. by rewrite Hb, Hh.
  - destruct (decide (i ∈ map fst q)); [rewrite decide_True by (apply elem_of_cons; by right)|rewrite decide_False by (intros [->|?]%elem_of_cons; done)]; done.
Qed.

(** The batches and the values after the first [k] inputs. *)
Definition pending (batches : list (list (nat * block))) (i : nat) : Prop := i ∈ map fst (nth (binB inputs.[i]) batches []).
#[local] Instance pending_dec batches i : Decision (pending batches i).
Proof. unfold pending. apply _. Defined.

Definition BatchInv (k : nat) (st : list (list (nat * block)) * list V) : Prop :=
  let '(batches, values) := st in
  length batches = bNumBins bx ∧ length values = length inputs ∧ (∀ b, b < bNumBins bx → batchOk k b (nth b batches [])) ∧
  ∀ i, i < length inputs → vget values i = if decide (i < k ∧ ¬ pending batches i) then fin inputs.[i] (vget v0 i) else vget v0 i.

Lemma binB_lt x : binB x < bNumBins bx.
Proof. apply binOf_lt. done. Qed.

Lemma batchOk_snoc k b q : batchOk k b q → binB inputs.[k] = b → batchOk (S k) b (q ++ [(k, hashB inputs.[k])]).
Proof.
  intros [Hnd Hq] Hb. split.
  - rewrite map_app. apply NoDup_app. split; [done|]. split; [|apply NoDup_singleton]. intros i Hi ->%list_elem_of_singleton.
    apply list_elem_of_In, in_map_iff in Hi as (p & E & Hp%list_elem_of_In). apply Hq in Hp as [Hlt _]. cbn in E. lia.
  - intros p [Hp| ->%list_elem_of_singleton]%elem_of_app; [apply Hq in Hp as (? & ? & ?); auto|]. cbn. split_and!; (done || lia).
Qed.

Lemma batchOk_mono k b q : batchOk k b q → batchOk (S k) b q.
Proof. intros [Hnd Hq]. split; [done|]. intros p Hp. apply Hq in Hp as (? & ? & ?). auto. Qed.

Lemma batchOk_nil k b : batchOk k b [].
Proof. split; [apply NoDup_nil_2|]. by intros p []%not_elem_of_nil. Qed.

Lemma batches_step k batches b q : (∀ b, b < bNumBins bx → batchOk k b (nth b batches [])) → length batches = bNumBins bx → b < bNumBins bx →
  batchOk (S k) b q → ∀ b', b' < bNumBins bx → batchOk (S k) b' (nth b' (<[b := q]> batches) []).
Proof. intros HI Hl Hb Hq b' Hb'. rewrite nth_upd by lia. destruct (decide (b = b')) as [<-|]; [done|]. by apply batchOk_mono, HI. Qed.

Lemma pending_bound k batches i : (∀ b, b < bNumBins bx → batchOk k b (nth b batches [])) → pending batches i → i < k.
Proof.
  intros HI Hp. unfold pending in Hp. apply list_elem_of_In, in_map_iff in Hp as (p & <- & Hp%list_elem_of_In).
  by apply (HI _ (binB_lt _)) in Hp as [? _].
Qed.

(** One input joins the batch of its bin, which is decoded when it is full. *)
Lemma batch_turn px decodeSize k st : decPx px → k < length inputs → BatchInv k st →
  ∃ st', (let '(batches, values) := st in
    let batch := nth (binB inputs.[k]) batches [] ++ [(k, hashB inputs.[k])] in
    if length batch =? decodeSize
    then values ← decodeBinB px (map snd batch) (map fst batch) values (slice pp (binB inputs.[k] * sizePer) sizePer);
      mret (<[binB inputs.[k] := []]> batches, values)
    else mret (<[binB inputs.[k] := batch]> batches, values)) = Ok st' ∧ BatchInv (S k) st'.
Proof.
  intros Hpx Hk HI. destruct st as [batches values]. destruct HI as (H1 & H2 & H3 & H4). set (b := binB inputs.[k]) in *. pose proof (binB_lt inputs.[k]) as Hb. fold b in Hb.
  cbv zeta. set (q := nth b batches [] ++ _). assert (Hq : batchOk (S k) b q) by (apply batchOk_snoc; [by apply H3|done]).
  assert (Hpend : ∀ q' i, pending (<[b := q']> batches) i ↔ if decide (binB inputs.[i] = b) then i ∈ map fst q' else pending batches i).
  { intros q' i. unfold pending. rewrite nth_upd by lia. destruct (decide (b = binB inputs.[i])) as [E|]; [by rewrite decide_True|by rewrite decide_False by congruence]. }
  destruct (Nat.eqb_spec (length q) decodeSize).
  - fold (chunk b). rewrite (implDecodeBin_spec px q values (chunk b) Hpx (chunk_ok b)). cbn [mbind Res_bind]. eexists. split; [done|].
    destruct (flush_spec (S k) b q values Hq ltac:(lia)) as [F1 F2]. split; [by rewrite length_insert|]. split; [lia|].
    split; [apply (batches_step k); try done; apply batchOk_nil|]. intros i Hi. rewrite F2, H4 by done. specialize (Hpend [] i).
    destruct (decide (i ∈ map fst q)) as [Hin|Hout].
    + apply list_elem_of_In, in_map_iff in Hin as (p & <- & Hp%list_elem_of_In). pose proof (proj2 Hq p Hp) as (Hlt & Hbi & _).
      rewrite decide_True in Hpend by done. rewrite (decide_True (P := fst p < S k ∧ _)) by (split; [done|]; rewrite Hpend; by intros []%not_elem_of_nil).
      f_equal. destruct (decide (fst p < k ∧ ¬ pending batches (fst p))) as [[Hlt' Hn]|]; [|done]. exfalso. apply Hn. unfold pending. rewrite Hbi.
      apply elem_of_app in Hp as [Hp|Hp%list_elem_of_singleton]; [by apply list_elem_of_In, in_map, list_elem_of_In|]. subst p. cbn in Hlt'. lia.
    + assert (Hik : i ≠ k) by (intros ->; apply Hout; unfold q; rewrite map_app; apply elem_of_app; right; by apply list_elem_of_singleton).
      assert (E : (i < k ∧ ¬ pending batches i) ↔ (i < S k ∧ ¬ pending (<[b := []]> batches) i)).
      { rewrite Hpend. destruct (decide (binB inputs.[i] = b)) as [Eb|]; [|split; intros [? ?]; split; (done || lia)].
        assert (Hn : ¬ pending batches i) by (unfold pending; rewrite Eb; intros Hin; apply Hout; unfold q; rewrite map_app; apply elem_of_app; by left).
        split; intros [? _]; (split; [lia|]); [by intros []%not_elem_of_nil|done]. }
      by rewrite (decide_ext _ _ _ _ E).
  - eexists. split; [done|]. split; [by rewrite length_insert|]. split; [done|]. split; [by apply (batches_step k)|]. intros i Hi. rewrite H4 by done.
    assert (E : (i < k ∧ ¬ pending batches i) ↔ (i < S k ∧ ¬ pending (<[b := q]> batches) i)).
    { rewrite Hpend. destruct (decide (binB inputs.[i] = b)) as [Eb|Nb].
      - assert (Hi' : i ∈ map fst q ↔ pending batches i ∨ i = k).
        { unfold q, pending. rewrite Eb, map_app, elem_of_app. cbn [map fst]. by rewrite list_elem_of_singleton. }
        rewrite Hi'. split; intros [? Hn]; (split; [lia|]); [intros [?| ->]; [done|lia]|tauto].
      - assert (i ≠ k) by (intros ->; done). split; intros [? ?]; split; (done || lia). }
    by rewrite (decide_ext _ _ _ _ E).
Qed.

Lemma foldR_inv {A S : Type} (P : nat → S → Prop) (f : S → A → Res S) (l : list A) (st : S) : P 0 st →
  (∀ i x st, l !! i = Some x → P i st → ∃ st', f st x = Ok st' ∧ P (Datatypes.S i) st') → ∃ st', foldR f l st = Ok st' ∧ P (length l) st'.
Proof.
  revert P st. induction l as [|x l IH]; intros P st H0 Hstep; [by exists st|]. cbn [foldR].
  destruct (Hstep 0 x st eq_refl H0) as (st1 & -> & H1). cbn [mbind Res_bind]. apply (IH (fun i => P (Datatypes.S i)) st1 H1).
  intros i y st' Hy. by apply Hstep.
Qed.

(** The batches that are left at the end. *)
Lemma flush_rest px batches values : decPx px → BatchInv (length inputs) (batches, values) →
  ∃ values', forR 0 (bNumBins bx) (fun binIdx values =>
    let batch := nth binIdx batches [] in
    if length batch =? 0 then mret values
    else decodeBinB px (map snd batch) (map fst batch) values (slice pp (binIdx * sizePer) sizePer)) values = Ok values' ∧
    length values' = length inputs ∧ ∀ i, i < length inputs → vget values' i = fin inputs.[i] (vget v0 i).
Proof.
  intros Hpx (H1 & H2 & H3 & H4).
  match goal with |- context [forR _ _ ?f _] => destruct (forR_inv (fun b vs => length vs = length inputs ∧ ∀ i, i < length inputs →
    vget vs i = if decide (binB inputs.[i] < b ∨ ¬ pending batches i) then fin inputs.[i] (vget v0 i) else vget v0 i) 0 (bNumBins bx) f values) as (vs & E & Hl & Hv) end.
  - lia.
  - split; [done|]. intros i Hi. rewrite H4 by done. assert (E : (i < length inputs ∧ ¬ pending batches i) ↔ (binB inputs.[i] < 0 ∨ ¬ pending batches i)) by (split; [tauto|intros [?|?]; [lia|done]]).
    by rewrite (decide_ext _ _ _ _ E).
  - intros b vs Hb [I1 I2]. cbv zeta. specialize (H3 b ltac:(lia)). set (q := nth b batches []) in *.
    destruct (flush_spec (length inputs) b q vs H3 ltac:(lia)) as [F1 F2].
    assert (Hgo : length (foldl (writeAt (chunk b)) vs q) = length inputs ∧ ∀ i, i < length inputs → vget (foldl (writeAt (chunk b)) vs q) i =
        if decide (binB inputs.[i] < S b ∨ ¬ pending batches i) then fin inputs.[i] (vget v0 i) else vget v0 i).
    { split; [lia|]. intros i Hi. rewrite F2, I2 by done. destruct (decide (binB inputs.[i] = b)) as [Eb|Nb].
      - assert (Hpi : pending batches i ↔ i ∈ map fst q) by (unfold pending; by rewrite Eb). destruct (decide (i ∈ map fst q)).
        + rewrite (decide_False (P := binB inputs.[i] < b ∨ _)), decide_True by (lia || rewrite Hpi; intros [?|?]; (lia || done)). done.
        + by rewrite !decide_True by (rewrite Hpi; tauto).
      - rewrite (decide_False (P := i ∈ map fst q)) by (intros Hin; apply list_elem_of_In, in_map_iff in Hin as (p & <- & Hp%list_elem_of_In);
          apply (proj2 H3) in Hp as (_ & ? & _); done).
        assert (E : (binB inputs.[i] < b ∨ ¬ pending batches i) ↔ (binB inputs.[i] < S b ∨ ¬ pending batches i)) by (split; intros [?|?]; [left; lia|by right|left; lia|by right]).
        by rewrite (decide_ext _ _ _ _ E). }
    destruct (Nat.eqb_spec (length q) 0) as [H0|H0].
    + exists vs. split; [done|]. by rewrite (nil_length_inv q H0) in Hgo.
    + fold (chunk b). rewrite (implDecodeBin_spec px q vs (chunk b) Hpx (chunk_ok b)). by eexists.
  - exists vs. split; [exact E|]. split; [done|]. intros i Hi. rewrite Hv, decide_True by (done || left; apply binB_lt). done.
Qed.

(** A range of inputs. *)
Lemma implDecodeBatch_spec : ∃ values', implDecodeBatch gf128Mul libdivide_u64_do hashBlock bx idxBits inputs v0 pp = Ok values' ∧
  length values' = length inputs ∧ ∀ i, i < length inputs → vget values' i = fin inputs.[i] (vget v0 i).
Proof.
  pose proof (ft_items idxBits bx Hf). unfold implDecodeBatch. rewrite (binInit idxBits bx Paxos_new 1 Hf) by lia. cbn [mbind Res_bind]. cbv zeta. rewrite sizePer_eq.
  rewrite (binItems_spec libdivide_u64_do hashBlock libdivide_ok hash_ok bx Hnb Hnb').
  match goal with |- context [foldR ?f ?l ?st] => destruct (foldR_inv BatchInv f l st) as ([batches values] & E & HI) end.
  - split; [apply length_replicate|]. split; [done|]. split.
    + intros b Hb. rewrite nth_lookup, lookup_replicate_2 by done. apply batchOk_nil.
    + intros i Hi. by rewrite decide_False by lia.
  - intros i x st Hx HI. apply list_lookup_fmap_Some in Hx as (k & -> & Hk%lookup_seq). destruct Hk as [-> Hk]. cbn [Nat.add] in *.
    destruct st as [bs vs]. refine (batch_turn _ (Nat.min 512 (length inputs)) i (bs, vs) _ Hk HI). split; reflexivity.
  - rewrite length_map, length_seq in HI. rewrite E. cbn [mbind Res_bind]. apply flush_rest; [split; reflexivity|done].
Qed.

End decode.
End BaxosDecode.
