(* ===== verification/BaxosRun.v ===== *)
(** The binned solver of Baxos.v as a whole: in every interleaving of the threads, what [solve] encodes is what [decode]
    returns. *)
From stdpp Require Import sets.
From S2P Require Import Prelude Words Parallel PxUtil PaxosHash Paxos PaxosTri Gf128 PxVec GfMat PaxosFc PaxosBack PaxosGf PaxosBin PaxosSolve Baxos BaxosMem BaxosBins BaxosDecode.
Open Scope nat_scope.

Module BaxosRun.
Import PxUtil PaxosHash Paxos PaxosTri PxVec PaxosBack PaxosGf PaxosBin PaxosSolve Baxos BaxosMem BaxosBins BaxosDecode.

(** * The work of the threads *)

Lemma threadBins_elem bx T t b : t < T → b ∈ threadBins bx T t ↔ b < bNumBins bx ∧ b mod T = t.
Proof.
  intros Ht. unfold threadBins. rewrite list_elem_of_In, filter_In, in_map_iff, Nat.ltb_lt. split.
  - intros [(k & <- & _) Hb]. split; [done|]. rewrite (Nat.mul_comm T), Nat.Div0.mod_add. by apply Nat.mod_small.
  - intros [Hb <-]. split; [|done]. pose proof (Nat.div_mod_eq b T). exists (b / T). split; [lia|]. apply in_seq. split; [lia|]. nia.
Qed.

Lemma threadBins_nodup bx T t : 0 < T → NoDup (threadBins bx T t).
Proof.
  intros HT. apply NoDup_ListNoDup, List.NoDup_filter, NoDup_ListNoDup. apply (NoDup_fmap_2_strong (fun k => t + T * k)); [|apply NoDup_seq].
  intros k k' _ _ E. nia.
Qed.

(** Every bin belongs to one thread. *)
Lemma bins_cover bx T m : m ≤ T → NoDup (concat (map (threadBins bx T) (seq 0 m))) ∧
  ∀ b, b ∈ concat (map (threadBins bx T) (seq 0 m)) ↔ b < bNumBins bx ∧ b mod T < m.
Proof.
  induction m as [|m IH]; intros Hm.
  { split; [apply NoDup_nil_2|]. intros b. cbn. split; [by intros ?%not_elem_of_nil|lia]. }
  destruct (IH ltac:(lia)) as [I1 I2]. rewrite seq_S, map_app, concat_app. cbn [map concat Nat.add]. rewrite app_nil_r. split.
  - apply NoDup_app. split; [done|]. split; [|apply threadBins_nodup; lia]. intros b [_ Hb]%I2 [_ Hb']%threadBins_elem; lia.
  - intros b. rewrite elem_of_app, I2, threadBins_elem by lia. split; [intros [[? ?]|[? ?]]; lia|]. intros [? ?].
    destruct (decide (b mod T = m)); [by right|left; lia].
Qed.

Lemma bins_order bx T order : 0 < T → interleave (tagged T (threadBins bx T)) order →
  (∀ tb, tb ∈ order → fst tb < T ∧ snd tb < bNumBins bx) ∧ NoDup (map snd order) ∧ ∀ b, b < bNumBins bx → b ∈ map snd order.
Proof.
  intros HT Hi. destruct (bins_cover bx T T ltac:(lia)) as [C1 C2]. pose proof (tagged_all _ _ _ Hi) as Hp. destruct (tagged_thread _ _ _ Hi) as [Hlt _].
  split; [|split].
  - intros tb Htb. split; [by apply Hlt|]. apply (C2 (snd tb)). rewrite <- Hp. apply list_elem_of_In, in_map. by apply list_elem_of_In.
  - by rewrite Hp.
  - intros b Hb. rewrite Hp. apply C2. split; [done|]. apply Nat.mod_upper_bound. lia.
Qed.

(** The interleaving that a schedule of the threads gives. *)
Fixpoint schedule {A} (sched : list nat) (ts : list (list A)) : option (list A) :=
  match sched with
  | [] => if forallb (fun t => length t =? 0) ts then Some [] else None
  | i :: sched => match ts !! i with Some (x :: t) => cons x <$> schedule sched (<[i := t]> ts) | _ => None end
  end.

Lemma schedule_interleave {A} sched (ts : list (list A)) order : schedule sched ts = Some order → interleave ts order.
Proof.
  revert ts order. induction sched as [|i sched IH]; intros ts order; cbn [schedule].
  - destruct (forallb _ ts) eqn:E; [|done]. intros [= <-]. constructor. apply Forall_forall. intros t Ht.
    rewrite forallb_forall in E. specialize (E t ltac:(by apply list_elem_of_In)). apply Nat.eqb_eq in E. by destruct t.
  - destruct (ts !! i) as [[|x t]|] eqn:Ei; try done. intros (l & Hs & ->)%fmap_Some. apply IH in Hs. rewrite <- (take_drop_middle _ _ _ Ei).
    constructor. by rewrite (insert_take_drop _ _ _ ltac:(eapply lookup_lt_Some; exact Ei)) in Hs.
Qed.

(** The index type is chosen so that the number of columns plus one fits, but [init] rejects the largest value of the type. *)
Lemma index_type_full bx px m : pSparseSize (bParam bx) = 255 →
  idxTypeBits bx = 8%Z ∧ init (idxTypeBits bx) px m (bParam bx) (bSeed bx) = Throw RTE_LOC.
Proof. intros Hs. assert (E : idxTypeBits bx = 8%Z) by (unfold idxTypeBits; by rewrite Hs). split; [done|]. unfold init. by rewrite E, Hs. Qed.

Section run.
Context (gf128Mul : block → block → block) (libdivide_u64_do : Z → Z → Z) (hashBlock : block → block → block).
Context (invert : list (list bool) → list (list bool)) (choose : nat → nat → nat) (ithCombination : nat → nat → nat → list nat).
Context {V : Type} {H : Helper V} {R : Type} (randomize : R → V * R) (getBlocks : nat → R → list block * R).
Context {vok : V → Prop} {HOk : HelperOk gf128Mul H vok} (G : Gf128 gf128Mul).
Context (libdivide_ok : ∀ x d, in_word 64 x → (0 < d < 2 ^ 64)%Z → libdivide_u64_do x d = (x / d)%Z).
Context (hash_ok : ∀ k x, is_block (hashBlock k x)).
Context (randomize_ok : ∀ r, vok (fst (randomize r))) (getBlocks_ok : ∀ k r, brow k (fst (getBlocks k r))).
Context (Hinv : invert_ok invert) (Hcomb : combination_ok choose ithCombination).
Context (bx : Baxos) (Hf : Fits (idxTypeBits bx) bx) (Hnb : 0 < bNumBins bx) (Hnb' : (Z.of_nat (bNumBins bx) < 2 ^ 64)%Z).
Context (inputs : list block) (vals : list V).

Local Abbreviation s := (pSparseSize (bParam bx)).
Local Abbreviation sizePer := (param_size (bParam bx)).
Local Abbreviation idxBits := (idxTypeBits bx).
Local Abbreviation hashB := (hashOf hashBlock bx).
Local Abbreviation binB := (binOf hashBlock bx).
Local Abbreviation n := (length inputs).

(** The inputs of a bin among the inputs of a range, their hashes and their values. *)
Definition inBin (b : nat) (range : list nat) : list nat := List.filter (fun i => binB inputs.[i] =? b) range.
Definition hashesOf (b : nat) : list block := map (fun i => hashB inputs.[i]) (inBin b (seq 0 n)).
Definition valuesOf (b : nat) : list V := map (vget vals) (inBin b (seq 0 n)).

(** What the solver needs: values for the inputs, room for the items of every thread, columns of fewer than 200 rows, and with
    a generator, gap rows that agree. *)
Definition roomy (per T : nat) : Prop :=
  ∀ t b, t < T → length (inBin b (seq (rangeBegin n T t) (rangeBegin n T (S t) - rangeBegin n T t))) ≤ per.
Record Solvable (getBinSize : nat → nat → nat → Res nat) (numThreads : nat) (prng : option R) : Prop := {
  sv_inputs : n = bNumItems bx;
  sv_vals : length vals = bNumItems bx;
  sv_ok : ∀ i, vok (vget vals i);
  sv_one : bNumBins bx = 1 → 0 < bNumItems bx ∧ bNumItems bx + 2 ≤ s;
  sv_per : bNumBins bx ≠ 1 → let T := Nat.max 1 numThreads in
    ∃ per, getBinSize (bNumBins bx) ((bNumItems bx + T - 1) / T) (bSsp bx) = Ok per ∧ roomy per T;
  sv_cols : ∀ b c, b < bNumBins bx → length (rowsWith (map (binRow gf128Mul bx) (hashesOf b)) c (length (hashesOf b))) < 200;
  sv_gaps : prng = None ∨ ∀ b px, b < bNumBins bx → binPx gf128Mul bx (hashesOf b) px → gapsAgree idxBits px }.

(** The output encodes every bin in its chunk. *)
Definition encodes (P : list V) : Prop := length P = bsize bx ∧
  ∀ b, b < bNumBins bx → good gf128Mul (vok := vok) bx (hashesOf b) (valuesOf b) (slice P (sizePer * b) sizePer).

Lemma hashes_block b : Forall is_block (hashesOf b).
Proof. apply Forall_map, Forall_forall. intros i _. apply hash_ok. Qed.

Lemma values_ok b : (∀ i, vok (vget vals i)) → ∀ i, vok (vget (valuesOf b) i).
Proof.
  intros Hv i. unfold vget. destruct (nth_in_or_default i (valuesOf b) newElement) as [(j & <- & _)%in_map_iff| ->]; [apply Hv|apply (ok_new (vok := vok))].
Qed.

(** * The first phase *)

Local Abbreviation items := (threadItems libdivide_u64_do hashBlock bx inputs).

Lemma sel_load T order t b : t < T → interleave (tagged T (items T)) order →
  length (sel t b order) = length (inBin b (seq (rangeBegin n T t) (rangeBegin n T (S t) - rangeBegin n T t))).
Proof.
  intros Ht Hi. destruct (tagged_thread _ _ _ Hi) as [_ Hs]. unfold sel. rewrite Hs by done.
  rewrite (threadItems_spec libdivide_u64_do hashBlock libdivide_ok hash_ok bx Hnb Hnb') by done. by rewrite filter_map_comm, length_map.
Qed.

Lemma step_bounds T order x : interleave (tagged T (items T)) order → x ∈ order → fst x < T ∧ fst (snd (snd x)) < bNumBins bx.
Proof.
  intros Hi Hx. destruct (tagged_thread _ _ _ Hi) as [Hlt Hs]. split; [by apply Hlt|]. specialize (Hs (fst x) (Hlt x Hx)).
  assert (Hin : In (snd x) (items T (fst x))).
  { rewrite <- Hs. apply in_map, filter_In. split; [by apply list_elem_of_In|apply Nat.eqb_refl]. }
  rewrite (threadItems_spec libdivide_u64_do hashBlock libdivide_ok hash_ok bx Hnb Hnb') in Hin by by apply Hlt.
  apply in_map_iff in Hin as (i & <- & _). by apply binOf_lt.
Qed.

Definition mem0 (per T : nat) : list BinMem :=
  replicate (bNumBins bx) (mkBin (replicate T 0) (replicate (per * T) newElement) (replicate (per * T) 0%Z)).

(** After the first phase every bin is ready to be encoded. *)
Lemma phase1_ready per T order : 0 < T → roomy per T → interleave (tagged T (items T)) order → (∀ i, vok (vget vals i)) →
  (∀ b c, b < bNumBins bx → length (rowsWith (map (binRow gf128Mul bx) (hashesOf b)) c (length (hashesOf b))) < 200) →
  ∃ mem, foldR (placeAt per vals) order (mem0 per T) = Ok mem ∧
    ∀ b, b < bNumBins bx → binReady gf128Mul (vok := vok) bx per T mem (hashesOf b) (valuesOf b) b.
Proof.
  intros HT Hroom Hi Hv H200.
  assert (Hle : ∀ t b, t < T → length (sel t b order) ≤ per) by (intros t b Ht; rewrite (sel_load T) by done; by apply Hroom).
  destruct (phase1_spec per T vals (bNumBins bx) order (mem0 per T) Hle) as (mem & E & Hl & HI).
  - intros x. by apply step_bounds.
  - apply length_replicate.
  - intros b bin [-> _]%lookup_replicate. unfold BinInv. cbn [n_sizes n_hashes n_vals]. rewrite !length_replicate. do 3 (split; [done|]).
    intros t Ht. split; [by rewrite nth_lookup, lookup_replicate_2|]. intros k it Hk. done.
  - exists mem. split; [exact E|]. intros b Hb. destruct (lookup_lt_is_Some_2 mem b ltac:(lia)) as [bin Hbin].
    split; [|split; [apply hashes_block|split; [by apply values_ok|intros c; exact (H200 b c Hb)]]]. exists bin. split; [done|].
    pose proof (gather_spec per T vals order b (fun t Ht => Hle t b Ht) bin HT (HI b bin Hbin)) as Hg.
    rewrite (gathered_items libdivide_u64_do hashBlock bx inputs T order b libdivide_ok hash_ok Hnb Hnb' HT Hi) in Hg.
    fold (inBin b (seq 0 n)) in Hg. destruct (gather per T bin) as [hs vs]. rewrite length_map, !map_map in Hg.
    unfold hashesOf, valuesOf. by rewrite !length_map.
Qed.

(** * Solving *)

Local Abbreviation solveB := (baxos_solve gf128Mul libdivide_u64_do hashBlock invert choose ithCombination randomize getBlocks bx).
Local Abbreviation failure := (binFailure gf128Mul idxBits bx hashesOf).

Lemma solve_bins getBinSize prng numThreads order1 order2 : bNumBins bx ≠ 1 → Solvable getBinSize numThreads prng →
  interleave (tagged (Nat.max 1 numThreads) (items (Nat.max 1 numThreads))) order1 →
  interleave (tagged (Nat.max 1 numThreads) (threadBins bx (Nat.max 1 numThreads))) order2 →
  (∃ P prng', solveB getBinSize inputs vals (bsize bx) prng numThreads order1 order2 = Ok (P, prng') ∧ encodes P) ∨
  ∃ e, solveB getBinSize inputs vals (bsize bx) prng numThreads order1 order2 = Throw e ∧ failure e.
Proof.
  intros Hne [_ _ Hok _ Hper Hcols Hgaps] Hi1 Hi2. cbv zeta in Hper. set (T := Nat.max 1 numThreads) in *. assert (HT : 0 < T) by lia.
  destruct (Hper Hne) as (per & Eper & Hroom). unfold baxos_solve, implParSolve. rewrite Nat.eqb_refl. cbn [negb throw_if mbind Res_bind].
  rewrite (proj2 (Nat.eqb_neq _ _) Hne). fold T. rewrite Eper. cbn [mbind Res_bind].
  destruct (phase1_ready per T order1 HT Hroom Hi1 Hok Hcols) as (mem & E1 & Hready). unfold mem0 in E1. rewrite E1. cbn [mbind Res_bind].
  destruct (bins_order bx T order2 HT Hi2) as (O1 & O2 & O3).
  destruct (phase2_spec gf128Mul libdivide_u64_do hashBlock idxBits invert choose ithCombination randomize getBlocks G libdivide_ok randomize_ok getBlocks_ok
    Hinv Hcomb bx per T mem order2 hashesOf valuesOf Hf O1 O2 Hready (replicate T Paxos_new, replicate (bsize bx) newElement, prng) [])
    as [(pxs & P & prng' & E & Hl & Hg)|(e & E & Hfail)].
  - by intros b []%not_elem_of_nil.
  - rewrite !length_replicate. split; [done|]. split; [apply Forall_replicate; cbn; lia|]. split; [done|]. split; [by intros b []%not_elem_of_nil|done].
  - left. exists P, prng'. rewrite E. split; [done|]. split; [done|]. intros b Hb. apply Hg. right. by apply O3.
  - right. exists e. by rewrite E.
Qed.

Lemma one_bin : bNumBins bx = 1 → inBin 0 (seq 0 n) = seq 0 n.
Proof.
  intros H1. unfold inBin. apply forallb_filter_id, forallb_forall. intros i _. pose proof (binOf_lt hashBlock bx Hnb inputs.[i]). apply Nat.eqb_eq. lia.
Qed.

(** With one bin, the hashes and values are those of all inputs. *)
Lemma one_bin_lists : bNumBins bx = 1 → length vals = n → hashesOf 0 = map hashB inputs ∧ valuesOf 0 = vals.
Proof.
  intros H1 Hl. unfold hashesOf, valuesOf. rewrite (one_bin H1). split.
  - rewrite <- (map_map (fun i => inputs.[i]) hashB). f_equal. apply (nth_ext _ _ 0%Z 0%Z); [by rewrite length_map, length_seq|].
    intros i Hi. rewrite length_map, length_seq in Hi. by rewrite nth_map_seq.
  - apply (nth_ext _ _ newElement newElement); [by rewrite length_map, length_seq|].
    intros i Hi. rewrite length_map, length_seq in Hi. by rewrite nth_map_seq.
Qed.

Lemma one_ready px m : init idxBits Paxos_new m (bParam bx) (bSeed bx) = Ok px → m ≤ s →
  ready idxBits px ∧ param px = bParam bx ∧ mNumItems px = m ∧ mSeed px = bSeed bx ∧ mHasher px = binHasher bx ∧ mAddToDecode px = false.
Proof.
  intros E Hm. rewrite (binInit idxBits bx Paxos_new m Hf Hm) in E. injection E as <-. cbn. split; [|done].
  pose proof (ft_weight _ _ Hf). pose proof (ft_idx _ _ Hf). pose proof (ft_bits _ _ Hf). pose proof (ft_word _ _ Hf).
  split_and!; cbn; (done || lia).
Qed.

Lemma solve_one getBinSize prng numThreads order1 order2 : bNumBins bx = 1 → Solvable getBinSize numThreads prng →
  (∃ P prng', solveB getBinSize inputs vals (bsize bx) prng numThreads order1 order2 = Ok (P, prng') ∧ encodes P) ∨
  ∃ e, solveB getBinSize inputs vals (bsize bx) prng numThreads order1 order2 = Throw e ∧ failure e.
Proof.
  intros H1 [Hn Hvl Hok Hone _ Hcols Hgaps]. destruct (Hone H1) as [Hpos Hroom]. destruct (one_bin_lists H1 ltac:(lia)) as [Eh Ev].
  unfold baxos_solve, implParSolve. rewrite Nat.eqb_refl, H1. cbn [negb throw_if mbind Res_bind Nat.eqb].
  destruct (init idxBits Paxos_new (bNumItems bx) (bParam bx) (bSeed bx)) as [px|e] eqn:Ei; [|by rewrite (binInit idxBits bx) in Ei by (done || lia)].
  destruct (one_ready px _ Ei ltac:(lia)) as (Hr & Ep & En & Es & Eha & _). cbn [mbind Res_bind].
  assert (Hrows : map (rowOf gf128Mul hashBlock px) inputs = map (binRow gf128Mul bx) (hashesOf 0)).
  { rewrite Eh, map_map. apply map_ext. intros x. unfold rowOf, denseOf, binRow. by rewrite Eha. }
  assert (Hdens : map (denseOf hashBlock px) inputs = hashesOf 0) by (rewrite Eh; apply map_ext; intros x; unfold denseOf; by rewrite Eha).
  destruct (setInput_prepared gf128Mul libdivide_u64_do hashBlock idxBits libdivide_ok hash_ok px inputs Hr) as (px1 & E1 & Hpr & Ep1 & En1 & Er1 & Ed1 & _);
    rewrite ?Ep, ?En; try (done || lia).
  { pose proof (ft_weight _ _ Hf). lia. }
  { rewrite Hrows. intros c. pose proof (Hcols 0 c ltac:(lia)) as Hc. rewrite Eh in Hc at 2. rewrite length_map in Hc. by rewrite <- Hn. }
  rewrite E1. cbn [mbind Res_bind]. assert (Hbx : binPx gf128Mul bx (hashesOf 0) px1) by (split_and!; congruence).
  assert (Hsz : bsize bx = param_size (param px1)) by (unfold bsize, param_size; rewrite H1, Ep1, Ep; lia). rewrite Hsz.
  destruct (encode_spec gf128Mul idxBits invert choose ithCombination randomize getBlocks G randomize_ok getBlocks_ok Hinv Hcomb px1 vals prng Hpr)
    as [(t & P & prng' & Ee & HT & HlP & Hev & HvP)|(e & Ee & Hfail)]; [|done|destruct Hgaps as [|Hg]; [by left|right; by apply (Hg 0)]| |].
  - pose proof (ft_dense _ _ Hf) as Hd. unfold denseFits in *. by rewrite Ep1, Ep.
  - left. exists P, prng'. rewrite Ee. split; [done|]. assert (HlP' : length P = sizePer) by (rewrite HlP, Ep1, Ep; done).
    split; [by rewrite Hsz|]. intros b Hb. assert (b = 0) as -> by lia. rewrite Nat.mul_0_r. unfold slice. rewrite drop_0, firstn_all2 by lia.
    split; [done|]. split; [exact HvP|]. intros k Hk. rewrite Ev. rewrite Eh, length_map in Hk. specialize (Hev k ltac:(lia)).
    rewrite Er1, Ed1, Hrows, Hdens, (nth_map _ _ _ 0%Z) in Hev by (rewrite Eh, length_map; lia). unfold ev. rewrite <- Hev. apply evalRow_param. cbn. congruence.
  - right. exists e. rewrite Ee. split; [done|]. exists 0. split; [lia|]. right. by exists px1.
Qed.

(** In every interleaving of the threads. *)
Lemma solve_encodes getBinSize prng numThreads order1 order2 : Solvable getBinSize numThreads prng →
  interleave (tagged (Nat.max 1 numThreads) (items (Nat.max 1 numThreads))) order1 →
  interleave (tagged (Nat.max 1 numThreads) (threadBins bx (Nat.max 1 numThreads))) order2 →
  (∃ P prng', solveB getBinSize inputs vals (bsize bx) prng numThreads order1 order2 = Ok (P, prng') ∧ encodes P) ∨
  ∃ e, solveB getBinSize inputs vals (bsize bx) prng numThreads order1 order2 = Throw e ∧ failure e.
Proof. intros. destruct (decide (bNumBins bx = 1)); [by apply solve_one|by apply solve_bins]. Qed.

(** * Decoding *)

Context (H20 : bWeight bx ≤ 20).
Local Abbreviation decodeB := (baxos_decode gf128Mul libdivide_u64_do hashBlock bx).

(** What a decoding over [out] gives. *)
Definition baxos_decoded (out : list V) : list V := zip_with (fun v o => if bAddToDecode bx then add o v else v) vals out.

Lemma encodes_ok P : encodes P → ∀ i, vok (vget P i).
Proof.
  intros [Hl Hg] i. destruct (decide (i < length P)) as [Hi|Hi].
  - pose proof (ft_items _ _ Hf). assert (Hp : 0 < sizePer) by (unfold param_size; lia). assert (Hb : i / sizePer < bNumBins bx).
    { apply Nat.Div0.div_lt_upper_bound. unfold bsize in Hl. unfold param_size. nia. }
    destruct (Hg _ Hb) as (_ & Hv & _). specialize (Hv (i mod sizePer)). rewrite vget_slice in Hv.
    + by rewrite <- Nat.div_mod_eq in Hv.
    + apply Nat.mod_upper_bound. lia.
    + unfold bsize in Hl. unfold param_size in *. nia.
  - unfold vget. rewrite nth_overflow by lia. apply (ok_new (vok := vok)).
Qed.

(** The value of an input under the chunk of its bin. *)
Lemma encodes_value P i : encodes P → i < n → ev gf128Mul bx (chunk bx P (binB inputs.[i])) (hashB inputs.[i]) = vget vals i.
Proof.
  intros [_ Hg] Hi. set (b := binB inputs.[i]). destruct (Hg b (binOf_lt hashBlock bx Hnb _)) as (_ & _ & Hev).
  assert (Hin : i ∈ inBin b (seq 0 n)) by (apply list_elem_of_In, filter_In; split; [apply in_seq; lia|apply Nat.eqb_refl]).
  apply list_elem_of_lookup in Hin as [k Hk]. pose proof (lookup_lt_Some _ _ _ Hk) as Hlt. unfold hashesOf in Hev at 1. rewrite length_map in Hev.
  specialize (Hev k Hlt). unfold hashesOf, valuesOf, vget in Hev.
  rewrite (nth_map _ _ _ 0), (nth_map _ _ _ 0), (nth_lookup_Some _ _ _ _ Hk) in Hev by done. unfold chunk. by rewrite Nat.mul_comm.
Qed.

(** A list that holds what every input is written. *)
Lemma all_decoded P out vs : encodes P → length vals = n → length out = n → length vs = n →
  (∀ i, i < n → vget vs i = fin gf128Mul hashBlock bx P inputs.[i] (vget out i)) → vs = baxos_decoded out.
Proof.
  intros He Hvl Hol Hl Hv. apply (nth_ext _ _ newElement newElement); [unfold baxos_decoded; rewrite length_zip_with; lia|]. intros i Hi.
  rewrite Hl in Hi. specialize (Hv i Hi). unfold fin, wr in Hv. rewrite (encodes_value P i He Hi) in Hv. unfold vget in Hv. rewrite Hv. symmetry.
  apply nth_lookup_Some. unfold baxos_decoded. rewrite lookup_zip_with. destruct (lookup_lt_is_Some_2 vals i ltac:(lia)) as [v Ev].
  destruct (lookup_lt_is_Some_2 out i ltac:(lia)) as [o Eo]. rewrite Ev, Eo, (nth_lookup_Some _ _ _ _ Ev), (nth_lookup_Some _ _ _ _ Eo). done.
Qed.

Lemma decode_one P out numThreads order : bNumBins bx = 1 → encodes P → length vals = n → length out = n →
  decodeB inputs out P numThreads order = Ok (baxos_decoded out).
Proof.
  intros H1 He Hvl Hl. unfold baxos_decode, implParDecode. rewrite H1. cbn [Nat.eqb]. pose proof (ft_items _ _ Hf). pose proof (ft_weight _ _ Hf).
  destruct (init idxBits Paxos_new 1 (bParam bx) (bSeed bx)) as [px|e] eqn:Ei; [|by rewrite (binInit idxBits bx) in Ei by (done || lia)].
  destruct (one_ready px _ Ei ltac:(lia)) as (Hr & Ep & En & Es & Eha & _). cbn [mbind Res_bind].
  match goal with |- decode _ _ _ ?q _ _ _ = _ => set (px' := q) end. destruct He as [HlP Hg].
  assert (HlP' : length P = sizePer) by (rewrite HlP; unfold bsize, param_size; rewrite H1; lia).
  rewrite (decode_spec gf128Mul libdivide_u64_do hashBlock idxBits (vok := vok) libdivide_ok); try done; cbn [px' param]; rewrite ?Ep; try (done || lia).
  - f_equal. apply (all_decoded P); try done; [rewrite length_zip_with; lia|]. intros i Hi. apply nth_lookup_Some. rewrite lookup_zip_with.
    destruct (lookup_lt_is_Some_2 inputs i Hi) as [x Hx], (lookup_lt_is_Some_2 out i ltac:(lia)) as [o Ho]. rewrite Hx, Ho. cbn [mbind option_bind]. f_equal.
    rewrite (nth_lookup_Some _ _ _ _ Hx). unfold vget. rewrite (nth_lookup_Some _ _ _ _ Ho). unfold fin, wr, written, valueOf.
    assert (E : evalRow gf128Mul px' P (rowOf gf128Mul hashBlock px' x) (denseOf hashBlock px' x) = ev gf128Mul bx (chunk bx P (binB x)) (hashB x)).
    { pose proof (binOf_lt hashBlock bx Hnb x). assert (binB x = 0) as -> by lia. unfold chunk, slice. rewrite drop_0, firstn_all2 by lia.
      unfold ev, rowOf, denseOf, binRow. cbn [px' mHasher]. rewrite Eha. apply evalRow_param. cbn. congruence. }
    cbn [px' mAddToDecode] in *. fold px' in E. by rewrite E.
  - pose proof (ft_dense _ _ Hf) as Hd. unfold denseFits in *. cbn. by rewrite Ep.
  - by apply encodes_ok.
Qed.

(** The ranges of the threads do not meet and cover all inputs. *)
Definition inRange (T t i : nat) : Prop := rangeBegin n T t ≤ i ∧ i < rangeBegin n T (S t).
#[local] Instance inRange_dec T t i : Decision (inRange T t i).
Proof. unfold inRange. apply _. Defined.

Lemma range_unique T t t' i : 0 < T → inRange T t i → inRange T t' i → t = t'.
Proof.
  intros HT [H1 H2] [H3 H4]. assert (Hmono : ∀ a b, a ≤ b → rangeBegin n T a ≤ rangeBegin n T b).
  { intros a b Hab. unfold rangeBegin. apply Nat.Div0.div_le_mono. nia. }
  destruct (lt_eq_lt_dec t t') as [[Hlt|]|Hlt]; [|done|].
  - specialize (Hmono (S t) t' Hlt). lia.
  - specialize (Hmono (S t') t Hlt). lia.
Qed.

Lemma range_cover T i m : i < rangeBegin n T m → ∃ t, t < m ∧ inRange T t i.
Proof.
  induction m as [|m IH]; intros Hi; [rewrite rangeBegin_0 in Hi; lia|]. destruct (decide (i < rangeBegin n T m)) as [Hlt|Hge].
  - destruct (IH Hlt) as (t & Ht & Hr). exists t. split; [lia|done].
  - exists m. split; [lia|]. split; lia.
Qed.

(** The values after the threads [dn]. *)
Definition DoneInv (T : nat) (P out : list V) (dn : list nat) (vs : list V) : Prop := length vs = n ∧
  ∀ i, i < n → vget vs i = if decide (Exists (fun t => inRange T t i) dn) then fin gf128Mul hashBlock bx P inputs.[i] (vget out i) else vget out i.

(** One thread decodes its range. *)
Lemma thread_decodes T P out dn t vs : 0 < T → t < T → t ∉ dn → (∀ i, vok (vget P i)) → DoneInv T P out dn vs →
  let begin := rangeBegin n T t in let m := rangeBegin n T (S t) - begin in
  ∃ va, implDecodeBatch gf128Mul libdivide_u64_do hashBlock bx idxBits (slice inputs begin m) (slice vs begin m) P = Ok va ∧
    DoneInv T P out (dn ++ [t]) (memcpy vs begin va 0 m).
Proof.
  intros HT Ht Hnew HP [Hl HI] begin m. pose proof (rangeBegin_le n T t HT). pose proof (rangeBegin_bound n T (S t) HT ltac:(lia)).
  assert (Hm : begin + m ≤ n) by (unfold begin, m; lia). assert (Hli : length (slice inputs begin m) = m) by (apply slice_length; lia).
  assert (Hlv : length (slice vs begin m) = m) by (apply slice_length; lia).
  destruct (implDecodeBatch_spec gf128Mul libdivide_u64_do hashBlock idxBits libdivide_ok hash_ok bx Hf Hnb Hnb' H20 P HP (slice inputs begin m) (slice vs begin m) ltac:(lia))
    as (va & E & Hla & Hva). exists va. split; [exact E|]. destruct (memcpy_vget vs begin va m ltac:(lia) ltac:(lia)) as [M1 M2]. split; [lia|].
  intros i Hi. rewrite M2. assert (Hr : (begin ≤ i ∧ i < begin + m) ↔ inRange T t i) by (unfold inRange, begin, m; lia).
  rewrite (decide_ext _ _ _ _ Hr). destruct (decide (inRange T t i)) as [Hin|Hout].
  - rewrite (decide_True (P := Exists _ _)) by (apply Exists_app; right; by constructor).
    assert (Hno : ¬ Exists (fun t => inRange T t i) dn).
    { intros (t' & Ht' & Hr')%Exists_exists. by rewrite (range_unique T t t' i HT Hin Hr') in Hnew. }
    apply Hr in Hin. rewrite Hva by lia. assert (Ei : (slice inputs begin m).[i - begin] = inputs.[i]).
    { unfold slice. rewrite !nth_lookup, lookup_take_lt, lookup_drop by lia. do 2 f_equal. lia. }
    rewrite Ei, vget_slice by lia. replace (begin + (i - begin)) with i by lia. by rewrite HI, decide_False by done.
  - rewrite HI by done. assert (Ex : Exists (fun t => inRange T t i) dn ↔ Exists (fun t => inRange T t i) (dn ++ [t])).
    { rewrite Exists_app, Exists_cons, Exists_nil. tauto. }
    by rewrite (decide_ext _ _ _ _ Ex).
Qed.

Lemma decode_threads P out numThreads order : bNumBins bx ≠ 1 → encodes P → length vals = n → length out = n →
  order ≡ₚ seq 0 (Nat.max numThreads 1) → decodeB inputs out P numThreads order = Ok (baxos_decoded out).
Proof.
  intros Hne He Hvl Hl Ho. unfold baxos_decode, implParDecode. rewrite (proj2 (Nat.eqb_neq _ _) Hne). cbv zeta. set (T := Nat.max numThreads 1) in *.
  assert (HT : 0 < T) by lia. assert (Hnd : NoDup order) by (rewrite Ho; apply NoDup_seq).
  match goal with |- foldR ?f ?l ?v = _ => destruct (foldR_inv (fun k vs => DoneInv T P out (take k order) vs) f l v) as (vs & E & Hlv & HI) end.
  - split; [done|]. intros i Hi. rewrite decide_False; [done|]. cbn. by intros ?%Exists_nil.
  - intros k t vs Hk HI. assert (Ht : t < T). { apply list_elem_of_lookup_2 in Hk. rewrite Ho in Hk. apply list_elem_of_In, in_seq in Hk. lia. }
    assert (Hnew : t ∉ take k order).
    { intros [j [Hj Hlt]%lookup_take_Some]%list_elem_of_lookup. rewrite (NoDup_lookup _ _ _ _ Hnd Hj Hk) in Hlt. lia. }
    destruct (thread_decodes T P out _ t vs HT Ht Hnew (encodes_ok P He) HI) as (va & E & HI'). rewrite E. cbn [mbind Res_bind].
    eexists. split; [done|]. by rewrite (take_S_r _ _ _ Hk).
  - rewrite E. f_equal. apply (all_decoded P); try done. intros i Hi. rewrite HI by done. rewrite firstn_all, decide_True; [done|].
    apply Exists_exists. destruct (range_cover T i T) as (t & Ht & Hr); [by rewrite rangeBegin_T|]. exists t. split; [|done].
    rewrite Ho. apply list_elem_of_In, in_seq. lia.
Qed.


End run.

(** A small instance: six inputs in two bins, two threads that take turns. *)
Definition demoBaxos : Baxos := mkBaxos 6 2 6 3 40 demoParam 0%Z false.
Definition demoInputs : list block := [0; 1; 2; 3; 4; 5]%Z.
Definition demoValues : list block := [7; 8; 9; 10; 11; 12]%Z.
Definition demoOrder1 : list (nat * item) :=
  default [] (schedule [1; 0; 0; 1; 0; 1] (tagged 2 (threadItems Z.div demoHash demoBaxos demoInputs 2))).
Definition demoSolve : Res (list block * option unit) :=
  baxos_solve Gf.mul Z.div demoHash (fun _ => []) (fun _ _ => 0) (fun _ _ _ => []) (H := PxVector_Helper Gf.mul) (fun r : unit => (0%Z, r))
    (fun k r => (replicate k 0%Z, r)) demoBaxos (fun _ _ _ => Ok 6) demoInputs demoValues 26 None 2 demoOrder1 [(1, 1); (0, 0)].
Definition demoDecode (P : list block) : Res (list block) :=
  baxos_decode Gf.mul Z.div demoHash (H := PxVector_Helper Gf.mul) demoBaxos demoInputs (replicate 6 0%Z) P 3 [2; 0; 1].

Lemma inBin_le bx inputs b l : length (inBin demoHash bx inputs b l) ≤ length l.
Proof. apply filter_length_le. Qed.

Lemma demo_fits : Fits (idxTypeBits demoBaxos) demoBaxos.
Proof. change (idxTypeBits demoBaxos) with 8%Z. split; cbn; try lia. Qed.

Lemma demo_solvable (vok := is_block) : Solvable Gf.mul demoHash (H := PxVector_Helper Gf.mul) (vok := vok) (R := unit) demoBaxos demoInputs demoValues
  (fun _ _ _ => Ok 6) 2 None.
Proof.
  split; [done|done| |done| | |by left].
  - intros i. do 6 (destruct i as [|i]; [by vm_compute|]). cbn. by destruct i.
  - intros _ T. exists 6. split; [done|]. intros t b Ht. etransitivity; [apply inBin_le|]. rewrite length_seq. subst T.
    pose proof (rangeBegin_bound 6 2 (S t) ltac:(lia) ltac:(cbn in Ht; lia)). change (length demoInputs) with 6. change (Nat.max 1 2) with 2. lia.
  - intros b c _. pose proof (rowsWith_length (map (binRow Gf.mul demoBaxos) (hashesOf demoHash demoBaxos demoInputs b)) c
      (length (hashesOf demoHash demoBaxos demoInputs b))) as Hl. unfold hashesOf in Hl at 3. rewrite length_map in Hl.
    pose proof (inBin_le demoBaxos demoInputs b (seq 0 6)) as Hb. rewrite length_seq in Hb. change (length demoInputs) with 6 in Hl. lia.
Qed.


End BaxosRun.
